(* ===== verification/_CoqProject ===== *)
-Q . S2P
Prelude.v
GoVal.v
Tuple.v
KV.v
Savepoint.v
GoStr.v
GoFloat.v
Json.v
Jsonb.v
Time.v
Types.v
JsonbOps.v
Catalog.v
Desc.v
Rows.v
SqlVal.v
Default.v
Wire.v
Lexer.v
LexSplit.v
WireErr.v
Conn.v
ConnOk.v
ConnSafe.v
Pairs.v
Index.v
Table.v
Seq.v
Threads.v
Upkeep.v
Dml.v
Relation.v
Engine.v
Store.v
SeqAlloc.v
MemDB.v
Database.v
Ddl.v
DdlColumn.v
DdlAddDrop.v
DdlTable.v
SeqObj.v
SeqObjAlloc.v
View.v
DdlIndex.v
Fk.v
Alter.v
Schema.v
RowStmt.v
Txn.v
Handler.v
Statements.v
TxnOk.v
TxnRun.v
Run.v
Atomic.v
Effects.v
WriteTxn.v
Session.v
SessionOk.v
ConnSession.v
SqlPlan.v
SqlPlanOk.v
SqlPlanned.v
SqlFk.v
SqlDml.v
SqlFkOk.v
SqlCascade.v
SqlDmlOk.v
SqlStmtOk.v
SqlRefs.v
