(* ===== verification/Prelude.v ===== *)
(** * bytdb

    bytdb is a relational database inside a Go process. Everything it stores
    (rows, index entries, table descriptors, counters, sequence objects, view
    texts) lives in one ordered key space of the key-value store btypedb;
    above the engine (package bytdb, the files at the top of src/) sit a SQL
    layer (src/sql), a Postgres wire server (src/pgwire) and a database/sql
    driver. This library models the engine, and the path from a client's
    bytes to it: connection, statement splitter and lexer, session, planner
    and scan, and the statements that write rows. It proves that the engine implements tables (what a row
    operation, a scan, a schema change or a transaction does to the key space
    is what the relational operation does to the table, on every branch,
    whatever the statement returns) and that the layers above it keep their
    contracts with the client and with the engine.

    ** Files and the code they model

    The ground:
    - [Prelude]: outcomes (value, error, panic), the state monad [M] with
      weakest preconditions [wp], byte strings and their order, and the
      lemmas and tactics the files share.
    - [GoVal], [GoStr], [GoFloat], [Json]: the Go language and standard
      library as the sources use them: [any] values, integers at their width,
      float64 as bit patterns, UTF-8, strconv, encoding/json.
    - [KV], [Savepoint], [Store] (class [DB]), [Threads] (class [Updates]):
      btypedb, which is not part of this repository, as interfaces. Each
      class of operations has a class of laws stating its documented
      behaviour, and an in-memory instance that satisfies them ([MemTx],
      [SaveTx], [MemDB], [mem_updates]).

    Values and keys:
    - [Tuple]: tuple/tuple.go, every function.
    - [Types], [Time], [Jsonb]: types.go (UUIDs, text arrays, timestamps and
      dates, jsonb).
    - [Catalog], [Desc]: the descriptor structs of engine.go, their lookups,
      the key layout, and the JSON codec [marshalDesc]/[parseDesc].
    - [Default]: default.go, and [renderLit] of sql/parser.go.

    Rows:
    - [Rows]: coercion and the row codec of dml.go; [Pairs]: the stored value
      as a tagged list.
    - [Index], [Table]: index entries, bounds and the four scans (index.go,
      dml.go), and the invariant [table_inv] that ties entries to rows.
    - [Seq]: the counters of seq.go inside a transaction.
    - [Upkeep], [Dml]: [fillIdentity] of identity.go and insertRow,
      updateRow, deleteRow and Get of dml.go.
    - [Relation]: the abstract table, a finite map from keys to rows, and the
      refinement theorems.

    The catalog and the schema changes:
    - [Engine]: descriptor resolution, the parse cache, the catalog listing
      (engine.go). [Store]: [updateDDL] with its optimistic attempts and the
      exclusive one, under interference by other goroutines.
    - [Database]: [db_inv], the invariant of the whole key space.
    - [Ddl], [DdlColumn], [DdlAddDrop], [DdlTable] (ddl.go), [DdlIndex]
      (index.go), [Fk] (fk.go), [Alter] (alter.go), [SeqObj] (seqobj.go and
      the option handling of sql/sequence.go), [View] (view.go), [RowStmt]
      (the one-shot statements of dml.go): a definition [XIn] for the closure
      a method passes to its transaction, and [X] for the method.
    - [Schema], [Statements], [Handler]: foreign keys, sequences and views
      across all of them, and the steps around a transaction.
    - [Run], [Atomic], [Effects]: sequences of statements; errors; effects.

    Transactions and concurrency:
    - [Txn], [TxnOk], [TxnRun], [WriteTxn]: txn.go and the identity methods
      of identity.go: the methods of a transaction, savepoints, the write
      cap, [client] (any program over the methods) and [WriteTxn].
    - [Threads], [SeqAlloc], [SeqObjAlloc]: seqalloc.go and the
      concurrent-writes branches of seq.go, as goroutines over shared memory,
      with mutexes, concurrent commits and crashes.

    The SQL layer:
    - [SqlVal], [JsonbOps]: comparison, three-valued logic, predicates, LIKE
      and the adaptation of literals (exec.go, ast.go, coerce.go, expr.go
      under src/sql); the jsonb operators (jsonb_ops.go).
    - [SqlPlan], [SqlPlanOk], [SqlPlanned]: the planner of plan.go, its
      re-binding (join.go) and the scan of exec.go; their theorems.
    - [SqlFk]: fk.go, the checks a statement runs on the rows it writes and
      the worklist of ON DELETE CASCADE. [SqlDml]: INSERT with ON CONFLICT
      (upsert.go), UPDATE, DELETE and TRUNCATE of exec.go inside their
      transaction, with check.go, rowbudget.go and the stored defaults.
      Expressions come through the interface [Evaluator].
    - [SqlFkOk], [SqlCascade], [SqlDmlOk], [SqlStmtOk], [SqlRefs]: what the
      checks decide, what a cascade removes, the rows a statement changes,
      and the theorems on references; [EvaluatorLaws] is what is asked of
      the evaluator.
    - [Lexer], [LexSplit]: lexer.go, and pgwire/split.go, which cuts a query
      text into statements before it is lexed.
    - [Session], [SessionOk]: session.go and vars.go, with [Begin], [Commit]
      and [Rollback] of txn.go; the abstract session they refine. What runs
      one statement is the interface [SqlExec].

    The wire (src/pgwire):
    - [Wire]: proto.go and values.go. [WireErr]: errors.go.
    - [Conn], [ConnOk], [ConnSafe]: conn.go after the handshake, over the
      interface [SqlLayer]; the message flow, and the absence of panics.
    - [ConnSession]: a connection over a session.

    ** What the theorems show

    - Encoding ([Tuple], [Rows], [Desc], [Default], [Types], [Time],
      [Jsonb]): byte order is tuple order; decoding inverts encoding and
      accepts nothing else; stored rows, descriptors, defaults, arrays, dates
      and jsonb texts read back.
    - Tables ([Relation]): each row operation refines the abstract one on
      every branch, scans return exactly the rows in their bounds in order,
      and any run of operations stays a refinement.
    - Statements ([Run], [Atomic], [Effects], [SeqObj]): any sequence of
      statements keeps the store sound and never panics; a failed statement
      leaves nothing behind; a schema change cannot be lost to write
      conflicts; what CREATE INDEX, ADD FOREIGN KEY, ALTER TYPE and SET
      PRIMARY KEY do to the data; sequences stay within their bounds.
    - Transactions ([WriteTxn]): atomicity for any client, rollback to
      savepoints, the write cap, TRUNCATE.
    - Sessions ([SessionOk], [ConnSession]): a script of statements, or any
      bytes a client sends, moves the committed state only by statements
      outside blocks and by the surviving statements of committed blocks;
      ROLLBACK TO, failed blocks and a lost COMMIT included.
    - Scans ([SqlPlanned]): whatever access path is picked, the rows found
      are those on which the condition is true, in the ORDER BY order where
      the sort is dropped. [JsonbOps]: containment is a preorder.
    - References ([SqlRefs]): INSERT, UPDATE, DELETE and TRUNCATE keep every
      foreign key holding, a DELETE removes the rows its WHERE is true of and
      those that follow through cascades and no others, and the DO UPDATE of
      an INSERT does not keep the references to the row it replaces.
    - The wire ([Wire], [LexSplit], [ConnOk], [ConnSafe]): frames and values
      survive the way to the server and back; splitting agrees with lexing;
      the replies keep the order the protocol prescribes for any input; no
      input panics a connection whose SQL layer describes its results truly.
    - Allocators ([SeqAlloc], [SeqObjAlloc]): no number is handed out twice
      in any interleaving, every call returns, and without interference the
      allocators draw what the transactional counters draw.

    ** Choices

    - Integers are [Z] with the range of their Go type as a predicate or the
      wrap-around written out. Column and table IDs that run out of their
      width are excluded by [room k], "the catalog has room for [k] more
      statements", which [sound] carries; theorems about [n] statements ask
      for room for [n].
    - Recursion is structural almost everywhere. The JSON reader, the lexer
      and the connection's loop take the length of their input as fuel, and
      the round trips and the theorems on them show that this is enough. The
      worklist of a cascade takes the number of keys in the store, and
      [fkAfterDelete_wp] shows that it is never used up: a round is queued
      only after a row was deleted. A [client]'s type bounds the number of
      its calls, and the retry loops count down the constants of the source.
    - Error values are the sentinels the callers compare with and otherwise
      the message; the key-value context that serr attaches is left out.
    - A map a Go loop ranges over is a list of its entries in any order.
    - A commit whose log append fails can stay visible until the process
      restarts, as txn.go says. The laws of [DB] give such errors the
      predicate [unsure]: a commit that fails with any other error has
      changed nothing, and with one of these it may have taken effect. The
      theorems on errors make the same distinction.
    - Row statements and transactions are those of the default mode, where
      writers take turns; schema statements and allocators are modelled in
      both modes.

    ** Not modelled

    - In src/sql: the parser, general expressions and the function library ([Evaluator]),
      queries (joins, aggregates, windows, set operations, subqueries, views,
      the system catalog), the dispatch of statements and those that add or
      drop constraints, and the sequence functions' lastval. A session takes
      the executor as [SqlExec]; the row statements of [SqlDml] are not
      connected to it.
    - In src/pgwire: the startup exchange, TLS, authentication, the server's
      accept loop, cancellation and deadlines. A connection starts after the
      handshake.
    - Opening and closing the store, options, memguard.go (the heap sampler;
      [e_CheckMemory] may refuse at any time), stats.go, lock.go, [ReadTxn].
    - The driver, replication and the command-line tools, which are adapters
      to other packages and I/O. *)
From Stdlib Require Export ZArith Lia Strings.Byte.

From stdpp Require Export base list gmap sorting option strings.

#[global] Set Default Goal Selector "!".

Declare Scope go_scope.
Delimit Scope go_scope with go.
Create HintDb bytdb discriminated.

(** ** Tactics shared by the components *)

(** Case analysis on the scrutinee of a [match] in a hypothesis or in the
    goal, keeping the equation. *)
Ltac case_in H :=
  match type of H with
  | context [match ?x with _ => _ end] =>
      lazymatch x with
      | context [match _ with _ => _ end] => fail
      | _ => let E := fresh "E" in destruct x eqn:E
      end
  end.
Ltac case_goal :=
  match goal with
  | |- context [match ?x with _ => _ end] =>
      lazymatch x with
      | context [match _ with _ => _ end] => fail
      | _ => let E := fresh "E" in destruct x eqn:E
      end
  end.

(** ** Bytes *)

#[export] Instance byte_eq_dec : EqDecision byte := Byte.byte_eq_dec.
#[export] Instance byte_countable : Countable byte.
Proof. refine (inj_countable Byte.to_N Byte.of_N _). apply Byte.of_to_N. Defined.

(** Go's [string] and [[]byte] are both byte sequences. *)
Abbreviation bytes := (list byte).

(** A Go string literal. *)
Definition go (s : String.string) : bytes := String.list_byte_of_string s.
Arguments go s%_string.

(** The text [s] between double quotes. *)
Definition quoted (s : bytes) : bytes := x22 :: s ++ [x22].

Definition b2z (b : byte) : Z := Z.of_N (Byte.to_N b).
Definition z2b (z : Z) : byte :=
  match Byte.of_N (Z.to_N (z mod 256)) with Some b => b | None => x00 end.

Lemma b2z_range b : (0 <= b2z b < 256)%Z.
Proof. unfold b2z. pose proof (Byte.to_N_bounded b). lia. Qed.

Lemma z2b_b2z b : z2b (b2z b) = b.
Proof.
  unfold z2b. rewrite Z.mod_small by apply b2z_range.
  unfold b2z. by rewrite N2Z.id, Byte.of_to_N.
Qed.

Lemma b2z_z2b z : b2z (z2b z) = (z mod 256)%Z.
Proof.
  unfold z2b. assert (0 <= z mod 256 < 256)%Z as Hr by (apply Z.mod_pos_bound; lia).
  destruct (Byte.of_N _) as [b|] eqn:E.
  - apply Byte.to_of_N in E. unfold b2z. rewrite E. lia.
  - apply Byte.of_N_None_iff in E. lia.
Qed.

#[export] Instance b2z_inj : Inj (=) (=) b2z.
Proof. intros a b H. rewrite <- (z2b_b2z a), <- (z2b_b2z b). by rewrite H. Qed.

(** Exclusive or on bytes, Go's [^] on [byte] operands. The program only
    uses the masks [0x00] and [0xFF]. *)
Definition bxor (a b : byte) : byte := z2b (Z.lxor (b2z a) (b2z b)).

Lemma bxor_00 b : bxor b x00 = b.
Proof. destruct b; reflexivity. Qed.
Lemma bxor_ff_involutive b : bxor (bxor b xff) xff = b.
Proof. destruct b; reflexivity. Qed.
Lemma b2z_bxor_ff b : b2z (bxor b xff) = (255 - b2z b)%Z.
Proof. destruct b; reflexivity. Qed.
#[export] Instance bxor_ff_inj : Inj (=) (=) (λ b, bxor b xff).
Proof. intros a b H. rewrite <- (bxor_ff_involutive a). by rewrite H, bxor_ff_involutive. Qed.

(** ** The byte order on keys *)

(** [bytes.Compare], and [cmp.Compare] and the operators [<] and [>=] on
    strings. *)
Fixpoint bcompare (a b : bytes) : comparison :=
  match a, b with
  | [], [] => Eq
  | [], _ :: _ => Lt
  | _ :: _, [] => Gt
  | x :: a', y :: b' =>
      match Z.compare (b2z x) (b2z y) with
      | Eq => bcompare a' b'
      | c => c
      end
  end.

Definition blt (a b : bytes) : Prop := bcompare a b = Lt.
Definition ble (a b : bytes) : Prop := bcompare a b <> Gt.
Definition bltb (a b : bytes) : bool := match bcompare a b with Lt => true | _ => false end.
(** Go's [a >= b] on strings. *)
Definition bgeb (a b : bytes) : bool := negb (bltb a b).

#[export] Instance blt_dec : RelDecision blt.
Proof. intros a b. unfold blt. destruct (bcompare a b); [right|left|right]; congruence. Defined.
#[export] Instance ble_dec : RelDecision ble.
Proof.
  intros a b. unfold ble.
  destruct (bcompare a b) eqn:E; [left; congruence|left; congruence|right; congruence].
Defined.

Lemma bcompare_refl a : bcompare a a = Eq.
Proof. induction a as [|x a IH]; simpl; [done|]. by rewrite Z.compare_refl. Qed.

Lemma bcompare_eq a b : bcompare a b = Eq <-> a = b.
Proof.
  split; [|intros ->; apply bcompare_refl].
  revert b; induction a as [|x a IH]; intros [|y b]; simpl; try done.
  destruct (Z.compare_spec (b2z x) (b2z y)) as [E| |]; try done.
  apply (inj b2z) in E as ->. intros H. f_equal. auto.
Qed.

Lemma bcompare_antisym a b : bcompare b a = CompOpp (bcompare a b).
Proof.
  revert b; induction a as [|x a IH]; intros [|y b]; simpl; try done.
  rewrite Z.compare_antisym. destruct (Z.compare (b2z x) (b2z y)); simpl; auto.
Qed.

Lemma blt_trans a b c : blt a b -> blt b c -> blt a c.
Proof.
  unfold blt. revert b c; induction a as [|x a IH]; intros [|y b] [|z c]; simpl; try done.
  destruct (Z.compare_spec (b2z x) (b2z y)); destruct (Z.compare_spec (b2z y) (b2z z));
    try done; intros;
    destruct (Z.compare_spec (b2z x) (b2z z)); try lia; eauto; done.
Qed.

Lemma blt_irrefl a : ~ blt a a.
Proof. unfold blt. by rewrite bcompare_refl. Qed.

Lemma ble_lt_or_eq a b : ble a b <-> blt a b \/ a = b.
Proof.
  unfold ble, blt. rewrite <- bcompare_eq. destruct (bcompare a b); intuition congruence.
Qed.
Lemma not_blt a b : ~ blt a b <-> ble b a.
Proof.
  unfold ble, blt. rewrite (bcompare_antisym a b). destruct (bcompare a b); simpl; intuition congruence.
Qed.
Lemma not_ble a b : ~ ble a b <-> blt b a.
Proof.
  unfold ble, blt. rewrite (bcompare_antisym a b). destruct (bcompare a b); simpl; intuition congruence.
Qed.
Lemma blt_ble a b : blt a b -> ble a b.
Proof. rewrite ble_lt_or_eq. auto. Qed.
Lemma ble_refl a : ble a a.
Proof. apply ble_lt_or_eq. auto. Qed.
Lemma ble_blt_trans a b c : ble a b -> blt b c -> blt a c.
Proof. intros [H| ->]%ble_lt_or_eq ?; eauto using blt_trans. Qed.
Lemma blt_ble_trans a b c : blt a b -> ble b c -> blt a c.
Proof. intros ? [H| <-]%ble_lt_or_eq; eauto using blt_trans. Qed.
#[export] Instance ble_trans : Transitive ble.
Proof.
  intros a b c H [H'| <-]%ble_lt_or_eq; [|done]. apply blt_ble. eauto using ble_blt_trans.
Qed.
#[export] Instance ble_total : Total ble.
Proof. intros a b. destruct (decide (ble a b)) as [|H%not_ble]; auto using blt_ble. Qed.
Lemma ble_antisym a b : ble a b -> ble b a -> a = b.
Proof. intros [H| ->]%ble_lt_or_eq H'; [|done]. by apply not_blt in H'. Qed.

Lemma bltb_true a b : bltb a b = true <-> blt a b.
Proof. unfold bltb, blt. destruct (bcompare a b); intuition congruence. Qed.
Lemma bltb_false a b : bltb a b = false <-> ble b a.
Proof. rewrite <- not_blt, <- bltb_true. destruct (bltb a b); intuition congruence. Qed.
Lemma bgeb_true a b : bgeb a b = true <-> ble b a.
Proof. unfold bgeb. rewrite negb_true_iff. apply bltb_false. Qed.
Lemma bgeb_false a b : bgeb a b = false <-> blt a b.
Proof. unfold bgeb. rewrite negb_false_iff. apply bltb_true. Qed.

#[export] Hint Resolve blt_trans blt_ble ble_refl ble_blt_trans blt_ble_trans : bytdb.

(** ** Divergence: two byte strings that differ at a position both have,
    so that neither is a prefix of the other. Order and distinctness of
    diverging strings survive whatever follows them. *)
Fixpoint diverge (a b : bytes) : Prop :=
  match a, b with
  | x :: a', y :: b' => x <> y \/ diverge a' b'
  | _, _ => False
  end.

Lemma bcompare_app_same a r s : bcompare (a ++ r) (a ++ s) = bcompare r s.
Proof. induction a as [|x a IH]; simpl; [done|]. by rewrite Z.compare_refl. Qed.

Lemma diverge_bcompare_app a b r s :
  diverge a b -> bcompare (a ++ r) (b ++ s) = bcompare a b.
Proof.
  revert b; induction a as [|x a IH]; intros [|y b]; simpl; try done.
  intros H. destruct (Z.compare_spec (b2z x) (b2z y)) as [E| |]; try done.
  apply (inj b2z) in E. destruct H; [done|auto].
Qed.

Lemma diverge_app a b r s : diverge a b -> diverge (a ++ r) (b ++ s).
Proof. revert b; induction a as [|x a IH]; intros [|y b]; simpl; naive_solver. Qed.
Lemma diverge_app_same a r s : diverge r s -> diverge (a ++ r) (a ++ s).
Proof. induction a; simpl; auto. Qed.
Lemma diverge_sym a b : diverge a b -> diverge b a.
Proof. revert b; induction a as [|x a IH]; intros [|y b]; simpl; naive_solver. Qed.
Lemma diverge_ne a b : diverge a b -> a <> b.
Proof.
  intros H <-. induction a as [|x a IH]; simpl in H; [done|]. destruct H; [done|auto].
Qed.
Lemma diverge_same_length a b : length a = length b -> a <> b -> diverge a b.
Proof.
  revert b; induction a as [|x a IH]; intros [|y b]; simpl; try done.
  intros [= Hl] Hne. destruct (decide (x = y)) as [->|]; [right|by left].
  apply IH; [done|congruence].
Qed.
Lemma diverge_fmap (f : byte -> byte) `{!Inj (=) (=) f} a b :
  diverge a b -> diverge (f <$> a) (f <$> b).
Proof.
  revert b; induction a as [|x a IH]; intros [|y b]; simpl; try done.
  intros [H|H]; [left|right; auto]. contradict H. by apply (inj f).
Qed.
Lemma diverge_not_prefix a b : diverge a b -> ~ a `prefix_of` b.
Proof.
  intros H [r ->]. revert H. induction a as [|x a IH]; simpl; [done|]. naive_solver.
Qed.

(** Inverting every byte reverses the order of diverging strings. *)
Lemma bcompare_invert a b :
  diverge a b ->
  bcompare ((λ c, bxor c xff) <$> a) ((λ c, bxor c xff) <$> b) = CompOpp (bcompare a b).
Proof.
  revert b; induction a as [|x a IH]; intros [|y b]; simpl; try done.
  rewrite !b2z_bxor_ff. intros H.
  destruct (Z.compare_spec (b2z x) (b2z y)) as [E|E|E].
  - rewrite E, Z.compare_refl. apply (inj b2z) in E. destruct H; [done|auto].
  - replace (255 - b2z x ?= 255 - b2z y)%Z with Gt; [done|]. symmetry. apply Z.compare_gt_iff. lia.
  - replace (255 - b2z x ?= 255 - b2z y)%Z with Lt; [done|]. symmetry. apply Z.compare_lt_iff. lia.
Qed.

(** Keys with a common prefix form an interval of the order. *)
Lemma ble_app a r : ble a (a ++ r).
Proof.
  unfold ble. rewrite <- (app_nil_r a) at 1. rewrite bcompare_app_same. by destruct r.
Qed.

(** ** Errors and control flow *)

(** The error values the program tells apart ([errors.Is]); every other
    error is its message. [serr.Wrap] only adds context fields, which are
    not part of the model, and keeps the identity of what it wraps. *)
Inductive error :=
  | ENew (msg : bytes)          (* serr.New, fmt.Errorf *)
  | EJson                       (* an error of encoding/json *)
  | ETxConflict                 (* btypedb.ErrTxConflict *)
  | ETxNotWritable              (* btypedb.ErrTxNotWritable *)
  | ESeqReset                   (* seqalloc.go errSeqReset *)
  | EOutOfMemory                (* memguard.go ErrOutOfMemory *)
  | ETxnTooLarge.               (* memguard.go ErrTxnTooLarge *)

(** Go run-time panics. *)
Inductive panic :=
  | PIndex                      (* index out of range *)
  | PTypeAssert                 (* failed single-value type assertion *)
  | PExplicit.                  (* panic(...) in the source *)

Inductive outcome (A : Type) :=
  | Ok (a : A)
  | Err (e : error)
  | Panic (p : panic).
Arguments Ok {A} a.
Arguments Err {A} e.
Arguments Panic {A} p.

#[export] Instance error_eq_dec : EqDecision error.
Proof. solve_decision. Defined.

#[export] Instance outcome_ret : MRet outcome := @Ok.
#[export] Instance outcome_bind : MBind outcome := λ A B f m,
  match m with Ok a => f a | Err e => Err e | Panic p => Panic p end.
#[export] Instance outcome_fmap : FMap outcome := λ A B f m,
  match m with Ok a => Ok (f a) | Err e => Err e | Panic p => Panic p end.

Definition is_ok {A} (o : outcome A) : bool := match o with Ok _ => true | _ => false end.
Definition is_panic {A} (o : outcome A) : bool := match o with Panic _ => true | _ => false end.

Lemma outcome_bind_ok {A B} (m : outcome A) (f : A -> outcome B) b :
  (m ≫= f) = Ok b -> exists a, m = Ok a /\ f a = Ok b.
Proof. destruct m; simpl; naive_solver. Qed.

(** A slice index expression [l[i]]: out of range panics. *)
Definition at_index {A} (l : list A) (i : nat) : outcome A :=
  match l !! i with Some x => Ok x | None => Panic PIndex end.

(** The loop [for _, x := range l { y, err := f(x); if err != nil { return err } ... append y }]. *)
Fixpoint traverse {A B} (f : A -> outcome B) (l : list A) : outcome (list B) :=
  match l with
  | [] => Ok []
  | x :: l' => y ← f x; ys ← traverse f l'; Ok (y :: ys)
  end.

Lemma traverse_panic {A B} (f : A -> outcome B) l p : traverse f l = Panic p -> exists x, x ∈ l /\ f x = Panic p.
Proof.
  induction l as [|x l IH]; simpl; [done|]. destruct (f x) as [y|e|q] eqn:Ef; simpl; [|done|intros [= ->]; exists x; split; [left|done]].
  destruct (traverse f l) as [ys|e|q] eqn:Et; simpl; [done..|]. intros [= ->]. destruct (IH eq_refl) as (z & Hz & Hp).
  exists z. split; [by right|done].
Qed.
Lemma traverse_ok {A B} (f : A -> outcome B) l ys :
  traverse f l = Ok ys <-> Forall2 (λ x y, f x = Ok y) l ys.
Proof.
  revert ys; induction l as [|x l IH]; intros ys; simpl.
  - split; [by intros [= <-]|by inversion 1].
  - split.
    + intros (y & Hy & (ys' & Hys & [= <-])%outcome_bind_ok)%outcome_bind_ok.
      constructor; [done|by apply IH].
    + inversion 1 as [|? y ? ys' Hy Hys]; subst. rewrite Hy; simpl.
      apply IH in Hys. by rewrite Hys.
Qed.

Lemma traverse_ext {A B} (f g : A -> outcome B) l :
  Forall (λ x, f x = g x) l -> traverse f l = traverse g l.
Proof. induction 1 as [|x l Hx _ IH]; simpl; [done|]. by rewrite Hx, IH. Qed.

Lemma traverse_length {A B} (f : A -> outcome B) l ys :
  traverse f l = Ok ys -> length ys = length l.
Proof. intros H%traverse_ok. symmetry. by eapply Forall2_length. Qed.

(** Stateful Go code: the new state comes with the outcome, so an error
    return keeps whatever was written before it. *)
Definition M (S A : Type) : Type := S -> outcome A * S.

#[export] Instance M_ret {S} : MRet (M S) := λ A a s, (Ok a, s).
#[export] Instance M_bind {S} : MBind (M S) := λ A B f m s,
  match m s with
  | (Ok a, s') => f a s'
  | (Err e, s') => (Err e, s')
  | (Panic p, s') => (Panic p, s')
  end.

(** Code that does not touch the state. *)
Definition lift {S A} (o : outcome A) : M S A := λ s, (o, s).
Definition fail {S A} (e : error) : M S A := lift (Err e).
Definition gets {S A} (f : S -> A) : M S A := λ s, (Ok (f s), s).
Definition modify {S} (f : S -> S) : M S unit := λ s, (Ok tt, f s).

(** [for _, x := range l { if err := f(x); err != nil { return err } }]. *)
Fixpoint for_each {S A} (f : A -> M S unit) (l : list A) : M S unit :=
  match l with
  | [] => mret ()
  | x :: l' => f x ≫= λ _, for_each f l'
  end.

Lemma M_bind_ok {S A B} (m : M S A) (f : A -> M S B) s b s' :
  (m ≫= f) s = (Ok b, s') -> exists a s1, m s = (Ok a, s1) /\ f a s1 = (Ok b, s').
Proof.
  unfold mbind, M_bind. destruct (m s) as [[a|e|p] s1]; intros; simplify_eq; eauto.
Qed.

(** ** Sorted lists *)

(** A list sorted by a strict order is determined by its members. *)
Section sorted.
Context {A} (R : A -> A -> Prop).
Hypothesis R_irrefl : forall x, ~ R x x.
Hypothesis R_trans : forall x y z, R x y -> R y z -> R x z.

Lemma sorted_head_unique x l y k :
  StronglySorted R (x :: l) -> StronglySorted R (y :: k) ->
  (forall z, z ∈ x :: l <-> z ∈ y :: k) -> x = y.
Proof.
  intros [_ Hl]%StronglySorted_inv [_ Hk]%StronglySorted_inv H.
  rewrite Forall_forall in Hl, Hk.
  assert (x ∈ y :: k) as [Hx|Hx]%elem_of_cons by (apply H, list_elem_of_here); [done|].
  assert (y ∈ x :: l) as [Hy|Hy]%elem_of_cons by (apply H, list_elem_of_here); [done|].
  exfalso. apply (R_irrefl x). eauto.
Qed.

Lemma sorted_unique l k :
  StronglySorted R l -> StronglySorted R k -> (forall z, z ∈ l <-> z ∈ k) -> l = k.
Proof.
  intros Hl. revert k. induction Hl as [|x l Hl IH Hx]; intros [|y k] Hk H; [done|..].
  - assert (y ∈ @nil A) as ?%elem_of_nil by (apply H, list_elem_of_here). done.
  - assert (x ∈ @nil A) as ?%elem_of_nil by (apply H, list_elem_of_here). done.
  - assert (x = y) as -> by (apply (sorted_head_unique x l y k); [by constructor|done|done]).
    apply StronglySorted_inv in Hk as [Hk Hy]. f_equal. apply IH; [done|]. intros z.
    rewrite Forall_forall in Hx, Hy. specialize (H z). rewrite !elem_of_cons in H.
    split; intros Hz.
    + destruct (proj1 H (or_intror Hz)) as [->|?]; [|done]. exfalso. eapply R_irrefl, Hx, Hz.
    + destruct (proj2 H (or_intror Hz)) as [->|?]; [|done]. exfalso. eapply R_irrefl, Hy, Hz.
Qed.

Lemma sorted_filter (P : A -> Prop) `{!forall x, Decision (P x)} l :
  StronglySorted R l -> StronglySorted R (filter P l).
Proof.
  induction 1 as [|x l Hl IH Hx]; [constructor|]. rewrite filter_cons. case_decide; [|done].
  constructor; [done|]. rewrite Forall_forall in *. intros y [_ Hy]%list_elem_of_filter. auto.
Qed.

Lemma sorted_weaken (R' : A -> A -> Prop) l : StronglySorted R l ->
  (forall x y, x ∈ l -> y ∈ l -> R x y -> R' x y) -> StronglySorted R' l.
Proof.
  intros Hl. induction Hl as [|x l Hl IH Hx]; intros H; [constructor|]. constructor.
  - apply IH. intros y z Hy Hz. apply H; by right.
  - rewrite Forall_forall in *. intros y Hy. apply H; [left|by right|auto].
Qed.

End sorted.

(** The loop prefix [if !p(x) { return }]. *)
Fixpoint take_while {A} (p : A -> bool) (l : list A) : list A :=
  match l with
  | [] => []
  | x :: l' => if p x then x :: take_while p l' else []
  end.

(** On a list sorted so that [p] fails from some point on, it is a filter. *)
Lemma take_while_filter {A} (R : A -> A -> Prop) (p : A -> bool) l :
  StronglySorted R l -> (forall x y, R x y -> p y = true -> p x = true) ->
  take_while p l = filter (λ x, p x = true) l.
Proof.
  intros Hl Hp. induction Hl as [|x l Hl IH Hx]; [done|]. simpl. rewrite filter_cons.
  destruct (p x) eqn:E.
  - rewrite decide_True by done. by rewrite IH.
  - rewrite decide_False by done. symmetry.
    destruct (filter _ l) as [|y l'] eqn:Ef; [done|].
    assert (y ∈ filter (λ x, p x = true) l) as [Hy Hin]%list_elem_of_filter by (rewrite Ef; left).
    rewrite Forall_forall in Hx. specialize (Hp x y (Hx y Hin) Hy). congruence.
Qed.

(** ** Reasoning about stateful code *)

(** [wp m Q s]: running [m] from [s] ends with an outcome and a state that
    satisfy [Q]. Every run ends, so this is total correctness. *)
Definition wp {S A : Type} (m : M S A) (Q : outcome A -> S -> Prop) (s : S) : Prop :=
  Q (m s).1 (m s).2.

(** What is left to show after the first statement of a sequence. *)
Definition seqQ {S A B : Type} (f : A -> M S B) (Q : outcome B -> S -> Prop) (o : outcome A) (s : S) : Prop :=
  match o with
  | Ok a => wp (f a) Q s
  | Err e => Q (Err e) s
  | Panic p => Q (Panic p) s
  end.

Section wp.
Context {S : Type}.

Lemma wp_bind {A B} (m : M S A) (f : A -> M S B) Q s :
  wp m (seqQ f Q) s -> wp (m ≫= f) Q s.
Proof. unfold wp, seqQ, mbind, M_bind. by destruct (m s) as [[] ?]. Qed.

Lemma wp_mono {A} (m : M S A) (Q Q' : outcome A -> S -> Prop) s :
  wp m Q s -> (forall o s', Q o s' -> Q' o s') -> wp m Q' s.
Proof. unfold wp. auto. Qed.

Lemma wp_ret {A} (a : A) Q (s : S) : Q (Ok a) s -> wp (mret a) Q s.
Proof. done. Qed.
Lemma wp_lift {A} (o : outcome A) Q (s : S) : Q o s -> wp (lift o) Q s.
Proof. done. Qed.
Lemma wp_fail {A} e (Q : outcome A -> S -> Prop) s : Q (Err e) s -> wp (fail e) Q s.
Proof. done. Qed.
Lemma wp_gets {A} (f : S -> A) Q s : Q (Ok (f s)) s -> wp (gets f) Q s.
Proof. done. Qed.
Lemma wp_modify (f : S -> S) Q s : Q (Ok tt) (f s) -> wp (modify f) Q s.
Proof. done. Qed.

Lemma wp_bind_lift {A B} (o : outcome A) (f : A -> M S B) Q s :
  seqQ f Q o s -> wp (lift o ≫= f) Q s.
Proof. intros H. by apply wp_bind, wp_lift. Qed.

Lemma wp_run {A} (m : M S A) Q s o s' : wp m Q s -> m s = (o, s') -> Q o s'.
Proof. unfold wp. intros H E. by rewrite E in H. Qed.

(** A loop keeps what each round keeps. *)
Lemma wp_for_each {A} (f : A -> M S unit) (I : list A -> S -> Prop) Q l s :
  I l s ->
  (forall x l' s', I (x :: l') s' ->
    wp (f x) (λ o s1, match o with Ok _ => I l' s1 | Err e => Q (Err e) s1 | Panic p => Q (Panic p) s1 end) s') ->
  (forall s', I [] s' -> Q (Ok tt) s') -> wp (for_each f l) Q s.
Proof.
  intros HI Hstep Hend. revert s HI. induction l as [|x l IH]; intros s HI; [by apply wp_ret, Hend|].
  cbn [for_each]. apply wp_bind. eapply wp_mono; [by apply Hstep|]. intros [[]|e|p] s1 H1; simpl; auto.
Qed.

End wp.

Lemma NoDup_fmap_inj_in {A B : Type} (f : A -> B) (l : list A) x y : NoDup (f <$> l) -> x ∈ l -> y ∈ l -> f x = f y -> x = y.
Proof.
  intros Hnd [i Hi]%list_elem_of_lookup [j Hj]%list_elem_of_lookup E.
  assert (i = j) as ->; [|congruence]. eapply (NoDup_lookup _ _ _ (f x) Hnd); rewrite list_lookup_fmap; [by rewrite Hi|by rewrite Hj, E].
Qed.
