(* ===== verification/GoVal.v ===== *)
(** * Go run-time values

    The values the engine's [any] parameters carry, machine integers at
    their width, and IEEE-754 binary64 numbers as their bit patterns
    ([math.Float64bits] is then the identity). *)
From S2P Require Import Prelude.

Local Open Scope Z_scope.

(** ** Machine integers *)

Definition two63 : Z := 2 ^ 63.
Definition two64 : Z := 2 ^ 64.
Definition maxInt64 : Z := 2 ^ 63 - 1.
Definition minInt64 : Z := - 2 ^ 63.
Definition maxUint64 : Z := 2 ^ 64 - 1.

(** Conversions [uint64(z)], [int64(z)] and [uint32(z)]. *)
Definition uint64 (z : Z) : Z := z mod 2 ^ 64.
Definition int64 (z : Z) : Z := (z + 2 ^ 63) mod 2 ^ 64 - 2 ^ 63.
Definition uint32 (z : Z) : Z := z mod 2 ^ 32.

Definition int64_ok (z : Z) : Prop := - 2 ^ 63 <= z < 2 ^ 63.
Definition uint64_ok (z : Z) : Prop := 0 <= z < 2 ^ 64.
Definition uint32_ok (z : Z) : Prop := 0 <= z < 2 ^ 32.

Lemma int64_range z : int64_ok (int64 z).
Proof. unfold int64_ok, int64. pose proof (Z.mod_pos_bound (z + 2^63) (2^64)). lia. Qed.
Lemma uint64_range z : uint64_ok (uint64 z).
Proof. unfold uint64_ok, uint64. apply Z.mod_pos_bound. lia. Qed.
Lemma int64_id z : int64_ok z -> int64 z = z.
Proof. unfold int64_ok, int64. intros. rewrite Z.mod_small; lia. Qed.
Lemma uint64_id z : uint64_ok z -> uint64 z = z.
Proof. unfold uint64_ok, uint64. intros. by rewrite Z.mod_small. Qed.
Lemma int64_uint64 z : int64_ok z -> int64 (uint64 z) = z.
Proof.
  unfold int64_ok, int64, uint64. intros.
  rewrite Zplus_mod_idemp_l, Z.mod_small; lia.
Qed.

(** ** Big-endian byte strings *)

(** [binary.BigEndian.AppendUint64] is [be 8]; [be_val] reads it back. *)
Fixpoint be (n : nat) (u : Z) : bytes :=
  match n with
  | O => []
  | S n' => z2b (u / 256 ^ Z.of_nat n') :: be n' u
  end.
Fixpoint be_val (l : bytes) : Z :=
  match l with
  | [] => 0
  | b :: l' => b2z b * 256 ^ Z.of_nat (length l') + be_val l'
  end.
Definition be64 (u : Z) : bytes := be 8 u.
Arguments be64 : simpl never.

Lemma be_length n u : length (be n u) = n.
Proof. induction n; simpl; auto. Qed.

Lemma be64_length u : length (be64 u) = 8%nat.
Proof. apply be_length. Qed.

Lemma pow256_pos (n : nat) : 0 < 256 ^ Z.of_nat n.
Proof. apply Z.pow_pos_nonneg; lia. Qed.
Lemma pow256_S (n : nat) : 256 ^ Z.of_nat (S n) = 256 * 256 ^ Z.of_nat n.
Proof. rewrite Nat2Z.inj_succ, Z.pow_succ_r by lia. done. Qed.

Lemma be_val_be n u : be_val (be n u) = u mod 256 ^ Z.of_nat n.
Proof.
  induction n as [|n IH]; [simpl; by rewrite Z.mod_1_r|].
  cbn [be be_val]. rewrite be_length, IH, b2z_z2b, pow256_S.
  pose proof (pow256_pos n). rewrite (Z.mul_comm 256), Z.rem_mul_r by lia. lia.
Qed.

Lemma be_val_bound l : 0 <= be_val l < 256 ^ Z.of_nat (length l).
Proof.
  induction l as [|b l IH]; [simpl; lia|].
  cbn [be_val length]. rewrite pow256_S. pose proof (b2z_range b). pose proof (pow256_pos (length l)).
  nia.
Qed.

Lemma be_mod n m u : (n <= m)%nat -> be n (u mod 256 ^ Z.of_nat m) = be n u.
Proof.
  induction n as [|n IH]; intros Hn; [done|]. cbn [be]. rewrite IH by lia. f_equal.
  apply (inj b2z). rewrite !b2z_z2b. pose proof (pow256_pos n).
  replace (Z.of_nat m) with (Z.of_nat n + Z.of_nat (m - n)) by lia.
  rewrite Z.pow_add_r by lia. pose proof (pow256_pos (m - n)).
  rewrite Z.rem_mul_r by lia.
  rewrite (Z.mul_comm (256 ^ Z.of_nat n)), Z.div_add, Z.div_small by
    (try lia; apply Z.mod_pos_bound; lia).
  rewrite Z.add_0_l. replace (m - n)%nat with (S (m - n - 1)) by lia.
  rewrite pow256_S, Z.rem_mul_r by (try lia; pose proof (pow256_pos (m - n - 1)); lia).
  rewrite (Z.mul_comm 256), Z.mod_add, Z.mod_mod by lia. done.
Qed.

Lemma be_be_val l : be (length l) (be_val l) = l.
Proof.
  induction l as [|b l IH]; [done|]. cbn [length be_val be]. pose proof (be_val_bound l).
  rewrite (Z.add_comm (_ * _)), Z.div_add, Z.div_small by lia. rewrite Z.add_0_l, z2b_b2z.
  f_equal. rewrite <- (be_mod (length l) (length l) (_ + _)) by lia.
  rewrite Z.mod_add by lia. rewrite be_mod by lia. done.
Qed.

Lemma be_compare n u v :
  0 <= u < 256 ^ Z.of_nat n -> 0 <= v < 256 ^ Z.of_nat n ->
  bcompare (be n u) (be n v) = Z.compare u v.
Proof.
  revert u v; induction n as [|n IH]; intros u v Hu Hv.
  { simpl in *. replace u with v by lia. by rewrite Z.compare_refl. }
  cbn [be bcompare]. rewrite pow256_S in Hu, Hv. pose proof (pow256_pos n).
  rewrite !b2z_z2b, !Z.mod_small by
    (split; [apply Z.div_pos; lia|apply Z.div_lt_upper_bound; lia]).
  rewrite <- (be_mod n n u), <- (be_mod n n v) by lia.
  rewrite IH by (apply Z.mod_pos_bound; lia).
  pose proof (Z.div_mod u (256 ^ Z.of_nat n)). pose proof (Z.div_mod v (256 ^ Z.of_nat n)).
  pose proof (Z.mod_pos_bound u (256 ^ Z.of_nat n)). pose proof (Z.mod_pos_bound v (256 ^ Z.of_nat n)).
  destruct (Z.compare_spec (u / 256 ^ Z.of_nat n) (v / 256 ^ Z.of_nat n)) as [E|E|E].
  - rewrite E in *. destruct (Z.compare_spec (u mod 256 ^ Z.of_nat n) (v mod 256 ^ Z.of_nat n)); symmetry;
      [apply Z.compare_eq_iff|apply Z.compare_lt_iff|apply Z.compare_gt_iff]; lia.
  - symmetry. apply Z.compare_lt_iff. nia.
  - symmetry. apply Z.compare_gt_iff. nia.
Qed.

Lemma be_inj n u v :
  0 <= u < 256 ^ Z.of_nat n -> 0 <= v < 256 ^ Z.of_nat n -> be n u = be n v -> u = v.
Proof.
  intros Hu Hv E%(f_equal be_val). rewrite !be_val_be, !Z.mod_small in E by done. done.
Qed.

(** Complementing all the bits of a 64-bit word complements each byte. *)
Lemma be_complement n u : 0 <= u < 256 ^ Z.of_nat n ->
  be n (256 ^ Z.of_nat n - 1 - u) = (λ c, bxor c xff) <$> be n u.
Proof.
  revert u; induction n as [|n IH]; intros u Hu; [done|].
  cbn [be fmap list_fmap]. pose proof (pow256_pos n). rewrite pow256_S in *.
  pose proof (Z.div_mod u (256 ^ Z.of_nat n)). pose proof (Z.mod_pos_bound u (256 ^ Z.of_nat n)).
  assert (0 <= u / 256 ^ Z.of_nat n < 256) by
    (split; [apply Z.div_pos; lia|apply Z.div_lt_upper_bound; lia]).
  f_equal.
  - apply (inj b2z). rewrite b2z_bxor_ff, !b2z_z2b.
    replace ((256 * 256 ^ Z.of_nat n - 1 - u) / 256 ^ Z.of_nat n) with (255 - u / 256 ^ Z.of_nat n).
    + rewrite !Z.mod_small; lia.
    + apply Z.div_unique with (256 ^ Z.of_nat n - 1 - u mod 256 ^ Z.of_nat n); nia.
  - rewrite <- (be_mod n n u), <- (be_mod n n (_ - _ - _)) by lia.
    rewrite <- IH by (apply Z.mod_pos_bound; lia). rewrite <- (be_mod n n (_ - _ - u mod _)) by lia.
    f_equal. symmetry. rewrite Z.mod_small by lia.
    apply Z.mod_unique_pos with (255 - u / 256 ^ Z.of_nat n); nia.
Qed.

(** ** Float64 and float32 bit patterns *)

Definition f64_ok (b : Z) : Prop := 0 <= b < 2 ^ 64.
Definition f64_neg (b : Z) : bool := Z.testbit b 63.
Definition f64_exp (b : Z) : Z := (b / 2 ^ 52) mod 2048.
Definition f64_frac (b : Z) : Z := b mod 2 ^ 52.

Definition f64_isNaN (b : Z) : bool := (f64_exp b =? 2047) && negb (f64_frac b =? 0).
(** [math.IsInf(f, 1)] and [math.IsInf(f, -1)] *)
Definition f64_isInf (b : Z) (neg : bool) : bool :=
  (f64_exp b =? 2047) && (f64_frac b =? 0) && Bool.eqb (f64_neg b) neg.

(** The value of the number scaled by 2^1074, an exact integer; infinities
    sit past every finite number. The scaling keeps the order. *)
Definition f64_mag (b : Z) : Z :=
  if f64_exp b =? 0 then f64_frac b else (2 ^ 52 + f64_frac b) * 2 ^ (f64_exp b - 1).
Definition f64_val (b : Z) : Z := if f64_neg b then - f64_mag b else f64_mag b.

(** [cmp.Compare] on floats: NaN equals NaN and is below everything else. *)
Definition f64_cmp (x y : Z) : comparison :=
  match f64_isNaN x, f64_isNaN y with
  | true, true => Eq
  | true, false => Lt
  | false, true => Gt
  | false, false => Z.compare (f64_val x) (f64_val y)
  end.

(** [f == 0] *)
Definition f64_is0 (b : Z) : bool := negb (f64_isNaN b) && (f64_val b =? 0).

(** The conversion [float64(f)] of a [float32]. Signalling NaNs become
    quiet, as the hardware conversion does. *)
Definition f32_to_f64 (b : Z) : Z :=
  let s := b / 2 ^ 31 in
  let e := (b / 2 ^ 23) mod 256 in
  let m := b mod 2 ^ 23 in
  s * 2 ^ 63 +
  (if e =? 255 then 2047 * 2 ^ 52 + (if m =? 0 then 0 else if m <? 2 ^ 22 then m * 2 ^ 29 + 2 ^ 51 else m * 2 ^ 29)
   else if e =? 0 then
     if m =? 0 then 0
     else let p := Z.log2 m in (p - 149 + 1023) * 2 ^ 52 + (m - 2 ^ p) * 2 ^ (52 - p)
   else (e - 127 + 1023) * 2 ^ 52 + m * 2 ^ 29).

(** The conversion [float64(n)] of an [int64]: nearest, ties to even. A
    significand rounded up to 2^53 carries into the exponent. *)
Definition int64_to_f64 (n : Z) : Z :=
  if n =? 0 then 0
  else
    let a := Z.abs n in
    let p := Z.log2 a in
    let q :=
      if p <=? 52 then a * 2 ^ (52 - p)
      else
        let sh := p - 52 in
        let hi := a / 2 ^ sh in
        let lo := a mod 2 ^ sh in
        let half := 2 ^ (sh - 1) in
        if (half <? lo) || ((lo =? half) && Z.odd hi) then hi + 1 else hi in
    (if n <? 0 then 2 ^ 63 else 0) + (p + 1023) * 2 ^ 52 + (q - 2 ^ 52).

Example f64_one : int64_to_f64 1 = 0x3FF0000000000000. Proof. reflexivity. Qed.
Example f64_two53_1 : int64_to_f64 (2 ^ 53 + 1) = int64_to_f64 (2 ^ 53). Proof. reflexivity. Qed.
Example f64_max : int64_to_f64 maxInt64 = 0x43E0000000000000. Proof. reflexivity. Qed.
Example f32_one : f32_to_f64 0x3F800000 = 0x3FF0000000000000. Proof. reflexivity. Qed.
Example f32_denorm : f32_to_f64 1 = 0x36A0000000000000. Proof. reflexivity. Qed.

Lemma f32_to_f64_ok b : 0 <= b < 2 ^ 32 -> f64_ok (f32_to_f64 b).
Proof.
  intros Hb. unfold f64_ok, f32_to_f64.
  assert (0 <= b / 2 ^ 31 <= 1) as Hs.
  { split; [apply Z.div_pos; lia|]. apply Z.lt_succ_r, Z.div_lt_upper_bound; lia. }
  pose proof (Z.mod_pos_bound (b / 2 ^ 23) 256). pose proof (Z.mod_pos_bound b (2 ^ 23)).
  set (s := b / 2 ^ 31) in *. set (e := (b / 2 ^ 23) mod 256) in *. set (m := b mod 2 ^ 23) in *.
  clearbody s e m.
  destruct (Z.eqb_spec e 255); [destruct (Z.eqb_spec m 0); [lia|destruct (Z.ltb_spec m (2 ^ 22)); lia]|].
  destruct (Z.eqb_spec e 0); [|lia]. destruct (Z.eqb_spec m 0); [lia|].
  pose proof (Z.log2_spec m) as Hp. assert (Z.log2 m < 23) by (apply Z.log2_lt_pow2; lia).
  pose proof (Z.log2_nonneg m). set (p := Z.log2 m) in *. rewrite Z.pow_succ_r in Hp by lia.
  assert (0 <= (m - 2 ^ p) * 2 ^ (52 - p) < 2 ^ 52); [|lia].
  assert (2 ^ 52 = 2 ^ p * 2 ^ (52 - p)) as -> by (rewrite <- Z.pow_add_r by lia; f_equal; lia).
  assert (0 < 2 ^ (52 - p)) by (apply Z.pow_pos_nonneg; lia).
  split; [apply Z.mul_nonneg_nonneg; lia|apply Z.mul_lt_mono_pos_r; lia].
Qed.

(** The exponent field of a converted integer stays well below 2047. *)
Lemma int64_to_f64_shape n : int64_ok n ->
  exists s u, int64_to_f64 n = s * 2 ^ 63 + u /\ 0 <= s <= 1 /\ 0 <= u < 1088 * 2 ^ 52.
Proof.
  intros Hn. unfold int64_to_f64, int64_ok in *. destruct (Z.eqb_spec n 0); [by exists 0, 0|]. cbv zeta.
  pose proof (Z.log2_spec (Z.abs n)) as Hp. pose proof (Z.log2_nonneg (Z.abs n)).
  assert (Z.log2 (Z.abs n) <= 63) by (apply Z.lt_succ_r, Z.log2_lt_pow2; lia).
  set (p := Z.log2 (Z.abs n)) in *. set (a := Z.abs n) in *. rewrite Z.pow_succ_r in Hp by lia.
  match goal with |- context [(_ + (?q - 2 ^ 52))] => assert (2 ^ 52 <= q <= 2 ^ 53) as Hq end.
  { destruct (Z.leb_spec p 52).
    - assert (2 ^ 52 = 2 ^ p * 2 ^ (52 - p)) as E by (rewrite <- Z.pow_add_r by lia; f_equal; lia).
      assert (0 < 2 ^ (52 - p)) by (apply Z.pow_pos_nonneg; lia).
      assert (2 ^ 53 = 2 * 2 ^ 52) as -> by done. rewrite E. nia.
    - assert (2 ^ p = 2 ^ 52 * 2 ^ (p - 52)) as E by (rewrite <- Z.pow_add_r by lia; f_equal; lia).
      assert (0 < 2 ^ (p - 52)) by (apply Z.pow_pos_nonneg; lia).
      assert (2 ^ 52 <= a / 2 ^ (p - 52)) by (apply Z.div_le_lower_bound; lia).
      assert (a / 2 ^ (p - 52) < 2 ^ 53) by (apply Z.div_lt_upper_bound; lia).
      destruct (_ || _); lia. }
  match goal with |- context [(_ + (?q - 2 ^ 52))] => exists (if n <? 0 then 1 else 0), ((p + 1023) * 2 ^ 52 + (q - 2 ^ 52)) end.
  destruct (n <? 0); lia.
Qed.
Lemma int64_to_f64_ok n : int64_ok n -> f64_ok (int64_to_f64 n).
Proof. intros (s & u & -> & Hs & Hu)%int64_to_f64_shape. unfold f64_ok. lia. Qed.
Lemma int64_to_f64_not_nan n : int64_ok n -> f64_isNaN (int64_to_f64 n) = false.
Proof.
  intros (s & u & -> & Hs & Hu)%int64_to_f64_shape. unfold f64_isNaN, f64_exp. apply andb_false_intro1, Z.eqb_neq.
  replace (s * 2 ^ 63 + u) with (u + (s * 2048) * 2 ^ 52) by lia. rewrite Z.div_add, Z_mod_plus_full by done.
  assert (0 <= u / 2 ^ 52 < 1088) by (split; [apply Z.div_pos; lia|apply Z.div_lt_upper_bound; lia]). rewrite Z.mod_small by lia. lia.
Qed.

(** *** The order of bit patterns is the order of values *)


Lemma f64_neg_spec b : f64_ok b -> f64_neg b = (2 ^ 63 <=? b).
Proof.
  intros [H0 H1]. unfold f64_neg. rewrite Z.testbit_eqb by lia.
  destruct (Z.leb_spec (2 ^ 63) b) as [H|H].
  - replace (b / 2 ^ 63) with 1; [done|].
    apply Z.div_unique with (b - 2 ^ 63); lia.
  - by rewrite Z.div_small by lia.
Qed.

(** Magnitude bits: what is left without the sign. *)
Definition f64_abs (b : Z) : Z := b mod 2 ^ 63.

Lemma f64_mag_abs b : f64_mag b = f64_mag (f64_abs b).
Proof.
  assert (f64_exp (f64_abs b) = f64_exp b) as He.
  { unfold f64_exp, f64_abs. change (2 ^ 63) with (2 ^ 52 * 2048).
    rewrite Z.rem_mul_r, (Z.mul_comm (2 ^ 52)), Z.div_add by lia.
    rewrite (Z.div_small (b mod _)) by (apply Z.mod_pos_bound; lia).
    rewrite Z.add_0_l. by rewrite Z.mod_mod. }
  assert (f64_frac (f64_abs b) = f64_frac b) as Hf.
  { unfold f64_frac, f64_abs. change (2 ^ 63) with (2 ^ 52 * 2048).
    rewrite Z.rem_mul_r, (Z.mul_comm (2 ^ 52)), Z.mod_add by lia. by rewrite Z.mod_mod. }
  unfold f64_mag. by rewrite He, Hf.
Qed.

Lemma f64_mag_mono a b : 0 <= a < b -> b < 2 ^ 63 -> f64_mag a < f64_mag b.
Proof.
  intros Ha Hb. unfold f64_mag, f64_exp, f64_frac.
  rewrite !(Z.mod_small (_ / _)) by
    (split; [apply Z.div_pos; lia|apply Z.div_lt_upper_bound; lia]).
  pose proof (Z.div_mod a (2 ^ 52)) as Da. pose proof (Z.div_mod b (2 ^ 52)) as Db.
  pose proof (Z.mod_pos_bound a (2 ^ 52)) as Ra. pose proof (Z.mod_pos_bound b (2 ^ 52)) as Rb.
  assert (0 <= a / 2 ^ 52) as Pa by (apply Z.div_pos; lia).
  assert (a / 2 ^ 52 <= b / 2 ^ 52) as Hle by (apply Z.div_le_mono; lia).
  set (ea := a / 2 ^ 52) in *. set (eb := b / 2 ^ 52) in *.
  set (fa := a mod 2 ^ 52) in *. set (fb := b mod 2 ^ 52) in *.
  clearbody ea eb fa fb.
  destruct (Z.eqb_spec ea 0) as [->|Hea]; destruct (Z.eqb_spec eb 0) as [->|Heb]; try lia.
  destruct (Z.eq_dec ea eb) as [<-|Hne].
  - apply Z.mul_lt_mono_pos_r; [apply Z.pow_pos_nonneg; lia|lia].
  - assert (2 ^ ea <= 2 ^ (eb - 1)) as HP by (apply Z.pow_le_mono_r; lia).
    assert (2 ^ ea = 2 * 2 ^ (ea - 1)) as E by (rewrite <- Z.pow_succ_r by lia; f_equal; lia).
    assert (0 < 2 ^ (ea - 1)) as Hp by (apply Z.pow_pos_nonneg; lia).
    apply Z.lt_le_trans with (2 ^ 53 * 2 ^ (ea - 1)).
    * apply Z.mul_lt_mono_pos_r; lia.
    * apply Z.le_trans with (2 ^ 52 * 2 ^ (eb - 1)); [lia|].
      apply Z.mul_le_mono_nonneg_r; lia.
Qed.

Lemma f64_mag_nonneg b : 0 <= f64_mag b.
Proof.
  unfold f64_mag. pose proof (Z.mod_pos_bound b (2 ^ 52)). unfold f64_frac.
  destruct (_ =? 0); [lia|]. apply Z.mul_nonneg_nonneg; [lia|]. apply Z.pow_nonneg. lia.
Qed.

Lemma f64_mag_compare a b : 0 <= a < 2 ^ 63 -> 0 <= b < 2 ^ 63 ->
  Z.compare (f64_mag a) (f64_mag b) = Z.compare a b.
Proof.
  intros Ha Hb. destruct (Z.compare_spec a b) as [->|H|H].
  - apply Z.compare_refl.
  - apply Z.compare_lt_iff, f64_mag_mono; lia.
  - apply Z.compare_gt_iff, f64_mag_mono; lia.
Qed.

Lemma f64_mag_zero : f64_mag 0 = 0.
Proof. reflexivity. Qed.

Lemma f64_mag_pos a : 0 < a < 2 ^ 63 -> 0 < f64_mag a.
Proof. intros. rewrite <- f64_mag_zero at 1. apply f64_mag_mono; lia. Qed.

(** The bit patterns of zero. *)
Lemma f64_val_zero b : f64_ok b -> f64_val b = 0 -> b = 0 \/ b = 2 ^ 63.
Proof.
  intros Hb H. unfold f64_val in H. rewrite f64_mag_abs, f64_neg_spec in H by done. unfold f64_ok in Hb.
  assert (f64_mag (f64_abs b) = 0) as H0 by (destruct (_ <=? _); lia).
  assert (0 <= f64_abs b < 2 ^ 63) as Hr by (apply Z.mod_pos_bound; lia).
  destruct (Z.eq_dec (f64_abs b) 0) as [E|E].
  - unfold f64_abs in E. apply Z.mod_divide in E as [q Hq]; lia.
  - pose proof (f64_mag_pos (f64_abs b)). lia.
Qed.

(** [uint64] bit operations against the top bit *)
Lemma land_two63 u : uint64_ok u -> (Z.land u two63 =? 0) = (u <? 2 ^ 63).
Proof.
  intros [H0 H1]. unfold two63.
  destruct (Z.ltb_spec u (2 ^ 63)).
  - apply Z.eqb_eq, Z.bits_inj'. intros n Hn. rewrite Z.land_spec, Z.bits_0, Z.pow2_bits_eqb by lia.
    destruct (Z.eqb_spec 63 n) as [<-|]; [|apply andb_false_r].
    rewrite Z.testbit_eqb, Z.div_small by lia. done.
  - apply Z.eqb_neq. intros E%(f_equal (λ z, Z.testbit z 63)).
    rewrite Z.land_spec, Z.bits_0, Z.pow2_bits_true, andb_true_r, Z.testbit_eqb in E by lia.
    replace (u / 2 ^ 63) with 1 in E; [done|]. apply Z.div_unique with (u - 2 ^ 63); lia.
Qed.

Lemma lor_two63 u : 0 <= u < 2 ^ 63 -> Z.lor u two63 = u + 2 ^ 63.
Proof.
  intros H. rewrite <- Z.add_nocarry_lor; [done|]. apply Z.eqb_eq.
  rewrite land_two63 by (unfold uint64_ok; lia). apply Z.ltb_lt. lia.
Qed.

Lemma lxor_two63 u : uint64_ok u ->
  Z.lxor u two63 = if u <? 2 ^ 63 then u + 2 ^ 63 else u - 2 ^ 63.
Proof.
  assert (forall v, 0 <= v < 2 ^ 63 -> Z.lxor v two63 = v + 2 ^ 63) as Hlow.
  { intros v Hv. rewrite <- Z.add_nocarry_lxor; [done|]. apply Z.eqb_eq.
    rewrite land_two63 by (unfold uint64_ok; lia). apply Z.ltb_lt. lia. }
  intros [H0 H1]. destruct (Z.ltb_spec u (2 ^ 63)); [auto|].
  replace u with (Z.lxor (u - 2 ^ 63) two63) at 1 by (rewrite Hlow; lia).
  by rewrite Z.lxor_assoc, Z.lxor_nilpotent, Z.lxor_0_r.
Qed.

Lemma ldiff_two63 u : 2 ^ 63 <= u < 2 ^ 64 -> Z.ldiff u two63 = u - 2 ^ 63.
Proof.
  intros H. rewrite <- Z.sub_nocarry_ldiff; [done|].
  apply Z.bits_inj'. intros n Hn. rewrite Z.ldiff_spec, Z.bits_0. unfold two63.
  rewrite Z.pow2_bits_eqb by lia. destruct (Z.eqb_spec 63 n) as [<-|]; [|done].
  rewrite Z.testbit_eqb by lia. replace (u / 2 ^ 63) with 1; [done|].
  apply Z.div_unique with (u - 2 ^ 63); lia.
Qed.

(** ** Interface values *)

Inductive ikind :=
  | KInt | KInt8 | KInt16 | KInt32 | KInt64
  | KUint | KUint8 | KUint16 | KUint32 | KUint64.

(** Go's [any], by dynamic type. [ATime] carries the instant in
    nanoseconds since the Unix epoch; [A16bytes] is [[16]byte]. *)
Inductive any :=
  | ANil
  | ABool (b : bool)
  | AInt (k : ikind) (z : Z)
  | AFloat32 (bits : Z)
  | AFloat64 (bits : Z)
  | AString (s : bytes)
  | ABytes (s : bytes)
  | ATime (nanos : Z)
  | A16bytes (s : bytes)
  | AStrings (l : list bytes)
  | AOther (typ : bytes).

#[export] Instance ikind_eq_dec : EqDecision ikind.
Proof. solve_decision. Defined.
#[export] Instance any_eq_dec : EqDecision any.
Proof. solve_decision. Defined.

(** [v == nil] *)
Definition is_nil (v : any) : bool := match v with ANil => true | _ => false end.

Definition ikind_min (k : ikind) : Z :=
  match k with
  | KInt | KInt64 => - 2 ^ 63 | KInt8 => - 2 ^ 7 | KInt16 => - 2 ^ 15 | KInt32 => - 2 ^ 31
  | _ => 0
  end.
Definition ikind_max (k : ikind) : Z :=
  match k with
  | KInt | KInt64 => 2 ^ 63 | KInt8 => 2 ^ 7 | KInt16 => 2 ^ 15 | KInt32 => 2 ^ 31
  | KUint | KUint64 => 2 ^ 64 | KUint8 => 2 ^ 8 | KUint16 => 2 ^ 16 | KUint32 => 2 ^ 32
  end.

(** The values of Go's types: an integer within its kind's range, a float
    within 64 (32) bits. *)
Definition any_ok (v : any) : Prop :=
  match v with
  | AInt k z => ikind_min k <= z < ikind_max k
  | AFloat64 b => f64_ok b
  | AFloat32 b => 0 <= b < 2 ^ 32
  | A16bytes s => length s = 16%nat
  | _ => True
  end.

#[export] Instance ikind_countable : Countable ikind.
Proof.
  refine (inj_countable'
    (λ k, match k with
          | KInt => 0 | KInt8 => 1 | KInt16 => 2 | KInt32 => 3 | KInt64 => 4
          | KUint => 5 | KUint8 => 6 | KUint16 => 7 | KUint32 => 8 | KUint64 => 9
          end)%nat
    (λ n, match n with
          | 0 => KInt | 1 => KInt8 | 2 => KInt16 | 3 => KInt32 | 4 => KInt64
          | 5 => KUint | 6 => KUint8 | 7 => KUint16 | 8 => KUint32 | _ => KUint64
          end)%nat _).
  by intros [].
Defined.

(** Tuples of values can key finite maps. *)
#[export] Instance any_countable : Countable any.
Proof.
  refine (inj_countable'
    (λ v, match v with
          | ANil => inl (inl None)
          | ABool b => inl (inl (Some b))
          | AInt k z => inl (inr (k, z))
          | AFloat32 b => inr (inl (0%nat, b))
          | AFloat64 b => inr (inl (1%nat, b))
          | ATime n => inr (inl (2%nat, n))
          | AString s => inr (inr (0%nat, [s]))
          | ABytes s => inr (inr (1%nat, [s]))
          | A16bytes s => inr (inr (2%nat, [s]))
          | AOther s => inr (inr (3%nat, [s]))
          | AStrings l => inr (inr (4%nat, l))
          end)
    (λ x, match x with
          | inl (inl None) => ANil
          | inl (inl (Some b)) => ABool b
          | inl (inr (k, z)) => AInt k z
          | inr (inl (0%nat, b)) => AFloat32 b
          | inr (inl (1%nat, b)) => AFloat64 b
          | inr (inl (_, n)) => ATime n
          | inr (inr (0%nat, s)) => AString (default [] (head s))
          | inr (inr (1%nat, s)) => ABytes (default [] (head s))
          | inr (inr (2%nat, s)) => A16bytes (default [] (head s))
          | inr (inr (3%nat, s)) => AOther (default [] (head s))
          | inr (inr (_, l)) => AStrings l
          end) _).
  by intros [].
Defined.
