(* ===== verification/Tuple.v ===== *)
(** * The order-preserving tuple encoding (src/tuple/tuple.go)

    Definitions follow the source function by function; the theorems show
    that byte order of encodings is tuple order, that decoding inverts
    encoding in both directions, that the two-pass [unescape] computes the
    one-pass reference, and that [PrefixEnd] bounds a prefix exactly. *)
From S2P Require Import Prelude GoVal.

Local Open Scope Z_scope.

(** ** Tags and escapes *)

Definition tagNull : byte := x01.
Definition tagFalse : byte := x02.
Definition tagTrue : byte := x03.
Definition tagInt : byte := x04.
Definition tagFloat : byte := x05.
Definition tagBytes : byte := x06.
Definition tagString : byte := x07.

Definition escByte : byte := x00.
Definition escaped00 : byte := xff.
Definition terminator : byte := x01.

(** ** Normalization *)

Definition normalizeFloat (f : Z) : outcome any :=
  if f64_isNaN f then Err (ENew (go "tuple: NaN is not encodable"))
  else if f64_is0 f then Ok (AFloat64 0)
  else Ok (AFloat64 f).

Definition normalize (v : any) : outcome any :=
  match v with
  | ANil | ABool _ | AInt KInt64 _ | AString _ | ABytes _ => Ok v
  | AInt KUint z =>
      if maxInt64 <? z then Err (ENew (go "tuple: uint value overflows int64"))
      else Ok (AInt KInt64 (int64 z))
  | AInt KUint64 z =>
      if maxInt64 <? z then Err (ENew (go "tuple: uint64 value overflows int64"))
      else Ok (AInt KInt64 (int64 z))
  | AInt _ z => Ok (AInt KInt64 (int64 z))
  | AFloat32 f => normalizeFloat (f32_to_f64 f)
  | AFloat64 f => normalizeFloat f
  | _ => Err (ENew (go "tuple: unsupported element type"))
  end.

(** ** Encoding *)

Fixpoint appendEscaped (buf : bytes) (mask : byte) (s : bytes) : bytes :=
  match s with
  | [] => buf ++ [bxor escByte mask; bxor terminator mask]
  | c :: s' =>
      appendEscaped
        (if decide (c = escByte) then buf ++ [bxor escByte mask; bxor escaped00 mask]
         else buf ++ [bxor c mask])
        mask s'
  end.

Definition appendValue (buf : bytes) (mask : byte) (v : any) : outcome bytes :=
  let u64 (buf : bytes) (u : Z) : bytes :=
    buf ++ be64 (if decide (mask = x00) then u else maxUint64 - u) in
  match v with
  | ANil => Ok (buf ++ [bxor tagNull mask])
  | ABool true => Ok (buf ++ [bxor tagTrue mask])
  | ABool false => Ok (buf ++ [bxor tagFalse mask])
  | AInt KInt64 t => Ok (u64 (buf ++ [bxor tagInt mask]) (Z.lxor (uint64 t) two63))
  | AFloat64 t =>
      let bits := t in
      let bits := if negb (Z.land bits two63 =? 0) then maxUint64 - bits
                  else Z.lor bits two63 in
      Ok (u64 (buf ++ [bxor tagFloat mask]) bits)
  | ABytes t => Ok (appendEscaped (buf ++ [bxor tagBytes mask]) mask t)
  | AString t => Ok (appendEscaped (buf ++ [bxor tagString mask]) mask t)
  | _ => Panic PExplicit
  end.

Fixpoint appendVals (buf : bytes) (mask : byte) (vals : list any) : outcome bytes :=
  match vals with
  | [] => Ok buf
  | v :: vals' =>
      n ← normalize v;
      buf' ← appendValue buf mask n;
      appendVals buf' mask vals'
  end.

Definition Append (buf : bytes) (vals : list any) : outcome bytes := appendVals buf x00 vals.
Definition AppendDesc (buf : bytes) (vals : list any) : outcome bytes := appendVals buf xff vals.
Definition Encode (vals : list any) : outcome bytes := Append [] vals.

(** ** Decoding *)

(** First pass of [unescape]: from index [i], the logical length [n] and
    the number of escape pairs up to the terminator, and the terminator's
    index; [None] when there is none. *)
Fixpoint unescape_scan (mask : byte) (data : bytes) (i n escapes : nat)
  : outcome (option (nat * nat * nat)) :=
  match data with
  | [] => Ok None
  | c :: data' =>
      if decide (c = bxor escByte mask) then
        match data' with
        | [] => Ok None
        | d :: data'' =>
            if decide (bxor d mask = escaped00) then
              unescape_scan mask data'' (S (S i)) (S n) (S escapes)
            else if decide (bxor d mask = terminator) then Ok (Some (i, n, escapes))
            else Err (ENew (go "tuple: invalid escape sequence"))
        end
      else unescape_scan mask data' (S i) (S n) escapes
  end.

(** Second pass, the loop that drops each pair's second byte. *)
Fixpoint unescape_emit (mask : byte) (body : bytes) : bytes :=
  match body with
  | [] => []
  | c :: body' =>
      let b := bxor c mask in
      if decide (b = escByte) then
        b :: match body' with [] => [] | _ :: body'' => unescape_emit mask body'' end
      else b :: unescape_emit mask body'
  end.

(** Writing [l] into [make([]byte, n)] index by index: past the end panics,
    and what is not written stays zero. *)
Definition fill (n : nat) (l : bytes) : outcome bytes :=
  if (length l <=? n)%nat then Ok (l ++ replicate (n - length l) x00) else Panic PIndex.

Definition unescape (data : bytes) (mask : byte) : outcome (bytes * bytes) :=
  r ← unescape_scan mask data 0 0 0;
  match r with
  | None => Err (ENew (go "tuple: unterminated byte-string element"))
  | Some (end_, n, escapes) =>
      let rest := drop (end_ + 2) data in
      let body := take end_ data in
      raw ← (if (escapes =? 0)%nat then
               if decide (mask = x00) then
                 (* copy(raw, body) stops at the shorter of the two *)
                 Ok (take n body ++ replicate (n - length body) x00)
               else fill n ((λ b, bxor b mask) <$> body)
             else fill n (unescape_emit mask body));
      Ok (raw, rest)
  end.

Definition decodeOne (data : bytes) (mask : byte) : outcome (any * bytes) :=
  let u64 (b : bytes) : Z :=
    let u := be_val (take 8 b) in if decide (mask = x00) then u else maxUint64 - u in
  match data with
  | [] => Panic PIndex
  | t :: data =>
      let tag := bxor t mask in
      if decide (tag = tagNull) then Ok (ANil, data)
      else if decide (tag = tagFalse) then Ok (ABool false, data)
      else if decide (tag = tagTrue) then Ok (ABool true, data)
      else if decide (tag = tagInt) then
        if (length data <? 8)%nat then Err (ENew (go "tuple: truncated int element"))
        else Ok (AInt KInt64 (int64 (Z.lxor (u64 data) two63)), drop 8 data)
      else if decide (tag = tagFloat) then
        if (length data <? 8)%nat then Err (ENew (go "tuple: truncated float element"))
        else
          let bits := u64 data in
          let bits := if negb (Z.land bits two63 =? 0) then Z.ldiff bits two63
                      else maxUint64 - bits in
          Ok (AFloat64 bits, drop 8 data)
      else if decide (tag = tagBytes \/ tag = tagString) then
        '(raw, rest) ← unescape data mask;
        if decide (tag = tagString) then Ok (AString raw, rest) else Ok (ABytes raw, rest)
      else Err (ENew (go "tuple: unknown type tag"))
  end.

Definition DecodeOne (data : bytes) (desc : bool) : outcome (any * bytes) :=
  match data with
  | [] => Err (ENew (go "tuple: empty input"))
  | _ => decodeOne data (if desc then xff else x00)
  end.

(** The loop [for len(data) > 0]. Every element takes at least its tag
    byte, so [length data] iterations are enough ([Decode_fuel_enough]). *)
Fixpoint Decode_loop (fuel : nat) (data : bytes) : outcome (list any) :=
  match data with
  | [] => Ok []
  | _ =>
      match fuel with
      | O => Panic PExplicit
      | S fuel' =>
          '(v, rest) ← decodeOne data x00;
          out ← Decode_loop fuel' rest;
          Ok (v :: out)
      end
  end.
Definition Decode (data : bytes) : outcome (list any) := Decode_loop (length data) data.

(** ** Comparison *)

Definition rank (v : any) : outcome Z :=
  match v with
  | ANil => Ok (b2z tagNull)
  | ABool true => Ok (b2z tagTrue)
  | ABool false => Ok (b2z tagFalse)
  | AInt KInt64 _ => Ok (b2z tagInt)
  | AFloat64 _ => Ok (b2z tagFloat)
  | ABytes _ => Ok (b2z tagBytes)
  | AString _ => Ok (b2z tagString)
  | _ => Panic PExplicit
  end.

(** [normalize] with an error turned into a panic, as [compareValues] does. *)
Definition normalize_or_panic (v : any) : outcome any :=
  match normalize v with Err _ => Panic PExplicit | r => r end.

Definition compareValues (av bv : any) : outcome comparison :=
  a ← normalize_or_panic av;
  b ← normalize_or_panic bv;
  ra ← rank a;
  rb ← rank b;
  match Z.compare ra rb with
  | Eq =>
      match a, b with
      | AInt KInt64 t, AInt KInt64 u => Ok (Z.compare t u)
      | AFloat64 t, AFloat64 u => Ok (f64_cmp t u)
      | ABytes t, ABytes u => Ok (bcompare t u)
      | AString t, AString u => Ok (bcompare t u)
      | (AInt KInt64 _ | AFloat64 _ | ABytes _ | AString _), _ => Panic PTypeAssert
      | _, _ => Ok Eq
      end
  | c => Ok c
  end.

Fixpoint Compare (a b : list any) : outcome comparison :=
  match a, b with
  | [], [] => Ok Eq
  | [], _ :: _ => Ok Lt
  | _ :: _, [] => Ok Gt
  | x :: a', y :: b' =>
      c ← compareValues x y;
      match c with Eq => Compare a' b' | c => Ok c end
  end.

(** ** Prefix scans *)

(** The loop runs from the last byte down: bytes [0xFF] are cut off, the
    last other byte is incremented. [None] is Go's [nil]. *)
Fixpoint PrefixEnd_loop (r : bytes) : option bytes :=
  match r with
  | [] => None
  | c :: r' =>
      if decide (c = xff) then PrefixEnd_loop r' else Some (reverse (z2b (b2z c + 1) :: r'))
  end.
Definition PrefixEnd (prefix : bytes) : option bytes := PrefixEnd_loop (reverse prefix).

(** ** Canonical elements: what [normalize] produces *)

Definition canon (v : any) : Prop :=
  match v with
  | ANil | ABool _ | AString _ | ABytes _ => True
  | AInt KInt64 z => int64_ok z
  | AFloat64 b => f64_ok b /\ f64_isNaN b = false /\ b <> 2 ^ 63
  | _ => False
  end.

Lemma normalizeFloat_canon f n : f64_ok f -> normalizeFloat f = Ok n -> canon n.
Proof.
  intros Hf. unfold normalizeFloat. destruct (f64_isNaN f) eqn:En; [done|].
  destruct (f64_is0 f) eqn:E0; intros [= <-]; simpl.
  - split_and!; [unfold f64_ok; lia|done|lia].
  - split_and!; [done|done|]. intros ->. by vm_compute in E0.
Qed.

Lemma normalize_canon v n : any_ok v -> normalize v = Ok n -> canon n.
Proof.
  intros Hv. destruct v as [| |k z|b|b|s|s|t|s|l|o]; simpl; try done; try (by intros [= <-]).
  - destruct k; simpl in *; unfold int64_ok; intros H; try case_in H; simplify_eq; simpl;
      try apply int64_range; done.
  - intros H. eapply normalizeFloat_canon; [by apply f32_to_f64_ok|done].
  - by apply normalizeFloat_canon.
Qed.

Lemma normalize_canon_id n : canon n -> normalize n = Ok n.
Proof.
  destruct n as [| |k z|b|b|s|s|t|s|l|o]; simpl; try done; [destruct k; done|].
  intros (Hb & Hn & Hz). unfold normalizeFloat, f64_is0. rewrite Hn. simpl.
  destruct (Z.eqb_spec (f64_val b) 0) as [E|]; [|done].
  by destruct (f64_val_zero b Hb E) as [->| ->].
Qed.

Lemma normalize_idem v n : any_ok v -> normalize v = Ok n -> normalize n = Ok n.
Proof. intros Hv Hn. apply normalize_canon_id. by eapply normalize_canon. Qed.

(** [ns] are the elements [vals] normalize to. *)
Abbreviation normals vals := (traverse normalize vals).

Lemma normals_canon vals ns : Forall any_ok vals -> normals vals = Ok ns -> Forall canon ns.
Proof.
  intros Hok H%traverse_ok. induction H as [|v n vals ns Hv _ IH]; [constructor|].
  apply Forall_cons in Hok as [Hv' Hok]. constructor; [by eapply normalize_canon|auto].
Qed.

Lemma normals_canon_id ns : Forall canon ns -> normals ns = Ok ns.
Proof.
  intros H. apply traverse_ok. induction H; constructor; auto using normalize_canon_id.
Qed.

(** ** The encoding of one canonical element *)

Definition mask_ok (mask : byte) : Prop := mask = x00 \/ mask = xff.

Definition masked (mask : byte) (l : bytes) : bytes := (λ c, bxor c mask) <$> l.
Arguments masked : simpl never.

(** The 64-bit sort keys of integers and floats. *)
Definition intKey (z : Z) : Z := z + 2 ^ 63.
Definition floatKey (b : Z) : Z := if b <? 2 ^ 63 then b + 2 ^ 63 else maxUint64 - b.

Fixpoint escape (s : bytes) : bytes :=
  match s with
  | [] => [escByte; terminator]
  | c :: s' => (if decide (c = escByte) then [escByte; escaped00] else [c]) ++ escape s'
  end.

Definition elem (n : any) : bytes :=
  match n with
  | ANil => [tagNull]
  | ABool true => [tagTrue]
  | ABool false => [tagFalse]
  | AInt _ z => tagInt :: be64 (intKey z)
  | AFloat64 b => tagFloat :: be64 (floatKey b)
  | ABytes s => tagBytes :: escape s
  | AString s => tagString :: escape s
  | _ => []
  end.

Lemma masked_app mask a b : masked mask (a ++ b) = masked mask a ++ masked mask b.
Proof. apply fmap_app. Qed.
Lemma masked_cons mask c l : masked mask (c :: l) = bxor c mask :: masked mask l.
Proof. done. Qed.
Lemma masked_length mask l : length (masked mask l) = length l.
Proof. apply length_fmap. Qed.
Lemma masked_00 l : masked x00 l = l.
Proof. unfold masked. induction l as [|c l IH]; csimpl; [done|]. by rewrite bxor_00, IH. Qed.
Lemma masked_involutive mask l : mask_ok mask -> masked mask (masked mask l) = l.
Proof.
  intros [->| ->]; [by rewrite !masked_00|]. unfold masked. induction l as [|c l IH]; csimpl; [done|].
  by rewrite bxor_ff_involutive, IH.
Qed.
Lemma bxor_involutive mask c : mask_ok mask -> bxor (bxor c mask) mask = c.
Proof. intros [->| ->]; [by rewrite !bxor_00|apply bxor_ff_involutive]. Qed.
Lemma bxor_swap mask c d : mask_ok mask -> c = bxor d mask <-> bxor c mask = d.
Proof. intros Hm. split; [intros ->|intros <-]; by rewrite bxor_involutive. Qed.

Lemma masked_be64 mask u : mask_ok mask -> uint64_ok u ->
  masked mask (be64 u) = be64 (if decide (mask = x00) then u else maxUint64 - u).
Proof.
  intros [->| ->] Hu; [by rewrite masked_00|]. unfold masked, be64. rewrite decide_False by done.
  by rewrite <- be_complement.
Qed.

Lemma intKey_ok z : int64_ok z -> uint64_ok (intKey z).
Proof. unfold int64_ok, uint64_ok, intKey. lia. Qed.
Lemma floatKey_ok b : f64_ok b -> uint64_ok (floatKey b).
Proof. unfold f64_ok, uint64_ok, floatKey, maxUint64. destruct (Z.ltb_spec b (2 ^ 63)); lia. Qed.

Lemma lxor_intKey z : int64_ok z -> Z.lxor (uint64 z) two63 = intKey z.
Proof.
  intros Hz. rewrite lxor_two63 by apply uint64_range. unfold intKey, uint64, int64_ok in *.
  destruct (Z.le_gt_cases 0 z).
  - rewrite Z.mod_small by lia. destruct (Z.ltb_spec z (2 ^ 63)); lia.
  - rewrite <- (Z.mod_add z 1), Z.mod_small by lia. destruct (Z.ltb_spec (z + 1 * 2 ^ 64) (2 ^ 63)); lia.
Qed.

Lemma bits_floatKey b : f64_ok b ->
  (if negb (Z.land b two63 =? 0) then maxUint64 - b else Z.lor b two63) = floatKey b.
Proof.
  intros Hb. rewrite land_two63 by done. unfold floatKey, f64_ok in *.
  destruct (Z.ltb_spec b (2 ^ 63)); simpl; [apply lor_two63; lia|done].
Qed.

Lemma appendEscaped_spec buf mask s : appendEscaped buf mask s = buf ++ masked mask (escape s).
Proof.
  revert buf; induction s as [|c s IH]; intros buf; simpl; [done|].
  rewrite IH, masked_app, app_assoc. f_equal. by case_decide.
Qed.

Lemma appendValue_spec buf mask n : mask_ok mask -> canon n ->
  appendValue buf mask n = Ok (buf ++ masked mask (elem n)).
Proof.
  intros Hm Hn.
  destruct n as [|[]|[] z|b|b|s|s|t|s|l|o]; simpl in Hn; try done;
    unfold appendValue, elem; rewrite ?appendEscaped_spec, <- ?app_assoc, ?masked_cons; try done.
  - rewrite lxor_intKey, masked_be64 by (done || by apply intKey_ok). done.
  - destruct Hn as [Hb _]. rewrite bits_floatKey, masked_be64 by (done || by apply floatKey_ok). done.
Qed.

(** The encoding of a list of canonical elements. *)
Definition elems (ns : list any) : bytes := ns ≫= elem.

Lemma appendVals_ok buf mask vals ns : mask_ok mask -> Forall any_ok vals ->
  normals vals = Ok ns -> appendVals buf mask vals = Ok (buf ++ masked mask (elems ns)).
Proof.
  intros Hm Hok H%traverse_ok. revert buf. induction H as [|v n vals ns Hv _ IH]; intros buf.
  { simpl. by rewrite app_nil_r. }
  apply Forall_cons in Hok as [Hv' Hok]. simpl. rewrite Hv. simpl.
  rewrite appendValue_spec by (done || by eapply normalize_canon). simpl.
  rewrite IH by done. by rewrite masked_app, app_assoc.
Qed.

Lemma appendVals_inv buf mask vals out : mask_ok mask -> Forall any_ok vals ->
  appendVals buf mask vals = Ok out ->
  exists ns, normals vals = Ok ns /\ out = buf ++ masked mask (elems ns).
Proof.
  intros Hm Hok. revert buf. induction Hok as [|v vals Hv Hok IH]; intros buf; simpl.
  { intros [= ->]. exists []. simpl. by rewrite app_nil_r. }
  destruct (normalize v) as [n| |] eqn:En; simpl; try done.
  rewrite appendValue_spec by (done || by eapply normalize_canon). simpl.
  intros (ns & -> & ->)%IH. exists (n :: ns). simpl. by rewrite masked_app, app_assoc.
Qed.

(** ** [unescape]: two passes against one *)

Definition errUnterminated : error := ENew (go "tuple: unterminated byte-string element").
Definition errEscape : error := ENew (go "tuple: invalid escape sequence").

(** The byte-at-a-time reference reader the source's comment mentions. *)
Fixpoint unescape_ref (mask : byte) (data : bytes) : outcome (bytes * bytes) :=
  match data with
  | [] => Err errUnterminated
  | c :: data' =>
      if decide (bxor c mask = escByte) then
        match data' with
        | [] => Err errUnterminated
        | d :: data'' =>
            if decide (bxor d mask = escaped00) then
              '(raw, rest) ← unescape_ref mask data''; Ok (escByte :: raw, rest)
            else if decide (bxor d mask = terminator) then Ok ([], data'')
            else Err errEscape
        end
      else '(raw, rest) ← unescape_ref mask data'; Ok (bxor c mask :: raw, rest)
  end.

(** What the first pass finds, in terms of the reference's result. *)
Definition scan_agrees (mask : byte) (data : bytes) (i n escapes : nat) : Prop :=
  match unescape_ref mask data with
  | Ok (raw, rest) => exists body d k,
      data = body ++ bxor escByte mask :: d :: rest /\
      unescape_scan mask data i n escapes =
        Ok (Some (i + length body, n + length raw, escapes + k)%nat) /\
      unescape_emit mask body = raw /\ (k = 0%nat -> raw = masked mask body)
  | Err e =>
      if decide (e = errUnterminated) then unescape_scan mask data i n escapes = Ok None
      else unescape_scan mask data i n escapes = Err e
  | Panic _ => False
  end.

Lemma scan_agrees_plain mask c data i n escapes : mask_ok mask -> bxor c mask <> escByte ->
  scan_agrees mask data (S i) (S n) escapes -> scan_agrees mask (c :: data) i n escapes.
Proof.
  intros Hm Hc IH. unfold scan_agrees in *. cbn [unescape_ref unescape_scan].
  rewrite decide_False by done. rewrite decide_False by (by rewrite bxor_swap).
  destruct (unescape_ref mask data) as [[raw rest]|e|p]; simpl; [|done|done].
  destruct IH as (body & d & k & -> & -> & <- & Hk). exists (c :: body), d, k. simpl.
  rewrite decide_False by done. split_and!; [done| |done|].
  - do 4 f_equal; lia.
  - intros H. rewrite masked_cons. f_equal. auto.
Qed.

Lemma scan_agrees_pair mask d data i n escapes : mask_ok mask -> bxor d mask = escaped00 ->
  scan_agrees mask data (S (S i)) (S n) (S escapes) ->
  scan_agrees mask (bxor escByte mask :: d :: data) i n escapes.
Proof.
  intros Hm Hd IH. unfold scan_agrees in *. cbn [unescape_ref unescape_scan].
  rewrite (decide_True (P := bxor (bxor escByte mask) mask = escByte)) by (by rewrite bxor_involutive).
  rewrite !(decide_True (P := bxor d mask = _)) by done.
  rewrite (decide_True (P := bxor escByte mask = _)) by done.
  destruct (unescape_ref mask data) as [[raw rest]|e|p]; simpl; [|done|done].
  destruct IH as (body & d' & k & -> & -> & <- & Hk). exists (bxor escByte mask :: d :: body), d', (S k).
  cbn [unescape_emit]. rewrite bxor_involutive, decide_True by done. split_and!; [done| |done|done].
  simpl. do 4 f_equal; lia.
Qed.

Lemma unescape_scan_agrees mask data i n escapes : mask_ok mask -> scan_agrees mask data i n escapes.
Proof.
  intros Hm. remember (length data) as len eqn:Hlen. revert data Hlen i n escapes.
  induction len as [len IH] using lt_wf_ind; intros data -> i n escapes.
  destruct data as [|c data]; [done|].
  destruct (decide (bxor c mask = escByte)) as [Hc|Hc].
  - destruct data as [|d data].
    { unfold scan_agrees. simpl. rewrite decide_True by done. apply bxor_swap in Hc; [|done].
      rewrite !decide_True by done. done. }
    destruct (decide (bxor d mask = escaped00)) as [Hd|Hd].
    + apply bxor_swap in Hc as ->; [|done]. apply scan_agrees_pair; [done..|].
      eapply IH; [|done]. simpl. lia.
    + pose proof Hc as Hc'. apply bxor_swap in Hc'; [|done].
      unfold scan_agrees. cbn [unescape_ref unescape_scan].
      rewrite (decide_True (P := bxor c mask = escByte)), !(decide_False (P := bxor d mask = escaped00)) by done.
      rewrite (decide_True (P := c = _)) by done.
      destruct (decide (bxor d mask = terminator)).
      * exists [], d, 0%nat. rewrite Hc'. simpl. split_and!; [done| |done|done]. do 4 f_equal; lia.
      * by rewrite decide_False.
  - apply scan_agrees_plain; [done..|]. eapply IH; [|done]. simpl. lia.
Qed.

Lemma fill_exact l : fill (length l) l = Ok l.
Proof. unfold fill. rewrite Nat.leb_refl, Nat.sub_diag. by rewrite app_nil_r. Qed.

Lemma unescape_unescape_ref mask data : mask_ok mask -> unescape data mask = unescape_ref mask data.
Proof.
  intros Hm. pose proof (unescape_scan_agrees mask data 0 0 0 Hm) as H. unfold scan_agrees in H.
  unfold unescape. destruct (unescape_ref mask data) as [[raw rest]|e|p]; [| |done].
  - destruct H as (body & d & k & -> & -> & Hemit & Hk). simpl.
    assert (take (length body) (body ++ bxor escByte mask :: d :: rest) = body) as -> by apply take_app_length.
    assert (drop (length body + 2) (body ++ bxor escByte mask :: d :: rest) = rest) as ->.
    { rewrite <- drop_drop, drop_app_length. done. }
    destruct (Nat.eqb_spec k 0) as [Hk0|Hk0].
    + rewrite (Hk Hk0). rewrite masked_length. destruct (decide (mask = x00)) as [->|].
      * by rewrite firstn_all, Nat.sub_diag, app_nil_r, masked_00.
      * fold (masked mask body). rewrite <- (masked_length mask body) at 1. by rewrite fill_exact.
    + by rewrite Hemit, fill_exact.
  - case_decide; subst; by rewrite H.
Qed.

(** ** Round trip *)

Lemma unescape_ref_escape mask s rest : mask_ok mask ->
  unescape_ref mask (masked mask (escape s) ++ rest) = Ok (s, rest).
Proof.
  intros Hm. induction s as [|c s IH]; simpl.
  - rewrite (decide_True (P := bxor (bxor escByte mask) mask = _)) by (by apply bxor_involutive).
    rewrite decide_False by (by rewrite bxor_involutive).
    by rewrite decide_True by (by apply bxor_involutive).
  - case_decide as Hc; rewrite ?masked_app; simpl.
    + rewrite decide_True by (by apply bxor_involutive).
      rewrite decide_True by (by apply bxor_involutive). rewrite IH. simpl. by rewrite Hc.
    + rewrite decide_False by (by rewrite bxor_involutive). rewrite IH. simpl.
      by rewrite bxor_involutive.
Qed.

Lemma intKey_back z : int64_ok z -> int64 (Z.lxor (intKey z) two63) = z.
Proof.
  intros Hz. rewrite lxor_two63 by (by apply intKey_ok). unfold intKey, int64_ok in *.
  destruct (Z.ltb_spec (z + 2 ^ 63) (2 ^ 63)).
  - unfold int64. replace (z + 2 ^ 63 + 2 ^ 63 + 2 ^ 63) with (z + 2 ^ 63 + 1 * 2 ^ 64) by lia.
    rewrite Z.mod_add, Z.mod_small; lia.
  - rewrite int64_id; unfold int64_ok; lia.
Qed.

Lemma floatKey_back b : f64_ok b ->
  (if negb (Z.land (floatKey b) two63 =? 0) then Z.ldiff (floatKey b) two63
   else maxUint64 - floatKey b) = b.
Proof.
  intros Hb. pose proof (floatKey_ok b Hb). rewrite land_two63 by done.
  unfold floatKey, f64_ok, maxUint64 in *.
  destruct (Z.ltb_spec b (2 ^ 63)).
  - destruct (Z.ltb_spec (b + 2 ^ 63) (2 ^ 63)); simpl; [lia|]. rewrite ldiff_two63; lia.
  - destruct (Z.ltb_spec (2 ^ 64 - 1 - b) (2 ^ 63)); simpl; lia.
Qed.

Lemma decodeOne_elem mask n rest : mask_ok mask -> canon n ->
  decodeOne (masked mask (elem n) ++ rest) mask = Ok (n, rest).
Proof.
  intros Hm Hn.
  assert (forall u, uint64_ok u ->
    (let v := be_val (take 8 (masked mask (be64 u) ++ rest)) in
     if decide (mask = x00) then v else maxUint64 - v) = u) as Hu64.
  { intros u Hu. rewrite masked_be64 by done.
    rewrite take_app_length' by (by rewrite be64_length).
    assert (forall w, uint64_ok w -> be_val (be64 w) = w) as Hw
      by (intros w Hw; unfold be64; rewrite be_val_be; by apply Z.mod_small).
    unfold uint64_ok, maxUint64 in *. cbv zeta. case_decide; rewrite Hw; lia. }
  assert (forall u, (length (masked mask (be64 u) ++ rest) <? 8)%nat = false) as Hlen.
  { intros u. apply Nat.ltb_ge. rewrite length_app, masked_length, be64_length. lia. }
  assert (forall u, drop 8 (masked mask (be64 u) ++ rest) = rest) as Hdrop.
  { intros u. apply drop_app_length'. by rewrite masked_length, be64_length. }
  destruct n as [|[]|[] z|b|b|s|s|t|s|l|o]; simpl in Hn; try done;
    unfold decodeOne, elem; rewrite masked_cons; cbn [app]; rewrite bxor_involutive by done;
    cbn [decide]; try done.
  - rewrite !decide_False, decide_True by done.
    rewrite Hlen, Hu64, Hdrop by (by apply intKey_ok). by rewrite intKey_back.
  - destruct Hn as [Hb _]. rewrite !decide_False, decide_True by done.
    rewrite Hlen, Hdrop. cbv zeta in Hu64 |- *. rewrite !Hu64 by (by apply floatKey_ok).
    by rewrite floatKey_back.
  - rewrite !decide_False, decide_True by auto. rewrite unescape_unescape_ref, unescape_ref_escape by done.
    done.
  - rewrite !decide_False, decide_True by auto. rewrite unescape_unescape_ref, unescape_ref_escape by done.
    done.
Qed.

(** ** Decoding makes progress and never panics on input it reads *)

Lemma unescape_ref_shorter mask data raw rest :
  unescape_ref mask data = Ok (raw, rest) -> (length rest < length data)%nat.
Proof.
  remember (length data) as len eqn:Hlen. revert data Hlen raw rest.
  induction len as [len IH] using lt_wf_ind; intros [|c data] -> raw rest; [done|]. cbn [unescape_ref length].
  case_decide.
  - destruct data as [|d data]; [done|]. case_decide.
    + destruct (unescape_ref mask data) as [[raw' rest']| |] eqn:E; simpl; intros [= <- <-].
      apply (IH (length data)) in E; [lia|simpl; lia|done].
    + case_decide; intros [= <- <-]. simpl. lia.
  - destruct (unescape_ref mask data) as [[raw' rest']| |] eqn:E; simpl; intros [= <- <-].
    apply (IH (length data)) in E; [lia|simpl; lia|done].
Qed.

Lemma unescape_ref_no_panic mask data p : unescape_ref mask data <> Panic p.
Proof.
  remember (length data) as len eqn:Hlen. revert data Hlen.
  induction len as [len IH] using lt_wf_ind; intros [|c data] ->; [done|]. cbn [unescape_ref].
  case_decide.
  - destruct data as [|d data]; [done|]. case_decide; [|by case_decide].
    destruct (unescape_ref mask data) as [[raw' rest']| |] eqn:E; simpl; try done.
    intros [= ->]. eapply IH; [|done|done]. simpl. lia.
  - destruct (unescape_ref mask data) as [[raw' rest']| |] eqn:E; simpl; try done.
    intros [= ->]. eapply IH; [|done|done]. simpl. lia.
Qed.

(** Splits [decodeOne] on the tag, leaving the seven kinds and the unknown tag. *)
Ltac tag_cases :=
  cbn [decodeOne];
  match goal with |- context [decide (?t = tagNull)] =>
    destruct (decide (t = tagNull)); [|destruct (decide (t = tagFalse));
      [|destruct (decide (t = tagTrue)); [|destruct (decide (t = tagInt));
        [|destruct (decide (t = tagFloat)); [|destruct (decide (t = tagBytes \/ t = tagString))]]]]]
  end.

Lemma decodeOne_shorter data mask v rest : mask_ok mask ->
  decodeOne data mask = Ok (v, rest) -> (length rest < length data)%nat.
Proof.
  intros Hm. destruct data as [|t data]; [done|].
  tag_cases; try (intros [= <- <-]; simpl; lia); try done.
  1, 2: destruct (length data <? 8)%nat; intros [= <- <-]; rewrite length_drop; simpl; lia.
  rewrite unescape_unescape_ref by done.
  destruct (unescape_ref mask data) as [[raw rest']| |] eqn:E; simpl; try done.
  apply unescape_ref_shorter in E. case_decide; intros [= <- <-]; lia.
Qed.

Lemma decodeOne_no_panic data mask p : mask_ok mask -> data <> [] -> decodeOne data mask <> Panic p.
Proof.
  intros Hm Hd. destruct data as [|t data]; [done|]. tag_cases; try done.
  1, 2: destruct (length data <? 8)%nat; done.
  rewrite unescape_unescape_ref by done.
  destruct (unescape_ref mask data) as [[raw rest']| |] eqn:E; simpl; [by case_decide|done|].
  by apply unescape_ref_no_panic in E.
Qed.

(** Fuel beyond the number of bytes changes nothing. *)
Lemma Decode_fuel_enough fuel data : (length data <= fuel)%nat -> Decode_loop fuel data = Decode data.
Proof.
  unfold Decode. remember (length data) as len eqn:Hlen. revert fuel data Hlen.
  induction len as [len IH] using lt_wf_ind. intros fuel data -> Hf.
  destruct data as [|t data]; [by destruct fuel|]. destruct fuel as [|fuel]; [simpl in Hf; lia|].
  cbn [Decode_loop length].
  destruct (decodeOne (t :: data) x00) as [[v rest]| |] eqn:E; simpl; try done.
  apply decodeOne_shorter in E; [|by left]. simpl in E, Hf.
  rewrite (IH (length rest)) by (simpl; lia).
  destruct (decide (length rest = length data)) as [Hl|Hl]; [by rewrite Hl|].
  rewrite <- (IH (length rest) ltac:(simpl; lia) (length data) rest) by lia. done.
Qed.

Lemma Decode_cons data : data <> [] ->
  Decode data = '(v, rest) ← decodeOne data x00; out ← Decode rest; Ok (v :: out).
Proof.
  intros Hd. unfold Decode at 1. destruct data as [|t data]; [done|]. cbn [Decode_loop length].
  destruct (decodeOne (t :: data) x00) as [[v rest]| |] eqn:E; simpl; try done.
  apply decodeOne_shorter in E; [|by left]. simpl in E.
  by rewrite Decode_fuel_enough by lia.
Qed.

Lemma Decode_no_panic data p : Decode data <> Panic p.
Proof.
  remember (length data) as len eqn:Hlen. revert data Hlen.
  induction len as [len IH] using lt_wf_ind. intros data ->.
  destruct (decide (data = [])) as [->|Hd]; [done|]. rewrite Decode_cons by done.
  destruct (decodeOne data x00) as [[v rest]| |] eqn:E; simpl; [|done|].
  - apply decodeOne_shorter in E; [|by left].
    specialize (IH _ E rest eq_refl). by destruct (Decode rest); simpl; naive_solver.
  - by eapply decodeOne_no_panic in E; [|left|].
Qed.

Lemma elem_nonempty n : canon n -> elem n <> [].
Proof. by destruct n as [|[]|[] z|b|b|s|s|t|s|l|o]. Qed.

Lemma Decode_elems ns : Forall canon ns -> Decode (elems ns) = Ok ns.
Proof.
  induction 1 as [|n ns Hn Hns IH]; [done|].
  rewrite Decode_cons.
  - change (elems (n :: ns)) with (elem n ++ elems ns).
    rewrite <- (masked_00 (elem n)), decodeOne_elem by (by left || done). simpl. by rewrite IH.
  - simpl. pose proof (elem_nonempty n Hn). by destruct (elem n).
Qed.

(** ** Order *)

Lemma escByte_least d : d <> escByte ->
  Z.compare (b2z escByte) (b2z d) = Lt /\ Z.compare (b2z d) (b2z escByte) = Gt.
Proof.
  intros Hd. change (b2z escByte) with 0. rewrite Z.compare_lt_iff, Z.compare_gt_iff.
  pose proof (b2z_range d). assert (b2z d <> 0); [|lia].
  intros E. by apply Hd, (inj b2z).
Qed.

Lemma escape_order s t :
  bcompare (escape s) (escape t) = bcompare s t /\ (s <> t -> diverge (escape s) (escape t)).
Proof.
  revert t; induction s as [|c s IH]; intros [|d t]; [done|..].
  - cbn [escape]. destruct (decide (d = escByte)) as [->|Hd]; [split; [done|by intros _; right; left]|].
    cbn -[b2z]. rewrite (proj1 (escByte_least d Hd)). split; [done|intros _; left; congruence].
  - cbn [escape]. destruct (decide (c = escByte)) as [->|Hc]; [split; [done|by intros _; right; left]|].
    cbn -[b2z]. rewrite (proj2 (escByte_least c Hc)). split; [done|by intros _; left].
  - destruct (IH t) as [IHc IHd]. cbn [escape].
    destruct (decide (c = escByte)) as [->|Hc]; destruct (decide (d = escByte)) as [->|Hd]; cbn -[b2z].
    + rewrite !Z.compare_refl, IHc. split; [done|]. intros H. right; right. apply IHd. congruence.
    + rewrite (proj1 (escByte_least d Hd)). split; [done|intros _; left; congruence].
    + rewrite (proj2 (escByte_least c Hc)). split; [done|by intros _; left].
    + rewrite IHc. split; [done|]. intros H. destruct (decide (c = d)) as [->|]; [right|by left].
      apply IHd. congruence.
Qed.

Lemma intKey_order y z : Z.compare (intKey y) (intKey z) = Z.compare y z.
Proof. unfold intKey. by rewrite <- !(Z.add_comm (2 ^ 63)), Z.add_compare_mono_l. Qed.

Lemma floatKey_order b c : f64_ok b -> f64_ok c -> b <> 2 ^ 63 -> c <> 2 ^ 63 ->
  Z.compare (floatKey b) (floatKey c) = Z.compare (f64_val b) (f64_val c).
Proof.
  intros Hb Hc Hb0 Hc0. unfold f64_val. rewrite !f64_neg_spec, !(f64_mag_abs b), !(f64_mag_abs c) by done.
  unfold floatKey, maxUint64, f64_ok, f64_abs in *.
  assert (forall x, 2 ^ 63 <= x < 2 ^ 64 -> x mod 2 ^ 63 = x - 2 ^ 63) as Hm.
  { intros x Hx. symmetry. apply Z.mod_unique_pos with 1; lia. }
  pose proof (f64_mag_nonneg b). pose proof (f64_mag_nonneg c).
  destruct (Z.ltb_spec b (2 ^ 63)), (Z.ltb_spec c (2 ^ 63)),
    (Z.leb_spec (2 ^ 63) b), (Z.leb_spec (2 ^ 63) c); try lia.
  - rewrite !Z.mod_small, f64_mag_compare by lia.
    by rewrite <- !(Z.add_comm (2 ^ 63)), Z.add_compare_mono_l.
  - rewrite Z.mod_small, Hm by lia. pose proof (f64_mag_pos (c - 2 ^ 63)). pose proof (f64_mag_nonneg b).
    transitivity Gt; [|symmetry]; apply Z.compare_gt_iff; lia.
  - rewrite (Z.mod_small c), Hm by lia. pose proof (f64_mag_pos (b - 2 ^ 63)).
    transitivity Lt; [|symmetry]; apply Z.compare_lt_iff; lia.
  - rewrite !Hm by lia. rewrite Z.compare_opp, f64_mag_compare by lia.
    destruct (Z.compare_spec (c - 2 ^ 63) (b - 2 ^ 63));
      [apply Z.compare_eq_iff|apply Z.compare_lt_iff|apply Z.compare_gt_iff]; lia.
Qed.

Lemma be64_compare u v : uint64_ok u -> uint64_ok v -> bcompare (be64 u) (be64 v) = Z.compare u v.
Proof. intros. by apply be_compare. Qed.
Lemma be64_diverge u v : uint64_ok u -> uint64_ok v -> u <> v -> diverge (be64 u) (be64 v).
Proof.
  intros Hu Hv Hne. apply diverge_same_length; [by rewrite !be64_length|].
  intros E. by apply be_inj in E.
Qed.

Lemma floatKey_inj b c : f64_ok b -> f64_ok c -> floatKey b = floatKey c -> b = c.
Proof.
  unfold f64_ok, floatKey, maxUint64.
  destruct (Z.ltb_spec b (2 ^ 63)), (Z.ltb_spec c (2 ^ 63)); lia.
Qed.

Lemma f64_cmp_canon b c : f64_isNaN b = false -> f64_isNaN c = false ->
  f64_cmp b c = Z.compare (f64_val b) (f64_val c).
Proof. unfold f64_cmp. by intros -> ->. Qed.

(** One element: comparing encodings is comparing values, and different
    values have diverging encodings. *)
Lemma elem_order a b : canon a -> canon b ->
  compareValues a b = Ok (bcompare (elem a) (elem b)) /\ (a <> b -> diverge (elem a) (elem b)).
Proof.
  intros Ha Hb. unfold compareValues, normalize_or_panic.
  rewrite !normalize_canon_id by done. simpl.
  destruct a as [|[]|[] y|p|p|s|s|?|?|?|?]; simpl in Ha; try done;
    destruct b as [|[]|[] z|q|q|t|t|?|?|?|?]; simpl in Hb; try done;
    try (split; [done|intros ?; first [done|left; done]]).
  - cbn -[be64]. rewrite be64_compare, intKey_order by (by apply intKey_ok). split; [done|].
    intros H. right. apply be64_diverge; [by apply intKey_ok..|]. unfold intKey. contradict H. f_equal. lia.
  - destruct Ha as (Hp & Hpn & Hp0), Hb as (Hq & Hqn & Hq0). cbn -[be64].
    rewrite be64_compare, floatKey_order, f64_cmp_canon by (done || by apply floatKey_ok).
    split; [done|]. intros H. right. apply be64_diverge; [by apply floatKey_ok..|].
    contradict H. f_equal. by apply floatKey_inj.
  - destruct (escape_order s t) as [E1 E2]. simpl. rewrite E1. split; [done|]. intros H.
    right. apply E2. congruence.
  - destruct (escape_order s t) as [E1 E2]. simpl. rewrite E1. split; [done|]. intros H.
    right. apply E2. congruence.
Qed.

Lemma elem_compare_ne a b : canon a -> canon b -> a <> b -> bcompare (elem a) (elem b) <> Eq.
Proof.
  intros Ha Hb Hne E. apply bcompare_eq in E. destruct (elem_order a b Ha Hb) as [_ Hd].
  by apply diverge_ne in Hd.
Qed.

Lemma elems_compare as_ bs : Forall canon as_ -> Forall canon bs ->
  Compare as_ bs = Ok (bcompare (elems as_) (elems bs)).
Proof.
  intros Ha. revert bs. induction Ha as [|a as_ Ha _ IH]; intros [|b bs] Hb; [done|..].
  - apply Forall_cons in Hb as [Hb _]. simpl. pose proof (elem_nonempty b Hb). by destruct (elem b).
  - simpl. pose proof (elem_nonempty a Ha). by destruct (elem a).
  - apply Forall_cons in Hb as [Hb Hbs]. cbn [Compare]. destruct (elem_order a b Ha Hb) as [Ec Hd].
    rewrite Ec. change (elems (a :: as_)) with (elem a ++ elems as_).
    change (elems (b :: bs)) with (elem b ++ elems bs).
    destruct (decide (a = b)) as [->|Hne].
    + rewrite bcompare_refl, bcompare_app_same. by apply IH.
    + rewrite diverge_bcompare_app by auto. simpl.
      pose proof (elem_compare_ne a b Ha Hb Hne). by destruct (bcompare (elem a) (elem b)).
Qed.

Lemma compareValues_normalize a b na nb : any_ok a -> any_ok b ->
  normalize a = Ok na -> normalize b = Ok nb -> compareValues a b = compareValues na nb.
Proof.
  intros Ha Hb Hna Hnb. unfold compareValues, normalize_or_panic.
  rewrite Hna, Hnb, (normalize_idem a na), (normalize_idem b nb); done.
Qed.

Lemma Compare_normals as_ bs nas nbs : Forall any_ok as_ -> Forall any_ok bs ->
  normals as_ = Ok nas -> normals bs = Ok nbs -> Compare as_ bs = Compare nas nbs.
Proof.
  intros Ha Hb Hna%traverse_ok Hnb%traverse_ok. revert bs nbs Hb Hnb.
  induction Hna as [|a na as_ nas Hna _ IH]; intros bs nbs Hb Hnb.
  - by inversion Hnb.
  - inversion Hnb as [|b nb bs' nbs' Hnb' Hnbs]; subst; [done|].
    apply Forall_cons in Ha as [Ha Has]. apply Forall_cons in Hb as [Hb Hbs]. cbn [Compare].
    rewrite (compareValues_normalize a b na nb) by done.
    destruct (compareValues na nb) as [[]| |]; simpl; auto.
Qed.

(** ** What decoding accepts is an encoding *)

(** Values [decodeOne] can return. A float is any bit pattern here: the
    decoder does not check for NaN. *)
Definition decoded (v : any) : Prop :=
  match v with
  | ANil | ABool _ | AString _ | ABytes _ => True
  | AInt KInt64 z => int64_ok z
  | AFloat64 b => f64_ok b
  | _ => False
  end.

Lemma canon_decoded v : canon v -> decoded v.
Proof. destruct v as [| |[]| | | | | | | |]; simpl; naive_solver. Qed.

Lemma unescape_ref_inv mask data raw rest : mask_ok mask ->
  unescape_ref mask data = Ok (raw, rest) -> data = masked mask (escape raw) ++ rest.
Proof.
  intros Hm. remember (length data) as len eqn:Hlen. revert data Hlen raw rest.
  induction len as [len IH] using lt_wf_ind; intros [|c data] -> raw rest; [done|]. cbn [unescape_ref].
  destruct (decide (bxor c mask = escByte)) as [E|E].
  - apply bxor_swap in E as ->; [|done]. destruct data as [|d data]; [done|].
    destruct (decide (bxor d mask = escaped00)) as [E|E1].
    + apply bxor_swap in E as ->; [|done].
      destruct (unescape_ref mask data) as [[raw' rest']| |] eqn:E; simpl; intros [= <- <-].
      apply (IH (length data)) in E; [|simpl; lia|done]. rewrite E.
      cbn [escape]. rewrite (decide_True (P := escByte = escByte)) by done. by rewrite masked_app.
    + destruct (decide (bxor d mask = terminator)) as [E|?]; intros [= <- <-].
      apply bxor_swap in E as ->; [|done]. cbn [escape]. by rewrite !masked_cons.
  - destruct (unescape_ref mask data) as [[raw' rest']| |] eqn:E'; simpl; intros [= <- <-].
    apply (IH (length data)) in E'; [|simpl; lia|done]. rewrite E'.
    cbn [escape]. rewrite (decide_False (P := bxor c mask = escByte)) by done. cbn [app].
    by rewrite masked_cons, bxor_involutive.
Qed.

(** The eight bytes of a number, read through the mask. *)
Lemma masked_be64_inv mask data : mask_ok mask -> (8 <= length data)%nat ->
  let u := be_val (take 8 data) in
  exists w, (if decide (mask = x00) then u else maxUint64 - u) = w /\ uint64_ok w /\
    data = masked mask (be64 w) ++ drop 8 data.
Proof.
  intros Hm Hl u. eexists; split; [done|].
  assert (length (take 8 data) = 8%nat) as Hlen by (rewrite length_take; lia).
  assert (uint64_ok u) as Hu.
  { pose proof (be_val_bound (take 8 data)) as H. rewrite Hlen in H. apply H. }
  assert (be64 u = take 8 data) as Hbe.
  { unfold be64, u. rewrite <- Hlen at 1. apply be_be_val. }
  destruct (decide (mask = x00)) as [->|Hne].
  - split; [done|]. by rewrite masked_00, Hbe, take_drop.
  - split; [unfold uint64_ok, maxUint64 in *; lia|].
    destruct Hm as [|Hm]; [done|]. rewrite masked_be64 by (unfold uint64_ok, maxUint64 in *; by right || lia).
    rewrite decide_False by done. replace (maxUint64 - (maxUint64 - u)) with u by lia.
    by rewrite Hbe, take_drop.
Qed.

Lemma intKey_forth w : uint64_ok w -> int64_ok (int64 (Z.lxor w two63)) /\ intKey (int64 (Z.lxor w two63)) = w.
Proof.
  intros Hw. split; [apply int64_range|]. rewrite lxor_two63 by done. unfold intKey, uint64_ok in *.
  destruct (Z.ltb_spec w (2 ^ 63)).
  - unfold int64. replace (w + 2 ^ 63 + 2 ^ 63) with (w + 1 * 2 ^ 64) by lia.
    rewrite Z.mod_add, Z.mod_small; lia.
  - rewrite int64_id; unfold int64_ok; lia.
Qed.

Lemma floatKey_forth w : uint64_ok w ->
  let b := if negb (Z.land w two63 =? 0) then Z.ldiff w two63 else maxUint64 - w in
  f64_ok b /\ floatKey b = w.
Proof.
  intros Hw. rewrite land_two63 by done. unfold uint64_ok, f64_ok, floatKey, maxUint64 in *.
  destruct (Z.ltb_spec w (2 ^ 63)); simpl.
  - split; [lia|]. destruct (Z.ltb_spec (2 ^ 64 - 1 - w) (2 ^ 63)); lia.
  - rewrite ldiff_two63 by lia. split; [lia|]. destruct (Z.ltb_spec (w - 2 ^ 63) (2 ^ 63)); lia.
Qed.

Lemma decodeOne_inv data mask v rest : mask_ok mask -> decodeOne data mask = Ok (v, rest) ->
  decoded v /\ data = masked mask (elem v) ++ rest.
Proof.
  intros Hm. destruct data as [|t data]; [done|].
  tag_cases; try done;
    try match goal with E : bxor t mask = _ |- _ => apply bxor_swap in E as ->; [|done] end.
  - by intros [= <- <-].
  - by intros [= <- <-].
  - by intros [= <- <-].
  - destruct (Nat.ltb_spec (length data) 8); [done|]. intros [= <- <-].
    destruct (masked_be64_inv mask data Hm) as (w & -> & Hw & Hd); [lia|].
    destruct (intKey_forth w Hw) as [Hok Hk]. split; [done|].
    cbn [elem]. rewrite Hk, masked_cons. cbn [app]. by f_equal.
  - destruct (Nat.ltb_spec (length data) 8); [done|]. intros [= <- <-].
    destruct (masked_be64_inv mask data Hm) as (w & Ew & Hw & Hd); [lia|].
    cbv zeta in Ew |- *. rewrite Ew. destruct (floatKey_forth w Hw) as [Hok Hk]. split; [done|].
    cbn [elem]. rewrite Hk, masked_cons. cbn [app]. by f_equal.
  - rewrite unescape_unescape_ref by done.
    destruct (unescape_ref mask data) as [[raw rest']| |] eqn:E; simpl; try done.
    apply unescape_ref_inv in E as ->; [|done].
    destruct (decide (bxor t mask = tagString)) as [Et|Et]; intros [= <- <-]; (split; [done|]).
    + apply bxor_swap in Et as ->; [|done]. cbn [elem]. by rewrite masked_cons.
    + destruct o as [Eb|]; [|done]. apply bxor_swap in Eb as ->; [|done]. cbn [elem]. by rewrite masked_cons.
Qed.

Lemma Decode_inv data vs : Decode data = Ok vs -> Forall decoded vs /\ data = elems vs.
Proof.
  remember (length data) as len eqn:Hlen. revert data Hlen vs.
  induction len as [len IH] using lt_wf_ind; intros data -> vs.
  destruct (decide (data = [])) as [->|Hd]; [by intros [= <-]|]. rewrite Decode_cons by done.
  destruct (decodeOne data x00) as [[v rest]| |] eqn:E; simpl; try done.
  destruct (Decode rest) as [out| |] eqn:E2; simpl; intros [= <-].
  pose proof (decodeOne_shorter _ _ _ _ (or_introl eq_refl) E) as Hlt.
  apply decodeOne_inv in E as [Hv ->]; [|by left].
  apply (IH (length rest)) in E2 as [Hout ->]; [|done|done]. rewrite masked_00. auto.
Qed.

(** ** Directed elements: ascending ones as they are, descending ones
    with every byte inverted *)

Definition dmask (desc : bool) : byte := if desc then xff else x00.
Definition delem (desc : bool) (n : any) : bytes := masked (dmask desc) (elem n).

Lemma dmask_ok desc : mask_ok (dmask desc).
Proof. destruct desc; [by right|by left]. Qed.
#[export] Hint Resolve dmask_ok : bytdb.

Definition directed (desc : bool) (c : comparison) : comparison := if desc then CompOpp c else c.

Lemma delem_false n : delem false n = elem n.
Proof. apply masked_00. Qed.

Lemma delem_order desc a b : canon a -> canon b ->
  bcompare (delem desc a) (delem desc b) = directed desc (bcompare (elem a) (elem b)) /\
  (a <> b -> diverge (delem desc a) (delem desc b)).
Proof.
  intros Ha Hb. destruct (elem_order a b Ha Hb) as [_ Hd].
  destruct desc; simpl; [|rewrite !delem_false; auto].
  destruct (decide (a = b)) as [->|Hne].
  - by rewrite !bcompare_refl.
  - unfold delem, masked. simpl. split; [by apply bcompare_invert, Hd|].
    intros _. apply (diverge_fmap (λ c, bxor c xff)). auto.
Qed.

Lemma delem_nonempty desc n : canon n -> delem desc n <> [].
Proof.
  intros Hn H%(f_equal length). unfold delem in H. rewrite masked_length in H.
  by apply elem_nonempty in Hn; destruct (elem n).
Qed.

(** An element is read back whatever follows it: no encoding is a prefix
    of another one's. *)
Lemma delem_app_inj desc a b r s : canon a -> canon b ->
  delem desc a ++ r = delem desc b ++ s -> a = b /\ r = s.
Proof.
  intros Ha Hb E. apply (f_equal (λ d, decodeOne d (dmask desc))) in E.
  unfold delem in E. rewrite !decodeOne_elem in E by auto with bytdb. by simplify_eq.
Qed.

Lemma elem_app_inj a b r s : canon a -> canon b ->
  elem a ++ r = elem b ++ s -> a = b /\ r = s.
Proof. intros Ha Hb. rewrite <- !delem_false. by apply delem_app_inj. Qed.

Lemma elems_app a b : elems (a ++ b) = elems a ++ elems b.
Proof. induction a as [|x a IH]; simpl; [done|]. by rewrite IH, app_assoc. Qed.

Lemma elems_app_inj as_ bs r s : length as_ = length bs -> Forall canon as_ -> Forall canon bs ->
  elems as_ ++ r = elems bs ++ s -> as_ = bs /\ r = s.
Proof.
  intros Hl Ha. revert bs Hl. induction Ha as [|a as_ Ha _ IH]; intros [|b bs] Hl Hb E; try done.
  apply Forall_cons in Hb as [Hb Hbs]. simpl in E. rewrite <- !app_assoc in E.
  apply elem_app_inj in E as [-> E]; [|done..]. simpl in Hl.
  apply IH in E as [-> ->]; [done|congruence|done].
Qed.

Lemma elems_inj as_ bs : Forall canon as_ -> Forall canon bs -> elems as_ = elems bs -> as_ = bs.
Proof.
  intros Ha Hb E%(f_equal Decode). rewrite !Decode_elems in E by done. by simplify_eq.
Qed.

(** ** Directed tuples *)

(** A tuple with a direction per column. *)
Fixpoint delems (dir : nat -> bool) (i : nat) (ns : list any) : bytes :=
  match ns with
  | [] => []
  | n :: ns' => delem (dir i) n ++ delems dir (S i) ns'
  end.

Lemma elems_delems i ns : elems ns = delems (λ _, false) i ns.
Proof.
  revert i. induction ns as [|n ns IH]; intros i; [done|]. cbn [delems]. by rewrite delem_false, <- IH.
Qed.

Lemma delems_app_inj dir i as_ bs r s : length as_ = length bs -> Forall canon as_ -> Forall canon bs ->
  delems dir i as_ ++ r = delems dir i bs ++ s -> as_ = bs /\ r = s.
Proof.
  intros Hl Ha. revert i bs Hl. induction Ha as [|a as_ Ha _ IH]; intros i [|b bs] Hl Hb E; try done.
  apply Forall_cons in Hb as [Hb Hbs]. simpl in E. rewrite <- !app_assoc in E.
  apply delem_app_inj in E as [-> E]; [|done..]. apply IH in E as [-> ->]; [done|simpl in Hl; lia|done].
Qed.

(** [compareValues] where it is defined. *)
Definition valueCompare (a b : any) : comparison :=
  match compareValues a b with Ok c => c | _ => Eq end.

Lemma valueCompare_canon a b : canon a -> canon b -> valueCompare a b = bcompare (elem a) (elem b).
Proof. intros Ha Hb. unfold valueCompare. by rewrite (proj1 (elem_order a b Ha Hb)). Qed.

(** A bound against the leading columns of a tuple, column by column in
    their directions; [Eq] when the tuple starts with the bound. *)
Fixpoint prefixCompare (dir : nat -> bool) (i : nat) (bound vs : list any) : comparison :=
  match bound, vs with
  | b :: bound', v :: vs' =>
      match directed (dir i) (valueCompare b v) with
      | Eq => prefixCompare dir (S i) bound' vs'
      | c => c
      end
  | _, _ => Eq
  end.

Lemma directed_eq desc c : directed desc c = Eq <-> c = Eq.
Proof. by destruct desc, c. Qed.

Lemma prefixCompare_bytes dir i bound vs r : Forall canon bound -> Forall canon vs ->
  (length bound <= length vs)%nat ->
  match prefixCompare dir i bound vs with
  | Eq => delems dir i bound `prefix_of` delems dir i vs ++ r
  | c => diverge (delems dir i bound) (delems dir i vs ++ r) /\
         bcompare (delems dir i bound) (delems dir i vs ++ r) = c
  end.
Proof.
  intros Hb. revert i vs. induction Hb as [|b bound Hb _ IH]; intros i vs Hv Hl; [apply prefix_nil|].
  destruct Hv as [|v vs Hv Hvs]; [simpl in Hl; lia|]. cbn [prefixCompare delems].
  rewrite valueCompare_canon by done. destruct (delem_order (dir i) b v Hb Hv) as [Ho Hd].
  rewrite <- Ho, <- app_assoc. destruct (decide (b = v)) as [->|Hne].
  - rewrite bcompare_refl. specialize (IH (S i) vs Hvs ltac:(simpl in Hl; lia)).
    destruct (prefixCompare dir (S i) bound vs).
    + by apply prefix_app.
    + destruct IH as [IHd IHc]. split; [by apply diverge_app_same|]. by rewrite bcompare_app_same.
    + destruct IH as [IHd IHc]. split; [by apply diverge_app_same|]. by rewrite bcompare_app_same.
  - specialize (Hd Hne). pose proof (elem_compare_ne b v Hb Hv Hne) as Hc. rewrite <- directed_eq, <- Ho in Hc.
    destruct (bcompare (delem (dir i) b) (delem (dir i) v)) eqn:E; [done|..];
      (split; [by apply diverge_app|]); by rewrite diverge_bcompare_app.
Qed.

Section bounds.
Context (dir : nat -> bool) (i : nat) (bound vs : list any) (p r : bytes).
Hypothesis Hb : Forall canon bound.
Hypothesis Hv : Forall canon vs.
Hypothesis Hl : (length bound <= length vs)%nat.

Lemma bound_prefix :
  p ++ delems dir i bound `prefix_of` p ++ delems dir i vs ++ r <-> prefixCompare dir i bound vs = Eq.
Proof.
  pose proof (prefixCompare_bytes dir i bound vs r Hb Hv Hl) as H.
  destruct (prefixCompare dir i bound vs); split; try done.
  - intros _. by apply prefix_app.
  - intros Hp%prefix_app_inv. by destruct (diverge_not_prefix _ _ (proj1 H)).
  - intros Hp%prefix_app_inv. by destruct (diverge_not_prefix _ _ (proj1 H)).
Qed.

Lemma bound_below :
  blt (p ++ delems dir i vs ++ r) (p ++ delems dir i bound) <-> prefixCompare dir i bound vs = Gt.
Proof.
  pose proof (prefixCompare_bytes dir i bound vs r Hb Hv Hl) as H.
  unfold blt. rewrite bcompare_app_same, bcompare_antisym.
  destruct (prefixCompare dir i bound vs).
  - destruct H as [s ->]. pose proof (ble_app (delems dir i bound) s) as Ha. unfold ble in Ha.
    destruct (bcompare _ _); done.
  - by destruct H as [_ ->].
  - by destruct H as [_ ->].
Qed.

Lemma bound_above :
  ble (p ++ delems dir i bound) (p ++ delems dir i vs ++ r) <-> prefixCompare dir i bound vs <> Gt.
Proof. by rewrite <- not_blt, bound_below. Qed.

End bounds.

(** ** Prefix ranges *)

Lemma ff_greatest c : c <> xff -> b2z c < 255.
Proof.
  intros Hc. pose proof (b2z_range c). assert (b2z c <> 255); [|lia].
  intros E. by apply Hc, (inj b2z).
Qed.

Lemma ff_prefix n k : replicate n xff `prefix_of` k <-> ble (replicate n xff) k.
Proof.
  split.
  - intros [r ->]. apply ble_app.
  - revert k. induction n as [|n IH]; intros k; [intros _; apply prefix_nil|].
    destruct k as [|c k]; [by intros []|]. unfold ble. cbn -[b2z].
    destruct (decide (c = xff)) as [->|Hc].
    + rewrite Z.compare_refl. intros H. by apply prefix_cons, IH.
    + change (b2z xff) with 255. pose proof (ff_greatest c Hc).
      rewrite (proj2 (Z.compare_gt_iff 255 (b2z c))) by lia. done.
Qed.

(** [PrefixEnd] cuts the trailing [0xFF] bytes and increments the byte
    before them. *)
Lemma PrefixEnd_shape p :
  match PrefixEnd p with
  | Some e => exists q c n, p = q ++ c :: replicate n xff /\ c <> xff /\ e = q ++ [z2b (b2z c + 1)]
  | None => p = replicate (length p) xff
  end.
Proof.
  unfold PrefixEnd. rewrite <- (length_reverse p). remember (reverse p) as r eqn:E.
  apply (f_equal reverse) in E. rewrite reverse_involutive in E. subst p.
  induction r as [|c r IH]; [done|]. cbn [PrefixEnd_loop].
  destruct (decide (c = xff)) as [->|Hc].
  - destruct (PrefixEnd_loop r) as [e|].
    + destruct IH as (q & c & n & E & Hc & ->). exists q, c, (S n).
      rewrite reverse_cons, E, <- app_assoc. simpl. split_and!; [|done|done].
      by rewrite <- replicate_cons_app.
    + rewrite reverse_cons, IH. simpl. by rewrite <- replicate_cons_app.
  - exists (reverse r), c, 0%nat. by rewrite !reverse_cons.
Qed.

Lemma prefix_interval q c n k : c <> xff ->
  q ++ c :: replicate n xff `prefix_of` k <->
  ble (q ++ c :: replicate n xff) k /\ blt k (q ++ [z2b (b2z c + 1)]).
Proof.
  intros Hc. pose proof (ff_greatest c Hc) as Hlt. pose proof (b2z_range c).
  revert k. induction q as [|x q IH]; intros [|y k]; try (split; [by intros [? ?]|]; by intros [[] _]).
  - rewrite !app_nil_l. unfold ble, blt. cbn -[b2z]. rewrite b2z_z2b, (Z.mod_small (_ + 1)) by lia.
    destruct (Z.compare_spec (b2z y) (b2z c + 1)) as [E|E|E], (Z.compare_spec (b2z c) (b2z y)) as [E'|E'|E'];
      try lia.
    + split; [intros ->%prefix_cons_inv_1; lia|]. by destruct k; intros [_ ?].
    + apply (inj b2z) in E' as ->. split.
      * intros H2%prefix_cons_inv_2. split; [by apply ff_prefix in H2|done].
      * intros [H2 _]. by apply prefix_cons, ff_prefix.
    + split; [intros ->%prefix_cons_inv_1; lia|]. by intros [? _].
    + split; [intros ->%prefix_cons_inv_1; lia|]. by intros [_ ?].
  - cbn [app]. unfold ble, blt in *. cbn [bcompare].
    destruct (decide (x = y)) as [->|Hne].
    + rewrite !Z.compare_refl, <- IH. split; [apply prefix_cons_inv_2|apply prefix_cons].
    + split; [by intros ?%prefix_cons_inv_1|]. rewrite (Z.compare_antisym (b2z x)).
      destruct (Z.compare_spec (b2z x) (b2z y)) as [E|E|E]; simpl; intros [? ?]; try done.
      by apply (inj b2z) in E.
Qed.

Lemma PrefixEnd_some p e k : PrefixEnd p = Some e -> p `prefix_of` k <-> ble p k /\ blt k e.
Proof.
  intros E. pose proof (PrefixEnd_shape p) as H. rewrite E in H.
  destruct H as (q & c & n & -> & Hc & ->). by apply prefix_interval.
Qed.

Lemma PrefixEnd_none p k : PrefixEnd p = None -> p `prefix_of` k <-> ble p k.
Proof.
  intros E. pose proof (PrefixEnd_shape p) as H. rewrite E in H. rewrite H. apply ff_prefix.
Qed.

Lemma PrefixEnd_least p e e' : PrefixEnd p = Some e ->
  (forall k, p `prefix_of` k -> blt k e') -> ble e e'.
Proof.
  intros E He'. apply not_blt. intros Hlt.
  assert (p `prefix_of` e') as Hp.
  { apply (PrefixEnd_some p e e' E). split; [|done]. by apply blt_ble, He'. }
  by apply (blt_irrefl e'), He'.
Qed.

(** ** The package's contract *)

(** The whole encoder: the normalized values' elements one after another,
    or the first value's error that cannot be normalized. *)
Lemma appendVals_spec buf mask vals : mask_ok mask -> Forall any_ok vals ->
  appendVals buf mask vals = ns ← normals vals; Ok (buf ++ masked mask (elems ns)).
Proof.
  intros Hm Hok. revert buf. induction Hok as [|v vals Hv _ IH]; intros buf; simpl.
  { by rewrite app_nil_r. }
  destruct (normalize v) as [n| |] eqn:En; simpl; [|done..].
  rewrite appendValue_spec by (done || by eapply normalize_canon). simpl. rewrite IH.
  destruct (normals vals); simpl; [|done..]. by rewrite masked_app, app_assoc.
Qed.

Lemma Encode_spec vals : Forall any_ok vals -> Encode vals = elems <$> normals vals.
Proof.
  intros Hok. unfold Encode, Append. rewrite appendVals_spec by (done || by left).
  destruct (normals vals); simpl; [|done..]. by rewrite masked_00.
Qed.

Lemma Encode_ok vals e : Forall any_ok vals -> Encode vals = Ok e ->
  exists ns, normals vals = Ok ns /\ Forall canon ns /\ e = elems ns.
Proof.
  intros Hok. rewrite Encode_spec by done. destruct (normals vals) as [ns| |] eqn:E; simpl; [|done..].
  intros [= <-]. eauto using normals_canon.
Qed.

(** One value appended in either direction. *)
Definition AppendOne (desc : bool) (buf : bytes) (v : any) : outcome bytes :=
  if desc then AppendDesc buf [v] else Append buf [v].

Lemma AppendOne_spec desc buf v : any_ok v ->
  AppendOne desc buf v = n ← normalize v; Ok (buf ++ delem desc n).
Proof.
  intros Hv. assert (AppendOne desc buf v = appendVals buf (dmask desc) [v]) as -> by (by destruct desc).
  rewrite appendVals_spec by (auto with bytdb). simpl.
  destruct (normalize v); simpl; [|done..]. by rewrite app_nil_r.
Qed.

(** C30: the encoding preserves order: for any two encodable tuples the byte
    order of their encodings is [Compare] of the tuples, errors and panics
    included out. *)
Theorem Encode_order as_ bs ea eb :
  Forall any_ok as_ -> Forall any_ok bs -> Encode as_ = Ok ea -> Encode bs = Ok eb ->
  Compare as_ bs = Ok (bcompare ea eb).
Proof.
  intros Ha Hb (nas & Hna & Hca & ->)%Encode_ok (nbs & Hnb & Hcb & ->)%Encode_ok; [|done..].
  rewrite (Compare_normals as_ bs nas nbs) by done. by apply elems_compare.
Qed.

Definition row_a : list any := [AInt KInt32 (-5); AString (go "a"); ANil].
Definition row_b : list any := [AInt KInt64 (-5); AString [x61; x00]; AFloat64 (2 ^ 63)].

Lemma Encode_order_witness : exists ea eb,
  Encode row_a = Ok ea /\ Encode row_b = Ok eb /\ Compare row_a row_b = Ok (bcompare ea eb) /\
  bcompare ea eb = Lt.
Proof.
  eexists _, _. split; [vm_compute; reflexivity|]. split; [vm_compute; reflexivity|]. split.
  - apply Encode_order; try reflexivity; repeat constructor; simpl; lia.
  - vm_compute. reflexivity.
Defined.

(** C31: decoding an encoded tuple gives the normalized values back, and
    encoding fails exactly when normalization of some value does, with that
    error. *)
Theorem Decode_Encode vals : Forall any_ok vals ->
  (e ← Encode vals; Decode e) = normals vals.
Proof.
  intros Hok. rewrite Encode_spec by done. destruct (normals vals) as [ns| |] eqn:E; simpl; [|done..].
  apply Decode_elems. by eapply normals_canon.
Qed.

Lemma Decode_Encode_witness : (e ← Encode row_b; Decode e) = Ok [AInt KInt64 (-5); AString [x61; x00]; AFloat64 0].
Proof. rewrite Decode_Encode; [reflexivity|]. repeat constructor; simpl; lia. Defined.


(** one element appended in either direction reads back, whatever bytes
    precede or follow it. *)
Theorem DecodeOne_AppendOne desc buf v k : any_ok v -> AppendOne desc buf v = Ok k ->
  exists n e, normalize v = Ok n /\ k = buf ++ e /\
    forall rest, DecodeOne (e ++ rest) desc = Ok (n, rest).
Proof.
  intros Hv. rewrite AppendOne_spec by done.
  destruct (normalize v) as [n| |] eqn:En; simpl; [|done..]. intros [= <-].
  assert (canon n) as Hc by (by eapply normalize_canon).
  exists n, (delem desc n). split_and!; [done..|]. intros rest.
  pose proof (delem_nonempty desc n Hc). unfold DecodeOne.
  destruct (delem desc n ++ rest) eqn:E; [by destruct (delem desc n)|].
  rewrite <- E. apply (decodeOne_elem (dmask desc)); auto with bytdb.
Qed.

Lemma DecodeOne_AppendOne_witness : exists k, AppendOne true [x07] (AString [x00; xff]) = Ok k /\
  DecodeOne (drop 1 k ++ [x09]) true = Ok (AString [x00; xff], [x09]).
Proof.
  eexists. split; [vm_compute; reflexivity|].
  destruct (DecodeOne_AppendOne true [x07] (AString [x00; xff]) _ I eq_refl) as (n & e & [= <-] & E & H).
  vm_compute in E. injection E as <-. apply (H [x09]).
Defined.

(** two different values, appended in the same direction after the same
    bytes, order by their values (backwards for a descending element),
    whatever follows them: composite keys sort column by column. *)
Theorem AppendOne_order desc buf v w kv kw r s :
  any_ok v -> any_ok w -> AppendOne desc buf v = Ok kv -> AppendOne desc buf w = Ok kw ->
  normalize v <> normalize w ->
  exists c, compareValues v w = Ok c /\ bcompare (kv ++ r) (kw ++ s) = directed desc c /\ c <> Eq.
Proof.
  intros Hv Hw. rewrite !AppendOne_spec by done.
  destruct (normalize v) as [n| |] eqn:En; simpl; [|done..]. intros [= <-].
  destruct (normalize w) as [m| |] eqn:Em; simpl; [|done..]. intros [= <-] Hne.
  assert (n <> m) as Hnm by congruence.
  assert (canon n) as Hn by (by apply (normalize_canon v)).
  assert (canon m) as Hm by (by apply (normalize_canon w)).
  exists (bcompare (elem n) (elem m)). split_and!.
  - rewrite (compareValues_normalize v w n m) by done. by apply elem_order.
  - rewrite <- !app_assoc, bcompare_app_same. destruct (delem_order desc n m Hn Hm) as [E Hd].
    rewrite diverge_bcompare_app by auto. done.
  - by apply elem_compare_ne.
Qed.

Lemma AppendOne_order_witness : exists kv kw,
  AppendOne true [] (AFloat64 (int64_to_f64 (-3))) = Ok kv /\
  AppendOne true [] (AFloat64 (int64_to_f64 2)) = Ok kw /\
  exists c, compareValues (AFloat64 (int64_to_f64 (-3))) (AFloat64 (int64_to_f64 2)) = Ok c /\
    bcompare (kv ++ [x00]) (kw ++ [xff]) = directed true c /\ c <> Eq.
Proof.
  eexists _, _. split; [vm_compute; reflexivity|]. split; [vm_compute; reflexivity|].
  apply (AppendOne_order true []); try reflexivity; try done; vm_compute; split; congruence.
Defined.

(** [PrefixEnd] bounds a prefix scan: the keys with the prefix are
    exactly those from the prefix up to its end, no smaller string bounds
    them, and there is no bound exactly when the prefix is all [0xFF]. *)
Theorem PrefixEnd_range p :
  match PrefixEnd p with
  | Some e =>
      (forall k, p `prefix_of` k <-> ble p k /\ blt k e) /\
      (forall e', (forall k, p `prefix_of` k -> blt k e') -> ble e e')
  | None => Forall (λ c, c = xff) p /\ (forall k, p `prefix_of` k <-> ble p k)
  end.
Proof.
  pose proof (PrefixEnd_shape p) as Hs. destruct (PrefixEnd p) as [e|] eqn:E.
  - split; [intros k; by apply PrefixEnd_some|]. intros e' He'. by apply (PrefixEnd_least p).
  - split; [|intros k; by apply PrefixEnd_none]. rewrite Hs. apply Forall_replicate. done.
Qed.
