(* ===== verification/KV.v ===== *)
(** * The ordered key-value store as its clients see it

    btypedb is a module of its own; the engine uses it through
    [engine.go]'s [kvView] and [readMarker] interfaces and through the
    methods of [btypedb.Tx]. [KV] names those methods, [KVLaws] states what
    the engine relies on, over the map a transaction holds, and [MemTx] is
    an instance, so that the laws are known to be satisfiable and the
    development's examples can be evaluated. *)
From S2P Require Import Prelude.

(** ** Sorted views of a map *)

Abbreviation kvmap := (gmap bytes bytes).

(** Key order on entries. *)
Definition elt (p q : bytes * bytes) : Prop := blt p.1 q.1.
Definition ele (p q : bytes * bytes) : Prop := ble p.1 q.1.
#[export] Instance ele_dec : RelDecision ele := λ p q, ble_dec p.1 q.1.
#[export] Instance ele_total : Total ele.
Proof. intros p q. apply (total ble). Qed.
#[export] Instance ele_trans : Transitive ele.
Proof. intros p q r. apply (transitivity (R := ble)). Qed.

Lemma elt_irrefl p : ~ elt p p.
Proof. apply blt_irrefl. Qed.
Lemma elt_trans p q r : elt p q -> elt q r -> elt p r.
Proof. apply blt_trans. Qed.
#[export] Hint Resolve elt_irrefl elt_trans : bytdb.

(** All the entries, and those with [lo <= key < hi], by key. *)
Definition entries (m : kvmap) : list (bytes * bytes) := merge_sort ele (map_to_list m).
Definition range (m : kvmap) (lo hi : bytes) : list (bytes * bytes) :=
  filter (λ p, ble lo p.1 /\ blt p.1 hi) (entries m).

Lemma elem_of_entries m k v : (k, v) ∈ entries m <-> m !! k = Some v.
Proof. unfold entries. rewrite merge_sort_Permutation. apply elem_of_map_to_list. Qed.

Lemma entries_sorted m : StronglySorted elt (entries m).
Proof.
  assert (NoDup (entries m).*1) as Hnd.
  { unfold entries. rewrite merge_sort_Permutation. apply NoDup_fst_map_to_list. }
  pose proof (StronglySorted_merge_sort ele (map_to_list m)) as Hs. fold (entries m) in Hs.
  induction Hs as [|p l Hl IH Hp]; [constructor|].
  csimpl in Hnd. apply NoDup_cons in Hnd as [Hnin Hnd]. constructor; [auto|].
  rewrite Forall_forall in *. intros q Hq. specialize (Hp q Hq).
  apply ble_lt_or_eq in Hp as [|Hp]; [done|]. destruct Hnin.
  apply list_elem_of_fmap. eauto.
Qed.

Lemma elem_of_range m lo hi k v :
  (k, v) ∈ range m lo hi <-> m !! k = Some v /\ ble lo k /\ blt k hi.
Proof. unfold range. rewrite list_elem_of_filter, elem_of_entries. simpl. tauto. Qed.

Lemma range_sorted m lo hi : StronglySorted elt (range m lo hi).
Proof. apply sorted_filter, entries_sorted. Qed.

Lemma sorted_keys_nodup l : StronglySorted elt l -> NoDup l.*1.
Proof.
  induction 1 as [|p l _ IH Hp]; [constructor|]. csimpl. apply NoDup_cons. split; [|done].
  intros (q & E & Hq)%list_elem_of_fmap. rewrite Forall_forall in Hp. specialize (Hp q Hq).
  unfold elt in Hp. rewrite E in Hp. by apply blt_irrefl in Hp.
Qed.
Lemma range_nodup m lo hi : NoDup (range m lo hi).*1.
Proof. apply sorted_keys_nodup, range_sorted. Qed.

(** Two maps with the same entries in a range list the same range. *)
Lemma range_ext m1 m2 lo hi :
  (forall k, ble lo k -> blt k hi -> m1 !! k = m2 !! k) -> range m1 lo hi = range m2 lo hi.
Proof.
  intros H. apply (sorted_unique elt); eauto using range_sorted with bytdb.
  intros [k v]. rewrite !elem_of_range. split; intros (Hk & H1 & H2); (split; [|done]).
  - by rewrite <- H.
  - by rewrite H.
Qed.

(** ** What a transaction holds *)

(** A read claim of serializable validation: one key, or a key range. *)
Inductive claim :=
  | CKey (k : bytes)
  | CRange (lo hi : bytes).

Definition claimed (cs : list claim) (k : bytes) : Prop :=
  exists c, c ∈ cs /\ match c with CKey k' => k' = k | CRange lo hi => ble lo k /\ blt k hi end.

Record view := View {
  v_map : kvmap;
  v_writable : bool;
  v_tracking : bool;           (* begun in serializable mode *)
  v_claims : list claim;
}.

Definition with_map (f : kvmap -> kvmap) (v : view) : view :=
  View (f (v_map v)) (v_writable v) (v_tracking v) (v_claims v).
(** Only a writable, read-tracking transaction records claims. *)
Definition add_claim (c : claim) (v : view) : view :=
  View (v_map v) (v_writable v) (v_tracking v)
    (if v_writable v && v_tracking v then c :: v_claims v else v_claims v).

Definition outside (lo hi k : bytes) : Prop := ~ (ble lo k /\ blt k hi).
#[export] Instance outside_dec lo hi k : Decision (outside lo hi k) := _.

(** ** The interface *)

Class KV (tx : Type) := {
  kv_get : bytes -> tx -> option bytes;                      (* Get *)
  kv_contains : bytes -> tx -> bool;                         (* Contains *)
  kv_ascend : bytes -> tx -> list (bytes * bytes);           (* Ascend *)
  kv_descend : bytes -> tx -> list (bytes * bytes);          (* Descend *)
  kv_set : bytes -> bytes -> M tx unit;                      (* Set *)
  kv_delete : bytes -> M tx bool;                            (* Delete *)
  kv_delete_range : bytes -> bytes -> M tx nat;              (* DeleteRange *)
  kv_mark_read : bytes -> tx -> tx;                          (* MarkRead *)
  kv_mark_read_range : bytes -> bytes -> tx -> tx;           (* MarkReadRange *)
  kv_writable : tx -> bool;                                  (* Writable *)
}.

(** What the engine relies on. A transaction holds a map; iteration starts
    at the given key and follows (or runs against) key order; writes are
    seen at once by the transaction's own reads and are refused outside a
    writable transaction; marks only add read claims. *)
Class KVLaws (tx : Type) `{!KV tx} := {
  kv_view : tx -> view;
  kv_writable_view t : kv_writable t = v_writable (kv_view t);
  kv_get_view t k : kv_get k t = v_map (kv_view t) !! k;
  kv_contains_get t k : kv_contains k t = bool_decide (is_Some (kv_get k t));
  kv_ascend_sorted t from : StronglySorted elt (kv_ascend from t);
  kv_ascend_elem t from k v :
    (k, v) ∈ kv_ascend from t <-> v_map (kv_view t) !! k = Some v /\ ble from k;
  kv_descend_sorted t from : StronglySorted (flip elt) (kv_descend from t);
  kv_descend_elem t from k v :
    (k, v) ∈ kv_descend from t <-> v_map (kv_view t) !! k = Some v /\ ble k from;
  kv_set_rw t k v : kv_writable t = true -> exists t',
    kv_set k v t = (Ok tt, t') /\ kv_view t' = with_map (insert k v) (kv_view t);
  kv_set_ro t k v : kv_writable t = false -> kv_set k v t = (Err ETxNotWritable, t);
  kv_delete_rw t k : kv_writable t = true -> exists t',
    kv_delete k t = (Ok (kv_contains k t), t') /\ kv_view t' = with_map (delete k) (kv_view t);
  kv_delete_ro t k : kv_writable t = false -> kv_delete k t = (Err ETxNotWritable, t);
  kv_delete_range_rw t lo hi : kv_writable t = true -> exists t',
    kv_delete_range lo hi t = (Ok (length (range (v_map (kv_view t)) lo hi)), t') /\
    kv_view t' = with_map (filter (λ p, outside lo hi p.1)) (kv_view t);
  kv_delete_range_ro t lo hi :
    kv_writable t = false -> kv_delete_range lo hi t = (Err ETxNotWritable, t);
  kv_mark_read_view t k : kv_view (kv_mark_read k t) = add_claim (CKey k) (kv_view t);
  kv_mark_read_range_view t lo hi :
    kv_view (kv_mark_read_range lo hi t) = add_claim (CRange lo hi) (kv_view t);
}.

(** ** An in-memory instance *)

Record MemTx := Mem { mem_view : view }.

Definition mem_write {A : Type} (f : kvmap -> kvmap) (r : kvmap -> A) : M MemTx A := λ t,
  if v_writable (mem_view t) then (Ok (r (v_map (mem_view t))), Mem (with_map f (mem_view t)))
  else (Err ETxNotWritable, t).

#[export] Instance mem_kv : KV MemTx := {
  kv_get k t := v_map (mem_view t) !! k;
  kv_contains k t := bool_decide (is_Some (v_map (mem_view t) !! k));
  kv_ascend from t := filter (λ p, ble from p.1) (entries (v_map (mem_view t)));
  kv_descend from t := reverse (filter (λ p, ble p.1 from) (entries (v_map (mem_view t))));
  kv_set k v := mem_write (insert k v) (λ _, tt);
  kv_delete k := mem_write (delete k) (λ m, bool_decide (is_Some (m !! k)));
  kv_delete_range lo hi :=
    mem_write (filter (λ p, outside lo hi p.1)) (λ m, length (range m lo hi));
  kv_mark_read k t := Mem (add_claim (CKey k) (mem_view t));
  kv_mark_read_range lo hi t := Mem (add_claim (CRange lo hi) (mem_view t));
  kv_writable t := v_writable (mem_view t);
}.

Lemma sorted_reverse {A} (R : A -> A -> Prop) l : StronglySorted R l -> StronglySorted (flip R) (reverse l).
Proof.
  induction 1 as [|x l Hl IH Hx]; [constructor|]. rewrite reverse_cons.
  apply StronglySorted_app. split_and!; [|done|repeat constructor]. intros y z Hy Hz.
  rewrite elem_of_reverse in Hy. apply list_elem_of_singleton in Hz as ->.
  rewrite Forall_forall in Hx. exact (Hx y Hy).
Qed.

#[export] Instance mem_kv_laws : KVLaws MemTx.
Proof.
  refine {| kv_view := mem_view |}; try done.
  - intros t from. apply sorted_filter, entries_sorted.
  - intros t from k v. cbn [kv_ascend mem_kv]. rewrite list_elem_of_filter, elem_of_entries. simpl. tauto.
  - intros t from. apply sorted_reverse, sorted_filter, entries_sorted.
  - intros t from k v. cbn [kv_descend mem_kv].
    rewrite elem_of_reverse, list_elem_of_filter, elem_of_entries. simpl. tauto.
  - intros t k v Hw. eexists. simpl in *. unfold mem_write. by rewrite Hw.
  - intros t k v Hw. simpl in *. unfold mem_write. by rewrite Hw.
  - intros t k Hw. eexists. simpl in *. unfold mem_write. by rewrite Hw.
  - intros t k Hw. simpl in *. unfold mem_write. by rewrite Hw.
  - intros t lo hi Hw. eexists. simpl in *. unfold mem_write. by rewrite Hw.
  - intros t lo hi Hw. simpl in *. unfold mem_write. by rewrite Hw.
Defined.

(** A store opened for writing on the given entries. *)
Definition mem_open (l : list (bytes * bytes)) : MemTx := Mem (View (list_to_map l) true true []).

(** ** Iteration *)

(** [for k, v := range t.Ascend(start) { if k >= end { return } ... }]. *)
Definition ascend_to `{KV tx} (start end_ : bytes) (t : tx) : list (bytes * bytes) :=
  take_while (λ p, bltb p.1 end_) (kv_ascend start t).
(** [for k, v := range t.Descend(end) { if k >= end { continue }; if k < start { return } ... }]. *)
Definition descend_to `{KV tx} (start end_ : bytes) (t : tx) : list (bytes * bytes) :=
  take_while (λ p, bgeb p.1 start) (filter (λ p, blt p.1 end_) (kv_descend end_ t)).

(** A Go range-over-func sequence: the body makes one item of each entry
    and yields it; the consumer, given the items it has seen (latest
    first), says whether it wants more. An item that is an error is yielded
    and ends the sequence: [if !yield(row, err) || err != nil { return }].
    The result is the items yielded, latest first. *)
Fixpoint yield_each {tx X A : Type} (more : list (outcome A) -> bool) (body : X -> M tx A)
    (xs : list X) (seen : list (outcome A)) (t : tx) : list (outcome A) * tx :=
  match xs with
  | [] => (seen, t)
  | x :: xs' =>
      let '(o, t') := body x t in
      if is_ok o && more (o :: seen) then yield_each more body xs' (o :: seen) t'
      else (o :: seen, t')
  end.

(** A consumer that drains the sequence. *)
Definition drain {A : Type} (_ : list (outcome A)) : bool := true.

(** Stopping early only cuts the items off. *)
Lemma yield_each_prefix {tx X A : Type} more (body : X -> M tx A) xs seen t :
  exists later, (yield_each drain body xs seen t).1 = later ++ (yield_each more body xs seen t).1.
Proof.
  revert seen t; induction xs as [|x xs IH]; intros seen t; simpl; [by exists []|].
  destruct (body x t) as [o t'] eqn:E. destruct (is_ok o) eqn:Eo; simpl; [|by exists []].
  destruct (more (o :: seen)); [apply IH|].
  assert (forall ys s u, exists later, (yield_each drain body ys s u).1 = later ++ s) as Hgrow.
  { induction ys as [|y ys IHy]; intros s u; simpl; [by exists []|].
    destruct (body y u) as [p u']. destruct (is_ok p); simpl; [|by exists [p]].
    destruct (IHy (p :: s) u') as [l ->]. exists (l ++ [p]). by rewrite <- app_assoc. }
  apply Hgrow.
Qed.

(** The sequence runs to its end unless the consumer stops it. *)
Lemma yield_each_cut {tx X A : Type} more (body : X -> M tx A) xs seen t :
  (yield_each more body xs seen t).1 = (yield_each drain body xs seen t).1 \/ more (yield_each more body xs seen t).1 = false.
Proof.
  revert seen t; induction xs as [|x xs IH]; intros seen t; simpl; [by left|].
  destruct (body x t) as [o t']. destruct (is_ok o); simpl; [|by left]. destruct (more (o :: seen)) eqn:Em; [apply IH|by right].
Qed.

(** A body that always succeeds and leaves what it reads alone. *)
Lemma yield_each_ok {tx X A : Type} (I : tx -> Prop) (body : X -> M tx A) (f : X -> A) xs seen t :
  I t -> (forall x u, x ∈ xs -> I u -> exists u', body x u = (Ok (f x), u') /\ I u') ->
  exists t', yield_each drain body xs seen t = (reverse (Ok ∘ f <$> xs) ++ seen, t') /\ I t'.
Proof.
  revert seen t; induction xs as [|x xs IH]; intros seen t Ht Hbody; [by exists t|].
  cbn [yield_each]. destruct (Hbody x t) as (u & -> & Hu); [left|done|]. cbn [is_ok andb drain].
  destruct (IH (Ok (f x) :: seen) u) as (t' & -> & Ht'); [done|by intros; apply Hbody; [right|]|].
  exists t'. split; [|done]. csimpl. by rewrite reverse_cons, <- app_assoc.
Qed.

Section laws.
Context {tx : Type} `{!KV tx, !KVLaws tx}.
Implicit Types t : tx.

Definition kv_map t : kvmap := v_map (kv_view t).

(** [t'] is [t] with the map changed by [f]: what every sequence of writes
    amounts to. *)
Definition writes (f : kvmap -> kvmap) t t' : Prop := kv_view t' = with_map f (kv_view t).

Lemma kv_get_map t k : kv_get k t = kv_map t !! k.
Proof. apply kv_get_view. Qed.
Lemma kv_contains_map t k : kv_contains k t = bool_decide (is_Some (kv_map t !! k)).
Proof. rewrite kv_contains_get. by rewrite kv_get_map. Qed.
Lemma kv_contains_false t k : kv_contains k t = false <-> kv_map t !! k = None.
Proof. rewrite kv_contains_map, bool_decide_eq_false. by rewrite eq_None_not_Some. Qed.
Lemma kv_contains_true t k : kv_contains k t = true <-> is_Some (kv_map t !! k).
Proof. by rewrite kv_contains_map, bool_decide_eq_true. Qed.

Lemma writes_map f t t' : writes f t t' -> kv_map t' = f (kv_map t).
Proof. unfold writes, kv_map. by intros ->. Qed.
Lemma writes_writable f t t' : writes f t t' -> kv_writable t' = kv_writable t.
Proof. unfold writes. rewrite !kv_writable_view. by intros ->. Qed.
Lemma writes_id t : writes id t t.
Proof. unfold writes, with_map. by destruct (kv_view t). Qed.
Lemma writes_comp f g t t1 t2 : writes f t t1 -> writes g t1 t2 -> writes (g ∘ f) t t2.
Proof. unfold writes. by intros -> ->. Qed.

Lemma ascend_to_range start end_ t : ascend_to start end_ t = range (kv_map t) start end_.
Proof.
  unfold ascend_to. rewrite (take_while_filter elt) by
    (apply kv_ascend_sorted || (intros x y Hxy; rewrite !bltb_true; unfold elt in *; eauto using blt_trans)).
  apply (sorted_unique elt); eauto using range_sorted with bytdb.
  - apply sorted_filter, kv_ascend_sorted.
  - intros [k v]. rewrite list_elem_of_filter, kv_ascend_elem, elem_of_range, bltb_true. tauto.
Qed.

Lemma descend_to_range start end_ t : descend_to start end_ t = reverse (range (kv_map t) start end_).
Proof.
  unfold descend_to.
  rewrite (take_while_filter (flip elt)) by
    (apply sorted_filter, kv_descend_sorted ||
     (intros x y Hxy; rewrite !bgeb_true; unfold elt in *; intros; apply blt_ble; eapply ble_blt_trans; done)).
  apply (sorted_unique (flip elt)).
  - intros p. apply elt_irrefl.
  - intros p q r H1 H2. eapply elt_trans; done.
  - apply sorted_filter, sorted_filter, kv_descend_sorted.
  - apply sorted_reverse, range_sorted.
  - intros [k v]. rewrite !list_elem_of_filter, kv_descend_elem, elem_of_reverse, elem_of_range, bgeb_true.
    simpl. split; [tauto|]. intros (? & ? & ?). eauto using blt_ble.
Qed.

End laws.

#[export] Hint Resolve writes_id : bytdb.

(** ** Rules for the store's operations *)

Section wp.
Context {tx : Type} {kv : KV tx} {kv_laws : KVLaws tx}.

Lemma wp_set k v (Q : outcome unit -> tx -> Prop) t :
  (if kv_writable t then forall t', writes (insert k v) t t' -> Q (Ok tt) t'
   else Q (Err ETxNotWritable) t) -> wp (kv_set k v) Q t.
Proof.
  unfold wp. destruct (kv_writable t) eqn:Hw.
  - destruct (kv_set_rw t k v Hw) as (t' & -> & Ht). by intros H; apply H.
  - by rewrite kv_set_ro.
Qed.

Lemma wp_delete k (Q : outcome bool -> tx -> Prop) t :
  (if kv_writable t then forall t', writes (delete k) t t' -> Q (Ok (kv_contains k t)) t'
   else Q (Err ETxNotWritable) t) -> wp (kv_delete k) Q t.
Proof.
  unfold wp. destruct (kv_writable t) eqn:Hw.
  - destruct (kv_delete_rw t k Hw) as (t' & -> & Ht). by intros H; apply H.
  - by rewrite kv_delete_ro.
Qed.

Lemma wp_delete_range lo hi (Q : outcome nat -> tx -> Prop) t :
  (if kv_writable t then forall t', writes (filter (λ p, outside lo hi p.1)) t t' ->
      Q (Ok (length (range (kv_map t) lo hi))) t'
   else Q (Err ETxNotWritable) t) -> wp (kv_delete_range lo hi) Q t.
Proof.
  unfold wp. destruct (kv_writable t) eqn:Hw.
  - destruct (kv_delete_range_rw t lo hi Hw) as (t' & -> & Ht). by intros H; apply H.
  - by rewrite kv_delete_range_ro.
Qed.

Lemma kv_mark_read_map k t : kv_map (kv_mark_read k t) = kv_map t.
Proof. unfold kv_map. by rewrite kv_mark_read_view. Qed.
Lemma kv_mark_read_writable k t : kv_writable (kv_mark_read k t) = kv_writable t.
Proof. rewrite !kv_writable_view. by rewrite kv_mark_read_view. Qed.
Lemma kv_mark_read_range_map lo hi t : kv_map (kv_mark_read_range lo hi t) = kv_map t.
Proof. unfold kv_map. by rewrite kv_mark_read_range_view. Qed.
Lemma kv_mark_read_range_writable lo hi t : kv_writable (kv_mark_read_range lo hi t) = kv_writable t.
Proof. rewrite !kv_writable_view. by rewrite kv_mark_read_range_view. Qed.

End wp.
