(* ===== verification/Savepoint.v ===== *)
(** * Savepoints of the store

    The part of [btypedb.Tx] that [txn.go] uses beyond [KV]: savepoints, and
    the switch to serializable validation. [KVSaveLaws] states what the
    engine relies on: the outstanding savepoints form a stack, rolling back
    to one restores what it captured and drops the later ones, releasing one
    drops it and the later ones, and reads and writes leave the stack alone.
    [SaveTx] is an instance. *)
From S2P Require Import Prelude KV.

Class KVSave (tx sp : Type) := {
  kv_savepoint : M tx sp;                                    (* Savepoint *)
  kv_rollback_to : sp -> M tx unit;                          (* RollbackTo *)
  kv_release : sp -> M tx unit;                              (* Release *)
  kv_track_reads : tx -> tx;                                 (* TrackReads *)
}.

(** The stack and the handles handed out so far are as before. *)
Definition same_saves {tx sp : Type} (saves : tx -> list (sp * kvmap)) (issued : tx -> list sp) (t t' : tx) : Prop :=
  saves t' = saves t /\ issued t' = issued t.

Class KVSaveLaws (tx sp : Type) {kv : KV tx} {kv_laws : KVLaws tx} {sv : KVSave tx sp} := {
  kv_saves : tx -> list (sp * kvmap);
  kv_issued : tx -> list sp;
  kv_set_saves k v t : same_saves kv_saves kv_issued t (kv_set k v t).2;
  kv_delete_saves k t : same_saves kv_saves kv_issued t (kv_delete k t).2;
  kv_delete_range_saves lo hi t : same_saves kv_saves kv_issued t (kv_delete_range lo hi t).2;
  kv_mark_read_saves k t : same_saves kv_saves kv_issued t (kv_mark_read k t);
  kv_mark_read_range_saves lo hi t : same_saves kv_saves kv_issued t (kv_mark_read_range lo hi t);
  kv_track_reads_saves t : (same_saves kv_saves kv_issued t (kv_track_reads t)) /\
    (kv_map (kv_track_reads t) = kv_map t) /\ (kv_writable (kv_track_reads t) = kv_writable t);
  kv_savepoint_saves t : match kv_savepoint t with
    | (Ok p, t') => (p ∉ kv_issued t) /\ kv_issued t' = p :: kv_issued t /\ kv_saves t' = kv_saves t ++ [(p, kv_map t)] /\
        kv_map t' = kv_map t /\ kv_writable t' = kv_writable t
    | (Err _, t') => t' = t
    | (Panic _, _) => False
    end;
  kv_rollback_to_saves p t : match kv_rollback_to p t with
    | (Ok _, t') => exists pre m post, kv_saves t = pre ++ (p, m) :: post /\ kv_saves t' = pre ++ [(p, m)] /\
        kv_issued t' = kv_issued t /\ kv_map t' = m /\ kv_writable t' = kv_writable t
    | (Err _, t') => t' = t
    | (Panic _, _) => False
    end;
  kv_release_saves p t : match kv_release p t with
    | (Ok _, t') => exists pre m post, kv_saves t = pre ++ (p, m) :: post /\ kv_saves t' = pre /\
        kv_issued t' = kv_issued t /\ kv_map t' = kv_map t /\ kv_writable t' = kv_writable t
    | (Err _, t') => t' = t
    | (Panic _, _) => False
    end;
}.

(** ** An in-memory instance *)

Record SaveTx := Save {
  sv_mem : MemTx;
  sv_saves : list (nat * kvmap);
  sv_next : nat;
}.
Definition sv_on {A : Type} (m : M MemTx A) : M SaveTx A := λ t,
  let '(o, u) := m (sv_mem t) in (o, Save u (sv_saves t) (sv_next t)).

#[export] Instance save_kv : KV SaveTx := {
  kv_get k t := kv_get k (sv_mem t);
  kv_contains k t := kv_contains k (sv_mem t);
  kv_ascend from t := kv_ascend from (sv_mem t);
  kv_descend from t := kv_descend from (sv_mem t);
  kv_set k v := sv_on (kv_set k v);
  kv_delete k := sv_on (kv_delete k);
  kv_delete_range lo hi := sv_on (kv_delete_range lo hi);
  kv_mark_read k t := Save (kv_mark_read k (sv_mem t)) (sv_saves t) (sv_next t);
  kv_mark_read_range lo hi t := Save (kv_mark_read_range lo hi (sv_mem t)) (sv_saves t) (sv_next t);
  kv_writable t := kv_writable (sv_mem t);
}.
#[export] Instance save_kv_laws : KVLaws SaveTx.
Proof.
  refine {| kv_view t := kv_view (sv_mem t) |}.
  - intros t. apply (kv_writable_view (sv_mem t)).
  - intros t k. apply (kv_get_view (sv_mem t)).
  - intros t k. apply (kv_contains_get (sv_mem t)).
  - intros t from. apply (kv_ascend_sorted (sv_mem t)).
  - intros t from k v. apply (kv_ascend_elem (sv_mem t)).
  - intros t from. apply (kv_descend_sorted (sv_mem t)).
  - intros t from k v. apply (kv_descend_elem (sv_mem t)).
  - intros t k v Hw. destruct (kv_set_rw (sv_mem t) k v Hw) as (u & Hu & Hv). eexists. cbn [kv_set save_kv]. unfold sv_on. rewrite Hu. done.
  - intros t k v Hw. cbn [kv_set save_kv]. unfold sv_on. rewrite kv_set_ro by done. by destruct t.
  - intros t k Hw. destruct (kv_delete_rw (sv_mem t) k Hw) as (u & Hu & Hv). eexists. cbn [kv_delete save_kv]. unfold sv_on. rewrite Hu. done.
  - intros t k Hw. cbn [kv_delete save_kv]. unfold sv_on. rewrite kv_delete_ro by done. by destruct t.
  - intros t lo hi Hw. destruct (kv_delete_range_rw (sv_mem t) lo hi Hw) as (u & Hu & Hv). eexists. cbn [kv_delete_range save_kv]. unfold sv_on. rewrite Hu. done.
  - intros t lo hi Hw. cbn [kv_delete_range save_kv]. unfold sv_on. rewrite kv_delete_range_ro by done. by destruct t.
  - intros t k. apply (kv_mark_read_view (sv_mem t)).
  - intros t lo hi. apply (kv_mark_read_range_view (sv_mem t)).
Defined.

(** The stack up to [p], and what [p] captured. *)
Fixpoint sv_find (p : nat) (l : list (nat * kvmap)) : option (list (nat * kvmap) * kvmap) :=
  match l with
  | [] => None
  | (q, m) :: l' => if decide (q = p) then Some ([], m) else '(pre, m') ← sv_find p l'; Some ((q, m) :: pre, m')
  end.
Lemma sv_find_split p l pre m : sv_find p l = Some (pre, m) -> exists post, l = pre ++ (p, m) :: post.
Proof.
  revert pre. induction l as [|[q m0] l IH]; intros pre; cbn; [done|]. case_decide as E; [intros [= <- <-]; subst; by exists l|].
  destruct (sv_find p l) as [[pre' m']|]; [|done]. cbn. intros [= <- <-]. destruct (IH pre' eq_refl) as [post ->]. by exists post.
Qed.

Definition errNoSavepoint : error := ENew (go "btypedb: no such savepoint").
Definition sv_with_map (m : kvmap) (t : MemTx) : MemTx := Mem (with_map (λ _, m) (mem_view t)).
#[export] Instance save_save : KVSave SaveTx nat := {
  kv_savepoint t := (Ok (sv_next t), Save (sv_mem t) (sv_saves t ++ [(sv_next t, v_map (mem_view (sv_mem t)))]) (S (sv_next t)));
  kv_rollback_to p t :=
    match sv_find p (sv_saves t) with
    | Some (pre, m) => (Ok tt, Save (sv_with_map m (sv_mem t)) (pre ++ [(p, m)]) (sv_next t))
    | None => (Err errNoSavepoint, t)
    end;
  kv_release p t :=
    match sv_find p (sv_saves t) with
    | Some (pre, _) => (Ok tt, Save (sv_mem t) pre (sv_next t))
    | None => (Err errNoSavepoint, t)
    end;
  kv_track_reads t := Save (Mem (View (v_map (mem_view (sv_mem t))) (v_writable (mem_view (sv_mem t))) true (v_claims (mem_view (sv_mem t))))) (sv_saves t) (sv_next t);
}.
#[export] Instance save_save_laws : KVSaveLaws SaveTx nat.
Proof.
  refine {| kv_saves := sv_saves; kv_issued t := reverse (seq 0 (sv_next t)) |}; try done.
  - intros k v t. cbn. unfold sv_on. by destruct (mem_write _ _ _).
  - intros k t. cbn. unfold sv_on. by destruct (mem_write _ _ _).
  - intros lo hi t. cbn. unfold sv_on. by destruct (mem_write _ _ _).
  - intros t. cbn [kv_savepoint save_save]. split_and!; [rewrite elem_of_reverse, elem_of_seq; lia| |done..].
    cbn [sv_next]. by rewrite seq_S, reverse_app.
  - intros p t. cbn [kv_rollback_to save_save]. destruct (sv_find p (sv_saves t)) as [[pre m]|] eqn:E; [|done].
    destruct (sv_find_split _ _ _ _ E) as [post Hp]. by exists pre, m, post.
  - intros p t. cbn [kv_release save_save]. destruct (sv_find p (sv_saves t)) as [[pre m]|] eqn:E; [|done].
    destruct (sv_find_split _ _ _ _ E) as [post Hp]. by exists pre, m, post.
Defined.
