(* ===== verification/GoStr.v ===== *)
(** * Go strings

    The parts of Go's string handling the engine uses: UTF-8 (the
    conversions between [string] and [[]rune]), [strings.TrimSpace],
    [strings.Trim] with an ASCII cutset, [strings.EqualFold] against an
    ASCII word, hexadecimal digits and decimal integers. *)
From S2P Require Import Prelude.

Local Open Scope Z_scope.

(** ** UTF-8 *)

Definition RuneError : Z := 0xFFFD.

(** Unicode scalar values: what a valid encoding stands for. *)
Definition scalar (r : Z) : Prop := 0 <= r < 0xD800 \/ 0xE000 <= r < 0x110000.
#[export] Instance scalar_dec r : Decision (scalar r) := _.

(** [utf8.AppendRune]: what is not a scalar value is written as U+FFFD. *)
Definition encode_rune (r : Z) : bytes :=
  let r := if decide (scalar r) then r else RuneError in
  if r <? 0x80 then [z2b r]
  else if r <? 0x800 then [z2b (0xC0 + r / 64); z2b (0x80 + r mod 64)]
  else if r <? 0x10000 then
    [z2b (0xE0 + r / 4096); z2b (0x80 + (r / 64) mod 64); z2b (0x80 + r mod 64)]
  else
    [z2b (0xF0 + r / 262144); z2b (0x80 + (r / 4096) mod 64);
     z2b (0x80 + (r / 64) mod 64); z2b (0x80 + r mod 64)].

Definition cont (b : byte) : bool := (0x80 <=? b2z b) && (b2z b <? 0xC0).

(** [utf8.DecodeRuneInString] on a non-empty string: the rune and the bytes
    after it. An invalid byte reads as U+FFFD and takes one byte. *)
Definition decode_rune (c : byte) (s : bytes) : Z * bytes :=
  let b := b2z c in
  let bad := (RuneError, s) in
  if b <? 0x80 then (b, s)
  else if (0xC2 <=? b) && (b <? 0xE0) then
    match s with
    | d :: s1 => if cont d then ((b - 0xC0) * 64 + (b2z d - 0x80), s1) else bad
    | _ => bad
    end
  else if (0xE0 <=? b) && (b <? 0xF0) then
    match s with
    | d :: e :: s2 =>
        let lo := if b =? 0xE0 then 0xA0 else 0x80 in
        let hi := if b =? 0xED then 0xA0 else 0xC0 in
        if (lo <=? b2z d) && (b2z d <? hi) && cont e then
          ((b - 0xE0) * 4096 + (b2z d - 0x80) * 64 + (b2z e - 0x80), s2)
        else bad
    | _ => bad
    end
  else if (0xF0 <=? b) && (b <? 0xF5) then
    match s with
    | d :: e :: f :: s3 =>
        let lo := if b =? 0xF0 then 0x90 else 0x80 in
        let hi := if b =? 0xF4 then 0x90 else 0xC0 in
        if (lo <=? b2z d) && (b2z d <? hi) && cont e && cont f then
          ((b - 0xF0) * 262144 + (b2z d - 0x80) * 4096 + (b2z e - 0x80) * 64 + (b2z f - 0x80), s3)
        else bad
    | _ => bad
    end
  else bad.

(** The conversion [[]rune(s)]: a string of [n] bytes has at most [n]
    runes, so [n] steps are enough ([runes_cons]). *)
Fixpoint runes_fuel (fuel : nat) (s : bytes) : list Z :=
  match fuel, s with
  | S fuel', c :: s' => let '(r, rest) := decode_rune c s' in r :: runes_fuel fuel' rest
  | _, _ => []
  end.
Definition runes (s : bytes) : list Z := runes_fuel (length s) s.

(** The conversion [string(rs)]. *)
Definition of_runes (rs : list Z) : bytes := rs ≫= encode_rune.

Lemma decode_rune_shorter c s : (length (decode_rune c s).2 <= length s)%nat.
Proof.
  unfold decode_rune. cbv zeta. repeat case_match; simpl; lia.
Qed.

Lemma runes_fuel_enough n m s : (length s <= n)%nat -> (length s <= m)%nat ->
  runes_fuel n s = runes_fuel m s.
Proof.
  revert m s; induction n as [|n IH]; intros [|m] [|c s] Hn Hm; simpl in *; try lia; try done.
  pose proof (decode_rune_shorter c s) as Hd. destruct (decode_rune c s) as [r rest]. simpl in Hd.
  f_equal. apply IH; lia.
Qed.

Lemma runes_cons c s : runes (c :: s) = (decode_rune c s).1 :: runes (decode_rune c s).2.
Proof.
  unfold runes. simpl. pose proof (decode_rune_shorter c s) as Hd.
  destruct (decode_rune c s) as [r rest]. simpl in *. f_equal. apply runes_fuel_enough; lia.
Qed.

(** [lia] with division and remainder by constants. *)
Ltac div_lia := Z.to_euclidean_division_equations; lia.

Lemma cont_z2b z : 0 <= z < 64 -> cont (z2b (0x80 + z)) = true.
Proof. intros Hz. unfold cont. rewrite b2z_z2b, Z.mod_small by lia. lia. Qed.
Lemma z2b_small z : 0 <= z < 256 -> b2z (z2b z) = z.
Proof. intros Hz. rewrite b2z_z2b. by apply Z.mod_small. Qed.

(** Settles the next comparison of constants and variables in the goal. *)
Ltac ltb_step :=
  match goal with
  | |- context [?a <? ?b] =>
      first [replace (a <? b) with true by (symmetry; apply Z.ltb_lt; div_lia)
            |replace (a <? b) with false by (symmetry; apply Z.ltb_ge; div_lia)]
  | |- context [?a <=? ?b] =>
      first [replace (a <=? b) with true by (symmetry; apply Z.leb_le; div_lia)
            |replace (a <=? b) with false by (symmetry; apply Z.leb_gt; div_lia)]
  end.

Lemma decode_encode_rune r s : scalar r ->
  exists c s', encode_rune r ++ s = c :: s' /\ decode_rune c s' = (r, s).
Proof.
  intros Hr. unfold encode_rune. rewrite (decide_True (P := scalar r)) by done.
  unfold scalar in Hr. cbv zeta.
  destruct (Z.ltb_spec r 0x80); [|destruct (Z.ltb_spec r 0x800); [|destruct (Z.ltb_spec r 0x10000)]];
    cbn [app]; eexists _, _; (split; [done|]); unfold decode_rune; cbv zeta;
    rewrite ?cont_z2b by div_lia; rewrite !z2b_small by div_lia; repeat ltb_step; simpl.
  - done.
  - f_equal. div_lia.
  - destruct (Z.eqb_spec (0xE0 + r / 4096) 0xE0); destruct (Z.eqb_spec (0xE0 + r / 4096) 0xED);
      repeat ltb_step; simpl; f_equal; div_lia.
  - destruct (Z.eqb_spec (0xF0 + r / 262144) 0xF0); destruct (Z.eqb_spec (0xF0 + r / 262144) 0xF4);
      repeat ltb_step; simpl; f_equal; div_lia.
Qed.

Lemma decode_rune_scalar c s : scalar (decode_rune c s).1.
Proof.
  pose proof (b2z_range c). unfold decode_rune, scalar, cont, RuneError. cbv zeta.
  repeat case_match; simpl; try lia.
Qed.

Lemma runes_scalar s : Forall scalar (runes s).
Proof.
  remember (length s) as n eqn:Hn. revert s Hn. induction n as [n IH] using lt_wf_ind.
  intros [|c s] ->; [constructor|]. rewrite runes_cons. constructor; [apply decode_rune_scalar|].
  eapply IH; [|done]. simpl. pose proof (decode_rune_shorter c s). lia.
Qed.

Lemma runes_of_runes rs : Forall scalar rs -> runes (of_runes rs) = rs.
Proof.
  induction 1 as [|r rs Hr _ IH]; [done|]. change (of_runes (r :: rs)) with (encode_rune r ++ of_runes rs).
  destruct (decode_encode_rune r (of_runes rs) Hr) as (c & s' & -> & E).
  rewrite runes_cons, E. simpl. by rewrite IH.
Qed.

Lemma runes_length s : (length (runes s) <= length s)%nat.
Proof.
  remember (length s) as n eqn:Hn. revert s Hn. induction n as [n IH] using lt_wf_ind.
  intros [|c s] ->; [simpl; lia|]. rewrite runes_cons. simpl. pose proof (decode_rune_shorter c s).
  pose proof (IH (length (decode_rune c s).2) ltac:(simpl; lia) _ eq_refl). lia.
Qed.

(** ** White space *)

(** [unicode.IsSpace] *)
Definition isSpace (r : Z) : bool :=
  ((9 <=? r) && (r <=? 13)) || (r =? 32) || (r =? 0x85) || (r =? 0xA0) || (r =? 0x1680)
  || ((0x2000 <=? r) && (r <=? 0x200A)) || (r =? 0x2028) || (r =? 0x2029) || (r =? 0x202F)
  || (r =? 0x205F) || (r =? 0x3000).

(** [strings.TrimLeftFunc(s, unicode.IsSpace)]: every step drops at least
    one byte, so [length s] steps are enough. *)
Fixpoint trim_left_fuel (fuel : nat) (s : bytes) : bytes :=
  match fuel, s with
  | S fuel', c :: s' =>
      let '(r, rest) := decode_rune c s' in if isSpace r then trim_left_fuel fuel' rest else s
  | _, _ => s
  end.

(** [utf8.DecodeLastRuneInString]: the start of the last rune is looked for
    among at most the last four bytes; [back] is the number of bytes from
    it to the end. Returns the rune and the string before it. *)
Fixpoint back (lim : nat) (r : bytes) (acc : nat) : nat :=
  match r, lim with
  | [], _ => acc
  | _ :: _, O => S acc
  | c :: r', S lim' => if cont c then back lim' r' (S acc) else S acc
  end.
Definition decode_last_rune (s : bytes) : Z * bytes :=
  match reverse s with
  | [] => (RuneError, [])
  | c0 :: r =>
      if b2z c0 <? 0x80 then (b2z c0, reverse r)
      else
        let n := (length s - back 3 r 1)%nat in
        match drop n s with
        | [] => (RuneError, reverse r)
        | c :: s' =>
            match decode_rune c s' with
            | (x, []) => (x, take n s)
            | _ => (RuneError, reverse r)
            end
        end
  end.

(** [strings.TrimRightFunc(s, unicode.IsSpace)] *)
Fixpoint trim_right_fuel (fuel : nat) (s : bytes) : bytes :=
  match fuel, s with
  | S fuel', _ :: _ =>
      let '(r, before) := decode_last_rune s in
      if isSpace r then trim_right_fuel fuel' before else s
  | _, _ => s
  end.

(** [strings.TrimSpace] *)
Definition TrimSpace (s : bytes) : bytes :=
  let s := trim_left_fuel (length s) s in trim_right_fuel (length s) s.

Example TrimSpace_ex : TrimSpace [x20; xc2; xa0; x61; x20; xe3; x80; x80; x0a] = [x61].
Proof. reflexivity. Qed.

(** A byte below 0x80 that is no white space. *)
Definition solid (c : byte) : Prop := b2z c < 0x80 /\ isSpace (b2z c) = false.
#[export] Instance solid_dec c : Decision (solid c) := _.

Lemma trim_left_solid fuel c s : solid c -> trim_left_fuel fuel (c :: s) = c :: s.
Proof.
  intros [Hc Hs]. destruct fuel; [done|]. cbn [trim_left_fuel]. unfold decode_rune.
  cbv zeta. rewrite (proj2 (Z.ltb_lt _ _) Hc). by rewrite Hs.
Qed.

Lemma trim_right_solid fuel s c : solid c -> trim_right_fuel fuel (s ++ [c]) = s ++ [c].
Proof.
  intros [Hc Hs]. destruct fuel; [by destruct (s ++ [c])|]. cbn [trim_right_fuel].
  destruct (s ++ [c]) as [|d s'] eqn:E; [done|]. rewrite <- E.
  unfold decode_last_rune. rewrite reverse_app. cbn [reverse rev_append app].
  rewrite (proj2 (Z.ltb_lt _ _) Hc). by rewrite Hs.
Qed.

Lemma TrimSpace_id s c d :
  head s = Some c -> last s = Some d -> solid c -> solid d -> TrimSpace s = s.
Proof.
  intros Hc Hd Sc Sd. destruct s as [|c' s]; [done|]. injection Hc as ->.
  unfold TrimSpace. rewrite trim_left_solid by done. cbv zeta.
  apply last_Some in Hd as [s' E]. rewrite E. by apply trim_right_solid.
Qed.

(** ** Cutsets and case *)

(** [strings.Trim(s, cutset)] for an ASCII cutset *)
Fixpoint trim_left_set (cut : byte -> bool) (s : bytes) : bytes :=
  match s with
  | [] => []
  | c :: s' => if cut c then trim_left_set cut s' else s
  end.
Definition trim_right_set (cut : byte -> bool) (s : bytes) : bytes :=
  reverse (trim_left_set cut (reverse s)).
Definition Trim (s : bytes) (cut : byte -> bool) : bytes := trim_right_set cut (trim_left_set cut s).

Definition lower (c : byte) : byte :=
  if (65 <=? b2z c) && (b2z c <=? 90) then z2b (b2z c + 32) else c.

(** [strings.EqualFold(s, w)] for a word [w] of ASCII letters none of which
    folds with a letter outside ASCII (only [k] and [s] do). *)
Definition EqualFold (s w : bytes) : bool := bool_decide (lower <$> s = lower <$> w).

(** ** Hexadecimal *)

Definition hexdigit (n : Z) : byte := if n <? 10 then z2b (48 + n) else z2b (87 + n).
(** [%x] of a byte slice *)
Definition hex (s : bytes) : bytes := s ≫= λ b, [hexdigit (b2z b / 16); hexdigit (b2z b mod 16)].

Definition unhexdigit (c : byte) : option Z :=
  let n := b2z c in
  if (48 <=? n) && (n <=? 57) then Some (n - 48)
  else if (97 <=? n) && (n <=? 102) then Some (n - 87)
  else if (65 <=? n) && (n <=? 70) then Some (n - 55)
  else None.
(** [hex.DecodeString]; [None] is its error. *)
Fixpoint unhex (s : bytes) : option bytes :=
  match s with
  | [] => Some []
  | [_] => None
  | a :: b :: s' =>
      x ← unhexdigit a; y ← unhexdigit b; r ← unhex s'; Some (z2b (16 * x + y) :: r)
  end.

Lemma unhexdigit_hexdigit n : 0 <= n < 16 -> unhexdigit (hexdigit n) = Some n.
Proof.
  intros Hn. unfold hexdigit, unhexdigit. cbv zeta.
  destruct (Z.ltb_spec n 10); rewrite !z2b_small by lia; repeat ltb_step; simpl; f_equal; lia.
Qed.

Lemma unhex_hex s : unhex (hex s) = Some s.
Proof.
  induction s as [|b s IH]; [done|]. change (hex (b :: s)) with
    (hexdigit (b2z b / 16) :: hexdigit (b2z b mod 16) :: hex s).
  pose proof (b2z_range b). cbn [unhex].
  rewrite !unhexdigit_hexdigit by div_lia. simpl. rewrite IH. simpl. do 2 f_equal.
  rewrite <- Z.div_mod by lia. apply z2b_b2z.
Qed.

Lemma hex_length s : length (hex s) = (2 * length s)%nat.
Proof. induction s as [|b s IH]; [done|]. unfold hex in *. cbn. rewrite IH. lia. Qed.

Lemma hex_app s t : hex (s ++ t) = hex s ++ hex t.
Proof. unfold hex. apply bind_app. Qed.

Lemma unhex_length s b : unhex s = Some b -> length s = (2 * length b)%nat.
Proof.
  remember (length s) as n eqn:Hn. revert s Hn b. induction n as [n IH] using lt_wf_ind.
  intros [|x [|y s]] -> b; [by intros [= <-]|done|]. cbn [unhex].
  destruct (unhexdigit x), (unhexdigit y); simpl; try done.
  destruct (unhex s) as [r|] eqn:E; simpl; [|done]. intros [= <-].
  apply (IH (length s)) in E; [|simpl; lia|done]. simpl. lia.
Qed.

(** ** Decimal integers *)

(** Decimal digits of a non-negative number, most significant first; the
    fuel is the number's bit length, more than its digits. *)
Fixpoint digits_fuel (fuel : nat) (n : Z) (acc : bytes) : bytes :=
  match fuel with
  | O => acc
  | S fuel' =>
      let acc := z2b (48 + n mod 10) :: acc in
      if n <? 10 then acc else digits_fuel fuel' (n / 10) acc
  end.
Definition digits (n : Z) : bytes := digits_fuel (S (Z.to_nat (Z.log2 n))) n [].
(** [strconv.FormatInt(z, 10)], [%d] *)
Definition fmtInt (z : Z) : bytes := if z <? 0 then x2d :: digits (- z) else digits z.

Example fmtInt_ex : fmtInt (-9223372036854775808) = go "-9223372036854775808".
Proof. reflexivity. Qed.

(** Fuel beyond the bit length changes nothing. *)
Lemma digits_fuel_step fuel n : 10 <= n -> (Z.to_nat (Z.log2 n) < S fuel)%nat ->
  (Z.to_nat (Z.log2 (n / 10)) < fuel)%nat.
Proof.
  intros Hn Hf. assert (Z.log2 (n / 10) <= Z.log2 (n / 2)).
  { apply Z.log2_le_mono. apply Z.div_le_compat_l; lia. }
  assert (0 < Z.log2 n) by (apply Z.log2_pos; lia).
  rewrite <- Z.div2_div, Z.div2_spec, Z.log2_shiftr in * by lia. lia.
Qed.
Lemma digits_fuel_acc fuel n acc : digits_fuel fuel n acc = digits_fuel fuel n [] ++ acc.
Proof.
  revert n acc. induction fuel as [|fuel IH]; intros n acc; [done|]. cbn. case_match; [done|].
  rewrite IH, (IH _ [_]), <- app_assoc. done.
Qed.
Lemma digits_fuel_enough f1 f2 n : 0 <= n -> (Z.to_nat (Z.log2 n) < f1)%nat -> (Z.to_nat (Z.log2 n) < f2)%nat ->
  digits_fuel f1 n [] = digits_fuel f2 n [].
Proof.
  revert f2 n. induction f1 as [|f1 IH]; intros [|f2] n H0 H1 H2; try lia. cbn.
  destruct (Z.ltb_spec n 10); [done|]. rewrite (digits_fuel_acc f1), (digits_fuel_acc f2). f_equal.
  apply IH; [div_lia|by eapply digits_fuel_step..].
Qed.

(** The last digit follows the digits of the quotient. *)
Lemma digits_step n : 0 <= n -> digits n = (if n <? 10 then [] else digits (n / 10)) ++ [z2b (48 + n mod 10)].
Proof.
  intros Hn. unfold digits at 1. cbn [digits_fuel]. destruct (Z.ltb_spec n 10); [done|].
  rewrite digits_fuel_acc. f_equal. apply digits_fuel_enough; [div_lia| |lia].
  eapply digits_fuel_step; [done|lia].
Qed.

(** The value of a digit string, as [strconv.ParseUint] computes it before
    its range check. *)
Definition digitVal (c : byte) : option Z :=
  if (48 <=? b2z c) && (b2z c <=? 57) then Some (b2z c - 48) else None.
Fixpoint undigits_from (acc : Z) (s : bytes) : option Z :=
  match s with
  | [] => Some acc
  | c :: s' => d ← digitVal c; undigits_from (acc * 10 + d) s'
  end.
Definition undigits (s : bytes) : option Z := match s with [] => None | _ => undigits_from 0 s end.

Lemma digitVal_z2b n : 0 <= n < 10 -> digitVal (z2b (48 + n)) = Some n.
Proof. intros Hn. unfold digitVal. rewrite z2b_small by lia. repeat ltb_step. cbn. f_equal. lia. Qed.

Lemma undigits_from_app acc s t : undigits_from acc (s ++ t) = x ← undigits_from acc s; undigits_from x t.
Proof. revert acc. induction s as [|c s IH]; intros acc; [done|]. cbn. destruct (digitVal c); cbn; auto. Qed.

Lemma undigits_digits n : 0 <= n -> undigits (digits n) = Some n.
Proof.
  intros Hn. assert (undigits_from 0 (digits n) = Some n) as H.
  { revert Hn. induction n as [n IH] using (well_founded_induction (Z.lt_wf 0)). intros Hn.
    rewrite digits_step by done. destruct (Z.ltb_spec n 10).
    - cbn. rewrite digitVal_z2b by div_lia. cbn. f_equal. div_lia.
    - rewrite undigits_from_app, IH by div_lia. cbn. rewrite digitVal_z2b by div_lia. cbn. f_equal. div_lia. }
  unfold undigits. destruct (digits n) eqn:E; [|done]. rewrite digits_step in E by done. by apply app_nil in E as [_ ?].
Qed.

(** The digits of a number are digits, and the first one of a positive
    number is not zero. *)
Lemma digits_Forall n : 0 <= n -> Forall (λ c, digitVal c <> None) (digits n).
Proof.
  induction n as [n IH] using (well_founded_induction (Z.lt_wf 0)). intros Hn.
  rewrite digits_step by done. apply Forall_app. split.
  - destruct (Z.ltb_spec n 10); [constructor|]. apply IH; div_lia.
  - repeat constructor. by rewrite digitVal_z2b by div_lia.
Qed.
Lemma digits_head n : 0 < n -> exists c s, digits n = c :: s /\ c <> x30.
Proof.
  induction n as [n IH] using (well_founded_induction (Z.lt_wf 0)). intros Hn.
  rewrite digits_step by lia. destruct (Z.ltb_spec n 10).
  - eexists _, _. split; [done|]. intros E%(f_equal b2z). rewrite z2b_small in E by div_lia. cbn in E. div_lia.
  - destruct (IH (n / 10)) as (c & s & -> & Hc); [div_lia..|]. by eexists _, _.
Qed.
