(* ===== verification/GoFloat.v ===== *)
(** * Decimal text and float64

    [strconv.ParseFloat(s, 64)], [strconv.FormatFloat(f, 'g', -1, 64)] and
    [strconv.ParseInt(s, 10, 64)]. Conversions are by the exact rational the
    text stands for: [roundF64] gives the nearest float64, ties to even. *)
From S2P Require Import Prelude GoVal GoStr.

Local Open Scope Z_scope.

(** ** Rounding *)

(** [num/den] to the nearest integer, ties to even. *)
Definition roundZ (num den : Z) : Z :=
  let q := num / den in
  let r := num mod den in
  if (den <? 2 * r) || ((2 * r =? den) && Z.odd q) then q + 1 else q.

(** The exponent [e] with [2^e <= num/den < 2^(e+1)]. *)
Definition log2Q (num den : Z) : Z :=
  let e := Z.log2 num - Z.log2 den in
  if num * 2 ^ Z.max 0 (- e) <? den * 2 ^ Z.max 0 e then e - 1 else e.

(** The bits of the float64 nearest to [num/den >= 0]; [None] past the
    largest finite one. The significand's step is [2^q]. *)
Definition roundF64 (num den : Z) : option Z :=
  if num =? 0 then Some 0
  else
    let q := Z.max (-1074) (log2Q num den - 52) in
    let m := roundZ (num * 2 ^ Z.max 0 (- q)) (den * 2 ^ Z.max 0 q) in
    let bits := (q + 1074) * 2 ^ 52 + m in
    if bits <? 2047 * 2 ^ 52 then Some bits else None.

Lemma roundZ_nonneg num den : 0 <= num -> 0 < den -> 0 <= roundZ num den.
Proof. intros Hn Hd. unfold roundZ. pose proof (Z.div_pos num den Hn Hd). case_match; lia. Qed.

Lemma roundF64_ok num den b : 0 <= num -> 0 < den -> roundF64 num den = Some b -> 0 <= b < 2047 * 2 ^ 52.
Proof.
  intros Hn Hd. unfold roundF64. destruct (num =? 0); [by intros [= <-]|]. cbv zeta.
  assert (forall x, 0 < 2 ^ Z.max 0 x) as Hp by (intros; apply Z.pow_pos_nonneg; lia).
  match goal with |- context [roundZ ?a ?b] => pose proof (roundZ_nonneg a b) as Hr end.
  match type of Hr with ?A -> ?B -> _ => assert A as H1 by (apply Z.mul_nonneg_nonneg; [done|apply Z.lt_le_incl, Hp]);
    assert B as H2 by (apply Z.mul_pos_pos; [done|apply Hp]) end.
  specialize (Hr H1 H2). match goal with |- context [?x <? ?y] => destruct (Z.ltb_spec x y) as [Hlt|] end; [|done].
  intros [= <-]. split; [|exact Hlt]. apply Z.add_nonneg_nonneg; [|done]. lia.
Qed.

(** ** ParseInt *)

Definition signed (s : bytes) : bool * bytes :=
  match s with
  | c :: s' => if bool_decide (c = x2d) then (true, s') else if bool_decide (c = x2b) then (false, s') else (false, s)
  | [] => (false, s)
  end.

(** [None] is an error, of syntax or range. *)
Definition ParseInt (s : bytes) : option Z :=
  let '(neg, ds) := signed s in
  n ← undigits ds;
  let z := if (neg : bool) then - n else n in
  if bool_decide (int64_ok z) then Some z else None.

(** ** ParseFloat *)

Definition lowerIs (c : byte) (w : byte) : bool := bool_decide (lower c = w).
Definition hexVal (c : byte) : option Z := unhexdigit c.

(** The digits, dots and underscores of the mantissa. *)
Record mantissa := mkMant {
  mtVal : Z;               (* all digits *)
  mtFrac : Z;              (* how many follow the dot *)
  mtDot : bool;
  mtDigits : bool;
}.
Fixpoint readMantissa (base : Z) (dig : byte -> option Z) (m : mantissa) (s : bytes) : mantissa * bytes :=
  match s with
  | [] => (m, [])
  | c :: s' =>
      if bool_decide (c = x5f) then readMantissa base dig m s'
      else if bool_decide (c = x2e) then
        if mtDot m then (m, s) else readMantissa base dig (mkMant (mtVal m) 0 true (mtDigits m)) s'
      else match dig c with
        | Some d => readMantissa base dig
            (mkMant (mtVal m * base + d) (if mtDot m then mtFrac m + 1 else 0) (mtDot m) true) s'
        | None => (m, s)
        end
  end.

(** Exponent digits; the value stops growing at 10000. *)
Fixpoint readExp (e : Z) (s : bytes) : Z * bytes :=
  match s with
  | c :: s' =>
      if bool_decide (c = x5f) then readExp e s'
      else match digitVal c with
        | Some d => readExp (if e <? 10000 then e * 10 + d else e) s'
        | None => (e, s)
        end
  | [] => (e, [])
  end.
Definition readExponent (s : bytes) : option (Z * bytes) :=
  let '(neg, ds) := signed s in
  match ds with
  | c :: _ =>
      if bool_decide (digitVal c = None) then None
      else let '(e, rest) := readExp 0 ds in Some (if (neg : bool) then - e else e, rest)
  | [] => None
  end.

(** Underscores separate digits; a base prefix counts as a digit. [saw] is
    0 at the start, 1 after a digit, 2 after an underscore, 3 after others. *)
Fixpoint underscoresOK (hexa : bool) (saw : Z) (s : bytes) : bool :=
  match s with
  | [] => negb (saw =? 2)
  | c :: s' =>
      if bool_decide (digitVal c <> None) || (hexa && bool_decide (hexVal c <> None)) then underscoresOK hexa 1 s'
      else if bool_decide (c = x5f) then (saw =? 1) && underscoresOK hexa 2 s'
      else negb (saw =? 2) && underscoresOK hexa 3 s'
  end.
Definition basePrefix (s : bytes) : option (byte * bytes) :=
  match s with
  | z :: b :: s' => if bool_decide (z = x30) && (lowerIs b x62 || lowerIs b x6f || lowerIs b x78) then Some (lower b, s') else None
  | _ => None
  end.
Definition underscoreOK (s : bytes) : bool :=
  let s := (signed s).2 in
  match basePrefix s with
  | Some (b, s') => underscoresOK (bool_decide (b = x78)) 1 s'
  | None => underscoresOK false 0 s
  end.

(** The text's sign and exact value [num/den]; the whole text is read. *)
Definition readFloat (s : bytes) : option (bool * Z * Z) :=
  let '(neg, body) := signed s in
  let '(hexa, body) :=
    match body with
    | z :: b :: c :: s' => if bool_decide (z = x30) && lowerIs b x78 then (true, c :: s') else (false, body)
    | _ => (false, body)
    end in
  let '(m, rest) := readMantissa (if (hexa : bool) then 16 else 10) (if hexa then hexVal else digitVal) (mkMant 0 0 false false) body in
  if negb (mtDigits m) then None
  else
    ex ← match rest with
         | c :: rest' => if lowerIs c (if hexa then x70 else x65) then readExponent rest'
                         else if hexa then None else Some (0, rest)
         | [] => if hexa then None else Some (0, [])
         end;
    let '(e, rest) := (ex : Z * bytes) in
    if negb (bool_decide (rest = [])) || (bool_decide (x5f ∈ s) && negb (underscoreOK s)) then None
    else
      let base := if hexa then 2 else 10 in
      let e := if hexa then e - 4 * mtFrac m else e - mtFrac m in
      Some (neg, mtVal m * base ^ Z.max 0 e, base ^ Z.max 0 (- e)).

Definition f64_inf : Z := 2047 * 2 ^ 52.
(** [math.NaN()] *)
Definition f64_nan : Z := 0x7FF8000000000001.
Definition f64_sign (neg : bool) (b : Z) : Z := if neg then 2 ^ 63 + b else b.

(** [None] is an error; out-of-range values are one. *)
Definition ParseFloat (s : bytes) : option Z :=
  let '(neg, body) := signed s in
  let w := lower <$> body in
  if bool_decide (w = go "inf" \/ w = go "infinity") then Some (f64_sign neg f64_inf)
  else if bool_decide (lower <$> s = go "nan") then Some f64_nan
  else
    v ← readFloat s;
    let '(neg, num, den) := (v : bool * Z * Z) in
    f64_sign neg <$> roundF64 num den.

Example ParseFloat_1 : ParseFloat (go "1.5") = Some 0x3FF8000000000000. Proof. reflexivity. Qed.
Example ParseFloat_2 : ParseFloat (go "-0x1.8p1") = Some 0xC008000000000000. Proof. reflexivity. Qed.
Example ParseFloat_3 : ParseFloat (go "1_0.5e0_1") = Some 0x405A400000000000. Proof. reflexivity. Qed.
Example ParseFloat_4 : ParseFloat (go "1_e3") = None. Proof. reflexivity. Qed.

Lemma digitVal_nonneg c d : digitVal c = Some d -> 0 <= d.
Proof. unfold digitVal. destruct (Z.leb_spec 48 (b2z c)); cbn; [|done]. case_match; [|done]. intros [= <-]. lia. Qed.
Lemma hexVal_nonneg c d : hexVal c = Some d -> 0 <= d.
Proof.
  unfold hexVal, unhexdigit. cbv zeta. repeat case_match; intros; simplify_eq; rewrite ?andb_true_iff, ?Z.leb_le in *; lia.
Qed.
Lemma readMantissa_nonneg base dig m s : 0 <= base -> (forall c d, dig c = Some d -> 0 <= d) -> 0 <= mtVal m ->
  0 <= mtVal (readMantissa base dig m s).1.
Proof.
  intros Hb Hd. revert m. induction s as [|c s IH]; intros m Hm; [done|]. cbn [readMantissa].
  case_match; [by apply IH|]. case_match; [by case_match; [|apply IH]|].
  destruct (dig c) as [d|] eqn:E; [|done]. apply Hd in E. apply IH. cbn. nia.
Qed.
Lemma readFloat_ok s neg num den : readFloat s = Some (neg, num, den) -> 0 <= num /\ 0 < den.
Proof.
  unfold readFloat. destruct (signed s) as [sg body].
  match goal with |- context [let '(hexa, body) := ?x in _] => destruct x as [hexa body'] end.
  assert (0 <= mtVal (readMantissa (if (hexa : bool) then 16 else 10) (if hexa then hexVal else digitVal)
    (mkMant 0 0 false false) body').1) as Hm.
  { apply readMantissa_nonneg; [by destruct hexa| |done]. destruct hexa; [apply hexVal_nonneg|apply digitVal_nonneg]. }
  destruct (readMantissa _ _ _ _) as [m rest]. cbn [fst] in Hm. destruct (negb (mtDigits m)); [done|].
  intros ([e rest'] & _ & HH)%bind_Some. destruct (_ || _); [done|]. injection HH as <- <- <-.
  assert (forall x, 0 < (if hexa then 2 else 10) ^ Z.max 0 x) as Hp by (intros; apply Z.pow_pos_nonneg; [by destruct hexa|lia]).
  split; [|apply Hp]. apply Z.mul_nonneg_nonneg; [done|]. apply Z.lt_le_incl, Hp.
Qed.

Lemma ParseFloat_ok s b : ParseFloat s = Some b -> f64_ok b.
Proof.
  unfold ParseFloat, f64_ok. destruct (signed s) as [neg body]. cbv zeta.
  case_match; [intros [= <-]; by destruct neg|]. case_match; [by intros [= <-]|].
  intros ([[neg' num] den] & Hr & HH)%bind_Some. apply readFloat_ok in Hr as [Hn Hd].
  apply fmap_Some in HH as (x & Hx & ->). apply roundF64_ok in Hx; [|done..]. destruct neg'; cbn [f64_sign]; lia.
Qed.

(** ** FormatFloat *)

(** The exponent [dp] with [10^(dp-1) <= num/den < 10^dp], found upward from
    an estimate by the binary exponent that is at most three below. *)
Fixpoint decPoint (fuel : nat) (num den dp : Z) : Z :=
  match fuel with
  | O => dp
  | S fuel' => if num * 10 ^ Z.max 0 (- dp) <? den * 10 ^ Z.max 0 dp then dp else decPoint fuel' num den (dp + 1)
  end.

(** The nearest [n]-digit decimals below and above, those that read back
    as [b], the nearer first. *)
Definition candidates (b num den dp n : Z) : list Z :=
  let num' := num * 10 ^ Z.max 0 (n - dp) in
  let den' := den * 10 ^ Z.max 0 (dp - n) in
  let lo := num' / den' in
  let near := if bool_decide (roundZ num' den' = lo) then [lo; lo + 1] else [lo + 1; lo] in
  filter (λ c, roundF64 (c * 10 ^ Z.max 0 (dp - n)) (10 ^ Z.max 0 (n - dp)) = Some b) near.

(** The shortest digits that read back, and their decimal point; 17 digits
    always do. *)
Fixpoint shortest (fuel : nat) (b num den dp n : Z) : Z * Z :=
  match candidates b num den dp n, fuel with
  | c :: _, _ => (c, dp - n)
  | [], S fuel' => shortest fuel' b num den dp (n + 1)
  | [], O => (0, 0)
  end.

Fixpoint stripZeros (fuel : nat) (c e : Z) : Z * Z :=
  match fuel with
  | S fuel' => if (c mod 10 =? 0) && negb (c =? 0) then stripZeros fuel' (c / 10) (e + 1) else (c, e)
  | O => (c, e)
  end.

Definition zeros (n : Z) : bytes := replicate (Z.to_nat n) x30.
Definition fmtExp (e : Z) : bytes :=
  (if e <? 0 then x2d else x2b) :: (if Z.abs e <? 10 then [x30] else []) ++ digits (Z.abs e).

(** [%g] with the shortest digits: [%e] outside exponents -4 to 5. *)
Definition layoutG (c e : Z) : bytes :=
  let ds := digits c in
  let dp := Z.of_nat (length ds) + e in
  let x := dp - 1 in
  if (x <? -4) || (6 <=? x) then
    match ds with
    | d :: [] => d :: x65 :: fmtExp x
    | d :: ds' => d :: x2e :: ds' ++ x65 :: fmtExp x
    | [] => []
    end
  else if dp <=? 0 then go "0." ++ zeros (- dp) ++ ds
  else if 0 <=? e then ds ++ zeros e
  else take (Z.to_nat dp) ds ++ x2e :: drop (Z.to_nat dp) ds.

Definition FormatFloat (b : Z) : bytes :=
  if f64_isNaN b then go "NaN"
  else if f64_isInf b false then go "+Inf"
  else if f64_isInf b true then go "-Inf"
  else
    let a := b mod 2 ^ 63 in
    (if f64_neg b then [x2d] else []) ++
    (if a =? 0 then [x30]
     else
       let num := f64_mag a in
       let den := 2 ^ 1074 in
       let dp := decPoint 5 num den (log2Q num den * 30103 / 100000 - 1) in
       let '(c, e) := shortest 16 a num den dp 1 in
       let '(c, e) := stripZeros 17 c e in
       layoutG c e).

Example FormatFloat_1 : FormatFloat 0x3FF8000000000000 = go "1.5". Proof. vm_compute. reflexivity. Qed.
Example FormatFloat_2 : FormatFloat 0xC19D6F3454000000 = go "-1.23456789e+08". Proof. vm_compute. reflexivity. Qed.
