(* ===== verification/Json.v ===== *)
(** * JSON

    Go's [encoding/json] as the engine uses it: the reader of one document
    (the scanner's grammar, its nesting limit, the unquoting of strings) and
    the compact writer, with and without HTML escaping. [CanonJSONB] and the
    stored descriptors are built on them. *)
From S2P Require Import Prelude GoStr.

Local Open Scope Z_scope.

(** Numbers keep their source text ([json.Number]). *)
Inductive json :=
  | JNull
  | JBool (b : bool)
  | JNum (text : bytes)
  | JStr (s : bytes)
  | JArr (l : list json)
  | JObj (m : list (bytes * json)).

(** ** Reading *)

Definition jsonSpace (c : byte) : bool := bool_decide (c ∈ [x20; x09; x0d; x0a]).
Fixpoint skip (s : bytes) : bytes :=
  match s with
  | c :: s' => if jsonSpace c then skip s' else s
  | [] => []
  end.

Definition digit (c : byte) : bool := (48 <=? b2z c) && (b2z c <=? 57).
Fixpoint span (p : byte -> bool) (s : bytes) : bytes * bytes :=
  match s with
  | c :: s' => if p c then let '(a, r) := span p s' in (c :: a, r) else ([], s)
  | [] => ([], [])
  end.

(** At least one digit. *)
Definition digits1 (s : bytes) : option (bytes * bytes) :=
  match span digit s with
  | ([], _) => None
  | r => Some r
  end.

Definition numInt (s : bytes) : option (bytes * bytes) :=
  match s with
  | c :: s' => if bool_decide (c = x30) then Some ([x30], s') else digits1 s
  | [] => None
  end.
Definition numFrac (s : bytes) : option (bytes * bytes) :=
  match s with
  | c :: s' => if bool_decide (c = x2e) then '(ds, r) ← digits1 s'; Some (x2e :: ds, r) else Some ([], s)
  | [] => Some ([], [])
  end.
Definition numSign (p : byte -> bool) (s : bytes) : bytes * bytes :=
  match s with
  | c :: s' => if p c then ([c], s') else ([], s)
  | [] => ([], [])
  end.
Definition isMinus (c : byte) : bool := bool_decide (c = x2d).
Definition isSign (c : byte) : bool := bool_decide (c = x2b) || bool_decide (c = x2d).
Definition isExp (c : byte) : bool := bool_decide (c = x65) || bool_decide (c = x45).
Definition numExp (s : bytes) : option (bytes * bytes) :=
  match s with
  | c :: s' =>
      if isExp c then
        let '(sg, s'') := numSign isSign s' in
        '(ds, r) ← digits1 s''; Some (c :: sg ++ ds, r)
      else Some ([], s)
  | [] => Some ([], [])
  end.
(** The text of a number and what follows it. *)
Definition parseNumber (s : bytes) : option (bytes * bytes) :=
  let '(sign, s) := numSign isMinus s in
  '(i, s) ← numInt s; '(f, s) ← numFrac s; '(e, s) ← numExp s;
  Some (sign ++ i ++ f ++ e, s).

(** Four hexadecimal digits. *)
Definition getu4 (s : bytes) : option (Z * bytes) :=
  match s with
  | a :: b :: c :: d :: r =>
      a ← unhexdigit a; b ← unhexdigit b; c ← unhexdigit c; d ← unhexdigit d;
      Some (a * 4096 + b * 256 + c * 16 + d, r)
  | _ => None
  end.

(** The rune of a [\u] escape: a surrogate takes the escape after it along
    when the two make a pair, and reads as U+FFFD when they do not. *)
Definition pairRune (r : Z) (s : bytes) : Z * bytes :=
  if (0xD800 <=? r) && (r <? 0xE000) then
    match s with
    | x5c :: x75 :: s' =>
        match getu4 s' with
        | Some (r2, s'') =>
            if (r <? 0xDC00) && (0xDC00 <=? r2) && (r2 <? 0xE000)
            then ((r - 0xD800) * 1024 + (r2 - 0xDC00) + 0x10000, s'') else (RuneError, s)
        | None => (RuneError, s)
        end
    | _ => (RuneError, s)
    end
  else (r, s).

Definition unescapeByte (c : byte) : option byte :=
  match c with
  | x22 | x5c | x2f => Some c
  | x62 => Some x08 | x66 => Some x0c | x6e => Some x0a | x72 => Some x0d | x74 => Some x09
  | _ => None
  end.

(** One character of a string body: its bytes and what follows; [None] for
    a malformed escape or a control character. *)
Definition strChar (c : byte) (s : bytes) : option (bytes * bytes) :=
  if bool_decide (c = x5c) then
    match s with
    | x75 :: s' => '(r, s'') ← getu4 s'; let '(r, t) := pairRune r s'' in Some (encode_rune r, t)
    | e :: s' => x ← unescapeByte e; Some ([x], s')
    | [] => None
    end
  else if b2z c <? 0x20 then None
  else let '(r, t) := decode_rune c s in Some (encode_rune r, t).

(** A string after its opening quote; every character takes at least one
    byte, so the string's length is enough fuel. *)
Fixpoint parseStr_fuel (fuel : nat) (s : bytes) : option (bytes * bytes) :=
  match fuel, s with
  | S fuel', c :: s' =>
      if bool_decide (c = x22) then Some ([], s')
      else
        '(x, t) ← strChar c s'; '(xs, r) ← parseStr_fuel fuel' t; Some (x ++ xs, r)
  | _, _ => None
  end.
Definition parseStr (s : bytes) : option (bytes * bytes) := parseStr_fuel (length s) s.

Fixpoint strip (w s : bytes) : option bytes :=
  match w, s with
  | [], _ => Some s
  | a :: w', b :: s' => if bool_decide (a = b) then strip w' s' else None
  | _, [] => None
  end.

(** What a value's first byte announces. *)
Inductive vkind := HObj | HArr | HStr | HTrue | HFalse | HNull | HNum.
Definition kindOf (c : byte) : vkind :=
  match c with
  | x7b => HObj | x5b => HArr | x22 => HStr | x74 => HTrue | x66 => HFalse | x6e => HNull | _ => HNum
  end.

(** What follows an item of a list closed by [close]: whether another item
    comes, and the bytes after the separator. *)
Definition sepOf (close : byte) (s : bytes) : option (bool * bytes) :=
  match skip s with
  | c :: r =>
      if bool_decide (c = x2c) then Some (true, r)
      else if bool_decide (c = close) then Some (false, r) else None
  | [] => None
  end.

(** The list right after its opening bracket is empty. *)
Definition emptyList (close : byte) (s : bytes) : option bytes :=
  match skip s with
  | c :: r => if bool_decide (c = close) then Some r else None
  | [] => None
  end.

(** An object key and its colon. *)
Definition parseKey (s : bytes) : option (bytes * bytes) :=
  s ← strip [x22] (skip s); '(k, r) ← parseStr s; r ← strip [x3a] (skip r); Some (k, r).

(** [depth] is how many more arrays and objects may be opened. A document
    of [n] bytes makes at most [2 n + 2] nested calls ([parse_enough]). *)
Fixpoint parseValue (fuel depth : nat) (s : bytes) : option (json * bytes) :=
  match fuel, skip s with
  | S fuel, c :: s' =>
      match kindOf c, depth with
      | HObj, S depth =>
          match emptyList x7d s' with
          | Some r => Some (JObj [], r)
          | None => '(m, r) ← parseMembers fuel depth s'; Some (JObj m, r)
          end
      | HArr, S depth =>
          match emptyList x5d s' with
          | Some r => Some (JArr [], r)
          | None => '(l, r) ← parseElems fuel depth s'; Some (JArr l, r)
          end
      | HObj, O | HArr, O => None
      | HStr, _ => '(x, r) ← parseStr s'; Some (JStr x, r)
      | HTrue, _ => r ← strip (go "rue") s'; Some (JBool true, r)
      | HFalse, _ => r ← strip (go "alse") s'; Some (JBool false, r)
      | HNull, _ => r ← strip (go "ull") s'; Some (JNull, r)
      | HNum, _ => '(t, r) ← parseNumber (c :: s'); Some (JNum t, r)
      end
  | _, _ => None
  end
with parseElems (fuel depth : nat) (s : bytes) : option (list json * bytes) :=
  match fuel with
  | O => None
  | S fuel =>
      '(v, r) ← parseValue fuel depth s;
      '(more, r) ← sepOf x5d r;
      if (more : bool) then '(vs, r) ← parseElems fuel depth r; Some (v :: vs, r) else Some ([v], r)
  end
with parseMembers (fuel depth : nat) (s : bytes) : option (list (bytes * json) * bytes) :=
  match fuel with
  | O => None
  | S fuel =>
      '(k, r) ← parseKey s;
      '(v, r) ← parseValue fuel depth r;
      '(more, r) ← sepOf x7d r;
      if (more : bool) then '(ms, r) ← parseMembers fuel depth r; Some ((k, v) :: ms, r) else Some ([(k, v)], r)
  end.

Definition maxNestingDepth : nat := Pos.to_nat 10000.

(** One document with nothing but white space around it. *)
Definition parseJSON (s : bytes) : option json :=
  '(v, r) ← parseValue (2 * length s + 2) maxNestingDepth s;
  match skip r with [] => Some v | _ => None end.

(** ** Writing *)

Definition u00 (c : byte) : bytes := go "\u00" ++ [hexdigit (b2z c / 16); hexdigit (b2z c mod 16)].

(** An ASCII character inside a string. *)
Definition escapeASCII (html : bool) (c : byte) : bytes :=
  match c with
  | x22 | x5c => [x5c; c]
  | x08 => go "\b" | x0c => go "\f" | x0a => go "\n" | x0d => go "\r" | x09 => go "\t"
  | x3c | x3e | x26 => if html then u00 c else [c]
  | _ => if b2z c <? 0x20 then u00 c else [c]
  end.

(** One character and what follows: an invalid byte is written as an
    escaped U+FFFD, and the two line separators are escaped. *)
Definition printChar (html : bool) (c : byte) (s : bytes) : bytes * bytes :=
  if b2z c <? 0x80 then (escapeASCII html c, s)
  else
    let '(r, t) := decode_rune c s in
    if bool_decide (r = RuneError) && bool_decide (length t = length s) then (go "\ufffd", t)
    else if bool_decide (r = 0x2028) then (go "\u2028", t)
    else if bool_decide (r = 0x2029) then (go "\u2029", t)
    else (encode_rune r, t).

Fixpoint printStr_fuel (html : bool) (fuel : nat) (s : bytes) : bytes :=
  match fuel, s with
  | S fuel', c :: s' => let '(x, t) := printChar html c s' in x ++ printStr_fuel html fuel' t
  | _, _ => []
  end.
Definition printStr (html : bool) (s : bytes) : bytes := x22 :: printStr_fuel html (length s) s ++ [x22].

(** [xs] separated by commas. *)
Fixpoint commas (xs : list bytes) : bytes :=
  match xs with
  | [] => []
  | [x] => x
  | x :: xs' => x ++ x2c :: commas xs'
  end.

Fixpoint printJSON (html : bool) (v : json) : bytes :=
  match v with
  | JNull => go "null"
  | JBool b => if b then go "true" else go "false"
  | JNum t => t
  | JStr s => printStr html s
  | JArr l => x5b :: commas (printJSON html <$> l) ++ [x5d]
  | JObj m => x7b :: commas ((λ '(k, v), printStr html k ++ x3a :: printJSON html v) <$> m) ++ [x7d]
  end.

(** ** Numbers *)

Definition nohead (p : byte -> bool) (s : bytes) : Prop :=
  match s with c :: _ => p c = false | [] => True end.

Lemma span_spec p s a r : span p s = (a, r) -> s = a ++ r /\ Forall (λ c, p c = true) a /\ nohead p r.
Proof.
  revert a r. induction s as [|c s IH]; intros a r; simpl; [by intros [= <- <-]|].
  destruct (p c) eqn:E; [|by intros [= <- <-]].
  destruct (span p s) as [a' r'] eqn:Es. intros [= <- <-].
  destruct (IH _ _ eq_refl) as (-> & Ha & Hr). auto.
Qed.
Lemma span_app p a r : Forall (λ c, p c = true) a -> nohead p r -> span p (a ++ r) = (a, r).
Proof.
  induction 1 as [|c a Hc _ IH]; intros Hr; simpl.
  - destruct r as [|c r]; [done|]. simpl in *. by rewrite Hr.
  - by rewrite Hc, IH.
Qed.

Lemma digits1_spec s a r : digits1 s = Some (a, r) ->
  s = a ++ r /\ (exists c a', a = c :: a' /\ digit c = true) /\
  forall y, nohead digit y -> digits1 (a ++ y) = Some (a, y).
Proof.
  unfold digits1. destruct (span digit s) as [a' r'] eqn:E. apply span_spec in E as (-> & Ha & Hr).
  destruct Ha as [|c a' Hc Ha]; [done|]. intros [= <- <-].
  split_and!; [done|by eauto|]. intros y Hy. by rewrite span_app by auto.
Qed.

Lemma digit_not c p : (forall x, p x = true -> digit x = false) -> digit c = true -> p c = false.
Proof. intros Hp Hc. destruct (p c) eqn:E; [|done]. apply Hp in E. congruence. Qed.

Lemma numInt_spec s a r : numInt s = Some (a, r) ->
  s = a ++ r /\ (exists c a', a = c :: a' /\ digit c = true) /\
  forall y, nohead digit y -> numInt (a ++ y) = Some (a, y).
Proof.
  unfold numInt at 1. destruct s as [|c s]; [done|]. case_bool_decide as Hc.
  - intros [= <- <-]. subst. split_and!; [done|by eexists _, _|done].
  - intros (He & (c' & a' & -> & Hd) & Hy)%digits1_spec. injection He as <- ->.
    split_and!; [done|by eauto|]. intros y Hn. simpl. rewrite bool_decide_false by done. by apply Hy.
Qed.

Lemma numFrac_spec s a r : numFrac s = Some (a, r) ->
  s = a ++ r /\ nohead digit a /\ (nohead isExp a) /\
  forall y, nohead digit y -> nohead (λ c, bool_decide (c = x2e)) y -> numFrac (a ++ y) = Some (a, y).
Proof.
  unfold numFrac at 1. destruct s as [|c s]; [|case_bool_decide as Hc].
  - intros [= <- <-]. split_and!; [done..|]. intros [|c y] _ Hy; [done|]. simpl in *. by rewrite Hy.
  - destruct (digits1 s) as [[ds r']|] eqn:E; simpl; [|done]. intros [= <- <-]. subst.
    apply digits1_spec in E as (-> & _ & Hy). split_and!; [done..|]. intros y Hn _. simpl. by rewrite Hy.
  - intros [= <- <-]. split_and!; [done..|]. intros [|c' y] _ Hy; [done|]. simpl in *. by rewrite Hy.
Qed.

Lemma numExp_spec s a r : numExp s = Some (a, r) ->
  s = a ++ r /\ nohead digit a /\ nohead (λ c, bool_decide (c = x2e)) a /\
  forall y, nohead digit y -> nohead isExp y -> numExp (a ++ y) = Some (a, y).
Proof.
  unfold numExp at 1. destruct s as [|c s]; [|destruct (isExp c) eqn:Hc].
  - intros [= <- <-]. split_and!; [done..|]. intros [|c y] _ Hy; [done|]. simpl in *. by rewrite Hy.
  - destruct (numSign isSign s) as [sg s''] eqn:Es.
    destruct (digits1 s'') as [[ds r']|] eqn:E; simpl; [|done]. intros [= <- <-].
    apply digits1_spec in E as (-> & (d & ds' & -> & Hd) & Hy).
    assert (s = sg ++ (d :: ds') ++ r' /\ forall y, numSign isSign (sg ++ (d :: ds') ++ y) = (sg, (d :: ds') ++ y)) as [-> Hsg].
    { unfold numSign in Es. destruct s as [|c' s]; [discriminate Es|]. destruct (isSign c') eqn:Ec.
      - injection Es as <- ->. split; [done|]. intros y. simpl. by rewrite Ec.
      - injection Es as <- -> ->. split; [done|]. intros y. simpl. by rewrite Ec. }
    assert (digit c = false /\ bool_decide (c = x2e) = false) as [Hcd Hce].
    { unfold isExp in Hc. apply orb_true_iff in Hc as [->%bool_decide_eq_true| ->%bool_decide_eq_true]; done. }
    split_and!; [simpl; by rewrite <- app_assoc|done..|].
    intros y Hn _. simpl. rewrite Hc, <- app_assoc. rewrite (Hsg y). by rewrite Hy.
  - intros [= <- <-]. split_and!; [done..|]. intros [|c' y] _ Hy; [done|]. simpl in *. by rewrite Hy.
Qed.

(** What may follow a number. *)
Definition numEnd (c : byte) : bool := bool_decide (c ∈ [x2c; x5d; x7d]).
Definition ends (r : bytes) : Prop := match r with c :: _ => numEnd c = true | [] => True end.

Lemma ends_nohead p r : ends r -> (forall c, numEnd c = true -> p c = false) -> nohead p r.
Proof. destruct r; simpl; auto. Qed.
Lemma nohead_app p a b : nohead p a -> nohead p b -> nohead p (a ++ b).
Proof. by destruct a. Qed.

Lemma numEnd_other c : numEnd c = true ->
  digit c = false /\ isExp c = false /\ bool_decide (c = x2e) = false.
Proof. by destruct c. Qed.

(** The text of a number reads back as itself. *)
Lemma parseNumber_spec s t b : parseNumber s = Some (t, b) ->
  s = t ++ b /\ (exists c t', t = c :: t' /\ (c = x2d \/ digit c = true)) /\
  forall r, ends r -> parseNumber (t ++ r) = Some (t, r).
Proof.
  unfold parseNumber. destruct (numSign isMinus s) as [sg s1] eqn:Es.
  destruct (numInt s1) as [[i s2]|] eqn:Ei; simpl; [|done].
  destruct (numFrac s2) as [[f s3]|] eqn:Ef; simpl; [|done].
  destruct (numExp s3) as [[e s4]|] eqn:Ee; simpl; [|done]. intros [= <- <-].
  apply numInt_spec in Ei as (-> & (c & i' & -> & Hc) & Hi).
  apply numFrac_spec in Ef as (-> & Hf1 & Hf2 & Hf). apply numExp_spec in Ee as (-> & He1 & He2 & He).
  assert (isMinus c = false) as Hm.
  { apply digit_not; [|done]. intros x ->%bool_decide_eq_true. done. }
  assert (s = sg ++ (c :: i') ++ f ++ e ++ s4 /\ (sg = [] \/ sg = [x2d])) as [-> Hsg].
  { unfold numSign in Es. destruct s as [|c' s]; [discriminate Es|]. destruct (isMinus c') eqn:Ec.
    - injection Es as <- ->. apply bool_decide_eq_true in Ec as ->. auto.
    - injection Es as <- -> ->. split; [done|by left]. }
  split_and!.
  - by rewrite <- !app_assoc.
  - destruct Hsg as [-> | ->]; simpl; eauto.
  - intros r Hr. rewrite <- !app_assoc.
    assert (numSign isMinus (sg ++ (c :: i') ++ f ++ e ++ r) = (sg, (c :: i') ++ f ++ e ++ r)) as ->.
    { destruct Hsg as [-> | ->]; simpl; [by rewrite Hm|done]. }
    assert (nohead digit r) by (apply ends_nohead; [done|intros x ?%numEnd_other; tauto]).
    assert (nohead isExp r) by (apply ends_nohead; [done|intros x ?%numEnd_other; tauto]).
    assert (nohead (λ c, bool_decide (c = x2e)) r) by (apply ends_nohead; [done|intros x ?%numEnd_other; tauto]).
    rewrite Hi by auto using nohead_app. simpl. rewrite Hf by auto using nohead_app. simpl.
    by rewrite He.
Qed.

(** ** Strings *)

(** The string Go reads back: each invalid byte has become U+FFFD. *)
Definition clean (s : bytes) : bytes := of_runes (runes s).

Lemma clean_cons c s : clean (c :: s) = encode_rune (decode_rune c s).1 ++ clean (decode_rune c s).2.
Proof. unfold clean. by rewrite runes_cons. Qed.
Lemma clean_idem s : clean (clean s) = clean s.
Proof. unfold clean at 1 2. by rewrite runes_of_runes by apply runes_scalar. Qed.

Lemma encode_rune_ascii c : b2z c < 0x80 -> encode_rune (b2z c) = [c].
Proof.
  intros Hc. pose proof (b2z_range c). unfold encode_rune.
  rewrite decide_True by (left; lia). cbv zeta. ltb_step. by rewrite z2b_b2z.
Qed.
Lemma encode_decode_rune c s : encode_rune (decode_rune c s).1 ++ clean (decode_rune c s).2 = clean (c :: s).
Proof. by rewrite clean_cons. Qed.

Lemma decode_rune_high c s : 0x80 <= b2z c -> 0x80 <= (decode_rune c s).1.
Proof.
  intros Hc. pose proof (b2z_range c). unfold decode_rune, cont, RuneError. cbv zeta.
  repeat case_match; simpl; lia.
Qed.

Lemma escapeASCII_char html c rest : b2z c < 0x80 ->
  exists c' x', escapeASCII html c ++ rest = c' :: x' /\ c' <> x22 /\ strChar c' x' = Some ([c], rest).
Proof.
  intros Hc. destruct c; try (exfalso; revert Hc; vm_compute; congruence); destruct html;
    eexists _, _; (split; [reflexivity|split; [discriminate|reflexivity]]).
Qed.

Ltac char_done := eexists _, _; split_and!; [reflexivity|discriminate|reflexivity|reflexivity].

Lemma printChar_char html c s rest :
  exists c' x', (printChar html c s).1 ++ rest = c' :: x' /\ c' <> x22 /\
    strChar c' x' = Some (encode_rune (decode_rune c s).1, rest) /\
    (printChar html c s).2 = (decode_rune c s).2.
Proof.
  unfold printChar. destruct (Z.ltb_spec (b2z c) 0x80) as [Hc|Hc].
  - destruct (escapeASCII_char html c rest Hc) as (c' & x' & H1 & H2 & H3). exists c', x'.
    unfold decode_rune. cbv zeta. replace (b2z c <? 0x80) with true by (symmetry; by apply Z.ltb_lt). simpl.
    by rewrite encode_rune_ascii.
  - pose proof (decode_rune_high c s Hc) as Hr. pose proof (decode_rune_scalar c s) as Hs.
    destruct (decode_rune c s) as [r t]. cbn [fst snd] in *.
    destruct (bool_decide (r = RuneError) && _) eqn:E1.
    { apply andb_true_iff in E1 as [->%bool_decide_eq_true _]. char_done. }
    clear E1. case_bool_decide; [subst; char_done|]. case_bool_decide; [subst; char_done|].
    destruct (decode_encode_rune r rest Hs) as (c' & x' & E & Ed). exists c', x'. cbn [fst snd].
    assert (0x80 <= b2z c') as Hc'.
    { destruct (Z.ltb_spec (b2z c') 0x80); [|done]. unfold decode_rune in Ed. cbv zeta in Ed.
      replace (b2z c' <? 0x80) with true in Ed by (symmetry; by apply Z.ltb_lt). injection Ed as <- _. lia. }
    split_and!; [done| |unfold strChar; rewrite bool_decide_false|done].
    + intros ->. vm_compute in Hc'. by apply Hc'.
    + replace (b2z c' <? 0x20) with false by (symmetry; apply Z.ltb_ge; lia). by rewrite Ed.
    + intros ->. vm_compute in Hc'. by apply Hc'.
Qed.

Lemma strChar_shorter c s x t : strChar c s = Some (x, t) -> (length t <= length s)%nat.
Proof.
  unfold strChar. case_bool_decide.
  - destruct s as [|e s]; [done|]. assert (forall r s1, (length (pairRune r s1).2 <= length s1)%nat) as Hp.
    { intros r s1. unfold pairRune, getu4. repeat (case_match; simpl; simplify_option_eq); lia. }
    assert (forall y s1, getu4 s1 = Some (y, t) -> (length t <= length s1)%nat).
    { intros y s1. unfold getu4. intros. repeat case_match; simplify_option_eq; lia. }
    destruct (decide (e = x75)) as [->|He].
    + destruct (getu4 s) as [[r s']|] eqn:E; simpl; [|done].
      pose proof (Hp r s') as Hp'. destruct (pairRune r s') as [r' t']. intros [= _ <-]. simpl in *.
      unfold getu4 in E. repeat case_match; simplify_option_eq; simpl; lia.
    + assert (forall o, (match e with x75 => o | _ => x0 ← unescapeByte e; Some ([x0], s) end) =
        (x0 ← unescapeByte e; Some ([x0], s))) as Hm by (by destruct e).
      rewrite Hm. destruct (unescapeByte e); simpl; [|done]. intros [= _ <-]. lia.
  - case_match; [done|]. pose proof (decode_rune_shorter c s). destruct (decode_rune c s).
    intros [= _ <-]. done.
Qed.

Lemma parseStr_enough n m s : (length s <= n)%nat -> (length s <= m)%nat ->
  parseStr_fuel n s = parseStr_fuel m s.
Proof.
  revert m s. induction n as [|n IH]; intros [|m] [|c s] Hn Hm; simpl in *; try lia; try done.
  case_bool_decide; [done|]. destruct (strChar c s) as [[x t]|] eqn:E; simpl; [|done].
  apply strChar_shorter in E. by rewrite (IH m t) by lia.
Qed.

Lemma parseStr_cons c s : parseStr (c :: s) =
  if bool_decide (c = x22) then Some ([], s)
  else '(x, t) ← strChar c s; '(xs, r) ← parseStr t; Some (x ++ xs, r).
Proof.
  unfold parseStr. simpl. case_bool_decide; [done|]. destruct (strChar c s) as [[x t]|] eqn:E; simpl; [|done].
  apply strChar_shorter in E. by rewrite (parseStr_enough (length s) (length t)) by lia.
Qed.

Lemma parseStr_shorter s x t : parseStr s = Some (x, t) -> (length t < length s)%nat.
Proof.
  remember (length s) as n eqn:Hn. revert s Hn x t. induction n as [n IH] using lt_wf_ind.
  intros [|c s] -> x t; [done|]. rewrite parseStr_cons. case_bool_decide; [intros [= _ <-]; simpl; lia|].
  destruct (strChar c s) as [[y u]|] eqn:E; simpl; [|done]. apply strChar_shorter in E.
  destruct (parseStr u) as [[z v]|] eqn:Eu; simpl; [|done]. intros [= _ <-].
  apply (IH (length u)) in Eu; simpl; [lia|lia|done].
Qed.

Lemma printChar_shorter html c s : (length (printChar html c s).2 <= length s)%nat.
Proof. destruct (printChar_char html c s []) as (_ & _ & _ & _ & _ & ->). apply decode_rune_shorter. Qed.

Lemma parseStr_print html fuel s r : (length s <= fuel)%nat ->
  parseStr (printStr_fuel html fuel s ++ x22 :: r) = Some (clean s, r).
Proof.
  revert s. induction fuel as [|fuel IH]; intros [|c s] Hf; simpl in *; try lia; [done..|].
  rewrite clean_cons.
  pose proof (decode_rune_shorter c s) as Hd.
  destruct (printChar_char html c s (printStr_fuel html fuel (decode_rune c s).2 ++ x22 :: r))
    as (c' & x' & E & Hq & Hc & Ht).
  destruct (printChar html c s) as [x t]. cbn [fst snd] in *. subst t.
  rewrite <- app_assoc, E, parseStr_cons, bool_decide_false by done. rewrite Hc. simpl.
  by rewrite IH by lia.
Qed.

(** ** Documents *)

Section json_induction.
Variable P : json -> Prop.
Hypothesis Hnull : P JNull.
Hypothesis Hbool : forall b, P (JBool b).
Hypothesis Hnum : forall t, P (JNum t).
Hypothesis Hstr : forall s, P (JStr s).
Hypothesis Harr : forall l, Forall P l -> P (JArr l).
Hypothesis Hobj : forall m, Forall (λ kv, P kv.2) m -> P (JObj m).

Fixpoint json_ind' (v : json) : P v :=
  match v with
  | JNull => Hnull
  | JBool b => Hbool b
  | JNum t => Hnum t
  | JStr s => Hstr s
  | JArr l => Harr l ((fix go l := match l return Forall P l with
      | [] => List.Forall_nil _
      | v :: l' => @List.Forall_cons _ P _ _ (json_ind' v) (go l')
      end) l)
  | JObj m => Hobj m ((fix go m := match m return Forall (λ kv, P kv.2) m with
      | [] => List.Forall_nil _
      | kv :: m' => @List.Forall_cons _ (λ kv, P kv.2) _ _ (json_ind' kv.2) (go m')
      end) m)
  end.
End json_induction.

(** A document with each string read back. *)
Fixpoint cleanJ (v : json) : json :=
  match v with
  | JStr s => JStr (clean s)
  | JArr l => JArr (cleanJ <$> l)
  | JObj m => JObj ((λ '(k, v), (clean k, cleanJ v)) <$> m)
  | v => v
  end.

(** Numbers are well formed and at most [depth] arrays and objects nest. *)
Inductive jok : nat -> json -> Prop :=
  | jok_null d : jok d JNull
  | jok_bool d b : jok d (JBool b)
  | jok_num d t : parseNumber t = Some (t, []) -> jok d (JNum t)
  | jok_str d s : jok d (JStr s)
  | jok_arr d l : Forall (jok d) l -> jok (S d) (JArr l)
  | jok_obj d m : Forall (λ kv, jok d kv.2) m -> jok (S d) (JObj m).

(** The first byte of a value. *)
Definition vhead (c : byte) : bool := digit c || bool_decide (c ∈ [x2d; x22; x5b; x7b; x6e; x74; x66]).

Lemma vhead_skip c s : vhead c = true -> skip (c :: s) = c :: s.
Proof. by destruct c. Qed.

Lemma num_head c : c = x2d \/ digit c = true -> vhead c = true.
Proof. intros [-> | H]; [done|]. unfold vhead. by rewrite H. Qed.

Lemma print_head html depth v : jok depth v -> exists c s, printJSON html v = c :: s /\ vhead c = true.
Proof.
  destruct 1 as [d|d [] |d t Ht|d s|d l Hl|d m Hm]; try by eexists _, _.
  apply parseNumber_spec in Ht as (_ & (c & t' & -> & Hc) & _). exists c, t'. split; [done|]. by apply num_head.
Qed.

Lemma parse_num n d c s : c = x2d \/ digit c = true ->
  parseValue (S n) d (c :: s) = '(t, r) ← parseNumber (c :: s); Some (JNum t, r).
Proof. intros [-> | Hc]; [done|]. destruct c; (discriminate Hc || reflexivity). Qed.
Lemma parse_arr n d c s : vhead c = true ->
  parseValue (S n) (S d) (x5b :: c :: s) = '(l, r) ← parseElems n d (c :: s); Some (JArr l, r).
Proof. intros Hc. cbn [parseValue skip jsonSpace]. destruct c; (discriminate Hc || reflexivity). Qed.

Lemma parse_obj n d s :
  parseValue (S n) (S d) (x7b :: x22 :: s) = '(m, r) ← parseMembers n d (x22 :: s); Some (JObj m, r).
Proof. done. Qed.

Lemma commas_cons x y xs : commas (x :: y :: xs) = x ++ x2c :: commas (y :: xs).
Proof. done. Qed.

Lemma parseElems_end n d s v r : parseValue n d s = Some (v, x5d :: r) ->
  parseElems (S n) d s = Some ([v], r).
Proof. intros E. cbn [parseElems]. by rewrite E. Qed.
Lemma parseElems_comma n d s v r : parseValue n d s = Some (v, x2c :: r) ->
  parseElems (S n) d s = '(vs, r) ← parseElems n d r; Some (v :: vs, r).
Proof. intros E. cbn [parseElems]. by rewrite E. Qed.
Lemma parseMembers_end n d s k t v r : parseStr s = Some (k, x3a :: t) ->
  parseValue n d t = Some (v, x7d :: r) -> parseMembers (S n) d (x22 :: s) = Some ([(k, v)], r).
Proof. intros E1 E. cbn [parseMembers]. unfold parseKey. simpl. rewrite E1. simpl. by rewrite E. Qed.
Lemma parseMembers_comma n d s k t v r : parseStr s = Some (k, x3a :: t) ->
  parseValue n d t = Some (v, x2c :: r) ->
  parseMembers (S n) d (x22 :: s) = '(ms, r) ← parseMembers n d r; Some ((k, v) :: ms, r).
Proof. intros E1 E. cbn [parseMembers]. unfold parseKey. simpl. rewrite E1. simpl. by rewrite E. Qed.

Section print.
Variable html : bool.

(** What the printer writes for [v] reads back as [cleanJ v]. *)
Definition reads_back (v : json) : Prop := forall depth n r,
  jok depth v -> ends r -> (2 * length (printJSON html v ++ r) + 1 <= n)%nat ->
  parseValue n depth (printJSON html v ++ r) = Some (cleanJ v, r).

Lemma parseElems_print v l depth n r : Forall reads_back (v :: l) -> Forall (jok depth) (v :: l) ->
  (2 * length (commas (printJSON html <$> v :: l) ++ x5d :: r) + 2 <= n)%nat ->
  parseElems n depth (commas (printJSON html <$> v :: l) ++ x5d :: r) = Some (cleanJ <$> v :: l, r).
Proof.
  revert v n. induction l as [|w l IH]; intros v [|n] [Hv Hl]%Forall_cons [Kv Kl]%Forall_cons Hn; try lia.
  - cbn [fmap list_fmap commas] in *. apply parseElems_end. apply (Hv depth); [done|done|lia].
  - rewrite !fmap_cons, commas_cons, <- app_assoc in *. cbn [app] in *.
    erewrite parseElems_comma by (apply (Hv depth); [done|done|lia]).
    rewrite length_app in Hn. cbn [length] in Hn. by rewrite (IH w) by (done || (cbn [fmap list_fmap]; lia)).
Qed.

Abbreviation member := (λ '(k, v), printStr html k ++ x3a :: printJSON html v).

Lemma printStr_app k s : printStr html k ++ s = x22 :: printStr_fuel html (length k) k ++ x22 :: s.
Proof. unfold printStr. cbn [app]. by rewrite <- app_assoc. Qed.

Lemma parseMembers_print kv m depth n r :
  Forall (λ kv, reads_back kv.2) (kv :: m) -> Forall (λ kv, jok depth kv.2) (kv :: m) ->
  (2 * length (commas (member <$> kv :: m) ++ x7d :: r) + 2 <= n)%nat ->
  parseMembers n depth (commas (member <$> kv :: m) ++ x7d :: r) =
    Some ((λ '(k, v), (clean k, cleanJ v)) <$> kv :: m, r).
Proof.
  revert kv n. induction m as [|kv' m IH]; intros [k v] [|n] [Hv Hl]%Forall_cons [Kv Kl]%Forall_cons Hn; try lia.
  - cbn [fmap list_fmap commas snd] in *. rewrite <- app_assoc, printStr_app in *. cbn [app] in *.
    rewrite length_cons, length_app in Hn. cbn [length] in Hn.
    eapply parseMembers_end; [by apply parseStr_print|]. apply (Hv depth); [done|done|lia].
  - rewrite !fmap_cons, commas_cons, <- app_assoc in *. cbn [app snd] in *.
    rewrite <- app_assoc, printStr_app in *. cbn [app] in *.
    rewrite length_cons, length_app in Hn. cbn [length] in Hn.
    erewrite parseMembers_comma; [|by apply parseStr_print|apply (Hv depth); [done|done|lia]].
    rewrite length_app in Hn. cbn [length] in Hn. by rewrite (IH kv') by (done || (cbn [fmap list_fmap]; lia)).
Qed.

Lemma parseValue_print v : reads_back v.
Proof.
  induction v as [|b|t|s|l IH|m IH] using json_ind'; intros depth [|n] r Hok Hr Hn; try lia.
  - done.
  - by destruct b.
  - inversion_clear Hok as [| |? ? Ht| | |]. apply parseNumber_spec in Ht as (_ & (c & t' & -> & Hc) & Hp).
    cbn [printJSON]. cbn [app]. rewrite parse_num by done. by rewrite (Hp r Hr : parseNumber (c :: t' ++ r) = _).
  - cbn [printJSON]. rewrite printStr_app. cbn [parseValue]. simpl. by rewrite parseStr_print.
  - inversion_clear Hok as [| | | |d ? Hl|]. cbn [printJSON] in *.
    destruct l as [|v l]; [done|]. pose proof Hl as [Hv _]%Forall_cons.
    destruct (print_head html d v Hv) as (c & s & Ec & Hc). cbn [app] in *. rewrite <- app_assoc in *. cbn [app] in *.
    assert (exists s', commas (printJSON html <$> v :: l) ++ x5d :: r = c :: s') as [s' Es].
    { destruct l; cbn [fmap list_fmap commas]; rewrite Ec; by eexists. }
    rewrite Es, parse_arr by done. rewrite <- Es. rewrite parseElems_print; [done..|]. cbn [length] in Hn. lia.
  - inversion_clear Hok as [| | | | |d ? Hl]. cbn [printJSON] in *. destruct m as [|kv m]; [done|].
    cbn [app] in *. rewrite <- app_assoc in *. cbn [app] in *.
    assert (exists s', commas (member <$> kv :: m) ++ x7d :: r = x22 :: s') as [s' Es].
    { destruct kv as [k v], m; cbn [fmap list_fmap commas]; by eexists. }
    rewrite Es, parse_obj. rewrite <- Es.
    rewrite parseMembers_print; [done..|]. cbn [length] in Hn. lia.
Qed.
End print.

(** Printing then reading gives the document back, its strings cleaned. *)
Lemma parseJSON_print html v : jok maxNestingDepth v -> parseJSON (printJSON html v) = Some (cleanJ v).
Proof.
  intros Hv. unfold parseJSON. pose proof (parseValue_print html v maxNestingDepth
    (2 * length (printJSON html v) + 2)%nat [] Hv I) as H. rewrite app_nil_r in H. rewrite H by lia. done.
Qed.

Lemma skip_length s : (length (skip s) <= length s)%nat.
Proof. induction s as [|c s IH]; simpl; [lia|]. case_match; simpl; lia. Qed.
Lemma strip_length w s r : strip w s = Some r -> (length r <= length s)%nat.
Proof.
  revert s. induction w as [|a w IH]; intros [|b s]; simpl; try (intros [= <-]; simpl; lia); try done.
  case_bool_decide; [|done]. intros ?%IH. lia.
Qed.
Lemma sepOf_shorter close s b r : sepOf close s = Some (b, r) -> (length r < length s)%nat.
Proof.
  unfold sepOf. pose proof (skip_length s) as H. destruct (skip s) as [|c s']; [done|]. simpl in H.
  repeat case_bool_decide; intros [= _ <-]; lia.
Qed.
Lemma emptyList_shorter close s r : emptyList close s = Some r -> (length r < length s)%nat.
Proof.
  unfold emptyList. pose proof (skip_length s) as H. destruct (skip s) as [|c s']; [done|]. simpl in H.
  case_bool_decide; intros [= <-]. lia.
Qed.
Lemma parseKey_shorter s k r : parseKey s = Some (k, r) -> (length r < length s)%nat.
Proof.
  intros (s1 & H1%strip_length & ([k' r'] & H2%parseStr_shorter & (r1 & H3%strip_length & [= _ <-])%bind_Some)%bind_Some)%bind_Some.
  pose proof (skip_length s). pose proof (skip_length r'). lia.
Qed.
Lemma parseNumber_shorter s t r : parseNumber s = Some (t, r) -> (length r < length s)%nat.
Proof. intros (-> & (c & t' & -> & _) & _)%parseNumber_spec. simpl. rewrite length_app. lia. Qed.

(** Case analysis on the parser steps of a successful run. *)
Ltac parse_inv H :=
  repeat match type of H with
  | (_ ≫= _) = Some _ => let E := fresh "E" in apply bind_Some in H as ([? ?] & E & H)
  | (strip _ _ ≫= _) = Some _ => let E := fresh "E" in apply bind_Some in H as (? & E & H)
  | (if ?b then _ else _) = Some _ => destruct b
  end.

Lemma parse_shorter n :
  (forall d s v r, parseValue n d s = Some (v, r) -> (length r < length s)%nat) /\
  (forall d s l r, parseElems n d s = Some (l, r) -> (length r < length s)%nat) /\
  (forall d s m r, parseMembers n d s = Some (m, r) -> (length r < length s)%nat).
Proof.
  induction n as [|n (IHv & IHe & IHm)]; [by split_and!; intros|].
  split_and!; intros d s x r; cbn [parseValue parseElems parseMembers]; intros H.
  - pose proof (skip_length s) as Hs. destruct (skip s) as [|c s']; [done|]. cbn in Hs.
    destruct (kindOf c), d as [|d]; try done;
      try (destruct (emptyList _ s') as [r'|] eqn:E; [injection H as _ <-; apply emptyList_shorter in E; lia|]);
      first [apply bind_Some in H as ([? ?] & E' & H)|apply bind_Some in H as (? & E' & H)]; injection H as _ <-;
      first [apply IHm in E'|apply IHe in E'|apply parseStr_shorter in E'|apply strip_length in E'
            |apply parseNumber_shorter in E'; cbn in E']; lia.
  - parse_inv H; injection H as _ <-; apply IHv in E; apply sepOf_shorter in E0; try apply IHe in E1; lia.
  - parse_inv H; injection H as _ <-; apply parseKey_shorter in E; apply IHv in E0; apply sepOf_shorter in E1;
      try apply IHm in E2; lia.
Qed.

(** More fuel changes nothing. *)
Lemma parse_enough n :
  (forall d s m, (2 * length s + 1 <= n)%nat -> (2 * length s + 1 <= m)%nat -> parseValue n d s = parseValue m d s) /\
  (forall d s m, (2 * length s + 2 <= n)%nat -> (2 * length s + 2 <= m)%nat -> parseElems n d s = parseElems m d s) /\
  (forall d s m, (2 * length s + 2 <= n)%nat -> (2 * length s + 2 <= m)%nat -> parseMembers n d s = parseMembers m d s).
Proof.
  induction n as [|n (IHv & IHe & IHm)]; [split_and!; intros; lia|].
  split_and!; intros d s [|m] Hn Hm; try lia; cbn [parseValue parseElems parseMembers].
  - pose proof (skip_length s) as Hs. destruct (skip s) as [|c s']; [done|]. cbn in Hs.
    destruct (kindOf c), d as [|d]; try done; destruct (emptyList _ s'); try done.
    + by rewrite (IHm d s' m) by lia.
    + by rewrite (IHe d s' m) by lia.
  - rewrite (IHv d s m) by lia. destruct (parseValue m d s) as [[v r]|] eqn:E; cbn; [|done].
    apply (parse_shorter m) in E. destruct (sepOf x5d r) as [[[] r']|] eqn:Es; cbn; [|done..].
    apply sepOf_shorter in Es. by rewrite (IHe d r' m) by lia.
  - destruct (parseKey s) as [[k t]|] eqn:Ek; cbn; [|done]. apply parseKey_shorter in Ek.
    rewrite (IHv d t m) by lia. destruct (parseValue m d t) as [[v r]|] eqn:E; cbn; [|done].
    apply (parse_shorter m) in E. destruct (sepOf x7d r) as [[[] r']|] eqn:Es; cbn; [|done..].
    apply sepOf_shorter in Es. by rewrite (IHm d r' m) by lia.
Qed.

Lemma encode_rune_clean r t : clean t = t -> clean (encode_rune r ++ t) = encode_rune r ++ t.
Proof.
  intros Ht. assert (exists r', scalar r' /\ encode_rune r = encode_rune r') as (r' & Hs & ->).
  { unfold encode_rune. destruct (decide (scalar r)) as [Hr|Hr].
    - exists r. split; [done|]. by rewrite decide_True.
    - exists RuneError. split; [right; unfold RuneError; lia|]. by rewrite decide_True by (right; unfold RuneError; lia). }
  destruct (decode_encode_rune r' t Hs) as (c & s' & E & Ed). rewrite E, clean_cons, Ed. cbn [fst snd]. by rewrite Ht, E.
Qed.
Lemma ascii_clean c t : b2z c < 0x80 -> clean t = t -> clean (c :: t) = c :: t.
Proof.
  intros Hc Ht. rewrite clean_cons. unfold decode_rune. cbv zeta.
  replace (b2z c <? 0x80) with true by (symmetry; by apply Z.ltb_lt). cbn [fst snd]. by rewrite encode_rune_ascii, Ht.
Qed.

Lemma strChar_clean c s x t u : strChar c s = Some (x, t) -> clean u = u -> clean (x ++ u) = x ++ u.
Proof.
  intros H Hu. unfold strChar in H. case_bool_decide.
  - destruct s as [|e s]; [done|].
    assert ((exists r, x = encode_rune r) \/ exists y, unescapeByte e = Some y /\ x = [y]) as [[r ->]|(y & Hy & ->)].
    { destruct e; cbn in H; simplify_eq; try (right; by eexists);
        apply bind_Some in H as ([r s''] & _ & H); destruct (pairRune r s''); simplify_eq; left; by eexists. }
    + by apply encode_rune_clean.
    + apply ascii_clean; [|done]. clear H. destruct e; try discriminate Hy; injection Hy as <-; reflexivity.
  - case_match; [done|]. destruct (decode_rune c s) as [r t']. simplify_eq. by apply encode_rune_clean.
Qed.

Lemma parseStr_clean s x t : parseStr s = Some (x, t) -> clean x = x.
Proof.
  remember (length s) as n eqn:Hn. revert s Hn x t. induction n as [n IH] using lt_wf_ind.
  intros [|c s] -> x t; [done|]. rewrite parseStr_cons. case_bool_decide; [by intros [= <- _]|].
  intros ([y u] & E & ([z v] & Eu & [= <- _])%bind_Some)%bind_Some. pose proof (strChar_shorter _ _ _ _ E).
  eapply strChar_clean; [done|]. eapply (IH (length u)); [simpl; lia|done|done].
Qed.
Lemma parseKey_clean s k r : parseKey s = Some (k, r) -> clean k = k.
Proof. by intros (s1 & _ & ([k' r'] & H2%parseStr_clean & (r1 & _ & [= <- _])%bind_Some)%bind_Some)%bind_Some. Qed.

Lemma Forall_fmap_id {A : Type} (f : A -> A) l : Forall (λ x, f x = x) l -> f <$> l = l.
Proof. induction 1 as [|x l Hx _ IH]; [done|]. cbn. by rewrite Hx, IH. Qed.

(** What the reader returns is within the nesting limit, its numbers are
    well formed and its strings are valid UTF-8. *)
Lemma parse_jok n :
  (forall d s v r, parseValue n d s = Some (v, r) -> jok d v /\ cleanJ v = v) /\
  (forall d s l r, parseElems n d s = Some (l, r) -> Forall (λ v, jok d v /\ cleanJ v = v) l) /\
  (forall d s m r, parseMembers n d s = Some (m, r) -> Forall (λ kv, jok d kv.2 /\ clean kv.1 = kv.1 /\ cleanJ kv.2 = kv.2) m).
Proof.
  induction n as [|n (IHv & IHe & IHm)]; [by split_and!; intros|].
  split_and!; intros d s x r; cbn [parseValue parseElems parseMembers]; intros H.
  - destruct (skip s) as [|c s']; [done|].
    destruct (kindOf c), d as [|d]; try done;
      try (destruct (emptyList _ s') as [r'|] eqn:E; [injection H as <- _; by split; repeat constructor|]);
      first [apply bind_Some in H as ([? ?] & E' & H)|apply bind_Some in H as (? & E' & H)]; injection H as <- _;
      first [apply IHm in E'|apply IHe in E'|apply parseStr_clean in E'|apply strip_length in E'
            |apply parseNumber_spec in E' as (_ & _ & E')];
      try by split; [constructor|cbn; congruence].
    + split; [constructor; by eapply Forall_impl; [done|intros ? []]|]. cbn. f_equal.
      apply Forall_fmap_id. eapply Forall_impl; [done|]. intros [k v] (_ & H1 & H2). cbn [fst snd] in *. by rewrite H1, H2.
    + split; [constructor; by eapply Forall_impl; [done|intros ? []]|]. cbn. f_equal.
      apply Forall_fmap_id. eapply Forall_impl; [done|]. cbn. naive_solver.
    + split; [constructor|done]. rewrite <- (app_nil_r l) at 1. by apply E'.
    + split; [constructor|done]. rewrite <- (app_nil_r l) at 1. by apply E'.
  - parse_inv H; injection H as <- _; apply IHv in E; try apply IHe in E1; auto using Forall_nil_2, Forall_cons_2.
  - parse_inv H; injection H as <- _; apply parseKey_clean in E; apply IHv in E0 as [];
      try apply IHm in E2; apply Forall_cons_2; auto using Forall_nil_2.
Qed.

Lemma parseJSON_ok s v : parseJSON s = Some v -> jok maxNestingDepth v /\ cleanJ v = v.
Proof.
  intros ([v' r] & E & H)%bind_Some. destruct (skip r); [|done]. injection H as <-. by eapply parse_jok.
Qed.
