(* ===== verification/Jsonb.v ===== *)
(** * jsonb

    [types.go]'s [CanonJSONB]: a JSON document is stored as the compact
    rendering of itself with sorted keys, so equality of stored text is
    equality of documents. *)
From S2P Require Import Prelude GoStr Json.

Local Open Scope Z_scope.

(** A Go [map[string]any] is kept as its sorted member list, the order
    [encoding/json] writes it in. *)
Fixpoint oset (k : bytes) (v : json) (m : list (bytes * json)) : list (bytes * json) :=
  match m with
  | [] => [(k, v)]
  | (k', v') :: m' =>
      match bcompare k k' with
      | Lt => (k, v) :: m
      | Eq => (k, v) :: m'
      | Gt => (k', v') :: oset k v m'
      end
  end.
(** Members in document order; the last one of a key wins. *)
Definition toMap (m : list (bytes * json)) : list (bytes * json) :=
  foldl (λ acc kv, oset kv.1 kv.2 acc) [] m.

(** A document decoded into [any]. *)
Fixpoint canonJ (v : json) : json :=
  match v with
  | JArr l => JArr (canonJ <$> l)
  | JObj m => JObj (toMap ((λ '(k, v), (k, canonJ v)) <$> m))
  | v => v
  end.

Definition errJSON : error := ENew (go "invalid input syntax for type json").

(** The encoder's final newline, which the source trims, is not written. *)
Definition CanonJSONB (s : bytes) : outcome bytes :=
  match parseJSON s with
  | Some v => Ok (printJSON false (canonJ v))
  | None => Err errJSON
  end.

(** ** Objects as maps *)

Definition key_lt (p q : bytes * json) : Prop := blt p.1 q.1.
Abbreviation sortedM := (StronglySorted key_lt).

Fixpoint jassoc (k : bytes) (m : list (bytes * json)) : option json :=
  match m with
  | [] => None
  | (k', v) :: m' => if decide (k = k') then Some v else jassoc k m'
  end.

Lemma oset_keys k v m x : x ∈ (oset k v m).*1 -> x = k \/ x ∈ m.*1.
Proof.
  induction m as [|[k' v'] m IH]; cbn.
  - intros ?%list_elem_of_singleton. by left.
  - destruct (bcompare k k') eqn:E; cbn; rewrite !elem_of_cons; [apply bcompare_eq in E as ->|..]; naive_solver.
Qed.

Lemma sorted_cons_keys kv m : sortedM (kv :: m) <-> (forall x, x ∈ m.*1 -> blt kv.1 x) /\ sortedM m.
Proof.
  split.
  - inversion_clear 1 as [|? ? Hs Hf]. split; [|done]. intros x (y & -> & Hy)%list_elem_of_fmap.
    rewrite Forall_forall in Hf. by apply Hf.
  - intros [Hk Hs]. constructor; [done|]. apply Forall_forall. intros y Hy. apply Hk.
    by apply list_elem_of_fmap_2.
Qed.

Lemma oset_sorted k v m : sortedM m -> sortedM (oset k v m).
Proof.
  induction m as [|[k' v'] m IH]; cbn; [repeat constructor|]. rewrite sorted_cons_keys. intros [Hk Hs].
  destruct (bcompare k k') eqn:E.
  - apply bcompare_eq in E as ->. by apply sorted_cons_keys.
  - apply sorted_cons_keys. split; [|by apply sorted_cons_keys]. cbn. intros x [-> |Hx]%elem_of_cons; [done|].
    eapply blt_trans; [done|by apply Hk].
  - apply sorted_cons_keys. split; [|by apply IH]. cbn. intros x [-> |Hx]%oset_keys; [|by apply Hk].
    unfold blt. by rewrite bcompare_antisym, E.
Qed.
Lemma toMap_snoc m kv : toMap (m ++ [kv]) = oset kv.1 kv.2 (toMap m).
Proof. unfold toMap. by rewrite foldl_app. Qed.
Lemma toMap_sorted m : sortedM (toMap m).
Proof.
  induction m as [|kv m IH] using rev_ind; [constructor|]. rewrite toMap_snoc. by apply oset_sorted.
Qed.

Lemma jassoc_None k m : k ∉ m.*1 -> jassoc k m = None.
Proof.
  induction m as [|[k' v] m IH]; cbn; [done|]. rewrite not_elem_of_cons. intros [Hk Hm].
  rewrite decide_False by done. auto.
Qed.
Lemma jassoc_oset k' v m k : sortedM m -> jassoc k (oset k' v m) = if decide (k = k') then Some v else jassoc k m.
Proof.
  induction m as [|[k1 v1] m IH]; cbn; [done|]. rewrite sorted_cons_keys. intros [Hk Hs].
  destruct (bcompare k' k1) eqn:E; cbn; [|done|].
  - apply bcompare_eq in E as ->. by destruct (decide (k = k1)).
  - rewrite IH by done. destruct (decide (k = k1)) as [->|]; [|done].
    destruct (decide (k1 = k')) as [->|]; [|done]. by rewrite bcompare_refl in E.
Qed.

(** The last binding of a key in a member list. *)
Lemma jassoc_toMap m k : jassoc k (toMap m) = jassoc k (reverse m).
Proof.
  induction m as [|[k' v] m IH] using rev_ind; [done|].
  rewrite toMap_snoc, jassoc_oset, reverse_snoc by apply toMap_sorted. cbn. by rewrite IH.
Qed.

Lemma sorted_assoc_head kv m : sortedM (kv :: m) -> jassoc kv.1 m = None.
Proof. rewrite sorted_cons_keys. intros [Hk _]. apply jassoc_None. intros H%Hk. by apply blt_irrefl in H. Qed.

(** Sorted member lists with related bindings are related member by member. *)
Lemma sorted_assoc_Forall2 (R : json -> json -> Prop) m1 m2 : sortedM m1 -> sortedM m2 ->
  (forall k, option_Forall2 R (jassoc k m1) (jassoc k m2)) <->
  Forall2 (λ p q, p.1 = q.1 /\ R p.2 q.2) m1 m2.
Proof.
  intros H1 H2. split; [|intros HF k; revert H1 H2; induction HF as [|[k1 v1] [k2 v2] m1 m2 [E HR] _ IH]; intros H1 H2].
  - revert m2 H1 H2. induction m1 as [|[k1 v1] m1 IH]; intros m2 H1 H2 Hk.
    + destruct m2 as [|[k2 v2] m2]; [done|]. specialize (Hk k2). cbn in Hk. rewrite decide_True in Hk by done. inversion Hk.
    + destruct m2 as [|[k2 v2] m2]; [specialize (Hk k1); cbn in Hk; rewrite decide_True in Hk by done; inversion Hk|].
      pose proof (sorted_assoc_head _ _ H1) as N1. pose proof (sorted_assoc_head _ _ H2) as N2. cbn in N1, N2.
      apply sorted_cons_keys in H1 as [K1 S1], H2 as [K2 S2].
      assert (forall k m, jassoc k m <> None -> k ∈ m.*1) as Hin.
      { intros k m Hn. destruct (decide (k ∈ m.*1)); [done|]. by rewrite jassoc_None in Hn. }
      assert (k1 = k2) as <-.
      { pose proof (Hk k1) as A. pose proof (Hk k2) as B. cbn in A, B. rewrite decide_True in A by done.
        rewrite (decide_True (P := k2 = k2)) in B by done.
        destruct (decide (k1 = k2)) as [|Hne]; [done|]. rewrite (decide_False (P := k2 = k1)) in B by done.
        exfalso. apply (blt_irrefl k1). apply blt_trans with k2.
        - apply K1, Hin. intros E. rewrite E in B. inversion B.
        - apply K2, Hin. intros E. rewrite E in A. inversion A. }
      constructor.
      * split; [done|]. specialize (Hk k1). cbn in Hk. rewrite !decide_True in Hk by done. by inversion Hk.
      * apply IH; [done..|]. intros k. specialize (Hk k). cbn in Hk. destruct (decide (k = k1)) as [->|]; [|done].
        rewrite N1, N2. constructor.
  - constructor.
  - cbn in *. subst k1. destruct (decide (k = k2)); [by constructor|].
    apply sorted_cons_keys in H1 as [_ S1], H2 as [_ S2]. by apply IH.
Qed.

Lemma sorted_assoc_ext m1 m2 : sortedM m1 -> sortedM m2 ->
  (forall k, jassoc k m1 = jassoc k m2) -> m1 = m2.
Proof.
  intros H1 H2 Hk. assert (Forall2 (λ p q, p.1 = q.1 /\ p.2 = q.2) m1 m2) as HF.
  { apply (sorted_assoc_Forall2 eq); [done..|]. intros k. rewrite Hk. by destruct (jassoc k m2); constructor. }
  clear -HF. induction HF as [|[] [] m1 m2 [] _ IH]; cbn in *; congruence.
Qed.

(** ** Documents *)

(** Equality of JSON documents: objects are maps from keys to values, the
    last member of a key being its value. *)
Inductive jeq : json -> json -> Prop :=
  | jeq_null : jeq JNull JNull
  | jeq_bool b : jeq (JBool b) (JBool b)
  | jeq_num t : jeq (JNum t) (JNum t)
  | jeq_str s : jeq (JStr s) (JStr s)
  | jeq_arr l l' : Forall2 jeq l l' -> jeq (JArr l) (JArr l')
  | jeq_obj m m' : (forall k, option_Forall2 jeq (jassoc k (reverse m)) (jassoc k (reverse m'))) -> jeq (JObj m) (JObj m').

Definition canonM (kv : bytes * json) : bytes * json := (kv.1, canonJ kv.2).
Lemma canonJ_obj m : canonJ (JObj m) = JObj (toMap (canonM <$> m)).
Proof. cbn. do 2 f_equal. by apply list_fmap_ext; intros ? []. Qed.

Lemma jassoc_canonM k m : jassoc k (reverse (canonM <$> m)) = canonJ <$> jassoc k (reverse m).
Proof.
  rewrite <- fmap_reverse. induction (reverse m) as [|[k' v] l IH]; [done|]. cbn.
  destruct (decide (k = k')); [done|apply IH].
Qed.

Lemma jassoc_elem k m v : jassoc k m = Some v -> (k, v) ∈ m.
Proof.
  induction m as [|[k' v'] m IH]; cbn; [done|]. destruct (decide (k = k')) as [->|].
  - intros [= ->]. by left.
  - intros ?. right. auto.
Qed.

Lemma canonJ_jeq v w : canonJ v = canonJ w <-> jeq v w.
Proof.
  revert w. induction v as [|b|t|s|l IH|m IH] using json_ind'; intros w;
    (split; [|by inversion 1; subst]) || split; try (by destruct w; cbn; intros [=]; subst; constructor).
  - destruct w as [| | | |l'|]; try done. cbn. intros [= E]. constructor. revert l' E.
    induction IH as [|v l Hv _ IHl]; intros [|w l']; cbn; intros [=]; constructor; [by apply Hv|by apply IHl].
  - inversion 1 as [| | | |? l' HF|]; subst. cbn. f_equal. clear H. revert l' HF.
    induction IH as [|v l Hv _ IHl]; inversion 1; subst; cbn; [done|]. f_equal; [by apply Hv|by apply IHl].
  - destruct w as [| | | | |m']; try done. rewrite !canonJ_obj. intros [= E]. constructor. intros k.
    apply (f_equal (jassoc k)) in E. rewrite !jassoc_toMap, !jassoc_canonM in E.
    destruct (jassoc k (reverse m)) as [v|] eqn:Ev, (jassoc k (reverse m')) as [w|]; try done; constructor.
    apply jassoc_elem in Ev. rewrite elem_of_reverse in Ev. rewrite Forall_forall in IH.
    apply (IH _ Ev). by injection E.
  - inversion 1 as [| | | | |? m' Hk]; subst. rewrite !canonJ_obj. f_equal.
    apply sorted_assoc_ext; [apply toMap_sorted..|]. intros k. rewrite !jassoc_toMap, !jassoc_canonM.
    specialize (Hk k). destruct (jassoc k (reverse m)) as [v|] eqn:Ev; inversion Hk as [? w Hvw Ea|Ea]; [|done].
    apply jassoc_elem in Ev. rewrite elem_of_reverse in Ev. rewrite Forall_forall in IH.
    cbn. f_equal. by apply (IH _ Ev).
Qed.

Lemma oset_Forall P k v m : P (k, v) -> Forall P m -> Forall P (oset k v m).
Proof.
  intros Hk. induction 1 as [|[k' v'] m Hx Hm IH]; cbn; [by repeat constructor|].
  destruct (bcompare k k'); auto using Forall_cons_2.
Qed.
Lemma toMap_Forall P m : Forall P m -> Forall P (toMap m).
Proof.
  induction m as [|[k v] m IH] using rev_ind; [constructor|].
  rewrite toMap_snoc, Forall_app, Forall_singleton. intros [Hm Hx]. apply oset_Forall; [done|auto].
Qed.
Lemma toMap_sorted_id m : sortedM m -> toMap m = m.
Proof.
  intros Hm. apply sorted_assoc_ext; [apply toMap_sorted|done|]. intros k. rewrite jassoc_toMap.
  induction m as [|[k' v] m IH]; [done|]. rewrite reverse_cons. pose proof (sorted_assoc_head _ _ Hm) as Hn.
  apply sorted_cons_keys in Hm as [_ Hm]. specialize (IH Hm). cbn in *.
  assert (forall l, jassoc k (l ++ [(k', v)]) = match jassoc k l with Some x => Some x | None => if decide (k = k') then Some v else None end) as ->.
  { induction l as [|[k2 v2] l IHl]; cbn; [done|]. by destruct (decide (k = k2)). }
  rewrite IH. destruct (decide (k = k')) as [->|]; [by rewrite Hn|by destruct (jassoc k m)].
Qed.

Lemma canonJ_idem v : canonJ (canonJ v) = canonJ v.
Proof.
  induction v as [| | | |l IH|m IH] using json_ind'; try done.
  - cbn. f_equal. induction IH as [|v l Hv _ IHl]; [done|]. cbn. by rewrite Hv, IHl.
  - rewrite !canonJ_obj. f_equal. rewrite (Forall_fmap_id canonM (toMap _)); [apply toMap_sorted_id, toMap_sorted|].
    apply toMap_Forall, Forall_fmap. eapply Forall_impl; [done|]. intros [k v] Hv. unfold canonM. cbn in *. by rewrite Hv.
Qed.

Lemma canonJ_jok d v : jok d v -> jok d (canonJ v).
Proof.
  revert d. induction v as [| | | |l IH|m IH] using json_ind'; intros d H; try done; inversion_clear H.
  - constructor. apply Forall_fmap. eapply Forall_impl; [by apply Forall_and; split; [apply IH|]|]. cbn. naive_solver.
  - rewrite canonJ_obj. constructor. apply toMap_Forall, Forall_fmap.
    eapply Forall_impl; [apply Forall_and; split; [apply IH|done]|]. cbn. naive_solver.
Qed.

Lemma cleanJ_obj m : cleanJ (JObj m) = JObj ((λ kv, (clean kv.1, cleanJ kv.2)) <$> m).
Proof. cbn. f_equal. by apply list_fmap_ext; intros ? []. Qed.

Lemma canonJ_clean v : cleanJ v = v -> cleanJ (canonJ v) = canonJ v.
Proof.
  induction v as [| | | |l IH|m IH] using json_ind'; try done.
  - cbn. intros [= E]. f_equal. induction IH as [|v l Hv _ IHl]; [done|]. cbn in *. injection E as E1 E2. rewrite Hv, IHl; done.
  - rewrite cleanJ_obj, canonJ_obj, cleanJ_obj. intros [= E]. f_equal. apply Forall_fmap_id, toMap_Forall, Forall_fmap.
    induction IH as [|[k v] m Hv _ IHm]; [constructor|]. cbn in *. injection E as E1 E2 E3.
    constructor; [|by apply IHm]. unfold compose, canonM. cbn. by rewrite Hv, E1.
Qed.

(** The canonical text reads back as the canonical document. *)
Lemma parseJSON_canon s v : parseJSON s = Some v -> parseJSON (printJSON false (canonJ v)) = Some (canonJ v).
Proof.
  intros [Hj Hc]%parseJSON_ok. rewrite parseJSON_print by (by apply canonJ_jok). f_equal. by apply canonJ_clean.
Qed.

Lemma CanonJSONB_idem s c : CanonJSONB s = Ok c -> CanonJSONB c = Ok c.
Proof.
  unfold CanonJSONB at 1. destruct (parseJSON s) as [v|] eqn:E; [|done]. intros [= <-].
  unfold CanonJSONB. by rewrite (parseJSON_canon s v E), canonJ_idem.
Qed.
Lemma CanonJSONB_no_panic s p : CanonJSONB s <> Panic p.
Proof. unfold CanonJSONB. by destruct (parseJSON s). Qed.

(** jsonb has one spelling per document: of two texts that read as JSON,
    the canonical forms are equal exactly when the documents are, objects
    compared as maps in which the last member of a key counts; and the
    canonical form is its own canonical form. *)
Theorem CanonJSONB_one_spelling s1 s2 v1 v2 : parseJSON s1 = Some v1 -> parseJSON s2 = Some v2 ->
  (CanonJSONB s1 = CanonJSONB s2 <-> jeq v1 v2) /\
  exists c, CanonJSONB s1 = Ok c /\ CanonJSONB c = Ok c /\ parseJSON c = Some (canonJ v1).
Proof.
  intros E1 E2. split.
  - rewrite <- canonJ_jeq. unfold CanonJSONB. rewrite E1, E2. split; [|by intros ->]. intros [= E].
    apply parseJSON_canon in E1, E2. congruence.
  - assert (CanonJSONB s1 = Ok (printJSON false (canonJ v1))) as Hc by (unfold CanonJSONB; by rewrite E1).
    eexists. split_and!; [done|by eapply CanonJSONB_idem|by eapply parseJSON_canon].
Qed.

Definition exDoc1 : bytes := go "{ " ++ quoted (go "b") ++ go ": [1, 2e3], " ++ quoted (go "a") ++ go ":null,"
  ++ quoted (go "b") ++ go ": [true]}".
Definition exDoc2 : bytes := go "{" ++ quoted (go "b") ++ go ":[true]," ++ quoted (go "a") ++ go ":null}".

Lemma CanonJSONB_one_spelling_witness :
  CanonJSONB exDoc1 = Ok (go "{" ++ quoted (go "a") ++ go ":null," ++ quoted (go "b") ++ go ":[true]}") /\
  exists v1 v2, (CanonJSONB exDoc1 = CanonJSONB exDoc2 <-> jeq v1 v2) /\
  exists c, CanonJSONB exDoc1 = Ok c /\ CanonJSONB c = Ok c /\ parseJSON c = Some (canonJ v1).
Proof.
  split; [vm_compute; reflexivity|]. eexists _, _.
  apply CanonJSONB_one_spelling; vm_compute; reflexivity.
Defined.

(** Numbers keep their spelling: equal numbers written differently are
    different documents. *)
Lemma CanonJSONB_numbers : CanonJSONB (go "1.0") = Ok (go "1.0") /\ CanonJSONB (go "1") = Ok (go "1").
Proof. split; vm_compute; reflexivity. Qed.
