(* ===== verification/Time.v ===== *)
(** * Timestamps and dates

    [types.go]'s text forms of instants and dates, on top of the parts of
    Go's [time] package they use: the proleptic Gregorian calendar,
    [time.Parse] for the layouts of [tsLayouts], and [Format]. *)
From S2P Require Import Prelude GoVal GoStr.

Local Open Scope Z_scope.

(** ** The calendar *)

Definition leap (y : Z) : bool := (y mod 4 =? 0) && (negb (y mod 100 =? 0) || (y mod 400 =? 0)).

Definition daysIn (m y : Z) : Z :=
  if m =? 2 then if leap y then 29 else 28
  else if (m =? 4) || (m =? 6) || (m =? 9) || (m =? 11) then 30 else 31.

(** Days of the year before month [m]. *)
Definition daysBefore (m y : Z) : Z :=
  (if m =? 1 then 0 else if m =? 2 then 31 else if m =? 3 then 59 else if m =? 4 then 90
   else if m =? 5 then 120 else if m =? 6 then 151 else if m =? 7 then 181 else if m =? 8 then 212
   else if m =? 9 then 243 else if m =? 10 then 273 else if m =? 11 then 304 else 334)
  + (if (2 <? m) && leap y then 1 else 0).

(** Days from 0001-01-01 to the first day of year [y]. *)
Definition daysToYear (y : Z) : Z :=
  let p := y - 1 in 365 * p + p / 4 - p / 100 + p / 400.

(** Days from 0001-01-01 to 1970-01-01. *)
Definition epochDays : Z := 719162.

(** [time.Date(y, m, d, 0, 0, 0, 0, time.UTC).Unix() / 86400] for a valid
    date. *)
Definition daysOf (y m d : Z) : Z := daysToYear y + daysBefore m y + d - 1 - epochDays.

(** The month of a day of the year: the last one that starts by then. *)
Fixpoint monthOf (ms : list Z) (yday y : Z) : Z :=
  match ms with
  | [] => 1
  | m :: ms' => if daysBefore m y <=? yday then m else monthOf ms' yday y
  end.
Definition months : list Z := [12; 11; 10; 9; 8; 7; 6; 5; 4; 3; 2].

(** The date of a day counted from the epoch ([Time.Date]): 400-, 100-, 4-
    and 1-year cycles, then the month. *)
Definition dateOf (days : Z) : Z * Z * Z :=
  let n := days + epochDays in
  let a := n / 146097 in
  let n := n mod 146097 in
  let b := n / 36524 - (n / 36524) / 4 in
  let n := n - 36524 * b in
  let c := n / 1461 in
  let n := n mod 1461 in
  let e := n / 365 - (n / 365) / 4 in
  let yday := n - 365 * e in
  let y := 400 * a + 100 * b + 4 * c + e + 1 in
  let m := monthOf months yday y in
  (y, m, yday - daysBefore m y + 1).

(** ** Parsing *)

Definition isDigit (c : byte) : bool := (48 <=? b2z c) && (b2z c <=? 57).

(** [getnum]: one or two digits, exactly two when [fixed]. *)
Definition getnum (s : bytes) (fixed : bool) : option (Z * bytes) :=
  match s with
  | a :: s1 =>
      x ← digitVal a;
      match s1 with
      | b :: s2 =>
          match digitVal b with
          | Some y => Some (x * 10 + y, s2)
          | None => if fixed then None else Some (x, s1)
          end
      | [] => if fixed then None else Some (x, [])
      end
  | [] => None
  end.

(** A four-digit year. *)
Definition getyear (s : bytes) : option (Z * bytes) :=
  match s with
  | a :: b :: c :: d :: r => y ← undigits [a; b; c; d]; Some (y, r)
  | _ => None
  end.

Definition literal (c : byte) (s : bytes) : option bytes :=
  match s with
  | x :: s' => if bool_decide (x = c) then Some s' else None
  | [] => None
  end.

Fixpoint cutspace (s : bytes) : bytes :=
  match s with
  | c :: s' => if bool_decide (c = x20) then cutspace s' else s
  | [] => []
  end.
(** A blank of the layout takes any run of blanks, at least one unless the
    value ends here. *)
Definition skipBlank (s : bytes) : option bytes :=
  match s with
  | c :: _ => if bool_decide (c = x20) then Some (cutspace s) else None
  | [] => Some []
  end.

Fixpoint takeDigits (s : bytes) : bytes * bytes :=
  match s with
  | c :: s' => if isDigit c then let '(a, r) := takeDigits s' in (c :: a, r) else ([], s)
  | [] => ([], [])
  end.

(** Nanoseconds of a fraction: the first nine digits count. *)
Definition nanos (ds : bytes) : Z :=
  let ds := take 9 ds in default 0 (undigits ds) * 10 ^ (9 - Z.of_nat (length ds)).

(** The layout's [.999999999]: an optional fraction after [.] or [,]. *)
Definition fraction (s : bytes) : Z * bytes :=
  match s with
  | p :: (d :: _) as s' =>
      if (bool_decide (p = x2e) || bool_decide (p = x2c)) && isDigit d
      then let '(ds, r) := takeDigits s' in (nanos ds, r) else (0, s)
  | _ => (0, s)
  end.

(** The zones of the layouts: [Z07:00], [Z0700], [-07], or none. *)
Inductive zone := ZColon | ZPlain | ZHours | ZNone.

Definition signOf (c : byte) : option Z :=
  if bool_decide (c = x2b) then Some 1 else if bool_decide (c = x2d) then Some (-1) else None.
(** Seconds east of UTC. *)
Definition offset (sg : byte) (hour min : bytes) : option Z :=
  '(hr, _) ← getnum hour true; '(mm, _) ← getnum min true;
  if (24 <? hr) || (60 <? mm) then None else sign ← signOf sg; Some (sign * ((hr * 60 + mm) * 60)).

Definition numZone (z : zone) (s : bytes) : option (Z * bytes) :=
  match z, s with
  | ZColon, sg :: h1 :: h2 :: c :: m1 :: m2 :: r =>
      if bool_decide (c = x3a) then o ← offset sg [h1; h2] [m1; m2]; Some (o, r) else None
  | ZPlain, sg :: h1 :: h2 :: m1 :: m2 :: r => o ← offset sg [h1; h2] [m1; m2]; Some (o, r)
  | ZHours, sg :: h1 :: h2 :: r => o ← offset sg [h1; h2] (go "00"); Some (o, r)
  | _, _ => None
  end.
Definition getzone (z : zone) (s : bytes) : option (Z * bytes) :=
  match z with
  | ZNone => Some (0, s)
  | ZColon | ZPlain =>
      match s with
      | c :: s' => if bool_decide (c = x5a) then Some (0, s') else numZone z s
      | [] => None
      end
  | ZHours => numZone z s
  end.

(** A parsed time: the date as written, the second of the day, the
    nanosecond and the zone's offset. *)
Record parsed := mkParsed { pYear : Z; pMonth : Z; pDay : Z; pSec : Z; pNanos : Z; pOffset : Z }.

Definition getdate (s : bytes) : option (Z * Z * Z * bytes) :=
  '(y, s) ← getyear s; s ← literal x2d s;
  '(m, s) ← getnum s true; if (m <=? 0) || (12 <? m) then None
  else s ← literal x2d s; '(d, s) ← getnum s true; Some (y, m, d, s).

Definition getclock (s : bytes) : option (Z * bytes) :=
  '(h, s) ← getnum s false; if 24 <=? h then None
  else s ← literal x3a s; '(mi, s) ← getnum s true; if 60 <=? mi then None
  else s ← literal x3a s; '(se, s) ← getnum s true; if 60 <=? se then None
  else Some (h * 3600 + mi * 60 + se, s).

(** The layouts: a bare date, or a date and a clock after a blank or a [T]. *)
Inductive layout := LDate | LFull (t : bool) (z : zone).

Definition timeParse (l : layout) (s : bytes) : option parsed :=
  '(y, m, d, s) ← getdate s;
  p ← match l with
      | LDate => match s with [] => Some (mkParsed y m d 0 0 0) | _ => None end
      | LFull t z =>
          s ← (if (t : bool) then literal x54 s else skipBlank s);
          '(sec, s) ← getclock s;
          let '(ns, s) := fraction s in
          '(off, s) ← getzone z s;
          match s with [] => Some (mkParsed y m d sec ns off) | _ => None end
      end;
  if (d <? 1) || (daysIn m y <? d) then None else Some p.

Definition tsLayouts : list layout :=
  [LFull false ZColon; LFull false ZPlain; LFull false ZHours; LFull false ZNone;
   LFull true ZColon; LFull true ZPlain; LFull true ZHours; LFull true ZNone; LDate].

(** The first layout that parses. *)
Fixpoint tryLayouts (ls : list layout) (s : bytes) : option parsed :=
  match ls with
  | [] => None
  | l :: ls' => match timeParse l s with Some p => Some p | None => tryLayouts ls' s end
  end.

Definition UnixMicro (p : parsed) : Z :=
  (daysOf (pYear p) (pMonth p) (pDay p) * 86400 + pSec p - pOffset p) * 1000000 + pNanos p / 1000.

Definition errTimestamp : error := ENew (go "invalid input syntax for type timestamp").
Definition errDate : error := ENew (go "invalid input syntax for type date").

Definition ParseTimestamp (s : bytes) : outcome Z :=
  match tryLayouts tsLayouts (TrimSpace s) with
  | Some p => Ok (UnixMicro p)
  | None => Err errTimestamp
  end.

Definition ParseDate (s : bytes) : outcome Z :=
  match tryLayouts (LDate :: tsLayouts) (TrimSpace s) with
  | Some p => Ok (daysOf (pYear p) (pMonth p) (pDay p))
  | None => Err errDate
  end.

(** ** Formatting *)

(** [appendInt(x, width)]: zero-padded, the sign first. *)
Definition appendInt (x : Z) (width : nat) : bytes :=
  let ds := digits (Z.abs x) in
  (if x <? 0 then [x2d] else []) ++ replicate (width - length ds) x30 ++ ds.

Definition fmtDate (days : Z) : bytes :=
  let '(y, m, d) := dateOf days in appendInt y 4 ++ go "-" ++ appendInt m 2 ++ go "-" ++ appendInt d 2.
Definition fmtClock (sec : Z) : bytes :=
  appendInt (sec / 3600) 2 ++ go ":" ++ appendInt (sec / 60 mod 60) 2 ++ go ":" ++ appendInt (sec mod 60) 2.

Fixpoint trimZeros (s : bytes) : bytes :=
  match s with
  | c :: s' => match trimZeros s' with [] => if bool_decide (c = x30) then [] else [c] | r => c :: r end
  | [] => []
  end.

Definition FormatTimestamp (micros : Z) : bytes :=
  let sec := micros / 1000000 in
  let frac := micros mod 1000000 in
  fmtDate (sec / 86400) ++ go " " ++ fmtClock (sec mod 86400)
  ++ (if frac =? 0 then [] else trimZeros (x2e :: appendInt frac 6)) ++ go "+00".

(** [days*86400] wraps around. *)
Definition FormatDate (days : Z) : bytes := fmtDate (int64 (days * 86400) / 86400).

(** ** The calendar is consistent *)

Definition yearLen (y : Z) : Z := if leap y then 366 else 365.

Lemma leap_spec y : leap y = true <-> y mod 4 = 0 /\ (y mod 100 <> 0 \/ y mod 400 = 0).
Proof.
  unfold leap. rewrite andb_true_iff, orb_true_iff, negb_true_iff, Z.eqb_eq, Z.eqb_neq, Z.eqb_eq. tauto.
Qed.

Lemma monthOf_spec yday y m : 0 <= yday < yearLen y -> monthOf months yday y = m ->
  1 <= m <= 12 /\ 1 <= yday - daysBefore m y + 1 <= daysIn m y.
Proof.
  unfold yearLen, daysIn, months, daysBefore. cbn [monthOf]. unfold daysBefore. intros Hy.
  destruct (leap y); cbn -[Z.leb Z.add Z.sub Z.le Z.lt] in *;
    repeat (match goal with |- context [?a <=? ?b] => destruct (Z.leb_spec a b) end); intros <-;
    cbn -[Z.add Z.sub Z.le]; lia.
Qed.

Lemma cycles n a b c e : 0 <= n < 146097 -> b = n / 36524 - (n / 36524) / 4 ->
  c = (n - 36524 * b) / 1461 -> e = (n - 36524 * b) mod 1461 / 365 - ((n - 36524 * b) mod 1461 / 365) / 4 ->
  let y := 400 * a + 100 * b + 4 * c + e + 1 in
  let yday := (n - 36524 * b) mod 1461 - 365 * e in
  daysToYear y + yday = 146097 * a + n /\ 0 <= yday < yearLen y.
Proof.
  intros Hn Hb Hc He y yday.
  assert (0 <= b <= 3 /\ 0 <= n - 36524 * b <= 36524 /\ (n - 36524 * b = 36524 -> b = 3)) as (Hb1 & Hr & Hr') by div_lia.
  set (r := n - 36524 * b) in *. assert (0 <= c <= 24) by div_lia.
  set (q := r mod 1461) in *. assert (r = 1461 * c + q /\ 0 <= q < 1461) as [Er Hq] by (unfold q; subst c; div_lia).
  assert (0 <= e <= 3 /\ 0 <= yday <= 365 /\ (yday = 365 -> e = 3)) as (He1 & Hy & Hy') by (unfold yday; div_lia).
  assert ((y - 1) / 4 = 100 * a + 25 * b + c /\ (y - 1) / 100 = 4 * a + b /\ (y - 1) / 400 = a) as (E4 & E100 & E400)
    by (unfold y; split_and!; div_lia).
  split.
  - unfold daysToYear. cbv zeta. rewrite E4, E100, E400. unfold yday, y. lia.
  - unfold yearLen. destruct (leap y) eqn:El; [lia|]. assert (yday <> 365); [|lia]. intros H365.
    apply not_true_iff_false in El. apply El, leap_spec. unfold y, yday in *. clearbody q r. div_lia.
Qed.

(** Every day has one date, and the date counts back to the day. *)
Lemma dateOf_spec days : let '(y, m, d) := dateOf days in
  1 <= m <= 12 /\ 1 <= d <= daysIn m y /\ daysOf y m d = days.
Proof.
  unfold dateOf. cbv zeta. set (n := (days + epochDays) mod 146097). set (a := (days + epochDays) / 146097).
  destruct (cycles n a _ _ _ ltac:(unfold n; apply Z.mod_pos_bound; lia) eq_refl eq_refl eq_refl) as [E Hy].
  match type of Hy with 0 <= ?yd < yearLen ?yr => set (yday := yd) in *; set (y := yr) in * end.
  destruct (monthOf_spec yday y _ Hy eq_refl) as [Hm Hd]. split_and!; [lia..|].
  unfold daysOf. subst n a. div_lia.
Qed.

Lemma dateOf_year days : -719528 <= days <= 2932896 -> 0 <= (dateOf days).1.1 <= 9999.
Proof.
  intros Hd. pose proof (dateOf_spec days) as H. destruct (dateOf days) as [[y m] d]. cbn.
  destruct H as (Hm & Hdd & H). unfold daysOf, daysToYear, epochDays in H. cbv zeta in H.
  assert (0 <= daysBefore m y + d - 1 < yearLen y) as Hy.
  { clear H. unfold daysBefore, daysIn, yearLen in *. destruct (leap y); repeat case_match; cbn in *; lia. }
  assert (yearLen y <= 366) by (unfold yearLen; by case_match).
  destruct (decide (y = -1)) as [->|]; [change (yearLen (-1)) with 365 in *; div_lia|]. div_lia.
Qed.

(** ** Decimal fields *)

(** [w] digits of [n]. *)
Fixpoint dec (w : nat) (n : Z) : bytes :=
  match w with
  | O => []
  | S w' => dec w' (n / 10) ++ [z2b (48 + n mod 10)]
  end.

Lemma dec_length w n : length (dec w n) = w.
Proof. revert n. induction w as [|w IH]; intros n; [done|]. cbn. rewrite length_app, IH. cbn. lia. Qed.

Lemma dec_0 w : dec w 0 = replicate w x30.
Proof. induction w as [|w IH]; [done|]. cbn [dec]. change (0 / 10) with 0. by rewrite IH, <- replicate_S_end. Qed.

Lemma appendInt_dec w n : 0 <= n < 10 ^ Z.of_nat (S w) -> appendInt n (S w) = dec (S w) n.
Proof.
  unfold appendInt. revert n. induction w as [|w IH]; intros n Hn.
  - change (10 ^ Z.of_nat 1) with 10 in Hn. rewrite Z.abs_eq, digits_step by lia. by repeat ltb_step.
  - replace (n <? 0) with false by (symmetry; apply Z.ltb_ge; lia). rewrite Z.abs_eq by lia.
    assert (0 <= n / 10 < 10 ^ Z.of_nat (S w)) as Hq.
    { rewrite Nat2Z.inj_succ, Z.pow_succ_r in Hn by lia. div_lia. }
    specialize (IH _ Hq). rewrite Z.abs_eq in IH by lia.
    replace (n / 10 <? 0) with false in IH by (symmetry; apply Z.ltb_ge; lia).
    change (dec (S (S w)) n) with (dec (S w) (n / 10) ++ [z2b (48 + n mod 10)]). rewrite <- IH. cbn [app].
    rewrite (digits_step n) by lia. destruct (Z.ltb_spec n 10).
    + replace (n / 10) with 0 by div_lia. change (digits 0) with [x30]. cbn [app length Nat.sub].
      by rewrite Nat.sub_0_r, <- replicate_S_end.
    + rewrite length_app. cbn [length]. rewrite <- app_assoc. do 2 f_equal. lia.
Qed.

Lemma undigits_dec w acc n : 0 <= n < 10 ^ Z.of_nat w -> undigits_from acc (dec w n) = Some (acc * 10 ^ Z.of_nat w + n).
Proof.
  revert acc n. induction w as [|w IH]; intros acc n Hn; [cbn; f_equal; cbn in Hn; lia|].
  rewrite Nat2Z.inj_succ, Z.pow_succ_r in * by lia. cbn [dec]. rewrite undigits_from_app, IH by div_lia. cbn.
  rewrite digitVal_z2b by div_lia. cbn. f_equal. div_lia.
Qed.

Lemma dec_digit w n c : 0 <= n -> c ∈ dec w n -> isDigit c = true.
Proof.
  revert n. induction w as [|w IH]; intros n Hn; cbn; [by intros ?%not_elem_of_nil|].
  rewrite elem_of_app, list_elem_of_singleton. intros [Hc| ->]; [eapply IH; [|done]; div_lia|].
  unfold isDigit. rewrite z2b_small by div_lia. repeat ltb_step. done.
Qed.

Lemma getnum_dec n r fixed : 0 <= n < 100 -> getnum (dec 2 n ++ r) fixed = Some (n, r).
Proof. intros Hn. cbn. rewrite !digitVal_z2b by div_lia. cbn. do 2 f_equal. div_lia. Qed.

Lemma getyear_dec y r : 0 <= y < 10000 -> getyear (dec 4 y ++ r) = Some (y, r).
Proof.
  intros Hy. pose proof (undigits_dec 4 0 y Hy) as H. pose proof (dec_length 4 y) as Hl.
  destruct (dec 4 y) as [|a [|b [|c [|d [|]]]]]; try done. cbn [app getyear]. unfold undigits. by rewrite H.
Qed.

Lemma literal_dash s : literal x2d (go "-" ++ s) = Some s.
Proof. done. Qed.
Lemma literal_colon s : literal x3a (go ":" ++ s) = Some s.
Proof. done. Qed.

Lemma getdate_fmt days r : -719528 <= days <= 2932896 ->
  getdate (fmtDate days ++ r) = let '(y, m, d) := dateOf days in Some (y, m, d, r).
Proof.
  intros Hd. pose proof (dateOf_year days Hd) as Hy. pose proof (dateOf_spec days) as Hs. unfold fmtDate.
  destruct (dateOf days) as [[y m] d]. cbn in Hy. destruct Hs as (Hm & Hdd & _).
  assert (daysIn m y <= 31) by (unfold daysIn; repeat case_match; lia).
  rewrite !appendInt_dec by (cbn; lia). rewrite <- !app_assoc. unfold getdate.
  rewrite getyear_dec by lia. cbn [mbind option_bind]. rewrite literal_dash. cbn [mbind option_bind].
  rewrite getnum_dec by lia. cbn [mbind option_bind].
  replace ((m <=? 0) || (12 <? m)) with false by (symmetry; apply orb_false_iff; split; [apply Z.leb_gt|apply Z.ltb_ge]; lia).
  rewrite literal_dash. cbn [mbind option_bind]. by rewrite getnum_dec by lia.
Qed.

Lemma getclock_fmt sec r : 0 <= sec < 86400 -> getclock (fmtClock sec ++ r) = Some (sec, r).
Proof.
  intros Hs. unfold fmtClock. rewrite !appendInt_dec by (cbn; div_lia). rewrite <- !app_assoc. unfold getclock.
  rewrite getnum_dec by div_lia. cbn [mbind option_bind].
  replace (24 <=? sec / 3600) with false by (symmetry; apply Z.leb_gt; div_lia).
  rewrite literal_colon. cbn [mbind option_bind]. rewrite getnum_dec by div_lia. cbn [mbind option_bind].
  replace (60 <=? sec / 60 mod 60) with false by (symmetry; apply Z.leb_gt; div_lia).
  rewrite literal_colon. cbn [mbind option_bind]. rewrite getnum_dec by div_lia. cbn [mbind option_bind].
  replace (60 <=? sec mod 60) with false by (symmetry; apply Z.leb_gt; div_lia). do 2 f_equal. div_lia.
Qed.

Lemma takeDigits_app ds r : (forall c, c ∈ ds -> isDigit c = true) ->
  match r with c :: _ => isDigit c = false | [] => True end -> takeDigits (ds ++ r) = (ds, r).
Proof.
  intros Hd Hr. induction ds as [|c ds IH]; cbn.
  - destruct r as [|c r]; [done|]. cbn. by rewrite Hr.
  - rewrite Hd by left. rewrite IH; [done|]. intros x Hx. apply Hd. by right.
Qed.

Lemma trimZeros_spec s : exists k, s = trimZeros s ++ replicate k x30.
Proof.
  induction s as [|c s [k IH]]; [by exists O|]. cbn. destruct (trimZeros s) as [|t ts].
  - case_bool_decide as Hc; [exists (S k); subst c; by rewrite IH|exists k; by rewrite IH].
  - exists k. cbn in *. by rewrite IH.
Qed.

Lemma undigits_from_zeros acc k : undigits_from acc (replicate k x30) = Some (acc * 10 ^ Z.of_nat k).
Proof.
  revert acc. induction k as [|k IH]; intros acc; [cbn; f_equal; lia|]. cbn [replicate undigits_from].
  change (digitVal x30) with (Some 0). cbn [mbind option_bind]. rewrite IH. f_equal.
  rewrite Nat2Z.inj_succ, Z.pow_succ_r by lia. lia.
Qed.

Lemma fraction_fmt frac : 0 <= frac < 1000000 ->
  fraction ((if frac =? 0 then [] else trimZeros (x2e :: appendInt frac 6)) ++ go "+00") = (frac * 1000, go "+00").
Proof.
  intros Hf. destruct (Z.eqb_spec frac 0) as [->|H0]; [done|]. rewrite appendInt_dec by (cbn; lia).
  destruct (trimZeros_spec (dec 6 frac)) as [k Ek]. pose proof (dec_length 6 frac) as Hl.
  pose proof (undigits_dec 6 0 frac Hf) as Hu. set (ts := trimZeros (dec 6 frac)) in *.
  rewrite Ek in Hl, Hu. rewrite length_app, length_replicate in Hl. rewrite undigits_from_app in Hu.
  assert (forall c, c ∈ ts -> isDigit c = true) as Hd.
  { intros c Hc. apply (dec_digit 6 frac); [lia|]. rewrite Ek. set_solver. }
  destruct (undigits_from 0 ts) as [v|] eqn:Ev; cbn [mbind option_bind] in Hu; [|done].
  rewrite undigits_from_zeros in Hu. injection Hu as Hu.
  destruct ts as [|t ts'] eqn:Ets; [injection Ev as <-; lia|].
  assert (trimZeros (x2e :: dec 6 frac) = x2e :: ts) as -> by (cbn [trimZeros]; fold ts; by rewrite Ets).
  rewrite Ets. cbn [app]. unfold fraction. rewrite Hd by left. cbn [bool_decide orb andb].
  rewrite (takeDigits_app (t :: ts') (go "+00") Hd eq_refl : takeDigits (t :: ts' ++ go "+00") = _). f_equal. unfold nanos.
  rewrite take_ge by lia. unfold undigits. rewrite Ev. cbn [default from_option].
  replace (9 - Z.of_nat (length (t :: ts'))) with (3 + Z.of_nat k) by lia. rewrite Z.pow_add_r by lia. cbn. lia.
Qed.

Lemma isDigit_solid c : isDigit c = true -> solid c.
Proof. by destruct c; intros ?; try discriminate; apply (bool_decide_unpack _). Qed.

Lemma fmtDate_head days : -719528 <= days <= 2932896 -> exists c s, fmtDate days = c :: s /\ isDigit c = true.
Proof.
  intros Hd. pose proof (dateOf_year days Hd) as Hy. unfold fmtDate. destruct (dateOf days) as [[y m] d]. cbn in Hy.
  rewrite (appendInt_dec 3 y) by (cbn; lia). pose proof (dec_digit 4 y) as Hdd.
  pose proof (dec_length 4 y) as Hl. destruct (dec 4 y) as [|c s]; [done|]. eexists _, _. split; [done|].
  apply Hdd; [lia|left].
Qed.

Lemma blank_clock sec r : 0 <= sec < 86400 -> skipBlank (go " " ++ fmtClock sec ++ r) = Some (fmtClock sec ++ r).
Proof.
  intros Hs. unfold fmtClock. rewrite (appendInt_dec 1 (sec / 3600)) by (cbn; div_lia).
  pose proof (dec_digit 2 (sec / 3600)) as Hd. pose proof (dec_length 2 (sec / 3600)) as Hl.
  destruct (dec 2 (sec / 3600)) as [|c s]; [done|].
  rewrite <- !app_assoc. cbn [app]. match goal with |- context [c :: ?x] => generalize x end. intros x.
  change (skipBlank (go " " ++ c :: x)) with (Some (cutspace (c :: x))). cbn [cutspace]. rewrite bool_decide_false; [done|].
  intros ->. assert (isDigit x20 = true) by (apply Hd; [div_lia|left]). done.
Qed.

Lemma timeParse_full z s r days sec ns : -719528 <= days <= 2932896 -> 0 <= sec < 86400 ->
  fraction s = (ns, r) ->
  timeParse (LFull false z) (fmtDate days ++ go " " ++ fmtClock sec ++ s) =
    '(off, r) ← getzone z r;
    match r with
    | [] => let '(y, m, d) := dateOf days in Some (mkParsed y m d sec ns off)
    | _ => None
    end.
Proof.
  intros Hd Hs Hf. unfold timeParse. rewrite getdate_fmt by done. pose proof (dateOf_spec days) as H.
  destruct (dateOf days) as [[y m] d]. destruct H as (_ & H & _). cbn [mbind option_bind].
  rewrite blank_clock by done. cbn [mbind option_bind]. rewrite getclock_fmt by done. cbn [mbind option_bind].
  rewrite Hf. destruct (getzone z r) as [[off [|]]|]; cbn [mbind option_bind]; [|done..].
  by replace ((d <? 1) || (daysIn m y <? d)) with false by (symmetry; apply orb_false_iff; split; apply Z.ltb_ge; lia).
Qed.

Lemma TrimSpace_digit s r c : (exists d s', s = d :: s' /\ isDigit d = true) -> solid c -> TrimSpace (s ++ r ++ [c]) = s ++ r ++ [c].
Proof.
  intros (d & s' & -> & Hd) Hc. apply (TrimSpace_id _ d c); [done| |by apply isDigit_solid|done].
  rewrite app_assoc. apply last_snoc.
Qed.

(** A timestamp of the years 0 to 9999 is read back from its text
    exactly, to the microsecond. *)
Lemma ParseTimestamp_FormatTimestamp micros : -62167219200000000 <= micros < 253402300800000000 ->
  ParseTimestamp (FormatTimestamp micros) = Ok micros.
Proof.
  intros Hm. unfold ParseTimestamp, FormatTimestamp.
  set (sec := micros / 1000000). set (days := sec / 86400).
  assert (-719528 <= days <= 2932896) as Hd by (unfold days, sec; div_lia).
  assert (0 <= sec mod 86400 < 86400) as Hs by div_lia.
  pose proof (fraction_fmt (micros mod 1000000) ltac:(div_lia)) as Hf.
  set (frac := if _ =? 0 then _ else _) in *.
  rewrite !(app_assoc (go " ")), (app_assoc _ frac). change (go "+00") with (go "+0" ++ [x30]).
  rewrite !app_assoc, <- (app_assoc (fmtDate days)), <- (app_assoc (fmtDate days)), <- (app_assoc (fmtDate days)), <- app_assoc.
  rewrite TrimSpace_digit by (by apply fmtDate_head || by apply (bool_decide_unpack _)).
  rewrite <- !app_assoc. change (go "+0" ++ [x30]) with (go "+00"). cbn [tryLayouts tsLayouts].
  rewrite !(timeParse_full _ _ _ _ _ _ Hd Hs Hf). 
  change (getzone ZColon (go "+00")) with (@None (Z * bytes)). change (getzone ZPlain (go "+00")) with (@None (Z * bytes)).
  change (getzone ZHours (go "+00")) with (Some (0, @nil byte)). cbn [mbind option_bind].
  pose proof (dateOf_spec days) as Hdd. destruct (dateOf days) as [[y m] d]. f_equal.
  unfold UnixMicro. cbn [pYear pMonth pDay pSec pNanos pOffset]. destruct Hdd as (_ & _ & ->).
  unfold days, sec. div_lia.
Qed.

(** A clock with an hour-only zone after a date. *)
Definition zoned (days sec : Z) (sg h1 h2 : byte) : bytes :=
  fmtDate days ++ go " " ++ fmtClock sec ++ [sg; h1; h2].

Lemma offset_bytes sg h1 h2 off : offset sg [h1; h2] (go "00") = Some off ->
  (sg = x2b \/ sg = x2d) /\ isDigit h2 = true.
Proof.
  unfold offset. cbn. unfold signOf. destruct (digitVal h1); cbn; [|done].
  destruct (digitVal h2) eqn:E; cbn; [|done]. case_match; [done|]. intros Ho. split.
  - repeat case_bool_decide; naive_solver.
  - unfold digitVal, isDigit in *. by destruct (_ && _).
Qed.

Lemma timeParse_date days : -719528 <= days <= 2932896 ->
  timeParse LDate (fmtDate days) = let '(y, m, d) := dateOf days in Some (mkParsed y m d 0 0 0).
Proof.
  intros Hd. pose proof (getdate_fmt days [] Hd) as H. rewrite app_nil_r in H. unfold timeParse. rewrite H.
  pose proof (dateOf_spec days) as Hdd. destruct (dateOf days) as [[y m] d]. destruct Hdd as (_ & Hdd & _). cbn [mbind option_bind].
  by replace ((d <? 1) || (daysIn m y <? d)) with false by (symmetry; apply orb_false_iff; split; apply Z.ltb_ge; lia).
Qed.
Lemma timeParse_date_long days s : -719528 <= days <= 2932896 -> s <> [] -> timeParse LDate (fmtDate days ++ s) = None.
Proof.
  intros Hd Hs. unfold timeParse. rewrite getdate_fmt by done. destruct (dateOf days) as [[y m] d]. by destruct s.
Qed.

Lemma tryLayouts_zoned days sec sg h1 h2 off : -719528 <= days <= 2932896 -> 0 <= sec < 86400 ->
  offset sg [h1; h2] (go "00") = Some off ->
  tryLayouts tsLayouts (zoned days sec sg h1 h2) = let '(y, m, d) := dateOf days in Some (mkParsed y m d sec 0 off).
Proof.
  intros Hd Hs Ho. assert (fraction [sg; h1; h2] = (0, [sg; h1; h2])) as Hf.
  { by apply offset_bytes in Ho as [[-> | ->] _]. }
  unfold zoned. cbn [tryLayouts tsLayouts]. rewrite !(timeParse_full _ _ _ _ _ _ Hd Hs Hf).
  assert (getzone ZColon [sg; h1; h2] = None /\ getzone ZPlain [sg; h1; h2] = None) as [-> ->].
  { by apply offset_bytes in Ho as [[-> | ->] _]. }
  cbn [getzone numZone mbind option_bind]. rewrite Ho. cbn [mbind option_bind]. by destruct (dateOf days) as [[y m] d].
Qed.

Lemma TrimSpace_zoned days sec sg h1 h2 off : -719528 <= days <= 2932896 ->
  offset sg [h1; h2] (go "00") = Some off -> TrimSpace (zoned days sec sg h1 h2) = zoned days sec sg h1 h2.
Proof.
  intros Hd [_ Hh]%offset_bytes. unfold zoned. change [sg; h1; h2] with ([sg; h1] ++ [h2]).
  rewrite (app_assoc (fmtClock sec)), (app_assoc (go " ")).
  apply TrimSpace_digit; [by apply fmtDate_head|by apply isDigit_solid].
Qed.

Lemma TrimSpace_fmtDate days : -719528 <= days <= 2932896 -> TrimSpace (fmtDate days) = fmtDate days.
Proof.
  intros Hd. destruct (fmtDate_head days Hd) as (c & s & E & Hc).
  assert (exists s' e, fmtDate days = s' ++ [e] /\ isDigit e = true) as (s' & e & E' & He).
  { unfold fmtDate. pose proof (dateOf_spec days) as H. destruct (dateOf days) as [[y m] d]. destruct H as (_ & H & _).
    assert (daysIn m y <= 31) by (unfold daysIn; repeat case_match; lia).
    rewrite (appendInt_dec 1 d) by (cbn; lia). change (dec 2 d) with (dec 1 (d / 10) ++ [z2b (48 + d mod 10)]).
    rewrite !app_assoc. eexists _, _. split; [done|]. apply (dec_digit 2 d); [lia|]. cbn [dec]. set_solver. }
  apply (TrimSpace_id _ c e); [by rewrite E|rewrite E'; apply last_snoc|by apply isDigit_solid..].
Qed.

Lemma ParseDate_zoned days sec sg h1 h2 off : -719528 <= days <= 2932896 -> 0 <= sec < 86400 ->
  offset sg [h1; h2] (go "00") = Some off -> ParseDate (zoned days sec sg h1 h2) = Ok days.
Proof.
  intros Hd Hs Ho. unfold ParseDate. rewrite (TrimSpace_zoned _ _ _ _ _ _ Hd Ho).
  change (tryLayouts (LDate :: tsLayouts) ?s) with
    (match timeParse LDate s with Some p => Some p | None => tryLayouts tsLayouts s end).
  rewrite (tryLayouts_zoned _ _ _ _ _ _ Hd Hs Ho). unfold zoned.
  rewrite (timeParse_date_long days) by done. pose proof (dateOf_spec days) as Hdd.
  destruct (dateOf days) as [[y m] d]. f_equal. apply Hdd.
Qed.
Lemma ParseTimestamp_zoned days sec sg h1 h2 off : -719528 <= days <= 2932896 -> 0 <= sec < 86400 ->
  offset sg [h1; h2] (go "00") = Some off ->
  ParseTimestamp (zoned days sec sg h1 h2) = Ok ((days * 86400 + sec - off) * 1000000).
Proof.
  intros Hd Hs Ho. unfold ParseTimestamp. rewrite (TrimSpace_zoned _ _ _ _ _ _ Hd Ho).
  rewrite (tryLayouts_zoned _ _ _ _ _ _ Hd Hs Ho). pose proof (dateOf_spec days) as Hdd.
  destruct (dateOf days) as [[y m] d]. f_equal. unfold UnixMicro. cbn [pYear pMonth pDay pSec pNanos pOffset].
  destruct Hdd as (_ & _ & ->). change (0 / 1000) with 0. lia.
Qed.
Lemma ParseDate_FormatDate days : -719528 <= days <= 2932896 -> ParseDate (FormatDate days) = Ok days.
Proof.
  intros Hd. unfold FormatDate. rewrite int64_id by (unfold int64_ok, two63; lia).
  unfold ParseDate. rewrite Z.div_mul, TrimSpace_fmtDate by lia.
  change (tryLayouts (LDate :: tsLayouts) ?s) with
    (match timeParse LDate s with Some p => Some p | None => tryLayouts tsLayouts s end).
  rewrite timeParse_date by done. pose proof (dateOf_spec days) as Hdd.
  destruct (dateOf days) as [[y m] d]. f_equal. apply Hdd.
Qed.

(** a date is the one written: a clock and a zone after it move the
    instant [ParseTimestamp] reads, never the date [ParseDate] reads; and a
    date of the years 0 to 9999 is read back from its text. *)
Theorem ParseDate_as_written days sec sg h1 h2 off : -719528 <= days <= 2932896 -> 0 <= sec < 86400 ->
  offset sg [h1; h2] (go "00") = Some off ->
  ParseDate (zoned days sec sg h1 h2) = Ok days /\
  ParseTimestamp (zoned days sec sg h1 h2) = Ok ((days * 86400 + sec - off) * 1000000) /\
  ParseDate (FormatDate days) = Ok days.
Proof.
  intros. split_and!; [by eapply ParseDate_zoned|by apply ParseTimestamp_zoned|by apply ParseDate_FormatDate].
Qed.

Lemma ParseDate_as_written_witness :
  zoned 19724 84600 x2d x30 x35 = go "2024-01-02 23:30:00-05" /\
  ParseDate (zoned 19724 84600 x2d x30 x35) = Ok 19724 /\
  ParseTimestamp (zoned 19724 84600 x2d x30 x35) = Ok ((19724 * 86400 + 84600 - -18000) * 1000000) /\
  ParseDate (FormatDate 19724) = Ok 19724.
Proof.
  split; [vm_compute; reflexivity|]. apply ParseDate_as_written; [lia|lia|vm_compute; reflexivity].
Defined.

(** ** Ranges *)

Lemma digitVal_range c d : digitVal c = Some d -> 0 <= d <= 9.
Proof. unfold digitVal. case_match eqn:E; [|done]. apply andb_true_iff in E as [?%Z.leb_le ?%Z.leb_le]. intros [= <-]. lia. Qed.

Lemma getnum_range s f n r : getnum s f = Some (n, r) -> 0 <= n <= 99.
Proof.
  unfold getnum. destruct s as [|a s]; [done|]. intros (x & Hx%digitVal_range & H)%bind_Some.
  destruct s as [|b s]; [by destruct f; simplify_eq; lia|].
  destruct (digitVal b) as [y|] eqn:Ey; [apply digitVal_range in Ey|by destruct f; simplify_eq; lia]. injection H as <- _. lia.
Qed.
Lemma getyear_range s n r : getyear s = Some (n, r) -> 0 <= n <= 9999.
Proof.
  unfold getyear. destruct s as [|a [|b [|c [|d s]]]]; try done.
  intros (y & Hy & [= <- _])%bind_Some. unfold undigits, undigits_from in Hy.
  repeat (apply bind_Some in Hy as (? & ?%digitVal_range & Hy)). injection Hy as <-. lia.
Qed.

Lemma nanos_range ds : 0 <= nanos ds < 10 ^ 9.
Proof.
  unfold nanos. set (l := take 9 ds). assert (length l <= 9)%nat as Hl by (unfold l; rewrite length_take; lia).
  assert (forall acc v, 0 <= acc -> undigits_from acc l = Some v -> 0 <= v < (acc + 1) * 10 ^ Z.of_nat (length l)) as H.
  { clear Hl. induction l as [|c l IH]; intros acc v Ha; cbn [undigits_from length]; [intros [= <-]; cbn; lia|].
    intros (d & Hd%digitVal_range & Hv)%bind_Some. apply IH in Hv; [|lia]. rewrite Nat2Z.inj_succ, Z.pow_succ_r by lia. nia. }
  assert (0 <= default 0 (undigits l) < 10 ^ Z.of_nat (length l)) as Hu.
  { unfold undigits. destruct l as [|c l]; [cbn; lia|]. destruct (undigits_from 0 (c :: l)) as [v|] eqn:E; cbn [default from_option].
    - apply H in E; [|lia]. unfold id. lia.
    - assert (0 < 10 ^ Z.of_nat (length (c :: l))) by (apply Z.pow_pos_nonneg; lia). unfold id. lia. }
  replace (10 ^ 9) with (10 ^ Z.of_nat (length l) * 10 ^ (9 - Z.of_nat (length l))) by (rewrite <- Z.pow_add_r by lia; f_equal; lia).
  assert (0 < 10 ^ (9 - Z.of_nat (length l))) by (apply Z.pow_pos_nonneg; lia). nia.
Qed.
Lemma fraction_range s : 0 <= (fraction s).1 < 10 ^ 9.
Proof.
  unfold fraction. destruct s as [|p [|d s]]; [cbn; lia..|]. case_match; [|cbn; lia].
  destruct (takeDigits (d :: s)) as [ds r]. apply nanos_range.
Qed.

Lemma offset_range sg h m o : offset sg h m = Some o -> -100000 <= o <= 100000.
Proof.
  unfold offset. intros ([hr ?] & Hh%getnum_range & ([mm ?] & Hm%getnum_range & H)%bind_Some)%bind_Some.
  destruct (_ || _) eqn:E; [done|]. apply orb_false_iff in E as [?%Z.ltb_ge ?%Z.ltb_ge].
  apply bind_Some in H as (sign & Hs & [= <-]). unfold signOf in Hs. repeat case_bool_decide; simplify_eq; lia.
Qed.
Lemma getzone_range z s o r : getzone z s = Some (o, r) -> -100000 <= o <= 100000.
Proof.
  assert (numZone z s = Some (o, r) -> -100000 <= o <= 100000) as Hn.
  { unfold numZone. destruct z; [..|done]; repeat (case_match; try done); intros (o' & ?%offset_range & [= <- _])%bind_Some; lia. }
  unfold getzone. destruct z; [..|intros [= <- _]; lia]; try done; (destruct s as [|c s]; [done|]; case_bool_decide; [intros [= <- _]; lia|done]).
Qed.
Lemma getclock_range s n r : getclock s = Some (n, r) -> 0 <= n < 86400.
Proof.
  unfold getclock. intros ([h ?] & ?%getnum_range & H)%bind_Some. destruct (Z.leb_spec 24 h); [done|].
  apply bind_Some in H as (? & _ & ([mi ?] & ?%getnum_range & H)%bind_Some). destruct (Z.leb_spec 60 mi); [done|].
  apply bind_Some in H as (? & _ & ([se ?] & ?%getnum_range & H)%bind_Some). destruct (Z.leb_spec 60 se); [done|].
  injection H as <- _. lia.
Qed.

Lemma timeParse_range l s p : timeParse l s = Some p ->
  0 <= pYear p <= 9999 /\ 1 <= pMonth p <= 12 /\ 1 <= pDay p <= 31 /\ 0 <= pSec p < 86400 /\
  0 <= pNanos p < 10 ^ 9 /\ -100000 <= pOffset p <= 100000.
Proof.
  unfold timeParse, getdate. intros ([[[y m] d] s1] & Hd & (q & Hq & H)%bind_Some)%bind_Some.
  apply bind_Some in Hd as ([y' ?] & Hy%getyear_range & (? & _ & ([m' ?] & _ & Hd)%bind_Some)%bind_Some).
  destruct (_ || _) eqn:E in Hd; [done|]. apply orb_false_iff in E as [?%Z.leb_gt ?%Z.ltb_ge].
  apply bind_Some in Hd as (? & _ & ([d' ?] & _ & [= -> -> -> ->])%bind_Some).
  destruct (_ || _) eqn:E in H; [done|]. apply orb_false_iff in E as [?%Z.ltb_ge ?%Z.ltb_ge]. injection H as <-.
  assert (daysIn m y <= 31) by (unfold daysIn; repeat case_match; lia).
  destruct l as [|t z]; [destruct s1; simplify_eq; cbn; lia|].
  apply bind_Some in Hq as (? & _ & ([sec s2] & Hs%getclock_range & Hq)%bind_Some).
  pose proof (fraction_range s2) as Hf. destruct (fraction s2) as [ns s3].
  apply bind_Some in Hq as ([off s4] & Ho%getzone_range & Hq). destruct s4; simplify_eq. cbn [pYear pMonth pDay pSec pNanos pOffset fst] in *. lia.
Qed.
Lemma tryLayouts_range ls s p : tryLayouts ls s = Some p -> exists l, timeParse l s = Some p.
Proof. induction ls as [|l ls IH]; cbn; [done|]. destruct (timeParse l s) eqn:E; [intros [= <-]; eauto|auto]. Qed.

Lemma daysOf_range p l s : timeParse l s = Some p -> -1000000 <= daysOf (pYear p) (pMonth p) (pDay p) <= 4000000.
Proof.
  intros (Hy & Hm & Hd & _)%timeParse_range. unfold daysOf, daysToYear, epochDays. cbv zeta.
  assert (0 <= daysBefore (pMonth p) (pYear p) <= 335) by (unfold daysBefore; repeat case_match; lia). div_lia.
Qed.

Lemma ParseTimestamp_int64 s z : ParseTimestamp s = Ok z -> int64_ok z.
Proof.
  unfold ParseTimestamp. destruct (tryLayouts _ _) as [p|] eqn:E; [|done]. intros [= <-].
  apply tryLayouts_range in E as [l E]. pose proof (daysOf_range p l _ E). apply timeParse_range in E.
  unfold int64_ok, UnixMicro, two63. cbn in *. div_lia.
Qed.
Lemma ParseDate_int64 s z : ParseDate s = Ok z -> int64_ok z.
Proof.
  unfold ParseDate. destruct (tryLayouts _ _) as [p|] eqn:E; [|done]. intros [= <-].
  apply tryLayouts_range in E as [l E]. pose proof (daysOf_range p l _ E). unfold int64_ok, two63. lia.
Qed.
Lemma ParseTimestamp_no_panic s p : ParseTimestamp s <> Panic p.
Proof. unfold ParseTimestamp. by destruct (tryLayouts _ _). Qed.
Lemma ParseDate_no_panic s p : ParseDate s <> Panic p.
Proof. unfold ParseDate. by destruct (tryLayouts _ _). Qed.
