(* ===== verification/Types.v ===== *)
(** * Value representations of the date, UUID and array types

    [types.go]: UUID text and the one-dimensional text-array literal. The
    array codec decides equality of [text[]] columns, because the stored
    value is the literal's canonical spelling. *)
From S2P Require Import Prelude GoStr.

(** ** UUIDs *)

Definition errUUID : error := ENew (go "invalid input syntax for type uuid").

Definition ParseUUID (s : bytes) : outcome bytes :=
  let s := TrimSpace s in
  let undash : option bytes :=
    if decide (length s = 36) then
      if decide (s !! 8 = Some x2d /\ s !! 13 = Some x2d /\ s !! 18 = Some x2d /\ s !! 23 = Some x2d)
      then Some (take 8 s ++ take 4 (drop 9 s) ++ take 4 (drop 14 s) ++ take 4 (drop 19 s) ++ drop 24 s)
      else None
    else Some s in
  match undash with
  | None => Err errUUID
  | Some s =>
      if decide (length s <> 32) then Err errUUID
      else match unhex s with Some b => Ok b | None => Err errUUID end
  end.

Definition FormatUUID (b : bytes) : bytes :=
  if decide (length b <> 16) then go "\x" ++ hex b
  else hex (take 4 b) ++ go "-" ++ hex (take 2 (drop 4 b)) ++ go "-" ++ hex (take 2 (drop 6 b))
    ++ go "-" ++ hex (take 2 (drop 8 b)) ++ go "-" ++ hex (drop 10 b).

(** ** Text arrays *)

(** The whitespace of array literals: space, \t, \n, \r, \v, \f. *)
Definition arraySpace : bytes := [x20; x09; x0a; x0d; x0b; x0c].
Definition isArraySpace (c : byte) : bool := bool_decide (c ∈ arraySpace).

Definition lbrace : byte := x7b.
Definition rbrace : byte := x7d.
Definition comma : byte := x2c.
Definition dquote : byte := x22.
Definition backslash : byte := x5c.

(** An element is a string or NULL ([None]). *)
Abbreviation textElem := (option bytes).

Definition malformed (s : bytes) : error := ENew (go "malformed array literal: " ++ quoted s).
Definition errMultidim : error := ENew (go "multidimensional arrays are not supported").

(** The inner loop of a quoted element, after the opening quote: the
    content and what follows the closing quote, [None] if it never closes. *)
Fixpoint parseQuoted (body : bytes) : option (bytes * bytes) :=
  match body with
  | [] => None
  | c :: rest =>
      match decide (c = backslash), rest with
      | left _, d :: rest' => '(b, r) ← parseQuoted rest'; Some (d :: b, r)
      | _, _ =>
          if decide (c = dquote) then Some ([], rest)
          else '(b, r) ← parseQuoted rest; Some (c :: b, r)
      end
  end.

(** The inner loop of an unquoted element: up to the next comma, [None] on
    a structural character. *)
Fixpoint parseBare (body : bytes) : option (bytes * bytes) :=
  match body with
  | [] => Some ([], [])
  | c :: rest =>
      if decide (c = comma) then Some ([], body)
      else if decide (c = lbrace \/ c = rbrace \/ c = dquote) then None
      else '(b, r) ← parseBare rest; Some (c :: b, r)
  end.

(** The main loop; [s] is the whole literal, for the error text. Every
    round but the last takes a comma, so [length body + 1] rounds are
    enough ([parseElems_fuel]). *)
Fixpoint parseElems (fuel : nat) (s body : bytes) (elems : list textElem) : outcome (list textElem) :=
  match fuel with
  | O => Panic PExplicit
  | S fuel' =>
      let body := trim_left_set isArraySpace body in
      let after (elems : list textElem) (body : bytes) : outcome (list textElem) :=
        match trim_left_set isArraySpace body with
        | [] => Ok elems
        | c :: body' => if decide (c = comma) then parseElems fuel' s body' elems else Err (malformed s)
        end in
      let bare : outcome (list textElem) :=
        match parseBare body with
        | None => Err (malformed s)
        | Some (tok, rest) =>
            let tok := Trim tok isArraySpace in
            if decide (tok = []) then Err (malformed s)
            else after (elems ++ [if EqualFold tok (go "null") then None else Some tok]) rest
        end in
      match body with
      | c :: rest =>
          if decide (c = lbrace) then Err errMultidim
          else if decide (c = dquote) then
            match parseQuoted rest with
            | None => Err (malformed s)
            | Some (b, rest') => after (elems ++ [Some b]) rest'
            end
          else bare
      | [] => bare
      end
  end.

Definition ParseTextArray (s : bytes) : outcome (list textElem) :=
  let t := Trim s isArraySpace in
  if decide (2 <= length t /\ head t = Some lbrace /\ last t = Some rbrace) then
    let body := take (length t - 2) (drop 1 t) in
    if decide (Trim body isArraySpace = []) then Ok []
    else parseElems (S (length body)) s body []
  else Err (malformed s).

Definition textArrayNeedsQuotes (s : bytes) : bool :=
  if decide (s = [] \/ EqualFold s (go "null") = true) then true
  else existsb (λ c, bool_decide (c ∈ [lbrace; rbrace; comma; dquote; backslash] ++ arraySpace)) s.

(** The writing loop of a quoted element. *)
Definition escapeElem (s : bytes) : bytes :=
  s ≫= λ c, if decide (c = dquote \/ c = backslash) then [backslash; c] else [c].

Definition formatElem (e : textElem) : bytes :=
  match e with
  | None => go "NULL"
  | Some s => if textArrayNeedsQuotes s then dquote :: escapeElem s ++ [dquote] else s
  end.

Fixpoint formatElems (elems : list textElem) : bytes :=
  match elems with
  | [] => []
  | [e] => formatElem e
  | e :: elems' => formatElem e ++ comma :: formatElems elems'
  end.

Definition FormatTextArray (elems : list textElem) : bytes := lbrace :: formatElems elems ++ [rbrace].

Definition CanonTextArray (s : bytes) : outcome bytes :=
  elems ← ParseTextArray s; Ok (FormatTextArray elems).

Example CanonTextArray_ex :
  CanonTextArray (go " { a , " ++ quoted (go "b") ++ go " , null}") = Ok (go "{a,b,NULL}").
Proof. reflexivity. Qed.

(** ** Trimming *)

Definition head_ok (cut : byte -> bool) (s : bytes) : Prop :=
  match s with [] => True | c :: _ => cut c = false end.

Lemma trim_left_set_id cut s : head_ok cut s -> trim_left_set cut s = s.
Proof. destruct s as [|c s]; simpl; [done|]. by intros ->. Qed.

Lemma Trim_id cut s : head_ok cut s -> head_ok cut (reverse s) -> Trim s cut = s.
Proof.
  intros H1 H2. unfold Trim, trim_right_set. rewrite (trim_left_set_id cut s) by done.
  rewrite trim_left_set_id by done. apply reverse_involutive.
Qed.

Lemma head_ok_Forall cut s : Forall (λ c, cut c = false) s -> head_ok cut s /\ head_ok cut (reverse s).
Proof.
  intros H. split; [by destruct H|]. apply Forall_reverse in H. by destruct H.
Qed.

(** ** Array round trip *)

Lemma parseQuoted_escape s rest : parseQuoted (escapeElem s ++ dquote :: rest) = Some (s, rest).
Proof.
  induction s as [|c s IH]; [done|].
  change (escapeElem (c :: s)) with
    ((if decide (c = dquote \/ c = backslash) then [backslash; c] else [c]) ++ escapeElem s).
  destruct (decide (c = dquote \/ c = backslash)) as [H|H]; cbn [app parseQuoted].
  - rewrite (decide_True_pi (P := backslash = backslash) eq_refl). by rewrite IH.
  - destruct (decide (c = backslash)) as [->|Hb]; [naive_solver|].
    rewrite decide_False by naive_solver. by rewrite IH.
Qed.

Definition plain (c : byte) : Prop :=
  c ∉ [lbrace; rbrace; comma; dquote; backslash] ++ arraySpace.

Lemma plain_spec c : plain c ->
  c <> lbrace /\ c <> rbrace /\ c <> comma /\ c <> dquote /\ c <> backslash /\ isArraySpace c = false.
Proof.
  unfold plain. intros H. rewrite not_elem_of_app in H. destruct H as [H1 H2].
  rewrite !not_elem_of_cons in H1. destruct_and? H1. split_and!; [done..|].
  by apply bool_decide_eq_false.
Qed.

Lemma needsQuotes_false s : textArrayNeedsQuotes s = false ->
  s <> [] /\ EqualFold s (go "null") = false /\ Forall plain s.
Proof.
  unfold textArrayNeedsQuotes. destruct (decide _) as [|H]; [done|]. intros He.
  split_and!; [tauto|destruct (EqualFold _ _); tauto|].
  rewrite Forall_forall. intros c Hc. unfold plain. intros Hin.
  apply not_true_iff_false in He. apply He, existsb_exists. exists c.
  split; [by apply list_elem_of_In|by apply bool_decide_eq_true].
Qed.

Lemma parseBare_plain s rest : Forall (λ c, c <> lbrace /\ c <> rbrace /\ c <> comma /\ c <> dquote) s ->
  rest = [] \/ head rest = Some comma -> parseBare (s ++ rest) = Some (s, rest).
Proof.
  intros Hs Hr. induction Hs as [|c s (H1 & H2 & H3 & H4) _ IH]; cbn [app parseBare].
  - destruct rest as [|d rest]; [done|]. destruct Hr as [|[= ->]]; [done|].
    cbn [parseBare]. by rewrite decide_True.
  - rewrite decide_False by done. rewrite decide_False by naive_solver. by rewrite IH.
Qed.

(** The text after an element: the end, or a comma and more. *)
Definition follows (rest : bytes) : Prop := rest = [] \/ exists r, rest = comma :: r.

Lemma parseElems_bare fuel s0 tok rest elems e :
  tok <> [] -> Forall (λ c, c <> lbrace /\ c <> rbrace /\ c <> comma /\ c <> dquote) tok ->
  Forall (λ c, isArraySpace c = false) tok -> follows rest ->
  (if EqualFold tok (go "null") then None else Some tok) = e ->
  parseElems (S fuel) s0 (tok ++ rest) elems =
    match rest with [] => Ok (elems ++ [e]) | _ :: r => parseElems fuel s0 r (elems ++ [e]) end.
Proof.
  intros Hne Hs Hsp Hr He. destruct (head_ok_Forall _ _ Hsp) as [Hh Hl].
  destruct tok as [|c tok]; [done|].
  change ((c :: tok) ++ rest) with (c :: (tok ++ rest)). cbn [parseElems].
  rewrite trim_left_set_id by done. apply Forall_cons in Hs as Hs'.
  destruct Hs' as [(H1 & H2 & H3 & H4) _]. rewrite !decide_False by done.
  change (c :: tok ++ rest) with ((c :: tok) ++ rest).
  rewrite parseBare_plain by (done || destruct Hr as [->|[r ->]]; auto).
  rewrite Trim_id by done. rewrite decide_False by done. rewrite He.
  destruct Hr as [->|[r ->]]; [done|]. by rewrite trim_left_set_id.
Qed.

Lemma parseElems_formatElem fuel s0 e rest elems : follows rest ->
  parseElems (S fuel) s0 (formatElem e ++ rest) elems =
    match rest with [] => Ok (elems ++ [e]) | _ :: r => parseElems fuel s0 r (elems ++ [e]) end.
Proof.
  intros Hr. destruct e as [s|]; cbn [formatElem].
  - destruct (textArrayNeedsQuotes s) eqn:Eq.
    + cbn [app parseElems]. rewrite trim_left_set_id by done.
      rewrite (decide_False (P := dquote = lbrace)) by done.
      rewrite (decide_True (P := dquote = dquote)) by done.
      rewrite <- app_assoc. cbn [app]. rewrite parseQuoted_escape.
      destruct Hr as [->|[r ->]]; [done|]. by rewrite trim_left_set_id.
    + destruct (needsQuotes_false s Eq) as (Hne & Hf & Hp). apply parseElems_bare; [done| | |done|by rewrite Hf].
      * eapply Forall_impl; [done|]. intros c Hc%plain_spec. tauto.
      * eapply Forall_impl; [done|]. intros c Hc%plain_spec. tauto.
  - apply parseElems_bare; try done.
    + unfold go. simpl. repeat constructor; done.
    + unfold go. simpl. repeat constructor; done.
Qed.

Lemma parseElems_formatElems fuel s0 elems acc : elems <> [] -> (length elems <= fuel)%nat ->
  parseElems fuel s0 (formatElems elems) acc = Ok (acc ++ elems).
Proof.
  revert fuel acc. induction elems as [|e elems IH]; [done|]. intros [|fuel] acc _ Hf; [simpl in Hf; lia|].
  destruct elems as [|e' elems].
  - cbn [formatElems]. rewrite <- (app_nil_r (formatElem e)), parseElems_formatElem by (by left). done.
  - change (formatElems (e :: e' :: elems)) with (formatElem e ++ comma :: formatElems (e' :: elems)).
    rewrite parseElems_formatElem by (right; eauto).
    rewrite IH by (done || simpl in *; lia). by rewrite <- app_assoc.
Qed.

Lemma formatElem_solid e : exists c s, formatElem e = c :: s /\ isArraySpace c = false.
Proof.
  destruct e as [s|]; cbn [formatElem]; [|by eexists _, _].
  destruct (textArrayNeedsQuotes s) eqn:Eq; [by eexists _, _|].
  destruct (needsQuotes_false s Eq) as (Hne & _ & Hp). destruct s as [|c s]; [done|].
  eexists _, _. split; [done|]. apply Forall_cons in Hp as [Hc%plain_spec _]. tauto.
Qed.

Lemma formatElems_solid elems : elems <> [] ->
  exists c s, formatElems elems = c :: s /\ isArraySpace c = false.
Proof.
  destruct elems as [|e [|e' elems]]; [done|intros _; apply formatElem_solid|].
  intros _. destruct (formatElem_solid e) as (c & s & E & Hc).
  change (formatElems (e :: e' :: elems)) with (formatElem e ++ comma :: formatElems (e' :: elems)).
  rewrite E. by eexists _, _.
Qed.

Lemma formatElems_length elems : (length elems <= S (length (formatElems elems)))%nat.
Proof.
  induction elems as [|e [|e' elems] IH]; [simpl; lia..|].
  change (formatElems (e :: e' :: elems)) with (formatElem e ++ comma :: formatElems (e' :: elems)).
  rewrite length_app. cbn [length] in *. lia.
Qed.

Lemma ParseTextArray_Format elems : ParseTextArray (FormatTextArray elems) = Ok elems.
Proof.
  unfold ParseTextArray, FormatTextArray.
  assert (Trim (lbrace :: formatElems elems ++ [rbrace]) isArraySpace
          = lbrace :: formatElems elems ++ [rbrace]) as ->.
  { apply Trim_id; [done|]. by rewrite reverse_cons, reverse_app. }
  rewrite decide_True.
  - replace (take _ (drop 1 _)) with (formatElems elems).
    + destruct (decide (elems = [])) as [->|Hne]; [done|].
      destruct (formatElems_solid elems Hne) as (c & s & E & Hc).
      rewrite decide_False.
      * apply parseElems_formatElems; [done|]. apply formatElems_length.
      * rewrite E. unfold Trim, trim_right_set. cbn [trim_left_set]. rewrite Hc.
        rewrite reverse_cons. intros H%(f_equal reverse). rewrite reverse_involutive in H.
        revert H. generalize (reverse s). clear -Hc.
        induction l as [|d l IH]; simpl; [by rewrite Hc|]. by destruct (isArraySpace d).
    + cbn [length drop]. rewrite length_app. cbn [length]. symmetry. apply take_app_length'. lia.
  - split_and!; [simpl; rewrite length_app; simpl; lia|done|].
    change (lbrace :: ?l ++ [rbrace]) with ((lbrace :: l) ++ [rbrace]). apply last_snoc.
Qed.

(** *** The parser's loop always ends *)

Lemma trim_left_set_length cut s : (length (trim_left_set cut s) <= length s)%nat.
Proof. induction s as [|c s IH]; simpl; [done|]. destruct (cut c); simpl; lia. Qed.

Lemma parseQuoted_length body b r : parseQuoted body = Some (b, r) -> (length r < length body)%nat.
Proof.
  remember (length body) as n eqn:Hn. revert body Hn b r. induction n as [n IH] using lt_wf_ind.
  intros [|c body] -> b r; [done|]. cbn [parseQuoted length].
  assert (forall body' b' r', (length body' <= length body)%nat -> parseQuoted body' = Some (b', r') ->
    (length r' < length body')%nat) as IH' by (intros; eapply IH; [|done|done]; simpl; lia).
  destruct (decide (c = backslash)); destruct body as [|d body]; try case_decide; intros Heq; simplify_eq;
    try (simpl in *; lia); try done.
  - destruct (parseQuoted body) as [[b' r']|] eqn:E; [|done]. injection Heq as <- <-. apply IH' in E; simpl in *; lia.
  - destruct (parseQuoted (d :: body)) as [[b' r']|] eqn:E; [|done]. injection Heq as <- <-. apply IH' in E; simpl in *; lia.
Qed.

Lemma parseBare_length body b r : parseBare body = Some (b, r) -> (length r <= length body)%nat.
Proof.
  revert b r; induction body as [|c body IH]; intros b r; cbn [parseBare].
  - by intros [= <- <-].
  - case_decide; [by intros [= <- <-]|]. case_decide; [done|].
    destruct (parseBare body) as [[b' r']|]; simpl; [|done]. intros [= <- <-].
    specialize (IH _ _ eq_refl). lia.
Qed.

Lemma parseElems_fuel fuel s body elems p :
  (length body < fuel)%nat -> parseElems fuel s body elems <> Panic p.
Proof.
  revert body elems. induction fuel as [|fuel IH]; intros body elems Hf; [lia|]. cbn [parseElems].
  pose proof (trim_left_set_length isArraySpace body) as Hb.
  set (body' := trim_left_set isArraySpace body) in *. clearbody body'.
  assert (forall es rest, (length rest <= length body')%nat ->
    match trim_left_set isArraySpace rest with
    | [] => Ok es
    | c :: r => if decide (c = comma) then parseElems fuel s r es else Err (malformed s)
    end <> Panic p) as Hafter.
  { intros es rest Hrest. pose proof (trim_left_set_length isArraySpace rest).
    destruct (trim_left_set isArraySpace rest) as [|c r]; [done|]. case_decide; [|done].
    apply IH. simpl in *. lia. }
  assert (match parseBare body' with
    | None => Err (malformed s)
    | Some (tok, rest) =>
        let tok := Trim tok isArraySpace in
        if decide (tok = []) then Err (malformed s)
        else match trim_left_set isArraySpace rest with
          | [] => Ok (elems ++ [if EqualFold tok (go "null") then None else Some tok])
          | c :: r => if decide (c = comma)
              then parseElems fuel s r (elems ++ [if EqualFold tok (go "null") then None else Some tok])
              else Err (malformed s)
          end
    end <> Panic p) as Hbare.
  { destruct (parseBare body') as [[tok rest]|] eqn:E; [|done]. apply parseBare_length in E.
    cbv zeta. case_decide; [done|]. by apply Hafter. }
  destruct body' as [|c rest]; [done|]. case_decide; [done|]. case_decide; [|done].
  destruct (parseQuoted rest) as [[b r]|] eqn:E; [|done]. apply parseQuoted_length in E.
  apply Hafter. simpl. lia.
Qed.

Lemma ParseTextArray_no_panic s p : ParseTextArray s <> Panic p.
Proof.
  unfold ParseTextArray. case_decide; [|done]. case_decide; [done|]. apply parseElems_fuel. lia.
Qed.

(** ** UUID lemmas *)

Lemma hexdigit_solid n : (0 <= n < 16)%Z -> solid (hexdigit n).
Proof.
  intros Hn. unfold solid, hexdigit. destruct (Z.ltb_spec n 10); rewrite z2b_small by lia;
    (split; [lia|]); unfold isSpace; lia.
Qed.

Lemma ParseUUID_length s b : ParseUUID s = Ok b -> length b = 16.
Proof.
  unfold ParseUUID. cbv zeta. destruct (if decide (length (TrimSpace s) = 36) then _ else _) as [t|]; [|done].
  destruct (decide (length t <> 32)) as [|Hl]; [done|].
  destruct (unhex t) as [b'|] eqn:E; [|done]. intros [= <-]. apply unhex_length in E. lia.
Qed.

Lemma ParseUUID_no_panic s p : ParseUUID s <> Panic p.
Proof. unfold ParseUUID. cbv zeta. by repeat case_match. Qed.

Lemma ParseUUID_Format b : length b = 16 -> ParseUUID (FormatUUID b) = Ok b.
Proof.
  intros Hl. do 17 (destruct b as [|? b]; [done || clear Hl|]); [|done].
  unfold FormatUUID. rewrite decide_False by (simpl; lia).
  assert (forall z, (0 <= b2z z / 16 < 16)%Z /\ (0 <= b2z z mod 16 < 16)%Z) as Hd
    by (intros z; pose proof (b2z_range z); div_lia).
  cbn [take drop hex mbind list_bind app go String.list_byte_of_string].
  unfold ParseUUID.
  match goal with |- context [TrimSpace ?s] => assert (TrimSpace s = s) as -> end.
  { eapply TrimSpace_id; [reflexivity|reflexivity|apply hexdigit_solid, Hd..]. }
  cbv zeta. rewrite decide_True by done. rewrite decide_True by done.
  cbn [take drop app]. rewrite decide_False by (simpl; lia).
  match goal with |- match unhex ?s with _ => _ end = Ok ?t => change s with (hex t) end.
  by rewrite unhex_hex.
Qed.

(** ** The codecs' contracts *)

(** canonical array text: what a write path stores for a literal reads
    back as the literal's elements, canonicalizes to itself, and is stored
    for exactly the literals with those elements, so string equality of
    stored values is element-wise equality. *)
Theorem CanonTextArray_canonical s es : ParseTextArray s = Ok es ->
  exists c, CanonTextArray s = Ok c /\ ParseTextArray c = Ok es /\ CanonTextArray c = Ok c /\
    forall t, CanonTextArray t = Ok c <-> ParseTextArray t = Ok es.
Proof.
  intros Hs. exists (FormatTextArray es). unfold CanonTextArray.
  rewrite Hs, !ParseTextArray_Format. simpl. split_and!; [done..|]. intros t.
  destruct (ParseTextArray t) as [es'| |]; simpl; [|done..].
  split; [|by intros [= ->]]. intros [= H]%(f_equal (λ o, x ← o; ParseTextArray x)).
  rewrite !ParseTextArray_Format in H. by simplify_eq.
Qed.

Lemma CanonTextArray_canonical_witness :
  ParseTextArray (go "{ b a, NULL }") = Ok [Some (go "b a"); None] /\
  exists c, CanonTextArray (go "{ b a, NULL }") = Ok c /\
    ParseTextArray c = Ok [Some (go "b a"); None] /\ CanonTextArray c = Ok c /\
    forall t, CanonTextArray t = Ok c <-> ParseTextArray t = Ok [Some (go "b a"); None].
Proof. split; [reflexivity|]. apply CanonTextArray_canonical. reflexivity. Defined.

(** every accepted UUID spelling gives sixteen bytes, whose canonical
    text reads back as those bytes. *)
Theorem ParseUUID_roundtrip s b : ParseUUID s = Ok b ->
  length b = 16 /\ ParseUUID (FormatUUID b) = Ok b /\ length (FormatUUID b) = 36.
Proof.
  intros Hb%ParseUUID_length. split_and!; [done|by apply ParseUUID_Format|].
  unfold FormatUUID. rewrite decide_False by lia. rewrite !length_app, !hex_length.
  repeat (rewrite length_take || rewrite length_drop). rewrite Hb. simpl. lia.
Qed.

Lemma ParseUUID_roundtrip_witness : exists b,
  ParseUUID (go " 00112233-4455-6677-8899-AABBCCDDEEFF") = Ok b /\
  FormatUUID b = go "00112233-4455-6677-8899-aabbccddeeff" /\
  length b = 16 /\ ParseUUID (FormatUUID b) = Ok b /\ length (FormatUUID b) = 36.
Proof.
  eexists. split; [vm_compute; reflexivity|]. split; [vm_compute; reflexivity|].
  apply (ParseUUID_roundtrip (go " 00112233-4455-6677-8899-AABBCCDDEEFF")). vm_compute. reflexivity.
Defined.
