(* ===== verification/JsonbOps.v ===== *)
(** * The jsonb operators

    [sql/jsonb_ops.go]: a jsonb value is its canonical text, and every
    operator parses it, works on the decoded document and renders the
    result. Decoded objects are sorted member lists ([canonJ]). *)
From S2P Require Import Prelude GoVal GoStr GoFloat Json Jsonb Types.

Local Open Scope Z_scope.

Definition parseJSONB (s : bytes) : outcome json :=
  match parseJSON s with Some v => Ok (canonJ v) | None => Err errJSON end.
Definition renderJSONB (v : json) : bytes := printJSON false v.

(** ** Accessors *)

Definition jsonbGet (doc : json) (key : any) : option json :=
  match key, doc with
  | AString k, JObj m => jassoc k m
  | AInt KInt64 k, JArr a =>
      let i := if k <? 0 then k + Z.of_nat (length a) else k in
      if (0 <=? i) && (i <? Z.of_nat (length a)) then a !! Z.to_nat i else None
  | _, _ => None
  end.

Fixpoint jsonbGetPath (cur : json) (path : list textElem) : option json :=
  match path with
  | [] => Some cur
  | None :: _ => None
  | Some key :: path' =>
      match cur with
      | JObj m => v ← jassoc key m; jsonbGetPath v path'
      | JArr c =>
          n ← ParseInt (TrimSpace key);
          let n := if n <? 0 then n + Z.of_nat (length c) else n in
          if (n <? 0) || (Z.of_nat (length c) <=? n) then None
          else v ← c !! Z.to_nat n; jsonbGetPath v path'
      | _ => None
      end
  end.

(** [->>] and [#>>]: SQL NULL for JSON null, the content of a string. *)
Definition jsonbAsText (v : json) : any :=
  match v with
  | JNull => ANil
  | JStr s => AString s
  | _ => AString (renderJSONB v)
  end.

(** ** Concatenation and deletion *)

Definition jsonbConcatVals (l r : json) : json :=
  match l, r with
  | JObj lm, JObj rm => JObj (foldl (λ acc kv, oset kv.1 kv.2 acc) lm rm)
  | _, _ =>
      JArr (match l with JArr a => a | _ => [l] end ++ match r with JArr a => a | _ => [r] end)
  end.

Definition errDeleteScalar : error := ENew (go "cannot delete from scalar").
Definition errDeleteObject : error := ENew (go "cannot delete from object using integer index").
Definition errDeleteKey : error := ENew (go "jsonb - requires a text key or an integer index").
Definition isStr (k : bytes) (e : json) : bool := match e with JStr s => bool_decide (s = k) | _ => false end.

Definition jsonbDeleteVal (doc : json) (key : any) : outcome json :=
  match key with
  | AString k =>
      match doc with
      | JObj c => Ok (JObj (filter (λ kv, kv.1 <> k) c))
      | JArr c => Ok (JArr (filter (λ e, isStr k e = false) c))
      | _ => Err errDeleteScalar
      end
  | AInt KInt64 k =>
      match doc with
      | JArr a =>
          let i := if k <? 0 then k + Z.of_nat (length a) else k in
          if (i <? 0) || (Z.of_nat (length a) <=? i) then Ok (JArr a)
          else Ok (JArr (take (Z.to_nat i) a ++ drop (S (Z.to_nat i)) a))
      | JObj _ => Err errDeleteObject
      | _ => Err errDeleteScalar
      end
  | _ => Err errDeleteKey
  end.

(** ** The value operators *)

Inductive jsonbOp := JArrow | JArrowText | JPath | JPathText | JConcat | JMinus.
Definition errJsonbLeft : error := ENew (go "jsonb operator requires a jsonb left operand").
Definition errJsonbPath : error := ENew (go "jsonb path operator requires a text[] right operand").
Definition errJsonbRight : error := ENew (go "jsonb || requires a jsonb right operand").

Definition jsonbArith (op : jsonbOp) (l r : any) : outcome any :=
  match l with
  | AString ls =>
      doc ← parseJSONB ls;
      match op with
      | JArrow | JArrowText =>
          match jsonbGet doc r with
          | None => Ok ANil
          | Some sub => Ok (match op with JArrowText => jsonbAsText sub | _ => AString (renderJSONB sub) end)
          end
      | JPath | JPathText =>
          match r with
          | AString rs =>
              path ← ParseTextArray rs;
              match jsonbGetPath doc path with
              | None => Ok ANil
              | Some sub => Ok (match op with JPathText => jsonbAsText sub | _ => AString (renderJSONB sub) end)
              end
          | _ => Err errJsonbPath
          end
      | JConcat =>
          match r with
          | AString rs => other ← parseJSONB rs; Ok (AString (renderJSONB (jsonbConcatVals doc other)))
          | _ => Err errJsonbRight
          end
      | JMinus => out ← jsonbDeleteVal doc r; Ok (AString (renderJSONB out))
      end
  | _ => Err errJsonbLeft
  end.

(** ** Numbers *)

(** [big.Rat.SetString] on a JSON number: [Some (m, e)] is m * 10^e. It
    gives up on exponents that do not fit an [int64], and on scales beyond a
    million unless the mantissa is zero. *)
Definition ratString (s : bytes) : option (Z * Z) :=
  let '(sign, s) := numSign isMinus s in
  let '(ip, s) := span digit s in
  let '(fp, s) := match s with c :: s' => if bool_decide (c = x2e) then span digit s' else ([], s) | [] => ([], s) end in
  exp ← match s with [] => Some 0 | _ :: s' => ParseInt s' end;
  m ← undigits (ip ++ fp);
  let m := match sign with [] => m | _ => - m end in
  let e := exp - Z.of_nat (length fp) in
  if m =? 0 then Some (0, 0)
  else if bool_decide (Z.abs e <= 1000000) then Some (m, e) else None.
(** [Rat.Cmp] is 0. *)
Definition ratEq (x y : Z * Z) : bool :=
  let e := Z.min x.2 y.2 in x.1 * 10 ^ (x.2 - e) =? y.1 * 10 ^ (y.2 - e).

Definition numEqual (a b : bytes) : bool :=
  match ratString a, ratString b with
  | Some x, Some y => ratEq x y
  | _, _ => bool_decide (a = b)
  end.

(** ** Containment *)

Fixpoint jsonbEqual (a b : json) : bool :=
  match a, b with
  | JObj am, JObj bm => (length am =? length bm)%nat &&
      forallb (λ '(k, x), match jassoc k bm with Some y => jsonbEqual x y | None => false end) am
  | JArr al, JArr bl => (length al =? length bl)%nat &&
      (fix each al bl := match al, bl with x :: al', y :: bl' => jsonbEqual x y && each al' bl' | _, _ => true end) al bl
  | JNum x, JNum y => numEqual x y
  | JStr x, JStr y => bool_decide (x = y)
  | JBool x, JBool y => Bool.eqb x y
  | JNull, JNull => true
  | _, _ => false
  end.

Fixpoint jsonbContains (a b : json) (top : bool) : bool :=
  match b with
  | JObj bm =>
      match a with
      | JObj am => forallb (λ '(k, sub), match jassoc k am with Some x => jsonbContains x sub false | None => false end) bm
      | _ => false
      end
  | JArr bl =>
      match a with
      | JArr al => forallb (λ be, existsb (λ ae,
            match be with
            | JObj _ => match ae with JObj _ => jsonbContains ae be false | _ => false end
            | JArr _ => match ae with JArr _ => jsonbContains ae be false | _ => false end
            | _ => jsonbEqual ae be
            end) al) bl
      | _ => false
      end
  | _ =>
      match a with
      | JArr al => if top then existsb (λ ae, jsonbEqual ae b) al else jsonbEqual a b
      | _ => jsonbEqual a b
      end
  end.
Definition jsonbElemMatch (ae be : json) : bool :=
  match be with
  | JObj _ => match ae with JObj _ => jsonbContains ae be false | _ => false end
  | JArr _ => match ae with JArr _ => jsonbContains ae be false | _ => false end
  | _ => jsonbEqual ae be
  end.

Definition jsonbKeyExists (doc : json) (key : bytes) : bool :=
  match doc with
  | JObj c => match jassoc key c with Some _ => true | None => false end
  | JArr c => existsb (isStr key) c
  | JStr c => bool_decide (c = key)
  | _ => false
  end.

Inductive jsonbPredOp := JContains | JContainedBy | JKeyExists | JKeyExistsAny | JKeyExistsAll.
Definition jsonbPredicate (op : jsonbPredOp) (doc arg : bytes) : outcome bool :=
  d ← parseJSONB doc;
  match op with
  | JContains => o ← parseJSONB arg; Ok (jsonbContains d o true)
  | JContainedBy => o ← parseJSONB arg; Ok (jsonbContains o d true)
  | JKeyExists => Ok (jsonbKeyExists d arg)
  | JKeyExistsAny =>
      keys ← ParseTextArray arg;
      Ok (existsb (λ k, match k with Some s => jsonbKeyExists d s | None => false end) keys)
  | JKeyExistsAll =>
      keys ← ParseTextArray arg;
      Ok (forallb (λ k, match k with Some s => jsonbKeyExists d s | None => false end) keys)
  end.

(** ** Documents of jsonb values *)

(** A document as it is decoded from a jsonb value, at most [d] deep. *)
Definition cdoc (d : nat) (v : json) : Prop := jok d v /\ cleanJ v = v /\ canonJ v = v.

Lemma parseJSONB_cdoc s v : parseJSONB s = Ok v -> cdoc maxNestingDepth v.
Proof.
  unfold parseJSONB. destruct (parseJSON s) as [w|] eqn:E; [|done]. intros [= <-]. apply parseJSON_ok in E as [Hj Hc].
  split_and!; [by apply canonJ_jok|by apply canonJ_clean|apply canonJ_idem].
Qed.
Lemma render_cdoc v : cdoc maxNestingDepth v -> parseJSONB (renderJSONB v) = Ok v /\ CanonJSONB (renderJSONB v) = Ok (renderJSONB v).
Proof.
  intros (Hj & Hc & Hn). unfold parseJSONB, CanonJSONB, renderJSONB. by rewrite parseJSON_print, Hc, Hn.
Qed.
Lemma jok_weaken d d' v : (d <= d')%nat -> jok d v -> jok d' v.
Proof.
  revert d d'. induction v as [| | | |l IH|m IH] using json_ind'; intros d d' Hd H; inversion H; subst; try (by constructor).
  - destruct d' as [|d']; [lia|]. constructor. rewrite Forall_forall in *. intros x Hx. eapply IH; [done| |by auto]. lia.
  - destruct d' as [|d']; [lia|]. constructor. rewrite Forall_forall in *. intros x Hx. eapply IH; [done| |by auto]. lia.
Qed.
Lemma cdoc_weaken d d' v : (d <= d')%nat -> cdoc d v -> cdoc d' v.
Proof. intros Hd (H1 & H2 & H3). split_and!; [by eapply jok_weaken|done..]. Qed.

Lemma fmap_id_Forall {A : Type} (f : A -> A) l : f <$> l = l <-> Forall (λ x, f x = x) l.
Proof. split; [|apply Forall_fmap_id]. induction l as [|x l IH]; cbn; [constructor|]. intros [=]. constructor; auto. Qed.

Lemma cdoc_arr d l : cdoc (S d) (JArr l) <-> Forall (cdoc d) l.
Proof.
  unfold cdoc. split.
  - intros (Hj & Hc & Hn). inversion_clear Hj as [| | | |? ? Hl|]. injection Hc as Hc%fmap_id_Forall. injection Hn as Hn%fmap_id_Forall.
    rewrite Forall_forall in *. auto.
  - intros H. split_and!.
    + constructor. eapply Forall_impl; [exact H|]. by intros x (? & ? & ?).
    + cbn. f_equal. apply fmap_id_Forall. eapply Forall_impl; [exact H|]. by intros x (? & ? & ?).
    + cbn. f_equal. apply fmap_id_Forall. eapply Forall_impl; [exact H|]. by intros x (? & ? & ?).
Qed.
Lemma fmap_keys_sorted (f : json -> json) m : sortedM m -> sortedM ((λ kv, (kv.1, f kv.2)) <$> m).
Proof.
  induction m as [|kv m IH]; [done|]. rewrite sorted_cons_keys. intros [Hk Hs]. cbn. apply sorted_cons_keys. split; [|auto].
  cbn. intros x Hx. apply Hk. by rewrite <- list_fmap_compose in Hx.
Qed.
Lemma cdoc_obj d m : cdoc (S d) (JObj m) <-> sortedM m /\ Forall (λ kv, clean kv.1 = kv.1 /\ cdoc d kv.2) m.
Proof.
  unfold cdoc. rewrite cleanJ_obj, canonJ_obj. split.
  - intros (Hj & Hc & Hn). inversion_clear Hj as [| | | | |? ? Hm]. injection Hc as Hc%fmap_id_Forall. injection Hn as Hn.
    assert (sortedM m) as Hs by (rewrite <- Hn; apply toMap_sorted). split; [done|].
    rewrite toMap_sorted_id in Hn by (by apply fmap_keys_sorted). apply fmap_id_Forall in Hn.
    rewrite Forall_forall in *. intros [k v] Hkv. specialize (Hc _ Hkv). specialize (Hn _ Hkv). specialize (Hm _ Hkv).
    unfold canonM in Hn. cbn in *. by simplify_eq.
  - intros [Hs Hm]. assert (canonM <$> m = m) as Hn.
    { apply fmap_id_Forall. eapply Forall_impl; [exact Hm|]. intros [k v] [_ (_ & _ & H)]. unfold canonM. cbn in *. by rewrite H. }
    split_and!.
    + constructor. eapply Forall_impl; [exact Hm|]. by intros [k v] [_ (? & _)].
    + f_equal. apply fmap_id_Forall. eapply Forall_impl; [exact Hm|]. intros [k v] [H1 (_ & H2 & _)]. cbn in *. by rewrite H1, H2.
    + by rewrite Hn, toMap_sorted_id.
Qed.

(** ** The operators return canonical documents *)

Lemma jassoc_cdoc d k m v : cdoc (S d) (JObj m) -> jassoc k m = Some v -> cdoc d v.
Proof. rewrite cdoc_obj, Forall_forall. intros [_ H] Hk%jassoc_elem. by apply (H (k, v)). Qed.
Lemma lookup_cdoc d a i v : cdoc (S d) (JArr a) -> a !! i = Some v -> cdoc d v.
Proof. rewrite cdoc_arr, Forall_forall. intros H Hi%list_elem_of_lookup_2. by apply H. Qed.
Lemma cdoc_S d v : cdoc d v -> cdoc (S d) v.
Proof. apply cdoc_weaken. lia. Qed.

Lemma cdoc_container d v : cdoc d v -> match v with JArr _ | JObj _ => exists d', d = S d' | _ => True end.
Proof. intros (Hj & _). inversion Hj; eauto. Qed.
Lemma jsonbGet_cdoc d doc key v : cdoc d doc -> jsonbGet doc key = Some v -> cdoc d v.
Proof.
  intros Hd. pose proof (cdoc_container d doc Hd) as Hc. destruct key as [| |[] k| | |k| | | | |], doc as [| | | |a|m]; try done; destruct Hc as [d' ->].
  - cbn [jsonbGet]. cbv zeta. destruct (_ && _); [|done]. intros Hv. by eapply cdoc_S, lookup_cdoc.
  - intros Hv. by eapply cdoc_S, jassoc_cdoc.
Qed.
Lemma jsonbGetPath_cdoc d doc path v : cdoc d doc -> jsonbGetPath doc path = Some v -> cdoc d v.
Proof.
  revert doc. induction path as [|[key|] path IH]; intros doc Hd; [by intros [= <-]| |done]. pose proof (cdoc_container d doc Hd) as Hc.
  cbn [jsonbGetPath]. destruct doc as [| | | |a|m]; try done; destruct Hc as [d' ->].
  - intros (n & Hn & H)%bind_Some. cbv zeta in H. destruct (_ || _); [done|]. apply bind_Some in H as (w & Hw & H).
    eapply IH; [|exact H]. by eapply cdoc_S, lookup_cdoc.
  - intros (w & Hw & H)%bind_Some. eapply IH; [|exact H]. by eapply cdoc_S, jassoc_cdoc.
Qed.
Lemma jsonbDeleteVal_cdoc d doc key v : cdoc d doc -> jsonbDeleteVal doc key = Ok v -> cdoc d v.
Proof.
  intros Hd. pose proof (cdoc_container d doc Hd) as Hc. destruct key as [| |[] k| | |k| | | | |]; try done; destruct doc as [| | | |a|m]; try done; destruct Hc as [d' ->].
  - cbn [jsonbDeleteVal]. cbv zeta. destruct (_ || _); intros [= <-]; [done|]. rewrite cdoc_arr in *.
    apply Forall_app. split; [by apply Forall_take|by apply Forall_drop].
  - intros [= <-]. rewrite cdoc_arr in *. rewrite Forall_forall in *. intros x [_ Hx]%list_elem_of_filter. auto.
  - intros [= <-]. rewrite cdoc_obj in *. destruct Hd as [Hs Hm]. split; [by apply sorted_filter|].
    rewrite Forall_forall in *. intros x [_ Hx]%list_elem_of_filter. auto.
Qed.
Lemma concat_obj_cdoc d lm rm : cdoc d (JObj lm) -> cdoc d (JObj rm) -> cdoc d (jsonbConcatVals (JObj lm) (JObj rm)).
Proof.
  intros Hl Hr. destruct (cdoc_container _ _ Hl) as [d' ->]. cbn [jsonbConcatVals]. rewrite cdoc_obj in *. destruct Hl as [Sl Fl], Hr as [_ Fr].
  revert lm Sl Fl. induction Fr as [|[k v] rm Hkv Fr IH]; intros lm Sl Fl; [done|]. cbn [foldl]. apply IH; [by apply oset_sorted|].
  by apply oset_Forall.
Qed.
Lemma elements_cdoc d l : cdoc d l -> Forall (cdoc d) (match l with JArr a => a | _ => [l] end).
Proof.
  intros Hl. destruct l as [| | | |a|m]; try (by apply Forall_singleton). destruct (cdoc_container _ _ Hl) as [d' ->].
  eapply Forall_impl; [by apply cdoc_arr|apply cdoc_S].
Qed.
Lemma jsonbConcat_cdoc d l r : cdoc d l -> cdoc d r -> cdoc (S d) (jsonbConcatVals l r).
Proof.
  intros Hl Hr. assert (cdoc (S d) (JArr (match l with JArr a => a | _ => [l] end ++ match r with JArr a => a | _ => [r] end))) as H
    by (apply cdoc_arr, Forall_app; split; by apply elements_cdoc).
  destruct l, r; try exact H. by apply cdoc_S, concat_obj_cdoc.
Qed.

Definition jsonbResult (op : jsonbOp) : bool := match op with JArrowText | JPathText => false | _ => true end.

(** What an operator that returns jsonb returns is NULL or a canonical text:
    of the part of the operand it names, of the operand without it, or of
    the concatenation, as long as that does not nest too deep. *)
Lemma jsonbArith_canonical op l r v : jsonbArith op l r = Ok v -> jsonbResult op = true ->
  v = ANil \/ exists doc, v = AString (renderJSONB doc) /\ (op <> JConcat -> cdoc maxNestingDepth doc) /\ cdoc (S maxNestingDepth) doc.
Proof.
  unfold jsonbArith. destruct l as [| | | | |ls| | | | |]; try done. intros (doc & Hd%parseJSONB_cdoc & H)%outcome_bind_ok Hop.
  assert (forall w, cdoc maxNestingDepth w -> AString (renderJSONB w) = v -> v = ANil \/ exists doc, v = AString (renderJSONB doc) /\
    (op <> JConcat -> cdoc maxNestingDepth doc) /\ cdoc (S maxNestingDepth) doc) as Hw.
  { intros w Hw <-. right. exists w. split_and!; [done..|by apply cdoc_S]. }
  destruct op; try done.
  - destruct (jsonbGet doc r) as [w|] eqn:E; [|injection H; by left]. injection H as H. eapply Hw; [|exact H]. by eapply jsonbGet_cdoc.
  - destruct r as [| | | | |rs| | | | |]; try done. apply outcome_bind_ok in H as (path & _ & H).
    destruct (jsonbGetPath doc path) as [w|] eqn:E; [|injection H; by left]. injection H as H. eapply Hw; [|exact H]. by eapply jsonbGetPath_cdoc.
  - destruct r as [| | | | |rs| | | | |]; try done. apply outcome_bind_ok in H as (other & Ho%parseJSONB_cdoc & [= <-]).
    right. eexists. split_and!; [done|done|by apply jsonbConcat_cdoc].
  - apply outcome_bind_ok in H as (w & E & [= H]). eapply Hw; [|exact H]. by eapply jsonbDeleteVal_cdoc.
Qed.

(** ** Equality and containment *)

Lemma ratEq_scaled x y e : e <= Z.min x.2 y.2 -> ratEq x y = (x.1 * 10 ^ (x.2 - e) =? y.1 * 10 ^ (y.2 - e)).
Proof.
  intros He. unfold ratEq. cbv zeta. set (k := Z.min x.2 y.2) in *.
  replace (x.2 - e) with ((x.2 - k) + (k - e)) by lia. replace (y.2 - e) with ((y.2 - k) + (k - e)) by lia.
  rewrite !Z.pow_add_r by lia. assert (0 < 10 ^ (k - e)) by (apply Z.pow_pos_nonneg; lia).
  apply Bool.eq_iff_eq_true. rewrite !Z.eqb_eq, !Z.mul_assoc. split; [by intros ->|]. intros H'%Z.mul_reg_r; [done|lia].
Qed.
Lemma ratEq_trans x y z : ratEq x y = true -> ratEq y z = true -> ratEq x z = true.
Proof.
  set (e := Z.min x.2 (Z.min y.2 z.2)). rewrite !(ratEq_scaled _ _ e) by lia. rewrite !Z.eqb_eq. congruence.
Qed.
Lemma numEqual_refl a : numEqual a a = true.
Proof. unfold numEqual. destruct (ratString a); [apply Z.eqb_refl|by apply bool_decide_eq_true]. Qed.
Lemma numEqual_trans a b c : numEqual a b = true -> numEqual b c = true -> numEqual a c = true.
Proof.
  unfold numEqual. destruct (ratString a) eqn:Ea, (ratString b) eqn:Eb, (ratString c) eqn:Ec;
    rewrite ?bool_decide_eq_true; try (by intros; simplify_eq); apply ratEq_trans.
Qed.

Lemma forallb_elem {A : Type} (f : A -> bool) l : forallb f l = true <-> forall x, x ∈ l -> f x = true.
Proof. rewrite forallb_forall. by setoid_rewrite list_elem_of_In. Qed.
Lemma existsb_elem {A : Type} (f : A -> bool) l : existsb f l = true <-> exists x, x ∈ l /\ f x = true.
Proof. rewrite existsb_exists. by setoid_rewrite list_elem_of_In. Qed.
Lemma sorted_jassoc m k v : sortedM m -> (k, v) ∈ m -> jassoc k m = Some v.
Proof.
  induction m as [|[k' v'] m IH]; [by intros _ ?%elem_of_nil|]. rewrite sorted_cons_keys. intros [Hk Hs] [[= -> ->]|Hin]%elem_of_cons; cbn.
  - by rewrite decide_True.
  - rewrite decide_False; [auto|]. intros ->. apply (blt_irrefl k'), Hk. apply list_elem_of_fmap. by exists (k', v).
Qed.

Lemma jsonbEqual_arr al bl : jsonbEqual (JArr al) (JArr bl) = true <-> Forall2 (λ x y, jsonbEqual x y = true) al bl.
Proof.
  cbn [jsonbEqual]. rewrite andb_true_iff, Nat.eqb_eq. revert bl. induction al as [|x al IH]; intros [|y bl].
  - split; [constructor|by split].
  - split; [by intros [? _]|by inversion 1].
  - split; [by intros [? _]|by inversion 1].
  - rewrite andb_true_iff. split.
    + intros (Hl & Hx & H). constructor; [done|]. apply IH. cbn in Hl. split; [lia|done].
    + inversion_clear 1 as [|? ? ? ? Hx H2]. apply IH in H2 as [Hl H2]. cbn. split_and!; [lia|done..].
Qed.
Lemma jsonbEqual_obj am bm : jsonbEqual (JObj am) (JObj bm) = true <-> length am = length bm /\
  forall k x, (k, x) ∈ am -> exists y, jassoc k bm = Some y /\ jsonbEqual x y = true.
Proof.
  cbn [jsonbEqual]. rewrite andb_true_iff, Nat.eqb_eq, forallb_elem. split; intros [Hl H]; (split; [done|]).
  - intros k x Hx. specialize (H (k, x) Hx). cbn in H. destruct (jassoc k bm) as [y|]; [by exists y|done].
  - intros [k x] Hx. destruct (H k x Hx) as (y & -> & Hy). done.
Qed.
Lemma jsonbEqual_refl d v : cdoc d v -> jsonbEqual v v = true.
Proof.
  revert d. induction v as [|b|t|s|l IH|m IH] using json_ind'; intros d Hd; cbn.
  - done.
  - apply Bool.eqb_reflx.
  - apply numEqual_refl.
  - by apply bool_decide_eq_true.
  - apply jsonbEqual_arr. destruct (cdoc_container _ _ Hd) as [d' ->]. apply cdoc_arr in Hd.
    clear -IH Hd. induction Hd as [|x l Hx _ IHl]; [constructor|]. apply Forall_cons in IH as [Hi IH]. constructor; eauto.
  - apply jsonbEqual_obj. split; [done|]. destruct (cdoc_container _ _ Hd) as [d' ->]. apply cdoc_obj in Hd as [Hs Hm].
    intros k x Hx. exists x. split; [by apply sorted_jassoc|]. rewrite Forall_forall in IH, Hm. apply (IH _ Hx d'). by apply Hm in Hx as [_ ?].
Qed.
Lemma jsonbEqual_trans a b c : jsonbEqual a b = true -> jsonbEqual b c = true -> jsonbEqual a c = true.
Proof.
  revert b c. induction a as [|x|x|x|al IH|am IH] using json_ind'; intros [|y|y|y|bl|bm] [|z|z|z|cl|cm]; try done.
  - cbn. rewrite !Bool.eqb_true_iff. congruence.
  - apply numEqual_trans.
  - cbn. rewrite !bool_decide_eq_true. congruence.
  - rewrite !jsonbEqual_arr. intros H1. revert cl. induction H1 as [|x y al bl Hxy _ IHl]; inversion_clear 1; [constructor|].
    apply Forall_cons in IH as [Hi IH]. constructor; eauto.
  - rewrite !jsonbEqual_obj. intros [L1 H1] [L2 H2]. split; [congruence|]. intros k x Hx.
    destruct (H1 k x Hx) as (y & Hy & Exy). destruct (H2 k y (jassoc_elem _ _ _ Hy)) as (z & Hz & Eyz).
    exists z. split; [done|]. rewrite Forall_forall in IH. by apply (IH _ Hx y z).
Qed.

Definition scalar_doc (v : json) : bool := match v with JArr _ | JObj _ => false | _ => true end.
Lemma jsonbEqual_scalar a b : jsonbEqual a b = true -> scalar_doc a = scalar_doc b.
Proof. by destruct a, b. Qed.
Lemma jsonbContains_obj am bm top : jsonbContains (JObj am) (JObj bm) top = true <->
  forall k y, (k, y) ∈ bm -> exists x, jassoc k am = Some x /\ jsonbContains x y false = true.
Proof.
  cbn [jsonbContains]. rewrite forallb_elem. split; intros H.
  - intros k y Hy. specialize (H _ Hy). cbn in H. destruct (jassoc k am) as [x|]; [by exists x|done].
  - intros [k y] Hy. destruct (H k y Hy) as (x & -> & Hx). done.
Qed.
Lemma jsonbContains_arr al bl top : jsonbContains (JArr al) (JArr bl) top = true <->
  forall be, be ∈ bl -> exists ae, ae ∈ al /\ jsonbElemMatch ae be = true.
Proof.
  cbn [jsonbContains]. rewrite forallb_elem. split; intros H be Hbe; specialize (H be Hbe).
  - apply existsb_elem in H as (ae & Hae & H). exists ae. split; [done|]. by destruct be.
  - apply existsb_elem. destruct H as (ae & Hae & H). exists ae. split; [done|]. by destruct be.
Qed.
Lemma jsonbContains_scalar a b top : scalar_doc b = true ->
  jsonbContains a b top = match a with JArr al => top && existsb (λ ae, jsonbEqual ae b) al | _ => jsonbEqual a b end.
Proof. by destruct b, a, top. Qed.
Lemma jsonbElemMatch_scalar ae be : scalar_doc be = true -> jsonbElemMatch ae be = jsonbEqual ae be.
Proof. by destruct be. Qed.
Lemma jsonbElemMatch_container ae be : scalar_doc be = false -> jsonbElemMatch ae be = jsonbContains ae be false.
Proof. by destruct be, ae. Qed.

Lemma jsonbContains_refl d v top : cdoc d v -> jsonbContains v v top = true.
Proof.
  revert d top. induction v as [|b|t|s|l IH|m IH] using json_ind'; intros d top Hd; try (by apply (jsonbEqual_refl d)).
  - destruct (cdoc_container _ _ Hd) as [d' ->]. apply cdoc_arr in Hd. apply jsonbContains_arr. intros be Hbe. exists be. split; [done|].
    rewrite Forall_forall in IH, Hd. destruct (scalar_doc be) eqn:Es; [rewrite jsonbElemMatch_scalar by done; eapply jsonbEqual_refl; eauto|].
    rewrite jsonbElemMatch_container by done. eauto.
  - destruct (cdoc_container _ _ Hd) as [d' ->]. apply cdoc_obj in Hd as [Hs Hm]. apply jsonbContains_obj. intros k y Hy. exists y.
    split; [by apply sorted_jassoc|]. rewrite Forall_forall in IH, Hm. apply (IH _ Hy d'). by apply Hm in Hy as [_ ?].
Qed.
Lemma jsonbElemMatch_trans ae be ce : (forall a b top, jsonbContains a b top = true -> jsonbContains b ce top = true -> jsonbContains a ce top = true) ->
  jsonbElemMatch ae be = true -> jsonbElemMatch be ce = true -> jsonbElemMatch ae ce = true.
Proof.
  intros IH. destruct (scalar_doc ce) eqn:Es.
  - rewrite !(jsonbElemMatch_scalar _ ce) by done. intros H1 H2. pose proof (jsonbEqual_scalar _ _ H2) as E. rewrite Es in E.
    rewrite jsonbElemMatch_scalar in H1 by done. by eapply jsonbEqual_trans.
  - rewrite !(jsonbElemMatch_container _ ce) by done. intros H1 H2.
    assert (scalar_doc be = false) as E by (by destruct be, ce). rewrite jsonbElemMatch_container in H1 by done. by eapply IH.
Qed.
Lemma jsonbContains_to_scalar a b c top : scalar_doc c = true -> jsonbContains a b top = true -> jsonbContains b c top = true ->
  jsonbContains a c top = true.
Proof.
  intros Hc H1. rewrite !(jsonbContains_scalar _ c) by done. destruct (scalar_doc b) eqn:Eb.
  - assert (jsonbContains b c top = jsonbEqual b c) as E by (rewrite jsonbContains_scalar by done; by destruct b).
    rewrite (jsonbContains_scalar _ c) in E by done. rewrite E. intros H2. rewrite jsonbContains_scalar in H1 by done.
    destruct a as [| | | |al|]; try (by eapply jsonbEqual_trans). apply andb_true_iff in H1 as [-> (ae & Hae & H1)%existsb_elem]. cbn.
    apply existsb_elem. exists ae. split; [done|]. by eapply jsonbEqual_trans.
  - destruct b as [| | | |bl|bm]; try done; [|by destruct c]. intros [-> (be & Hbe & H2)%existsb_elem]%andb_true_iff.
    destruct a as [| | | |al|]; try done. apply (jsonbContains_arr al bl) with (be := be) in H1 as (ae & Hae & H1); [|done].
    cbn. apply existsb_elem. exists ae. split; [done|]. pose proof (jsonbEqual_scalar _ _ H2) as E. rewrite Hc in E.
    rewrite jsonbElemMatch_scalar in H1 by done. by eapply jsonbEqual_trans.
Qed.
Lemma jsonbContains_trans a b c top : jsonbContains a b top = true -> jsonbContains b c top = true -> jsonbContains a c top = true.
Proof.
  revert a b top. induction c as [|x|x|x|cl IH|cm IH] using json_ind'; intros a b top; try (by apply jsonbContains_to_scalar).
  - destruct b as [| | | |bl|]; try done. destruct a as [| | | |al|]; try done. rewrite !jsonbContains_arr. intros H1 H2 ce Hce.
    destruct (H2 ce Hce) as (be & Hbe & E2). destruct (H1 be Hbe) as (ae & Hae & E1). exists ae. split; [done|].
    rewrite Forall_forall in IH. eapply jsonbElemMatch_trans; [|exact E1|exact E2]. intros a b t. by apply IH.
  - destruct b as [| | | | |bm]; try done. destruct a as [| | | | |am]; try done. rewrite !jsonbContains_obj. intros H1 H2 k z Hz.
    destruct (H2 k z Hz) as (y & Hy & E2). destruct (H1 k y (jassoc_elem _ _ _ Hy)) as (x & Hx & E1). exists x. split; [done|].
    rewrite Forall_forall in IH. by eapply (IH _ Hz).
Qed.

(** C39: [@>] is a preorder on documents: every document contains itself, and
    what is contained in a contained document is contained; [<@] is its
    converse. Malformed operands are errors, and nothing else is. *)
Theorem jsonb_containment_preorder a b c va vb vc : parseJSONB a = Ok va -> parseJSONB b = Ok vb -> parseJSONB c = Ok vc ->
  jsonbPredicate JContains a a = Ok true /\
  jsonbPredicate JContainedBy a b = jsonbPredicate JContains b a /\
  (jsonbPredicate JContains a b = Ok true -> jsonbPredicate JContains b c = Ok true -> jsonbPredicate JContains a c = Ok true).
Proof.
  intros Ha Hb Hc. unfold jsonbPredicate. rewrite Ha, Hb, Hc. cbn. split_and!.
  - by rewrite (jsonbContains_refl maxNestingDepth) by (by eapply parseJSONB_cdoc).
  - done.
  - intros [= H1] [= H2]. f_equal. by eapply jsonbContains_trans.
Qed.
Lemma jsonb_containment_preorder_witness :
  let doc k v := go "{" ++ quoted (go k) ++ go ":" ++ go v ++ go "}" in
  jsonbPredicate JContains (doc "a" "[1, 2.50]") (doc "a" "[2.5]") = Ok true /\
  jsonbPredicate JContains (doc "a" "[1, 2.50]") (doc "a" "[25e-1]") = Ok true.
Proof.
  split; [vm_compute; reflexivity|]. set (x := go "{" ++ quoted (go "a") ++ go ":[1, 2.50]}").
  set (y := go "{" ++ quoted (go "a") ++ go ":[2.5]}"). set (z := go "{" ++ quoted (go "a") ++ go ":[25e-1]}").
  eapply (jsonb_containment_preorder x y z); [vm_compute; reflexivity|vm_compute; reflexivity|vm_compute; reflexivity|vm_compute; reflexivity|vm_compute; reflexivity].
Defined.

(** Two spellings of one number that containment tells apart: the scale of
    the first is past what [big.Rat] reads. *)
Lemma big_scales_by_text : numEqual (go "1e1000001") (go "10e1000000") = false /\ numEqual (go "1e1000000") (go "10e999999") = true.
Proof. split; vm_compute; reflexivity. Qed.
