(* ===== verification/Catalog.v ===== *)
(** * Table descriptors and the key layout

    [engine.go]: the descriptor types, their lookups, and the keys of the
    one ordered key space everything lives in. *)
From S2P Require Import Prelude GoVal Tuple.

Local Open Scope Z_scope.

(** ** Constants *)

Definition sysIDSeqTableID : Z := 0.
Definition sysDescTableID : Z := 1.
Definition sysSeqTableID : Z := 2.
Definition sysViewTableID : Z := 3.
Definition firstUserTableID : Z := 100.
Definition primaryIndexID : Z := 1.
Definition identitySeqIndexID : Z := 2.
Definition descFormatVersion : Z := 1.

(** ** Descriptors *)

(** Column types; [TOther] is any string that names none. *)
Inductive ColType :=
  | TBool | TInt | TFloat | TString | TBytes | TTimestamp | TDate | TUUID | TTextArray | TJSONB
  | TOther (name : bytes).

#[export] Instance ColType_eq_dec : EqDecision ColType.
Proof. solve_decision. Defined.

Record Column := mkColumn {
  colName : bytes;
  colType : ColType;
  colID : Z;                 (* uint32 *)
  colNotNull : bool;
  colIdentity : bool;
  colDefault : bytes;
  colMaxLen : Z;
}.

Record CheckDesc := mkCheck { chkName : bytes; chkExpr : bytes }.

Record FKDesc := mkFK {
  fkName : bytes;
  fkCols : list nat;
  fkRefTable : bytes;
  fkRefCols : list bytes;
  fkOnDelete : bytes;
}.
Definition FKCascade : bytes := go "cascade".

Record IndexDesc := mkIndex {
  ixID : Z;                  (* uint64 *)
  ixName : bytes;
  ixCols : list nat;
  ixUnique : bool;
  ixDesc : list bool;        (* nil: all ascending *)
}.

Record TableDesc := mkTable {
  tFormatVersion : Z;
  tID : Z;                   (* uint64 *)
  tName : bytes;
  tColumns : list Column;
  tPKCols : list nat;
  tIndexes : list IndexDesc;
  tChecks : list CheckDesc;
  tForeignKeys : list FKDesc;
  tNextColID : Z;            (* uint32 *)
  tOrdByID : option (list Z); (* []int32; None is nil *)
}.

#[export] Instance Column_eq_dec : EqDecision Column.
Proof. solve_decision. Defined.
#[export] Instance CheckDesc_eq_dec : EqDecision CheckDesc.
Proof. solve_decision. Defined.
#[export] Instance FKDesc_eq_dec : EqDecision FKDesc.
Proof. solve_decision. Defined.
#[export] Instance IndexDesc_eq_dec : EqDecision IndexDesc.
Proof. solve_decision. Defined.
#[export] Instance TableDesc_eq_dec : EqDecision TableDesc.
Proof. solve_decision. Defined.

Definition DescAt (x : IndexDesc) (i : nat) : bool := default false (ixDesc x !! i).

(** [d.Index(name)]: the first index of that name. *)
Definition Index (d : TableDesc) (name : bytes) : option IndexDesc :=
  snd <$> list_find (λ x, ixName x = name) (tIndexes d).

(** Descriptors are values here, so [clone] only drops the lookup table. *)
Definition clone (d : TableDesc) : TableDesc :=
  mkTable (tFormatVersion d) (tID d) (tName d) (tColumns d) (tPKCols d) (tIndexes d)
    (tChecks d) (tForeignKeys d) (tNextColID d) None.

(** [-1] is [None]. *)
Definition ColIndex (d : TableDesc) (name : bytes) : option nat :=
  fst <$> list_find (λ c, colName c = name) (tColumns d).

Definition colOrdinalByID (d : TableDesc) (id : Z) : option nat :=
  match tOrdByID d with
  | Some t =>
      match t !! Z.to_nat id with
      | Some o => if o <? 0 then None else Some (Z.to_nat o)
      | None => None
      end
  | None => fst <$> list_find (λ c, colID c = id) (tColumns d)
  end.

(** The loop [t[d.Columns[i].ID] = int32(i)]. *)
Fixpoint ordByID_fill (t : list Z) (i : nat) (cols : list Column) : list Z :=
  match cols with
  | [] => t
  | c :: cols' => ordByID_fill (<[Z.to_nat (colID c) := Z.of_nat i]> t) (S i) cols'
  end.

Definition maxColID (cols : list Column) : Z := foldr (λ c m, Z.max (colID c) m) 0 cols.

Definition buildOrdByID (d : TableDesc) : TableDesc :=
  let maxID := maxColID (tColumns d) in
  if 4096 <? maxID then d
  else
    mkTable (tFormatVersion d) (tID d) (tName d) (tColumns d) (tPKCols d) (tIndexes d)
      (tChecks d) (tForeignKeys d) (tNextColID d)
      (Some (ordByID_fill (replicate (Z.to_nat (maxID + 1)) (-1)) 0 (tColumns d))).

Definition isPK (d : TableDesc) (ordinal : nat) : bool := bool_decide (ordinal ∈ tPKCols d).

(** ** Keys *)

(** [mustEncode] panics on an error; it is only given integers and strings,
    which always encode ([mustEncode_ok]). *)
Definition mustEncode (vals : list any) : bytes :=
  match Encode vals with Ok b => b | _ => [] end.

Definition tableSpace (tableID : Z) : bytes := mustEncode [AInt KInt64 (int64 tableID)].
Definition indexPrefix (tableID indexID : Z) : bytes :=
  mustEncode [AInt KInt64 (int64 tableID); AInt KInt64 (int64 indexID)].
Definition tablePrefix (tableID : Z) : bytes := indexPrefix tableID primaryIndexID.
Definition descTablePrefix : bytes := tablePrefix sysDescTableID.
Definition descKey (name : bytes) : bytes :=
  mustEncode [AInt KInt64 sysDescTableID; AInt KInt64 primaryIndexID; AString name].
Definition seqKey : bytes := mustEncode [AInt KInt64 sysIDSeqTableID].
Definition seqNameKey (name : bytes) : bytes :=
  mustEncode [AInt KInt64 sysSeqTableID; AInt KInt64 primaryIndexID; AString name].
Definition identitySeqKey (tableID colID : Z) : bytes :=
  mustEncode [AInt KInt64 sysSeqTableID; AInt KInt64 identitySeqIndexID;
              AInt KInt64 (int64 tableID); AInt KInt64 colID].
Definition identitySeqTablePrefix (tableID : Z) : bytes :=
  mustEncode [AInt KInt64 sysSeqTableID; AInt KInt64 identitySeqIndexID; AInt KInt64 (int64 tableID)].

(** Sequence objects ([seqobj.go]) and views ([view.go]) are keyed by name. *)
Definition sqlSeqIndexID : Z := 3.
Definition sqlSeqKey (name : bytes) : bytes :=
  mustEncode [AInt KInt64 sysSeqTableID; AInt KInt64 sqlSeqIndexID; AString name].
Definition sqlSeqPrefix : bytes := mustEncode [AInt KInt64 sysSeqTableID; AInt KInt64 sqlSeqIndexID].
Definition viewKey (name : bytes) : bytes :=
  mustEncode [AInt KInt64 sysViewTableID; AInt KInt64 primaryIndexID; AString name].

(** [string(tuple.PrefixEnd(prefix))]; a nil slice is the empty string. *)
Definition prefixEnd (prefix : bytes) : bytes := default [] (PrefixEnd prefix).

Definition rowKey (d : TableDesc) (pkVals : list any) : outcome bytes :=
  Append (tablePrefix (tID d)) pkVals.

(** [descKeyName]: the table name in a descriptor key. The fallback's [%q]
    quoting of a key that does not decode is not spelled out. *)
Definition descKeyName (k : bytes) : option bytes :=
  match Decode k with Ok [_; _; AString s] => Some s | _ => None end.

(** ** Key lemmas *)

Lemma canon_any_ok v : canon v -> any_ok v.
Proof. destruct v as [| |[]| | | | | | | |]; simpl; naive_solver. Qed.

Lemma Encode_canon vals : Forall canon vals -> Encode vals = Ok (elems vals).
Proof.
  intros Hc. rewrite Encode_spec, normals_canon_id; [done|done|].
  eapply Forall_impl; [done|]. apply canon_any_ok.
Qed.

(** The internal values a key is built from always encode. *)
Lemma mustEncode_ok vals : Forall canon vals -> mustEncode vals = elems vals.
Proof. intros Hc. unfold mustEncode. by rewrite Encode_canon. Qed.

Abbreviation kint z := (AInt KInt64 z).

Lemma canon_int64 z : canon (kint (int64 z)).
Proof. apply int64_range. Qed.
#[export] Hint Resolve canon_int64 : bytdb.

Lemma indexPrefix_elems t i : indexPrefix t i = elems [kint (int64 t); kint (int64 i)].
Proof. apply mustEncode_ok. repeat constructor; apply int64_range. Qed.
Lemma tablePrefix_elems t : tablePrefix t = elems [kint (int64 t); kint 1].
Proof.
  unfold tablePrefix. rewrite indexPrefix_elems, (int64_id primaryIndexID); [done|].
  unfold int64_ok, primaryIndexID. lia.
Qed.
Lemma tableSpace_elems t : tableSpace t = elems [kint (int64 t)].
Proof. apply mustEncode_ok. repeat constructor; apply int64_range. Qed.
Lemma descKey_elems name : descKey name = elems [kint 1; kint 1; AString name].
Proof. apply mustEncode_ok. repeat constructor; simpl; unfold int64_ok; lia. Qed.
Lemma seqNameKey_elems name : seqNameKey name = elems [kint 2; kint 1; AString name].
Proof. apply mustEncode_ok. repeat constructor; simpl; unfold int64_ok; lia. Qed.
Lemma seqKey_elems : seqKey = elems [kint 0].
Proof. apply mustEncode_ok. repeat constructor; simpl; unfold int64_ok; lia. Qed.
Lemma identitySeqKey_elems t c : uint32_ok c ->
  identitySeqKey t c = elems [kint 2; kint 2; kint (int64 t); kint c].
Proof.
  intros Hc. apply mustEncode_ok. unfold uint32_ok in Hc.
  repeat constructor; try apply int64_range; simpl; unfold int64_ok; lia.
Qed.
Lemma identitySeqTablePrefix_elems t :
  identitySeqTablePrefix t = elems [kint 2; kint 2; kint (int64 t)].
Proof. apply mustEncode_ok. repeat constructor; try apply int64_range; simpl; unfold int64_ok; lia. Qed.

Lemma sqlSeqKey_elems name : sqlSeqKey name = elems [kint 2; kint 3; AString name].
Proof. apply mustEncode_ok. repeat constructor; simpl; unfold int64_ok; lia. Qed.
Lemma sqlSeqPrefix_elems : sqlSeqPrefix = elems [kint 2; kint 3].
Proof. apply mustEncode_ok. repeat constructor; simpl; unfold int64_ok; lia. Qed.
Lemma viewKey_elems name : viewKey name = elems [kint 3; kint 1; AString name].
Proof. apply mustEncode_ok. repeat constructor; simpl; unfold int64_ok; lia. Qed.

(** A prefix range is the interval the scans and range deletes use; keys
    start with a tag, so the interval always has an end. *)
Lemma prefixEnd_interval p k : head p <> Some xff -> p <> [] ->
  (ble p k /\ blt k (prefixEnd p)) <-> p `prefix_of` k.
Proof.
  intros Hh Hp. unfold prefixEnd. destruct (PrefixEnd p) as [e|] eqn:E; simpl.
  - symmetry. by apply PrefixEnd_some.
  - pose proof (PrefixEnd_shape p) as Hs. rewrite E in Hs. by destruct p; simplify_eq/=.
Qed.

Lemma elem_head n : canon n -> head (elem n) <> Some xff.
Proof. by destruct n as [|[]|[]| | | | | | | |]. Qed.

Lemma elems_interval ns k : Forall canon ns -> ns <> [] ->
  (ble (elems ns) k /\ blt k (prefixEnd (elems ns))) <-> elems ns `prefix_of` k.
Proof.
  intros Hc Hne. destruct Hc as [|n ns Hn _]; [done|].
  pose proof (elem_nonempty n Hn). pose proof (elem_head n Hn).
  apply prefixEnd_interval; simpl; by destruct (elem n).
Qed.

Lemma indexPrefix_interval t i k :
  (ble (indexPrefix t i) k /\ blt k (prefixEnd (indexPrefix t i))) <-> indexPrefix t i `prefix_of` k.
Proof.
  rewrite indexPrefix_elems. apply elems_interval; [|done]. repeat constructor; apply int64_range.
Qed.

Lemma int64_inj a b : uint64_ok a -> uint64_ok b -> int64 a = int64 b -> a = b.
Proof.
  unfold uint64_ok, int64. intros Ha Hb Heq.
  assert ((a + 2 ^ 63) mod 2 ^ 64 = (b + 2 ^ 63) mod 2 ^ 64) as Hm by lia.
  destruct (Z.lt_ge_cases a (2 ^ 63)), (Z.lt_ge_cases b (2 ^ 63));
    repeat match goal with
    | H : ?x < 2 ^ 63 |- _ => rewrite (Z.mod_small (x + 2 ^ 63)) in Hm by lia; revert H
    | H : 2 ^ 63 <= ?x |- _ =>
        replace (x + 2 ^ 63) with (x - 2 ^ 63 + 1 * 2 ^ 64) in Hm by lia;
        rewrite (Z.mod_add (x - 2 ^ 63)), (Z.mod_small (x - 2 ^ 63)) in Hm by lia; revert H
    end; lia.
Qed.

(** An index's range lies in its table's space. *)
Lemma indexPrefix_space t i k : indexPrefix t i `prefix_of` k -> tableSpace t `prefix_of` k.
Proof.
  rewrite indexPrefix_elems, tableSpace_elems. intros [r ->]. exists (elems [kint (int64 i)] ++ r).
  by rewrite app_assoc, <- elems_app.
Qed.

(** Keys of different indexes, or of different tables, never meet. *)
Lemma indexPrefix_disjoint t i t' i' k :
  uint64_ok t -> uint64_ok i -> uint64_ok t' -> uint64_ok i' ->
  indexPrefix t i `prefix_of` k -> indexPrefix t' i' `prefix_of` k -> t = t' /\ i = i'.
Proof.
  intros Ht Hi Ht' Hi' [r ->] [r' E]. rewrite !indexPrefix_elems in E.
  apply elems_app_inj in E as [E _]; [|done|repeat constructor; apply int64_range..].
  injection E as E1 E2. auto using int64_inj.
Qed.

(** ** The descriptor's lookup table *)

Lemma list_find_NoDup {A B} `{EqDecision B} (f : A -> B) l i x :
  NoDup (f <$> l) -> l !! i = Some x -> list_find (λ y, f y = f x) l = Some (i, x).
Proof.
  intros Hnd Hi. apply list_find_Some. split_and!; [done|done|].
  intros j y Hj Hlt Hy.
  assert (j = i); [|lia]. eapply NoDup_lookup; [done| |].
  - rewrite list_lookup_fmap, Hj. simpl. by rewrite Hy.
  - by rewrite list_lookup_fmap, Hi.
Qed.

Lemma maxColID_ge cols c : c ∈ cols -> colID c <= maxColID cols.
Proof. induction 1; simpl; lia. Qed.
Lemma maxColID_nonneg cols : 0 <= maxColID cols.
Proof. induction cols; simpl; lia. Qed.

Lemma ordByID_fill_length t i cols : length (ordByID_fill t i cols) = length t.
Proof.
  revert t i; induction cols as [|c cols IH]; intros t i; simpl; [done|].
  by rewrite IH, length_insert.
Qed.

(** Slot [id] holds the ordinal of the last column with that ID. *)
Lemma ordByID_fill_lookup t i cols n : NoDup (colID <$> cols) -> Forall (λ c, 0 <= colID c) cols ->
  (forall c, c ∈ cols -> (Z.to_nat (colID c) < length t)%nat) ->
  ordByID_fill t i cols !! n =
    match list_find (λ c, colID c = Z.of_nat n) cols with
    | Some (j, _) => Some (Z.of_nat (i + j))
    | None => t !! n
    end.
Proof.
  intros Hnd Hpos. revert t i. induction cols as [|c cols IH]; intros t i Hlen; [done|].
  csimpl in Hnd. apply NoDup_cons in Hnd as [Hnin Hnd]. apply Forall_cons in Hpos as [Hc Hpos].
  cbn [ordByID_fill]. rewrite IH; [|done|done|].
  - cbn [list_find]. destruct (decide (colID c = Z.of_nat n)) as [E|E].
    + destruct (list_find (λ c0, colID c0 = Z.of_nat n) cols) as [[j c']|] eqn:Ef.
      * apply list_find_Some in Ef as (Hj & Hc' & _). destruct Hnin.
        apply list_elem_of_fmap. exists c'. split; [congruence|]. by eapply list_elem_of_lookup_2.
      * rewrite E, Nat2Z.id, list_lookup_insert_eq; [f_equal; lia|].
        specialize (Hlen c (list_elem_of_here _ _)). rewrite E, Nat2Z.id in Hlen. done.
    + destruct (list_find (λ c0, colID c0 = Z.of_nat n) cols) as [[j c']|]; simpl; [f_equal; lia|].
      apply list_lookup_insert_ne. lia.
  - intros c' Hc'. rewrite length_insert. apply Hlen. by right.
Qed.

(** The reference lookup: the first column with the ID. *)
Definition linearOrdinal (d : TableDesc) (id : Z) : option nat :=
  fst <$> list_find (λ c, colID c = id) (tColumns d).

Lemma buildOrdByID_columns d : tColumns (buildOrdByID d) = tColumns d.
Proof. unfold buildOrdByID. by destruct (4096 <? _). Qed.

Lemma buildOrdByID_lookup d id : NoDup (colID <$> tColumns d) ->
  Forall (λ c, uint32_ok (colID c)) (tColumns d) -> 0 <= id -> tOrdByID d = None ->
  colOrdinalByID (buildOrdByID d) id = linearOrdinal d id.
Proof.
  intros Hnd Hr Hid Hnone. unfold buildOrdByID, linearOrdinal.
  destruct (4096 <? maxColID (tColumns d)); unfold colOrdinalByID; [by rewrite Hnone|]. cbn [tOrdByID].
  pose proof (maxColID_nonneg (tColumns d)) as Hmax.
  rewrite ordByID_fill_lookup; [|done|eapply Forall_impl; [done|unfold uint32_ok; simpl; lia]|].
  - rewrite Z2Nat.id by done. destruct (list_find _ (tColumns d)) as [[j c]|]; simpl.
    + destruct (Z.ltb_spec (Z.of_nat j) 0); [lia|]. f_equal. lia.
    + destruct (replicate _ _ !! _) as [o|] eqn:E; [|done].
      apply lookup_replicate in E as [-> _]. done.
  - intros c Hc. pose proof (maxColID_ge _ _ Hc). rewrite Forall_forall in Hr.
    specialize (Hr c Hc). unfold uint32_ok in Hr. rewrite length_replicate. lia.
Qed.

(** ** Well-formed descriptors *)

(** The limit is only set on string columns ([validMaxLen]). *)
Definition maxlen_ok (c : Column) : Prop := 0 < colMaxLen c -> colType c = TString.

(** What DDL maintains about a descriptor. *)
Record desc_wf (d : TableDesc) : Prop := {
  wf_tID : firstUserTableID <= tID d < 2 ^ 64;
  wf_colID : NoDup (colID <$> tColumns d);
  wf_colID_range : Forall (λ c, uint32_ok (colID c)) (tColumns d);
  wf_colName : NoDup (colName <$> tColumns d);
  wf_pk_some : tPKCols d <> [];
  wf_pk_nodup : NoDup (tPKCols d);
  wf_pk_range : Forall (λ o, o < length (tColumns d))%nat (tPKCols d);
  wf_ixID : NoDup (ixID <$> tIndexes d);
  wf_ixID_range : Forall (λ x, primaryIndexID < ixID x < 2 ^ 64) (tIndexes d);
  wf_ixName : NoDup (ixName <$> tIndexes d);
  wf_ixCols : Forall (λ x, Forall (λ o, o < length (tColumns d))%nat (ixCols x)) (tIndexes d);
  wf_maxlen : Forall maxlen_ok (tColumns d);
  wf_ord : tOrdByID d = None \/ tOrdByID d = tOrdByID (buildOrdByID (clone d));
}.

Lemma colOrdinalByID_linear d id : desc_wf d -> 0 <= id -> colOrdinalByID d id = linearOrdinal d id.
Proof.
  intros Hwf Hid. destruct (wf_ord d Hwf) as [E|E].
  - unfold colOrdinalByID. by rewrite E.
  - transitivity (colOrdinalByID (buildOrdByID (clone d)) id).
    + unfold colOrdinalByID. rewrite <- E, buildOrdByID_columns. done.
    + by rewrite buildOrdByID_lookup by (done || apply Hwf).
Qed.

Lemma colOrdinalByID_column d i c : desc_wf d -> tColumns d !! i = Some c ->
  colOrdinalByID d (colID c) = Some i.
Proof.
  intros Hwf Hi. rewrite colOrdinalByID_linear; [|done|].
  - unfold linearOrdinal. by rewrite (list_find_NoDup colID _ i c) by (done || apply Hwf).
  - pose proof (wf_colID_range d Hwf) as Hr. rewrite Forall_lookup in Hr.
    specialize (Hr i c Hi). unfold uint32_ok in Hr. simpl in Hr. lia.
Qed.

(** the ID lookup table the descriptor parser builds answers as the
    linear scan it replaces does, for every ID, present or dropped. *)
Theorem buildOrdByID_linear d id : NoDup (colID <$> tColumns d) ->
  Forall (λ c, uint32_ok (colID c)) (tColumns d) -> uint32_ok id ->
  colOrdinalByID (buildOrdByID (clone d)) id = colOrdinalByID (clone d) id.
Proof.
  intros Hnd Hr [Hid _]. by rewrite (buildOrdByID_lookup (clone d)).
Qed.

(** The descriptor the examples use: [t (id int primary key, name string,
    score float)] with a unique index on [(name desc)] and one on [score]. *)
Definition exColumns : list Column :=
  [mkColumn (go "id") TInt 1 true false [] 0;
   mkColumn (go "name") TString 2 false false [] 4;
   mkColumn (go "score") TFloat 4 false false [] 0].
Definition exDesc : TableDesc :=
  mkTable 1 100 (go "t") exColumns [0%nat]
    [mkIndex 2 (go "by_name") [1%nat] true [true]; mkIndex 3 (go "by_score") [2%nat] false []]
    [] [] 5 None.

Lemma buildOrdByID_linear_witness :
  colOrdinalByID (buildOrdByID (clone exDesc)) 4 = Some 2%nat /\
  colOrdinalByID (buildOrdByID (clone exDesc)) 3 = colOrdinalByID (clone exDesc) 3.
Proof.
  split; [reflexivity|]. apply buildOrdByID_linear.
  - by apply (bool_decide_unpack _).
  - repeat constructor; done.
  - done.
Defined.

Lemma exDesc_wf : desc_wf exDesc.
Proof.
  split; try (by left); try (by apply (bool_decide_unpack _)); try done; repeat constructor; try done;
    simpl; lia.
Qed.

Lemma tableSpace_interval t k :
  (ble (tableSpace t) k /\ blt k (prefixEnd (tableSpace t))) <-> tableSpace t `prefix_of` k.
Proof. rewrite tableSpace_elems. apply elems_interval; [|done]. repeat constructor; apply int64_range. Qed.
Lemma identitySeqTablePrefix_interval t k :
  (ble (identitySeqTablePrefix t) k /\ blt k (prefixEnd (identitySeqTablePrefix t))) <-> identitySeqTablePrefix t `prefix_of` k.
Proof.
  rewrite identitySeqTablePrefix_elems. apply elems_interval; [|done]. repeat constructor; try apply int64_range; done.
Qed.
