(* ===== verification/Desc.v ===== *)
(** * Stored descriptors

    [engine.go]'s [marshalDesc] and [parseDesc]: a descriptor is stored as
    the JSON rendering of its struct. Field names, their order and
    [omitempty] follow the struct tags. *)
From S2P Require Import Prelude GoVal GoStr Tuple Json Catalog.

Local Open Scope Z_scope.

(** ** Encoding *)

Definition jint (z : Z) : json := JNum (fmtInt z).
Definition jnat (n : nat) : json := jint (Z.of_nat n).
(** A slice; the empty list stands for the nil slice. *)
Definition jlist {A : Type} (f : A -> json) (l : list A) : json :=
  match l with [] => JNull | _ => JArr (f <$> l) end.
(** A field with [omitempty]. *)
Definition omit (empty : bool) (k : bytes) (v : json) : list (bytes * json) :=
  if empty then [] else [(k, v)].
Definition isEmpty {A : Type} (l : list A) : bool := match l with [] => true | _ => false end.

(** A [ColType] is its string. *)
Definition typeName (t : ColType) : bytes :=
  match t with
  | TBool => go "bool" | TInt => go "int" | TFloat => go "float" | TString => go "string"
  | TBytes => go "bytes" | TTimestamp => go "timestamp" | TDate => go "date" | TUUID => go "uuid"
  | TTextArray => go "text_array" | TJSONB => go "jsonb" | TOther s => s
  end.
Definition knownTypes : list ColType :=
  [TBool; TInt; TFloat; TString; TBytes; TTimestamp; TDate; TUUID; TTextArray; TJSONB].
Definition typeOf (s : bytes) : ColType :=
  default (TOther s) (list_find (λ t, typeName t = s) knownTypes ≫= λ p, Some p.2).

Definition columnJSON (c : Column) : json :=
  JObj ([(go "name", JStr (colName c)); (go "type", JStr (typeName (colType c))); (go "id", jint (colID c))]
    ++ omit (negb (colNotNull c)) (go "not_null") (JBool (colNotNull c))
    ++ omit (negb (colIdentity c)) (go "identity") (JBool (colIdentity c))
    ++ omit (isEmpty (colDefault c)) (go "default") (JStr (colDefault c))
    ++ omit (colMaxLen c =? 0) (go "max_len") (jint (colMaxLen c))).
Definition checkJSON (c : CheckDesc) : json :=
  JObj [(go "name", JStr (chkName c)); (go "expr", JStr (chkExpr c))].
Definition fkJSON (f : FKDesc) : json :=
  JObj ([(go "name", JStr (fkName f)); (go "cols", jlist jnat (fkCols f));
         (go "ref_table", JStr (fkRefTable f)); (go "ref_cols", jlist JStr (fkRefCols f))]
    ++ omit (isEmpty (fkOnDelete f)) (go "on_delete") (JStr (fkOnDelete f))).
Definition indexJSON (x : IndexDesc) : json :=
  JObj ([(go "id", jint (ixID x)); (go "name", JStr (ixName x)); (go "cols", jlist jnat (ixCols x));
         (go "unique", JBool (ixUnique x))]
    ++ omit (isEmpty (ixDesc x)) (go "desc") (jlist JBool (ixDesc x))).
Definition descJSON (d : TableDesc) : json :=
  JObj (omit (tFormatVersion d =? 0) (go "format_version") (jint (tFormatVersion d))
    ++ [(go "id", jint (tID d)); (go "name", JStr (tName d)); (go "columns", jlist columnJSON (tColumns d));
        (go "pk_cols", jlist jnat (tPKCols d))]
    ++ omit (isEmpty (tIndexes d)) (go "indexes") (jlist indexJSON (tIndexes d))
    ++ omit (isEmpty (tChecks d)) (go "checks") (jlist checkJSON (tChecks d))
    ++ omit (isEmpty (tForeignKeys d)) (go "foreign_keys") (jlist fkJSON (tForeignKeys d))
    ++ [(go "next_col_id", jint (tNextColID d))]).

Definition stamp (d : TableDesc) : TableDesc :=
  mkTable descFormatVersion (tID d) (tName d) (tColumns d) (tPKCols d) (tIndexes d)
    (tChecks d) (tForeignKeys d) (tNextColID d) (tOrdByID d).
(** [marshalDesc] stamps the descriptor it is given; these values always
    marshal. *)
Definition marshalDesc (d : TableDesc) : bytes := printJSON true (descJSON (stamp d)).

(** ** Decoding *)

(** Keys match fields exactly or up to case: besides ASCII letters, the
    Kelvin sign folds to [k] and the long s to [s]. *)
Definition foldRune (r : Z) : Z :=
  if (65 <=? r) && (r <=? 90) then r + 32 else if r =? 0x212A then 107 else if r =? 0x17F then 115 else r.
Definition sameKey (k name : bytes) : bool :=
  bool_decide (k = name) || bool_decide (foldRune <$> runes k = foldRune <$> runes name).

(** The value for a field; an absent field keeps its zero value, as [null]
    does. Of several members for a field, which the encoder never writes,
    the last is taken. *)
Definition fieldOr (acc : json) (m : list (bytes * json)) (name : bytes) : json :=
  foldl (λ acc kv, if sameKey kv.1 name then kv.2 else acc) acc m.
Definition field : list (bytes * json) -> bytes -> json := fieldOr JNull.

Definition decStr (v : json) : option bytes :=
  match v with JNull => Some [] | JStr s => Some s | _ => None end.
Definition decBool (v : json) : option bool :=
  match v with JNull => Some false | JBool b => Some b | _ => None end.
(** Integers are decimal without fraction or exponent, and in range. *)
Definition decInt (lo hi : Z) (v : json) : option Z :=
  match v with
  | JNull => Some 0
  | JNum t =>
      n ← match t with
          | c :: t' => if bool_decide (c = x2d) then n ← undigits t'; Some (- n) else undigits t
          | [] => None
          end;
      if (lo <=? n) && (n <=? hi) then Some n else None
  | _ => None
  end.
Definition decUint32 : json -> option Z := decInt 0 (2 ^ 32 - 1).
Definition decUint64 : json -> option Z := decInt 0 maxUint64.
Definition decLen : json -> option Z := decInt minInt64 maxInt64.
(** Ordinals are [int]s that index the columns; a negative one, which the
    encoder never writes, is not represented. *)
Definition decOrd (v : json) : option nat := n ← decInt 0 maxInt64 v; Some (Z.to_nat n).
Definition decList {A : Type} (f : json -> option A) (v : json) : option (list A) :=
  match v with JNull => Some [] | JArr l => mapM f l | _ => None end.
Definition decObj {A : Type} (f : list (bytes * json) -> option A) (v : json) : option A :=
  match v with JNull => f [] | JObj m => f m | _ => None end.

Definition decColumn : json -> option Column := decObj (λ m,
  name ← decStr (field m (go "name")); type ← decStr (field m (go "type")); id ← decUint32 (field m (go "id"));
  nn ← decBool (field m (go "not_null")); ident ← decBool (field m (go "identity"));
  def ← decStr (field m (go "default")); len ← decLen (field m (go "max_len"));
  Some (mkColumn name (typeOf type) id nn ident def len)).
Definition decCheck : json -> option CheckDesc := decObj (λ m,
  name ← decStr (field m (go "name")); expr ← decStr (field m (go "expr")); Some (mkCheck name expr)).
Definition decFK : json -> option FKDesc := decObj (λ m,
  name ← decStr (field m (go "name")); cols ← decList decOrd (field m (go "cols"));
  tab ← decStr (field m (go "ref_table")); rcols ← decList decStr (field m (go "ref_cols"));
  del ← decStr (field m (go "on_delete")); Some (mkFK name cols tab rcols del)).
Definition decIndex : json -> option IndexDesc := decObj (λ m,
  id ← decUint64 (field m (go "id")); name ← decStr (field m (go "name"));
  cols ← decList decOrd (field m (go "cols")); uniq ← decBool (field m (go "unique"));
  desc ← decList decBool (field m (go "desc")); Some (mkIndex id name cols uniq desc)).
Definition decDesc : json -> option TableDesc := decObj (λ m,
  ver ← decUint32 (field m (go "format_version")); id ← decUint64 (field m (go "id"));
  name ← decStr (field m (go "name")); cols ← decList decColumn (field m (go "columns"));
  pk ← decList decOrd (field m (go "pk_cols")); ixs ← decList decIndex (field m (go "indexes"));
  cks ← decList decCheck (field m (go "checks")); fks ← decList decFK (field m (go "foreign_keys"));
  next ← decUint32 (field m (go "next_col_id"));
  Some (mkTable ver id name cols pk ixs cks fks next None)).

Definition errVersion (v : Z) : error :=
  ENew (go "descriptor format version " ++ fmtInt v ++ go " is newer than this bytdb supports ("
        ++ fmtInt descFormatVersion ++ go "); upgrade bytdb").

Definition parseDesc (blob : bytes) : outcome TableDesc :=
  match parseJSON blob ≫= decDesc with
  | None => Err EJson
  | Some d => if descFormatVersion <? tFormatVersion d then Err (errVersion (tFormatVersion d)) else Ok (buildOrdByID d)
  end.

(** ** What is written reads back *)

Definition cleanColumn (c : Column) : Column :=
  mkColumn (clean (colName c)) (typeOf (clean (typeName (colType c)))) (colID c) (colNotNull c) (colIdentity c)
    (clean (colDefault c)) (colMaxLen c).
Definition cleanCheck (c : CheckDesc) : CheckDesc := mkCheck (clean (chkName c)) (clean (chkExpr c)).
Definition cleanFK (f : FKDesc) : FKDesc :=
  mkFK (clean (fkName f)) (fkCols f) (clean (fkRefTable f)) (clean <$> fkRefCols f) (clean (fkOnDelete f)).
Definition cleanIndex (x : IndexDesc) : IndexDesc :=
  mkIndex (ixID x) (clean (ixName x)) (ixCols x) (ixUnique x) (ixDesc x).
(** A descriptor with every string as valid UTF-8. *)
Definition cleanDesc (d : TableDesc) : TableDesc :=
  mkTable (tFormatVersion d) (tID d) (clean (tName d)) (cleanColumn <$> tColumns d) (tPKCols d)
    (cleanIndex <$> tIndexes d) (cleanCheck <$> tChecks d) (cleanFK <$> tForeignKeys d) (tNextColID d) None.

(** The widths of the struct's integers. *)
Record desc_range (d : TableDesc) : Prop := {
  rg_version : uint32_ok (tFormatVersion d);
  rg_ID : uint64_ok (tID d);
  rg_next : uint32_ok (tNextColID d);
  rg_cols : Forall (λ c, uint32_ok (colID c) /\ int64_ok (colMaxLen c)) (tColumns d);
  rg_pk : Forall (λ o, Z.of_nat o <= maxInt64) (tPKCols d);
  rg_ixs : Forall (λ x, uint64_ok (ixID x) /\ Forall (λ o, Z.of_nat o <= maxInt64) (ixCols x)) (tIndexes d);
  rg_fks : Forall (λ f, Forall (λ o, Z.of_nat o <= maxInt64) (fkCols f)) (tForeignKeys d);
}.

Lemma typeName_typeOf s : typeName (typeOf s) = s.
Proof.
  unfold typeOf. destruct (list_find _ knownTypes) as [[i t]|] eqn:E; cbn; [|done].
  by apply list_find_Some in E as (_ & H & _).
Qed.

Lemma fieldOr_cons acc k v m n : fieldOr acc ((k, v) :: m) n = fieldOr (if sameKey k n then v else acc) m n.
Proof. done. Qed.
Lemma fieldOr_omit acc e k v m n :
  fieldOr acc (omit e k v ++ m) n = fieldOr (if sameKey k n then if e then acc else v else acc) m n.
Proof. destruct e; cbn; [by destruct (sameKey k n)|done]. Qed.
Lemma fieldOr_omit_end acc e k v n :
  fieldOr acc (omit e k v) n = if sameKey k n then if e then acc else v else acc.
Proof. rewrite <- (app_nil_r (omit e k v)). by rewrite fieldOr_omit. Qed.

(** Looks up every field of an encoded struct. *)
Ltac field_value :=
  unfold field; cbn [app];
  repeat first [rewrite fieldOr_omit | rewrite fieldOr_cons | rewrite fieldOr_omit_end];
  repeat match goal with |- context [sameKey ?a ?b] =>
    let r := eval vm_compute in (sameKey a b) in change (sameKey a b) with r end;
  cbn [fieldOr foldl]; reflexivity.
Ltac fields :=
  repeat match goal with |- context [field ?m ?k] => eassert (field m k = _) as -> by field_value end.

Lemma decStr_omit s : decStr (if isEmpty s then JNull else JStr s) = Some s.
Proof. by destruct s. Qed.
Lemma decBool_omit b : decBool (if negb b then JNull else JBool b) = Some b.
Proof. by destruct b. Qed.
Lemma decInt_jint lo hi z : lo <= z <= hi -> decInt lo hi (jint z) = Some z.
Proof.
  intros Hz. unfold jint, fmtInt. destruct (Z.ltb_spec z 0).
  - cbn [decInt]. rewrite bool_decide_true by done. rewrite undigits_digits by lia. cbn [mbind option_bind].
    rewrite Z.opp_involutive. by replace ((lo <=? z) && (z <=? hi)) with true by lia.
  - cbn [decInt]. assert (exists c s, digits z = c :: s /\ c <> x2d) as (c & s & E & Hc).
    { pose proof (digits_Forall z ltac:(lia)) as Hd. rewrite digits_step in * by lia.
      destruct (_ ++ _) as [|c s] eqn:E; [by apply app_nil in E as [_ ?]|].
      exists c, s. split; [done|]. apply Forall_cons in Hd as [Hd _]. by intros ->. }
    pose proof (undigits_digits z ltac:(lia)) as Hu. rewrite E in *. rewrite bool_decide_false by done. rewrite Hu.
    cbn [mbind option_bind]. by replace ((lo <=? z) && (z <=? hi)) with true by lia.
Qed.
Lemma decInt_omit lo hi z : lo <= z <= hi -> decInt lo hi (if z =? 0 then JNull else jint z) = Some z.
Proof. intros Hz. destruct (Z.eqb_spec z 0) as [->|]; [done|by apply decInt_jint]. Qed.

Lemma mapM_fmap {A : Type} (f : json -> option A) (g : A -> json) l :
  Forall (λ x, f (g x) = Some x) l -> mapM f (g <$> l) = Some l.
Proof. induction 1 as [|x l Hx _ IH]; [done|]. cbn. rewrite Hx. cbn. by rewrite IH. Qed.
Lemma decList_jlist {A : Type} (f : json -> option A) (g : A -> json) l :
  Forall (λ x, f (g x) = Some x) l -> decList f (jlist g l) = Some l.
Proof. intros Hl. destruct l as [|x l]; [done|]. cbn [jlist decList]. by apply mapM_fmap. Qed.
Lemma decList_omit {A : Type} (f : json -> option A) (g : A -> json) l :
  Forall (λ x, f (g x) = Some x) l -> decList f (if isEmpty l then JNull else jlist g l) = Some l.
Proof. intros Hl. by destruct l; [|apply decList_jlist]. Qed.
Lemma decOrd_jnat n : Z.of_nat n <= maxInt64 -> decOrd (jnat n) = Some n.
Proof. intros Hn. unfold decOrd, jnat. rewrite decInt_jint by lia. cbn. by rewrite Nat2Z.id. Qed.
Lemma Forall_always {A : Type} (P : A -> Prop) l : (forall x, P x) -> Forall P l.
Proof. intros H. by apply Forall_forall. Qed.

Definition type_ok (c : Column) : Prop := typeOf (typeName (colType c)) = colType c.

Lemma decColumn_JSON c : uint32_ok (colID c) -> int64_ok (colMaxLen c) -> type_ok c ->
  decColumn (columnJSON c) = Some c.
Proof.
  intros Hid Hlen Ht. unfold decColumn, columnJSON, decObj. fields.
  rewrite decStr_omit, !decBool_omit. cbn [decStr mbind option_bind]. unfold decUint32, decLen.
  rewrite decInt_jint by (unfold uint32_ok in Hid; lia). cbn [mbind option_bind].
  rewrite decInt_omit by (unfold int64_ok, two63, minInt64, maxInt64, two63 in *; lia). cbn [mbind option_bind].
  rewrite Ht. by destruct c.
Qed.
Lemma decCheck_JSON c : decCheck (checkJSON c) = Some c.
Proof. unfold decCheck, checkJSON, decObj. fields. cbn. by destruct c. Qed.
Lemma decFK_JSON f : Forall (λ o, Z.of_nat o <= maxInt64) (fkCols f) -> decFK (fkJSON f) = Some f.
Proof.
  intros Hc. unfold decFK, fkJSON, decObj. fields. rewrite decStr_omit.
  rewrite !decList_jlist by (done || (eapply Forall_impl; [done|apply decOrd_jnat]) || by apply Forall_always).
  cbn. by destruct f.
Qed.
Lemma decIndex_JSON x : uint64_ok (ixID x) -> Forall (λ o, Z.of_nat o <= maxInt64) (ixCols x) ->
  decIndex (indexJSON x) = Some x.
Proof.
  intros Hid Hc. unfold decIndex, indexJSON, decObj. fields.
  unfold decUint64. rewrite decInt_jint by (unfold uint64_ok, maxUint64 in *; lia). cbn [mbind option_bind decStr decBool].
  rewrite decList_jlist by (eapply Forall_impl; [done|apply decOrd_jnat]). cbn [mbind option_bind].
  rewrite decList_omit by (by apply Forall_always). cbn. by destruct x.
Qed.
Lemma decDesc_JSON d : desc_range d -> Forall type_ok (tColumns d) ->
  decDesc (descJSON d) = Some (clone d).
Proof.
  intros [Hv Hid Hn Hc Hpk Hix Hfk] Ht. unfold decDesc, descJSON, decObj. fields.
  unfold decUint32, decUint64. rewrite decInt_omit by (unfold uint32_ok in Hv; lia). cbn [mbind option_bind].
  rewrite (decInt_jint _ _ (tID d)) by (unfold uint64_ok, maxUint64 in *; lia). cbn [mbind option_bind decStr].
  rewrite (decList_jlist decColumn).
  2: { apply Forall_forall. intros c Hin. rewrite Forall_forall in Hc, Ht. destruct (Hc c Hin). by apply decColumn_JSON; [..|apply Ht]. }
  cbn [mbind option_bind].
  rewrite decList_jlist by (eapply Forall_impl; [done|apply decOrd_jnat]). cbn [mbind option_bind].
  rewrite (decList_omit decIndex) by (eapply Forall_impl; [done|intros x []; by apply decIndex_JSON]). cbn [mbind option_bind].
  rewrite (decList_omit decCheck) by (apply Forall_always, decCheck_JSON). cbn [mbind option_bind].
  rewrite (decList_omit decFK) by (eapply Forall_impl; [done|apply decFK_JSON]). cbn [mbind option_bind].
  by rewrite decInt_jint by (unfold uint32_ok in Hn; lia).
Qed.

Lemma omit_clean e k v : (λ '(k, v), (clean k, cleanJ v)) <$> omit e k v = omit e (clean k) (cleanJ v).
Proof. by destruct e. Qed.
Lemma isEmpty_clean s : isEmpty (clean s) = isEmpty s.
Proof.
  destruct s as [|c s]; [done|]. rewrite clean_cons. unfold encode_rune. cbv zeta. by repeat case_match.
Qed.
Lemma jlist_clean {A : Type} (f : A -> json) (g : A -> A) l : (forall x, cleanJ (f x) = f (g x)) ->
  cleanJ (jlist f l) = jlist f (g <$> l).
Proof.
  intros H. destruct l as [|x l]; [done|]. cbn [jlist cleanJ fmap list_fmap]. rewrite H. do 2 f_equal.
  rewrite <- !list_fmap_compose. apply list_fmap_ext. intros ? y _. apply H.
Qed.
Lemma jnat_clean l : cleanJ (jlist jnat l) = jlist jnat l.
Proof. rewrite (jlist_clean jnat id) by done. by rewrite list_fmap_id. Qed.
Lemma isEmpty_fmap {A : Type} (f : A -> A) l : isEmpty (f <$> l) = isEmpty l.
Proof. by destruct l. Qed.

(** Pushes [cleanJ] through an encoded struct. *)
Ltac clean_struct :=
  cbn [cleanJ]; rewrite ?fmap_app, ?omit_clean; cbn [fmap list_fmap cleanJ];
  repeat match goal with |- context [clean (go ?s)] => change (clean (go s)) with (go s) end.

Lemma columnJSON_clean c : cleanJ (columnJSON c) = columnJSON (cleanColumn c).
Proof.
  unfold columnJSON. clean_struct. unfold cleanColumn. cbn [colName colType colID colNotNull colIdentity colDefault colMaxLen].
  by rewrite isEmpty_clean, typeName_typeOf.
Qed.
Lemma checkJSON_clean c : cleanJ (checkJSON c) = checkJSON (cleanCheck c).
Proof. done. Qed.
Lemma fkJSON_clean f : cleanJ (fkJSON f) = fkJSON (cleanFK f).
Proof.
  unfold fkJSON. clean_struct. rewrite jnat_clean, (jlist_clean JStr clean) by done.
  unfold cleanFK. cbn [fkName fkCols fkRefTable fkRefCols fkOnDelete]. by rewrite isEmpty_clean.
Qed.
Lemma indexJSON_clean x : cleanJ (indexJSON x) = indexJSON (cleanIndex x).
Proof.
  unfold indexJSON. clean_struct. rewrite jnat_clean, (jlist_clean JBool id) by done. by rewrite list_fmap_id.
Qed.
Lemma descJSON_clean d : cleanJ (descJSON d) = descJSON (cleanDesc d).
Proof.
  unfold descJSON. clean_struct. rewrite jnat_clean, (jlist_clean _ _ _ columnJSON_clean), (jlist_clean _ _ _ indexJSON_clean),
    (jlist_clean _ _ _ checkJSON_clean), (jlist_clean _ _ _ fkJSON_clean).
  unfold cleanDesc. cbn [tFormatVersion tID tName tColumns tPKCols tIndexes tChecks tForeignKeys tNextColID].
  by rewrite !isEmpty_fmap.
Qed.

Lemma digitVal_digit c : digitVal c <> None -> digit c = true.
Proof. unfold digitVal, digit. by destruct (_ && _). Qed.

Lemma numInt_digits n : 0 <= n -> numInt (digits n) = Some (digits n, []).
Proof.
  intros Hn. destruct (decide (n = 0)) as [->|Hz]; [done|].
  destruct (digits_head n ltac:(lia)) as (c & s & E & Hc). pose proof (digits_Forall n Hn) as Hd. rewrite E in *.
  cbn [numInt]. rewrite bool_decide_false by done. unfold digits1.
  rewrite <- (app_nil_r (c :: s)) at 1. rewrite span_app; [done| |done].
  eapply Forall_impl; [done|apply digitVal_digit].
Qed.

Lemma parseNumber_fmtInt z : parseNumber (fmtInt z) = Some (fmtInt z, []).
Proof.
  unfold fmtInt, parseNumber. destruct (Z.ltb_spec z 0) as [Hz|Hz].
  - change (numSign isMinus (x2d :: digits (- z))) with ([x2d], digits (- z)). cbv beta iota. rewrite numInt_digits by lia. cbn. by rewrite app_nil_r.
  - destruct (decide (z = 0)) as [->|]; [done|]. destruct (digits_head z ltac:(lia)) as (c & s & E & Hc).
    assert (isMinus c = false) as Hm.
    { pose proof (digits_Forall z Hz) as Hd. rewrite E in Hd. apply Forall_cons in Hd as [Hd%digitVal_digit _].
      apply digit_not; [|done]. by intros x ->%bool_decide_eq_true. }
    assert (numSign isMinus (digits z) = ([], digits z)) as -> by (rewrite E; cbn; by rewrite Hm).
    cbv beta iota. rewrite numInt_digits by lia. cbn. by rewrite app_nil_r.
Qed.

Lemma jok_jint d z : jok d (jint z).
Proof. constructor. apply parseNumber_fmtInt. Qed.
Lemma jok_jlist {A : Type} (f : A -> json) d l : (forall x, jok d (f x)) -> jok (S d) (jlist f l).
Proof.
  intros H. destruct l as [|x l]; cbn [jlist]; constructor. apply Forall_fmap. by apply Forall_always.
Qed.
Lemma Forall_omit (P : bytes * json -> Prop) e k v : P (k, v) -> Forall P (omit e k v).
Proof. intros H. destruct e; by repeat constructor. Qed.

Ltac struct_ok := constructor; repeat first [apply Forall_app; split | apply Forall_omit | apply Forall_cons_2 | apply Forall_nil_2];
  cbn [snd]; first [apply jok_jint | constructor; fail | idtac].

Lemma jok_descJSON d : jok 4 (descJSON d).
Proof.
  struct_ok; try (by constructor); try apply jok_jlist; intros; try apply jok_jint;
    struct_ok; try (by constructor); try apply jok_jlist; intros; try apply jok_jint; by constructor.
Qed.

Lemma jok_mono d e v : (d <= e)%nat -> jok d v -> jok e v.
Proof.
  revert d e. induction v as [| | | |l IH|m IH] using json_ind'; intros d e Hde H;
    inversion H; subst; try (by constructor); destruct e as [|e]; try lia; constructor.
  - eapply Forall_impl; [apply Forall_and; split; [apply IH|done]|]. cbn. intros x [Hx ?]. eapply Hx; [|done]. lia.
  - eapply Forall_impl; [apply Forall_and; split; [apply IH|done]|]. cbn. intros x [Hx ?]. eapply Hx; [|done]. lia.
Qed.

Lemma parseDesc_marshal d : desc_range d -> parseDesc (marshalDesc d) = Ok (buildOrdByID (cleanDesc (stamp d))).
Proof.
  intros [Hv Hid Hn Hc Hpk Hix Hfk]. unfold parseDesc, marshalDesc.
  rewrite parseJSON_print, descJSON_clean.
  2: { eapply jok_mono; [|apply jok_descJSON]. unfold maxNestingDepth. lia. }
  cbn [mbind option_bind]. rewrite decDesc_JSON; [by unfold clone, cleanDesc| |].
  - split; try done; cbn.
    + apply Forall_fmap. done.
    + apply Forall_fmap. done.
    + apply Forall_fmap. done.
  - cbn. apply Forall_fmap, Forall_always. intros c. unfold type_ok, cleanColumn. cbn [compose colType]. by rewrite typeName_typeOf.
Qed.

(** Every string of the descriptor is valid UTF-8. *)
Definition desc_utf8 (d : TableDesc) : Prop :=
  clean (tName d) = tName d /\ Forall (λ c, cleanColumn c = c) (tColumns d) /\ Forall (λ x, cleanIndex x = x) (tIndexes d) /\
  Forall (λ c, cleanCheck c = c) (tChecks d) /\ Forall (λ f, cleanFK f = f) (tForeignKeys d).

Lemma cleanDesc_id d : desc_utf8 d -> cleanDesc d = clone d.
Proof. intros (Hn & Hc & Hi & Hk & Hf). unfold cleanDesc, clone. by rewrite Hn, !Forall_fmap_id. Qed.

(** C37: a stored descriptor reads back as the descriptor that was written,
    with the current format version and a fresh ID lookup table, when its
    strings are valid UTF-8. *)
Theorem parseDesc_marshalDesc d : desc_range d -> desc_utf8 d ->
  parseDesc (marshalDesc d) = Ok (buildOrdByID (clone (stamp d))).
Proof. intros Hr Hu. rewrite parseDesc_marshal by done. by rewrite (cleanDesc_id (stamp d)). Qed.

Lemma parseDesc_marshalDesc_witness : parseDesc (marshalDesc exDesc) = Ok (buildOrdByID (clone (stamp exDesc))).
Proof.
  apply (parseDesc_marshalDesc exDesc).
  - split; repeat constructor; unfold uint32_ok, uint64_ok, int64_ok, minInt64, maxInt64; cbn; lia.
  - split_and!; repeat constructor.
Defined.
