(* ===== verification/Rows.v ===== *)
(** * Rows: coercion and the stored encoding

    The row plumbing of [dml.go]: values coerced to their column types,
    primary-key tuples, and the row's key and value bytes. *)
From S2P Require Import Prelude GoVal GoStr Tuple Time Jsonb Types Catalog.

Local Open Scope Z_scope.

(** ** Coercion *)

Section coerce.

Definition errFit : error := ENew (go "value does not fit column type").

(** The [TInt] arm, which [TBool] shares: every integer kind that fits. *)
Definition coerceInt (v : any) : outcome Z :=
  match v with
  | AInt (KInt | KInt8 | KInt16 | KInt32 | KInt64 | KUint8 | KUint16 | KUint32) n => Ok n
  | _ => Err errFit
  end.

Definition coerce (v : any) (t : ColType) : outcome any :=
  if is_nil v then Ok ANil
  else
    match t with
    | TBool =>
        match v with
        | ABool b => Ok (ABool b)
        | _ =>
            match coerceInt v with
            | Ok n =>
                if n =? 0 then Ok (ABool false)
                else if n =? 1 then Ok (ABool true)
                else Err (ENew (go "integer for a bool column must be 0 or 1"))
            | _ => Err errFit
            end
        end
    | TInt => AInt KInt64 <$> coerceInt v
    | TFloat =>
        match v with
        | AFloat64 n => Ok (AFloat64 n)
        | AFloat32 n => Ok (AFloat64 (f32_to_f64 n))
        | AInt (KInt | KInt64) n => Ok (AFloat64 (int64_to_f64 n))
        | _ => Err errFit
        end
    | TString => match v with AString s => Ok (AString s) | _ => Err errFit end
    | TBytes => match v with ABytes b => Ok (ABytes b) | _ => Err errFit end
    | TTimestamp =>
        match v with
        | AInt KInt64 x => Ok (AInt KInt64 x)
        | ATime nanos => Ok (AInt KInt64 (int64 (nanos / 1000)))
        | AString s => AInt KInt64 <$> ParseTimestamp s
        | _ => Err errFit
        end
    | TDate =>
        match v with
        | AInt KInt64 x => Ok (AInt KInt64 x)
        | ATime nanos => Ok (AInt KInt64 (int64 (nanos / 86400000000000)))
        | AString s => AInt KInt64 <$> ParseDate s
        | _ => Err errFit
        end
    | TUUID =>
        match v with
        | ABytes x =>
            if decide (length x = 16%nat) then Ok (ABytes x)
            else Err (ENew (go "uuid value must be 16 bytes"))
        | A16bytes x => Ok (ABytes x)
        | AString s => ABytes <$> ParseUUID s
        | _ => Err errFit
        end
    | TTextArray =>
        match v with
        | AString s => AString <$> CanonTextArray s
        | AStrings l => Ok (AString (FormatTextArray (Some <$> l)))
        | _ => Err errFit
        end
    | TJSONB =>
        match v with
        | AString s => AString <$> CanonJSONB s
        | ABytes s => AString <$> CanonJSONB s
        | _ => Err errFit
        end
    | TOther _ => Err errFit
    end.

Definition space : Z := 32.

Definition errTooLong (n : Z) : error :=
  ENew (go "value too long for type character varying(" ++ fmtInt n ++ go ")").

Definition enforceMaxLen (v : any) (c : Column) : outcome any :=
  if colMaxLen c <=? 0 then Ok v
  else
    match v with
    | AString s =>
        if Z.of_nat (length s) <=? colMaxLen c then Ok v
        else
          let rs := runes s in
          if Z.of_nat (length rs) <=? colMaxLen c then Ok v
          else
            let n := Z.to_nat (colMaxLen c) in
            if forallb (λ r, r =? space) (drop n rs) then Ok (AString (of_runes (take n rs)))
            else Err (errTooLong (colMaxLen c))
    | _ => Ok v
    end.

Definition notNullErr (d : TableDesc) (col : bytes) : error :=
  ENew (go "null value in column " ++ quoted col ++ go " of relation " ++ quoted (tName d)
        ++ go " violates not-null constraint").
Definition errPKNull : error := ENew (go "primary key column may not be NULL").

(** The loop body [coerceRow] and [updateRow] share: one value for the
    column of ordinal [i]. *)
Definition coerceCol (d : TableDesc) (i : nat) (c : Column) (v : any) : outcome any :=
  cv ← coerce v (colType c);
  cv ← enforceMaxLen cv c;
  if is_nil cv then
    if isPK d i then Err errPKNull
    else if colNotNull c || colIdentity c then Err (notNullErr d (colName c))
    else Ok cv
  else Ok cv.

Fixpoint coerceCols (d : TableDesc) (i : nat) (cols : list Column) (vals : list any)
  : outcome (list any) :=
  match cols, vals with
  | c :: cols', v :: vals' =>
      cv ← coerceCol d i c v; out ← coerceCols d (S i) cols' vals'; Ok (cv :: out)
  | _, _ => Ok []
  end.

Definition errArity : error := ENew (go "wrong number of values").

Definition coerceRow (d : TableDesc) (vals : list any) : outcome (list any) :=
  if decide (length vals <> length (tColumns d)) then Err errArity
  else coerceCols d 0 (tColumns d) vals.

(** ** Primary keys *)

Definition pkValues (d : TableDesc) (row : list any) : outcome (list any) :=
  traverse (at_index row) (tPKCols d).

Definition errPKValueNull : error := ENew (go "primary key value may not be NULL").

Fixpoint coercePK_loop (d : TableDesc) (pk : list nat) (pkVals : list any) : outcome (list any) :=
  match pkVals, pk with
  | [], _ => Ok []
  | _ :: _, [] => Panic PIndex
  | v :: pkVals', ord :: pk' =>
      c ← at_index (tColumns d) ord;
      cv ← coerce v (colType c);
      if is_nil cv then Err errPKValueNull
      else out ← coercePK_loop d pk' pkVals'; Ok (cv :: out)
  end.
Definition coercePK (d : TableDesc) (pkVals : list any) : outcome (list any) :=
  coercePK_loop d (tPKCols d) pkVals.

Definition errPKArity : error := ENew (go "wrong number of primary key values").

Definition fullPKKey (d : TableDesc) (pkVals : list any) : outcome bytes :=
  if decide (length pkVals <> length (tPKCols d)) then Err errPKArity
  else coerced ← coercePK d pkVals; rowKey d coerced.

Definition errBoundArity : error := ENew (go "too many primary key values in scan bound").

Definition boundKey (d : TableDesc) (prefix : bytes) (pkVals : list any) : outcome bytes :=
  if decide (length (tPKCols d) < length pkVals)%nat then Err errBoundArity
  else coerced ← coercePK d pkVals; Append prefix coerced.

(** ** The stored value *)

Fixpoint encodeCols (d : TableDesc) (i : nat) (cols : list Column) (row : list any) (buf : bytes)
  : outcome bytes :=
  match cols with
  | [] => Ok buf
  | c :: cols' =>
      v ← at_index row i;
      if isPK d i || is_nil v then encodeCols d (S i) cols' row buf
      else
        buf' ← Append buf [AInt KInt64 (colID c); v];
        encodeCols d (S i) cols' row buf'
  end.
Definition encodeRowValue (d : TableDesc) (row : list any) : outcome bytes :=
  encodeCols d 0 (tColumns d) row [].

Record Row := mkRow { rDesc : TableDesc; rVals : list any }.

(** [vals[i] = v]: out of range panics. *)
Definition set_index {A : Type} (l : list A) (i : nat) (x : A) : outcome (list A) :=
  if decide (i < length l)%nat then Ok (<[i := x]> l) else Panic PIndex.

Fixpoint fillPK (vals : list any) (pk : list nat) (keyVals : list any) : outcome (list any) :=
  match pk, keyVals with
  | [], _ => Ok vals
  | _ :: _, [] => Panic PIndex
  | ord :: pk', v :: keyVals' => vals' ← set_index vals ord v; fillPK vals' pk' keyVals'
  end.

Fixpoint fillPairs (d : TableDesc) (vals : list any) (pairs : list any) : outcome (list any) :=
  match pairs with
  | id :: v :: pairs' =>
      match id with
      | AInt KInt64 id =>
          match colOrdinalByID d (uint32 id) with
          | Some ord => vals' ← set_index vals ord v; fillPairs d vals' pairs'
          | None => fillPairs d vals pairs'
          end
      | _ => Err (ENew (go "row value column tag is not an ID"))
      end
  | _ => Ok vals
  end.

Definition decodeRow (d : TableDesc) (key val : bytes) : outcome Row :=
  keyVals ← Decode key;
  if decide (length keyVals <> 2 + length (tPKCols d))%nat then
    Err (ENew (go "row key has wrong arity"))
  else
    pairs ← Decode val;
    if decide (length pairs mod 2 <> 0)%nat then Err (ENew (go "row value has dangling column tag"))
    else
      let vals := replicate (length (tColumns d)) ANil in
      vals ← fillPK vals (tPKCols d) (drop 2 keyVals);
      vals ← fillPairs d vals pairs;
      Ok (mkRow d vals).

(** [Row.Col] *)
Definition Col (r : Row) (name : bytes) : outcome any :=
  match ColIndex (rDesc r) name with Some i => at_index (rVals r) i | None => Ok ANil end.

End coerce.

(** ** Typing *)

Section laws.

(** The canonical Go values of a column type. *)
Definition typed (t : ColType) (v : any) : Prop :=
  match t, v with
  | TBool, ABool _ | TString, AString _ | TBytes, ABytes _ => True
  | TInt, AInt KInt64 z | TTimestamp, AInt KInt64 z | TDate, AInt KInt64 z => int64_ok z
  | TFloat, AFloat64 b => f64_ok b
  | TUUID, ABytes b => length b = 16%nat
  | TTextArray, AString s => CanonTextArray s = Ok s
  | TJSONB, AString s => CanonJSONB s = Ok s
  | _, _ => False
  end.

Lemma typed_not_nil t v : typed t v -> is_nil v = false.
Proof. by destruct t, v. Qed.
Lemma typed_any_ok t v : typed t v -> any_ok v.
Proof. destruct t, v as [| |[]| | | | | | | |]; simpl; done. Qed.

Lemma coerceInt_ok v n : any_ok v -> coerceInt v = Ok n -> int64_ok n.
Proof.
  unfold int64_ok. destruct v as [| |[] z| | | | | | | |]; simpl; intros Hv; intros; simplify_eq; lia.
Qed.

Lemma fmap_ok {A B} (f : A -> B) (o : outcome A) b : f <$> o = Ok b -> exists a, o = Ok a /\ b = f a.
Proof. destruct o; simpl; naive_solver. Qed.

Lemma CanonTextArray_Format es : CanonTextArray (FormatTextArray es) = Ok (FormatTextArray es).
Proof. unfold CanonTextArray. by rewrite ParseTextArray_Format. Qed.
Lemma CanonTextArray_idem s c : CanonTextArray s = Ok c -> CanonTextArray c = Ok c.
Proof.
  unfold CanonTextArray at 1. intros (es & _ & [= <-])%outcome_bind_ok. apply CanonTextArray_Format.
Qed.

(** A coerced value is NULL exactly for NULL, and otherwise has the type. *)
Lemma coerce_typed v t w : any_ok v -> coerce v t = Ok w ->
  if is_nil v then w = ANil else typed t w.
Proof.
  intros Hv. unfold coerce. destruct (is_nil v) eqn:Hn; [by intros [= <-]|].
  destruct t; simpl.
  - destruct v; try done; try (by intros [= <-]); try (by destruct (coerceInt _)).
    destruct (coerceInt _) as [n| |]; [|done..]. destruct (n =? 0); [by intros [= <-]|].
    destruct (n =? 1); [by intros [= <-]|done].
  - intros (n & Hn' & ->)%fmap_ok. simpl. by eapply coerceInt_ok.
  - destruct v as [| |[] z| | | | | | | |]; try done; intros [= <-]; simpl in *; try done.
    + apply int64_to_f64_ok. unfold int64_ok. lia.
    + apply int64_to_f64_ok. unfold int64_ok. lia.
    + by apply f32_to_f64_ok.
  - destruct v; try done. by intros [= <-].
  - destruct v; try done. by intros [= <-].
  - destruct v as [| |[] z| | | | | | | |]; try done.
    + by intros [= <-].
    + intros (z & Hz & ->)%fmap_ok. by eapply ParseTimestamp_int64.
    + intros [= <-]. apply int64_range.
  - destruct v as [| |[] z| | | | | | | |]; try done.
    + by intros [= <-].
    + intros (z & Hz & ->)%fmap_ok. by eapply ParseDate_int64.
    + intros [= <-]. apply int64_range.
  - destruct v; try done.
    + intros (b & Hb & ->)%fmap_ok. by eapply ParseUUID_length.
    + case_decide; [|done]. by intros [= <-].
    + by intros [= <-].
  - destruct v; try done.
    + intros (c & Hc & ->)%fmap_ok. by eapply CanonTextArray_idem.
    + intros [= <-]. apply CanonTextArray_Format.
  - destruct v; try done; intros (c & Hc & ->)%fmap_ok; by eapply CanonJSONB_idem.
  - done.
Qed.

(** Values of the type are fixed points. *)
Lemma coerce_fixed t w : typed t w -> coerce w t = Ok w.
Proof.
  intros Hw. unfold coerce. rewrite (typed_not_nil t w Hw).
  destruct t, w as [| |[] z| | | | | | | |]; simpl in Hw; try done; simpl.
  - by rewrite decide_True.
  - by rewrite Hw.
  - by rewrite Hw.
Qed.

Lemma coerce_no_panic v t p : coerce v t <> Panic p.
Proof.
  unfold coerce. destruct (is_nil v); [done|].
  destruct t; destruct v as [| |[] z| | | | | | | |]; simpl; try done; try (by repeat case_match).
  - destruct (ParseTimestamp s) eqn:E; simpl; try done. by apply ParseTimestamp_no_panic in E.
  - destruct (ParseDate s) eqn:E; simpl; try done. by apply ParseDate_no_panic in E.
  - destruct (ParseUUID s) eqn:E; simpl; try done. by apply ParseUUID_no_panic in E.
  - unfold CanonTextArray. destruct (ParseTextArray s) eqn:E; simpl; try done.
    by apply ParseTextArray_no_panic in E.
  - destruct (CanonJSONB s) eqn:E; simpl; try done. by apply CanonJSONB_no_panic in E.
  - destruct (CanonJSONB s) eqn:E; simpl; try done. by apply CanonJSONB_no_panic in E.
Qed.

(** ** Length limits *)

(** A text within its column's limit, in characters. *)
Definition fits (c : Column) (v : any) : Prop :=
  match v with
  | AString s => 0 < colMaxLen c -> Z.of_nat (length (runes s)) <= colMaxLen c
  | _ => True
  end.

Lemma enforceMaxLen_cases v c : 
  enforceMaxLen v c = Ok v /\ fits c v \/
  exists s, v = AString s /\ 0 < colMaxLen c < Z.of_nat (length (runes s)) /\
    let n := Z.to_nat (colMaxLen c) in
    if forallb (λ r, r =? space) (drop n (runes s))
    then enforceMaxLen v c = Ok (AString (of_runes (take n (runes s))))
    else enforceMaxLen v c = Err (errTooLong (colMaxLen c)).
Proof.
  unfold enforceMaxLen. destruct (Z.leb_spec (colMaxLen c) 0).
  - left. split; [done|]. destruct v; simpl; try done. lia.
  - destruct v as [| | | | |s| | | | |]; try (by left).
    destruct (Z.leb_spec (Z.of_nat (length s)) (colMaxLen c)).
    + left. split; [done|]. simpl. pose proof (runes_length s). lia.
    + cbv zeta. destruct (Z.leb_spec (Z.of_nat (length (runes s))) (colMaxLen c)); [left; split; [done|by intros _]|].
      right. exists s. split_and!; [done..|]. by destruct (forallb _ _).
Qed.

Lemma runes_take n s : runes (of_runes (take n (runes s))) = take n (runes s).
Proof. apply runes_of_runes, Forall_take, runes_scalar. Qed.

Lemma enforceMaxLen_fits v c w : enforceMaxLen v c = Ok w -> fits c w.
Proof.
  destruct (enforceMaxLen_cases v c) as [[E Hf]|(s & -> & Hl & H)]; [rewrite E; by intros [= <-]|].
  cbv zeta in H. destruct (forallb _ _); rewrite H; intros [= <-]. simpl. intros _.
  rewrite runes_take, length_take. lia.
Qed.

Lemma enforceMaxLen_typed v c w : maxlen_ok c -> enforceMaxLen v c = Ok w ->
  (typed (colType c) v -> typed (colType c) w) /\ is_nil w = is_nil v.
Proof.
  intros Hm. destruct (enforceMaxLen_cases v c) as [[E Hf]|(s & -> & Hl & H)]; [rewrite E; by intros [= <-]|].
  cbv zeta in H. destruct (forallb _ _); rewrite H; intros [= <-]. rewrite Hm by lia. done.
Qed.

(** ** Rows a table may hold *)

(** What [coerceCol] lets through for the column of ordinal [i]. *)
Definition cell_ok (d : TableDesc) (i : nat) (c : Column) (v : any) : Prop :=
  if is_nil v then isPK d i = false /\ colNotNull c = false /\ colIdentity c = false
  else typed (colType c) v /\ fits c v.

Lemma coerceCol_ok d i c v w : maxlen_ok c -> any_ok v -> coerceCol d i c v = Ok w ->
  cell_ok d i c w.
Proof.
  intros Hm Hv. unfold coerceCol.
  intros (cv & Hcv & (cw & Hcw & Hw)%outcome_bind_ok)%outcome_bind_ok.
  pose proof (coerce_typed v (colType c) cv Hv Hcv) as Ht.
  destruct (enforceMaxLen_typed cv c cw Hm Hcw) as [Htw Hnil].
  pose proof (enforceMaxLen_fits cv c cw Hcw) as Hfit.
  unfold cell_ok. destruct (is_nil cw) eqn:En.
  - destruct (isPK d i) eqn:Hpk; [done|]. destruct (colNotNull c) eqn:Hnn, (colIdentity c) eqn:Hid; try done.
    injection Hw as <-. by rewrite En.
  - injection Hw as <-. rewrite En. split; [|done]. apply Htw.
    destruct (is_nil v); [|done]. by subst.
Qed.

Lemma coerceCol_no_panic d i c v p : coerceCol d i c v <> Panic p.
Proof.
  unfold coerceCol. destruct (coerce v (colType c)) as [cv|e|q] eqn:E; simpl; [|done|].
  - destruct (enforceMaxLen_cases cv c) as [[E' _]|(s & -> & _ & H)].
    + rewrite E'. simpl. by repeat case_match.
    + cbv zeta in H. destruct (forallb _ _); rewrite H; simpl; done.
  - by apply coerce_no_panic in E.
Qed.

End laws.

(** ** The stored form of a row *)

(** Reference definitions on canonical rows: the key tuple, the (ID, value)
    pairs, and the two byte strings they make. *)
Definition pkOf (d : TableDesc) (row : list any) : list any :=
  (λ o, default ANil (row !! o)) <$> tPKCols d.
Fixpoint rowPairs (d : TableDesc) (i : nat) (cols : list Column) (vals : list any) : list any :=
  match cols, vals with
  | c :: cols', v :: vals' =>
      (if isPK d i || is_nil v then [] else [AInt KInt64 (colID c); v]) ++ rowPairs d (S i) cols' vals'
  | _, _ => []
  end.
Definition row_key (d : TableDesc) (row : list any) : bytes := tablePrefix (tID d) ++ elems (pkOf d row).
Definition row_val (d : TableDesc) (row : list any) : bytes := elems (rowPairs d 0 (tColumns d) row).

Lemma Append_spec buf vals : Forall any_ok vals ->
  Append buf vals = ns ← normals vals; Ok (buf ++ elems ns).
Proof.
  intros Hok. unfold Append. rewrite appendVals_spec by (done || by left).
  destruct (normals vals); simpl; [|done..]. by rewrite masked_00.
Qed.
Lemma Append_canon buf vals : Forall canon vals -> Append buf vals = Ok (buf ++ elems vals).
Proof.
  intros Hc. rewrite Append_spec, normals_canon_id; [done|done|].
  eapply Forall_impl; [done|]. apply canon_any_ok.
Qed.

Lemma any_ok_pair a b : any_ok a -> any_ok b -> Forall any_ok [a; b].
Proof. auto. Qed.
Lemma canon_pair a b : canon a -> canon b -> Forall canon [a; b].
Proof. auto. Qed.

Lemma normalize_no_panic v p : normalize v <> Panic p.
Proof.
  destruct v as [| |[]| | | | | | | |]; simpl; try done; try (by case_match);
    unfold normalizeFloat; by repeat case_match.
Qed.
Lemma normals_no_panic vals p : normals vals <> Panic p.
Proof.
  induction vals as [|v vals IH]; [done|]. simpl.
  destruct (normalize v) eqn:Ev; simpl; [|done|by apply normalize_no_panic in Ev].
  revert IH. by destruct (normals vals); simpl; congruence.
Qed.
Lemma Append_no_panic buf vals p : Forall any_ok vals -> Append buf vals <> Panic p.
Proof.
  intros Hok. rewrite Append_spec by done. pose proof (normals_no_panic vals p) as Hn.
  revert Hn. by destruct (normals vals); simpl; congruence.
Qed.

Section stored.
Context (d : TableDesc) (Hwf : desc_wf d).

(** A row of the table's shape with canonical values. *)
Definition row_canon (row : list any) : Prop := length row = length (tColumns d) /\ Forall canon row.

Lemma pkValues_pkOf row : length row = length (tColumns d) -> pkValues d row = Ok (pkOf d row).
Proof.
  intros Hl. unfold pkValues, pkOf. apply traverse_ok. pose proof (wf_pk_range d Hwf) as Hr.
  induction Hr as [|o pk Ho _ IH]; constructor; [|done].
  unfold at_index. destruct (lookup_lt_is_Some_2 row o) as [v ->]; [lia|done].
Qed.

Lemma pkOf_canon row : Forall canon row -> Forall canon (pkOf d row).
Proof.
  intros Hc. unfold pkOf. apply Forall_fmap, Forall_forall. intros o _. simpl.
  destruct (row !! o) as [v|] eqn:E; simpl; [|done]. by eapply Forall_lookup_1 in E.
Qed.

Lemma rowKey_row_key row : row_canon row -> (pk ← pkValues d row; rowKey d pk) = Ok (row_key d row).
Proof.
  intros [Hl Hc]. rewrite pkValues_pkOf by done. simpl. unfold rowKey. by apply Append_canon, pkOf_canon.
Qed.

Lemma canon_colID c : c ∈ tColumns d -> canon (AInt KInt64 (colID c)).
Proof.
  intros Hc. pose proof (wf_colID_range d Hwf) as Hr. rewrite Forall_forall in Hr.
  specialize (Hr c Hc). unfold uint32_ok in Hr. simpl. unfold int64_ok. lia.
Qed.

Lemma encodeCols_pairs i cols row vals buf : drop i row = vals -> length vals = length cols ->
  Forall canon vals -> (forall c, c ∈ cols -> canon (AInt KInt64 (colID c))) ->
  encodeCols d i cols row buf = Ok (buf ++ elems (rowPairs d i cols vals)).
Proof.
  intros Hd Hl Hc Hids. revert i vals buf Hd Hl Hc. induction cols as [|c cols IH]; intros i vals buf Hd Hl Hc.
  - destruct vals; [|done]. simpl. by rewrite app_nil_r.
  - destruct vals as [|v vals]; [done|]. apply Forall_cons in Hc as [Hv Hc]. cbn [encodeCols rowPairs].
    assert (row !! i = Some v) as Hi.
    { rewrite <- (Nat.add_0_r i), <- lookup_drop, Hd. done. }
    assert (drop (S i) row = vals) as Hd'.
    { rewrite <- Nat.add_1_r, <- drop_drop, Hd. done. }
    unfold at_index. rewrite Hi. cbn [mbind outcome_bind].
    destruct (isPK d i || is_nil v).
    + apply IH; [|done|simpl in Hl; lia|done]. intros c' Hc'. apply Hids. by right.
    + rewrite Append_canon by (apply canon_pair; [apply Hids; left|done]). cbn [mbind outcome_bind].
      rewrite (IH ltac:(intros; apply Hids; by right) _ vals) by (done || simpl in Hl; lia).
      rewrite elems_app. by rewrite app_assoc.
Qed.

Lemma encodeRowValue_row_val row : row_canon row -> encodeRowValue d row = Ok (row_val d row).
Proof.
  intros [Hl Hc]. unfold encodeRowValue.
  rewrite (encodeCols_pairs 0 _ row row) by (done || apply canon_colID). done.
Qed.

(** *** Decoding *)

Fixpoint blank (i : nat) (vals : list any) : list any :=
  match vals with
  | [] => []
  | v :: vals' => (if isPK d i then v else ANil) :: blank (S i) vals'
  end.

Lemma blank_lookup i vals j :
  blank i vals !! j = (λ v, if isPK d (i + j) then v else ANil) <$> vals !! j.
Proof.
  revert i j; induction vals as [|v vals IH]; intros i [|j]; simpl; [done..| |].
  - by rewrite Nat.add_0_r.
  - rewrite IH. by rewrite Nat.add_succ_r.
Qed.

Lemma fillPK_lookup row vals pk : length vals = length row -> Forall (λ o, o < length row)%nat pk ->
  exists vals', fillPK vals pk ((λ o, default ANil (row !! o)) <$> pk) = Ok vals' /\
    length vals' = length row /\
    forall j, vals' !! j = if decide (j ∈ pk) then row !! j else vals !! j.
Proof.
  intros Hl Hpk. revert vals Hl. induction Hpk as [|o pk Ho _ IH]; intros vals Hl; csimpl.
  - exists vals. split_and!; [done..|]. done.
  - unfold set_index. rewrite decide_True by lia. simpl.
    destruct (IH (<[o := default ANil (row !! o)]> vals)) as (vals' & Hf & Hl' & Hj);
      [by rewrite length_insert|].
    exists vals'. split_and!; [done..|]. intros j. rewrite Hj.
    destruct (decide (j ∈ pk)); [rewrite decide_True by (by right); done|].
    destruct (decide (j = o)) as [->|Hne].
    + rewrite decide_True by left. rewrite list_lookup_insert_eq by lia.
      by destruct (lookup_lt_is_Some_2 row o Ho) as [v ->].
    + rewrite decide_False by (by apply not_elem_of_cons). by apply list_lookup_insert_ne.
Qed.

Lemma fillPK_blank row : length row = length (tColumns d) ->
  fillPK (replicate (length (tColumns d)) ANil) (tPKCols d) (pkOf d row) = Ok (blank 0 row).
Proof.
  intros Hl. destruct (fillPK_lookup row (replicate (length (tColumns d)) ANil) (tPKCols d))
    as (vals' & Hf & Hl' & Hj); [by rewrite length_replicate|rewrite Hl; apply Hwf|].
  unfold pkOf. rewrite Hf. f_equal. apply list_eq. intros j. rewrite Hj, blank_lookup. simpl.
  unfold isPK. destruct (decide (j ∈ tPKCols d)).
  - rewrite bool_decide_true by done. by destruct (row !! j).
  - rewrite bool_decide_false by done. destruct (row !! j) as [v|] eqn:E; simpl.
    + apply lookup_lt_Some in E. by rewrite lookup_replicate_2 by lia.
    + apply lookup_ge_None in E. apply lookup_replicate_None. lia.
Qed.

(** One step of the pair loop on a stored column. *)
Lemma fillPairs_column vals i c v pairs : tColumns d !! i = Some c -> (i < length vals)%nat ->
  fillPairs d vals (AInt KInt64 (colID c) :: v :: pairs) = fillPairs d (<[i := v]> vals) pairs.
Proof.
  intros Hi Hl. cbn [fillPairs]. pose proof (wf_colID_range d Hwf) as Hr.
  eapply Forall_lookup_1 in Hr; [|done]. unfold uint32, uint32_ok in *. simpl in Hr.
  rewrite Z.mod_small by done. rewrite colOrdinalByID_column with (i := i) by done.
  unfold set_index. by rewrite decide_True.
Qed.

Lemma fillPairs_rowPairs pre cols vals rest :
  tColumns d = rest ++ cols -> length rest = length pre -> length vals = length cols ->
  fillPairs d (pre ++ blank (length pre) vals) (rowPairs d (length pre) cols vals) = Ok (pre ++ vals).
Proof.
  revert pre vals rest. induction cols as [|c cols IH]; intros pre [|v vals] rest Hcols Hpre Hl; try done.
  cbn [rowPairs blank].
  assert (tColumns d !! length pre = Some c) as Hc.
  { rewrite Hcols, lookup_app_r, Hpre, Nat.sub_diag by lia. done. }
  assert (forall w, fillPairs d (pre ++ w :: blank (S (length pre)) vals)
      (rowPairs d (S (length pre)) cols vals) = Ok (pre ++ w :: vals)) as Hstep.
  { intros w. specialize (IH (pre ++ [w]) vals (rest ++ [c])).
    rewrite !length_app, <- !app_assoc in IH. cbn [length app] in IH. rewrite !Nat.add_1_r in IH. apply IH; [done|simpl; lia|simpl in Hl; lia]. }
  destruct (isPK d (length pre)) eqn:Hpk; cbn [orb app]; [apply Hstep|].
  destruct (is_nil v) eqn:Hn; cbn [app].
  - by destruct v; try done; apply Hstep.
  - rewrite (fillPairs_column _ (length pre) c v) by (done || rewrite length_app; simpl; lia).
    rewrite insert_app_r_alt, Nat.sub_diag by lia. apply Hstep.
Qed.

Lemma rowPairs_canon i cols vals : Forall canon vals ->
  (forall c, c ∈ cols -> canon (AInt KInt64 (colID c))) -> Forall canon (rowPairs d i cols vals).
Proof.
  intros Hc. revert i cols. induction Hc as [|v vals Hv _ IH]; intros i [|c cols] Hids; simpl; try constructor.
  apply Forall_app. split; [|apply IH; intros; apply Hids; by right].
  destruct (isPK d i || is_nil v); [constructor|]. apply canon_pair; [apply Hids; left|done].
Qed.

Lemma rowPairs_even i cols vals : (length (rowPairs d i cols vals) mod 2 = 0)%nat.
Proof.
  revert i vals. induction cols as [|c cols IH]; intros i [|v vals]; try done. cbn [rowPairs].
  destruct (isPK d i || is_nil v); [apply IH|]. cbn [app length].
  replace (S (S (length (rowPairs d (S i) cols vals))))%nat
    with (length (rowPairs d (S i) cols vals) + 1 * 2)%nat by lia.
  rewrite Nat.Div0.mod_add. apply IH.
Qed.

Lemma row_key_elems row : row_key d row = elems (kint (int64 (tID d)) :: kint 1 :: pkOf d row).
Proof.
  unfold row_key. rewrite tablePrefix_elems, <- elems_app. done.
Qed.

(** A stored row reads back. *)
Lemma decodeRow_stored row : row_canon row ->
  decodeRow d (row_key d row) (row_val d row) = Ok (mkRow d row).
Proof.
  intros [Hl Hc]. unfold decodeRow. rewrite row_key_elems, Decode_elems.
  - cbn [mbind outcome_bind]. rewrite decide_False by (unfold pkOf; simpl; rewrite length_fmap; lia).
    unfold row_val. rewrite Decode_elems by (apply rowPairs_canon; [done|apply canon_colID]).
    cbn [mbind outcome_bind]. rewrite decide_False by (rewrite rowPairs_even; lia). cbv zeta.
    cbn [drop]. rewrite drop_0.
    rewrite fillPK_blank by done. cbn [mbind outcome_bind].
    pose proof (fillPairs_rowPairs [] (tColumns d) row []) as Hp. cbn [app length] in Hp.
    by rewrite Hp.
  - constructor; [apply canon_int64|]. constructor; [simpl; unfold int64_ok; lia|]. by apply pkOf_canon.
Qed.

End stored.

(** *** Rows as written, before normalization *)

(** [coerce] leaves a negative zero as it is; the stored bytes are those of
    the normalized row. *)
Section written.
Context (d : TableDesc) (Hwf : desc_wf d).

Lemma normalize_nil v n : normalize v = Ok n -> is_nil n = is_nil v.
Proof.
  destruct v as [| |[] z|b|b| | | | | |]; simpl; try (by intros [= <-]); try done.
  - intros Hn. case_in Hn; [done|]. by injection Hn as <-.
  - intros Hn. case_in Hn; [done|]. by injection Hn as <-.
  - unfold normalizeFloat. destruct (f64_isNaN _); [done|]. by destruct (f64_is0 _); intros [= <-].
  - unfold normalizeFloat. destruct (f64_isNaN _); [done|]. by destruct (f64_is0 _); intros [= <-].
Qed.

Lemma encodeCols_norm row nrow i cols buf :
  Forall any_ok row -> Forall2 (λ v n, normalize v = Ok n) row nrow ->
  (forall c, c ∈ cols -> canon (AInt KInt64 (colID c))) ->
  encodeCols d i cols row buf = encodeCols d i cols nrow buf.
Proof.
  intros Hok Hn. revert i buf. induction cols as [|c cols IH]; intros i buf Hids; [done|].
  cbn [encodeCols]. unfold at_index. destruct (row !! i) as [v|] eqn:Ev.
  - destruct (Forall2_lookup_l _ _ _ _ _ Hn Ev) as (n & -> & Hv). cbn [mbind outcome_bind].
    assert (any_ok v) as Hv' by (by eapply Forall_lookup_1 in Ev).
    assert (canon n) as Hcn by (by eapply normalize_canon).
    rewrite (normalize_nil v n Hv). destruct (isPK d i || is_nil v); [apply IH; intros; apply Hids; by right|].
    assert (canon (AInt KInt64 (colID c))) as Hid by (apply Hids; left).
    rewrite !Append_spec by (apply any_ok_pair; auto using canon_any_ok).
    cbn [traverse]. rewrite (normalize_canon_id (AInt _ _)), (normalize_canon_id n) by done.
    rewrite Hv. cbn [mbind outcome_bind].
    apply IH. intros; apply Hids; by right.
  - apply lookup_ge_None in Ev. rewrite (Forall2_length _ _ _ Hn) in Ev.
    by apply lookup_ge_None in Ev as ->.
Qed.

Lemma encodeCols_inv row i cols buf out j v :
  Forall any_ok row -> (forall c, c ∈ cols -> canon (AInt KInt64 (colID c))) ->
  encodeCols d i cols row buf = Ok out -> (j < length cols)%nat -> row !! (i + j)%nat = Some v ->
  isPK d (i + j) = false -> exists n, normalize v = Ok n.
Proof.
  intros Hok. revert i j buf. induction cols as [|c cols IH]; intros i j buf Hids; [simpl; lia|].
  cbn [encodeCols]. unfold at_index. destruct (row !! i) as [w|] eqn:Ew; cbn [mbind outcome_bind]; [|done].
  assert (any_ok w) as Hw by (by eapply Forall_lookup_1 in Ew).
  assert (forall c', c' ∈ cols -> canon (AInt KInt64 (colID c'))) as Hids' by (intros; apply Hids; by right).
  intros He Hj Hv Hpk. destruct j as [|j].
  - rewrite Nat.add_0_r in *. rewrite Hpk in He. cbn [orb] in He. assert (v = w) as -> by congruence.
    destruct (is_nil w) eqn:Hn; [by destruct w; eauto|].
    assert (canon (AInt KInt64 (colID c))) as Hid by (apply Hids; left).
    rewrite Append_spec in He by (apply any_ok_pair; auto using canon_any_ok).
    cbn [traverse] in He. rewrite (normalize_canon_id (AInt _ _)) in He by done. cbn [mbind outcome_bind] in He.
    destruct (normalize w); naive_solver.
  - rewrite Nat.add_succ_r in Hv, Hpk. simpl in Hj. destruct (isPK d i || is_nil w).
    + eapply (IH (S i) j); eauto. lia.
    + destruct (Append buf [AInt KInt64 (colID c); w]) as [buf'| |]; cbn [mbind outcome_bind] in He; [|done..].
      eapply (IH (S i) j); eauto. lia.
Qed.

Lemma encodeCols_no_panic row i cols buf p : Forall any_ok row -> (i + length cols <= length row)%nat ->
  (forall c, c ∈ cols -> canon (AInt KInt64 (colID c))) -> encodeCols d i cols row buf <> Panic p.
Proof.
  intros Hok. revert i buf. induction cols as [|c cols IH]; intros i buf Hl Hids; [done|].
  cbn [encodeCols]. unfold at_index. simpl in Hl.
  destruct (lookup_lt_is_Some_2 row i) as [v Hv]; [lia|]. rewrite Hv. cbn [mbind outcome_bind].
  assert (forall c', c' ∈ cols -> canon (AInt KInt64 (colID c'))) as Hids' by (intros; apply Hids; by right).
  destruct (isPK d i || is_nil v); [apply IH; [lia|done]|].
  destruct (Append buf _) as [buf'| |] eqn:Ea; cbn [mbind outcome_bind]; [apply IH; [lia|done]|done|].
  apply Append_no_panic in Ea; [done|]. apply any_ok_pair; [apply canon_any_ok, Hids; left|].
  by eapply Forall_lookup_1 in Hv.
Qed.

Lemma encodeRowValue_no_panic row p : length row = length (tColumns d) -> Forall any_ok row ->
  encodeRowValue d row <> Panic p.
Proof. intros Hl Hok. apply encodeCols_no_panic; [done|lia|by apply canon_colID]. Qed.

Lemma pkOf_norm row nrow : Forall2 (λ v n, normalize v = Ok n) row nrow ->
  normals (pkOf d row) = Ok (pkOf d nrow).
Proof.
  intros Hn. unfold pkOf. apply traverse_ok. rewrite Forall2_fmap. apply Forall_Forall2_diag, Forall_forall.
  intros o _. simpl. destruct (row !! o) as [v|] eqn:E.
  - by destruct (Forall2_lookup_l _ _ _ _ _ Hn E) as (n & -> & Hv).
  - apply lookup_ge_None in E. rewrite (Forall2_length _ _ _ Hn) in E. by apply lookup_ge_None in E as ->.
Qed.

Lemma pkOf_any_ok row : Forall any_ok row -> Forall any_ok (pkOf d row).
Proof.
  intros Hc. unfold pkOf. apply Forall_fmap, Forall_forall. intros o _. simpl.
  destruct (row !! o) as [v|] eqn:E; simpl; [|done]. by eapply Forall_lookup_1 in E.
Qed.

(** The two byte strings a write computes, both or none, from the
    normalized row. *)
Lemma written_ok row nrow : length row = length (tColumns d) -> Forall any_ok row ->
  normals row = Ok nrow ->
  row_canon d nrow /\ (pk ← pkValues d row; rowKey d pk) = Ok (row_key d nrow) /\
  encodeRowValue d row = Ok (row_val d nrow).
Proof.
  intros Hl Hok Hn. pose proof (normals_canon _ _ Hok Hn) as Hc. pose proof (traverse_length _ _ _ Hn) as Hln.
  assert (row_canon d nrow) as Hrc by (split; [congruence|done]). apply traverse_ok in Hn.
  split_and!; [done| |].
  - rewrite pkValues_pkOf by done. cbn [mbind outcome_bind]. unfold rowKey.
    rewrite Append_spec by (by apply pkOf_any_ok). by rewrite (pkOf_norm row nrow).
  - unfold encodeRowValue. rewrite (encodeCols_norm row nrow) by (done || by apply canon_colID).
    by apply encodeRowValue_row_val.
Qed.

Lemma written_inv row key val : length row = length (tColumns d) -> Forall any_ok row ->
  (pk ← pkValues d row; rowKey d pk) = Ok key -> encodeRowValue d row = Ok val ->
  exists nrow, normals row = Ok nrow.
Proof.
  intros Hl Hok Hk Hv.
  assert (forall i v, row !! i = Some v -> exists n, normalize v = Ok n) as Hall.
  { intros i v Hi. destruct (isPK d i) eqn:Hpk.
    - rewrite pkValues_pkOf in Hk by done. cbn [mbind outcome_bind] in Hk. unfold rowKey in Hk.
      rewrite Append_spec in Hk by (by apply pkOf_any_ok).
      destruct (normals (pkOf d row)) as [ns| |] eqn:E; [|done..]. apply traverse_ok in E.
      unfold isPK in Hpk. apply bool_decide_eq_true in Hpk. apply list_elem_of_lookup in Hpk as [j Hj].
      assert (pkOf d row !! j = Some v) as Hp by (unfold pkOf; by rewrite list_lookup_fmap, Hj; simpl; rewrite Hi).
      destruct (Forall2_lookup_l _ _ _ _ _ E Hp) as (n & _ & Hn). eauto.
    - apply (encodeCols_inv row 0 (tColumns d) [] val i v); try done; [by apply canon_colID|].
      apply lookup_lt_Some in Hi. lia. }
  clear -Hall. induction row as [|v row IH]; [by exists []|].
  destruct (Hall 0%nat v eq_refl) as [n Hn]. destruct IH as [ns Hns]; [intros i; apply (Hall (S i))|].
  exists (n :: ns). simpl. by rewrite Hn, Hns.
Qed.

End written.

(** *** Rows of a table *)

Section table_rows.
Context (d : TableDesc) (Hwf : desc_wf d).

(** A value list as [coerceRow] returns it. *)
Definition row_typed (row : list any) : Prop :=
  length row = length (tColumns d) /\
  forall i c v, tColumns d !! i = Some c -> row !! i = Some v -> cell_ok d i c v.

(** A row as stored: also canonical. *)
Definition row_ok (row : list any) : Prop := row_typed row /\ Forall canon row.

Lemma row_ok_canon row : row_ok row -> row_canon d row.
Proof. by intros [[? ?] ?]. Qed.

Lemma cell_ok_any_ok i c v : cell_ok d i c v -> any_ok v.
Proof.
  unfold cell_ok. destruct (is_nil v) eqn:E; [by destruct v|]. intros [Ht _]. by eapply typed_any_ok.
Qed.

Lemma row_typed_any_ok row : row_typed row -> Forall any_ok row.
Proof.
  intros [Hl Hc]. apply Forall_lookup. intros i v Hv.
  destruct (lookup_lt_is_Some_2 (tColumns d) i) as [c Hi].
  - apply lookup_lt_Some in Hv. lia.
  - by eapply cell_ok_any_ok, Hc.
Qed.

Lemma coerceCols_ok j cols vals row : Forall maxlen_ok cols -> Forall any_ok vals ->
  length vals = length cols -> coerceCols d j cols vals = Ok row ->
  length row = length cols /\
  forall i c v, cols !! i = Some c -> row !! i = Some v -> cell_ok d (j + i) c v.
Proof.
  intros Hm. revert j vals row. induction Hm as [|c cols Hc _ IH]; intros j vals row Hok Hl; simpl.
  - intros [= <-]. split; [done|]. by intros i ? ?.
  - destruct vals as [|v vals]; [done|]. apply Forall_cons in Hok as [Hv Hok].
    intros (cv & Hcv & (out & Hout & [= <-])%outcome_bind_ok)%outcome_bind_ok.
    destruct (IH (S j) vals out) as [Hlo Hi]; [done|simpl in Hl; lia|done|].
    split; [simpl; lia|]. intros [|i] c' v' Hc' Hv'; simpl in *.
    + simplify_eq. rewrite Nat.add_0_r. by eapply coerceCol_ok.
    + rewrite Nat.add_succ_r. by eapply Hi.
Qed.

Lemma coerceRow_typed vals row : Forall any_ok vals -> coerceRow d vals = Ok row -> row_typed row.
Proof.
  intros Hok. unfold coerceRow. destruct (decide _) as [|Hl]; [done|]. intros Hr.
  apply coerceCols_ok in Hr; [done|apply Hwf|done|lia].
Qed.

Lemma coerceCols_no_panic j cols vals p : coerceCols d j cols vals <> Panic p.
Proof.
  revert j vals. induction cols as [|c cols IH]; intros j [|v vals]; simpl; try done.
  destruct (coerceCol d j c v) as [cv| |] eqn:E; simpl; [|done|by apply coerceCol_no_panic in E].
  specialize (IH (S j) vals). by destruct (coerceCols d (S j) cols vals).
Qed.
Lemma coerceRow_no_panic vals p : coerceRow d vals <> Panic p.
Proof. unfold coerceRow. case_decide; [done|]. apply coerceCols_no_panic. Qed.

Lemma typed_normalize t v n : typed t v -> normalize v = Ok n -> typed t n /\ (n = v \/ exists b, n = AFloat64 b).
Proof.
  destruct t, v as [| |[] z|b|b| | | | | |]; simpl; try done; intros Ht; try (intros [= <-]; by eauto).
  unfold normalizeFloat. destruct (f64_isNaN _); [done|].
  destruct (f64_is0 _); intros [= <-]; simpl; (split; [|eauto]); [unfold f64_ok; lia|done].
Qed.

Lemma cell_ok_normalize i c v n : cell_ok d i c v -> normalize v = Ok n -> cell_ok d i c n.
Proof.
  intros Hc Hn. unfold cell_ok in *. rewrite (normalize_nil v n Hn). destruct (is_nil v); [done|].
  destruct Hc as [Ht Hf]. destruct (typed_normalize _ _ _ Ht Hn) as [Ht' [->|[b ->]]]; done.
Qed.

Lemma row_typed_normals row nrow : row_typed row -> normals row = Ok nrow -> row_ok nrow.
Proof.
  intros Hr Hn. pose proof (row_typed_any_ok row Hr) as Hok. destruct Hr as [Hl Hc].
  split; [|by eapply normals_canon].
  split; [rewrite (traverse_length _ _ _ Hn); done|]. apply traverse_ok in Hn.
  intros i c n Hi Hni. destruct (Forall2_lookup_r _ _ _ _ _ Hn Hni) as (v & Hv & Hvn).
  eapply cell_ok_normalize; [by eapply Hc|done].
Qed.

Lemma row_ok_pk row o : row_ok row -> o ∈ tPKCols d -> exists v, row !! o = Some v /\ is_nil v = false.
Proof.
  intros [[Hl Hc] _] Ho. pose proof (wf_pk_range d Hwf) as Hr. rewrite Forall_forall in Hr.
  specialize (Hr o Ho). simpl in Hr.
  destruct (lookup_lt_is_Some_2 row o) as [v Hv]; [lia|].
  destruct (lookup_lt_is_Some_2 (tColumns d) o) as [c Hco]; [lia|].
  exists v. split; [done|]. specialize (Hc o c v Hco Hv). unfold cell_ok in Hc.
  destruct (is_nil v); [|done]. destruct Hc as [Hpk _]. unfold isPK in Hpk.
  by apply bool_decide_eq_false in Hpk.
Qed.

(** A row of the table encodes, and reads back as it is. *)
Lemma row_ok_decode row : row_ok row -> decodeRow d (row_key d row) (row_val d row) = Ok (mkRow d row).
Proof. intros H. apply decodeRow_stored; [done|by apply row_ok_canon]. Qed.

(** The key determines the primary key. *)
Lemma row_key_inj row1 row2 : row_ok row1 -> row_ok row2 ->
  row_key d row1 = row_key d row2 <-> pkOf d row1 = pkOf d row2.
Proof.
  intros [_ H1] [_ H2]. unfold row_key. split; [|by intros ->].
  intros E%(inj _). by apply elems_inj in E; [|apply pkOf_canon..].
Qed.

End table_rows.

(** ** What the row plumbing promises *)

Section contracts.

(** C34: coercion is total (it never panics), maps NULL to NULL only, gives
    a value of the column's type, and leaves a value of the type alone. *)
Theorem coerce_sound v t : any_ok v ->
  match coerce v t with
  | Ok w => (is_nil w = is_nil v) /\ (is_nil v = false -> typed t w) /\ coerce w t = Ok w
  | Err _ => is_nil v = false
  | Panic _ => False
  end.
Proof.
  intros Hv. destruct (coerce v t) as [w|e|p] eqn:E.
  - pose proof (coerce_typed v t w Hv E) as Hw. destruct (is_nil v) eqn:Hn; [by subst|].
    split_and!; [by eapply typed_not_nil|done|by apply coerce_fixed].
  - unfold coerce in E. by destruct (is_nil v).
  - by apply coerce_no_panic in E.
Qed.

(** a text written to a [VARCHAR(n)] column ends up with at most [n]
    characters; nothing but trailing spaces is ever cut, and the error is
    raised exactly for a text with a non-space character past the limit. *)
Theorem enforceMaxLen_spec s c : 0 < colMaxLen c ->
  match enforceMaxLen (AString s) c with
  | Ok (AString s') => Z.of_nat (length (runes s')) <= colMaxLen c /\
      exists k, runes s = runes s' ++ replicate k space
  | Err e => e = errTooLong (colMaxLen c) /\
      exists r, r ∈ drop (Z.to_nat (colMaxLen c)) (runes s) /\ r <> space
  | _ => False
  end.
Proof.
  intros Hpos. destruct (enforceMaxLen_cases (AString s) c) as [[E Hf]|(s0 & [= <-] & Hl & H)].
  - rewrite E. split; [by apply Hf|]. exists 0%nat. by rewrite app_nil_r.
  - cbv zeta in H. destruct (forallb _ _) eqn:Ef; rewrite H.
    + rewrite runes_take. split; [rewrite length_take; lia|].
      exists (length (drop (Z.to_nat (colMaxLen c)) (runes s))).
      rewrite <- (take_drop (Z.to_nat (colMaxLen c)) (runes s)) at 1. f_equal.
      symmetry. apply replicate_as_elem_of. split; [done|]. intros r Hr.
      apply forallb_forall with (x := r) in Ef; [by apply Z.eqb_eq|by apply list_elem_of_In].
    + split; [done|]. apply not_true_iff_false in Ef. 
      destruct (decide (Forall (λ r, r = space) (drop (Z.to_nat (colMaxLen c)) (runes s)))) as [Ha|Ha].
      * destruct Ef. apply forallb_forall. intros r Hr%list_elem_of_In.
        rewrite Forall_forall in Ha. by apply Z.eqb_eq, Ha.
      * apply not_Forall_Exists in Ha; [|intros r; destruct (Z.eq_dec r space); by constructor].
        by apply Exists_exists in Ha.
Qed.

(** C33: write then read: the key and value bytes of a coerced row decode to
    the row with its values normalized, and that row is one the table may
    hold (typed, within length limits, NULL only where allowed). *)
Theorem written_row_reads_back d vals row key val : desc_wf d -> Forall any_ok vals ->
  coerceRow d vals = Ok row ->
  (pk ← pkValues d row; rowKey d pk) = Ok key -> encodeRowValue d row = Ok val ->
  exists nrow, normals row = Ok nrow /\ row_ok d nrow /\ decodeRow d key val = Ok (mkRow d nrow).
Proof.
  intros Hwf Hok Hrow Hk Hv. pose proof (coerceRow_typed d Hwf vals row Hok Hrow) as Ht.
  pose proof (row_typed_any_ok d row Ht) as Hany. destruct (written_inv d Hwf row key val) as [nrow Hn]; try done.
  { apply Ht. }
  pose proof (row_typed_normals d row nrow Ht Hn) as Hro.
  destruct (written_ok d Hwf row nrow) as (_ & Hk' & Hv'); [apply Ht|done|done|].
  exists nrow. split_and!; [done..|].
  assert (key = row_key d nrow) as -> by congruence. assert (val = row_val d nrow) as -> by congruence.
  by apply row_ok_decode.
Qed.

End contracts.

Lemma coerce_sound_witness :
  coerce (AInt KUint8 1) TBool = Ok (ABool true) /\
  (is_nil (ABool true) = is_nil (AInt KUint8 1)) /\
  (is_nil (AInt KUint8 1) = false -> typed TBool (ABool true)) /\
  coerce (ABool true) TBool = Ok (ABool true).
Proof.
  split; [reflexivity|].
  apply (coerce_sound (AInt KUint8 1) TBool). simpl. lia.
Defined.

Lemma enforceMaxLen_spec_witness :
  let c := mkColumn (go "name") TString 2 false false [] 2 in
  enforceMaxLen (AString (go "ab  ")) c = Ok (AString (go "ab")) /\
  Z.of_nat (length (runes (go "ab"))) <= 2 /\ exists k, runes (go "ab  ") = runes (go "ab") ++ replicate k space.
Proof.
  split; [reflexivity|].
  apply (enforceMaxLen_spec (go "ab  ") (mkColumn (go "name") TString 2 false false [] 2)). simpl. lia.
Defined.

(** A row with a negative zero, over the limit by a space. *)
Definition exVals : list any := [AInt KInt 7; AString (go "abcd "); AFloat64 (2 ^ 63)].

Lemma written_row_reads_back_witness : exists row key val nrow,
  coerceRow exDesc exVals = Ok row /\ normals row = Ok nrow /\
  row_ok exDesc nrow /\ decodeRow exDesc key val = Ok (mkRow exDesc nrow).
Proof.
  set (row := [AInt KInt64 7; AString (go "abcd"); AFloat64 (2 ^ 63)]).
  destruct (pk ← pkValues exDesc row; rowKey exDesc pk) as [key| |] eqn:Ek; [|by vm_compute in Ek..].
  destruct (encodeRowValue exDesc row) as [val| |] eqn:Ev; [|by vm_compute in Ev..].
  destruct (written_row_reads_back exDesc exVals row key val) as (nrow & H);
    try done.
  - apply exDesc_wf.
  - repeat constructor; simpl; unfold f64_ok; lia.
  - by exists row, key, val, nrow.
Defined.
