(* ===== verification/SqlVal.v ===== *)
(** * Conditions over SQL values

    The value level of the SQL layer: comparison and three-valued logic
    ([sql/exec.go]), the operators of [sql/ast.go], the adaptation of
    literals ([sql/coerce.go]) and LIKE ([sql/expr.go]). *)
From S2P Require Import Prelude GoVal GoStr GoFloat Tuple Json Time Jsonb Types JsonbOps Catalog Desc Rows.

Local Open Scope Z_scope.

(** ** Operators *)

Inductive PredOp :=
  | OpEQ | OpNE | OpLT | OpLE | OpGT | OpGE | OpIsNull | OpIsNotNull
  | OpRegex | OpNotRegex | OpRegexI | OpNotRegexI
  | OpLike | OpNotLike | OpILike | OpNotILike
  | OpContains | OpContainedBy | OpKeyExists | OpKeyExistsAny | OpKeyExistsAll.
#[export] Instance PredOp_eq_dec : EqDecision PredOp.
Proof. solve_decision. Defined.

Definition opText (op : PredOp) : bytes :=
  match op with
  | OpEQ => go "=" | OpNE => go "<>" | OpLT => go "<" | OpLE => go "<=" | OpGT => go ">" | OpGE => go ">="
  | OpRegex => go "~" | OpNotRegex => go "!~" | OpRegexI => go "~*" | OpNotRegexI => go "!~*"
  | OpLike => go "~~" | OpNotLike => go "!~~" | OpILike => go "~~*" | OpNotILike => go "!~~*"
  | OpContains => go "@>" | OpContainedBy => go "<@" | OpKeyExists => go "?" | OpKeyExistsAny => go "?|" | OpKeyExistsAll => go "?&"
  | OpIsNull | OpIsNotNull => go "?"
  end.

(** [5 < id] is [id > 5]; EQ and NE are symmetric. *)
Definition flip (op : PredOp) : PredOp :=
  match op with OpLT => OpGT | OpLE => OpGE | OpGT => OpLT | OpGE => OpLE | _ => op end.
Definition flippable (op : PredOp) : bool :=
  match op with OpEQ | OpNE | OpLT | OpLE | OpGT | OpGE => true | _ => false end.

(** ** Comparison *)

(** NaN equals itself and is above everything else. *)
Definition cmpFloat (a b : Z) : comparison :=
  match f64_isNaN a, f64_isNaN b with
  | true, true => Eq
  | true, false => Gt
  | false, true => Lt
  | false, false => f64_cmp a b
  end.
Definition btoi (b : bool) : Z := if b then 1 else 0.

(** [None] for NULLs and incomparable kinds. *)
Definition compareVals (a b : any) : option comparison :=
  match a, b with
  | AInt KInt64 av, AInt KInt64 bv => Some (Z.compare av bv)
  | AInt KInt64 av, AFloat64 bv => Some (cmpFloat (int64_to_f64 av) bv)
  | AFloat64 av, AFloat64 bv => Some (cmpFloat av bv)
  | AFloat64 av, AInt KInt64 bv => Some (cmpFloat av (int64_to_f64 bv))
  | AString av, AString bv => Some (bcompare av bv)
  | ABool av, ABool bv => Some (Z.compare (btoi av) (btoi bv))
  | ABytes av, ABytes bv => Some (bcompare av bv)
  | _, _ => None
  end.

(** For sorting: NULLs last. Incomparable values count as equal. *)
Definition orderCmp (a b : any) : comparison :=
  match is_nil a, is_nil b with
  | true, true => Eq
  | true, false => Gt
  | false, true => Lt
  | false, false => default Eq (compareVals a b)
  end.

(** ** Truth values *)

Inductive tri := triFalse | triTrue | triUnknown.
#[export] Instance tri_eq_dec : EqDecision tri.
Proof. solve_decision. Defined.
Definition tri_not (t : tri) : tri :=
  match t with triTrue => triFalse | triFalse => triTrue | triUnknown => triUnknown end.
Definition tri_of (hit : bool) : tri := if hit then triTrue else triFalse.

(** ** Literals *)

Definition kindOf (v : any) : ColType :=
  match v with
  | AInt KInt64 _ => TInt
  | AFloat64 _ => TFloat
  | ABool _ => TBool
  | ABytes _ => TBytes
  | _ => TString
  end.

Definition errSyntax (what : bytes) : error := ENew (go "invalid input syntax for type " ++ what).
(** [strconv.ParseBool] of a lower-cased text. *)
Definition ParseBool (s : bytes) : option bool :=
  if bool_decide (s ∈ [go "1"; go "t"; go "true"]) then Some true
  else if bool_decide (s ∈ [go "0"; go "f"; go "false"]) then Some false
  else None.

Definition coerceLit (v : any) (t : ColType) : outcome any :=
  match v with
  | ATime nanos =>
      match t with
      | TTimestamp => Ok (AInt KInt64 (int64 (nanos / 1000)))
      | TDate => Ok (AInt KInt64 (int64 (nanos / 86400000000000)))
      | _ => Ok v
      end
  | AString s =>
      match t with
      | TInt => match ParseInt (TrimSpace s) with Some n => Ok (AInt KInt64 n) | None => Err (errSyntax (go "int")) end
      | TFloat => match ParseFloat (TrimSpace s) with Some f => Ok (AFloat64 f) | None => Err (errSyntax (go "float")) end
      | TBool => match ParseBool (TrimSpace (lower <$> s)) with Some b => Ok (ABool b) | None => Err (errSyntax (go "bool")) end
      | TBytes =>
          match strip (go "\x") s with
          | Some h => match unhex h with Some b => Ok (ABytes b) | None => Err (errSyntax (go "bytea")) end
          | None => Ok (ABytes s)
          end
      | TTimestamp => AInt KInt64 <$> ParseTimestamp s
      | TDate => AInt KInt64 <$> ParseDate s
      | TUUID => ABytes <$> ParseUUID s
      | TTextArray => AString <$> CanonTextArray s
      | TJSONB => AString <$> CanonJSONB s
      | _ => Ok (AString s)
      end
  | _ => Ok v
  end.

(** ** Patterns *)

(** Go's [regexp.Compile]: the matcher of a pattern, [None] when it does not
    parse. The compiled patterns the source keeps in a cache are these. *)
Class Regexp := { regexp_Compile : bytes -> option (bytes -> bool); }.

Section regexps.
Context {re : Regexp}.

Definition errRegex : error := ENew (go "invalid regular expression").
Definition errLikeEscape : error := ENew (go "LIKE pattern must not end with escape character").
Definition errPatternText : error := ENew (go "pattern match requires text operands").
Definition errJsonbText : error := ENew (go "jsonb operator requires text operands").

Definition compileRegex (pat : bytes) (insensitive : bool) : outcome (bytes -> bool) :=
  match regexp_Compile (if insensitive then go "(?i)" ++ pat else pat) with
  | Some f => Ok f
  | None => Err errRegex
  end.

(** [regexp.QuoteMeta] of one rune. *)
Definition metaRunes : list Z := b2z <$> go "\.+*?()|[]{}^$".
Definition QuoteMeta (r : Z) : bytes := (if bool_decide (r ∈ metaRunes) then [x5c] else []) ++ encode_rune r.

Fixpoint likeItems (rs : list Z) : outcome bytes :=
  match rs with
  | [] => Ok []
  | r :: rs' =>
      if r =? 92 then
        match rs' with
        | [] => Err errLikeEscape
        | r' :: rs'' => b ← likeItems rs''; Ok (QuoteMeta r' ++ b)
        end
      else if r =? 37 then b ← likeItems rs'; Ok (go ".*" ++ b)
      else if r =? 95 then b ← likeItems rs'; Ok (go "." ++ b)
      else b ← likeItems rs'; Ok (QuoteMeta r ++ b)
  end.
Definition likeRegex (pat : bytes) : outcome bytes :=
  b ← likeItems (runes pat); Ok (go "(?s)^" ++ b ++ go "$").

(** ** Predicates *)

Definition isLike (op : PredOp) : bool := match op with OpLike | OpNotLike | OpILike | OpNotILike => true | _ => false end.
Definition insensitive (op : PredOp) : bool := match op with OpRegexI | OpNotRegexI | OpILike | OpNotILike => true | _ => false end.
Definition negated (op : PredOp) : bool := match op with OpNotRegex | OpNotRegexI | OpNotLike | OpNotILike => true | _ => false end.

Definition matchPattern (v : any) (op : PredOp) (lit : any) : outcome tri :=
  if is_nil v || is_nil lit then Ok triUnknown
  else
    match v, lit with
    | AString s, AString pat =>
        pat ← (if isLike op then likeRegex pat else Ok pat);
        f ← compileRegex pat (insensitive op);
        Ok (tri_of (xorb (negated op) (f s)))
    | _, _ => Err errPatternText
    end.
Definition matchJsonb (v : any) (op : jsonbPredOp) (lit : any) : outcome tri :=
  if is_nil v || is_nil lit then Ok triUnknown
  else
    match v, lit with
    | AString doc, AString arg => hit ← jsonbPredicate op doc arg; Ok (tri_of hit)
    | _, _ => Err errJsonbText
    end.

(** A bound [time.Time] reads as microseconds. *)
Definition micros (v : any) : any := match v with ATime nanos => AInt KInt64 (int64 (nanos / 1000)) | _ => v end.
Definition errTextOp (op : PredOp) (lit : any) : error :=
  ENew (go "operator does not exist: text " ++ opText op ++ go " " ++ typeName (kindOf lit)).
(** The comparison operators: the literal is adapted to the value's kind. *)
Definition adaptLit (v : any) (op : PredOp) (lit : any) : outcome any :=
  if is_nil v || is_nil lit then Ok lit
  else
    match compareVals v lit with
    | Some _ => Ok lit
    | None =>
        match v, lit with
        | AString _, _ => Err (errTextOp op lit)
        | _, AString s => match coerceLit (AString s) (kindOf v) with Ok cl => Ok cl | _ => Ok lit end
        | _, _ => Ok lit
        end
    end.
Definition holds (op : PredOp) (c : comparison) : bool :=
  match op, c with
  | OpEQ, Eq | OpNE, (Lt | Gt) | OpLT, Lt | OpLE, (Lt | Eq) | OpGT, Gt | OpGE, (Gt | Eq) => true
  | _, _ => false
  end.

Definition checkPred (v : any) (op : PredOp) (lit : any) : outcome tri :=
  match op with
  | OpIsNull => Ok (tri_of (is_nil v))
  | OpIsNotNull => Ok (tri_of (negb (is_nil v)))
  | OpRegex | OpNotRegex | OpRegexI | OpNotRegexI | OpLike | OpNotLike | OpILike | OpNotILike => matchPattern v op lit
  | OpContains => matchJsonb v JContains lit
  | OpContainedBy => matchJsonb v JContainedBy lit
  | OpKeyExists => matchJsonb v JKeyExists lit
  | OpKeyExistsAny => matchJsonb v JKeyExistsAny lit
  | OpKeyExistsAll => matchJsonb v JKeyExistsAll lit
  | OpEQ | OpNE | OpLT | OpLE | OpGT | OpGE =>
      let v := micros v in
      lit ← adaptLit v op (micros lit);
      Ok (match compareVals v lit with Some c => tri_of (holds op c) | None => triUnknown end)
  end.

(** ** Conditions *)

Record ColRef := mkColRef { crTable : bytes; crName : bytes }.
#[export] Instance ColRef_eq_dec : EqDecision ColRef.
Proof. solve_decision. Defined.
(** In WHERE and ON an item is a plain column. [pVal] is nil for IS NULL
    tests and when there is a right-hand column. *)
Record Pred := mkPred { pItem : ColRef; pOp : PredOp; pVal : any; pRItem : option ColRef }.

(** Predicates are shared and, by the join, changed in place: a leaf is the
    address of its predicate. Expression leaves are of any type [C]; [BNil]
    is the absent condition. *)
Inductive BoolExpr {C : Type} :=
  | BNil
  | BPred (p : nat)
  | BCond (c : C)
  | BNot (e : BoolExpr)
  | BAnd (l : list BoolExpr)
  | BOr (l : list BoolExpr).
#[global] Arguments BoolExpr _ : clear implicits.
Definition heap : Type := nat -> Pred.

Section conditions.
Context {C : Type}.

Fixpoint evalBool (leaf : nat -> outcome tri) (cond : C -> outcome tri) (e : BoolExpr C) : outcome tri :=
  match e with
  | BNil => Ok triTrue
  | BPred p => leaf p
  | BCond c => cond c
  | BNot e => t ← evalBool leaf cond e; Ok (tri_not t)
  | BAnd l =>
      (fix loop out l :=
        match l with
        | [] => Ok out
        | e :: l' =>
            t ← evalBool leaf cond e;
            match t with triFalse => Ok triFalse | triUnknown => loop triUnknown l' | triTrue => loop out l' end
        end) triTrue l
  | BOr l =>
      (fix loop out l :=
        match l with
        | [] => Ok out
        | e :: l' =>
            t ← evalBool leaf cond e;
            match t with triTrue => Ok triTrue | triUnknown => loop triUnknown l' | triFalse => loop out l' end
        end) triFalse l
  end.

Fixpoint walkPreds {S : Type} (visit : nat -> S -> outcome S) (e : BoolExpr C) (s : S) : outcome S :=
  match e with
  | BNil | BCond _ => Ok s
  | BPred p => visit p s
  | BNot e => walkPreds visit e s
  | BAnd l | BOr l => (fix loop l s := match l with [] => Ok s | e :: l' => s ← walkPreds visit e s; loop l' s end) l s
  end.

Fixpoint conjuncts (e : BoolExpr C) : list nat :=
  match e with
  | BPred p => [p]
  | BAnd l => (fix loop l := match l with [] => [] | e :: l' => conjuncts e ++ loop l' end) l
  | _ => []
  end.

(** The ordinals of a predicate's operands; a predicate that was never bound
    reads as the zero value. *)
Record binding := mkBinding { bdL : nat; bdR : option nat }.
Definition binds : Type := gmap nat binding.
Definition bound (b : binds) (p : nat) : binding := default (mkBinding 0 (Some 0%nat)) (b !! p).

Definition evalPreds (h : heap) (b : binds) (cond : C -> list any -> outcome tri) (e : BoolExpr C) (vals : list any) : outcome tri :=
  evalBool (λ p,
      let bd := bound b p in
      rhs ← match bdR bd with Some r => at_index vals r | None => Ok (pVal (h p)) end;
      v ← at_index vals (bdL bd);
      checkPred v (pOp (h p)) rhs)
    (λ c, cond c vals) e.
End conditions.
End regexps.

(** ** Laws *)

Section laws.
Context {C : Type}.

Section induction.
Variable P : BoolExpr C -> Prop.
Hypothesis Hnil : P BNil.
Hypothesis Hpred : forall p, P (BPred p).
Hypothesis Hcond : forall c, P (BCond c).
Hypothesis Hnot : forall e, P e -> P (BNot e).
Hypothesis Hand : forall l, Forall P l -> P (BAnd l).
Hypothesis Hor : forall l, Forall P l -> P (BOr l).
Fixpoint BoolExpr_ind' (e : BoolExpr C) : P e :=
  match e with
  | BNil => Hnil
  | BPred p => Hpred p
  | BCond c => Hcond c
  | BNot e => Hnot e (BoolExpr_ind' e)
  | BAnd l => Hand l ((fix loop l := match l return Forall P l with
      | [] => List.Forall_nil _ | e :: l' => @List.Forall_cons _ P _ _ (BoolExpr_ind' e) (loop l') end) l)
  | BOr l => Hor l ((fix loop l := match l return Forall P l with
      | [] => List.Forall_nil _ | e :: l' => @List.Forall_cons _ P _ _ (BoolExpr_ind' e) (loop l') end) l)
  end.
End induction.

Lemma conjuncts_and l : conjuncts (C := C) (BAnd l) = l ≫= conjuncts.
Proof. induction l as [|e l IH]; [done|]. cbn in *. by rewrite IH. Qed.

(** A condition that holds has all its conjuncts hold. *)
Lemma evalBool_and leaf cond l : evalBool (C := C) leaf cond (BAnd l) = Ok triTrue <-> Forall (λ e, evalBool leaf cond e = Ok triTrue) l.
Proof.
  cbn [evalBool]. match goal with |- ?f triTrue l = _ <-> _ => set (loop := f) end. assert (forall l, loop triUnknown l <> Ok triTrue) as Hu.
  { clear l. induction l as [|e l IH]; cbn; [done|]. destruct (evalBool leaf cond e) as [[]| |]; done. }
  induction l as [|e l IH]; cbn; [by split|]. rewrite Forall_cons. destruct (evalBool leaf cond e) as [[]| |]; cbn.
  - split; [done|by intros [? _]].
  - rewrite IH. split; [by intros|by intros [_ ?]].
  - split; [by intros ?%Hu|by intros [? _]].
  - split; [done|by intros [? _]].
  - split; [done|by intros [? _]].
Qed.
Lemma conjunct_holds leaf cond e p : evalBool (C := C) leaf cond e = Ok triTrue -> p ∈ conjuncts e -> leaf p = Ok triTrue.
Proof.
  induction e as [|q|c|e _|l IH|l _] using BoolExpr_ind'; try (by intros _ ?%elem_of_nil).
  - by intros H ->%list_elem_of_singleton.
  - intros H%evalBool_and. rewrite conjuncts_and. intros (e & Hp & He)%list_elem_of_bind. rewrite Forall_forall in H, IH. apply (IH e He); [by apply H|done].
Qed.
End laws.

Lemma cmpFloat_cmp a b : f64_isNaN a = false -> f64_isNaN b = false -> cmpFloat a b = Z.compare (f64_val a) (f64_val b).
Proof. intros Ha Hb. unfold cmpFloat, f64_cmp. by rewrite Ha, Hb. Qed.
