(* ===== verification/Default.v ===== *)
(** * Stored column defaults

    [default.go]: a column's DEFAULT is stored as SQL literal text; the
    engine reads back the literal forms the SQL layer writes ([renderLit] of
    [sql/parser.go]) and the two clock markers. *)
From S2P Require Import Prelude GoVal GoStr GoFloat Tuple Time Jsonb Types Catalog Desc Rows.

Local Open Scope Z_scope.

Definition defaultNowText : bytes := go "now()".
Definition defaultCurrentDateText : bytes := go "current_date".

(** [strings.EqualFold(s, w)] for a lower-case ASCII word [w]. *)
Definition foldsTo (s w : bytes) : bool := bool_decide (foldRune <$> runes s = b2z <$> w).

Definition quote : byte := x27.

(** The body of a quoted literal, doubled quotes undone. *)
Fixpoint unquoteBody (s : bytes) : option bytes :=
  match s with
  | [] => Some []
  | c :: s' =>
      if bool_decide (c = quote) then
        match s' with
        | c' :: s'' => if bool_decide (c' = quote) then b ← unquoteBody s''; Some (quote :: b) else None
        | [] => None
        end
      else b ← unquoteBody s'; Some (c :: b)
  end.
Definition unquoteSQLString (s : bytes) : option bytes :=
  if bool_decide (length s < 2)%nat || negb (bool_decide (head s = Some quote)) || negb (bool_decide (last s = Some quote))
  then None else unquoteBody (removelast (tail s)).

Definition errMalformedDefault : error := ENew (go "malformed string literal in column DEFAULT").
Definition errDefaultExpr : error := ENew (go "column DEFAULT is not a literal the engine can evaluate").

(** [now] is the instant in nanoseconds, in UTC; [current_date] is its
    midnight. *)
Definition decodeDefaultLiteral (text : bytes) (now : Z) : outcome any :=
  let s := TrimSpace text in
  if bool_decide (s = []) || foldsTo s (go "null") then Ok ANil
  else if bool_decide (s = defaultNowText) then Ok (ATime now)
  else if bool_decide (s = defaultCurrentDateText) then Ok (ATime (now - now mod 86400000000000))
  else if foldsTo s (go "true") then Ok (ABool true)
  else if foldsTo s (go "false") then Ok (ABool false)
  else if bool_decide (head s = Some quote) then
    match unquoteSQLString s with Some lit => Ok (AString lit) | None => Err errMalformedDefault end
  else
    match ParseInt s with
    | Some n => Ok (AInt KInt64 n)
    | None =>
        match ParseFloat s with
        | Some f => Ok (AFloat64 f)
        | None => Err errDefaultExpr
        end
    end.

(** [Ok ANil] is a NULL default. *)
Definition columnDefaultValue (col : Column) (now : Z) : outcome any :=
  v ← decodeDefaultLiteral (colDefault col) now;
  cv ← coerce v (colType col);
  enforceMaxLen cv col.

(** ** What the SQL layer stores *)

(** [strings.ReplaceAll] of a quote by two *)
Definition doubleQuotes (s : bytes) : bytes := s ≫= λ c, if bool_decide (c = quote) then [quote; quote] else [c].
Definition renderLit (v : any) : bytes :=
  match v with
  | AInt KInt64 n => fmtInt n
  | AFloat64 b => FormatFloat b
  | ABool b => if b then go "true" else go "false"
  | AString s => quote :: doubleQuotes s ++ [quote]
  | _ => go "null"
  end.

(** ** Laws *)

Lemma decodeDefaultLiteral_ok text now v : decodeDefaultLiteral text now = Ok v -> any_ok v.
Proof.
  unfold decodeDefaultLiteral. cbv zeta. repeat (case_match; [by intros [= <-]|]).
  case_match; [case_match; [by intros [= <-]|done]|].
  destruct (ParseInt _) as [n|] eqn:Ei.
  - intros [= <-]. unfold ParseInt in Ei. destruct (signed _). apply bind_Some in Ei as (m & _ & HH).
    cbv zeta in HH. case_bool_decide as Hr; [|done]. by injection HH as <-.
  - destruct (ParseFloat _) as [f|] eqn:Ef; [|done]. intros [= <-]. by apply ParseFloat_ok in Ef.
Qed.
Lemma decodeDefaultLiteral_no_panic text now p : decodeDefaultLiteral text now <> Panic p.
Proof. unfold decodeDefaultLiteral. cbv zeta. by repeat case_match. Qed.

Lemma enforceMaxLen_no_panic v c p : enforceMaxLen v c <> Panic p.
Proof.
  destruct (enforceMaxLen_cases v c) as [[-> _]|(s & -> & _ & HH)]; [done|]. cbv zeta in HH.
  destruct (forallb _ _); by rewrite HH.
Qed.
Lemma columnDefaultValue_no_panic col now p : columnDefaultValue col now <> Panic p.
Proof.
  unfold columnDefaultValue. destruct (decodeDefaultLiteral _ _) as [v|e|q] eqn:E; cbn [mbind outcome_bind]; [|done|].
  - destruct (coerce v (colType col)) as [cv|e|q] eqn:Ec; cbn [mbind outcome_bind]; [|done|by apply coerce_no_panic in Ec].
    apply enforceMaxLen_no_panic.
  - by apply decodeDefaultLiteral_no_panic in E.
Qed.

(** A default's value is NULL or one the column may hold. *)
Lemma columnDefaultValue_typed col now v : maxlen_ok col -> columnDefaultValue col now = Ok v ->
  if is_nil v then v = ANil else typed (colType col) v /\ fits col v.
Proof.
  intros Hm. unfold columnDefaultValue.
  intros (x & Hx & (cv & Hc & He)%outcome_bind_ok)%outcome_bind_ok.
  apply decodeDefaultLiteral_ok in Hx. pose proof (coerce_typed _ _ _ Hx Hc) as Ht.
  destruct (enforceMaxLen_typed cv col v Hm He) as [Hw Hn]. pose proof (enforceMaxLen_fits _ _ _ He).
  destruct (is_nil v) eqn:Ev; [by destruct v|]. split; [|done]. apply Hw.
  destruct (is_nil x) eqn:Ex; [|done]. subst. by rewrite Hn in Ev.
Qed.

Lemma unquote_double s : unquoteBody (doubleQuotes s) = Some s.
Proof.
  induction s as [|c s IH]; [done|]. unfold doubleQuotes in *. csimpl. case_bool_decide as E.
  - cbn. rewrite IH. by subst.
  - cbn. rewrite bool_decide_false by done. by rewrite IH.
Qed.

Lemma quote_solid : solid quote.
Proof. by apply (bool_decide_unpack _). Qed.

(** A literal that starts with a quote, a sign or a digit is none of the
    words. *)
Definition literal_head (c : byte) : Prop := c = quote \/ c = x2d \/ digitVal c <> None.

Lemma digitVal_code c : digitVal c <> None -> 48 <= b2z c <= 57.
Proof. unfold digitVal. destruct (Z.leb_spec 48 (b2z c)), (Z.leb_spec (b2z c) 57); cbn; by try lia. Qed.
Lemma literal_head_range c : literal_head c -> 39 <= b2z c <= 57.
Proof. intros [-> |[-> |H%digitVal_code]]; cbn; lia. Qed.
Lemma literal_head_solid c : literal_head c -> solid c.
Proof.
  intros [-> |[-> |Hc]]; [by apply (bool_decide_unpack _)..|]. revert Hc. destruct c; try done; intros _; by apply (bool_decide_unpack _).
Qed.

Lemma foldsTo_literal c r a w : literal_head c -> 97 <= b2z a -> foldsTo (c :: r) (a :: w) = false.
Proof.
  intros Hc%literal_head_range Ha. unfold foldsTo. apply bool_decide_false. rewrite runes_cons. unfold decode_rune.
  cbv zeta. rewrite (proj2 (Z.ltb_lt (b2z c) 128)) by lia. csimpl. intros [= H _]. unfold foldRune in H.
  rewrite (proj2 (Z.leb_gt 65 (b2z c))) in H by lia. cbn [andb] in H. repeat case_match; lia.
Qed.

(** Past the words and markers, the text is a quoted string or a number. *)
Lemma decodeDefault_literal c r d now : literal_head c -> last (c :: r) = Some d -> solid d ->
  (c :: r) <> defaultNowText -> (c :: r) <> defaultCurrentDateText ->
  decodeDefaultLiteral (c :: r) now =
    if bool_decide (c = quote) then
      match unquoteSQLString (c :: r) with Some lit => Ok (AString lit) | None => Err errMalformedDefault end
    else match ParseInt (c :: r) with
         | Some n => Ok (AInt KInt64 n)
         | None => match ParseFloat (c :: r) with Some f => Ok (AFloat64 f) | None => Err errDefaultExpr end
         end.
Proof.
  intros Hc Hd Sd H1 H2. unfold decodeDefaultLiteral.
  rewrite (TrimSpace_id (c :: r) c d) by (done || by apply literal_head_solid). cbv zeta.
  assert (forall a w, 97 <= b2z a -> foldsTo (c :: r) (a :: w) = false) as Hw by (intros; by apply foldsTo_literal).
  assert (foldsTo (c :: r) (go "null") = false) as -> by (by apply (Hw x6e)).
  assert (foldsTo (c :: r) (go "true") = false) as -> by (by apply (Hw x74)).
  assert (foldsTo (c :: r) (go "false") = false) as -> by (by apply (Hw x66)).
  rewrite (bool_decide_false (_ = [])), !(bool_decide_false (c :: r = _)) by done. cbn [orb head].
  repeat case_bool_decide; naive_solver.
Qed.

Lemma marker_head c r : literal_head c -> (c :: r) <> defaultNowText /\ (c :: r) <> defaultCurrentDateText.
Proof. intros Hc%literal_head_range. split; intros [= -> _]; cbn in Hc; lia. Qed.

Lemma fmtInt_literal n : exists c r d, fmtInt n = c :: r /\ literal_head c /\ c <> quote /\
  last (c :: r) = Some d /\ digitVal d <> None.
Proof.
  assert (forall m, 0 <= m -> exists c r d, digits m = c :: r /\ digitVal c <> None /\ last (c :: r) = Some d /\ digitVal d <> None) as H.
  { intros m Hm. pose proof (digits_Forall m Hm) as Hd. pose proof (undigits_digits m Hm) as Hu.
    destruct (digits m) as [|c r]; [done|]. destruct (last (c :: r)) as [d|] eqn:E; [|by apply last_None in E].
    exists c, r, d. split_and!; [done| |done|]; [by inversion Hd|].
    apply last_Some in E as [l E]. rewrite E in Hd. apply Forall_app in Hd as [_ Hd]. by inversion Hd. }
  unfold fmtInt. destruct (Z.ltb_spec n 0).
  - destruct (H (- n)) as (c & r & d & E & Hc & Hl & Hd); [lia|]. rewrite E. exists x2d, (c :: r), d.
    split_and!; [done|by right; left|done|done|done].
  - destruct (H n) as (c & r & d & E & Hc & Hl & Hd); [lia|]. rewrite E. exists c, r, d.
    split_and!; [done|by right; right| |done|done]. intros ->. done.
Qed.

Lemma ParseInt_fmtInt n : int64_ok n -> ParseInt (fmtInt n) = Some n.
Proof.
  intros Hn. unfold ParseInt, fmtInt. destruct (Z.ltb_spec n 0).
  - cbn [signed]. rewrite bool_decide_true by done. rewrite undigits_digits by lia. cbn.
    rewrite bool_decide_true by (by rewrite Z.opp_involutive). f_equal. lia.
  - assert (signed (digits n) = (false, digits n)) as ->.
    { pose proof (digits_Forall n ltac:(lia)) as Hd. destruct (digits n) as [|c r]; [done|]. inversion Hd; subst.
      cbn [signed]. rewrite !bool_decide_false by (by intros ->). done. }
    rewrite undigits_digits by lia. cbn. by rewrite bool_decide_true.
Qed.

(** The constants a DEFAULT clause stores, floats apart. *)
Definition constant (v : any) : Prop :=
  match v with ANil | ABool _ | AString _ => True | AInt KInt64 n => int64_ok n | _ => False end.


