(* ===== verification/Wire.v ===== *)
(** * The wire format

    [pgwire/proto.go] and [pgwire/values.go]: the framing of messages, the
    buffers that take bodies apart and build them, and the text and binary
    forms of values. *)
From S2P Require Import Prelude GoVal GoStr GoFloat Tuple Json Time Jsonb Types Catalog Desc Rows Default.

Local Open Scope Z_scope.

(** ** Frames *)

Definition maxMsgLen : Z := 2 ^ 26.
Definition maxPreAuthLen : Z := 2 ^ 14.

Definition errEOF : error := ENew (go "EOF").
Definition errUnexpectedEOF : error := ENew (go "unexpected EOF").
Definition errMsgLength : error := ENew (go "bad message length").

(** The reader is what the stream will still deliver before it ends.
    [io.ReadFull] and [io.CopyN] take [n > 0] bytes or report how the stream
    ended. *)
Definition readN (n : nat) (r : bytes) : outcome bytes * bytes :=
  if bool_decide (n <= length r)%nat then (Ok (take n r), drop n r)
  else (Err (match r with [] => errEOF | _ => errUnexpectedEOF end), []).
Definition ReadByte (r : bytes) : outcome byte * bytes :=
  match r with c :: r' => (Ok c, r') | [] => (Err errEOF, []) end.

Definition readBody (limit : Z) : M bytes bytes :=
  lb ← readN 4;
  let n := be_val lb - 4 in
  if (n <? 0) || (limit <? n) then fail errMsgLength
  else if n =? 0 then mret []
  else readN (Z.to_nat n).
Definition readMessageUpTo (limit : Z) : M bytes (byte * bytes) :=
  typ ← ReadByte;
  body ← readBody limit;
  mret (typ, body).
Definition readMessage : M bytes (byte * bytes) := readMessageUpTo maxMsgLen.
Definition readMessagePreAuth : M bytes (byte * bytes) := readMessageUpTo maxPreAuthLen.
Definition readStartup : M bytes bytes := readBody maxPreAuthLen.

(** What [conn.send] writes. *)
Definition frame (typ : byte) (body : bytes) : bytes := typ :: be 4 (Z.of_nat (length body) + 4) ++ body.

(** ** Reading a body *)

(** The first short read latches [rbad]. *)
Record rbuf := mkRbuf { rb : bytes; rbad : bool }.
Definition fixedRead (n : nat) (r : rbuf) : option bytes * rbuf :=
  if rbad r || bool_decide (length (rb r) < n)%nat then (None, mkRbuf (rb r) true)
  else (Some (take n (rb r)), mkRbuf (drop n (rb r)) false).
Definition r_byte (r : rbuf) : byte * rbuf :=
  match fixedRead 1 r with (Some (c :: _), r') => (c, r') | (_, r') => (x00, r') end.
Definition r_u16 (r : rbuf) : Z * rbuf :=
  match fixedRead 2 r with (Some v, r') => (be_val v, r') | (None, r') => (0, r') end.
Definition r_u32 (r : rbuf) : Z * rbuf :=
  match fixedRead 4 r with (Some v, r') => (be_val v, r') | (None, r') => (0, r') end.

(** The text before the first NUL, and what follows it. *)
Fixpoint cut_nul (b : bytes) : option (bytes * bytes) :=
  match b with
  | [] => None
  | c :: b' =>
      if bool_decide (c = x00) then Some ([], b')
      else match cut_nul b' with Some (s, rest) => Some (c :: s, rest) | None => None end
  end.
Definition r_cstr (r : rbuf) : bytes * rbuf :=
  if rbad r then ([], r)
  else match cut_nul (rb r) with
       | Some (s, rest) => (s, mkRbuf rest false)
       | None => ([], mkRbuf (rb r) true)
       end.

(** [int32(u)] and [int16(u)]. *)
Definition int32 (z : Z) : Z := (z + 2 ^ 31) mod 2 ^ 32 - 2 ^ 31.
Definition int16 (z : Z) : Z := (z + 2 ^ 15) mod 2 ^ 16 - 2 ^ 15.

(** [None] is SQL NULL. *)
Definition r_bytesN (r : rbuf) : option bytes * rbuf :=
  let '(u, r) := r_u32 r in
  let n := int32 u in
  if rbad r || (n <? 0) then (None, r)
  else if Z.of_nat (length (rb r)) <? n then (None, mkRbuf (rb r) true)
  else (Some (take (Z.to_nat n) (rb r)), mkRbuf (drop (Z.to_nat n) (rb r)) (rbad r)).

(** ** Building a body *)

Definition w_byte (v : byte) (b : bytes) : bytes := b ++ [v].
Definition w_int16 (v : Z) (b : bytes) : bytes := b ++ be 2 v.
Definition w_int32 (v : Z) (b : bytes) : bytes := b ++ be 4 v.
Definition w_cstr (s b : bytes) : bytes := b ++ s ++ [x00].
Definition w_raw (v b : bytes) : bytes := b ++ v.

(** ** Types *)

Definition oidBool : Z := 16.
Definition oidBytea : Z := 17.
Definition oidInt8 : Z := 20.
Definition oidInt2 : Z := 21.
Definition oidInt4 : Z := 23.
Definition oidText : Z := 25.
Definition oidFloat4 : Z := 700.
Definition oidFloat8 : Z := 701.
Definition oidDate : Z := 1082.
Definition oidTimestamp : Z := 1114.
Definition oidTimestamptz : Z := 1184.
Definition oidUUID : Z := 2950.
Definition oidTextArray : Z := 1009.
Definition oidJSON : Z := 114.
Definition oidJSONB : Z := 3802.
Definition oidVarchar : Z := 1043.

Definition oidForType (t : ColType) : Z :=
  match t with
  | TBool => oidBool | TInt => oidInt8 | TFloat => oidFloat8 | TBytes => oidBytea
  | TTimestamp => oidTimestamptz | TDate => oidDate | TUUID => oidUUID
  | TTextArray => oidTextArray | TJSONB => oidJSONB | TString | TOther _ => oidText
  end.
Definition typeSize (t : ColType) : Z :=
  match t with TBool => 1 | TInt | TFloat | TTimestamp => 8 | TDate => 4 | TUUID => 16 | _ => -1 end.
Definition formatFor (formats : list Z) (i : nat) : outcome Z :=
  match formats with
  | [] => Ok 0
  | [f] => Ok f
  | _ => at_index formats i
  end.

(** ** Values *)

Definition pgEpochMicros : Z := 946684800000000.
Definition pgEpochDays : Z := 10957.
Definition fmtText : Z := 0.
Definition fmtBinary : Z := 1.

Definition is_null (e : textElem) : bool := match e with None => true | Some _ => false end.
Definition arrayElem (e : textElem) : bytes :=
  match e with None => be 4 (-1) | Some s => be 4 (Z.of_nat (length s)) ++ s end.
Definition encodeTextArrayBinary (literal : bytes) : outcome bytes :=
  elems ← ParseTextArray literal;
  match elems with
  | [] => Ok (be 4 0 ++ be 4 0 ++ be 4 oidText)
  | _ =>
      Ok (be 4 1 ++ be 4 (if existsb is_null elems then 1 else 0) ++ be 4 oidText ++ be 4 (Z.of_nat (length elems)) ++ be 4 1 ++
          (elems ≫= arrayElem))
  end.

Definition errBadArray : error := ENew (go "bad binary array parameter").
Definition errArrayDims : error := ENew (go "multidimensional arrays are not supported").
Definition errArrayElem : error := ENew (go "unsupported array element type").
(** [for range n]: [raw] is the body from [p] on. *)
Fixpoint readElems (n : nat) (raw : bytes) : outcome (list textElem) :=
  match n with
  | O => Ok []
  | S n' =>
      if bool_decide (length raw < 4)%nat then Err errBadArray
      else
        let l := int32 (be_val (take 4 raw)) in
        let raw := drop 4 raw in
        if l =? -1 then es ← readElems n' raw; Ok (None :: es)
        else if (l <? 0) || (Z.of_nat (length raw) <? l) then Err errBadArray
        else es ← readElems n' (drop (Z.to_nat l) raw); Ok (Some (take (Z.to_nat l) raw) :: es)
  end.
Definition decodeTextArrayBinary (raw : bytes) : outcome bytes :=
  if bool_decide (length raw < 12)%nat then Err errBadArray
  else
    let ndim := int32 (be_val (take 4 raw)) in
    let elemOID := be_val (take 4 (drop 8 raw)) in
    if ndim =? 0 then Ok (go "{}")
    else if negb (ndim =? 1) then Err errArrayDims
    else if negb (elemOID =? oidText) && negb (elemOID =? oidVarchar) then Err errArrayElem
    else if bool_decide (length raw < 20)%nat then Err errBadArray
    else
      let n := int32 (be_val (take 4 (drop 12 raw))) in
      if n <? 0 then Err errBadArray
      else es ← readElems (Z.to_nat n) (drop 20 raw); Ok (FormatTextArray es).

Definition errUnencodable : error := ENew (go "unencodable result value").
(** By the value's own kind, for the types that share no representation. *)
Definition encodeKind (v : any) (format : Z) : outcome bytes :=
  if format =? fmtText then
    match v with
    | ABool b => Ok (if b then go "t" else go "f")
    | AInt KInt64 x => Ok (fmtInt x)
    | AFloat64 x => Ok (FormatFloat x)
    | AString x => Ok x
    | ABytes x => Ok (go "\x" ++ hex x)
    | _ => Err errUnencodable
    end
  else
    match v with
    | ABool b => Ok (if b then [x01] else [x00])
    | AInt KInt64 x => Ok (be 8 x)
    | AFloat64 x => Ok (be 8 x)
    | AString x => Ok x
    | ABytes x => Ok x
    | _ => Err errUnencodable
    end.
Definition encodeValue (v : any) (format : Z) (t : ColType) : outcome bytes :=
  match t, v with
  | TTimestamp, AInt KInt64 x => Ok (if format =? fmtText then FormatTimestamp x else be 8 (x - pgEpochMicros))
  | TDate, AInt KInt64 x => Ok (if format =? fmtText then FormatDate x else be 4 (x - pgEpochDays))
  | TUUID, ABytes x =>
      if bool_decide (length x = 16%nat) then Ok (if format =? fmtText then FormatUUID x else x) else encodeKind v format
  | TTextArray, AString x => if format =? fmtText then Ok x else encodeTextArrayBinary x
  | TJSONB, AString x => Ok (if format =? fmtText then x else x01 :: x)
  | _, _ => encodeKind v format
  end.

(** [strconv.ParseBool]. *)
Definition parseBool (s : bytes) : option bool :=
  if bool_decide (s ∈ [go "1"; go "t"; go "T"; go "TRUE"; go "true"; go "True"]) then Some true
  else if bool_decide (s ∈ [go "0"; go "f"; go "F"; go "FALSE"; go "false"; go "False"]) then Some false
  else None.
Definition errBadParam (what : bytes) : error := ENew (go "bad " ++ what ++ go " parameter").
Definition errFormatCode : error := ENew (go "bad parameter format code").
Definition errBinaryType : error := ENew (go "unsupported binary parameter type").
Definition sized (n : nat) (raw : bytes) (what : bytes) (v : any) : outcome any :=
  if bool_decide (length raw = n) then Ok v else Err (errBadParam (go "binary " ++ what)).
Definition orBad {A : Type} (what : bytes) (o : option A) (f : A -> any) : outcome any :=
  match o with Some a => Ok (f a) | None => Err (errBadParam what) end.

Definition decodeText (s : bytes) (oid : Z) : outcome any :=
  if oid =? oidBool then orBad (go "boolean") (parseBool s) ABool
  else if (oid =? oidInt2) || (oid =? oidInt4) || (oid =? oidInt8) then orBad (go "integer") (ParseInt s) (AInt KInt64)
  else if (oid =? oidFloat4) || (oid =? oidFloat8) then orBad (go "float") (ParseFloat s) AFloat64
  else if oid =? oidBytea then
    match strip (go "\x") s with Some h => orBad (go "bytea") (unhex h) ABytes | None => Ok (ABytes s) end
  else if (oid =? oidTimestamp) || (oid =? oidTimestamptz) then AInt KInt64 <$> ParseTimestamp s
  else if oid =? oidDate then AInt KInt64 <$> ParseDate s
  else if oid =? oidUUID then ABytes <$> ParseUUID s
  else Ok (AString s).
Definition decodeBinary (raw : bytes) (oid : Z) : outcome any :=
  if oid =? oidBool then sized 1 raw (go "boolean") (ABool (negb (be_val raw =? 0)))
  else if oid =? oidInt2 then sized 2 raw (go "int2") (AInt KInt64 (int16 (be_val raw)))
  else if oid =? oidInt4 then sized 4 raw (go "int4") (AInt KInt64 (int32 (be_val raw)))
  else if oid =? oidInt8 then sized 8 raw (go "int8") (AInt KInt64 (int64 (be_val raw)))
  else if oid =? oidFloat4 then sized 4 raw (go "float4") (AFloat64 (f32_to_f64 (be_val raw)))
  else if oid =? oidFloat8 then sized 8 raw (go "float8") (AFloat64 (be_val raw))
  else if oid =? oidText then Ok (AString raw)
  else if oid =? oidBytea then Ok (ABytes raw)
  else if (oid =? oidTimestamp) || (oid =? oidTimestamptz) then sized 8 raw (go "timestamp") (AInt KInt64 (int64 (int64 (be_val raw) + pgEpochMicros)))
  else if oid =? oidDate then sized 4 raw (go "date") (AInt KInt64 (int32 (be_val raw) + pgEpochDays))
  else if oid =? oidUUID then sized 16 raw (go "uuid") (ABytes raw)
  else if oid =? oidTextArray then AString <$> decodeTextArrayBinary raw
  else if oid =? oidJSON then Ok (AString raw)
  else if oid =? oidJSONB then
    match raw with c :: s => if bool_decide (c = x01) then Ok (AString s) else Err (errBadParam (go "binary jsonb")) | [] => Err (errBadParam (go "binary jsonb")) end
  else Err errBinaryType.
Definition decodeParam (raw : bytes) (format oid : Z) : outcome any :=
  if format =? fmtText then decodeText raw oid
  else if negb (format =? fmtBinary) then Err errFormatCode
  else decodeBinary raw oid.

(** ** Frames are read back *)

#[local] Arguments be : simpl never.

Lemma readN_app s r : readN (length s) (s ++ r) = (Ok s, r).
Proof. unfold readN. rewrite bool_decide_true by (rewrite length_app; lia). by rewrite take_app_length, drop_app_length. Qed.
Lemma readN_inv n r s rest : readN n r = (Ok s, rest) -> r = s ++ rest /\ length s = n.
Proof.
  unfold readN. case_bool_decide as H; [|done]. intros [= <- <-]. rewrite take_drop, length_take. split; [done|lia].
Qed.

Lemma readBody_exact limit r b rest : limit < 2 ^ 32 - 4 ->
  readBody limit r = (Ok b, rest) <-> r = be 4 (Z.of_nat (length b) + 4) ++ b ++ rest /\ Z.of_nat (length b) <= limit.
Proof.
  intros Hlim. unfold readBody. unfold mbind, M_bind. split.
  - destruct (readN 4 r) as [[lb| |] r1] eqn:E; [|done..]. apply readN_inv in E as [-> Hl].
    pose proof (be_be_val lb) as Hbe. rewrite Hl in Hbe.
    destruct (Z.ltb_spec (be_val lb - 4) 0), (Z.ltb_spec limit (be_val lb - 4)); cbn [orb]; try done.
    assert (forall n : nat, be_val lb - 4 = Z.of_nat n -> lb = be 4 (Z.of_nat n + 4)) as Hlb.
    { intros n Hn. rewrite <- Hn, Z.sub_add. done. }
    destruct (Z.eqb_spec (be_val lb - 4) 0) as [Hz|Hz].
    + intros [= <- <-]. split; [by rewrite (Hlb 0%nat Hz) at 1|simpl; lia].
    + intros [-> Hb]%readN_inv. split; [|lia]. rewrite <- (Hlb (length b)) by lia. done.
  - intros [-> Hb]. set (n := Z.of_nat (length b)) in *.
    rewrite <- (be_length 4 (n + 4)) at 1. rewrite readN_app, be_val_be, Z.mod_small by lia.
    replace (n + 4 - 4) with n by lia.
    destruct (Z.ltb_spec n 0), (Z.ltb_spec limit n); [lia..|]. cbn [orb].
    destruct (Z.eqb_spec n 0) as [Hz|Hz].
    + destruct b; [done|simpl in *; lia].
    + unfold n. rewrite Nat2Z.id. apply readN_app.
Qed.

Lemma frame_app t b rest : frame t b ++ rest = t :: be 4 (Z.of_nat (length b) + 4) ++ b ++ rest.
Proof. unfold frame. by rewrite <- app_comm_cons, <- app_assoc. Qed.

Lemma readMessageUpTo_exact limit r t b rest : limit < 2 ^ 32 - 4 ->
  readMessageUpTo limit r = (Ok (t, b), rest) <-> r = frame t b ++ rest /\ Z.of_nat (length b) <= limit.
Proof.
  intros Hlim. rewrite frame_app. unfold readMessageUpTo, ReadByte, mbind, M_bind. split.
  - destruct r as [|c r]; [done|]. destruct (readBody limit r) as [[b'| |] r'] eqn:E; [|done..].
    intros [= -> -> ->]. apply readBody_exact in E as [-> Hb]; done.
  - intros [-> Hb]. rewrite (proj2 (readBody_exact _ _ b rest Hlim)); done.
Qed.

Lemma readMessageUpTo_no_panic limit r : is_panic (readMessageUpTo limit r).1 = false.
Proof.
  unfold readMessageUpTo, ReadByte, readBody, readN. unfold mbind, M_bind. destruct r as [|c r]; [done|].
  repeat (case_bool_decide || case_match || simplify_eq/=); done.
Qed.

(** Reading messages until the stream fails. *)
Fixpoint readAll (fuel : nat) (r : bytes) : list (byte * bytes) * bytes :=
  match fuel with
  | O => ([], r)
  | S fuel' =>
      match readMessage r with
      | (Ok m, r') => let '(ms, r'') := readAll fuel' r' in (m :: ms, r'')
      | (_, r') => ([], r')
      end
  end.

Definition frames (ms : list (byte * bytes)) : bytes := ms ≫= λ '(t, b), frame t b.
Lemma readAll_frames fuel ms rest : Forall (λ m, Z.of_nat (length m.2) <= maxMsgLen) ms -> (length ms <= fuel)%nat ->
  readAll fuel (frames ms ++ rest) =
  let '(ms', r) := readAll (fuel - length ms) rest in (ms ++ ms', r).
Proof.
  intros Hall. revert fuel. induction Hall as [|[t b] ms Hb _ IH]; intros fuel Hf; simpl in Hf.
  { cbn. rewrite Nat.sub_0_r. by destruct (readAll fuel rest). }
  destruct fuel as [|fuel]; [lia|].
  change (frames ((t, b) :: ms)) with (frame t b ++ frames ms).
  rewrite <- app_assoc. cbn [readAll].
  assert (readMessage (frame t b ++ frames ms ++ rest) = (Ok (t, b), frames ms ++ rest)) as ->
    by by apply readMessageUpTo_exact.
  rewrite IH by lia. cbn [length Nat.sub]. by destruct (readAll _ rest).
Qed.

Lemma readMessage_cut t b k : Z.of_nat (length b) <= maxMsgLen -> (k < length (frame t b))%nat ->
  forall m r, readMessage (take k (frame t b)) <> (Ok m, r).
Proof.
  intros Hb Hk [t' b'] r [E Hb']%readMessageUpTo_exact; [|done].
  assert (readMessage (frame t b ++ []) = (Ok (t, b), [])) as H1 by by apply readMessageUpTo_exact.
  assert (readMessage (frame t b ++ []) = (Ok (t', b'), r ++ drop k (frame t b))) as H2.
  { apply readMessageUpTo_exact; [done|]. split; [|done]. by rewrite app_nil_r, app_assoc, <- E, take_drop. }
  rewrite H1 in H2. injection H2 as <- <- H2. symmetry in H2. apply app_nil in H2 as [_ H2].
  apply (f_equal length) in H2. rewrite length_drop in H2. change (length []) with O in H2. lia.
Qed.


(** ** Buffers are read back *)

Lemma fixedRead_be n u r : fixedRead n (mkRbuf (be n u ++ r) false) = (Some (be n u), mkRbuf r false).
Proof.
  unfold fixedRead. cbn [rbad rb orb]. rewrite bool_decide_false by (rewrite length_app, be_length; lia).
  rewrite <- (be_length n u) at 1 3. by rewrite take_app_length, drop_app_length.
Qed.
Lemma r_byte_cons c r : r_byte (mkRbuf (c :: r) false) = (c, mkRbuf r false).
Proof. done. Qed.
Lemma r_u16_be z r : r_u16 (mkRbuf (be 2 z ++ r) false) = (z mod 2 ^ 16, mkRbuf r false).
Proof. unfold r_u16. by rewrite fixedRead_be, be_val_be. Qed.
Lemma r_u32_be z r : r_u32 (mkRbuf (be 4 z ++ r) false) = (z mod 2 ^ 32, mkRbuf r false).
Proof. unfold r_u32. by rewrite fixedRead_be, be_val_be. Qed.
Lemma cut_nul_app s r : x00 ∉ s -> cut_nul (s ++ x00 :: r) = Some (s, r).
Proof.
  induction s as [|c s IH]; intros Hs; [done|]. apply not_elem_of_cons in Hs as [Hc Hs]. simpl.
  rewrite bool_decide_false by done. by rewrite IH.
Qed.
Lemma r_cstr_app s r : x00 ∉ s -> r_cstr (mkRbuf (s ++ x00 :: r) false) = (s, mkRbuf r false).
Proof. intros Hs. unfold r_cstr. cbn [rbad rb]. by rewrite cut_nul_app. Qed.
Lemma int32_id z : - 2 ^ 31 <= z < 2 ^ 31 -> int32 z = z.
Proof. intros Hz. unfold int32. rewrite Z.mod_small; lia. Qed.
Lemma int32_mod z : int32 (z mod 2 ^ 32) = int32 z.
Proof. unfold int32. by rewrite Zplus_mod_idemp_l. Qed.
Lemma int32_be z : - 2 ^ 31 <= z < 2 ^ 31 -> int32 (be_val (be 4 z)) = z.
Proof. intros Hz. rewrite be_val_be. change (256 ^ Z.of_nat 4) with (2 ^ 32). by rewrite int32_mod, int32_id. Qed.
Lemma int64_be z : int64_ok z -> int64 (be_val (be 8 z)) = z.
Proof.
  intros Hz. rewrite be_val_be. change (256 ^ Z.of_nat 8) with (2 ^ 64). unfold int64. rewrite Zplus_mod_idemp_l.
  by apply int64_id.
Qed.
Lemma r_bytesN_app s r : Z.of_nat (length s) < 2 ^ 31 ->
  r_bytesN (mkRbuf (be 4 (Z.of_nat (length s)) ++ s ++ r) false) = (Some s, mkRbuf r false).
Proof.
  intros Hs. unfold r_bytesN. rewrite r_u32_be, int32_mod, int32_id by lia. cbn [rbad rb orb].
  destruct (Z.ltb_spec (Z.of_nat (length s)) 0); [lia|]. rewrite length_app.
  destruct (Z.ltb_spec (Z.of_nat (length s + length r)) (Z.of_nat (length s))); [lia|].
  by rewrite Nat2Z.id, take_app_length, drop_app_length.
Qed.
Lemma r_bytesN_null r : r_bytesN (mkRbuf (be 4 (-1) ++ r) false) = (None, mkRbuf r false).
Proof. unfold r_bytesN. by rewrite r_u32_be. Qed.

(** ** Values are read back *)

(** The text array of a binary body. *)
Lemma formatElem_length e : (length (default [] e) <= length (formatElem e))%nat.
Proof.
  destruct e as [s|]; [|simpl; lia]. cbn. case_match; [|lia]. simpl. rewrite length_app. simpl.
  assert (length s <= length (escapeElem s))%nat; [|lia].
  clear. induction s as [|c s IH]; [done|].
  change (escapeElem (c :: s)) with ((if decide (c = dquote \/ c = backslash) then [backslash; c] else [c]) ++ escapeElem s).
  rewrite length_app. case_decide; simpl; lia.
Qed.
Lemma elems_wire_bound es : (length es <= S (length (formatElems es)))%nat /\
  Forall (λ e, length (default [] e) <= length (formatElems es))%nat es.
Proof.
  induction es as [|e es [IH1 IH2]]; [split; [simpl; lia|constructor]|].
  pose proof (formatElem_length e) as He. destruct es as [|e' es]; [split; [simpl; lia|by repeat constructor]|].
  change (formatElems (e :: e' :: es)) with (formatElem e ++ comma :: formatElems (e' :: es)).
  rewrite length_app. cbn [length] in *. split; [lia|]. constructor; [lia|].
  eapply Forall_impl; [exact IH2|]. cbn. intros. lia.
Qed.

Lemma take_be n z u : take n (be n z ++ u) = be n z.
Proof. by rewrite take_app_length' by by rewrite be_length. Qed.
Lemma drop_be n m z u : drop (n + m) (be n z ++ u) = drop m u.
Proof. rewrite <- drop_drop. by rewrite (drop_app_length' (be n z)) by by rewrite be_length. Qed.
Lemma drop_be_all n z u : drop n (be n z ++ u) = u.
Proof. by rewrite drop_app_length' by by rewrite be_length. Qed.

Definition elem_fits (e : textElem) : Prop := Z.of_nat (length (default [] e)) < 2 ^ 31.
Lemma readElems_arrayElem es rest : Forall elem_fits es ->
  readElems (length es) ((es ≫= arrayElem) ++ rest) = Ok es.
Proof.
  induction 1 as [|e es He _ IH]; [done|]. cbn [length readElems mbind list_bind].
  change (es ≫= arrayElem) with (mbind arrayElem es). rewrite <- app_assoc. unfold elem_fits in He.
  set (tail := (es ≫= arrayElem) ++ rest) in *. cbv zeta.
  destruct e as [s|]; cbn [arrayElem]; rewrite <- ?app_assoc.
  - rewrite bool_decide_false by (rewrite length_app, be_length; lia). rewrite take_be, drop_be_all. cbn in He.
    rewrite int32_be by lia. destruct (Z.eqb_spec (Z.of_nat (length s)) (-1)); [lia|].
    destruct (Z.ltb_spec (Z.of_nat (length s)) 0); [lia|]. rewrite length_app.
    destruct (Z.ltb_spec (Z.of_nat (length s + length tail)) (Z.of_nat (length s))); [lia|]. cbn [orb].
    by rewrite Nat2Z.id, take_app_length, drop_app_length, IH.
  - rewrite bool_decide_false by (rewrite length_app, be_length; lia). rewrite take_be, drop_be_all.
    rewrite int32_be by lia. by rewrite IH.
Qed.

Lemma textArray_binary s es : ParseTextArray s = Ok es -> Forall elem_fits es -> Z.of_nat (length es) < 2 ^ 31 ->
  exists raw, encodeTextArrayBinary s = Ok raw /\ decodeTextArrayBinary raw = Ok (FormatTextArray es).
Proof.
  intros Hs Hes Hn. unfold encodeTextArrayBinary. rewrite Hs. cbn [mbind outcome_bind].
  destruct es as [|e es']; [eexists; split; [done|]; reflexivity|]. set (es := e :: es') in *.
  eexists; split; [reflexivity|]. unfold decodeTextArrayBinary.
  set (nulls := if existsb is_null es then 1 else 0). set (body := es ≫= arrayElem).
  rewrite (bool_decide_false (_ < 12)%nat), (bool_decide_false (_ < 20)%nat) by (rewrite !length_app, !be_length; lia).
  change 20%nat with (4 + (4 + (4 + (4 + (4 + 0)))))%nat. change 12%nat with (4 + (4 + (4 + 0)))%nat.
  change 8%nat with (4 + (4 + 0))%nat. rewrite !drop_be, !drop_0, !take_be.
  rewrite !int32_be, be_val_be by lia. cbn -[Z.to_nat es]. destruct (Z.ltb_spec (Z.of_nat (length es)) 0); [lia|].
  rewrite Nat2Z.id. unfold body. rewrite <- (app_nil_r (es ≫= arrayElem)), readElems_arrayElem by done. done.
Qed.

(** What a format can carry: text has four-digit years and binary dates are
    32-bit counts from 2000; binary array lengths are 32-bit. A float's text
    is left to [strconv]. *)
Definition wire_fits (format : Z) (t : ColType) (v : any) : Prop :=
  match t, v with
  | TFloat, _ => format = fmtBinary
  | TTimestamp, AInt _ z => format = fmtText -> -62167219200000000 <= z < 253402300800000000
  | TDate, AInt _ z =>
      (format = fmtText -> -719528 <= z <= 2932896) /\ (format = fmtBinary -> - 2 ^ 31 <= z - pgEpochDays < 2 ^ 31)
  | TTextArray, AString s => format = fmtBinary -> Z.of_nat (length s) < 2 ^ 31
  | _, _ => True
  end.

Lemma int64_add a b : int64 (int64 a + b) = int64 (a + b).
Proof.
  unfold int64. replace ((a + 2 ^ 63) mod 2 ^ 64 - 2 ^ 63 + b + 2 ^ 63) with ((a + 2 ^ 63) mod 2 ^ 64 + b) by lia.
  rewrite Zplus_mod_idemp_l. by replace (a + 2 ^ 63 + b) with (a + b + 2 ^ 63) by lia.
Qed.
Lemma int64_be_val z : int64 (be_val (be 8 z)) = int64 z.
Proof.
  rewrite be_val_be. change (256 ^ Z.of_nat 8) with (2 ^ 64). unfold int64. by rewrite Zplus_mod_idemp_l.
Qed.

Definition back (format : Z) (t : ColType) (v : any) : Prop :=
  exists raw, encodeValue v format t = Ok raw /\ decodeParam raw format (oidForType t) = Ok v.

Lemma back_intro format t v raw : encodeValue v format t = Ok raw ->
  decodeParam raw format (oidForType t) = Ok v -> back format t v.
Proof. by exists raw. Qed.
Lemma encodeValue_uuid s format : length s = 16%nat ->
  encodeValue (ABytes s) format TUUID = Ok (if format =? fmtText then FormatUUID s else s).
Proof. intros Hs. cbn [encodeValue]. by rewrite bool_decide_true. Qed.

Lemma back_text t v : typed t v -> wire_fits fmtText t v -> back fmtText t v.
Proof.
  intros Ht Hf. destruct t, v as [|b|[] z|z|b|s|s| | | | ]; try done; cbn in Ht, Hf;
    (eapply back_intro; [(reflexivity || by rewrite encodeValue_uuid)|]);
    unfold decodeParam; cbn [oidForType Z.eqb fmtText]; try reflexivity.
  - by destruct b.
  - change (decodeText (fmtInt z) oidInt8) with (orBad (go "integer") (ParseInt (fmtInt z)) (AInt KInt64)). by rewrite ParseInt_fmtInt.
  - change (decodeText (go "\x" ++ hex s) oidBytea) with (orBad (go "bytea") (unhex (hex s)) ABytes). by rewrite unhex_hex.
  - change (decodeText ?u oidTimestamptz) with (AInt KInt64 <$> ParseTimestamp u). by rewrite ParseTimestamp_FormatTimestamp by auto.
  - change (decodeText ?u oidDate) with (AInt KInt64 <$> ParseDate u). rewrite ParseDate_FormatDate; [done|]. by apply Hf.
  - change (decodeText ?u oidUUID) with (ABytes <$> ParseUUID u). by rewrite ParseUUID_Format.
Qed.

Lemma back_binary t v : typed t v -> wire_fits fmtBinary t v -> back fmtBinary t v.
Proof.
  intros Ht Hf. destruct t, v as [|b|[] z|z|b|s|s| | | | ]; try done; cbn in Ht, Hf;
    try (eapply back_intro; [(reflexivity || by rewrite encodeValue_uuid)|]; try reflexivity).
  - by destruct b.
  - change (sized 8 (be 8 z) (go "int8") (AInt KInt64 (int64 (be_val (be 8 z)))) = Ok (AInt KInt64 z)).
    unfold sized. by rewrite be_length, bool_decide_true, int64_be_val, int64_id.
  - change (sized 8 (be 8 b) (go "float8") (AFloat64 (be_val (be 8 b))) = Ok (AFloat64 b)).
    unfold sized. rewrite be_length, bool_decide_true by done. by rewrite be_val_be, Z.mod_small.
  - set (raw := be 8 (z - pgEpochMicros)).
    change (sized 8 raw (go "timestamp") (AInt KInt64 (int64 (int64 (be_val raw) + pgEpochMicros))) = Ok (AInt KInt64 z)).
    unfold sized, raw. rewrite be_length, bool_decide_true by done. by rewrite int64_be_val, int64_add, Z.sub_add, int64_id.
  - set (raw := be 4 (z - pgEpochDays)).
    change (sized 4 raw (go "date") (AInt KInt64 (int32 (be_val raw) + pgEpochDays)) = Ok (AInt KInt64 z)).
    unfold sized, raw. rewrite be_length, bool_decide_true by done. rewrite int32_be by (by apply Hf). by rewrite Z.sub_add.
  - change (sized 16 s (go "uuid") (ABytes s) = Ok (ABytes s)). unfold sized. by rewrite bool_decide_true.
  - unfold CanonTextArray in Ht. destruct (ParseTextArray s) as [es| |] eqn:Es; [|done..].
    cbn in Ht. injection Ht as <-. specialize (Hf eq_refl). unfold FormatTextArray in Hf.
    destruct (elems_wire_bound es) as [Hn Hl]. cbn [length] in Hf. rewrite length_app in Hf.
    destruct (textArray_binary (FormatTextArray es) es Es) as (raw & Hraw & Hd); [|lia|].
    { eapply Forall_impl; [exact Hl|]. unfold elem_fits. intros. lia. }
    eapply back_intro; [exact Hraw|].
    change (AString <$> decodeTextArrayBinary raw = Ok (AString (FormatTextArray es))). by rewrite Hd.
Qed.


(** ** Nothing panics *)

Lemma encodeValue_no_panic v format t : is_panic (encodeValue v format t) = false.
Proof.
  assert (is_panic (encodeKind v format) = false) as Hk by (unfold encodeKind; repeat case_match; done).
  assert (forall s, is_panic (encodeTextArrayBinary s) = false) as Ha.
  { intros s. unfold encodeTextArrayBinary. pose proof (ParseTextArray_no_panic s) as Hp.
    destruct (ParseTextArray s) as [[|]| |p]; [done..|by destruct (Hp p)]. }
  unfold encodeValue. repeat case_match; done.
Qed.
Lemma readElems_no_panic n raw : is_panic (readElems n raw) = false.
Proof.
  revert raw. induction n as [|n IH]; intros raw; cbn [readElems]; [done|]. case_bool_decide; [done|]. cbv zeta.
  assert (forall u e, is_panic (es ← readElems n u; Ok (e :: es)) = false) as Hgo.
  { intros u e. specialize (IH u). by destruct (readElems n u). }
  destruct (_ =? -1); [apply Hgo|]. destruct (_ || _); [done|apply Hgo].
Qed.
Lemma decodeTextArrayBinary_no_panic raw : is_panic (decodeTextArrayBinary raw) = false.
Proof.
  unfold decodeTextArrayBinary. repeat (case_bool_decide || case_match); try done.
  pose proof (readElems_no_panic (Z.to_nat (int32 (be_val (take 4 (drop 12 raw))))) (drop 20 raw)) as Hr. by destruct (readElems _ _).
Qed.
Lemma decodeParam_no_panic raw format oid : is_panic (decodeParam raw format oid) = false.
Proof.
  assert (forall (A B : Type) (f : A -> B) (o : outcome A), is_panic (f <$> o) = is_panic o) as Hf by by intros A B f [].
  assert (forall n what v, is_panic (sized n raw what v) = false) as Hs by (intros; unfold sized; by case_bool_decide).
  assert (forall (A : Type) what (o : option A) f, is_panic (orBad what o f) = false) as Ho by by intros A what [].
  unfold decodeParam. destruct (format =? fmtText); [|destruct (negb _); [done|]].
  - unfold decodeText. destruct (oid =? oidBool); [apply Ho|]. do 2 (destruct (_ || _); [apply Ho|]).
    destruct (oid =? oidBytea); [destruct (strip _ raw); [apply Ho|done]|].
    destruct (_ || _); [rewrite Hf; unfold ParseTimestamp; by destruct (tryLayouts _ _)|].
    destruct (oid =? oidDate); [rewrite Hf; unfold ParseDate; by destruct (tryLayouts _ _)|].
    destruct (oid =? oidUUID); [rewrite Hf; unfold ParseUUID; cbv zeta; repeat case_match; done|done].
  - unfold decodeBinary. do 6 (destruct (oid =? _); [apply Hs|]). do 2 (destruct (oid =? _); [done|]).
    destruct (_ || _); [apply Hs|]. do 2 (destruct (oid =? _); [apply Hs|]).
    destruct (oid =? oidTextArray); [rewrite Hf; apply decodeTextArrayBinary_no_panic|].
    destruct (oid =? oidJSON); [done|]. destruct (oid =? oidJSONB); [|done]. destruct raw; [done|]. by case_bool_decide.
Qed.
