(* ===== verification/Lexer.v ===== *)
(** * The SQL lexer and the statement splitter

    [sql/lexer.go] and [pgwire/split.go]. The lexer turns one statement into
    tokens; the splitter cuts the text of a simple query into statements
    before any of it is lexed, and so must find the same strings, quoted
    identifiers and comments.

    Where the code moves an index along the source, the scanners here take
    and return the source that is left; a position is the length of the
    source less what is left of it. *)
From S2P Require Import Prelude GoStr.

Local Open Scope nat_scope.

(** ** Tokens *)

Inductive tokKind := tEOF | tIdent | tQIdent | tString | tNumber | tOp | tParam.
Record token := mkToken { kind : tokKind; text : bytes; pos : nat }.
#[export] Instance tokKind_eq_dec : EqDecision tokKind.
Proof. solve_decision. Defined.
#[export] Instance token_eq_dec : EqDecision token.
Proof. solve_decision. Defined.

Definition isDigit (c : byte) : bool := ((48 <=? b2z c) && (b2z c <=? 57))%Z.
Definition isIdentStart (c : byte) : bool :=
  (bool_decide (c = x5f) || ((97 <=? b2z c) && (b2z c <=? 122)) || ((65 <=? b2z c) && (b2z c <=? 90)))%Z.
Definition isIdentPart (c : byte) : bool := isIdentStart c || isDigit c.
Definition isBlank (c : byte) : bool := bool_decide (c ∈ [x20; x09; x0a; x0d]).
Definition isE (c : byte) : bool := bool_decide (c ∈ [x65; x45]).

(** [i+1 < len(src) && p(src[i+1])], at what follows [src[i]]. *)
Definition next (p : byte -> bool) (s : bytes) : bool := match s with c :: _ => p c | [] => false end.
Definition same (a c : byte) : bool := bool_decide (c = a).

(** The loop [for i < len(src) && p(src[i]) { i++ }]. *)
Fixpoint span (p : byte -> bool) (s : bytes) : bytes * bytes :=
  match s with
  | c :: s' => if p c then let '(a, b) := span p s' in (c :: a, b) else ([], s)
  | [] => ([], [])
  end.

(** ** Scanners *)

(** [None]: the comment never closes. *)
Fixpoint blockComment (depth : Z) (s : bytes) : option bytes :=
  match s with
  | c :: s' =>
      match s' with
      | d :: r =>
          if same x2f c && same x2a d then blockComment (depth + 1) r
          else if same x2a c && same x2f d then
            if (depth - 1 =? 0)%Z then Some r else blockComment (depth - 1) r
          else blockComment depth s'
      | [] => None
      end
  | [] => None
  end.

(** The region after its opening quote: its content, and what follows. *)
Fixpoint scanQuoted (q : byte) (s : bytes) : option (bytes * bytes) :=
  match s with
  | c :: s' =>
      if same q c then
        match s' with
        | d :: r => if same q d then '(t, rest) ← scanQuoted q r; Some (q :: t, rest) else Some ([], s')
        | [] => Some ([], s')
        end
      else '(t, rest) ← scanQuoted q s'; Some (c :: t, rest)
  | [] => None
  end.

Definition escaped (c : byte) : byte :=
  if same x6e c then x0a else if same x74 c then x09 else if same x72 c then x0d
  else if same x62 c then x08 else if same x66 c then x0c else c.
Fixpoint scanEString (s : bytes) : option (bytes * bytes) :=
  match s with
  | c :: s' =>
      if same x27 c then
        match s' with
        | d :: r => if same x27 d then '(t, rest) ← scanEString r; Some (x27 :: t, rest) else Some ([], s')
        | [] => Some ([], s')
        end
      else
        match s' with
        | d :: r =>
            if same x5c c then '(t, rest) ← scanEString r; Some (escaped d :: t, rest)
            else '(t, rest) ← scanEString s'; Some (c :: t, rest)
        | [] => None
        end
  | [] => None
  end.

(** [e[+-]digits], when digits do follow. *)
Definition scanExponent (s : bytes) : bytes * bytes :=
  match s with
  | c :: s' =>
      if isE c then
        let '(sign, ds) := match s' with d :: r => if bool_decide (d ∈ [x2b; x2d]) then ([d], r) else ([], s') | [] => ([], s') end in
        if next isDigit ds then let '(a, b) := span isDigit ds in (c :: sign ++ a, b) else ([], s)
      else ([], s)
  | [] => ([], s)
  end.
Definition scanFraction (s : bytes) : bytes * bytes :=
  match s with
  | c :: s' => if same x2e c then let '(a, b) := span isDigit s' in (c :: a, b) else ([], s)
  | [] => ([], s)
  end.
Definition scanNumber (s : bytes) : bytes * bytes :=
  let '(a, s) := span isDigit s in
  let '(b, s) := scanFraction s in
  let '(c, s) := scanExponent s in
  (a ++ b ++ c, s).

Definition ops3 : list bytes := [go "!~*"; go "->>"; go "#>>"].
Definition ops2 : list bytes :=
  [go "!="; go "<>"; go "<="; go ">="; go "!~"; go "~*"; go "::"; go "||"; go "->"; go "#>"; go "@>"; go "<@"; go "?|"; go "?&"].
Definition ops1 : bytes := go "=<>(),;*.+-~[]/%?".
Definition scanOp (s : bytes) : option bytes :=
  if bool_decide (take 3 s ∈ ops3) then Some (take 3 s)
  else if bool_decide (take 2 s ∈ ops2) then Some (take 2 s)
  else match s with
       | c :: _ => if bool_decide (c ∈ ops1) then Some [c] else None
       | [] => None
       end.

(** ** lex *)

Definition errComment : error := ENew (go "unterminated block comment").
Definition errString : error := ENew (go "unterminated string literal").
Definition errQIdent : error := ENew (go "unterminated quoted identifier").
Definition errChar : error := ENew (go "unexpected character").

(** One turn of the loop at [c :: s]: the token it appends, if any, and what
    is left. *)
Definition lexStep (c : byte) (s : bytes) : outcome (option (tokKind * bytes) * bytes) :=
  if isBlank c then Ok (None, s)
  else if same x2d c && next (same x2d) s then Ok (None, (span (λ d, negb (same x0a d)) s).2)
  else if same x2f c && next (same x2a) s then
    match blockComment 0 (c :: s) with Some r => Ok (None, r) | None => Err errComment end
  else if isE c && next (same x27) s then
    match scanEString (tail s) with Some (t, r) => Ok (Some (tString, t), r) | None => Err errString end
  else if isIdentStart c then
    let '(t, r) := span isIdentPart (c :: s) in Ok (Some (tIdent, lower <$> t), r)
  else if same x22 c then
    match scanQuoted x22 s with Some (t, r) => Ok (Some (tQIdent, t), r) | None => Err errQIdent end
  else if same x27 c then
    match scanQuoted x27 s with Some (t, r) => Ok (Some (tString, t), r) | None => Err errString end
  else if isDigit c || (same x2e c && next isDigit s) then
    let '(t, r) := scanNumber (c :: s) in Ok (Some (tNumber, t), r)
  else if same x24 c && next isDigit s then
    let '(t, r) := span isDigit s in Ok (Some (tParam, c :: t), r)
  else match scanOp (c :: s) with
       | Some op => Ok (Some (tOp, op), drop (length op) (c :: s))
       | None => Err errChar
       end.

(** [len] is [len(src)]; every turn takes at least a byte ([lexStep_app]). *)
Fixpoint lexLoop (fuel : nat) (len : nat) (s : bytes) : outcome (list token) :=
  match s, fuel with
  | c :: s', S fuel' =>
      '(t, r) ← lexStep c s';
      ts ← lexLoop fuel' len r;
      Ok (match t with Some (k, x) => mkToken k x (len - length s) :: ts | None => ts end)
  | _, _ => Ok [mkToken tEOF [] len]
  end.
Definition lex (src : bytes) : outcome (list token) := lexLoop (length src) (length src) src.

Example lex_ex : lex (go "SELECT e'a''b\'', 1.5e-3<=$12 /* ; /* */ */; -- x")
  = Ok [mkToken tIdent (go "select") 0; mkToken tString (go "a'b'") 7; mkToken tOp (go ",") 16;
        mkToken tNumber (go "1.5e-3") 18; mkToken tOp (go "<=") 24; mkToken tParam (go "$12") 26;
        mkToken tOp (go ";") 43; mkToken tEOF [] 49].
Proof. vm_compute. reflexivity. Qed.

(** ** The splitter *)

Record stmtPart := mkPart { ptext : bytes; off : nat }.

Definition isIdentByte (c : byte) : bool :=
  (bool_decide (c = x5f) || ((97 <=? b2z c) && (b2z c <=? 122)) || ((65 <=? b2z c) && (b2z c <=? 90))
   || ((48 <=? b2z c) && (b2z c <=? 57)))%Z.
(** [open < len(q)], so the bytes before it are there. *)
Definition isEStringPrefix (q : bytes) (open : nat) : bool :=
  match open with
  | O => false
  | S n =>
      isE (default x00 (q !! n)) &&
      match n with O => true | S m => negb (isIdentByte (default x00 (q !! m))) end
  end.
(** The bytes before the closing quote, or all when there is none. *)
Fixpoint toQuote (escapes : bool) (quote : byte) (s : bytes) : nat :=
  match s with
  | [] => O
  | c :: s' =>
      if escapes && same x5c c then match s' with _ :: r => 2 + toQuote escapes quote r | [] => 1 end
      else if same quote c then
        match s' with d :: r => if same quote d then 2 + toQuote escapes quote r else O | [] => O end
      else S (toQuote escapes quote s')
  end.
Definition skipQuoted (q : bytes) (open : nat) : nat :=
  let quote := default x00 (q !! open) in
  let escapes := same x27 quote && isEStringPrefix q open in
  S open + toQuote escapes quote (drop (S open) q).

(** The loop over [q], at [i] with [rest = q[i:]]: where it calls [emit].
    Every turn takes at least a byte. *)
Fixpoint splitLoop (fuel : nat) (q : bytes) (depth : nat) (i : nat) : list nat :=
  match fuel, drop i q with
  | S fuel', c :: s =>
      match depth with
      | S d =>
          if same x2a c && next (same x2f) s then splitLoop fuel' q d (S (S i))
          else if same x2f c && next (same x2a) s then splitLoop fuel' q (S depth) (S (S i))
          else splitLoop fuel' q depth (S i)
      | O =>
          if same x2f c && next (same x2a) s then splitLoop fuel' q 1 (S (S i))
          else if same x2d c && next (same x2d) s then
            splitLoop fuel' q 0 (S (i + length (span (λ d, negb (same x0a d)) (c :: s)).1))
          else if same x27 c || same x22 c then splitLoop fuel' q 0 (S (skipQuoted q i))
          else if same x3b c then i :: splitLoop fuel' q 0 (S i)
          else splitLoop fuel' q 0 (S i)
      end
  | _, _ => []
  end.

(** [emit(end)] at each of [ends]. *)
Fixpoint emitAll (q : bytes) (start : nat) (ends : list nat) : list stmtPart :=
  match ends with
  | [] => []
  | e :: ends' =>
      let t := take (e - start) (drop start q) in
      let lead := length t - length (trim_left_set isBlank t) in
      (if bool_decide (TrimSpace t = []) then [] else [mkPart (TrimSpace t) (start + lead)]) ++
      emitAll q (S e) ends'
  end.
Definition splitStatements (q : bytes) : list stmtPart :=
  emitAll q 0 (splitLoop (length q) q 0 0 ++ [length q]).

Example splitStatements_ex : splitStatements (go "SELECT E'it\'s; fine'; -- ;
 /* ; /* */ ; */ SELECT some';\';  ; ") =
  [mkPart (go "SELECT E'it\'s; fine'") 0; mkPart (go "-- ;
 /* ; /* */ ; */ SELECT some';\'") 23].
Proof. vm_compute. reflexivity. Qed.
