(* ===== verification/LexSplit.v ===== *)
(** * The splitter agrees with the lexer

    [pgwire/split.go] against [sql/lexer.go]: on a text the lexer accepts,
    the splitter cuts at the lexer's semicolons and nowhere else, and what it
    cuts out lexes to the tokens between them. *)
From S2P Require Import Prelude GoStr Lexer.

Local Open Scope nat_scope.

(** ** Scanners take a prefix *)

Lemma same_iff a c : same a c = true <-> c = a.
Proof. unfold same. by rewrite bool_decide_eq_true. Qed.
Lemma span_split p s : s = (span p s).1 ++ (span p s).2.
Proof. induction s as [|c s IH]; [done|]. simpl. destruct (p c); [|done]. destruct (span p s). simpl in *. by f_equal. Qed.
Lemma span_all p s : Forall (λ c, p c = true) (span p s).1.
Proof. induction s as [|c s IH]; [constructor|]. simpl. destruct (p c) eqn:E; [|constructor]. destruct (span p s). by constructor. Qed.
Lemma span_stop p s : next p (span p s).2 = false.
Proof. induction s as [|c s IH]; [done|]. simpl. destruct (p c) eqn:E; [|done]. by destruct (span p s). Qed.

(** A splitter in the middle of a text: the cuts it makes in what is left. *)
Definition from (depth : nat) (pre rest : bytes) : list nat := splitLoop (length rest) (pre ++ rest) depth (length pre).

Lemma drop_pre (pre rest : bytes) : drop (length pre) (pre ++ rest) = rest.
Proof. by rewrite drop_app_length. Qed.
Lemma splitLoop_fuel n m q depth i : length q - i <= n -> length q - i <= m ->
  splitLoop n q depth i = splitLoop m q depth i.
Proof.
  revert m depth i. induction n as [|n IH]; intros m depth i Hn Hm.
  { assert (drop i q = []) as E by (apply drop_ge; lia). destruct m; cbn [splitLoop]; [done|]. by rewrite E. }
  destruct m as [|m].
  { assert (drop i q = []) as E by (apply drop_ge; lia). cbn [splitLoop]. by rewrite E. }
  cbn [splitLoop]. destruct (drop i q) as [|c s] eqn:E; [done|].
  destruct depth; repeat match goal with |- (if ?b then _ else _) = _ => destruct b end;
    try apply IH; try (f_equal; apply IH); unfold skipQuoted; lia.
Qed.

(** One turn of the splitter, outside comments. *)
Lemma from_nil depth pre : from depth pre [] = [].
Proof. done. Qed.
Lemma from_at depth pre rest i q : q = pre ++ rest -> i = length pre -> forall n, length rest <= n ->
  splitLoop n q depth i = from depth pre rest.
Proof. intros -> -> n Hn. apply splitLoop_fuel; rewrite length_app; lia. Qed.
Lemma snoc_cons (pre : bytes) c s : pre ++ c :: s = (pre ++ [c]) ++ s.
Proof. by rewrite <- app_assoc. Qed.

Lemma splitLoop_end n q depth i : length q <= i -> splitLoop n q depth i = [].
Proof. intros H. destruct n; [done|]. cbn [splitLoop]. by rewrite drop_ge by lia. Qed.

Lemma from_skip pre c s : same x2f c && next (same x2a) s = false -> same x2d c && next (same x2d) s = false ->
  same x27 c || same x22 c = false -> same x3b c = false -> from 0 pre (c :: s) = from 0 (pre ++ [c]) s.
Proof.
  intros H1 H2 H3 H4. unfold from at 1. cbn [length splitLoop]. rewrite drop_pre, H1, H2, H3, H4.
  apply (from_at 0 (pre ++ [c]) s); [apply snoc_cons|rewrite length_app; simpl; lia|lia].
Qed.
Lemma from_semi pre s : from 0 pre (x3b :: s) = length pre :: from 0 (pre ++ [x3b]) s.
Proof.
  unfold from at 1. cbn [length splitLoop]. rewrite drop_pre. cbn. f_equal.
  apply (from_at 0 (pre ++ [x3b]) s); [apply snoc_cons|rewrite length_app; simpl; lia|lia].
Qed.
Lemma from_line pre s : next (same x2d) s = true ->
  let '(a, r) := span (λ d, negb (same x0a d)) s in from 0 pre (x2d :: s) = from 0 (pre ++ x2d :: a) r.
Proof.
  intros Hs. set (p := λ d, negb (same x0a d)). pose proof (span_split p s) as Ha. pose proof (span_stop p s) as Hr.
  unfold from at 1. cbn [length splitLoop]. rewrite drop_pre, Hs. cbn -[span]. fold p.
  change (span p (x2d :: s)) with (let '(a, b) := span p s in (x2d :: a, b)).
  destruct (span p s) as [a r]. cbn [fst snd length] in *. subst s.
  rewrite (app_comm_cons a), (app_assoc pre). destruct r as [|d r].
  { rewrite from_nil. apply splitLoop_end. rewrite !length_app. simpl. lia. }
  cbn in Hr. apply negb_false_iff, same_iff in Hr as ->. rewrite from_skip by done.
  apply from_at; [apply snoc_cons|rewrite !length_app; simpl; lia|rewrite length_app; simpl; lia].
Qed.

(** Comments. *)
Lemma from_inside depth pre c d s : from (S depth) pre (c :: d :: s) =
  if same x2a c && same x2f d then from depth (pre ++ [c; d]) s
  else if same x2f c && same x2a d then from (S (S depth)) (pre ++ [c; d]) s
  else from (S depth) (pre ++ [c]) (d :: s).
Proof.
  unfold from at 1. cbn [length]. rewrite (app_assoc pre [c; d] s : pre ++ c :: d :: s = _).
  remember (S (length s)) as n eqn:Hn. cbn [splitLoop]. rewrite <- app_assoc, drop_pre. cbn [app next].
  repeat case_match; apply from_at; try (rewrite length_app; simpl); simpl; try lia; by rewrite <- app_assoc.
Qed.
Lemma blockComment_cons depth c d s : blockComment depth (c :: d :: s) =
  if same x2f c && same x2a d then blockComment (depth + 1) s
  else if same x2a c && same x2f d then if (depth - 1 =? 0)%Z then Some s else blockComment (depth - 1) s
  else blockComment depth (d :: s).
Proof. done. Qed.

Lemma from_comment pre depth s r : blockComment (Z.of_nat (S depth)) s = Some r ->
  exists seg, s = seg ++ r /\ last seg = Some x2f /\ from (S depth) pre s = from 0 (pre ++ seg) r.
Proof.
  remember (length s) as n eqn:Hn. assert (length s <= n) as Hl by lia. clear Hn.
  revert pre depth s Hl. induction n as [|n IH]; intros pre depth [|c [|d s]] Hl; try done; [simpl in Hl; lia|].
  rewrite blockComment_cons, from_inside. simpl in Hl.
  assert (forall depth' seg u, seg ++ u = c :: d :: s -> length u <= n -> blockComment (Z.of_nat (S depth')) u = Some r ->
    exists seg', c :: d :: s = seg' ++ r /\ last seg' = Some x2f /\ from (S depth') (pre ++ seg) u = from 0 (pre ++ seg') r) as Hgo.
  { intros depth' seg u <- Hu Hb. destruct (IH (pre ++ seg) depth' u Hu Hb) as (seg' & -> & Hl' & ->).
    exists (seg ++ seg'). rewrite !app_assoc, last_app, Hl'. done. }
  destruct (same x2f c && same x2a d) eqn:E1.
  { apply andb_true_iff in E1 as [->%same_iff ->%same_iff]. cbn. intros Hb. apply Hgo; [done|lia|].
    by replace (Z.of_nat (S (S depth))) with (Z.of_nat (S depth) + 1)%Z by lia. }
  destruct (same x2a c && same x2f d) eqn:E2; [|intros Hb; apply Hgo; [done|simpl; lia|done]].
  apply andb_true_iff in E2 as [->%same_iff ->%same_iff]. destruct depth as [|depth].
  - intros [= ->]. exists [x2a; x2f]. done.
  - destruct (Z.eqb_spec (Z.of_nat (S (S depth)) - 1) 0); [lia|]. intros Hb. apply Hgo; [done|lia|].
    by replace (Z.of_nat (S depth)) with (Z.of_nat (S (S depth)) - 1)%Z by lia.
Qed.
Lemma from_open pre s : from 0 pre (x2f :: x2a :: s) = from 1 (pre ++ [x2f; x2a]) s.
Proof.
  unfold from at 1. cbn [length]. remember (S (length s)) as n eqn:Hn. cbn [splitLoop]. rewrite drop_pre.
  change (same x2f x2f && next (same x2a) (x2a :: s)) with true. cbv iota.
  apply from_at; [by rewrite <- app_assoc|rewrite length_app; simpl; lia|lia].
Qed.
Lemma from_block pre s r : blockComment 0 (x2f :: x2a :: s) = Some r ->
  exists seg, x2f :: x2a :: s = seg ++ r /\ last seg = Some x2f /\ from 0 pre (x2f :: x2a :: s) = from 0 (pre ++ seg) r.
Proof.
  rewrite blockComment_cons, from_open. intros (seg & -> & Hl & E)%(from_comment (pre ++ [x2f; x2a]) 0).
  exists (x2f :: x2a :: seg). split; [done|]. split; [by rewrite !last_cons, Hl|]. by rewrite E, <- app_assoc.
Qed.

(** Quoted regions. *)
Lemma toQuote_scanQuoted q s t r : scanQuoted q s = Some (t, r) -> exists seg, s = seg ++ q :: r /\ toQuote false q s = length seg.
Proof.
  remember (length s) as n eqn:Hn. assert (length s <= n) as Hl by lia. clear Hn.
  revert t s Hl. induction n as [|n IH]; intros t [|c s] Hl; try done; [simpl in Hl; lia|]. simpl in Hl.
  cbn [scanQuoted toQuote andb]. destruct (same q c) eqn:E.
  - apply same_iff in E as ->. destruct s as [|d s]; [intros [= <- <-]; by exists []|].
    destruct (same q d) eqn:E2; [|intros [= <- <-]; by exists []]. apply same_iff in E2 as ->.
    destruct (scanQuoted q s) as [[t' r']|] eqn:Es; [|done]. intros [= <- <-].
    apply IH in Es as (seg & -> & ->); [|simpl in Hl; lia]. by exists (q :: q :: seg).
  - destruct (scanQuoted q s) as [[t' r']|] eqn:Es; [|done]. intros [= <- <-].
    apply IH in Es as (seg & -> & ->); [|lia]. by exists (c :: seg).
Qed.
Lemma toQuote_scanEString s t r : scanEString s = Some (t, r) -> exists seg, s = seg ++ x27 :: r /\ toQuote true x27 s = length seg.
Proof.
  remember (length s) as n eqn:Hn. assert (length s <= n) as Hl by lia. clear Hn.
  revert t s Hl. induction n as [|n IH]; intros t [|c s] Hl; try done; [simpl in Hl; lia|]. simpl in Hl.
  cbn [scanEString toQuote andb]. destruct (same x27 c) eqn:E.
  - apply same_iff in E as ->. cbn. destruct s as [|d s]; [intros [= <- <-]; by exists []|].
    destruct (same x27 d) eqn:E2; [|intros [= <- <-]; by exists []]. apply same_iff in E2 as ->.
    destruct (scanEString s) as [[t' r']|] eqn:Es; [|done]. intros [= <- <-].
    apply IH in Es as (seg & -> & ->); [|simpl in Hl; lia]. by exists (x27 :: x27 :: seg).
  - destruct s as [|d s]; [done|]. destruct (same x5c c) eqn:E2.
    + destruct (scanEString s) as [[t' r']|] eqn:Es; [|done]. intros [= <- <-].
      apply IH in Es as (seg & -> & ->); [|simpl in Hl; lia]. by exists (c :: d :: seg).
    + destruct (scanEString (d :: s)) as [[t' r']|] eqn:Es; [|done]. intros [= <- <-].
      apply IH in Es as (seg & -> & ->); [|lia]. by exists (c :: seg).
Qed.

(** What [isEStringPrefix] sees before a quote. *)
Definition eEnd (pre : bytes) : bool :=
  match reverse pre with
  | c :: d :: _ => isE c && negb (isIdentByte d)
  | [c] => isE c
  | [] => false
  end.
Lemma isEStringPrefix_pre pre s : isEStringPrefix (pre ++ s) (length pre) = eEnd pre.
Proof.
  unfold eEnd. destruct pre as [|c pre _] using rev_ind; [done|]. rewrite reverse_snoc, length_app, Nat.add_1_r.
  cbn [isEStringPrefix]. rewrite <- app_assoc. cbn [app]. rewrite list_lookup_middle by done. cbn [default].
  destruct pre as [|d pre _] using rev_ind; [cbn; by rewrite andb_true_r|].
  rewrite reverse_snoc, length_app, Nat.add_1_r, <- app_assoc. cbn [app]. by rewrite list_lookup_middle.
Qed.

Lemma from_quote pre q s seg r : q = x27 \/ q = x22 -> s = seg ++ q :: r ->
  toQuote (same x27 q && eEnd pre) q s = length seg -> from 0 pre (q :: s) = from 0 (pre ++ q :: seg ++ [q]) r.
Proof.
  intros Hq -> Ht. unfold from at 1. remember (length (q :: seg ++ q :: r)) as n eqn:Hn. destruct n as [|n]; [done|].
  cbn [splitLoop]. rewrite drop_pre.
  assert (same x2f q = false /\ same x2d q = false /\ same x27 q || same x22 q = true) as (-> & -> & ->)
    by by destruct Hq as [-> | ->].
  cbn [andb]. unfold skipQuoted. rewrite list_lookup_middle by done. cbn [default].
  rewrite isEStringPrefix_pre.
  assert (drop (S (length pre)) (pre ++ q :: seg ++ q :: r) = seg ++ q :: r) as ->.
  { rewrite snoc_cons. apply drop_app_length'. rewrite length_app. simpl. lia. }
  unfold id. rewrite Ht. apply from_at; [by rewrite <- app_assoc, <- app_comm_cons, <- app_assoc| |];
    repeat (rewrite length_app in * || simpl in *); lia.
Qed.

(** ** The splitter follows the lexer *)

(** A byte the splitter passes over. *)
Definition plain (c : byte) : bool := negb (bool_decide (c ∈ [x2f; x2d; x27; x22; x3b])).
Lemma plain_not c : plain c = true -> same x2f c = false /\ same x2d c = false /\ same x27 c || same x22 c = false /\ same x3b c = false.
Proof.
  unfold plain. intros H%negb_true_iff%bool_decide_eq_false. unfold same.
  rewrite !bool_decide_false; [done|set_solver..].
Qed.
Lemma from_plain pre seg r : Forall (λ c, plain c = true) seg -> from 0 pre (seg ++ r) = from 0 (pre ++ seg) r.
Proof.
  intros H. revert pre. induction H as [|c seg Hc _ IH]; intros pre; [by rewrite app_nil_r|].
  apply plain_not in Hc as (H1 & H2 & H3 & H4). cbn [app]. rewrite from_skip by (rewrite ?H1, ?H2; done).
  rewrite IH. by rewrite <- app_assoc.
Qed.
Lemma isDigit_plain c : isDigit c = true -> plain c = true.
Proof. by destruct c. Qed.
Lemma isIdentPart_plain c : isIdentPart c = true -> plain c = true.
Proof. by destruct c. Qed.
Lemma isIdentPart_Byte c : isIdentPart c = isIdentByte c.
Proof. by destruct c. Qed.

Lemma eEnd_last seg pre c : last seg = Some c -> isE c = false -> eEnd (pre ++ seg) = false.
Proof.
  intros [seg' ->]%last_Some Hc. unfold eEnd. rewrite app_assoc, reverse_snoc. destruct (reverse _); by rewrite Hc.
Qed.
Lemma eEnd_ident pre seg c d : isIdentByte c = true -> eEnd (pre ++ seg ++ [c; d]) = false.
Proof.
  intros Hc. unfold eEnd. rewrite app_assoc, reverse_app. cbn. rewrite Hc. by rewrite andb_false_r.
Qed.

(** The state in which the splitter reads a quote as the lexer does. *)
Definition aligned (pre s : bytes) : Prop := next (same x27) s = true -> eEnd pre = false.

(** A token's bytes: the splitter passes over them as one, cutting only at
    a [;]. *)
Definition follows (pre : bytes) (s : bytes) (t : option (tokKind * bytes)) (r : bytes) : Prop :=
  exists seg, s = seg ++ r /\ seg <> [] /\ aligned (pre ++ seg) r /\
    from 0 pre s = (if bool_decide (t = Some (tOp, [x3b])) then [length pre] else []) ++ from 0 (pre ++ seg) r.

Lemma follows_plain pre seg r t c : Forall (λ c, plain c = true) seg -> last seg = Some c -> isE c = false ->
  t <> Some (tOp, [x3b]) -> follows pre (seg ++ r) t r.
Proof.
  intros Hp Hl Hc Ht. exists seg. rewrite bool_decide_false by done. split_and!; [done|by destruct seg| |by apply from_plain].
  intros _. by eapply eEnd_last.
Qed.

Definition passes (pre seg r : bytes) : Prop := from 0 pre (seg ++ r) = from 0 (pre ++ seg) r.
Lemma passes_app pre a b r : passes pre a (b ++ r) -> passes (pre ++ a) b r -> passes pre (a ++ b) r.
Proof. unfold passes. rewrite <- !app_assoc. by intros -> ->. Qed.
Lemma passes_plain pre seg r : Forall (λ c, plain c = true) seg -> passes pre seg r.
Proof. apply from_plain. Qed.
Lemma passes_minus pre c r : c <> x2d -> passes pre [x2d] (c :: r).
Proof. intros Hc. apply from_skip; try done. change (same x2d c = false). unfold same. by rewrite bool_decide_false. Qed.
Lemma digits_plain s : Forall (λ c, plain c = true) (span isDigit s).1.
Proof. eapply Forall_impl; [apply span_all|]. apply isDigit_plain. Qed.

(** Ends in a byte that is no [e]. *)
Definition endsOff (seg : bytes) : Prop := forall c, last seg = Some c -> isE c = false.
Lemma digits_off s : endsOff (span isDigit s).1.
Proof.
  intros c H. pose proof (span_all isDigit s) as Hf. rewrite Forall_forall in Hf. specialize (Hf c).
  assert (isDigit c = true) by (apply Hf, last_Some_elem_of; done). by destruct c.
Qed.
Lemma endsOff_app a b : endsOff a -> endsOff b -> endsOff (a ++ b).
Proof. intros Ha Hb c. rewrite last_app. destruct (last b) eqn:E; [intros [= ->]; by apply Hb|apply Ha]. Qed.

Lemma scanFraction_app pre s : let '(a, b) := scanFraction s in s = a ++ b /\ endsOff a /\ passes pre a b.
Proof.
  destruct s as [|c s]; cbn [scanFraction]; [by split_and!|]. destruct (same x2e c) eqn:E; [|by split_and!; [| |apply passes_plain]].
  apply same_iff in E as ->. pose proof (span_split isDigit s) as Ha. pose proof (digits_plain s) as Hp. pose proof (digits_off s) as Ho.
  destruct (span isDigit s) as [a b]. simpl in *. subst. split_and!; [done| |by apply passes_plain; constructor].
  by apply (endsOff_app [x2e]); [intros c [= <-]|].
Qed.
Lemma scanExponent_app pre s : let '(a, b) := scanExponent s in s = a ++ b /\ endsOff a /\ passes pre a b.
Proof.
  destruct s as [|c s]; cbn [scanExponent]; [by split_and!|].
  destruct (isE c) eqn:Ec; [|by split_and!; [| |apply passes_plain]].
  assert (plain c = true) as Hc by by destruct c.
  assert (forall sign ds, s = sign ++ ds -> Forall (λ d, d = x2b \/ d = x2d) sign -> length sign <= 1 ->
    let '(a, b) := if next isDigit ds then let '(a, b) := span isDigit ds in (c :: sign ++ a, b) else ([], c :: s) in
    c :: s = a ++ b /\ endsOff a /\ passes pre a b) as Hgo.
  { intros sign ds -> Hs Hl. destruct (next isDigit ds) eqn:En; [|by split_and!; [| |apply passes_plain]].
    pose proof (span_split isDigit ds) as Ha. pose proof (digits_plain ds) as Hp. pose proof (digits_off ds) as Ho.
    destruct ds as [|d ds]; [done|]. cbn [next] in En. cbn [span] in *. rewrite En in *.
    destruct (span isDigit ds) as [a b]. simpl in Ha, Hp, Ho. injection Ha as ->.
    split_and!; [by rewrite <- app_comm_cons, <- app_assoc| |].
    - intros e. rewrite last_cons, last_app. destruct (last (d :: a)) eqn:El; [|by apply last_None in El].
      intros [= ->]. by apply Ho.
    - rewrite app_comm_cons. apply passes_app; [|by apply passes_plain].
      destruct sign as [|g [|]]; [by apply passes_plain; repeat constructor| |simpl in Hl; lia].
      apply (passes_app pre [c] [g]); [by apply passes_plain; repeat constructor|].
      apply Forall_cons in Hs as [[-> | ->] _]; [apply passes_plain; by repeat constructor|].
      apply passes_minus. by destruct d. }
  destruct s as [|d s]; [apply (Hgo [] []); [done|constructor|simpl; lia]|].
  case_bool_decide as Hd; [|apply (Hgo []); [done|constructor|simpl; lia]].
  apply (Hgo [d]); [done| |simpl; lia]. constructor; [|constructor]. set_solver.
Qed.
Lemma scanNumber_app pre s : let '(a, b) := scanNumber s in s = a ++ b /\ endsOff a /\ passes pre a b.
Proof.
  unfold scanNumber. pose proof (span_split isDigit s) as Ha. pose proof (digits_plain s) as Hp. pose proof (digits_off s) as Ho.
  destruct (span isDigit s) as [a s1]. cbn [fst snd] in *. subst s.
  pose proof (scanFraction_app (pre ++ a) s1) as Hf. destruct (scanFraction s1) as [b s2]. destruct Hf as (-> & Hb & Hpb).
  pose proof (scanExponent_app ((pre ++ a) ++ b) s2) as He. destruct (scanExponent s2) as [c s3]. destruct He as (-> & Hc & Hpc).
  split_and!; [by rewrite <- !app_assoc|by repeat apply endsOff_app|].
  apply passes_app; [by apply passes_plain|]. by apply passes_app.
Qed.

Lemma long_op op : op ∈ ops3 ++ ops2 ->
  endsOff op /\ op <> [] /\ op <> [x3b] /\ (Forall (λ c, plain c = true) op \/ exists r, op = x2d :: x3e :: r /\ Forall (λ c, plain c = true) r).
Proof.
  assert (Forall (λ op, (forall c, last op = Some c -> isE c = false) /\ op <> [] /\ op <> [x3b] /\
    (forallb plain op = true \/ exists r, op = x2d :: x3e :: r /\ forallb plain r = true)) (ops3 ++ ops2)) as H.
  { repeat (constructor; [split_and!; [by intros c [= <-]|done|done|(left; reflexivity) || (right; eexists; split; reflexivity)]|]).
    constructor. }
  intros Hop. rewrite Forall_forall in H. destruct (H op Hop) as (H1 & H2 & H3 & H4). split_and!; [done..|].
  destruct H4 as [H4|(r & -> & H4)]; [left|right; exists r; split; [done|]]; apply Forall_forall; intros c Hc;
    rewrite forallb_forall in H4; by apply H4, list_elem_of_In.
Qed.

Lemma take_drop_length n (l : bytes) : l = take n l ++ drop (length (take n l)) l.
Proof.
  rewrite length_take. destruct (decide (n <= length l)); [by rewrite Nat.min_l, take_drop by lia|].
  by rewrite take_ge, Nat.min_r, drop_all, app_nil_r by lia.
Qed.
Lemma scanOp_follows pre c s op : scanOp (c :: s) = Some op ->
  same x2d c && next (same x2d) s = false -> same x2f c && next (same x2a) s = false -> 
  same x22 c = false -> same x27 c = false ->
  follows pre (c :: s) (Some (tOp, op)) (drop (length op) (c :: s)).
Proof.
  intros Hop Hm Hs Hq Hq'.
  assert (forall n, op = take n (c :: s) -> op ∈ ops3 ++ ops2 -> follows pre (c :: s) (Some (tOp, op)) (drop (length op) (c :: s))) as Hlong.
  { intros n Hn (Ho & Hne & Hsemi & Hp)%long_op. exists op.
    assert (c :: s = op ++ drop (length op) (c :: s)) as E by (subst op; apply take_drop_length).
    rewrite bool_decide_false by (by intros [= ->]). split_and!; [done|done| |].
    - intros _. destruct (last op) as [e|] eqn:El; [by eapply eEnd_last, Ho|by apply last_None in El].
    - rewrite E at 1. cbn [app]. destruct Hp as [Hp|(r & -> & Hp)]; [by apply from_plain|].
      apply (passes_app pre [x2d] (x3e :: r)); [by apply passes_minus|]. by apply passes_plain; constructor. }
  unfold scanOp in Hop. case_bool_decide as H3; [injection Hop as <-; apply (Hlong 3); [done|apply elem_of_app; by left]|].
  case_bool_decide as H2; [injection Hop as <-; apply (Hlong 2); [done|apply elem_of_app; by right]|].
  case_bool_decide as H1; [|done]. injection Hop as <-. cbn [length drop]. clear Hlong H3 H2.
  exists [c]. split; [done|]. split; [done|]. split.
  - intros _. apply (eEnd_last [c] pre c); [done|]. unfold isE. apply bool_decide_eq_false.
    intros He. revert H1. apply elem_of_cons in He as [->|He%list_elem_of_singleton]; [|subst c]; by apply (bool_decide_unpack _).
  - destruct (decide (c = x3b)) as [->|Hc]; [apply from_semi|]. rewrite bool_decide_false by congruence.
    apply from_skip; [done|done|by rewrite Hq, Hq'|]. unfold same. by apply bool_decide_eq_false.
Qed.

Lemma quoted_follows pre q s t r k : q = x27 \/ q = x22 -> (q = x27 -> eEnd pre = false) -> scanQuoted q s = Some (t, r) ->
  k <> tOp -> follows pre (q :: s) (Some (k, t)) r.
Proof.
  intros Hq Ha (seg & -> & Ht)%toQuote_scanQuoted Hk. exists (q :: seg ++ [q]).
  rewrite bool_decide_false by (by intros [= ->]). split_and!; [by rewrite <- app_comm_cons, <- app_assoc|done| |].
  - intros _. apply (eEnd_last _ pre q); [by rewrite app_comm_cons, last_snoc|by destruct Hq as [-> | ->]].
  - apply from_quote; [done|done|]. rewrite <- Ht. f_equal. destruct Hq as [-> | ->]; [|done]. by rewrite Ha.
Qed.
Lemma estring_follows pre c s t r : isE c = true -> (forall d, last pre = Some d -> isIdentByte d = false) ->
  scanEString s = Some (t, r) -> follows pre (c :: x27 :: s) (Some (tString, t)) r.
Proof.
  intros Hc Hd (seg & -> & Ht)%toQuote_scanEString. exists (c :: x27 :: seg ++ [x27]).
  rewrite bool_decide_false by done. split_and!; [by rewrite <- !app_comm_cons, <- app_assoc|done| |].
  - intros _. apply (eEnd_last _ pre x27); [by rewrite !app_comm_cons, last_snoc|done].
  - cbn [app]. rewrite from_skip by by destruct c.
    assert (eEnd (pre ++ [c]) = true) as He.
    { unfold eEnd. rewrite reverse_snoc. destruct pre as [|d pre _] using rev_ind; [done|]. rewrite reverse_snoc, Hc.
      by rewrite Hd by by rewrite last_snoc. }
    rewrite (from_quote (pre ++ [c]) x27 _ seg r); [by rewrite <- app_assoc|by left|done|]. by rewrite He.
Qed.
Lemma ident_follows pre c s : isIdentStart c = true -> isE c && next (same x27) s = false ->
  let '(t, r) := span isIdentPart (c :: s) in follows pre (c :: s) (Some (tIdent, lower <$> t)) r.
Proof.
  intros Hc Hq. assert (isIdentPart c = true) as Hp by (unfold isIdentPart; by rewrite Hc).
  cbn [span]. rewrite Hp. pose proof (span_split isIdentPart s) as Ha. pose proof (span_all isIdentPart s) as Hall.
  destruct (span isIdentPart s) as [a r]. cbn [fst snd] in *. subst s. exists (c :: a).
  rewrite bool_decide_false by done. split_and!; [done|done| |].
  - intros Hr. destruct a as [|d a _] using rev_ind.
    + cbn [app] in Hq. rewrite Hr, andb_true_r in Hq. by apply (eEnd_last [c] pre c).
    + apply Forall_app in Hall as [Hall _]. destruct a as [|b a _] using rev_ind.
      * apply (eEnd_ident pre [] c d). by rewrite <- isIdentPart_Byte.
      * apply Forall_app in Hall as [_ [Hb _]%Forall_cons]. rewrite <- app_assoc. apply (eEnd_ident pre (c :: a) b d).
        by rewrite <- isIdentPart_Byte.
  - apply (from_plain pre (c :: a)). constructor; [by apply isIdentPart_plain|].
    eapply Forall_impl; [exact Hall|]. apply isIdentPart_plain.
Qed.
Lemma line_follows pre s : next (same x2d) s = true ->
  follows pre (x2d :: s) None (span (λ d, negb (same x0a d)) s).2.
Proof.
  intros Hs. pose proof (from_line pre s Hs) as Hf. set (p := λ d, negb (same x0a d)) in *.
  pose proof (span_split p s) as Ha. pose proof (span_stop p s) as Hstop. destruct (span p s) as [a r]. cbn [fst snd] in *. subst s.
  exists (x2d :: a). split_and!; [done|done| |done]. destruct r as [|d r]; [done|]. cbn [next] in *.
  apply negb_false_iff, same_iff in Hstop as ->. done.
Qed.

Lemma number_follows pre c s : isDigit c || (same x2e c && next isDigit s) = true ->
  let '(t, r) := scanNumber (c :: s) in follows pre (c :: s) (Some (tNumber, t)) r.
Proof.
  intros Hc. pose proof (scanNumber_app pre (c :: s)) as Hn.
  assert ((scanNumber (c :: s)).1 <> []) as Hne.
  { unfold scanNumber. cbn [span]. destruct (isDigit c) eqn:Ed.
    - destruct (span isDigit s) as [a s1]. destruct (scanFraction s1) as [b s2]. by destruct (scanExponent s2).
    - apply andb_true_iff in Hc as [->%same_iff _]. cbn [scanFraction]. change (same x2e x2e) with true. cbv iota.
      destruct (span isDigit s) as [a s1]. by destruct (scanExponent s1). }
  destruct (scanNumber (c :: s)) as [t r]. destruct Hn as (E & Ho & Hp). cbn [fst] in Hne. exists t.
  rewrite bool_decide_false by done. split_and!; [done|done| |by rewrite E].
  intros _. destruct (last t) as [d|] eqn:El; [|by apply last_None in El]. by eapply eEnd_last, Ho.
Qed.
Lemma param_follows pre s : let '(t, r) := span isDigit s in follows pre (x24 :: s) (Some (tParam, x24 :: t)) r.
Proof.
  pose proof (span_split isDigit s) as Ha. pose proof (digits_plain s) as Hp. pose proof (digits_off s) as Ho.
  destruct (span isDigit s) as [t r]. cbn [fst snd] in *. subst s.
  destruct (last (x24 :: t)) as [d|] eqn:El; [|by apply last_None in El].
  apply (follows_plain pre (x24 :: t) r _ d); [by constructor|done| |done].
  rewrite last_cons in El. destruct (last t) eqn:E; [apply Ho; congruence|by injection El as <-].
Qed.

(** One token, read by both. *)
Lemma lexStep_follows pre c s t r : lexStep c s = Ok (t, r) -> aligned pre (c :: s) ->
  (isE c && next (same x27) s = true -> forall d, last pre = Some d -> isIdentByte d = false) ->
  follows pre (c :: s) t r.
Proof.
  intros H Ha He. unfold lexStep in H.
  destruct (isBlank c) eqn:E1.
  { injection H as <- <-. by apply (follows_plain pre [c] s None c); [repeat constructor; destruct c|destruct c..|]. }
  destruct (same x2d c && next (same x2d) s) eqn:E2.
  { injection H as <- <-. apply andb_true_iff in E2 as [->%same_iff E2]. by apply line_follows. }
  destruct (same x2f c && next (same x2a) s) eqn:E3.
  { apply andb_true_iff in E3 as [->%same_iff E3]. destruct s as [|d s]; [done|]. apply same_iff in E3 as ->.
    destruct (blockComment _ _) as [r'|] eqn:Eb; [|done]. injection H as <- <-.
    apply (from_block pre) in Eb as (seg & Hs & Hl & Hf). exists seg. rewrite Hf.
    split_and!; [done|by intros ->| |done]. intros _. by eapply eEnd_last. }
  destruct (isE c && next (same x27) s) eqn:E4.
  { specialize (He eq_refl). apply andb_true_iff in E4 as [Ec E4]. destruct s as [|d s]; [done|]. apply same_iff in E4 as ->.
    cbn [tail] in H. destruct (scanEString s) as [[t' r']|] eqn:Es; [|done]. injection H as <- <-. by apply estring_follows. }
  destruct (isIdentStart c) eqn:E5.
  { pose proof (ident_follows pre c s E5 E4) as Hi. destruct (span isIdentPart (c :: s)) as [t' r']. by injection H as <- <-. }
  destruct (same x22 c) eqn:E6.
  { apply same_iff in E6 as ->. destruct (scanQuoted x22 s) as [[t' r']|] eqn:Es; [|done]. injection H as <- <-.
    apply quoted_follows; [by right|done|done|done]. }
  destruct (same x27 c) eqn:E7.
  { apply same_iff in E7 as ->. destruct (scanQuoted x27 s) as [[t' r']|] eqn:Es; [|done]. injection H as <- <-.
    apply quoted_follows; [by left|by intros _; apply Ha|done|done]. }
  destruct (isDigit c || (same x2e c && next isDigit s)) eqn:E8.
  { pose proof (number_follows pre c s E8) as Hn. destruct (scanNumber (c :: s)) as [t' r']. by injection H as <- <-. }
  destruct (same x24 c && next isDigit s) eqn:E9.
  { apply andb_true_iff in E9 as [->%same_iff _]. pose proof (param_follows pre s) as Hn.
    destruct (span isDigit s) as [t' r']. by injection H as <- <-. }
  destruct (scanOp (c :: s)) as [op|] eqn:Eo; [|done]. injection H as <- <-. by apply scanOp_follows.
Qed.

(** ** Whole texts *)

Definition isSemi (t : token) : bool := bool_decide (kind t = tOp) && bool_decide (text t = [x3b]).
Definition semis (toks : list token) : list nat := pos <$> filter (λ t, isSemi t = true) toks.

(** No escape string stands directly after an identifier's or a number's
    byte, where the splitter takes its [e] for part of that. *)
Definition detached (q : bytes) (t : token) : bool :=
  match pos t with
  | O => true
  | S p => negb (bool_decide (kind t = tString) && isE (default x00 (q !! pos t)) && isIdentByte (default x00 (q !! p)))
  end.

Lemma semis_step t ts n : semis (match t with Some (k, x) => mkToken k x n :: ts | None => ts end) =
  (if bool_decide (t = Some (tOp, [x3b])) then [n] else []) ++ semis ts.
Proof.
  unfold semis. destruct t as [[k x]|]; [|done]. rewrite filter_cons. unfold isSemi at 1. cbn [kind text].
  destruct (decide (k = tOp /\ x = [x3b])) as [[-> ->]|Hk]; [done|].
  rewrite (bool_decide_false (Some _ = _)) by naive_solver.
  rewrite decide_False; [done|]. intros [?%bool_decide_eq_true ?%bool_decide_eq_true]%andb_true_iff. naive_solver.
Qed.

Lemma lexStep_estring c s t r : isE c && next (same x27) s = true -> lexStep c s = Ok (t, r) -> fst <$> t = Some tString.
Proof.
  intros H. unfold lexStep. rewrite H. apply andb_true_iff in H as [Hc _].
  assert (isBlank c = false /\ same x2d c = false /\ same x2f c = false) as (-> & -> & ->) by by destruct c.
  cbn [andb]. destruct (scanEString _) as [[t' r']|]; [|done]. by intros [= <- <-].
Qed.

Lemma detached_at pre d c s k x : detached ((pre ++ [d]) ++ c :: s) (mkToken k x (length (pre ++ [d])))
  = negb (bool_decide (k = tString) && isE c && isIdentByte d).
Proof.
  unfold detached. cbn [pos kind].
  assert (((pre ++ [d]) ++ c :: s) !! length (pre ++ [d]) = Some c) as Hc by by apply list_lookup_middle.
  assert (((pre ++ [d]) ++ c :: s) !! length pre = Some d) as Hd.
  { rewrite <- app_assoc. by apply list_lookup_middle. }
  rewrite length_app, Nat.add_1_r in *. by rewrite Hc, Hd.
Qed.

Lemma lexLoop_from fuel pre s toks : length s <= fuel -> lexLoop fuel (length (pre ++ s)) s = Ok toks ->
  forallb (detached (pre ++ s)) toks = true -> aligned pre s -> from 0 pre s = semis toks.
Proof.
  revert pre s toks. induction fuel as [|fuel IH]; intros pre [|c s] toks Hf Hlex Hd Ha; simpl in Hf; try lia;
    try (by injection Hlex as <-).
  cbn [lexLoop] in Hlex. destruct (lexStep c s) as [[t r]| |] eqn:Es; [|done..]. cbn in Hlex.
  apply outcome_bind_ok in Hlex as (ts & Hts & Hlex). injection Hlex as Htoks.
  assert (length (pre ++ c :: s) - S (length s) = length pre) as Hpos by (rewrite length_app; simpl; lia).
  rewrite Hpos in Htoks.
  destruct (lexStep_follows pre c s t r Es Ha) as (seg & Hs & Hne & Ha' & Hf').
  { intros He d Hl. pose proof (lexStep_estring c s t r He Es) as Ht. destruct t as [[k x]|]; [|done]. injection Ht as ->.
    subst toks. cbn [forallb] in Hd. apply andb_true_iff in Hd as [Hd _]. apply last_Some in Hl as [pre' ->].
    rewrite detached_at in Hd. apply andb_true_iff in He as [He _]. rewrite He in Hd. by apply negb_true_iff in Hd. }
  assert (length r <= fuel) as Hr.
  { apply (f_equal length) in Hs. rewrite length_app in Hs. simpl in Hs. destruct seg; [done|]. simpl in Hs. lia. }
  assert (forallb (detached (pre ++ c :: s)) ts = true) as Hd'.
  { subst toks. destruct t as [[k x]|]; [|done]. cbn [forallb] in Hd. by apply andb_true_iff in Hd as [_ Hd]. }
  rewrite Hs in *. rewrite app_assoc in Hts, Hd'. rewrite Hf', (IH (pre ++ seg) r ts Hr Hts Hd' Ha').
  subst toks. by rewrite semis_step.
Qed.

Lemma splitLoop_lex q toks : lex q = Ok toks -> forallb (detached q) toks = true ->
  splitLoop (length q) q 0 0 = semis toks.
Proof. intros Hl Hd. by apply (lexLoop_from (length q) [] q). Qed.

(** ** Lexing a part of a text *)

(** A run of the lexer without positions. *)
Inductive lexes : bytes -> list (tokKind * bytes) -> Prop :=
  | lexes_nil : lexes [] []
  | lexes_step c s t r ws : lexStep c s = Ok (t, r) -> lexes r ws -> lexes (c :: s) (option_list t ++ ws).
#[local] Hint Constructors lexes : core.

(** A byte no token goes on with: a semicolon or one that [TrimSpace] may
    take away. *)
Definition breaks (h : byte) : bool := same x3b h || negb (bool_decide (solid h)).

Lemma breaks_not p h : (forall c, p c = true -> breaks c = false) -> breaks h = true -> p h = false.
Proof. intros Hp Hh. destruct (p h) eqn:E; [|done]. by rewrite Hp in Hh. Qed.
Lemma isDigit_breaks c : isDigit c = true -> breaks c = false.
Proof. by destruct c. Qed.
Lemma isIdentPart_breaks c : isIdentPart c = true -> breaks c = false.
Proof. by destruct c. Qed.
Lemma same_breaks a : breaks a = false -> forall c, same a c = true -> breaks c = false.
Proof. by intros Ha c ->%same_iff. Qed.
Lemma breaks_other a h : breaks a = false -> breaks h = true -> same a h = false.
Proof. intros Ha. apply breaks_not. by apply same_breaks. Qed.

Lemma blockComment_close depth s r : blockComment depth s = Some r -> exists seg, s = seg ++ x2f :: r.
Proof.
  remember (length s) as n eqn:Hn. assert (length s <= n) as Hl by lia. clear Hn.
  revert depth s Hl. induction n as [|n IH]; intros depth [|c [|d s]] Hl; try done; [simpl in Hl; lia|]. simpl in Hl.
  rewrite blockComment_cons. destruct (same x2f c && same x2a d).
  { intros [seg ->]%IH; [|lia]. by exists (c :: d :: seg). }
  destruct (same x2a c && same x2f d) eqn:E.
  - apply andb_true_iff in E as [_ ->%same_iff]. destruct (depth - 1 =? 0)%Z; [intros [= ->]; by exists [c]|].
    intros [seg ->]%IH; [|lia]. by exists (c :: x2f :: seg).
  - intros [seg Hs]%IH; [|simpl; lia]. exists (c :: seg). by rewrite Hs.
Qed.

Section tail.
Context (h : byte) (w' : bytes) (Hh : breaks h = true).
#[local] Abbreviation w := (h :: w').

Lemma hDigit : isDigit h = false.
Proof. by apply breaks_not; [apply isDigit_breaks|]. Qed.
Lemma next_tail p s : (forall c, p c = true -> breaks c = false) -> next p (s ++ w) = next p s.
Proof. intros Hp. destruct s; [|done]. by apply breaks_not. Qed.
Lemma span_tail p s : p h = false -> span p (s ++ w) = ((span p s).1, (span p s).2 ++ w).
Proof.
  intros Hp. induction s as [|c s IH]; cbn; [by rewrite Hp|]. destruct (p c); [|done]. rewrite IH. by destruct (span p s).
Qed.
Lemma scanFraction_tail s : scanFraction (s ++ w) = ((scanFraction s).1, (scanFraction s).2 ++ w).
Proof.
  destruct s as [|c s]; cbn; [by rewrite breaks_other|].
  destruct (same x2e c); [|done]. rewrite span_tail by apply hDigit. by destruct (span _ s).
Qed.
Lemma scanExponent_tail s : scanExponent (s ++ w) = ((scanExponent s).1, (scanExponent s).2 ++ w).
Proof.
  destruct s as [|c s]; cbn [app scanExponent].
  { rewrite (breaks_not isE); [done|by intros []|done]. }
  destruct (isE c); [|done].
  assert (forall sign ds, (if next isDigit (ds ++ w) then let '(a, b) := span isDigit (ds ++ w) in (c :: sign ++ a, b) else ([], c :: s ++ w))
    = let x := if next isDigit ds then let '(a, b) := span isDigit ds in (c :: sign ++ a, b) else ([], c :: s) in (x.1, x.2 ++ w)) as Hgo.
  { intros sign ds. rewrite next_tail by apply isDigit_breaks. destruct (next isDigit ds); [|done].
    rewrite span_tail by apply hDigit. by destruct (span isDigit ds). }
  destruct s as [|d s]; cbn [app].
  - rewrite (bool_decide_false (h ∈ _)); [exact (Hgo [] [])|].
    intros Hx. revert Hh. apply elem_of_cons in Hx as [->|Hx%list_elem_of_singleton]; [|subst h]; done.
  - case_bool_decide; [exact (Hgo [d] s)|exact (Hgo [] (d :: s))].
Qed.
Lemma scanNumber_tail s : scanNumber (s ++ w) = ((scanNumber s).1, (scanNumber s).2 ++ w).
Proof.
  unfold scanNumber. rewrite span_tail by apply hDigit. destruct (span isDigit s) as [a s1]. cbn.
  rewrite scanFraction_tail. destruct (scanFraction s1) as [b s2]. cbn. rewrite scanExponent_tail. by destruct (scanExponent s2).
Qed.

(** A region of [s ++ w] that opens in [s] closes there, or at a byte of
    [w]. *)
Definition inside {A} (close : byte) (f : option (A * bytes)) (g : option (A * bytes)) : Prop :=
  forall t r, f = Some (t, r) ->
    (exists s', r = s' ++ w /\ g = Some (t, s')) \/ (length r < length w /\ close ∈ w).

Lemma scanQuoted_tail q s : breaks q = false -> inside q (scanQuoted q (s ++ w)) (scanQuoted q s).
Proof.
  intros Hq. remember (length s) as n eqn:Hn. assert (length s <= n) as Hl by lia. clear Hn.
  revert s Hl. induction n as [|n IH]; intros s Hl t r.
  - destruct s; [|simpl in Hl; lia]. cbn [app]. intros (seg & E & _)%toQuote_scanQuoted. right.
    rewrite E, length_app. split; [simpl; lia|]. apply elem_of_app. right. by left.
  - destruct s as [|c s]; [intros H; apply (IH []); [simpl; lia|done]|]. simpl in Hl. cbn [app scanQuoted]. destruct (same q c) eqn:E.
    + destruct s as [|d s]; cbn [app].
      { rewrite breaks_other by done. intros [= <- <-]. left. by exists []. }
      destruct (same q d); [|intros [= <- <-]; left; by exists (d :: s)].
      destruct (scanQuoted q (s ++ w)) as [[t' r']|] eqn:Es; [|done]. intros [= <- <-].
      destruct (IH s ltac:(simpl in Hl; lia) t' r' Es) as [(s' & -> & ->)|?]; [|by right]. left. by exists s'.
    + destruct (scanQuoted q (s ++ w)) as [[t' r']|] eqn:Es; [|done]. intros [= <- <-].
      destruct (IH s ltac:(lia) t' r' Es) as [(s' & -> & ->)|?]; [|by right]. left. by exists s'.
Qed.
Lemma scanEString_tail s : inside x27 (scanEString (s ++ w)) (scanEString s).
Proof.
  remember (length s) as n eqn:Hn. assert (length s <= n) as Hl by lia. clear Hn.
  assert (forall u t r, u `suffix_of` w -> scanEString u = Some (t, r) -> length r < length w /\ x27 ∈ w) as Hout.
  { intros u t r [v Hv] (seg & -> & _)%toQuote_scanEString. rewrite Hv, !length_app. split; [simpl; lia|]. set_solver. }
  revert s Hl. induction n as [|n IH]; intros s Hl t r.
  - destruct s; [|simpl in Hl; lia]. cbn [app]. intros H. right. by eapply Hout.
  - destruct s as [|c s]; [intros H; apply (IH []); [simpl; lia|done]|]. simpl in Hl. cbn [app scanEString]. destruct (same x27 c) eqn:E.
    + destruct s as [|d s]; cbn [app].
      { rewrite breaks_other by done. intros [= <- <-]. left. by exists []. }
      destruct (same x27 d); [|intros [= <- <-]; left; by exists (d :: s)].
      destruct (scanEString (s ++ w)) as [[t' r']|] eqn:Es; [|done]. intros [= <- <-].
      destruct (IH s ltac:(simpl in Hl; lia) t' r' Es) as [(s' & -> & ->)|?]; [|by right]. left. by exists s'.
    + destruct s as [|d s]; cbn [app].
      { intros H. right. destruct (same x5c c); [destruct (scanEString w') as [[t' r']|] eqn:Es|destruct (scanEString w) as [[t' r']|] eqn:Es];
          try done; injection H as <- <-; eapply Hout; [|exact Es| |exact Es]; [by exists [h]|done]. }
      destruct (same x5c c).
      * destruct (scanEString (s ++ w)) as [[t' r']|] eqn:Es; [|done]. intros [= <- <-].
        destruct (IH s ltac:(simpl in Hl; lia) t' r' Es) as [(s' & -> & ->)|?]; [|by right]. left. by exists s'.
      * destruct (scanEString (d :: s ++ w)) as [[t' r']|] eqn:Es; [|done]. intros [= <- <-].
        destruct (IH (d :: s) ltac:(simpl in *; lia) t' r' Es) as [(s' & -> & ->)|?]; [|by right]. left. by exists s'.
Qed.

Lemma blockComment_tail depth s r : blockComment depth (s ++ w) = Some r ->
  (exists s', r = s' ++ w /\ blockComment depth s = Some s') \/ (length r < length w /\ x2f ∈ w).
Proof.
  remember (length s) as n eqn:Hn. assert (length s <= n) as Hl by lia. clear Hn.
  assert (forall depth, blockComment depth w = Some r -> length r < length w /\ x2f ∈ w) as Hout.
  { intros d [seg ->]%blockComment_close. rewrite length_app. split; [simpl; lia|]. set_solver. }
  revert depth s Hl. induction n as [|n IH]; intros depth s Hl.
  - destruct s; [|simpl in Hl; lia]. intros H. right. by eapply Hout.
  - destruct s as [|c [|d s]]; [intros H; right; by eapply Hout| |].
    + cbn [app]. rewrite blockComment_cons, !(breaks_other _ h), !andb_false_r by done. intros H. right. by eapply Hout.
    + cbn [app]. rewrite !blockComment_cons. simpl in Hl. destruct (same x2f c && same x2a d); [apply IH; lia|].
      destruct (same x2a c && same x2f d); [|apply (IH depth (d :: s)); simpl; lia].
      destruct (depth - 1 =? 0)%Z; [intros [= <-]; left; by exists s|apply IH; lia].
Qed.

Lemma take_op n ops u : Forall (λ op, length op = n /\ Forall (λ c, breaks c = false) op) ops ->
  take n (u ++ w) ∈ ops \/ take n u ∈ ops -> take n (u ++ w) = take n u /\ n <= length u.
Proof.
  intros Hops Hin. rewrite Forall_forall in Hops. destruct (decide (n <= length u)) as [Hn|Hn]; [by rewrite take_app_le|].
  exfalso. destruct Hin as [[Hl Hb]%Hops|[Hl _]%Hops]; [|rewrite length_take in Hl; lia].
  rewrite Forall_forall in Hb. specialize (Hb h). rewrite Hh in Hb. cut (h ∈ take n (u ++ w)); [by intros ?%Hb|].
  apply list_elem_of_lookup. exists (length u). rewrite lookup_take, decide_True by lia. by apply list_lookup_middle.
Qed.
Lemma ops_shape n ops : forallb (λ op, (length op =? n)%nat && forallb (λ c, negb (breaks c)) op) ops = true ->
  Forall (λ op, length op = n /\ Forall (λ c, breaks c = false) op) ops.
Proof.
  rewrite forallb_forall. intros H. apply Forall_forall. intros op Hop%list_elem_of_In%H.
  apply andb_true_iff in Hop as [Hl%Nat.eqb_eq Hb]. split; [done|]. rewrite forallb_forall in Hb.
  apply Forall_forall. intros c Hc%list_elem_of_In%Hb. by apply negb_true_iff.
Qed.
Lemma scanOp_tail c s op : scanOp (c :: s ++ w) = Some op -> scanOp (c :: s) = Some op /\ length op <= length (c :: s).
Proof.
  pose proof (take_op 3 ops3 (c :: s) (ops_shape 3 ops3 eq_refl)) as H3.
  pose proof (take_op 2 ops2 (c :: s) (ops_shape 2 ops2 eq_refl)) as H2.
  unfold scanOp. rewrite app_comm_cons.
  destruct (decide (take 3 ((c :: s) ++ w) ∈ ops3 \/ take 3 (c :: s) ∈ ops3)) as [Hin|Hin].
  { destruct (H3 Hin) as [E Hl]. rewrite E in *. rewrite bool_decide_true by tauto. intros [= <-]. split; [done|].
    cbn [length]. rewrite length_take. lia. }
  rewrite !(bool_decide_false (_ ∈ ops3)) by tauto.
  destruct (decide (take 2 ((c :: s) ++ w) ∈ ops2 \/ take 2 (c :: s) ∈ ops2)) as [Hin2|Hin2].
  { destruct (H2 Hin2) as [E Hl]. rewrite E in *. rewrite bool_decide_true by tauto. intros [= <-]. split; [done|].
    cbn [length]. rewrite length_take. lia. }
  rewrite !(bool_decide_false (_ ∈ ops2)) by tauto. cbn [app].
  case_bool_decide; [|done]. intros [= <-]. split; [done|simpl; lia].
Qed.

(** A step of the lexer on [c :: s ++ w] is its step on [c :: s], or takes
    some of [w]: a line comment, or a region closed there. *)
Definition within (t : option (tokKind * bytes)) (r : bytes) (step : outcome (option (tokKind * bytes) * bytes)) : Prop :=
  (exists s', r = s' ++ w /\ step = Ok (t, s')) \/
  (length r < length w /\ ((exists b, b ∈ w /\ breaks b = false) \/ t = None /\ step = Ok (None, []) /\ r `suffix_of` w)).

Lemma line_tail s : let p := λ d, negb (same x0a d) in within None (span p (s ++ w)).2 (Ok (None, (span p s).2)).
Proof.
  intros p. induction s as [|c s IH].
  - cbn [app]. destruct (p h) eqn:E; [|left; exists []; cbn [span]; by rewrite E].
    cbn [span]. rewrite E. right. pose proof (span_split p w') as Ha. destruct (span p w') as [a b]. cbn in *. subst w'.
    split; [rewrite length_app; lia|]. right. split_and!; [done|done|]. by exists (h :: a).
  - cbn [app span]. destruct (p c); [|left; by exists (c :: s)]. destruct (span p s), (span p (s ++ w)). apply IH.
Qed.
Lemma within_region q (k : tokKind) (f g : option (bytes * bytes)) (e : error) t r : breaks q = false -> inside q f g ->
  match f with Some (t, r) => Ok (Some (k, t), r) | None => Err e end = Ok (t, r) ->
  within t r (match g with Some (t, r) => Ok (Some (k, t), r) | None => Err e end).
Proof.
  intros Hq Hi H. destruct f as [[t' r']|]; [|done]. injection H as <- <-.
  destruct (Hi t' r' eq_refl) as [(s' & -> & ->)|[Hl Hin]]; [left; by exists s'|]. right. split; [done|]. left. by exists q.
Qed.

Lemma lexStep_tail c s t r : lexStep c (s ++ w) = Ok (t, r) -> within t r (lexStep c s).
Proof.
  unfold lexStep. rewrite !(next_tail _ s) by (apply isDigit_breaks || by apply same_breaks).
  destruct (isBlank c); [intros [= <- <-]; left; by exists s|].
  destruct (same x2d c && next (same x2d) s); [intros [= <- <-]; apply line_tail|].
  destruct (same x2f c && next (same x2a) s).
  { rewrite app_comm_cons. destruct (blockComment 0 ((c :: s) ++ w)) as [r'|] eqn:Eb; [|done]. intros [= <- <-].
    apply blockComment_tail in Eb as [(s' & -> & ->)|[Hl Hin]]; [left; by exists s'|right]. split; [done|]. left. by exists x2f. }
  destruct (isE c && next (same x27) s) eqn:E4.
  { apply andb_true_iff in E4 as [_ E4]. destruct s as [|d s]; [done|]. cbn [tail app].
    apply (within_region x27); [done|apply scanEString_tail]. }
  destruct (isIdentStart c).
  { rewrite app_comm_cons, span_tail by (by apply breaks_not; [apply isIdentPart_breaks|]).
    destruct (span isIdentPart (c :: s)) as [a b]. intros [= <- <-]. left. by exists b. }
  destruct (same x22 c); [apply (within_region x22); [done|by apply scanQuoted_tail]|].
  destruct (same x27 c); [apply (within_region x27); [done|by apply scanQuoted_tail]|].
  destruct (isDigit c || _).
  { rewrite app_comm_cons, scanNumber_tail. destruct (scanNumber (c :: s)) as [a b]. intros [= <- <-]. left. by exists b. }
  destruct (same x24 c && next isDigit s).
  { rewrite span_tail by apply hDigit. destruct (span isDigit s) as [a b]. intros [= <- <-]. left. by exists b. }
  destruct (scanOp (c :: s ++ w)) as [op|] eqn:Eo; [|done]. intros [= <- <-].
  apply scanOp_tail in Eo as [-> Hl]. left. eexists. split; [|done]. rewrite app_comm_cons. by apply drop_app_le.
Qed.
End tail.

(** ** White space around a statement *)

Lemma not_solid_breaks c : ~ solid c -> breaks c = true.
Proof. intros H. unfold breaks. rewrite bool_decide_false by done. apply orb_true_r. Qed.
Lemma scanOp_breaks c s op : breaks c = true -> scanOp (c :: s) = Some op -> op = [c] /\ c = x3b.
Proof.
  intros Hc. unfold scanOp.
  assert (forall n ops, forallb (λ op, (length op =? S n)%nat && forallb (λ c, negb (breaks c)) op) ops = true -> take (S n) (c :: s) ∉ ops) as Hno.
  { intros n ops Hops%ops_shape Hin. rewrite Forall_forall in Hops. destruct (Hops _ Hin) as [_ Hb].
    apply Forall_cons in Hb as [Hb _]. congruence. }
  rewrite (bool_decide_false (_ ∈ ops3)) by by apply Hno. rewrite (bool_decide_false (_ ∈ ops2)) by by apply Hno.
  case_bool_decide as H1; [|done]. intros [= <-]. split; [done|]. clear Hno. revert Hc H1. unfold ops1.
  destruct (decide (c = x3b)); [done|]. intros Hc H1. exfalso.
  assert (Forall (λ c, breaks c = false \/ c = x3b) (go "=<>(),;*.+-~[]/%?")) as Hall.
  { repeat (constructor; [(by left) || (by right)|]). constructor. }
  rewrite Forall_forall in Hall. destruct (Hall c H1); congruence.
Qed.
Lemma lexStep_break c s t r : breaks c = true -> lexStep c s = Ok (t, r) ->
  r = s /\ (t = None \/ t = Some (tOp, [x3b]) /\ c = x3b).
Proof.
  intros Hc. unfold lexStep.
  rewrite !(breaks_other _ c) by done. rewrite (breaks_not isE), (breaks_not isIdentStart), (breaks_not isDigit) by (done || by intros []).
  cbn [andb orb]. destruct (isBlank c); [intros [= <- <-]; auto|].
  destruct (scanOp (c :: s)) as [op|] eqn:Eo; [|done]. apply scanOp_breaks in Eo as [-> ->]; [|done]. intros [= <- <-]. auto.
Qed.
Lemma lexes_space c s ws : ~ solid c -> lexes (c :: s) ws -> lexes s ws.
Proof.
  intros Hc H. inversion H as [|? ? t r ws' Hs Hl]; subst.
  apply lexStep_break in Hs as [-> [->|[_ ->]]]; [done| |by apply not_solid_breaks]. by destruct Hc.
Qed.
Lemma lexes_trim_left w u ws : Forall (λ c, ~ solid c) w -> lexes (w ++ u) ws -> lexes u ws.
Proof. induction 1 as [|c w Hc _ IH]; [done|]. cbn [app]. intros H. apply IH. by eapply lexes_space. Qed.
Lemma lexes_spaces w ws : Forall (λ c, ~ solid c) w -> lexes w ws -> ws = [].
Proof. intros Hw H. rewrite <- (app_nil_r w) in H. apply lexes_trim_left in H; [|done]. by inversion H. Qed.
Lemma lexes_trim_right u w ws : Forall (λ c, ~ solid c) w -> lexes (u ++ w) ws -> lexes u ws.
Proof.
  intros Hw H. destruct w as [|h w]; [by rewrite app_nil_r in H|].
  remember (u ++ h :: w) as s eqn:Es. revert u Es. induction H as [|c s t r ws Hs Hl IH]; intros u Es; [by destruct u|].
  destruct u as [|c' u].
  { cbn in Es. rewrite (lexes_spaces (h :: w) (option_list t ++ ws)); [done|done|]. rewrite <- Es. by econstructor. }
  injection Es as <- ->. apply lexStep_tail in Hs as [(s' & -> & Hs)|[_ [(b & Hb & Hbr)|(-> & Hs & v & Hv)]]].
  - econstructor; [done|]. by apply IH.
  - rewrite Forall_forall in Hw. by rewrite not_solid_breaks in Hbr by by apply Hw.
  - rewrite (lexes_spaces r ws); [by eapply (lexes_step c u None [])| |done]. rewrite Hv in Hw. by apply Forall_app in Hw as [_ Hw].
  - apply not_solid_breaks. by apply Forall_cons in Hw as [Hw _].
Qed.

Lemma decode_rune_space c s r rest : decode_rune c s = (r, rest) -> isSpace r = true ->
  exists w, c :: s = w ++ rest /\ w <> [] /\ Forall (λ c, ~ solid c) w.
Proof.
  intros H Hr. unfold solid.
  assert (forall d, (128 <= b2z d)%Z -> ~ (b2z d < 128 /\ isSpace (b2z d) = false)%Z) as Hhigh by lia.
  assert (forall d, cont d = true -> (128 <= b2z d)%Z) as Hcont by (unfold cont; lia).
  unfold decode_rune in H. cbv zeta in H.
  destruct (Z.ltb_spec (b2z c) 128).
  { injection H as <- <-. exists [c]. split_and!; [done|done|]. constructor; [|constructor]. intros [_ H']. congruence. }
  assert (forall x, (RuneError, s) = (r, x) -> False) as Hbad by (intros x [= <- _]; done).
  destruct (_ && _) in H; [|destruct (_ && _) in H; [|destruct (_ && _) in H; [|by destruct (Hbad rest)]]].
  - destruct s as [|d s]; [by destruct (Hbad rest)|]. destruct (cont d) eqn:Ed; [|by destruct (Hbad rest)].
    injection H as _ <-. exists [c; d]. split_and!; [done|done|]. repeat constructor; auto.
  - destruct s as [|d [|e s]]; try (by destruct (Hbad rest)).
    destruct (_ && cont e) eqn:Ed in H; [|by destruct (Hbad rest)]. injection H as _ <-.
    apply andb_true_iff in Ed as [Ed Ee]. exists [c; d; e]. split_and!; [done|done|]. repeat constructor; auto.
    apply Hhigh. revert Ed. case_match; lia.
  - destruct s as [|d [|e [|f s]]]; try (by destruct (Hbad rest)).
    destruct (_ && cont f) eqn:Ed in H; [|by destruct (Hbad rest)]. injection H as _ <-.
    apply andb_true_iff in Ed as [[Ed Ee]%andb_true_iff Ef]. exists [c; d; e; f]. split_and!; [done|done|]. repeat constructor; auto.
    apply Hhigh. revert Ed. case_match; lia.
Qed.
Lemma trim_left_app n s : exists w, s = w ++ trim_left_fuel n s /\ Forall (λ c, ~ solid c) w.
Proof.
  revert s. induction n as [|n IH]; intros s; [by exists []|]. destruct s as [|c s]; [by exists []|]. cbn [trim_left_fuel].
  destruct (decode_rune c s) as [r rest] eqn:Er. destruct (isSpace r) eqn:Es; [|by exists []].
  destruct (decode_rune_space c s r rest Er Es) as (w & -> & _ & Hw). destruct (IH rest) as (w' & Hr & Hw').
  exists (w ++ w'). split; [|by apply Forall_app]. by rewrite <- app_assoc, <- Hr.
Qed.
Lemma trim_right_app n s : exists w, s = trim_right_fuel n s ++ w /\ Forall (λ c, ~ solid c) w.
Proof.
  revert s. induction n as [|n IH]; intros s; [by exists []; rewrite app_nil_r|].
  destruct s as [|c s]; [by exists []|]. cbn [trim_right_fuel]. set (u := c :: s) in *.
  destruct (decode_last_rune u) as [r before] eqn:Er. destruct (isSpace r) eqn:Es; [|by exists []; rewrite app_nil_r].
  assert (exists w, u = before ++ w /\ Forall (λ c, ~ solid c) w) as (w & -> & Hw).
  { unfold decode_last_rune in Er. destruct (reverse u) as [|c0 rv] eqn:Eu; [by injection Er as <- _|].
    destruct (Z.ltb_spec (b2z c0) 128).
    - injection Er as <- <-. exists [c0]. split; [|constructor; [|constructor]; intros [_ ?]; congruence].
      by rewrite <- (reverse_involutive u), Eu, reverse_cons.
    - cbv zeta in Er. set (k := length u - back 3 rv 1) in *. destruct (drop k u) as [|d t] eqn:Ed; [by injection Er as <- _|].
      destruct (decode_rune d t) as [x [|]] eqn:Ex; [|by injection Er as <- _]. injection Er as -> <-.
      destruct (decode_rune_space d t r [] Ex Es) as (w & Hw1 & _ & Hw). exists w. split; [|done].
      rewrite app_nil_r in Hw1. by rewrite <- Hw1, <- Ed, take_drop. }
  destruct (IH before) as (w' & Hb & Hw'). exists (w' ++ w). split; [|by apply Forall_app]. by rewrite app_assoc, <- Hb.
Qed.
Lemma lexes_TrimSpace s ws : lexes s ws -> lexes (TrimSpace s) ws.
Proof.
  intros H. unfold TrimSpace. set (u := trim_left_fuel (length s) s).
  destruct (trim_left_app (length s) s) as (w & Hs & Hw). fold u in Hs. rewrite Hs in H. apply lexes_trim_left in H; [|done].
  destruct (trim_right_app (length u) u) as (w' & Hu & Hw'). rewrite Hu in H. by eapply lexes_trim_right.
Qed.

(** ** Statements *)

Definition words (toks : list token) : list (tokKind * bytes) :=
  (λ t, (kind t, text t)) <$> filter (λ t, kind t <> tEOF) toks.
Definition lexWords (s : bytes) : outcome (list (tokKind * bytes)) := words <$> lex s.

(** The words between the semicolons. *)
Fixpoint groups (ws : list (tokKind * bytes)) : list (list (tokKind * bytes)) :=
  match ws with
  | [] => [[]]
  | w :: ws' =>
      if bool_decide (w = (tOp, [x3b])) then [] :: groups ws'
      else match groups ws' with g :: gs => (w :: g) :: gs | [] => [[w]] end
  end.
(** The bytes between the cuts. *)
Fixpoint pieces (q : bytes) (start : nat) (ends : list nat) : list bytes :=
  match ends with
  | [] => []
  | e :: ends' => take (e - start) (drop start q) :: pieces q (S e) ends'
  end.

Lemma lexStep_app c s t r : lexStep c s = Ok (t, r) -> exists seg, c :: s = seg ++ r /\ seg <> [].
Proof. intros H. destruct (lexStep_follows [] c s t r H) as (seg & ? & ? & _); eauto; done. Qed.
Lemma lexStep_semi c s r : lexStep c s = Ok (Some (tOp, [x3b]), r) -> c = x3b /\ r = s.
Proof.
  unfold lexStep. destruct (isBlank c); [done|]. do 2 (destruct (_ && _); [try destruct (blockComment _ _); done|]).
  destruct (_ && _); [by destruct (scanEString _) as [[]|]|]. destruct (isIdentStart c); [by destruct (span _ _)|].
  do 2 (destruct (same _ c); [by destruct (scanQuoted _ _) as [[]|]|]).
  destruct (_ || _); [by destruct (scanNumber _)|]. destruct (_ && _); [by destruct (span _ _)|].
  destruct (scanOp (c :: s)) as [op|] eqn:Eo; [|done]. intros [= -> <-]. unfold scanOp in Eo.
  assert ([x3b] ∉ ops3 ++ ops2) as Hno by (intros (_ & _ & ? & _)%long_op; done).
  case_bool_decide; [destruct Hno; apply elem_of_app; left; apply (inj Some) in Eo; by rewrite <- Eo|].
  case_bool_decide; [destruct Hno; apply elem_of_app; right; apply (inj Some) in Eo; by rewrite <- Eo|].
  case_bool_decide; [|done]. by injection Eo as ->.
Qed.
Lemma lexStep_kind c s k x r : lexStep c s = Ok (Some (k, x), r) -> k <> tEOF.
Proof.
  unfold lexStep. repeat case_match; intros; simplify_eq; done.
Qed.

Lemma words_step t ts len : (forall k x, t = Some (k, x) -> k <> tEOF) ->
  words (match t with Some (k, x) => mkToken k x len :: ts | None => ts end) = option_list t ++ words ts.
Proof.
  intros Ht. destruct t as [[k x]|]; [|done]. unfold words. rewrite filter_cons_True; [done|]. by eapply Ht.
Qed.

Lemma lexes_lexLoop s ws fuel len : lexes s ws -> length s <= fuel ->
  exists toks, lexLoop fuel len s = Ok toks /\ words toks = ws.
Proof.
  intros H. revert fuel. induction H as [|c s t r ws Hs _ IH]; intros fuel Hf; [destruct fuel; by eexists|].
  destruct fuel as [|fuel]; [simpl in Hf; lia|]. cbn [lexLoop]. rewrite Hs. cbn.
  destruct (lexStep_app c s t r Hs) as (seg & Hseg & Hne). destruct (IH fuel) as (toks & -> & Hw).
  { apply (f_equal length) in Hseg. rewrite length_app in Hseg. destruct seg; [done|]. simpl in *. lia. }
  cbn. eexists. split; [done|]. rewrite words_step; [by rewrite Hw|]. intros k x ->. by eapply lexStep_kind.
Qed.

Lemma groups_cons w ws : w <> (tOp, [x3b]) -> exists g gs, groups ws = g :: gs /\ groups (w :: ws) = (w :: g) :: gs.
Proof.
  intros Hw. cbn [groups]. rewrite bool_decide_false by done.
  assert (groups ws <> []) as Hne.
  { destruct ws as [|v ws]; [done|]. cbn [groups]. case_bool_decide; [done|]. by destruct (groups ws). }
  destruct (groups ws) as [|g gs]; [done|]. by exists g, gs.
Qed.

(** The text up to the next cut, where the lexer is at [r] after [seg]. *)
Lemma lexes_seg c s t r u v g : lexStep c s = Ok (t, r) -> r = u ++ v -> v = [] \/ head v = Some x3b -> lexes u g ->
  exists s', c :: s = (c :: s') ++ v /\ lexes (c :: s') (option_list t ++ g).
Proof.
  intros Hs -> Hv Hu. destruct (lexStep_app c s t _ Hs) as (seg & Hseg & Hne).
  destruct seg as [|c' seg]; [done|]. injection Hseg as <- ->. exists (seg ++ u).
  cbn [app]. rewrite <- app_assoc. split; [done|]. rewrite app_assoc in Hs.
  destruct v as [|h v]; [rewrite !app_nil_r in Hs; by econstructor|]. destruct Hv as [|[= ->]]; [done|].
  apply lexStep_tail in Hs as [(s' & Hs' & Hs)|[Hl _]]; [|rewrite length_app in Hl; lia|done].
  apply app_inv_tail in Hs' as <-. by econstructor.
Qed.

Lemma groups_option t ws : t <> Some (tOp, [x3b]) ->
  exists g gs, groups ws = g :: gs /\ groups (option_list t ++ ws) = (option_list t ++ g) :: gs.
Proof.
  intros Ht. destruct t as [w|]; [apply groups_cons; congruence|]. cbn.
  destruct (groups_cons (tEOF, []) ws) as (g & gs & ? & _); [done|]. by exists g, gs.
Qed.
(** The piece from [pre] to the cut [e] is what it is from [pre ++ seg], with
    [seg] before it. *)
Lemma piece_seg pre (seg r : bytes) e : length (pre ++ seg) <= e ->
  take (e - length pre) (drop (length pre) (pre ++ seg ++ r)) = seg ++ take (e - length (pre ++ seg)) r.
Proof.
  intros He. rewrite length_app in *. rewrite drop_pre, take_app, take_ge by lia.
  f_equal. f_equal. lia.
Qed.
Lemma piece_rest (pre r : bytes) e : length pre <= e -> e = length (pre ++ r) \/ (pre ++ r) !! e = Some x3b ->
  drop (e - length pre) r = [] \/ head (drop (e - length pre) r) = Some x3b.
Proof.
  intros Hl [->|He]; [left; apply drop_ge; rewrite length_app; lia|right].
  rewrite lookup_app_r in He by done. rewrite <- He. set (n := e - length pre). 
  by rewrite head_lookup, lookup_drop, Nat.add_0_r.
Qed.

Lemma lexLoop_pieces fuel pre s toks : length s <= fuel -> lexLoop fuel (length (pre ++ s)) s = Ok toks ->
  Forall (λ e, length pre <= e /\ (pre ++ s) !! e = Some x3b) (semis toks) /\
  Forall2 lexes (pieces (pre ++ s) (length pre) (semis toks ++ [length (pre ++ s)])) (groups (words toks)).
Proof.
  revert pre s toks. induction fuel as [|fuel IH]; intros pre [|c s] toks Hf Hlex; simpl in Hf; try lia.
  1,2: injection Hlex as <-; change (semis [mkToken tEOF [] ?n]) with (@nil nat); split; [by apply Forall_nil|];
    cbn; rewrite app_nil_r, drop_all, take_nil; by repeat constructor.
  cbn [lexLoop] in Hlex. destruct (lexStep c s) as [[t r]| |] eqn:Es; [|done..]. cbn in Hlex.
  apply outcome_bind_ok in Hlex as (ts & Hts & Hlex). injection Hlex as <-.
  replace (length (pre ++ c :: s) - S (length s)) with (length pre) by (rewrite length_app; simpl; lia).
  rewrite semis_step, words_step by (intros k x ->; by eapply lexStep_kind).
  destruct (lexStep_app c s t r Es) as (seg & Hseg & Hne).
  assert (length r <= fuel) as Hr.
  { apply (f_equal length) in Hseg. rewrite length_app in Hseg. destruct seg; [done|]. simpl in *. lia. }
  specialize (IH (pre ++ seg) r ts Hr). rewrite <- app_assoc, <- Hseg in IH. specialize (IH Hts) as [IH1 IH2].
  case_bool_decide as Hsemi.
  { subst t. apply lexStep_semi in Es as [-> ->]. change (x3b :: s) with ([x3b] ++ s) in Hseg. apply app_inv_tail in Hseg as <-.
    cbn [app]. cbn [option_list app groups pieces]. rewrite Nat.sub_diag, take_0.
    rewrite length_app in IH1, IH2. cbn [length] in IH1, IH2. rewrite Nat.add_1_r in IH1, IH2. split; [|by constructor].
    constructor; [split; [lia|by apply list_lookup_middle]|]. eapply Forall_impl; [exact IH1|]. cbn. intros ? []. split; [lia|done]. }
  cbn [app]. destruct (groups_option t (words ts) Hsemi) as (g & gs & Eg & ->). rewrite Eg in IH2.
  destruct (semis ts ++ [length (pre ++ c :: s)]) as [|e es] eqn:Ee; [by apply app_nil in Ee as [_ ?]|].
  cbn [pieces] in *. apply Forall2_cons in IH2 as [Hg Hgs].
  assert (length (pre ++ seg) <= e /\ (e = length (pre ++ c :: s) \/ (pre ++ c :: s) !! e = Some x3b)) as [Hle He].
  { destruct (semis ts) as [|e' es']; injection Ee as <- <-; [rewrite Hseg, app_assoc, (length_app (pre ++ seg)); split; [lia|by left]|].
    apply Forall_cons in IH1 as [[? ?] _]. by auto. }
  rewrite Hseg, app_assoc in He. rewrite Hseg in Hg |- *. rewrite app_assoc, drop_pre in Hg.
  destruct (lexes_seg c s t r _ _ g Es (eq_sym (take_drop _ r)) (piece_rest _ r e Hle He) Hg) as (s' & Hs' & Hg').
  rewrite Hseg in Hs'. rewrite <- (take_drop (e - length (pre ++ seg)) r) in Hs' at 1. rewrite app_assoc in Hs'. apply app_inv_tail in Hs'.
  split.
  - eapply Forall_impl; [exact IH1|]. rewrite <- Hseg. cbn. intros ? []. rewrite length_app in *. split; [lia|done].
  - constructor; [by rewrite piece_seg, Hs'|]. by rewrite <- Hseg.
Qed.

(** Where a statement starts in the text. *)
Lemma lexes_lead t ws : lexes t ws -> trim_left_fuel (length t) t = trim_left_set isBlank t.
Proof.
  intros H. remember (length t) as n eqn:Hn. revert t ws H Hn.
  induction n as [|n IH]; intros [|c s] ws H Hn; try done. injection Hn as Hn.
  cbn [trim_left_set]. destruct (isBlank c) eqn:Eb.
  - cbn [trim_left_fuel]. assert (decode_rune c s = (b2z c, s) /\ isSpace (b2z c) = true) as [-> ->] by by destruct c.
    apply (IH s ws); [|done]. eapply lexes_space; [|exact H]. intros [_ Hs]. by destruct c.
  - apply trim_left_solid. destruct (decide (solid c)) as [|Hc]; [done|]. exfalso.
    inversion H as [|? ? t r ws' Hs _]; subst. revert Hs. unfold lexStep. rewrite Eb.
    apply not_solid_breaks in Hc as Hbr. rewrite !(breaks_other _ c) by done.
    rewrite (breaks_not isE), (breaks_not isIdentStart), (breaks_not isDigit) by (done || by intros []). cbn [andb orb].
    destruct (scanOp (c :: s)) as [op|] eqn:Eo; [|done]. apply scanOp_breaks in Eo as [_ ->]; [|done]. by destruct Hc.
Qed.
Lemma lexes_off q start t ws : lexes t ws -> t `prefix_of` drop start q ->
  TrimSpace t `prefix_of` drop (start + (length t - length (trim_left_set isBlank t))) q.
Proof.
  intros H [z Hz]. rewrite <- (lexes_lead t ws H). unfold TrimSpace. set (u := trim_left_fuel (length t) t).
  destruct (trim_left_app (length t) t) as (w & Ht & _). fold u in Ht. destruct (trim_right_app (length u) u) as (w' & Hu & _).
  rewrite <- drop_drop, Hz. exists (w' ++ z). rewrite app_assoc, <- Hu.
  rewrite Ht at 1 2. rewrite length_app, Nat.add_sub, <- app_assoc. apply drop_app_length.
Qed.

(** The parts of a cut text, against the lexings of its pieces. *)
Lemma emitAll_lexes q start ends gss : Forall2 lexes (pieces q start ends) gss ->
  exists wss, Forall2 (λ p ws, lexes (ptext p) ws /\ ptext p `prefix_of` drop (off p) q) (emitAll q start ends) wss /\
    filter (.≠ []) wss = filter (.≠ []) gss.
Proof.
  revert start gss. induction ends as [|e ends IH]; intros start gss H; cbn [pieces emitAll] in *.
  { inversion H; subst. by exists []. }
  apply Forall2_cons_inv_l in H as (g & gs & Hg & Hgs & ->). destruct (IH (S e) gs Hgs) as (wss & Hw & Hf).
  set (t := take (e - start) (drop start q)) in *.
  assert (lexes (TrimSpace t) g) as Ht by by apply lexes_TrimSpace.
  case_bool_decide as Ee.
  - rewrite Ee in Ht. inversion Ht; subst. exists wss. split; [done|]. by rewrite filter_cons_False by naive_solver.
  - exists (g :: wss). split; [|rewrite !filter_cons; by rewrite Hf]. constructor; [|done]. split; [done|].
    eapply lexes_off; [done|]. apply prefix_take.
Qed.

Definition exQuery : bytes := go "INSERT INTO t VALUES (E'it\'s; fine'); -- ;
 /* ; */ SELECT some';\' ;; ".
Definition exToks : list token := match lex exQuery with Ok ts => ts | _ => [] end.
