(* ===== verification/WireErr.v ===== *)
(** * Errors on the wire

    [pgwire/errors.go]: the SQLSTATE of an error and the bodies of error and
    notice messages. Errors carry fields ([serr.UserFields]) and may wrap the
    cancellation of their context or a lost commit; [Serr] is what the server
    sees of them. *)
From S2P Require Import Prelude GoVal GoStr GoFloat Wire.

Local Open Scope Z_scope.

(** [serr], and [errors.Is] on the errors the server knows. *)
Class Serr (E : Type) := {
  err_new : bytes -> list bytes -> E;             (* serr.New(msg, fields...) *)
  err_wrap : E -> list bytes -> E;                (* serr.Wrap(err, fields...) *)
  err_of : error -> E;                            (* an error of the engine's model *)
  err_msg : E -> bytes;                           (* err.Error() *)
  err_fields : E -> list bytes;                   (* SErrFromErr(err).UserFields() *)
  err_deadline : E -> bool;                       (* errors.Is(err, context.DeadlineExceeded) *)
  err_canceled : E -> bool;                       (* errors.Is(err, context.Canceled) *)
  err_conflict : E -> bool;                       (* errors.Is(err, bytdb.ErrTxConflict) *)
  err_panic : panic -> bytes;                     (* fmt.Sprint of a recovered value *)
}.
(** A new error has its message and fields and wraps nothing; wrapping keeps
    the message and what is wrapped. *)
Class SerrLaws (E : Type) {se : Serr E} := {
  err_new_msg m f : err_msg (err_new m f) = m;
  err_new_fields m f : err_fields (err_new m f) = f;
  err_new_deadline m f : err_deadline (err_new m f) = false;
  err_new_canceled m f : err_canceled (err_new m f) = false;
  err_new_conflict m f : err_conflict (err_new m f) = false;
  err_wrap_msg e f : err_msg (err_wrap e f) = err_msg e;
  err_of_msg m : err_msg (err_of (ENew m)) = m;
}.

(** ** strings *)

Definition HasPrefix (s p : bytes) : bool := bool_decide (p `prefix_of` s).
Definition HasSuffix (s p : bytes) : bool := bool_decide (p `suffix_of` s).
Fixpoint Contains (s sub : bytes) : bool :=
  HasPrefix s sub || match s with [] => false | _ :: s' => Contains s' sub end.
Definition countByte (s : bytes) (c : byte) : nat := length (filter (λ d, d = c) s).
Fixpoint Join (l : list bytes) (sep : bytes) : bytes :=
  match l with
  | [] => []
  | [x] => x
  | x :: l' => x ++ sep ++ Join l' sep
  end.
(** [strings.Split(s, "\n")] *)
Fixpoint splitLines (s : bytes) : list bytes :=
  match s with
  | [] => [[]]
  | c :: s' =>
      if bool_decide (c = x0a) then [] :: splitLines s'
      else match splitLines s' with l :: ls => (c :: l) :: ls | [] => [[c]] end
  end.

(** ** SQLSTATE *)

Definition q1 : bytes := [x22].
Definition sqlstate (msg : bytes) (hasPos : bool) : bytes :=
  let has := Contains msg in
  let starts := HasPrefix msg in
  let ends := HasSuffix msg in
  if hasPos then go "42601"
  else if has (go "no such table") then go "42P01"
  else if has (go "no such column") || has (go "primary key column not declared")
    || (starts (go "column " ++ q1) && ends (q1 ++ go " does not exist")) then go "42703"
  else if has (go "ambiguous") then go "42702"
  else if has (go "duplicate primary key column") || has (go "appears twice in primary key")
    || (starts (go "column " ++ q1) && ends (q1 ++ go " already exists")) then go "42701"
  else if has (go "duplicate primary key") || has (go "unique index violation")
    || has (go "could not create unique index") then go "23505"
  else if has (go "cannot be cast automatically") then go "42804"
  else if has (go "multiple primary keys") || has (go "cannot add a primary key column")
    || has (go "cannot drop constraint") || has (go "cannot drop a primary key column")
    || has (go "a primary key is required") || ends (q1 ++ go " is in a primary key") then go "42P16"
  else if has (go "invalid input syntax for type") then go "22P02"
  else if starts (go "bad binary ") && ends (go " parameter") then go "22P03"
  else if starts (go "bad ") && ends (go " parameter") && (countByte msg x20 =? 2)%nat then go "22P02"
  else if has (go "violates not-null constraint") || has (go "primary key column may not be NULL")
    || has (go "contains null values") then go "23502"
  else if has (go "violates foreign key constraint") then go "23503"
  else if has (go "truncate a table referenced in a foreign key") then go "0A000"
  else if has (go "because other objects depend on it") || has (go "a foreign key depends on")
    || (starts (go "cannot ") && (has (go "referenced by a foreign key") || has (go "a foreign key column") || has (go "an indexed column"))) then go "2BP01"
  else if has (go "violates check constraint") || has (go "is violated by some row") then go "23514"
  else if has (go "constraint") && has (go "already exists") then go "42710"
  else if has (go "constraint") && has (go "does not exist") then go "42704"
  else if has (go "prepared statement already exists") then go "42P05"
  else if has (go "too many prepared statements") || has (go "too many portals")
    || has (go "result row limit") || has (go "transaction write limit exceeded") then go "54000"
  else if has (go "out of memory") then go "53200"
  else if has (go "wrong number of parameters") || has (go "bad parameter format code") then go "08P01"
  else if has (go "LIMIT must not be negative") then go "2201W"
  else if has (go "OFFSET must not be negative") then go "2201X"
  else if has (go "current transaction is aborted") then go "25P02"
  else if has (go "read-only transaction") then go "25006"
  else if has (go "cannot run inside a transaction block") || has (go "must be called before any query") then go "25001"
  else if has (go "can only be used in transaction blocks") then go "25P01"
  else if has (go "savepoint") && has (go "does not exist") then go "3B001"
  else if has (go "not yet defined in this session") then go "55000"
  else if ends (go "is not an identity column") then go "55000"
  else if starts (go "RESTART value (") then go "22023"
  else go "XX000".

(** ** Bodies *)

(** The opening fields every body has: severity, code and message. *)
Definition headBody (severity code msg : bytes) : bytes :=
  w_cstr msg (w_byte x4d (w_cstr code (w_byte x43 (w_cstr severity (w_byte x56 (w_cstr severity (w_byte x53 []))))))).
Definition cancelBody (msg : bytes) : bytes := w_byte x00 (headBody (go "ERROR") (go "57014") msg).
Definition fatalBody (msg code : bytes) : bytes := w_byte x00 (headBody (go "FATAL") code msg).
Definition conflictBody : bytes :=
  w_byte x00 (w_cstr (go "The transaction might succeed if retried.") (w_byte x48
    (headBody (go "ERROR") (go "40001") (go "could not serialize access due to concurrent update")))).

Definition noticeKind (msg : bytes) : bytes * bytes :=
  if HasSuffix msg (go " already exists, skipping") then
    (go "NOTICE", if HasPrefix msg (go "column ") then go "42701" else go "42P07")
  else if HasSuffix msg (go " does not exist, skipping") then (go "NOTICE", go "00000")
  else if HasPrefix msg (go "compacted the storage log: ") then (go "INFO", go "00000")
  else if Contains msg (go "already a transaction") then (go "WARNING", go "25001")
  else if Contains msg (go "no transaction") then (go "WARNING", go "25P01")
  else if Contains msg (go "can only be used in transaction blocks") then (go "WARNING", go "25P01")
  else (go "WARNING", go "01000").
Definition noticeBody (msg : bytes) : bytes :=
  let '(severity, code) := noticeKind msg in w_byte x00 (headBody severity code msg).

(** The loop over the fields: the last well-formed [pos], and the details. *)
Fixpoint errorFields (flds : list bytes) (p : Z) (detail : list bytes) : Z * list bytes :=
  match flds with
  | k :: v :: rest =>
      if bool_decide (k = go "pos") then
        errorFields rest (match ParseInt v with Some n => n | None => p end) detail
      else errorFields rest p (detail ++ [k ++ go ": " ++ v])
  | _ => (p, detail)
  end.
Section body.
Context {E : Type} {se : Serr E}.

Definition errorBody (err : E) (query : bytes) (base : Z) : bytes :=
  if err_deadline err then cancelBody (go "canceling statement due to statement timeout")
  else if err_canceled err then cancelBody (go "canceling statement due to user request")
  else if err_conflict err then conflictBody
  else
    let msg := err_msg err in
    let '(p, detail) := errorFields (err_fields err) (-1) [] in
    let b := headBody (go "ERROR") (sqlstate msg (0 <=? p)) msg in
    let b := match detail with [] => b | _ => w_cstr (Join detail (go ", ")) (w_byte x44 b) end in
    let b :=
      if (0 <=? p) && (base + p <=? Z.of_nat (length query)) then
        w_cstr (fmtInt (Z.of_nat (length (runes (take (Z.to_nat (base + p)) query))) + 1)) (w_byte x50 b)
      else b in
    w_byte x00 b.
End body.
