(* ===== verification/Conn.v ===== *)
(** * A client connection

    [pgwire/conn.go] after the handshake: the simple and the extended query
    protocol over one session. The SQL layer and its errors are behind
    [SqlLayer]; what the connection sends is the list of its messages, each
    framed by [frame]. Deadlines, the query log and write errors of the
    socket are left out. *)
From S2P Require Import Prelude GoVal GoStr GoFloat Tuple Json Catalog Desc Rows Wire Lexer WireErr.

Local Open Scope Z_scope.

(** ** The SQL layer *)

Record StmtInfo := mkInfo { iCommand : bytes; iParams : list ColType; iCols : list bytes; iTypes : list ColType }.
Record Result := mkResult {
  rCols : list bytes;
  rTypes : list ColType;
  rRows : list (list any);
  rAffected : Z;
  rTag : bytes;
  rNotice : bytes;
}.

(** What a call of the SQL layer comes back with. *)
Inductive ret (E A : Type) := Got (a : A) | Failed (e : E) | Raised (p : panic).
Arguments Got {E A} a.
Arguments Failed {E A} e.
Arguments Raised {E A} p.

(** [DB.Prepare] and the methods of [Stmt] and [Session]; [S] is the session
    over the database. *)
Class SqlLayer (E S stmt : Type) := {
  Prepare : bytes -> ret E stmt;
  NumParams : stmt -> nat;
  Command : stmt -> bytes;
  Describe : stmt -> S -> ret E StmtInfo * S;
  ExecStmt : stmt -> list any -> S -> ret E Result * S;
  Status : S -> byte;
}.

(** ** State *)

Definition maxPreparedStmts : Z := 2 ^ 14.
Definition maxPortals : Z := 2 ^ 14.

Section types.
Context {S stmt : Type}.
Record prepared := mkPrepared {
  pStmt : option (stmt * StmtInfo);      (* stmt and info, set together *)
  pQuery : bytes;
  pOIDs : list Z;
}.
Record portal := mkPortal { ptPrep : prepared; ptArgs : list any; ptFormats : list Z }.
Record conn := mkConn {
  cSess : S;
  cStmts : gmap bytes prepared;
  cPortals : gmap bytes portal;
  cInErr : bool;
  cState : bytes;                        (* stat.State *)
  cQuery : bytes;                        (* stat.Query *)
  cOut : list (byte * bytes);            (* messages sent *)
}.
End types.
Arguments prepared stmt : clear implicits.
Arguments portal stmt : clear implicits.
Arguments conn S stmt : clear implicits.

Section conn.
Context {E S stmt : Type} {se : Serr E} {sql : SqlLayer E S stmt}.
Abbreviation conn := (conn S stmt).
Abbreviation C := (M conn).

Definition set_sess (s : S) (c : conn) : conn := mkConn s (cStmts c) (cPortals c) (cInErr c) (cState c) (cQuery c) (cOut c).
Definition set_stmts (m : gmap bytes (prepared stmt)) (c : conn) : conn := mkConn (cSess c) m (cPortals c) (cInErr c) (cState c) (cQuery c) (cOut c).
Definition set_portals (m : gmap bytes (portal stmt)) (c : conn) : conn := mkConn (cSess c) (cStmts c) m (cInErr c) (cState c) (cQuery c) (cOut c).
Definition set_inErr (b : bool) (c : conn) : conn := mkConn (cSess c) (cStmts c) (cPortals c) b (cState c) (cQuery c) (cOut c).
Definition set_stat (st q : bytes) (c : conn) : conn := mkConn (cSess c) (cStmts c) (cPortals c) (cInErr c) st q (cOut c).
Definition add_out (m : byte * bytes) (c : conn) : conn := mkConn (cSess c) (cStmts c) (cPortals c) (cInErr c) (cState c) (cQuery c) (cOut c ++ [m]).

(** A call of the SQL layer: its error is a value the handler looks at. *)
Definition call {A : Type} (f : S -> ret E A * S) : C (E + A) := λ c,
  let '(r, s) := f (cSess c) in
  (match r with Got a => Ok (inr a) | Failed e => Ok (inl e) | Raised p => Panic p end, set_sess s c).

(** ** Messages sent *)

Definition send (typ : byte) (body : bytes) : C unit := modify (add_out (typ, body)).
Definition ready : C unit := λ c, send x5a [Status (cSess c)] c.
Definition sendError (err : E) (query : bytes) (base : Z) : C unit :=
  _ ← send x45 (errorBody err query base);
  modify (set_inErr true).
Definition protoError (msg : bytes) : C unit := sendError (err_new msg []) [] 0.
Definition sendNotice (msg : bytes) : C unit := for_each (λ line, send x4e (noticeBody line)) (splitLines msg).

(** One column of a row description, from position [i] on. *)
Fixpoint describeCols (cols : list bytes) (types : list ColType) (formats : list Z) (i : nat) (b : bytes) : outcome bytes :=
  match cols with
  | [] => Ok b
  | name :: cols' =>
      t ← at_index types i;
      f ← formatFor formats i;
      describeCols cols' types formats (Datatypes.S i)
        (w_int16 f (w_int32 (-1) (w_int16 (typeSize t) (w_int32 (oidForType t) (w_int16 0 (w_int32 0 (w_cstr name b)))))))
  end.
Definition sendRowDescription (cols : list bytes) (types : list ColType) (formats : list Z) : C unit :=
  b ← lift (describeCols cols types formats 0 (w_int16 (Z.of_nat (length cols)) []));
  send x54 b.

(** One value of a data row: its bytes, or the error of its encoding. *)
Fixpoint encodeRow (row : list any) (formats : list Z) (types : list ColType) (i : nat) (b : bytes) : outcome bytes :=
  match row with
  | [] => Ok b
  | v :: row' =>
      b ← (if is_nil v then Ok (w_int32 (-1) b)
           else
             f ← formatFor formats i;
             enc ← encodeValue v f (default (TOther []) (types !! i));
             Ok (w_raw enc (w_int32 (Z.of_nat (length enc)) b)));
      encodeRow row' formats types (Datatypes.S i) b
  end.
(** [false]: an encoding failed, and was reported. *)
Fixpoint sendDataRows (rows : list (list any)) (formats : list Z) (types : list ColType) : C bool :=
  match rows with
  | [] => mret true
  | row :: rows' =>
      match encodeRow row formats types 0 (w_int16 (Z.of_nat (length row)) []) with
      | Ok b => _ ← send x44 b; sendDataRows rows' formats types
      | Err e => _ ← sendError (err_of e) [] 0; mret false
      | Panic p => lift (Panic p)
      end
  end.

Definition completeTag (cmd : bytes) (res : Result) : bytes :=
  let cmd := if bool_decide (rTag res = []) then cmd else rTag res in
  if bool_decide (cmd = go "SELECT") then go "SELECT " ++ fmtInt (Z.of_nat (length (rRows res)))
  else if bool_decide (cmd = go "INSERT") then go "INSERT 0 " ++ fmtInt (rAffected res)
  else if bool_decide (cmd ∈ [go "UPDATE"; go "DELETE"]) then cmd ++ go " " ++ fmtInt (rAffected res)
  else cmd.
Definition sendCommandComplete (cmd : bytes) (res : Result) : C unit := send x43 (w_cstr (completeTag cmd res) []).

(** ** pg_stat_activity *)

Definition statActive (q : bytes) : C unit := modify (set_stat (go "active") q).
Definition statIdle : C unit := modify (λ c,
  let st := Status (cSess c) in
  set_stat (if bool_decide (st = x54) then go "idle in transaction"
            else if bool_decide (st = x45) then go "idle in transaction (aborted)" else go "idle") (cQuery c) c).

(** ** The simple protocol *)

(** The loop over the parts, up to the first error. *)
Fixpoint runParts (q : bytes) (parts : list stmtPart) : C unit :=
  match parts with
  | [] => mret ()
  | p :: parts' =>
      match Prepare (ptext p) with
      | Raised e => lift (Panic e)
      | Failed err => sendError err q (Z.of_nat (off p))
      | Got st =>
          r ← call (ExecStmt st []);
          match r with
          | inl err => sendError err q (Z.of_nat (off p))
          | inr res =>
              _ ← (if bool_decide (rNotice res = []) then mret () else sendNotice (rNotice res));
              go_on ← (match rCols res with
                       | [] => mret true
                       | _ => _ ← sendRowDescription (rCols res) (rTypes res) []; sendDataRows (rRows res) [] (rTypes res)
                       end);
              if (go_on : bool) then _ ← sendCommandComplete (Command st) res; runParts q parts' else mret ()
          end
      end
  end.
Definition simpleQuery (q : bytes) : C unit :=
  match splitStatements q with
  | [] => _ ← send x49 []; ready
  | parts =>
      _ ← statActive q;
      _ ← runParts q parts;
      _ ← modify (set_inErr false);
      _ ← ready;
      statIdle
  end.

(** ** The extended protocol *)

Fixpoint times {A : Type} (read : rbuf -> A * rbuf) (n : nat) (r : rbuf) : list A * rbuf :=
  match n with
  | O => ([], r)
  | Datatypes.S n' => let '(a, r) := read r in let '(l, r) := times read n' r in (a :: l, r)
  end.
(** [make([]T, r.u16())] and the loop that fills it. *)
Definition counted {A : Type} (read : rbuf -> A * rbuf) (r : rbuf) : list A * rbuf :=
  let '(n, r) := r_u16 r in times read (Z.to_nat n) r.

(** [strings.TrimRight(s, "; \t\r\n")] *)
Definition trimEnd (s : bytes) : bytes := trim_right_set (λ c, bool_decide (c ∈ [x3b; x20; x09; x0d; x0a])) s.

Definition parse (r : rbuf) : C unit :=
  let '(name, r) := r_cstr r in
  let '(query, r) := r_cstr r in
  let '(oids, r) := counted r_u32 r in
  if rbad r then protoError (go "bad Parse message")
  else
    stmts ← gets cStmts;
    if negb (bool_decide (name = [])) && bool_decide (is_Some (stmts !! name)) then
      sendError (err_new (go "prepared statement already exists") [go "name"; name]) [] 0
    else if negb (bool_decide (name = [])) && (maxPreparedStmts <=? Z.of_nat (size stmts)) then
      sendError (err_new (go "too many prepared statements") [go "limit"; fmtInt maxPreparedStmts]) [] 0
    else
      let done p := _ ← modify (λ c, set_stmts (<[name := p]> (cStmts c)) c); send x31 [] in
      let q := trimEnd (TrimSpace query) in
      if bool_decide (q = []) then done (mkPrepared None query oids)
      else match Prepare q with
           | Raised p => lift (Panic p)
           | Failed err => sendError err query 0
           | Got st =>
               i ← call (Describe st);
               match i with
               | inl err => sendError err query 0
               | inr info => done (mkPrepared (Some (st, info)) query oids)
               end
           end.

Definition numParams (p : prepared stmt) : nat := match pStmt p with Some (st, _) => NumParams st | None => 0 end.
Definition infoCols (p : prepared stmt) : list bytes := match pStmt p with Some (_, info) => iCols info | None => [] end.
Definition infoTypes (p : prepared stmt) : list ColType := match pStmt p with Some (_, info) => iTypes info | None => [] end.
(** The empty statement has no [info] to look into; that too is a panic. *)
Definition inferredOID (p : prepared stmt) (i : nat) : outcome Z :=
  t ← at_index (match pStmt p with Some (_, info) => iParams info | None => [] end) i; Ok (oidForType t).
Definition paramOID (p : prepared stmt) (i : nat) : outcome Z :=
  match pOIDs p !! i with
  | Some oid => if oid =? 0 then inferredOID p i else Ok oid
  | None => inferredOID p i
  end.

(** The parameter values, decoded from position [i] on. An error is reported
    with its parameter's name. *)
Fixpoint decodeArgs (p : prepared stmt) (formats : list Z) (vals : list (option bytes)) (i : nat) : outcome (E + list any) :=
  match vals with
  | [] => Ok (inr [])
  | v :: vals' =>
      let rest a := r ← decodeArgs p formats vals' (Datatypes.S i); Ok (match r with inl e => inl e | inr l => inr (a :: l) end) in
      match v with
      | None => rest ANil
      | Some raw =>
          f ← formatFor formats i;
          oid ← paramOID p i;
          match decodeParam raw f oid with
          | Ok a => rest a
          | Err e => Ok (inl (err_wrap (err_of e) [go "param"; go "$" ++ fmtInt (Z.of_nat i + 1)]))
          | Panic q => Panic q
          end
      end
  end.

Definition bind (r : rbuf) : C unit :=
  let '(pname, r) := r_cstr r in
  let '(sname, r) := r_cstr r in
  let '(pformats, r) := counted r_u16 r in
  let '(vals, r) := counted r_bytesN r in
  let '(formats, r) := counted r_u16 r in
  if rbad r then protoError (go "bad Bind message")
  else
    portals ← gets cPortals;
    stmts ← gets cStmts;
    if bool_decide (portals !! pname = None) && (maxPortals <=? Z.of_nat (size portals)) then
      sendError (err_new (go "too many portals") [go "limit"; fmtInt maxPortals]) [] 0
    else match stmts !! sname with
    | None => sendError (err_new (go "prepared statement does not exist") [go "name"; sname]) [] 0
    | Some p =>
        let want := numParams p in
        let ncols := length (infoCols p) in
        if negb (length vals =? want)%nat then
          sendError (err_new (go "wrong number of parameters") [go "want"; fmtInt (Z.of_nat want); go "got"; fmtInt (Z.of_nat (length vals))]) [] 0
        else if (1 <? length pformats)%nat && negb (length pformats =? length vals)%nat then
          protoError (go "bind message has " ++ fmtInt (Z.of_nat (length pformats)) ++ go " parameter formats but " ++ fmtInt (Z.of_nat (length vals)) ++ go " parameters")
        else if (1 <? length formats)%nat && negb (length formats =? ncols)%nat then
          protoError (go "bind message has " ++ fmtInt (Z.of_nat (length formats)) ++ go " result formats but query has " ++ fmtInt (Z.of_nat ncols) ++ go " columns")
        else
          args ← lift (decodeArgs p pformats vals 0);
          match args with
          | inl err => sendError err [] 0
          | inr args =>
              _ ← modify (λ c, set_portals (<[pname := mkPortal p args formats]> (cPortals c)) c);
              send x32 []
          end
    end.

(** [for i := range n { b.int32(int(p.paramOID(i))) }] *)
Fixpoint writeOIDs (p : prepared stmt) (n i : nat) (b : bytes) : outcome bytes :=
  match n with
  | O => Ok b
  | Datatypes.S n' => oid ← paramOID p i; writeOIDs p n' (Datatypes.S i) (w_int32 oid b)
  end.
(** The row shape of a statement, or that it has none. *)
Definition sendShape (p : prepared stmt) (formats : list Z) : C unit :=
  match infoCols p with
  | [] => send x6e []
  | cols => sendRowDescription cols (infoTypes p) formats
  end.
Definition describe (r : rbuf) : C unit :=
  let '(kind, r) := r_byte r in
  let '(name, r) := r_cstr r in
  if bool_decide (kind = x53) then
    stmts ← gets cStmts;
    match stmts !! name with
    | None => sendError (err_new (go "prepared statement does not exist") [go "name"; name]) [] 0
    | Some p =>
        let n := numParams p in
        b ← lift (writeOIDs p n 0 (w_int16 (Z.of_nat n) []));
        _ ← send x74 b;
        sendShape p []
    end
  else if bool_decide (kind = x50) then
    portals ← gets cPortals;
    match portals !! name with
    | None => sendError (err_new (go "portal does not exist") [go "name"; name]) [] 0
    | Some pt => sendShape (ptPrep pt) (ptFormats pt)
    end
  else protoError (go "bad Describe kind").

Definition execute (r : rbuf) : C unit :=
  let '(name, r) := r_cstr r in
  portals ← gets cPortals;
  match portals !! name with
  | None => sendError (err_new (go "portal does not exist") [go "name"; name]) [] 0
  | Some pt =>
      match pStmt (ptPrep pt) with
      | None => send x49 []
      | Some (st, info) =>
          _ ← statActive (pQuery (ptPrep pt));
          res ← call (ExecStmt st (ptArgs pt));
          _ ← statIdle;
          match res with
          | inl err => sendError err (pQuery (ptPrep pt)) 0
          | inr res =>
              _ ← (if bool_decide (rNotice res = []) then mret () else sendNotice (rNotice res));
              go_on ← (match rCols res with [] => mret true | _ => sendDataRows (rRows res) (ptFormats pt) (rTypes res) end);
              if (go_on : bool) then sendCommandComplete (iCommand info) res else mret ()
          end
      end
  end.

Definition closeTarget (r : rbuf) : C unit :=
  let '(kind, r) := r_byte r in
  let '(name, r) := r_cstr r in
  if bool_decide (kind = x53) then
    _ ← modify (λ c, set_stmts (delete name (cStmts c)) c); send x33 []
  else if bool_decide (kind = x50) then
    _ ← modify (λ c, set_portals (delete name (cPortals c)) c); send x33 []
  else protoError (go "bad Close kind").

(** ** The loop *)

(** What the loop does after a message. *)
Inductive fate := Goes | Ends.

(** One frame, read whole. *)
Definition handle (typ : byte) (body : bytes) : C fate :=
  inErr ← gets cInErr;
  if inErr && negb (bool_decide (typ = x53)) && negb (bool_decide (typ = x58)) then mret Goes
  else
    let r := mkRbuf body false in
    if bool_decide (typ = x51) then _ ← simpleQuery (r_cstr r).1; mret Goes
    else if bool_decide (typ = x50) then _ ← parse r; mret Goes
    else if bool_decide (typ = x42) then _ ← bind r; mret Goes
    else if bool_decide (typ = x44) then _ ← describe r; mret Goes
    else if bool_decide (typ = x45) then _ ← execute r; mret Goes
    else if bool_decide (typ = x43) then _ ← closeTarget r; mret Goes
    else if bool_decide (typ = x53) then _ ← modify (set_inErr false); _ ← ready; mret Goes
    else if bool_decide (typ = x48) then mret Goes
    else if bool_decide (typ = x58) then mret Ends
    else _ ← send x45 (errorBody (err_new (go "unsupported frontend message") [go "type"; encode_rune (b2z typ)]) [] 0); mret Ends.

(** The loop of [run] on what the client sends, with the fence around it: a
    panic ends the connection with a last error message. Each message takes
    at least five bytes of the stream. *)
Definition fence {A : Type} (m : C A) (a : A) : C A := λ c,
  match m c with
  | (Panic p, c') => (Ok a, add_out (x45, errorBody (err_new (go "internal error") [go "panic"; err_panic p]) [] 0) c')
  | r => r
  end.
Fixpoint serve (fuel : nat) (stream : bytes) : C unit :=
  match fuel with
  | O => mret ()
  | Datatypes.S fuel' =>
      match readMessage stream with
      | (Ok (typ, body), rest) =>
          f ← handle typ body;
          match f with Goes => serve fuel' rest | Ends => mret () end
      | _ => mret ()
      end
  end.
Definition run (stream : bytes) : C unit := fence (serve (length stream) stream) tt.
End conn.
