(* ===== verification/ConnOk.v ===== *)
(** * The protocol a connection keeps

    [Conn]'s handlers against the message flow of the Postgres protocol: the
    replies to each message, what is discarded after an error, and the bounds
    on what a connection retains. *)
From S2P Require Import Prelude GoVal GoStr GoFloat Tuple Json Catalog Desc Rows Wire Lexer WireErr Conn.

Local Open Scope Z_scope.

(** ** The replies *)

(** By their type bytes: [N] notices, [T] a row description, [D] data rows,
    [C] a command's completion, [E] an error, [Z] ready for the next query. *)
Definition notices (ts : list byte) : Prop := Forall (λ t, t = x4e) ts.
Definition datarows (ts : list byte) : Prop := Forall (λ t, t = x44) ts.

(** The results of a query's statements, up to the first error. *)
Inductive answers : list byte -> Prop :=
  | ans_done : answers []
  | ans_error : answers [x45]
  | ans_cut ns ds : notices ns -> datarows ds -> answers (ns ++ x54 :: ds ++ [x45])
  | ans_command ns ts : notices ns -> answers ts -> answers (ns ++ x43 :: ts)
  | ans_rows ns ds ts : notices ns -> datarows ds -> answers ts -> answers (ns ++ x54 :: ds ++ x43 :: ts).

(** What answers a message of type [typ], and whether it failed. *)
Inductive replies : byte -> list byte -> bool -> Prop :=
  | rep_parse : replies x50 [x31] false
  | rep_bind : replies x42 [x32] false
  | rep_close : replies x43 [x33] false
  | rep_describe_stmt t : t = x54 \/ t = x6e -> replies x44 [x74; t] false
  | rep_describe_portal t : t = x54 \/ t = x6e -> replies x44 [t] false
  | rep_empty : replies x45 [x49] false
  | rep_execute ns ds : notices ns -> datarows ds -> replies x45 (ns ++ ds ++ [x43]) false
  | rep_execute_cut ns ds : notices ns -> datarows ds -> replies x45 (ns ++ ds ++ [x45]) true
  | rep_failed typ : typ ∈ [x50; x42; x43; x44; x45] -> replies typ [x45] true
  | rep_sync : replies x53 [x5a] false
  | rep_flush : replies x48 [] false
  | rep_query_empty : replies x51 [x49; x5a] false
  | rep_query ts : answers ts -> replies x51 (ts ++ [x5a]) false.

(** A conversation: the blocks of replies to the messages read, in order.
    After a failure, messages go unanswered up to the next [Sync]; an unknown
    message, [Terminate] or, where [crash], a panic ends it. *)
Inductive talks (crash : bool) : bool -> list byte -> list byte -> Prop :=
  | talk_end b : talks crash b [] []
  | talk_skip t msgs out : t <> x53 -> t <> x58 -> talks crash true msgs out -> talks crash true (t :: msgs) out
  | talk_reply b t ts b' msgs out : b = false \/ t = x53 -> replies t ts b' -> talks crash b' msgs out -> talks crash b (t :: msgs) (ts ++ out)
  | talk_close b msgs : talks crash b (x58 :: msgs) []
  | talk_unknown t msgs : t ∉ [x51; x50; x42; x44; x45; x43; x53; x48; x58] -> talks crash false (t :: msgs) [x45]
  | talk_crash b t msgs ts : crash = true -> x5a ∉ ts -> talks crash b (t :: msgs) (ts ++ [x45]).

Section conn.
Context {E S stmt : Type} {se : Serr E} {sql : SqlLayer E S stmt}.
Abbreviation conn := (conn S stmt).
Abbreviation C := (M conn).

(** At most so many named statements, and so many portals. *)
Definition capped (c : conn) : Prop :=
  Z.of_nat (size (delete [] (cStmts c))) <= maxPreparedStmts /\ Z.of_nat (size (cPortals c)) <= maxPortals.

(** From [c] to [c'] the messages [ts] went out, within the caps. *)
Record sent (c : conn) (ts : list byte) (b : bool) (c' : conn) : Prop := {
  sent_out : (cOut c').*1 = (cOut c).*1 ++ ts;
  sent_err : cInErr c' = b;
  sent_capped : capped c -> capped c';
}.
Lemma sent_refl c : sent c [] (cInErr c) c.
Proof. split; by rewrite ?app_nil_r. Qed.
Lemma sent_trans c ts b c1 ts' b' c2 : sent c ts b c1 -> sent c1 ts' b' c2 -> sent c (ts ++ ts') b' c2.
Proof. intros [A1 A2 A3] [B1 B2 B3]. split; [by rewrite B1, A1, app_assoc|done|auto]. Qed.

(** An outcome without errors: what was sent on a normal return, and that
    nothing of it ends a query when the call panics. *)
Definition tells {A : Type} (c : conn) (Q : A -> list byte -> bool -> Prop) (x : outcome A * conn) : Prop :=
  match x with
  | (Ok a, c') => exists ts b, sent c ts b c' /\ Q a ts b
  | (Err _, _) => False
  | (Panic _, c') => exists ts b, sent c ts b c' /\ x5a ∉ ts
  end.
Lemma tells_bind {A B : Type} c (m : C A) (f : A -> C B) Q1 Q : tells c Q1 (m c) -> (forall a ts b, Q1 a ts b -> x5a ∉ ts) ->
  (forall a ts b c1, sent c ts b c1 -> Q1 a ts b -> tells c1 (λ a' ts' b', Q a' (ts ++ ts') b') (f a c1)) ->
  tells c Q ((m ≫= f) c).
Proof.
  unfold mbind, M_bind. destruct (m c) as [[a|e|p] c1]; cbn; [|done..]. intros (ts & b & Hs & Hq) Hz Hf.
  specialize (Hf a ts b c1 Hs Hq). specialize (Hz a ts b Hq). destruct (f a c1) as [[a'|e|p] c2]; cbn in *; [|done|];
    destruct Hf as (ts' & b' & Hs' & Hq'); exists (ts ++ ts'), b'; (split; [by eapply sent_trans|]); [done|set_solver].
Qed.
Lemma tells_mono {A : Type} c (Q Q' : A -> list byte -> bool -> Prop) x : tells c Q x -> (forall a ts b, Q a ts b -> Q' a ts b) -> tells c Q' x.
Proof. intros H HQ. destruct x as [[a|e|p] c']; cbn in *; [|done..]. destruct H as (ts & b & Hs & Hq). eauto. Qed.

Lemma tells_send c typ body : tells c (λ _ ts b, ts = [typ] /\ b = cInErr c) (send typ body c).
Proof. cbn. exists [typ], (cInErr c). split; [|done]. split; [|done..]. cbn. by rewrite fmap_app. Qed.
Lemma tells_sendError c err q base : tells c (λ _ ts b, ts = [x45] /\ b = true) (sendError err q base c).
Proof. cbn. exists [x45], true. split; [|done]. split; [|done..]. cbn. by rewrite fmap_app. Qed.
Lemma tells_lift {A : Type} c (o : outcome A) (Q : A -> list byte -> bool -> Prop) : (forall a, o = Ok a -> Q a [] (cInErr c)) -> (forall e, o <> Err e) -> tells c Q (lift o c).
Proof.
  intros HQ He. destruct o as [a|e|p]; cbn; [|by destruct (He e)|]; exists [], (cInErr c); (split; [apply sent_refl|]); [by apply HQ|set_solver].
Qed.

(** ** Sending results *)

Lemma tells_modify c (f : conn -> conn) (Q : unit -> list byte -> bool -> Prop) : sent c [] (cInErr (f c)) (f c) -> Q tt [] (cInErr (f c)) -> tells c Q (modify f c).
Proof. intros Hs HQ. cbn. by exists [], (cInErr (f c)). Qed.
Lemma tells_ret {A : Type} c (a : A) (Q : A -> list byte -> bool -> Prop) : Q a [] (cInErr c) -> tells c Q ((mret a : C A) c).
Proof. intros HQ. cbn. exists [], (cInErr c). split; [apply sent_refl|done]. Qed.

Lemma tells_sendNotice c msg : tells c (λ _ ts b, notices ts /\ b = cInErr c) (sendNotice msg c).
Proof.
  unfold sendNotice. generalize (splitLines msg). intros ls. revert c. induction ls as [|l ls IH]; intros c; cbn [for_each].
  { apply tells_ret. by split; [constructor|]. }
  eapply tells_bind; [apply tells_send|intros ? ts b [-> _]; set_solver|]. intros [] ts b c1 Hs [-> ->].
  eapply tells_mono; [apply IH|]. intros [] ts' b' [Hn ->]. split; [by constructor|]. by rewrite (sent_err _ _ _ _ Hs).
Qed.
Lemma tells_notice c msg : tells c (λ _ ts b, notices ts /\ b = cInErr c) ((if bool_decide (msg = []) then mret () else sendNotice msg) c).
Proof. case_bool_decide; [apply tells_ret; by split; [constructor|]|apply tells_sendNotice]. Qed.
Lemma describeCols_ok cols types formats i b : forall e, describeCols cols types formats i b <> Err e.
Proof.
  revert i b. induction cols as [|n cols IH]; intros i b e; cbn [describeCols]; [done|].
  unfold at_index. destruct (types !! i) as [t|]; cbn; [|done]. unfold formatFor, at_index.
  destruct formats as [|f [|f' fs]]; cbn; [apply IH..|]. destruct (_ !! i); cbn; [apply IH|done].
Qed.
Lemma tells_rowDescription c cols types formats : tells c (λ _ ts b, ts = [x54] /\ b = cInErr c) (sendRowDescription cols types formats c).
Proof.
  unfold sendRowDescription. eapply tells_bind; [apply (tells_lift _ _ (λ _ ts b, ts = [] /\ b = cInErr c)); [done|apply describeCols_ok]| |].
  - intros ? ts b [-> _]. set_solver.
  - intros a ts b c1 Hs [-> ->]. eapply tells_mono; [apply tells_send|]. intros [] ts b [-> ->]. by rewrite (sent_err _ _ _ _ Hs).
Qed.

(** [true]: all the rows; [false]: the rows before an error. *)
Definition rows_told (c : conn) (go_on : bool) (ts : list byte) (b : bool) : Prop :=
  exists ds, datarows ds /\ if go_on then ts = ds /\ b = cInErr c else ts = ds ++ [x45] /\ b = true.
Lemma tells_dataRows c rows formats types : tells c (rows_told c) (sendDataRows rows formats types c).
Proof.
  revert c. induction rows as [|row rows IH]; intros c; cbn [sendDataRows].
  { apply tells_ret. exists []. by split; [constructor|]. }
  destruct (encodeRow row formats types 0 _) as [b|e|p].
  - eapply tells_bind; [apply tells_send|intros ? ts b' [-> _]; set_solver|]. intros [] ts b' c1 Hs [-> ->].
    eapply tells_mono; [apply IH|]. intros go_on ts b' (ds & Hd & Hg). rewrite (sent_err _ _ _ _ Hs) in Hg.
    exists (x44 :: ds). split; [by constructor|]. by destruct go_on, Hg as [-> ->].
  - eapply tells_bind; [apply tells_sendError|intros ? ts b [-> _]; set_solver|]. intros [] ts b c1 Hs [-> ->].
    apply tells_ret. exists []. split; [constructor|]. by rewrite (sent_err _ _ _ _ Hs).
  - cbn. exists [], (cInErr c). split; [apply sent_refl|set_solver].
Qed.

Lemma tells_call {A : Type} c (f : S -> ret E A * S) : tells c (λ _ ts b, ts = [] /\ b = cInErr c) (call f c).
Proof.
  unfold call. destruct (f (cSess c)) as [r s]. destruct r; cbn; exists [], (cInErr c); (split; [split; cbn; by rewrite ?app_nil_r|]); [done..|set_solver].
Qed.
Lemma tells_stat c st q : tells c (λ _ ts b, ts = [] /\ b = cInErr c) (modify (set_stat st q) c).
Proof. apply tells_modify; [|done]. split; cbn; by rewrite ?app_nil_r. Qed.

(** ** Queries *)

Lemma no_ready_all t ts : t <> x5a -> Forall (λ u, u = t) ts -> x5a ∉ ts.
Proof. intros Ht H Hin. rewrite Forall_forall in H. by rewrite <- (H _ Hin) in Ht. Qed.
Lemma notices_no_ready ns : notices ns -> x5a ∉ ns.
Proof. by apply (no_ready_all x4e). Qed.
Lemma datarows_no_ready ds : datarows ds -> x5a ∉ ds.
Proof. by apply (no_ready_all x44). Qed.
Lemma answers_no_ready ts : answers ts -> x5a ∉ ts.
Proof.
  induction 1 as [| |ns ds H1 H2|ns ts H1 _ IH|ns ds ts H1 H2 _ IH]; try set_solver;
    apply notices_no_ready in H1; try apply datarows_no_ready in H2; set_solver.
Qed.

(** A result: its notices, its rows if it has columns, and whether all of
    them went out. [described]: a row description goes first. *)
Definition told (c : conn) (described : bool) (go_on : bool) (ts : list byte) (b : bool) : Prop :=
  exists ds, datarows ds /\
    if go_on then (ts = [] \/ ts = (if described then [x54] else []) ++ ds) /\ b = cInErr c
    else ts = (if described then [x54] else []) ++ ds ++ [x45] /\ b = true.
Lemma told_no_ready c d go_on ts b : told c d go_on ts b -> x5a ∉ ts.
Proof.
  intros (ds & Hd & H). apply datarows_no_ready in Hd.
  destruct go_on, d; [destruct H as [[-> | ->] _]|destruct H as [[-> | ->] _]|destruct H as [-> _]|destruct H as [-> _]]; set_solver.
Qed.
Lemma tells_result c res : tells c (told c true)
  ((match rCols res with
    | [] => mret true
    | _ => _ ← sendRowDescription (rCols res) (rTypes res) []; sendDataRows (rRows res) [] (rTypes res)
    end : C bool) c).
Proof.
  destruct (rCols res) as [|n cols] eqn:Ec; [apply tells_ret; exists []; split; [constructor|auto]|].
  eapply tells_bind; [apply tells_rowDescription|intros ? ts b [-> _]; set_solver|]. intros [] ts b c1 Hs [-> ->].
  eapply tells_mono; [apply tells_dataRows|]. intros go_on ts b (ds & Hd & H). exists ds. split; [done|].
  rewrite (sent_err _ _ _ _ Hs) in H. destruct go_on, H as [-> ->]; auto.
Qed.

Lemma tells_runParts q parts c : tells c (λ _ ts _, answers ts) (runParts q parts c).
Proof.
  revert c. induction parts as [|p parts IH]; intros c; cbn [runParts]; [apply tells_ret; constructor|].
  assert (forall c1 err base, tells c1 (λ _ ts _, answers ts) (sendError err q base c1)) as Herr.
  { intros. eapply tells_mono; [apply tells_sendError|]. intros [] ts b [-> _]. constructor. }
  destruct (Prepare (ptext p)) as [st|err|pc]; [|apply Herr|cbn; exists [], (cInErr c); split; [apply sent_refl|set_solver]].
  eapply tells_bind; [apply tells_call|intros ? ts b [-> _]; set_solver|]. intros r ts b c1 Hs [-> ->].
  destruct r as [err|res]; [apply Herr|]. cbn [app].
  eapply tells_bind; [apply tells_notice|intros ? ts b [Hn _]; by apply notices_no_ready|]. intros [] ns b c2 Hs2 [Hn ->].
  eapply tells_bind; [apply tells_result|intros ? ts b H; by eapply told_no_ready|]. intros go_on ts b c3 Hs3 (ds & Hd & H).
  destruct go_on.
  - destruct H as [Hts ->]. eapply tells_bind; [apply tells_send|intros ? ts' b [-> _]; set_solver|]. intros [] ts' b c4 Hs4 [-> ->].
    eapply tells_mono; [apply IH|]. intros [] ts' b Ha. destruct Hts as [-> | ->]; cbn [app].
    + by constructor.
    + by constructor.
  - destruct H as [-> ->]. apply tells_ret. cbn [app]. by rewrite ?app_nil_r; constructor.
Qed.

Lemma tells_ready c : tells c (λ _ ts b, ts = [x5a] /\ b = cInErr c) (ready c).
Proof. apply tells_send. Qed.
Lemma tells_finish c : tells c (λ _ ts b, ts = [x5a] /\ b = false) ((_ ← modify (set_inErr false); _ ← ready; statIdle) c).
Proof. cbn. exists [x5a], false. split; [|done]. split; cbn; [by rewrite fmap_app|done..]. Qed.
Lemma tells_simpleQuery q c : cInErr c = false -> tells c (λ _ ts b, replies x51 ts b) (simpleQuery q c).
Proof.
  intros Hc. unfold simpleQuery. destruct (splitStatements q) as [|p parts].
  { eapply tells_bind; [apply tells_send|intros ? ts b [-> _]; set_solver|]. intros [] ts b c1 Hs [-> ->].
    eapply tells_mono; [apply tells_ready|]. intros [] ts b [-> ->]. rewrite (sent_err _ _ _ _ Hs), Hc. constructor. }
  eapply tells_bind; [apply tells_stat|intros ? ts b [-> _]; set_solver|]. intros [] ts b c1 Hs [-> ->].
  eapply tells_bind; [apply tells_runParts|intros ? ts b H; by apply answers_no_ready|]. intros [] ts b c2 Hs2 Ha.
  eapply tells_mono; [apply tells_finish|]. intros [] ts' b' [-> ->]. cbn [app]. by constructor.
Qed.

(** ** The extended protocol *)

Lemma failed_told c typ err q base : typ ∈ [x50; x42; x43; x44; x45] -> tells c (λ _ ts b, replies typ ts b) (sendError err q base c).
Proof. intros Ht. eapply tells_mono; [apply tells_sendError|]. intros [] ts b [-> ->]. by constructor. Qed.
Lemma panics_told {A : Type} c p (Q : A -> list byte -> bool -> Prop) : tells c Q (lift (Panic p) c).
Proof. cbn. exists [], (cInErr c). split; [apply sent_refl|set_solver]. Qed.

Lemma size_delete_insert (m : gmap bytes (prepared stmt)) name p : name <> [] -> Z.of_nat (size m) < maxPreparedStmts ->
  Z.of_nat (size (delete [] (<[name := p]> m))) <= maxPreparedStmts.
Proof.
  intros Hn Hs. rewrite delete_insert_ne by done.
  assert (size (delete [] m) <= size m)%nat by (apply map_subseteq_size, delete_subseteq).
  destruct (delete [] m !! name) eqn:El; [rewrite map_size_insert_Some by eauto|rewrite map_size_insert_None by done]; lia.
Qed.
Lemma tells_gets {A B : Type} c (f : conn -> A) (k : A -> C B) Q : tells c Q (k (f c) c) -> tells c Q ((gets f ≫= k) c).
Proof. done. Qed.
Lemma tells_call_bind {A B : Type} c (f : S -> ret E A * S) (k : E + A -> C B) Q :
  (forall r s, tells (set_sess s c) Q (k r (set_sess s c))) -> tells c Q ((call f ≫= k) c).
Proof.
  intros H. unfold mbind, M_bind, call. destruct (f (cSess c)) as [r s].
  assert (sent c [] (cInErr c) (set_sess s c)) as Hs by (split; cbn; by rewrite ?app_nil_r).
  assert (forall x, tells (set_sess s c) Q x -> tells c Q x) as Hx.
  { intros [[a|e|p] c'] Ht; cbn in *; [|done|]; destruct Ht as (ts & b & Hs' & Hq); exists ts, b; (split; [|done]); exact (sent_trans _ _ _ _ _ _ _ Hs Hs'). }
  destruct r as [a|e|p]; [apply Hx, H..|]. cbn. exists [], (cInErr c). split; [done|set_solver].
Qed.
(** A change of what is retained, answered by [typ]. *)
Lemma tells_keep c (f : conn -> conn) typ req : cOut (f c) = cOut c -> cInErr (f c) = false -> (capped c -> capped (f c)) ->
  replies req [typ] false -> tells c (λ _ ts b, replies req ts b) ((_ ← modify f; send typ []) c).
Proof.
  intros Ho Hi Hc Hr. cbn. exists [typ], false. split; [|done].
  split; [cbn; by rewrite fmap_app, Ho|done|done].
Qed.

Lemma tells_parse r c : cInErr c = false -> tells c (λ _ ts b, replies x50 ts b) (parse r c).
Proof.
  intros Hc. unfold parse. destruct (r_cstr r) as [name r1]. destruct (r_cstr r1) as [query r2]. destruct (counted r_u32 r2) as [oids r3].
  assert (forall err q base c, tells c (λ _ ts b, replies x50 ts b) (sendError err q base c)) as Herr by (intros; apply failed_told; set_solver).
  destruct (rbad r3); [apply Herr|]. apply tells_gets.
  destruct (_ && bool_decide (is_Some _)); [apply Herr|]. destruct (negb _ && _) eqn:Ecap; [apply Herr|].
  assert (forall c1 p, cInErr c1 = false -> cStmts c1 = cStmts c -> tells c1 (λ _ ts b, replies x50 ts b)
    ((_ ← modify (λ c, set_stmts (<[name := p]> (cStmts c)) c); send x31 []) c1)) as Hdone.
  { intros c1 p H1 H2. apply tells_keep; [done|done| |constructor]. intros [Hs Hp]. split; [cbn|done].
    case_bool_decide as Hn; [subst; by rewrite delete_insert_eq|]. cbn in Ecap. apply Z.leb_gt in Ecap.
    apply size_delete_insert; [done|]. by rewrite H2. }
  destruct (bool_decide (trimEnd _ = [])); [by apply Hdone|].
  destruct (Prepare _) as [st|err|p]; [|apply Herr|apply panics_told].
  apply tells_call_bind. intros [err|info] s; [apply Herr|by apply Hdone].
Qed.

Lemma decodeArgs_ok (p : prepared stmt) formats vals i : forall e, (decodeArgs p formats vals i : outcome (E + list any)) <> Err e.
Proof.
  revert i. induction vals as [|v vals IH]; intros i e; cbn [decodeArgs]; [done|].
  assert (forall a e, (r ← decodeArgs p formats vals (Datatypes.S i); Ok (match r with inl e => inl e | inr l => inr (a :: l) end) : outcome (E + list any)) <> Err e) as Hrest.
  { intros a e'. specialize (IH (Datatypes.S i)). destruct (decodeArgs p formats vals _) as [r|e0|q]; cbn; [done|by destruct (IH e0)|done]. }
  destruct v as [raw|]; [|apply Hrest].
  assert (forall e, formatFor formats i <> Err e) as Hf.
  { intros e'. unfold formatFor, at_index. destruct formats as [|f [|f' fs]]; [done..|]. by destruct (_ !! i). }
  destruct (formatFor formats i) as [f|e'|q]; cbn; [|by destruct (Hf e')|done].
  assert (forall e, inferredOID p i <> Err e) as Hi.
  { intros e'. unfold inferredOID, at_index. by destruct (_ !! i). }
  assert (forall e, paramOID p i <> Err e) as Ho.
  { intros e'. unfold paramOID. destruct (pOIDs p !! i) as [oid|]; [|apply Hi]. by destruct (oid =? 0). }
  destruct (paramOID p i) as [oid|e'|q]; cbn; [|by destruct (Ho e')|done].
  destruct (decodeParam raw f oid); [apply Hrest|done..].
Qed.
Lemma tells_bindMsg r c : cInErr c = false -> tells c (λ _ ts b, replies x42 ts b) (bind r c).
Proof.
  intros Hc. unfold bind. destruct (r_cstr r) as [pname r1]. destruct (r_cstr r1) as [sname r2]. destruct (counted r_u16 r2) as [pformats r3].
  destruct (counted r_bytesN r3) as [vals r4]. destruct (counted r_u16 r4) as [formats r5].
  assert (forall err q base c, tells c (λ _ ts b, replies x42 ts b) (sendError err q base c)) as Herr by (intros; apply failed_told; set_solver).
  destruct (rbad r5); [apply Herr|]. do 2 apply tells_gets.
  destruct (_ && _) eqn:Ecap; [apply Herr|]. destruct (cStmts c !! sname) as [p|]; [|apply Herr]. cbv zeta.
  destruct (negb _); [apply Herr|]. do 2 (destruct (_ && negb _); [apply Herr|]).
  pose proof (decodeArgs_ok p pformats vals 0) as Hd. destruct (decodeArgs p pformats vals 0) as [args|e|q]; [|by destruct (Hd e)|apply panics_told].
  change (tells c (λ _ ts b, replies x42 ts b) ((match args with
    | inl err => sendError err [] 0
    | inr args => _ ← modify (λ c, set_portals (<[pname := mkPortal p args formats]> (cPortals c)) c); send x32 [] end) c)).
  destruct args as [err|args]; [apply Herr|]. apply tells_keep; [done|done| |constructor].
  intros [Hs Hp]. split; [done|cbn]. destruct (cPortals c !! pname) eqn:Ep; [rewrite map_size_insert_Some by eauto; done|].
  rewrite map_size_insert_None by done. rewrite bool_decide_true in Ecap by done. apply Z.leb_gt in Ecap. lia.
Qed.

Lemma tells_shape c (p : prepared stmt) formats : tells c (λ _ ts b, (exists t, (t = x54 \/ t = x6e) /\ ts = [t]) /\ b = cInErr c) (sendShape p formats c).
Proof.
  unfold sendShape. destruct (infoCols p) as [|n cols].
  - eapply tells_mono; [apply tells_send|]. intros [] ts b [-> ->]. eauto.
  - eapply tells_mono; [apply tells_rowDescription|]. intros [] ts b [-> ->]. eauto.
Qed.
Lemma writeOIDs_ok (p : prepared stmt) n i b : forall e, writeOIDs p n i b <> Err e.
Proof.
  revert i b. induction n as [|n IH]; intros i b e; cbn [writeOIDs]; [done|].
  unfold paramOID, inferredOID, at_index. destruct (pOIDs p !! i) as [oid|]; [destruct (oid =? 0)|];
    try (destruct (_ !! i); cbn; [apply IH|done]). apply IH.
Qed.
Lemma tells_describe r c : cInErr c = false -> tells c (λ _ ts b, replies x44 ts b) (describe r c).
Proof.
  intros Hc. unfold describe. destruct (r_byte r) as [kind r1]. destruct (r_cstr r1) as [name r2].
  assert (forall err q base c, tells c (λ _ ts b, replies x44 ts b) (sendError err q base c)) as Herr by (intros; apply failed_told; set_solver).
  case_bool_decide; [|case_bool_decide; [|apply Herr]]; apply tells_gets.
  - destruct (cStmts c !! name) as [p|]; [|apply Herr]. cbv zeta.
    eapply tells_bind; [apply (tells_lift _ _ (λ _ ts b, ts = [] /\ b = cInErr c)); [done|apply writeOIDs_ok]|intros ? ts b [-> _]; set_solver|].
    intros a ts b c1 Hs [-> ->]. eapply tells_bind; [apply tells_send|intros ? ts b [-> _]; set_solver|]. intros [] ts b c2 Hs2 [-> ->].
    eapply tells_mono; [apply tells_shape|]. intros [] ts b [(t & Ht & ->) ->]. cbn [app].
    rewrite (sent_err _ _ _ _ Hs2), (sent_err _ _ _ _ Hs), Hc. by constructor.
  - destruct (cPortals c !! name) as [pt|]; [|apply Herr]. eapply tells_mono; [apply tells_shape|].
    intros [] ts b [(t & Ht & ->) ->]. rewrite Hc. by constructor.
Qed.

Lemma tells_portal_rows c res formats : tells c (told c false)
  ((match rCols res with [] => mret true | _ => sendDataRows (rRows res) formats (rTypes res) end : C bool) c).
Proof.
  destruct (rCols res) as [|n cols]; [apply tells_ret; exists []; split; [constructor|auto]|].
  eapply tells_mono; [apply tells_dataRows|]. intros go_on ts b (ds & Hd & H). exists ds. split; [done|].
  destruct go_on, H as [-> ->]; auto.
Qed.
Lemma tells_execute r c : cInErr c = false -> tells c (λ _ ts b, replies x45 ts b) (execute r c).
Proof.
  intros Hc. unfold execute. destruct (r_cstr r) as [name r1]. apply tells_gets.
  assert (forall err q base c, tells c (λ _ ts b, replies x45 ts b) (sendError err q base c)) as Herr by (intros; apply failed_told; set_solver).
  destruct (cPortals c !! name) as [pt|]; [|apply Herr]. destruct (pStmt (ptPrep pt)) as [[st info]|].
  2: { eapply tells_mono; [apply tells_send|]. intros [] ts b [-> ->]. rewrite Hc. constructor. }
  eapply tells_bind; [apply tells_stat|intros ? ts b [-> _]; set_solver|]. intros [] ts b c1 Hs [-> ->].
  eapply tells_bind; [apply tells_call|intros ? ts b [-> _]; set_solver|]. intros res ts b c2 Hs2 [-> ->].
  eapply tells_bind; [apply tells_stat|intros ? ts b [-> _]; set_solver|]. intros [] ts b c3 Hs3 [-> ->]. cbn [app].
  assert (cInErr c3 = false) as H3 by (by rewrite (sent_err _ _ _ _ Hs3), (sent_err _ _ _ _ Hs2), (sent_err _ _ _ _ Hs)).
  destruct res as [err|res]; [apply Herr|].
  eapply tells_bind; [apply tells_notice|intros ? ts b [Hn _]; by apply notices_no_ready|]. intros [] ns b c4 Hs4 [Hn ->].
  eapply tells_bind; [apply tells_portal_rows|intros ? ts b H; by eapply told_no_ready|]. intros go_on ts b c5 Hs5 (ds & Hd & H).
  rewrite (sent_err _ _ _ _ Hs4), H3 in H.
  destruct go_on; destruct H as [Hts ->].
  - eapply tells_mono; [apply tells_send|]. intros [] ts' b [-> ->]. rewrite (sent_err _ _ _ _ Hs5).
    destruct Hts as [-> | ->]; [apply (rep_execute ns [])|by apply rep_execute]; [done|constructor].
  - apply tells_ret. rewrite (sent_err _ _ _ _ Hs5). subst ts. cbn [app]. rewrite app_nil_r. by apply rep_execute_cut.
Qed.
Lemma tells_close r c : cInErr c = false -> tells c (λ _ ts b, replies x43 ts b) (closeTarget r c).
Proof.
  intros Hc. unfold closeTarget. destruct (r_byte r) as [kind r1]. destruct (r_cstr r1) as [name r2].
  case_bool_decide; [|case_bool_decide; [|apply failed_told; set_solver]].
  - apply tells_keep; [done|done| |constructor]. intros [Hs Hp]. split; [cbn|done]. rewrite delete_delete.
    assert (size (delete name (delete [] (cStmts c))) <= size (delete [] (cStmts c)))%nat by (apply map_subseteq_size, delete_subseteq). lia.
  - apply tells_keep; [done|done| |constructor]. intros [Hs Hp]. split; [done|cbn].
    assert (size (delete name (cPortals c)) <= size (cPortals c))%nat by (apply map_subseteq_size, delete_subseteq). lia.
Qed.

(** ** Conversations *)

Definition known : list byte := [x51; x50; x42; x44; x45; x43; x53; x48; x58].
(** One message: what it is answered with, and what it does to the rest. *)
Definition handled (c : conn) (typ : byte) (f : fate) (ts : list byte) (b : bool) : Prop :=
  match f with
  | Goes => (cInErr c = true /\ typ <> x53 /\ typ <> x58 /\ ts = [] /\ b = true) \/ ((cInErr c = false \/ typ = x53) /\ replies typ ts b)
  | Ends => (typ = x58 /\ ts = []) \/ (cInErr c = false /\ (typ ∉ known) /\ ts = [x45])
  end.
Lemma tells_then c (m : C unit) typ : cInErr c = false -> tells c (λ _ ts b, replies typ ts b) (m c) ->
  tells c (handled c typ) ((_ ← m; mret Goes) c).
Proof.
  intros Hc H. unfold mbind, M_bind. destruct (m c) as [[[]|e|p] c']; cbn in *; [|done..].
  destruct H as (ts & b & Hs & Hr). exists ts, b. split; [done|]. right. auto.
Qed.
Lemma tells_handle typ body c : tells c (handled c typ) (handle typ body c).
Proof.
  unfold handle. apply tells_gets. destruct (cInErr c) eqn:Hc; cbn [andb].
  - case_bool_decide as H1; cbn [negb andb]; [subst typ; cbn; exists [x5a], false; split; [|right; split; [by right|constructor]]|].
    { split; cbn; [by rewrite fmap_app|done..]. }
    case_bool_decide as H2; cbn [negb andb]; [subst typ; apply tells_ret; by left|].
    apply tells_ret. left. by rewrite Hc.
  - case_bool_decide; [subst; by apply tells_then, tells_simpleQuery|].
    case_bool_decide; [subst; by apply tells_then, tells_parse|].
    case_bool_decide; [subst; by apply tells_then, tells_bindMsg|].
    case_bool_decide; [subst; by apply tells_then, tells_describe|].
    case_bool_decide; [subst; by apply tells_then, tells_execute|].
    case_bool_decide; [subst; by apply tells_then, tells_close|].
    case_bool_decide; [subst; cbn; exists [x5a], false; split; [split; cbn; [by rewrite fmap_app|done..]|right; split; [by left|constructor]]|].
    case_bool_decide; [subst; apply tells_ret; right; split; [by left|rewrite Hc; constructor]|].
    case_bool_decide; [subst; apply tells_ret; by left|].
    eapply tells_bind; [apply tells_send|intros ? ts b [-> _]; set_solver|]. intros [] ts b c1 Hs [-> ->].
    apply tells_ret. right. unfold known. split_and!; [done|set_solver|done].
Qed.

Definition msgTypes (stream : bytes) : list byte := (readAll (length stream) stream).1.*1.
Lemma serve_talks fuel stream c :
  match serve fuel stream c with
  | (Ok _, c') => exists ts, sent c ts (cInErr c') c' /\ talks false (cInErr c) (readAll fuel stream).1.*1 ts
  | (Err _, _) => False
  | (Panic _, c') => exists ts, sent c ts (cInErr c') c' /\ talks true (cInErr c) (readAll fuel stream).1.*1 (ts ++ [x45])
  end.
Proof.
  revert stream c. induction fuel as [|fuel IH]; intros stream c; cbn [serve readAll].
  { exists []. split; [apply sent_refl|constructor]. }
  destruct (readMessage stream) as [[[typ body]|e|p] rest]; [|exists []; split; [apply sent_refl|constructor]..].
  pose proof (tells_handle typ body c) as Hh. unfold mbind, M_bind. destruct (handle typ body c) as [[f|e|p] c1]; [|done|].
  - destruct Hh as (ts & b & Hs & Hf). destruct f.
    + specialize (IH rest c1). rewrite (sent_err _ _ _ _ Hs) in IH.
      assert (forall crash msgs out, talks crash b msgs out -> talks crash (cInErr c) (typ :: msgs) (ts ++ out)) as Hstep.
      { intros crash msgs out Ht. destruct Hf as [(Hc & H1 & H2 & -> & ->)|[Hc Hr]]; [rewrite Hc; by constructor|by eapply talk_reply]. }
      destruct (serve fuel rest c1) as [[[]|e|p] c']; [|done|]; destruct IH as (ts' & Hs' & Ht); exists (ts ++ ts');
        (split; [by eapply sent_trans|]); destruct (readAll fuel rest) as [ms r]; cbn in *; [by apply Hstep|].
      rewrite <- app_assoc. by apply Hstep.
    + cbn. exists ts. split; [by rewrite (sent_err _ _ _ _ Hs)|]. destruct (readAll fuel rest) as [ms r]. cbn.
      destruct Hf as [[-> ->]|(Hc & H1 & ->)]; [constructor|]. rewrite Hc. by constructor.
  - destruct Hh as (ts & b & Hs & Hz). exists ts. split; [by rewrite (sent_err _ _ _ _ Hs)|].
    destruct (readAll fuel rest) as [ms r]. cbn. by constructor.
Qed.

(** C9: whatever bytes a client sends, and whatever the SQL layer does, the
    connection keeps to the protocol: the messages read are answered in order
    by their own replies, each query and each [Sync] by exactly one
    [ReadyForQuery] at its end; after a failed message nothing is answered up
    to the next [Sync]; a panic costs this connection, with one error as its
    last message; and the named statements and portals it retains stay within
    their limits. *)
Theorem run_keeps_protocol stream (c : conn) : capped c ->
  exists c' ts, run stream c = (Ok tt, c') /\ (cOut c').*1 = (cOut c).*1 ++ ts /\
    talks (is_panic (serve (length stream) stream c).1) (cInErr c) (msgTypes stream) ts /\ capped c'.
Proof.
  intros Hcap. unfold run, fence. pose proof (serve_talks (length stream) stream c) as H.
  destruct (serve (length stream) stream c) as [[[]|e|p] c']; [|done|]; destruct H as (ts & Hs & Ht).
  - exists c', ts. split_and!; [done|exact (sent_out _ _ _ _ Hs)|done|by apply Hs].
  - eexists _, (ts ++ [x45]). split_and!; [done| |done|exact (sent_capped _ _ _ _ Hs Hcap)].
    cbn. by rewrite fmap_app, (sent_out _ _ _ _ Hs), <- app_assoc.
Qed.
End conn.
