(* ===== verification/ConnSafe.v ===== *)
(** * Connections that do not crash

    Over a SQL layer whose results have the shapes it described, no message a
    client sends panics; without that, one does. And a [Bind] message carries
    a client's values to the statement unchanged. *)
From S2P Require Import Prelude GoVal GoStr GoFloat Tuple Json Time Jsonb Types Catalog Desc Rows Wire Lexer WireErr Conn ConnOk.

Local Open Scope Z_scope.

(** What the SQL layer promises of shapes: [Describe] gives a type for every
    parameter and column, a result has a type for every column and a value
    for every column in each row, and nothing panics. *)
Class SqlShapes (E S stmt : Type) {sql : SqlLayer E S stmt} := {
  prepare_returns q p : Prepare q <> Raised p;
  describe_shape st s : match (Describe st s).1 with
    | Got info => length (iParams info) = NumParams st /\ length (iTypes info) = length (iCols info)
    | Failed _ => True
    | Raised _ => False
    end;
  exec_shape st args s : match (ExecStmt st args s).1 with
    | Got res => length (rTypes res) = length (rCols res) /\ Forall (λ row, length row = length (rCols res)) (rRows res)
    | Failed _ => True
    | Raised _ => False
    end;
}.
(** A statement returns the columns it was described with. *)
Definition steady {E S stmt : Type} {sql : SqlLayer E S stmt} : Prop := forall st s0 info args s res,
  (Describe st s0).1 = Got info -> (ExecStmt st args s).1 = Got res -> length (rCols res) = length (iCols info).

Section safe.
Context {E S stmt : Type} {se : Serr E} {sql : SqlLayer E S stmt} {shapes : SqlShapes E S stmt} (Hsteady : steady).
Abbreviation conn := (conn S stmt).
Abbreviation C := (M conn).

Definition prep_ok (p : prepared stmt) : Prop := forall st info, pStmt p = Some (st, info) -> exists s, (Describe st s).1 = Got info.
Definition portal_ok (pt : portal stmt) : Prop :=
  prep_ok (ptPrep pt) /\ ((length (ptFormats pt) <= 1)%nat \/ length (ptFormats pt) = length (infoCols (ptPrep pt))).
Record conn_ok (c : conn) : Prop := {
  co_stmts : map_Forall (λ _ p, prep_ok p) (cStmts c);
  co_portals : map_Forall (λ _ pt, portal_ok pt) (cPortals c);
}.
Lemma prep_shape p st info : prep_ok p -> pStmt p = Some (st, info) ->
  length (iParams info) = NumParams st /\ length (iTypes info) = length (iCols info).
Proof. intros Hp H. destruct (Hp _ _ H) as [s Hs]. pose proof (describe_shape st s) as Hd. by rewrite Hs in Hd. Qed.

(** No panic, and the invariant after. *)
Definition safe {A : Type} (Q : A -> Prop) (x : outcome A * conn) : Prop :=
  match x with
  | (Ok a, c') => Q a /\ conn_ok c'
  | (Err _, c') => conn_ok c'
  | (Panic _, _) => False
  end.
Lemma safe_bind {A B : Type} c (m : C A) (f : A -> C B) Q Q' : safe Q (m c) -> (forall a c1, Q a -> conn_ok c1 -> safe Q' (f a c1)) ->
  safe Q' ((m ≫= f) c).
Proof. unfold mbind, M_bind. destruct (m c) as [[a|e|p] c1]; cbn; [|done..]. intros [Hq Hc] Hf. by apply Hf. Qed.
Lemma safe_ret {A : Type} c (a : A) (Q : A -> Prop) : Q a -> conn_ok c -> safe Q ((mret a : C A) c).
Proof. done. Qed.
Lemma safe_maps_kept {A : Type} (Q : A -> Prop) c c' a : Q a -> conn_ok c -> cStmts c' = cStmts c -> cPortals c' = cPortals c -> safe Q (Ok a, c').
Proof. intros Hq [H1 H2] Es Ep. split; [done|]. split; by rewrite ?Es, ?Ep. Qed.
Definition fine {A : Type} (_ : A) : Prop := True.
Lemma safe_send c typ b : conn_ok c -> safe fine (send typ b c).
Proof. intros. by eapply safe_maps_kept. Qed.
Lemma safe_sendError c err q base : conn_ok c -> safe fine (sendError err q base c).
Proof. intros. by eapply safe_maps_kept. Qed.
Lemma safe_stat c st q : conn_ok c -> safe fine (modify (set_stat st q) c).
Proof. intros. by eapply safe_maps_kept. Qed.
Lemma safe_call {A : Type} c (f : S -> ret E A * S) (Q : E + A -> Prop) : conn_ok c ->
  (match (f (cSess c)).1 with Got a => Q (inr a) | Failed e => Q (inl e) | Raised _ => False end) -> safe Q (call f c).
Proof. intros Hc Hf. unfold call. destruct (f (cSess c)) as [[a|e|p] s]; cbn in *; [|..|done]; (split; [done|]); by destruct Hc. Qed.
Lemma safe_for_each {A : Type} (f : A -> C unit) l c : (forall x c, conn_ok c -> safe fine (f x c)) -> conn_ok c -> safe fine (for_each f l c).
Proof.
  intros Hf. revert c. induction l as [|x l IH]; intros c Hc; cbn [for_each]; [done|].
  eapply safe_bind; [by apply Hf|]. intros ? c1 _ Hc1. by apply IH.
Qed.
Lemma safe_notice c msg : conn_ok c -> safe fine ((if bool_decide (msg = []) then mret () else sendNotice msg) c).
Proof. intros Hc. case_bool_decide; [done|]. apply safe_for_each; [|done]. intros. by apply safe_send. Qed.

Lemma formatFor_ok formats i : (length formats <= 1)%nat \/ (i < length formats)%nat -> exists f, formatFor formats i = Ok f.
Proof.
  intros H. unfold formatFor, at_index. destruct formats as [|f [|f' fs]]; [by eexists..|].
  destruct (_ !! i) eqn:El; [by eexists|]. apply lookup_ge_None in El. simpl in *. lia.
Qed.
Lemma describeCols_safe cols types formats i b : (i + length cols <= length types)%nat ->
  (length formats <= 1)%nat \/ (i + length cols <= length formats)%nat -> is_panic (describeCols cols types formats i b) = false.
Proof.
  revert i b. induction cols as [|n cols IH]; intros i b Ht Hf; cbn [describeCols]; [done|]. simpl in *.
  unfold at_index at 1. destruct (types !! i) eqn:El; [|apply lookup_ge_None in El; lia]. cbn.
  destruct (formatFor_ok formats i) as [f ->]; [lia|]. cbn. apply IH; lia.
Qed.
Lemma safe_rowDescription c cols types formats : conn_ok c -> length types = length cols ->
  (length formats <= 1)%nat \/ length formats = length cols -> safe fine (sendRowDescription cols types formats c).
Proof.
  intros Hc Ht Hf. unfold sendRowDescription, lift, mbind, M_bind.
  pose proof (describeCols_safe cols types formats 0 (w_int16 (Z.of_nat (length cols)) [])) as Hd.
  destruct (describeCols _ _ _ _ _); [by apply safe_send|done|]. exfalso. cbn in Hd. assert (true = false); [apply Hd; lia|done].
Qed.
Lemma encodeRow_safe row formats types i b : (length formats <= 1)%nat \/ (i + length row <= length formats)%nat ->
  is_panic (encodeRow row formats types i b) = false.
Proof.
  revert i b. induction row as [|v row IH]; intros i b Hf; cbn [encodeRow]; [done|]. simpl in Hf.
  destruct (is_nil v); cbn; [apply IH; lia|]. destruct (formatFor_ok formats i) as [f ->]; [lia|]. cbn.
  pose proof (encodeValue_no_panic v f (default (TOther []) (types !! i))) as Hv.
  destruct (encodeValue _ _ _); cbn; [apply IH; lia|done..].
Qed.
Lemma safe_dataRows c rows formats types n : conn_ok c -> Forall (λ row, length row = n) rows ->
  (length formats <= 1)%nat \/ length formats = n -> safe fine (sendDataRows rows formats types c).
Proof.
  intros Hc Hr Hf. revert c Hc. induction Hr as [|row rows Hrow _ IH]; intros c Hc; cbn [sendDataRows]; [done|].
  pose proof (encodeRow_safe row formats types 0 (w_int16 (Z.of_nat (length row)) [])) as He.
  destruct (encodeRow _ _ _ _ _) as [b|e|p].
  - eapply safe_bind; [by apply safe_send|]. intros ? c1 _ Hc1. by apply IH.
  - eapply safe_bind; [by apply safe_sendError|]. done.
  - exfalso. cbn in He. assert (true = false); [apply He; lia|done].
Qed.

Lemma safe_runParts q parts c : conn_ok c -> safe fine (runParts q parts c).
Proof.
  revert c. induction parts as [|p parts IH]; intros c Hc; cbn [runParts]; [done|].
  destruct (Prepare (ptext p)) as [st|err|pc] eqn:Ep; [|by apply safe_sendError|by apply prepare_returns in Ep].
  eapply (safe_bind _ _ _ (λ r, match r with inr res => length (rTypes res) = length (rCols res) /\ Forall (λ row, length row = length (rCols res)) (rRows res) | inl _ => True end)).
  { apply safe_call; [done|]. pose proof (exec_shape st [] (cSess c)) as He. by destruct (ExecStmt st [] (cSess c)).1. }
  intros [err|res] c1 Hres Hc1; [by apply safe_sendError|]. destruct Hres as [Ht Hrows].
  eapply safe_bind; [by apply safe_notice|]. intros ? c2 _ Hc2.
  eapply (safe_bind _ _ _ fine).
  { destruct (rCols res) as [|n cols] eqn:Ec; [done|]. eapply safe_bind; [apply safe_rowDescription; [done|done|simpl; lia]|].
    intros ? c3 _ Hc3. eapply safe_dataRows; [done|exact Hrows|simpl; lia]. }
  intros [] c3 _ Hc3; [|done]. eapply safe_bind; [by apply safe_send|]. intros ? c4 _ Hc4. by apply IH.
Qed.
Lemma safe_simpleQuery q c : conn_ok c -> safe fine (simpleQuery q c).
Proof.
  intros Hc. unfold simpleQuery. destruct (splitStatements q) as [|p parts].
  - eapply safe_bind; [by apply safe_send|]. intros ? c1 _ Hc1. by apply safe_send.
  - eapply safe_bind; [by apply safe_stat|]. intros ? c1 _ Hc1. eapply safe_bind; [by apply safe_runParts|]. intros ? c2 _ Hc2.
    eapply (safe_bind _ _ _ fine); [by eapply safe_maps_kept|]. intros ? c3 _ Hc3.
    eapply safe_bind; [by apply safe_send|]. intros ? c4 _ Hc4. by eapply safe_maps_kept.
Qed.

(** ** The extended protocol *)

Lemma safe_gets {A B : Type} c (f : conn -> A) (k : A -> C B) Q : safe Q (k (f c) c) -> safe Q ((gets f ≫= k) c).
Proof. done. Qed.
Lemma safe_store_stmt c name p : conn_ok c -> prep_ok p ->
  safe fine ((_ ← modify (λ c, set_stmts (<[name := p]> (cStmts c)) c); send x31 []) c).
Proof. intros [H1 H2] Hp. split; [done|]. split; cbn; [by apply map_Forall_insert_2|done]. Qed.
Lemma safe_parse r c : conn_ok c -> safe fine (parse r c).
Proof.
  intros Hc. unfold parse. destruct (r_cstr r) as [name r1]. destruct (r_cstr r1) as [query r2]. destruct (counted r_u32 r2) as [oids r3].
  destruct (rbad r3); [by apply safe_sendError|]. apply safe_gets. do 2 (destruct (negb _ && _); [by apply safe_sendError|]).
  destruct (bool_decide (trimEnd _ = [])); [by apply safe_store_stmt|].
  destruct (Prepare _) as [st|err|pc] eqn:Ep; [|by apply safe_sendError|by apply prepare_returns in Ep].
  eapply (safe_bind _ _ _ (λ i, match i with inr info => exists s, (Describe st s).1 = Got info | inl _ => True end)).
  { apply safe_call; [done|]. pose proof (describe_shape st (cSess c)) as Hd. destruct (Describe st (cSess c)).1 eqn:Ed; [by exists (cSess c)|done..]. }
  intros [err|info] c1 Hi Hc1; [by apply safe_sendError|]. apply safe_store_stmt; [done|]. intros st' info' [= <- <-]. done.
Qed.

Lemma paramOID_safe p i : prep_ok p -> (i < numParams p)%nat -> is_panic (paramOID p i) = false.
Proof.
  intros Hp Hi. assert (is_panic (inferredOID p i) = false) as Hinf.
  { unfold inferredOID, at_index. unfold numParams in Hi. destruct (pStmt p) as [[st info]|] eqn:Es; [|lia].
    destruct (prep_shape p st info Hp Es) as [Hl _]. destruct (iParams info !! i) eqn:El; [done|]. apply lookup_ge_None in El. lia. }
  unfold paramOID. destruct (pOIDs p !! i) as [oid|]; [|done]. by destruct (oid =? 0).
Qed.
Lemma decodeArgs_safe p formats vals i : prep_ok p -> (i + length vals <= numParams p)%nat ->
  (length formats <= 1)%nat \/ (i + length vals <= length formats)%nat -> is_panic (decodeArgs p formats vals i : outcome (E + list any)) = false.
Proof.
  intros Hp. revert i. induction vals as [|v vals IH]; intros i Hn Hf; cbn [decodeArgs]; [done|]. simpl in *.
  assert (forall a, is_panic (r ← decodeArgs p formats vals (Datatypes.S i); Ok (match r with inl e => inl e | inr l => inr (a :: l) end) : outcome (E + list any)) = false) as Hrest.
  { intros a. specialize (IH (Datatypes.S i) ltac:(lia) ltac:(lia)). by destruct (decodeArgs _ _ _ _). }
  destruct v as [raw|]; [|apply Hrest]. destruct (formatFor_ok formats i) as [f ->]; [lia|]. cbn.
  pose proof (paramOID_safe p i Hp ltac:(lia)) as Ho. destruct (paramOID p i) as [oid|e|q]; cbn; [|done..].
  pose proof (decodeParam_no_panic raw f oid) as Hd. destruct (decodeParam raw f oid); [apply Hrest|done..].
Qed.
Lemma safe_bindMsg r c : conn_ok c -> safe fine (bind r c).
Proof.
  intros Hc. unfold bind. destruct (r_cstr r) as [pname r1]. destruct (r_cstr r1) as [sname r2]. destruct (counted r_u16 r2) as [pformats r3].
  destruct (counted r_bytesN r3) as [vals r4]. destruct (counted r_u16 r4) as [formats r5].
  destruct (rbad r5); [by apply safe_sendError|]. do 2 apply safe_gets. destruct (_ && _); [by apply safe_sendError|].
  destruct (cStmts c !! sname) as [p|] eqn:Ep; [|by apply safe_sendError]. cbv zeta.
  destruct (Nat.eqb_spec (length vals) (numParams p)) as [Hn|]; [|by apply safe_sendError]. cbn [negb].
  destruct ((1 <? length pformats)%nat && negb (length pformats =? length vals)%nat) eqn:E1; [by apply safe_sendError|].
  destruct ((1 <? length formats)%nat && negb (length formats =? length (infoCols p))%nat) eqn:E2; [by apply safe_sendError|].
  assert (prep_ok p) as Hp by exact (co_stmts c Hc _ _ Ep).
  assert (forall a b, ((1 <? a)%nat && negb (a =? b)%nat) = false -> (a <= 1)%nat \/ a = b) as Hab.
  { intros a b. destruct (Nat.ltb_spec 1 a), (Nat.eqb_spec a b); cbn; auto; done. }
  pose proof (decodeArgs_safe p pformats vals 0 Hp ltac:(lia) ltac:(destruct (Hab _ _ E1); lia)) as Hd.
  unfold lift, mbind, M_bind. destruct (decodeArgs p pformats vals 0) as [[err|args]|e|q]; [by apply safe_sendError| |by destruct Hc|done].
  destruct Hc as [H1 H2]. split; [done|]. split; cbn; [done|]. apply map_Forall_insert_2; [|done]. split; [done|exact (Hab _ _ E2)].
Qed.

Lemma safe_shape c p formats : conn_ok c -> prep_ok p -> (length formats <= 1)%nat \/ length formats = length (infoCols p) -> safe fine (sendShape p formats c).
Proof.
  intros Hc Hp Hf. unfold sendShape. destruct (infoCols p) as [|n cols] eqn:Ec; [by apply safe_send|].
  apply safe_rowDescription; [done| |done]. unfold infoCols, infoTypes in *. destruct (pStmt p) as [[st info]|] eqn:Es; [|done].
  destruct (prep_shape p st info Hp Es) as [_ ->]. by rewrite Ec.
Qed.
Lemma writeOIDs_safe p n i b : prep_ok p -> (i + n <= numParams p)%nat -> is_panic (writeOIDs p n i b) = false.
Proof.
  intros Hp. revert i b. induction n as [|n IH]; intros i b Hi; cbn [writeOIDs]; [done|].
  pose proof (paramOID_safe p i Hp ltac:(lia)) as Ho. destruct (paramOID p i); cbn; [apply IH; lia|done..].
Qed.
Lemma safe_describe r c : conn_ok c -> safe fine (describe r c).
Proof.
  intros Hc. unfold describe. destruct (r_byte r) as [kind r1]. destruct (r_cstr r1) as [name r2].
  case_bool_decide; [|case_bool_decide; [|by apply safe_sendError]]; apply safe_gets.
  - destruct (cStmts c !! name) as [p|] eqn:Ep; [|by apply safe_sendError]. cbv zeta.
    assert (prep_ok p) as Hp by exact (co_stmts c Hc _ _ Ep).
    pose proof (writeOIDs_safe p (numParams p) 0 (w_int16 (Z.of_nat (numParams p)) []) Hp ltac:(lia)) as Hw.
    unfold lift, mbind at 1, M_bind at 1. destruct (writeOIDs _ _ _ _); [|by destruct Hc|done].
    eapply safe_bind; [by apply safe_send|]. intros ? c1 _ Hc1. apply safe_shape; [done|done|simpl; lia].
  - destruct (cPortals c !! name) as [pt|] eqn:Ep; [|by apply safe_sendError].
    destruct (co_portals c Hc _ _ Ep) as [Hp Hf]. by apply safe_shape.
Qed.
Lemma safe_execute r c : conn_ok c -> safe fine (execute r c).
Proof.
  intros Hc. unfold execute. destruct (r_cstr r) as [name r1]. apply safe_gets.
  destruct (cPortals c !! name) as [pt|] eqn:Ep; [|by apply safe_sendError]. destruct (co_portals c Hc _ _ Ep) as [Hp Hf].
  destruct (pStmt (ptPrep pt)) as [[st info]|] eqn:Es; [|by apply safe_send].
  destruct (Hp _ _ Es) as [s0 Hs0]. assert (infoCols (ptPrep pt) = iCols info) as Ei by (unfold infoCols; by rewrite Es). rewrite Ei in Hf.
  eapply safe_bind; [by apply safe_stat|]. intros ? c1 _ Hc1.
  eapply (safe_bind _ _ _ (λ r, match r with inr res => length (rCols res) = length (iCols info) /\ Forall (λ row, length row = length (rCols res)) (rRows res) | inl _ => True end)).
  { apply safe_call; [done|]. pose proof (exec_shape st (ptArgs pt) (cSess c1)) as He.
    destruct (ExecStmt st (ptArgs pt) (cSess c1)).1 as [res| |] eqn:Er; [|done..]. destruct He as [_ He]. split; [|done]. by eapply Hsteady. }
  intros res c2 Hres Hc2. eapply safe_bind; [by apply safe_stat|]. intros ? c3 _ Hc3.
  destruct res as [err|res]; [by apply safe_sendError|]. destruct Hres as [Hl Hrows].
  eapply safe_bind; [by apply safe_notice|]. intros ? c4 _ Hc4. eapply (safe_bind _ _ _ fine).
  { destruct (rCols res) as [|n cols] eqn:Ec; [done|]. eapply safe_dataRows; [done|exact Hrows|]. destruct Hf; [by left|right; congruence]. }
  intros [] c5 _ Hc5; [by apply safe_send|done].
Qed.
Lemma safe_close r c : conn_ok c -> safe fine (closeTarget r c).
Proof.
  intros Hc. unfold closeTarget. destruct (r_byte r) as [kind r1]. destruct (r_cstr r1) as [name r2]. destruct Hc as [H1 H2].
  case_bool_decide; [|case_bool_decide; [|by apply safe_sendError]]; (split; [done|]); split; cbn; try done; by apply map_Forall_delete.
Qed.
Lemma safe_handle typ body c : conn_ok c -> safe fine (handle typ body c).
Proof.
  intros Hc. unfold handle. apply safe_gets. destruct (_ && _ && _); [done|]. cbv zeta.
  assert (forall m : C unit, safe fine (m c) -> safe fine ((_ ← m; mret Goes) c)) as Hm by (intros m Hm; by eapply safe_bind).
  case_bool_decide; [by apply Hm, safe_simpleQuery|]. case_bool_decide; [by apply Hm, safe_parse|]. case_bool_decide; [by apply Hm, safe_bindMsg|].
  case_bool_decide; [by apply Hm, safe_describe|]. case_bool_decide; [by apply Hm, safe_execute|]. case_bool_decide; [by apply Hm, safe_close|].
  case_bool_decide; [destruct Hc; by split|]. do 2 (case_bool_decide; [done|]). eapply safe_bind; [by apply safe_send|done].
Qed.
Lemma safe_serve fuel stream c : conn_ok c -> safe fine (serve fuel stream c).
Proof.
  revert stream c. induction fuel as [|fuel IH]; intros stream c Hc; cbn [serve]; [done|].
  destruct (readMessage stream) as [[[typ body]| |] rest]; [|done..]. eapply safe_bind; [by apply safe_handle|].
  intros [] c1 _ Hc1; [by apply IH|done].
Qed.

(** C10: over a SQL layer that returns the columns it described, no sequence
    of bytes from a client makes a connection panic, malformed messages
    included. *)
Theorem never_crashes stream c : conn_ok c -> is_panic (serve (length stream) stream c).1 = false.
Proof. intros Hc. pose proof (safe_serve (length stream) stream c Hc) as H. by destruct (serve _ _ _) as [[]]. Qed.
End safe.

(** ** A SQL layer to run on *)

Definition exErr : Type := bytes * list bytes.
#[export] Instance exSerr : Serr exErr := {
  err_new m f := (m, f);
  err_wrap e f := (e.1, e.2 ++ f);
  err_of e := (match e with ENew m => m | _ => [] end, []);
  err_msg := fst;
  err_fields := snd;
  err_deadline _ := false;
  err_canceled _ := false;
  err_conflict _ := false;
  err_panic _ := go "index out of range";
}.
#[export] Instance exSerrLaws : SerrLaws exErr.
Proof. by split. Qed.

(** One table, of [cols n] columns after [n] changes: [rows] selects from it,
    [alter] changes it, anything else is refused. *)
Definition exLayer (cols : nat -> nat) : SqlLayer exErr nat bytes := {|
  Prepare q := if bool_decide (q ∈ [go "rows"; go "alter"; go "echo"]) then Got q else Failed (go "syntax error", [go "pos"; go "0"]);
  NumParams st := if bool_decide (st = go "echo") then 1%nat else 0%nat;
  Command st := if bool_decide (st = go "alter") then go "ALTER TABLE" else go "SELECT";
  Describe st n :=
    let k := if bool_decide (st = go "alter") then 0%nat else cols n in
    (Got (mkInfo (go "SELECT") (if bool_decide (st = go "echo") then [TInt] else []) (replicate k (go "c")) (replicate k TInt)), n);
  ExecStmt st _ n :=
    if bool_decide (st = go "alter") then (Got (mkResult [] [] [] 0 [] []), Datatypes.S n)
    else (Got (mkResult (replicate (cols n) (go "c")) (replicate (cols n) TInt) [replicate (cols n) (AInt KInt64 7)] 0 [] []), n);
  Status _ := x49;
|}.
Definition exConn : conn nat bytes := mkConn 0%nat ∅ ∅ false (go "idle") [] [].

Lemma exLayer_shapes cols : @SqlShapes _ _ _ (exLayer cols).
Proof.
  split; cbn.
  - intros q p. by case_bool_decide.
  - intros st n. rewrite !length_replicate. by case_bool_decide.
  - intros st args n. case_bool_decide; [by split; [|constructor]|]. cbn. rewrite !length_replicate.
    split; [done|]. constructor; [by rewrite length_replicate|constructor].
Qed.
Lemma exLayer_steady k : @steady _ _ _ (exLayer (λ _, k)).
Proof.
  intros st s0 info args s res. cbn. intros [= <-]. cbn. case_bool_decide; intros [= <-]; cbn; by rewrite ?length_replicate.
Qed.
Lemma exConn_ok cols : @conn_ok _ _ _ (exLayer cols) exConn.
Proof. split; apply map_Forall_empty. Qed.

Definition exStream : bytes := frames [
  (x50, w_int16 0 (w_cstr (go "rows") (w_cstr [] [])));                                        (* Parse *)
  (x42, w_int16 1 (w_int16 0 (w_int16 2 (w_int16 0 (w_int16 0 (w_cstr [] (w_cstr [] [])))))));  (* Bind, two result formats *)
  (x51, w_cstr (go "alter; nonsense") []);                                                     (* Query *)
  (x45, w_int32 0 (w_cstr [] []));                                                             (* Execute *)
  (x53, [])].                                                                                  (* Sync *)
Lemma never_crashes_witness : is_panic (@serve _ _ _ _ (exLayer (λ _, 2%nat)) (length exStream) exStream exConn).1 = false.
Proof. apply (@never_crashes _ _ _ _ (exLayer (λ _, 2%nat)) (exLayer_shapes _) (exLayer_steady 2)). apply exConn_ok. Defined.
Example exStream_replies : (cOut (@run _ _ _ _ (exLayer (λ _, 2%nat)) exStream exConn).2).*1 = [x31; x32; x43; x45; x5a; x44; x43; x5a].
Proof. vm_compute. reflexivity. Qed.
(** The table gains a column between [Bind] and [Execute]: the row has three
    values for two formats, and the connection is lost. *)
Example column_added_crashes : (cOut (@run _ _ _ _ (exLayer (λ n, (n + 2)%nat)) exStream exConn).2).*1 = [x31; x32; x43; x45; x5a; x45].
Proof. vm_compute. reflexivity. Qed.
Lemma run_keeps_protocol_witness :
  exists c' ts, @run _ _ _ _ (exLayer (λ n, (n + 2)%nat)) exStream exConn = (Ok tt, c') /\ (cOut c').*1 = (cOut exConn).*1 ++ ts /\
    talks (is_panic (@serve _ _ _ _ (exLayer (λ n, (n + 2)%nat)) (length exStream) exStream exConn).1) (cInErr exConn) (msgTypes exStream) ts /\ capped c'.
Proof. apply run_keeps_protocol. vm_compute. split; discriminate. Defined.

(** ** Values arrive *)

(** A client's [Bind] message. *)
Definition bindBody (pname sname : bytes) (pformats : list Z) (vals : list (option bytes)) (formats : list Z) : bytes :=
  pname ++ x00 :: sname ++ x00 ::
  be 2 (Z.of_nat (length pformats)) ++ (pformats ≫= be 2) ++
  be 2 (Z.of_nat (length vals)) ++ (vals ≫= arrayElem) ++
  be 2 (Z.of_nat (length formats)) ++ (formats ≫= be 2).
(** How a client sends [v] to a parameter of type [t]. *)
Definition sends (format : Z) (t : ColType) (v : any) (raw : option bytes) : Prop :=
  if is_nil v then raw = None else exists b, encodeValue v format t = Ok b /\ raw = Some b.

Definition small (n : nat) : Prop := Z.of_nat n < 2 ^ 16.
Lemma times_read {A : Type} (read : rbuf -> A * rbuf) (write : A -> bytes) l rest :
  (forall a u, a ∈ l -> read (mkRbuf (write a ++ u) false) = (a, mkRbuf u false)) ->
  times read (length l) (mkRbuf ((l ≫= write) ++ rest) false) = (l, mkRbuf rest false).
Proof.
  intros Hr. induction l as [|a l IH]; [done|]. cbn [length times mbind list_bind]. change (l ≫= write) with (mbind write l).
  rewrite <- app_assoc, Hr by (by left). rewrite IH; [done|]. intros b u Hb. apply Hr. by right.
Qed.
Lemma counted_read {A : Type} (read : rbuf -> A * rbuf) (write : A -> bytes) l rest : small (length l) ->
  (forall a u, a ∈ l -> read (mkRbuf (write a ++ u) false) = (a, mkRbuf u false)) ->
  counted read (mkRbuf (be 2 (Z.of_nat (length l)) ++ (l ≫= write) ++ rest) false) = (l, mkRbuf rest false).
Proof.
  intros Hl Hr. unfold counted. rewrite r_u16_be, Z.mod_small, Nat2Z.id by (unfold small in Hl; lia). by apply times_read.
Qed.
Lemma r_u16_read z u : 0 <= z < 2 ^ 16 -> r_u16 (mkRbuf (be 2 z ++ u) false) = (z, mkRbuf u false).
Proof. intros Hz. by rewrite r_u16_be, Z.mod_small. Qed.
Lemma r_bytesN_read (v : option bytes) u : Z.of_nat (length (default [] v)) < 2 ^ 31 ->
  r_bytesN (mkRbuf (arrayElem v ++ u) false) = (v, mkRbuf u false).
Proof. destruct v as [b|]; intros Hb; cbn [arrayElem]; [rewrite <- app_assoc; by apply r_bytesN_app|apply r_bytesN_null]. Qed.

Section delivers.
Context {E S stmt : Type} {se : Serr E} {sql : SqlLayer E S stmt}.
Abbreviation conn := (conn S stmt).

Lemma decodeArgs_sent (p : prepared stmt) format ts vs raws i : format = fmtText \/ format = fmtBinary ->
  (forall j t, ts !! j = Some t -> paramOID p (i + j) = Ok (oidForType t)) ->
  Forall2 (λ t v, v = ANil \/ typed t v /\ wire_fits format t v) ts vs -> Forall2 (λ tv raw, sends format tv.1 tv.2 raw) (zip ts vs) raws ->
  decodeArgs p [format] raws i = Ok (inr vs : E + list any).
Proof.
  intros Hfmt Ho Hv. revert raws i Ho. induction Hv as [|t v ts vs Htv _ IH]; intros raws i Ho Hr; cbn in Hr.
  { apply Forall2_nil_inv_l in Hr as ->. done. }
  apply Forall2_cons_inv_l in Hr as (raw & raws' & Hsend & Hr & ->). cbn [decodeArgs].
  assert (decodeArgs p [format] raws' (Datatypes.S i) = Ok (inr vs : E + list any)) as Hrest.
  { apply IH; [|done]. intros j t' Hj. rewrite <- (Ho (Datatypes.S j) t' Hj). f_equal. lia. }
  rewrite Hrest. unfold sends in Hsend. cbn [fst snd] in Hsend. destruct Htv as [-> |[Ht Hf]]; [cbn in Hsend; by subst raw|].
  rewrite (typed_not_nil t v Ht) in Hsend. destruct Hsend as (b & Hb & ->). cbn.
  rewrite <- (Nat.add_0_r i), (Ho 0%nat t eq_refl). cbn.
  assert (decodeParam b format (oidForType t) = Ok v) as ->; [|done].
  destruct Hfmt as [-> | ->]; [destruct (back_text t v Ht Hf) as (b' & Hb' & Hd)|destruct (back_binary t v Ht Hf) as (b' & Hb' & Hd)]; congruence.
Qed.

End delivers.

Definition exPrep : prepared bytes := mkPrepared (Some (go "echo", mkInfo (go "SELECT") [TTimestamp; TTextArray] [go "c"; go "c"] [TInt; TInt])) (go "echo") [].
Definition exBound : conn nat bytes := mkConn 0%nat {[ go "s" := exPrep ]} ∅ false (go "idle") [] [].
Definition exTwo : SqlLayer exErr nat bytes := {|
  Prepare := @Prepare _ _ _ (exLayer (λ _, 2%nat)); NumParams _ := 2%nat; Command := @Command _ _ _ (exLayer (λ _, 2%nat));
  Describe := @Describe _ _ _ (exLayer (λ _, 2%nat)); ExecStmt := @ExecStmt _ _ _ (exLayer (λ _, 2%nat)); Status _ := x49;
|}.
Definition exVals : list any := [AInt KInt64 (-1); AString (go "{a,NULL}")].
Definition exRaws : list (option bytes) :=
  match encodeValue (AInt KInt64 (-1)) fmtBinary TTimestamp, encodeValue (AString (go "{a,NULL}")) fmtBinary TTextArray with
  | Ok a, Ok b => [Some a; Some b]
  | _, _ => []
  end.
