(* ===== verification/Pairs.v ===== *)
(** * Stored row values as tagged lists

    A row's value bytes are (column ID, value) pairs. [readRow] is the row
    they stand for under a descriptor, so that what a schema change makes of
    stored rows can be read off the pairs. *)
From S2P Require Import Prelude GoVal Tuple Catalog Rows.

Local Open Scope Z_scope.

Abbreviation tags := (list (Z * any)).

Definition tagged (l : tags) : list any := l ≫= λ p, [AInt KInt64 p.1; p.2].
Definition assoc (id : Z) (l : tags) : option any := (λ x, x.2.2) <$> list_find (λ p, p.1 = id) l.

(** Distinct tags below [n], each with a value. *)
Record tags_ok (n : Z) (l : tags) : Prop := {
  tg_nodup : NoDup l.*1;
  tg_range : Forall (λ p, 0 <= p.1 < n) l;
  tg_canon : Forall (λ p, canon p.2) l;
  tg_some : Forall (λ p, is_nil p.2 = false) l;
}.

Lemma assoc_cons id p l : assoc id (p :: l) = if decide (p.1 = id) then Some p.2 else assoc id l.
Proof. unfold assoc. cbn [list_find]. case_decide; [done|]. by destruct (list_find _ l) as [[]|]. Qed.
Lemma assoc_app id l1 l2 : assoc id (l1 ++ l2) = match assoc id l1 with Some v => Some v | None => assoc id l2 end.
Proof. induction l1 as [|p l1 IH]; [done|]. cbn [app]. rewrite !assoc_cons. case_decide; [done|apply IH]. Qed.
Lemma assoc_elem id l v : assoc id l = Some v -> (id, v) ∈ l.
Proof.
  unfold assoc. destruct (list_find _ l) as [[i [x w]]|] eqn:Ef; [|done]. intros [= <-].
  apply list_find_Some in Ef as (Hi & <- & _). by eapply list_elem_of_lookup_2.
Qed.
Lemma assoc_None id l : id ∉ l.*1 -> assoc id l = None.
Proof.
  intros Hn. destruct (assoc id l) as [v|] eqn:Ea; [|done]. apply assoc_elem in Ea. destruct Hn.
  apply list_elem_of_fmap. by exists (id, v).
Qed.

Lemma tags_ok_mono n n' l : n <= n' -> tags_ok n l -> tags_ok n' l.
Proof. intros Hn [H1 H2 H3 H4]. split; try done. eapply Forall_impl; [exact H2|]. intros p; cbn; lia. Qed.
Lemma tags_ok_snoc n l v : 0 <= n -> tags_ok n l -> canon v -> is_nil v = false -> tags_ok (n + 1) (l ++ [(n, v)]).
Proof.
  intros Hn [H1 H2 H3 H4] Hc Hv. split; rewrite ?fmap_app, ?Forall_app, ?Forall_singleton.
  - apply NoDup_app. split_and!; [done| |apply NoDup_singleton].
    intros x (p & -> & Hp)%list_elem_of_fmap [=]%list_elem_of_singleton. rewrite Forall_forall in H2. specialize (H2 p Hp). lia.
  - split; [|cbn; lia]. eapply Forall_impl; [exact H2|]. intros p; cbn; lia.
  - done.
  - done.
Qed.
Lemma tagged_app l1 l2 : tagged (l1 ++ l2) = tagged l1 ++ tagged l2.
Proof. apply bind_app. Qed.
Lemma tagged_canon n l : n <= 2 ^ 32 -> tags_ok n l -> Forall canon (tagged l).
Proof.
  intros Hn [_ H2 H3 _]. unfold tagged. apply Forall_bind. rewrite Forall_forall in *. intros p Hp.
  specialize (H2 p Hp). specialize (H3 p Hp). apply canon_pair; [|done]. cbn. unfold int64_ok. lia.
Qed.
Lemma tagged_even l : (length (tagged l) mod 2 = 0)%nat.
Proof.
  induction l as [|p l IH]; [done|]. change (tagged (p :: l)) with (AInt KInt64 p.1 :: p.2 :: tagged l). cbn [length].
  replace (S (S (length (tagged l)))) with (length (tagged l) + 1 * 2)%nat by lia. by rewrite Nat.Div0.mod_add.
Qed.

Section read.
Context (d : TableDesc) (Hwf : desc_wf d).

(** The row of key [row0] whose value holds the pairs [l]. *)
Definition readCol (row0 : list any) (l : tags) (i : nat) (c : Column) : any :=
  default (if isPK d i then default ANil (row0 !! i) else ANil) (assoc (colID c) l).
Definition readRow (row0 : list any) (l : tags) : list any := imap (readCol row0 l) (tColumns d).

(** The pair loop sets, for each column, the value tagged with its ID. *)
Lemma fillPairs_tagged vals l : length vals = length (tColumns d) -> NoDup l.*1 ->
  Forall (λ p, 0 <= p.1 < 2 ^ 32) l -> exists vals', fillPairs d vals (tagged l) = Ok vals' /\
    length vals' = length (tColumns d) /\
    forall i c, tColumns d !! i = Some c -> vals' !! i = match assoc (colID c) l with Some v => Some v | None => vals !! i end.
Proof.
  intros Hl Hnd Hr. revert vals Hl. induction l as [|[id v] l IH]; intros vals Hl; [by exists vals|].
  csimpl in Hnd. apply NoDup_cons in Hnd as [Hnin Hnd]. apply Forall_cons in Hr as [Hid Hr]. cbn [fst] in Hid.
  change (tagged ((id, v) :: l)) with (AInt KInt64 id :: v :: tagged l). cbn [fillPairs].
  unfold uint32. rewrite Z.mod_small by done. rewrite colOrdinalByID_linear by (done || lia). unfold linearOrdinal.
  destruct (list_find _ (tColumns d)) as [[j cj]|] eqn:Ef; cbn [fmap option_fmap option_map fst].
  - apply list_find_Some in Ef as (Hj & Hcj & _). pose proof (lookup_lt_Some _ _ _ Hj).
    unfold set_index. rewrite decide_True by lia. cbn [mbind outcome_bind].
    destruct (IH Hnd Hr (<[j:=v]> vals)) as (vals' & -> & Hl' & Hv); [by rewrite length_insert|].
    exists vals'. split_and!; [done..|]. intros i c Hi. rewrite (Hv i c Hi), assoc_cons. cbn [fst snd].
    case_decide as Eid.
    + assert (i = j) as -> by (eapply NoDup_lookup; [apply (wf_colID d Hwf)|by rewrite list_lookup_fmap, Hi|by rewrite list_lookup_fmap, Hj; cbn; congruence]).
      rewrite assoc_None by (rewrite <- Eid; done). rewrite list_lookup_insert_eq by lia. done.
    + destruct (assoc (colID c) l); [done|]. apply list_lookup_insert_ne. intros ->. congruence.
  - destruct (IH Hnd Hr vals) as (vals' & -> & Hl' & Hv); [done|]. exists vals'. split_and!; [done..|].
    intros i c Hi. rewrite (Hv i c Hi), assoc_cons. cbn [fst snd]. rewrite decide_False; [done|]. intros ->.
    eapply list_find_None in Ef. rewrite Forall_lookup in Ef. by apply (Ef i c Hi).
Qed.

Lemma decodeRow_tagged row0 n l : row_canon d row0 -> n <= 2 ^ 32 -> tags_ok n l ->
  decodeRow d (row_key d row0) (elems (tagged l)) = Ok (mkRow d (readRow row0 l)).
Proof.
  intros [Hl Hc] Hn Ht. unfold decodeRow. rewrite row_key_elems, (Decode_elems (_ :: _ :: pkOf d row0)).
  - cbn [mbind outcome_bind]. rewrite decide_False by (unfold pkOf; simpl; rewrite length_fmap; lia).
    rewrite Decode_elems by (by eapply tagged_canon). cbn [mbind outcome_bind].
    rewrite decide_False by (rewrite tagged_even; lia). cbv zeta. cbn [drop]. rewrite drop_0.
    rewrite fillPK_blank by done. cbn [mbind outcome_bind].
    destruct (fillPairs_tagged (blank d 0 row0) l) as (vals & -> & Hlv & Hv).
    + rewrite <- Hl. clear. generalize 0%nat. induction row0; intros; cbn; congruence.
    + apply Ht.
    + eapply Forall_impl; [apply Ht|]. intros p; cbn; lia.
    + cbn [mbind outcome_bind]. f_equal. f_equal. apply list_eq. intros i. unfold readRow. rewrite list_lookup_imap.
      destruct (tColumns d !! i) as [c|] eqn:Ei; cbn.
      * rewrite (Hv i c Ei). unfold readCol. destruct (assoc (colID c) l); [done|]. rewrite blank_lookup. cbn.
        apply lookup_lt_Some in Ei. destruct (lookup_lt_is_Some_2 row0 i) as [v ->]; [lia|]. done.
      * apply lookup_ge_None in Ei. apply lookup_ge_None. lia.
  - constructor; [apply canon_int64|]. constructor; [simpl; unfold int64_ok; lia|]. by apply pkOf_canon.
Qed.

(** What [encodeRowValue] writes is such a list. *)
Fixpoint rowTags (i : nat) (cols : list Column) (vals : list any) : tags :=
  match cols, vals with
  | c :: cols', v :: vals' => (if isPK d i || is_nil v then [] else [(colID c, v)]) ++ rowTags (S i) cols' vals'
  | _, _ => []
  end.
Lemma rowTags_pairs i cols vals : rowPairs d i cols vals = tagged (rowTags i cols vals).
Proof.
  revert i vals. induction cols as [|c cols IH]; intros i [|v vals]; [done..|]. cbn [rowPairs rowTags].
  rewrite tagged_app, <- IH. by destruct (_ || _).
Qed.
Lemma rowTags_sub i cols vals p : p ∈ rowTags i cols vals -> p.1 ∈ colID <$> cols /\ p.2 ∈ vals /\ is_nil p.2 = false.
Proof.
  revert i vals. induction cols as [|c cols IH]; intros i [|v vals]; cbn [rowTags]; [by intros ?%elem_of_nil..|].
  intros [Hp|Hp]%elem_of_app.
  - destruct (isPK d i), (is_nil v) eqn:Hv; cbn in Hp; try (by apply elem_of_nil in Hp).
    apply list_elem_of_singleton in Hp as ->. csimpl. split_and!; [left|left|done].
  - apply IH in Hp as (H1 & H2 & H3). csimpl. split_and!; [by right|by right|done].
Qed.
Lemma rowTags_ok i cols vals n : NoDup (colID <$> cols) -> Forall (λ c, 0 <= colID c < n) cols -> Forall canon vals ->
  tags_ok n (rowTags i cols vals).
Proof.
  intros Hnd Hr Hc. split.
  - revert i vals Hc Hnd. induction cols as [|c cols IH]; intros i [|v vals] Hc Hnd; cbn [rowTags]; try constructor.
    csimpl in Hnd. apply NoDup_cons in Hnd as [Hnin Hnd]. apply Forall_cons in Hr as [_ Hr]. apply Forall_cons in Hc as [_ Hc].
    rewrite fmap_app. destruct (_ || _); [by apply IH|]. csimpl. apply NoDup_cons. split; [|by apply IH].
    intros (p & Ep & Hp)%list_elem_of_fmap. apply rowTags_sub in Hp as [Hin _]. by rewrite <- Ep in Hin.
  - apply Forall_forall. intros p Hp. apply rowTags_sub in Hp as ((c & Ec & Hin)%list_elem_of_fmap & _).
    rewrite Forall_forall in Hr. cbn. rewrite Ec. by apply Hr.
  - apply Forall_forall. intros p Hp. apply rowTags_sub in Hp as (_ & H2 & _). rewrite Forall_forall in Hc. by apply Hc.
  - apply Forall_forall. intros p Hp. by apply rowTags_sub in Hp as (_ & _ & ?).
Qed.

End read.
