(* ===== verification/Index.v ===== *)
(** * Secondary-index entries and the scans

    [index.go] and the scan half of [dml.go]: an index's entries are keys of
    its own range, in two forms; scans walk a key range and resolve its
    entries to rows. *)
From S2P Require Import Prelude GoVal GoStr Tuple KV Time Jsonb Types Catalog Rows.

Local Open Scope Z_scope.

(** ** Entries *)

Fixpoint appendDirected_from (idx : IndexDesc) (i : nat) (buf : bytes) (vals : list any) : outcome bytes :=
  match vals with
  | [] => Ok buf
  | v :: vals' => buf' ← AppendOne (DescAt idx i) buf v; appendDirected_from idx (S i) buf' vals'
  end.
Definition appendDirected (buf : bytes) (idx : IndexDesc) (vals : list any) : outcome bytes :=
  appendDirected_from idx 0 buf vals.

(** Key, value, and whether the entry takes part in uniqueness. *)
Definition indexEntry (d : TableDesc) (idx : IndexDesc) (row : list any) : outcome (bytes * bytes * bool) :=
  vals ← traverse (at_index row) (ixCols idx);
  let hasNull := existsb is_nil vals in
  buf ← appendDirected (indexPrefix (tID d) (ixID idx)) idx vals;
  pk ← pkValues d row;
  if ixUnique idx && negb hasNull then
    pkVal ← Encode pk;
    Ok (buf, pkVal, true)
  else
    buf ← Append buf pk;
    Ok (buf, [], false).

Section scans.
Context {tx : Type} {kv : KV tx}.

Definition errIndexBound : error := ENew (go "too many values in index scan bound").

Definition indexBound (d : TableDesc) (idx : IndexDesc) (prefix : bytes) (vals : list any) : outcome bytes :=
  if decide (length (ixCols idx) < length vals)%nat then Err errIndexBound
  else
    coerced ← traverse (λ '(ord, v), c ← at_index (tColumns d) ord; coerce v (colType c))
                (zip (ixCols idx) vals);
    appendDirected prefix idx coerced.

(** Skipping the (tableID, indexID) header and the indexed values. *)
Fixpoint skipElems (idx : IndexDesc) (i n : nat) (data : bytes) : outcome bytes :=
  match n with
  | O => Ok data
  | S n' =>
      '(_, data') ← DecodeOne data (if decide (2 <= i)%nat then DescAt idx (i - 2) else false);
      skipElems idx (S i) n' data'
  end.

Definition errEntryArity : error := ENew (go "index entry primary key has wrong arity").
Definition errMissingRow : error := ENew (go "index entry points at a missing row").

Definition rowFromIndexEntry (d : TableDesc) (idx : IndexDesc) (key val : bytes) : M tx Row :=
  data ← lift (skipElems idx 0 (2 + length (ixCols idx)) key);
  pk ← lift (Decode (if decide (0 < length data)%nat then data else val));
  if decide (length pk <> length (tPKCols d)) then fail errEntryArity
  else
    rk ← lift (rowKey d pk);
    _ ← modify (kv_mark_read rk);
    rv ← gets (kv_get rk);
    match rv with
    | None => fail errMissingRow
    | Some rv => lift (decodeRow d rk rv)
    end.

(** ** Scans *)

(** The bounds every scan computes: the whole prefix range, narrowed by
    [from] and [to] when they are given; [toIncl] takes in the group of keys
    that start with [to]. *)
Definition scanBounds (bound : list any -> outcome bytes) (prefix : bytes)
    (from to : option (list any)) (toIncl : bool) : outcome (bytes * bytes) :=
  start ← match from with None => Ok prefix | Some vals => bound vals end;
  end_ ← match to with
         | None => Ok (prefixEnd prefix)
         | Some vals => e ← bound vals; Ok (if toIncl then prefixEnd e else e)
         end;
  Ok (start, end_).

(** A scan yields the bound's error once, or marks its claim and yields one
    item per entry. The result lists what was yielded, latest first. *)
Definition scan {A : Type} (bounds : outcome (bytes * bytes))
    (walk : bytes -> bytes -> tx -> list (bytes * bytes)) (body : bytes * bytes -> M tx A)
    (more : list (outcome A) -> bool) (t : tx) : list (outcome A) * tx :=
  match bounds with
  | Ok (start, end_) =>
      let t := kv_mark_read_range start end_ t in
      yield_each more body (walk start end_ t) [] t
  | Err e => ([Err e], t)
  | Panic p => ([Panic p], t)
  end.

Definition scanRows (d : TableDesc) (fromPK toPK : option (list any)) :=
  let prefix := tablePrefix (tID d) in
  scan (scanBounds (boundKey d prefix) prefix fromPK toPK false) ascend_to
    (λ '(k, v), lift (decodeRow d k v)).

Definition scanRowsRev (d : TableDesc) (fromPK toPK : option (list any)) (toIncl : bool) :=
  let prefix := tablePrefix (tID d) in
  scan (scanBounds (boundKey d prefix) prefix fromPK toPK toIncl) descend_to
    (λ '(k, v), lift (decodeRow d k v)).

Definition scanIndexRows (d : TableDesc) (idx : IndexDesc) (from to : option (list any)) :=
  let prefix := indexPrefix (tID d) (ixID idx) in
  scan (scanBounds (indexBound d idx prefix) prefix from to false) ascend_to
    (λ '(k, v), rowFromIndexEntry d idx k v).

Definition scanIndexRowsRev (d : TableDesc) (idx : IndexDesc) (from to : option (list any)) (toIncl : bool) :=
  let prefix := indexPrefix (tID d) (ixID idx) in
  scan (scanBounds (indexBound d idx prefix) prefix from to toIncl) descend_to
    (λ '(k, v), rowFromIndexEntry d idx k v).

End scans.

(** ** Reference definitions on canonical rows *)

Definition ixVals (idx : IndexDesc) (row : list any) : list any :=
  (λ o, default ANil (row !! o)) <$> ixCols idx.
Definition enforced (idx : IndexDesc) (row : list any) : bool :=
  ixUnique idx && negb (existsb is_nil (ixVals idx row)).
Definition index_key (d : TableDesc) (idx : IndexDesc) (row : list any) : bytes :=
  indexPrefix (tID d) (ixID idx) ++ delems (DescAt idx) 0 (ixVals idx row) ++
  (if enforced idx row then [] else elems (pkOf d row)).
Definition index_val (d : TableDesc) (idx : IndexDesc) (row : list any) : bytes :=
  if enforced idx row then elems (pkOf d row) else [].

Lemma appendDirected_spec idx i buf vals : Forall any_ok vals ->
  appendDirected_from idx i buf vals = ns ← normals vals; Ok (buf ++ delems (DescAt idx) i ns).
Proof.
  intros Hok. revert i buf. induction Hok as [|v vals Hv _ IH]; intros i buf; simpl.
  { by rewrite app_nil_r. }
  rewrite AppendOne_spec by done. destruct (normalize v) as [n| |]; simpl; [|done..].
  rewrite IH. destruct (normals vals); simpl; [|done..]. by rewrite app_assoc.
Qed.

Section entry_laws.
Context (d : TableDesc) (Hwf : desc_wf d) (idx : IndexDesc) (Hidx : idx ∈ tIndexes d).

Lemma ixCols_range : Forall (λ o, o < length (tColumns d))%nat (ixCols idx).
Proof. pose proof (wf_ixCols d Hwf) as H. rewrite Forall_forall in H. by apply H. Qed.
Lemma ixID_range : primaryIndexID < ixID idx < 2 ^ 64.
Proof. pose proof (wf_ixID_range d Hwf) as H. rewrite Forall_forall in H. by apply H. Qed.

Lemma ixVals_lookup row : length row = length (tColumns d) ->
  traverse (at_index row) (ixCols idx) = Ok (ixVals idx row).
Proof.
  intros Hl. unfold ixVals. apply traverse_ok. induction ixCols_range as [|o cols Ho _ IH]; constructor; [|done].
  unfold at_index. destruct (lookup_lt_is_Some_2 row o) as [v ->]; [lia|done].
Qed.

Lemma ixVals_canon row : Forall canon row -> Forall canon (ixVals idx row).
Proof.
  intros Hc. unfold ixVals. apply Forall_fmap, Forall_forall. intros o _. simpl.
  destruct (row !! o) as [v|] eqn:E; simpl; [|done]. by eapply Forall_lookup_1 in E.
Qed.

Lemma ixVals_any_ok row : Forall any_ok row -> Forall any_ok (ixVals idx row).
Proof.
  intros Hc. unfold ixVals. apply Forall_fmap, Forall_forall. intros o _. simpl.
  destruct (row !! o) as [v|] eqn:E; simpl; [|done]. by eapply Forall_lookup_1 in E.
Qed.

Lemma ixVals_norm row nrow : Forall2 (λ v n, normalize v = Ok n) row nrow ->
  normals (ixVals idx row) = Ok (ixVals idx nrow).
Proof.
  intros Hn. unfold ixVals. apply traverse_ok. rewrite Forall2_fmap. apply Forall_Forall2_diag, Forall_forall.
  intros o _. simpl. destruct (row !! o) as [v|] eqn:E.
  - by destruct (Forall2_lookup_l _ _ _ _ _ Hn E) as (n & -> & Hv).
  - apply lookup_ge_None in E. rewrite (Forall2_length _ _ _ Hn) in E. by apply lookup_ge_None in E as ->.
Qed.

Lemma ixVals_nil row nrow : Forall2 (λ v n, normalize v = Ok n) row nrow ->
  existsb is_nil (ixVals idx row) = existsb is_nil (ixVals idx nrow).
Proof.
  intros Hn%ixVals_norm%traverse_ok. induction Hn as [|v n vs ns Hv _ IH]; simpl; [done|].
  by rewrite IH, (normalize_nil v n Hv).
Qed.

(** The entry of a row as written is the entry of the normalized row. *)
Lemma indexEntry_written row nrow : length row = length (tColumns d) -> Forall any_ok row ->
  normals row = Ok nrow ->
  indexEntry d idx row = Ok (index_key d idx nrow, index_val d idx nrow, enforced idx nrow).
Proof.
  intros Hl Hok Hn%traverse_ok. unfold indexEntry. rewrite ixVals_lookup by done. cbn [mbind outcome_bind].
  unfold appendDirected. rewrite appendDirected_spec, (ixVals_norm row nrow) by (done || by apply ixVals_any_ok).
  cbn [mbind outcome_bind]. rewrite pkValues_pkOf by done. cbn [mbind outcome_bind].
  rewrite (ixVals_nil row nrow) by done. unfold index_key, index_val.
  pose proof (pkOf_norm d row nrow Hn) as Hp. pose proof (pkOf_any_ok d row Hok) as Hpo.
  change (ixUnique idx && negb (existsb is_nil (ixVals idx nrow))) with (enforced idx nrow).
  destruct (enforced idx nrow).
  - rewrite Encode_spec by done. rewrite Hp. simpl. by rewrite app_nil_r.
  - rewrite Append_spec by done. rewrite Hp. cbn [mbind outcome_bind]. by rewrite app_assoc.
Qed.

Lemma indexEntry_canon row : row_canon d row ->
  indexEntry d idx row = Ok (index_key d idx row, index_val d idx row, enforced idx row).
Proof.
  intros [Hl Hc]. apply indexEntry_written; [done| |by apply normals_canon_id].
  eapply Forall_impl; [done|]. apply canon_any_ok.
Qed.

Lemma index_key_prefix row : indexPrefix (tID d) (ixID idx) `prefix_of` index_key d idx row.
Proof. by eexists. Qed.

(** Two rows with the same entry key agree on the indexed values, and are
    the same row unless the entry is in the unique form. *)
Lemma index_key_inj row1 row2 : row_canon d row1 -> row_canon d row2 ->
  index_key d idx row1 = index_key d idx row2 ->
  ixVals idx row1 = ixVals idx row2 /\ enforced idx row1 = enforced idx row2 /\
  (enforced idx row1 = false -> pkOf d row1 = pkOf d row2).
Proof.
  intros [_ H1] [_ H2]. unfold index_key. intros E%(inj _).
  apply delems_app_inj in E as [Ev Ep]; [|by unfold ixVals; rewrite !length_fmap|by apply ixVals_canon..].
  assert (enforced idx row1 = enforced idx row2) as He by (unfold enforced; by rewrite Ev).
  split_and!; [done..|]. rewrite <- He in Ep. intros Hf. rewrite Hf in Ep.
  by apply elems_inj in Ep; [|apply pkOf_canon..].
Qed.

(** The entry, key and value together, determines the primary key. *)
Lemma index_entry_pk row1 row2 : row_canon d row1 -> row_canon d row2 ->
  index_key d idx row1 = index_key d idx row2 -> index_val d idx row1 = index_val d idx row2 ->
  pkOf d row1 = pkOf d row2.
Proof.
  intros H1 H2 Ek Ev. destruct (index_key_inj row1 row2 H1 H2 Ek) as (_ & He & Hp).
  unfold index_val in Ev. rewrite <- He in Ev. destruct (enforced idx row1); [|auto].
  apply elems_inj in Ev; [done|by apply pkOf_canon; apply H1|by apply pkOf_canon; apply H2].
Qed.

(** *** Reading an entry *)

Lemma DecodeOne_delem desc n rest : canon n -> DecodeOne (delem desc n ++ rest) desc = Ok (n, rest).
Proof.
  intros Hc. pose proof (delem_nonempty desc n Hc). unfold DecodeOne.
  destruct (delem desc n ++ rest) eqn:E; [by destruct (delem desc n)|].
  rewrite <- E. apply (decodeOne_elem (dmask desc)); auto with bytdb.
Qed.

Lemma skipElems_delems i ns rest : Forall canon ns ->
  skipElems idx (2 + i) (length ns) (delems (DescAt idx) i ns ++ rest) = Ok rest.
Proof.
  intros Hc. revert i. induction Hc as [|n ns Hn _ IH]; intros i; [done|].
  cbn [length delems skipElems]. rewrite decide_True by lia.
  replace (2 + i - 2)%nat with i by lia. rewrite <- app_assoc, DecodeOne_delem by done.
  cbn [mbind outcome_bind]. apply (IH (S i)).
Qed.

Lemma skipElems_key row rest : Forall canon row ->
  skipElems idx 0 (2 + length (ixCols idx))
    (indexPrefix (tID d) (ixID idx) ++ delems (DescAt idx) 0 (ixVals idx row) ++ rest) = Ok rest.
Proof.
  intros Hc. rewrite indexPrefix_elems. cbn [elems mbind list_bind]. rewrite app_nil_r, <- !app_assoc.
  rewrite <- !(delem_false (kint _)). cbn [plus skipElems].
  rewrite decide_False by lia. rewrite DecodeOne_delem by apply int64_range. cbn [mbind outcome_bind].
  rewrite DecodeOne_delem by apply int64_range. cbn [mbind outcome_bind].
  replace (length (ixCols idx)) with (length (ixVals idx row)) by (unfold ixVals; apply length_fmap).
  apply (skipElems_delems 0). by apply ixVals_canon.
Qed.

End entry_laws.

Section resolve.
Context {tx : Type} {kv : KV tx} {kv_laws : KVLaws tx}.
Context (d : TableDesc) (Hwf : desc_wf d) (idx : IndexDesc) (Hidx : idx ∈ tIndexes d).

(** An entry resolves to the row stored under the primary key it carries. *)
Lemma rowFromIndexEntry_ok row v t : row_canon d row ->
  kv_map t !! row_key d row = Some v ->
  rowFromIndexEntry d idx (index_key d idx row) (index_val d idx row) t =
    (decodeRow d (row_key d row) v, kv_mark_read (row_key d row) t).
Proof.
  intros [Hl Hc] Hv. unfold rowFromIndexEntry, index_key. rewrite skipElems_key by done.
  unfold mbind at 1, M_bind at 1, lift at 1.
  assert (Forall canon (pkOf d row)) as Hpc by (by apply pkOf_canon).
  assert (length (pkOf d row) = length (tPKCols d)) as Hpl by (unfold pkOf; apply length_fmap).
  assert (pkOf d row <> []) as Hpne.
  { pose proof (wf_pk_some d Hwf). destruct (tPKCols d), (pkOf d row); done. }
  assert (Decode (if decide (0 < length (if enforced idx row then [] else elems (pkOf d row)))%nat
                  then if enforced idx row then [] else elems (pkOf d row) else index_val d idx row)
          = Ok (pkOf d row)) as ->.
  { unfold index_val. destruct (enforced idx row).
    - rewrite decide_False by (simpl; lia). by apply Decode_elems.
    - rewrite decide_True; [by apply Decode_elems|].
      destruct (pkOf d row) as [|n ns]; [done|]. apply Forall_cons in Hpc as [Hn _].
      pose proof (elem_nonempty n Hn). simpl. rewrite length_app. destruct (elem n); simpl; [done|lia]. }
  unfold mbind at 1, M_bind at 1, lift at 1. rewrite decide_False by lia.
  unfold rowKey. rewrite Append_canon by done. fold (row_key d row).
  unfold mbind, M_bind, lift, modify, gets. rewrite kv_get_map.
  assert (kv_map (kv_mark_read (row_key d row) t) = kv_map t) as ->.
  { unfold kv_map. by rewrite kv_mark_read_view. }
  by rewrite Hv.
Qed.

End resolve.
