(* ===== verification/Table.v ===== *)
(** * The table invariant and what scans return

    A table's rows and the entries of its secondary indexes live in the same
    key space and must agree. [table_inv] says how; the scans of a table in
    that state return exactly its rows in the requested bounds, in order. *)
From S2P Require Import Prelude GoVal GoStr Tuple KV Time Jsonb Types Catalog Rows Index.

Local Open Scope Z_scope.

Section inv.
Context (d : TableDesc).

(** [row] is stored in the table: under its key, bytes that read as it. *)
Definition stored (m : kvmap) (row : list any) : Prop :=
  row_ok d row /\ exists v, m !! row_key d row = Some v /\
    decodeRow d (row_key d row) v = Ok (mkRow d row).

(** Every key of the table's primary range holds a row of the table, and
    every index's range holds exactly the entries of the stored rows. The
    value bytes of a row may carry pairs of columns dropped since. *)
Record table_inv (m : kvmap) : Prop := {
  inv_rows k v : m !! k = Some v -> tablePrefix (tID d) `prefix_of` k ->
    exists row, row_ok d row /\ k = row_key d row /\ decodeRow d k v = Ok (mkRow d row);
  inv_index idx k v : idx ∈ tIndexes d -> indexPrefix (tID d) (ixID idx) `prefix_of` k ->
    m !! k = Some v <->
    exists row, stored m row /\ k = index_key d idx row /\ v = index_val d idx row;
}.

Lemma stored_key_unique m r1 r2 : stored m r1 -> stored m r2 -> row_key d r1 = row_key d r2 -> r1 = r2.
Proof. intros (_ & v1 & Hv1 & D1) (_ & v2 & Hv2 & D2) E. rewrite E in *. congruence. Qed.

Lemma stored_pk_unique m r1 r2 : stored m r1 -> stored m r2 -> pkOf d r1 = pkOf d r2 -> r1 = r2.
Proof. intros H1 H2 E. eapply stored_key_unique; [done..|]. unfold row_key. by rewrite E. Qed.

Lemma stored_ok m row : stored m row -> row_ok d row.
Proof. by intros [? _]. Qed.
Lemma stored_canon m row : stored m row -> row_canon d row.
Proof. intros [? _]. by eapply row_ok_canon. Qed.

Lemma row_key_prefix row : tablePrefix (tID d) `prefix_of` row_key d row.
Proof. by eexists. Qed.

Lemma inv_stored m k v : table_inv m -> m !! k = Some v -> tablePrefix (tID d) `prefix_of` k ->
  exists row, stored m row /\ k = row_key d row /\ decodeRow d k v = Ok (mkRow d row).
Proof.
  intros Hi Hk Hp. destruct (inv_rows m Hi k v Hk Hp) as (row & Hok & -> & Hd).
  exists row. split_and!; [|done|done]. split; [done|]. eauto.
Qed.

(** A row whose key is free is not stored. *)
Lemma not_stored m row : m !! row_key d row = None -> ~ stored m row.
Proof. intros Hn (_ & v & Hv & _). congruence. Qed.

End inv.

(** ** Ranges of a prefix *)

Lemma prefixEnd_mono p q : head p <> Some xff -> p <> [] -> ble (prefixEnd (p ++ q)) (prefixEnd p).
Proof.
  intros Hh Hp. unfold prefixEnd.
  destruct (PrefixEnd (p ++ q)) as [e|] eqn:Eq; simpl.
  - apply (PrefixEnd_least (p ++ q)); [done|]. intros k Hk.
    assert (p `prefix_of` k) as Hpk by (etransitivity; [by eexists|done]).
    apply prefixEnd_interval in Hpk; [|done..]. apply Hpk.
  - pose proof (PrefixEnd_shape (p ++ q)) as Hs. rewrite Eq in Hs. destruct p; simplify_eq/=.
Qed.

(** Keys of a narrowed range still have the prefix. *)
Lemma narrowed_prefix p start end_ k : head p <> Some xff -> p <> [] ->
  ble p start -> ble end_ (prefixEnd p) -> ble start k -> blt k end_ -> p `prefix_of` k.
Proof.
  intros Hh Hp Hs He Hk1 Hk2. apply prefixEnd_interval; [done..|].
  split; [by transitivity start|by eapply blt_ble_trans].
Qed.

(** ** Scan bounds *)

Section bounds.
Context (dir : nat -> bool) (prefix : bytes).
Hypothesis prefix_head : head prefix <> Some xff.
Hypothesis prefix_nonempty : prefix <> [].

(** The bound a scan is given, as normalized values. *)
Variable norm : list any -> outcome (list any).
Variable bound : list any -> outcome bytes.
Hypothesis bound_norm : forall vals, Forall any_ok vals ->
  bound vals = ns ← norm vals; Ok (prefix ++ delems dir 0 ns).

(** What the bounds ask of the leading key columns [vs] of a row. *)
Definition above (from : option (list any)) (vs : list any) : Prop :=
  match from with
  | None => True
  | Some vals => forall ns, norm vals = Ok ns -> prefixCompare dir 0 ns vs <> Gt
  end.
Definition below (to : option (list any)) (toIncl : bool) (vs : list any) : Prop :=
  match to with
  | None => True
  | Some vals => forall ns, norm vals = Ok ns ->
      if toIncl then prefixCompare dir 0 ns vs <> Lt else prefixCompare dir 0 ns vs = Gt
  end.

Definition bound_ok (b : option (list any)) : Prop :=
  match b with
  | None => True
  | Some vals => Forall any_ok vals /\ exists ns, norm vals = Ok ns /\ Forall canon ns
  end.

Lemma scanBounds_ok from to toIncl : bound_ok from -> bound_ok to ->
  exists start end_, scanBounds bound prefix from to toIncl = Ok (start, end_) /\
    ble prefix start /\ ble end_ (prefixEnd prefix) /\
    forall vs r, Forall canon vs ->
      (forall vals ns, from = Some vals \/ to = Some vals -> norm vals = Ok ns -> (length ns <= length vs)%nat) ->
      let k := prefix ++ delems dir 0 vs ++ r in
      (ble start k <-> above from vs) /\ (blt k end_ <-> below to toIncl vs).
Proof.
  intros Hf Ht.
  assert (exists start, (match from with None => Ok prefix | Some vals => bound vals end) = Ok start /\
    ble prefix start /\ forall vs r, Forall canon vs ->
      (forall vals ns, from = Some vals -> norm vals = Ok ns -> (length ns <= length vs)%nat) ->
      ble start (prefix ++ delems dir 0 vs ++ r) <-> above from vs) as (start & Es & Hps & Hs).
  { destruct from as [vals|]; simpl in *.
    - destruct Hf as (Hok & ns & Hns & Hc). rewrite bound_norm, Hns by done. eexists. split; [done|].
      split; [apply ble_app|]. intros vs r Hv Hl. rewrite bound_above by eauto. naive_solver.
    - exists prefix. split_and!; [done|apply ble_refl|]. intros vs r _ _. split; [done|]. intros _. apply ble_app. }
  assert (exists end_, (match to with
      | None => Ok (prefixEnd prefix)
      | Some vals => e ← bound vals; Ok (if toIncl then prefixEnd e else e) end) = Ok end_ /\
    ble end_ (prefixEnd prefix) /\ forall vs r, Forall canon vs ->
      (forall vals ns, to = Some vals -> norm vals = Ok ns -> (length ns <= length vs)%nat) ->
      blt (prefix ++ delems dir 0 vs ++ r) end_ <-> below to toIncl vs) as (end_ & Ee & Hpe & He).
  { assert (forall q, blt (prefix ++ q) (prefixEnd prefix)) as Hlt.
    { intros q. apply (prefixEnd_interval prefix); [done..|by eexists]. }
    destruct to as [vals|]; simpl in *.
    - destruct Ht as (Hok & ns & Hns & Hc). rewrite bound_norm, Hns by done. eexists. split; [done|]. cbn [mbind outcome_bind].
      destruct toIncl.
      + split; [by apply prefixEnd_mono|]. intros vs r Hv Hl.
        assert (blt (prefix ++ delems dir 0 vs ++ r) (prefixEnd (prefix ++ delems dir 0 ns)) <->
          prefixCompare dir 0 ns vs <> Lt) as ->; [|naive_solver].
        specialize (Hl vals ns eq_refl Hns).
        pose proof (bound_prefix dir 0 ns vs prefix r Hc Hv Hl) as Hbp.
        pose proof (bound_below dir 0 ns vs prefix r Hc Hv Hl) as Hbb.
        rewrite <- prefixEnd_interval in Hbp by (by destruct prefix).
        assert (ble (prefix ++ delems dir 0 ns) (prefixEnd (prefix ++ delems dir 0 ns))) as Hle.
        { apply blt_ble, (prefixEnd_interval (prefix ++ delems dir 0 ns)); by destruct prefix. }
        split.
        * intros Hk HLt. destruct (decide (ble (prefix ++ delems dir 0 ns) (prefix ++ delems dir 0 vs ++ r))) as [Hb|Hb].
          -- assert (prefixCompare dir 0 ns vs = Eq) by (by apply Hbp). congruence.
          -- apply not_ble, Hbb in Hb. congruence.
        * intros Hne. destruct (prefixCompare dir 0 ns vs); [by apply Hbp|done|].
          eapply blt_ble_trans; [by apply Hbb|done].
      + split; [by apply blt_ble|]. intros vs r Hv Hl. rewrite bound_below by eauto. naive_solver.
    - exists (prefixEnd prefix). split_and!; [done|apply ble_refl|]. done. }
  exists start, end_. unfold scanBounds. rewrite Es. cbn [mbind outcome_bind]. rewrite Ee.
  split_and!; [done..|]. intros vs r Hv Hl. cbv zeta. split; [apply Hs|apply He]; try done; intros; eapply Hl; eauto.
Qed.

End bounds.

(** ** Scan results *)

Section scans.
Context {tx : Type} {kv : KV tx} {kv_laws : KVLaws tx}.
Context (d : TableDesc) (Hwf : desc_wf d).

(** A drained scan whose body resolves every entry of its range. *)
Lemma scan_drain {A : Type} (rev : bool) start end_ (body : bytes * bytes -> M tx A) (f : bytes * bytes -> A) t :
  (forall e u, e ∈ range (kv_map t) start end_ -> kv_map u = kv_map t ->
    exists u', body e u = (Ok (f e), u') /\ kv_map u' = kv_map t) ->
  exists t', scan (Ok (start, end_)) (if rev then descend_to else ascend_to) body drain t =
      ((if rev then id else reverse) (Ok ∘ f <$> range (kv_map t) start end_), t') /\
    kv_map t' = kv_map t.
Proof.
  intros Hbody. unfold scan. set (t1 := kv_mark_read_range start end_ t).
  assert (kv_map t1 = kv_map t) as H1 by (unfold kv_map, t1; by rewrite kv_mark_read_range_view).
  destruct rev.
  - rewrite descend_to_range, H1.
    destruct (yield_each_ok (λ u, kv_map u = kv_map t) body f (reverse (range (kv_map t) start end_)) [] t1)
      as (t' & -> & Ht'); [done| |].
    + intros e u He Hu. apply Hbody; [by apply elem_of_reverse|done].
    + exists t'. split; [|done]. rewrite app_nil_r, fmap_reverse, reverse_involutive. done.
  - rewrite ascend_to_range, H1.
    destruct (yield_each_ok (λ u, kv_map u = kv_map t) body f (range (kv_map t) start end_) [] t1)
      as (t' & -> & Ht'); [done|by intros; apply Hbody|].
    exists t'. split; [|done]. by rewrite app_nil_r.
Qed.

(** A consumer that stops early has seen the first items. *)
Lemma scan_prefix {A : Type} bounds walk (body : bytes * bytes -> M tx A) more t :
  reverse (scan bounds walk body more t).1 `prefix_of` reverse (scan bounds walk body drain t).1.
Proof.
  unfold scan. destruct bounds as [[start end_]| |]; [|done..]. cbv zeta.
  destruct (yield_each_prefix more body (walk start end_ (kv_mark_read_range start end_ t)) []
    (kv_mark_read_range start end_ t)) as [later ->].
  rewrite reverse_app. by apply prefix_app_r.
Qed.

Lemma scan_cut {A : Type} bounds walk (body : bytes * bytes -> M tx A) more t :
  (scan bounds walk body more t).1 = (scan bounds walk body drain t).1 \/ more (scan bounds walk body more t).1 = false.
Proof. unfold scan. destruct bounds as [[start end_]| |]; [|by left..]. apply yield_each_cut. Qed.

(** The row an entry of the primary range stands for. *)
Definition rowOf (e : bytes * bytes) : list any :=
  match decodeRow d e.1 e.2 with Ok r => rVals r | _ => [] end.

Lemma rowOf_stored m k v : table_inv d m -> m !! k = Some v -> tablePrefix (tID d) `prefix_of` k ->
  stored d m (rowOf (k, v)) /\ k = row_key d (rowOf (k, v)) /\
  decodeRow d k v = Ok (mkRow d (rowOf (k, v))).
Proof.
  intros Hi Hk Hp. destruct (inv_stored d m k v Hi Hk Hp) as (row & Hs & Hkr & Hd).
  unfold rowOf. cbn [fst snd]. rewrite Hd. done.
Qed.

Lemma range_rows m start end_ : table_inv d m ->
  ble (tablePrefix (tID d)) start -> ble end_ (prefixEnd (tablePrefix (tID d))) ->
  let rows := rowOf <$> range m start end_ in
  StronglySorted (λ r1 r2, blt (row_key d r1) (row_key d r2)) rows /\
  forall row, row ∈ rows <-> stored d m row /\ ble start (row_key d row) /\ blt (row_key d row) end_.
Proof.
  intros Hi Hs He rows.
  assert (forall k v, (k, v) ∈ range m start end_ -> tablePrefix (tID d) `prefix_of` k) as Hp.
  { intros k v (Hk & H1 & H2)%elem_of_range. eapply narrowed_prefix; [| |exact Hs|exact He|done|done];
    by rewrite tablePrefix_elems. }
  split.
  - unfold rows. pose proof (range_sorted m start end_) as Hr.
    assert (forall e, e ∈ range m start end_ -> e.1 = row_key d (rowOf e)) as Hkey.
    { intros [k v] Hin. pose proof (Hp k v Hin). apply elem_of_range in Hin as (Hk & _).
      by apply (rowOf_stored m k v). }
    clear -Hr Hkey. induction Hr as [|e l Hl IH He]; [constructor|]. csimpl. constructor.
    + apply IH. intros e' He'. apply Hkey. by right.
    + apply Forall_fmap. rewrite Forall_forall in *. intros e' He'. simpl.
      rewrite <- !Hkey by (by left || by right). by apply He.
  - intros row. unfold rows. rewrite list_elem_of_fmap. split.
    + intros ([k v] & -> & Hin). pose proof (Hp k v Hin). apply elem_of_range in Hin as (Hk & ? & ?).
      destruct (rowOf_stored m k v) as (Hst & Hkr & _); [done..|]. by rewrite <- Hkr.
    + intros (Hst & H1 & H2). destruct Hst as (Hok & v & Hv & Hd). exists (row_key d row, v).
      split; [unfold rowOf; cbn [fst snd]; by rewrite Hd|]. by apply elem_of_range.
Qed.

(** The bound values of a primary-key scan, coerced and normalized. *)
Definition pkBound (vals : list any) : outcome (list any) :=
  if decide (length (tPKCols d) < length vals)%nat then Err errBoundArity
  else cs ← coercePK d vals; normals cs.

Lemma coercePK_any_ok pk vals cs : Forall any_ok vals -> coercePK_loop d pk vals = Ok cs ->
  Forall any_ok cs /\ length cs = length vals.
Proof.
  intros Hok. revert pk cs. induction Hok as [|v vals Hv _ IH]; intros pk cs; [by destruct pk; intros [= <-]|].
  destruct pk as [|o pk]; [done|]. cbn [coercePK_loop].
  intros (c & Hc & (cv & Hcv & Hrest)%outcome_bind_ok)%outcome_bind_ok.
  destruct (is_nil cv) eqn:Hn; [done|]. apply outcome_bind_ok in Hrest as (out & Hout & [= <-]).
  destruct (IH pk out Hout) as [Ho Hl]. split; [|simpl; lia]. constructor; [|done].
  pose proof (coerce_typed v (colType c) cv Hv Hcv) as Ht. destruct (is_nil v); [by subst|].
  by eapply typed_any_ok.
Qed.

Lemma pkBound_ok vals ns : Forall any_ok vals -> pkBound vals = Ok ns ->
  Forall canon ns /\ (length ns <= length (tPKCols d))%nat.
Proof.
  intros Hok. unfold pkBound. destruct (decide _) as [|Hl]; [done|].
  intros (cs & Hcs & Hns)%outcome_bind_ok. destruct (coercePK_any_ok _ _ _ Hok Hcs) as [Ho Hlc].
  split; [by eapply normals_canon|]. rewrite (traverse_length _ _ _ Hns). lia.
Qed.

Lemma boundKey_norm vals : Forall any_ok vals ->
  boundKey d (tablePrefix (tID d)) vals =
    ns ← pkBound vals; Ok (tablePrefix (tID d) ++ delems (λ _, false) 0 ns).
Proof.
  intros Hok. unfold boundKey, pkBound. destruct (decide _); [done|].
  destruct (coercePK d vals) as [cs| |] eqn:Hcs; simpl; [|done..].
  destruct (coercePK_any_ok _ _ _ Hok Hcs) as [Ho _]. rewrite Append_spec by done.
  destruct (normals cs) as [ns| |]; simpl; [|done..]. by rewrite (elems_delems 0).
Qed.

Lemma pkOf_length row : length (pkOf d row) = length (tPKCols d).
Proof. apply length_fmap. Qed.

Lemma row_key_compare r1 r2 : row_ok d r1 -> row_ok d r2 ->
  Compare (pkOf d r1) (pkOf d r2) = Ok (bcompare (row_key d r1) (row_key d r2)).
Proof.
  intros [_ H1] [_ H2]. unfold row_key. rewrite bcompare_app_same.
  apply elems_compare; by apply pkOf_canon.
Qed.

(** What a scan's bounds ask of a row of the table. *)
Definition pk_in (from to : option (list any)) (toIncl : bool) (row : list any) : Prop :=
  above (λ _, false) pkBound from (pkOf d row) /\ below (λ _, false) pkBound to toIncl (pkOf d row).

Definition pk_bound_ok (b : option (list any)) : Prop :=
  match b with None => True | Some vals => Forall any_ok vals /\ exists ns, pkBound vals = Ok ns end.

Lemma pk_bounds from to toIncl : pk_bound_ok from -> pk_bound_ok to ->
  let prefix := tablePrefix (tID d) in
  exists start end_, scanBounds (boundKey d prefix) prefix from to toIncl = Ok (start, end_) /\
    ble prefix start /\ ble end_ (prefixEnd prefix) /\
    forall row, row_ok d row ->
      (ble start (row_key d row) /\ blt (row_key d row) end_) <-> pk_in from to toIncl row.
Proof.
  intros Hf Ht prefix.
  assert (forall b, pk_bound_ok b -> bound_ok pkBound b) as Hb.
  { intros [vals|]; [|done]. intros (Hok & ns & Hns). split; [done|]. exists ns. split; [done|].
    by eapply pkBound_ok. }
  destruct (scanBounds_ok (λ _, false) prefix ltac:(unfold prefix; by rewrite tablePrefix_elems)
    ltac:(unfold prefix; by rewrite tablePrefix_elems) pkBound (boundKey d prefix) boundKey_norm from to toIncl)
    as (start & end_ & Eb & Hs & He & Hin); [by apply Hb..|].
  exists start, end_. split_and!; [done..|]. intros row [_ Hc].
  destruct (Hin (pkOf d row) []) as [H1 H2].
  - by apply pkOf_canon.
  - intros vals ns Hv Hns. rewrite pkOf_length. 
    assert (Forall any_ok vals) as Hok by (destruct Hv as [-> | ->]; [apply Hf|apply Ht]).
    by eapply pkBound_ok.
  - unfold row_key, prefix in *. rewrite app_nil_r, <- (elems_delems 0) in H1, H2. unfold pk_in. tauto.
Qed.

End scans.

(** ** Index scans *)

Section index_scans.
Context {tx : Type} {kv : KV tx} {kv_laws : KVLaws tx}.
Context (d : TableDesc) (Hwf : desc_wf d) (idx : IndexDesc) (Hidx : idx ∈ tIndexes d).

Abbreviation prefix := (indexPrefix (tID d) (ixID idx)).

Lemma index_entry_resolves t k v : table_inv d (kv_map t) -> kv_map t !! k = Some v ->
  prefix `prefix_of` k ->
  exists row, stored d (kv_map t) row /\ k = index_key d idx row /\ v = index_val d idx row /\
    forall u, kv_map u = kv_map t ->
      rowFromIndexEntry d idx k v u = (Ok (mkRow d row), kv_mark_read (row_key d row) u).
Proof.
  intros Hi Hk Hp. apply (inv_index d _ Hi idx k v Hidx Hp) in Hk as (row & Hst & -> & ->).
  exists row. split_and!; [done..|]. intros u Hu. pose proof Hst as (Hok & rv & Hrv & Hd).
  rewrite (rowFromIndexEntry_ok d Hwf idx row rv u); [by rewrite Hd|by eapply row_ok_canon|by rewrite Hu].
Qed.

(** The row an entry of the index resolves to in [t]. *)
Definition ixRowOf (t : tx) (e : bytes * bytes) : list any :=
  match (rowFromIndexEntry d idx e.1 e.2 t).1 with Ok r => rVals r | _ => [] end.

Lemma range_index_rows t start end_ : table_inv d (kv_map t) ->
  ble prefix start -> ble end_ (prefixEnd prefix) ->
  let rows := ixRowOf t <$> range (kv_map t) start end_ in
  StronglySorted (λ r1 r2, blt (index_key d idx r1) (index_key d idx r2)) rows /\
  (forall row, row ∈ rows <-> stored d (kv_map t) row /\
    ble start (index_key d idx row) /\ blt (index_key d idx row) end_) /\
  forall e u, e ∈ range (kv_map t) start end_ -> kv_map u = kv_map t ->
    exists u', rowFromIndexEntry d idx e.1 e.2 u = (Ok (mkRow d (ixRowOf t e)), u') /\ kv_map u' = kv_map t.
Proof.
  intros Hi Hs He rows.
  assert (forall k v, (k, v) ∈ range (kv_map t) start end_ ->
    stored d (kv_map t) (ixRowOf t (k, v)) /\ k = index_key d idx (ixRowOf t (k, v)) /\
    forall u, kv_map u = kv_map t -> rowFromIndexEntry d idx k v u =
      (Ok (mkRow d (ixRowOf t (k, v))), kv_mark_read (row_key d (ixRowOf t (k, v))) u)) as Hres.
  { intros k v (Hk & H1 & H2)%elem_of_range.
    assert (prefix `prefix_of` k) as Hp.
    { eapply narrowed_prefix; [| |exact Hs|exact He|done|done]; by rewrite indexPrefix_elems. }
    destruct (index_entry_resolves t k v Hi Hk Hp) as (row & Hst & -> & -> & Hr).
    unfold ixRowOf. cbn [fst snd]. rewrite (Hr t) by done. done. }
  split_and!.
  - unfold rows. pose proof (range_sorted (kv_map t) start end_) as Hr.
    assert (forall e, e ∈ range (kv_map t) start end_ -> e.1 = index_key d idx (ixRowOf t e)) as Hkey.
    { intros [k v] Hin. by apply Hres. }
    clear -Hr Hkey. induction Hr as [|e l Hl IH He]; [constructor|]. csimpl. constructor.
    + apply IH. intros e' He'. apply Hkey. by right.
    + apply Forall_fmap. rewrite Forall_forall in *. intros e' He'. simpl.
      rewrite <- !Hkey by (by left || by right). by apply He.
  - intros row. unfold rows. rewrite list_elem_of_fmap. split.
    + intros ([k v] & -> & Hin). destruct (Hres k v Hin) as (Hst & Hk & _).
      apply elem_of_range in Hin as (_ & ? & ?). by rewrite <- Hk.
    + intros (Hst & H1 & H2). exists (index_key d idx row, index_val d idx row).
      assert ((index_key d idx row, index_val d idx row) ∈ range (kv_map t) start end_) as Hin.
      { apply elem_of_range. split; [|done]. apply (inv_index d _ Hi idx); [done|apply index_key_prefix|eauto]. }
      split; [|done]. destruct (Hres _ _ Hin) as (Hst' & Hk & _). symmetry.
      apply elem_of_range in Hin as (Hv & _).
      destruct (index_entry_resolves t _ _ Hi Hv) as (row' & Hst2 & Hk2 & Hv2 & Hr); [apply index_key_prefix|].
      assert (row = row') as <-.
      { eapply (stored_pk_unique d); [done..|]. 
        eapply index_entry_pk; [by eapply stored_canon|by eapply stored_canon|done|done]. }
      unfold ixRowOf. cbn [fst snd]. by rewrite (Hr t).
  - intros [k v] u Hin Hu. destruct (Hres k v Hin) as (_ & _ & Hr). cbn [fst snd]. rewrite Hr by done.
    eexists. split; [done|]. unfold kv_map. by rewrite kv_mark_read_view.
Qed.

(** The bound values of an index scan, coerced and normalized. *)
Definition ixBound (vals : list any) : outcome (list any) :=
  if decide (length (ixCols idx) < length vals)%nat then Err errIndexBound
  else
    cs ← traverse (λ '(ord, v), c ← at_index (tColumns d) ord; coerce v (colType c)) (zip (ixCols idx) vals);
    normals cs.

Lemma ixBound_coerced vals cs : Forall any_ok vals ->
  traverse (λ '(ord, v), c ← at_index (tColumns d) ord; coerce v (colType c)) (zip (ixCols idx) vals) = Ok cs ->
  Forall any_ok cs.
Proof.
  intros Hok Hcs%traverse_ok. apply Forall_lookup. intros j w Hw.
  destruct (Forall2_lookup_r _ _ _ _ _ Hcs Hw) as ([o v] & Hz & Hc).
  apply lookup_zip_Some in Hz as [_ Hv]. eapply Forall_lookup_1 in Hok; [|done].
  apply outcome_bind_ok in Hc as (c & _ & Hc). pose proof (coerce_typed _ _ _ Hok Hc) as Ht.
  destruct (is_nil v); [by subst|]. by eapply typed_any_ok.
Qed.

Lemma ixBound_ok vals ns : Forall any_ok vals -> ixBound vals = Ok ns ->
  Forall canon ns /\ (length ns <= length (ixCols idx))%nat.
Proof.
  intros Hok. unfold ixBound. destruct (decide _) as [|Hl]; [done|].
  intros (cs & Hcs & Hns)%outcome_bind_ok. pose proof (ixBound_coerced vals cs Hok Hcs).
  split; [by eapply normals_canon|].
  rewrite (traverse_length _ _ _ Hns), (traverse_length _ _ _ Hcs), length_zip. lia.
Qed.

Lemma indexBound_norm vals : Forall any_ok vals ->
  indexBound d idx prefix vals = ns ← ixBound vals; Ok (prefix ++ delems (DescAt idx) 0 ns).
Proof.
  intros Hok. unfold indexBound, ixBound. destruct (decide _); [done|].
  destruct (traverse _ _) as [cs| |] eqn:Hcs; simpl; [|done..].
  pose proof (ixBound_coerced vals cs Hok Hcs). unfold appendDirected.
  by rewrite appendDirected_spec.
Qed.

Definition ix_in (from to : option (list any)) (toIncl : bool) (row : list any) : Prop :=
  above (DescAt idx) ixBound from (ixVals idx row) /\ below (DescAt idx) ixBound to toIncl (ixVals idx row).

Definition ix_bound_ok (b : option (list any)) : Prop :=
  match b with None => True | Some vals => Forall any_ok vals /\ exists ns, ixBound vals = Ok ns end.

Lemma ix_bounds from to toIncl : ix_bound_ok from -> ix_bound_ok to ->
  exists start end_, scanBounds (indexBound d idx prefix) prefix from to toIncl = Ok (start, end_) /\
    ble prefix start /\ ble end_ (prefixEnd prefix) /\
    forall row, row_ok d row ->
      (ble start (index_key d idx row) /\ blt (index_key d idx row) end_) <-> ix_in from to toIncl row.
Proof.
  intros Hf Ht.
  assert (forall b, ix_bound_ok b -> bound_ok ixBound b) as Hb.
  { intros [vals|]; [|done]. intros (Hok & ns & Hns). split; [done|]. exists ns. split; [done|].
    by eapply ixBound_ok. }
  destruct (scanBounds_ok (DescAt idx) prefix ltac:(by rewrite indexPrefix_elems)
    ltac:(by rewrite indexPrefix_elems) ixBound (indexBound d idx prefix) indexBound_norm from to toIncl)
    as (start & end_ & Eb & Hs & He & Hin); [by apply Hb..|].
  exists start, end_. split_and!; [done..|]. intros row [_ Hc].
  destruct (Hin (ixVals idx row) (if enforced idx row then [] else elems (pkOf d row))) as [H1 H2].
  - by apply ixVals_canon.
  - intros vals ns Hv Hns. unfold ixVals. rewrite length_fmap.
    assert (Forall any_ok vals) as Hok by (destruct Hv as [-> | ->]; [apply Hf|apply Ht]).
    by eapply ixBound_ok.
  - unfold ix_in, index_key. tauto.
Qed.

(** Index order: by the indexed values in their directions, then by
    primary key. *)
Definition ix_before (r1 r2 : list any) : Prop :=
  prefixCompare (DescAt idx) 0 (ixVals idx r1) (ixVals idx r2) = Lt \/
  ixVals idx r1 = ixVals idx r2 /\ Compare (pkOf d r1) (pkOf d r2) = Ok Lt.

Lemma index_key_before r1 r2 : row_ok d r1 -> row_ok d r2 ->
  blt (index_key d idx r1) (index_key d idx r2) -> ix_before r1 r2.
Proof.
  intros [_ H1] [_ H2]. unfold index_key, blt. rewrite bcompare_app_same. intros Hlt.
  pose proof (ixVals_canon idx r1 H1) as C1. pose proof (ixVals_canon idx r2 H2) as C2.
  set (s1 := if enforced idx r1 then _ else _) in Hlt. set (s2 := if enforced idx r2 then _ else _) in Hlt.
  pose proof (prefixCompare_bytes (DescAt idx) 0 _ _ s2 C1 C2) as Hc.
  specialize (Hc ltac:(unfold ixVals; by rewrite !length_fmap)). unfold ix_before.
  destruct (prefixCompare (DescAt idx) 0 (ixVals idx r1) (ixVals idx r2)).
  - right. destruct Hc as [r Hr]. symmetry in Hr.
    apply delems_app_inj in Hr as [Ev _]; [|unfold ixVals; by rewrite !length_fmap|done..].
    split; [done|]. rewrite Ev, bcompare_app_same in Hlt. unfold s1, s2, enforced in Hlt. rewrite Ev in Hlt.
    destruct (ixUnique idx && negb (existsb is_nil (ixVals idx r2))); [done|].
    rewrite elems_compare by (by apply pkOf_canon). by rewrite Hlt.
  - by left.
  - destruct Hc as [Hd Hg]. rewrite <- (app_nil_r (delems _ _ (ixVals idx r1))) in Hg.
    apply diverge_sym in Hd. exfalso.
    assert (bcompare (delems (DescAt idx) 0 (ixVals idx r1) ++ s1) (delems (DescAt idx) 0 (ixVals idx r2) ++ s2) = Gt);
      [|congruence].
    rewrite <- (app_nil_r (_ ++ s2)), diverge_bcompare_app; [by rewrite app_nil_r in Hg|by apply diverge_sym].
Qed.

End index_scans.
