(* ===== verification/Seq.v ===== *)
(** * Transactional counters

    [seq.go]: a named sequence or an identity column's counter is one key
    holding the next value as a big-endian [uint64]. These are the
    operations inside a transaction; the engine uses them in its default,
    serialized mode. *)
From S2P Require Import Prelude GoVal Tuple KV Catalog.

Local Open Scope Z_scope.

Section seq.
Context {tx : Type} {kv : KV tx}.

Definition errCorrupt : error := ENew (go "sequence value is corrupt").
Definition errExhausted : error := ENew (go "sequence exhausted").

(** The stored value: eight bytes, anything else is corruption. *)
Definition readCounter (raw : bytes) : outcome Z :=
  if decide (length raw <> 8)%nat then Err errCorrupt else Ok (be_val raw).

Definition nextFromCounter (key : bytes) (start : Z) : M tx Z :=
  raw ← gets (kv_get key);
  next ← lift (match raw with Some raw => readCounter raw | None => Ok start end);
  if next =? maxUint64 then fail errExhausted
  else
    _ ← kv_set key (be64 (next + 1));
    mret next.

Definition bumpCounterTo (key : bytes) (next : Z) : M tx unit :=
  raw ← gets (kv_get key);
  match raw with
  | Some raw =>
      cur ← lift (readCounter raw);
      if next <=? cur then mret () else kv_set key (be64 next)
  | None => if next <=? 1 then mret () else kv_set key (be64 next)
  end.

Definition checkSeqName (name : bytes) : outcome unit :=
  if decide (name = []) then Err (ENew (go "sequence name is required")) else Ok ().

Definition nextSeqIn (name : bytes) : M tx Z :=
  _ ← lift (checkSeqName name); nextFromCounter (seqNameKey name) 1.
Definition setSeqIn (name : bytes) (next : Z) : M tx unit :=
  _ ← lift (checkSeqName name); kv_set (seqNameKey name) (be64 next).
Definition peekSeqIn (name : bytes) (t : tx) : outcome (option Z) :=
  _ ← checkSeqName name;
  match kv_get (seqNameKey name) t with
  | None => Ok None
  | Some raw => Some <$> readCounter raw
  end.
Definition deleteSeqIn (name : bytes) : M tx bool :=
  _ ← lift (checkSeqName name); kv_delete (seqNameKey name).

(** [n] draws one after another. *)
Fixpoint draws (key : bytes) (start : Z) (n : nat) : M tx (list Z) :=
  match n with
  | O => mret []
  | S n' => v ← nextFromCounter key start; vs ← draws key start n'; mret (v :: vs)
  end.

End seq.

(** ** Counter laws *)

Section laws.
Context {tx : Type} {kv : KV tx} {kv_laws : KVLaws tx}.
Implicit Types t : tx.

(** What the next draw returns. *)
Definition position (key : bytes) (start : Z) (m : kvmap) : outcome Z :=
  match m !! key with Some raw => readCounter raw | None => Ok start end.

Lemma be_val_be64 u : uint64_ok u -> be_val (be64 u) = u.
Proof. intros Hu. unfold be64. rewrite be_val_be. by apply Z.mod_small. Qed.

Lemma readCounter_be64 u : uint64_ok u -> readCounter (be64 u) = Ok u.
Proof. intros Hu. unfold readCounter. rewrite decide_False by (rewrite be64_length; lia). by rewrite be_val_be64. Qed.

Lemma readCounter_range raw u : readCounter raw = Ok u -> uint64_ok u.
Proof.
  unfold readCounter. destruct (decide _) as [|Hl]; [done|]. intros [= <-].
  pose proof (be_val_bound raw) as Hb. replace (length raw) with 8%nat in Hb by lia. apply Hb.
Qed.

Lemma position_range key start m u : uint64_ok start -> position key start m = Ok u -> uint64_ok u.
Proof.
  unfold position. destruct (m !! key); [|by intros ? [= <-]]. intros _. apply readCounter_range.
Qed.

Lemma nextFromCounter_ok key start t v t' : nextFromCounter key start t = (Ok v, t') ->
  kv_writable t = true /\ position key start (kv_map t) = Ok v /\ v <> maxUint64 /\
  writes (insert key (be64 (v + 1))) t t'.
Proof.
  unfold nextFromCounter, position. unfold mbind, M_bind, gets, lift, fail, mret, M_ret.
  rewrite kv_get_map. destruct (match kv_map t !! key with Some raw => readCounter raw | None => Ok start end)
    as [next| |]; [|done..]. destruct (Z.eqb_spec next maxUint64); [done|].
  destruct (kv_writable t) eqn:Hw.
  - destruct (kv_set_rw t key (be64 (next + 1)) Hw) as (t1 & -> & Hv). intros [= <- <-]. done.
  - by rewrite kv_set_ro.
Qed.

Lemma nextFromCounter_draw key start t v : kv_writable t = true ->
  position key start (kv_map t) = Ok v -> v <> maxUint64 ->
  exists t', nextFromCounter key start t = (Ok v, t') /\ writes (insert key (be64 (v + 1))) t t'.
Proof.
  intros Hw Hp Hv. unfold nextFromCounter. unfold mbind, M_bind, gets, lift, mret, M_ret.
  rewrite kv_get_map. unfold position in Hp. rewrite Hp. destruct (Z.eqb_spec v maxUint64); [done|].
  destruct (kv_set_rw t key (be64 (v + 1)) Hw) as (t1 & -> & Ht). eauto.
Qed.

(** A failed draw writes nothing. *)
Lemma nextFromCounter_err key start t e t' : nextFromCounter key start t = (Err e, t') -> t' = t.
Proof.
  unfold nextFromCounter. unfold mbind, M_bind, gets, lift, fail, mret, M_ret.
  destruct (match kv_get key t with Some raw => readCounter raw | None => Ok start end) as [next| |];
    [|by intros [= _ <-]|done].
  destruct (next =? maxUint64); [by intros [= _ <-]|].
  destruct (kv_writable t) eqn:Hw.
  - by destruct (kv_set_rw t key (be64 (next + 1)) Hw) as (t1 & -> & _).
  - rewrite kv_set_ro by done. by intros [= _ <-].
Qed.

Lemma nextFromCounter_no_panic key start t p t' : nextFromCounter key start t <> (Panic p, t').
Proof.
  unfold nextFromCounter. unfold mbind, M_bind, gets, lift, fail, mret, M_ret.
  assert (forall o, match kv_get key t with Some raw => readCounter raw | None => Ok start end = o ->
    o <> Panic p) as Hn.
  { intros o <-. destruct (kv_get key t); [|done]. unfold readCounter. by case_decide. }
  destruct (match kv_get key t with Some raw => readCounter raw | None => Ok start end) as [next| |] eqn:E;
    [|done|by intros [= ->]; eapply Hn].
  destruct (next =? maxUint64); [done|]. destruct (kv_writable t) eqn:Hw.
  - by destruct (kv_set_rw t key (be64 (next + 1)) Hw) as (t1 & -> & _).
  - by rewrite kv_set_ro.
Qed.

(** A bump's write, if any, is to the counter alone and never lowers it. *)
Lemma bumpCounterTo_ok key next t t' : bumpCounterTo key next t = (Ok tt, t') ->
  exists cur, position key 1 (kv_map t) = Ok cur /\
    if next <=? cur then t' = t else kv_writable t = true /\ writes (insert key (be64 next)) t t'.
Proof.
  unfold bumpCounterTo, position. unfold mbind, M_bind, gets, lift, mret, M_ret.
  rewrite kv_get_map.
  assert (forall u, kv_set key (be64 next) t = (Ok tt, u) ->
    kv_writable t = true /\ writes (insert key (be64 next)) t u) as Hset.
  { intros u. destruct (kv_writable t) eqn:Hw; [|by rewrite kv_set_ro].
    destruct (kv_set_rw t key (be64 next) Hw) as (t1 & -> & Hv). by intros [= <-]. }
  destruct (kv_map t !! key) as [raw|].
  - destruct (readCounter raw) as [cur| |]; [|done..]. exists cur. split; [done|].
    destruct (next <=? cur); [by simplify_eq|auto].
  - exists 1. split; [done|]. destruct (next <=? 1); [by simplify_eq|auto].
Qed.

Lemma bumpCounterTo_err key next t e t' : bumpCounterTo key next t = (Err e, t') -> t' = t.
Proof.
  unfold bumpCounterTo. unfold mbind, M_bind, gets, lift, mret, M_ret.
  assert (forall u, kv_set key (be64 next) t = (Err e, u) -> u = t) as Hset.
  { intros u. destruct (kv_writable t) eqn:Hw; [|rewrite kv_set_ro by done; by intros [= _ <-]].
    by destruct (kv_set_rw t key (be64 next) Hw) as (t1 & -> & Hv). }
  destruct (kv_get key t) as [raw|].
  - destruct (readCounter raw) as [cur| |]; [|by intros [= _ <-]|done].
    destruct (next <=? cur); [done|auto].
  - destruct (next <=? 1); [done|auto].
Qed.

Lemma bumpCounterTo_no_panic key next t p t' : bumpCounterTo key next t <> (Panic p, t').
Proof.
  unfold bumpCounterTo. unfold mbind, M_bind, gets, lift, mret, M_ret.
  assert (forall u, kv_set key (be64 next) t <> (Panic p, u)) as Hset.
  { intros u. destruct (kv_writable t) eqn:Hw; [|by rewrite kv_set_ro].
    by destruct (kv_set_rw t key (be64 next) Hw) as (t1 & -> & _). }
  destruct (kv_get key t) as [raw|]; [|by destruct (next <=? 1)].
  unfold readCounter. case_decide; [done|]. by destruct (next <=? be_val raw).
Qed.

Lemma wp_nextFromCounter key start t : wp (nextFromCounter key start) (λ o t',
  match o with
  | Ok v => kv_writable t = true /\ position key start (kv_map t) = Ok v /\ v <> maxUint64 /\
      writes (insert key (be64 (v + 1))) t t'
  | Err _ => t' = t
  | Panic _ => False
  end) t.
Proof.
  unfold wp. destruct (nextFromCounter key start t) as [[v|e|p] t'] eqn:En; cbn [fst snd].
  - by apply nextFromCounter_ok.
  - by eapply nextFromCounter_err.
  - by apply nextFromCounter_no_panic in En.
Qed.

Lemma wp_bumpCounterTo key next t : wp (bumpCounterTo key next) (λ o t',
  match o with
  | Ok _ => exists cur, position key 1 (kv_map t) = Ok cur /\
      if next <=? cur then t' = t else kv_writable t = true /\ writes (insert key (be64 next)) t t'
  | Err _ => t' = t
  | Panic _ => False
  end) t.
Proof.
  unfold wp. destruct (bumpCounterTo key next t) as [[[]|e|p] t'] eqn:En; cbn [fst snd].
  - by apply bumpCounterTo_ok.
  - by eapply bumpCounterTo_err.
  - by apply bumpCounterTo_no_panic in En.
Qed.

End laws.

(** ** Sequences in a transaction *)

Section contracts.
Context {tx : Type} {kv : KV tx} {kv_laws : KVLaws tx}.

(** in serialized mode [n] draws from a counter return the next [n]
    consecutive values, from the stored position (or the start of an absent
    counter): no gap and no repeat. *)
Theorem draws_consecutive key start n (t : tx) v : kv_writable t = true -> uint64_ok start ->
  position key start (kv_map t) = Ok v -> v + Z.of_nat n <= maxUint64 ->
  exists t', draws key start n t = (Ok (seqZ v (Z.of_nat n)), t') /\
    position key start (kv_map t') = Ok (v + Z.of_nat n) /\ kv_writable t' = true.
Proof.
  intros Hw Hs. revert t v Hw. induction n as [|n IH]; intros t v Hw Hp Hn.
  - exists t. split_and!; [done| |done]. rewrite Hp. f_equal. lia.
  - pose proof (position_range _ _ _ _ Hs Hp) as Hv. unfold uint64_ok, maxUint64 in *.
    destruct (nextFromCounter_draw key start t v Hw Hp) as (t1 & Hd & Hw1); [unfold maxUint64; lia|].
    destruct (IH t1 (v + 1)) as (t' & Hds & Hp' & Hw').
    + by rewrite (writes_writable _ _ _ Hw1).
    + unfold position. rewrite (writes_map _ _ _ Hw1), lookup_insert_eq.
      apply readCounter_be64. unfold uint64_ok. lia.
    + lia.
    + exists t'. split_and!; [|rewrite Hp'; f_equal; lia|done].
      cbn [draws]. unfold mbind, M_bind, mret, M_ret. rewrite Hd, Hds.
      do 2 f_equal. rewrite (seqZ_cons v) by lia. f_equal. f_equal; lia.
Qed.

End contracts.

Lemma draws_consecutive_witness : exists t',
  draws (seqNameKey (go "s")) 1 3 (mem_open []) = (Ok [1; 2; 3], t') /\
  position (seqNameKey (go "s")) 1 (kv_map t') = Ok 4 /\ kv_writable t' = true.
Proof.
  apply (draws_consecutive (seqNameKey (go "s")) 1 3 (mem_open []) 1); try reflexivity.
  - by split.
  - vm_compute. congruence.
Defined.
