(* ===== verification/Threads.v ===== *)
(** * Goroutines, locks and the store they share

    The setting of [seqalloc.go]: records guarded by a mutex of their own,
    found through a map guarded by [seqMu], next to the committed state of
    the store. A goroutine is a [prog], a tree of atomic actions; [step]
    interleaves any number of them with other writers of the store and with
    crashes. [wpt] is a weakest precondition with interference, and
    [reachable_ok] and [progress] are its soundness: what it shows of each
    program alone holds in every interleaving, and none deadlocks. *)
From S2P Require Import Prelude GoVal Tuple KV.

(** ** The shared state *)

(** A record behind a mutex: who holds it, the key it serves, its fields. *)
Record cell (C : Type) := Cell { owner : option nat; ckey : bytes; val : C }.
Arguments Cell {C} _ _ _.
Arguments owner {C} _.
Arguments ckey {C} _.
Arguments val {C} _.

(** [w_drawn] logs the values handed out, with the goroutine and the key; the
    program does not read it. *)
Record world (C : Type) := World {
  w_kv : kvmap;
  w_map : gmap bytes nat;
  w_heap : gmap nat (cell C);
  w_drawn : list (nat * bytes * Z);
}.
Arguments World {C} _ _ _ _.
Arguments w_kv {C} _.
Arguments w_map {C} _.
Arguments w_heap {C} _.
Arguments w_drawn {C} _.

(** ** The store's short transactions *)

(** Concurrent writes are validated first-committer-wins: a transaction that
    ran on the snapshot [m0] and left [m1] commits on [m] if no key it
    changed has changed since. *)
Definition committed (m0 m1 m m' : kvmap) : Prop := forall k,
  if decide (m1 !! k = m0 !! k) then m' !! k = m !! k else m0 !! k = m !! k /\ m' !! k = m1 !! k.

(** [kv.Update] in concurrent-writes mode, as a relation: others may commit
    while it runs. *)
Class Updates (tx : Type) := {
  kv_update : forall A : Type, M tx A -> kvmap -> outcome A -> kvmap -> Prop;
}.
Arguments kv_update {_ _ A} _ _ _ _.

(** It always returns; success is the commit of the closure's writes; an
    error leaves the store alone, unless it was the commit itself that
    failed after its writes became visible. *)
Class UpdateLaws (tx : Type) {kv : KV tx} {kv_laws : KVLaws tx} {up : Updates tx} := {
  kv_update_returns (A : Type) (fn : M tx A) m : exists o m', kv_update fn m o m';
  kv_update_commits (A : Type) (fn : M tx A) m o m' : kv_update fn m o m' ->
    match o with
    | Ok a => exists t t', kv_writable t = true /\ fn t = (Ok a, t') /\ committed (kv_map t) (kv_map t') m m'
    | Err _ => m' = m \/ exists a t t', kv_writable t = true /\ fn t = (Ok a, t') /\ committed (kv_map t) (kv_map t') m m'
    | Panic p => m' = m /\ exists t t', fn t = (Panic p, t')
    end;
}.

Section threads.
Context {C : Type} {tx : Type}.
Implicit Types w : world C.

(** ** Programs *)

(** The atomic actions. [AUpdate] is a transaction and, when it succeeds, the
    assignment of what it computed to the fields of a record its caller has
    locked: no one else can look at the record in between. [AWrite]'s last
    argument is the value the write hands out, if any. *)
Inductive act : Type -> Type :=
  | ALock (l : nat) : act C
  | AUnlock (l : nat) : act unit
  | AWrite (l : nat) (c : C) (drawn : option Z) : act unit
  | AGet (key : bytes) : act (option bytes)
  | AUpdate {A : Type} (fn : M tx A) (assign : option (nat * (A -> C -> C))) : act (outcome A)
  | AFind (key : bytes) : act (option nat)
  | AFetch (key : bytes) (new : C) : act nat
  | AForget (key : bytes) : act (option nat)
  | AForgetPrefix (prefix : bytes) : act (list nat)
  | ADrop (key : bytes) (l : nat) : act unit.

Inductive prog (A : Type) : Type :=
  | Ret (a : A)
  | Act {X : Type} (a : act X) (k : X -> prog A).
#[global] Arguments Ret {A} a.
#[global] Arguments Act {A X} a k.

#[export] Instance prog_ret : MRet prog := @Ret.
Fixpoint prog_bind_fix {A B : Type} (f : A -> prog B) (p : prog A) : prog B :=
  match p with
  | Ret a => f a
  | Act a k => Act a (λ x, prog_bind_fix f (k x))
  end.
#[export] Instance prog_bind : MBind prog := @prog_bind_fix.
Definition act1 {X : Type} (a : act X) : prog X := Act a Ret.

(** ** What an action does *)

Definition set_kv (m : kvmap) w : world C := World m (w_map w) (w_heap w) (w_drawn w).
Definition set_heap (f : gmap nat (cell C) -> gmap nat (cell C)) w : world C := World (w_kv w) (w_map w) (f (w_heap w)) (w_drawn w).
Definition set_map (f : gmap bytes nat -> gmap bytes nat) w : world C := World (w_kv w) (f (w_map w)) (w_heap w) (w_drawn w).
Definition set_owner (o : option nat) (c : cell C) : cell C := Cell o (ckey c) (val c).
Definition set_val (f : C -> C) (c : cell C) : cell C := Cell (owner c) (ckey c) (f (val c)).

Context {up : Updates tx}.

(** Locking waits for the record to be free; nothing else waits. *)
Definition exec (tid : nat) {X : Type} (a : act X) : world C -> X -> world C -> Prop :=
  match a in act X return world C -> X -> world C -> Prop with
  | ALock l => λ w x w', exists c, w_heap w !! l = Some c /\ owner c = None /\ x = val c /\
      w' = set_heap (insert l (set_owner (Some tid) c)) w
  | AUnlock l => λ w _ w', w' = set_heap (alter (set_owner None) l) w
  | AWrite l c drawn => λ w _ w', w' =
      World (w_kv w) (w_map w) (alter (set_val (λ _, c)) l (w_heap w))
        (match drawn, w_heap w !! l with Some v, Some cl => (tid, ckey cl, v) :: w_drawn w | _, _ => w_drawn w end)
  | AGet key => λ w x w', x = w_kv w !! key /\ w' = w
  | AUpdate fn assign => λ w x w', exists m, kv_update fn (w_kv w) x m /\ w' =
      match x, assign with
      | Ok a, Some (l, set) => set_heap (alter (set_val (set a)) l) (set_kv m w)
      | _, _ => set_kv m w
      end
  | AFind key => λ w x w', x = w_map w !! key /\ w' = w
  | AFetch key new => λ w x w',
      match w_map w !! key with
      | Some l => x = l /\ w' = w
      | None => x = fresh (dom (w_heap w)) /\ w' = set_map (insert key x) (set_heap (insert x (Cell None key new)) w)
      end
  | AForget key => λ w x w', x = w_map w !! key /\ w' = set_map (delete key) w
  | AForgetPrefix p => λ w x w',
      x ≡ₚ (map_to_list (filter (λ kl, p `prefix_of` kl.1) (w_map w))).*2 /\
      w' = set_map (filter (λ kl, ~ p `prefix_of` kl.1)) w
  | ADrop key l => λ w _ w', w' = if decide (w_map w !! key = Some l) then set_map (delete key) w else w
  end.

(** ** Interleavings *)

Context {K R : Type} (body : K -> prog R) (admissible : K -> Prop) (env : kvmap -> kvmap -> Prop).

Definition finished (kp : K * prog R) : Prop := match kp.2 with Ret _ => True | Act _ _ => False end.
#[export] Instance finished_dec kp : Decision (finished kp).
Proof. destruct kp as [k []]; unfold finished; apply _. Defined.

Definition config : Type := world C * gmap nat (K * prog R).

(** A crash loses the records and the running calls, not the store; the
    results already returned are still out in the world. *)
Definition crash w : world C := World (w_kv w) ∅ ∅ (w_drawn w).

Inductive moves : config -> config -> Prop :=
  | moves_act w T tid k X (a : act X) f x w' :
      T !! tid = Some (k, Act a f) -> exec tid a w x w' -> moves (w, T) (w', <[tid := (k, f x)]> T).
Inductive step : config -> config -> Prop :=
  | step_moves s s' : moves s s' -> step s s'
  | step_spawn w T tid k : T !! tid = None -> admissible k -> step (w, T) (w, <[tid := (k, body k)]> T)
  | step_env w T m : env (w_kv w) m -> step (w, T) (set_kv m w, T)
  | step_crash w T : step (w, T) (crash w, filter (λ p, finished p.2) T).

(** The store as it is found, no records, no calls. *)
Definition boot (m : kvmap) : config := (World m ∅ ∅ [], ∅).

(** ** Interference *)

(** What a goroutine can rely on the others to keep. *)
Record rely (tid : nat) (w w' : world C) : Prop := {
  rely_mine l c : w_heap w !! l = Some c -> owner c = Some tid -> w_heap w' !! l = Some c;
  rely_not_mine l c : w_heap w' !! l = Some c -> owner c = Some tid -> w_heap w !! l = Some c;
  rely_key l c : w_heap w !! l = Some c -> exists c', w_heap w' !! l = Some c' /\ ckey c' = ckey c;
  rely_kv : env (w_kv w) (w_kv w');
  rely_drawn : w_drawn w ⊆ w_drawn w';
}.
Definition guar (tid : nat) (w w' : world C) : Prop := forall t', t' <> tid -> rely t' w w'.

(** The records a goroutine holds: at most the one given. *)
Definition holds_only (tid : nat) (o : option nat) w : Prop :=
  forall l c, w_heap w !! l = Some c -> owner c = Some tid -> o = Some l.

(** The invariant, and what a record just made satisfies. *)
Context (I : world C -> Prop) (fresh_ok : C -> Prop).

Definition always (tid : nat) (P : world C -> Prop) w : Prop := forall w', rely tid w w' -> I w' -> P w'.

(** A goroutine that is to wait for a lock holds none. *)
Definition may_wait (tid : nat) {X : Type} (a : act X) w : Prop :=
  match a with ALock l => holds_only tid None w /\ is_Some (w_heap w !! l) | _ => True end.

Fixpoint wpt {A : Type} (tid : nat) (p : prog A) (Q : A -> world C -> Prop) (w : world C) : Prop :=
  match p with
  | Ret a => Q a w
  | Act a k => may_wait tid a w /\ forall x w', exec tid a w x w' ->
      I w' /\ guar tid w w' /\ always tid (wpt tid (k x) Q) w'
  end.

Lemma wpt_bind {A B : Type} tid (p : prog A) (f : A -> prog B) Q w :
  wpt tid p (λ a, wpt tid (f a) Q) w -> wpt tid (p ≫= f) Q w.
Proof.
  revert w. unfold mbind, prog_bind. induction p as [a|X a k IH]; intros w; [done|]. cbn [wpt prog_bind_fix].
  intros [Hw H]. split; [done|]. intros x w' Hx. destruct (H x w' Hx) as (HI & Hg & Ha). split_and!; [done..|].
  intros w2 Hr HI2. by apply IH, Ha.
Qed.
Lemma wpt_mono {A : Type} tid (p : prog A) (Q Q' : A -> world C -> Prop) w :
  wpt tid p Q w -> (forall a w', Q a w' -> Q' a w') -> wpt tid p Q' w.
Proof.
  intros H HQ. revert w H. induction p as [a|X a k IH]; intros w; cbn [wpt]; [auto|].
  intros [Hw H]. split; [done|]. intros x w' Hx. destruct (H x w' Hx) as (HI & Hg & Ha). split_and!; [done..|].
  intros w2 Hr HI2. apply IH. by apply Ha.
Qed.
(** One action. *)
Lemma wpt_act {X : Type} tid (a : act X) (Q : X -> world C -> Prop) w : may_wait tid a w ->
  (forall x w', exec tid a w x w' -> I w' /\ guar tid w w' /\ always tid (Q x) w') -> wpt tid (act1 a) Q w.
Proof. done. Qed.

Context {env_pre : PreOrder env}.

#[export] Instance rely_preorder tid : PreOrder (rely tid).
Proof.
  split.
  - intros w. split; eauto; done.
  - intros w1 w2 w3 H1 H2. split.
    + intros l c Hl Ho. apply (rely_mine _ _ _ H2); [by apply (rely_mine _ _ _ H1)|done].
    + intros l c Hl Ho. apply (rely_not_mine _ _ _ H1); [by apply (rely_not_mine _ _ _ H2)|done].
    + intros l c Hl. destruct (rely_key _ _ _ H1 l c Hl) as (c2 & Hl2 & E).
      destruct (rely_key _ _ _ H2 l c2 Hl2) as (c3 & Hl3 & E3). exists c3. split; [done|congruence].
    + etransitivity; [by apply H1|by apply H2].
    + etransitivity; [by apply H1|by apply H2].
Qed.
Lemma always_here tid P w : I w -> always tid P w -> P w.
Proof. intros HI H. by apply H. Qed.
Lemma always_trans tid P w w' : rely tid w w' -> always tid P w -> always tid P w'.
Proof. intros Hr H w2 H2. apply H. by etransitivity. Qed.
Lemma holds_only_rely tid o w w' : rely tid w w' -> holds_only tid o w -> holds_only tid o w'.
Proof. intros Hr H l c Hl Ho. by eapply H, Ho; eapply rely_not_mine. Qed.

(** ** The actions' rules *)

(** The goroutine is inside the critical section of the record at [l], and of
    no other. *)
Definition locked (tid l : nat) (key : bytes) (c : C) w : Prop :=
  w_heap w !! l = Some (Cell (Some tid) key c) /\ holds_only tid (Some l) w.
(** [l] is a record for [key], whoever holds it. *)
Definition serves (l : nat) (key : bytes) w : Prop := exists c, w_heap w !! l = Some c /\ ckey c = key.

Lemma locked_rely tid l key c w w' : rely tid w w' -> locked tid l key c w -> locked tid l key c w'.
Proof. intros Hr [Hl Ho]. split; [by apply (rely_mine _ _ _ Hr)|by eapply holds_only_rely]. Qed.
Lemma serves_rely tid l key w w' : rely tid w w' -> serves l key w -> serves l key w'.
Proof. intros Hr (c & Hl & <-). destruct (rely_key _ _ _ Hr l c Hl) as (c' & ? & ?). by exists c'. Qed.

(** Whatever the goroutine and the others do, records keep their keys, the
    store moves as [env] allows and what was drawn stays drawn. *)
Definition later (w w' : world C) : Prop :=
  (forall l key, serves l key w -> serves l key w') /\ env (w_kv w) (w_kv w') /\ w_drawn w ⊆ w_drawn w'.
#[export] Instance later_preorder : PreOrder later.
Proof.
  split; [by intros w|]. intros w1 w2 w3 (A1 & B1 & C1) (A2 & B2 & C2). split_and!; [auto|by etransitivity..].
Qed.
Lemma rely_later tid w w' : rely tid w w' -> later w w'.
Proof. intros Hr. split_and!; [|apply Hr..]. intros l key. by eapply serves_rely. Qed.
Lemma wpt_later {A : Type} tid (p : prog A) Q w : wpt tid p Q w -> wpt tid p (λ a w', Q a w' /\ later w w') w.
Proof.
  intros H. enough (forall w0, later w0 w -> wpt tid p (λ a w', Q a w' /\ later w0 w') w) as Hw by (by apply Hw).
  revert w H. induction p as [a|X a k IH]; intros w H w0 Hw0; [done|]. cbn [wpt] in *.
  destruct H as [Hw H]. split; [done|]. intros x w' Hx. destruct (H x w' Hx) as (HI & Hg & Ha). split_and!; [done..|].
  intros w2 Hr HI2. apply IH; [by apply Ha|]. etransitivity; [exact Hw0|]. transitivity w'; [|by eapply rely_later].
  apply (rely_later (S tid)), Hg. lia.
Qed.

(** A step that changes one record, which no other goroutine holds. *)
Lemma guar_cell tid l c c' w w' : w_heap w !! l = Some c -> ckey c' = ckey c ->
  (forall t', t' <> tid -> owner c <> Some t' /\ owner c' <> Some t') ->
  w_heap w' = <[l := c']> (w_heap w) -> env (w_kv w) (w_kv w') -> w_drawn w ⊆ w_drawn w' -> guar tid w w'.
Proof.
  intros Hl Hk Ho Hh He Hd t' Ht. destruct (Ho t' Ht) as [H1 H2]. split; try done; rewrite Hh.
  - intros l0 c0 Hl0 Ho0. rewrite lookup_insert_ne; [done|]. intros ->. congruence.
  - intros l0 c0. rewrite lookup_insert. case_decide; [|done]. intros [= <-]. done.
  - intros l0 c0 Hl0. rewrite lookup_insert. case_decide; [subst; exists c'; split; [done|congruence]|by exists c0].
Qed.
Lemma guar_heap tid w w' : w_heap w' = w_heap w -> env (w_kv w) (w_kv w') -> w_drawn w' = w_drawn w -> guar tid w w'.
Proof. intros Hh He Hd t' _. split; rewrite ?Hh, ?Hd; eauto; done. Qed.

Lemma alter_insert_lookup {V : Type} (f : V -> V) (m : gmap nat V) l x : m !! l = Some x -> alter f l m = <[l := f x]> m.
Proof.
  intros Hl. apply map_eq. intros l'. rewrite lookup_alter, lookup_insert. case_decide; [|done]. subst. by rewrite Hl.
Qed.

(** The invariant does not depend on who holds a record. *)
Hypothesis I_owner : forall w l c o, I w -> w_heap w !! l = Some c -> I (set_heap (insert l (set_owner o c)) w).

Lemma wpt_find tid key Q w : I w -> always tid (Q (w_map w !! key)) w -> wpt tid (act1 (AFind key)) Q w.
Proof. intros HI HQ. apply wpt_act; [done|]. intros x w' [-> ->]. split_and!; [done|by apply guar_heap|done]. Qed.
Lemma wpt_get tid key Q w : I w -> always tid (Q (w_kv w !! key)) w -> wpt tid (act1 (AGet key)) Q w.
Proof. intros HI HQ. apply wpt_act; [done|]. intros x w' [-> ->]. split_and!; [done|by apply guar_heap|done]. Qed.

Lemma wpt_lock tid l key Q w : I w -> holds_only tid None w -> serves l key w ->
  (forall c w', I w' -> locked tid l key c w' -> Q c w') -> wpt tid (act1 (ALock l)) Q w.
Proof.
  intros HI Hid (c0 & Hl0 & Hk) HQ. apply wpt_act; [by split|]. intros x w' (c & Hl & Ho & -> & ->).
  assert (c0 = c) as -> by congruence. split_and!; [by apply I_owner| |].
  - apply (guar_cell tid l c (set_owner (Some tid) c)); try done. intros t' Ht. rewrite Ho. cbn. split; congruence.
  - intros w2 Hr HI2. apply HQ; [done|]. eapply locked_rely; [done|].
    split; cbn; [rewrite lookup_insert_eq; unfold set_owner; by rewrite Hk|].
    intros l1 c1. cbn. rewrite lookup_insert. case_decide; [by subst|]. intros H1 H2. by specialize (Hid l1 c1 H1 H2).
Qed.

Lemma wpt_unlock tid l key c Q w : I w -> locked tid l key c w ->
  (forall w', I w' -> holds_only tid None w' -> serves l key w' -> Q tt w') -> wpt tid (act1 (AUnlock l)) Q w.
Proof.
  intros HI [Hl Hu] HQ. apply wpt_act; [done|]. intros [] w' ->. pose proof (I_owner w l _ None HI Hl) as HI'.
  unfold set_heap in *. rewrite (alter_insert_lookup _ _ _ _ Hl). split_and!; [done| |].
  - apply (guar_cell tid l (Cell (Some tid) key c) (Cell None key c)); try done. intros t' Ht. cbn. split; congruence.
  - intros w2 Hr HI2. apply HQ; [done| |].
    + eapply holds_only_rely; [done|]. intros l1 c1. cbn. rewrite lookup_insert. case_decide; [by intros [= <-]|].
      intros H1 H2. specialize (Hu l1 c1 H1 H2). congruence.
    + eapply serves_rely; [done|]. exists (Cell None key c). cbn. by rewrite lookup_insert_eq.
Qed.

(** The world after a write to a locked record. *)
Definition written (l : nat) (key : bytes) (c : C) (tid : nat) (drawn : option Z) w : world C :=
  World (w_kv w) (w_map w) (<[l := Cell (Some tid) key c]> (w_heap w))
    (match drawn with Some v => (tid, key, v) :: w_drawn w | None => w_drawn w end).

Lemma holds_only_insert tid l key c m w : holds_only tid (Some l) w ->
  w_heap m = <[l := Cell (Some tid) key c]> (w_heap w) -> holds_only tid (Some l) m.
Proof. intros Hu Hm l1 c1. rewrite Hm, lookup_insert. case_decide; [by subst|]. apply Hu. Qed.

Lemma wpt_write tid l key c c' drawn Q w : locked tid l key c w -> I (written l key c' tid drawn w) ->
  (forall w', I w' -> locked tid l key c' w' -> (forall v, drawn = Some v -> (tid, key, v) ∈ w_drawn w') -> Q tt w') ->
  wpt tid (act1 (AWrite l c' drawn)) Q w.
Proof.
  intros [Hl Hu] HI HQ. apply wpt_act; [done|]. intros [] w' Hw. cbn [exec] in Hw. rewrite Hl, (alter_insert_lookup _ _ _ _ Hl) in Hw.
  change (w' = written l key c' tid drawn w) in Hw. subst w'. split_and!; [done| |].
  - apply (guar_cell tid l (Cell (Some tid) key c) (Cell (Some tid) key c')); try done.
    + intros t' Ht. cbn. split; congruence.
    + cbn. destruct drawn; [intros x Hx; by right|done].
  - intros w2 Hr HI2. apply HQ; [done| |].
    + eapply locked_rely; [done|]. split; cbn; [by rewrite lookup_insert_eq|]. by eapply holds_only_insert.
    + intros v ->. apply (rely_drawn _ _ _ Hr). cbn. left.
Qed.

(** A transaction and the assignment to the locked record. *)
Hypothesis I_env : forall w m, I w -> env (w_kv w) m -> I (set_kv m w).
Definition updated (l : nat) (key : bytes) (c : C) (tid : nat) (m : kvmap) w : world C :=
  World m (w_map w) (<[l := Cell (Some tid) key c]> (w_heap w)) (w_drawn w).

Lemma wpt_update {A : Type} tid l key c (fn : M tx A) set Q w : I w -> locked tid l key c w ->
  (forall x m, kv_update fn (w_kv w) x m -> env (w_kv w) m /\ is_panic x = false) ->
  (forall a m, kv_update fn (w_kv w) (Ok a) m -> I (updated l key (set a c) tid m w)) ->
  (forall er w', I w' -> locked tid l key c w' -> Q (Err er) w') ->
  (forall a m w', kv_update fn (w_kv w) (Ok a) m -> I w' -> locked tid l key (set a c) w' -> Q (Ok a) w') ->
  wpt tid (act1 (AUpdate fn (Some (l, set)))) Q w.
Proof.
  intros HI [Hl Hu] Henv Hok HQe HQ. apply wpt_act; [done|]. intros x w' (m & Hm & ->).
  destruct (Henv x m Hm) as [He Hp]. destruct x as [a|er|p]; [| |done].
  - unfold set_heap. cbn [w_heap w_kv w_map w_drawn set_kv]. rewrite (alter_insert_lookup _ _ _ _ Hl).
    change (World _ _ _ _) with (updated l key (set a c) tid m w). split_and!; [by apply Hok| |].
    + apply (guar_cell tid l (Cell (Some tid) key c) (Cell (Some tid) key (set a c))); try done. intros t' Ht. cbn. split; congruence.
    + intros w2 Hr HI2. eapply HQ; [done..|]. eapply locked_rely; [done|]. split; cbn; [by rewrite lookup_insert_eq|]. by eapply holds_only_insert.
  - split_and!; [by apply I_env|by apply guar_heap|]. intros w2 Hr HI2. apply HQe; [done|]. by eapply locked_rely.
Qed.

(** A record is found or made; a fresh one is not held. *)
Hypothesis I_fresh : forall w key new l, I w -> l = fresh (dom (w_heap w)) -> w_map w !! key = None ->
  fresh_ok new -> I (set_map (insert key l) (set_heap (insert l (Cell None key new)) w)).
Hypothesis I_map : forall w key l, I w -> w_map w !! key = Some l -> serves l key w.

Lemma wpt_fetch tid key new Q w : I w -> holds_only tid None w -> fresh_ok new ->
  (forall l w', I w' -> holds_only tid None w' -> serves l key w' -> Q l w') -> wpt tid (act1 (AFetch key new)) Q w.
Proof.
  intros HI Hid Hn HQ. apply wpt_act; [done|]. intros l w' Hx. cbn in Hx.
  assert (I w' /\ guar tid w w' /\ holds_only tid None w' /\ serves l key w') as (HI' & Hg & Hid' & Hs).
  { destruct (w_map w !! key) as [l0|] eqn:Hm; destruct Hx as [-> ->].
    - split_and!; [done|by apply guar_heap|done|by apply I_map].
    - assert (w_heap w !! fresh (dom (w_heap w)) = None) as Hf by (apply not_elem_of_dom, is_fresh).
      set (l := fresh _) in *. split_and!; [by apply I_fresh| | |].
      + intros t' _. split; cbn; try done.
        * intros l0 c0 Hl0 _. rewrite lookup_insert_ne; [done|]. congruence.
        * intros l0 c0. rewrite lookup_insert. case_decide; [by intros [= <-]|done].
        * intros l0 c0 Hl0. rewrite lookup_insert_ne by congruence. by eexists.
      + intros l0 c0. cbn. rewrite lookup_insert. case_decide; [by intros [= <-]|]. apply Hid.
      + eexists. cbn. by rewrite lookup_insert_eq. }
  split_and!; [done..|]. intros w2 Hr HI2. apply HQ; [done|by eapply holds_only_rely|by eapply serves_rely].
Qed.

(** Forgetting records. *)
Hypothesis I_forget : forall w f, I w -> (forall key l, f (w_map w) !! key = Some l -> w_map w !! key = Some l) -> I (set_map f w).

Lemma wpt_map {X : Type} tid (a : act X) f (P : X -> world C -> Prop) Q w : I w ->
  (forall x w', exec tid a w x w' -> w' = set_map (f x) w /\ P x w) -> may_wait tid a w ->
  (forall x key l, f x (w_map w) !! key = Some l -> w_map w !! key = Some l) ->
  (forall x w', I w' -> rely tid w w' -> P x w -> Q x w') -> wpt tid (act1 a) Q w.
Proof.
  intros HI Hx Hw Hf HQ. apply wpt_act; [done|]. intros x w' He. destruct (Hx x w' He) as [-> HP].
  split_and!; [by apply I_forget; [|apply Hf]|by apply guar_heap|]. intros w2 Hr HI2. apply HQ; [done| |done].
  etransitivity; [|exact Hr]. split; cbn; eauto; done.
Qed.
Lemma wpt_forget tid key Q w : I w -> holds_only tid None w ->
  (forall o w', I w' -> holds_only tid None w' -> (forall l, o = Some l -> serves l key w') -> Q o w') -> wpt tid (act1 (AForget key)) Q w.
Proof.
  intros HI Hid HQ. apply (wpt_map tid _ (λ _, delete key) (λ o w, o = w_map w !! key)); [done|by intros x w' [-> ->]|done| |].
  - intros _ k l. by rewrite lookup_delete_Some; intros [].
  - intros o w' HI' Hr ->. apply HQ; [done|by eapply holds_only_rely|]. intros l Hl. eapply serves_rely; [done|by apply I_map].
Qed.
Lemma wpt_drop tid key l Q w : I w -> holds_only tid None w ->
  (forall w', I w' -> rely tid w w' -> holds_only tid None w' -> Q tt w') -> wpt tid (act1 (ADrop key l)) Q w.
Proof.
  intros HI Hid HQ.
  apply (wpt_map tid _ (λ _, if decide (w_map w !! key = Some l) then delete key else id) (λ _ _, True)); [done| |done| |].
  - intros x w' ->. case_decide; [done|]. by destruct w.
  - intros _ k l'. case_decide; [|done]. by rewrite lookup_delete_Some; intros [].
  - intros [] w' HI' Hr _. apply HQ; [done..|by eapply holds_only_rely].
Qed.
Lemma wpt_forget_prefix tid p Q w : I w -> holds_only tid None w ->
  (forall ls w', I w' -> holds_only tid None w' -> Forall (λ l, exists key, serves l key w') ls -> Q ls w') ->
  wpt tid (act1 (AForgetPrefix p)) Q w.
Proof.
  intros HI Hid HQ. apply (wpt_map tid _ (λ _, filter (λ kl, ~ p `prefix_of` kl.1))
    (λ ls w, ls ≡ₚ (map_to_list (filter (λ kl, p `prefix_of` kl.1) (w_map w))).*2)); [done|by intros x w' [? ->]|done| |].
  - intros _ k l. by rewrite map_lookup_filter_Some; intros [].
  - intros ls w' HI' Hr Hls. apply HQ; [done|by eapply holds_only_rely|]. rewrite Hls, Forall_fmap, Forall_forall.
    intros [k l] [Hk _]%elem_of_map_to_list%map_lookup_filter_Some. exists k. eapply serves_rely; [done|by apply I_map].
Qed.

(** ** Soundness *)

(** What a call guarantees of its result, given all the values drawn. *)
Context (Q : K -> nat -> R -> list (nat * bytes * Z) -> Prop).
Definition done_ok (k : K) (tid : nat) (r : R) (w : world C) : Prop := Q k tid r (w_drawn w) /\ holds_only tid None w.

Hypothesis Q_mono : forall k tid r d d', Q k tid r d -> d ⊆ d' -> Q k tid r d'.
Hypothesis I_crash : forall w, I w -> I (crash w).
Hypothesis body_ok : forall k tid w, admissible k -> I w -> holds_only tid None w -> wpt tid (body k) (done_ok k tid) w.

Record config_ok (s : config) : Prop := {
  ok_inv : I s.1;
  ok_owner l c tid : w_heap s.1 !! l = Some c -> owner c = Some tid -> is_Some (s.2 !! tid);
  ok_thread tid k p : s.2 !! tid = Some (k, p) -> always tid (wpt tid p (done_ok k tid)) s.1;
}.

Lemma moves_ok s s' : config_ok s -> moves s s' -> config_ok s'.
Proof.
  intros Hs Hm. destruct Hm as [w T tid k X a f x w' HT Hx].
  pose proof (ok_thread _ Hs tid k _ HT) as Ht. apply always_here in Ht; [|apply Hs]. destruct Ht as [_ Ht].
  destruct (Ht x w' Hx) as (HI & Hg & Ha). split; cbn [fst snd]; [done|..].
  - intros l c t' Hl Ho. rewrite lookup_insert. case_decide as E; [by eexists|].
    eapply (ok_owner _ Hs); [|done]. by eapply (rely_not_mine _ _ _ (Hg t' (not_eq_sym E))).
  - intros t' k' p'. rewrite lookup_insert. case_decide as E; [intros [= <- <-]; by subst|].
    intros HT'. eapply always_trans; [by apply Hg|]. by apply (ok_thread _ Hs).
Qed.

Lemma step_ok s s' : config_ok s -> step s s' -> config_ok s'.
Proof.
  intros Hs Hm. destruct Hm as [s s' Hm|w T tid k HT Hk|w T m Hm|w T]; [by eapply moves_ok|..].
  - split; cbn [fst snd]; [apply Hs|..].
    + intros l c t' Hl Ho. rewrite lookup_insert. case_decide; [by eexists|]. by eapply (ok_owner _ Hs).
    + intros t' k' p'. rewrite lookup_insert. case_decide as E; [|by apply (ok_thread _ Hs)]. intros [= <- <-]. subst t'.
      intros w' Hr HI. apply body_ok; [done..|]. eapply holds_only_rely; [done|]. intros l c Hl Ho.
      destruct (ok_owner _ Hs l c tid Hl Ho) as [? HT']. cbn in HT'. congruence.
  - assert (forall t, rely t w (set_kv m w)) as Hr by (intros t; split; cbn; eauto; done).
    split; cbn [fst snd]; [by apply I_env; [apply Hs|]|apply (ok_owner _ Hs)|].
    intros t' k' p' HT'. eapply always_trans; [apply Hr|]. by apply (ok_thread _ Hs).
  - split; cbn [fst snd]; [by apply I_crash, Hs|done|].
    intros t' k' p' [HT' Hf]%map_lookup_filter_Some. cbn [snd] in Hf. destruct p' as [r|]; [|done].
    pose proof (ok_thread _ Hs t' k' _ HT') as Ht. apply always_here in Ht; [|apply Hs]. destruct Ht as [HQ _].
    intros w2 Hr _. split; [by eapply Q_mono, Hr|]. eapply holds_only_rely; [done|]. intros l c Hl. done.
Qed.

Lemma boot_ok m : I (boot m).1 -> config_ok (boot m).
Proof. intros HI. split; cbn; [done|intros; simplify_map_eq..]. Qed.

(** In every interleaving the invariant holds and a call that has returned
    satisfies its specification. *)
Lemma reachable_ok m s : I (boot m).1 -> rtc step (boot m) s -> config_ok s.
Proof.
  intros HI Hs. remember (boot m) as s0 eqn:E0. assert (config_ok s0) as H0 by (subst; by apply boot_ok). clear E0 HI.
  induction Hs as [|s1 s2 s3 H12 _ IH]; [done|]. apply IH. by eapply step_ok.
Qed.
Lemma returned_ok s tid k r : config_ok s -> s.2 !! tid = Some (k, Ret r) -> Q k tid r (w_drawn s.1).
Proof. intros Hs HT. pose proof (ok_thread _ Hs tid k _ HT) as Ht. apply always_here in Ht; [|apply Hs]. apply Ht. Qed.

(** ** Deadlock freedom *)

Context {kv : KV tx} {kv_laws : KVLaws tx} {up_laws : UpdateLaws tx}.

(** The record an action waits for. *)
Definition lock_of {X : Type} (a : act X) : option nat := match a with ALock l => Some l | _ => None end.

Lemma exec_ready tid {X : Type} (a : act X) w : (forall l c, lock_of a = Some l -> w_heap w !! l = Some c -> owner c = None) ->
  may_wait tid a w -> exists x w', exec tid a w x w'.
Proof.
  intros Hfree Hw. destruct a as [l|l|l c d|key|A fn asg|key|key new|key|p|key l]; cbn [exec] in *.
  - destruct Hw as [_ [c Hl]]. exists (val c). eexists. exists c. split_and!; [done| |done..]. by eapply Hfree.
  - by exists tt; eexists.
  - by exists tt; eexists.
  - by do 2 eexists.
  - destruct (kv_update_returns A fn (w_kv w)) as (o & m & H). by exists o; eexists; exists m.
  - by do 2 eexists.
  - destruct (w_map w !! key); by do 2 eexists.
  - by do 2 eexists.
  - by do 2 eexists.
  - by exists tt; eexists.
Qed.

(** While a call is running, some call can take a step. *)
Lemma progress s tid k p : config_ok s -> s.2 !! tid = Some (k, p) -> ~ finished (k, p) -> exists s', moves s s'.
Proof.
  destruct s as [w T]. cbn [snd]. intros Hs HT Hf.
  assert (forall t' k' X (a : act X) f, T !! t' = Some (k', Act a f) -> may_wait t' a w) as Hwait.
  { intros t' k' X a f HT'. pose proof (ok_thread _ Hs t' k' _ HT') as Ht. apply always_here in Ht; [|apply Hs]. apply Ht. }
  destruct p as [r|X a f]; [done|].
  assert (forall t' k' X (a : act X) f, T !! t' = Some (k', Act a f) ->
    (forall l c, lock_of a = Some l -> w_heap w !! l = Some c -> owner c = None) -> exists s', moves (w, T) s') as Hgo.
  { intros t' k' X' a' f' HT' Hfree. destruct (exec_ready t' a' w Hfree) as (x & w' & Hx); [by eapply Hwait|].
    eexists. by eapply moves_act. }
  destruct (lock_of a) as [l|] eqn:Ea; [|eapply Hgo; [done|]; congruence].
  assert (is_Some (w_heap w !! l)) as [c Hl].
  { pose proof (Hwait _ _ _ _ _ HT) as Hw. by destruct a; simplify_eq/=; destruct Hw. }
  destruct (owner c) as [t'|] eqn:Ho; [|eapply Hgo; [done|]; congruence].
  destruct (ok_owner _ Hs l c t' Hl Ho) as [[k' p'] HT']. cbn in HT'.
  pose proof (ok_thread _ Hs t' k' _ HT') as Ht. apply always_here in Ht; [|apply Hs].
  destruct p' as [r'|X' a' f']; cbn [wpt] in Ht.
  - destruct Ht as [_ Hid']. by specialize (Hid' l c Hl Ho).
  - eapply Hgo; [done|]. intros l' c' E Hl'. exfalso. destruct Ht as [Hw' _].
    destruct a'; try done. destruct Hw' as [Hid' _]. by specialize (Hid' l c Hl Ho).
Qed.


(** ** Termination *)

(** Every run of the calls under way, with no new ones, is finite. *)
Definition resumes (p q : prog R) : Prop := match p with Ret _ => False | Act _ f => exists x, q = f x end.
Definition pool_step (T T' : gmap nat (K * prog R)) : Prop :=
  exists tid k p q, T !! tid = Some (k, p) /\ resumes p q /\ T' = <[tid := (k, q)]> T.

Lemma pool_acc_insert i k p (T : gmap nat (K * prog R)) : Acc (flip pool_step) T -> T !! i = None ->
  Acc (flip pool_step) (<[i := (k, p)]> T).
Proof.
  revert T. induction p as [r|X a f IHp]; intros T HT; induction HT as [T HT IHT]; intros Hi; constructor; intros T' Hs;
    destruct Hs as (j & k' & p' & q & Hj & Hq & ->); rewrite lookup_insert in Hj; destruct (decide (i = j)) as [->|Hne];
    try (rewrite insert_insert_ne by done; apply IHT; [by do 4 eexists|by rewrite lookup_insert_ne]).
  - by simplify_eq.
  - rewrite insert_insert_eq. injection Hj as <- <-. destruct Hq as [x ->]. apply IHp; [by constructor|done].
Qed.
Lemma pool_acc (T : gmap nat (K * prog R)) : Acc (flip pool_step) T.
Proof.
  induction T as [|i [k p] T Hi IH] using map_ind; [|by apply pool_acc_insert].
  constructor. intros T' (j & k' & p & q & Hj & _). simplify_map_eq.
Qed.
Lemma moves_acc s : Acc (flip moves) s.
Proof.
  destruct s as [w T]. revert w. induction (pool_acc T) as [T _ IH]. intros w. constructor. intros s' Hm.
  inversion Hm as [w0 T0 tid k X a f x w' HT Hx]; subst. apply IH. exists tid, k, (Act a f), (f x). split_and!; [done|by exists x|done].
Qed.

End threads.

(** ** One goroutine alone *)

(** A store with no other writer: the closure runs on the committed map. *)
Definition mem_update {A : Type} (fn : M MemTx A) (m : kvmap) : outcome A * kvmap :=
  let '(o, t) := fn (Mem (KV.View m true false [])) in
  (o, match o with Ok _ => v_map (mem_view t) | _ => m end).
#[export] Instance mem_updates : Updates MemTx := {
  kv_update A fn m o m' := (o, m') = mem_update fn m \/ (o = Err ETxConflict /\ m' = m);
}.
#[export] Instance mem_update_laws : UpdateLaws MemTx.
Proof.
  split.
  - intros A fn m. exists (mem_update fn m).1, (mem_update fn m).2. left. by destruct (mem_update fn m).
  - intros A fn m o m' [H|[-> ->]]; [|by left]. unfold mem_update in H. set (t := Mem _) in H.
    destruct (fn t) as [o1 t1] eqn:E. injection H as -> ->. destruct o1 as [a|er|p]; [|by left|by eauto].
    exists t, t1. split_and!; [done..|]. intros k. cbn. by case_decide.
Qed.

Section run.
Context {C : Type}.
Implicit Types w : world C.

(** [None] when the goroutine would wait forever. *)
Definition run_act (tid : nat) {X : Type} (a : @act C MemTx X) : world C -> option (X * world C) :=
  match a in act X return world C -> option (X * world C) with
  | ALock l => λ w, c ← w_heap w !! l;
      match owner c with None => Some (val c, set_heap (insert l (set_owner (Some tid) c)) w) | Some _ => None end
  | AUnlock l => λ w, Some (tt, set_heap (alter (set_owner None) l) w)
  | AWrite l c drawn => λ w, Some (tt, World (w_kv w) (w_map w) (alter (set_val (λ _, c)) l (w_heap w))
        (match drawn, w_heap w !! l with Some v, Some cl => (tid, ckey cl, v) :: w_drawn w | _, _ => w_drawn w end))
  | AGet key => λ w, Some (w_kv w !! key, w)
  | AUpdate fn assign => λ w,
      let '(o, m) := mem_update fn (w_kv w) in
      Some (o, match o, assign with
               | Ok a, Some (l, set) => set_heap (alter (set_val (set a)) l) (set_kv m w)
               | _, _ => set_kv m w
               end)
  | AFind key => λ w, Some (w_map w !! key, w)
  | AFetch key new => λ w,
      match w_map w !! key with
      | Some l => Some (l, w)
      | None => let l := fresh (dom (w_heap w)) in Some (l, set_map (insert key l) (set_heap (insert l (Cell None key new)) w))
      end
  | AForget key => λ w, Some (w_map w !! key, set_map (delete key) w)
  | AForgetPrefix p => λ w,
      Some ((map_to_list (filter (λ kl, p `prefix_of` kl.1) (w_map w))).*2, set_map (filter (λ kl, ~ p `prefix_of` kl.1)) w)
  | ADrop key l => λ w, Some (tt, if decide (w_map w !! key = Some l) then set_map (delete key) w else w)
  end.
Fixpoint run (tid : nat) {A : Type} (p : @prog C MemTx A) w : option (A * world C) :=
  match p with
  | Ret a => Some (a, w)
  | Act a k => '(x, w') ← run_act tid a w; run tid (k x) w'
  end.

(** It is one of the runs the interleavings allow. *)
Lemma run_act_exec tid {X : Type} (a : @act C MemTx X) w x w' : run_act tid a w = Some (x, w') -> exec tid a w x w'.
Proof.
  destruct a as [l|l|l c d|key|A fn asg|key|key new|key|p|key l]; cbn [run_act exec].
  - destruct (w_heap w !! l) as [c|]; [|done]. cbn. destruct (owner c) eqn:Ho; [done|]. intros [= <- <-]. eauto.
  - by intros [= <-].
  - by intros [= <-].
  - by intros [= <- <-].
  - destruct (mem_update fn (w_kv w)) as [o m] eqn:E. intros [= <- <-]. exists m. split; [by left|done].
  - by intros [= <- <-].
  - destruct (w_map w !! key); by intros [= <- <-].
  - by intros [= <- <-].
  - by intros [= <- <-].
  - by intros [= <-].
Qed.
Lemma run_bind tid {A B : Type} (p : @prog C MemTx A) (f : A -> prog B) w :
  run tid (p ≫= f) w = ('(a, w') ← run tid p w; run tid (f a) w').
Proof.
  revert w. unfold mbind at 1, prog_bind. induction p as [a|X a k IH]; intros w; [done|]. cbn [prog_bind_fix run].
  destruct (run_act tid a w) as [[x w']|]; [|done]. apply IH.
Qed.
Lemma run_moves {K R : Type} tid (k : K) (p : @prog C MemTx R) w T r w' : run tid p w = Some (r, w') ->
  rtc moves (w, <[tid := (k, p)]> T) (w', <[tid := (k, Ret r)]> T).
Proof.
  revert w. induction p as [a|X a f IH]; intros w; cbn [run]; [by intros [= <- <-]|].
  destruct (run_act tid a w) as [[x w1]|] eqn:E; [|done]. intros Hr. eapply rtc_l; [|by apply IH].
  rewrite <- (insert_insert_eq T tid (k, f x) (k, Act a f)). eapply moves_act; [by rewrite lookup_insert_eq|by apply run_act_exec].
Qed.
End run.

(** The steps of one goroutine on one record. *)
Section around.
Context {C : Type} (tid : nat) (key : bytes).

(** A world around one record. *)
Definition around (m : kvmap) (M : gmap bytes nat) (h : gmap nat (cell C)) d (l : nat) (o : option nat) (a : C) : world C :=
  World m M (<[l := Cell o key a]> h) d.

Lemma run_lock m M h d l a : run_act tid (ALock l) (around m M h d l None a) = Some (a, around m M h d l (Some tid) a).
Proof. cbn. rewrite lookup_insert_eq. cbn. unfold around, set_heap. cbn. by rewrite insert_insert_eq. Qed.
Lemma run_unlock m M h d l o a : run_act tid (AUnlock l) (around m M h d l o a) = Some (tt, around m M h d l None a).
Proof. cbn. unfold around, set_heap. cbn. rewrite (alter_insert_lookup _ _ l (Cell o key a)) by apply lookup_insert_eq. by rewrite insert_insert_eq. Qed.
Lemma run_write m M h d l o a a' v : run_act tid (AWrite l a' v) (around m M h d l o a) =
  Some (tt, around m M h (match v with Some v => (tid, key, v) :: d | None => d end) l o a').
Proof.
  cbn. unfold around. rewrite lookup_insert_eq. rewrite (alter_insert_lookup _ _ l (Cell o key a)) by apply lookup_insert_eq.
  rewrite insert_insert_eq. by destruct v.
Qed.

End around.
