(* ===== verification/Upkeep.v ===== *)
(** * Index maintenance on maps

    Adding a row with all its index entries, and removing one, as functions
    on the map a transaction holds. Both keep [table_inv]; the write paths
    of [dml.go] are shown to amount to them. *)
From S2P Require Import Prelude GoVal GoStr Tuple KV Time Jsonb Types Catalog Rows Index Table.

Local Open Scope Z_scope.

Section upkeep.
Context (d : TableDesc) (Hwf : desc_wf d).

(** *** Keys of different kinds never meet *)

Lemma tID_uint64 : uint64_ok (tID d).
Proof. pose proof (wf_tID d Hwf). unfold uint64_ok, firstUserTableID in *. lia. Qed.

Lemma ixID_uint64 idx : idx ∈ tIndexes d -> uint64_ok (ixID idx).
Proof. intros H. pose proof (ixID_range d Hwf idx H). unfold uint64_ok, primaryIndexID in *. lia. Qed.

Lemma row_key_not_index idx row1 k : idx ∈ tIndexes d ->
  tablePrefix (tID d) `prefix_of` k -> k <> index_key d idx row1.
Proof.
  intros Hidx Hp ->. pose proof (ixID_range d Hwf idx Hidx) as Hr.
  destruct (indexPrefix_disjoint (tID d) primaryIndexID (tID d) (ixID idx) (index_key d idx row1))
    as [_ E]; auto using tID_uint64, ixID_uint64, index_key_prefix.
  - done.
  - unfold primaryIndexID in *. lia.
Qed.

Lemma inv_index_not_row idx k : idx ∈ tIndexes d -> indexPrefix (tID d) (ixID idx) `prefix_of` k ->
  ~ tablePrefix (tID d) `prefix_of` k.
Proof.
  intros Hidx Hp Ht. pose proof (ixID_range d Hwf idx Hidx) as Hr.
  destruct (indexPrefix_disjoint (tID d) primaryIndexID (tID d) (ixID idx) k) as [_ E]; auto using tID_uint64, ixID_uint64.
  - done.
  - unfold primaryIndexID in *. lia.
Qed.

Lemma same_index idx1 idx2 k : idx1 ∈ tIndexes d -> idx2 ∈ tIndexes d ->
  indexPrefix (tID d) (ixID idx1) `prefix_of` k -> indexPrefix (tID d) (ixID idx2) `prefix_of` k ->
  idx1 = idx2.
Proof.
  intros H1 H2 P1 P2.
  destruct (indexPrefix_disjoint (tID d) (ixID idx1) (tID d) (ixID idx2) k) as [_ E];
    auto using tID_uint64, ixID_uint64.
  apply list_elem_of_lookup in H1 as [i Hi], H2 as [j Hj].
  assert (i = j) as ->; [|congruence]. eapply (NoDup_lookup _ _ _ (ixID idx1) (wf_ixID d Hwf));
    rewrite list_lookup_fmap; [by rewrite Hi|by rewrite Hj, E].
Qed.

(** *** Adding and removing entries *)

Definition add_entries (row : list any) (idxs : list IndexDesc) (m : kvmap) : kvmap :=
  foldl (λ m idx, <[index_key d idx row := index_val d idx row]> m) m idxs.
Definition del_entries (row : list any) (idxs : list IndexDesc) (m : kvmap) : kvmap :=
  foldl (λ m idx, delete (index_key d idx row) m) m idxs.

Definition add_row (row : list any) (m : kvmap) : kvmap :=
  <[row_key d row := row_val d row]> (add_entries row (tIndexes d) m).
Definition del_row (row : list any) (m : kvmap) : kvmap :=
  delete (row_key d row) (del_entries row (tIndexes d) m).

Lemma add_entries_ne row idxs m k :
  (forall idx, idx ∈ idxs -> k <> index_key d idx row) -> add_entries row idxs m !! k = m !! k.
Proof.
  revert m. induction idxs as [|idx idxs IH]; intros m Hk; [done|]. simpl. rewrite IH by set_solver.
  apply lookup_insert_ne. intros E. by eapply Hk; [left|].
Qed.

Lemma add_entries_eq row idxs m idx : idxs ⊆ tIndexes d -> idx ∈ idxs ->
  add_entries row idxs m !! index_key d idx row = Some (index_val d idx row).
Proof.
  revert m. induction idxs as [|x idxs IH]; intros m Hsub Hin; [by apply elem_of_nil in Hin|].
  assert (idxs ⊆ tIndexes d) as Hsub' by (intros y Hy; apply Hsub; by right).
  simpl. destruct (decide (idx ∈ idxs)) as [Hin'|Hn]; [by apply IH|].
  apply elem_of_cons in Hin as [->|]; [|done].
  rewrite add_entries_ne; [apply lookup_insert_eq|]. intros y Hy E. destruct Hn.
  replace x with y; [done|]. apply (same_index y x (index_key d x row)); [by apply Hsub'|apply Hsub; left|..].
  - rewrite E. apply index_key_prefix.
  - apply index_key_prefix.
Qed.

Lemma del_entries_ne row idxs m k :
  (forall idx, idx ∈ idxs -> k <> index_key d idx row) -> del_entries row idxs m !! k = m !! k.
Proof.
  revert m. induction idxs as [|idx idxs IH]; intros m Hk; [done|]. simpl. rewrite IH by set_solver.
  apply lookup_delete_ne. intros E. by eapply Hk; [left|].
Qed.

Lemma del_entries_None row idxs m k : m !! k = None -> del_entries row idxs m !! k = None.
Proof.
  revert m. induction idxs as [|idx idxs IH]; intros m Hk; [done|]. simpl. apply IH.
  by apply lookup_delete_None; right.
Qed.

Lemma del_entries_eq row idxs m idx : idx ∈ idxs -> del_entries row idxs m !! index_key d idx row = None.
Proof.
  revert m. induction idxs as [|x idxs IH]; intros m Hin; [by apply elem_of_nil in Hin|].
  simpl. apply elem_of_cons in Hin as [->|]; [|by apply IH].
  apply del_entries_None, lookup_delete_eq.
Qed.

Lemma add_entries_ext row idxs m1 m2 k : m1 !! k = m2 !! k ->
  add_entries row idxs m1 !! k = add_entries row idxs m2 !! k.
Proof.
  revert m1 m2. induction idxs as [|idx idxs IH]; intros m1 m2 Hk; [done|]. simpl. apply IH.
  destruct (decide (index_key d idx row = k)) as [<-|Hne]; [by rewrite !lookup_insert_eq|].
  by rewrite !lookup_insert_ne.
Qed.
Lemma add_row_ext row m1 m2 k : m1 !! k = m2 !! k -> add_row row m1 !! k = add_row row m2 !! k.
Proof.
  intros Hk. unfold add_row. destruct (decide (row_key d row = k)) as [<-|Hne]; [by rewrite !lookup_insert_eq|].
  rewrite !lookup_insert_ne by done. by apply add_entries_ext.
Qed.

(** *** Lookups in the new maps *)

Lemma add_row_table row m k : tablePrefix (tID d) `prefix_of` k ->
  add_row row m !! k = if decide (k = row_key d row) then Some (row_val d row) else m !! k.
Proof.
  intros Hp. unfold add_row. case_decide as E; [subst; apply lookup_insert_eq|].
  rewrite lookup_insert_ne by done. apply add_entries_ne. intros idx Hi. by apply row_key_not_index.
Qed.

Lemma add_row_index row m idx k : idx ∈ tIndexes d -> indexPrefix (tID d) (ixID idx) `prefix_of` k ->
  add_row row m !! k = if decide (k = index_key d idx row) then Some (index_val d idx row) else m !! k.
Proof.
  intros Hi Hp. unfold add_row. rewrite lookup_insert_ne.
  - case_decide as E; [subst; by apply add_entries_eq|]. apply add_entries_ne. intros y Hy Ey.
    apply E. replace idx with y; [done|]. apply (same_index y idx k); [done..| |done].
    rewrite Ey. apply index_key_prefix.
  - intros <-. destruct (indexPrefix_disjoint (tID d) primaryIndexID (tID d) (ixID idx) (row_key d row)) as [_ E];
      auto using tID_uint64, ixID_uint64.
    + done.
    + apply row_key_prefix.
    + pose proof (ixID_range d Hwf idx Hi). unfold primaryIndexID in *. lia.
Qed.

Lemma del_row_table row m k : tablePrefix (tID d) `prefix_of` k ->
  del_row row m !! k = if decide (k = row_key d row) then None else m !! k.
Proof.
  intros Hp. unfold del_row. case_decide as E; [subst; apply lookup_delete_eq|].
  rewrite lookup_delete_ne by done. apply del_entries_ne. intros idx Hi. by apply row_key_not_index.
Qed.

Lemma del_row_index row m idx k : idx ∈ tIndexes d -> indexPrefix (tID d) (ixID idx) `prefix_of` k ->
  del_row row m !! k = if decide (k = index_key d idx row) then None else m !! k.
Proof.
  intros Hi Hp. unfold del_row. rewrite lookup_delete_ne.
  - case_decide as E; [subst; by apply del_entries_eq|]. apply del_entries_ne. intros y Hy Ey.
    apply E. replace idx with y; [done|]. apply (same_index y idx k); [done..| |done].
    rewrite Ey. apply index_key_prefix.
  - intros <-. destruct (indexPrefix_disjoint (tID d) primaryIndexID (tID d) (ixID idx) (row_key d row)) as [_ E];
      auto using tID_uint64, ixID_uint64.
    + done.
    + apply row_key_prefix.
    + pose proof (ixID_range d Hwf idx Hi). unfold primaryIndexID in *. lia.
Qed.

(** *** The invariant *)

Lemma stored_add row m r : row_ok d row -> m !! row_key d row = None ->
  stored d (add_row row m) r <-> stored d m r \/ r = row.
Proof.
  intros Hok Hfree. unfold stored. rewrite add_row_table by apply row_key_prefix. split.
  - intros (Hr & v & Hv & Hd). case_decide as E; [|left; eauto].
    right. injection Hv as <-. rewrite E, row_ok_decode in Hd by done. congruence.
  - intros [(Hr & v & Hv & Hd)| ->].
    + split; [done|]. exists v. rewrite decide_False; [done|]. congruence.
    + split; [done|]. exists (row_val d row). rewrite decide_True by done. by rewrite row_ok_decode.
Qed.

Lemma table_inv_add row m : table_inv d m -> row_ok d row -> m !! row_key d row = None ->
  (forall idx, idx ∈ tIndexes d -> enforced idx row = true -> m !! index_key d idx row = None) ->
  table_inv d (add_row row m).
Proof.
  intros Hi Hok Hfree Huniq. split.
  - intros k v. intros Hk Hp. rewrite add_row_table in Hk by done. case_decide as E.
    + simplify_eq. exists row. split_and!; [done..|]. by apply row_ok_decode.
    + by apply (inv_rows d m Hi).
  - intros idx k v Hidx Hp. rewrite (add_row_index row m idx) by done.
    case_decide as E.
    + split.
      * intros [= <-]. exists row. split_and!; [|done|done]. apply stored_add; auto.
      * intros (r & Hr & Ek & ->). apply stored_add in Hr as [Hr| ->]; [|done|done|done].
        exfalso. assert (m !! k = Some (index_val d idx r)) as Hk.
        { apply (inv_index d m Hi idx); [done..|]. eauto. }
        rewrite E in Ek. destruct (index_key_inj d idx row r) as (_ & _ & Hpk).
        -- by eapply row_ok_canon.
        -- by eapply stored_canon.
        -- done.
        -- destruct (enforced idx row) eqn:He.
           ++ specialize (Huniq idx Hidx He). congruence.
           ++ destruct Hr as (_ & v & Hv & _). unfold row_key in Hv, Hfree. rewrite <- Hpk in Hv by done. congruence.
    + rewrite (inv_index d m Hi idx k v Hidx Hp). split.
      * intros (r & Hr & -> & ->). exists r. split_and!; [|done|done]. apply stored_add; auto.
      * intros (r & Hr & -> & ->). apply stored_add in Hr as [Hr| ->]; [|done|done|done]. eauto.
Qed.

Lemma stored_del row m r : stored d m row -> stored d (del_row row m) r <-> stored d m r /\ r <> row.
Proof.
  intros Hrow. unfold stored at 1. rewrite del_row_table by apply row_key_prefix. split.
  - intros (Hr & v & Hv & Hd). case_decide as E; [done|]. split; [split; eauto|]. congruence.
  - intros [Hr Hne]. pose proof Hr as (Hok & v & Hv & Hd). split; [done|]. exists v.
    rewrite decide_False; [done|]. intros E. by apply Hne, (stored_key_unique d m).
Qed.

Lemma table_inv_del row m : table_inv d m -> stored d m row -> table_inv d (del_row row m).
Proof.
  intros Hi Hrow. split.
  - intros k v Hk Hp. rewrite del_row_table in Hk by done. case_decide as E; [done|].
    by apply (inv_rows d m Hi).
  - intros idx k v Hidx Hp. rewrite (del_row_index row m idx) by done. case_decide as E.
    + split; [done|]. intros (r & Hr & Ek & ->). exfalso. apply stored_del in Hr as [Hr Hne]; [|done].
      apply Hne, (stored_pk_unique d m); [done..|].
      assert (m !! k = Some (index_val d idx r)) as H1 by (apply (inv_index d m Hi idx); eauto).
      assert (m !! k = Some (index_val d idx row)) as H2 by (apply (inv_index d m Hi idx); eauto).
      apply (index_entry_pk d idx); [by eapply stored_canon..|congruence|congruence].
    + rewrite (inv_index d m Hi idx k v Hidx Hp). split.
      * intros (r & Hr & -> & ->). exists r. split_and!; [|done|done]. apply stored_del; [done|].
        split; [done|]. by intros ->.
      * intros (r & Hr & -> & ->). apply stored_del in Hr as [Hr _]; [|done]. eauto.
Qed.

(** *** Moving a row's entries *)

Section move.
Context (old new : list any).

Definition same_entry (idx : IndexDesc) : Prop :=
  index_key d idx old = index_key d idx new /\ index_val d idx old = index_val d idx new.

(** The entries that change: the old key deleted, the new one written. *)
Definition move_entry (m : kvmap) (idx : IndexDesc) : kvmap :=
  if decide (same_entry idx) then m
  else <[index_key d idx new := index_val d idx new]> (delete (index_key d idx old) m).
Definition move_entries (idxs : list IndexDesc) (m : kvmap) : kvmap := foldl move_entry m idxs.

Lemma move_entry_ne m idx k : k <> index_key d idx old -> k <> index_key d idx new ->
  move_entry m idx !! k = m !! k.
Proof.
  intros H1 H2. unfold move_entry. case_decide; [done|].
  by rewrite lookup_insert_ne, lookup_delete_ne.
Qed.

Lemma move_entries_ne idxs m k :
  (forall idx, idx ∈ idxs -> ~ indexPrefix (tID d) (ixID idx) `prefix_of` k) ->
  move_entries idxs m !! k = m !! k.
Proof.
  revert m. induction idxs as [|idx idxs IH]; intros m Hk; [done|]. simpl. rewrite IH by set_solver.
  apply move_entry_ne; intros ->; eapply (Hk idx); [left|apply index_key_prefix|left|apply index_key_prefix].
Qed.

Lemma move_entries_eq idxs m idx k : idxs ⊆ tIndexes d -> NoDup idxs -> idx ∈ idxs ->
  indexPrefix (tID d) (ixID idx) `prefix_of` k ->
  move_entries idxs m !! k = move_entry m idx !! k.
Proof.
  intros Hsub Hnd. revert m Hsub. induction Hnd as [|x idxs Hx _ IH]; intros m Hsub Hin Hp;
    [by apply elem_of_nil in Hin|].
  assert (forall y, y ∈ tIndexes d -> indexPrefix (tID d) (ixID y) `prefix_of` k -> y = idx) as Hsame.
  { intros y Hy Hyp. apply (same_index y idx k); [done|by apply Hsub|done|done]. }
  assert (x ∈ tIndexes d) as Hxd by (apply Hsub; left).
  assert (idxs ⊆ tIndexes d) as Hsub' by (intros y Hy; apply Hsub; by right).
  simpl. apply elem_of_cons in Hin as [->|Hin].
  - apply move_entries_ne. intros y Hy Hyp. destruct Hx. by rewrite <- (Hsame y) by auto.
  - rewrite IH by done.
    assert (move_entry m x !! k = m !! k) as Hm.
    { apply move_entry_ne; intros ->; destruct Hx; rewrite (Hsame x) by
        (done || apply index_key_prefix); done. }
    unfold move_entry. case_decide; [done|].
    destruct (decide (index_key d idx new = k)) as [->|]; [by rewrite !lookup_insert_eq|].
    rewrite !lookup_insert_ne by done.
    destruct (decide (index_key d idx old = k)) as [->|]; [by rewrite !lookup_delete_eq|].
    by rewrite !lookup_delete_ne.
Qed.

Definition move_row (m : kvmap) : kvmap :=
  <[row_key d new := row_val d new]>
    ((if decide (row_key d new <> row_key d old) then delete (row_key d old) else id)
      (move_entries (tIndexes d) m)).

Lemma indexes_NoDup : NoDup (tIndexes d).
Proof. eapply NoDup_fmap_1, (wf_ixID d Hwf). Qed.

(** Moving is removing the old row and adding the new one. *)
Lemma move_row_lookup m k : table_inv d m -> stored d m old ->
  move_row m !! k = add_row new (del_row old m) !! k.
Proof.
  intros Hi Hold. unfold move_row.
  destruct (decide (tablePrefix (tID d) `prefix_of` k)) as [Hp|Hp].
  - rewrite add_row_table, del_row_table by done.
    assert (move_entries (tIndexes d) m !! k = m !! k) as Hm.
    { apply move_entries_ne. intros idx Hidx Hip.
      destruct (indexPrefix_disjoint (tID d) primaryIndexID (tID d) (ixID idx) k) as [_ E];
        auto using tID_uint64, ixID_uint64; [done|].
      pose proof (ixID_range d Hwf idx Hidx). unfold primaryIndexID in *. lia. }
    destruct (decide (k = row_key d new)) as [->|Hn]; [apply lookup_insert_eq|].
    rewrite lookup_insert_ne by done. case_decide as E; case_decide as E2; subst; unfold id.
    + apply lookup_delete_eq.
    + by rewrite lookup_delete_ne.
    + by destruct E.
    + done.
  - assert (row_key d new <> k) as H1 by (intros <-; by apply Hp, row_key_prefix).
    assert (row_key d old <> k) as H2 by (intros <-; by apply Hp, row_key_prefix).
    rewrite lookup_insert_ne by done.
    replace (((if decide _ then delete (row_key d old) else id) (move_entries (tIndexes d) m)) !! k)
      with (move_entries (tIndexes d) m !! k) by (case_decide; [by rewrite lookup_delete_ne|done]).
    destruct (decide (Exists (λ idx, indexPrefix (tID d) (ixID idx) `prefix_of` k) (tIndexes d)))
      as [(idx & Hidx & Hip)%Exists_exists|Hno].
    + rewrite (move_entries_eq _ _ idx) by (done || apply indexes_NoDup).
      rewrite (add_row_index new _ idx), (del_row_index old _ idx) by done.
      unfold move_entry. case_decide as Es.
      * destruct Es as [Ek Ev]. rewrite <- Ek, <- Ev. case_decide as Ec; [|done]. subst k.
        apply (inv_index d m Hi idx); [done|apply index_key_prefix|eauto].
      * case_decide as Ec; [subst; apply lookup_insert_eq|]. rewrite lookup_insert_ne by done.
        case_decide as Ec2; [subst; apply lookup_delete_eq|by apply lookup_delete_ne].
    + assert (forall idx, idx ∈ tIndexes d -> ~ indexPrefix (tID d) (ixID idx) `prefix_of` k) as Hni.
      { intros idx Hidx Hip. apply Hno, Exists_exists. eauto. }
      rewrite move_entries_ne by done. unfold add_row, del_row.
      rewrite lookup_insert_ne, add_entries_ne, lookup_delete_ne, del_entries_ne; try done.
      * intros idx Hidx ->. by apply (Hni idx), index_key_prefix.
      * intros idx Hidx ->. by apply (Hni idx), index_key_prefix.
Qed.

End move.

(** The invariant only depends on the table's own key space. *)
Lemma in_tableSpace i k : indexPrefix (tID d) i `prefix_of` k -> tableSpace (tID d) `prefix_of` k.
Proof. apply indexPrefix_space. Qed.

Lemma stored_ext m1 m2 r : (forall k, tableSpace (tID d) `prefix_of` k -> m1 !! k = m2 !! k) ->
  stored d m1 r -> stored d m2 r.
Proof.
  intros Hm (Hr & v & Hv & Hd). split; [done|]. exists v. rewrite <- Hm; [done|].
  eapply in_tableSpace, row_key_prefix.
Qed.

Lemma table_inv_ext m1 m2 : (forall k, tableSpace (tID d) `prefix_of` k -> m1 !! k = m2 !! k) ->
  table_inv d m1 -> table_inv d m2.
Proof.
  intros Hm Hi. split.
  - intros k v Hk Hp. apply (inv_rows d m1 Hi); [|done]. rewrite Hm; [done|by eapply in_tableSpace].
  - intros idx k v Hidx Hp. rewrite <- Hm by (by eapply in_tableSpace).
    rewrite (inv_index d m1 Hi idx k v Hidx Hp). split; intros (r & Hr & ?); exists r; (split; [|done]).
    + by apply (stored_ext m1).
    + apply (stored_ext m2); [|done]. intros. symmetry. auto.
Qed.

(** An empty table. *)
Lemma table_inv_empty m : (forall k, tableSpace (tID d) `prefix_of` k -> m !! k = None) -> table_inv d m.
Proof.
  intros Hm. split.
  - intros k v Hk Hp%in_tableSpace. rewrite Hm in Hk by done. done.
  - intros idx k v Hidx Hp. rewrite Hm by (by eapply in_tableSpace). split; [done|].
    intros (r & (_ & v' & Hv & _) & _). rewrite Hm in Hv; [done|]. eapply in_tableSpace, row_key_prefix.
Qed.

End upkeep.
