(* ===== verification/Dml.v ===== *)
(** * Row writes

    [identity.go]'s [fillIdentity] and the write paths of [dml.go]: one
    row's insert, update and delete inside a transaction, every index entry
    included. *)
From S2P Require Import Prelude GoVal GoStr Tuple KV Time Jsonb Types Catalog Rows Index Table Seq Upkeep.

Local Open Scope Z_scope.

(** ** The engine as the write paths see it *)

(** [occ] is the concurrent-writes mode, in which identity values come from
    the engine's allocators instead of the transaction; [CheckMemory] is the
    memory ceiling. *)
Class EngineOps (E : Type) := {
  e_occ : E -> bool;
  e_CheckMemory : M E unit;
  e_allocCounter : bytes -> Z -> M E Z;           (* key, start *)
  e_bumpCounterAllocTo : bytes -> Z -> M E unit;  (* key, next *)
}.

(** Counters are [uint64], an error is returned as an error, and the mode is
    fixed when the store is opened. *)
Class EngineLaws (E : Type) {eng : EngineOps E} := {
  e_alloc_uint64 key start e v e' : e_allocCounter key start e = (Ok v, e') -> uint64_ok v;
  e_alloc_no_panic key start e p e' : e_allocCounter key start e <> (Panic p, e');
  e_bump_no_panic key next e p e' : e_bumpCounterAllocTo key next e <> (Panic p, e');
  e_memory_no_panic e p e' : e_CheckMemory e <> (Panic p, e');
  occ_memory e o e' : e_CheckMemory e = (o, e') -> e_occ e' = e_occ e;
  occ_alloc key start e o e' : e_allocCounter key start e = (o, e') -> e_occ e' = e_occ e;
  occ_bump key next e o e' : e_bumpCounterAllocTo key next e = (o, e') -> e_occ e' = e_occ e;
}.

Section dml.
Context {E : Type} {eng : EngineOps E} {tx : Type} {kv : KV tx}.

Definition onE {A : Type} (m : M E A) : M (E * tx) A := λ s,
  let '(o, e) := m s.1 in (o, (e, s.2)).
Definition onTx {A : Type} (m : M tx A) : M (E * tx) A := λ s,
  let '(o, t) := m s.2 in (o, (s.1, t)).

Definition isOcc : M (E * tx) bool := λ s, (Ok (e_occ s.1), s).

(** ** Identity columns *)

Definition hasIdentity (d : TableDesc) : bool := existsb colIdentity (tColumns d).

Definition errIdentityExhausted : error := ENew (go "identity column exhausted").

(** One identity column: draw for NULL, or bump past an explicit value.
    Returns the value to use and whether it was drawn. *)
Definition fillIdentityCol (d : TableDesc) (c : Column) (v : any) : M (E * tx) (any * bool) :=
  let key := identitySeqKey (tID d) (colID c) in
  occ ← isOcc;
  if is_nil v then
    n ← (if (occ : bool) then onE (e_allocCounter key 1) else onTx (nextFromCounter key 1));
    if maxInt64 <? n then fail errIdentityExhausted else mret (AInt KInt64 n, true)
  else
    cv ← lift (coerce v TInt);
    match cv with
    | AInt KInt64 n =>
        _ ← (if 0 <=? n then
               if (occ : bool) then onE (e_bumpCounterAllocTo key (n + 1)) else onTx (bumpCounterTo key (n + 1))
             else mret ());
        mret (v, false)
    | _ => lift (Panic PTypeAssert)
    end.

Fixpoint fillIdentity_loop (d : TableDesc) (i : nat) (cols : list Column) (vals : list any) (drawn : list nat)
  : M (E * tx) (list any * list nat) :=
  match cols, vals with
  | c :: cols', v :: vals' =>
      if colIdentity c then
        '(v', dr) ← fillIdentityCol d c v;
        '(out, drawn') ← fillIdentity_loop d (S i) cols' vals' (if (dr : bool) then drawn ++ [i] else drawn);
        mret (v' :: out, drawn')
      else
        '(out, drawn') ← fillIdentity_loop d (S i) cols' vals' drawn;
        mret (v :: out, drawn')
  | _, _ => mret ([], drawn)
  end.

Definition fillIdentity (d : TableDesc) (vals : list any) : M (E * tx) (list any * list nat) :=
  if negb (hasIdentity d) || negb (bool_decide (length vals = length (tColumns d))) then mret (vals, [])
  else fillIdentity_loop d 0 (tColumns d) vals [].

Definition drawnRaced (occ : bool) (cols drawn : list nat) : bool :=
  occ && existsb (λ o, bool_decide (o ∈ cols)) drawn.

(** ** Insert *)

Definition errDupPK : error := ENew (go "duplicate primary key").
Definition errUnique : error := ENew (go "unique index violation").

(** The loop that computes the index entries and probes the unique ones. *)
Fixpoint insertEntries (d : TableDesc) (idxs : list IndexDesc) (row : list any) (drawn : list nat)
  : M (E * tx) (list (bytes * bytes)) :=
  match idxs with
  | [] => mret []
  | idx :: idxs' =>
      '(ek, ev, enf) ← lift (indexEntry d idx row);
      taken ← onTx (gets (kv_contains ek));
      occ ← isOcc;
      if enf && taken then
        fail (if drawnRaced occ (ixCols idx) drawn then ETxConflict else errUnique)
      else
        rest ← insertEntries d idxs' row drawn;
        mret ((ek, ev) :: rest)
  end.

Definition insertRow (d : TableDesc) (vals : list any) : M (E * tx) (list any) :=
  _ ← onE e_CheckMemory;
  '(vals, drawn) ← fillIdentity d vals;
  row ← lift (coerceRow d vals);
  key ← lift (pk ← pkValues d row; rowKey d pk);
  val ← lift (encodeRowValue d row);
  taken ← onTx (gets (kv_contains key));
  if (taken : bool) then
    occ ← isOcc;
    fail (if drawnRaced occ (tPKCols d) drawn then ETxConflict else errDupPK)
  else
    entries ← insertEntries d (tIndexes d) row drawn;
    _ ← for_each (λ '(ek, ev), onTx (kv_set ek ev)) entries;
    _ ← onTx (kv_set key val);
    mret row.

(** ** Update *)

Definition errNoColumn : error := ENew (go "no such column").

(** The SET list as the loop ranges over it: Go visits a map's entries in
    any order, each column name once. *)
Fixpoint applySet (d : TableDesc) (set : list (bytes * any)) (newVals : list any) : outcome (list any) :=
  match set with
  | [] => Ok newVals
  | (col, v) :: set' =>
      match ColIndex d col with
      | None => Err errNoColumn
      | Some ord =>
          c ← at_index (tColumns d) ord;
          cv ← coerceCol d ord c v;
          newVals' ← set_index newVals ord cv;
          applySet d set' newVals'
      end
  end.

(** The index entries that change: old key, new key and value. *)
Fixpoint updateMoves (d : TableDesc) (idxs : list IndexDesc) (oldRow newVals : list any)
  : M tx (list (bytes * bytes * bytes)) :=
  match idxs with
  | [] => mret []
  | idx :: idxs' =>
      '(ok, ov, _) ← lift (indexEntry d idx oldRow);
      '(nk, nv, enf) ← lift (indexEntry d idx newVals);
      taken ← gets (kv_contains nk);
      if decide (ok = nk /\ ov = nv) then updateMoves d idxs' oldRow newVals
      else if enf && bool_decide (nk <> ok) && taken then fail errUnique
      else
        rest ← updateMoves d idxs' oldRow newVals;
        mret ((ok, nk, nv) :: rest)
  end.

(** [None] is a missing row. *)
Definition updateRow (d : TableDesc) (pkVals : list any) (set : list (bytes * any))
  : M tx (option (list any)) :=
  oldKey ← lift (fullPKKey d pkVals);
  _ ← modify (kv_mark_read oldKey);
  oldVal ← gets (kv_get oldKey);
  match oldVal with
  | None => mret None
  | Some oldVal =>
      oldRow ← lift (decodeRow d oldKey oldVal);
      newVals ← lift (applySet d set (rVals oldRow));
      newKey ← lift (pk ← pkValues d newVals; rowKey d pk);
      newVal ← lift (encodeRowValue d newVals);
      taken ← gets (kv_contains newKey);
      if bool_decide (newKey <> oldKey) && taken then fail errDupPK
      else
        moves ← updateMoves d (tIndexes d) (rVals oldRow) newVals;
        _ ← for_each (λ '(ok, nk, nv), kv_delete ok ≫= λ _, kv_set nk nv) moves;
        _ ← (if decide (newKey <> oldKey) then kv_delete oldKey ≫= λ _, mret () else mret ());
        _ ← kv_set newKey newVal;
        mret (Some newVals)
  end.

(** ** Delete *)

Definition deleteRow (d : TableDesc) (pkVals : list any) : M tx bool :=
  key ← lift (fullPKKey d pkVals);
  _ ← modify (kv_mark_read key);
  val ← gets (kv_get key);
  match val with
  | None => mret false
  | Some val =>
      _ ← (if decide (0 < length (tIndexes d))%nat then
             row ← lift (decodeRow d key val);
             for_each (λ idx, '(ek, _, _) ← lift (indexEntry d idx (rVals row));
                              kv_delete ek ≫= λ _, mret ()) (tIndexes d)
           else mret ());
      kv_delete key
  end.

(** [Engine.Get] inside its view. *)
Definition getRow (d : TableDesc) (pkVals : list any) (t : tx) : outcome (option Row) :=
  key ← fullPKKey d pkVals;
  match kv_get key t with
  | None => Ok None
  | Some val => Some <$> decodeRow d key val
  end.

End dml.

(** ** Frames *)

(** Only identity counters of the table differ. *)
Definition identity_only (d : TableDesc) (m m' : kvmap) : Prop :=
  forall k, ~ identitySeqTablePrefix (tID d) `prefix_of` k -> m' !! k = m !! k.

#[export] Instance identity_only_preorder d : PreOrder (identity_only d).
Proof.
  split; [by intros m k|]. intros m1 m2 m3 H1 H2 k Hk. by rewrite H2, H1.
Qed.

Lemma int64_user t : firstUserTableID <= t < 2 ^ 64 -> int64 t <> 2.
Proof.
  unfold firstUserTableID, int64. intros Ht. destruct (Z.lt_ge_cases t (2 ^ 63)).
  - rewrite Z.mod_small; lia.
  - replace (t + 2 ^ 63) with (t - 2 ^ 63 + 1 * 2 ^ 64) by lia. rewrite Z.mod_add, Z.mod_small; lia.
Qed.

Lemma identity_not_table d k : desc_wf d -> tableSpace (tID d) `prefix_of` k ->
  ~ identitySeqTablePrefix (tID d) `prefix_of` k.
Proof.
  intros Hwf [r ->] [r' E]. rewrite tableSpace_elems, identitySeqTablePrefix_elems in E.
  change (elems [kint 2; ?b; ?c]) with (elems [kint 2] ++ elems [b; c]) in E. rewrite <- app_assoc in E.
  apply elems_app_inj in E as [[= E] _]; [|done|repeat constructor; apply int64_range|].
  - by apply (int64_user (tID d)) in E; [|apply Hwf].
  - repeat constructor; simpl; unfold int64_ok; lia.
Qed.

Lemma identitySeqKey_prefix t c : uint32_ok c ->
  identitySeqTablePrefix t `prefix_of` identitySeqKey t c.
Proof.
  intros Hc. rewrite identitySeqTablePrefix_elems, identitySeqKey_elems by done.
  exists (elems [kint c]). by rewrite <- elems_app.
Qed.

Lemma identity_only_insert d m c v : uint32_ok c -> identity_only d m (<[identitySeqKey (tID d) c := v]> m).
Proof.
  intros Hc k Hk. apply lookup_insert_ne. intros <-. by apply Hk, identitySeqKey_prefix.
Qed.

Section laws.
Context {E : Type} {eng : EngineOps E} {eng_laws : EngineLaws E}.
Context {tx : Type} {kv : KV tx} {kv_laws : KVLaws tx}.

Lemma wp_onTx {A : Type} (m : M tx A) Q (e : E) t :
  wp m (λ o t', Q o (e, t')) t -> wp (onTx m) Q (e, t).
Proof. unfold wp, onTx. cbn [fst snd]. by destruct (m t). Qed.
Lemma wp_onE {A : Type} (m : M E A) Q e (t : tx) :
  (forall o e', m e = (o, e') -> Q o (e', t)) -> wp (onE m) Q (e, t).
Proof. unfold wp, onE. cbn [fst snd]. destruct (m e) eqn:Em. intros H. by apply H. Qed.
Lemma wp_isOcc Q (s : E * tx) : Q (Ok (e_occ s.1)) s -> wp isOcc Q s.
Proof. done. Qed.

(** *** Identity columns *)

Section identity.
Context (d : TableDesc) (Hwf : desc_wf d).

(** What filling leaves alone, whatever its outcome. *)
Definition filled (t : tx) (s' : E * tx) : Prop :=
  identity_only d (kv_map t) (kv_map s'.2) /\ kv_writable s'.2 = kv_writable t.

Lemma filled_refl t e : filled t (e, t).
Proof. split; [reflexivity|done]. Qed.

Lemma filled_write c v e t t' : uint32_ok (colID c) ->
  writes (insert (identitySeqKey (tID d) (colID c)) v) t t' -> filled t (e, t').
Proof.
  intros Hc Hws. split; cbn [snd].
  - rewrite (writes_map _ _ _ Hws). by apply identity_only_insert.
  - by rewrite (writes_writable _ _ _ Hws).
Qed.

(** An outcome of filling: no panic, and values of Go types. *)
Definition fill_ok {A : Type} (ok : A -> Prop) (t : tx) (o : outcome A) (s' : E * tx) : Prop :=
  filled t s' /\ match o with Ok a => ok a | Err _ => True | Panic _ => False end.

Lemma fillIdentityCol_wp c v e t : uint32_ok (colID c) -> any_ok v ->
  wp (fillIdentityCol d c v) (fill_ok (λ r, any_ok r.1) t) (e, t).
Proof.
  intros Hc Hv. unfold fillIdentityCol. apply wp_bind, wp_isOcc. cbn [seqQ fst].
  destruct (is_nil v) eqn:Hn.
  - assert (forall n s', uint64_ok n -> filled t s' ->
      wp (if maxInt64 <? n then fail errIdentityExhausted else mret (AInt KInt64 n, true))
        (fill_ok (λ r : any * bool, any_ok r.1) t) s') as Hfin.
    { intros n s' Hu Hf. unfold uint64_ok, maxInt64 in *.
      destruct (Z.ltb_spec (2 ^ 63 - 1) n); [by apply wp_fail|]. apply wp_ret. split; [done|]. simpl. lia. }
    apply wp_bind. destruct (e_occ e).
    + apply wp_onE. intros [n|e'|p] e2 Ha; cbn [seqQ].
      * apply e_alloc_uint64 in Ha. apply Hfin; [done|apply filled_refl].
      * split; [apply filled_refl|done].
      * by apply e_alloc_no_panic in Ha.
    + apply wp_onTx. eapply wp_mono; [apply wp_nextFromCounter|]. intros [n|e'|p] t' H; cbn [seqQ].
      * destruct H as (_ & Hp & _ & Hws). apply Hfin; [|by eapply filled_write].
        by eapply position_range in Hp.
      * subst. split; [apply filled_refl|done].
      * done.
  - apply wp_bind_lift. destruct (coerce v TInt) as [cv|e'|p] eqn:Ec; cbn [seqQ].
    + apply coerce_typed in Ec; [|done]. rewrite Hn in Ec. destruct cv as [| |[] n| | | | | | | |]; try done.
      apply wp_bind. destruct (0 <=? n); [|by apply wp_ret; cbn [seqQ]; apply wp_ret; split; [apply filled_refl|]].
      destruct (e_occ e).
      * apply wp_onE. intros [[]|e'|p] e2 Ha; cbn [seqQ]; try (by split; [apply filled_refl|]).
        by apply e_bump_no_panic in Ha.
      * apply wp_onTx. eapply wp_mono; [apply wp_bumpCounterTo|]. intros [[]|e'|p] t' H; cbn [seqQ]; [|by subst|done].
        destruct H as (cur & _ & Hb). apply wp_ret. split; [|done].
        destruct (n + 1 <=? cur); [subst; apply filled_refl|]. destruct Hb as [Hw Hws]. by eapply filled_write.
    + split; [apply filled_refl|done].
    + by apply coerce_no_panic in Ec.
Qed.

Lemma filled_trans t1 t2 e2 s3 : filled t1 (e2, t2) -> filled t2 s3 -> filled t1 s3.
Proof. intros [H1 W1] [H2 W2]. split; [by etransitivity|]. by rewrite W2. Qed.

Lemma fillIdentity_loop_wp i cols vals drawn e t : Forall (λ c, uint32_ok (colID c)) cols ->
  Forall any_ok vals ->
  wp (fillIdentity_loop d i cols vals drawn) (fill_ok (λ r, Forall any_ok r.1) t) (e, t).
Proof.
  intros Hc. revert i vals drawn e t. induction Hc as [|c cols Hc _ IH]; intros i vals drawn e t Hv.
  { apply wp_ret. split; [apply filled_refl|constructor]. }
  destruct Hv as [|v vals Hv Hvs]; [apply wp_ret; split; [apply filled_refl|constructor]|].
  cbn [fillIdentity_loop].
  assert (forall v' drawn' e' t', any_ok v' -> filled t (e', t') ->
    wp ('(out, drawn'') ← fillIdentity_loop d (S i) cols vals drawn'; mret (v' :: out, drawn''))
      (fill_ok (λ r, Forall any_ok r.1) t) (e', t')) as Hrest.
  { intros v' drawn' e' t' Hv' Hf. apply wp_bind. eapply wp_mono; [by apply IH|].
    intros [[out dr]|e2|p] [e3 t3] [Hf3 Hok]; cbn [seqQ]; [apply wp_ret| |done];
      (split; [by eapply filled_trans|]); [by constructor|done]. }
  destruct (colIdentity c); [|by apply Hrest, filled_refl].
  apply wp_bind. eapply wp_mono; [by apply fillIdentityCol_wp|].
  intros [[v' dr]|e2|p] [e3 t3] [Hf3 Hok]; cbn [seqQ]; [by apply Hrest|done|done].
Qed.

Lemma fillIdentity_wp vals e t : Forall any_ok vals ->
  wp (fillIdentity d vals) (fill_ok (λ r, Forall any_ok r.1) t) (e, t).
Proof.
  intros Hv. unfold fillIdentity. destruct (_ || _).
  - apply wp_ret. split; [apply filled_refl|done].
  - apply fillIdentity_loop_wp; [apply Hwf|done].
Qed.

End identity.

(** *** Insert *)

Section insert.
Context (d : TableDesc) (Hwf : desc_wf d).

(** The unique entries of [row] are free. *)
Definition entries_free (m : kvmap) (idxs : list IndexDesc) (row : list any) : Prop :=
  forall idx, idx ∈ idxs -> enforced idx row = true -> m !! index_key d idx row = None.

Lemma insertEntries_wp idxs row nrow drawn e t : idxs ⊆ tIndexes d ->
  length row = length (tColumns d) -> Forall any_ok row -> normals row = Ok nrow ->
  wp (insertEntries d idxs row drawn) (λ o s', s' = (e, t) /\
    match o with
    | Ok entries => entries = (λ idx, (index_key d idx nrow, index_val d idx nrow)) <$> idxs /\
        entries_free (kv_map t) idxs nrow
    | Err er => (e_occ e = false -> er = errUnique) /\ ~ entries_free (kv_map t) idxs nrow
    | Panic _ => False
    end) (e, t).
Proof.
  intros Hsub Hl Hok Hn. induction idxs as [|idx idxs IH].
  { apply wp_ret. split_and!; [done..|]. by intros idx ?%elem_of_nil. }
  assert (idx ∈ tIndexes d) as Hidx by (apply Hsub; left).
  cbn [insertEntries]. apply wp_bind_lift. rewrite (indexEntry_written d Hwf idx Hidx row nrow) by done.
  cbn [seqQ]. apply wp_bind, wp_onTx, wp_gets. cbn [seqQ]. apply wp_bind, wp_isOcc. cbn [seqQ].
  destruct (enforced idx nrow && kv_contains (index_key d idx nrow) t) eqn:Et.
  - apply andb_true_iff in Et as [He Hc]. apply wp_fail. split_and!; [done|by cbn [fst]; intros ->|].
    intros Hf. apply kv_contains_true in Hc as [v Hv]. specialize (Hf idx (list_elem_of_here _ _) He). congruence.
  - apply wp_bind. eapply wp_mono; [apply IH; set_solver|].
    intros [entries|er|p] s' [-> H]; cbn [seqQ]; [apply wp_ret| |done]; (split; [done|]).
    + destruct H as [-> Hf]. split; [done|]. intros x [->|Hx]%elem_of_cons He; [|by apply Hf].
      rewrite He in Et. cbn [andb] in Et. by apply kv_contains_false.
    + destruct H as [He Hf]. split; [done|]. intros Hf'. apply Hf. intros x Hx. apply Hf'. by right.
Qed.

Lemma set_entries_wp idxs nrow e t :
  wp (for_each (λ '(ek, ev), onTx (kv_set ek ev))
       ((λ idx, (index_key d idx nrow, index_val d idx nrow)) <$> idxs)) (λ o (s' : E * tx), s'.1 = e /\
    if kv_writable t then o = Ok tt /\ writes (add_entries d nrow idxs) t s'.2
    else s'.2 = t /\ (forall p, o <> Panic p)) (e, t).
Proof.
  destruct (kv_writable t) eqn:Hw.
  - revert t Hw. induction idxs as [|idx idxs IH]; intros t Hw.
    { apply wp_ret. split_and!; [done..|]. apply writes_id. }
    csimpl. cbn [for_each]. apply wp_bind, wp_onTx, wp_set. rewrite Hw. intros t1 H1. cbn [seqQ].
    eapply wp_mono; [apply IH; by rewrite (writes_writable _ _ _ H1)|].
    intros o s' (He & Ho & H2). split_and!; [done..|]. exact (writes_comp _ _ _ _ _ H1 H2).
  - destruct idxs as [|idx idxs]; [by apply wp_ret|].
    csimpl. cbn [for_each]. apply wp_bind, wp_onTx, wp_set. rewrite Hw. done.
Qed.

(** What a successful insert of the normalized row [nrow] does. *)
Record inserted (m m' : kvmap) (nrow : list any) : Prop := {
  ins_ok : row_ok d nrow;
  ins_fresh : m !! row_key d nrow = None;
  ins_unique : entries_free m (tIndexes d) nrow;
  ins_map k : ~ identitySeqTablePrefix (tID d) `prefix_of` k -> m' !! k = add_row d nrow m !! k;
}.

Lemma insertRow_wp vals e t : Forall any_ok vals ->
  wp (insertRow d vals) (λ o s',
    match o with
    | Ok row => exists nrow, normals row = Ok nrow /\ inserted (kv_map t) (kv_map s'.2) nrow
    | Err _ => identity_only d (kv_map t) (kv_map s'.2)
    | Panic _ => False
    end) (e, t).
Proof.
  intros Hv. unfold insertRow. apply wp_bind, wp_onE. intros [[]|er|p] e1 Hm; cbn [seqQ fst snd];
    [|reflexivity|by apply e_memory_no_panic in Hm].
  apply wp_bind. eapply wp_mono; [by apply fillIdentity_wp|].
  intros [[vals' drawn]|er|p] [e2 t2] [[Hid Hw] Hok]; cbn [seqQ fst snd]; [|done|done].
  apply wp_bind_lift. destruct (coerceRow d vals') as [row|er|p] eqn:Er; cbn [seqQ fst snd];
    [|done|by apply coerceRow_no_panic in Er].
  pose proof (coerceRow_typed d Hwf vals' row Hok Er) as Ht.
  pose proof (row_typed_any_ok d row Ht) as Hany.
  apply wp_bind_lift. destruct (pk ← pkValues d row; rowKey d pk) as [key|er|p] eqn:Ek; cbn [seqQ fst snd]; [|done|].
  2: { rewrite pkValues_pkOf in Ek by (done || apply Ht). cbn [mbind outcome_bind] in Ek. unfold rowKey in Ek.
       by apply Append_no_panic in Ek; [|apply pkOf_any_ok]. }
  apply wp_bind_lift. destruct (encodeRowValue d row) as [val|er|p] eqn:Ev; cbn [seqQ fst snd]; [|done|].
  2: { by eapply (encodeRowValue_no_panic d Hwf) in Ev; [|apply Ht|]. }
  destruct (written_inv d Hwf row key val) as [nrow Hn]; [apply Ht|done..|].
  pose proof (row_typed_normals d row nrow Ht Hn) as Hro.
  destruct (written_ok d Hwf row nrow) as (_ & Hk' & Hv'); [apply Ht|done|done|].
  assert (key = row_key d nrow) as -> by congruence. assert (val = row_val d nrow) as -> by congruence.
  assert (forall k, tableSpace (tID d) `prefix_of` k -> kv_map t2 !! k = kv_map t !! k) as Hsame.
  { intros k Hk. apply Hid. by apply identity_not_table. }
  apply wp_bind, wp_onTx, wp_gets. cbn [seqQ]. destruct (kv_contains (row_key d nrow) t2) eqn:Ec.
  { apply wp_bind, wp_isOcc. cbn [seqQ]. by apply wp_fail. }
  apply kv_contains_false in Ec.
  apply wp_bind. eapply wp_mono; [by apply (insertEntries_wp (tIndexes d) row nrow); [|apply Ht|..]|].
  intros [entries|er|p] s' [-> H]; cbn [seqQ fst snd]; [|done|done]. destruct H as [-> Hfree].
  apply wp_bind. eapply wp_mono; [apply set_entries_wp|]. intros o [e3 t3] [_ H]. cbn [snd] in H.
  destruct (kv_writable t2) eqn:Hw2.
  - destruct H as [-> H3]. cbn [seqQ]. apply wp_bind, wp_onTx, wp_set.
    rewrite (writes_writable _ _ _ H3), Hw2. intros t4 H4. cbn [seqQ]. apply wp_ret.
    exists nrow. split; [done|]. cbn [snd].
    pose proof (writes_comp _ _ _ _ _ H3 H4) as H34. apply writes_map in H34.
    split; [done| | |].
    + rewrite <- Hsame; [done|]. eapply in_tableSpace, row_key_prefix.
    + intros idx Hidx He. rewrite <- Hsame; [by apply Hfree|]. eapply in_tableSpace, index_key_prefix.
    + intros k Hk. rewrite H34. apply (add_row_ext d nrow). by apply Hid.
  - destruct H as [-> H]. destruct o as [[]|er|p]; cbn [seqQ fst snd]; [|done|by eapply H].
    apply wp_bind, wp_onTx, wp_set. rewrite Hw2. done.
Qed.
(** The row the caller gets back is typed, though not yet normalized. *)
Lemma insertRow_typed vals e t : Forall any_ok vals -> wp (insertRow d vals) (λ o _, match o with Ok row => row_typed d row | _ => True end) (e, t).
Proof.
  intros Hv. unfold insertRow. apply wp_bind, wp_onE. intros [[]|er|p] e1 _; cbn [seqQ]; [|done..].
  apply wp_bind. eapply wp_mono; [by apply fillIdentity_wp|]. intros [[vals' drawn]|er|p] [e2 t2] [_ Hok]; cbn [seqQ]; [|done..].
  apply wp_bind_lift. destruct (coerceRow d vals') as [row|er|p] eqn:Er; cbn [seqQ]; [|done..].
  pose proof (coerceRow_typed d Hwf vals' row Hok Er) as Ht. unfold wp, mbind, M_bind, lift, fail, mret, M_ret.
  repeat (case_match; cbn [fst] in *; simplify_eq; try done).
Qed.

End insert.

(** *** Keys given by the caller *)

Section keys.
Context (d : TableDesc) (Hwf : desc_wf d).

Lemma coercePK_no_panic pk vals p : Forall (λ o, o < length (tColumns d))%nat pk ->
  (length vals <= length pk)%nat -> coercePK_loop d pk vals <> Panic p.
Proof.
  intros Hpk. revert vals. induction Hpk as [|o pk Ho _ IH]; intros [|v vals] Hl; simpl in *; [done|lia|done|].
  unfold at_index. destruct (lookup_lt_is_Some_2 _ _ Ho) as [c ->]. simpl.
  destruct (coerce v (colType c)) as [cv|e|q] eqn:Ec; simpl; [|done|by apply coerce_no_panic in Ec].
  destruct (is_nil cv); [done|]. specialize (IH vals ltac:(lia)). revert IH.
  by destruct (coercePK_loop d pk vals); simpl; congruence.
Qed.

Lemma fullPKKey_no_panic pkVals p : Forall any_ok pkVals -> fullPKKey d pkVals <> Panic p.
Proof.
  intros Hok. unfold fullPKKey. destruct (decide _) as [|Hl]; [done|].
  destruct (coercePK d pkVals) as [cs|e|q] eqn:Ec; simpl; [|done|].
  - apply Append_no_panic. by apply (coercePK_any_ok d _ _ _ Hok Ec).
  - apply coercePK_no_panic in Ec; [done|apply Hwf|lia].
Qed.

Lemma fullPKKey_prefix pkVals key : Forall any_ok pkVals -> fullPKKey d pkVals = Ok key ->
  tablePrefix (tID d) `prefix_of` key.
Proof.
  intros Hok. unfold fullPKKey. destruct (decide _) as [|Hl]; [done|].
  intros (cs & Ec & Hk)%outcome_bind_ok. unfold rowKey in Hk.
  rewrite Append_spec in Hk by (by apply (coercePK_any_ok d _ _ _ Hok Ec)).
  apply outcome_bind_ok in Hk as (ns & _ & [= <-]). by eexists.
Qed.

(** The row a caller's key names, if there is one. *)
Lemma get_stored m pkVals key v : table_inv d m -> Forall any_ok pkVals ->
  fullPKKey d pkVals = Ok key -> m !! key = Some v ->
  exists row, stored d m row /\ key = row_key d row /\ decodeRow d key v = Ok (mkRow d row).
Proof. intros Hi Hok Hk Hv. apply inv_stored; [done..|]. by eapply fullPKKey_prefix. Qed.

End keys.

(** *** Update *)

Section update.
Context (d : TableDesc) (Hwf : desc_wf d).

Lemma ColIndex_column name i : ColIndex d name = Some i ->
  exists c, tColumns d !! i = Some c /\ colName c = name.
Proof.
  unfold ColIndex. destruct (list_find _ _) as [[j c]|] eqn:Ef; simpl; [|done]. intros [= <-].
  apply list_find_Some in Ef as (? & ? & _). eauto.
Qed.

Lemma applySet_typed set vals r : Forall any_ok set.*2 -> row_typed d vals ->
  applySet d set vals = Ok r -> row_typed d r.
Proof.
  revert vals. induction set as [|[col v] set IH]; intros vals Hok Hv; [by intros [= <-]|].
  csimpl in Hok. apply Forall_cons in Hok as [Hvok Hok]. cbn [applySet].
  destruct (ColIndex d col) as [ord|] eqn:Ei; [|done]. apply ColIndex_column in Ei as (c & Hc & _).
  unfold at_index. rewrite Hc. cbn [mbind outcome_bind].
  intros (cv & Hcv & (vals' & Hset & Hr)%outcome_bind_ok)%outcome_bind_ok.
  unfold set_index in Hset. destruct (decide _) as [Hlt|]; simplify_eq.
  eapply IH; [done| |done]. destruct Hv as [Hl Hcell]. split; [by rewrite length_insert|].
  intros i c' w Hi Hw. destruct (decide (i = ord)) as [->|Hne].
  - rewrite list_lookup_insert_eq in Hw by done. simplify_eq.
    eapply coerceCol_ok; [|done|done]. pose proof (wf_maxlen d Hwf) as Hm. by eapply Forall_lookup_1 in Hm.
  - rewrite list_lookup_insert_ne in Hw by done. by eapply Hcell.
Qed.

Lemma applySet_no_panic set vals p : length vals = length (tColumns d) -> applySet d set vals <> Panic p.
Proof.
  revert vals. induction set as [|[col v] set IH]; intros vals Hl; [done|]. cbn [applySet].
  destruct (ColIndex d col) as [ord|] eqn:Ei; [|done]. apply ColIndex_column in Ei as (c & Hc & _).
  unfold at_index. rewrite Hc. cbn [mbind outcome_bind].
  destruct (coerceCol d ord c v) as [cv|e|q] eqn:Ec; cbn [mbind outcome_bind];
    [|done|by apply coerceCol_no_panic in Ec].
  unfold set_index. apply lookup_lt_Some in Hc. rewrite decide_True by lia. cbn [mbind outcome_bind].
  apply IH. by rewrite length_insert.
Qed.

Definition moves_of (old new : list any) (idxs : list IndexDesc) : list (bytes * bytes * bytes) :=
  (λ idx, (index_key d idx old, index_key d idx new, index_val d idx new)) <$>
    filter (λ idx, ~ same_entry d old new idx) idxs.

Lemma updateMoves_wp idxs old newVals new t : idxs ⊆ tIndexes d -> row_canon d old ->
  length newVals = length (tColumns d) -> Forall any_ok newVals -> normals newVals = Ok new ->
  wp (updateMoves d idxs old newVals) (λ o t', t' = t /\
    match o with
    | Ok moves => moves = moves_of old new idxs /\
        forall idx, idx ∈ idxs -> enforced idx new = true ->
          index_key d idx new <> index_key d idx old -> kv_map t !! index_key d idx new = None
    | Err _ => True
    | Panic _ => False
    end) t.
Proof.
  intros Hsub Hold Hl Hok Hn. induction idxs as [|idx idxs IH].
  { apply wp_ret. split_and!; [done..|]. by intros idx ?%elem_of_nil. }
  assert (idx ∈ tIndexes d) as Hidx by (apply Hsub; left).
  assert (idxs ⊆ tIndexes d) as Hsub' by (intros y Hy; apply Hsub; by right).
  cbn [updateMoves]. apply wp_bind_lift. rewrite (indexEntry_canon d Hwf idx Hidx old) by done. cbn [seqQ].
  apply wp_bind_lift. rewrite (indexEntry_written d Hwf idx Hidx newVals new) by done. cbn [seqQ].
  apply wp_bind, wp_gets. cbn [seqQ]. unfold moves_of. rewrite filter_cons.
  case_decide as Es.
  - rewrite decide_False by (by intros []). eapply wp_mono; [by apply IH|].
    intros [moves|e|p] t' [-> H]; (split; [done|]); [|done|done]. destruct H as [-> Hf]. split; [done|].
    intros x [->|Hx]%elem_of_cons He Hne; [|by apply Hf]. by destruct Es as [E' _].
  - rewrite decide_True by done.
    destruct (enforced idx new && bool_decide (index_key d idx new <> index_key d idx old)
      && kv_contains (index_key d idx new) t) eqn:Et; [by apply wp_fail|].
    apply wp_bind. eapply wp_mono; [by apply IH|].
    intros [moves|e|p] t' [-> H]; cbn [seqQ]; [apply wp_ret| |done]; (split; [done|]); [|done].
    destruct H as [-> Hf]. split; [done|]. intros x [->|Hx]%elem_of_cons He Hne; [|by apply Hf].
    rewrite He, bool_decide_true in Et by done. cbn [andb] in Et. by apply kv_contains_false.
Qed.

Lemma apply_moves_wp old new idxs t :
  wp (for_each (λ '(ok, nk, nv), kv_delete ok ≫= λ _, kv_set nk nv) (moves_of old new idxs)) (λ o t',
    if kv_writable t then o = Ok tt /\ writes (move_entries d old new idxs) t t'
    else t' = t /\ (forall p, o <> Panic p)) t.
Proof.
  destruct (kv_writable t) eqn:Hw.
  - revert t Hw. induction idxs as [|idx idxs IH]; intros t Hw.
    { apply wp_ret. split; [done|]. apply writes_id. }
    unfold moves_of. rewrite filter_cons. destruct (decide (~ same_entry d old new idx)) as [Hs|Hs].
    + csimpl. cbn [for_each]. apply wp_bind, wp_bind, wp_delete. rewrite Hw. intros t1 H1. cbn [seqQ].
      apply wp_set. rewrite (writes_writable _ _ _ H1), Hw. intros t2 H2. cbn [seqQ].
      eapply wp_mono; [apply IH; by rewrite (writes_writable _ _ _ H2), (writes_writable _ _ _ H1)|].
      intros o t' [Ho H3]. split; [done|].
      pose proof (writes_comp _ _ _ _ _ (writes_comp _ _ _ _ _ H1 H2) H3) as H123.
      unfold writes in *. rewrite H123. unfold with_map. f_equal. simpl. f_equal. unfold move_entry.
      by rewrite decide_False.
    + eapply wp_mono; [by apply IH|]. intros o t' [Ho H1]. split; [done|].
      unfold writes in *. rewrite H1. unfold with_map. f_equal. simpl. f_equal. unfold move_entry.
      rewrite decide_True; [done|]. by apply dec_stable.
  - destruct (moves_of old new idxs) as [|[[ok nk] nv] l]; [by apply wp_ret|].
    cbn [for_each]. apply wp_bind, wp_bind, wp_delete. rewrite Hw. done.
Qed.

(** What a successful update of [old] to the normalized row [new] does. *)
Record updated (m m' : kvmap) (old new : list any) : Prop := {
  upd_old : stored d m old;
  upd_ok : row_ok d new;
  upd_key : row_key d new = row_key d old \/ m !! row_key d new = None;
  upd_unique idx : idx ∈ tIndexes d -> enforced idx new = true ->
    index_key d idx new = index_key d idx old \/ m !! index_key d idx new = None;
  upd_map : m' = move_row d old new m;
}.

Lemma updateRow_wp pkVals set t : table_inv d (kv_map t) ->
  Forall any_ok pkVals -> Forall any_ok set.*2 ->
  wp (updateRow d pkVals set) (λ o t',
    match o with
    | Ok None => kv_map t' = kv_map t /\
        exists key, fullPKKey d pkVals = Ok key /\ kv_map t !! key = None
    | Ok (Some newVals) => exists old new, fullPKKey d pkVals = Ok (row_key d old) /\
        applySet d set old = Ok newVals /\ normals newVals = Ok new /\
        updated (kv_map t) (kv_map t') old new
    | Err _ => kv_map t' = kv_map t
    | Panic _ => False
    end) t.
Proof.
  intros Hi Hpk Hset. unfold updateRow.
  apply wp_bind_lift. destruct (fullPKKey d pkVals) as [oldKey|e|p] eqn:Ek; cbn [seqQ];
    [|done|by apply fullPKKey_no_panic in Ek].
  apply wp_bind, wp_modify. cbn [seqQ]. set (t1 := kv_mark_read oldKey t).
  assert (kv_map t1 = kv_map t) as Hm1 by apply kv_mark_read_map.
  apply wp_bind, wp_gets. cbn [seqQ]. rewrite kv_get_map, Hm1.
  destruct (kv_map t !! oldKey) as [oldVal|] eqn:Eo; [|apply wp_ret; eauto].
  destruct (get_stored d _ _ _ _ Hi Hpk Ek Eo) as (old & Hold & -> & Hd).
  pose proof (stored_ok d _ _ Hold) as Hoko.
  apply wp_bind_lift. rewrite Hd. cbn [seqQ rVals].
  apply wp_bind_lift. destruct (applySet d set old) as [newVals|e|p] eqn:Ea; cbn [seqQ]; [|done|].
  2: { by apply applySet_no_panic in Ea; [|apply Hoko]. }
  pose proof (applySet_typed set old newVals Hset (proj1 Hoko) Ea) as Ht.
  pose proof (row_typed_any_ok d newVals Ht) as Hany.
  apply wp_bind_lift. destruct (pk ← pkValues d newVals; rowKey d pk) as [newKey|e|p] eqn:Enk; cbn [seqQ]; [|done|].
  2: { rewrite pkValues_pkOf in Enk by (done || apply Ht).
       by apply Append_no_panic in Enk; [|apply pkOf_any_ok]. }
  apply wp_bind_lift. destruct (encodeRowValue d newVals) as [newVal|e|p] eqn:Ev; cbn [seqQ]; [|done|].
  2: { by eapply (encodeRowValue_no_panic d Hwf) in Ev; [|apply Ht|]. }
  destruct (written_inv d Hwf newVals newKey newVal) as [new Hn]; [apply Ht|done..|].
  pose proof (row_typed_normals d newVals new Ht Hn) as Hro.
  destruct (written_ok d Hwf newVals new) as (_ & Hk' & Hv'); [apply Ht|done|done|].
  assert (newKey = row_key d new) as -> by congruence. assert (newVal = row_val d new) as -> by congruence.
  apply wp_bind, wp_gets. cbn [seqQ].
  destruct (bool_decide (row_key d new <> row_key d old) && kv_contains (row_key d new) t1) eqn:Et;
    [by apply wp_fail|].
  apply wp_bind. eapply wp_mono.
  { apply (updateMoves_wp (tIndexes d) old newVals new); [done|by eapply stored_canon|apply Ht|done|done]. }
  intros [moves|e|p] t' [-> H]; cbn [seqQ]; [|done|done]. destruct H as [-> Hfree].
  apply wp_bind. eapply wp_mono; [apply apply_moves_wp|]. intros o t2 H.
  destruct (kv_writable t1) eqn:Hw; [destruct H as [-> H2]|destruct H as [-> Hnp]].
  - cbn [seqQ]. apply wp_bind.
    apply wp_mono with (Q := λ o t3, o = Ok tt /\ writes ((if decide (row_key d new <> row_key d old)
      then delete (row_key d old) else id) ∘ move_entries d old new (tIndexes d)) t1 t3).
    { destruct (decide (row_key d new <> row_key d old)).
      - apply wp_bind, wp_delete. rewrite (writes_writable _ _ _ H2), Hw. intros t3 H3. cbn [seqQ]. apply wp_ret.
        split; [done|]. exact (writes_comp _ _ _ _ _ H2 H3).
      - by apply wp_ret. }
    intros o' t3 [-> H3]. cbn [seqQ]. apply wp_bind, wp_set. rewrite (writes_writable _ _ _ H3), Hw.
    intros t4 H4. cbn [seqQ]. apply wp_ret. exists old, new. split_and!; [done..|].
    pose proof (writes_comp _ _ _ _ _ H3 H4) as H34. apply writes_map in H34. rewrite Hm1 in H34. split; try done.
    + apply andb_false_iff in Et as [Et|Et]; [left; apply bool_decide_eq_false in Et; by apply dec_stable|].
      right. apply kv_contains_false in Et. by rewrite <- Hm1.
    + intros idx Hidx He. destruct (decide (index_key d idx new = index_key d idx old)); [by left|right].
      rewrite <- Hm1. by apply Hfree.
  - destruct o as [[]|e|p]; cbn [seqQ]; [|done|by eapply Hnp]. apply wp_bind.
    apply wp_mono with (Q := λ o t3, t3 = t1 /\ forall p, o <> Panic p).
    { destruct (decide _); [apply wp_bind, wp_delete; rewrite Hw; done|by apply wp_ret]. }
    intros [[]|e|p] t3 [-> Hn3]; cbn [seqQ]; [|done|by eapply Hn3]. apply wp_bind, wp_set. by rewrite Hw.
Qed.

End update.

(** *** Delete *)

Section delete.
Context (d : TableDesc) (Hwf : desc_wf d).

Lemma delete_entries_wp old idxs t : idxs ⊆ tIndexes d -> row_canon d old ->
  wp (for_each (λ idx, '(ek, _, _) ← lift (indexEntry d idx old); kv_delete ek ≫= λ _, mret ()) idxs)
    (λ o t', if kv_writable t then o = Ok tt /\ writes (del_entries d old idxs) t t'
             else t' = t /\ (forall p, o <> Panic p)) t.
Proof.
  intros Hsub Hold. destruct (kv_writable t) eqn:Hw.
  - revert t Hw. induction idxs as [|idx idxs IH]; intros t Hw.
    { apply wp_ret. split; [done|]. apply writes_id. }
    cbn [for_each]. apply wp_bind, wp_bind_lift.
    rewrite (indexEntry_canon d Hwf idx) by (done || apply Hsub; left). cbn [seqQ].
    apply wp_bind, wp_delete. rewrite Hw. intros t1 H1. cbn [seqQ]. apply wp_ret. cbn [seqQ].
    eapply wp_mono; [apply IH; [intros y Hy; apply Hsub; by right|by rewrite (writes_writable _ _ _ H1)]|].
    intros o t' [Ho H2]. split; [done|]. exact (writes_comp _ _ _ _ _ H1 H2).
  - destruct idxs as [|idx idxs]; [by apply wp_ret|]. cbn [for_each]. apply wp_bind, wp_bind_lift.
    rewrite (indexEntry_canon d Hwf idx) by (done || apply Hsub; left). cbn [seqQ].
    apply wp_bind, wp_delete. rewrite Hw. done.
Qed.

Lemma deleteRow_wp pkVals t : table_inv d (kv_map t) -> Forall any_ok pkVals ->
  wp (deleteRow d pkVals) (λ o t',
    match o with
    | Ok true => exists old, fullPKKey d pkVals = Ok (row_key d old) /\ stored d (kv_map t) old /\
        kv_map t' = del_row d old (kv_map t)
    | Ok false => kv_map t' = kv_map t /\
        exists key, fullPKKey d pkVals = Ok key /\ kv_map t !! key = None
    | Err _ => kv_map t' = kv_map t /\ (kv_writable t = true -> exists er, fullPKKey d pkVals = Err er)
    | Panic _ => False
    end) t.
Proof.
  intros Hi Hpk. unfold deleteRow.
  apply wp_bind_lift. destruct (fullPKKey d pkVals) as [key|e|p] eqn:Ek; cbn [seqQ];
    [|split; [done|by eexists]|by apply fullPKKey_no_panic in Ek].
  apply wp_bind, wp_modify. cbn [seqQ]. set (t1 := kv_mark_read key t).
  assert (kv_map t1 = kv_map t) as Hm1 by apply kv_mark_read_map.
  apply wp_bind, wp_gets. cbn [seqQ]. rewrite kv_get_map, Hm1.
  destruct (kv_map t !! key) as [val|] eqn:Eo; [|apply wp_ret; eauto].
  destruct (get_stored d _ _ _ _ Hi Hpk Ek Eo) as (old & Hold & -> & Hd).
  apply wp_bind. apply wp_mono with (Q := λ o t2,
    if kv_writable t1 then o = Ok tt /\ writes (del_entries d old (tIndexes d)) t1 t2
    else t2 = t1 /\ (forall p, o <> Panic p)).
  { case_decide as Hlen.
    - apply wp_bind_lift. rewrite Hd. cbn [seqQ rVals]. apply delete_entries_wp; [done|by eapply stored_canon].
    - apply wp_ret. destruct (tIndexes d); [|simpl in Hlen; lia].
      destruct (kv_writable t1); [|done]. split; [done|apply writes_id]. }
  intros o t2 H. destruct (kv_writable t1) eqn:Hw.
  - destruct H as [-> H2]. cbn [seqQ]. apply wp_delete. rewrite (writes_writable _ _ _ H2), Hw. intros t3 H3.
    assert (kv_contains (row_key d old) t2 = true) as ->.
    { apply kv_contains_true. rewrite (writes_map _ _ _ H2), Hm1. rewrite del_entries_ne; [eauto|done|].
      intros idx Hidx. apply row_key_not_index; [done..|]. apply row_key_prefix. }
    exists old. split_and!; [done..|]. pose proof (writes_comp _ _ _ _ _ H2 H3) as H23.
    apply writes_map in H23. by rewrite H23, Hm1.
  - assert (kv_writable t = false) as Hro by (unfold t1 in Hw; by rewrite kv_mark_read_writable in Hw).
    destruct H as [-> Hnp]. destruct o as [[]|e|p]; cbn [seqQ]; [|by rewrite Hro|by eapply Hnp].
    apply wp_delete. by rewrite Hw, Hro.
Qed.

End delete.

End laws.
