(* ===== verification/Relation.v ===== *)
(** * The relational contract

    What a table is to its users: a finite map from primary keys to rows,
    with unique indexes as constraints on it. [abstracts] relates it to the
    key space, and the theorems say that the row operations and the scans
    implement it: every outcome, successful or not, is the one the abstract
    operation gives, and the table's invariant is kept. *)
From S2P Require Import Prelude GoVal GoStr Tuple KV Time Jsonb Types Catalog Rows Index Table Seq Upkeep Dml.

Local Open Scope Z_scope.

(** ** The abstract table *)

Abbreviation table := (gmap (list any) (list any)).

(** Two rows with the same indexed values, none of them NULL. *)
Definition conflicts (idx : IndexDesc) (r1 r2 : list any) : bool :=
  enforced idx r1 && bool_decide (ixVals idx r1 = ixVals idx r2).

(** Some row of [T] other than [skip] forbids [row]. *)
Definition clash (d : TableDesc) (T : table) (skip : option (list any)) (row : list any) : bool :=
  existsb (λ idx, existsb (λ r, negb (bool_decide (Some r.2 = skip)) && conflicts idx row r.2) (map_to_list T))
    (tIndexes d).

Definition spec_insert (d : TableDesc) (T : table) (row : list any) : outcome table :=
  if decide (is_Some (T !! pkOf d row)) then Err errDupPK
  else if clash d T None row then Err errUnique
  else Ok (<[pkOf d row := row]> T).

Definition spec_update (d : TableDesc) (T : table) (old new : list any) : outcome table :=
  if decide (pkOf d new <> pkOf d old /\ is_Some (T !! pkOf d new)) then Err errDupPK
  else if clash d T (Some old) new then Err errUnique
  else Ok (<[pkOf d new := new]> (delete (pkOf d old) T)).

Definition spec_delete (T : table) (pk : list any) : table := delete pk T.

Section refinement.

(** The table a key space holds. *)
Record abstracts (d : TableDesc) (m : kvmap) (T : table) : Prop := {
  abs_stored row : stored d m row <-> T !! pkOf d row = Some row;
  abs_key pk row : T !! pk = Some row -> pk = pkOf d row;
}.

Section ops.
Context (d : TableDesc) (Hwf : desc_wf d).

Lemma abs_lookup m T pk row : abstracts d m T -> T !! pk = Some row <-> stored d m row /\ pkOf d row = pk.
Proof.
  intros Ha. split.
  - intros Hpk. pose proof (abs_key d m T Ha _ _ Hpk) as ->. split; [|done]. by apply (abs_stored d m T Ha).
  - intros [Hs <-]. by apply (abs_stored d m T Ha).
Qed.

Lemma abs_free m T row : table_inv d m -> abstracts d m T -> row_ok d row ->
  T !! pkOf d row = None <-> m !! row_key d row = None.
Proof.
  intros Hi Ha Hr. split; intros Hn.
  - destruct (m !! row_key d row) as [v|] eqn:E; [|done].
    destruct (inv_stored d m _ _ Hi E (row_key_prefix d row)) as (r & Hs & Hk & _).
    apply row_key_inj in Hk; [|done|by eapply stored_ok]. apply (abs_stored d m T Ha) in Hs. congruence.
  - destruct (T !! pkOf d row) as [r|] eqn:E; [|done].
    apply (abs_lookup m T _ _ Ha) in E as [Hs Hk]. destruct Hs as (_ & v & Hv & _).
    unfold row_key in *. congruence.
Qed.

Lemma conflicts_key idx r1 r2 : conflicts idx r1 r2 = true -> index_key d idx r1 = index_key d idx r2.
Proof.
  unfold conflicts. rewrite andb_true_iff, bool_decide_eq_true. intros [He Hv].
  unfold index_key. rewrite <- Hv.
  assert (enforced idx r2 = enforced idx r1) as -> by (unfold enforced; by rewrite Hv).
  by rewrite He.
Qed.

(** A unique entry's key is taken exactly by a conflicting row. *)
Lemma abs_taken m T idx row : table_inv d m -> abstracts d m T -> row_ok d row -> idx ∈ tIndexes d ->
  enforced idx row = true ->
  is_Some (m !! index_key d idx row) <->
  exists pk r, T !! pk = Some r /\ conflicts idx row r = true /\ index_key d idx r = index_key d idx row.
Proof.
  intros Hi Ha Hr Hidx He. split.
  - intros [v Hv]. apply (inv_index d m Hi idx) in Hv as (r & Hs & Hk & _); [|done|apply index_key_prefix].
    exists (pkOf d r), r. split_and!; [by apply (abs_stored d m T Ha)| |done].
    destruct (index_key_inj d idx row r) as (Hv & _ & _); [by eapply row_ok_canon|by eapply stored_canon|done|].
    unfold conflicts. rewrite He. by rewrite bool_decide_true.
  - intros (pk & r & Hpk & _ & Hk). rewrite <- Hk. exists (index_val d idx r).
    apply (inv_index d m Hi idx); [done|apply index_key_prefix|].
    apply (abs_lookup m T _ _ Ha) in Hpk as [Hs _]. eauto.
Qed.

Lemma clash_true T skip row : clash d T skip row = true <->
  exists idx pk r, idx ∈ tIndexes d /\ T !! pk = Some r /\ Some r <> skip /\ conflicts idx row r = true.
Proof.
  unfold clash. rewrite existsb_exists. setoid_rewrite existsb_exists. split.
  - intros (idx & Hidx%list_elem_of_In & [pk r] & Hin%list_elem_of_In & Hc).
    apply andb_true_iff in Hc as [Hs Hc]. apply negb_true_iff, bool_decide_eq_false in Hs.
    exists idx, pk, r. split_and!; [done|by apply elem_of_map_to_list|done|done].
  - intros (idx & pk & r & Hidx & Hpk & Hs & Hc). exists idx. split; [by apply list_elem_of_In|].
    exists (pk, r). split; [by apply list_elem_of_In, elem_of_map_to_list|].
    apply andb_true_iff. split; [|done]. by apply negb_true_iff, bool_decide_eq_false.
Qed.

Lemma clash_entries_free m T row : table_inv d m -> abstracts d m T -> row_ok d row ->
  clash d T None row = false <-> entries_free d m (tIndexes d) row.
Proof.
  intros Hi Ha Hr. rewrite <- not_true_iff_false, clash_true. split.
  - intros Hn idx Hidx He. apply eq_None_not_Some. intros Hs.
    apply (abs_taken m T idx row) in Hs as (pk & r & Hpk & Hc & _); [|done..]. apply Hn. by exists idx, pk, r.
  - intros Hf (idx & pk & r & Hidx & Hpk & _ & Hc).
    assert (enforced idx row = true) as He by (by apply andb_true_iff in Hc as [? _]).
    specialize (Hf idx Hidx He). apply eq_None_not_Some in Hf. apply Hf, (abs_taken m T idx row); [done..|].
    exists pk, r. split_and!; [done..|]. symmetry. by apply conflicts_key.
Qed.

Lemma abstracts_add m T row : abstracts d m T -> row_ok d row -> m !! row_key d row = None ->
  T !! pkOf d row = None -> abstracts d (add_row d row m) (<[pkOf d row := row]> T).
Proof.
  intros Ha Hr Hm HT. split.
  - intros r. rewrite (stored_add d Hwf) by done. rewrite (abs_stored d m T Ha).
    destruct (decide (pkOf d row = pkOf d r)) as [E|E].
    + rewrite E, lookup_insert_eq. rewrite E in HT. rewrite HT. split; [intros [?| ->]; [done|done]|intros [= ->]; auto].
    + rewrite lookup_insert_ne by done. split; [intros [?| ->]; [done|done]|auto].
  - intros pk r. destruct (decide (pkOf d row = pk)) as [<-|E].
    + rewrite lookup_insert_eq. by intros [= ->].
    + rewrite lookup_insert_ne by done. apply (abs_key d m T Ha).
Qed.

Lemma abstracts_del m T row : abstracts d m T -> stored d m row ->
  abstracts d (del_row d row m) (delete (pkOf d row) T).
Proof.
  intros Ha Hs. split.
  - intros r. rewrite (stored_del d Hwf) by done. rewrite (abs_stored d m T Ha).
    destruct (decide (pkOf d row = pkOf d r)) as [E|E].
    + rewrite E, lookup_delete_eq. split; [|done]. intros [Hr Hne]. apply (abs_stored d m T Ha) in Hr.
      by destruct Hne; apply (stored_pk_unique d m).
    + rewrite lookup_delete_ne by done. split; [tauto|]. intros Hr. split; [done|]. by intros ->.
  - intros pk r [_ Hpk]%lookup_delete_Some. by apply (abs_key d m T Ha).
Qed.

Lemma abstracts_ext m1 m2 T : (forall k, tableSpace (tID d) `prefix_of` k -> m1 !! k = m2 !! k) ->
  abstracts d m1 T -> abstracts d m2 T.
Proof.
  intros Hm Ha. split; [|apply (abs_key d m1 T Ha)]. intros r. rewrite <- (abs_stored d m1 T Ha).
  split; apply stored_ext; [|done]. intros k Hk. symmetry. by apply Hm.
Qed.

(** *** The effect of the write paths on the abstract table *)

Lemma inserted_abstracts m m' T nrow : table_inv d m -> abstracts d m T -> inserted d m m' nrow ->
  exists T', spec_insert d T nrow = Ok T' /\ abstracts d m' T' /\ table_inv d m'.
Proof.
  intros Hi Ha [Hok Hfree Huniq Hmap]. assert (T !! pkOf d nrow = None) as HT by (by apply (abs_free m T)).
  exists (<[pkOf d nrow := nrow]> T). unfold spec_insert. rewrite decide_False by (rewrite HT; by intros []).
  apply (clash_entries_free m T nrow) in Huniq as Hc; [|done..]. rewrite Hc.
  assert (forall k, tableSpace (tID d) `prefix_of` k -> add_row d nrow m !! k = m' !! k) as Hext.
  { intros k Hk. symmetry. apply Hmap. by apply identity_not_table. }
  split_and!; [done| |].
  - eapply abstracts_ext; [done|]. by apply abstracts_add.
  - eapply table_inv_ext; [done|]. by apply table_inv_add.
Qed.

Lemma del_row_None row m k : m !! k = None -> del_row d row m !! k = None.
Proof.
  intros Hk. unfold del_row. apply lookup_delete_None. right. by apply del_entries_None.
Qed.

Lemma updated_abstracts m m' T old new : table_inv d m -> abstracts d m T -> updated d m m' old new ->
  exists T', spec_update d T old new = Ok T' /\ abstracts d m' T' /\ table_inv d m'.
Proof.
  intros Hi Ha [Hold Hok Hkey Huniq ->]. pose proof (stored_ok d m old Hold) as Hoko.
  assert (pkOf d new = pkOf d old \/ T !! pkOf d new = None) as HT.
  { destruct Hkey as [Hk|Hn]; [left; by apply row_key_inj in Hk|right]. by apply (abs_free m T). }
  assert (del_row d old m !! row_key d new = None) as Hfree.
  { destruct Hkey as [->|Hn]; [|by apply del_row_None].
    rewrite del_row_table, decide_True by (done || apply row_key_prefix). done. }
  exists (<[pkOf d new := new]> (delete (pkOf d old) T)). unfold spec_update.
  rewrite decide_False by (intros [H1 H2]; destruct HT as [HT|HT]; [done|rewrite HT in H2; by destruct H2]).
  assert (clash d T (Some old) new = false) as ->.
  { apply not_true_iff_false. rewrite clash_true. intros (idx & pk & r & Hidx & Hpk & Hne & Hc).
    assert (enforced idx new = true) as He by (by apply andb_true_iff in Hc as [? _]).
    apply conflicts_key in Hc. apply (abs_lookup m T _ _ Ha) in Hpk as [Hs _].
    assert (m !! index_key d idx r = Some (index_val d idx r)) as Hr.
    { apply (inv_index d m Hi idx); [done|apply index_key_prefix|eauto]. }
    destruct (Huniq idx Hidx He) as [Hk|Hn]; [|congruence].
    assert (m !! index_key d idx old = Some (index_val d idx old)) as Ho.
    { apply (inv_index d m Hi idx); [done|apply index_key_prefix|eauto]. }
    destruct Hne. f_equal. apply (stored_pk_unique d m); [done..|].
    apply (index_entry_pk d idx); [by eapply stored_canon..|congruence|congruence]. }
  assert (forall k, add_row d new (del_row d old m) !! k = move_row d old new m !! k) as Hext.
  { intros k. symmetry. by apply (move_row_lookup d Hwf). }
  split_and!; [done| |].
  - eapply abstracts_ext; [by intros; apply Hext|]. apply abstracts_add; try done; [by apply abstracts_del|].
    destruct HT as [->|HT]; [apply lookup_delete_eq|]. apply lookup_delete_None. by right.
  - eapply table_inv_ext; [by intros; apply Hext|]. apply table_inv_add; try done; [by apply table_inv_del|].
    intros idx Hidx He. destruct (Huniq idx Hidx He) as [->|Hn]; [|by apply del_row_None].
    rewrite (del_row_index d Hwf old m idx), decide_True by (done || apply index_key_prefix). done.
Qed.

(** The normalized primary key a caller's values stand for. *)
Definition pkArg (pkVals : list any) : outcome (list any) :=
  if decide (length pkVals <> length (tPKCols d)) then Err errPKArity
  else cs ← coercePK d pkVals; normals cs.

Lemma fullPKKey_pkArg pkVals : Forall any_ok pkVals ->
  fullPKKey d pkVals = ns ← pkArg pkVals; Ok (tablePrefix (tID d) ++ elems ns).
Proof.
  intros Hok. unfold fullPKKey, pkArg. destruct (decide _); [done|].
  destruct (coercePK d pkVals) as [cs| |] eqn:Ec; simpl; [|done..].
  unfold rowKey. rewrite Append_spec by (by apply (coercePK_any_ok d _ _ _ Hok Ec)). done.
Qed.

Lemma pkArg_canon pkVals ns : Forall any_ok pkVals -> pkArg pkVals = Ok ns -> Forall canon ns.
Proof.
  intros Hok. unfold pkArg. destruct (decide _); [done|]. intros (cs & Ec & Hn)%outcome_bind_ok.
  eapply normals_canon; [by apply (coercePK_any_ok d _ _ _ Hok Ec)|done].
Qed.

Lemma pkArg_row pkVals row : Forall any_ok pkVals -> row_ok d row ->
  fullPKKey d pkVals = Ok (row_key d row) -> pkArg pkVals = Ok (pkOf d row).
Proof.
  intros Hok [_ Hr]. rewrite fullPKKey_pkArg by done.
  destruct (pkArg pkVals) as [ns| |] eqn:Ea; simpl; [|done..]. intros [= E]. unfold row_key in E.
  apply elems_inj in E; [by subst|by eapply pkArg_canon|by apply pkOf_canon].
Qed.

Lemma pkArg_missing m T pkVals key ns : table_inv d m -> abstracts d m T -> Forall any_ok pkVals ->
  fullPKKey d pkVals = Ok key -> pkArg pkVals = Ok ns -> m !! key = None <-> T !! ns = None.
Proof.
  intros Hi Ha Hok Hk Hns. rewrite fullPKKey_pkArg, Hns in Hk by done.
  assert (key = tablePrefix (tID d) ++ elems ns) as -> by (cbn [mbind outcome_bind] in Hk; congruence).
  split; intros Hn.
  - destruct (T !! ns) as [r|] eqn:E; [|done]. apply (abs_lookup m T _ _ Ha) in E as [(_ & v & Hv & _) <-].
    unfold row_key in Hv. congruence.
  - destruct (m !! _) as [v|] eqn:E; [|done].
    destruct (inv_stored d m _ _ Hi E) as (r & Hs & Hkr & _); [by eexists|].
    unfold row_key in Hkr. apply (inj _) in Hkr.
    apply elems_inj in Hkr; [|by eapply pkArg_canon|apply pkOf_canon; by apply (stored_ok d m r)].
    apply (abs_stored d m T Ha) in Hs. congruence.
Qed.

End ops.
End refinement.

(** ** Sequences of writes *)

(** One abstract transition: a row written, changed or removed. *)
Inductive spec_step (d : TableDesc) (T : table) : table -> Prop :=
  | StepInsert row T' : spec_insert d T row = Ok T' -> spec_step d T T'
  | StepUpdate old new T' : T !! pkOf d old = Some old -> spec_update d T old new = Ok T' -> spec_step d T T'
  | StepDelete pk : is_Some (T !! pk) -> spec_step d T (spec_delete T pk).

(** A statement's row writes, as a client of the transaction issues them. *)
Inductive cmd :=
  | CInsert (vals : list any)
  | CUpdate (pkVals : list any) (set : list (bytes * any))
  | CDelete (pkVals : list any).

Definition cmd_ok (c : cmd) : Prop :=
  match c with
  | CInsert vals => Forall any_ok vals
  | CUpdate pkVals set => Forall any_ok pkVals /\ Forall any_ok set.*2
  | CDelete pkVals => Forall any_ok pkVals
  end.

Section run.
Context {E : Type} {eng : EngineOps E} {tx : Type} {kv : KV tx}.

Definition exec (d : TableDesc) (c : cmd) (s : E * tx) : E * tx :=
  match c with
  | CInsert vals => (insertRow d vals s).2
  | CUpdate pkVals set => (onTx (updateRow d pkVals set) s).2
  | CDelete pkVals => (onTx (deleteRow d pkVals) s).2
  end.

(** A client that goes on after errors. *)
Definition run (d : TableDesc) (cs : list cmd) (s : E * tx) : E * tx := foldl (λ s c, exec d c s) s cs.

End run.

Section steps.
Context {E : Type} {eng : EngineOps E} {eng_laws : EngineLaws E}.
Context {tx : Type} {kv : KV tx} {kv_laws : KVLaws tx}.
Context (d : TableDesc) (Hwf : desc_wf d).

Lemma exec_step c (s : E * tx) T : cmd_ok c ->
  table_inv d (kv_map s.2) -> abstracts d (kv_map s.2) T ->
  exists T', rtc (spec_step d) T T' /\ table_inv d (kv_map (exec d c s).2) /\
    abstracts d (kv_map (exec d c s).2) T'.
Proof.
  destruct s as [e t]. intros Hc Hi Ha. destruct c as [vals|pkVals set|pkVals]; simpl in Hc; unfold exec.
  - pose proof (insertRow_wp d Hwf vals e t Hc) as H. unfold wp in H.
    destruct (insertRow d vals (e, t)) as [[row|er|p] [e' t']]; cbn [fst snd] in *; [| |done].
    + destruct H as (nrow & Hn & Hins).
      destruct (inserted_abstracts d Hwf _ _ T nrow Hi Ha Hins) as (T' & HT & Ha' & Hi').
      exists T'. split; [|done]. by eapply rtc_once, StepInsert.
    + exists T. assert (forall k, tableSpace (tID d) `prefix_of` k -> kv_map t !! k = kv_map t' !! k) as Hext.
      { intros k Hk. symmetry. apply H. by apply identity_not_table. }
      split_and!; [apply rtc_refl|by eapply table_inv_ext|by eapply abstracts_ext].
  - destruct Hc as [Hpk Hset]. pose proof (updateRow_wp d Hwf pkVals set t Hi Hpk Hset) as H. unfold wp, onTx in *. cbn [fst snd] in *.
    destruct (updateRow d pkVals set t) as [[[newVals|]|er|p] t']; cbn [fst snd] in *; [| | |done].
    + destruct H as (old & new & _ & _ & _ & Hu).
      destruct (updated_abstracts d Hwf _ _ T old new Hi Ha Hu) as (T' & HT & Ha' & Hi').
      exists T'. split; [|done]. eapply rtc_once, StepUpdate; [|done].
      apply (abs_stored d _ T Ha), (upd_old d _ _ _ _ Hu).
    + destruct H as [-> _]. exists T. split; [apply rtc_refl|done].
    + rewrite H. exists T. split; [apply rtc_refl|done].
  - pose proof (deleteRow_wp d Hwf pkVals t Hi Hc) as H. unfold wp, onTx in *. cbn [fst snd] in *.
    destruct (deleteRow d pkVals t) as [[[]|er|p] t']; cbn [fst snd] in *; [| | |done].
    + destruct H as (old & _ & Hold & ->). exists (spec_delete T (pkOf d old)). split_and!.
      * apply rtc_once, StepDelete. exists old. by apply (abs_stored d _ T Ha).
      * by apply table_inv_del.
      * by apply abstracts_del.
    + destruct H as [-> _]. exists T. split; [apply rtc_refl|done].
    + destruct H as [-> _]. exists T. split; [apply rtc_refl|done].
Qed.

End steps.

(** ** The contract *)

Section contract.
Context {E : Type} {eng : EngineOps E} {eng_laws : EngineLaws E}.
Context {tx : Type} {kv : KV tx} {kv_laws : KVLaws tx}.
Context (d : TableDesc).

(** C19: insert refines the abstract insert. On success the row as stored is
    the returned row normalized, the abstract insert accepts it, and the key
    space holds the new table; on any error the table is what it was (only
    identity counters may have moved); it never panics; the invariant tying
    rows and index entries holds after every outcome. *)
Theorem insertRow_refines vals e (t : tx) T : desc_wf d -> Forall any_ok vals ->
  table_inv d (kv_map t) -> abstracts d (kv_map t) T ->
  let '(o, (e', t')) := insertRow d vals (e, t) in
  table_inv d (kv_map t') /\
  match o with
  | Ok row => exists nrow T', normals row = Ok nrow /\ spec_insert d T nrow = Ok T' /\
      abstracts d (kv_map t') T'
  | Err _ => abstracts d (kv_map t') T /\ identity_only d (kv_map t) (kv_map t')
  | Panic _ => False
  end.
Proof.
  intros Hwf Hv Hi Ha. pose proof (insertRow_wp d Hwf vals e t Hv) as H. unfold wp in H.
  destruct (insertRow d vals (e, t)) as [[row|er|p] [e' t']]; cbn [fst snd] in H; [| |done].
  - destruct H as (nrow & Hn & Hins).
    destruct (inserted_abstracts d Hwf _ _ T nrow Hi Ha Hins) as (T' & HT & Ha' & Hi'). split; [done|eauto].
  - assert (forall k, tableSpace (tID d) `prefix_of` k -> kv_map t !! k = kv_map t' !! k) as Hext.
    { intros k Hk. symmetry. apply H. by apply identity_not_table. }
    split_and!; [by eapply table_inv_ext|by eapply abstracts_ext|done].
Qed.


(** C20: update refines the abstract update. A hit replaces the old row by
    the SET values coerced onto it (normalized), wherever the key moves; a
    miss means the abstract table has no such row; an error leaves the
    transaction's data exactly as it was; there is no panic, and the
    invariant holds after every outcome. *)
Theorem updateRow_refines pkVals set (t : tx) T : desc_wf d ->
  Forall any_ok pkVals -> Forall any_ok set.*2 ->
  table_inv d (kv_map t) -> abstracts d (kv_map t) T ->
  let '(o, t') := updateRow d pkVals set t in
  table_inv d (kv_map t') /\
  match o with
  | Ok (Some newVals) => exists old new T', pkArg d pkVals = Ok (pkOf d old) /\
      T !! pkOf d old = Some old /\ applySet d set old = Ok newVals /\ normals newVals = Ok new /\
      spec_update d T old new = Ok T' /\ abstracts d (kv_map t') T'
  | Ok None => kv_map t' = kv_map t /\ exists pk, pkArg d pkVals = Ok pk /\ T !! pk = None
  | Err _ => kv_map t' = kv_map t
  | Panic _ => False
  end.
Proof.
  intros Hwf Hpk Hset Hi Ha. pose proof (updateRow_wp d Hwf pkVals set t Hi Hpk Hset) as H. unfold wp in H.
  destruct (updateRow d pkVals set t) as [[[newVals|]|er|p] t']; cbn [fst snd] in H; [| | |done].
  - destruct H as (old & new & Hk & Hs & Hn & Hu).
    destruct (updated_abstracts d Hwf _ _ T old new Hi Ha Hu) as (T' & HT & Ha' & Hi').
    pose proof (upd_old d _ _ _ _ Hu) as Hold. split; [done|].
    exists old, new, T'. split_and!; try done.
    + apply pkArg_row; [done|by eapply stored_ok|done].
    + by apply (abs_stored d _ T Ha).
  - destruct H as (-> & key & Hk & Hn). split_and!; [done..|].
    destruct (pkArg d pkVals) as [pk| |] eqn:Ep; rewrite fullPKKey_pkArg, Ep in Hk by done; [|done..].
    exists pk. split; [done|]. eapply (pkArg_missing d (kv_map t) T pkVals key); try done.
    by rewrite fullPKKey_pkArg, Ep.
  - by rewrite H.
Qed.

(** delete refines the abstract delete: it reports whether the row
    existed, removes it and every index entry of it, and leaves everything
    as it was on a miss or an error. *)
Theorem deleteRow_refines pkVals (t : tx) T : desc_wf d -> Forall any_ok pkVals ->
  table_inv d (kv_map t) -> abstracts d (kv_map t) T ->
  let '(o, t') := deleteRow d pkVals t in
  table_inv d (kv_map t') /\
  match o with
  | Ok true => exists pk, pkArg d pkVals = Ok pk /\ is_Some (T !! pk) /\
      abstracts d (kv_map t') (spec_delete T pk)
  | Ok false => kv_map t' = kv_map t /\ exists pk, pkArg d pkVals = Ok pk /\ T !! pk = None
  | Err _ => kv_map t' = kv_map t
  | Panic _ => False
  end.
Proof.
  intros Hwf Hpk Hi Ha. pose proof (deleteRow_wp d Hwf pkVals t Hi Hpk) as H. unfold wp in H.
  destruct (deleteRow d pkVals t) as [[[]|er|p] t']; cbn [fst snd] in H; [| | |done].
  - destruct H as (old & Hk & Hold & ->). split; [by apply table_inv_del|].
    exists (pkOf d old). split_and!.
    + apply pkArg_row; [done|by eapply stored_ok|done].
    + exists old. by apply (abs_stored d _ T Ha).
    + by apply abstracts_del.
  - destruct H as (-> & key & Hk & Hn). split_and!; [done..|].
    destruct (pkArg d pkVals) as [pk| |] eqn:Ep; rewrite fullPKKey_pkArg, Ep in Hk by done; [|done..].
    exists pk. split; [done|]. eapply (pkArg_missing d (kv_map t) T pkVals key); try done.
    by rewrite fullPKKey_pkArg, Ep.
  - by destruct H as [-> _].
Qed.

(** a point read is the abstract lookup, errors of the key included. *)
Theorem getRow_refines pkVals (t : tx) T : desc_wf d -> Forall any_ok pkVals ->
  table_inv d (kv_map t) -> abstracts d (kv_map t) T ->
  getRow d pkVals t = pk ← pkArg d pkVals; Ok (mkRow d <$> T !! pk).
Proof.
  intros Hwf Hok Hi Ha. unfold getRow. rewrite fullPKKey_pkArg by done.
  destruct (pkArg d pkVals) as [pk| |] eqn:Ep; [|done..]. cbn [mbind outcome_bind]. rewrite kv_get_map.
  assert (fullPKKey d pkVals = Ok (tablePrefix (tID d) ++ elems pk)) as Hk by (by rewrite fullPKKey_pkArg, Ep).
  destruct (kv_map t !! _) as [v|] eqn:Ev.
  - destruct (get_stored d _ _ _ _ Hi Hok Hk Ev) as (row & Hs & Hkr & Hd). rewrite Hd. simpl. do 2 f_equal.
    rewrite Hkr in Hk. apply pkArg_row in Hk; [|done|by eapply stored_ok].
    apply (abs_stored d _ T Ha) in Hs. assert (pk = pkOf d row) as -> by congruence. by rewrite Hs.
  - apply (pkArg_missing d _ T pkVals _ pk Hi Ha Hok Hk Ep) in Ev. by rewrite Ev.
Qed.

(** A unique index is unique: two rows of the table with the same
    indexed values, none of them NULL, are one row. *)
Lemma unique_index_unique m T idx pk1 pk2 r1 r2 : desc_wf d -> table_inv d m -> abstracts d m T ->
  idx ∈ tIndexes d -> ixUnique idx = true -> T !! pk1 = Some r1 -> T !! pk2 = Some r2 ->
  ixVals idx r1 = ixVals idx r2 -> ANil ∉ ixVals idx r1 -> pk1 = pk2 /\ r1 = r2.
Proof.
  intros Hwf Hi Ha Hidx Hu H1 H2 Hv Hn.
  apply (abs_lookup d m T _ _ Ha) in H1 as [S1 <-]. apply (abs_lookup d m T _ _ Ha) in H2 as [S2 <-].
  assert (conflicts idx r1 r2 = true) as Hc.
  { unfold conflicts, enforced. rewrite Hu, Hv, bool_decide_true by done. rewrite andb_true_r, andb_true_l.
    apply negb_true_iff, not_true_iff_false. rewrite existsb_exists. intros (v & Hin%list_elem_of_In & Hnil).
    destruct v; try done. by rewrite Hv in Hn. }
  apply (conflicts_key d) in Hc.
  assert (forall r, stored d m r -> m !! index_key d idx r = Some (index_val d idx r)) as Hent.
  { intros r Hr. apply (inv_index d m Hi idx); [done|apply index_key_prefix|eauto]. }
  assert (r1 = r2) as ->; [|done]. apply (stored_pk_unique d m); [done..|].
  pose proof (Hent r1 S1). pose proof (Hent r2 S2).
  apply (index_entry_pk d idx); [by eapply stored_canon..|congruence|congruence].
Qed.

(** Every key space that keeps the table invariant holds a table. *)
Lemma abstracts_exists m : desc_wf d -> table_inv d m -> exists T, abstracts d m T.
Proof.
  intros Hwf Hi. set (L := rowOf d <$> range m (tablePrefix (tID d)) (prefixEnd (tablePrefix (tID d)))).
  assert (forall row, row ∈ L <-> stored d m row) as HL.
  { intros row. unfold L. rewrite (proj2 (range_rows d m _ _ Hi (ble_refl _) (ble_refl _))). split; [by intros [? _]|]. intros Hs. split; [done|].
    apply prefixEnd_interval; [by rewrite tablePrefix_elems..|]. apply row_key_prefix. }
  set (T := list_to_map ((λ r, (pkOf d r, r)) <$> L) : table). exists T.
  assert (forall pk row, T !! pk = Some row -> pk = pkOf d row /\ stored d m row) as H1.
  { intros pk row H%elem_of_list_to_map_2. apply list_elem_of_fmap in H as (r & [= -> ->] & Hr). by rewrite HL in Hr. }
  split; [|by intros pk row [? _]%H1]. intros row. split; [|by intros [_ ?]%H1]. intros Hs.
  destruct (T !! pkOf d row) as [r|] eqn:Er.
  - destruct (H1 _ _ Er) as [Hpk Hr]. f_equal. symmetry. by apply (stored_pk_unique d m).
  - apply not_elem_of_list_to_map_2 in Er. destruct Er. rewrite <- list_fmap_compose. apply list_elem_of_fmap. exists row. split; [done|]. by apply HL.
Qed.

(** The rows of a drained scan, in order. *)
Lemma scanRows_drained (rev : bool) (t : tx) T from to toIncl : desc_wf d ->
  table_inv d (kv_map t) -> abstracts d (kv_map t) T ->
  pk_bound_ok d from -> pk_bound_ok d to ->
  let scan_ := if rev then scanRowsRev d from to toIncl else scanRows d from to in
  exists rows,
    StronglySorted (λ r1 r2, Compare (pkOf d r1) (pkOf d r2) = Ok Lt) rows /\
    (forall row, row ∈ rows <-> T !! pkOf d row = Some row /\ pk_in d from to (rev && toIncl) row) /\
    reverse (scan_ drain t).1 = (if rev then reverse else id) ((λ r, Ok (mkRow d r)) <$> rows).
Proof.
  intros Hwf Hi Ha Hf Ht scan_.
  destruct (pk_bounds d from to (rev && toIncl) Hf Ht) as (start & end_ & Eb & Hs & He & Hin).
  destruct (range_rows d (kv_map t) start end_ Hi Hs He) as [Hsort Hrows].
  set (rows := rowOf d <$> range (kv_map t) start end_) in *. exists rows.
  assert (forall row, row ∈ rows -> row_ok d row) as Hok.
  { intros row Hr. apply Hrows in Hr as [Hr _]. by eapply stored_ok. }
  split_and!.
  - apply (sorted_weaken (λ r1 r2, blt (row_key d r1) (row_key d r2))); [done|].
    intros r1 r2 H1 H2 Hlt. rewrite row_key_compare by auto. by rewrite Hlt.
  - intros row. rewrite Hrows, (abs_stored d _ T Ha). split; intros [HT Hb]; (split; [done|]).
    + apply Hin; [|done]. apply (abs_stored d _ T Ha) in HT. by eapply stored_ok.
    + apply Hin; [|done]. apply (abs_stored d _ T Ha) in HT. by eapply stored_ok.
  - destruct (scan_drain rev start end_ (λ '(k, v), lift (decodeRow d k v)) (λ e, mkRow d (rowOf d e)) t)
      as (t' & E' & _).
    { intros [k v] u Hkv Hu. exists u. split; [|done]. unfold lift. f_equal.
      apply elem_of_range in Hkv as (Hk & H1 & H2).
      apply (rowOf_stored d (kv_map t) k v Hi Hk). eapply narrowed_prefix; [| |exact Hs|exact He|done|done];
        by rewrite tablePrefix_elems. }
    unfold scan_, scanRows, scanRowsRev. destruct rev; cbv zeta; simpl andb in Eb; rewrite Eb, E'; cbn [fst];
      unfold rows; rewrite <- list_fmap_compose; [done|]. by rewrite reverse_involutive.
Qed.

(** C23: a table scan returns exactly the rows whose leading key columns
    lie within the bounds, each once, in primary-key order, and a reverse
    scan returns them in the opposite order; the bounds may be partial
    prefixes of the key, and [toIncl] takes in the whole group of the upper
    one. A consumer that stops early has seen the first items of that
    sequence. *)
Theorem scanRows_exact (rev : bool) (t : tx) T from to toIncl more : desc_wf d ->
  table_inv d (kv_map t) -> abstracts d (kv_map t) T ->
  pk_bound_ok d from -> pk_bound_ok d to ->
  let scan_ := if rev then scanRowsRev d from to toIncl else scanRows d from to in
  exists rows,
    StronglySorted (λ r1 r2, Compare (pkOf d r1) (pkOf d r2) = Ok Lt) rows /\
    (forall row, row ∈ rows <-> T !! pkOf d row = Some row /\ pk_in d from to (rev && toIncl) row) /\
    reverse (scan_ drain t).1 = (if rev then reverse else id) ((λ r, Ok (mkRow d r)) <$> rows) /\
    reverse (scan_ more t).1 `prefix_of` reverse (scan_ drain t).1.
Proof.
  intros Hwf Hi Ha Hf Ht scan_. destruct (scanRows_drained rev t T from to toIncl Hwf Hi Ha Hf Ht) as (rows & H1 & H2 & H3).
  exists rows. split_and!; [done..|]. unfold scan_, scanRows, scanRowsRev. destruct rev; apply scan_prefix.
Qed.

(** The rows of a drained index scan, in order. *)
Lemma scanIndexRows_drained (rev : bool) idx (t : tx) T from to toIncl : desc_wf d ->
  idx ∈ tIndexes d -> table_inv d (kv_map t) -> abstracts d (kv_map t) T ->
  ix_bound_ok d idx from -> ix_bound_ok d idx to ->
  let scan_ := if rev then scanIndexRowsRev d idx from to toIncl else scanIndexRows d idx from to in
  exists rows,
    StronglySorted (ix_before d idx) rows /\ NoDup rows /\
    (forall row, row ∈ rows <-> T !! pkOf d row = Some row /\ ix_in d idx from to (rev && toIncl) row) /\
    reverse (scan_ drain t).1 = (if rev then reverse else id) ((λ r, Ok (mkRow d r)) <$> rows).
Proof.
  intros Hwf Hidx Hi Ha Hf Ht scan_.
  destruct (ix_bounds d idx from to (rev && toIncl) Hf Ht) as (start & end_ & Eb & Hs & He & Hin).
  destruct (range_index_rows d Hwf idx Hidx t start end_ Hi Hs He) as (Hsort & Hrows & Hres).
  set (rows := ixRowOf d idx t <$> range (kv_map t) start end_) in *. exists rows.
  assert (forall row, row ∈ rows -> row_ok d row) as Hok.
  { intros row Hr. apply Hrows in Hr as [Hr _]. by eapply stored_ok. }
  split_and!.
  - apply (sorted_weaken (λ r1 r2, blt (index_key d idx r1) (index_key d idx r2))); [done|].
    intros r1 r2 H1 H2. apply index_key_before; auto.
  - clear -Hsort. induction Hsort as [|r l Hl IH Hr]; constructor; [|done]. intros Hin.
    rewrite Forall_forall in Hr. by apply (blt_irrefl (index_key d idx r)), Hr.
  - intros row. rewrite Hrows, (abs_stored d _ T Ha). split; intros [HT Hb]; (split; [done|]).
    + apply Hin; [|done]. apply (abs_stored d _ T Ha) in HT. by eapply stored_ok.
    + apply Hin; [|done]. apply (abs_stored d _ T Ha) in HT. by eapply stored_ok.
  - destruct (scan_drain rev start end_ (λ '(k, v), rowFromIndexEntry d idx k v)
      (λ e, mkRow d (ixRowOf d idx t e)) t) as (t' & E' & _).
    { intros [k v] u Hkv Hu. by apply (Hres (k, v)). }
    unfold scan_, scanIndexRows, scanIndexRowsRev. destruct rev; cbv zeta; simpl andb in Eb; rewrite Eb, E';
      cbn [fst]; unfold rows; rewrite <- list_fmap_compose; [done|]. by rewrite reverse_involutive.
Qed.

(** C22: an index scan returns exactly the rows whose leading indexed
    columns lie within the bounds, each once, ordered by the indexed values
    in their columns' directions and then by primary key; a reverse scan
    returns them in the opposite order. Every entry resolves to its row. *)
Theorem scanIndexRows_exact (rev : bool) idx (t : tx) T from to toIncl more : desc_wf d ->
  idx ∈ tIndexes d -> table_inv d (kv_map t) -> abstracts d (kv_map t) T ->
  ix_bound_ok d idx from -> ix_bound_ok d idx to ->
  let scan_ := if rev then scanIndexRowsRev d idx from to toIncl else scanIndexRows d idx from to in
  exists rows,
    StronglySorted (ix_before d idx) rows /\ NoDup rows /\
    (forall row, row ∈ rows <-> T !! pkOf d row = Some row /\ ix_in d idx from to (rev && toIncl) row) /\
    reverse (scan_ drain t).1 = (if rev then reverse else id) ((λ r, Ok (mkRow d r)) <$> rows) /\
    reverse (scan_ more t).1 `prefix_of` reverse (scan_ drain t).1.
Proof.
  intros Hwf Hidx Hi Ha Hf Ht scan_. destruct (scanIndexRows_drained rev idx t T from to toIncl Hwf Hidx Hi Ha Hf Ht) as (rows & H1 & H2 & H3 & H4).
  exists rows. split_and!; [done..|]. unfold scan_, scanIndexRows, scanIndexRowsRev. destruct rev; apply scan_prefix.
Qed.


End contract.

(** ** The contract at work *)

(** An engine in serialized mode with no memory ceiling. *)
Definition soloOps : EngineOps unit := {|
  e_occ _ := false;
  e_CheckMemory e := (Ok tt, e);
  e_allocCounter _ _ e := (Err errExhausted, e);
  e_bumpCounterAllocTo _ _ e := (Err errExhausted, e);
|}.
Lemma soloOps_laws : @EngineLaws unit soloOps.
Proof. by split. Qed.

Lemma abstracts_empty d m :
  (forall k, tableSpace (tID d) `prefix_of` k -> m !! k = None) -> abstracts d m ∅.
Proof.
  intros Hm. split.
  - intros row. rewrite lookup_empty. split; [|done]. intros (_ & v & Hv & _).
    rewrite Hm in Hv; [done|]. eapply in_tableSpace, row_key_prefix.
  - intros pk row. by rewrite lookup_empty.
Qed.

Section example.
#[local] Existing Instances soloOps soloOps_laws.

Definition exVals2 : list any := [AInt KInt64 9; ANil; AFloat64 (int64_to_f64 3)].
Definition exRow1 : list any := [AInt KInt64 7; AString (go "abcd"); AFloat64 0].

(** The empty store, and the store after two inserts, a refused one, an
    update and a delete. *)
Definition exStart : unit * MemTx := (tt, mem_open []).
Definition exCmds : list cmd :=
  [CInsert exVals; CInsert exVals2; CInsert exVals;
   CUpdate [AInt KInt 9] [(go "name", AString (go "z"))]].
Definition exTx : MemTx := (run exDesc exCmds exStart).2.

Lemma exStart_inv : table_inv exDesc (kv_map exStart.2).
Proof. by apply table_inv_empty. Qed.
Lemma exStart_abs : abstracts exDesc (kv_map exStart.2) ∅.
Proof. by apply abstracts_empty. Qed.

Lemma exVals_ok : Forall any_ok exVals.
Proof. repeat constructor; simpl; unfold f64_ok; lia. Qed.
Lemma exCmds_ok : Forall cmd_ok exCmds.
Proof. repeat constructor; simpl; try apply exVals_ok; try (unfold f64_ok; vm_compute; split; congruence); done. Qed.

Lemma exTx_inv : exists T, table_inv exDesc (kv_map exTx) /\ abstracts exDesc (kv_map exTx) T.
Proof.
  assert (forall cs s T, Forall cmd_ok cs -> table_inv exDesc (kv_map s.2) -> abstracts exDesc (kv_map s.2) T ->
    exists T', table_inv exDesc (kv_map (run exDesc cs s).2) /\ abstracts exDesc (kv_map (run exDesc cs s).2) T') as H.
  { intros cs. induction cs as [|c cs IH]; intros s T Hcs Hi Ha; [by exists T|].
    apply Forall_cons in Hcs as [Hc Hcs].
    destruct (exec_step exDesc exDesc_wf c s T Hc Hi Ha) as (T1 & _ & Hi1 & Ha1). by eapply (IH (exec exDesc c s)). }
  eapply (H exCmds exStart ∅); [apply exCmds_ok|apply exStart_inv|apply exStart_abs].
Qed.

Lemma exRow1_stored : stored exDesc (kv_map exTx) exRow1.
Proof.
  split.
  - split; [|repeat constructor; simpl; unfold int64_ok, f64_ok; try done; lia].
    split; [done|]. intros [|[|[|i]]] c v; intros [= <-] [= <-]; vm_compute; intuition congruence.
  - eexists. split; [vm_compute; reflexivity|vm_compute; reflexivity].
Qed.

Lemma insertRow_refines_witness :
  is_ok (insertRow exDesc exVals exStart).1 = true /\
  let '(o, (e', t')) := insertRow exDesc exVals exStart in
  table_inv exDesc (kv_map t') /\
  match o with
  | Ok row => exists nrow T', normals row = Ok nrow /\ spec_insert exDesc ∅ nrow = Ok T' /\
      abstracts exDesc (kv_map t') T'
  | Err _ => abstracts exDesc (kv_map t') ∅ /\ identity_only exDesc (kv_map exStart.2) (kv_map t')
  | Panic _ => False
  end.
Proof.
  split; [vm_compute; reflexivity|].
  apply (insertRow_refines exDesc exVals tt (mem_open []) ∅ exDesc_wf exVals_ok exStart_inv exStart_abs).
Defined.


Lemma updateRow_refines_witness : exists T : table,
  is_ok (updateRow exDesc [AInt KInt 7] [(go "id", AInt KInt 8)] exTx).1 = true /\
  let '(o, t') := updateRow exDesc [AInt KInt 7] [(go "id", AInt KInt 8)] exTx in
  table_inv exDesc (kv_map t') /\
  match o with
  | Ok (Some newVals) => exists old new T', pkArg exDesc [AInt KInt 7] = Ok (pkOf exDesc old) /\
      T !! pkOf exDesc old = Some old /\ applySet exDesc [(go "id", AInt KInt 8)] old = Ok newVals /\
      normals newVals = Ok new /\ spec_update exDesc T old new = Ok T' /\ abstracts exDesc (kv_map t') T'
  | Ok None => kv_map t' = kv_map exTx /\ exists pk, pkArg exDesc [AInt KInt 7] = Ok pk /\ T !! pk = None
  | Err _ => kv_map t' = kv_map exTx
  | Panic _ => False
  end.
Proof.
  destruct exTx_inv as (T & Hi & Ha). exists T. split; [vm_compute; reflexivity|].
  apply (updateRow_refines exDesc [AInt KInt 7] [(go "id", AInt KInt 8)] exTx T exDesc_wf); try done;
    repeat constructor; simpl; lia.
Defined.

Lemma deleteRow_refines_witness : exists T : table,
  (deleteRow exDesc [AInt KInt 7] exTx).1 = Ok true /\
  let '(o, t') := deleteRow exDesc [AInt KInt 7] exTx in
  table_inv exDesc (kv_map t') /\
  match o with
  | Ok true => exists pk, pkArg exDesc [AInt KInt 7] = Ok pk /\ is_Some (T !! pk) /\
      abstracts exDesc (kv_map t') (spec_delete T pk)
  | Ok false => kv_map t' = kv_map exTx /\ exists pk, pkArg exDesc [AInt KInt 7] = Ok pk /\ T !! pk = None
  | Err _ => kv_map t' = kv_map exTx
  | Panic _ => False
  end.
Proof.
  destruct exTx_inv as (T & Hi & Ha). exists T. split; [vm_compute; reflexivity|].
  apply (deleteRow_refines exDesc [AInt KInt 7] exTx T exDesc_wf); try done. repeat constructor; simpl; lia.
Defined.

Lemma getRow_refines_witness : exists T : table,
  getRow exDesc [AInt KInt 7] exTx = Ok (Some (mkRow exDesc exRow1)) /\
  getRow exDesc [AInt KInt 7] exTx = pk ← pkArg exDesc [AInt KInt 7]; Ok (mkRow exDesc <$> T !! pk).
Proof.
  destruct exTx_inv as (T & Hi & Ha). exists T. split; [vm_compute; reflexivity|].
  apply (getRow_refines exDesc [AInt KInt 7] exTx T exDesc_wf); try done. repeat constructor; simpl; lia.
Defined.

(** Rows with 7 <= id < 9, in reverse. *)
Lemma scanRows_exact_witness : exists (T : table) rows,
  (scanRowsRev exDesc (Some [AInt KInt 7]) (Some [AInt KInt 9]) false drain exTx).1 = [Ok (mkRow exDesc exRow1)] /\
  StronglySorted (λ r1 r2, Compare (pkOf exDesc r1) (pkOf exDesc r2) = Ok Lt) rows /\
  (forall row, row ∈ rows <-> T !! pkOf exDesc row = Some row /\
    pk_in exDesc (Some [AInt KInt 7]) (Some [AInt KInt 9]) (true && false) row) /\
  reverse (scanRowsRev exDesc (Some [AInt KInt 7]) (Some [AInt KInt 9]) false drain exTx).1 =
    reverse ((λ r, Ok (mkRow exDesc r)) <$> rows).
Proof.
  destruct exTx_inv as (T & Hi & Ha). exists T.
  destruct (scanRows_exact exDesc true exTx T (Some [AInt KInt 7]) (Some [AInt KInt 9]) false drain exDesc_wf Hi Ha)
    as (rows & H1 & H2 & H3 & _).
  - split; [repeat constructor; simpl; lia|]. eexists. reflexivity.
  - split; [repeat constructor; simpl; lia|]. eexists. reflexivity.
  - exists rows. split; [vm_compute; reflexivity|]. auto.
Defined.

(** All rows by name, descending. *)
Lemma scanIndexRows_exact_witness : exists (T : table) rows,
  let idx := mkIndex 2 (go "by_name") [1%nat] true [true] in
  length (scanIndexRows exDesc idx None None drain exTx).1 = 2%nat /\
  StronglySorted (ix_before exDesc idx) rows /\ NoDup rows /\
  (forall row, row ∈ rows <-> T !! pkOf exDesc row = Some row /\ ix_in exDesc idx None None (false && false) row) /\
  reverse (scanIndexRows exDesc idx None None drain exTx).1 = (λ r, Ok (mkRow exDesc r)) <$> rows.
Proof.
  destruct exTx_inv as (T & Hi & Ha). exists T.
  destruct (scanIndexRows_exact exDesc false (mkIndex 2 (go "by_name") [1%nat] true [true]) exTx T None None false drain
    exDesc_wf ltac:(left) Hi Ha I I) as (rows & H1 & H2 & H3 & H4 & _).
  exists rows. split; [vm_compute; reflexivity|]. auto.
Defined.


End example.
