(* ===== verification/Engine.v ===== *)
(** * The catalog

    [engine.go]: descriptors live in the key space, one JSON row per table,
    and every resolution reads them from the caller's own view. The only
    other state is the parse cache, keyed by the stored bytes. *)
From S2P Require Import Prelude GoVal GoStr Tuple KV Json Catalog Desc Dml.

Local Open Scope Z_scope.

(** ** The engine's catalog state *)

Record Cat := mkCat {
  cCache : gmap bytes (bytes * TableDesc);   (* descCache *)
  cBackfillLimit : Z;                        (* backfillLimit *)
}.

(** An engine that carries it, next to what the row writes use. *)
Class CatState (E : Type) := {
  cat : E -> Cat;
  with_cat : (Cat -> Cat) -> E -> E;
}.
Class CatLaws (E : Type) {eng : EngineOps E} {cs : CatState E} := {
  cat_with f (e : E) : cat (with_cat f e) = f (cat e);
  occ_with f (e : E) : e_occ (with_cat f e) = e_occ e;
  cat_memory e o e' : e_CheckMemory e = (o, e') -> cat e' = cat e;
  cat_alloc key start e o e' : e_allocCounter key start e = (o, e') -> cat e' = cat e;
  cat_bump key next e o e' : e_bumpCounterAllocTo key next e = (o, e') -> cat e' = cat e;
}.

Definition with_cache (f : gmap bytes (bytes * TableDesc) -> gmap bytes (bytes * TableDesc)) (c : Cat) : Cat :=
  mkCat (f (cCache c)) (cBackfillLimit c).

Definition errNoTable : error := ENew (go "no such table").

(** An inbound reference: the child table and its foreign key. *)
Abbreviation FKRef := (TableDesc * FKDesc)%type.

Section engine.
Context {E : Type} {eng : EngineOps E} {cs : CatState E} {tx : Type} {kv : KV tx}.

Definition cacheStore (name blob : bytes) (desc : TableDesc) : M (E * tx) unit :=
  onE (modify (with_cat (with_cache (insert name (blob, desc))))).
Definition cacheEvict (name : bytes) : M (E * tx) unit :=
  onE (modify (with_cat (with_cache (delete name)))).

(** Absent tables are [None]. *)
Definition tableFromView (name : bytes) : M (E * tx) (option TableDesc) :=
  blob ← onTx (gets (kv_get (descKey name)));
  match blob with
  | None => mret None
  | Some bs =>
      ent ← onE (gets (λ e, cCache (cat e) !! name));
      let miss := desc ← lift (parseDesc bs); _ ← cacheStore name bs desc; mret (Some desc) in
      match ent with
      | Some (b, d) => if decide (b = bs) then mret (Some d) else miss
      | None => miss
      end
  end.

Definition descFromView (table : bytes) : M (E * tx) TableDesc :=
  desc ← tableFromView table;
  match desc with None => fail errNoTable | Some d => mret d end.

(** The range that holds the descriptors, by name. *)
Definition descEntries (t : tx) : list (bytes * bytes) :=
  ascend_to descTablePrefix (prefixEnd descTablePrefix) t.

(** The names [Tables] lists. *)
Definition Tables (t : tx) : list bytes := omap (λ kv, descKeyName kv.1) (descEntries t).

(** [loadCatalog]'s loop: parsed descriptors warm the cache, the names of
    the others are collected. *)
Fixpoint loadEntries (es : list (bytes * bytes)) : M (E * tx) (list bytes) :=
  match es with
  | [] => mret []
  | (k, v) :: es' =>
      match parseDesc v with
      | Ok d => _ ← cacheStore (tName d) v d; loadEntries es'
      | _ => bad ← loadEntries es'; mret (default k (descKeyName k) :: bad)
      end
  end.
(** The message's per-table reasons are left out. *)
Definition errUnreadable (bad : list bytes) : error :=
  ENew (go "unreadable table descriptors (" ++ fmtInt (Z.of_nat (length bad)) ++ go "): " ++ mjoin bad).
Definition loadCatalog : M (E * tx) unit :=
  es ← onTx (gets descEntries);
  bad ← loadEntries es;
  match bad with [] => mret () | _ => fail (errUnreadable bad) end.

Fixpoint referencing_loop (table : bytes) (skipSelf : bool) (es : list (bytes * bytes)) : M (E * tx) (list FKRef) :=
  match es with
  | [] => mret []
  | (k, _) :: es' =>
      desc ← match descKeyName k with Some n => tableFromView n | None => mret None end;
      rest ← referencing_loop table skipSelf es';
      mret (match desc with
            | Some d =>
                if skipSelf && bool_decide (tName d = table) then rest
                else ((λ f, (d, f)) <$> filter (λ f, fkRefTable f = table) (tForeignKeys d)) ++ rest
            | None => rest
            end)
  end.
Definition referencingFKs (table : bytes) (skipSelf : bool) : M (E * tx) (list FKRef) :=
  es ← onTx (gets descEntries);
  referencing_loop table skipSelf es.

Definition writeDescIn (table : bytes) (desc : TableDesc) : M (E * tx) unit :=
  onTx (kv_set (descKey table) (marshalDesc desc)).

(** [alterDesc] inside its transaction; [None] publishes nothing. *)
Definition alterDesc {A : Type} (table : bytes) (mutate : TableDesc -> M (E * tx) (option TableDesc * A)) : M (E * tx) A :=
  old ← descFromView table;
  '(desc, a) ← mutate old;
  match desc with
  | None => mret a
  | Some d => _ ← writeDescIn table d; mret a
  end.

End engine.

(** ** Resolution reads the view *)

(** What a table's name stands for in a map. *)
Definition resolve (m : kvmap) (name : bytes) : outcome (option TableDesc) :=
  match m !! descKey name with
  | None => Ok None
  | Some blob => d ← parseDesc blob; Ok (Some d)
  end.

(** Each cached descriptor is what its bytes parse to. *)
Definition cache_ok (c : Cat) : Prop := forall name blob d, cCache c !! name = Some (blob, d) -> parseDesc blob = Ok d.

Section laws.
Context {E : Type} {eng : EngineOps E} {cs : CatState E} {cat_laws : CatLaws E}.
Context {tx : Type} {kv : KV tx} {kv_laws : KVLaws tx}.

(** Only the cache changed, and it is still right. *)
Definition cached (e e' : E) : Prop :=
  (cache_ok (cat e) -> cache_ok (cat e')) /\ cBackfillLimit (cat e') = cBackfillLimit (cat e) /\ e_occ e' = e_occ e.

#[export] Instance cached_preorder : PreOrder cached.
Proof.
  split; [by intros e|]. intros e1 e2 e3 (H1 & L1 & O1) (H2 & L2 & O2). split_and!; [auto|congruence..].
Qed.

Lemma cached_store name blob d e : parseDesc blob = Ok d -> cached e (with_cat (with_cache (insert name (blob, d))) e).
Proof.
  intros Hp. unfold cached. rewrite cat_with, occ_with. split; [|done]. intros Hc n b d'. cbn.
  rewrite lookup_insert. case_decide; [by intros [= <- <-]|apply Hc].
Qed.

(** The parse cache is transparent: resolution gives what the view's own
    bytes parse to, whatever the cache holds. *)
Lemma wp_tableFromView name Q (e : E) (t : tx) : cache_ok (cat e) ->
  (forall e', cached e e' -> Q (resolve (kv_map t) name) (e', t)) -> wp (tableFromView name) Q (e, t).
Proof.
  intros Hc HQ. unfold tableFromView, resolve in *. apply wp_bind, wp_onTx, wp_gets. cbn [seqQ].
  rewrite kv_get_map in *. destruct (kv_map t !! descKey name) as [bs|]; [|by apply wp_ret, HQ].
  apply wp_bind, wp_onE. intros o e0 [= <- <-]. cbn [seqQ].
  assert (wp (desc ← lift (parseDesc bs); _ ← cacheStore name bs desc; mret (Some desc)) Q (e, t)) as Hmiss.
  { apply wp_bind_lift. destruct (parseDesc bs) as [d|er|p] eqn:Ep; cbn [seqQ mbind outcome_bind] in *; [|by apply HQ..].
    apply wp_bind, wp_onE. intros o e1 [= <- <-]. cbn [seqQ]. apply wp_ret, HQ. by apply cached_store. }
  destruct (cCache (cat e) !! name) as [[b d]|] eqn:En; [|done].
  case_decide as Hb; [|done]. subst b. apply Hc in En. rewrite En in HQ. by apply wp_ret, HQ.
Qed.

Lemma wp_descFromView table Q (e : E) (t : tx) : cache_ok (cat e) ->
  (forall e', cached e e' -> Q (od ← resolve (kv_map t) table; match od with Some d => Ok d | None => Err errNoTable end) (e', t)) ->
  wp (descFromView table) Q (e, t).
Proof.
  intros Hc HQ. unfold descFromView. apply wp_bind, wp_tableFromView; [done|]. intros e' He. specialize (HQ e' He).
  destruct (resolve (kv_map t) table) as [[d|]| |]; cbn [seqQ mbind outcome_bind] in *; [by apply wp_ret|by apply wp_fail|done..].
Qed.

End laws.
