(* ===== verification/Store.v ===== *)
(** * Schema transactions

    [engine.go]'s [updateDDL]: one schema change is one transaction of the
    store. btypedb's transactions are the interface [DB]; other goroutines
    may commit between and during the attempts, which [interf] stands for.
    The rule [wp_updateDDL] is the atomicity of a schema change: either the
    closure's writes land together on the state it ran against, or none do. *)
From S2P Require Import Prelude GoVal GoStr Tuple KV Catalog Dml Engine.

Local Open Scope Z_scope.

(** How a schema transaction runs: under the writer lock of serialized mode
    ([Update]), optimistically with [MarkExclusive], or with the head frozen
    ([UpdateExclusive]). [RowUpdate] is the [Update] of a row statement,
    which in concurrent-writes mode is validated by its write set alone, and
    whose closure is not guarded against panics. *)
Inductive txMode := Serialized | Optimistic | Locked | RowUpdate.

(** One transaction: the closure's own outcome and the commit's. A closure
    that fails is rolled back, and so is one that panics ([guardPanic]). *)
Class DB (E S tx : Type) := {
  db_txn : forall A : Type, txMode -> M (E * tx) A -> E * S -> outcome A * outcome unit * (E * S);
}.
Arguments db_txn {_ _ _ _ A} _ _ _.

(** The goroutine that holds the open write transaction (0 when none does),
    and the calling one. *)
Class Guarded (E : Type) := {
  e_writerGID : E -> Z;
  e_curGID : E -> Z;
}.

(** The in-memory counter allocators of concurrent-writes mode, discarded
    when a schema change removes their counters. *)
Class Allocators (E : Type) := {
  e_invalidateCounter : bytes -> E -> E;
  e_invalidateCounterPrefix : bytes -> E -> E;
  e_invalidateSeqObj : bytes -> E -> E;
}.
Class AllocatorLaws (E : Type) {eng : EngineOps E} {cs : CatState E} {al : Allocators E} := {
  cat_invalidate key (e : E) : cat (e_invalidateCounter key e) = cat e;
  cat_invalidate_prefix key (e : E) : cat (e_invalidateCounterPrefix key e) = cat e;
  cat_invalidate_seq key (e : E) : cat (e_invalidateSeqObj key e) = cat e;
  occ_invalidate key (e : E) : e_occ (e_invalidateCounter key e) = e_occ e;
  occ_invalidate_prefix key (e : E) : e_occ (e_invalidateCounterPrefix key e) = e_occ e;
  occ_invalidate_seq key (e : E) : e_occ (e_invalidateSeqObj key e) = e_occ e;
}.

Definition ddlOptimisticTries : nat := 2.
Definition errReentrant : error :=
  ENew (go "engine write inside the goroutine's own open write transaction would deadlock").

Section store.
Context {E S tx : Type} {eng : EngineOps E} {grd : Guarded E} {kv : KV tx} {db : DB E S tx}.

Definition checkReentrantWrite : M (E * S) unit := λ s,
  if e_occ s.1 then (Ok tt, s)
  else if negb (e_writerGID s.1 =? 0) && (e_writerGID s.1 =? e_curGID s.1) then (Err errReentrant, s)
  else (Ok tt, s).

(** What a transaction returns to its caller. *)
Definition txResult {A : Type} (o : outcome A) (c : outcome unit) : outcome A :=
  match o, c with
  | Ok _, Err er => Err er
  | Ok _, Panic p => Panic p
  | _, _ => o
  end.
Definition isConflict {A : Type} (o : outcome A) : bool :=
  match o with Err ETxConflict => true | _ => false end.

(** The closure may change variables it captured; [l] is what it left in
    them, for the next attempt to start from. *)
Fixpoint optimistically {L A : Type} (n : nat) (l : L) (fn : L -> M (E * tx) (A * L)) : M (E * S) (A * L) := λ s,
  match n with
  | O => let '(o, c, s') := db_txn Locked (fn l) s in (txResult o c, s')
  | Datatypes.S n' =>
      let '(o, c, s') := db_txn Optimistic (fn l) s in
      if isConflict (txResult o c) then
        optimistically n' (match o with Ok (_, l') => l' | _ => l end) fn s'
      else (txResult o c, s')
  end.

Definition runDDL {L A : Type} (l : L) (fn : L -> M (E * tx) (A * L)) : M (E * S) (A * L) := λ s,
  if e_occ s.1 then optimistically ddlOptimisticTries l fn s
  else let '(o, c, s') := db_txn Serialized (fn l) s in (txResult o c, s').
Definition updateDDL {L A : Type} (l : L) (fn : L -> M (E * tx) (A * L)) : M (E * S) A :=
  _ ← checkReentrantWrite;
  '(a, _) ← runDDL l fn;
  mret a.

(** A closure that captures nothing it changes. *)
Definition updateDDL' {A : Type} (fn : M (E * tx) A) : M (E * S) A :=
  updateDDL tt (λ _, a ← fn; mret (a, tt)).

End store.

(** ** What the engine relies on *)

(** [db_head] is the committed state. A transaction starts from a state
    that interference leads to from the one at the call; a schema
    transaction that commits does so on the state it started from; one whose
    closure fails, or that loses a conflict, leaves no trace. A commit is
    visible before its log record is written, so an error of that kind
    ([unsure]) leaves the writes or leaves no trace. Only an optimistic
    transaction can lose a conflict. The same holds of a row statement in
    serialized mode that does not panic. *)
Class DBLaws (E S tx : Type) {eng : EngineOps E} {kv : KV tx} {kv_laws : KVLaws tx} {db : DB E S tx} := {
  db_head : S -> kvmap;
  interf : E * kvmap -> E * kvmap -> Prop;
  unsure : error -> Prop;
  unsure_conflict : ~ unsure ETxConflict;
  db_txn_runs (A : Type) mode (fn : M (E * tx) A) e s : (mode = RowUpdate -> e_occ e = false) -> exists e0 t c e' s',
    interf (e, db_head s) (e0, kv_map t) /\ kv_writable t = true /\
    db_txn mode fn (e, s) = ((fn (e0, t)).1, c, (e', s')) /\
    ((mode = RowUpdate -> is_panic (fn (e0, t)).1 = false) ->
    let '(e1, t1) := (fn (e0, t)).2 in
    match c with
    | Ok _ => is_ok (fn (e0, t)).1 = true /\ interf (e1, kv_map t1) (e', db_head s')
    | Err er => (interf (e1, kv_map t) (e', db_head s') \/
        unsure er /\ is_ok (fn (e0, t)).1 = true /\ interf (e1, kv_map t1) (e', db_head s')) /\ (er = ETxConflict -> mode = Optimistic)
    | Panic _ => False
    end);
}.

Section laws.
Context {E S tx : Type} {eng : EngineOps E} {grd : Guarded E} {kv : KV tx} {kv_laws : KVLaws tx}.
Context {db : DB E S tx} {db_laws : DBLaws E S tx}.

(** A property of the engine and the committed state that others keep. *)
Definition stable (I : E -> kvmap -> Prop) : Prop := forall e m e' m',
  I e m -> interf (e, m) (e', m') -> I e' m'.

(** One attempt: its effect if the commit stands, and what is left if not. *)
Definition attempt {L A : Type} (I : E -> kvmap -> Prop) (P : L -> Prop)
    (Q : outcome (A * L) -> E -> kvmap -> Prop) (fn : L -> M (E * tx) (A * L)) : Prop :=
  forall l e0 t, P l -> I e0 (kv_map t) -> kv_writable t = true ->
    wp (fn l) (λ o s1, I s1.1 (kv_map t) /\
      match o with
      | Ok (a, l1) => P l1 /\ forall e' m', interf (s1.1, kv_map s1.2) (e', m') -> Q (Ok (a, l1)) e' m' /\ forall er, unsure er -> Q (Err er) e' m'
      | Err er => forall e' m', I e' m' -> Q (Err er) e' m'
      | Panic p => forall e' m', I e' m' -> Q (Panic p) e' m'
      end) (e0, t).

Context (I : E -> kvmap -> Prop) (HI : stable I).

Lemma txn_attempt {L A : Type} (P : L -> Prop) Q (fn : L -> M (E * tx) (A * L)) mode l e s : attempt I P Q fn ->
  (forall er e' m', I e' m' -> Q (Err er) e' m') -> P l -> I e (db_head s) -> mode <> RowUpdate ->
  let '(o, c, s') := db_txn mode (fn l) (e, s) in
  if isConflict (txResult o c) then
    I s'.1 (db_head s'.2) /\ P (match o with Ok (_, l') => l' | _ => l end) /\ (mode <> Optimistic -> Q (txResult o c) s'.1 (db_head s'.2))
  else Q (txResult o c) s'.1 (db_head s'.2).
Proof.
  intros Ha Hq Hl HIe Hmode. destruct (db_txn_runs (A * L) mode (fn l) e s) as (e0 & t & c & e' & s' & Hi & Hw & -> & Hc); [done|].
  specialize (Hc ltac:(done)).
  pose proof (HI _ _ _ _ HIe Hi) as HI0. specialize (Ha l e0 t Hl HI0 Hw). unfold wp in Ha.
  destruct (fn l (e0, t)) as [o [e1 t1]]. cbn [fst snd] in *. destruct Ha as [HI1 Ha].
  destruct c as [[]|er|p]; [|destruct Hc as [Hc Hm]|done].
  - destruct Hc as [Ho Hc]. destruct o as [[a l1]| |]; [|done..]. cbn. by apply Ha.
  - destruct Hc as [Hc|(Hu & Ho & Hc)].
    2:{ destruct o as [[a l1]| |]; [|done..]. destruct Ha as [_ Ha]. destruct (Ha _ _ Hc) as [_ Hq']. specialize (Hq' er Hu). cbn.
        destruct er; cbn; try done. by apply unsure_conflict in Hu. }
    pose proof (HI _ _ _ _ HI1 Hc) as HI'.
    destruct o as [[a l1]|er'|p']; cbn [txResult isConflict].
    + destruct Ha as [Hl1 _]. destruct er; cbn; try (by apply Hq). split_and!; [done..|]. intros. by apply Hq.
    + destruct er'; cbn; try (by apply Hq). split_and!; [done..|]. intros. by apply Hq.
    + by apply Ha.
Qed.

(** Atomicity: a schema change that succeeds is the closure's effect on a
    committed state; one that fails changes nothing. *)
Lemma wp_updateDDL {L A : Type} (P : L -> Prop) (Q : outcome A -> E -> kvmap -> Prop) l (fn : L -> M (E * tx) (A * L)) e s :
  attempt I P (λ o, Q (fst <$> o)) fn -> (forall er e' m', I e' m' -> Q (Err er) e' m') -> P l -> I e (db_head s) ->
  wp (updateDDL l fn) (λ o s', Q o s'.1 (db_head s'.2)) (e, s).
Proof.
  intros Ha Hq Hl HIe. unfold updateDDL. apply wp_bind. unfold wp, checkReentrantWrite. cbn [fst snd].
  assert (wp ('(a, _) ← runDDL l fn; mret a) (λ o s', Q o s'.1 (db_head s'.2)) (e, s)) as Hrun;
    [|destruct (e_occ e); [done|]; destruct (_ && _); [by apply Hq|done]].
  apply wp_bind. unfold wp at 1, runDDL. cbn [fst snd].
  assert (forall n l e s, P l -> I e (db_head s) ->
    Q (fst <$> (optimistically n l fn (e, s)).1) (optimistically n l fn (e, s)).2.1 (db_head (optimistically n l fn (e, s)).2.2)) as Hn.
  { clear l e s Hl HIe. intros n. induction n as [|n IH]; intros l e s Hl HIe; cbn [optimistically].
    - pose proof (txn_attempt P (λ o, Q (fst <$> o)) fn Locked l e s Ha Hq Hl HIe ltac:(done)) as H.
      destruct (db_txn Locked (fn l) (e, s)) as [[o c] s']. destruct (isConflict _); [|done]. destruct H as (_ & _ & H). by apply H.
    - pose proof (txn_attempt P (λ o, Q (fst <$> o)) fn Optimistic l e s Ha Hq Hl HIe ltac:(done)) as H.
      destruct (db_txn Optimistic (fn l) (e, s)) as [[o c] [e' s']]. cbn [fst snd] in *.
      destruct (isConflict (txResult o c)); [|done]. destruct H as (HI' & Hl' & _). by apply IH. }
  destruct (e_occ e).
  - specialize (Hn ddlOptimisticTries l e s Hl HIe). by destruct (optimistically ddlOptimisticTries l fn (e, s)) as [[[a l1]|er|p] s'].
  - pose proof (txn_attempt P (λ o, Q (fst <$> o)) fn Serialized l e s Ha Hq Hl HIe ltac:(done)) as H.
    destruct (db_txn Serialized (fn l) (e, s)) as [[o c] s'].
    destruct (isConflict _); [destruct H as (_ & _ & H); specialize (H ltac:(done))|]; by destruct (txResult o c) as [[]| |].
Qed.

End laws.
