(* ===== verification/SeqAlloc.v ===== *)
(** * Counters outside transactions

    [seqalloc.go]: in concurrent-writes mode a counter is drawn from an
    in-memory allocator behind its own mutex, and the store holds a high
    watermark, raised before any value below it is handed out. Goroutines
    draw, bump and invalidate at once, while others commit to the store; the
    calls are programs of [Threads.v]. *)
From S2P Require Import Prelude GoVal GoStr Tuple KV Catalog Seq Dml Engine Store Threads.

Local Open Scope Z_scope.

Definition seqAllocBatch : Z := 32.
Definition seqConflictRetries : nat := 10.
Definition seqAllocRetries : nat := 8.

Record counterAlloc := mkCounter {
  caDead : bool;
  caLoaded : bool;
  caExisted : bool;
  caNext : Z;
  caWatermark : Z;
}.
Definition newCounter : counterAlloc := mkCounter false false false 0 0.
Definition ca_dead (a : counterAlloc) : counterAlloc :=
  mkCounter true (caLoaded a) (caExisted a) (caNext a) (caWatermark a).
Definition ca_next (v : Z) (a : counterAlloc) : counterAlloc :=
  mkCounter (caDead a) (caLoaded a) (caExisted a) v (caWatermark a).

Definition errKeptLosing (what : bytes) : error := ENew (go "sequence " ++ what ++ go " kept losing to concurrent resets").

Section alloc.
Context {tx : Type} {kv : KV tx}.
Abbreviation prog := (@prog counterAlloc tx).

(** [seqPut]: the transaction, again while it loses conflicts. *)
Fixpoint seqPut_loop {C A : Type} (n : nat) (fn : M tx A) (assign : option (nat * (A -> C -> C))) : @Threads.prog C tx (outcome A) :=
  o ← act1 (AUpdate fn assign);
  match n with
  | O => mret o
  | S n' => if isConflict o then seqPut_loop n' fn assign else mret o
  end.
Definition seqPut {C A : Type} (fn : M tx A) (assign : option (nat * (A -> C -> C))) : @Threads.prog C tx (outcome A) :=
  seqPut_loop (pred seqConflictRetries) fn assign.

(** ** Allocators and the map that finds them *)

Definition counterAllocFor (key : bytes) : prog nat := act1 (AFetch key newCounter).

Definition markDead (l : nat) : prog unit :=
  a ← act1 (ALock l);
  _ ← act1 (AWrite l (ca_dead a) None);
  act1 (AUnlock l).
Definition invalidateCounter (key : bytes) : prog unit :=
  ol ← act1 (AForget key);
  match ol with Some l => markDead l | None => mret tt end.
Fixpoint markAllDead (ls : list nat) : prog unit :=
  match ls with [] => mret tt | l :: ls' => _ ← markDead l; markAllDead ls' end.
Definition invalidateCounterPrefix (prefix : bytes) : prog unit :=
  ls ← act1 (AForgetPrefix prefix); markAllDead ls.
Definition dropCounterAlloc (key : bytes) (l : nat) : prog unit :=
  _ ← act1 (ADrop key l); markDead l.

(** ** Inside an allocator's critical section *)

(** [a] is the allocator's contents; the new contents come with the result. *)
Definition loadLocked (l : nat) (key : bytes) (start : Z) (a : counterAlloc) : prog (outcome unit * counterAlloc) :=
  if caLoaded a then mret (Ok tt, a)
  else
    raw ← act1 (AGet key);
    match match raw with Some raw => v ← readCounter raw; Ok (v, true) | None => Ok (start, caExisted a) end with
    | Ok (v, existed) =>
        let a := mkCounter (caDead a) true existed v v in
        _ ← act1 (AWrite l a None);
        mret (Ok tt, a)
    | Err er => mret (Err er, a)
    | Panic p => mret (Panic p, a)
    end.

(** The transaction of [reserveLocked]: the range it reserves, written down. *)
Definition reserveIn (key : bytes) (floor : Z) (a : counterAlloc) (extending : bool) : M tx (Z * Z) :=
  raw ← gets (kv_get key);
  base ← match raw with
         | Some raw =>
             s ← lift (readCounter raw);
             if extending && (s <? caWatermark a) then fail ESeqReset else mret (Z.max floor s)
         | None => if caExisted a then fail ESeqReset else mret floor
         end;
  if base =? maxUint64 then fail errExhausted
  else
    let wm := (base + seqAllocBatch) mod 2 ^ 64 in
    let wm := if wm <? base then maxUint64 else wm in
    _ ← kv_set key (be64 wm);
    mret (base, wm).
Definition setReserved (bw : Z * Z) (a : counterAlloc) : counterAlloc :=
  mkCounter (caDead a) (caLoaded a) true bw.1 bw.2.
Definition reserveLocked (l : nat) (key : bytes) (floor : Z) (extending : bool) (a : counterAlloc) : prog (outcome unit * counterAlloc) :=
  o ← seqPut (reserveIn key floor a extending) (Some (l, setReserved));
  mret (match o with
        | Ok bw => (Ok tt, setReserved bw a)
        | Err er => (Err er, a)
        | Panic p => (Panic p, a)
        end).

Definition takeLocked (l : nat) (key : bytes) (start : Z) (a : counterAlloc) : prog (outcome Z) :=
  '(o, a) ← loadLocked l key start a;
  '(o, a) ← match o with
            | Ok _ => if caWatermark a <=? caNext a then reserveLocked l key (caNext a) true a else mret (o, a)
            | _ => mret (o, a)
            end;
  match o with
  | Ok _ =>
      let v := caNext a in
      _ ← act1 (AWrite l (ca_next ((v + 1) mod 2 ^ 64) a) (Some v));
      mret (Ok v)
  | Err er => mret (Err er)
  | Panic p => mret (Panic p)
  end.

(** ** The calls *)

Definition isReset {A : Type} (o : outcome A) : bool := match o with Err ESeqReset => true | _ => false end.

(** Fetch the allocator, run [critical] on it under its lock, and start over
    when it is dead or its counter was reset. *)
Fixpoint withCounter {A : Type} (n : nat) (key : bytes) (critical : nat -> counterAlloc -> prog (outcome A)) (what : bytes) : prog (outcome A) :=
  match n with
  | O => mret (Err (errKeptLosing what))
  | S n' =>
      l ← counterAllocFor key;
      a ← act1 (ALock l);
      if caDead a then _ ← act1 (AUnlock l); withCounter n' key critical what
      else
        o ← critical l a;
        _ ← act1 (AUnlock l);
        if isReset o then _ ← dropCounterAlloc key l; withCounter n' key critical what
        else mret o
  end.

Definition allocCounter (key : bytes) (start : Z) : prog (outcome Z) :=
  withCounter seqAllocRetries key (λ l a, takeLocked l key start a) (go "allocation").

Definition bumpLocked (l : nat) (key : bytes) (next : Z) (a : counterAlloc) : prog (outcome unit) :=
  '(o, a) ← loadLocked l key 1 a;
  match o with
  | Ok _ =>
      if next <=? caNext a then mret (Ok tt)
      else if next <? caWatermark a then _ ← act1 (AWrite l (ca_next next a) None); mret (Ok tt)
      else '(o, _) ← reserveLocked l key next false a; mret o
  | _ => mret o
  end.
Definition bumpCounterAllocTo (key : bytes) (next : Z) : prog (outcome unit) :=
  withCounter seqAllocRetries key (λ l a, bumpLocked l key next a) (go "bump").

Definition setCounterDirect (key : bytes) (next : Z) : prog (outcome unit) :=
  o ← seqPut (kv_set key (be64 next)) None;
  match o with Ok _ => _ ← invalidateCounter key; mret o | _ => mret o end.
Definition deleteCounterDirect (key : bytes) : prog (outcome bool) :=
  o ← seqPut (kv_delete key) None;
  match o with Ok _ => _ ← invalidateCounter key; mret o | _ => mret o end.

(** The next value of a live allocator and whether the counter existed;
    [None] when the stored record is to be read. *)
Definition peekCounterOCC (key : bytes) : prog (option (Z * bool)) :=
  ol ← act1 (AFind key);
  match ol with
  | None => mret None
  | Some l =>
      a ← act1 (ALock l);
      _ ← act1 (AUnlock l);
      mret (if negb (caLoaded a) || caDead a then None else Some (caNext a, caExisted a))
  end.

(** ** [seq.go] in concurrent-writes mode *)

Definition NextSeqOCC (name : bytes) : prog (outcome Z) :=
  match checkSeqName name with Ok _ => allocCounter (seqNameKey name) 1 | Err er => mret (Err er) | Panic p => mret (Panic p) end.
Definition SetSeqOCC (name : bytes) (next : Z) : prog (outcome unit) :=
  match checkSeqName name with Ok _ => setCounterDirect (seqNameKey name) next | o => mret o end.
Definition DeleteSeqOCC (name : bytes) : prog (outcome bool) :=
  match checkSeqName name with Ok _ => deleteCounterDirect (seqNameKey name) | Err er => mret (Err er) | Panic p => mret (Panic p) end.
Definition PeekSeqOCC (name : bytes) : prog (outcome (option Z)) :=
  match checkSeqName name with
  | Ok _ =>
      live ← peekCounterOCC (seqNameKey name);
      match live with
      | Some (v, existed) => mret (Ok (if existed : bool then Some v else None))
      | None => raw ← act1 (AGet (seqNameKey name)); mret (match raw with None => Ok None | Some raw => Some <$> readCounter raw end)
      end
  | Err er => mret (Err er)
  | Panic p => mret (Panic p)
  end.

End alloc.

(** ** The invariant *)

(** The counter in the store. *)
Definition stored (m : kvmap) (key : bytes) : option Z :=
  match m !! key with Some raw => match readCounter raw with Ok v => Some v | _ => None end | None => None end.
(** Other writers may raise a counter; lowering or deleting one is a reset,
    which makes its values repeat by design. *)
Definition raises (m m' : kvmap) : Prop :=
  forall key s, stored m key = Some s -> exists s', stored m' key = Some s' /\ s <= s'.

#[export] Instance raises_preorder : PreOrder raises.
Proof.
  split; [by intros m key s Hs; exists s|]. intros m1 m2 m3 H1 H2 key s Hs.
  destruct (H1 key s Hs) as (s2 & Hs2 & ?). destruct (H2 key s2 Hs2) as (s3 & Hs3 & ?). exists s3. split; [done|lia].
Qed.

(** The values an allocator may still hand out from memory. *)
Definition in_range (a : counterAlloc) (v : Z) : Prop := caNext a <= v < caWatermark a.

Record alloc_ok (m : kvmap) (key : bytes) (a : counterAlloc) : Prop := {
  al_next : 0 <= caNext a <= caWatermark a;
  al_watermark : caWatermark a <= maxUint64;
  al_covered : caExisted a = true -> exists s, stored m key = Some s /\ caWatermark a <= s;
  al_empty : caExisted a = false -> caNext a = caWatermark a;
  al_unloaded : caLoaded a = false -> caExisted a = false;
}.

Abbreviation cworld := (world counterAlloc).

(** Every value out in the world is below the watermark of its counter, was
    handed out once, and is in no allocator's range; the ranges of a counter's
    allocators, dead ones included, do not overlap. *)
Record inv (w : cworld) : Prop := {
  inv_map key l : w_map w !! key = Some l -> serves l key w;
  inv_cell l c : w_heap w !! l = Some c -> alloc_ok (w_kv w) (ckey c) (val c);
  inv_disjoint l1 l2 c1 c2 v : w_heap w !! l1 = Some c1 -> w_heap w !! l2 = Some c2 -> ckey c1 = ckey c2 ->
    in_range (val c1) v -> in_range (val c2) v -> l1 = l2;
  inv_durable t key v : (t, key, v) ∈ w_drawn w -> exists s, stored (w_kv w) key = Some s /\ v < s;
  inv_spent t key v l c : (t, key, v) ∈ w_drawn w -> w_heap w !! l = Some c -> ckey c = key -> ~ in_range (val c) v;
  inv_once : NoDup ((λ d, (d.1.2, d.2)) <$> w_drawn w);
}.

Lemma alloc_ok_raises m m' key a : raises m m' -> alloc_ok m key a -> alloc_ok m' key a.
Proof.
  intros Hr [H1 H2 H3 H4 H5]. split; [done..| |done|done]. intros He. destruct (H3 He) as (s & Hs & ?).
  destruct (Hr key s Hs) as (s' & ? & ?). exists s'. split; [done|lia].
Qed.
Lemma alloc_ok_new m key : alloc_ok m key newCounter.
Proof. split; cbn; [lia|unfold maxUint64; lia|done..]. Qed.

Lemma inv_env w m : inv w -> raises (w_kv w) m -> inv (set_kv m w).
Proof.
  intros [H1 H2 H3 H4 H5 H6] Hr. split; cbn; try done.
  - intros l c Hl. eapply alloc_ok_raises; eauto.
  - intros t key v Hd. destruct (H4 t key v Hd) as (s & Hs & ?). destruct (Hr key s Hs) as (s' & ? & ?). exists s'. split; [done|lia].
Qed.
Lemma inv_crash w : inv w -> inv (crash w).
Proof. intros [H1 H2 H3 H4 H5 H6]. split; cbn; try done; intros; simplify_map_eq. Qed.

(** A record's contents change, and the store: its new range is part of its
    old one or beyond the stored watermark. *)
Lemma inv_set w l c c' m : inv w -> w_heap w !! l = Some c -> raises (w_kv w) m -> ckey c' = ckey c ->
  alloc_ok m (ckey c) (val c') ->
  (forall v, in_range (val c') v -> in_range (val c) v \/ forall s, stored (w_kv w) (ckey c) = Some s -> s <= v) ->
  inv (World m (w_map w) (<[l := c']> (w_heap w)) (w_drawn w)).
Proof.
  intros Hw Hl Hr Hk Ha Hv. pose proof Hw as [H1 H2 H3 H4 H5 H6].
  assert (forall l0 c0 v, w_heap w !! l0 = Some c0 -> ckey c0 = ckey c -> l0 <> l -> in_range (val c0) v -> ~ in_range (val c') v) as Hdis.
  { intros l0 c0 v Hl0 Hk0 Hne Hv0 Hv'. destruct (Hv v Hv') as [Hc|Hs]; [by apply Hne, (H3 l0 l c0 c v)|].
    pose proof (H2 l0 c0 Hl0) as A0. destruct (caExisted (val c0)) eqn:Ex.
    - destruct (al_covered _ _ _ A0 Ex) as (s & Hs0 & Hle). rewrite Hk0 in Hs0. specialize (Hs s Hs0). unfold in_range in *. lia.
    - pose proof (al_empty _ _ _ A0 Ex). unfold in_range in *. lia. }
  split; cbn; [..|done].
  - intros key l0 Hm. destruct (H1 key l0 Hm) as (c0 & Hl0 & Hk0). unfold serves. cbn. rewrite lookup_insert.
    case_decide; [subst; exists c'; split; [done|congruence]|by exists c0].
  - intros l0 c0. rewrite lookup_insert. case_decide; [by intros [= <-]; rewrite Hk|]. intros Hl0. eapply alloc_ok_raises; eauto.
  - intros l1 l2 c1 c2 v. rewrite !lookup_insert. case_decide as E1; case_decide as E2; subst; [done|..].
    + intros [= <-] Hl2 Hk12 Hv1 Hv2. destruct (Hdis l2 c2 v); [done|congruence|done..].
    + intros Hl1 [= <-] Hk12 Hv1 Hv2. destruct (Hdis l1 c1 v); [done|congruence|done..].
    + apply H3.
  - intros t key v Hd. destruct (H4 t key v Hd) as (s & Hs & ?). destruct (Hr key s Hs) as (s' & ? & ?). exists s'. split; [done|lia].
  - intros t key v l0 c0 Hd. rewrite lookup_insert. case_decide; [|by apply (H5 t)]. intros [= <-] Hkey Hv'.
    destruct (Hv v Hv') as [Hc|Hs]; [apply (H5 t key v l c); [done..|congruence|done]|]. destruct (H4 t key v Hd) as (s & Hs0 & ?).
    assert (key = ckey c) as -> by congruence. specialize (Hs s Hs0). lia.
Qed.

(** The next value of a range is handed out. *)
Lemma inv_hand w tid l c : inv w -> w_heap w !! l = Some c -> in_range (val c) (caNext (val c)) ->
  inv (World (w_kv w) (w_map w) (<[l := set_val (ca_next (caNext (val c) + 1)) c]> (w_heap w))
         ((tid, ckey c, caNext (val c)) :: w_drawn w)).
Proof.
  intros Hw Hl Hr. pose proof Hw as [H1 H2 H3 H4 H5 H6]. set (v := caNext (val c)) in *.
  pose proof (H2 l c Hl) as [A1 A2 A3 A4 A5].
  assert (exists s, stored (w_kv w) (ckey c) = Some s /\ v < s) as Hs.
  { destruct (caExisted (val c)); [|specialize (A4 eq_refl); unfold in_range in Hr; lia].
    destruct (A3 eq_refl) as (s & ? & ?). exists s. split; [done|]. unfold in_range in Hr. lia. }
  destruct (inv_set w l c (set_val (ca_next (v + 1)) c) (w_kv w) Hw Hl) as [B1 B2 B3 B4 B5 B6]; [done|done| | |].
  - unfold in_range in Hr. split; cbn; [lia|lia|done| |done]. intros E. specialize (A4 E). lia.
  - intros u Hu. left. unfold in_range in *. cbn in Hu. lia.
  - split; cbn [w_kv w_map w_heap w_drawn] in *; try done.
    + intros t key u [[= -> -> ->]|Hd]%elem_of_cons; [done|by apply (B4 t)].
    + intros t key u l0 c0 [[= -> -> ->]|Hd]%elem_of_cons; [|by apply (B5 t)]. rewrite lookup_insert.
      case_decide as E; [intros [= <-] _; unfold in_range; cbn; lia|]. intros Hl0 Hk Hu. apply E. symmetry. by apply (H3 l0 l c0 c v).
    + rewrite fmap_cons. apply NoDup_cons. split; [|done]. intros ([[t key] u] & E & Hd)%list_elem_of_fmap. cbn in E.
      injection E as <- <-. by apply (H5 t (ckey c) v l c).
Qed.

(** ** The transactions *)

Section updates.
Context {tx : Type} {kv : KV tx} {kv_laws : KVLaws tx} {up : Updates tx} {up_laws : UpdateLaws tx}.

Lemma stored_be64 m key v : uint64_ok v -> stored (<[key := be64 v]> m) key = Some v.
Proof. intros Hv. unfold stored. by rewrite lookup_insert_eq, readCounter_be64. Qed.

Lemma reserveIn_ok key floor a ext (t : tx) base wm t' : uint64_ok floor -> reserveIn key floor a ext t = (Ok (base, wm), t') ->
  kv_map t' = <[key := be64 wm]> (kv_map t) /\ floor <= base < wm /\ wm <= maxUint64 /\
  (forall raw, kv_map t !! key = Some raw -> exists s, readCounter raw = Ok s /\ s <= base).
Proof.
  intros Hf. unfold reserveIn. unfold mbind, M_bind, gets, lift, fail, mret, M_ret. rewrite kv_get_map.
  set (ob := match kv_map t !! key with Some _ => _ | None => _ end).
  destruct (ob t) as [[b|er|p] t1] eqn:Eb; [|done..].
  assert (t1 = t /\ floor <= b <= maxUint64 /\ forall raw, kv_map t !! key = Some raw -> exists s, readCounter raw = Ok s /\ s <= b) as (-> & Hb & Hs).
  { subst ob. destruct (kv_map t !! key) as [raw|].
    - cbn in Eb. destruct (readCounter raw) as [s| |] eqn:Er; [|done..]. pose proof (readCounter_range _ _ Er) as Hs.
      unfold lift in Eb. destruct (ext && _); [done|]. injection Eb as <- <-. unfold uint64_ok, maxUint64 in *. split_and!; [done|lia..|].
      intros raw' [= <-]. exists s. split; [done|lia].
    - destruct (caExisted a); [done|]. injection Eb as <- <-. unfold uint64_ok, maxUint64 in *. split_and!; [done|lia..|done]. }
  destruct (Z.eqb_spec b maxUint64) as [|Hne]; [done|].
  set (w0 := if _ <? _ then _ else _). destruct (kv_writable t) eqn:Hw; [|by rewrite kv_set_ro].
  destruct (kv_set_rw t key (be64 w0) Hw) as (t2 & -> & Hv). intros [= <- <- <-].
  assert (b < w0 <= maxUint64) as Hw0.
  { subst w0. unfold uint64_ok, maxUint64, seqAllocBatch in *. destruct (Z.ltb_spec ((b + 32) mod 2 ^ 64) b) as [|Hge]; [lia|].
    split; [|pose proof (Z.mod_pos_bound (b + 32) (2 ^ 64)); lia]. destruct (decide (b + 32 < 2 ^ 64)) as [Hs'|Hs']; [rewrite Z.mod_small; lia|].
    exfalso. rewrite (Z.mod_eq (b + 32) (2 ^ 64)) in Hge by lia. assert ((b + 32) / 2 ^ 64 = 1) as E by (symmetry; apply (Z.div_unique _ _ _ (b + 32 - 2 ^ 64)); lia).
    rewrite E in Hge. lia. }
  split_and!; [unfold kv_map; by rewrite Hv|lia..|done].
Qed.

(** Its commit. *)
Lemma committed_insert m0 m m' key v : committed m0 (<[key := v]> m0) m m' -> m0 !! key <> Some v ->
  m0 !! key = m !! key /\ forall k, m' !! k = <[key := v]> m !! k.
Proof.
  intros Hc Hne. assert (m0 !! key = m !! key) as E.
  { specialize (Hc key). rewrite lookup_insert_eq in Hc. case_decide; [congruence|]. by destruct Hc. }
  split; [done|]. intros k. specialize (Hc k). destruct (decide (key = k)) as [->|Hk].
  - rewrite lookup_insert_eq in *. case_decide; [congruence|]. by destruct Hc.
  - rewrite lookup_insert_ne in * by done. by rewrite decide_True in Hc.
Qed.
Lemma counter_ext m m' key : m !! key = m' !! key -> stored m key = stored m' key.
Proof. unfold stored. by intros ->. Qed.

Lemma raises_insert m m' key v : (forall k, m' !! k = <[key := be64 v]> m !! k) -> uint64_ok v ->
  (forall s, stored m key = Some s -> s <= v) -> raises m m'.
Proof.
  intros Hm Hv Hs k s Hk. rewrite (counter_ext m' (<[key := be64 v]> m)) by done. destruct (decide (k = key)) as [->|Hne].
  - rewrite stored_be64 by done. eauto.
  - rewrite (counter_ext _ m) by (by rewrite lookup_insert_ne). exists s. split; [done|lia].
Qed.

Lemma reserveIn_commits key floor a ext (t t' : tx) m m' base wm : uint64_ok floor -> reserveIn key floor a ext t = (Ok (base, wm), t') ->
  committed (kv_map t) (kv_map t') m m' ->
  raises m m' /\ stored m' key = Some wm /\ floor <= base < wm /\ wm <= maxUint64 /\ (forall s, stored m key = Some s -> s <= base).
Proof.
  intros Hf Hr Hc. destruct (reserveIn_ok _ _ _ _ _ _ _ _ Hf Hr) as (Ht & Hb & Hwm & Hs). rewrite Ht in Hc.
  assert (uint64_ok wm) as Hw by (unfold uint64_ok, maxUint64 in *; lia).
  apply committed_insert in Hc as [E Hm].
  2:{ intros Hraw. destruct (Hs _ Hraw) as (s & Hrd & Hle). rewrite readCounter_be64 in Hrd by done. simplify_eq. lia. }
  assert (forall s, stored m key = Some s -> s <= base) as Hle.
  { intros s. unfold stored. rewrite <- E. destruct (kv_map t !! key) as [raw|] eqn:Er; [|done]. destruct (Hs raw eq_refl) as (s' & -> & ?). by intros [= <-]. }
  split_and!; [|by rewrite (counter_ext _ (<[key := be64 wm]> m)), stored_be64|lia..|done].
  eapply raises_insert; [done..|]. intros s Hs'. specialize (Hle s Hs'). lia.
Qed.

Lemma reserveIn_no_panic key floor a ext (t : tx) p t' : reserveIn key floor a ext t <> (Panic p, t').
Proof.
  unfold reserveIn. unfold mbind, M_bind, gets, lift, fail, mret, M_ret. destruct (kv_get key t) as [raw|].
  - unfold readCounter, lift. destruct (decide _); [done|]. destruct (ext && _); [done|]. destruct (_ =? _); [done|].
    destruct (kv_writable t) eqn:Hw; [|by rewrite kv_set_ro]. match goal with |- context [kv_set key ?v t] => by destruct (kv_set_rw t key v Hw) as (t1 & -> & _) end.
  - destruct (caExisted a); [done|]. unfold lift. destruct (_ =? _); [done|].
    destruct (kv_writable t) eqn:Hw; [|by rewrite kv_set_ro]. match goal with |- context [kv_set key ?v t] => by destruct (kv_set_rw t key v Hw) as (t1 & -> & _) end.
Qed.

Lemma reserveIn_update key floor a ext m o m' : uint64_ok floor -> kv_update (reserveIn (tx := tx) key floor a ext) m o m' ->
  raises m m' /\ is_panic o = false /\
  forall bw, o = Ok bw -> stored m' key = Some bw.2 /\ floor <= bw.1 < bw.2 /\ bw.2 <= maxUint64 /\ (forall s, stored m key = Some s -> s <= bw.1).
Proof.
  intros Hf Hu. pose proof (kv_update_commits _ _ _ _ _ Hu) as H. destruct o as [[base wm]|er|p].
  - destruct H as (t & t' & _ & Hr & Hc). destruct (reserveIn_commits _ _ _ _ _ _ _ _ _ _ Hf Hr Hc) as (H1 & H2).
    split_and!; [done..|]. by intros bw [= <-].
  - split_and!; [|done..]. destruct H as [->|([base wm] & t & t' & _ & Hr & Hc)]; [done|]. by apply (reserveIn_commits _ _ _ _ _ _ _ _ _ _ Hf Hr Hc).
  - destruct H as (_ & t & t' & Hp). by apply reserveIn_no_panic in Hp.
Qed.
End updates.

(** ** The calls keep the invariant *)

Section calls.
Context {tx : Type} {kv : KV tx} {kv_laws : KVLaws tx} {up : Updates tx} {up_laws : UpdateLaws tx}.
Abbreviation wptc := (wpt (tx := tx) raises inv).
Implicit Types w : cworld.

Lemma inv_owner w l c o : inv w -> w_heap w !! l = Some c -> inv (set_heap (insert l (set_owner o c)) w).
Proof. intros Hw Hl. apply (inv_set w l c); try done; [exact (inv_cell w Hw l c Hl)|by left]. Qed.
Lemma inv_fresh w key new l : inv w -> l = fresh (dom (w_heap w)) -> w_map w !! key = None -> new = newCounter ->
  inv (set_map (insert key l) (set_heap (insert l (Cell None key new)) w)).
Proof.
  intros [H1 H2 H3 H4 H5 H6] -> Hm ->. set (l := fresh _). assert (w_heap w !! l = None) as Hf by (apply not_elem_of_dom, is_fresh).
  assert (forall v, ~ in_range newCounter v) as Hnone by (unfold in_range; cbn; lia). split; cbn; try done.
  - intros k l0. unfold serves. cbn. rewrite lookup_insert. case_decide; [intros [= <-]; subst; eexists; by rewrite lookup_insert_eq|].
    intros Hk. destruct (H1 k l0 Hk) as (c & Hl & ?). exists c. rewrite lookup_insert_ne by congruence. done.
  - intros l0 c. rewrite lookup_insert. case_decide; [intros [= <-]; apply alloc_ok_new|apply H2].
  - intros l1 l2 c1 c2 v. rewrite !lookup_insert. case_decide; case_decide; subst; [done|intros [= <-] _ _ Hv; by destruct (Hnone v)|
      intros _ [= <-] _ _ Hv; by destruct (Hnone v)|apply H3].
  - intros t k v l0 c Hd. rewrite lookup_insert. case_decide; [intros [= <-] _; apply Hnone|by apply (H5 t)].
Qed.
Lemma inv_forget w f : inv w -> (forall key l, f (w_map w) !! key = Some l -> w_map w !! key = Some l) -> inv (set_map f w).
Proof. intros [H1 H2 H3 H4 H5 H6] Hf. split; cbn; try done. intros key l Hl. by apply H1, Hf. Qed.

Lemma inv_update w tid l key a a' m : inv w -> locked tid l key a w -> raises (w_kv w) m -> alloc_ok m key a' ->
  (forall v, in_range a' v -> in_range a v \/ forall s, stored (w_kv w) key = Some s -> s <= v) -> inv (updated l key a' tid m w).
Proof. intros Hw [Hl _] Hr Ha Hv. by apply (inv_set w l (Cell (Some tid) key a) (Cell (Some tid) key a')). Qed.

Lemma markDead_ok tid l key w : inv w -> holds_only tid None w -> serves l key w ->
  wptc tid (markDead l) (λ _ w', inv w' /\ holds_only tid None w') w.
Proof.
  intros Hw Hid Hs. apply wpt_bind. eapply wpt_lock; eauto using inv_owner, raises_preorder. clear w Hw Hid Hs. intros a w Hw Hl.
  apply wpt_bind. eapply wpt_write; eauto using raises_preorder.
  { apply (inv_update w tid l key a (ca_dead a) (w_kv w)); [done..| |by left]. pose proof (inv_cell _ Hw l _ (proj1 Hl)) as []. by split. }
  clear w Hw Hl. intros w Hw Hl _. eapply wpt_unlock; eauto using inv_owner, raises_preorder.
Qed.
Lemma markAllDead_ok tid ls w : inv w -> holds_only tid None w -> Forall (λ l, exists key, serves l key w) ls ->
  wptc tid (markAllDead ls) (λ _ w', inv w' /\ holds_only tid None w') w.
Proof.
  revert w. induction ls as [|l ls IH]; intros w Hw Hid Hls; [done|]. apply Forall_cons in Hls as [(key & Hl) Hls].
  apply wpt_bind. eapply wpt_mono; [by eapply (wpt_later raises inv), markDead_ok|]. intros _ w' [[Hw' Hid'] (Hs & _)].
  apply IH; [done..|]. eapply Forall_impl; [done|]. intros l' (k' & Hl'). eauto.
Qed.
Lemma invalidateCounter_ok tid key w : inv w -> holds_only tid None w ->
  wptc tid (invalidateCounter key) (λ _ w', inv w' /\ holds_only tid None w') w.
Proof.
  intros Hw Hid. apply wpt_bind. eapply wpt_forget; eauto using inv_forget, inv_map, raises_preorder.
  intros [l|] w' Hw' Hid' Hl; [|done]. by eapply markDead_ok; eauto.
Qed.
Lemma invalidateCounterPrefix_ok tid p w : inv w -> holds_only tid None w ->
  wptc tid (invalidateCounterPrefix p) (λ _ w', inv w' /\ holds_only tid None w') w.
Proof.
  intros Hw Hid. apply wpt_bind. eapply wpt_forget_prefix; eauto using inv_forget, inv_map, raises_preorder.
  intros ls w' Hw' Hid' Hl. by apply markAllDead_ok.
Qed.
Lemma dropCounterAlloc_ok tid key l w : inv w -> holds_only tid None w -> serves l key w ->
  wptc tid (dropCounterAlloc key l) (λ _ w', inv w' /\ holds_only tid None w') w.
Proof.
  intros Hw Hid Hs. apply wpt_bind. eapply wpt_drop; eauto using inv_forget, inv_map, raises_preorder.
  intros w' Hw' Hr Hid'. eapply markDead_ok; [done..|]. by eapply serves_rely.
Qed.

(** Inside the critical section: the contents at hand are the record's. *)
Lemma loadLocked_ok tid l key start a w : uint64_ok start -> inv w -> locked tid l key a w ->
  wptc tid (loadLocked l key start a) (λ r w', inv w' /\ locked tid l key r.2 w' /\ (is_ok r.1 = true -> caLoaded r.2 = true)) w.
Proof.
  intros Hst Hw Hl. unfold loadLocked. destruct (caLoaded a) eqn:Eload; [done|]. apply wpt_bind, wpt_get; [apply raises_preorder|done|].
  intros w1 Hr Hw1. pose proof (locked_rely _ _ _ _ _ _ _ Hr Hl) as Hl1.
  assert (forall v ex, uint64_ok v -> (ex = true -> exists s, stored (w_kv w1) key = Some s /\ v <= s) ->
    wptc tid (_ ← act1 (AWrite l (mkCounter (caDead a) true ex v v) None); mret (Ok tt, mkCounter (caDead a) true ex v v))
      (λ r w', inv w' /\ locked tid l key r.2 w' /\ (is_ok r.1 = true -> caLoaded r.2 = true)) w1) as Hset.
  { intros v ex Hv Hex. apply wpt_bind. eapply wpt_write; eauto using raises_preorder; [|by intros w2 Hw2 Hl2 _].
    apply (inv_update w1 tid l key a _ (w_kv w1)); [done..| |by unfold in_range; cbn; lia].
    unfold uint64_ok in Hv. split; cbn; [lia|unfold maxUint64; lia|done..]. }
  pose proof (inv_cell _ Hw1 l _ (proj1 Hl1)) as [A1 A2 A3 A4 A5]. cbn in A5. specialize (A5 Eload).
  destruct (w_kv w !! key) as [raw|] eqn:Eraw; cbn.
  - destruct (readCounter raw) as [v|er|p] eqn:Er; cbn; [|done..]. apply Hset; [by eapply readCounter_range|].
    intros _. apply (rely_kv _ _ _ _ Hr). unfold stored. by rewrite Eraw, Er.
  - apply Hset; [done|]. congruence.
Qed.

Lemma seqPut_ok {A : Type} tid l key a (fn : M tx A) set n w (P : A -> counterAlloc -> Prop) :
  (forall w, inv w -> forall x m, kv_update fn (w_kv w) x m -> raises (w_kv w) m /\ is_panic x = false) ->
  (forall w x m, inv w -> locked tid l key a w -> kv_update fn (w_kv w) (Ok x) m -> inv (updated l key (set x a) tid m w) /\ P x (set x a)) ->
  inv w -> locked tid l key a w ->
  wptc tid (seqPut_loop n fn (Some (l, set))) (λ o w', inv w' /\
    match o with Ok x => locked tid l key (set x a) w' /\ P x (set x a) | _ => locked tid l key a w' end) w.
Proof.
  intros Hraise Hok. revert w. induction n as [|n IH]; intros w Hw Hl; cbn [seqPut_loop]; apply wpt_bind;
    (apply (wpt_update raises inv inv_env tid l key a);
      [done..|by intros x m; apply Hraise|intros x m Hm; by apply Hok| |]).
  - intros er w' Hw' Hl'. done.
  - intros x m w' Hm Hw' Hl'. split_and!; [done..|]. by eapply (Hok w).
  - intros er w' Hw' Hl'. destruct (isConflict (Err er)); [by apply IH|done].
  - intros x m w' Hm Hw' Hl'. split_and!; [done..|]. by eapply (Hok w).
Qed.

Lemma reserveLocked_ok tid l key floor ext a w : uint64_ok floor -> caLoaded a = true -> inv w -> locked tid l key a w ->
  wptc tid (reserveLocked l key floor ext a) (λ r w', inv w' /\ locked tid l key r.2 w' /\
    (is_ok r.1 = true -> in_range r.2 (caNext r.2))) w.
Proof.
  intros Hf Hload Hw Hl. apply wpt_bind. eapply wpt_mono.
  - apply (seqPut_ok tid l key a _ _ _ w (λ _ a', in_range a' (caNext a'))); [..|done|done].
    + intros w1 Hw1 x m Hm. destruct (reserveIn_update _ _ _ _ _ _ _ Hf Hm) as (? & ? & _). done.
    + intros w1 [base wm] m Hw1 Hl1 Hm. destruct (reserveIn_update _ _ _ _ _ _ _ Hf Hm) as (Hr & _ & Hb).
      destruct (Hb _ eq_refl) as (Hs & Hbw & Hmax & Hle). cbn in *. unfold uint64_ok in Hf. split; [|unfold in_range; cbn; lia].
      apply (inv_update w1 tid l key a); [done..| |].
      * split; cbn; [lia|lia|by exists wm|done|congruence].
      * intros v Hv. right. intros s Hs'. specialize (Hle s Hs'). unfold in_range in Hv. cbn in Hv. lia.
  - intros [bw|er|p] w' [Hw' Hl']; [destruct Hl'|..]; done.
Qed.

(** A value is handed out when, and only when, a draw returns it. *)
Lemma takeLocked_ok tid l key start a w : uint64_ok start -> inv w -> locked tid l key a w ->
  wptc tid (takeLocked l key start a) (λ o w', inv w' /\ (exists a', locked tid l key a' w') /\
    forall v, o = Ok v -> (tid, key, v) ∈ w_drawn w') w.
Proof.
  intros Hst Hw Hl. apply wpt_bind. eapply wpt_mono; [by apply loadLocked_ok|]. clear w Hw Hl. intros [o a1] w (Hw & Hl & Hload). cbn [fst snd] in *.
  apply wpt_bind, (wpt_mono _ _ _ _ (λ r w', inv w' /\ locked tid l key r.2 w' /\ (is_ok r.1 = true -> in_range r.2 (caNext r.2)))).
  - pose proof (inv_cell _ Hw l _ (proj1 Hl)) as [A1 A2 _ _ _]. cbn in A1, A2.
    destruct o as [[]|er|p]; [|done..]. destruct (Z.leb_spec (caWatermark a1) (caNext a1)).
    + apply reserveLocked_ok; [unfold uint64_ok, maxUint64 in *; lia|by apply Hload|done..].
    + split_and!; [done..|]. intros _. unfold in_range. cbn. lia.
  - clear w Hw Hl. intros [o' a2] w (Hw & Hl & Hr). cbn [fst snd] in *. destruct o' as [[]|er|p]; [|by split_and!; eauto..].
    specialize (Hr eq_refl). pose proof (inv_cell _ Hw l _ (proj1 Hl)) as [A1 A2 _ _ _]. cbn in A1, A2.
    apply wpt_bind. eapply wpt_write; [apply raises_preorder|done| |].
    + rewrite Z.mod_small by (unfold in_range, maxUint64 in *; lia). apply (inv_hand w tid l (Cell (Some tid) key a2)); [done|apply Hl|done].
    + intros w' Hw' Hl' Hd. split_and!; [done|eauto|]. intros v [= <-]. by apply Hd.
Qed.

Lemma bumpLocked_ok tid l key next a w : uint64_ok next -> inv w -> locked tid l key a w ->
  wptc tid (bumpLocked l key next a) (λ o w', inv w' /\ exists a', locked tid l key a' w') w.
Proof.
  intros Hn Hw Hl. apply wpt_bind. eapply wpt_mono; [by apply loadLocked_ok; [unfold uint64_ok; lia|..]|].
  clear w Hw Hl. intros [o a1] w (Hw & Hl & Hload). cbn [fst snd] in *. destruct o as [[]|er|p]; [|by split; eauto..].
  destruct (Z.leb_spec next (caNext a1)); [by split; eauto|]. destruct (Z.ltb_spec next (caWatermark a1)).
  - apply wpt_bind. eapply wpt_write; eauto using raises_preorder; [|by split; eauto].
    pose proof (inv_cell _ Hw l _ (proj1 Hl)) as [A1 A2 A3 A4 A5]. cbn in *.
    apply (inv_update w tid l key a1 _ (w_kv w)); [done..| |intros v; unfold in_range; cbn; lia].
    split; cbn; [lia|lia|done| |done]. intros Ex. specialize (A4 Ex). lia.
  - apply wpt_bind. eapply wpt_mono; [by apply reserveLocked_ok; [..|apply Hload| |]|]. intros [o' a2] w' (Hw' & Hl' & _). by split; eauto.
Qed.

Lemma unlock_ok tid l key a w : inv w -> locked tid l key a w ->
  wptc tid (act1 (AUnlock l)) (λ _ w', inv w' /\ holds_only tid None w' /\ serves l key w') w.
Proof. intros Hw Hl. eapply wpt_unlock; eauto using inv_owner, raises_preorder. Qed.

Lemma withCounter_ok {A : Type} tid n key (critical : nat -> counterAlloc -> prog (outcome A)) what (P : A -> list (nat * bytes * Z) -> Prop) w :
  (forall v d d', P v d -> d ⊆ d' -> P v d') ->
  (forall l a w, inv w -> locked tid l key a w -> wptc tid (critical l a) (λ o w', inv w' /\ (exists a', locked tid l key a' w') /\
    forall v, o = Ok v -> P v (w_drawn w')) w) ->
  inv w -> holds_only tid None w ->
  wptc tid (withCounter n key critical what) (λ o w', (forall v, o = Ok v -> P v (w_drawn w')) /\ holds_only tid None w') w.
Proof.
  intros Hmono Hcrit. revert w. induction n as [|n IH]; intros w Hw Hid; cbn [withCounter]; [done|].
  apply wpt_bind. eapply (wpt_fetch raises inv (eq newCounter)); eauto using inv_map, raises_preorder.
  { intros w0 k new l0 ????. by apply inv_fresh. }
  clear w Hw Hid. intros l w Hw Hid Hs. apply wpt_bind. eapply wpt_lock; eauto using inv_owner, raises_preorder.
  clear w Hw Hid Hs. intros a w Hw Hl. destruct (caDead a).
  { apply wpt_bind. eapply wpt_unlock; eauto using inv_owner, raises_preorder. }
  apply wpt_bind. eapply wpt_mono; [by apply Hcrit|]. clear w Hw a Hl. intros o w (Hw & (a & Hl) & Ho).
  apply wpt_bind. eapply wpt_mono; [by eapply (wpt_later raises inv), unlock_ok|].
  intros [] w' [(Hw' & Hid' & Hs') (_ & _ & Hd)]. destruct (isReset o) eqn:Er.
  - apply wpt_bind. eapply wpt_mono; [by apply dropCounterAlloc_ok|]. intros [] w2 [Hw2 Hid2]. by apply IH.
  - split; [|done]. intros v Hv. eapply Hmono; eauto.
Qed.

(** ** Any number of calls at once *)

Inductive call :=
  | CAlloc (key : bytes) (start : Z)
  | CBump (key : bytes) (next : Z)
  | CInvalidate (key : bytes)
  | CInvalidatePrefix (prefix : bytes)
  | CPeek (key : bytes).
Definition run_call (k : call) : prog (outcome Z) :=
  match k with
  | CAlloc key start => allocCounter key start
  | CBump key next => o ← bumpCounterAllocTo key next; mret (_ ← o; Ok next)
  | CInvalidate key => _ ← invalidateCounter key; mret (Ok 0)
  | CInvalidatePrefix p => _ ← invalidateCounterPrefix p; mret (Ok 0)
  | CPeek key => o ← peekCounterOCC key; mret (Ok (match o with Some (v, _) => v | None => 0 end))
  end.
(** Starts and bumps are [uint64]. *)
Definition call_ok (k : call) : Prop :=
  match k with CAlloc _ start => uint64_ok start | CBump _ next => uint64_ok next | _ => True end.
Definition call_post (k : call) (tid : nat) (r : outcome Z) (drawn : list (nat * bytes * Z)) : Prop :=
  match k with CAlloc key _ => forall v, r = Ok v -> (tid, key, v) ∈ drawn | _ => True end.

Lemma peekCounterOCC_ok tid key w : inv w -> holds_only tid None w ->
  wptc tid (peekCounterOCC key) (λ _ w', inv w' /\ holds_only tid None w') w.
Proof.
  intros Hw Hid. apply wpt_bind, wpt_find; [apply raises_preorder|done|]. intros w1 Hr Hw1.
  pose proof (holds_only_rely _ _ _ _ _ Hr Hid) as Hid1. destruct (w_map w !! key) as [l|] eqn:Hm; [|done].
  apply wpt_bind. eapply wpt_lock; eauto using inv_owner, raises_preorder; [eapply serves_rely; [done|by apply inv_map]|].
  intros a w2 Hw2 Hl2. apply wpt_bind. eapply wpt_mono; [by eapply unlock_ok|]. intros [] w3 (? & ? & _). done.
Qed.

Lemma run_call_ok k tid w : call_ok k -> inv w -> holds_only tid None w -> wptc tid (run_call k) (done_ok call_post k tid) w.
Proof.
  intros Hk Hw Hid. destruct k as [key start|key next|key|p|key]; cbn [run_call call_ok] in *.
  - apply (withCounter_ok tid _ _ _ _ (λ v d, (tid, key, v) ∈ d)); [set_solver| |done..]. intros l a w1 Hw1 Hl1. by apply takeLocked_ok.
  - apply wpt_bind. eapply wpt_mono; [apply (withCounter_ok tid _ _ _ _ (λ _ _, True)); [done| |done..]|].
    + intros l a w1 Hw1 Hl1. eapply wpt_mono; [by apply bumpLocked_ok|]. intros o w2 [? ?]. done.
    + by intros o w1 [_ ?].
  - apply wpt_bind. eapply wpt_mono; [by apply invalidateCounter_ok|]. by intros [] w1 [_ ?].
  - apply wpt_bind. eapply wpt_mono; [by apply invalidateCounterPrefix_ok|]. by intros [] w1 [_ ?].
  - apply wpt_bind. eapply wpt_mono; [by apply peekCounterOCC_ok|]. by intros o w1 [_ ?].
Qed.

Abbreviation reaches := (rtc (step run_call call_ok raises)).

Lemma inv_boot m : inv (@boot counterAlloc tx call (outcome Z) m).1.
Proof.
  split; cbn; [by intros ?? ?%lookup_empty_Some|by intros ?? ?%lookup_empty_Some|by intros ????? ?%lookup_empty_Some|
    by intros ??? ?%elem_of_nil|by intros ????? ?%elem_of_nil|constructor].
Qed.

Lemma reaches_ok m s : reaches (boot m) s -> config_ok raises inv call_post s.
Proof.
  apply (reachable_ok run_call call_ok raises inv inv_env call_post).
  - intros [] tid r d d'; cbn; set_solver.
  - apply inv_crash.
  - apply run_call_ok.
  - apply inv_boot.
Qed.

(** C15: in concurrent-writes mode no value of a counter is handed out twice,
    however draws, bumps, invalidations and commits that raise counters
    interleave, and across crashes; and the store's watermark is already past
    every value handed out. *)
Theorem allocated_once m s i j key si sj vi vj : reaches (boot m) s -> i <> j ->
  s.2 !! i = Some (CAlloc key si, Ret (Ok vi)) -> s.2 !! j = Some (CAlloc key sj, Ret (Ok vj)) ->
  vi <> vj /\ exists wm, stored (w_kv s.1) key = Some wm /\ vi < wm /\ vj < wm.
Proof.
  intros Hs%reaches_ok Hij Hi Hj. pose proof (ok_inv _ _ _ _ Hs) as Hw.
  pose proof (returned_ok _ _ _ _ _ _ _ Hs Hi vi eq_refl) as Di. pose proof (returned_ok _ _ _ _ _ _ _ Hs Hj vj eq_refl) as Dj.
  destruct (inv_durable _ Hw _ _ _ Di) as (wm & Hwm & ?). destruct (inv_durable _ Hw _ _ _ Dj) as (wm' & Hwm' & ?).
  assert (wm' = wm) as -> by congruence. split; [|by exists wm]. intros <-.
  assert ((i, key, vi) = (j, key, vi)) as [= ->]; [|done]. by eapply NoDup_fmap_inj_in; [apply (inv_once _ Hw)|..].
Qed.


End calls.

(** ** One goroutine alone *)

(** Alone, a short transaction commits the first time. *)
Lemma run_seqPut {C A : Type} tid key n (fn : M MemTx A) set m M h d l o a : isConflict (mem_update fn m).1 = false ->
  run (C := C) tid (seqPut_loop n fn (Some (l, set))) (around key m M h d l o a) =
  Some ((mem_update fn m).1, around key (mem_update fn m).2 M h d l o (match (mem_update fn m).1 with Ok x => set x a | _ => a end)).
Proof.
  intros Hc. destruct n; cbn [seqPut_loop]; rewrite run_bind; cbn; destruct (mem_update fn m) as [[x|er|p] m'] eqn:E; cbn in *; try done;
    try (unfold set_heap, around; cbn; rewrite (alter_insert_lookup _ _ l (Cell o key a)) by apply lookup_insert_eq; by rewrite insert_insert_eq);
    by rewrite Hc.
Qed.


Section alone.
Context (tid : nat) (key : bytes) (start : Z).
Hypothesis start_ok : uint64_ok start.

Abbreviation around := (around key).

(** A live allocator whose next value is [v], consistent with the store. *)
Definition live (m : kvmap) (a : counterAlloc) (v : Z) : Prop :=
  caDead a = false /\ caLoaded a = true /\ caNext a = v /\ 0 <= v <= caWatermark a /\ caWatermark a <= maxUint64 /\
  if caExisted a then m !! key = Some (be64 (caWatermark a)) else m !! key = None /\ v = caWatermark a.

(** What the next draw returns, from the allocator or else from the store. *)
Inductive next_draw (w : cworld) : outcome Z -> Prop :=
  | next_stored : w_map w !! key = None -> next_draw w (position key start (w_kv w))
  | next_live m M h d l a v : w = around m M h d l None a -> M !! key = Some l -> live m a v -> next_draw w (Ok v).

Lemma mem_reserve m a v : live m a v -> caWatermark a = v -> v < maxUint64 ->
  exists wm, v < wm <= maxUint64 /\ mem_update (reserveIn key v a true) m = (Ok (v, wm), <[key := be64 wm]> m).
Proof.
  intros (_ & _ & _ & Hv & Hm & Hs) Hw Hlt. unfold mem_update. set (t := Mem _).
  destruct (reserveIn key v a true t) as [o t'] eqn:E.
  assert (exists wm, o = Ok (v, wm)) as [wm ->].
  { unfold reserveIn in E. unfold mbind, M_bind, gets, lift, fail, mret, M_ret in E. rewrite kv_get_map in E.
    change (kv_map t) with m in E.
    assert (forall w, kv_set key w t = (Ok tt, Mem (with_map (insert key w) (mem_view t)))) as Hset by done.
    destruct (caExisted a).
    - rewrite Hs, readCounter_be64 in E by (unfold uint64_ok, maxUint64 in *; lia). rewrite Hw, Z.ltb_irrefl, Z.max_id in E. cbn [andb] in E.
      destruct (Z.eqb_spec v maxUint64); [lia|]. rewrite Hset in E. injection E as <- <-. by eexists.
    - destruct Hs as [Hs _]. rewrite Hs in E. destruct (Z.eqb_spec v maxUint64); [lia|]. rewrite Hset in E. injection E as <- <-. by eexists. }
  apply reserveIn_ok in E as (Hm' & Hb & Hmax & _); [|unfold uint64_ok, maxUint64 in *; lia]. exists wm. split; [lia|]. by f_equal.
Qed.
Lemma mem_reserve_full m a : live m a maxUint64 -> mem_update (reserveIn key maxUint64 a true) m = (Err errExhausted, m).
Proof.
  intros (_ & _ & _ & Hv & Hm & Hs). unfold mem_update, reserveIn, mbind, M_bind, gets, lift, fail, mret, M_ret. rewrite kv_get_map.
  change (kv_map (Mem _)) with m. destruct (caExisted a).
  - rewrite Hs, readCounter_be64 by (unfold uint64_ok, maxUint64 in *; lia).
    assert (caWatermark a = maxUint64) as -> by lia. rewrite Z.ltb_irrefl, Z.max_id. cbn [andb]. by rewrite Z.eqb_refl.
  - destruct Hs as [-> _]. by rewrite Z.eqb_refl.
Qed.

(** Loading anchors on the store. *)
Lemma run_load m M h d l : run tid (loadLocked l key start newCounter) (around m M h d l (Some tid) newCounter) =
  match position key start m with
  | Ok v => let a := mkCounter false true (bool_decide (is_Some (m !! key))) v v in Some ((Ok tt, a), around m M h d l (Some tid) a)
  | Err er => Some ((Err er, newCounter), around m M h d l (Some tid) newCounter)
  | Panic p => Some ((Panic p, newCounter), around m M h d l (Some tid) newCounter)
  end.
Proof.
  unfold loadLocked, position. cbn [caLoaded newCounter]. rewrite run_bind. cbn [act1 run run_act around w_kv mbind option_bind].
  destruct (m !! key) as [raw|]; [destruct (readCounter raw); [|done..]|];
    cbn [mbind outcome_bind]; (etrans; [apply (run_bind (C := counterAlloc) tid (act1 _))|]); cbn [act1 run]; fold (around m M h d l (Some tid) newCounter);
    by rewrite run_write.
Qed.

(** The draw of a live allocator: [takeLocked] after the load. *)
Definition takeLoaded (l : nat) (a : counterAlloc) : @Threads.prog counterAlloc MemTx (outcome Z) :=
  '(o, a) ← (if caWatermark a <=? caNext a then reserveLocked l key (caNext a) true a else mret (Ok tt, a));
  match o with
  | Ok _ => _ ← act1 (AWrite l (ca_next ((caNext a + 1) mod 2 ^ 64) a) (Some (caNext a))); mret (Ok (caNext a))
  | Err er => mret (Err er)
  | Panic p => mret (Panic p)
  end.

Lemma live_next m a v : live m a v -> v < caWatermark a -> live m (ca_next (v + 1) a) (v + 1).
Proof. intros (? & ? & ? & ? & ? & Hs) Hlt. unfold live. cbn. split_and!; try done; try lia. destruct (caExisted a); [done|lia]. Qed.

Lemma run_hand m M h d l a v : live m a v -> v < caWatermark a ->
  run tid (_ ← act1 (AWrite l (ca_next ((caNext a + 1) mod 2 ^ 64) a) (Some (caNext a))); mret (Ok (caNext a))) (around m M h d l (Some tid) a) =
  Some (Ok v, around m M h ((tid, key, v) :: d) l (Some tid) (ca_next (v + 1) a)).
Proof.
  intros (_ & _ & Hn & Hv & Hmax & _) Hlt. rewrite run_bind. cbn [act1 run]. rewrite run_write. cbn.
  unfold maxUint64 in *. by rewrite Hn, Z.mod_small by lia.
Qed.
Lemma run_take_live m M h d l a v : live m a v -> v < maxUint64 ->
  exists m' a', run tid (takeLoaded l a) (around m M h d l (Some tid) a) = Some (Ok v, around m' M h ((tid, key, v) :: d) l (Some tid) a') /\ live m' a' (v + 1).
Proof.
  intros Hl Hlt. pose proof Hl as (Hd & Hld & Hn & Hv & Hm & Hs). unfold takeLoaded. rewrite run_bind, Hn. destruct (Z.leb_spec (caWatermark a) v).
  - destruct (mem_reserve m a v Hl) as (wm & Hwm & Hu); [lia|done|]. unfold reserveLocked, seqPut. rewrite run_bind, run_seqPut; rewrite Hu; [|done].
    cbn [fst snd mbind option_bind run mret prog_ret].
    assert (live (<[key := be64 wm]> m) (setReserved (v, wm) a) v) as Hl'.
    { unfold live. cbn. split_and!; try done; try lia. apply lookup_insert_eq. }
    eexists _, _. split; [eapply (run_hand _ _ _ _ _ (setReserved (v, wm) a)); [exact Hl'|cbn; lia]|]. apply live_next; [done|cbn; lia].
  - cbn [mbind option_bind run mret prog_ret]. eexists _, _. split; [by apply run_hand|by apply live_next].
Qed.
Lemma run_take_full m M h d l a : live m a maxUint64 ->
  run tid (takeLoaded l a) (around m M h d l (Some tid) a) = Some (Err errExhausted, around m M h d l (Some tid) a).
Proof.
  intros Hl. pose proof Hl as (Hd & Hld & Hn & Hv & Hm & Hs). unfold takeLoaded. rewrite run_bind, Hn, (proj2 (Z.leb_le _ _)) by lia.
  unfold reserveLocked, seqPut. rewrite run_bind, run_seqPut; by rewrite (mem_reserve_full m a Hl).
Qed.

Lemma take_load l a w o a' w' : run tid (loadLocked l key start a) w = Some ((o, a'), w') ->
  run tid (takeLocked l key start a) w =
  match o with Ok _ => run tid (takeLoaded l a') w' | Err er => Some (Err er, w') | Panic p => Some (Panic p, w') end.
Proof.
  intros H. unfold takeLocked. rewrite run_bind, H. cbn [mbind option_bind]. by destruct o as [[]|er|p].
Qed.

(** One lap of the retry loop suffices. *)
Lemma run_withCounter {A : Type} n (critical : nat -> counterAlloc -> @Threads.prog counterAlloc MemTx (outcome A)) what
    m M h d l a w0 o m' d' a' : run_act (C := counterAlloc) tid (AFetch key newCounter) w0 = Some (l, around m M h d l None a) -> caDead a = false ->
  run tid (critical l a) (around m M h d l (Some tid) a) = Some (o, around m' M h d' l (Some tid) a') -> isReset o = false ->
  run tid (withCounter (S n) key critical what) w0 = Some (o, around m' M h d' l None a').
Proof.
  intros Hf Hd Hc Ho. cbn [withCounter]. unfold counterAllocFor. rewrite run_bind. cbn [act1 run]. rewrite Hf. cbn [mbind option_bind].
  rewrite run_bind. cbn [act1 run]. rewrite run_lock. cbn [mbind option_bind]. rewrite Hd, run_bind, Hc. cbn [mbind option_bind].
  rewrite run_bind. cbn [act1 run]. rewrite run_unlock. cbn [mbind option_bind]. by rewrite Ho.
Qed.

Lemma run_fetch w o : next_draw w o -> exists m M h d l a, run_act (C := counterAlloc) tid (AFetch key newCounter) w = Some (l, around m M h d l None a) /\
  M !! key = Some l /\ ((a = newCounter /\ o = position key start m) \/ exists v, o = Ok v /\ live m a v).
Proof.
  intros [Hm|m M h d l a v -> HM Hl]; cbn [run_act].
  - rewrite Hm. eexists _, _, _, _, _, _. split; [reflexivity|]. split; [apply lookup_insert_eq|by left].
  - cbn. rewrite HM. eexists _, _, _, _, _, _. split_and!; eauto.
Qed.

Lemma position_cases m : exists o, position key start m = o /\ (o = Err errCorrupt \/ exists v, o = Ok v /\
  live m (mkCounter false true (bool_decide (is_Some (m !! key))) v v) v).
Proof.
  eexists. split; [done|]. unfold position. destruct (m !! key) as [raw|] eqn:E.
  - unfold readCounter. destruct (decide _) as [|Hlen]; [by left|]. right. eexists. split; [done|].
    assert (length raw = 8%nat) as Hl8 by lia. pose proof (be_val_bound raw) as Hb. rewrite Hl8 in Hb. change (256 ^ Z.of_nat 8) with (2 ^ 64) in Hb.
    unfold live. cbn. unfold maxUint64. split_and!; try done; try lia. rewrite E. f_equal. unfold be64. rewrite <- Hl8. symmetry. apply be_be_val.
  - right. eexists. split; [done|]. unfold live. cbn. unfold uint64_ok, maxUint64 in *. split_and!; try done; lia.
Qed.

Lemma isReset_exhausted : isReset (@Err Z errExhausted) = false /\ isReset (@Err Z errCorrupt) = false.
Proof. done. Qed.

(** One draw. *)
Lemma run_alloc w o : next_draw w o -> exists w', run tid (allocCounter key start) w = Some (match o with
    | Ok v => if v =? maxUint64 then Err errExhausted else Ok v
    | _ => o
    end, w') /\ forall v, o = Ok v -> v < maxUint64 -> next_draw w' (Ok (v + 1)).
Proof.
  intros Hd. destruct (run_fetch w o Hd) as (m & M & h & d & l & a & Hf & HM & Ha). unfold allocCounter, seqAllocRetries.
  assert (caDead a = false) as Hdead by (destruct Ha as [[-> _]|(v & _ & Hl)]; [done|apply Hl]).
  assert (forall a1 v, run tid (loadLocked l key start a) (around m M h d l (Some tid) a) = Some ((Ok tt, a1), around m M h d l (Some tid) a1) ->
    live m a1 v -> exists w', run tid (withCounter 8 key (λ l a, takeLocked l key start a) (go "allocation")) w =
      Some (if v =? maxUint64 then Err errExhausted else Ok v, w') /\ (v < maxUint64 -> next_draw w' (Ok (v + 1)))) as Htake.
  { intros a1 v Hload Hl. pose proof Hl as (_ & _ & _ & Hv & Hmax & _). destruct (Z.eqb_spec v maxUint64) as [->|Hne].
    - eexists. split; [|lia]. eapply (run_withCounter _ _ _ _ _ _ _ _ _ _ _ m d a1 Hf Hdead); [|apply isReset_exhausted].
      rewrite (take_load _ _ _ _ _ _ Hload). by apply run_take_full.
    - destruct (run_take_live m M h d l a1 v Hl) as (m' & a' & Hr & Hl'); [lia|]. eexists. split.
      + eapply (run_withCounter _ _ _ _ _ _ _ _ _ _ _ m' _ a' Hf Hdead); [|done]. by rewrite (take_load _ _ _ _ _ _ Hload).
      + intros _. by eapply next_live. }
  destruct Ha as [[-> ->]|(v & -> & Hl)].
  - destruct (position_cases m) as (o & Ho & [->|(v & -> & Hl)]).
    + rewrite Ho. eexists. split; [|done]. eapply (run_withCounter _ _ _ _ _ _ _ _ _ _ _ m d newCounter Hf); [done| |apply isReset_exhausted].
      apply (take_load _ _ _ (Err errCorrupt) newCounter). by rewrite run_load, Ho.
    + rewrite Ho. destruct (Htake _ v ltac:(by rewrite run_load, Ho) Hl) as (w' & Hr & Hn). exists w'. split; [done|]. by intros v' [= <-].
  - destruct (Htake a v) as (w' & Hr & Hn); [|done|exists w'; split; [done|]; by intros v' [= <-]].
    unfold loadLocked. by rewrite (proj1 (proj2 Hl)).
Qed.

Fixpoint allocDraws (n : nat) : @Threads.prog counterAlloc MemTx (outcome (list Z)) :=
  match n with
  | O => mret (Ok [])
  | S n' =>
      o ← allocCounter key start;
      match o with
      | Ok v => os ← allocDraws n'; mret (vs ← os; Ok (v :: vs))
      | Err er => mret (Err er)
      | Panic p => mret (Panic p)
      end
  end.

Lemma draws_S {tx : Type} {kv : KV tx} n (t : tx) : (draws key start (S n) t).1 =
  match nextFromCounter key start t with
  | (Ok v, t1) => vs ← (draws key start n t1).1; Ok (v :: vs)
  | (Err er, _) => Err er
  | (Panic p, _) => Panic p
  end.
Proof.
  cbn [draws]. unfold mbind at 1, M_bind. destruct (nextFromCounter key start t) as [[v|er|p] t1]; [|done..].
  unfold mbind, M_bind, mret, M_ret. by destruct (draws key start n t1) as [[]?].
Qed.
Lemma run_draws {tx : Type} {kv : KV tx} {kv_laws : KVLaws tx} n w (t : tx) : kv_writable t = true ->
  next_draw w (position key start (kv_map t)) ->
  exists w', run tid (allocDraws n) w = Some ((draws key start n t).1, w').
Proof.
  revert w t. induction n as [|n IH]; intros w t Hw Hd; [by eexists|]. cbn [allocDraws]. rewrite draws_S, run_bind.
  destruct (run_alloc w _ Hd) as (w1 & -> & Hd1). cbn [mbind option_bind].
  destruct (position_cases (kv_map t)) as (o & Ho & [->|(v & -> & Hl)]); rewrite Ho in *.
  - eexists. unfold nextFromCounter. unfold mbind, M_bind, gets, lift. rewrite kv_get_map.
    unfold position in Ho. by rewrite Ho.
  - destruct (Z.eqb_spec v maxUint64) as [->|Hne].
    + eexists. unfold nextFromCounter. unfold mbind, M_bind, gets, lift, fail. rewrite kv_get_map. unfold position in Ho. by rewrite Ho, Z.eqb_refl.
    + destruct Hl as (_ & _ & _ & Hv & Hmax & _). cbn in Hmax.
      destruct (nextFromCounter_draw key start t v Hw Ho Hne) as (t1 & -> & Hw1). destruct (IH w1 t1) as (w2 & Hr).
      * by rewrite (writes_writable _ _ _ Hw1).
      * unfold position. rewrite (writes_map _ _ _ Hw1), lookup_insert_eq, readCounter_be64 by (unfold uint64_ok, maxUint64 in *; lia).
        apply Hd1; [done|lia].
      * exists w2. by rewrite run_bind, Hr.
Qed.
End alone.

(** C35: without interference the allocator of concurrent-writes mode draws
    what the transactional counter of serialized mode draws: the same values
    or the same error, for any number of draws from any stored state. *)
Theorem alloc_draws_like_counter (tid : nat) key start n m : uint64_ok start ->
  exists w, run tid (allocDraws key start n) (World m ∅ ∅ []) = Some ((draws key start n (Mem (KV.View m true false []))).1, w).
Proof. intros Hs. apply (run_draws tid key start Hs n (World m ∅ ∅ []) (Mem (KV.View m true false []))); [done|]. by apply (next_stored key start (World m ∅ ∅ [])). Qed.

Lemma next_draw_empty key : next_draw key 1 (World ∅ ∅ ∅ []) (Ok 1).
Proof.
  assert (position key 1 ∅ = Ok 1) as E by (unfold position; by rewrite lookup_empty).
  rewrite <- E. by apply (next_stored key 1 (World ∅ ∅ ∅ [])).
Qed.

Lemma run_spawn T tid k w r w' : T !! tid = None -> call_ok k -> run tid (run_call k) w = Some (r, w') ->
  rtc (step (tx := MemTx) run_call call_ok raises) (w, T) (w', <[tid := (k, Ret r)]> T).
Proof.
  intros HT Hk Hr. eapply rtc_l; [by apply (step_spawn _ _ _ w T tid k)|].
  eapply rtc_subrel; [by intros ???; apply step_moves|]. by apply (run_moves tid k (run_call k)).
Qed.

(** Two draws in turn; the counter is drawn up to its 32-value watermark. *)
Lemma allocated_once_witness : let key := seqNameKey (go "s") in
  exists s, rtc (step (tx := MemTx) run_call call_ok raises) (boot ∅) s /\ 1 <> 2 /\
    exists wm, stored (w_kv s.1) key = Some wm /\ 1 < wm /\ 2 < wm.
Proof.
  intros key. assert (uint64_ok 1) as H1 by done.
  destruct (run_alloc 0 key 1 H1 (World ∅ ∅ ∅ []) (Ok 1) (next_draw_empty key)) as (w1 & R1 & N1).
  destruct (run_alloc 1 key 1 H1 w1 (Ok 2) (N1 1 eq_refl eq_refl)) as (w2 & R2 & _).
  pose proof (run_spawn ∅ 0 (CAlloc key 1) _ _ _ eq_refl H1 R1) as S1.
  pose proof (run_spawn (<[0%nat := (CAlloc key 1, Ret (Ok 1))]> ∅) 1 (CAlloc key 1) _ _ _ eq_refl H1 R2) as S2.
  pose proof (transitivity S1 S2) as Hs. eexists. split; [exact Hs|].
  exact (allocated_once ∅ _ 0 1 key 1 1 1 2 Hs ltac:(done) eq_refl eq_refl).
Defined.
Lemma alloc_draws_like_counter_witness : uint64_ok 1 /\
  exists w, run 0 (allocDraws (seqNameKey (go "s")) 1 40) (World ∅ ∅ ∅ []) = Some (Ok (seqZ 1 40), w).
Proof. split; [done|]. exact (alloc_draws_like_counter 0 (seqNameKey (go "s")) 1 40 ∅ ltac:(done)). Defined.
