(* ===== verification/MemDB.v ===== *)
(** * A store of one writer

    An instance of the interfaces of [Store.v]: a committed map and an
    engine that keeps the descriptor cache. Transactions run one at a time,
    so nothing interferes and none conflicts. It shows the laws can hold, and
    statements can be run on it. *)
From S2P Require Import Prelude GoVal KV Catalog Desc Seq Dml Engine Store.

Local Open Scope Z_scope.

Definition MemEngine : Type := Cat.
Definition MemStore : Type := kvmap.

#[export] Instance mem_ops : EngineOps MemEngine := {
  e_occ _ := false;
  e_CheckMemory e := (Ok tt, e);
  e_allocCounter _ _ e := (Err errExhausted, e);
  e_bumpCounterAllocTo _ _ e := (Err errExhausted, e);
}.
#[export] Instance mem_ops_laws : EngineLaws MemEngine.
Proof. split; cbn; intros; simplify_eq; done. Qed.
#[export] Instance mem_cat : CatState MemEngine := { cat e := e; with_cat f e := f e; }.
#[export] Instance mem_cat_laws : CatLaws MemEngine.
Proof. split; cbn; intros; simplify_eq; done. Qed.
#[export] Instance mem_guarded : Guarded MemEngine := { e_writerGID _ := 0; e_curGID _ := 1; }.
#[export] Instance mem_allocators : Allocators MemEngine :=
  { e_invalidateCounter _ e := e; e_invalidateCounterPrefix _ e := e; e_invalidateSeqObj _ e := e; }.
#[export] Instance mem_allocator_laws : AllocatorLaws MemEngine.
Proof. by split. Qed.

Definition errRolledBack : error := ENew (go "transaction rolled back").
Definition mem_txn {A : Type} (fn : M (MemEngine * MemTx) A) (s : MemEngine * MemStore) : outcome A * outcome unit * (MemEngine * MemStore) :=
  let '(o, (e, t)) := fn (s.1, Mem (KV.View s.2 true true [])) in
  match o with
  | Ok _ => (o, Ok tt, (e, v_map (mem_view t)))
  | _ => (o, Err errRolledBack, (e, s.2))
  end.
#[export] Instance mem_db : DB MemEngine MemStore MemTx := { db_txn A _ fn s := mem_txn fn s; }.
#[export] Instance mem_db_laws : DBLaws MemEngine MemStore MemTx.
Proof.
  refine {| db_head (m : MemStore) := m; interf := eq; unsure _ := False |}; [by intros []|]. intros A mode fn e m _. unfold db_txn, mem_db, mem_txn. cbn [fst snd].
  set (t := Mem (KV.View m true true [])). exists e, t. destruct (fn (e, t)) as [o [e1 t1]].
  destruct o as [a|er|p]; eexists _, _, _; (split_and!; try done; by split; [left|]).
Defined.
