(* ===== verification/Database.v ===== *)
(** * The database

    Every table's descriptor and data share one key space. [db_inv] is what
    holds of it between statements: descriptors parse and are well formed,
    no two tables share an ID, each table's rows and index entries agree,
    and nothing lies in the space of an ID no table owns. Schema changes
    are shown to keep it; this file has the frame arguments they share. *)
From S2P Require Import Prelude GoVal GoStr Tuple KV Json Time Jsonb Types Catalog Desc Rows Pairs Index Table Seq Upkeep Dml Relation Engine.

Local Open Scope Z_scope.

(** ** Descriptors as the catalog stores them *)

(** A descriptor as written: current version, no lookup table. *)
Definition sch (d : TableDesc) : TableDesc := clone (stamp d).

Record cat_wf (d : TableDesc) : Prop := {
  cw_wf : desc_wf d;
  cw_range : desc_range d;
  cw_utf8 : desc_utf8 d;
  cw_next : Forall (λ c, colID c < tNextColID d) (tColumns d);
  cw_types : Forall (λ c, colType c ∈ knownTypes) (tColumns d);
  cw_identity : Forall (λ c, colIdentity c = true -> colType c = TInt) (tColumns d);
  cw_ixCols : Forall (λ x, ixCols x <> [] /\ NoDup (ixCols x)) (tIndexes d);
  cw_fkCols : Forall (λ f, Forall (λ o, o < length (tColumns d))%nat (fkCols f)) (tForeignKeys d);
}.

(** Column IDs are distinct [uint32]s, so ordinals fit Go's [int]. *)
Lemma columns_bound d : desc_wf d -> Z.of_nat (length (tColumns d)) <= 2 ^ 32.
Proof.
  intros Hw. assert (colID <$> tColumns d ⊆+ seqZ 0 (2 ^ 32)) as Hs.
  { apply NoDup_submseteq; [apply Hw|]. intros x (c & -> & Hc)%list_elem_of_fmap. apply elem_of_seqZ.
    pose proof (wf_colID_range d Hw) as Hr. rewrite Forall_forall in Hr. specialize (Hr c Hc). unfold uint32_ok in Hr. lia. }
  apply submseteq_length in Hs. rewrite length_fmap, length_seqZ in Hs. lia.
Qed.

(** The tags of a stored row value stay below the next column ID, so a
    column added later never finds old data. *)
Definition ids_ok (d : TableDesc) (m : kvmap) : Prop := forall k v,
  m !! k = Some v -> tablePrefix (tID d) `prefix_of` k ->
  exists l, v = elems (tagged l) /\ tags_ok (tNextColID d) l.

(** Every key of the table's space is a row's or an entry of one of its
    indexes, so a new index finds no entries of an older one. *)
Definition tidy (d : TableDesc) (m : kvmap) : Prop := forall k, is_Some (m !! k) -> tableSpace (tID d) `prefix_of` k ->
  tablePrefix (tID d) `prefix_of` k \/ Exists (λ x, indexPrefix (tID d) (ixID x) `prefix_of` k) (tIndexes d).

Record table_ok (d : TableDesc) (m : kvmap) : Prop := {
  to_inv : table_inv d m;
  to_ids : ids_ok d m;
  to_tidy : tidy d m;
}.

(** [name] is a table of the key space, with descriptor [d]. *)
Definition table_at (m : kvmap) (name : bytes) (d : TableDesc) : Prop := resolve m name = Ok (Some d).

Definition space_empty (m : kvmap) (id : Z) : Prop := forall k, tableSpace id `prefix_of` k -> m !! k = None.

Record db_inv (m : kvmap) : Prop := {
  db_desc k v : m !! k = Some v -> descTablePrefix `prefix_of` k ->
    exists d, k = descKey (tName d) /\ parseDesc v = Ok d /\ cat_wf d;
  db_table name d : table_at m name d -> table_ok d m;
  db_ids n1 n2 d1 d2 : table_at m n1 d1 -> table_at m n2 d2 -> tID d1 = tID d2 -> n1 = n2;
  db_next : exists next, position seqKey firstUserTableID m = Ok next /\ firstUserTableID <= next /\
    forall id, next <= id < 2 ^ 64 -> space_empty m id;
  db_owned id k v : firstUserTableID <= id < 2 ^ 64 -> m !! k = Some v -> tableSpace id `prefix_of` k ->
    exists name d, table_at m name d /\ tID d = id;
  db_allocated name d next : table_at m name d -> position seqKey firstUserTableID m = Ok next -> tID d < next;
}.

(** ** Keys *)

Lemma descKey_prefix name : descTablePrefix `prefix_of` descKey name.
Proof.
  unfold descTablePrefix. rewrite tablePrefix_elems, descKey_elems. exists (elems [AString name]).
  by rewrite <- elems_app.
Qed.
#[export] Instance descKey_inj : Inj (=) (=) descKey.
Proof.
  intros n1 n2. rewrite !descKey_elems. intros E%elems_inj; [by injection E|..]; repeat constructor; unfold int64_ok; cbn; lia.
Qed.

Lemma descKeyName_descKey name : descKeyName (descKey name) = Some name.
Proof.
  unfold descKeyName. rewrite descKey_elems, Decode_elems; [done|].
  repeat constructor; unfold int64_ok; cbn; lia.
Qed.

(** Spaces of different tables, system tables included, never meet. *)
Lemma tableSpace_disjoint a b k : uint64_ok a -> uint64_ok b ->
  tableSpace a `prefix_of` k -> tableSpace b `prefix_of` k -> a = b.
Proof.
  intros Ha Hb [r ->] [r' E]. rewrite !tableSpace_elems in E.
  apply elems_app_inj in E as [[= E] _]; [|done|repeat constructor; apply int64_range..].
  by apply int64_inj in E.
Qed.

Lemma descTablePrefix_space k : descTablePrefix `prefix_of` k -> tableSpace sysDescTableID `prefix_of` k.
Proof. unfold descTablePrefix, tablePrefix. apply indexPrefix_space. Qed.
Lemma descKey_space name : tableSpace sysDescTableID `prefix_of` descKey name.
Proof. apply descTablePrefix_space, descKey_prefix. Qed.

(** ** Descriptors of the same layout *)

(** Rows read alike under both: the same columns, by ID, and the same keys. *)
Record layout (d d' : TableDesc) : Prop := {
  lo_id : tID d' = tID d;
  lo_cols : colID <$> tColumns d' = colID <$> tColumns d;
  lo_pk : tPKCols d' = tPKCols d;
  lo_wf : desc_wf d;
  lo_wf' : desc_wf d';
}.

Section layout.
Context (d d' : TableDesc) (Hl : layout d d').

Lemma layout_ordinal id : 0 <= id -> colOrdinalByID d' id = colOrdinalByID d id.
Proof.
  intros Hid. rewrite !colOrdinalByID_linear by (done || apply Hl). unfold linearOrdinal.
  assert (forall cols : list Column, fst <$> list_find (λ c, colID c = id) cols = fst <$> list_find (λ x, x = id) (colID <$> cols)) as H.
  { intros cols. rewrite list_find_fmap. unfold compose. by destruct (list_find (λ c, colID c = id) cols) as [[]|]. }
  by rewrite !H, (lo_cols d d' Hl).
Qed.

Lemma uint32_nonneg z : 0 <= uint32 z.
Proof. unfold uint32. apply Z.mod_pos_bound. lia. Qed.

Lemma layout_fillPairs vals pairs : fillPairs d' vals pairs = fillPairs d vals pairs.
Proof.
  revert vals. induction pairs as [pairs IH] using (induction_ltof1 _ (@length any)). unfold ltof in IH.
  intros vals. destruct pairs as [|id [|v pairs]]; [done..|]. cbn [fillPairs]. destruct id as [| |[] id| | | | | | | |]; try done.
  rewrite layout_ordinal by apply uint32_nonneg. destruct (colOrdinalByID d (uint32 id)).
  - destruct (set_index vals n v); cbn; [|done..]. apply IH. cbn. lia.
  - apply IH. cbn. lia.
Qed.

Lemma layout_decodeRow k v : decodeRow d' k v = (λ r, mkRow d' (rVals r)) <$> decodeRow d k v.
Proof.
  unfold decodeRow. rewrite (lo_pk d d' Hl). assert (length (tColumns d') = length (tColumns d)) as ->.
  { rewrite <- (length_fmap colID (tColumns d')), (lo_cols d d' Hl). by rewrite length_fmap. }
  destruct (Decode k) as [kvs| |]; cbn; [|done..]. case_decide; [done|].
  destruct (Decode v) as [pairs| |]; cbn [mbind outcome_bind]; [|done..]. case_decide; [done|].
  destruct (fillPK _ _ _) as [vals| |]; cbn [mbind outcome_bind]; [|done..]. rewrite layout_fillPairs.
  by destruct (fillPairs d vals pairs).
Qed.
Lemma layout_decode k v row : decodeRow d' k v = Ok (mkRow d' row) <-> decodeRow d k v = Ok (mkRow d row).
Proof.
  rewrite layout_decodeRow. split.
  - destruct (decodeRow d k v) as [[d0 vals]| |] eqn:E; cbn; [|done..]. intros [= <-].
    f_equal. f_equal. unfold decodeRow in E. repeat (apply outcome_bind_ok in E as (? & _ & E) || case_decide; try done).
    by injection E.
  - by intros ->.
Qed.

Lemma layout_pkOf row : pkOf d' row = pkOf d row.
Proof. unfold pkOf. by rewrite (lo_pk d d' Hl). Qed.
Lemma layout_row_key row : row_key d' row = row_key d row.
Proof. unfold row_key. by rewrite layout_pkOf, (lo_id d d' Hl). Qed.
Lemma layout_index_key idx row : index_key d' idx row = index_key d idx row.
Proof. unfold index_key. by rewrite layout_pkOf, (lo_id d d' Hl). Qed.
Lemma layout_index_val idx row : index_val d' idx row = index_val d idx row.
Proof. unfold index_val. by rewrite layout_pkOf. Qed.

Lemma layout_stored m row : stored d m row -> row_ok d' row -> stored d' m row.
Proof.
  intros (_ & v & Hv & Hd) Hr. split; [done|]. rewrite layout_row_key. exists v. split; [done|]. by apply layout_decode.
Qed.
Lemma layout_stored_inv m row : table_inv d m -> stored d' m row -> stored d m row.
Proof.
  intros Hi (_ & v & Hv & Hd). rewrite layout_row_key in Hv, Hd.
  destruct (inv_rows d m Hi _ _ Hv (row_key_prefix d row)) as (row0 & Hr & Hk & Hd0).
  apply layout_decode in Hd. assert (row0 = row) as -> by congruence. split; [done|]. eauto.
Qed.

(** A change of descriptor that keeps the layout keeps the table, when the
    stored rows satisfy the new constraints. *)
Lemma layout_inv_rows m k v : table_inv d m -> (forall row, stored d m row -> row_ok d' row) ->
  m !! k = Some v -> tablePrefix (tID d') `prefix_of` k ->
  exists row, row_ok d' row /\ k = row_key d' row /\ decodeRow d' k v = Ok (mkRow d' row).
Proof.
  intros Hi Hr Hk Hp. rewrite (lo_id d d' Hl) in Hp. destruct (inv_stored d m k v Hi Hk Hp) as (row & Hs & -> & Hd).
  exists row. split_and!; [by apply Hr|by rewrite layout_row_key|by apply layout_decode].
Qed.
Lemma layout_inv_index m idx k v : table_inv d m -> (forall row, stored d m row -> row_ok d' row) -> idx ∈ tIndexes d ->
  indexPrefix (tID d') (ixID idx) `prefix_of` k ->
  m !! k = Some v <-> exists row, stored d' m row /\ k = index_key d' idx row /\ v = index_val d' idx row.
Proof.
  intros Hi Hr Hidx Hp. rewrite (lo_id d d' Hl) in Hp. rewrite (inv_index d m Hi idx k v Hidx Hp).
  split; intros (row & Hs & -> & ->); exists row; rewrite layout_index_key, layout_index_val; (split; [|done]).
  - by apply layout_stored; [|apply Hr].
  - by apply layout_stored_inv.
Qed.
Lemma layout_table_inv m : tIndexes d' = tIndexes d -> table_inv d m -> (forall row, stored d m row -> row_ok d' row) -> table_inv d' m.
Proof.
  intros Hix Hi Hr. split.
  - intros k v. by apply layout_inv_rows.
  - intros idx k v Hidx. rewrite Hix in Hidx. by apply layout_inv_index.
Qed.
Lemma layout_abstracts m T : table_inv d m -> (forall row, stored d m row -> row_ok d' row) ->
  abstracts d m T -> abstracts d' m T.
Proof.
  intros Hi Hr Ha. split.
  - intros row. rewrite layout_pkOf, <- (abs_stored d m T Ha). split; [by apply layout_stored_inv|].
    intros Hs. by apply layout_stored; [|apply Hr].
  - intros pk row Hpk. rewrite layout_pkOf. by apply (abs_key d m T Ha).
Qed.
Lemma layout_ids_ok m : tNextColID d <= tNextColID d' -> ids_ok d m -> ids_ok d' m.
Proof.
  intros Hn Hi k v Hk Hp. rewrite (lo_id d d' Hl) in Hp. destruct (Hi k v Hk Hp) as (l & -> & Ht). exists l.
  split; [done|]. by eapply tags_ok_mono.
Qed.
Lemma layout_table_ok m : tIndexes d' = tIndexes d -> tNextColID d <= tNextColID d' -> (forall row, stored d m row -> row_ok d' row) -> table_ok d m -> table_ok d' m.
Proof.
  intros Hix Hn Hr [Hti Hids Ht]. split; [by apply layout_table_inv|by apply layout_ids_ok|].
  unfold tidy. by rewrite (lo_id d d' Hl), Hix.
Qed.

End layout.

Lemma table_ok_space m m' d : (forall k, tableSpace (tID d) `prefix_of` k -> m' !! k = m !! k) -> table_ok d m -> table_ok d m'.
Proof.
  intros Hk [Hti Hids Ht]. split; [eapply table_inv_ext; [|exact Hti]; intros; symmetry; by apply Hk| |].
  - intros k v Hkv Hp. eapply Hids; [|done]. rewrite <- Hk; [done|]. by eapply indexPrefix_space.
  - intros k Hs Hp. rewrite Hk in Hs by done. by apply Ht.
Qed.

(** ** Publishing a descriptor *)

(** What the stored form of [d] resolves to. *)
Definition published (d : TableDesc) : TableDesc := buildOrdByID (sch d).

Lemma published_fields d : tFormatVersion (published d) = descFormatVersion /\ tID (published d) = tID d /\
  tName (published d) = tName d /\ tColumns (published d) = tColumns d /\ tPKCols (published d) = tPKCols d /\
  tIndexes (published d) = tIndexes d /\ tChecks (published d) = tChecks d /\
  tForeignKeys (published d) = tForeignKeys d /\ tNextColID (published d) = tNextColID d.
Proof. unfold published, buildOrdByID. by destruct (4096 <? _). Qed.

Lemma sch_published d : sch (published d) = sch d.
Proof. unfold published, buildOrdByID. by destruct (4096 <? _). Qed.

Lemma published_indexes d : tIndexes (published d) = tIndexes d.
Proof. apply published_fields. Qed.
Lemma published_pkOf d row : pkOf (published d) row = pkOf d row.
Proof. unfold pkOf. by destruct (published_fields d) as (_ & _ & _ & _ & -> & _). Qed.
Lemma published_ord d : tOrdByID (published d) = tOrdByID (buildOrdByID (clone (published d))).
Proof. unfold published, buildOrdByID. destruct (4096 <? maxColID (tColumns (sch d))) eqn:E; cbn in *; by rewrite E. Qed.

Lemma cat_wf_published d : cat_wf d -> cat_wf (published d).
Proof.
  intros [Hw Hr Hu Hn Ht Hi Hx Hf]. pose proof (published_fields d) as (Ev & Eid & En & Ec & Ep & Ex & Ek & Ef & Eno).
  split; rewrite ?Ec, ?Ex, ?Ef, ?Eno; try done.
  - destruct Hw. split; rewrite ?Eid, ?Ec, ?Ep, ?Ex; try done. right. apply published_ord.
  - destruct Hr. split; rewrite ?Ev, ?Eid, ?Ec, ?Ep, ?Ex, ?Ef, ?Eno; done.
  - unfold desc_utf8 in *. by rewrite En, Ec, Ex, Ek, Ef.
Qed.

Lemma parse_published d : cat_wf d -> parseDesc (marshalDesc d) = Ok (published d).
Proof.
  intros Hw. rewrite parseDesc_marshal by apply Hw. rewrite cleanDesc_id; [done|]. apply Hw.
Qed.

Lemma layout_published d : cat_wf d -> layout d (published d).
Proof.
  intros Hw. pose proof (published_fields d) as (_ & Eid & _ & Ec & Ep & Ex & _).
  split; [done|by rewrite Ec|done|apply Hw|by apply cat_wf_published].
Qed.

(** ** Frames *)

(** Only the table's own space, its descriptor and counters differ. *)
Definition frame (name : bytes) (id : Z) (m m' : kvmap) : Prop := forall k,
  ~ tableSpace id `prefix_of` k -> ~ identitySeqTablePrefix id `prefix_of` k -> k <> descKey name -> m' !! k = m !! k.

Definition user (id : Z) : Prop := firstUserTableID <= id < 2 ^ 64.

Lemma space_other a b k : uint64_ok a -> uint64_ok b -> a <> b ->
  tableSpace b `prefix_of` k -> ~ tableSpace a `prefix_of` k.
Proof. intros Ha Hb Hne Hk H. by apply Hne, (tableSpace_disjoint a b k). Qed.
Lemma user_uint64 id : user id -> uint64_ok id.
Proof. unfold user, uint64_ok, firstUserTableID. lia. Qed.
Lemma user_ne id sys : user id -> sys < firstUserTableID -> id <> sys.
Proof. unfold user. lia. Qed.
#[export] Hint Resolve user_uint64 : bytdb.

(** A key of system space [sys] is none of a user table. *)
Lemma sys_not_user id sys k : user id -> 0 <= sys < firstUserTableID ->
  tableSpace sys `prefix_of` k -> ~ tableSpace id `prefix_of` k.
Proof.
  intros Hid Hs. apply space_other; auto using user_uint64; unfold user, uint64_ok, firstUserTableID in *; lia.
Qed.
Lemma user_not_sys id sys k : user id -> 0 <= sys < firstUserTableID ->
  tableSpace id `prefix_of` k -> ~ tableSpace sys `prefix_of` k.
Proof.
  intros Hid Hs. apply space_other; auto using user_uint64; unfold user, uint64_ok, firstUserTableID in *; lia.
Qed.
Lemma space_not_descKey id name k : user id -> tableSpace id `prefix_of` k -> k <> descKey name.
Proof.
  intros Hid Hk ->. apply (user_not_sys id sysDescTableID (descKey name)); [done|done|done|apply descKey_space].
Qed.
Lemma seqKey_space : tableSpace sysIDSeqTableID `prefix_of` seqKey.
Proof. rewrite seqKey_elems, tableSpace_elems. done. Qed.
Lemma desc_not_seq k : tableSpace sysDescTableID `prefix_of` k -> ~ tableSpace sysSeqTableID `prefix_of` k.
Proof. by apply space_other. Qed.

(** The records of sequence objects and views. *)
Definition record_key (k : bytes) : Prop := sqlSeqPrefix `prefix_of` k \/ tableSpace sysViewTableID `prefix_of` k.
Definition records_kept (m m' : kvmap) : Prop := forall k, record_key k -> m' !! k = m !! k.

Lemma identity_space id k : identitySeqTablePrefix id `prefix_of` k -> tableSpace sysSeqTableID `prefix_of` k.
Proof.
  intros [r ->]. rewrite identitySeqTablePrefix_elems, tableSpace_elems.
  exists (elems [kint 2; kint (int64 id)] ++ r). by rewrite app_assoc, <- elems_app.
Qed.
Lemma seqPrefix_space k : sqlSeqPrefix `prefix_of` k -> tableSpace sysSeqTableID `prefix_of` k.
Proof.
  intros [r ->]. rewrite sqlSeqPrefix_elems, tableSpace_elems. exists (elems [kint 3] ++ r). by rewrite app_assoc, <- elems_app.
Qed.
(** The spaces of the records and of the counters. *)
Lemma record_space k : record_key k -> tableSpace sysSeqTableID `prefix_of` k \/ tableSpace sysViewTableID `prefix_of` k.
Proof. intros [?%seqPrefix_space|?]; auto. Qed.
Lemma record_not_identity id k : record_key k -> ~ identitySeqTablePrefix id `prefix_of` k.
Proof.
  intros [[r ->]|Hk].
  - intros [r' E]. rewrite identitySeqTablePrefix_elems, sqlSeqPrefix_elems in E.
    change (elems [kint 2; kint 2; ?c]) with (elems ([kint 2; kint 2] ++ [c])) in E. rewrite elems_app, <- app_assoc in E.
    apply elems_app_inj in E as [E _]; [done|done|repeat constructor; unfold int64_ok; cbn; lia..].
  - intros H%identity_space. by apply (space_other sysSeqTableID sysViewTableID k).
Qed.
Lemma record_not_user id k : user id -> record_key k -> ~ tableSpace id `prefix_of` k.
Proof. intros Hid [H|H]%record_space; [by apply (sys_not_user id sysSeqTableID)|by apply (sys_not_user id sysViewTableID)]. Qed.
Lemma record_not_desc k name : record_key k -> k <> descKey name.
Proof.
  intros [H|H]%record_space ->; [apply (space_other sysSeqTableID sysDescTableID (descKey name))|apply (space_other sysViewTableID sysDescTableID (descKey name))];
    try done; apply descKey_space.
Qed.

Section frame.
Context (name : bytes) (id : Z) (m m' : kvmap) (Hid : user id) (Hf : frame name id m m').

Lemma frame_desc k : tableSpace sysDescTableID `prefix_of` k -> k <> descKey name -> m' !! k = m !! k.
Proof. intros Hk Hne. apply Hf; [by apply (sys_not_user id sysDescTableID)|intros H%identity_space; by apply (desc_not_seq k)|done]. Qed.
Lemma frame_resolve n : n <> name -> resolve m' n = resolve m n.
Proof.
  intros Hn. unfold resolve. rewrite frame_desc; [done|apply descKey_space|]. by intros E%(inj descKey).
Qed.
Lemma frame_table_at n d : n <> name -> table_at m' n d <-> table_at m n d.
Proof. intros Hn. unfold table_at. by rewrite frame_resolve. Qed.
Lemma frame_space id' k : user id' -> id' <> id -> tableSpace id' `prefix_of` k -> m' !! k = m !! k.
Proof.
  intros Hu Hne Hk. apply Hf; [|intros H%identity_space; by apply (user_not_sys id' sysSeqTableID k)|by apply (space_not_descKey id')].
  apply (space_other id id'); auto with bytdb.
Qed.
Lemma frame_position : position seqKey firstUserTableID m' = position seqKey firstUserTableID m.
Proof.
  unfold position. rewrite Hf; [done|..].
  - apply (sys_not_user id sysIDSeqTableID); [done|done|apply seqKey_space].
  - intros H%identity_space. by apply (space_other sysSeqTableID sysIDSeqTableID seqKey); [done..|apply seqKey_space|].
  - intros E. apply (space_other sysIDSeqTableID sysDescTableID seqKey); [done..| |apply seqKey_space].
    rewrite E. apply descKey_space.
Qed.
Lemma frame_records : records_kept m m'.
Proof. intros k Hk. apply Hf; [by apply record_not_user|by apply record_not_identity|by apply record_not_desc]. Qed.
End frame.

Lemma cat_wf_user d : cat_wf d -> user (tID d).
Proof. intros [Hw _ _ _ _ _ _ _]. apply (wf_tID d Hw). Qed.

Lemma table_at_wf m name d : db_inv m -> table_at m name d -> tName d = name /\ cat_wf d.
Proof.
  intros Hi. unfold table_at, resolve. destruct (m !! descKey name) as [blob|] eqn:E; [|done].
  destruct (db_desc m Hi _ _ E (descKey_prefix name)) as (d0 & Hk & Hp & Hw). rewrite Hp. cbn. intros [= <-].
  by apply (inj descKey) in Hk.
Qed.

(** Every name resolves. *)
Lemma resolve_total m name : db_inv m -> exists od, resolve m name = Ok od.
Proof.
  intros Hi. unfold resolve. destruct (m !! descKey name) as [b|] eqn:Eb; [|by eexists].
  destruct (db_desc _ Hi _ _ Eb (descKey_prefix name)) as (d & _ & Hp & _). rewrite Hp. by eexists.
Qed.
Lemma table_at_blob m name d : cat_wf d -> m !! descKey name = Some (marshalDesc d) -> table_at m name (published d).
Proof. intros Hw E. unfold table_at, resolve. by rewrite E, parse_published. Qed.

(** One table's change: its space and the descriptors under the names [N],
    the table's old and new ones, are all that changes. *)
Record update (id : Z) (N : list bytes) (m m' : kvmap) : Prop := {
  up_desc k : descTablePrefix `prefix_of` k -> k ∉ descKey <$> N -> m' !! k = m !! k;
  up_space id' k : user id' -> id' <> id -> tableSpace id' `prefix_of` k -> m' !! k = m !! k;
  up_old n d : table_at m n d -> n ∈ N <-> tID d = id;
  up_new n v : n ∈ N -> m' !! descKey n = Some v ->
    exists d, parseDesc v = Ok d /\ tName d = n /\ cat_wf d /\ tID d = id /\ table_ok d m';
  up_one n1 n2 : n1 ∈ N -> n2 ∈ N -> is_Some (m' !! descKey n1) -> is_Some (m' !! descKey n2) -> n1 = n2;
  up_owned k v : m' !! k = Some v -> tableSpace id `prefix_of` k -> exists n, n ∈ N /\ is_Some (m' !! descKey n);
  up_next : exists next next', position seqKey firstUserTableID m = Ok next /\
    position seqKey firstUserTableID m' = Ok next' /\ next <= next' /\ id < next';
}.

Lemma table_at_ext m m' name d : m' !! descKey name = m !! descKey name -> table_at m' name d <-> table_at m name d.
Proof. unfold table_at, resolve. by intros ->. Qed.

Section update.
Context (id : Z) (N : list bytes) (m m' : kvmap) (Hi : db_inv m) (Hup : update id N m m').

Lemma update_table_at n d : n ∉ N -> table_at m' n d <-> table_at m n d.
Proof.
  intros Hn. apply table_at_ext, (up_desc _ _ _ _ Hup); [apply descKey_prefix|].
  by intros (n' & E%(inj descKey) & Hn')%list_elem_of_fmap; subst.
Qed.
(** A table of the new state is the changed one or one of the old state. *)
Lemma update_cases n d : table_at m' n d ->
  (n ∈ N /\ is_Some (m' !! descKey n) /\ tName d = n /\ cat_wf d /\ tID d = id /\ table_ok d m') \/
  ((n ∉ N) /\ table_at m n d /\ user (tID d) /\ tID d <> id).
Proof.
  intros Hat. destruct (decide (n ∈ N)) as [Hn|Hn]; [left|right].
  - unfold table_at, resolve in Hat. destruct (m' !! descKey n) as [v|] eqn:Ev; [|done].
    destruct (up_new _ _ _ _ Hup n v Hn Ev) as (d' & Hp & H). rewrite Hp in Hat. cbn in Hat. by simplify_eq.
  - apply update_table_at in Hat; [|done]. split_and!; [done..| |].
    + apply cat_wf_user. by apply (table_at_wf m n d).
    + intros E. by apply Hn, (up_old _ _ _ _ Hup n d).
Qed.

Lemma db_inv_update : db_inv m'.
Proof.
  destruct (up_next _ _ _ _ Hup) as (next & next' & Hp & Hp' & Hle & Hid). split.
  - intros k v Hk Hpre. destruct (decide (k ∈ descKey <$> N)) as [(n & -> & Hn)%list_elem_of_fmap|Hn].
    + destruct (up_new _ _ _ _ Hup n v Hn Hk) as (d & H1 & <- & H3 & _). by exists d.
    + apply (db_desc m Hi k v); [|done]. by rewrite <- (up_desc _ _ _ _ Hup).
  - intros n d [(_ & _ & _ & _ & _ & H1)|(_ & Hat & Hu & Hne)]%update_cases; [done|].
    apply (table_ok_space m); [|by apply (db_table m Hi n)].
    intros k. by apply (up_space _ _ _ _ Hup).
  - intros n1 n2 d1 d2 [(N1 & S1 & _ & _ & E1 & _)|(_ & A1 & _ & F1)]%update_cases
      [(N2 & S2 & _ & _ & E2 & _)|(_ & A2 & _ & F2)]%update_cases E; try congruence.
    + by apply (up_one _ _ _ _ Hup).
    + by apply (db_ids m Hi n1 n2 d1 d2).
  - destruct (db_next m Hi) as (next0 & Hp0 & Hge & He). rewrite Hp in Hp0. injection Hp0 as <-.
    exists next'. split_and!; [done|lia|]. intros id' Hid' k Hk.
    rewrite (up_space _ _ _ _ Hup id') by (done || unfold user; lia). apply (He id'); [lia|done].
  - intros id' k v Hu Hk Hpre. destruct (decide (id' = id)) as [->|Hne].
    + destruct (up_owned _ _ _ _ Hup k v Hk Hpre) as (n & Hn & [b Hb]).
      destruct (up_new _ _ _ _ Hup n b Hn Hb) as (d & H1 & _ & _ & H4 & _). exists n, d.
      split; [|done]. unfold table_at, resolve. by rewrite Hb, H1.
    + rewrite (up_space _ _ _ _ Hup id') in Hk by done. destruct (db_owned m Hi id' k v Hu Hk Hpre) as (n & d & Hat & Ed).
      exists n, d. split; [|done]. apply update_table_at; [|done]. intros Hn. apply (up_old _ _ _ _ Hup n d) in Hn; [|done]. congruence.
  - intros n d next0 [(_ & _ & _ & _ & E1 & _)|(_ & A1 & _ & F1)]%update_cases Hp0; rewrite Hp' in Hp0; injection Hp0 as <-; [lia|].
    pose proof (db_allocated m Hi n d next A1 Hp). lia.
Qed.

(** The other tables keep their descriptors and rows. *)
Lemma update_others n d : n ∉ N -> (table_at m' n d <-> table_at m n d) /\
  (table_at m n d -> forall T, abstracts d m T -> abstracts d m' T).
Proof.
  intros Hn. split; [by apply update_table_at|]. intros Hat T. apply abstracts_ext. intros k Hk. symmetry.
  apply (up_space _ _ _ _ Hup (tID d)); [|by intros E%(up_old _ _ _ _ Hup n d)|done].
  apply cat_wf_user. by apply (table_at_wf m n d).
Qed.
End update.

(** A table changed within its own space, its descriptor perhaps too, leaves
    a sound database. *)
Lemma db_inv_replace m m' name d d' : db_inv m -> table_at m name d -> table_at m' name d' -> cat_wf d' ->
  tID d' = tID d -> tName d' = name -> frame name (tID d) m m' -> table_ok d' m' -> db_inv m'.
Proof.
  intros Hi Hat Hat' Hw Eid En Hf Ht. destruct (table_at_wf m name d Hi Hat) as [Hnm Hwd].
  pose proof (cat_wf_user d Hwd) as Hu. apply (db_inv_update (tID d) [name] m m' Hi). split.
  - intros k Hk Hn. apply (frame_desc name (tID d) m m' Hu Hf); [by apply descTablePrefix_space|set_solver].
  - intros id' k Hu' Hne Hk. by apply (frame_space name (tID d) m m' Hu Hf id').
  - intros n d1 H1. rewrite list_elem_of_singleton. split; [intros ->; unfold table_at in *; congruence|].
    intros E. by apply (db_ids m Hi n name d1 d).
  - intros n v ->%list_elem_of_singleton Hv. unfold table_at, resolve in Hat'. rewrite Hv in Hat'.
    destruct (parseDesc v) as [dv| |] eqn:Ev; cbn in Hat'; simplify_eq. by exists d'.
  - set_solver.
  - intros _ _ _ _. exists name. split; [by left|]. unfold table_at, resolve in Hat'. by destruct (m' !! descKey name).
  - destruct (db_next m Hi) as (next & Hp & _). exists next, next. rewrite (frame_position name (tID d) m m' Hu Hf).
    split_and!; [done..|lia|]. by apply (db_allocated m Hi name d).
Qed.

Lemma db_inv_alter m m' name d d0 : db_inv m -> table_at m name d -> cat_wf d0 -> tID d0 = tID d -> tName d0 = tName d ->
  frame name (tID d) m m' -> m' !! descKey name = Some (marshalDesc d0) ->
  table_ok (published d0) m' -> db_inv m' /\ table_at m' name (published d0).
Proof.
  intros Hi Hat Hw Eid En Hf Hb Ht. destruct (table_at_wf m name d Hi Hat) as [Hnm Hwd].
  pose proof (table_at_blob m' name d0 Hw Hb) as Hat'. split; [|done].
  destruct (published_fields d0) as (_ & Epid & Epn & _).
  apply (db_inv_replace m m' name d (published d0)); try done; [by apply cat_wf_published|congruence..].
Qed.

(** ** What a statement on one table leaves alone *)

(** Every other table has the same descriptor and the same rows, and the
    sequence objects and views are the same. *)
Definition others (name : bytes) (m m' : kvmap) : Prop := (forall n d1, n <> name ->
  (table_at m' n d1 <-> table_at m n d1) /\
  (table_at m n d1 -> forall T, abstracts d1 m T -> abstracts d1 m' T)) /\ records_kept m m'.

(** [name]'s descriptor became [d0] and its rows [g] of what they were. *)
Record altered (name : bytes) (d d0 : TableDesc) (g : table -> table) (m m' : kvmap) : Prop := {
  al_old : table_at m name d;
  al_new : table_at m' name (published d0);
  al_rows T : abstracts d m T -> abstracts (published d0) m' (g T);
  al_others : others name m m';
}.

Lemma frame_others m m' name d : db_inv m -> table_at m name d -> frame name (tID d) m m' -> others name m m'.
Proof.
  intros Hi Hat Hf. destruct (table_at_wf m name d Hi Hat) as [_ Hw]. pose proof (cat_wf_user d Hw) as Hu.
  split; [|by eapply frame_records]. intros n d1 Hn. split.
  - by apply (frame_table_at name (tID d)).
  - intros H1 T. destruct (table_at_wf m n d1 Hi H1) as [_ Hw1]. apply abstracts_ext. intros k Hk. symmetry.
    apply (frame_space name (tID d) m m' Hu Hf (tID d1)); [by apply cat_wf_user| |done].
    intros E. by apply Hn, (db_ids m Hi n name d1 d).
Qed.

Lemma frame_desc_insert m name id v : frame name id m (<[descKey name := v]> m).
Proof. intros k _ _ Hk. by apply lookup_insert_ne. Qed.

#[export] Instance frame_preorder name id : PreOrder (frame name id).
Proof. split; [by intros m k|]. intros m1 m2 m3 H1 H2 k ???. by rewrite H2, H1. Qed.

(** The published form of a descriptor reads the same rows. *)
Lemma published_row_ok d0 m row : stored d0 m row -> row_ok (published d0) row.
Proof.
  intros [Hr _]. unfold row_ok, row_typed, cell_ok in *.
  pose proof (published_fields d0) as (_ & _ & _ & Ec & Ep & _). unfold isPK in *. by rewrite Ec, Ep.
Qed.
Lemma published_layout_abstracts d0 m T : cat_wf d0 -> table_inv d0 m -> abstracts d0 m T -> abstracts (published d0) m T.
Proof. intros Hw Hi. apply layout_abstracts; [by apply layout_published|done|]. intros row. apply published_row_ok. Qed.
Lemma published_ok d0 m : cat_wf d0 -> table_ok d0 m -> table_ok (published d0) m.
Proof.
  intros Hw. destruct (published_fields d0) as (_ & _ & _ & _ & _ & Ex & _ & _ & En).
  apply (layout_table_ok d0); [by apply layout_published|done|lia|intros row; apply published_row_ok].
Qed.

(** The general step: the table's space changed from [m] to [m1], where it
    fits [d0], and then [d0] was published. *)
Lemma alter_rows m m1 name d d0 g : db_inv m -> table_at m name d -> cat_wf d0 -> tID d0 = tID d -> tName d0 = tName d ->
  frame name (tID d) m m1 -> table_ok d0 m1 ->
  (forall T, abstracts d m T -> abstracts d0 m1 (g T)) ->
  let m' := <[descKey name := marshalDesc d0]> m1 in
  db_inv m' /\ altered name d d0 g m m'.
Proof.
  intros Hi Hat Hw Eid En Hf Hok HT m'. destruct (table_at_wf m name d Hi Hat) as [Hnm Hwd].
  pose proof (cat_wf_user d Hwd) as Hu.
  assert (frame name (tID d) m m') as Hf' by (etransitivity; [exact Hf|apply frame_desc_insert]).
  assert (forall k, tableSpace (tID d0) `prefix_of` k -> m1 !! k = m' !! k) as Hk.
  { intros k Hk. symmetry. apply lookup_insert_ne. rewrite Eid in Hk. apply not_eq_sym. by eapply space_not_descKey. }
  assert (table_ok d0 m') as Hok' by (eapply table_ok_space; [|exact Hok]; intros; symmetry; by apply Hk).
  destruct (db_inv_alter m m' name d d0) as [Hdb Hat']; try done.
  - apply lookup_insert_eq.
  - by apply published_ok.
  - split; [done|]. split; [done|done| |by eapply frame_others].
    intros T HT0. apply published_layout_abstracts; [done|apply Hok'|]. eapply abstracts_ext; [exact Hk|]. by apply HT.
Qed.

(** Only the descriptor changes, to one the stored rows satisfy. *)
Lemma alter_in_place m name d d0 : db_inv m -> table_at m name d -> cat_wf d0 -> layout d d0 -> tName d0 = tName d ->
  tIndexes d0 = tIndexes d -> tNextColID d <= tNextColID d0 -> (forall row, stored d m row -> row_ok d0 row) ->
  let m' := <[descKey name := marshalDesc d0]> m in
  db_inv m' /\ altered name d d0 id m m'.
Proof.
  intros Hi Hat Hw Hl En Hix Hn Hr. pose proof (db_table m Hi name d Hat) as Hok.
  apply alter_rows; try done.
  - apply Hl.
  - by eapply layout_table_ok.
  - intros T. eapply layout_abstracts; [done|apply Hok|done].
Qed.

(** ** Row statements *)

(** Rows change under an unchanged descriptor. *)
Lemma rows_changed m m' name d : db_inv m -> table_at m name d -> frame name (tID d) m m' ->
  m' !! descKey name = m !! descKey name -> table_ok d m' ->
  db_inv m' /\ table_at m' name d /\ others name m m'.
Proof.
  intros Hi Hat Hf Hk Ht. destruct (table_at_wf m name d Hi Hat) as [Hnm Hwd].
  assert (table_at m' name d) as Hat' by (unfold table_at, resolve in *; by rewrite Hk).
  split_and!; [by apply (db_inv_replace m m' name d d)|done|by eapply frame_others].
Qed.

Section rows.
Context (d : TableDesc) (Hw : cat_wf d).

Lemma row_val_tags row : row_ok d row -> exists l, row_val d row = elems (tagged l) /\ tags_ok (tNextColID d) l.
Proof.
  intros [[Hl Hr] Hc]. exists (rowTags d 0 (tColumns d) row). split; [unfold row_val; by rewrite rowTags_pairs|].
  apply rowTags_ok; [apply Hw| |done]. pose proof (cw_next d Hw) as Hn. pose proof (wf_colID_range d (cw_wf d Hw)) as Hu.
  rewrite Forall_forall in *. intros c Hin. specialize (Hn c Hin). specialize (Hu c Hin). unfold uint32_ok in Hu. lia.
Qed.

Lemma ids_ok_add row m : row_ok d row -> ids_ok d m -> ids_ok d (add_row d row m).
Proof.
  intros Hr Hi k v Hk Hp. rewrite (add_row_table d (cw_wf d Hw)) in Hk by done. case_decide; [|by eapply Hi].
  injection Hk as <-. by apply row_val_tags.
Qed.
Lemma ids_ok_del row m : ids_ok d m -> ids_ok d (del_row d row m).
Proof.
  intros Hi k v Hk Hp. rewrite (del_row_table d (cw_wf d Hw)) in Hk by done. case_decide; [done|]. by eapply Hi.
Qed.
Lemma ids_ok_ext m1 m2 : (forall k, tableSpace (tID d) `prefix_of` k -> m1 !! k = m2 !! k) -> ids_ok d m1 -> ids_ok d m2.
Proof. intros Hk Hi k v Hkv Hp. eapply Hi; [|done]. rewrite Hk; [done|]. by eapply indexPrefix_space. Qed.

Lemma add_row_lookup_inv row m k v : add_row d row m !! k = Some v ->
  m !! k = Some v \/ k = row_key d row \/ exists idx, idx ∈ tIndexes d /\ k = index_key d idx row.
Proof.
  intros Hk. destruct (decide (k = row_key d row)) as [|Hne]; [by right; left|].
  destruct (decide (Exists (λ idx, k = index_key d idx row) (tIndexes d))) as [Hx|Hx].
  - apply Exists_exists in Hx as (idx & Hidx & ->). right; right. by exists idx.
  - left. rewrite <- Hk. symmetry. unfold add_row. rewrite lookup_insert_ne by done. apply (add_entries_ne d (cw_wf d Hw)).
    intros idx Hidx E. apply Hx, Exists_exists. by exists idx.
Qed.
Lemma tidy_add row m : tidy d m -> tidy d (add_row d row m).
Proof.
  intros Ht k [v Hv] Hp. destruct (add_row_lookup_inv row m k v Hv) as [Hk|[->|(idx & Hidx & ->)]].
  - by apply Ht; [exists v|].
  - left. apply row_key_prefix.
  - right. apply Exists_exists. exists idx. split; [done|]. apply index_key_prefix.
Qed.
(** One more row. *)
Lemma table_ok_add row m : table_ok d m -> row_ok d row -> m !! row_key d row = None ->
  (forall idx, idx ∈ tIndexes d -> enforced idx row = true -> m !! index_key d idx row = None) -> table_ok d (add_row d row m).
Proof.
  intros [Hti Hids Ht] Hr Hm Hu. split; [by apply (table_inv_add d (cw_wf d Hw))|by apply ids_ok_add|by apply tidy_add].
Qed.

Lemma identity_frame name m m' : identity_only d m m' -> frame name (tID d) m m'.
Proof.
  intros Hi k _ Hk _. by apply Hi.
Qed.
Lemma identity_descKey name m m' : identity_only d m m' -> m' !! descKey name = m !! descKey name.
Proof.
  intros Hi. apply Hi. intros [r E]. rewrite identitySeqTablePrefix_elems, descKey_elems in E.
  change (elems [kint 2; ?b; ?c]) with (elems [kint 2] ++ elems [b; c]) in E.
  change (elems [kint 1; ?b; ?c]) with (elems [kint 1] ++ elems [b; c]) in E.
  rewrite <- app_assoc in E. apply elems_app_inj in E as [E _]; [|done|repeat constructor; unfold int64_ok; cbn; lia..]. done.
Qed.
End rows.

(** A table's identity counters are no part of its rows. *)
Lemma identity_space_ext m m' d : cat_wf d -> identity_only d m m' -> forall k, tableSpace (tID d) `prefix_of` k -> m' !! k = m !! k.
Proof.
  intros Hw Hi k Hk. apply Hi. intros Hs%identity_space.
  by apply (user_not_sys (tID d) sysSeqTableID k); [by apply cat_wf_user|..].
Qed.
Lemma identity_db_inv m m' name d : db_inv m -> table_at m name d -> identity_only d m m' ->
  db_inv m' /\ table_at m' name d /\ others name m m'.
Proof.
  intros Hi Hat Hio. destruct (table_at_wf m name d Hi Hat) as [_ Hw].
  pose proof (identity_space_ext m m' d Hw Hio) as Hk.
  apply (rows_changed m m' name d); try done.
  - by apply identity_frame.
  - by apply (identity_descKey d).
  - by eapply table_ok_space; [|by apply (db_table m Hi name)].
Qed.

(** ** System records *)

(** Writes outside the tables and their descriptors: sequence objects, views
    and the ID counter, which only grows. *)
Lemma db_inv_sys m m' : db_inv m -> (forall k, descTablePrefix `prefix_of` k -> m' !! k = m !! k) ->
  (forall id k, user id -> tableSpace id `prefix_of` k -> m' !! k = m !! k) ->
  (exists next next', position seqKey firstUserTableID m = Ok next /\ position seqKey firstUserTableID m' = Ok next' /\ next <= next') ->
  db_inv m' /\ (forall n d, table_at m' n d <-> table_at m n d) /\
  (forall n d T, table_at m n d -> abstracts d m T -> abstracts d m' T).
Proof.
  intros Hi Hd Hs (next & next' & Hp & Hp' & Hle).
  assert (forall n d, table_at m' n d <-> table_at m n d) as Hat by (intros n d; apply table_at_ext, Hd, descKey_prefix).
  assert (forall n d, table_at m n d -> forall k, tableSpace (tID d) `prefix_of` k -> m' !! k = m !! k) as Hk.
  { intros n d H k. apply Hs, cat_wf_user. by apply (table_at_wf m n d). }
  split_and!; [split|done|].
  - intros k v Hkv Hpre. apply (db_desc m Hi k v); [|done]. by rewrite <- Hd.
  - intros n d H%Hat. apply (table_ok_space m); [by apply (Hk n)|by apply (db_table m Hi n)].
  - intros n1 n2 d1 d2 H1%Hat H2%Hat. by apply (db_ids m Hi).
  - destruct (db_next m Hi) as (next0 & Hp0 & Hge & He). rewrite Hp in Hp0. injection Hp0 as <-.
    exists next'. split_and!; [done|lia|]. intros id Hid k Hpre. rewrite (Hs id) by (done || unfold user; lia). apply (He id); [lia|done].
  - intros id k v Hu Hkv Hpre. rewrite (Hs id) in Hkv by done. destruct (db_owned m Hi id k v Hu Hkv Hpre) as (n & d & H & Ed).
    exists n, d. by rewrite Hat.
  - intros n d next0 H%Hat Hp0. rewrite Hp' in Hp0. injection Hp0 as <-. pose proof (db_allocated m Hi n d next H Hp). lia.
  - intros n d T H. apply abstracts_ext. intros k Hpre. symmetry. by apply (Hk n d).
Qed.

Lemma record_not_seqKey k : record_key k -> k <> seqKey.
Proof.
  intros [H|H]%record_space ->; [apply (space_other sysSeqTableID sysIDSeqTableID seqKey)|apply (space_other sysViewTableID sysIDSeqTableID seqKey)];
    try done; apply seqKey_space.
Qed.
Lemma seqKey_not_descKey n : seqKey <> descKey n.
Proof.
  intros E. apply (space_other sysIDSeqTableID sysDescTableID seqKey); [done..| |apply seqKey_space].
  rewrite E. apply descKey_space.
Qed.

(** One record written, with an ID drawn for it or without. *)
Definition recorded (key : bytes) (m m' : kvmap) : Prop :=
  (forall k, k <> key -> k <> seqKey -> m' !! k = m !! k) /\
  (m' !! seqKey = m !! seqKey \/ exists id, position seqKey firstUserTableID m = Ok id /\ uint64_ok (id + 1) /\ m' !! seqKey = Some (be64 (id + 1))).

Lemma db_inv_recorded m m' key : db_inv m -> record_key key -> recorded key m m' ->
  db_inv m' /\ (forall n d, table_at m' n d <-> table_at m n d) /\
  (forall n d T, table_at m n d -> abstracts d m T -> abstracts d m' T) /\
  forall k, record_key k -> k <> key -> m' !! k = m !! k.
Proof.
  intros Hi Hkey [Hk Hseq].
  assert (forall k, tableSpace sysDescTableID `prefix_of` k -> m' !! k = m !! k) as Hd.
  { intros k Hp. apply Hk; intros ->; [|by apply (space_other sysDescTableID sysIDSeqTableID seqKey); [..|apply seqKey_space|]].
    apply record_space in Hkey as [H|H]; [by apply (space_other sysDescTableID sysSeqTableID key)|by apply (space_other sysDescTableID sysViewTableID key)]. }
  destruct (db_inv_sys m m') as (H1 & H2 & H3); [done|intros k Hp; by apply Hd, descTablePrefix_space| | |].
  - intros id k Hid Hp. apply Hk; intros ->; [by eapply record_not_user|].
    by apply (user_not_sys id sysIDSeqTableID seqKey); [..|apply seqKey_space].
  - destruct (db_next m Hi) as (next & Hp & _). unfold position in *. destruct Hseq as [->|(id & Hid & Hr & ->)]; [by exists next, next|].
    rewrite Hid in Hp. injection Hp as ->. exists next, (next + 1). split_and!; [done|by apply readCounter_be64|lia].
  - split_and!; [done..|]. intros k Hr Hne. apply Hk; [done|by apply record_not_seqKey].
Qed.

Lemma sqlSeqKey_record n : record_key (sqlSeqKey n).
Proof. left. rewrite sqlSeqKey_elems, sqlSeqPrefix_elems. exists (elems [AString n]). by rewrite <- elems_app. Qed.
Lemma viewKey_record n : record_key (viewKey n).
Proof. right. rewrite viewKey_elems, tableSpace_elems. exists (elems [kint 1; AString n]). by rewrite <- elems_app. Qed.
#[export] Instance sqlSeqKey_inj : Inj (=) (=) sqlSeqKey.
Proof.
  intros n1 n2. rewrite !sqlSeqKey_elems. intros E%elems_inj; [by injection E|..]; repeat constructor; unfold int64_ok; cbn; lia.
Qed.
#[export] Instance viewKey_inj : Inj (=) (=) viewKey.
Proof.
  intros n1 n2. rewrite !viewKey_elems. intros E%elems_inj; [by injection E|..]; repeat constructor; unfold int64_ok; cbn; lia.
Qed.
Lemma seq_not_view n1 n2 : sqlSeqKey n1 <> viewKey n2.
Proof.
  rewrite sqlSeqKey_elems, viewKey_elems. intros E%elems_inj; [done|..]; repeat constructor; unfold int64_ok; cbn; lia.
Qed.

(** ** The rows of a table *)

Definition rows_of (d : TableDesc) (m : kvmap) : list (list any * list any) :=
  (λ e, (pkOf d (rowOf d e), rowOf d e)) <$> range m (tablePrefix (tID d)) (prefixEnd (tablePrefix (tID d))).

Lemma range_entry d m k v : (k, v) ∈ range m (tablePrefix (tID d)) (prefixEnd (tablePrefix (tID d))) <->
  m !! k = Some v /\ tablePrefix (tID d) `prefix_of` k.
Proof. rewrite elem_of_range. unfold tablePrefix. by rewrite indexPrefix_interval. Qed.

(** Every table stands for a map of rows, and for one only. *)
Lemma rows_of_abstracts d m : table_inv d m -> abstracts d m (list_to_map (rows_of d m)) /\ NoDup (rows_of d m).*1.
Proof.
  intros Hi.
  assert (NoDup (rows_of d m).*1) as Hnd.
  { unfold rows_of. rewrite <- list_fmap_compose. apply NoDup_fmap_2_strong; [|by eapply NoDup_fmap_1, range_nodup].
    intros [k1 v1] [k2 v2] [H1 P1]%range_entry [H2 P2]%range_entry Ep. cbn in Ep.
    destruct (rowOf_stored d m k1 v1 Hi H1 P1) as (_ & K1 & _), (rowOf_stored d m k2 v2 Hi H2 P2) as (_ & K2 & _).
    assert (k1 = k2) as -> by (rewrite K1, K2; unfold row_key; by rewrite Ep). congruence. }
  split; [|done]. split.
  - intros row. rewrite <- elem_of_list_to_map by done. unfold rows_of. rewrite list_elem_of_fmap. split.
    + intros Hst. pose proof Hst as (_ & v & Hv & Hd). exists (row_key d row, v). split; [|apply range_entry; split; [done|apply row_key_prefix]].
      unfold rowOf. cbn [fst snd]. by rewrite Hd.
    + intros ([k v] & [= _ ->] & [Hk Hp]%range_entry). by apply rowOf_stored.
  - intros pk row Hl. apply elem_of_list_to_map_2 in Hl. unfold rows_of in Hl. apply list_elem_of_fmap in Hl as (e & [= -> ->] & _). done.
Qed.
Lemma abstracts_unique d m T1 T2 : abstracts d m T1 -> abstracts d m T2 -> T1 = T2.
Proof.
  intros H1 H2. apply map_eq. intros pk. apply option_eq. intros row. by rewrite (abs_lookup d m T1), (abs_lookup d m T2).
Qed.
(** The number of entries of the table's primary range. *)
Lemma abstracts_size d m T : table_inv d m -> abstracts d m T ->
  size T = length (range m (tablePrefix (tID d)) (prefixEnd (tablePrefix (tID d)))).
Proof.
  intros Hi HT. destruct (rows_of_abstracts d m Hi) as [Ha Hnd]. rewrite (abstracts_unique d m T _ HT Ha), map_size_list_to_map by done.
  apply length_fmap.
Qed.
