(* ===== verification/Ddl.v ===== *)
(** * What the schema changes share

    [ddl.go]'s [alterDesc] and row counting, and [fk.go]'s search for the
    references to a table, with their rules over a sound database. *)
From S2P Require Import Prelude GoVal GoStr Tuple KV Json Time Jsonb Types Catalog Desc Rows Index Table Seq Upkeep Dml Relation Engine Store Database.

Local Open Scope Z_scope.

Section ddl.
Context {E : Type} {eng : EngineOps E} {cs : CatState E} {tx : Type} {kv : KV tx}.

(** The table's rows, in key order. *)
Definition rowEntries (tableID : Z) (t : tx) : list (bytes * bytes) :=
  let prefix := tablePrefix tableID in ascend_to prefix (prefixEnd prefix) t.

(** The loop counts until it reaches the limit. *)
Fixpoint countUpTo {X : Type} (limit n : Z) (l : list X) : Z :=
  match l with
  | [] => n
  | _ :: l' => if limit <=? n + 1 then n + 1 else countUpTo limit (n + 1) l'
  end.
Definition countRowsUpTo (tableID limit : Z) (t : tx) : Z :=
  if limit <=? 0 then 0 else countUpTo limit 0 (rowEntries tableID t).
Definition hasRows (tableID : Z) (t : tx) : bool := 0 <? countRowsUpTo tableID 1 t.

Definition getLimit : M (E * tx) Z := onE (gets (λ e, cBackfillLimit (cat e))).

(** [if limit := e.backfillLimit.Load(); limit > 0 { if n := countRowsUpTo(...); n > limit {...} }] *)
Definition checkLimit (tableID : Z) (err : error) : M (E * tx) unit :=
  limit ← getLimit;
  n ← onTx (gets (countRowsUpTo tableID (int64 (limit + 1))));
  if (0 <? limit) && (limit <? n) then fail err else mret ().

End ddl.

Lemma countUpTo_spec {X : Type} limit n (l : list X) : n < limit ->
  countUpTo limit n l = Z.min limit (n + Z.of_nat (length l)).
Proof.
  revert n. induction l as [|x l IH]; intros n Hn; cbn [countUpTo length]; [lia|].
  destruct (Z.leb_spec limit (n + 1)); [lia|]. rewrite IH; lia.
Qed.

Section laws.
Context {E : Type} {eng : EngineOps E} {cs : CatState E} {cat_laws : CatLaws E}.
Context {tx : Type} {kv : KV tx} {kv_laws : KVLaws tx}.

(** What a schema change may assume of its transaction. *)
Record ready (e : E) (t : tx) : Prop := {
  rd_cache : cache_ok (cat e);
  rd_db : db_inv (kv_map t);
  rd_writable : kv_writable t = true;
}.

(** What it promises: a sound database and the effect [R] when it succeeds,
    and never a panic. What a failed one leaves is rolled back. *)
Definition ddl {A : Type} (e : E) (R : A -> kvmap -> Prop) (o : outcome A) (s : E * tx) : Prop :=
  cached e s.1 /\
  match o with
  | Ok a => db_inv (kv_map s.2) /\ R a (kv_map s.2)
  | Err _ => True
  | Panic _ => False
  end.

Lemma ready_cached (e e' : E) (t : tx) : ready e t -> cached e e' -> ready e' t.
Proof. intros [Hc Hd Hw] [He _]. split; auto. Qed.

Lemma ddl_cached {A : Type} (e e' : E) (R : A -> kvmap -> Prop) o s : cached e e' -> ddl e' R o s -> ddl e R o s.
Proof. intros H [H1 H2]. split; [by etransitivity|done]. Qed.
Lemma ddl_err {A : Type} (e e' : E) (t : tx) (R : A -> kvmap -> Prop) er : cached e e' -> ddl e R (Err er) (e', t).
Proof. by intros. Qed.

Lemma wp_descFromView_ready table Q (e : E) (t : tx) : ready e t ->
  (forall d e', cached e e' -> table_at (kv_map t) table d -> tName d = table -> cat_wf d -> Q (Ok d) (e', t)) ->
  (forall e', cached e e' -> Q (Err errNoTable) (e', t)) ->
  wp (descFromView table) Q (e, t).
Proof.
  intros [Hc Hd _] HQ Hn. apply wp_descFromView; [done|]. intros e' He.
  destruct (resolve (kv_map t) table) as [[d|]|er|p] eqn:Er; cbn [mbind outcome_bind].
  - destruct (table_at_wf (kv_map t) table d Hd Er). by apply HQ.
  - by apply Hn.
  - exfalso. unfold resolve in Er. destruct (kv_map t !! descKey table) as [b|] eqn:Eb; [|done].
    destruct (db_desc _ Hd _ _ Eb (descKey_prefix table)) as (d & _ & Hp & _). by rewrite Hp in Er.
  - exfalso. unfold resolve in Er. destruct (kv_map t !! descKey table) as [b|] eqn:Eb; [|done].
    destruct (db_desc _ Hd _ _ Eb (descKey_prefix table)) as (d & _ & Hp & _). by rewrite Hp in Er.
Qed.

(** What [wp_alterDesc] asks of a mutation. *)
Definition mutates {A : Type} (table : bytes) (e : E) (R : A -> kvmap -> Prop) (o : outcome (option TableDesc * A)) (s : E * tx) : Prop :=
  cached e s.1 /\ kv_writable s.2 = true /\
  match o with
  | Ok (None, a) => db_inv (kv_map s.2) /\ R a (kv_map s.2)
  | Ok (Some d0, a) =>
      db_inv (<[descKey table := marshalDesc d0]> (kv_map s.2)) /\ R a (<[descKey table := marshalDesc d0]> (kv_map s.2))
  | Err _ => True
  | Panic _ => False
  end.

Lemma mutates_cached {A : Type} (table : bytes) (e e' : E) (R : A -> kvmap -> Prop) o s : cached e e' ->
  mutates table e' R o s -> mutates table e R o s.
Proof. intros He [H1 H2]. split; [by etransitivity|done]. Qed.

(** The rule for [alterDesc]: the mutation is given the table's descriptor
    and either publishes nothing, having written nothing that matters, or
    a descriptor for what it wrote. *)
Lemma wp_alterDesc {A : Type} table (mutate : TableDesc -> M (E * tx) (option TableDesc * A)) R (e : E) (t : tx) : ready e t ->
  (forall d e', ready e' t -> cached e e' -> table_at (kv_map t) table d -> tName d = table -> cat_wf d ->
    wp (mutate d) (mutates table e' R) (e', t)) ->
  wp (alterDesc table mutate) (ddl e R) (e, t).
Proof.
  intros Hr Hm. unfold alterDesc. apply wp_bind, wp_descFromView_ready; [done| |].
  - intros d e1 He1 Hat Hnm Hw. cbn [seqQ]. apply wp_bind. eapply wp_mono.
    { apply Hm; try done. by eapply ready_cached. }
    intros [[[d0|] a]|er|p] [e2 t2] (He2 & Hwr & H); cbn [seqQ fst snd] in *;
      assert (cached e e2) as He by (by etransitivity).
    + apply wp_bind, wp_onTx, wp_set. rewrite Hwr. intros t3 Hws. cbn [seqQ]. apply wp_ret. split; [done|].
      cbn [snd]. rewrite (writes_map _ _ _ Hws). done.
    + by apply wp_ret.
    + done.
    + done.
  - intros e1 He1. by apply ddl_err.
Qed.

(** ** References to a table *)

(** [f] is a foreign key of table [d] on [table]. *)
Definition references (m : kvmap) (table : bytes) (skipSelf : bool) (d : TableDesc) (f : FKDesc) : Prop :=
  table_at m (tName d) d /\ f ∈ tForeignKeys d /\ fkRefTable f = table /\ (skipSelf = true -> tName d <> table).

Lemma descEntries_elem (t : tx) k v : (k, v) ∈ descEntries t <-> kv_map t !! k = Some v /\ descTablePrefix `prefix_of` k.
Proof.
  unfold descEntries. rewrite ascend_to_range, elem_of_range. unfold descTablePrefix, tablePrefix.
  by rewrite indexPrefix_interval.
Qed.

Lemma referencing_loop_wp table skipSelf es (e : E) (t : tx) : ready e t -> (forall k v, (k, v) ∈ es -> (k, v) ∈ descEntries t) ->
  wp (referencing_loop table skipSelf es) (λ o s, s.2 = t /\ cached e s.1 /\ exists refs, o = Ok refs /\
    forall d f, (d, f) ∈ refs <-> references (kv_map t) table skipSelf d f /\ exists v, (descKey (tName d), v) ∈ es) (e, t).
Proof.
  intros Hr. revert e Hr. induction es as [|[k v] es IH]; intros e Hr Hes.
  { apply wp_ret. split_and!; [done..|]. exists []. split; [done|]. intros d f. split; [by intros ?%elem_of_nil|].
    by intros [_ [v ?%elem_of_nil]]. }
  assert ((k, v) ∈ descEntries t) as [Hk Hp]%descEntries_elem by (apply Hes; left).
  destruct (db_desc _ (rd_db _ _ Hr) _ _ Hk Hp) as (d & -> & Hd & Hw).
  assert (table_at (kv_map t) (tName d) d) as Hat by (unfold table_at, resolve; by rewrite Hk, Hd).
  cbn [referencing_loop]. rewrite descKeyName_descKey. apply wp_bind, wp_tableFromView; [apply Hr|]. intros e1 He1.
  rewrite Hat. cbn [seqQ]. apply wp_bind. eapply wp_mono.
  { apply IH; [by eapply ready_cached|]. intros. apply Hes. by right. }
  intros o [e2 t2] (Ht2 & He2 & refs & -> & Hrefs). cbn [fst snd seqQ] in *. apply wp_ret.
  split_and!; [done|by etransitivity|]. eexists. split; [done|]. clear IH. intros d' f.
  assert (forall d', table_at (kv_map t) (tName d') d' -> tName d' = tName d -> d' = d) as Hsame.
  { intros d0 H0 E0. unfold table_at in *. rewrite E0 in H0. congruence. }
  destruct (skipSelf && bool_decide (tName d = table)) eqn:Es.
  - apply andb_true_iff in Es as [-> Es%bool_decide_eq_true]. rewrite Hrefs. split.
    + intros [H1 [v' H2]]. split; [done|]. exists v'. by right.
    + intros [H1 [v' H2]]. split; [done|]. apply elem_of_cons in H2 as [[= Ek _]|H2]; [|by exists v'].
      apply (inj descKey) in Ek. destruct H1 as (_ & _ & _ & H1). destruct (H1 eq_refl). congruence.
  - rewrite elem_of_app, Hrefs, list_elem_of_fmap. split.
    + intros [(f' & [= -> ->] & [Hf' Hin]%list_elem_of_filter)|[H1 [v' H2]]].
      * split; [|exists v; left]. split_and!; [done..|]. intros ->. cbn in Es. by apply bool_decide_eq_false in Es.
      * split; [done|]. exists v'. by right.
    + intros [H1 [v' H2]]. apply elem_of_cons in H2 as [[= Ek _]|H2]; [left|right; split; [done|by exists v']].
      apply (inj descKey) in Ek. destruct H1 as (Hat' & Hin & Href & _). exists f. rewrite (Hsame d' Hat' Ek) in *.
      split; [done|]. by apply list_elem_of_filter.
Qed.

Lemma referencingFKs_wp table skipSelf (e : E) (t : tx) Q : ready e t ->
  (forall refs e', cached e e' -> (forall d f, (d, f) ∈ refs <-> references (kv_map t) table skipSelf d f) -> Q (Ok refs) (e', t)) ->
  wp (referencingFKs table skipSelf) Q (e, t).
Proof.
  intros Hr HQ. unfold referencingFKs. apply wp_bind, wp_onTx, wp_gets. cbn [seqQ].
  eapply wp_mono; [by apply referencing_loop_wp|]. intros o [e1 t1] (Ht & He & refs & -> & Hrefs). cbn [fst snd] in *. subst t1. apply HQ; [done|].
  intros d f. rewrite Hrefs. split; [by intros []|]. intros H. split; [done|].
  destruct H as (Hat & _). unfold table_at, resolve in Hat. destruct (kv_map t !! descKey (tName d)) as [b|] eqn:Eb; [|done].
  exists b. apply descEntries_elem. split; [done|]. apply descKey_prefix.
Qed.

(** ** Counting rows *)

Lemma rowEntries_range id (t : tx) : rowEntries id t = range (kv_map t) (tablePrefix id) (prefixEnd (tablePrefix id)).
Proof. apply ascend_to_range. Qed.
Lemma rowEntries_elem id (t : tx) k v : (k, v) ∈ rowEntries id t <-> kv_map t !! k = Some v /\ tablePrefix id `prefix_of` k.
Proof. rewrite rowEntries_range, elem_of_range. unfold tablePrefix. by rewrite indexPrefix_interval. Qed.

Lemma countRowsUpTo_spec id limit (t : tx) : 0 < limit ->
  countRowsUpTo id limit t = Z.min limit (Z.of_nat (length (rowEntries id t))).
Proof.
  intros Hl. unfold countRowsUpTo. rewrite (proj2 (Z.leb_gt limit 0)) by lia. by rewrite countUpTo_spec.
Qed.
Lemma hasRows_false id (t : tx) : hasRows id t = false <-> rowEntries id t = [].
Proof.
  unfold hasRows. rewrite Z.ltb_ge, countRowsUpTo_spec by lia. split; [|intros ->; cbn; lia].
  destruct (rowEntries id t); [done|]. cbn [length]. lia.
Qed.
Lemma hasRows_stored d (t : tx) row : hasRows (tID d) t = false -> ~ stored d (kv_map t) row.
Proof.
  rewrite hasRows_false. intros H (_ & v & Hv & _).
  assert ((row_key d row, v) ∈ rowEntries (tID d) t) as Hin by (apply rowEntries_elem; split; [done|apply row_key_prefix]).
  rewrite H in Hin. by apply elem_of_nil in Hin.
Qed.

Lemma wp_checkLimit id err Q (e : E) (t : tx) :
  Q (Ok tt) (e, t) -> Q (Err err) (e, t) -> wp (checkLimit id err) Q (e, t).
Proof.
  intros H1 H2. unfold checkLimit, getLimit. apply wp_bind, wp_onE. intros o e1 [= <- <-]. cbn [seqQ].
  apply wp_bind, wp_onTx, wp_gets. cbn [seqQ]. by destruct (_ && _); [apply wp_fail|apply wp_ret].
Qed.

End laws.
