(* ===== verification/DdlColumn.v ===== *)
(** * Column and check-constraint changes

    [ddl.go]: defaults, NOT NULL, renames and CHECK constraints, which only
    rewrite the descriptor, and adding and dropping columns. Every one keeps
    the database sound; its effect on the table is stated with it. *)
From S2P Require Import Prelude GoVal GoStr Tuple KV Json Time Jsonb Types Catalog Desc Rows Default Pairs Index Table Seq Upkeep Dml Relation Engine Store Database Ddl.

Local Open Scope Z_scope.

(** ** Descriptor edits *)

Definition with_columns (d : TableDesc) (cols : list Column) : TableDesc :=
  mkTable (tFormatVersion d) (tID d) (tName d) cols (tPKCols d) (tIndexes d) (tChecks d) (tForeignKeys d) (tNextColID d) None.
Definition with_checks (d : TableDesc) (checks : list CheckDesc) : TableDesc :=
  mkTable (tFormatVersion d) (tID d) (tName d) (tColumns d) (tPKCols d) (tIndexes d) checks (tForeignKeys d) (tNextColID d) None.
Definition with_fks (d : TableDesc) (fks : list FKDesc) : TableDesc :=
  mkTable (tFormatVersion d) (tID d) (tName d) (tColumns d) (tPKCols d) (tIndexes d) (tChecks d) fks (tNextColID d) None.

Definition col_default (s : bytes) (c : Column) : Column :=
  mkColumn (colName c) (colType c) (colID c) (colNotNull c) (colIdentity c) s (colMaxLen c).
Definition col_notnull (b : bool) (c : Column) : Column :=
  mkColumn (colName c) (colType c) (colID c) b (colIdentity c) (colDefault c) (colMaxLen c).
Definition col_name (s : bytes) (c : Column) : Column :=
  mkColumn s (colType c) (colID c) (colNotNull c) (colIdentity c) (colDefault c) (colMaxLen c).
Definition col_id (id : Z) (c : Column) : Column :=
  mkColumn (colName c) (colType c) id (colNotNull c) (colIdentity c) (colDefault c) (colMaxLen c).

(** [desc := old.clone(); desc.Columns[ord].F = ...] *)
Definition edit_column (d : TableDesc) (ord : nat) (f : Column -> Column) : TableDesc :=
  with_columns d (alter f ord (tColumns d)).

Definition fk_refs (f : FKDesc) (refTable : bytes) (refCols : list bytes) : FKDesc :=
  mkFK (fkName f) (fkCols f) refTable refCols (fkOnDelete f).
Definition rename (old new s : bytes) : bytes := if decide (s = old) then new else s.
(** The table's own references to the column follow the rename. *)
Definition rename_refs (table oldName newName : bytes) (f : FKDesc) : FKDesc :=
  if decide (fkRefTable f = table) then fk_refs f (fkRefTable f) (rename oldName newName <$> fkRefCols f) else f.

Definition errConflictingDefault : error := ENew (go "conflicting DEFAULT for identity column").
Definition errPKColumn (column : bytes) : error := ENew (go "column " ++ quoted column ++ go " is in a primary key").
Definition errIdentityNotNull : error := ENew (go "an identity column is always NOT NULL").
Definition notNullValueErr (table column : bytes) : error :=
  ENew (go "column " ++ quoted column ++ go " of relation " ++ quoted table ++ go " contains null values").
Definition errConstraintExists (name table : bytes) : error :=
  ENew (go "constraint " ++ quoted name ++ go " for relation " ++ quoted table ++ go " already exists").
Definition errColumnExists (name table : bytes) : error :=
  ENew (go "column " ++ quoted name ++ go " of relation " ++ quoted table ++ go " already exists").
Definition errCheckName : error := ENew (go "check constraint name is required").
Definition errNewName : error := ENew (go "new column name is required").
Definition errRenameReferenced : error := ENew (go "cannot rename a column referenced by a foreign key").

(** The pair loop of [columnHasNoNulls]. *)
Fixpoint hasValue (colID : Z) (pairs : list any) : bool :=
  match pairs with
  | id :: v :: pairs' =>
      match id with
      | AInt KInt64 z => bool_decide (uint32 z = colID) && negb (is_nil v)
      | _ => false
      end || hasValue colID pairs'
  | _ => false
  end.
Fixpoint noNulls_loop (colID : Z) (es : list (bytes * bytes)) : outcome bool :=
  match es with
  | [] => Ok true
  | (_, v) :: es' =>
      pairs ← Decode v;
      if hasValue colID pairs then noNulls_loop colID es' else Ok false
  end.

Section columns.
Context {E S : Type} {eng : EngineOps E} {grd : Guarded E} {cs : CatState E} {tx : Type} {kv : KV tx} {db : DB E S tx}.

Definition columnHasNoNulls (d : TableDesc) (colID : Z) (t : tx) : outcome bool :=
  noNulls_loop colID (rowEntries (tID d) t).

(** Resolves the column or fails. *)
Definition withColumn {A : Type} (d : TableDesc) (column : bytes) (k : nat -> Column -> M (E * tx) A) : M (E * tx) A :=
  match ColIndex d column with
  | None => fail errNoColumn
  | Some ord => c ← lift (at_index (tColumns d) ord); k ord c
  end.

(** *** Defaults *)

Definition DropColumnDefaultIn (table column : bytes) : M (E * tx) unit :=
  alterDesc table (λ old, withColumn old column (λ ord c,
    if bool_decide (colDefault c = []) then mret (None, tt)
    else mret (Some (edit_column old ord (col_default [])), tt))).
Definition DropColumnDefault (table column : bytes) : M (E * S) unit := updateDDL' (DropColumnDefaultIn table column).

Definition SetColumnDefaultIn (table column literal : bytes) (now : Z) : M (E * tx) unit :=
  alterDesc table (λ old, withColumn old column (λ ord c,
    if colIdentity c then fail errConflictingDefault
    else
      let desc := edit_column old ord (col_default literal) in
      probe ← lift (at_index (tColumns desc) ord);
      _ ← lift (columnDefaultValue probe now);
      mret (Some desc, tt))).
Definition SetColumnDefault (table column literal : bytes) (now : Z) : M (E * S) unit :=
  if decide (literal = []) then DropColumnDefault table column
  else updateDDL' (SetColumnDefaultIn table column literal now).

(** *** NOT NULL *)

Definition SetColumnNotNullIn (table column : bytes) : M (E * tx) unit :=
  alterDesc table (λ old, withColumn old column (λ ord c,
    if colNotNull c then mret (None, tt)
    else
      ok ← (if isPK old ord then mret true
            else o ← onTx (gets (columnHasNoNulls old (colID c))); lift o);
      if (ok : bool) then mret (Some (edit_column old ord (col_notnull true)), tt)
      else fail (notNullValueErr table column))).
Definition SetColumnNotNull (table column : bytes) : M (E * S) unit := updateDDL' (SetColumnNotNullIn table column).

Definition DropColumnNotNullIn (table column : bytes) : M (E * tx) unit :=
  alterDesc table (λ old, withColumn old column (λ ord c,
    if isPK old ord then fail (errPKColumn column)
    else if colIdentity c then fail errIdentityNotNull
    else if negb (colNotNull c) then mret (None, tt)
    else mret (Some (edit_column old ord (col_notnull false)), tt))).
Definition DropColumnNotNull (table column : bytes) : M (E * S) unit := updateDDL' (DropColumnNotNullIn table column).

(** *** Checks *)

(** [validate] sees the rows of a scan until one of them fails it. *)
Fixpoint validateRows (validate : Row -> outcome unit) (rows : list (outcome Row)) : outcome unit :=
  match rows with
  | [] => Ok tt
  | o :: rows' => r ← o; _ ← validate r; validateRows validate rows'
  end.

(** The engine stores the check's text and calls [validate] on the rows. *)
Definition AddCheckIn (table : bytes) (ck : CheckDesc) (validate : option (Row -> outcome unit)) : M (E * tx) unit :=
  alterDesc table (λ old,
    if existsb (λ c, bool_decide (chkName c = chkName ck)) (tChecks old) then fail (errConstraintExists (chkName ck) table)
    else
      _ ← match validate with
          | None => mret ()
          | Some f =>
              o ← onTx (λ t, let '(seen, t') := scanRows old None None drain t in (Ok (validateRows f (reverse seen)), t'));
              lift o
          end;
      mret (Some (with_checks old (tChecks old ++ [ck])), tt)).
Definition AddCheck (table : bytes) (ck : CheckDesc) (validate : option (Row -> outcome unit)) : M (E * S) unit :=
  if decide (chkName ck = []) then fail errCheckName else updateDDL' (AddCheckIn table ck validate).

Definition DropCheckIn (table name : bytes) : M (E * tx) bool :=
  alterDesc table (λ old,
    match list_find (λ c, chkName c = name) (tChecks old) with
    | None => mret (None, false)
    | Some (i, _) => mret (Some (with_checks old (delete i (tChecks old))), true)
    end).
Definition DropCheck (table name : bytes) : M (E * S) bool := updateDDL' (DropCheckIn table name).

(** *** Renaming *)

Definition RenameColumnIn (table oldName newName : bytes) : M (E * tx) unit :=
  alterDesc table (λ old, withColumn old oldName (λ ord c,
    if bool_decide (is_Some (ColIndex old newName)) then fail (errColumnExists newName table)
    else
      refs ← referencingFKs table false;
      if existsb (λ r : FKRef, bool_decide (oldName ∈ fkRefCols r.2) && negb (bool_decide (tName r.1 = table))) refs
      then fail errRenameReferenced
      else
        let desc := edit_column old ord (col_name newName) in
        mret (Some (with_fks desc (rename_refs table oldName newName <$> tForeignKeys old)), tt))).
Definition RenameColumn (table oldName newName : bytes) : M (E * S) unit :=
  if decide (newName = []) then fail errNewName else updateDDL' (RenameColumnIn table oldName newName).

End columns.

(** ** Descriptors edited in place *)

Section edits.
Context (d : TableDesc) (Hw : cat_wf d).

Section edit_column.
Context (ord : nat) (c : Column) (f : Column -> Column) (Hc : tColumns d !! ord = Some c) (Hid : colID (f c) = colID c).

Lemma alter_same {B : Type} (g : Column -> B) : g (f c) = g c -> g <$> alter f ord (tColumns d) = g <$> tColumns d.
Proof.
  intros Hg. apply list_eq. intros i. rewrite !list_lookup_fmap. destruct (decide (i = ord)) as [->|Hne].
  - rewrite list_lookup_alter_eq, Hc. cbn. by rewrite Hg.
  - by rewrite list_lookup_alter_ne.
Qed.
Lemma alter_Forall (P : Column -> Prop) : Forall P (tColumns d) -> P (f c) -> Forall P (alter f ord (tColumns d)).
Proof. intros H Hf. apply Forall_alter; [done|]. intros x Hx. rewrite Hc in Hx. by injection Hx as <-. Qed.

Lemma layout_edit : desc_wf (edit_column d ord f) -> layout d (edit_column d ord f).
Proof. intros Hwf. split; try done; [by apply alter_same|apply Hw]. Qed.

Lemma cat_wf_edit : NoDup (colName <$> alter f ord (tColumns d)) -> colType (f c) ∈ knownTypes ->
  (colIdentity (f c) = true -> colType (f c) = TInt) -> maxlen_ok (f c) -> int64_ok (colMaxLen (f c)) ->
  cleanColumn (f c) = f c -> cat_wf (edit_column d ord f).
Proof.
  intros Hnm Ht Hi Hm Hr Hu. destruct Hw as [W R U N T I X F].
  pose proof (lookup_lt_Some _ _ _ Hc) as Hlt.
  assert (length (alter f ord (tColumns d)) = length (tColumns d)) as Hlen by apply length_alter.
  assert (uint32_ok (colID (f c))) as Hcid.
  { rewrite Hid. pose proof (wf_colID_range d W) as Hw'. by eapply Forall_lookup_1 in Hw'. }
  split; cbn; rewrite ?Hlen; try done.
  - destruct W. split; cbn; rewrite ?Hlen, ?alter_same by done; try done; [by apply alter_Forall..|by left].
  - destruct R. split; cbn; try done. by apply alter_Forall.
  - destruct U as (U1 & U2 & U3 & U4 & U5). split_and!; cbn; try done. by apply alter_Forall.
  - apply alter_Forall; [done|]. rewrite Hid. by eapply Forall_lookup_1 in N.
  - by apply alter_Forall.
  - by apply alter_Forall.
Qed.

Lemma row_ok_edit row : row_ok d row ->
  (forall v, row !! ord = Some v -> cell_ok d ord c v -> cell_ok d ord (f c) v) -> row_ok (edit_column d ord f) row.
Proof.
  intros [[Hl Hr] Hcan] Hv. split; [|done]. split; [cbn; by rewrite length_alter|]. intros i c' v Hi Hrow. cbn in Hi.
  change (cell_ok (edit_column d ord f) i c' v) with (cell_ok d i c' v). destruct (decide (i = ord)) as [->|Hne].
  - rewrite list_lookup_alter_eq, Hc in Hi. injection Hi as <-. apply Hv; [done|]. by apply Hr.
  - rewrite list_lookup_alter_ne in Hi by done. by apply Hr.
Qed.
End edit_column.

Lemma cat_wf_checks cks : Forall (λ c, cleanCheck c = c) cks -> cat_wf (with_checks d cks).
Proof.
  intros Hu. destruct Hw as [W R U N T I X F]. split; cbn; try done.
  - destruct W. split; cbn; try done. by left.
  - destruct R. by split.
  - destruct U as (U1 & U2 & U3 & U4 & U5). done.
Qed.
Lemma layout_checks cks : layout d (with_checks d cks).
Proof. destruct Hw as [W _ _ _ _ _ _ _]. split; try done. destruct W. split; cbn; try done. by left. Qed.

Lemma cat_wf_fks fks : Forall (λ f, cleanFK f = f) fks ->
  Forall (λ f, Forall (λ o, o < length (tColumns d))%nat (fkCols f) /\ Forall (λ o, Z.of_nat o <= maxInt64) (fkCols f)) fks ->
  cat_wf (with_fks d fks).
Proof.
  intros Hu Ho. destruct Hw as [W R U N T I X F]. split; cbn; try done.
  - destruct W. split; cbn; try done. by left.
  - destruct R. split; cbn; try done. eapply Forall_impl; [exact Ho|]. by intros f [].
  - destruct U as (U1 & U2 & U3 & U4 & U5). done.
  - eapply Forall_impl; [exact Ho|]. by intros f [].
Qed.
Lemma layout_fks fks : layout d (with_fks d fks).
Proof. destruct Hw as [W _ _ _ _ _ _ _]. split; try done. destruct W. split; cbn; try done. by left. Qed.

(** A column's entry in the descriptor. *)
Lemma column_ok ord c : tColumns d !! ord = Some c -> colType c ∈ knownTypes /\ maxlen_ok c /\
  int64_ok (colMaxLen c) /\ cleanColumn c = c /\ (colIdentity c = true -> colType c = TInt).
Proof.
  intros Hc. destruct Hw as [W R U N T I X F]. destruct U as (_ & U & _).
  pose proof (wf_maxlen d W) as Hm. pose proof (rg_cols d R) as Hr.
  eapply Forall_lookup_1 in T, Hm, Hr, U, I; [|done..]. destruct Hr. done.
Qed.
End edits.

(** A stored row and the pairs it is read from. *)
Lemma stored_tags d m row : cat_wf d -> ids_ok d m -> stored d m row ->
  exists l, m !! row_key d row = Some (elems (tagged l)) /\ tags_ok (tNextColID d) l /\ row = readRow d row l.
Proof.
  intros Hw Hi (Hr & v & Hv & Hd). destruct (Hi _ _ Hv (row_key_prefix d row)) as (l & -> & Ht). exists l. split_and!; [done..|].
  rewrite (decodeRow_tagged d (cw_wf d Hw) row (tNextColID d) l) in Hd.
  - by injection Hd.
  - by apply row_ok_canon.
  - pose proof (rg_next d (cw_range d Hw)) as Hn. unfold uint32_ok in Hn. lia.
  - done.
Qed.

Lemma hasValue_tagged n l id : n <= 2 ^ 32 -> tags_ok n l -> hasValue id (tagged l) = bool_decide (is_Some (assoc id l)).
Proof.
  intros Hn Ht. destruct Ht as [_ Hr _ Hs]. revert Hr Hs. induction l as [|[x v] l IH]; intros Hr Hs; [done|].
  apply Forall_cons in Hr as [Hx Hr], Hs as [Hv Hs]. cbn [fst snd] in *.
  change (tagged ((x, v) :: l)) with (AInt KInt64 x :: v :: tagged l). cbn [hasValue]. rewrite IH by done.
  unfold uint32. rewrite Z.mod_small, Hv, andb_true_r, assoc_cons by lia. cbn [fst snd]. case_decide as E.
  - by rewrite bool_decide_true.
  - by rewrite bool_decide_false.
Qed.

Section nulls.
Context {tx : Type} {kv : KV tx} {kv_laws : KVLaws tx}.

(** The scan for NULLs, which decodes no row, answers for the rows. *)
Lemma columnHasNoNulls_spec d (t : tx) ord c : cat_wf d -> table_inv d (kv_map t) -> ids_ok d (kv_map t) ->
  tColumns d !! ord = Some c -> isPK d ord = false -> exists b, columnHasNoNulls d (colID c) t = Ok b /\
  (b = true <-> forall row v, stored d (kv_map t) row -> row !! ord = Some v -> is_nil v = false).
Proof.
  intros Hw Hti Hids Hc Hpk. pose proof (rg_next d (cw_range d Hw)) as Hn. unfold uint32_ok in Hn.
  assert (forall row l, row = readRow d row l -> tags_ok (tNextColID d) l ->
    (exists v, row !! ord = Some v /\ is_nil v = negb (bool_decide (is_Some (assoc (colID c) l))))) as Hread.
  { intros row l Er [_ _ _ Hs]. exists (readCol d row l ord c). split.
    - rewrite Er at 1. unfold readRow. by rewrite list_lookup_imap, Hc.
    - unfold readCol. destruct (assoc (colID c) l) as [v|] eqn:Ea; cbn [default]; [|by rewrite Hpk].
      rewrite bool_decide_true by eauto. apply assoc_elem in Ea. rewrite Forall_forall in Hs. apply (Hs _ Ea). }
  assert (forall es, (forall k v, (k, v) ∈ es -> exists row l, k = row_key d row /\ stored d (kv_map t) row /\
      v = elems (tagged l) /\ tags_ok (tNextColID d) l /\ row = readRow d row l) ->
    exists b, noNulls_loop (colID c) es = Ok b /\ (b = true <-> forall row v, stored d (kv_map t) row ->
      row_key d row ∈ es.*1 -> row !! ord = Some v -> is_nil v = false)) as Hloop.
  { intros es. induction es as [|[k v] es IH]; intros Hes.
    { exists true. split; [done|]. split; [|done]. intros _ row v _ []%elem_of_nil. }
    destruct (Hes k v) as (row & l & -> & Hst & -> & Ht & Er); [left|]. cbn [noNulls_loop].
    rewrite Decode_elems by (eapply tagged_canon; [|done]; lia). cbn [mbind outcome_bind].
    rewrite (hasValue_tagged (tNextColID d)) by (done || lia). destruct (Hread row l Er Ht) as (w & Hw' & Hnil).
    destruct IH as (b & Hb & Hbt); [intros; apply Hes; by right|]. case_bool_decide.
    - exists b. split; [done|]. rewrite Hbt. csimpl. split.
      + intros H' row' v' Hst' [Ek|Hin]%elem_of_cons Hv'; [|by eapply H'].
        rewrite (stored_key_unique d (kv_map t) row' row) in Hv' by done. rewrite Hw' in Hv'. by injection Hv' as <-.
      + intros H' row' v' Hst' Hin Hv'. eapply H'; [done|by right|done].
    - exists false. split; [done|]. split; [done|]. intros H'. specialize (H' row w Hst). csimpl in H'.
      rewrite H' in Hnil; [done|left|done]. }
  unfold columnHasNoNulls. destruct (Hloop (rowEntries (tID d) t)) as (b & Hb & Hbt).
  - intros k v [Hk Hp]%rowEntries_elem. destruct (inv_stored d _ _ _ Hti Hk Hp) as (row & Hst & -> & _).
    destruct (stored_tags d (kv_map t) row Hw Hids Hst) as (l & Hl & Ht & Er). rewrite Hk in Hl. injection Hl as ->. eauto 10.
  - exists b. split; [done|]. rewrite Hbt. split; intros H row v Hst; [|by intros _; apply H].
    apply H; [done|]. destruct Hst as (_ & x & Hx & _). apply list_elem_of_fmap. exists (row_key d row, x). split; [done|].
    apply rowEntries_elem. split; [done|]. apply row_key_prefix.
Qed.
End nulls.

(** Valid UTF-8 text, field by field. *)
Lemma clean_column c : cleanColumn c = c <->
  clean (colName c) = colName c /\ typeOf (clean (typeName (colType c))) = colType c /\ clean (colDefault c) = colDefault c.
Proof. destruct c. unfold cleanColumn. cbn. split; [by intros [= H1 H2 H3]|by intros (-> & -> & ->)]. Qed.
Lemma clean_default s c : clean s = s -> cleanColumn c = c -> cleanColumn (col_default s c) = col_default s c.
Proof. rewrite !clean_column. cbn. naive_solver. Qed.
Lemma clean_notnull b c : cleanColumn c = c -> cleanColumn (col_notnull b c) = col_notnull b c.
Proof. by rewrite !clean_column. Qed.
Lemma clean_name s c : clean s = s -> cleanColumn c = c -> cleanColumn (col_name s c) = col_name s c.
Proof. rewrite !clean_column. cbn. naive_solver. Qed.
Lemma clean_id id c : cleanColumn c = c -> cleanColumn (col_id id c) = col_id id c.
Proof. by rewrite !clean_column. Qed.

(** ** Effects *)

(** The statement published [od], if anything, and the rows became [g] of
    what they were. *)
Definition changed (name : bytes) (d : TableDesc) (od : option TableDesc) (g : table -> table) (m m' : kvmap) : Prop :=
  table_at m name d /\ match od with None => m' = m | Some d0 => altered name d d0 g m m' end.

(** The same for a statement about one column. *)
Definition on_column (table column : bytes) (f : TableDesc -> nat -> Column -> option TableDesc) (m m' : kvmap) : Prop :=
  exists d ord c, ColIndex d column = Some ord /\ tColumns d !! ord = Some c /\ changed table d (f d ord c) id m m'.

Section laws.
Context {E : Type} {eng : EngineOps E} {cs : CatState E} {cat_laws : CatLaws E}.
Context {tx : Type} {kv : KV tx} {kv_laws : KVLaws tx}.

Lemma wp_withColumn {A : Type} d column (k : nat -> Column -> M (E * tx) A) Q s :
  (forall ord c, ColIndex d column = Some ord -> tColumns d !! ord = Some c -> colName c = column -> wp (k ord c) Q s) ->
  Q (Err errNoColumn) s -> wp (withColumn d column k) Q s.
Proof.
  intros Hk Hn. unfold withColumn. destruct (ColIndex d column) as [ord|] eqn:Ei; [|by apply wp_fail].
  pose proof (ColIndex_column d column ord Ei) as (c & Hc & Hnm). apply wp_bind_lift. unfold at_index. rewrite Hc. by apply Hk.
Qed.

(** Publishing a descriptor of the same layout. *)
Lemma mutates_in_place {A : Type} (table : bytes) d d0 (a : A) R (e : E) (t : tx) : ready e t -> table_at (kv_map t) table d ->
  cat_wf d0 -> layout d d0 -> tName d0 = tName d -> tIndexes d0 = tIndexes d -> tNextColID d <= tNextColID d0 ->
  (forall row, stored d (kv_map t) row -> row_ok d0 row) ->
  (forall m', altered table d d0 id (kv_map t) m' -> R a m') -> mutates table e R (Ok (Some d0, a)) (e, t).
Proof.
  intros Hr Hat Hw Hl Hn Hix Hx Hrow HR.
  destruct (alter_in_place (kv_map t) table d d0 (rd_db _ _ Hr) Hat Hw Hl Hn Hix Hx Hrow) as [Hdb Hal].
  split_and!; [done|apply Hr|done|by apply HR].
Qed.
Lemma mutates_nothing {A : Type} (table : bytes) (a : A) (R : A -> kvmap -> Prop) (e : E) (t : tx) : ready e t -> R a (kv_map t) ->
  mutates table e R (Ok (None, a)) (e, t).
Proof. intros [_ Hd Hw] HR. done. Qed.
Lemma mutates_err {A : Type} (table : bytes) (R : A -> kvmap -> Prop) er (e e' : E) (t : tx) : cached e e' -> kv_writable t = true ->
  mutates table e R (Err er) (e', t).
Proof. intros. by split_and!. Qed.

Lemma on_column_altered (table column : bytes) f d ord c d0 m m' : table_at m table d -> ColIndex d column = Some ord ->
  tColumns d !! ord = Some c -> f d ord c = Some d0 -> altered table d d0 id m m' -> on_column table column f m m'.
Proof. intros Hat Hi Hc Hf Hal. exists d, ord, c. split_and!; [done..|]. split; [done|]. by rewrite Hf. Qed.
Lemma on_column_same (table column : bytes) f d ord c m : table_at m table d -> ColIndex d column = Some ord ->
  tColumns d !! ord = Some c -> f d ord c = None -> on_column table column f m m.
Proof. intros Hat Hi Hc Hf. exists d, ord, c. split_and!; [done..|]. split; [done|]. by rewrite Hf. Qed.

(** One column edited in place. *)
Lemma mutates_edit {A : Type} (table : bytes) (d : TableDesc) (ord : nat) (c : Column) (f : Column -> Column) (a : A) (R : A -> kvmap -> Prop) (e : E) (t : tx) :
  ready e t -> table_at (kv_map t) table d -> cat_wf d -> tColumns d !! ord = Some c ->
  colID (f c) = colID c -> colName (f c) = colName c -> colType (f c) = colType c ->
  colIdentity (f c) = colIdentity c -> colMaxLen (f c) = colMaxLen c -> cleanColumn (f c) = f c ->
  (forall row v, stored d (kv_map t) row -> row !! ord = Some v -> cell_ok d ord c v -> cell_ok d ord (f c) v) ->
  (forall m', altered table d (edit_column d ord f) id (kv_map t) m' -> R a m') ->
  mutates table e R (Ok (Some (edit_column d ord f), a)) (e, t).
Proof.
  intros Hr Hat Hw Hc Hid Hnm Ht Hident Hmax Hu Hcell HR.
  destruct (column_ok d Hw ord c Hc) as (K1 & K2 & K3 & K4 & K5).
  assert (cat_wf (edit_column d ord f)) as Hw'.
  { apply (cat_wf_edit d Hw ord c f Hc Hid); try done; rewrite ?Ht, ?Hident, ?Hmax; try done.
    - rewrite (alter_same d ord c f Hc colName Hnm). apply Hw.
    - unfold maxlen_ok in *. by rewrite Hmax, Ht. }
  apply (mutates_in_place table d); try done.
  - apply (layout_edit d Hw ord c f Hc Hid). apply Hw'.
  - intros row Hst. eapply row_ok_edit; [done|by eapply stored_ok|]. intros v Hv. by eapply Hcell.
Qed.

Lemma DropColumnDefaultIn_wp (table column : bytes) (e : E) (t : tx) : ready e t ->
  wp (DropColumnDefaultIn table column) (ddl e (λ _, on_column table column (λ d ord c,
    if bool_decide (colDefault c = []) then None else Some (edit_column d ord (col_default []))) (kv_map t))) (e, t).
Proof.
  intros Hr. apply wp_alterDesc; [done|]. intros d e' Hr' He Hat Hnm Hw. apply wp_withColumn.
  - intros ord c Hi Hc Hcn. destruct (column_ok d Hw ord c Hc) as (K1 & K2 & K3 & K4 & K5).
    case_bool_decide as Ed; apply wp_ret.
    + apply mutates_nothing; [done|]. eapply on_column_same; [done..|]. by rewrite bool_decide_true.
    + apply (mutates_edit table d ord c); try done; [by apply clean_default|].
      intros m'. eapply (on_column_altered _ _ _ d ord c); try done. by rewrite bool_decide_false.
  - apply mutates_err; [done|apply Hr].
Qed.

Lemma SetColumnDefaultIn_wp (table column literal : bytes) now (e : E) (t : tx) : ready e t -> clean literal = literal ->
  wp (SetColumnDefaultIn table column literal now) (ddl e (λ _ m', on_column table column (λ d ord c,
    Some (edit_column d ord (col_default literal))) (kv_map t) m' /\
    exists d ord c v, table_at (kv_map t) table d /\ ColIndex d column = Some ord /\ tColumns d !! ord = Some c /\
      columnDefaultValue (col_default literal c) now = Ok v)) (e, t).
Proof.
  intros Hr Hu. apply wp_alterDesc; [done|]. intros d e' Hr' He Hat Hnm Hw. apply wp_withColumn.
  - intros ord c Hi Hc Hcn. destruct (column_ok d Hw ord c Hc) as (K1 & K2 & K3 & K4 & K5).
    destruct (colIdentity c) eqn:Ec; [by apply wp_fail, mutates_err; [|apply Hr]|].
    cbv zeta. apply wp_bind_lift. unfold at_index. cbn [tColumns edit_column with_columns].
    rewrite list_lookup_alter_eq, Hc. cbn [fmap option_fmap option_map seqQ]. apply wp_bind_lift.
    destruct (columnDefaultValue _ _) as [v|er|p] eqn:Ed; cbn [seqQ].
    + apply wp_ret. apply (mutates_edit table d ord c); try done; [by apply clean_default|].
      intros m' Hal. split; [by eapply on_column_altered|]. by exists d, ord, c, v.
    + apply mutates_err; [done|apply Hr].
    + by apply columnDefaultValue_no_panic in Ed.
  - apply mutates_err; [done|apply Hr].
Qed.

Lemma SetColumnNotNullIn_wp (table column : bytes) (e : E) (t : tx) : ready e t ->
  wp (SetColumnNotNullIn table column) (ddl e (λ _, on_column table column (λ d ord c,
    if colNotNull c then None else Some (edit_column d ord (col_notnull true))) (kv_map t))) (e, t).
Proof.
  intros Hr. apply wp_alterDesc; [done|]. intros d e' Hr' He Hat Hnm Hw. apply wp_withColumn.
  - intros ord c Hi Hc Hcn. destruct (column_ok d Hw ord c Hc) as (K1 & K2 & K3 & K4 & K5).
    destruct (colNotNull c) eqn:Enn.
    { apply wp_ret, mutates_nothing; [done|]. eapply on_column_same; [done..|]. by rewrite Enn. }
    destruct (db_table _ (rd_db _ _ Hr) table d Hat) as [Hti Hids _].
    apply wp_bind. apply wp_mono with (Q := λ o s, s = (e', t) /\ exists b, o = Ok b /\
      (b = true -> forall row v, stored d (kv_map t) row -> row !! ord = Some v -> is_nil v = false)).
    { destruct (isPK d ord) eqn:Hpk.
      - apply wp_ret. split; [done|]. exists true. split; [done|]. intros _ row v Hst Hv.
        destruct (row_ok_pk d (cw_wf d Hw) row ord (stored_ok d _ _ Hst)) as (v' & Hv' & Hn); [by apply bool_decide_eq_true in Hpk|].
        congruence.
      - apply wp_bind, wp_onTx, wp_gets. cbn [seqQ]. apply wp_lift. split; [done|].
        destruct (columnHasNoNulls_spec d t ord c Hw Hti Hids Hc Hpk) as (b & Hb & Hbt). exists b. split; [done|]. apply Hbt. }
    intros o s (-> & b & -> & Hb). cbn [seqQ]. destruct b; [|by apply wp_fail, mutates_err; [|apply Hr]].
    apply wp_ret. apply (mutates_edit table d ord c); try done; [by apply clean_notnull| |].
    + intros row v Hst Hv. unfold cell_ok. specialize (Hb eq_refl row v Hst Hv). by rewrite Hb.
    + intros m'. eapply (on_column_altered _ _ _ d ord c); try done. by rewrite Enn.
  - apply mutates_err; [done|apply Hr].
Qed.

Lemma DropColumnNotNullIn_wp (table column : bytes) (e : E) (t : tx) : ready e t ->
  wp (DropColumnNotNullIn table column) (ddl e (λ _, on_column table column (λ d ord c,
    if colNotNull c then Some (edit_column d ord (col_notnull false)) else None) (kv_map t))) (e, t).
Proof.
  intros Hr. apply wp_alterDesc; [done|]. intros d e' Hr' He Hat Hnm Hw. apply wp_withColumn.
  - intros ord c Hi Hc Hcn. destruct (column_ok d Hw ord c Hc) as (K1 & K2 & K3 & K4 & K5).
    destruct (isPK d ord); [by apply wp_fail, mutates_err; [|apply Hr]|].
    destruct (colIdentity c); [by apply wp_fail, mutates_err; [|apply Hr]|].
    destruct (colNotNull c) eqn:Enn; apply wp_ret.
    + apply (mutates_edit table d ord c); try done; [by apply clean_notnull| |].
      * intros row v Hst Hv. unfold cell_ok. destruct (is_nil v); [|done]. cbn. tauto.
      * intros m'. eapply (on_column_altered _ _ _ d ord c); try done. by rewrite Enn.
    + apply mutates_nothing; [done|]. eapply on_column_same; [done..|]. by rewrite Enn.
  - apply mutates_err; [done|apply Hr].
Qed.

(** *** Checks *)

Lemma scanRows_all d (t : tx) : table_inv d (kv_map t) -> exists t',
  scanRows d None None drain t = (reverse (Ok ∘ (mkRow d ∘ rowOf d) <$> rowEntries (tID d) t), t') /\
  kv_map t' = kv_map t /\ kv_writable t' = kv_writable t.
Proof.
  intros Hi. unfold scanRows, scanBounds, scan. cbn [mbind outcome_bind]. set (t1 := kv_mark_read_range _ _ t).
  assert (kv_map t1 = kv_map t) as H1 by apply kv_mark_read_range_map.
  assert (kv_writable t1 = kv_writable t) as H2 by apply kv_mark_read_range_writable.
  assert (rowEntries (tID d) t = rowEntries (tID d) t1) as -> by (by rewrite !rowEntries_range, H1).
  fold (rowEntries (tID d) t1).
  destruct (yield_each_ok (λ u, u = t1) (λ '(k, v), lift (decodeRow d k v)) (mkRow d ∘ rowOf d) (rowEntries (tID d) t1) [] t1)
    as (t' & -> & ->); [done| |exists t1; by rewrite app_nil_r].
  intros [k v] u [Hk Hp]%rowEntries_elem ->. rewrite H1 in Hk. destruct (rowOf_stored d (kv_map t) k v Hi Hk Hp) as (_ & _ & Hd).
  exists t1. unfold lift. by rewrite Hd.
Qed.

Lemma validateRows_ok {X : Type} f (g : X -> Row) xs : Forall (λ x, forall p, f (g x) <> Panic p) xs ->
  match validateRows f (Ok ∘ g <$> xs) with
  | Ok _ => Forall (λ x, f (g x) = Ok tt) xs
  | Err er => Exists (λ x, f (g x) = Err er) xs
  | Panic _ => False
  end.
Proof.
  induction 1 as [|x xs Hf _ IH]; [constructor|]. csimpl. cbn [validateRows mbind outcome_bind].
  destruct (f (g x)) as [[]|er|p] eqn:Er; cbn [mbind outcome_bind]; [|by left|by destruct (Hf p)].
  destruct (validateRows f _) as [u|er|p]; [by constructor|by right|done].
Qed.

Lemma mutates_checks {A : Type} (table : bytes) (d : TableDesc) (cks : list CheckDesc) (a : A) (R : A -> kvmap -> Prop) (e : E) (t : tx) :
  ready e t -> table_at (kv_map t) table d -> cat_wf d -> Forall (λ c, cleanCheck c = c) cks ->
  (forall m', altered table d (with_checks d cks) id (kv_map t) m' -> R a m') ->
  mutates table e R (Ok (Some (with_checks d cks), a)) (e, t).
Proof.
  intros Hr Hat Hw Hu HR. apply (mutates_in_place table d); try done.
  - by apply cat_wf_checks.
  - by apply layout_checks.
  - intros row Hst. apply (stored_ok _ _ _ Hst).
Qed.

Lemma AddCheckIn_wp (table : bytes) ck validate (e : E) (t : tx) : ready e t -> cleanCheck ck = ck ->
  (forall f r p, validate = Some f -> f r <> Panic p) ->
  wp (AddCheckIn table ck validate) (ddl e (λ _ m', exists d, altered table d (with_checks d (tChecks d ++ [ck])) id (kv_map t) m' /\
    Forall (λ c, chkName c <> chkName ck) (tChecks d) /\
    forall f row, validate = Some f -> stored d (kv_map t) row -> f (mkRow d row) = Ok tt)) (e, t).
Proof.
  intros Hr Hu Hf. apply wp_alterDesc; [done|]. intros d e' Hr' He Hat Hnm Hw.
  destruct (existsb _ _) eqn:Ex; [by apply wp_fail, mutates_err; [|apply Hr]|].
  assert (Forall (λ c, chkName c <> chkName ck) (tChecks d)) as Hnew.
  { apply Forall_forall. intros c Hc Ec. apply not_true_iff_false in Ex. apply Ex, existsb_exists. exists c.
    split; [by apply list_elem_of_In|by apply bool_decide_eq_true]. }
  destruct (db_table _ (rd_db _ _ Hr) table d Hat) as [Hti Hids _].
  apply wp_bind. apply wp_mono with (Q := λ o s, s.1 = e' /\ kv_map s.2 = kv_map t /\ kv_writable s.2 = true /\
    match o with Ok _ => forall f row, validate = Some f -> stored d (kv_map t) row -> f (mkRow d row) = Ok tt
               | Err _ => True | Panic _ => False end).
  { destruct validate as [f|]; [|by apply wp_ret; split_and!; [..|apply Hr|]].
    apply wp_bind, wp_onTx. unfold wp. destruct (scanRows_all d t Hti) as (t' & -> & Hm & Hw'). cbn [fst snd seqQ].
    apply wp_lift. cbn [fst snd]. rewrite reverse_involutive, Hm, Hw'. split_and!; [done..|apply Hr|].
    pose proof (validateRows_ok f (mkRow d ∘ rowOf d) (rowEntries (tID d) t) ltac:(apply Forall_true; intros x p; by apply Hf)) as Hv.
    destruct (validateRows f _) as [u|er|p]; [|done|done]. intros f' row [= <-] Hst.
    destruct Hst as (Hok & v & Hv' & Hd). rewrite Forall_forall in Hv.
    assert (rowOf d (row_key d row, v) = row) as Er by (unfold rowOf; cbn [fst snd]; by rewrite Hd).
    specialize (Hv (row_key d row, v)). unfold compose in Hv. rewrite Er in Hv. apply Hv.
    apply rowEntries_elem. split; [done|]. apply row_key_prefix. }
  intros o [e1 t1]. cbn [fst snd]. intros (-> & Hm & Hw1 & H). destruct o as [[]|er|p]; cbn [seqQ]; [|by apply mutates_err|done].
  apply wp_ret. assert (ready e' t1) as Hr1 by (split; [apply Hr'|rewrite Hm; apply Hr|done]).
  apply mutates_checks; try done; [by rewrite Hm| |].
  - apply Forall_app. split; [apply Hw|by repeat constructor].
  - rewrite Hm. intros m' Hal. by exists d.
Qed.

Lemma DropCheckIn_wp (table name : bytes) (e : E) (t : tx) : ready e t ->
  wp (DropCheckIn table name) (ddl e (λ existed m', exists d, changed table d
    (match list_find (λ c, chkName c = name) (tChecks d) with
     | Some (i, _) => Some (with_checks d (delete i (tChecks d))) | None => None end) id (kv_map t) m' /\
    (existed = true <-> Exists (λ c, chkName c = name) (tChecks d)))) (e, t).
Proof.
  intros Hr. apply wp_alterDesc; [done|]. intros d e' Hr' He Hat Hnm Hw.
  destruct (list_find _ _) as [[i c]|] eqn:Ef; apply wp_ret.
  - apply mutates_checks; try done; [apply Forall_delete, Hw|]. intros m' Hal. exists d. unfold changed. rewrite Ef.
    split; [done|]. split; [|done]. intros _. apply list_find_Some in Ef as (Hi & Hc & _). apply Exists_exists. exists c.
    split; [by eapply list_elem_of_lookup_2|done].
  - apply mutates_nothing; [done|]. exists d. unfold changed. rewrite Ef. split; [done|]. split; [done|].
    intros (c & Hc & Hn)%Exists_exists. apply list_find_None in Ef. rewrite Forall_forall in Ef. by destruct (Ef c Hc).
Qed.

(** *** Renaming *)

Lemma clean_fk f : cleanFK f = f <-> clean (fkName f) = fkName f /\ clean (fkRefTable f) = fkRefTable f /\
  Forall (λ s, clean s = s) (fkRefCols f) /\ clean (fkOnDelete f) = fkOnDelete f.
Proof.
  destruct f as [n fc rt rc od]. unfold cleanFK. cbn. split.
  - intros [= H1 H2 H3 H4]. split_and!; try done. apply Forall_forall. intros s Hs.
    apply list_elem_of_lookup in Hs as [i Hi]. assert ((clean <$> rc) !! i = Some s) as Hc by (by rewrite H3).
    rewrite list_lookup_fmap, Hi in Hc. cbn in Hc. congruence.
  - intros (-> & -> & Hc & ->). by rewrite Forall_fmap_id.
Qed.
Lemma clean_rename_refs (table oldName newName : bytes) f : clean newName = newName -> cleanFK f = f ->
  cleanFK (rename_refs table oldName newName f) = rename_refs table oldName newName f.
Proof.
  intros Hn Hf. unfold rename_refs. case_decide; [|done]. rewrite clean_fk in *. destruct Hf as (H1 & H2 & H3 & H4).
  split_and!; try done. cbn. apply Forall_fmap. eapply Forall_impl; [exact H3|]. intros s Hs. unfold compose, rename. by case_decide.
Qed.
Lemma rename_refs_cols (table oldName newName : bytes) f : fkCols (rename_refs table oldName newName f) = fkCols f.
Proof. unfold rename_refs. by case_decide. Qed.

Lemma ColIndex_None d name : ColIndex d name = None -> name ∉ colName <$> tColumns d.
Proof.
  unfold ColIndex. destruct (list_find _ _) as [[]|] eqn:Ef; [done|]. intros _ (c & -> & Hc)%list_elem_of_fmap.
  apply list_find_None in Ef. rewrite Forall_forall in Ef. by destruct (Ef c Hc).
Qed.

Lemma NoDup_alter_fresh {A B : Type} (g : A -> B) (f : A -> A) ord (l : list A) x : NoDup (g <$> l) -> l !! ord = Some x ->
  g (f x) ∉ g <$> l -> NoDup (g <$> alter f ord l).
Proof.
  intros Hnd Hx Hn. apply NoDup_alt. intros i j y. rewrite !list_lookup_fmap.
  assert (forall k, alter f ord l !! k = if decide (k = ord) then Some (f x) else l !! k) as Hk.
  { intros k. case_decide; [subst; by rewrite list_lookup_alter_eq, Hx|by rewrite list_lookup_alter_ne]. }
  assert (forall k z, l !! k = Some z -> g z <> g (f x)) as Hne.
  { intros k z Hz Ez. apply Hn. rewrite <- Ez. apply list_elem_of_fmap_2. by eapply list_elem_of_lookup_2. }
  rewrite !Hk. intros (a & Ha & ->)%fmap_Some (b & Hb & Eab)%fmap_Some. do 2 case_decide; subst; try done.
  - injection Hb as <-. by destruct (Hne _ _ Ha).
  - injection Ha as <-. by destruct (Hne _ _ Hb).
  - eapply NoDup_lookup; [exact Hnd|by rewrite list_lookup_fmap, Ha|by rewrite list_lookup_fmap, Hb, Eab].
Qed.

Lemma cat_wf_rename d ord c (table oldName newName : bytes) : cat_wf d -> tColumns d !! ord = Some c ->
  ColIndex d newName = None -> clean newName = newName ->
  cat_wf (with_fks (edit_column d ord (col_name newName)) (rename_refs table oldName newName <$> tForeignKeys d)).
Proof.
  intros Hw Hc Hn Hu. destruct (column_ok d Hw ord c Hc) as (K1 & K2 & K3 & K4 & K5).
  assert (cat_wf (edit_column d ord (col_name newName))) as Hw'.
  { apply (cat_wf_edit d Hw ord c (col_name newName) Hc); try done; [|by apply clean_name].
    apply (NoDup_alter_fresh _ _ _ _ c); [apply Hw|done|]. by apply ColIndex_None. }
  apply cat_wf_fks; [done|..]; apply Forall_fmap.
  - destruct (cw_utf8 d Hw) as (_ & _ & _ & _ & U). eapply Forall_impl; [exact U|]. intros f. by apply clean_rename_refs.
  - pose proof (cw_fkCols d Hw) as F. pose proof (rg_fks d (cw_range d Hw)) as R. rewrite Forall_forall in *.
    intros f Hf. unfold compose. rewrite rename_refs_cols. cbn. rewrite length_alter. split; [by apply F|by apply R].
Qed.

Lemma RenameColumnIn_wp (table oldName newName : bytes) (e : E) (t : tx) : ready e t -> clean newName = newName ->
  wp (RenameColumnIn table oldName newName) (ddl e (λ _ m', on_column table oldName (λ d ord c,
    Some (with_fks (edit_column d ord (col_name newName)) (rename_refs table oldName newName <$> tForeignKeys d))) (kv_map t) m' /\
    forall d f, references (kv_map t) table false d f -> tName d <> table -> oldName ∉ fkRefCols f)) (e, t).
Proof.
  intros Hr Hu. apply wp_alterDesc; [done|]. intros d e' Hr' He Hat Hnm Hw. apply wp_withColumn.
  - intros ord c Hi Hc Hcn. case_bool_decide as En; [by apply wp_fail, mutates_err; [|apply Hr]|].
    apply eq_None_not_Some in En. apply wp_bind, referencingFKs_wp; [done|]. intros refs e1 He1 Hrefs. cbn [seqQ].
    destruct (existsb _ _) eqn:Ex; [by apply wp_fail, mutates_err; [|apply Hr]|]. cbv zeta. apply wp_ret.
    pose proof (cat_wf_rename d ord c table oldName newName Hw Hc En Hu) as Hw'.
    apply (mutates_cached table e' e1); [done|]. apply (mutates_in_place table d); try done.
    + by eapply ready_cached.
    + split; try done; [by apply (alter_same d ord c)|apply Hw|apply Hw'].
    + intros row Hst. by apply (row_ok_edit d ord c (col_name newName) Hc row (stored_ok _ _ _ Hst)).
    + intros m' Hal. split; [by eapply (on_column_altered _ _ _ d ord c)|]. intros d1 f Hf Hne Hin.
      apply not_true_iff_false in Ex. apply Ex, existsb_exists. exists (d1, f). split; [by apply list_elem_of_In, Hrefs|].
      cbn [fst snd]. by rewrite bool_decide_true, bool_decide_false.
  - apply mutates_err; [done|apply Hr].
Qed.
End laws.
