(* ===== verification/DdlAddDrop.v ===== *)
(** * Adding and dropping columns

    [ddl.go]'s [AddColumn], with the backfill of a default or of an identity
    column, and [DropColumn], which rewrites no row: a retired column ID's
    data stays behind in old values and is skipped on decode. *)
From S2P Require Import Prelude GoVal GoStr Tuple KV Json Time Jsonb Types Catalog Desc Rows Default Pairs Index Table Seq Upkeep Dml Relation Engine Store Database Ddl DdlColumn.

Local Open Scope Z_scope.

Definition errColumnName : error := ENew (go "column name is required").
Definition errColumnType : error := ENew (go "unknown column type").
Definition errIdentityType : error := ENew (go "identity column must be an int column").
Definition errMaxLenType : error := ENew (go "length limit is only valid on string columns").
Definition errMaxLenNeg : error := ENew (go "length limit must be positive").
Definition backfillTooLargeErr : error :=
  ENew (go "adding a column with a DEFAULT would rewrite more rows than the backfill limit allows in one transaction").
Definition errIdentityBackfill : error :=
  ENew (go "adding an identity column would rewrite more rows than the backfill limit allows in one transaction").

(** [validTypes[t]] *)
Definition validType (t : ColType) : bool := bool_decide (t ∈ knownTypes).

Definition validMaxLen (c : Column) : outcome unit :=
  if colMaxLen c =? 0 then Ok tt
  else if bool_decide (colType c <> TString) then Err errMaxLenType
  else if colMaxLen c <? 0 then Err errMaxLenNeg
  else Ok tt.

(** [desc.NextColID++; desc.Columns = append(desc.Columns, col)] *)
Definition add_column (d : TableDesc) (c : Column) : TableDesc :=
  mkTable (tFormatVersion d) (tID d) (tName d) (tColumns d ++ [c]) (tPKCols d) (tIndexes d) (tChecks d) (tForeignKeys d)
    (uint32 (tNextColID d + 1)) None.

Section add.
Context {E S : Type} {eng : EngineOps E} {grd : Guarded E} {cs : CatState E} {tx : Type} {kv : KV tx} {db : DB E S tx}.

(** One row of a backfill: the pair is appended to the stored bytes. *)
Definition appendPair (colID : Z) (e : bytes * bytes) (val : any) : M tx unit :=
  buf ← lift (Append e.2 [AInt KInt64 colID; val]);
  kv_set e.1 buf.

Definition backfillColumn (d : TableDesc) (colID : Z) (val : any) : M tx unit :=
  es ← gets (rowEntries (tID d));
  for_each (λ p, appendPair colID p.1 p.2) ((λ e, (e, val)) <$> es).

(** Rows are numbered from 1, in key order. *)
Definition numbered (es : list (bytes * bytes)) : list (bytes * bytes * any) :=
  imap (λ i e, (e, AInt KInt64 (Z.of_nat i + 1))) es.
Definition backfillIdentity (d : TableDesc) (c : Column) : M (E * tx) unit :=
  _ ← checkLimit (tID d) errIdentityBackfill;
  es ← onTx (gets (rowEntries (tID d)));
  _ ← onTx (for_each (λ p, appendPair (colID c) p.1 p.2) (numbered es));
  onTx (bumpCounterTo (identitySeqKey (tID d) (colID c)) (Z.of_nat (length es) + 1)).

Definition AddColumnIn (table : bytes) (col : Column) (now : Z) : M (E * tx) unit :=
  alterDesc table (λ old,
    if bool_decide (is_Some (ColIndex old (colName col))) then fail (errColumnExists (colName col) table)
    else
      let col := col_id (tNextColID old) col in
      let desc := add_column old col in
      if colIdentity col then
        _ ← backfillIdentity desc col;
        mret (Some desc, tt)
      else
        fill ← (if bool_decide (colDefault col = []) then mret ANil else lift (columnDefaultValue col now));
        rows ← onTx (gets (hasRows (tID desc)));
        if is_nil fill && colNotNull col && rows then fail (notNullValueErr table (colName col))
        else
          _ ← (if is_nil fill then mret ()
               else
                 _ ← checkLimit (tID desc) backfillTooLargeErr;
                 onTx (backfillColumn desc (colID col) fill));
          mret (Some desc, tt)).

Definition checkNewColumn (col : Column) : outcome unit :=
  if bool_decide (colName col = []) then Err errColumnName
  else if negb (validType (colType col)) then Err errColumnType
  else if colIdentity col && bool_decide (colType col <> TInt) then Err errIdentityType
  else if colIdentity col && negb (bool_decide (colDefault col = [])) then Err errConflictingDefault
  else validMaxLen col.

(** [now] is the time of the call. *)
Definition AddColumn (table : bytes) (col : Column) (now : Z) : M (E * S) unit :=
  _ ← lift (checkNewColumn col);
  _ ← (if negb (bool_decide (colDefault col = [])) || colIdentity col then onE e_CheckMemory else mret ());
  updateDDL' (AddColumnIn table col now).

(** *** Dropping *)

Definition errDropPK : error := ENew (go "cannot drop a primary key column").
Definition errDropIndexed : error := ENew (go "cannot drop an indexed column; drop the index first").
Definition errDropFK : error := ENew (go "cannot drop a foreign key column; drop the constraint first").
Definition errDropReferenced : error := ENew (go "cannot drop a column referenced by a foreign key").

(** Ordinals above the removed column move down by one. *)
Definition shift (ord o : nat) : nat := if decide (ord < o)%nat then (o - 1)%nat else o.
Definition shiftIndex (ord : nat) (x : IndexDesc) : IndexDesc :=
  mkIndex (ixID x) (ixName x) (shift ord <$> ixCols x) (ixUnique x) (ixDesc x).
Definition shiftFK (ord : nat) (f : FKDesc) : FKDesc :=
  mkFK (fkName f) (shift ord <$> fkCols f) (fkRefTable f) (fkRefCols f) (fkOnDelete f).
Definition drop_column (d : TableDesc) (ord : nat) : TableDesc :=
  mkTable (tFormatVersion d) (tID d) (tName d) (delete ord (tColumns d)) (shift ord <$> tPKCols d)
    (shiftIndex ord <$> tIndexes d) (tChecks d) (shiftFK ord <$> tForeignKeys d) (tNextColID d) None.

(** The counter key of a dropped identity column is the result. *)
Definition DropColumnIn (table name : bytes) : M (E * tx) bytes :=
  alterDesc table (λ old, withColumn old name (λ ord c,
    let key := if colIdentity c then identitySeqKey (tID old) (colID c) else [] in
    _ ← (if colIdentity c then onTx (kv_delete key) ≫= λ _, mret () else mret ());
    if isPK old ord then fail errDropPK
    else if existsb (λ x, bool_decide (ord ∈ ixCols x)) (tIndexes old) then fail errDropIndexed
    else if existsb (λ f, bool_decide (ord ∈ fkCols f)) (tForeignKeys old) then fail errDropFK
    else
      refs ← referencingFKs table false;
      if existsb (λ r : FKRef, bool_decide (name ∈ fkRefCols r.2)) refs then fail errDropReferenced
      else mret (Some (drop_column old ord), key))).
Definition DropColumn {al : Allocators E} (table name : bytes) : M (E * S) unit :=
  key ← updateDDL' (DropColumnIn table name);
  if bool_decide (key = []) then mret () else onE (modify (e_invalidateCounter key)).

End add.

Lemma validMaxLen_ok c : validMaxLen c = Ok tt -> maxlen_ok c.
Proof.
  unfold validMaxLen, maxlen_ok. destruct (Z.eqb_spec (colMaxLen c) 0); [lia|]. case_bool_decide as Ht; [done|].
  intros _ _. by destruct (decide (colType c = TString)).
Qed.

(** ** A column added *)

Section added.
Context (d : TableDesc) (Hw : cat_wf d) (c : Column) (Hid : colID c = tNextColID d).
Context (m m1 : kvmap) (Hti : table_inv d m) (Hids : ids_ok d m).
(** What the new column holds in each row. *)
Context (W : list any -> any).
Hypothesis Hrows : forall row l, stored d m row -> m !! row_key d row = Some (elems (tagged l)) ->
  m1 !! row_key d row = Some (elems (tagged (l ++ if is_nil (W row) then [] else [(tNextColID d, W row)]))).
Hypothesis Hnone : forall k, tablePrefix (tID d) `prefix_of` k -> m !! k = None -> m1 !! k = None.
Hypothesis Hsame : forall k, tableSpace (tID d) `prefix_of` k -> ~ tablePrefix (tID d) `prefix_of` k -> m1 !! k = m !! k.
Hypothesis HW : forall row, stored d m row -> canon (W row) /\ cell_ok d (length (tColumns d)) c (W row).
Hypothesis Hw' : cat_wf (add_column d c).
Hypothesis Hnext : uint32 (tNextColID d + 1) = tNextColID d + 1.

Definition widen (row : list any) : list any := row ++ [W row].

Lemma isPK_new : isPK d (length (tColumns d)) = false.
Proof.
  apply bool_decide_false. intros H. pose proof (wf_pk_range d (cw_wf d Hw)) as Hr. rewrite Forall_forall in Hr.
  specialize (Hr _ H). simpl in Hr. lia.
Qed.
Lemma isPK_add i : isPK (add_column d c) i = isPK d i.
Proof. done. Qed.

Lemma lookup_widen row o : (o < length row)%nat -> widen row !! o = row !! o.
Proof. intros Ho. unfold widen. by rewrite lookup_app_l. Qed.
Lemma pkOf_widen row : length row = length (tColumns d) -> pkOf (add_column d c) (widen row) = pkOf d row.
Proof.
  intros Hl. unfold pkOf. cbn. apply list_fmap_ext. intros i o Ho.
  pose proof (wf_pk_range d (cw_wf d Hw)) as Hr. eapply Forall_lookup_1 in Hr; [|done]. by rewrite lookup_widen by lia.
Qed.
Lemma row_key_widen row : length row = length (tColumns d) -> row_key (add_column d c) (widen row) = row_key d row.
Proof. intros Hl. unfold row_key. by rewrite pkOf_widen. Qed.
Lemma ixVals_widen idx row : idx ∈ tIndexes d -> length row = length (tColumns d) -> ixVals idx (widen row) = ixVals idx row.
Proof.
  intros Hidx Hl. unfold ixVals. apply list_fmap_ext. intros i o Ho.
  pose proof (ixCols_range d (cw_wf d Hw) idx Hidx) as Hr. eapply Forall_lookup_1 in Hr; [|done]. by rewrite lookup_widen by lia.
Qed.
Lemma index_widen idx row : idx ∈ tIndexes d -> length row = length (tColumns d) ->
  index_key (add_column d c) idx (widen row) = index_key d idx row /\ index_val (add_column d c) idx (widen row) = index_val d idx row.
Proof.
  intros Hidx Hl. unfold index_key, index_val, enforced. by rewrite ixVals_widen, pkOf_widen.
Qed.

Lemma row_ok_widen row : stored d m row -> row_ok (add_column d c) (widen row).
Proof.
  intros Hst. destruct (stored_ok d m row Hst) as [[Hl Hr] Hc]. destruct (HW row Hst) as [Hcw Hcell]. split; [split|].
  - unfold widen. cbn. rewrite !length_app. cbn. lia.
  - intros i ci v Hi Hv. cbn in Hi. change (cell_ok (add_column d c) i ci v) with (cell_ok d i ci v).
    destruct (decide (i < length (tColumns d))%nat) as [Hlt|Hge].
    + rewrite lookup_app_l in Hi by lia. rewrite lookup_widen in Hv by lia. by apply Hr.
    + unfold widen in Hv. rewrite lookup_app_r in Hi by lia. rewrite lookup_app_r in Hv by lia.
      assert (i = length (tColumns d)) as -> by (apply lookup_lt_Some in Hi; cbn in Hi; lia).
      rewrite Nat.sub_diag in Hi. rewrite Hl, Nat.sub_diag in Hv. cbn in Hi, Hv. by simplify_eq.
  - apply Forall_app. split; [done|]. by repeat constructor.
Qed.

Lemma readRow_widen row l : length row = length (tColumns d) -> tags_ok (tNextColID d) l -> row = readRow d row l ->
  readRow (add_column d c) (widen row) (l ++ if is_nil (W row) then [] else [(tNextColID d, W row)]) = widen row.
Proof.
  intros Hl [_ Hr _ _] Er. set (l' := if is_nil (W row) then _ else _).
  assert (Forall (λ c', colID c' <> tNextColID d) (tColumns d)) as Hne.
  { eapply Forall_impl; [apply (cw_next d Hw)|]. intros c'. cbn. lia. }
  assert (assoc (colID c) l = None) as Hfresh.
  { apply assoc_None. intros (p & Ep & Hp)%list_elem_of_fmap. rewrite Forall_forall in Hr. specialize (Hr p Hp). lia. }
  unfold readRow. cbn. rewrite imap_app. unfold widen. f_equal.
  - rewrite Er at 3. unfold readRow. apply imap_ext. intros i c' Hi. unfold readCol. rewrite assoc_app, isPK_add.
    assert (assoc (colID c') l' = None) as ->.
    { unfold l'. destruct (is_nil (W row)); [done|]. rewrite assoc_cons. cbn. rewrite decide_False; [done|].
      eapply Forall_lookup_1 in Hne; [|done]. congruence. }
    destruct (assoc (colID c') l); [done|]. cbn [default]. destruct (isPK d i); [|done].
    apply lookup_lt_Some in Hi. by rewrite lookup_app_l by lia.
  - cbn. unfold readCol. rewrite assoc_app, Hfresh, isPK_add, Nat.add_0_r, isPK_new. f_equal.
    unfold l'. destruct (is_nil (W row)) eqn:En; [by destruct (W row)|]. rewrite assoc_cons. cbn. by rewrite decide_True.
Qed.

Lemma tags_widen row l : stored d m row -> tags_ok (tNextColID d) l ->
  tags_ok (tNextColID d + 1) (l ++ if is_nil (W row) then [] else [(tNextColID d, W row)]).
Proof.
  intros Hst Ht. pose proof (rg_next d (cw_range d Hw)) as [Hn _]. destruct (is_nil (W row)) eqn:En.
  - rewrite app_nil_r. eapply tags_ok_mono; [|done]. lia.
  - apply tags_ok_snoc; try done. by apply HW.
Qed.

(** The new value bytes of a stored row read as the widened row. *)
Lemma stored_widen row : stored d m row -> stored (add_column d c) m1 (widen row).
Proof.
  intros Hst. destruct (stored_tags d m row Hw Hids Hst) as (l & Hl & Ht & Er).
  destruct (stored_ok d m row Hst) as [[Hlen _] _].
  split; [by apply row_ok_widen|]. eexists. rewrite row_key_widen by done. split; [by apply Hrows|].
  rewrite <- row_key_widen by done.
  rewrite (decodeRow_tagged (add_column d c) (cw_wf _ Hw') (widen row) (tNextColID d + 1)).
  - by rewrite readRow_widen.
  - apply row_ok_canon, row_ok_widen, Hst.
  - pose proof (rg_next _ (cw_range _ Hw')) as [_ Hn]. cbn in Hn. rewrite Hnext in Hn. lia.
  - by apply tags_widen.
Qed.
Lemma stored_widen_inv row' : stored (add_column d c) m1 row' -> exists row, row' = widen row /\ stored d m row.
Proof.
  intros Hst'. pose proof Hst' as (Hok & v & Hv & Hd).
  destruct (m !! row_key (add_column d c) row') as [v0|] eqn:E0.
  - destruct (inv_stored d m _ _ Hti E0 (row_key_prefix (add_column d c) row')) as (row & Hst & Hk & _).
    exists row. split; [|done]. destruct (stored_ok d m row Hst) as [[Hl _] _].
    eapply stored_key_unique; [exact Hst'|by apply stored_widen|]. by rewrite row_key_widen.
  - rewrite Hnone in Hv; [done|apply (row_key_prefix (add_column d c))|done].
Qed.

Lemma table_inv_widen : table_inv (add_column d c) m1.
Proof.
  split.
  - intros k v Hk Hp. destruct (m !! k) as [v0|] eqn:E0; [|by rewrite Hnone in Hk].
    destruct (inv_stored d m k v0 Hti E0 Hp) as (row & Hst & -> & _). destruct (stored_ok d m row Hst) as [[Hl _] _].
    destruct (stored_widen row Hst) as (Hok & v1 & Hv1 & Hd). rewrite row_key_widen in Hv1, Hd by done.
    exists (widen row). rewrite row_key_widen by done. split_and!; [done|done|]. congruence.
  - intros idx k v Hidx Hp. cbn [tIndexes tID add_column] in Hidx, Hp. assert (m1 !! k = m !! k) as ->.
    { apply Hsame; [by eapply indexPrefix_space|]. intros Hp'.
      destruct (inv_index_not_row d (cw_wf d Hw) idx k); done. }
    rewrite (inv_index d m Hti idx k v Hidx Hp). split.
    + intros (row & Hst & -> & ->). destruct (stored_ok d m row Hst) as [[Hl _] _].
      destruct (index_widen idx row Hidx Hl) as [E1 E2]. exists (widen row). rewrite E1, E2. split; [by apply stored_widen|done].
    + intros (row' & Hst' & -> & ->). destruct (stored_widen_inv row' Hst') as (row & -> & Hst).
      destruct (stored_ok d m row Hst) as [[Hl _] _]. destruct (index_widen idx row Hidx Hl) as [E1 E2].
      exists row. by rewrite E1, E2.
Qed.
Lemma ids_ok_widen : ids_ok (add_column d c) m1.
Proof.
  intros k v Hk Hp. destruct (m !! k) as [v0|] eqn:E0; [|by rewrite Hnone in Hk].
  destruct (inv_stored d m k v0 Hti E0 Hp) as (row & Hst & -> & _).
  destruct (stored_tags d m row Hw Hids Hst) as (l & Hl & Ht & Er). rewrite (Hrows row l Hst Hl) in Hk. injection Hk as <-.
  eexists. split; [done|]. cbn. rewrite Hnext. by apply tags_widen.
Qed.
Lemma abstracts_widen T : abstracts d m T -> abstracts (add_column d c) m1 (widen <$> T).
Proof.
  intros Ha. split.
  - intros row'. rewrite lookup_fmap, fmap_Some. split.
    + intros (row & -> & Hst)%stored_widen_inv. destruct (stored_ok d m row Hst) as [[Hl _] _]. exists row.
      rewrite pkOf_widen by done. split; [by apply (abs_stored d m T Ha)|done].
    + intros (row & HT & ->). apply stored_widen, (abs_stored d m T Ha). by rewrite <- (abs_key d m T Ha _ _ HT).
  - intros pk row'. rewrite lookup_fmap, fmap_Some. intros (row & HT & ->). pose proof (abs_key d m T Ha _ _ HT) as Hk.
    rewrite pkOf_widen; [done|]. apply (stored_ok d m row). apply (abs_stored d m T Ha). by rewrite <- Hk.
Qed.

End added.

(** ** The backfill loops *)

(** A row's number: its place in key order, from 1. *)
Definition rowNumber (d : TableDesc) (es : list (bytes * bytes)) (row : list any) : any :=
  match list_find (λ p, p.1 = row_key d row) es with Some (i, _) => AInt KInt64 (Z.of_nat i + 1) | None => ANil end.
Lemma rowNumber_spec d es row v : NoDup es.*1 -> (row_key d row, v) ∈ es ->
  exists i, es !! i = Some (row_key d row, v) /\ rowNumber d es row = AInt KInt64 (Z.of_nat i + 1).
Proof.
  intros Hnd [i Hi]%list_elem_of_lookup. exists i. split; [done|].
  unfold rowNumber. rewrite (proj2 (list_find_Some _ es i (row_key d row, v))); [done|]. split_and!; [done..|].
  intros j y Hj Hji Ey. enough (j = i) by lia.
  eapply (NoDup_lookup _ _ _ (row_key d row) Hnd); rewrite list_lookup_fmap; [by rewrite Hj, <- Ey|by rewrite Hi].
Qed.

Section backfill.
Context {tx : Type} {kv : KV tx} {kv_laws : KVLaws tx}.

Definition filledWith (colID : Z) (m : kvmap) (p : bytes * bytes * any) : Prop :=
  exists n, normalize p.2 = Ok n /\ m !! p.1.1 = Some (p.1.2 ++ elems [kint colID; n]).

Lemma appendPair_wp colID e val (t : tx) Q : int64_ok colID -> any_ok val -> kv_writable t = true ->
  (forall n t', normalize val = Ok n -> writes (insert e.1 (e.2 ++ elems [kint colID; n])) t t' -> Q (Ok tt) t') ->
  (forall er, Q (Err er) t) -> wp (appendPair colID e val) Q t.
Proof.
  intros Hid Hv Hw HQ He. unfold appendPair. apply wp_bind_lift.
  rewrite Append_spec by (apply Forall_cons; split; [done|by constructor]). cbn [traverse].
  rewrite (normalize_canon_id (AInt _ _)) by done. cbn [mbind outcome_bind].
  destruct (normalize val) as [n|er|p] eqn:En; cbn [mbind outcome_bind seqQ]; [|done|by apply normalize_no_panic in En].
  apply wp_set. rewrite Hw. intros t' Ht. by apply (HQ n).
Qed.

Lemma appendPairs_wp colID ps (t : tx) : int64_ok colID -> Forall (λ p, any_ok p.2) ps -> kv_writable t = true ->
  NoDup ((λ p : bytes * bytes * any, p.1.1) <$> ps) ->
  wp (for_each (λ p, appendPair colID p.1 p.2) ps) (λ o t', kv_writable t' = true /\
    match o with
    | Ok _ => Forall (filledWith colID (kv_map t')) ps /\
        forall k, k ∉ (λ p : bytes * bytes * any, p.1.1) <$> ps -> kv_map t' !! k = kv_map t !! k
    | Err _ => True
    | Panic _ => False
    end) t.
Proof.
  intros Hid. revert t. induction ps as [|p ps IH]; intros t Hok Hw Hnd.
  { apply wp_ret. split_and!; [done|constructor|done]. }
  apply Forall_cons in Hok as [Hp Hok]. rewrite fmap_cons in Hnd. apply NoDup_cons in Hnd as [Hnin Hnd].
  cbn [for_each]. apply wp_bind, appendPair_wp; try done.
  intros n t1 En Ht1. cbn [seqQ]. pose proof (writes_map _ _ _ Ht1) as Em.
  eapply wp_mono; [apply IH; try done; by rewrite (writes_writable _ _ _ Ht1)|].
  intros [[]|er|q] t2 [Hw2 H]; split; try done. destruct H as [H1 H2]. split.
  - constructor; [|done]. exists n. split; [done|]. by rewrite H2, Em, lookup_insert_eq.
  - intros k Hk. rewrite fmap_cons, not_elem_of_cons in Hk. destruct Hk as [Hk1 Hk2]. by rewrite H2, Em, lookup_insert_ne.
Qed.

End backfill.

(** ** AddColumn *)

(** What the handler checks of the column, and what Go's types give. *)
Record new_column (c : Column) : Prop := {
  nc_type : colType c ∈ knownTypes;
  nc_identity : colIdentity c = true -> colType c = TInt /\ colDefault c = [];
  nc_maxlen : maxlen_ok c;
  nc_range : int64_ok (colMaxLen c);
  nc_utf8 : cleanColumn c = c;
}.

Lemma ColIndex_Some d name ord : ColIndex d name = Some ord -> exists c, tColumns d !! ord = Some c /\ colName c = name.
Proof.
  unfold ColIndex. destruct (list_find _ _) as [[i c]|] eqn:Ef; cbn; [|done]. intros [= <-].
  apply list_find_Some in Ef as (H1 & H2 & _). by exists c.
Qed.
Lemma cat_wf_add d c : cat_wf d -> new_column c -> ColIndex d (colName c) = None -> colID c = tNextColID d ->
  tNextColID d < 2 ^ 32 - 1 -> cat_wf (add_column d c).
Proof.
  intros Hw [T I L Rg U] Hn Hid Hlt. apply ColIndex_None in Hn.
  destruct Hw as [W R Ut N Ty Id X F]. pose proof (rg_next d R) as Hnx. unfold uint32_ok in Hnx.
  assert (uint32 (tNextColID d + 1) = tNextColID d + 1) as Hnext by (unfold uint32; apply Z.mod_small; lia).
  assert (forall P : Column -> Prop, Forall P (tColumns d) -> P c -> Forall P (tColumns d ++ [c])) as HF.
  { intros P H1 H2. apply Forall_app. split; [done|by repeat constructor]. }
  assert (forall (l : list nat), Forall (λ o, o < length (tColumns d))%nat l -> Forall (λ o, o < length (tColumns d ++ [c]))%nat l) as HL.
  { intros l Hl. eapply Forall_impl; [exact Hl|]. intros o. rewrite length_app. cbn. lia. }
  assert (forall (A : Type) (f : Column -> A), NoDup (f <$> tColumns d) -> f c ∉ f <$> tColumns d -> NoDup (f <$> (tColumns d ++ [c]))) as HN.
  { intros A f H1 H2. rewrite fmap_app. apply NoDup_app. split_and!; [done| |apply NoDup_singleton].
    intros x Hx ->%list_elem_of_singleton. done. }
  split; cbn; rewrite ?Hnext.
  - destruct W. split; cbn; try done; auto.
    + apply HN; [done|]. rewrite Hid. intros (c' & E & Hc')%list_elem_of_fmap. rewrite Forall_forall in N. specialize (N c' Hc'). lia.
    + apply HF; [done|]. rewrite Hid. unfold uint32_ok. lia.
    + eapply Forall_impl; [exact wf_ixCols|]. intros x. apply HL.
  - destruct R. split; cbn; rewrite ?Hnext; try done.
    + unfold uint32_ok in *. lia.
    + apply HF; [done|]. rewrite Hid. split; [|done]. unfold uint32_ok. lia.
  - destruct Ut as (U1 & U2 & U3 & U4 & U5). split_and!; cbn; try done. by apply HF.
  - apply HF; [|lia]. eapply Forall_impl; [exact N|]. intros c'. cbn. lia.
  - by apply HF.
  - apply HF; [done|]. intros Hi. by apply I.
  - done.
  - eapply Forall_impl; [exact F|]. intros f. apply HL.
Qed.

Lemma elems_pair id l n : elems (tagged (l ++ [(id, n)])) = elems (tagged l) ++ elems [kint id; n].
Proof. unfold tagged. by rewrite bind_app, elems_app. Qed.

Section laws.
Context {E : Type} {eng : EngineOps E} {cs : CatState E} {cat_laws : CatLaws E}.
Context {tx : Type} {kv : KV tx} {kv_laws : KVLaws tx}.

Lemma mutates_added {A : Type} (table : bytes) (d : TableDesc) (c : Column) (W : list any -> any) (a : A) (R : A -> kvmap -> Prop) (e : E) (t t1 : tx) :
  ready e t -> table_at (kv_map t) table d -> cat_wf d -> cat_wf (add_column d c) -> colID c = tNextColID d ->
  tNextColID d < 2 ^ 32 - 1 -> kv_writable t1 = true ->
  (forall row v, stored d (kv_map t) row -> kv_map t !! row_key d row = Some v ->
    kv_map t1 !! row_key d row = Some (v ++ if is_nil (W row) then [] else elems [kint (tNextColID d); W row])) ->
  (forall k, k ∉ (rowEntries (tID d) t).*1 -> ~ identitySeqTablePrefix (tID d) `prefix_of` k -> kv_map t1 !! k = kv_map t !! k) ->
  (forall row, stored d (kv_map t) row -> canon (W row) /\ cell_ok d (length (tColumns d)) c (W row)) ->
  (forall m', altered table d (add_column d c) (fmap (widen W)) (kv_map t) m' ->
    (forall k, k <> descKey table -> m' !! k = kv_map t1 !! k) -> R a m') ->
  mutates table e R (Ok (Some (add_column d c), a)) (e, t1).
Proof.
  intros Hr Hat Hw Hw' Hid Hlt Hwr Hrow Hother HW HR. destruct (db_table _ (rd_db _ _ Hr) table d Hat) as [Hti Hids Htd].
  pose proof (cat_wf_user d Hw) as Hu. pose proof (rg_next d (cw_range d Hw)) as Hnx. unfold uint32_ok in Hnx.
  assert (uint32 (tNextColID d + 1) = tNextColID d + 1) as Hnext by (unfold uint32; apply Z.mod_small; lia).
  assert (forall k, tableSpace (tID d) `prefix_of` k -> ~ identitySeqTablePrefix (tID d) `prefix_of` k) as Hseq.
  { intros k Hk Hs. apply (user_not_sys (tID d) sysSeqTableID k); [done|done|done|]. by eapply identity_space. }
  assert (forall row l, stored d (kv_map t) row -> kv_map t !! row_key d row = Some (elems (tagged l)) ->
    kv_map t1 !! row_key d row = Some (elems (tagged (l ++ if is_nil (W row) then [] else [(tNextColID d, W row)])))) as H1.
  { intros row l Hst Hl. rewrite (Hrow row _ Hst Hl). destruct (is_nil (W row)); [by rewrite !app_nil_r|]. by rewrite elems_pair. }
  assert (forall k, tablePrefix (tID d) `prefix_of` k -> kv_map t !! k = None -> kv_map t1 !! k = None) as H2.
  { intros k Hk Hn. rewrite Hother; [done| |by eapply Hseq, indexPrefix_space].
    intros ([k' v] & -> & [Hkv _]%rowEntries_elem)%list_elem_of_fmap. cbn in Hn. congruence. }
  assert (forall k, tableSpace (tID d) `prefix_of` k -> ~ tablePrefix (tID d) `prefix_of` k -> kv_map t1 !! k = kv_map t !! k) as H3.
  { intros k Hk Hn. apply Hother; [|by apply Hseq]. intros ([k' v] & -> & [_ Hp]%rowEntries_elem)%list_elem_of_fmap. done. }
  destruct (alter_rows (kv_map t) (kv_map t1) table d (add_column d c) (fmap (widen W))) as [Hdb Hal]; try done.
  - apply Hr.
  - intros k K1 K2 K3. apply Hother; [|done].
    intros ([k' v] & -> & [_ Hp]%rowEntries_elem)%list_elem_of_fmap. by eapply K1, indexPrefix_space.
  - split; [by eapply table_inv_widen|by eapply ids_ok_widen|]. intros k [v Hv] Hp.
    destruct (decide (tablePrefix (tID d) `prefix_of` k)) as [|Hn]; [by left|]. cbn in Hp. rewrite H3 in Hv by done. by apply Htd; [exists v|].
  - intros T. by eapply abstracts_widen.
  - split_and!; [done..|]. apply HR; [done|]. intros k Hk. by apply lookup_insert_ne.
Qed.

(** What the new column holds: the rows' numbers in key order, or the
    default's value. *)
Definition new_values (d : TableDesc) (c : Column) (now : Z) (m : kvmap) (W : list any -> any) : Prop :=
  if colIdentity c then
    forall row, stored d m row -> exists i v,
      range m (tablePrefix (tID d)) (prefixEnd (tablePrefix (tID d))) !! i = Some (row_key d row, v) /\
      W row = AInt KInt64 (Z.of_nat i + 1)
  else
    exists fill, (if bool_decide (colDefault c = []) then Ok ANil else columnDefaultValue c now) = Ok fill /\
      forall row, stored d m row -> normalize fill = Ok (W row).

Lemma rowEntries_nodup id (t : tx) : NoDup (rowEntries id t).*1.
Proof. rewrite rowEntries_range. apply range_nodup. Qed.

Lemma constants_keys (es : list (bytes * bytes)) (val : any) :
  (λ p : bytes * bytes * any, p.1.1) <$> ((λ e, (e, val)) <$> es) = es.*1.
Proof. rewrite <- list_fmap_compose. by apply list_fmap_ext. Qed.
Lemma numbered_keys es : (λ p : bytes * bytes * any, p.1.1) <$> numbered es = es.*1.
Proof.
  apply list_eq. intros i. unfold numbered. rewrite !list_lookup_fmap, list_lookup_imap. by destruct (es !! i).
Qed.

Lemma stored_entry (d : TableDesc) (t : tx) row v : stored d (kv_map t) row -> kv_map t !! row_key d row = Some v ->
  (row_key d row, v) ∈ rowEntries (tID d) t.
Proof. intros _ Hv. apply rowEntries_elem. split; [done|apply row_key_prefix]. Qed.

Lemma bumpIdentity_wp (d : TableDesc) (c : Column) next (t : tx) : uint32_ok (colID c) -> kv_writable t = true ->
  wp (bumpCounterTo (identitySeqKey (tID d) (colID c)) next) (λ o t', kv_writable t' = true /\
    match o with Ok _ => identity_only d (kv_map t) (kv_map t') | Err _ => True | Panic _ => False end) t.
Proof.
  intros Hc Hw. eapply wp_mono; [apply wp_bumpCounterTo|]. intros [[]|er|p] t' H; [|by subst t'|done].
  destruct H as (cur & _ & H). destruct (next <=? cur); [subst t'; split; [done|apply identity_only_preorder]|]. destruct H as [_ Hws].
  rewrite (writes_writable _ _ _ Hws), (writes_map _ _ _ Hws). split; [done|]. by apply identity_only_insert.
Qed.

Lemma AddColumnIn_identity (table : bytes) (d : TableDesc) (c : Column) (now : Z) (e : E) (t : tx) (R : unit -> kvmap -> Prop) :
  ready e t -> table_at (kv_map t) table d -> cat_wf d -> cat_wf (add_column d c) -> colID c = tNextColID d ->
  tNextColID d < 2 ^ 32 - 1 -> colIdentity c = true -> colType c = TInt -> Z.of_nat (length (rowEntries (tID d) t)) < maxInt64 ->
  (forall W m', altered table d (add_column d c) (fmap (widen W)) (kv_map t) m' -> new_values d c now (kv_map t) W -> R tt m') ->
  wp (_ ← backfillIdentity (add_column d c) c; mret (Some (add_column d c), tt)) (mutates table e R) (e, t).
Proof.
  intros Hr Hat Hw Hw' Hid Hlt Hident Hint Hlen HR. unfold backfillIdentity. cbn [tID add_column].
  pose proof (rg_next d (cw_range d Hw)) as Hnx. unfold uint32_ok in Hnx. set (es := rowEntries (tID d) t) in *.
  apply wp_bind, wp_bind, wp_checkLimit; cbn [seqQ]; [|by apply mutates_err; [|apply Hr]].
  apply wp_bind, wp_onTx, wp_gets. cbn [seqQ]. fold es. apply wp_bind, wp_onTx. eapply wp_mono.
  { apply appendPairs_wp.
    - rewrite Hid. unfold int64_ok, minInt64, maxInt64. lia.
    - apply Forall_forall. intros p (i & e0 & -> & Hi)%elem_of_lookup_imap. apply lookup_lt_Some in Hi. fold es in Hi.
      cbn. unfold int64_ok, minInt64, maxInt64 in *. lia.
    - apply Hr.
    - rewrite numbered_keys. apply rowEntries_nodup. }
  intros o t1 [Hw1 H]. destruct o as [[]|er|p]; cbn [seqQ]; [|by apply mutates_err|done]. destruct H as [Hfill Hother].
  rewrite numbered_keys in Hother. apply wp_onTx. eapply wp_mono; [apply (bumpIdentity_wp d c); [|done]|].
  { rewrite Hid. unfold uint32_ok. lia. }
  intros o t2 [Hw2 Hseq]. destruct o as [[]|er|p]; cbn [seqQ]; [|by apply mutates_err|done]. apply wp_ret.
  set (W := rowNumber d es).
  assert (forall row v, stored d (kv_map t) row -> kv_map t !! row_key d row = Some v -> exists i,
    es !! i = Some (row_key d row, v) /\ W row = AInt KInt64 (Z.of_nat i + 1)) as HW.
  { intros row v Hst Hv. by apply rowNumber_spec, stored_entry; [apply rowEntries_nodup|..]. }
  apply (mutates_added table d c W _ _ e t t2); try done.
  - intros row v Hst Hv. destruct (HW row v Hst Hv) as (i & Hi & ->). cbn [is_nil].
    assert (numbered es !! i = Some (row_key d row, v, AInt KInt64 (Z.of_nat i + 1))) as Hn by (unfold numbered; by rewrite list_lookup_imap, Hi).
    eapply Forall_lookup_1 in Hfill; [|exact Hn]. destruct Hfill as (n & En & Hm1). cbn [fst snd] in En, Hm1.
    rewrite normalize_canon_id in En by (apply lookup_lt_Some in Hi; cbn; unfold int64_ok, minInt64, maxInt64 in *; lia).
    injection En as <-. rewrite Hseq, Hm1, Hid; [done|]. intros Hs%identity_space.
    apply (user_not_sys (tID d) sysSeqTableID (row_key d row)); [by apply cat_wf_user|done| |done].
    eapply indexPrefix_space, row_key_prefix.
  - intros k Hk Hs. rewrite Hseq by done. by apply Hother.
  - intros row Hst. pose proof Hst as (_ & v & Hv & _). destruct (HW row v Hst Hv) as (i & Hi & ->). apply lookup_lt_Some in Hi.
    unfold cell_ok. cbn. rewrite Hint. unfold fits, typed, int64_ok, minInt64, maxInt64 in *. cbn. split; [lia|]. split; [lia|done].
  - intros m' Hal _. apply (HR W); [done|]. unfold new_values. rewrite Hident. intros row Hst. pose proof Hst as (_ & v & Hv & _).
    destruct (HW row v Hst Hv) as (i & Hi & ->). exists i, v. split; [|done]. rewrite <- rowEntries_range. done.
Qed.

(** The rows under a filled constant column. *)
Lemma AddColumnIn_filled (table : bytes) (d : TableDesc) (c : Column) (now : Z) (fill : any) (e : E) (t : tx) (R : unit -> kvmap -> Prop) :
  ready e t -> table_at (kv_map t) table d -> cat_wf d -> cat_wf (add_column d c) -> colID c = tNextColID d ->
  tNextColID d < 2 ^ 32 - 1 -> typed (colType c) fill -> fits c fill -> is_nil fill = false ->
  (forall W m', altered table d (add_column d c) (fmap (widen W)) (kv_map t) m' ->
    (forall row, stored d (kv_map t) row -> normalize fill = Ok (W row)) -> R tt m') ->
  wp (onTx (backfillColumn (add_column d c) (colID c) fill)) (seqQ (λ _, mret (Some (add_column d c), tt)) (mutates table e R)) (e, t).
Proof.
  intros Hr Hat Hw Hw' Hid Hlt Ht Hf Hnil HR. unfold backfillColumn. cbn [tID add_column].
  pose proof (rg_next d (cw_range d Hw)) as Hnx. unfold uint32_ok in Hnx. set (es := rowEntries (tID d) t) in *.
  pose proof (typed_any_ok _ _ Ht) as Hok. apply wp_onTx, wp_bind, wp_gets. cbn [seqQ]. fold es. eapply wp_mono.
  { apply appendPairs_wp; [|apply Forall_fmap, Forall_true; done|apply Hr|rewrite constants_keys; apply rowEntries_nodup].
    rewrite Hid. unfold int64_ok, minInt64, maxInt64. lia. }
  intros o t1 [Hw1 H]. destruct o as [[]|er|p]; cbn [seqQ]; [|by apply mutates_err|done]. destruct H as [Hfill Hother].
  rewrite constants_keys in Hother. apply wp_ret.
  set (W := λ _ : list any, match normalize fill with Ok n => n | _ => ANil end).
  assert (forall row v, stored d (kv_map t) row -> kv_map t !! row_key d row = Some v ->
    normalize fill = Ok (W row) /\ kv_map t1 !! row_key d row = Some (v ++ elems [kint (colID c); W row])) as HW.
  { intros row v Hst Hv. rewrite Forall_fmap, Forall_forall in Hfill.
    destruct (Hfill _ (stored_entry d t row v Hst Hv)) as (n & En & Hm). cbn [fst snd] in En, Hm. unfold W. by rewrite En. }
  apply (mutates_added table d c W _ _ e t t1); try done.
  - intros row v Hst Hv. destruct (HW row v Hst Hv) as [En Hm]. by rewrite (normalize_nil _ _ En), Hnil, Hm, Hid.
  - intros k Hk _. by apply Hother.
  - intros row Hst. pose proof Hst as (_ & v & Hv & _). destruct (HW row v Hst Hv) as [En _].
    split; [by eapply normalize_canon|]. eapply cell_ok_normalize; [|done]. unfold cell_ok. by rewrite Hnil.
  - intros m' Hal _. apply (HR W m' Hal). intros row Hst. pose proof Hst as (_ & v & Hv & _). by apply (HW row v).
Qed.

Lemma AddColumnIn_wp (table : bytes) (col : Column) (now : Z) (e : E) (t : tx) : ready e t -> new_column col ->
  (forall d, table_at (kv_map t) table d -> tNextColID d < 2 ^ 32 - 1 /\ Z.of_nat (length (rowEntries (tID d) t)) < maxInt64) ->
  wp (AddColumnIn table col now) (ddl e (λ _ m', exists d W, let c := col_id (tNextColID d) col in
    ColIndex d (colName col) = None /\ altered table d (add_column d c) (fmap (widen W)) (kv_map t) m' /\
    new_values d c now (kv_map t) W)) (e, t).
Proof.
  intros Hr Hc Hbounds. apply wp_alterDesc; [done|]. intros d e' Hr' He Hat Hnm Hw.
  destruct (Hbounds d Hat) as [Hlt Hlen]. case_bool_decide as En; [by apply wp_fail, mutates_err; [|apply Hr]|].
  apply eq_None_not_Some in En. cbv zeta. set (c := col_id (tNextColID d) col).
  assert (new_column c) as Hc' by (destruct Hc; split; try done; by apply clean_id).
  assert (cat_wf (add_column d c)) as Hw' by (by apply cat_wf_add).
  change (colIdentity c) with (colIdentity col). destruct (colIdentity col) eqn:Ei.
  { destruct (nc_identity c Hc' Ei) as [Hty _]. eapply AddColumnIn_identity; try done.
    intros W m' Hal Hv. exists d, W. by split_and!. }
  apply wp_bind. apply wp_mono with (Q := λ o s, s = (e', t) /\
    match o with
    | Ok fill => (if bool_decide (colDefault c = []) then Ok ANil else columnDefaultValue c now) = Ok fill /\
                 if is_nil fill then fill = ANil else typed (colType c) fill /\ fits c fill
    | Err _ => True
    | Panic _ => False
    end).
  { case_bool_decide; [by apply wp_ret|]. apply wp_lift. split; [done|].
    destruct (columnDefaultValue c now) as [fill|er|p] eqn:Ed; [|done|by apply columnDefaultValue_no_panic in Ed].
    split; [done|]. eapply columnDefaultValue_typed; [apply Hc'|done]. }
  intros o s [-> H]. destruct o as [fill|er|p]; cbn [seqQ]; [|by apply mutates_err; [|apply Hr]|done]. destruct H as [Hfill Hty].
  apply wp_bind, wp_onTx, wp_gets. cbn [seqQ]. cbn [tID add_column].
  destruct (is_nil fill && colNotNull c && hasRows (tID d) t) eqn:Enn; [by apply wp_fail, mutates_err; [|apply Hr]|].
  assert (forall W m', altered table d (add_column d c) (fmap (widen W)) (kv_map t) m' ->
    (forall row, stored d (kv_map t) row -> normalize fill = Ok (W row)) -> exists d W, let c := col_id (tNextColID d) col in
    ColIndex d (colName col) = None /\ altered table d (add_column d c) (fmap (widen W)) (kv_map t) m' /\
    new_values d c now (kv_map t) W) as HR.
  { intros W m' Hal HW. exists d, W. split_and!; [done..|]. unfold new_values. cbn [col_id colIdentity]. rewrite Ei. by exists fill. }
  destruct (is_nil fill) eqn:Ef.
  - subst fill. apply wp_bind, wp_ret. cbn [seqQ]. apply wp_ret.
    apply (mutates_added table d c (λ _, ANil) _ _ e' t t); try done.
    + apply Hr.
    + intros row v _ Hv. cbn [is_nil]. by rewrite app_nil_r.
    + intros row Hst. split; [done|]. unfold cell_ok. cbn [is_nil]. rewrite (isPK_new d Hw). split_and!; [done| |done].
      destruct (colNotNull c) eqn:Enc; [|done]. cbn in Enn. by destruct (hasRows_stored d t row Enn).
    + intros m' Hal _. by apply (HR _ m' Hal).
  - destruct Hty as [Ht Hf]. apply wp_bind, wp_bind, wp_checkLimit; cbn [seqQ]; [|by apply mutates_err; [|apply Hr]].
    by eapply AddColumnIn_filled.
Qed.
End laws.

(** ** A column dropped *)

Lemma shift_inj ord o1 o2 : o1 <> ord -> o2 <> ord -> shift ord o1 = shift ord o2 -> o1 = o2.
Proof. unfold shift. repeat case_decide; lia. Qed.
Lemma lookup_shift {A : Type} ord o (l : list A) : o <> ord -> delete ord l !! shift ord o = l !! o.
Proof.
  intros Hne. unfold shift. case_decide; [rewrite list_lookup_delete_ge by lia; f_equal; lia|].
  by rewrite list_lookup_delete_lt by lia.
Qed.
Lemma shift_lt ord o n : o <> ord -> (o < n)%nat -> (ord < n)%nat -> (shift ord o < n - 1)%nat.
Proof. unfold shift. case_decide; lia. Qed.
(** Every place of the shorter list is the image of one of the longer. *)
Lemma shift_onto ord i : exists o, o <> ord /\ shift ord o = i.
Proof.
  exists (if decide (i < ord)%nat then i else Datatypes.S i). unfold shift. repeat case_decide; lia.
Qed.

Section dropped.
Context (d : TableDesc) (Hw : cat_wf d) (ord : nat) (c : Column) (Hc : tColumns d !! ord = Some c).
Lemma drop_length {A : Type} (l : list A) : length l = length (tColumns d) -> length (delete ord l) = (length (tColumns d) - 1)%nat.
Proof. intros Hl. pose proof (lookup_lt_Some _ _ _ Hc). rewrite length_delete by (apply lookup_lt_is_Some; lia). lia. Qed.

Lemma shift_fmap_range l : ord ∉ l -> Forall (λ o, o < length (tColumns d))%nat l ->
  Forall (λ o, o < length (delete ord (tColumns d)))%nat (shift ord <$> l).
Proof.
  intros Hn Hl. rewrite drop_length by done. apply Forall_fmap. rewrite Forall_forall in *. intros o Ho. cbn.
  apply shift_lt; [set_solver|by apply Hl|by eapply lookup_lt_Some].
Qed.
Lemma shift_fmap_nodup l : ord ∉ l -> NoDup l -> NoDup (shift ord <$> l).
Proof.
  intros Hn Hl. apply NoDup_fmap_2_strong; [|done]. intros x y Hx Hy. apply shift_inj; set_solver.
Qed.
Lemma shift_fmap_int64 l : Forall (λ o, Z.of_nat o <= maxInt64) l -> Forall (λ o, Z.of_nat o <= maxInt64) (shift ord <$> l).
Proof. intros Hl. apply Forall_fmap. eapply Forall_impl; [exact Hl|]. intros o. cbn. unfold shift. case_decide; lia. Qed.

Hypothesis Hpk : ord ∉ tPKCols d.
Hypothesis Hix : Forall (λ x, ord ∉ ixCols x) (tIndexes d).
Hypothesis Hfk : Forall (λ f, ord ∉ fkCols f) (tForeignKeys d).

Let d0 := drop_column d ord.

Lemma cat_wf_drop : cat_wf d0.
Proof.
  destruct Hw as [W R U N T I X F].
  split; cbn; try (by apply Forall_delete).
  - destruct W. split; cbn; try done; try (by apply Forall_delete).
    + eapply sublist_NoDup; [exact wf_colID|apply fmap_sublist, sublist_delete].
    + eapply sublist_NoDup; [exact wf_colName|apply fmap_sublist, sublist_delete].
    + by destruct (tPKCols d).
    + by apply shift_fmap_nodup.
    + by apply shift_fmap_range.
    + by rewrite <- list_fmap_compose.
    + by apply Forall_fmap.
    + by rewrite <- list_fmap_compose.
    + apply Forall_fmap. rewrite Forall_forall in *. intros x Hx. apply shift_fmap_range; [by apply Hix|by apply wf_ixCols].
    + by left.
  - destruct R. split; cbn; try done; try (by apply Forall_delete).
    + by apply shift_fmap_int64.
    + apply Forall_fmap. eapply Forall_impl; [exact rg_ixs|]. intros x []. split; [done|]. by apply shift_fmap_int64.
    + apply Forall_fmap. eapply Forall_impl; [exact rg_fks|]. intros f. apply shift_fmap_int64.
  - destruct U as (U1 & U2 & U3 & U4 & U5). split_and!; cbn; try done; try (by apply Forall_delete).
    + apply Forall_fmap. eapply Forall_impl; [exact U3|]. intros x. destruct x. unfold cleanIndex. cbn. by intros [= ->].
    + apply Forall_fmap. eapply Forall_impl; [exact U5|]. intros f Hf%clean_fk. by apply clean_fk.
  - apply Forall_fmap. rewrite Forall_forall in *. intros x Hx. destruct (X x Hx) as [Hne Hnd]. cbn. split.
    + by destruct (ixCols x).
    + apply shift_fmap_nodup; [by apply Hix|done].
  - apply Forall_fmap. rewrite Forall_forall in *. intros f Hf. apply shift_fmap_range; [by apply Hfk|by apply F].
Qed.

Lemma isPK_drop o : o <> ord -> isPK d0 (shift ord o) = isPK d o.
Proof.
  intros Ho. apply bool_decide_ext. cbn. rewrite list_elem_of_fmap. split; [|by exists o].
  intros (o' & E & Ho'). enough (o = o') by congruence. apply (shift_inj ord); set_solver.
Qed.
Lemma lookups_drop (l : list nat) (row : list any) : ord ∉ l ->
  (λ o, default ANil (delete ord row !! o)) <$> (shift ord <$> l) = (λ o, default ANil (row !! o)) <$> l.
Proof.
  intros Hl. rewrite <- list_fmap_compose. apply list_fmap_ext. intros i o Ho%list_elem_of_lookup_2. cbn.
  rewrite lookup_shift; [done|set_solver].
Qed.
Lemma pkOf_drop row : pkOf d0 (delete ord row) = pkOf d row.
Proof. by apply lookups_drop. Qed.
Lemma row_key_drop row : row_key d0 (delete ord row) = row_key d row.
Proof. unfold row_key. by rewrite pkOf_drop. Qed.
Lemma ixVals_drop idx row : idx ∈ tIndexes d -> ixVals (shiftIndex ord idx) (delete ord row) = ixVals idx row.
Proof. intros Hidx. apply lookups_drop. by eapply Forall_forall in Hix. Qed.
Lemma index_drop idx row : idx ∈ tIndexes d ->
  index_key d0 (shiftIndex ord idx) (delete ord row) = index_key d idx row /\
  index_val d0 (shiftIndex ord idx) (delete ord row) = index_val d idx row.
Proof. intros Hidx. unfold index_key, index_val, enforced. by rewrite ixVals_drop, pkOf_drop. Qed.

Lemma row_ok_drop row : row_ok d row -> row_ok d0 (delete ord row).
Proof.
  intros [[Hl Hr] Hcn]. split; [split|by apply Forall_delete].
  - cbn. by rewrite !drop_length.
  - intros i ci v Hi Hv. destruct (shift_onto ord i) as (o & Ho & <-). cbn in Hi. rewrite lookup_shift in Hi by done. rewrite lookup_shift in Hv by done.
    specialize (Hr o ci v Hi Hv). unfold cell_ok in *. by rewrite isPK_drop.
Qed.

Lemma readRow_drop row l : length row = length (tColumns d) ->
  readRow d0 (delete ord row) l = delete ord (readRow d row l).
Proof.
  intros Hl. apply list_eq. intros i. destruct (shift_onto ord i) as (o & Ho & <-). rewrite lookup_shift by done.
  unfold readRow. rewrite !list_lookup_imap. cbn. rewrite lookup_shift by done. destruct (tColumns d !! o); [|done]. cbn.
  unfold readCol. by rewrite isPK_drop, lookup_shift.
Qed.

Context (m : kvmap) (Hti : table_inv d m) (Hids : ids_ok d m).

Lemma stored_drop row : stored d m row -> stored d0 m (delete ord row).
Proof.
  intros Hst. destruct (stored_tags d m row Hw Hids Hst) as (l & Hm & Ht & Er).
  pose proof (stored_ok d m row Hst) as Hok. pose proof (row_ok_drop row Hok) as Hok0. destruct Hok as [[Hlen _] _].
  split; [done|]. exists (elems (tagged l)). rewrite row_key_drop. split; [done|]. rewrite <- row_key_drop.
  rewrite (decodeRow_tagged d0 (cw_wf _ cat_wf_drop) (delete ord row) (tNextColID d)).
  - by rewrite readRow_drop, <- Er.
  - by apply row_ok_canon.
  - pose proof (rg_next _ (cw_range _ Hw)) as [_ Hn]. lia.
  - done.
Qed.
Lemma stored_drop_inv row' : stored d0 m row' -> exists row, row' = delete ord row /\ stored d m row.
Proof.
  intros Hst'. pose proof Hst' as (Hok & v & Hv & Hd).
  destruct (inv_stored d m _ _ Hti Hv (row_key_prefix d0 row')) as (row & Hst & Hk & _).
  exists row. split; [|done]. eapply stored_key_unique; [exact Hst'|by apply stored_drop|]. by rewrite row_key_drop.
Qed.

Lemma table_inv_drop : table_inv d0 m.
Proof.
  split.
  - intros k v Hk Hp. destruct (inv_stored d m k v Hti Hk Hp) as (row & Hst & -> & _).
    destruct (stored_drop row Hst) as (Hok & v1 & Hv1 & Hd). rewrite row_key_drop in Hv1, Hd.
    exists (delete ord row). rewrite row_key_drop. split_and!; [done|done|]. congruence.
  - intros idx0 k v (idx & -> & Hidx)%list_elem_of_fmap Hp.
    rewrite (inv_index d m Hti idx k v Hidx Hp). split.
    + intros (row & Hst & -> & ->). destruct (index_drop idx row Hidx) as [E1 E2]. exists (delete ord row).
      rewrite E1, E2. split; [by apply stored_drop|done].
    + intros (row' & Hst' & -> & ->). destruct (stored_drop_inv row' Hst') as (row & -> & Hst).
      destruct (index_drop idx row Hidx) as [E1 E2]. exists row. by rewrite E1, E2.
Qed.
Lemma abstracts_drop T : abstracts d m T -> abstracts d0 m (delete ord <$> T).
Proof.
  intros Ha. split.
  - intros row'. rewrite lookup_fmap, fmap_Some. split.
    + intros (row & -> & Hst)%stored_drop_inv. exists row. rewrite pkOf_drop. split; [by apply (abs_stored d m T Ha)|done].
    + intros (row & HT & ->). apply stored_drop, (abs_stored d m T Ha). by rewrite <- (abs_key d m T Ha _ _ HT).
  - intros pk row'. rewrite lookup_fmap, fmap_Some. intros (row & HT & ->). rewrite pkOf_drop. by apply (abs_key d m T Ha).
Qed.

End dropped.

Section drop_laws.
Context {E : Type} {eng : EngineOps E} {cs : CatState E} {cat_laws : CatLaws E}.
Context {tx : Type} {kv : KV tx} {kv_laws : KVLaws tx}.

(** Deleting an identity counter leaves the database sound. *)
Lemma wp_deleteCounter (table : bytes) (d : TableDesc) (c : Column) (key : bytes) Q (e : E) (t : tx) : ready e t -> table_at (kv_map t) table d ->
  cat_wf d -> c ∈ tColumns d -> (colIdentity c = true -> key = identitySeqKey (tID d) (colID c)) ->
  (forall t', ready e t' -> identity_only d (kv_map t) (kv_map t') -> Q (Ok tt) (e, t')) ->
  wp (if colIdentity c then onTx (kv_delete key) ≫= λ _, mret () else mret ()) Q (e, t).
Proof.
  intros Hr Hat Hw Hc Hkey HQ. destruct (colIdentity c).
  - apply wp_bind, wp_onTx, wp_delete. rewrite (rd_writable _ _ Hr). intros t' Ht. cbn [seqQ]. apply wp_ret.
    assert (identity_only d (kv_map t) (kv_map t')) as Hi.
    { rewrite (writes_map _ _ _ Ht), Hkey by done. intros k Hk. apply lookup_delete_ne. intros <-. apply Hk, identitySeqKey_prefix.
      pose proof (wf_colID_range d (cw_wf d Hw)) as Hu. by eapply Forall_forall in Hu. }
    apply HQ; [|done]. split; [apply Hr| |rewrite (writes_writable _ _ _ Ht); apply Hr].
    by apply (identity_db_inv (kv_map t) _ table d); [apply Hr|..].
  - apply wp_ret, HQ; [done|]. by apply identity_only_preorder.
Qed.

Lemma existsb_false {A : Type} (f : A -> bool) l : existsb f l = false -> Forall (λ x, f x = false) l.
Proof. induction l as [|x l IH]; cbn; [constructor|]. intros [H1 H2]%orb_false_iff. constructor; auto. Qed.

Lemma references_identity (d : TableDesc) m m' table skipSelf d' f : identity_only d m m' ->
  references m' table skipSelf d' f <-> references m table skipSelf d' f.
Proof.
  intros Hi. unfold references, table_at, resolve. by rewrite (identity_descKey d (tName d') m m' Hi).
Qed.

Lemma mutates_dropped {A : Type} (table : bytes) (d : TableDesc) (ord : nat) (c : Column) (a : A) (R : A -> kvmap -> Prop) (e : E) (t t1 : tx) :
  ready e t -> table_at (kv_map t) table d -> cat_wf d -> tColumns d !! ord = Some c -> identity_only d (kv_map t) (kv_map t1) ->
  kv_writable t1 = true -> ord ∉ tPKCols d -> Forall (λ x, ord ∉ ixCols x) (tIndexes d) -> Forall (λ f, ord ∉ fkCols f) (tForeignKeys d) ->
  (forall m', altered table d (drop_column d ord) (fmap (delete ord)) (kv_map t) m' -> R a m') ->
  mutates table e R (Ok (Some (drop_column d ord), a)) (e, t1).
Proof.
  intros Hr Hat Hw Hc Hi Hwr Hpk Hix Hfk HR. destruct (identity_db_inv _ _ table d (rd_db _ _ Hr) Hat Hi) as (Hdb & Hat1 & _).
  destruct (db_table _ Hdb table d Hat1) as [Hti Hids Htd]. pose proof (identity_space_ext _ _ d Hw Hi) as Hk.
  destruct (alter_rows (kv_map t) (kv_map t1) table d (drop_column d ord) (fmap (delete ord))) as [Hdb' Hal]; try done.
  - apply Hr.
  - by eapply cat_wf_drop.
  - by apply identity_frame.
  - split; [by eapply table_inv_drop|done|]. intros k Hv Hp. destruct (Htd k Hv Hp) as [|Hx]; [by left|right].
    by apply Exists_fmap.
  - intros T HT. eapply abstracts_drop; try done. eapply abstracts_ext; [|done]. intros k Hp. symmetry. by apply Hk.
  - split_and!; [done..|]. by apply HR.
Qed.

Lemma DropColumnIn_wp (table name : bytes) (e : E) (t : tx) : ready e t ->
  wp (DropColumnIn table name) (ddl e (λ key m', exists d ord c,
    ColIndex d name = Some ord /\ tColumns d !! ord = Some c /\ altered table d (drop_column d ord) (fmap (delete ord)) (kv_map t) m' /\
    isPK d ord = false /\ key = (if colIdentity c then identitySeqKey (tID d) (colID c) else []) /\
    Forall (λ x, ord ∉ ixCols x) (tIndexes d) /\ Forall (λ f, ord ∉ fkCols f) (tForeignKeys d) /\
    forall d' f, references (kv_map t) table false d' f -> name ∉ fkRefCols f)) (e, t).
Proof.
  intros Hr. apply wp_alterDesc; [done|]. intros d e' Hr' He Hat Hnm Hw. apply wp_withColumn; [|apply mutates_err; [done|apply Hr]].
  intros ord c Hi Hc Hcn. cbv zeta. set (key := if colIdentity c then _ else _).
  apply wp_bind, (wp_deleteCounter table d c); try done; [by eapply list_elem_of_lookup_2|unfold key; by intros ->|].
  intros t1 Hr1 Hio. cbn [seqQ].
  destruct (isPK d ord) eqn:Epk; [by apply wp_fail, mutates_err; [|apply Hr1]|].
  destruct (existsb _ (tIndexes d)) eqn:Ex; [by apply wp_fail, mutates_err; [|apply Hr1]|]. apply existsb_false in Ex.
  destruct (existsb _ (tForeignKeys d)) eqn:Ef; [by apply wp_fail, mutates_err; [|apply Hr1]|]. apply existsb_false in Ef.
  apply wp_bind, referencingFKs_wp; [done|]. intros refs e1 He1 Hrefs. cbn [seqQ].
  destruct (existsb _ refs) eqn:Er; [by apply wp_fail, mutates_err; [|apply Hr1]|]. apply existsb_false in Er.
  assert (Forall (λ x, ord ∉ ixCols x) (tIndexes d)) as Hix by (eapply Forall_impl; [exact Ex|]; intros x; apply bool_decide_eq_false).
  assert (Forall (λ f, ord ∉ fkCols f) (tForeignKeys d)) as Hfk by (eapply Forall_impl; [exact Ef|]; intros f; apply bool_decide_eq_false).
  apply wp_ret. eapply mutates_cached; [exact He1|].
  apply (mutates_dropped table d ord c _ _ e1 t t1); try done.
  - by eapply ready_cached.
  - apply Hr1.
  - by apply bool_decide_eq_false in Epk.
  - intros m' Hal. exists d, ord, c. split_and!; [done..|]. intros d' f Href. rewrite Forall_forall in Er.
    specialize (Er (d', f)). rewrite Hrefs, (references_identity d (kv_map t)) in Er by done. specialize (Er Href).
    by apply bool_decide_eq_false in Er.
Qed.

End drop_laws.
