(* ===== verification/DdlTable.v ===== *)
(** * Creating, dropping and renaming tables

    [ddl.go]'s [CreateTable], [CreateTableWithChecks], [DropTable] and
    [RenameTable]. The three share the relation namespace with sequences
    ([seqobj.go]) and views ([view.go]). *)
From S2P Require Import Prelude GoVal GoStr Tuple KV Json Time Jsonb Types Catalog Desc Rows Default Pairs Index Table Seq Upkeep Dml Relation Engine Store Database Ddl DdlColumn DdlAddDrop.

Local Open Scope Z_scope.

Definition errTableName : error := ENew (go "table name is required").
Definition errNoColumns : error := ENew (go "at least one column is required").
Definition errNoPK : error := ENew (go "a primary key is required").
Definition errDupCheck : error := ENew (go "duplicate check constraint name").
Definition errDupColumn : error := ENew (go "duplicate column").
Definition errPKUndeclared : error := ENew (go "primary key column not declared").
Definition errDupPKColumn : error := ENew (go "duplicate primary key column").
Definition errTableExists : error := ENew (go "table already exists").
Definition errRelationExists (name : bytes) : error := ENew (go "relation " ++ quoted name ++ go " already exists").
Definition errDependents (name : bytes) : error :=
  ENew (go "cannot drop table " ++ quoted name ++ go " because other objects depend on it").
Definition errNewTableName : error := ENew (go "new table name is required").
Definition errRenameTable : error := ENew (go "cannot rename a table referenced by a foreign key").

Fixpoint checkChecks (seen : gset bytes) (checks : list CheckDesc) : outcome unit :=
  match checks with
  | [] => Ok tt
  | ck :: checks' =>
      if bool_decide (chkName ck = []) then Err errCheckName
      else if bool_decide (chkName ck ∈ seen) then Err errDupCheck
      else checkChecks ({[chkName ck]} ∪ seen) checks'
  end.
Fixpoint checkColumns (seen : gset bytes) (cols : list Column) : outcome unit :=
  match cols with
  | [] => Ok tt
  | c :: cols' =>
      if bool_decide (colName c = []) then Err errColumnName
      else if bool_decide (colName c ∈ seen) then Err errDupColumn
      else if negb (validType (colType c)) then Err errColumnType
      else if colIdentity c && bool_decide (colType c <> TInt) then Err errIdentityType
      else
        _ ← validMaxLen c;
        checkColumns ({[colName c]} ∪ seen) cols'
  end.
(** [for i := range desc.Columns { desc.Columns[i].ID = uint32(i + 1) }] *)
Definition numberColumns (cols : list Column) : list Column := imap (λ i c, col_id (uint32 (Z.of_nat i + 1)) c) cols.
Fixpoint resolvePK (d : TableDesc) (pk : list bytes) (acc : list nat) : outcome (list nat) :=
  match pk with
  | [] => Ok acc
  | p :: pk' =>
      match ColIndex d p with
      | None => Err errPKUndeclared
      | Some ord => if bool_decide (ord ∈ acc) then Err errDupPKColumn else resolvePK d pk' (acc ++ [ord])
      end
  end.

(** The descriptor as built before the transaction; its ID is not known yet. *)
Definition newDesc (name : bytes) (cols : list Column) (checks : list CheckDesc) (pk : list bytes) : outcome TableDesc :=
  if bool_decide (name = []) then Err errTableName
  else if bool_decide (cols = []) then Err errNoColumns
  else if bool_decide (pk = []) then Err errNoPK
  else
    _ ← checkChecks ∅ checks;
    _ ← checkColumns ∅ cols;
    let desc := mkTable 0 0 name (numberColumns cols) [] [] checks [] (uint32 (Z.of_nat (length cols) + 1)) None in
    pkCols ← resolvePK desc pk [];
    Ok (mkTable 0 0 name (tColumns desc) pkCols [] checks [] (tNextColID desc) None).

Definition with_id (d : TableDesc) (id : Z) : TableDesc :=
  mkTable (tFormatVersion d) id (tName d) (tColumns d) (tPKCols d) (tIndexes d) (tChecks d) (tForeignKeys d) (tNextColID d) (tOrdByID d).

Section tables.
Context {E S : Type} {eng : EngineOps E} {grd : Guarded E} {cs : CatState E} {al : Allocators E} {tx : Type} {kv : KV tx} {db : DB E S tx}.

(** The descriptor is stamped with the format version when it is written. *)
Definition CreateTableIn (name : bytes) (desc : TableDesc) : M (E * tx) TableDesc :=
  exists_ ← onTx (gets (kv_contains (descKey name)));
  if (exists_ : bool) then fail errTableExists
  else
    taken ← onTx (gets (λ t, kv_contains (sqlSeqKey name) t || kv_contains (viewKey name) t));
    if (taken : bool) then fail (errRelationExists name)
    else
      next ← onTx (nextFromCounter seqKey firstUserTableID);
      let desc := with_id desc next in
      _ ← writeDescIn name desc;
      mret (stamp desc).
Definition CreateTableWithChecks (name : bytes) (cols : list Column) (checks : list CheckDesc) (pk : list bytes) : M (E * S) TableDesc :=
  desc ← lift (newDesc name cols checks pk);
  updateDDL' (CreateTableIn name desc).
Definition CreateTable (name : bytes) (cols : list Column) (pk : list bytes) : M (E * S) TableDesc :=
  CreateTableWithChecks name cols [] pk.

(** [droppedID], the variable the closure leaves the ID in, is the result. *)
Definition DropTableIn (name : bytes) : M (E * tx) Z :=
  desc ← descFromView name;
  refs ← referencingFKs name true;
  match refs with
  | _ :: _ => fail (errDependents name)
  | [] =>
      let prefix := tableSpace (tID desc) in
      _ ← onTx (kv_delete_range prefix (prefixEnd prefix));
      let idPrefix := identitySeqTablePrefix (tID desc) in
      _ ← onTx (kv_delete_range idPrefix (prefixEnd idPrefix));
      _ ← onTx (kv_delete (descKey name));
      mret (tID desc)
  end.
Definition DropTable (name : bytes) : M (E * S) unit :=
  droppedID ← updateDDL' (DropTableIn name);
  _ ← onE (modify (e_invalidateCounterPrefix (identitySeqTablePrefix droppedID)));
  cacheEvict name.

(** The table under its new name; its references to itself follow. *)
Definition renamed (d : TableDesc) (oldName newName : bytes) : TableDesc :=
  mkTable (tFormatVersion d) (tID d) newName (tColumns d) (tPKCols d) (tIndexes d) (tChecks d)
    ((λ f, mkFK (fkName f) (fkCols f) (if decide (fkRefTable f = oldName) then newName else fkRefTable f) (fkRefCols f) (fkOnDelete f))
      <$> tForeignKeys d) (tNextColID d) None.
Definition RenameTableIn (oldName newName : bytes) : M (E * tx) unit :=
  desc ← descFromView oldName;
  taken ← onTx (gets (λ t, kv_contains (descKey newName) t || kv_contains (sqlSeqKey newName) t || kv_contains (viewKey newName) t));
  if (taken : bool) then fail (errRelationExists newName)
  else
    refs ← referencingFKs oldName true;
    match refs with
    | _ :: _ => fail errRenameTable
    | [] =>
        _ ← onTx (kv_delete (descKey oldName));
        writeDescIn newName (renamed desc oldName newName)
    end.
Definition RenameTable (oldName newName : bytes) : M (E * S) unit :=
  if bool_decide (newName = []) then fail errNewTableName
  else
    _ ← updateDDL' (RenameTableIn oldName newName);
    cacheEvict oldName.

End tables.

(** ** A table created *)

Lemma table_ok_empty d m : space_empty m (tID d) -> table_ok d m /\ abstracts d m ∅.
Proof.
  intros He. assert (forall row, ~ stored d m row) as Hno.
  { intros row (_ & v & Hv & _). rewrite He in Hv; [done|]. eapply indexPrefix_space, row_key_prefix. }
  split; [split; [split|..]|].
  - intros k v Hk Hp. rewrite He in Hk; [done|]. by eapply indexPrefix_space.
  - intros idx k v _ Hp. rewrite He by (by eapply indexPrefix_space). split; [done|]. intros (row & Hst & _). by destruct (Hno row).
  - intros k v Hk Hp. rewrite He in Hk; [done|]. by eapply indexPrefix_space.
  - intros k [v Hv] Hp. by rewrite He in Hv.
  - split; [|by intros pk row; rewrite lookup_empty]. intros row. rewrite lookup_empty. split; [|done]. intros Hst. by destruct (Hno row).
Qed.

Section create.
Context (m : kvmap) (name : bytes) (d : TableDesc) (Hi : db_inv m).
Hypothesis Hfree : m !! descKey name = None.
Hypothesis Hname : tName d = name.
Hypothesis Hw : cat_wf d.
Hypothesis Hpos : position seqKey firstUserTableID m = Ok (tID d).
Hypothesis Hmax : tID d <> maxUint64.

Let m' := <[descKey name := marshalDesc d]> (<[seqKey := be64 (tID d + 1)]> m).

Lemma created_lookup k : k <> descKey name -> k <> seqKey -> m' !! k = m !! k.
Proof. intros H1 H2. unfold m'. by rewrite !lookup_insert_ne. Qed.
Lemma created_space id k : user id -> tableSpace id `prefix_of` k -> m' !! k = m !! k.
Proof.
  intros Hid Hk. apply created_lookup; [by eapply space_not_descKey|]. intros ->.
  by apply (user_not_sys id sysIDSeqTableID seqKey); [..|apply seqKey_space].
Qed.
Lemma created_empty : space_empty m' (tID d).
Proof.
  intros k Hk. rewrite (created_space (tID d)); [|by apply cat_wf_user|done].
  destruct (db_next m Hi) as (next & Hp & Hge & He). rewrite Hpos in Hp. injection Hp as <-.
  apply (He (tID d)); [|done]. pose proof (cat_wf_user d Hw) as []. lia.
Qed.

Lemma created_update : update (tID d) [name] m m'.
Proof.
  pose proof (cat_wf_user d Hw) as Hu. destruct (published_fields d) as (_ & Epid & Epn & _).
  assert (m' !! descKey name = Some (marshalDesc d)) as Hnew by apply lookup_insert_eq.
  assert (forall n d1, table_at m n d1 -> n <> name /\ tID d1 <> tID d) as Hold.
  { intros n d1 H1. split.
    - intros ->. unfold table_at, resolve in H1. by rewrite Hfree in H1.
    - pose proof (db_allocated m Hi n d1 (tID d) H1 Hpos). lia. }
  split.
  - intros k Hk Hn. apply created_lookup; [set_solver|]. intros ->.
    apply (space_other sysDescTableID sysIDSeqTableID seqKey); [done..|apply seqKey_space|by apply descTablePrefix_space].
  - intros id' k Hu' Hne Hk. by apply (created_space id').
  - intros n d1 H1. destruct (Hold n d1 H1). set_solver.
  - intros n v ->%list_elem_of_singleton Hv. rewrite Hnew in Hv. injection Hv as <-. exists (published d).
    destruct (table_ok_empty (published d) m') as (H1 & _); [rewrite Epid; apply created_empty|].
    split_and!; try done; [by apply parse_published|congruence|by apply cat_wf_published].
  - set_solver.
  - intros k v Hk Hp. exists name. split; [by left|]. by rewrite Hnew.
  - exists (tID d), (tID d + 1). split_and!; [done| |lia|lia]. unfold position, m'.
    rewrite lookup_insert_ne by (apply not_eq_sym, seqKey_not_descKey). rewrite lookup_insert_eq. apply readCounter_be64.
    unfold user, uint64_ok, maxUint64, firstUserTableID in *. lia.
Qed.

Lemma created_table : db_inv m' /\ table_at m' name (published d) /\ abstracts (published d) m' ∅ /\ others name m m'.
Proof.
  pose proof created_update as Hup. destruct (published_fields d) as (_ & Epid & _ & _). split_and!.
  - by apply (db_inv_update (tID d) [name] m).
  - apply table_at_blob; [done|]. apply lookup_insert_eq.
  - apply table_ok_empty. rewrite Epid. apply created_empty.
  - split; [intros n d1 Hn; apply (update_others (tID d) [name] m m' Hi Hup); set_solver|].
    intros k Hk. apply created_lookup; [by apply record_not_desc|by apply record_not_seqKey].
Qed.
End create.

(** The loops accept distinct names, and columns the catalog can hold. *)
Lemma checkColumns_ok seen cols : checkColumns seen cols = Ok tt ->
  NoDup (colName <$> cols) /\ Forall (λ c, colName c ∉ seen) cols /\
  Forall (λ c, colName c <> [] /\ colType c ∈ knownTypes /\ (colIdentity c = true -> colType c = TInt) /\ maxlen_ok c) cols.
Proof.
  revert seen. induction cols as [|c cols IH]; intros seen; cbn [checkColumns]; [intros _; split_and!; constructor|].
  case_bool_decide as Hn; [done|]. case_bool_decide as Hs; [done|]. destruct (validType (colType c)) eqn:Ht; [|done]. cbn [negb].
  destruct (colIdentity c && bool_decide (colType c <> TInt)) eqn:Ei; [done|].
  intros ([] & Hm & (H1 & H2 & H3)%IH)%outcome_bind_ok. rewrite Forall_forall in H2. split_and!.
  - csimpl. apply NoDup_cons. split; [|done]. intros (c' & E & Hc')%list_elem_of_fmap. specialize (H2 c' Hc'). set_solver.
  - constructor; [done|]. apply Forall_forall. intros c' Hc'. specialize (H2 c' Hc'). set_solver.
  - constructor; [|done]. split_and!; [done| | |by apply validMaxLen_ok].
    + by apply bool_decide_eq_true in Ht.
    + intros E. rewrite E in Ei. cbn in Ei. apply bool_decide_eq_false in Ei. by destruct (decide (colType c = TInt)).
Qed.

Lemma resolvePK_ok d pk acc l : resolvePK d pk acc = Ok l -> NoDup acc -> Forall (λ o, o < length (tColumns d))%nat acc ->
  exists l', l = acc ++ l' /\ NoDup l /\ Forall (λ o, o < length (tColumns d))%nat l /\
    Forall2 (λ o n, exists c, tColumns d !! o = Some c /\ colName c = n) l' pk.
Proof.
  revert acc. induction pk as [|p pk IH]; intros acc; cbn [resolvePK].
  { intros [= <-] Hnd Hr. exists []. rewrite app_nil_r. by split_and!. }
  destruct (ColIndex d p) as [ord|] eqn:Ei; [|done]. case_bool_decide as Hin; [done|]. intros H Hnd Hr.
  destruct (ColIndex_Some d _ _ Ei) as (c & Hc & Hp).
  destruct (IH _ H) as (l' & -> & H1 & H2 & H3).
  - apply NoDup_app. split_and!; [done| |apply NoDup_singleton]. set_solver.
  - apply Forall_app. split; [done|]. repeat constructor. by eapply lookup_lt_Some.
  - exists (ord :: l'). rewrite <- app_assoc in *. split_and!; [done..|]. constructor; [by exists c|done].
Qed.

Lemma numberColumns_lookup cols i : numberColumns cols !! i = col_id (uint32 (Z.of_nat i + 1)) <$> cols !! i.
Proof. unfold numberColumns. by rewrite list_lookup_imap. Qed.
Lemma numberColumns_names cols : colName <$> numberColumns cols = colName <$> cols.
Proof. apply list_eq. intros i. rewrite !list_lookup_fmap, numberColumns_lookup. by destruct (cols !! i). Qed.
Lemma numberColumns_Forall (P Q : Column -> Prop) cols : Forall P cols ->
  (forall c i, (i < length cols)%nat -> P c -> Q (col_id (uint32 (Z.of_nat i + 1)) c)) -> Forall Q (numberColumns cols).
Proof.
  intros HP HQ. apply Forall_lookup. intros i c. rewrite numberColumns_lookup. intros (c' & Hc' & ->)%fmap_Some.
  apply HQ; [by eapply lookup_lt_Some|]. by eapply Forall_lookup_1 in HP.
Qed.

(** A descriptor [newDesc] builds is one the catalog can hold. *)
Lemma newDesc_ok name cols checks pk d id : newDesc name cols checks pk = Ok d -> user id -> clean name = name ->
  Forall (λ c, int64_ok (colMaxLen c) /\ cleanColumn c = c) cols -> Forall (λ c, cleanCheck c = c) checks ->
  Z.of_nat (length cols) + 1 < 2 ^ 32 ->
  cat_wf (with_id d id) /\ tName d = name /\ tChecks d = checks /\
  Forall2 (λ o n, exists c, tColumns d !! o = Some c /\ colName c = n) (tPKCols d) pk /\ tColumns d = numberColumns cols.
Proof.
  intros H Hid Hname Hcols Hchecks Hlen. unfold newDesc in H.
  case_bool_decide; [done|]. case_bool_decide; [done|]. case_bool_decide as Hpk; [done|].
  apply outcome_bind_ok in H as ([] & Hck & H). apply outcome_bind_ok in H as ([] & Hco & H).
  apply outcome_bind_ok in H as (pkCols & Hres & [= <-]).
  destruct (checkColumns_ok _ _ Hco) as (Hnd & _ & Hok). apply resolvePK_ok in Hres as (l' & -> & Hpnd & Hpr & Hpk2); [|constructor..].
  cbn [tColumns app] in Hpk2, Hpr, Hpnd. change ([] ++ l') with l' in *.
  assert (length (numberColumns cols) = length cols) as Hl by (unfold numberColumns; apply length_imap).
  assert (forall i, (i < length cols)%nat -> uint32 (Z.of_nat i + 1) = Z.of_nat i + 1) as Hu32.
  { intros i Hi. unfold uint32. apply Z.mod_small. lia. }
  assert (uint32 (Z.of_nat (length cols) + 1) = Z.of_nat (length cols) + 1) as Hnx by (unfold uint32; apply Z.mod_small; lia).
  split; [|done]. split; cbn; rewrite ?Hnx.
  - split; cbn; try done; try (by constructor).
    + apply NoDup_alt. intros i j x. rewrite !list_lookup_fmap, !numberColumns_lookup.
      destruct (cols !! i) eqn:Ei, (cols !! j) eqn:Ej; try done. cbn. intros [= <-] [= E].
      apply lookup_lt_Some in Ei, Ej. rewrite !Hu32 in E by done. lia.
    + eapply numberColumns_Forall; [exact Hok|]. intros c i Hi _. cbn. rewrite Hu32 by done. unfold uint32_ok. lia.
    + by rewrite numberColumns_names.
    + intros ->. by apply Forall2_nil_inv_l in Hpk2.
    + eapply numberColumns_Forall; [exact Hok|]. intros c i _ (_ & _ & _ & Hm). done.
  - split; cbn; rewrite ?Hnx; try done; try (by constructor).
    + unfold user, uint64_ok, firstUserTableID in *. lia.
    + unfold uint32_ok. lia.
    + eapply numberColumns_Forall; [exact Hcols|]. intros c i Hi [Hm _]. cbn. rewrite Hu32 by done. split; [unfold uint32_ok; lia|done].
    + eapply Forall_impl; [exact Hpr|]. intros o. cbn. rewrite Hl. unfold maxInt64. lia.
  - split_and!; cbn; try done; try (by constructor). eapply numberColumns_Forall; [exact Hcols|]. intros c i _ [_ Hc]. by apply clean_id.
  - eapply numberColumns_Forall; [exact Hok|]. intros c i Hi _. cbn. rewrite Hu32 by done. lia.
  - eapply numberColumns_Forall; [exact Hok|]. by intros c i _ (_ & Ht & _).
  - eapply numberColumns_Forall; [exact Hok|]. by intros c i _ (_ & _ & Hi & _).
  - constructor.
  - constructor.
Qed.

(** ** A table dropped *)

Lemma lookup_outside (m : kvmap) lo hi k :
  filter (λ p, outside lo hi p.1) m !! k = if decide (ble lo k /\ blt k hi) then None else m !! k.
Proof.
  destruct (m !! k) as [v|] eqn:Ek.
  - case_decide as H; [by apply map_lookup_filter_None_2; right; intros x Hx Ho; cbn in Ho|].
    by apply map_lookup_filter_Some_2.
  - rewrite map_lookup_filter_None_2 by (by left). by case_decide.
Qed.
Lemma lookup_filtered (m : kvmap) p k : (ble p k /\ blt k (prefixEnd p)) <-> p `prefix_of` k ->
  filter (λ q, outside p (prefixEnd p) q.1) m !! k = if decide (p `prefix_of` k) then None else m !! k.
Proof. intros H. rewrite lookup_outside. by rewrite (decide_ext _ _ _ _ H). Qed.

Lemma dropped_table m m' name d : db_inv m -> table_at m name d -> frame name (tID d) m m' ->
  m' !! descKey name = None -> space_empty m' (tID d) ->
  db_inv m' /\ resolve m' name = Ok None /\ others name m m'.
Proof.
  intros Hi Hat Hf Hn He. destruct (table_at_wf m name d Hi Hat) as [Hnm Hwd]. pose proof (cat_wf_user d Hwd) as Hu.
  assert (update (tID d) [name] m m') as Hup.
  { split.
    - intros k Hk Hk'. apply (frame_desc name (tID d) m m' Hu Hf); [by apply descTablePrefix_space|set_solver].
    - intros id' k Hu' Hne Hk. by apply (frame_space name (tID d) m m' Hu Hf id').
    - intros n d1 H1. rewrite list_elem_of_singleton. split; [intros ->; unfold table_at in *; congruence|].
      intros E. by apply (db_ids m Hi n name d1 d).
    - intros n v ->%list_elem_of_singleton Hv. congruence.
    - set_solver.
    - intros k v Hk Hp. by rewrite He in Hk.
    - destruct (db_next m Hi) as (next & Hp & _). exists next, next. rewrite (frame_position name (tID d) m m' Hu Hf).
      split_and!; [done..|lia|]. by apply (db_allocated m Hi name d). }
  split_and!.
  - by apply (db_inv_update (tID d) [name] m).
  - unfold resolve. by rewrite Hn.
  - split; [intros n d1 Hn'; apply (update_others (tID d) [name] m m' Hi Hup); set_solver|]. by eapply frame_records.
Qed.

(** ** A table renamed *)

Lemma layout_renamed d old new : cat_wf d -> layout d (renamed d old new).
Proof. intros [W _ _ _ _ _ _ _]. split; try done. destruct W. split; cbn; try done. by left. Qed.
Lemma cat_wf_renamed d old new : cat_wf d -> clean new = new -> cat_wf (renamed d old new).
Proof.
  intros [W R U N T I X F] Hc. split; cbn; try done.
  - destruct W. split; cbn; try done. by left.
  - destruct R. split; cbn; try done. by apply Forall_fmap.
  - destruct U as (U1 & U2 & U3 & U4 & U5). split_and!; cbn; try done.
    apply Forall_fmap. eapply Forall_impl; [exact U5|]. intros f (H1 & H2 & H3 & H4)%clean_fk. apply clean_fk. cbn.
    by case_decide.
  - by apply Forall_fmap.
Qed.

Lemma renamed_table m old new d : db_inv m -> table_at m old d -> m !! descKey new = None -> clean new = new ->
  let d0 := renamed d old new in
  let m' := <[descKey new := marshalDesc d0]> (delete (descKey old) m) in
  db_inv m' /\ resolve m' old = Ok None /\ table_at m' new (published d0) /\
  (forall T, abstracts d m T -> abstracts (published d0) m' T) /\
  (forall n d1, n <> old -> n <> new -> (table_at m' n d1 <-> table_at m n d1) /\
    (table_at m n d1 -> forall T, abstracts d1 m T -> abstracts d1 m' T)) /\ records_kept m m'.
Proof.
  intros Hi Hat Hfree Hc d0 m'. destruct (table_at_wf m old d Hi Hat) as [Hnm Hwd]. pose proof (cat_wf_user d Hwd) as Hu.
  pose proof (db_table m Hi old d Hat) as Hok. pose proof (cat_wf_renamed d old new Hwd Hc) as Hw0.
  assert (old <> new) as Hne by (intros ->; unfold table_at, resolve in Hat; by rewrite Hfree in Hat).
  assert (m' !! descKey old = None) as Hold.
  { unfold m'. rewrite lookup_insert_ne by (by intros E%(inj descKey)). apply lookup_delete_eq. }
  assert (m' !! descKey new = Some (marshalDesc d0)) as Hnew by apply lookup_insert_eq.
  assert (forall k, k <> descKey old -> k <> descKey new -> m' !! k = m !! k) as Hk.
  { intros k H1 H2. unfold m'. by rewrite lookup_insert_ne, lookup_delete_ne. }
  assert (forall id k, user id -> tableSpace id `prefix_of` k -> m !! k = m' !! k) as Hsp.
  { intros id k Hid Hp. symmetry. apply Hk; by eapply space_not_descKey. }
  assert (table_ok d0 m') as Hok0.
  { apply (table_ok_space m); [intros k Hp; symmetry; by eapply Hsp|].
    eapply layout_table_ok; [by apply layout_renamed|done|done| |done]. intros row Hst. by apply (stored_ok d m row). }
  assert (update (tID d) [old; new] m m') as Hup.
  { destruct (published_fields d0) as (_ & Epid & Epn & _). split.
    - intros k _ Hn. apply Hk; set_solver.
    - intros id' k Hu' _ Hp. symmetry. by apply (Hsp id').
    - intros n d1 H1. split.
      + intros [->|Hn]%elem_of_cons; [unfold table_at in *; congruence|]. apply list_elem_of_singleton in Hn as ->.
        unfold table_at, resolve in H1. by rewrite Hfree in H1.
      + intros E. rewrite (db_ids m Hi n old d1 d H1 Hat E). by left.
    - intros n v [->|Hn]%elem_of_cons Hv; [congruence|]. apply list_elem_of_singleton in Hn as ->.
      rewrite Hnew in Hv. injection Hv as <-. exists (published d0).
      split_and!; [by apply parse_published|done|by apply cat_wf_published|done|by apply published_ok].
    - intros n1 n2 H1 H2 [v1 S1] [v2 S2]. set_unfold. destruct H1 as [->|[->|[]]], H2 as [->|[->|[]]]; congruence.
    - intros k v _ _. exists new. split; [set_solver|]. by rewrite Hnew.
    - destruct (db_next m Hi) as (next & Hp & _). exists next, next. split_and!; [done| |lia|by apply (db_allocated m Hi old d)].
      unfold position in *. rewrite Hk; [done|apply seqKey_not_descKey..]. }
  split_and!.
  - by apply (db_inv_update (tID d) [old; new] m).
  - unfold resolve. by rewrite Hold.
  - by apply table_at_blob.
  - intros T HT. apply published_layout_abstracts; [done|apply Hok0|]. eapply abstracts_ext; [intros k; by apply (Hsp (tID d))|].
    eapply layout_abstracts; [by apply layout_renamed|apply Hok| |done]. intros row Hst. by apply (stored_ok d m row).
  - intros n d1 H1 H2. apply (update_others (tID d) [old; new] m m' Hi Hup). set_solver.
  - intros k Hrec. apply Hk; by apply record_not_desc.
Qed.

(** ** The statements *)

Section laws.
Context {E : Type} {eng : EngineOps E} {cs : CatState E} {cat_laws : CatLaws E}.
Context {tx : Type} {kv : KV tx} {kv_laws : KVLaws tx}.

Lemma CreateTableIn_wp (name : bytes) (d : TableDesc) (e : E) (t : tx) : ready e t -> tName d = name ->
  (forall id, user id -> cat_wf (with_id d id)) ->
  wp (CreateTableIn name d) (ddl e (λ d1 m', exists id, d1 = stamp (with_id d id) /\ position seqKey firstUserTableID (kv_map t) = Ok id /\
    resolve (kv_map t) name = Ok None /\ (kv_map t !! sqlSeqKey name = None /\ kv_map t !! viewKey name = None) /\
    table_at m' name (published (with_id d id)) /\ abstracts (published (with_id d id)) m' ∅ /\ others name (kv_map t) m')) (e, t).
Proof.
  intros Hr Hn Hw. unfold CreateTableIn. apply wp_bind, wp_onTx, wp_gets. cbn [seqQ].
  destruct (kv_contains (descKey name) t) eqn:E1; [by apply wp_fail|]. apply kv_contains_false in E1.
  apply wp_bind, wp_onTx, wp_gets. cbn [seqQ].
  destruct (kv_contains (sqlSeqKey name) t) eqn:E2; [by apply wp_fail|]. apply kv_contains_false in E2.
  destruct (kv_contains (viewKey name) t) eqn:E3; [by apply wp_fail|]. apply kv_contains_false in E3. cbn [orb].
  apply wp_bind, wp_onTx. eapply wp_mono; [apply wp_nextFromCounter|].
  intros [id|er|p] t1 H; cbn [seqQ]; [|by apply ddl_err|done]. destruct H as (Hwr & Hpos & Hmax & Hws). cbv zeta.
  assert (user id) as Hid.
  { destruct (db_next _ (rd_db _ _ Hr)) as (next & Hp & Hge & _). rewrite Hpos in Hp. injection Hp as <-.
    apply position_range in Hpos; [|done]. unfold user, uint64_ok in *. lia. }
  unfold writeDescIn. apply wp_bind, wp_onTx, wp_set. rewrite (writes_writable _ _ _ Hws), Hwr. intros t2 Hws2. cbn [seqQ].
  apply wp_ret. split; [done|]. cbn [snd]. rewrite (writes_map _ _ _ Hws2), (writes_map _ _ _ Hws).
  destruct (created_table (kv_map t) name (with_id d id) (rd_db _ _ Hr) E1 Hn (Hw id Hid) Hpos Hmax) as (Hdb & Hat & Hab & Ho).
  split; [done|]. exists id. split_and!; try done. unfold resolve. by rewrite E1.
Qed.

Lemma DropTableIn_wp (name : bytes) (e : E) (t : tx) : ready e t ->
  wp (DropTableIn name) (ddl e (λ id m', exists d, table_at (kv_map t) name d /\ id = tID d /\
    (forall d' f, ~ references (kv_map t) name true d' f) /\
    resolve m' name = Ok None /\ others name (kv_map t) m' /\ space_empty m' id /\
    forall k, identitySeqTablePrefix id `prefix_of` k -> m' !! k = None)) (e, t).
Proof.
  intros Hr. unfold DropTableIn. apply wp_bind, wp_descFromView_ready; [done| |intros; by apply ddl_err].
  intros d e1 He1 Hat Hnm Hw. cbn [seqQ]. apply wp_bind, referencingFKs_wp; [by eapply ready_cached|].
  intros refs e2 He2 Hrefs. cbn [seqQ]. assert (cached e e2) as He by (by etransitivity).
  destruct refs as [|r refs]; [|by apply wp_fail, ddl_err].
  cbv zeta. apply wp_bind, wp_onTx, wp_delete_range. rewrite (rd_writable _ _ Hr). intros t1 H1. cbn [seqQ].
  apply wp_bind, wp_onTx, wp_delete_range. rewrite (writes_writable _ _ _ H1), (rd_writable _ _ Hr). intros t2 H2. cbn [seqQ].
  apply wp_bind, wp_onTx, wp_delete. rewrite (writes_writable _ _ _ H2), (writes_writable _ _ _ H1), (rd_writable _ _ Hr).
  intros t3 H3. cbn [seqQ]. apply wp_ret. split; [done|]. cbn [snd].
  set (m' := kv_map t3). assert (forall k, m' !! k = if decide (k = descKey name \/ identitySeqTablePrefix (tID d) `prefix_of` k \/
    tableSpace (tID d) `prefix_of` k) then None else kv_map t !! k) as Hm.
  { intros k. unfold m'. rewrite (writes_map _ _ _ H3), (writes_map _ _ _ H2), (writes_map _ _ _ H1).
    rewrite lookup_delete, lookup_filtered by apply identitySeqTablePrefix_interval.
    rewrite lookup_filtered by apply tableSpace_interval. repeat case_decide; naive_solver. }
  destruct (dropped_table (kv_map t) m' name d) as (Hdb & Hno & Ho); [apply Hr|done|..].
  - intros k K1 K2 K3. rewrite Hm. rewrite decide_False; [done|]. intros [?|[?|?]]; done.
  - rewrite Hm, decide_True; [done|by left].
  - intros k Hk. rewrite Hm, decide_True; [done|by right; right].
  - split; [done|]. exists d. split_and!; try done.
    + intros d' f Href. apply Hrefs in Href. by apply elem_of_nil in Href.
    + intros k Hk. rewrite Hm, decide_True; [done|by right; right].
    + intros k Hk. rewrite Hm, decide_True; [done|by right; left].
Qed.

Lemma RenameTableIn_wp (oldName newName : bytes) (e : E) (t : tx) : ready e t -> clean newName = newName ->
  wp (RenameTableIn oldName newName) (ddl e (λ _ m', exists d, let d0 := renamed d oldName newName in
    table_at (kv_map t) oldName d /\ (forall d' f, ~ references (kv_map t) oldName true d' f) /\
    (kv_map t !! descKey newName = None /\ kv_map t !! sqlSeqKey newName = None /\ kv_map t !! viewKey newName = None) /\
    resolve m' oldName = Ok None /\ table_at m' newName (published d0) /\
    (forall T, abstracts d (kv_map t) T -> abstracts (published d0) m' T) /\
    (forall n d1, n <> oldName -> n <> newName -> (table_at m' n d1 <-> table_at (kv_map t) n d1) /\
      (table_at (kv_map t) n d1 -> forall T, abstracts d1 (kv_map t) T -> abstracts d1 m' T)) /\ records_kept (kv_map t) m')) (e, t).
Proof.
  intros Hr Hc. unfold RenameTableIn. apply wp_bind, wp_descFromView_ready; [done| |intros; by apply ddl_err].
  intros d e1 He1 Hat Hnm Hw. cbn [seqQ]. apply wp_bind, wp_onTx, wp_gets. cbn [seqQ].
  destruct (kv_contains (descKey newName) t) eqn:E1; [by apply wp_fail, ddl_err|]. apply kv_contains_false in E1.
  destruct (kv_contains (sqlSeqKey newName) t) eqn:E2; [by apply wp_fail, ddl_err|]. apply kv_contains_false in E2.
  destruct (kv_contains (viewKey newName) t) eqn:E3; [by apply wp_fail, ddl_err|]. apply kv_contains_false in E3. cbn [orb].
  apply wp_bind, referencingFKs_wp; [by eapply ready_cached|].
  intros refs e2 He2 Hrefs. cbn [seqQ]. assert (cached e e2) as He by (by etransitivity).
  destruct refs as [|r refs]; [|by apply wp_fail, ddl_err].
  apply wp_bind, wp_onTx, wp_delete. rewrite (rd_writable _ _ Hr). intros t1 H1. cbn [seqQ].
  unfold writeDescIn. apply wp_onTx, wp_set. rewrite (writes_writable _ _ _ H1), (rd_writable _ _ Hr). intros t2 H2.
  split; [done|]. cbn [snd]. rewrite (writes_map _ _ _ H2), (writes_map _ _ _ H1).
  destruct (renamed_table (kv_map t) oldName newName d (rd_db _ _ Hr) Hat E1 Hc) as (Hdb & H).
  split; [done|]. exists d. split; [done|]. split; [|done].
  intros d' f Href. apply Hrefs in Href. by apply elem_of_nil in Href.
Qed.

End laws.
