(* ===== verification/SeqObj.v ===== *)
(** * Sequence objects

    [seqobj.go]: a CREATE SEQUENCE object is one JSON record holding its
    options and its position; and the part of [sql/sequence.go] that turns
    the options of CREATE and ALTER SEQUENCE into the record. The drawing
    rule [stepSeq] works on [int64] with wrap-around. *)
From S2P Require Import Prelude GoVal GoStr Tuple KV Json Catalog Desc Seq Dml Relation Engine Store Database Ddl DdlTable.

Local Open Scope Z_scope.

Record SeqDesc := mkSeq {
  sqFormatVersion : Z;
  sqID : Z;
  sqName : bytes;
  sqType : bytes;
  sqStart : Z;
  sqIncrement : Z;
  sqMin : Z;
  sqMax : Z;
  sqCycle : bool;
  sqCache : Z;
  sqLast : Z;
  sqCalled : bool;
}.
#[export] Instance SeqDesc_eq_dec : EqDecision SeqDesc.
Proof. solve_decision. Defined.

Definition sq_at (last : Z) (called : bool) (d : SeqDesc) : SeqDesc :=
  mkSeq (sqFormatVersion d) (sqID d) (sqName d) (sqType d) (sqStart d) (sqIncrement d) (sqMin d) (sqMax d) (sqCycle d) (sqCache d) last called.
Definition sq_version (v : Z) (d : SeqDesc) : SeqDesc :=
  mkSeq v (sqID d) (sqName d) (sqType d) (sqStart d) (sqIncrement d) (sqMin d) (sqMax d) (sqCycle d) (sqCache d) (sqLast d) (sqCalled d).
Definition sq_id (id : Z) (d : SeqDesc) : SeqDesc :=
  mkSeq (sqFormatVersion d) id (sqName d) (sqType d) (sqStart d) (sqIncrement d) (sqMin d) (sqMax d) (sqCycle d) (sqCache d) (sqLast d) (sqCalled d).

(** ** The record *)

Definition seqJSON (d : SeqDesc) : json :=
  JObj (omit (sqFormatVersion d =? 0) (go "format_version") (jint (sqFormatVersion d))
    ++ [(go "id", jint (sqID d)); (go "name", JStr (sqName d))]
    ++ omit (isEmpty (sqType d)) (go "type") (JStr (sqType d))
    ++ [(go "start", jint (sqStart d)); (go "increment", jint (sqIncrement d)); (go "min", jint (sqMin d)); (go "max", jint (sqMax d))]
    ++ omit (negb (sqCycle d)) (go "cycle") (JBool (sqCycle d))
    ++ [(go "cache", jint (sqCache d)); (go "last", jint (sqLast d)); (go "called", JBool (sqCalled d))]).
Definition decSeq : json -> option SeqDesc := decObj (λ m,
  ver ← decUint32 (field m (go "format_version")); id ← decUint64 (field m (go "id")); name ← decStr (field m (go "name"));
  type ← decStr (field m (go "type")); start ← decLen (field m (go "start")); inc ← decLen (field m (go "increment"));
  min ← decLen (field m (go "min")); max ← decLen (field m (go "max")); cycle ← decBool (field m (go "cycle"));
  cache ← decLen (field m (go "cache")); last ← decLen (field m (go "last")); called ← decBool (field m (go "called"));
  Some (mkSeq ver id name type start inc min max cycle cache last called)).

(** [json.Marshal] and [json.Unmarshal] of the record *)
Definition marshalSeq (d : SeqDesc) : bytes := printJSON true (seqJSON d).
Definition unmarshalSeq (raw : bytes) : outcome SeqDesc :=
  match parseJSON raw ≫= decSeq with Some d => Ok d | None => Err EJson end.

Definition errIncrement : error := ENew (go "INCREMENT must not be zero").
Definition errMinMax (d : SeqDesc) : error :=
  ENew (go "MINVALUE (" ++ fmtInt (sqMin d) ++ go ") must be less than MAXVALUE (" ++ fmtInt (sqMax d) ++ go ")").
Definition errStartMin (d : SeqDesc) : error :=
  ENew (go "START value (" ++ fmtInt (sqStart d) ++ go ") cannot be less than MINVALUE (" ++ fmtInt (sqMin d) ++ go ")").
Definition errStartMax (d : SeqDesc) : error :=
  ENew (go "START value (" ++ fmtInt (sqStart d) ++ go ") cannot be greater than MAXVALUE (" ++ fmtInt (sqMax d) ++ go ")").
Definition errCache (d : SeqDesc) : error := ENew (go "CACHE (" ++ fmtInt (sqCache d) ++ go ") must be greater than zero").

Definition checkSeqDesc (d : SeqDesc) : outcome unit :=
  if sqIncrement d =? 0 then Err errIncrement
  else if sqMax d <? sqMin d then Err (errMinMax d)
  else if sqStart d <? sqMin d then Err (errStartMin d)
  else if sqMax d <? sqStart d then Err (errStartMax d)
  else if sqCache d <? 1 then Err (errCache d)
  else Ok tt.

(** ** One draw *)

Definition errSeqBound (word name : bytes) (bound : Z) : error :=
  ENew (go "nextval: reached " ++ word ++ go " value of sequence " ++ quoted name ++ go " (" ++ fmtInt bound ++ go ")").

Definition stepSeq (d : SeqDesc) (name : bytes) : outcome (Z * SeqDesc) :=
  if negb (sqCalled d) then Ok (sqLast d, sq_at (sqLast d) true d)
  else
    let next := int64 (sqLast d + sqIncrement d) in
    let over := (0 <? sqIncrement d) && ((sqMax d <? next) || (next <? sqLast d)) in
    let under := (sqIncrement d <? 0) && ((next <? sqMin d) || (sqLast d <? next)) in
    if (over || under) && negb (sqCycle d) then
      Err (if under then errSeqBound (go "minimum") name (sqMin d) else errSeqBound (go "maximum") name (sqMax d))
    else
      let next := if over then sqMin d else if under then sqMax d else next in
      Ok (next, sq_at next true d).

Definition errSeqMissing (name : bytes) : error := ENew (go "relation " ++ quoted name ++ go " does not exist").
Definition errSetval (d : SeqDesc) (name : bytes) (v : Z) : error :=
  ENew (go "setval: value " ++ fmtInt v ++ go " is out of bounds for sequence " ++ quoted name ++ go " ("
        ++ fmtInt (sqMin d) ++ go ".." ++ fmtInt (sqMax d) ++ go ")").

Section seqobj.
Context {tx : Type} {kv : KV tx}.

Definition seqDescIn (name : bytes) : M tx SeqDesc :=
  _ ← lift (checkSeqName name);
  raw ← gets (kv_get (sqlSeqKey name));
  match raw with
  | None => fail (errSeqMissing name)
  | Some raw => lift (unmarshalSeq raw)
  end.
Definition writeSeqDescIn (d : SeqDesc) : M tx unit :=
  kv_set (sqlSeqKey (sqName d)) (marshalSeq (sq_version descFormatVersion d)).

(** [NextVal] and [SetVal] of the default mode *)
Definition NextVal (name : bytes) : M tx Z :=
  desc ← seqDescIn name;
  '(v, desc) ← lift (stepSeq desc name);
  _ ← writeSeqDescIn desc;
  mret v.
Definition SetVal (name : bytes) (v : Z) (called : bool) : M tx unit :=
  desc ← seqDescIn name;
  if (v <? sqMin desc) || (sqMax desc <? v) then fail (errSetval desc name v)
  else writeSeqDescIn (sq_at v called desc).

(** Absent and unreadable records are both no sequence. *)
Definition Sequence (name : bytes) (t : tx) : option SeqDesc :=
  match (seqDescIn name t).1 with Ok d => Some d | _ => None end.
(** The listing stops at the first record that does not decode. *)
Fixpoint seqs_loop (es : list (bytes * bytes)) : list SeqDesc :=
  match es with
  | [] => []
  | (_, v) :: es' => match unmarshalSeq v with Ok d => d :: seqs_loop es' | _ => [] end
  end.
Definition Sequences (t : tx) : list SeqDesc := seqs_loop (ascend_to sqlSeqPrefix (prefixEnd sqlSeqPrefix) t).
End seqobj.

(** ** Schema statements *)

Section statements.
Context {E S : Type} {eng : EngineOps E} {grd : Guarded E} {al : Allocators E} {tx : Type} {kv : KV tx} {db : DB E S tx}.

(** The caller's descriptor is filled in by the closure. *)
Definition CreateSequenceIn (desc : SeqDesc) : M (E * tx) (unit * SeqDesc) :=
  taken ← onTx (gets (λ t, kv_contains (sqlSeqKey (sqName desc)) t || kv_contains (descKey (sqName desc)) t || kv_contains (viewKey (sqName desc)) t));
  if (taken : bool) then fail (errRelationExists (sqName desc))
  else
    id ← onTx (nextFromCounter seqKey firstUserTableID);
    let desc := sq_at (sqStart desc) false (sq_id id desc) in
    _ ← onTx (writeSeqDescIn desc);
    mret (tt, sq_version descFormatVersion desc).
Definition CreateSequence (desc : SeqDesc) : M (E * S) unit :=
  _ ← lift (checkSeqName (sqName desc));
  _ ← lift (checkSeqDesc desc);
  _ ← updateDDL desc CreateSequenceIn;
  onE (modify (e_invalidateSeqObj (sqlSeqKey (sqName desc)))).

Definition DropSequenceIn (name : bytes) : M (E * tx) bool := onTx (kv_delete (sqlSeqKey name)).
Definition DropSequence (name : bytes) : M (E * S) bool :=
  _ ← lift (checkSeqName name);
  existed ← updateDDL' (DropSequenceIn name);
  _ ← onE (modify (e_invalidateSeqObj (sqlSeqKey name)));
  mret existed.

Definition AlterSequenceIn (name : bytes) (mutate : SeqDesc -> outcome SeqDesc) : M (E * tx) unit :=
  desc ← onTx (seqDescIn name);
  desc ← lift (mutate desc);
  _ ← lift (checkSeqDesc desc);
  onTx (writeSeqDescIn desc).
Definition AlterSequence (name : bytes) (mutate : SeqDesc -> outcome SeqDesc) : M (E * S) unit :=
  _ ← updateDDL' (AlterSequenceIn name mutate);
  onE (modify (e_invalidateSeqObj (sqlSeqKey name))).

End statements.

(** ** The options of CREATE and ALTER SEQUENCE *)

Record SeqOptions := mkOpts {
  soAsType : bytes;
  soIncrement : option Z;
  soMin : option Z;
  soMax : option Z;
  soNoMin : bool;
  soNoMax : bool;
  soStart : option Z;
  soCache : option Z;
  soCycle : option bool;
  soRestart : bool;
  soRestartWith : option Z;
}.

Definition seqTypeBounds (asType : bytes) : Z * Z :=
  if bool_decide (asType = go "smallint") then (- 2 ^ 15, 2 ^ 15 - 1)
  else if bool_decide (asType = go "integer") then (- 2 ^ 31, 2 ^ 31 - 1)
  else (minInt64, maxInt64).
Definition seqTypeName (t : bytes) : bytes := if bool_decide (t = []) then go "bigint" else t.

Definition errSeqType (what : bytes) (v : Z) (t : bytes) : error :=
  ENew (what ++ go " (" ++ fmtInt v ++ go ") is out of range for sequence data type " ++ seqTypeName t).
Definition checkSeqTypeRange (d : SeqDesc) : outcome unit :=
  let '(tmin, tmax) := seqTypeBounds (sqType d) in
  if sqMin d <? tmin then Err (errSeqType (go "MINVALUE") (sqMin d) (sqType d))
  else if tmax <? sqMax d then Err (errSeqType (go "MAXVALUE") (sqMax d) (sqType d))
  else Ok tt.

Definition buildSeqDesc (name : bytes) (o : SeqOptions) : outcome SeqDesc :=
  let inc := default 1 (soIncrement o) in
  let '(tmin, tmax) := seqTypeBounds (soAsType o) in
  let min := default (if 0 <=? inc then 1 else tmin) (soMin o) in
  let max := default (if 0 <=? inc then tmax else -1) (soMax o) in
  let start := default (if 0 <=? inc then min else max) (soStart o) in
  let d := mkSeq 0 0 name (soAsType o) start inc min max (default false (soCycle o)) (default 1 (soCache o)) 0 false in
  _ ← checkSeqTypeRange d;
  Ok d.

Definition errRestart (v : Z) (side bound : bytes) (b : Z) : error :=
  ENew (go "RESTART value (" ++ fmtInt v ++ go ") cannot be " ++ side ++ go " than " ++ bound ++ go " (" ++ fmtInt b ++ go ")").
Definition applySeqOptions (o : SeqOptions) (d : SeqDesc) : outcome SeqDesc :=
  let type := if bool_decide (soAsType o = []) then sqType d else soAsType o in
  let inc := default (sqIncrement d) (soIncrement o) in
  let '(tmin, tmax) := seqTypeBounds type in
  let min := match soMin o with Some v => v | None => if soNoMin o then if 0 <=? inc then 1 else tmin else sqMin d end in
  let max := match soMax o with Some v => v | None => if soNoMax o then if 0 <=? inc then tmax else -1 else sqMax d end in
  let d := mkSeq (sqFormatVersion d) (sqID d) (sqName d) type (default (sqStart d) (soStart o)) inc min max
             (default (sqCycle d) (soCycle o)) (default (sqCache d) (soCache o)) (sqLast d) (sqCalled d) in
  _ ← checkSeqTypeRange d;
  if soRestart o then
    let v := default (sqStart d) (soRestartWith o) in
    if v <? sqMin d then Err (errRestart v (go "less") (go "MINVALUE") (sqMin d))
    else if sqMax d <? v then Err (errRestart v (go "greater") (go "MAXVALUE") (sqMax d))
    else Ok (sq_at v false d)
  else Ok d.

(** ** The record reads back *)

Record seq_range (d : SeqDesc) : Prop := {
  sr_version : uint32_ok (sqFormatVersion d);
  sr_id : uint64_ok (sqID d);
  sr_start : int64_ok (sqStart d);
  sr_increment : int64_ok (sqIncrement d);
  sr_min : int64_ok (sqMin d);
  sr_max : int64_ok (sqMax d);
  sr_cache : int64_ok (sqCache d);
  sr_last : int64_ok (sqLast d);
}.
Definition seq_utf8 (d : SeqDesc) : Prop := clean (sqName d) = sqName d /\ clean (sqType d) = sqType d.

Lemma decSeq_JSON d : seq_range d -> decSeq (seqJSON d) = Some d.
Proof.
  intros [Hv Hi H1 H2 H3 H4 H5 H6]. unfold uint32_ok, uint64_ok, int64_ok in *. unfold decSeq, seqJSON, decObj. fields.
  unfold decUint32, decUint64, decLen, maxUint64, minInt64, maxInt64.
  rewrite decInt_omit, decStr_omit, decBool_omit by lia. cbn [mbind option_bind decStr decBool].
  repeat (rewrite decInt_jint by lia; cbn [mbind option_bind]). by destruct d.
Qed.
Lemma jok_seqJSON d : jok 1 (seqJSON d).
Proof. struct_ok; try (by constructor); apply jok_jint. Qed.
Lemma seqJSON_clean d : seq_utf8 d -> cleanJ (seqJSON d) = seqJSON d.
Proof. intros [Hn Ht]. unfold seqJSON. clean_struct. by rewrite Hn, Ht. Qed.

Lemma unmarshalSeq_marshal d : seq_range d -> seq_utf8 d -> unmarshalSeq (marshalSeq d) = Ok d.
Proof.
  intros Hr Hu. unfold unmarshalSeq, marshalSeq. rewrite parseJSON_print.
  2: { eapply jok_mono; [|apply jok_seqJSON]. unfold maxNestingDepth. lia. }
  cbn [mbind option_bind]. by rewrite seqJSON_clean, decSeq_JSON.
Qed.

(** ** One draw, without wrap-around *)

(** The next position among the integers: past a bound there is none, or the
    opposite bound when the sequence cycles. *)
Definition stepSpec (d : SeqDesc) : option Z :=
  let next := sqLast d + sqIncrement d in
  if sqMax d <? next then if sqCycle d then Some (sqMin d) else None
  else if next <? sqMin d then if sqCycle d then Some (sqMax d) else None
  else Some next.

Definition in_bounds (d : SeqDesc) : Prop := sqMin d <= sqLast d <= sqMax d.

Lemma int64_wrap z : - 2 ^ 64 <= z < 2 ^ 64 -> int64_ok z /\ int64 z = z \/ 2 ^ 63 <= z /\ int64 z = z - 2 ^ 64 \/ z < - 2 ^ 63 /\ int64 z = z + 2 ^ 64.
Proof. intros Hz. unfold int64_ok, int64. Z.to_euclidean_division_equations. lia. Qed.

(** The machine step is the integer step: wrap-around only happens past a
    bound, and is recognized there. *)
Lemma stepSeq_exact d name : seq_range d -> in_bounds d -> sqIncrement d <> 0 -> sqCalled d = true ->
  stepSeq d name = match stepSpec d with
    | Some n => Ok (n, sq_at n true d)
    | None => Err (if sqIncrement d <? 0 then errSeqBound (go "minimum") name (sqMin d) else errSeqBound (go "maximum") name (sqMax d))
    end.
Proof.
  intros [_ _ _ Hi Hmin Hmax _ Hl] Hb Hz Hc. unfold stepSeq, stepSpec, in_bounds in *. rewrite Hc. cbn [negb]. cbv zeta.
  set (l := sqLast d) in *. set (i := sqIncrement d) in *. set (lo := sqMin d) in *. set (hi := sqMax d) in *. unfold int64_ok in *.
  destruct (int64_wrap (l + i)) as [[Hr E]|[[Hr E]|[Hr E]]]; [lia|..]; rewrite E; unfold int64_ok in *;
    destruct (Z.ltb_spec 0 i), (Z.ltb_spec i 0); try lia; cbn [andb orb];
    repeat match goal with |- context [?a <? ?b] => destruct (Z.ltb_spec a b); try lia; cbn [andb orb] end;
    by destruct (sqCycle d).
Qed.

(** ** Sequences in a transaction *)

(** [name] is a sequence object of the key space, with record [d]. *)
Record seq_at (m : kvmap) (name : bytes) (d : SeqDesc) : Prop := {
  sa_stored : m !! sqlSeqKey name = Some (marshalSeq d);
  sa_name : sqName d = name /\ name <> [];
  sa_range : seq_range d;
  sa_utf8 : seq_utf8 d;
}.

Section laws.
Context {tx : Type} {kv : KV tx} {kv_laws : KVLaws tx}.

Lemma wp_seqDescIn name d (t : tx) Q : seq_at (kv_map t) name d -> Q (Ok d) t -> wp (seqDescIn name) Q t.
Proof.
  intros [Hs [_ Hne] Hr Hu] HQ. unfold seqDescIn. apply wp_bind_lift. unfold checkSeqName. rewrite decide_False by done. cbn [seqQ].
  apply wp_bind, wp_gets. rewrite kv_get_map, Hs. cbn [seqQ]. apply wp_lift. by rewrite unmarshalSeq_marshal.
Qed.
Lemma wp_writeSeqDescIn d name (t : tx) Q : kv_writable t = true -> seq_range d -> seq_utf8 d -> sqName d = name -> name <> [] ->
  (forall t', writes (insert (sqlSeqKey name) (marshalSeq (sq_version descFormatVersion d))) t t' ->
    seq_at (kv_map t') name (sq_version descFormatVersion d) -> Q (Ok tt) t') ->
  wp (writeSeqDescIn d) Q t.
Proof.
  intros Hw Hr Hu Hn Hne HQ. unfold writeSeqDescIn. apply wp_set. rewrite Hw, Hn. intros t' Ht. apply HQ; [done|].
  split; [by rewrite (writes_map _ _ _ Ht), lookup_insert_eq|done| |done]. by destruct Hr.
Qed.

Lemma stepSeq_range d name v d' : seq_range d -> stepSeq d name = Ok (v, d') -> seq_range d' /\ d' = sq_at v true d.
Proof.
  intros [H1 H2 H3 H4 H5 H6 H7 H8]. unfold stepSeq. destruct (negb (sqCalled d)); [by intros [= <- <-]|]. cbv zeta.
  destruct (_ && negb _); [done|]. intros [= <- <-]. split; [|done]. split; try done. cbn.
  repeat case_match; try done. apply int64_range.
Qed.
Lemma stepSeq_no_panic d name p : stepSeq d name <> Panic p.
Proof. unfold stepSeq. cbv zeta. by repeat case_match. Qed.

Lemma NextVal_wp name d (t : tx) : kv_writable t = true -> seq_at (kv_map t) name d ->
  wp (NextVal name) (λ o t', kv_writable t' = true /\ match stepSeq d name with
    | Ok (v, d') => o = Ok v /\ kv_map t' = <[sqlSeqKey name := marshalSeq (sq_version descFormatVersion d')]> (kv_map t) /\
        seq_at (kv_map t') name (sq_version descFormatVersion d')
    | Err er => o = Err er /\ kv_map t' = kv_map t
    | Panic _ => False
    end) t.
Proof.
  intros Hw Hs. unfold NextVal. apply wp_bind, (wp_seqDescIn name d); [done|]. cbn [seqQ]. apply wp_bind_lift.
  destruct (stepSeq d name) as [[v d']|er|p] eqn:Est; cbn [seqQ]; [|done|by apply stepSeq_no_panic in Est].
  destruct (stepSeq_range d name v d' (sa_range _ _ _ Hs) Est) as [Hr ->].
  apply wp_bind, (wp_writeSeqDescIn _ name); try done; [apply Hs..|]. intros t' Ht Hs'. cbn [seqQ]. apply wp_ret.
  rewrite (writes_writable _ _ _ Ht), (writes_map _ _ _ Ht) in *. done.
Qed.

Lemma SetVal_wp name v called d (t : tx) : kv_writable t = true -> seq_at (kv_map t) name d -> int64_ok v ->
  wp (SetVal name v called) (λ o t', kv_writable t' = true /\
    if bool_decide (sqMin d <= v <= sqMax d) then o = Ok tt /\ seq_at (kv_map t') name (sq_version descFormatVersion (sq_at v called d))
    else o = Err (errSetval d name v) /\ kv_map t' = kv_map t) t.
Proof.
  intros Hw Hs Hv. unfold SetVal. apply wp_bind, (wp_seqDescIn name d); [done|]. cbn [seqQ].
  destruct (_ || _) eqn:Eb.
  - apply wp_fail. split; [done|]. rewrite bool_decide_false; [done|]. apply orb_true_iff in Eb as [Eb|Eb]; lia.
  - apply (wp_writeSeqDescIn _ name); try done; [destruct (sa_range _ _ _ Hs); by split|apply Hs..|]. intros t' Ht Hs'.
    rewrite (writes_writable _ _ _ Ht). split; [done|]. rewrite bool_decide_true; [done|]. apply orb_false_iff in Eb as [E1 E2]. lia.
Qed.
End laws.

(** ** Runs of NextVal and SetVal *)

Inductive seqOp := ONext | OSet (v : Z) (called : bool).

Section runs.
Context {tx : Type} {kv : KV tx}.

(** What the operation returned and the state after; an error leaves the
    transaction usable. *)
Definition seqExec (name : bytes) (op : seqOp) (t : tx) : option Z * tx :=
  match op with
  | ONext => let '(o, t') := NextVal name t in (match o with Ok v => Some v | _ => None end, t')
  | OSet v called => let '(_, t') := SetVal name v called t in (None, t')
  end.
Fixpoint seqRun (name : bytes) (ops : list seqOp) (t : tx) : list Z * tx :=
  match ops with
  | [] => ([], t)
  | op :: ops' =>
      let '(v, t1) := seqExec name op t in
      let '(vs, t2) := seqRun name ops' t1 in
      (option_list v ++ vs, t2)
  end.

Fixpoint nextvals (name : bytes) (n : nat) : M tx (list Z) :=
  match n with
  | O => mret []
  | S n' => v ← NextVal name; vs ← nextvals name n'; mret (v :: vs)
  end.
End runs.

(** What the next draw returns, bounds aside. *)
Definition upcoming (d : SeqDesc) : Z := if sqCalled d then sqLast d + sqIncrement d else sqLast d.

Section run_laws.
Context {tx : Type} {kv : KV tx} {kv_laws : KVLaws tx}.

Lemma stepSeq_upcoming d name : seq_range d -> in_bounds d -> sqIncrement d <> 0 -> sqMin d <= upcoming d <= sqMax d ->
  stepSeq d name = Ok (upcoming d, sq_at (upcoming d) true d).
Proof.
  intros Hr Hb Hi Hu. unfold upcoming in *. destruct (sqCalled d) eqn:Ec; [|unfold stepSeq; by rewrite Ec].
  rewrite stepSeq_exact by done. unfold stepSpec. cbv zeta.
  destruct (Z.ltb_spec (sqMax d) (sqLast d + sqIncrement d)); [lia|]. by destruct (Z.ltb_spec (sqLast d + sqIncrement d) (sqMin d)); [lia|].
Qed.
Lemma stepSeq_bounds d name v d' : seq_range d -> in_bounds d -> sqIncrement d <> 0 -> stepSeq d name = Ok (v, d') ->
  sqMin d <= v <= sqMax d.
Proof.
  intros Hr Hb Hi. destruct (sqCalled d) eqn:Ec; [|unfold stepSeq; rewrite Ec; by intros [= <- <-]].
  rewrite stepSeq_exact by done. unfold stepSpec, in_bounds in *. cbv zeta.
  repeat match goal with |- context [?a <? ?b] => destruct (Z.ltb_spec a b) end; destruct (sqCycle d); intros [= <- <-]; lia.
Qed.

(** the draws of a sequence object are an arithmetic progression: [n]
    calls of NextVal return Start, Start + Increment and so on (from the
    current position when it was already called), as long as the last of
    them is within the bounds. Wrap-around of the 64-bit addition never shows. *)
Theorem nextvals_progression name d n (t : tx) : kv_writable t = true -> seq_at (kv_map t) name d -> in_bounds d ->
  sqIncrement d <> 0 -> sqMin d <= upcoming d <= sqMax d -> sqMin d <= upcoming d + (Z.of_nat n - 1) * sqIncrement d <= sqMax d ->
  (nextvals name n t).1 = Ok ((λ i, upcoming d + i * sqIncrement d) <$> seqZ 0 (Z.of_nat n)).
Proof.
  revert d t. induction n as [|n IH]; intros d t Hw Hs Hb Hi Hu Hn; [done|].
  assert (wp (nextvals name (S n)) (λ o _, o = Ok ((λ i, upcoming d + i * sqIncrement d) <$> seqZ 0 (Z.of_nat (S n)))) t) as H; [|done].
  cbn [nextvals]. apply wp_bind. eapply wp_mono; [by apply (NextVal_wp name d)|]. intros o t1 [Hw1 H].
  rewrite stepSeq_upcoming in H by (done || apply Hs). destruct H as (-> & _ & Hs1). cbn [seqQ].
  set (d1 := sq_version descFormatVersion (sq_at (upcoming d) true d)) in *.
  assert (upcoming d1 = upcoming d + sqIncrement d) as Eu by done.
  apply wp_bind. destruct (decide (n = 0%nat)) as [->|Hn0].
  { apply wp_ret. cbn [seqQ]. apply wp_ret. f_equal. change (Z.of_nat 1) with 1. rewrite (seqZ_cons 0 1) by lia. csimpl. f_equal. lia. }
  assert (sqMin d <= upcoming d1 <= sqMax d) as Hu1.
  { rewrite Eu. replace (Z.of_nat (S n) - 1) with (Z.of_nat n) in Hn by lia. assert (1 <= Z.of_nat n) as H1 by lia. revert H1 Hn.
    generalize (Z.of_nat n). intros k H1 Hn. destruct (decide (0 < sqIncrement d)); [assert (sqIncrement d <= k * sqIncrement d) by nia|
      assert (k * sqIncrement d <= sqIncrement d) by nia]; lia. }
  specialize (IH d1 t1 Hw1 Hs1 ltac:(done) Hi Hu1 ltac:(rewrite Eu; cbn [sqMin sqMax sqIncrement d1 sq_version sq_at]; lia)).
  unfold wp. destruct (nextvals name n t1) as [o t2]. cbn [fst] in IH. subst o. cbn [seqQ]. apply wp_ret. f_equal.
  rewrite (seqZ_cons 0 (Z.of_nat (S n))) by lia. cbn [fmap list_fmap]. f_equal; [lia|].
  replace (Z.pred (Z.of_nat (S n))) with (Z.of_nat n) by lia. rewrite <- (fmap_add_seqZ 1 0), <- list_fmap_compose. apply list_fmap_ext. intros i x _. cbn [compose]. rewrite Eu. cbn. lia.
Qed.

(** every value NextVal returns is between MINVALUE and MAXVALUE, in any
    run of NextVal and SetVal calls, failed ones included, that starts with
    the position within the bounds. *)
Theorem seqRun_bounds name d ops (t : tx) : kv_writable t = true -> seq_at (kv_map t) name d -> in_bounds d ->
  sqIncrement d <> 0 -> Forall (λ op, match op with OSet v _ => int64_ok v | ONext => True end) ops ->
  Forall (λ v, sqMin d <= v <= sqMax d) (seqRun name ops t).1.
Proof.
  revert d t. induction ops as [|op ops IH]; intros d t Hw Hs Hb Hi Hops; [constructor|]. apply Forall_cons in Hops as [Hop Hops].
  cbn [seqRun]. destruct (seqExec name op t) as [v t1] eqn:Ex.
  enough (exists d1, kv_writable t1 = true /\ seq_at (kv_map t1) name d1 /\ in_bounds d1 /\ sqMin d1 = sqMin d /\ sqMax d1 = sqMax d /\
    sqIncrement d1 = sqIncrement d /\ Forall (λ v, sqMin d <= v <= sqMax d) (option_list v)) as (d1 & Hw1 & Hs1 & Hb1 & E1 & E2 & E3 & Hv).
  { rewrite <- E3 in Hi. specialize (IH d1 t1 Hw1 Hs1 Hb1 Hi Hops). destruct (seqRun name ops t1) as [vs t2]. cbn [fst] in *. rewrite E1, E2 in IH. by apply Forall_app. }
  destruct op as [|w called]; cbn [seqExec] in Ex.
  - pose proof (NextVal_wp name d t Hw Hs) as H. unfold wp in H. destruct (NextVal name t) as [o t']. injection Ex as <- <-. cbn [fst snd] in H.
    destruct H as [Hw' H]. destruct (stepSeq d name) as [[x d']|er|p] eqn:Est; [|destruct H as [-> Em]; exists d; rewrite Em; split_and!; done || constructor|done].
    destruct H as (-> & _ & Hs'). destruct (stepSeq_range d name x d' (sa_range _ _ _ Hs) Est) as [_ ->].
    pose proof (stepSeq_bounds d name x _ (sa_range _ _ _ Hs) Hb Hi Est) as Hx. eexists. split_and!; [done|exact Hs'|done..|]. by apply Forall_singleton.
  - pose proof (SetVal_wp name w called d t Hw Hs Hop) as H. unfold wp in H. destruct (SetVal name w called t) as [o t']. injection Ex as <- <-. cbn [fst snd] in H.
    destruct H as [Hw' H]. case_bool_decide as Hin; [|destruct H as [_ Em]; exists d; rewrite Em; split_and!; done || constructor].
    destruct H as [_ Hs']. eexists. split_and!; [done|exact Hs'|done..|constructor].
Qed.
End run_laws.

(** ** The schema statements *)

(** A descriptor CREATE SEQUENCE may store; its ID and position are set on
    the way. *)
Record seq_new (d : SeqDesc) : Prop := {
  sn_name : sqName d <> [];
  sn_utf8 : seq_utf8 d;
  sn_range : seq_range (sq_at (sqStart d) false (sq_id 0 d));
  sn_check : checkSeqDesc d = Ok tt;
}.

Lemma checkSeqDesc_ok d : checkSeqDesc d = Ok tt <-> sqIncrement d <> 0 /\ sqMin d <= sqStart d <= sqMax d /\ 1 <= sqCache d.
Proof.
  unfold checkSeqDesc. destruct (Z.eqb_spec (sqIncrement d) 0); [naive_solver|].
  repeat match goal with |- context [?a <? ?b] => destruct (Z.ltb_spec a b) end; (split; [done|lia]) || (split; [lia|done]).
Qed.
Lemma checkSeqDesc_no_panic d p : checkSeqDesc d <> Panic p.
Proof. unfold checkSeqDesc. by repeat case_match. Qed.

Section ddl_laws.
Context {E : Type} {eng : EngineOps E} {cs : CatState E} {cat_laws : CatLaws E}.
Context {tx : Type} {kv : KV tx} {kv_laws : KVLaws tx}.

(** A record statement: its key is the only one of tables, sequences and
    views that changes. *)
Definition one_record (key : bytes) (m m' : kvmap) : Prop :=
  (forall n d, table_at m' n d <-> table_at m n d) /\
  (forall n d T, table_at m n d -> abstracts d m T -> abstracts d m' T) /\
  forall k, record_key k -> k <> key -> m' !! k = m !! k.

Lemma ddl_recorded {A : Type} (key : bytes) (a : A) (R : A -> kvmap -> Prop) (e e' : E) (t t' : tx) : ready e t -> cached e e' -> record_key key ->
  recorded key (kv_map t) (kv_map t') -> (one_record key (kv_map t) (kv_map t') -> R a (kv_map t')) -> ddl e R (Ok a) (e', t').
Proof.
  intros Hr He Hk Hrec HR. destruct (db_inv_recorded _ _ key (rd_db _ _ Hr) Hk Hrec) as (H1 & H2 & H3 & H4).
  split; [done|]. split; [done|]. by apply HR.
Qed.

Lemma CreateSequenceIn_wp (d : SeqDesc) (e : E) (t : tx) : ready e t -> seq_new d ->
  wp (CreateSequenceIn d) (ddl e (λ r m', exists id, let d' := sq_version descFormatVersion (sq_at (sqStart d) false (sq_id id d)) in
    r = (tt, d') /\ seq_at m' (sqName d) d' /\ one_record (sqlSeqKey (sqName d)) (kv_map t) m' /\
    (kv_map t !! sqlSeqKey (sqName d) = None /\ kv_map t !! descKey (sqName d) = None /\ kv_map t !! viewKey (sqName d) = None))) (e, t).
Proof.
  intros Hr [Hne Hu Hrg _]. unfold CreateSequenceIn. apply wp_bind, wp_onTx, wp_gets. cbn [seqQ].
  destruct (kv_contains (sqlSeqKey (sqName d)) t) eqn:E1; [by apply wp_fail|]. apply kv_contains_false in E1.
  destruct (kv_contains (descKey (sqName d)) t) eqn:E2; [by apply wp_fail|]. apply kv_contains_false in E2.
  destruct (kv_contains (viewKey (sqName d)) t) eqn:E3; [by apply wp_fail|]. apply kv_contains_false in E3. cbn [orb].
  apply wp_bind, wp_onTx. eapply wp_mono; [apply wp_nextFromCounter|].
  intros [id|er|p] t1 H; cbn [seqQ]; [|by apply ddl_err|done]. destruct H as (Hwr & Hpos & Hmax & Hws). cbv zeta.
  assert (uint64_ok id) as Hid by (by apply position_range in Hpos).
  apply wp_bind, wp_onTx, (wp_writeSeqDescIn _ (sqName d)); try done.
  - by rewrite (writes_writable _ _ _ Hws).
  - destruct Hrg. by split.
  - intros t2 Hws2 Hs. cbn [seqQ]. apply wp_ret. apply (ddl_recorded (sqlSeqKey (sqName d)) _ _ e e t t2 Hr); [done|apply sqlSeqKey_record| |].
    + rewrite (writes_map _ _ _ Hws2), (writes_map _ _ _ Hws). split.
      * intros k K1 K2. by rewrite !lookup_insert_ne.
      * right. exists id. rewrite lookup_insert_ne by (apply record_not_seqKey, sqlSeqKey_record). rewrite lookup_insert_eq.
        split_and!; [done| |done]. unfold uint64_ok, maxUint64 in *. lia.
    + intros Hone. by exists id.
Qed.

Lemma DropSequenceIn_wp (name : bytes) (e : E) (t : tx) : ready e t ->
  wp (DropSequenceIn name) (ddl e (λ existed m', existed = kv_contains (sqlSeqKey name) t /\
    m' !! sqlSeqKey name = None /\ one_record (sqlSeqKey name) (kv_map t) m')) (e, t).
Proof.
  intros Hr. unfold DropSequenceIn. apply wp_onTx, wp_delete. rewrite (rd_writable _ _ Hr). intros t' Ht.
  apply (ddl_recorded (sqlSeqKey name) _ _ e e t t' Hr); [done|apply sqlSeqKey_record| |].
  - rewrite (writes_map _ _ _ Ht). split; [intros k K1 _; by rewrite lookup_delete_ne|].
    left. apply lookup_delete_ne, record_not_seqKey, sqlSeqKey_record.
  - rewrite (writes_map _ _ _ Ht). intros Hone. split_and!; [done|apply lookup_delete_eq|done].
Qed.

(** [mutate] edits options and position, within the types' ranges. *)
Definition edits (mutate : SeqDesc -> outcome SeqDesc) : Prop := forall d, seq_range d -> seq_utf8 d ->
  match mutate d with Ok d' => seq_range d' /\ seq_utf8 d' /\ sqName d' = sqName d | Err _ => True | Panic _ => False end.

Lemma AlterSequenceIn_wp (name : bytes) mutate (e : E) (t : tx) : ready e t -> edits mutate ->
  (forall raw, kv_map t !! sqlSeqKey name = Some raw -> exists d, seq_at (kv_map t) name d) ->
  wp (AlterSequenceIn name mutate) (ddl e (λ _ m', exists d d', seq_at (kv_map t) name d /\ mutate d = Ok d' /\ checkSeqDesc d' = Ok tt /\
    seq_at m' name (sq_version descFormatVersion d') /\ one_record (sqlSeqKey name) (kv_map t) m')) (e, t).
Proof.
  intros Hr Hm Hall. unfold AlterSequenceIn. apply wp_bind, wp_onTx.
  apply wp_mono with (Q := λ o t', t' = t /\ match o with Ok d => seq_at (kv_map t) name d | Err _ => True | Panic _ => False end).
  { destruct (decide (name = [])) as [->|Hne]; [apply wp_bind_lift; done|].
    destruct (kv_map t !! sqlSeqKey name) as [raw|] eqn:Er; [destruct (Hall raw eq_refl) as [d Hs]; by eapply wp_seqDescIn|].
    unfold seqDescIn. apply wp_bind_lift. unfold checkSeqName. rewrite decide_False by done. cbn [seqQ].
    apply wp_bind, wp_gets. rewrite kv_get_map, Er. cbn [seqQ]. by apply wp_fail. }
  intros [d|er|p] t0 [-> Hs]; cbn [seqQ]; [|by apply ddl_err|done].
  apply wp_bind_lift. specialize (Hm d (sa_range _ _ _ Hs) (sa_utf8 _ _ _ Hs)). destruct (mutate d) as [d'|er|p] eqn:Em; cbn [seqQ]; [|by apply ddl_err|done].
  destruct Hm as (Hrg & Hu & Hn). apply wp_bind_lift. destruct (checkSeqDesc d') as [[]|er|p] eqn:Ec; cbn [seqQ]; [|by apply ddl_err|by apply checkSeqDesc_no_panic in Ec].
  apply wp_onTx, (wp_writeSeqDescIn d' name); [apply Hr|done|done|rewrite Hn; apply Hs|apply Hs|].
  intros t' Ht Hs'. apply (ddl_recorded (sqlSeqKey name) _ _ e e t t' Hr); [done|apply sqlSeqKey_record| |].
  - rewrite (writes_map _ _ _ Ht). split; [intros k K1 _; by rewrite lookup_insert_ne|].
    left. apply lookup_insert_ne, record_not_seqKey, sqlSeqKey_record.
  - intros Hone. by exists d, d'.
Qed.
End ddl_laws.

(** ** The options *)

Record opts_ok (o : SeqOptions) : Prop := {
  oo_increment v : soIncrement o = Some v -> int64_ok v;
  oo_min v : soMin o = Some v -> int64_ok v;
  oo_max v : soMax o = Some v -> int64_ok v;
  oo_start v : soStart o = Some v -> int64_ok v;
  oo_cache v : soCache o = Some v -> int64_ok v;
  oo_restart v : soRestartWith o = Some v -> int64_ok v;
  oo_type : clean (soAsType o) = soAsType o;
}.

Lemma seqTypeBounds_range t : int64_ok (seqTypeBounds t).1 /\ int64_ok (seqTypeBounds t).2.
Proof. unfold seqTypeBounds, int64_ok, minInt64, maxInt64. repeat case_bool_decide; cbn; lia. Qed.
Lemma checkSeqTypeRange_cases d : checkSeqTypeRange d = Ok tt \/ exists er, checkSeqTypeRange d = Err er.
Proof. unfold checkSeqTypeRange. destruct (seqTypeBounds (sqType d)). repeat case_match; eauto. Qed.
Lemma default_range (P : Z -> Prop) x o : P x -> (forall v, o = Some v -> P v) -> P (default x o).
Proof. destruct o; cbn; auto. Qed.

Lemma buildSeqDesc_new name o d : name <> [] -> clean name = name -> opts_ok o -> buildSeqDesc name o = Ok d -> checkSeqDesc d = Ok tt ->
  seq_new d /\ sqName d = name /\ sqIncrement d = default 1 (soIncrement o).
Proof.
  intros Hne Hcl [O1 O2 O3 O4 O5 O6 O7]. unfold buildSeqDesc. pose proof (seqTypeBounds_range (soAsType o)) as [Hb1 Hb2].
  destruct (seqTypeBounds (soAsType o)) as [tmin tmax]. cbn [fst snd] in *. cbv zeta.
  set (d0 := mkSeq _ _ _ _ _ _ _ _ _ _ _ _). destruct (checkSeqTypeRange_cases d0) as [->|[er ->]]; [|done]. cbn [mbind outcome_bind].
  intros [= <-] Hc. split; [|done]. unfold int64_ok in *.
  assert (forall b : bool, - 2 ^ 63 <= (if b then 1 else tmin) < 2 ^ 63) as B1 by (intros []; lia).
  assert (forall b : bool, - 2 ^ 63 <= (if b then tmax else -1) < 2 ^ 63) as B2 by (intros []; lia).
  assert (- 2 ^ 63 <= sqMin d0 < 2 ^ 63) as Hmin by (cbn; apply (default_range (λ z, - 2 ^ 63 <= z < 2 ^ 63)); auto).
  assert (- 2 ^ 63 <= sqMax d0 < 2 ^ 63) as Hmax by (cbn; apply (default_range (λ z, - 2 ^ 63 <= z < 2 ^ 63)); auto).
  assert (- 2 ^ 63 <= sqStart d0 < 2 ^ 63) as Hst.
  { cbn. apply (default_range (λ z, - 2 ^ 63 <= z < 2 ^ 63)); [|auto]. destruct (0 <=? _); [apply Hmin|apply Hmax]. }
  split; [done|done| |done]. split; cbn; try (unfold uint32_ok, uint64_ok; lia); try done; unfold int64_ok.
  - apply (default_range (λ z, - 2 ^ 63 <= z < 2 ^ 63)); [lia|auto].
  - apply (default_range (λ z, - 2 ^ 63 <= z < 2 ^ 63)); [lia|auto].
Qed.

Lemma applySeqOptions_edits o : opts_ok o -> edits (applySeqOptions o).
Proof.
  intros [O1 O2 O3 O4 O5 O6 O7] d [R1 R2 R3 R4 R5 R6 R7 R8] [U1 U2]. unfold applySeqOptions. cbv zeta.
  set (type := if bool_decide _ then _ else _). pose proof (seqTypeBounds_range type) as [Hb1 Hb2].
  destruct (seqTypeBounds type) as [tmin tmax]. cbn [fst snd] in *. set (d0 := mkSeq _ _ _ _ _ _ _ _ _ _ _ _).
  assert (seq_range d0) as Hr.
  { split; cbn; try done; try (apply (default_range int64_ok); auto; fail).
    - destruct (soMin o) as [v|]; [by apply O2|]. repeat case_match; try done; unfold int64_ok; lia.
    - destruct (soMax o) as [v|]; [by apply O3|]. repeat case_match; try done; unfold int64_ok; lia. }
  assert (seq_utf8 d0) as Hu by (split; [done|]; cbn; unfold type; by case_bool_decide).
  destruct (checkSeqTypeRange_cases d0) as [->|[er ->]]; [|done]. cbn [mbind outcome_bind]. destruct (soRestart o); [|done].
  destruct (_ <? _); [done|]. destruct (_ <? _); [done|]. split_and!; [|done..]. destruct Hr as [Q1 Q2 Q3 Q4 Q5 Q6 Q7 Q8]. split; try done.
  cbn. apply (default_range int64_ok); [done|auto].
Qed.

(** ALTER SEQUENCE checks MINVALUE and MAXVALUE against START but not
    against the current position: a sequence that has drawn 1 accepts
    MINVALUE 100 MAXVALUE 200 START 100 and then draws 2. *)
Theorem alter_sequence_below_minimum : exists d o d' v d'',
  buildSeqDesc (go "s") (mkOpts [] None None None false false None None None false None) = Ok d /\
  stepSeq (sq_at (sqStart d) false d) (go "s") = Ok (1, sq_at 1 true d) /\
  applySeqOptions o (sq_at 1 true d) = Ok d' /\ checkSeqDesc d' = Ok tt /\
  stepSeq d' (go "s") = Ok (v, d'') /\ v < sqMin d'.
Proof.
  eexists _, (mkOpts [] None (Some 100) (Some 200) false false (Some 100) None None false None), _, _, _.
  split_and!; [reflexivity..|]. reflexivity.
Qed.

Section example.
(** A sequence from 10 to 20 by 5, just created. *)
Definition exSeq : SeqDesc := mkSeq 1 7 (go "s") [] 10 5 10 20 false 1 10 false.
Definition exSeqTx : MemTx := mem_open [(sqlSeqKey (go "s"), marshalSeq exSeq)].

Lemma exSeq_range : seq_range exSeq.
Proof. split; unfold uint32_ok, uint64_ok, int64_ok; cbn; lia. Qed.
Lemma exSeq_at : seq_at (kv_map exSeqTx) (go "s") exSeq.
Proof. split; [vm_compute; reflexivity|done|apply exSeq_range|done]. Qed.

Lemma nextvals_progression_witness : (nextvals (go "s") 3 exSeqTx).1 = Ok [10; 15; 20].
Proof. apply (nextvals_progression (go "s") exSeq 3 exSeqTx); [reflexivity|apply exSeq_at|..]; unfold in_bounds, upcoming; cbn; lia. Defined.
Lemma seqRun_bounds_witness :
  Forall (λ v, 10 <= v <= 20) (seqRun (go "s") [ONext; ONext; OSet 30 true; OSet 20 false; ONext; ONext] exSeqTx).1.
Proof.
  apply (seqRun_bounds (go "s") exSeq _ exSeqTx); [reflexivity|apply exSeq_at|unfold in_bounds; cbn; lia|cbn; lia|].
  repeat constructor; unfold int64_ok; lia.
Defined.
End example.
