(* ===== verification/SeqObjAlloc.v ===== *)
(** * Sequence objects outside transactions

    The second half of [seqalloc.go]: in concurrent-writes mode [nextval]
    draws from an in-memory allocator that reserves CACHE draws at a time,
    the stored record sitting after the reserved batch. The calls are
    programs of [Threads.v]. *)
From S2P Require Import Prelude GoVal GoStr Tuple KV Json Catalog Desc Seq Dml Engine Store Threads SeqAlloc SeqObj.

Local Open Scope Z_scope.

Record seqObjAlloc := mkSeqAlloc {
  soaDead : bool;
  soaDesc : SeqDesc;
  soaReserved : Z;
}.
Definition zeroSeq : SeqDesc := mkSeq 0 0 [] [] 0 0 0 0 false 0 0 false.
Definition newSeqAlloc : seqObjAlloc := mkSeqAlloc false zeroSeq 0.

(** The scratch walk of a reservation: up to [n] more draws after [k]. *)
Fixpoint reserveSteps (name : bytes) (n : nat) (k : Z) (work : SeqDesc) : outcome (SeqDesc * Z) :=
  match n with
  | O => Ok (work, k)
  | S n' =>
      match stepSeq work name with
      | Ok (_, work') => reserveSteps name n' (k + 1) work'
      | Err er => if k =? 0 then Err er else Ok (work, k)
      | Panic p => Panic p
      end
  end.

Section alloc.
Context {tx : Type} {kv : KV tx}.
Abbreviation prog := (@prog seqObjAlloc tx).

Definition seqObjAllocFor (key : bytes) : prog nat := act1 (AFetch key newSeqAlloc).
Definition invalidateSeqObj (key : bytes) : prog unit :=
  ol ← act1 (AForget key);
  match ol with
  | Some l =>
      a ← act1 (ALock l);
      _ ← act1 (AWrite l (mkSeqAlloc true (soaDesc a) (soaReserved a)) None);
      act1 (AUnlock l)
  | None => mret tt
  end.

Definition reserveSeqIn (name : bytes) : M tx (SeqDesc * Z) :=
  stored ← seqDescIn name;
  '(work, k) ← lift (reserveSteps name (Z.to_nat (Z.max (sqCache stored) 1)) 0 stored);
  _ ← writeSeqDescIn work;
  mret (stored, k).
Definition setSeqReserved (pk : SeqDesc * Z) (a : seqObjAlloc) : seqObjAlloc := mkSeqAlloc (soaDead a) pk.1 pk.2.
Definition reserveSeqLocked (l : nat) (name : bytes) (a : seqObjAlloc) : prog (outcome unit * seqObjAlloc) :=
  o ← seqPut (reserveSeqIn name) (Some (l, setSeqReserved));
  mret (match o with
        | Ok pk => (Ok tt, setSeqReserved pk a)
        | Err er => (Err er, a)
        | Panic p => (Panic p, a)
        end).

(** One draw under the lock, reserving first when nothing is reserved. *)
Definition drawSeqLocked (l : nat) (name : bytes) (a : seqObjAlloc) : prog (outcome Z) :=
  '(o, a) ← (if soaReserved a =? 0 then reserveSeqLocked l name a else mret (Ok tt, a));
  match o with
  | Ok _ =>
      match stepSeq (soaDesc a) name with
      | Ok (v, d) => _ ← act1 (AWrite l (mkSeqAlloc (soaDead a) d (soaReserved a - 1)) (Some v)); mret (Ok v)
      | Err er => mret (Err er)
      | Panic p => mret (Panic p)
      end
  | Err er => mret (Err er)
  | Panic p => mret (Panic p)
  end.
Fixpoint allocSeqObj_loop (n : nat) (name : bytes) : prog (outcome Z) :=
  match n with
  | O => mret (Err (errKeptLosing (go "allocation")))
  | S n' =>
      l ← seqObjAllocFor (sqlSeqKey name);
      a ← act1 (ALock l);
      if soaDead a then _ ← act1 (AUnlock l); allocSeqObj_loop n' name
      else o ← drawSeqLocked l name a; _ ← act1 (AUnlock l); mret o
  end.
Definition allocSeqObj (name : bytes) : prog (outcome Z) := allocSeqObj_loop seqAllocRetries name.

Definition setValDirect (name : bytes) (v : Z) (called : bool) : prog (outcome unit) :=
  o ← seqPut (SetVal name v called) None;
  match o with Ok _ => _ ← invalidateSeqObj (sqlSeqKey name); mret o | _ => mret o end.
End alloc.

(** ** A reservation covers its draws *)

Definition renamed_version (v : Z) (o : outcome (Z * SeqDesc)) : outcome (Z * SeqDesc) :=
  match o with Ok (n, d) => Ok (n, sq_version v d) | Err er => Err er | Panic p => Panic p end.
(** The layout version of a record plays no part in a draw. *)
Lemma stepSeq_version v d name : stepSeq (sq_version v d) name = renamed_version v (stepSeq d name).
Proof. unfold stepSeq. cbn. cbv zeta. by repeat case_match. Qed.

(** [n] draws in a row. *)
Fixpoint walk (name : bytes) (n : nat) (d : SeqDesc) : option SeqDesc :=
  match n with
  | O => Some d
  | S n' => match stepSeq d name with Ok (_, d') => walk name n' d' | _ => None end
  end.
Lemma walk_version name n v d : walk name n (sq_version v d) = sq_version v <$> walk name n d.
Proof.
  revert d. induction n as [|n IH]; intros d; [done|]. cbn [walk]. rewrite stepSeq_version.
  destruct (stepSeq d name) as [[x d']|er|p]; cbn; [apply IH|done..].
Qed.

Lemma reserveSteps_walk name n k d w k' : 0 <= k -> reserveSteps name n k d = Ok (w, k') ->
  k <= k' <= k + Z.of_nat n /\ walk name (Z.to_nat (k' - k)) d = Some w /\ (k = 0 -> (0 < n)%nat -> 0 < k').
Proof.
  revert k d. induction n as [|n IH]; intros k d Hk; cbn [reserveSteps].
  - intros [= <- <-]. rewrite Z.sub_diag. split_and!; [lia..|done|lia].
  - destruct (stepSeq d name) as [[v d']|er|p] eqn:E; [| |done].
    + intros H. destruct (IH (k + 1) d' ltac:(lia) H) as (H1 & H2 & H3). split_and!; [lia..| |lia].
      replace (Z.to_nat (k' - k)) with (S (Z.to_nat (k' - (k + 1)))) by lia. cbn [walk]. by rewrite E.
    + destruct (Z.eqb_spec k 0); [done|]. intros [= <- <-]. rewrite Z.sub_diag. split_and!; [lia..|done|lia].
Qed.
Lemma reserveSteps_err name n d er : (0 < n)%nat -> reserveSteps name n 0 d = Err er -> stepSeq d name = Err er.
Proof.
  destruct n as [|n]; [lia|]. intros _. cbn [reserveSteps]. destruct (stepSeq d name) as [[v d']|er'|p]; [|by intros [= <-]|done].
  assert (forall n k d, 0 < k -> reserveSteps name n k d <> Err er) as H; [|by intros ?%H].
  clear. induction n as [|n IH]; intros k d Hk; cbn [reserveSteps]; [done|].
  destruct (stepSeq d name) as [[v d']|er'|p]; [apply IH; lia| |done]. by destruct (Z.eqb_spec k 0); [lia|].
Qed.
Lemma reserveSteps_ok name n d x : (0 < n)%nat -> stepSeq d name = Ok x -> is_ok (reserveSteps name n 0 d) = true.
Proof.
  intros Hn Hx. destruct (reserveSteps name n 0 d) as [|er|p] eqn:E; [done| |].
  - apply reserveSteps_err in E; [congruence|done].
  - exfalso. clear Hn Hx. revert d E. generalize 0. induction n as [|n IH]; intros k d; cbn [reserveSteps]; [done|].
    destruct (stepSeq d name) as [[v d']|er'|p'] eqn:E'; [apply IH|by destruct (k =? 0)|by apply stepSeq_no_panic in E'].
Qed.

Lemma stepSeq_plain d name er : stepSeq d name = Err er -> exists msg, er = ENew msg.
Proof. unfold stepSeq. cbv zeta. repeat case_match; intros [= <-]; unfold errSeqBound; eauto. Qed.

(** Two records that draw alike. *)
Definition agrees (d d' : SeqDesc) : Prop := sq_version 0 d = sq_version 0 d'.
Lemma agrees_version v d : agrees (sq_version v d) d.
Proof. done. Qed.
Lemma agrees_step d d' name : agrees d d' -> renamed_version 0 (stepSeq d name) = renamed_version 0 (stepSeq d' name).
Proof. intros H. by rewrite <- !stepSeq_version, H. Qed.
Lemma agrees_ok d d' name v x : agrees d d' -> stepSeq d' name = Ok (v, x) -> exists y, stepSeq d name = Ok (v, y) /\ agrees y x.
Proof.
  intros H%(agrees_step _ _ name) E. rewrite E in H. destruct (stepSeq d name) as [[v' y]|er|p]; [|done..].
  cbn in H. assert ((v', sq_version 0 y) = (v, sq_version 0 x)) as [-> Hy]%pair_equal_spec by congruence. by exists y.
Qed.
Lemma agrees_err d d' name er : agrees d d' -> stepSeq d' name = Err er -> stepSeq d name = Err er.
Proof. intros H%(agrees_step _ _ name) E. rewrite E in H. by destruct (stepSeq d name) as [[v' y]|er'|p]; simplify_eq/=. Qed.

(** A walk keeps a record well-formed. *)
Lemma walk_range name n d w : seq_range d -> walk name n d = Some w ->
  seq_range w /\ sqName w = sqName d /\ sqType w = sqType d.
Proof.
  revert d. induction n as [|n IH]; intros d Hd; cbn [walk]; [by intros [= <-]|].
  destruct (stepSeq d name) as [[v d']|er|p] eqn:E; [|done..]. intros Hw.
  destruct (stepSeq_range d name v d' Hd E) as [Hr ->]. by destruct (IH _ Hr Hw) as (? & ? & ?).
Qed.

Section alone.
Context (tid : nat) (name : bytes).
Abbreviation key := (sqlSeqKey name).

(** The next draws are those of [d]: from the reservation, or else from the
    stored record. *)
Definition live (m : kvmap) (a : seqObjAlloc) (d : SeqDesc) : Prop := soaDead a = false /\ exists s, seq_at m name s /\
  ((soaReserved a = 0 /\ agrees s d) \/
   (0 < soaReserved a /\ agrees (soaDesc a) d /\ exists e, walk name (Z.to_nat (soaReserved a)) (soaDesc a) = Some e /\ agrees e s)).

Lemma mem_reserveSeq m s : seq_at m name s -> match stepSeq s name with
  | Ok _ => exists m' k w, mem_update (reserveSeqIn name) m = (Ok (s, k), m') /\ 0 < k /\ walk name (Z.to_nat k) s = Some w /\
      seq_at m' name (sq_version descFormatVersion w)
  | Err er => mem_update (reserveSeqIn name) m = (Err er, m)
  | Panic _ => False
  end.
Proof.
  intros Hs. unfold mem_update. set (t := Mem _). assert (kv_map t = m) as Ht by done. rewrite <- Ht in Hs.
  set (n := Z.to_nat (Z.max (sqCache s) 1)). assert (0 < n)%nat as Hn by lia.
  assert (wp (reserveSeqIn name) (λ o t', match reserveSteps name n 0 s with
    | Ok (w, k) => o = Ok (s, k) /\ seq_at (kv_map t') name (sq_version descFormatVersion w)
    | Err er => o = Err er
    | Panic p => o = Panic p
    end) t) as H.
  { unfold reserveSeqIn. apply wp_bind, (wp_seqDescIn name s); [done|]. cbn [seqQ]. apply wp_bind_lift. fold n.
    destruct (reserveSteps name n 0 s) as [[w k]|er|p] eqn:E; cbn [seqQ]; [|done..].
    destruct (reserveSteps_walk name n 0 s w k ltac:(lia) E) as (_ & Hw & _). pose proof Hs as [_ [Hnm Hne] Hr Hu].
    destruct (walk_range _ _ _ _ Hr Hw) as (Hr' & En & Et).
    apply wp_bind, (wp_writeSeqDescIn w name); [done|done|by unfold seq_utf8; rewrite En, Et|congruence|done|]. done. }
  unfold wp in H. destruct (reserveSeqIn name t) as [o t']. cbn [fst snd] in H.
  destruct (stepSeq s name) as [[v x]|er|p] eqn:Est; [| |by apply stepSeq_no_panic in Est].
  - pose proof (reserveSteps_ok name n s _ Hn Est) as Hok. destruct (reserveSteps name n 0 s) as [[w k]|er|p] eqn:E; [|done..].
    destruct H as [-> Hs']. destruct (reserveSteps_walk name n 0 s w k ltac:(lia) E) as (_ & Hw & Hk). rewrite Z.sub_0_r in Hw.
    exists (v_map (mem_view t')), k, w. split_and!; [done|by apply Hk|done|done].
  - destruct n as [|n']; [lia|]. cbn [reserveSteps] in H. rewrite Est in H. cbn in H. by subst o.
Qed.

Lemma run_draw m M h dr l a d : live m a d -> match stepSeq d name with
  | Ok (v, d') => exists m' a', run tid (drawSeqLocked l name a) (around key m M h dr l (Some tid) a) =
      Some (Ok v, around key m' M h ((tid, key, v) :: dr) l (Some tid) a') /\ live m' a' d'
  | Err er => run tid (drawSeqLocked l name a) (around key m M h dr l (Some tid) a) = Some (Err er, around key m M h dr l (Some tid) a)
  | Panic _ => False
  end.
Proof.
  intros (Hdead & s & Hs & Ha).
  assert (forall m a s e v d d', seq_at m name s -> soaDead a = false -> 0 < soaReserved a -> agrees (soaDesc a) d ->
    walk name (Z.to_nat (soaReserved a)) (soaDesc a) = Some e -> agrees e s -> stepSeq d name = Ok (v, d') ->
    exists a', run tid (match stepSeq (soaDesc a) name with
        | Ok (v, d) => _ ← act1 (AWrite l (mkSeqAlloc (soaDead a) d (soaReserved a - 1)) (Some v)); mret (Ok v)
        | Err er => mret (Err er)
        | Panic p => mret (Panic p)
        end) (around key m M h dr l (Some tid) a) = Some (Ok v, around key m M h ((tid, key, v) :: dr) l (Some tid) a') /\ live m a' d') as Hhand.
  { clear. intros m a s e v d d' Hs Hdead Hr Hd Hw He Hv. destruct (agrees_ok _ _ _ _ _ Hd Hv) as (y & Hy & Hyd). rewrite Hy.
    eexists. rewrite run_bind. cbn [act1 run]. rewrite run_write. cbn. split; [done|]. split; [done|]. exists s. split; [done|]. cbn.
    replace (Z.to_nat (soaReserved a)) with (S (Z.to_nat (soaReserved a - 1))) in Hw by lia. cbn [walk] in Hw. rewrite Hy in Hw.
    destruct (decide (soaReserved a = 1)) as [E|]; [left|right].
    - rewrite E in Hw. cbn in Hw. injection Hw as ->. split; [lia|]. unfold agrees in *. congruence.
    - split_and!; [lia|done|eauto]. }
  unfold drawSeqLocked. destruct Ha as [[Hr Had]|(Hr & Had & e & Hw & He)].
  - rewrite run_bind, Hr, Z.eqb_refl. unfold reserveSeqLocked, seqPut. rewrite run_bind. pose proof (mem_reserveSeq m s Hs) as Hm.
    destruct (stepSeq d name) as [[v d']|er|p] eqn:Est; [| |by apply stepSeq_no_panic in Est].
    + destruct (agrees_ok _ _ _ _ _ Had Est) as (y & Hy & Hyd). rewrite Hy in Hm. destruct Hm as (m' & k & w & Hu & Hk & Hwk & Hs').
      rewrite run_seqPut; rewrite Hu; [|done]. cbn [fst snd mbind option_bind run mret prog_ret].
      destruct (Hhand m' (setSeqReserved (s, k) a) (sq_version descFormatVersion w) w v d d') as (a' & Hrun & Hl'); try done. by exists m', a'.
    + pose proof (agrees_err _ _ _ _ Had Est) as Hes. rewrite Hes in Hm. destruct (stepSeq_plain _ _ _ Est) as [msg ->].
      rewrite run_seqPut; by rewrite Hm.
  - rewrite run_bind. destruct (Z.eqb_spec (soaReserved a) 0); [lia|]. cbn [mbind option_bind run mret prog_ret].
    destruct (stepSeq d name) as [[v d']|er|p] eqn:Est; [| |by apply stepSeq_no_panic in Est].
    + destruct (Hhand m a s e v d d') as (a' & Hrun & Hl'); try done. by exists m, a'.
    + exfalso. replace (Z.to_nat (soaReserved a)) with (S (Z.to_nat (soaReserved a - 1))) in Hw by lia. cbn [walk] in Hw.
      by rewrite (agrees_err _ _ _ _ Had Est) in Hw.
Qed.

Inductive ready (w : world seqObjAlloc) (d : SeqDesc) : Prop :=
  | ready_stored s : w_map w !! key = None -> seq_at (w_kv w) name s -> agrees s d -> ready w d
  | ready_live m M h dr l a : w = around key m M h dr l None a -> M !! key = Some l -> live m a d -> ready w d.

Lemma ready_agrees w d d' : agrees d d' -> ready w d -> ready w d'.
Proof.
  unfold agrees. intros Hd [s Hm Hs Ha|m M h dr l a -> HM (Hdead & s & Hs & Hl)]; [eapply ready_stored; [done..|]; unfold agrees in *; congruence|].
  eapply ready_live; [done..|]. split; [done|]. exists s. split; [done|]. unfold agrees in *.
  destruct Hl as [[? ?]|(? & ? & ?)]; [left; split; congruence|right; split_and!; [done|congruence|done]].
Qed.
Lemma ready_fetch w d : ready w d -> exists m M h dr l a, run_act tid (AFetch key newSeqAlloc) w = Some (l, around key m M h dr l None a) /\
  M !! key = Some l /\ live m a d.
Proof.
  intros [s Hm Hs Ha|m M h dr l a -> HM Hl]; cbn [run_act].
  - rewrite Hm. eexists _, _, _, _, _, _. split; [reflexivity|]. split; [apply lookup_insert_eq|]. split; [done|]. exists s. split; [done|by left].
  - cbn [around w_map]. rewrite HM. eexists _, _, _, _, _, _. split_and!; eauto.
Qed.

Lemma run_allocSeqObj w d : ready w d -> match stepSeq d name with
  | Ok (v, d') => exists w', run tid (allocSeqObj name) w = Some (Ok v, w') /\ ready w' d'
  | Err er => exists w', run tid (allocSeqObj name) w = Some (Err er, w')
  | Panic _ => False
  end.
Proof.
  intros Hr. destruct (ready_fetch w d Hr) as (m & M & h & dr & l & a & Hf & HM & Hl). pose proof (run_draw m M h dr l a d Hl) as Hd.
  assert (forall o m' dr' a', run tid (drawSeqLocked l name a) (around key m M h dr l (Some tid) a) = Some (o, around key m' M h dr' l (Some tid) a') ->
    run tid (allocSeqObj name) w = Some (o, around key m' M h dr' l None a')) as Hlap.
  { intros o m' dr' a' Ho. unfold allocSeqObj, seqAllocRetries. cbn [allocSeqObj_loop]. unfold seqObjAllocFor.
    rewrite run_bind. cbn [act1 run]. rewrite Hf. cbn [mbind option_bind]. rewrite run_bind. cbn [act1 run]. rewrite run_lock.
    cbn [mbind option_bind]. rewrite (proj1 Hl), run_bind, Ho. cbn [mbind option_bind]. rewrite run_bind. cbn [act1 run]. by rewrite run_unlock. }
  destruct (stepSeq d name) as [[v d']|er|p]; [| |done].
  - destruct Hd as (m' & a' & Hrun & Hl'). eexists. split; [by eapply Hlap|]. by eapply ready_live.
  - eexists. by eapply Hlap.
Qed.

Fixpoint allocVals (n : nat) : @Threads.prog seqObjAlloc MemTx (outcome (list Z)) :=
  match n with
  | O => mret (Ok [])
  | S n' =>
      o ← allocSeqObj name;
      match o with
      | Ok v => os ← allocVals n'; mret (vs ← os; Ok (v :: vs))
      | Err er => mret (Err er)
      | Panic p => mret (Panic p)
      end
  end.

Lemma run_allocVals {tx : Type} {kv : KV tx} {kv_laws : KVLaws tx} n w d (t : tx) : kv_writable t = true ->
  seq_at (kv_map t) name d -> ready w d -> exists w', run tid (allocVals n) w = Some ((nextvals name n t).1, w').
Proof.
  revert w d t. induction n as [|n IH]; intros w d t Hw Hs Hr; [by eexists|].
  assert (wp (nextvals name (S n)) (λ o _, exists w', run tid (allocVals (S n)) w = Some (o, w')) t) as H; [|by destruct H as [w' ?]; exists w'].
  cbn [nextvals allocVals]. apply wp_bind. eapply wp_mono; [by apply (NextVal_wp name d)|]. intros o t1 [Hw1 H].
  pose proof (run_allocSeqObj w d Hr) as Ha. rewrite run_bind. destruct (stepSeq d name) as [[v d']|er|p]; [| |done].
  - destruct H as (-> & _ & Hs1), Ha as (w1 & -> & Hr1). cbn [seqQ mbind option_bind].
    destruct (IH w1 _ t1 Hw1 Hs1) as (w2 & Hrun); [by eapply ready_agrees, Hr1|].
    apply wp_bind. unfold wp at 1. destruct (nextvals name n t1) as [o t2]. cbn [fst snd] in *.
    destruct o as [vs|er|p]; cbn [seqQ]; [apply wp_ret|..]; exists w2; by rewrite run_bind, Hrun.
  - destruct H as [-> _], Ha as (w1 & ->). cbn [seqQ]. by eexists.
Qed.
End alone.

(** C36: without interference the caching allocator of concurrent-writes mode
    gives the values of the transactional [nextval], for any CACHE: the same
    draws, up to the same error when a sequence that does not cycle runs out. *)
Theorem seqobj_draws_like_nextval (tid : nat) name d n m : seq_at m name d ->
  exists w, run tid (allocVals name n) (World m ∅ ∅ []) = Some ((nextvals name n (Mem (KV.View m true false []))).1, w).
Proof.
  intros Hs. apply (run_allocVals tid name n (World m ∅ ∅ []) d (Mem (KV.View m true false []))); [done..|].
  by apply (ready_stored name (World m ∅ ∅ []) d d).
Qed.

(** CACHE 2 on a sequence of three values: the second batch is cut short. *)
Definition exCached : SeqDesc := mkSeq 1 7 (go "s") [] 10 5 10 20 false 2 10 false.
Lemma exCached_at : seq_at {[sqlSeqKey (go "s") := marshalSeq exCached]} (go "s") exCached.
Proof. split; [apply lookup_singleton_eq|done|split; vm_compute; intuition congruence|done]. Qed.

Lemma seqobj_draws_like_nextval_witness : exists w,
  run 0 (allocVals (go "s") 3) (World {[sqlSeqKey (go "s") := marshalSeq exCached]} ∅ ∅ []) = Some (Ok [10; 15; 20], w).
Proof.
  destruct (seqobj_draws_like_nextval 0 (go "s") exCached 3 _ exCached_at) as [w Hw]. exists w. rewrite Hw. vm_compute. reflexivity.
Defined.
