(* ===== verification/View.v ===== *)
(** * Views

    [view.go]: a view is a name bound to the text of a query, stored as a
    JSON record in the namespace tables and sequences share. *)
From S2P Require Import Prelude GoVal GoStr Tuple KV Json Catalog Desc Seq Dml Relation Engine Store Database Ddl DdlTable SeqObj.

Local Open Scope Z_scope.

Record ViewDesc := mkView { vwName : bytes; vwQuery : bytes }.

Definition viewJSON (v : ViewDesc) : json := JObj [(go "name", JStr (vwName v)); (go "query", JStr (vwQuery v))].
Definition decView : json -> option ViewDesc := decObj (λ m,
  name ← decStr (field m (go "name")); query ← decStr (field m (go "query")); Some (mkView name query)).
Definition marshalView (v : ViewDesc) : bytes := printJSON true (viewJSON v).
Definition unmarshalView (blob : bytes) : option ViewDesc := parseJSON blob ≫= decView.

Definition errViewName : error := ENew (go "view name is required").
Definition errViewQuery : error := ENew (go "view query is required").

Section views.
Context {E S : Type} {eng : EngineOps E} {grd : Guarded E} {tx : Type} {kv : KV tx} {db : DB E S tx}.

Definition CreateViewIn (name query : bytes) (orReplace : bool) : M (E * tx) unit :=
  taken ← onTx (gets (λ t, kv_contains (descKey name) t || kv_contains (sqlSeqKey name) t));
  if (taken : bool) then fail (errRelationExists name)
  else
    exists_ ← onTx (gets (λ t, negb orReplace && kv_contains (viewKey name) t));
    if (exists_ : bool) then fail (errRelationExists name)
    else onTx (kv_set (viewKey name) (marshalView (mkView name query))).
Definition CreateView (name query : bytes) (orReplace : bool) : M (E * S) unit :=
  if bool_decide (name = []) then fail errViewName
  else if bool_decide (query = []) then fail errViewQuery
  else updateDDL' (CreateViewIn name query orReplace).

Definition DropViewIn (name : bytes) : M (E * tx) bool := onTx (kv_delete (viewKey name)).
Definition DropView (name : bytes) : M (E * S) bool := updateDDL' (DropViewIn name).

(** Absent and unreadable records are both no view. *)
Definition View (name : bytes) (t : tx) : option ViewDesc := kv_get (viewKey name) t ≫= unmarshalView.
Definition viewPrefix : bytes := mustEncode [AInt KInt64 sysViewTableID; AInt KInt64 primaryIndexID].
Definition Views (t : tx) : list ViewDesc := omap (λ kv, unmarshalView kv.2) (ascend_to viewPrefix (prefixEnd viewPrefix) t).
End views.

(** ** Records read back *)

Lemma unmarshalView_marshal v : unmarshalView (marshalView v) = Some (mkView (clean (vwName v)) (clean (vwQuery v))).
Proof.
  unfold unmarshalView, marshalView. rewrite parseJSON_print.
  2: { apply (jok_mono 1); [unfold maxNestingDepth; lia|]. struct_ok; by constructor. }
  cbn [mbind option_bind]. unfold viewJSON. clean_struct. unfold decView, decObj. fields. done.
Qed.

(** The names and texts are valid UTF-8. *)
Definition view_at (m : kvmap) (name query : bytes) : Prop :=
  m !! viewKey name = Some (marshalView (mkView name query)) /\ clean name = name /\ clean query = query.

Section laws.
Context {E : Type} {eng : EngineOps E} {cs : CatState E} {cat_laws : CatLaws E}.
Context {tx : Type} {kv : KV tx} {kv_laws : KVLaws tx}.

Lemma View_at (t : tx) name query : view_at (kv_map t) name query -> View name t = Some (mkView name query).
Proof. intros (Hv & Hn & Hq). unfold View. rewrite kv_get_map, Hv. cbn [mbind option_bind]. rewrite unmarshalView_marshal. cbn [vwName vwQuery]. by rewrite Hn, Hq. Qed.

Lemma CreateViewIn_wp (name query : bytes) orReplace (e : E) (t : tx) : ready e t -> clean name = name -> clean query = query ->
  wp (CreateViewIn name query orReplace) (ddl e (λ _ m', view_at m' name query /\ one_record (viewKey name) (kv_map t) m' /\
    kv_map t !! descKey name = None /\ kv_map t !! sqlSeqKey name = None /\
    (orReplace = false -> kv_map t !! viewKey name = None))) (e, t).
Proof.
  intros Hr Hn Hq. unfold CreateViewIn. apply wp_bind, wp_onTx, wp_gets. cbn [seqQ].
  destruct (kv_contains (descKey name) t) eqn:E1; [by apply wp_fail|]. apply kv_contains_false in E1.
  destruct (kv_contains (sqlSeqKey name) t) eqn:E2; [by apply wp_fail|]. apply kv_contains_false in E2. cbn [orb].
  apply wp_bind, wp_onTx, wp_gets. cbn [seqQ]. destruct (negb orReplace && _) eqn:E3; [by apply wp_fail|].
  apply wp_onTx, wp_set. rewrite (rd_writable _ _ Hr). intros t' Ht.
  apply (ddl_recorded (viewKey name) _ _ e e t t' Hr); [done|apply viewKey_record| |].
  - rewrite (writes_map _ _ _ Ht). split; [intros k K1 _; by rewrite lookup_insert_ne|].
    left. apply lookup_insert_ne, record_not_seqKey, viewKey_record.
  - rewrite (writes_map _ _ _ Ht). intros Hone. split; [split_and!; [apply lookup_insert_eq|done..]|]. split_and!; try done.
    intros ->. cbn in E3. by apply kv_contains_false in E3.
Qed.

Lemma DropViewIn_wp (name : bytes) (e : E) (t : tx) : ready e t ->
  wp (DropViewIn name) (ddl e (λ existed m', existed = kv_contains (viewKey name) t /\
    m' !! viewKey name = None /\ one_record (viewKey name) (kv_map t) m')) (e, t).
Proof.
  intros Hr. unfold DropViewIn. apply wp_onTx, wp_delete. rewrite (rd_writable _ _ Hr). intros t' Ht.
  apply (ddl_recorded (viewKey name) _ _ e e t t' Hr); [done|apply viewKey_record| |].
  - rewrite (writes_map _ _ _ Ht). split; [intros k K1 _; by rewrite lookup_delete_ne|].
    left. apply lookup_delete_ne, record_not_seqKey, viewKey_record.
  - rewrite (writes_map _ _ _ Ht). intros Hone. split_and!; [done|apply lookup_delete_eq|done].
Qed.
End laws.
