(* ===== verification/DdlIndex.v ===== *)
(** * Creating and dropping indexes

    [index.go]'s [CreateIndex], [CreateIndexCols], with the backfill from
    the existing rows, and [DropIndex], which keeps the unique key a foreign
    key depends on ([fk.go]'s [uniqueKeyCovers]). *)
From S2P Require Import Prelude GoVal GoStr Tuple KV Json Time Jsonb Types Catalog Desc Rows Default Pairs Index Table Seq Upkeep Dml Relation Engine Store Database Ddl DdlColumn DdlAddDrop DdlTable.

Local Open Scope Z_scope.

Definition errIndexName : error := ENew (go "index name is required").
Definition errIndexCols : error := ENew (go "at least one indexed column is required").
Definition errIndexExists : error := ENew (go "index already exists").
Definition errIndexColumn : error := ENew (go "indexed column not declared").
Definition errDupIndexColumn : error := ENew (go "duplicate indexed column").
Definition errNotUnique : error := ENew (go "existing rows violate unique index").
Definition errNoIndex : error := ENew (go "no such index").
Definition errIndexNeeded : error := ENew (go "cannot drop the unique index a foreign key depends on").

(** ** Unique keys *)

(** [want] is a set: a column named twice counts once. *)
Fixpoint allWanted (d : TableDesc) (want : gset bytes) (ords : list nat) : outcome bool :=
  match ords with
  | [] => Ok true
  | o :: ords' =>
      c ← at_index (tColumns d) o;
      if bool_decide (colName c ∈ want) then allWanted d want ords' else Ok false
  end.
Definition sameSet (d : TableDesc) (want : gset bytes) (ords : list nat) : outcome bool :=
  if bool_decide (length ords <> size want) then Ok false else allWanted d want ords.
Fixpoint anyCovers (d : TableDesc) (want : gset bytes) (ixs : list IndexDesc) : outcome bool :=
  match ixs with
  | [] => Ok false
  | x :: ixs' =>
      same ← (if ixUnique x then sameSet d want (ixCols x) else Ok false);
      if (same : bool) then Ok true else anyCovers d want ixs'
  end.
Definition uniqueKeyCovers (d : TableDesc) (cols : list bytes) : outcome bool :=
  let want : gset bytes := list_to_set cols in
  same ← sameSet d want (tPKCols d);
  if (same : bool) then Ok true else anyCovers d want (tIndexes d).

(** ** Creating *)

Record IndexCol := mkIndexCol { icName : bytes; icDesc : bool }.

Fixpoint nextIndexID (id : Z) (ixs : list IndexDesc) : Z :=
  match ixs with
  | [] => id
  | x :: ixs' => nextIndexID (if id <=? ixID x then uint64 (ixID x + 1) else id) ixs'
  end.
Fixpoint resolveIndexCols (d : TableDesc) (cols : list IndexCol) (acc : list nat) : outcome (list nat) :=
  match cols with
  | [] => Ok acc
  | c :: cols' =>
      match ColIndex d (icName c) with
      | None => Err errIndexColumn
      | Some ord => if bool_decide (ord ∈ acc) then Err errDupIndexColumn else resolveIndexCols d cols' (acc ++ [ord])
      end
  end.
Definition newIndex (old : TableDesc) (name : bytes) (unique : bool) (cols : list IndexCol) : outcome IndexDesc :=
  ords ← resolveIndexCols old cols [];
  Ok (mkIndex (nextIndexID (primaryIndexID + 1) (tIndexes old)) name ords unique
        (if existsb icDesc cols then icDesc <$> cols else [])).

Definition with_indexes (d : TableDesc) (ixs : list IndexDesc) : TableDesc :=
  mkTable (tFormatVersion d) (tID d) (tName d) (tColumns d) (tPKCols d) ixs (tChecks d) (tForeignKeys d) (tNextColID d) None.

(** [slices.DeleteFunc(desc.Indexes, func(x) bool { return x.Name == name })] *)
Definition without (name : bytes) (ixs : list IndexDesc) : list IndexDesc := filter (λ x, ixName x <> name) ixs.

Section indexes.
Context {E S : Type} {eng : EngineOps E} {grd : Guarded E} {cs : CatState E} {tx : Type} {kv : KV tx} {db : DB E S tx}.

Definition rowEntry (d : TableDesc) (idx : IndexDesc) (e : bytes * bytes) : outcome (bytes * bytes) :=
  row ← decodeRow d e.1 e.2;
  '(ek, ev, _) ← indexEntry d idx (rVals row);
  Ok (ek, ev).
Definition putEntry (idx : IndexDesc) (e : bytes * bytes) : M tx unit :=
  taken ← gets (kv_contains e.1);
  if ixUnique idx && taken then fail errNotUnique else kv_set e.1 e.2.
Definition backfillIndex (d : TableDesc) (idx : IndexDesc) : M tx unit :=
  es ← gets (rowEntries (tID d));
  entries ← lift (traverse (rowEntry d idx) es);
  for_each (putEntry idx) entries.

Definition CreateIndexIn (table name : bytes) (unique : bool) (cols : list IndexCol) : M (E * tx) (option IndexDesc) :=
  alterDesc table (λ old,
    match Index old name with
    | Some _ => fail errIndexExists
    | None =>
        idx ← lift (newIndex old name unique cols);
        let desc := with_indexes old (tIndexes old ++ [idx]) in
        _ ← onTx (backfillIndex desc idx);
        mret (Some desc, Index desc name)
    end).
Definition CreateIndexCols (table name : bytes) (unique : bool) (cols : list IndexCol) : M (E * S) (option IndexDesc) :=
  if bool_decide (name = []) then fail errIndexName
  else if bool_decide (cols = []) then fail errIndexCols
  else
    _ ← onE e_CheckMemory;
    updateDDL' (CreateIndexIn table name unique cols).
Definition CreateIndex (table name : bytes) (unique : bool) (cols : list bytes) : M (E * S) (option IndexDesc) :=
  CreateIndexCols table name unique ((λ c, mkIndexCol c false) <$> cols).

(** ** Dropping *)

Fixpoint neededBy (old trimmed : TableDesc) (refs : list FKRef) : outcome bool :=
  match refs with
  | [] => Ok false
  | (_, f) :: refs' =>
      was ← uniqueKeyCovers old (fkRefCols f);
      still ← (if (was : bool) then uniqueKeyCovers trimmed (fkRefCols f) else Ok true);
      if (still : bool) then neededBy old trimmed refs' else Ok true
  end.

Definition DropIndexIn (table name : bytes) : M (E * tx) unit :=
  alterDesc table (λ old,
    match Index old name with
    | None => fail errNoIndex
    | Some idx =>
        let desc := with_indexes old (without name (tIndexes old)) in
        needed ← (if ixUnique idx then
                    refs ← referencingFKs table false;
                    lift (neededBy old desc refs)
                  else mret false);
        if (needed : bool) then fail errIndexNeeded
        else
          let prefix := indexPrefix (tID desc) (ixID idx) in
          _ ← onTx (kv_delete_range prefix (prefixEnd prefix));
          mret (Some desc, tt)
    end).
Definition DropIndex (table name : bytes) : M (E * S) unit := updateDDL' (DropIndexIn table name).

End indexes.

(** ** Which column sets are unique keys *)

Definition colNames (d : TableDesc) (ords : list nat) : list bytes :=
  (λ o, default [] (colName <$> tColumns d !! o)) <$> ords.
(** [cols] is, as a set, the primary key or the columns of a unique index. *)
Definition covers (d : TableDesc) (cols : list bytes) : Prop :=
  Exists (λ ords, list_to_set (colNames d ords) =@{gset bytes} list_to_set cols)
    (tPKCols d :: (ixCols <$> filter (λ x, ixUnique x = true) (tIndexes d))).

Lemma colNames_nodup d ords : cat_wf d -> Forall (λ o, o < length (tColumns d))%nat ords -> NoDup ords -> NoDup (colNames d ords).
Proof.
  intros Hw Hr Hnd. apply NoDup_fmap_2_strong; [|done]. intros o1 o2 H1 H2 E. rewrite Forall_forall in Hr.
  destruct (lookup_lt_is_Some_2 _ _ (Hr o1 H1)) as [c1 E1], (lookup_lt_is_Some_2 _ _ (Hr o2 H2)) as [c2 E2].
  rewrite E1, E2 in E. cbn in E. eapply (NoDup_lookup _ _ _ (colName c1) (wf_colName d (cw_wf d Hw))); rewrite list_lookup_fmap.
  - by rewrite E1.
  - by rewrite E2, E.
Qed.

Lemma allWanted_ok d want ords : Forall (λ o, o < length (tColumns d))%nat ords ->
  exists b, allWanted d want ords = Ok b /\ (b = true <-> Forall (λ n, n ∈ want) (colNames d ords)).
Proof.
  induction 1 as [|o ords Ho _ (b & Hb & IH)]; [by exists true|]. cbn [allWanted]. unfold at_index, colNames.
  destruct (lookup_lt_is_Some_2 _ _ Ho) as [c Hc]. rewrite Hc. cbn [mbind outcome_bind]. csimpl. rewrite Hc. cbn [fmap option_fmap option_map default].
  case_bool_decide as Hin.
  - exists b. split; [done|]. rewrite Forall_cons, IH. unfold colNames. naive_solver.
  - exists false. split; [done|]. rewrite Forall_cons. naive_solver.
Qed.

Lemma sameSet_ok d cols ords : cat_wf d -> Forall (λ o, o < length (tColumns d))%nat ords -> NoDup ords ->
  exists b, sameSet d (list_to_set cols) ords = Ok b /\ (b = true <-> list_to_set (colNames d ords) =@{gset bytes} list_to_set cols).
Proof.
  intros Hw Hr Hnd. pose proof (colNames_nodup d ords Hw Hr Hnd) as Hn.
  assert (size (list_to_set (colNames d ords) : gset bytes) = length ords) as Hsz.
  { rewrite size_list_to_set by done. unfold colNames. apply length_fmap. }
  unfold sameSet. case_bool_decide as Hl.
  - exists false. split; [done|]. split; [done|]. intros Hs. by rewrite <- Hs, Hsz in Hl.
  - destruct (allWanted_ok d (list_to_set cols) ords Hr) as (b & Hb & Hf). exists b. split; [done|]. rewrite Hf, Forall_forall. split.
    + intros Hall. apply leibniz_equiv, set_subseteq_size_equiv; [set_solver|]. lia.
    + intros <-. set_solver.
Qed.

Lemma anyCovers_ok d cols ixs : cat_wf d ->
  Forall (λ x, Forall (λ o, o < length (tColumns d))%nat (ixCols x) /\ NoDup (ixCols x)) ixs ->
  exists b, anyCovers d (list_to_set cols) ixs = Ok b /\
    (b = true <-> Exists (λ ords, list_to_set (colNames d ords) =@{gset bytes} list_to_set cols) (ixCols <$> filter (λ x, ixUnique x = true) ixs)).
Proof.
  intros Hw. induction 1 as [|x ixs [Hr Hnd] _ (b & Hb & IH)]; [exists false; by rewrite Exists_nil|].
  cbn [anyCovers]. rewrite filter_cons. destruct (ixUnique x) eqn:Eu.
  - rewrite decide_True by done. destruct (sameSet_ok d cols (ixCols x) Hw Hr Hnd) as (s & -> & Hs). cbn [mbind outcome_bind].
    csimpl. setoid_rewrite Exists_cons. destruct s; [exists true; naive_solver|]. exists b. split; [done|]. rewrite IH. naive_solver.
  - rewrite decide_False by done. cbn [mbind outcome_bind]. by exists b.
Qed.

Lemma uniqueKeyCovers_ok d cols : cat_wf d -> exists b, uniqueKeyCovers d cols = Ok b /\ (b = true <-> covers d cols).
Proof.
  intros Hw. unfold uniqueKeyCovers, covers. pose proof (cw_wf d Hw) as W.
  destruct (sameSet_ok d cols (tPKCols d) Hw (wf_pk_range d W) (wf_pk_nodup d W)) as (s & -> & Hs). cbn [mbind outcome_bind].
  setoid_rewrite Exists_cons. destruct s; [exists true; naive_solver|].
  destruct (anyCovers_ok d cols (tIndexes d) Hw) as (b & Hb & Hc).
  { pose proof (wf_ixCols d W) as H1. pose proof (cw_ixCols d Hw) as H2. rewrite Forall_forall in *. naive_solver. }
  exists b. split; [done|]. rewrite Hc. naive_solver.
Qed.

(** ** The same rows under other indexes *)

Section reindexed.
Context (d : TableDesc) (ixs : list IndexDesc) (m m1 : kvmap).
Let d0 := with_indexes d ixs.
Hypothesis Hw : cat_wf d.
Hypothesis Hw0 : cat_wf d0.
Hypothesis Hok : table_ok d m.
Hypothesis Hrow : forall k, tablePrefix (tID d) `prefix_of` k -> m1 !! k = m !! k.
Hypothesis Hix : forall x k v, x ∈ ixs -> indexPrefix (tID d) (ixID x) `prefix_of` k ->
  m1 !! k = Some v <-> exists row, stored d m row /\ k = index_key d x row /\ v = index_val d x row.

Lemma layout_reindexed : layout d d0.
Proof. split; try done; [apply Hw|apply Hw0]. Qed.
Lemma reindexed_stored row : stored d0 m1 row <-> stored d m row.
Proof.
  pose proof (layout_decode d d0 layout_reindexed) as Hd. unfold stored. change (row_key d0 row) with (row_key d row).
  rewrite (Hrow (row_key d row)) by apply row_key_prefix. split; intros (H1 & v & Hv & H2); (split; [done|]); exists v; by rewrite Hd in *.
Qed.

Lemma reindexed_ok : tidy d0 m1 -> table_ok d0 m1.
Proof.
  intros Ht. destruct Hok as [Hti Hids _]. split; [split|..]; [| |..|done].
  - intros k v Hk Hp. rewrite Hrow in Hk by done.
    eapply (layout_inv_rows d d0 layout_reindexed); [done| |done|done]. intros row Hst. by apply (stored_ok d m row).
  - intros x k v Hx Hp. rewrite (Hix x k v Hx Hp). split; intros (row & Hst & H); exists row; (split; [by apply reindexed_stored|done]).
  - intros k v Hk Hp. rewrite Hrow in Hk by done. exact (Hids k v Hk Hp).
Qed.
Lemma reindexed_abstracts T : abstracts d m T -> abstracts d0 m1 T.
Proof. intros [H1 H2]. split; [|done]. intros row. rewrite reindexed_stored. apply H1. Qed.

End reindexed.

Section laws.
Context {E : Type} {eng : EngineOps E} {cs : CatState E} {cat_laws : CatLaws E}.
Context {tx : Type} {kv : KV tx} {kv_laws : KVLaws tx}.

Lemma mutates_reindexed {A : Type} (table : bytes) (d : TableDesc) (ixs : list IndexDesc) (a : A) (R : A -> kvmap -> Prop) (e : E) (t t1 : tx) :
  ready e t -> table_at (kv_map t) table d -> cat_wf d -> cat_wf (with_indexes d ixs) -> kv_writable t1 = true ->
  (forall k, tablePrefix (tID d) `prefix_of` k \/ ~ tableSpace (tID d) `prefix_of` k -> kv_map t1 !! k = kv_map t !! k) ->
  (forall x k v, x ∈ ixs -> indexPrefix (tID d) (ixID x) `prefix_of` k ->
    kv_map t1 !! k = Some v <-> exists row, stored d (kv_map t) row /\ k = index_key d x row /\ v = index_val d x row) ->
  tidy (with_indexes d ixs) (kv_map t1) ->
  (forall m', altered table d (with_indexes d ixs) id (kv_map t) m' -> R a m') ->
  mutates table e R (Ok (Some (with_indexes d ixs), a)) (e, t1).
Proof.
  intros Hr Hat Hw Hw0 Hwr Hrow Hix Ht HR. pose proof (db_table _ (rd_db _ _ Hr) table d Hat) as Hok.
  destruct (alter_rows (kv_map t) (kv_map t1) table d (with_indexes d ixs) id) as [Hdb Hal]; try done.
  - apply Hr.
  - intros k Hk _ _. apply Hrow. by right.
  - apply (reindexed_ok d ixs (kv_map t)); auto.
  - intros T. apply (reindexed_abstracts d ixs (kv_map t)); auto.
  - split_and!; [done..|]. by apply HR.
Qed.


(** *** The new index *)

Lemma nextIndexID_spec ixs id : id < 2 ^ 64 -> Forall (λ x, 0 <= ixID x < 2 ^ 64 - 1) ixs ->
  id <= nextIndexID id ixs < 2 ^ 64 /\ Forall (λ x, ixID x < nextIndexID id ixs) ixs.
Proof.
  intros Hid H. revert id Hid. induction H as [|x ixs Hx _ IH]; intros id Hid; cbn [nextIndexID]; [split; [lia|constructor]|].
  destruct (Z.leb_spec id (ixID x)).
  - assert (uint64 (ixID x + 1) = ixID x + 1) as -> by (unfold uint64; apply Z.mod_small; lia).
    destruct (IH (ixID x + 1)) as [H1 H2]; [lia|]. split; [lia|]. constructor; [lia|done].
  - destruct (IH id) as [H1 H2]; [lia|]. split; [lia|]. constructor; [lia|done].
Qed.

Lemma resolveIndexCols_ok d cols acc l : resolveIndexCols d cols acc = Ok l -> NoDup acc ->
  Forall (λ o, o < length (tColumns d))%nat acc ->
  exists l', l = acc ++ l' /\ NoDup l /\ Forall (λ o, o < length (tColumns d))%nat l /\
    Forall2 (λ o c, exists col, tColumns d !! o = Some col /\ colName col = icName c) l' cols.
Proof.
  revert acc. induction cols as [|c cols IH]; intros acc; cbn [resolveIndexCols].
  { intros [= <-] Hnd Hr. exists []. rewrite app_nil_r. by split_and!. }
  destruct (ColIndex d (icName c)) as [ord|] eqn:Ei; [|done]. case_bool_decide as Hin; [done|]. intros H Hnd Hr.
  destruct (ColIndex_Some d _ _ Ei) as (col & Hc & Hn).
  destruct (IH _ H) as (l' & -> & H1 & H2 & H3).
  - apply NoDup_app. split_and!; [done| |apply NoDup_singleton]. set_solver.
  - apply Forall_app. split; [done|]. repeat constructor. by eapply lookup_lt_Some.
  - exists (ord :: l'). rewrite <- app_assoc in *. split_and!; [done..|]. constructor; [by exists col|done].
Qed.

Lemma newIndex_no_panic d name unique cols p : newIndex d name unique cols <> Panic p.
Proof.
  unfold newIndex. destruct (resolveIndexCols d cols []) as [| |q] eqn:Er; [done..|]. exfalso. revert Er.
  generalize (@nil nat). induction cols as [|c cols IH]; intros acc; cbn; [done|]. destruct (ColIndex d (icName c)); [|done].
  case_bool_decide; [done|]. apply IH.
Qed.

(** No name is used twice, and IDs grow. *)
Lemma newIndex_ok d name unique cols idx : cat_wf d -> Index d name = None -> clean name = name -> cols <> [] ->
  Forall (λ x, ixID x < 2 ^ 64 - 1) (tIndexes d) -> newIndex d name unique cols = Ok idx ->
  cat_wf (with_indexes d (tIndexes d ++ [idx])) /\ Forall (λ x, ixID x < ixID idx) (tIndexes d) /\
  ixName idx = name /\ ixUnique idx = unique /\
  Forall2 (λ o c, exists col, tColumns d !! o = Some col /\ colName col = icName c) (ixCols idx) cols /\
  (forall i c, cols !! i = Some c -> DescAt idx i = icDesc c).
Proof.
  intros Hw Hnew Hc Hne Hids H. pose proof (columns_bound d (cw_wf d Hw)) as Hlen. apply outcome_bind_ok in H as (ords & Hres & [= <-]).
  apply resolveIndexCols_ok in Hres as (l' & -> & Hnd & Hr & Hf2); [|constructor..]. change ([] ++ l') with l' in *.
  destruct Hw as [W R U N T I X F]. pose proof (wf_ixID_range d W) as Hrg.
  destruct (nextIndexID_spec (tIndexes d) (primaryIndexID + 1)) as [Hb Hlt]; [done| |].
  { rewrite Forall_forall in *. intros x Hx. specialize (Hrg x Hx). specialize (Hids x Hx). unfold primaryIndexID in *. lia. }
  set (idx := mkIndex _ _ _ _ _).
  assert (forall P : IndexDesc -> Prop, Forall P (tIndexes d) -> P idx -> Forall P (tIndexes d ++ [idx])) as HF.
  { intros P H1 H2. apply Forall_app. split; [done|by repeat constructor]. }
  assert (forall (A : Type) (f : IndexDesc -> A), NoDup (f <$> tIndexes d) -> f idx ∉ f <$> tIndexes d -> NoDup (f <$> (tIndexes d ++ [idx]))) as HN.
  { intros A f H1 H2. rewrite fmap_app. apply NoDup_app. split_and!; [done| |apply NoDup_singleton].
    intros x Hx ->%list_elem_of_singleton. done. }
  split_and!; try done.
  - split; cbn; try done.
    + destruct W. split; cbn; try done; try (by left).
      * apply HN; [done|]. intros (x & Ex & Hx)%list_elem_of_fmap. rewrite Forall_forall in Hlt. specialize (Hlt x Hx). cbn in Ex. lia.
      * apply HF; [done|]. cbn. unfold primaryIndexID in *. lia.
      * apply HN; [done|]. intros (x & Ex & Hx)%list_elem_of_fmap. unfold Index in Hnew. apply fmap_None in Hnew.
        apply list_find_None in Hnew. rewrite Forall_forall in Hnew. by apply (Hnew x Hx).
      * by apply HF.
    + destruct R. split; cbn; try done. apply HF; [done|]. cbn. unfold uint64_ok, primaryIndexID in *. split; [lia|].
      eapply Forall_impl; [exact Hr|]. intros o. cbn. unfold maxInt64. lia.
    + destruct U as (U1 & U2 & U3 & U4 & U5). split_and!; cbn; try done. apply HF; [done|]. unfold cleanIndex. by change (clean (ixName idx)) with (clean name); rewrite Hc.
    + apply HF; [done|]. split; [|done]. cbn. intros ->. by apply Forall2_nil_inv_l in Hf2.
  - intros i c Hi. unfold DescAt. cbn. destruct (existsb icDesc cols) eqn:Ex; [by rewrite list_lookup_fmap, Hi|].
    cbn. apply existsb_false in Ex. by eapply Forall_lookup_1 in Ex.
Qed.

(** *** The backfill *)

Definition put_all (es : list (bytes * bytes)) (m : kvmap) : kvmap := foldl (λ m e, <[e.1 := e.2]> m) m es.

Lemma lookup_put_all es m k : k ∉ es.*1 -> put_all es m !! k = m !! k.
Proof.
  revert m. induction es as [|e es IH]; intros m Hk; [done|]. csimpl in Hk. apply not_elem_of_cons in Hk as [H1 H2].
  change (put_all (e :: es) m) with (put_all es (<[e.1 := e.2]> m)). by rewrite IH, lookup_insert_ne.
Qed.
Lemma lookup_put_all_in es m k v : NoDup es.*1 -> (k, v) ∈ es -> put_all es m !! k = Some v.
Proof.
  revert m. induction es as [|e es IH]; intros m Hnd Hin; [by apply elem_of_nil in Hin|].
  csimpl in Hnd. apply NoDup_cons in Hnd as [Hn Hnd]. change (put_all (e :: es) m) with (put_all es (<[e.1 := e.2]> m)).
  apply elem_of_cons in Hin as [<-|Hin]; [|by apply IH].
  rewrite lookup_put_all by done. apply lookup_insert_eq.
Qed.

Lemma putEntries_wp idx es (t : tx) : kv_writable t = true ->
  wp (for_each (putEntry idx) es) (λ o t', kv_writable t' = true /\
    match o with
    | Ok _ => kv_map t' = put_all es (kv_map t) /\
        (ixUnique idx = true -> NoDup es.*1 /\ Forall (λ e, kv_map t !! e.1 = None) es)
    | Err _ => True
    | Panic _ => False
    end) t.
Proof.
  revert t. induction es as [|e es IH]; intros t Hw; [apply wp_ret; split_and!; [done..|]; intros _; split; constructor|].
  cbn [for_each]. apply wp_bind. unfold putEntry at 1. apply wp_bind, wp_gets. cbn [seqQ].
  destruct (ixUnique idx && kv_contains e.1 t) eqn:Ec; [by apply wp_fail|]. apply wp_set. rewrite Hw. intros t1 Ht1. cbn [seqQ].
  eapply wp_mono; [apply IH; by rewrite (writes_writable _ _ _ Ht1)|].
  intros [[]|er|p] t2 [Hw2 H]; (split; [done|]); try done. destruct H as [Hm Hu]. rewrite (writes_map _ _ _ Ht1) in Hm, Hu.
  split; [done|]. intros Eu. destruct (Hu Eu) as [Hnd Hf]. rewrite Eu in Ec. apply kv_contains_false in Ec.
  assert (forall e', e' ∈ es -> e'.1 <> e.1 /\ kv_map t !! e'.1 = None) as Hne.
  { intros e' He'. rewrite Forall_forall in Hf. specialize (Hf e' He'). rewrite lookup_insert in Hf. by case_decide. }
  split.
  - csimpl. apply NoDup_cons. split; [|done]. intros (e' & Ee & He')%list_elem_of_fmap. by destruct (Hne e' He').
  - constructor; [done|]. apply Forall_forall. intros e' He'. by apply Hne.
Qed.

(** The entries of the stored rows, in key order. *)
Lemma rowEntries_traverse (d : TableDesc) (idx : IndexDesc) (t : tx) : cat_wf d -> cat_wf (with_indexes d (tIndexes d ++ [idx])) ->
  table_inv d (kv_map t) -> exists ens rows, traverse (rowEntry (with_indexes d (tIndexes d ++ [idx])) idx) (rowEntries (tID d) t) = Ok ens /\
    ens = (λ row, (index_key d idx row, index_val d idx row)) <$> rows /\ NoDup rows /\ forall row, row ∈ rows <-> stored d (kv_map t) row.
Proof.
  intros Hw Hw0 Hti. set (d0 := with_indexes d (tIndexes d ++ [idx])). set (es := rowEntries (tID d) t).
  assert (Forall (λ e, stored d (kv_map t) (rowOf d e) /\ e.1 = row_key d (rowOf d e) /\
    rowEntry d0 idx e = Ok (index_key d idx (rowOf d e), index_val d idx (rowOf d e))) es) as Hes.
  { apply Forall_forall. intros [k v] [Hk Hp]%rowEntries_elem. destruct (rowOf_stored d _ k v Hti Hk Hp) as (Hst & Hkr & Hd).
    split_and!; [done..|].
    unfold rowEntry. cbn [fst snd]. rewrite (proj2 (layout_decode d d0 (layout_reindexed d (tIndexes d ++ [idx]) Hw Hw0) _ _ _) Hd).
    cbn [mbind outcome_bind rVals]. rewrite (indexEntry_canon d0 (cw_wf d0 Hw0) idx); [done| |exact (stored_canon d _ _ Hst)].
    cbn. set_solver. }
  exists ((λ e, (index_key d idx (rowOf d e), index_val d idx (rowOf d e))) <$> es), (rowOf d <$> es).
  split_and!.
  - apply traverse_ok. apply Forall2_fmap_r, Forall_Forall2_diag. eapply Forall_impl; [exact Hes|]. by intros e (_ & _ & H).
  - by rewrite <- list_fmap_compose.
  - apply NoDup_fmap_2_strong; [|eapply NoDup_fmap_1, (rowEntries_nodup (tID d) t)].
    intros [k1 v1] [k2 v2] H1 H2 Er. rewrite Forall_forall in Hes. destruct (Hes _ H1) as (_ & K1 & _), (Hes _ H2) as (_ & K2 & _).
    cbn [fst] in K1, K2. apply rowEntries_elem in H1 as [H1 _], H2 as [H2 _]. congruence.
  - intros row. rewrite list_elem_of_fmap. split.
    + intros (e & -> & He). rewrite Forall_forall in Hes. by apply Hes.
    + intros Hst. pose proof Hst as (_ & v & Hv & Hd). exists (row_key d row, v).
      split; [unfold rowOf; cbn [fst snd]; by rewrite Hd|]. by apply stored_entry.
Qed.

Lemma indexPrefix_other (d : TableDesc) (x y : IndexDesc) k : cat_wf d -> x ∈ tIndexes d -> y ∈ tIndexes d -> ixID x <> ixID y ->
  indexPrefix (tID d) (ixID x) `prefix_of` k -> ~ indexPrefix (tID d) (ixID y) `prefix_of` k.
Proof.
  intros Hw Hx Hy Hne Hp Hq. pose proof (cw_wf d Hw) as Hwf.
  destruct (indexPrefix_disjoint (tID d) (ixID x) (tID d) (ixID y) k) as [_ Eid]; [by apply tID_uint64|by eapply ixID_uint64|by apply tID_uint64|by eapply ixID_uint64|done..].
Qed.

(** The entries written are those of the stored rows, and nothing else is
    under the new index's prefix. *)
Lemma indexed (d : TableDesc) (idx : IndexDesc) (m : kvmap) rows ens : cat_wf (with_indexes d (tIndexes d ++ [idx])) ->
  tidy d m -> (forall row, row ∈ rows <-> stored d m row) -> NoDup rows ->
  ens = (λ row, (index_key d idx row, index_val d idx row)) <$> rows ->
  (ixUnique idx = true -> NoDup ens.*1) -> forall k v, indexPrefix (tID d) (ixID idx) `prefix_of` k ->
  put_all ens m !! k = Some v <-> exists row, stored d m row /\ k = index_key d idx row /\ v = index_val d idx row.
Proof.
  intros Hw0 Ht Hrows Hnd Hens Hu k v Hp. set (d0 := with_indexes d (tIndexes d ++ [idx])) in *.
  assert (idx ∈ tIndexes d0) as Hidx by (cbn; set_solver).
  assert (NoDup ens.*1) as Hnd'.
  { destruct (ixUnique idx) eqn:Eu; [by apply Hu|]. rewrite Hens, <- list_fmap_compose. apply NoDup_fmap_2_strong; [|done].
    intros r1 r2 H1%Hrows H2%Hrows Ek. cbn in Ek.
    destruct (index_key_inj d0 idx r1 r2 (stored_canon d _ _ H1) (stored_canon d _ _ H2) Ek) as (_ & _ & Hpk).
    eapply (stored_pk_unique d m); [done..|]. apply Hpk. unfold enforced. by rewrite Eu. }
  assert (m !! k = None) as Hnone.
  { destruct (m !! k) as [b|] eqn:Eb; [exfalso|done]. destruct (Ht k) as [Hr|(x & Hx & Hpx)%Exists_exists].
    - by exists b.
    - by eapply indexPrefix_space.
    - by eapply (inv_index_not_row d0 (cw_wf _ Hw0) idx k).
    - eapply (indexPrefix_other d0 x idx k); [done|cbn; set_solver|done| |done|done].
      pose proof (wf_ixID d0 (cw_wf _ Hw0)) as Hn. cbn in Hn. rewrite fmap_app in Hn. apply NoDup_app in Hn as (_ & Hn & _).
      intros Eid. apply (Hn (ixID x)); [apply list_elem_of_fmap; by exists x|]. rewrite Eid. cbn. set_solver. }
  split.
  - destruct (decide (k ∈ ens.*1)) as [Hin|Hin]; [|rewrite lookup_put_all by done; congruence].
    apply list_elem_of_fmap in Hin as ([k' v'] & Ek & Hin). cbn in Ek. subst k'. rewrite (lookup_put_all_in ens m k v') by done. intros [= ->].
    rewrite Hens in Hin. apply list_elem_of_fmap in Hin as (row & [= -> ->] & Hrow). exists row. split; [by apply Hrows|done].
  - intros (row & Hst & -> & ->). apply lookup_put_all_in; [done|]. rewrite Hens. apply list_elem_of_fmap. exists row. split; [done|]. by apply Hrows.
Qed.

Lemma backfillIndex_wp (d : TableDesc) (idx : IndexDesc) (t : tx) : cat_wf d -> cat_wf (with_indexes d (tIndexes d ++ [idx])) ->
  table_ok d (kv_map t) -> kv_writable t = true ->
  wp (backfillIndex (with_indexes d (tIndexes d ++ [idx])) idx) (λ o t', kv_writable t' = true /\
    match o with
    | Ok _ => (forall k, ~ indexPrefix (tID d) (ixID idx) `prefix_of` k -> kv_map t' !! k = kv_map t !! k) /\
        forall k v, indexPrefix (tID d) (ixID idx) `prefix_of` k ->
          kv_map t' !! k = Some v <-> exists row, stored d (kv_map t) row /\ k = index_key d idx row /\ v = index_val d idx row
    | Err _ => True
    | Panic _ => False
    end) t.
Proof.
  intros Hw Hw0 [Hti _ Ht] Hwr. unfold backfillIndex. apply wp_bind, wp_gets. cbn [seqQ]. cbn [tID with_indexes].
  destruct (rowEntries_traverse d idx t Hw Hw0 Hti) as (ens & rows & Htr & Hens & Hnd & Hrows).
  apply wp_bind_lift. rewrite Htr. cbn [seqQ]. eapply wp_mono; [by apply putEntries_wp|].
  intros [[]|er|p] t' [Hw' H]; (split; [done|]); try done. destruct H as [-> Hu]. split.
  - intros k Hk. apply lookup_put_all. rewrite Hens, <- list_fmap_compose. intros (row & -> & _)%list_elem_of_fmap.
    apply Hk. apply index_key_prefix.
  - eapply indexed; try done. intros Eu. by apply Hu.
Qed.

(** A key outside the new index's prefix but in an old one's keeps its entry. *)
Lemma CreateIndexIn_wp (table name : bytes) (unique : bool) (cols : list IndexCol) (e : E) (t : tx) : ready e t ->
  clean name = name -> cols <> [] ->
  (forall d, table_at (kv_map t) table d -> Forall (λ x, ixID x < 2 ^ 64 - 1) (tIndexes d)) ->
  wp (CreateIndexIn table name unique cols) (ddl e (λ r m', exists d idx, newIndex d name unique cols = Ok idx /\ r = Some idx /\
    Index d name = None /\ altered table d (with_indexes d (tIndexes d ++ [idx])) id (kv_map t) m')) (e, t).
Proof.
  intros Hr Hc Hne Hb. apply wp_alterDesc; [done|]. intros d e' Hr' He Hat Hnm Hw. pose proof (Hb d Hat) as Hids.
  destruct (Index d name) eqn:Ei; [by apply wp_fail, mutates_err; [|apply Hr]|].
  apply wp_bind_lift. destruct (newIndex d name unique cols) as [idx|er|p] eqn:En; cbn [seqQ]; [|by apply mutates_err; [|apply Hr]|].
  2: by apply newIndex_no_panic in En.
  cbv zeta. destruct (newIndex_ok d name unique cols idx Hw Ei Hc Hne Hids En) as (Hw0 & Hlt & Hname & _).
  apply wp_bind, wp_onTx. pose proof (db_table _ (rd_db _ _ Hr) table d Hat) as Hok. eapply wp_mono.
  { apply backfillIndex_wp; [done..|apply Hr]. }
  intros o t1 [Hw1 H]. destruct o as [[]|er|p]; cbn [seqQ]; [|by apply mutates_err|done]. destruct H as [Hother Hnew]. apply wp_ret.
  set (d0 := with_indexes d (tIndexes d ++ [idx])) in *. assert (idx ∈ tIndexes d0) as Hidx by (cbn; set_solver).
  assert (Index d0 name = Some idx) as ->.
  { unfold Index in *. apply fmap_None in Ei. cbn. rewrite list_find_app_r by done. cbn. by rewrite decide_True. }
  assert (forall x, x ∈ tIndexes d -> ixID x <> ixID idx) as Hdiff by (rewrite Forall_forall in Hlt; intros x Hx; specialize (Hlt x Hx); lia).
  apply (mutates_reindexed table d _ _ _ e' t t1); try done.
  - intros k Hk. apply Hother. intros Hp. destruct Hk as [Hk|Hk]; [by eapply (inv_index_not_row d0 (cw_wf _ Hw0) idx k)|].
    by eapply Hk, indexPrefix_space.
  - intros x k v Hx Hp. apply elem_of_app in Hx as [Hx|Hx]; [|apply list_elem_of_singleton in Hx as ->; by apply Hnew].
    rewrite Hother; [by apply (inv_index d _ (to_inv _ _ Hok))|].
    eapply (indexPrefix_other d0 x idx k); [done|cbn; set_solver|done|by apply Hdiff|done].
  - intros k Hs Hp. destruct (decide (indexPrefix (tID d) (ixID idx) `prefix_of` k)) as [Hi|Hi].
    + right. apply Exists_exists. by exists idx.
    + rewrite Hother in Hs by done. destruct (to_tidy _ _ Hok k Hs Hp) as [|Hx]; [by left|right]. cbn. apply Exists_app. by left.
  - intros m' Hal. by exists d, idx.
Qed.

(** *** Dropping *)

Lemma neededBy_ok old trimmed refs : cat_wf old -> cat_wf trimmed -> exists b, neededBy old trimmed refs = Ok b /\
  (b = false <-> forall d f, (d, f) ∈ refs -> covers old (fkRefCols f) -> covers trimmed (fkRefCols f)).
Proof.
  intros Hw Hw'. induction refs as [|[d f] refs (b & Hb & IH)]; [exists false; split; [done|]; split; [by intros _ ?? ?%elem_of_nil|done]|].
  cbn [neededBy]. destruct (uniqueKeyCovers_ok old (fkRefCols f) Hw) as (was & -> & Hwas). cbn [mbind outcome_bind].
  destruct (uniqueKeyCovers_ok trimmed (fkRefCols f) Hw') as (still & Hst & Hstill).
  assert (exists s, (if was then uniqueKeyCovers trimmed (fkRefCols f) else Ok true) = Ok s /\
    (s = true <-> (covers old (fkRefCols f) -> covers trimmed (fkRefCols f)))) as (s & -> & Hs).
  { destruct was; [exists still; naive_solver|exists true; naive_solver]. }
  cbn [mbind outcome_bind]. destruct s.
  - exists b. split; [done|]. rewrite IH. split.
    + intros H d' f' [[= -> ->]|Hin]%elem_of_cons; [by apply Hs|by eapply H].
    + intros H d' f' Hin. eapply H. by right.
  - exists true. split; [done|]. split; [done|]. intros H. exfalso. assert (false = true); [|done]. apply Hs, (H d f). by left.
Qed.

Lemma cat_wf_without d name : cat_wf d -> cat_wf (with_indexes d (without name (tIndexes d))).
Proof.
  intros [W R U N T I X F].
  assert (forall P : IndexDesc -> Prop, Forall P (tIndexes d) -> Forall P (without name (tIndexes d))) as HF.
  { intros P HP. apply Forall_forall. intros x [_ Hx]%list_elem_of_filter. by eapply Forall_forall in HP. }
  assert (forall (A : Type) (f : IndexDesc -> A), NoDup (f <$> tIndexes d) -> NoDup (f <$> without name (tIndexes d))) as HN.
  { intros A f Hnd. eapply sublist_NoDup; [exact Hnd|]. apply fmap_sublist, sublist_filter. }
  split; cbn; try done; auto.
  - destruct W. split; cbn; try done; auto.
  - destruct R. split; cbn; try done; auto.
  - destruct U as (U1 & U2 & U3 & U4 & U5). split_and!; cbn; try done; auto.
Qed.

Lemma DropIndexIn_wp (table name : bytes) (e : E) (t : tx) : ready e t ->
  wp (DropIndexIn table name) (ddl e (λ _ m', exists d idx, let d0 := with_indexes d (without name (tIndexes d)) in
    Index d name = Some idx /\ altered table d d0 id (kv_map t) m' /\
    (ixUnique idx = true -> forall d' f, references (kv_map t) table false d' f -> covers d (fkRefCols f) -> covers d0 (fkRefCols f)))) (e, t).
Proof.
  intros Hr. apply wp_alterDesc; [done|]. intros d e' Hr' He Hat Hnm Hw.
  destruct (Index d name) as [idx|] eqn:Ei; [|by apply wp_fail, mutates_err; [|apply Hr]]. cbv zeta.
  pose proof (cat_wf_without d name Hw) as Hw0. set (d0 := with_indexes d (without name (tIndexes d))) in *.
  apply wp_bind. apply wp_mono with (Q := λ o s, s.2 = t /\ cached e' s.1 /\ exists b, o = Ok b /\
    (b = false -> ixUnique idx = true -> forall d' f, references (kv_map t) table false d' f -> covers d (fkRefCols f) -> covers d0 (fkRefCols f))).
  { destruct (ixUnique idx); [|apply wp_ret; split_and!; [done..|by exists false]].
    apply wp_bind, referencingFKs_wp; [done|]. intros refs e1 He1 Hrefs. cbn [seqQ]. apply wp_lift.
    destruct (neededBy_ok d d0 refs Hw Hw0) as (b & -> & Hb). split_and!; [done..|]. exists b. split; [done|].
    intros -> _ d' f Href. apply (proj1 Hb eq_refl d' f). by apply Hrefs. }
  intros o [e1 t1]. cbn [fst snd]. intros (-> & He1 & needed & -> & Hneed). cbn [seqQ].
  destruct needed; [by apply wp_fail, mutates_err; [|apply Hr]|]. specialize (Hneed eq_refl).
  apply wp_bind, wp_onTx, wp_delete_range. rewrite (rd_writable _ _ Hr). intros t1 H1. cbn [seqQ]. apply wp_ret.
  assert (idx ∈ tIndexes d /\ ixName idx = name) as [Hidx Hname].
  { unfold Index in Ei. destruct (list_find _ _) as [[i x]|] eqn:Ef; cbn in Ei; [|done]. injection Ei as <-.
    apply list_find_Some in Ef as (H2 & H3 & _). split; [by eapply list_elem_of_lookup_2|done]. }
  assert (forall k, kv_map t1 !! k = if decide (indexPrefix (tID d) (ixID idx) `prefix_of` k) then None else kv_map t !! k) as Hm.
  { intros k. rewrite (writes_map _ _ _ H1). apply lookup_filtered, indexPrefix_interval. }
  assert (forall x, x ∈ without name (tIndexes d) -> x ∈ tIndexes d /\ ixID x <> ixID idx) as Hdiff.
  { intros x [Hnx Hx]%list_elem_of_filter. split; [done|]. intros Eid. apply Hnx. rewrite <- Hname. f_equal.
    eapply (NoDup_fmap_inj_in ixID (tIndexes d)); [apply (wf_ixID d (cw_wf d Hw))|done..]. }
  pose proof (db_table _ (rd_db _ _ Hr) table d Hat) as Hok. eapply mutates_cached; [exact He1|].
  apply (mutates_reindexed table d _ _ _ e1 t t1); try done.
  - by eapply ready_cached.
  - rewrite (writes_writable _ _ _ H1). apply Hr.
  - intros k Hk. rewrite Hm, decide_False; [done|]. intros Hp. destruct Hk as [Hk|Hk]; [by eapply (inv_index_not_row d (cw_wf _ Hw) idx k)|].
    by eapply Hk, indexPrefix_space.
  - intros x k v Hx Hp. destruct (Hdiff x Hx) as [Hx' Hid]. rewrite Hm, decide_False; [by apply (inv_index d _ (to_inv _ _ Hok))|].
    by eapply (indexPrefix_other d x idx k).
  - intros k Hs Hp. rewrite Hm in Hs. case_decide as Hi; [by destruct Hs|]. destruct (to_tidy _ _ Hok k Hs Hp) as [|Hx]; [by left|right].
    apply Exists_exists in Hx as (x & Hx & Hpx). apply Exists_exists. exists x. split; [|done]. apply list_elem_of_filter.
    split; [|done]. intros Enx. apply Hi. replace idx with x; [done|].
    eapply (NoDup_fmap_inj_in ixName (tIndexes d)); [apply (wf_ixName d (cw_wf d Hw))|done|done|congruence].
  - intros m' Hal. by exists d, idx.
Qed.
End laws.
