(* ===== verification/Fk.v ===== *)
(** * Foreign keys in the catalog

    [fk.go]: [AddForeignKey], which checks the shape of the constraint and,
    if asked to, the existing rows, and [DropForeignKey]. The engine stores
    the constraint; enforcing it on row writes is the SQL layer's. *)
From S2P Require Import Prelude GoVal GoStr Tuple KV Json Time Jsonb Types Catalog Desc Rows Default Pairs Index Table Seq Upkeep Dml Relation Engine Store Database Ddl DdlColumn DdlAddDrop DdlTable DdlIndex.

Local Open Scope Z_scope.

Definition FKCascade : bytes := go "cascade".

Definition errFKName : error := ENew (go "foreign key constraint name is required").
Definition errFKCols : error := ENew (go "foreign key needs at least one column").
Definition errFKAction : error := ENew (go "unsupported ON DELETE action").
Definition errFKOrdinal : error := ENew (go "foreign key column ordinal out of range").
Definition errFKCount : error := ENew (go "number of referencing and referenced columns for foreign key disagree").
Definition errFKTypes : error := ENew (go "foreign key column types do not match").
Definition errNoUnique (table : bytes) : error :=
  ENew (go "there is no unique constraint matching given keys for referenced table " ++ quoted table).
Definition errFKViolated (table name : bytes) : error :=
  ENew (go "insert or update on table " ++ quoted table ++ go " violates foreign key constraint " ++ quoted name).

(** [row.Vals[ord]]; a column that was not found is [-1], out of range. *)
Definition valueAt (row : list any) (ord : option nat) : outcome any :=
  match ord with Some o => at_index row o | None => Panic PIndex end.

(** The values of the columns, [None] at the first that is NULL. *)
Fixpoint refVals (row : list any) (ords : list (option nat)) : outcome (option (list any)) :=
  match ords with
  | [] => Ok (Some [])
  | o :: ords' =>
      v ← valueAt row o;
      if is_nil v then Ok None else vs ← refVals row ords'; Ok (option_map (cons v) vs)
  end.
Definition refKey (row : list any) (ords : list (option nat)) : outcome (option bytes) :=
  vs ← refVals row ords;
  match vs with None => Ok None | Some vs => k ← Encode vs; Ok (Some k) end.

Fixpoint collectKeys (ords : list (option nat)) (keys : gset bytes) (rows : list (outcome Row)) : outcome (gset bytes) :=
  match rows with
  | [] => Ok keys
  | o :: rows' =>
      row ← o;
      k ← refKey (rVals row) ords;
      collectKeys ords (match k with None => keys | Some k => {[k]} ∪ keys end) rows'
  end.
Definition checkRef (child : TableDesc) (fk : FKDesc) (keys : gset bytes) (row : Row) : outcome unit :=
  k ← refKey (rVals row) (Some <$> fkCols fk);
  match k with
  | None => Ok tt
  | Some k => if bool_decide (k ∈ keys) then Ok tt else Err (errFKViolated (tName child) (fkName fk))
  end.

(** Names and types of the referenced columns. *)
Fixpoint checkRefCols (child parent : TableDesc) (cols : list nat) (refCols : list bytes) : outcome unit :=
  match refCols, cols with
  | [], _ => Ok tt
  | name :: refCols', cols =>
      match ColIndex parent name with
      | None => Err errNoColumn
      | Some pOrd =>
          o ← at_index cols 0;
          c ← at_index (tColumns child) o;
          p ← at_index (tColumns parent) pOrd;
          if bool_decide (colType c <> colType p) then Err errFKTypes
          else checkRefCols child parent (tail cols) refCols'
      end
  end.

Section fks.
Context {E S : Type} {eng : EngineOps E} {grd : Guarded E} {cs : CatState E} {tx : Type} {kv : KV tx} {db : DB E S tx}.

Definition scanAll (d : TableDesc) : M tx (list (outcome Row)) := λ t,
  let '(seen, t') := scanRows d None None drain t in (Ok (reverse seen), t').

Definition validateExistingRefs (child parent : TableDesc) (fk : FKDesc) : M tx unit :=
  let refOrds := ColIndex parent <$> fkRefCols fk in
  prows ← scanAll parent;
  keys ← lift (collectKeys refOrds ∅ prows);
  crows ← scanAll child;
  lift (validateRows (checkRef child fk keys) crows).

(** [fk] is a variable the closure captures: the referenced columns it
    resolves stay in it for the next attempt. *)
Definition AddForeignKeyIn (table : bytes) (validate : bool) (fk : FKDesc) : M (E * tx) (unit * FKDesc) :=
  alterDesc table (λ old,
    if existsb (λ c, bool_decide (chkName c = fkName fk)) (tChecks old) then fail (errConstraintExists (fkName fk) table)
    else if existsb (λ f, bool_decide (fkName f = fkName fk)) (tForeignKeys old) then fail (errConstraintExists (fkName fk) table)
    else if existsb (λ o, bool_decide (length (tColumns old) <= o)%nat) (fkCols fk) then fail errFKOrdinal
    else
      parent ← (if bool_decide (fkRefTable fk <> table) then
                  p ← tableFromView (fkRefTable fk);
                  match p with None => fail errNoTable | Some p => mret p end
                else mret old);
      refCols ← lift (if bool_decide (fkRefCols fk = []) then traverse (λ o, colName <$> at_index (tColumns parent) o) (tPKCols parent)
                      else Ok (fkRefCols fk));
      let fk := fk_refs fk (fkRefTable fk) refCols in
      if bool_decide (length refCols <> length (fkCols fk)) then fail errFKCount
      else
        _ ← lift (checkRefCols old parent (fkCols fk) refCols);
        covered ← lift (uniqueKeyCovers parent refCols);
        if negb (covered : bool) then fail (errNoUnique (fkRefTable fk))
        else
          _ ← (if (validate : bool) then onTx (validateExistingRefs old parent fk) else mret ());
          mret (Some (with_fks old (tForeignKeys old ++ [fk])), (tt, fk))).
Definition AddForeignKey (table : bytes) (fk : FKDesc) (validate : bool) : M (E * S) unit :=
  if bool_decide (fkName fk = []) then fail errFKName
  else if bool_decide (fkCols fk = []) then fail errFKCols
  else if bool_decide (fkOnDelete fk <> []) && bool_decide (fkOnDelete fk <> FKCascade) then fail errFKAction
  else updateDDL fk (AddForeignKeyIn table validate).

Definition DropForeignKeyIn (table name : bytes) : M (E * tx) bool :=
  alterDesc table (λ old,
    match list_find (λ f, fkName f = name) (tForeignKeys old) with
    | None => mret (None, false)
    | Some (i, _) => mret (Some (with_fks old (delete i (tForeignKeys old))), true)
    end).
Definition DropForeignKey (table name : bytes) : M (E * S) bool := updateDDL' (DropForeignKeyIn table name).

End fks.

(** ** What the row check decides *)

(** The referencing or referenced values of a row, unless one is NULL. *)
Definition refTuple (row : list any) (ords : list nat) : option (list any) :=
  let vs := (λ o, default ANil (row !! o)) <$> ords in
  if existsb is_nil vs then None else Some vs.

Lemma refVals_ok row ords : Forall (λ o, o < length row)%nat ords -> refVals row (Some <$> ords) = Ok (refTuple row ords).
Proof.
  unfold refTuple. induction 1 as [|o ords Ho _ IH]; [done|]. csimpl. cbn [refVals valueAt]. unfold at_index.
  destruct (lookup_lt_is_Some_2 _ _ Ho) as [v Hv]. rewrite Hv. cbn [mbind outcome_bind from_option id existsb].
  destruct (is_nil v); [done|]. cbn [orb]. rewrite IH. cbn [mbind outcome_bind]. by destruct (existsb _ _).
Qed.
Lemma refTuple_canon row ords vs : Forall canon row -> refTuple row ords = Some vs -> Forall canon vs.
Proof.
  intros Hc. unfold refTuple. destruct (existsb _ _); [done|]. intros [= <-]. apply Forall_fmap, Forall_true. intros o. cbn.
  destruct (row !! o) eqn:Er; [|done]. by eapply Forall_lookup_1 in Hc.
Qed.
Lemma refKey_ok row ords : Forall (λ o, o < length row)%nat ords -> Forall canon row ->
  refKey row (Some <$> ords) = Ok (elems <$> refTuple row ords).
Proof.
  intros Ho Hc. unfold refKey. rewrite refVals_ok by done. cbn [mbind outcome_bind].
  destruct (refTuple row ords) as [vs|] eqn:Ev; [|done]. pose proof (refTuple_canon _ _ _ Hc Ev) as Hvs.
  rewrite Encode_spec by (eapply Forall_impl; [exact Hvs|apply canon_any_ok]). by rewrite normals_canon_id.
Qed.

Lemma collectKeys_ok {X : Type} (g : X -> Row) ords keys xs :
  Forall (λ x, Forall (λ o, o < length (rVals (g x)))%nat ords /\ Forall canon (rVals (g x))) xs ->
  exists keys', collectKeys (Some <$> ords) keys (Ok ∘ g <$> xs) = Ok keys' /\
    forall k, k ∈ keys' <-> k ∈ keys \/ exists x, x ∈ xs /\ elems <$> refTuple (rVals (g x)) ords = Some k.
Proof.
  intros H. revert keys. induction H as [|x xs [Ho Hc] _ IH]; intros keys.
  { exists keys. split; [done|]. intros k. split; [by left|]. intros [|(x & Hx & _)]; [done|by apply elem_of_nil in Hx]. }
  csimpl. cbn [collectKeys]. unfold compose at 1. cbn [mbind outcome_bind]. rewrite refKey_ok by done. cbn [mbind outcome_bind].
  destruct (IH (match elems <$> refTuple (rVals (g x)) ords with None => keys | Some k => {[k]} ∪ keys end)) as (keys' & Hk & Hin).
  exists keys'. split; [done|]. intros k. rewrite Hin. setoid_rewrite elem_of_cons.
  destruct (refTuple (rVals (g x)) ords) as [vs|] eqn:Ev; cbn [fmap option_fmap option_map]; [rewrite elem_of_union, elem_of_singleton|].
  - split; [intros [[->|]|(y & Hy & E)]|intros [|(y & [->|Hy] & E)]]; [|by left| |by left; right| |].
    + right. exists x. split; [by left|]. by rewrite Ev.
    + right. exists y. split; [by right|done].
    + rewrite Ev in E. cbn in E. simplify_eq. by left; left.
    + right. by exists y.
  - split; [intros [|(y & Hy & E)]|intros [|(y & [->|Hy] & E)]]; [by left| |by left| |].
    + right. exists y. split; [by right|done].
    + by rewrite Ev in E.
    + right. by exists y.
Qed.

(** Every child row without NULLs in the key has its parent row. *)
Definition refs_hold (child parent : TableDesc) (cols pords : list nat) (m : kvmap) : Prop := forall row vs,
  stored child m row -> refTuple row cols = Some vs -> exists prow, stored parent m prow /\ refTuple prow pords = Some vs.

(** A foreign key that can be enforced: its columns pair up with columns of
    the parent of the same types, which form a unique key there. *)
Record fk_shape (child parent : TableDesc) (cols : list nat) (refCols : list bytes) : Prop := {
  fs_cols : Forall2 (λ o n, exists c p, tColumns child !! o = Some c /\ p ∈ tColumns parent /\ colName p = n /\ colType c = colType p)
    cols refCols;
  fs_unique : covers parent refCols;
}.

Lemma checkRefCols_ok child parent cols refCols : Forall (λ o, o < length (tColumns child))%nat cols ->
  length refCols = length cols ->
  match checkRefCols child parent cols refCols with
  | Ok _ => exists pords, ColIndex parent <$> refCols = Some <$> pords /\
      Forall2 (λ o po, exists c p, tColumns child !! o = Some c /\ tColumns parent !! po = Some p /\ colType c = colType p) cols pords
  | Err _ => True
  | Panic _ => False
  end.
Proof.
  intros Ho. revert refCols. induction Ho as [|o cols Ho _ IH]; intros [|n refCols] Hl; try done; [by exists []|].
  cbn [checkRefCols]. destruct (ColIndex parent n) as [po|] eqn:Ei; [|done].
  destruct (ColIndex_Some _ _ _ Ei) as (p & Hp & _), (lookup_lt_is_Some_2 _ _ Ho) as [c Hc].
  unfold at_index. cbn [lookup list_lookup]. cbn [mbind outcome_bind]. rewrite Hc, Hp. cbn [mbind outcome_bind tail].
  case_bool_decide as Et; [done|]. cbn in Hl. specialize (IH refCols ltac:(lia)).
  destruct (checkRefCols child parent cols refCols) as [u|er|q]; [|done..].
  destruct IH as (pords & E1 & E2). exists (po :: pords). csimpl. rewrite Ei, E1. split; [done|]. constructor; [|done].
  exists c, p. split_and!; [done..|]. by destruct (decide (colType c = colType p)).
Qed.

Lemma paired_cols child parent cols refCols pords : ColIndex parent <$> refCols = Some <$> pords ->
  Forall2 (λ o po, exists c p, tColumns child !! o = Some c /\ tColumns parent !! po = Some p /\ colType c = colType p) cols pords ->
  Forall2 (λ o n, exists c p, tColumns child !! o = Some c /\ p ∈ tColumns parent /\ colName p = n /\ colType c = colType p) cols refCols.
Proof.
  intros E H. revert refCols E. induction H as [|o po cols pords (c & p & Hc & Hp & Et) _ IH]; intros [|n refCols]; try done.
  csimpl. intros [= E1 E2]. constructor; [|by apply IH]. destruct (ColIndex_Some _ _ _ E1) as (p' & Hp' & Hn).
  assert (p' = p) as -> by congruence. exists c, p. split_and!; [done|by eapply list_elem_of_lookup_2|done..].
Qed.

Lemma pkNames_ok d : cat_wf d -> traverse (λ o, colName <$> at_index (tColumns d) o) (tPKCols d) = Ok (colNames d (tPKCols d)).
Proof.
  intros Hw. apply traverse_ok. unfold colNames. apply Forall2_fmap_r, Forall_Forall2_diag.
  eapply Forall_impl; [apply (wf_pk_range d (cw_wf d Hw))|]. intros o Ho. unfold at_index. destruct (lookup_lt_is_Some_2 _ _ Ho) as [c Hc]. cbn. by rewrite Hc.
Qed.
Lemma colNames_clean d ords : cat_wf d -> Forall (λ s, clean s = s) (colNames d ords).
Proof.
  intros Hw. apply Forall_fmap, Forall_true. intros o. cbn. destruct (tColumns d !! o) as [c|] eqn:Ec; [|done]. cbn.
  destruct (column_ok d Hw o c Ec) as (_ & _ & _ & H%clean_column & _). by apply H.
Qed.

Section laws.
Context {E : Type} {eng : EngineOps E} {cs : CatState E} {cat_laws : CatLaws E}.
Context {tx : Type} {kv : KV tx} {kv_laws : KVLaws tx}.

Lemma scanAll_wp (d : TableDesc) (t : tx) Q : table_inv d (kv_map t) ->
  (forall t', kv_map t' = kv_map t -> kv_writable t' = kv_writable t ->
    Q (Ok (Ok ∘ (mkRow d ∘ rowOf d) <$> rowEntries (tID d) t)) t') -> wp (scanAll d) Q t.
Proof.
  intros Hi HQ. unfold wp, scanAll. destruct (scanRows_all d t Hi) as (t' & -> & Hm & Hw). cbn [fst snd].
  rewrite reverse_involutive. by apply HQ.
Qed.

(** The rows of a scan are the stored rows. *)
Lemma entries_all (d : TableDesc) (t : tx) (P : list any -> Prop) : table_inv d (kv_map t) ->
  (forall row, stored d (kv_map t) row -> P row) -> forall e, e ∈ rowEntries (tID d) t -> P (rowOf d e).
Proof. intros Hi H [k v] [Hk Hp]%rowEntries_elem. apply H. by apply rowOf_stored. Qed.
Lemma stored_rowOf (d : TableDesc) (t : tx) row : stored d (kv_map t) row -> exists e, e ∈ rowEntries (tID d) t /\ rowOf d e = row.
Proof.
  intros Hst. pose proof Hst as (_ & v & Hv & Hd). exists (row_key d row, v). split; [by apply stored_entry|].
  unfold rowOf. cbn [fst snd]. by rewrite Hd.
Qed.

Lemma validateExistingRefs_wp (child parent : TableDesc) (fk : FKDesc) (pords : list nat) (t : tx) :
  cat_wf child -> cat_wf parent -> table_inv child (kv_map t) -> table_inv parent (kv_map t) ->
  ColIndex parent <$> fkRefCols fk = Some <$> pords -> Forall (λ o, o < length (tColumns parent))%nat pords ->
  Forall (λ o, o < length (tColumns child))%nat (fkCols fk) ->
  wp (validateExistingRefs child parent fk) (λ o t', kv_map t' = kv_map t /\ kv_writable t' = kv_writable t /\
    match o with
    | Ok _ => refs_hold child parent (fkCols fk) pords (kv_map t)
    | Err _ => ~ refs_hold child parent (fkCols fk) pords (kv_map t)
    | Panic _ => False
    end) t.
Proof.
  intros Hwc Hwp Hic Hip Eords Hp Hc. unfold validateExistingRefs. apply wp_bind, scanAll_wp; [done|].
  intros t1 Hm1 Hw1. cbn [seqQ]. rewrite Eords. apply wp_bind_lift.
  destruct (collectKeys_ok (mkRow parent ∘ rowOf parent) pords ∅ (rowEntries (tID parent) t)) as (keys & -> & Hkeys).
  { apply Forall_forall, (entries_all parent t (λ row, Forall (λ o, o < length row)%nat pords /\ Forall canon row)); [done|].
    intros row Hst. destruct (stored_ok _ _ _ Hst) as [[Hl _] Hcn]. split; [|done]. by rewrite Hl. }
  assert (forall vs, Forall canon vs -> elems vs ∈ keys <-> exists prow, stored parent (kv_map t) prow /\ refTuple prow pords = Some vs) as Hk.
  { intros vs Hvs. rewrite Hkeys. split.
    - intros [?%not_elem_of_empty|([k v] & He & Ek)]; [done|]. apply rowEntries_elem in He as [H1 H2].
      destruct (rowOf_stored parent _ k v Hip H1 H2) as (Hst & _). exists (rowOf parent (k, v)). split; [done|].
      unfold compose in Ek. cbn [rVals] in Ek. destruct (refTuple _ pords) as [ws|] eqn:Ew; cbn in Ek; [|done].
      injection Ek as Ek. f_equal. apply elems_inj; [|done|done]. eapply refTuple_canon; [apply (stored_ok _ _ _ Hst)|done].
    - intros (prow & Hst & Ev). right. destruct (stored_rowOf parent t prow Hst) as (e & He & <-). exists e. split; [done|].
      unfold compose. cbn [rVals]. by rewrite Ev. }
  cbn [seqQ]. apply wp_bind, scanAll_wp; [by rewrite Hm1|]. intros t2 Hm2 Hw2. cbn [seqQ]. apply wp_lift.
  split; [congruence|]. split; [congruence|].
  assert (forall e, e ∈ rowEntries (tID child) t1 -> checkRef child fk keys (mkRow child (rowOf child e)) =
    match refTuple (rowOf child e) (fkCols fk) with
    | None => Ok tt
    | Some vs => if bool_decide (elems vs ∈ keys) then Ok tt else Err (errFKViolated (tName child) (fkName fk))
    end) as Hck.
  { rewrite <- Hm1 in Hic. apply (entries_all child t1 (λ row, checkRef child fk keys (mkRow child row) =
      match refTuple row (fkCols fk) with
      | None => Ok tt
      | Some vs => if bool_decide (elems vs ∈ keys) then Ok tt else Err (errFKViolated (tName child) (fkName fk))
      end)); [done|].
    intros row Hst. destruct (stored_ok _ _ _ Hst) as [[Hl _] Hcn]. unfold checkRef. cbn [rVals].
    rewrite refKey_ok by (try done; by rewrite Hl). cbn [mbind outcome_bind]. by destruct (refTuple row (fkCols fk)). }
  assert (Forall (λ x, forall p, checkRef child fk keys ((mkRow child ∘ rowOf child) x) <> Panic p) (rowEntries (tID child) t1)) as Hnp.
  { apply Forall_forall. intros x Hx p. unfold compose. rewrite Hck by done. by repeat case_match. }
  pose proof (validateRows_ok (checkRef child fk keys) (mkRow child ∘ rowOf child) (rowEntries (tID child) t1) Hnp) as Hv.
  destruct (validateRows _ _) as [u|er|p].
  - intros row vs Hst Ev. rewrite <- Hm1 in Hst. destruct (stored_rowOf child t1 row Hst) as (e & He & <-).
    apply Hk; [eapply refTuple_canon; [apply (stored_ok _ _ _ Hst)|done]|].
    rewrite Forall_forall in Hv. specialize (Hv e He).
    unfold compose in Hv. rewrite Hck, Ev in Hv by done. by case_bool_decide.
  - intros Hh. rewrite Exists_exists in Hv. destruct Hv as (e & He & Hv).
    unfold compose in Hv. rewrite Hck in Hv by done. destruct (refTuple (rowOf child e) (fkCols fk)) as [vs|] eqn:Ev; [|done].
    case_bool_decide as Hin; [done|]. apply Hin.
    destruct e as [k v]. apply rowEntries_elem in He as [H1 H2]. rewrite Hm1 in H1.
    destruct (rowOf_stored child _ k v Hic H1 H2) as (Hst & _).
    apply Hk; [eapply refTuple_canon; [apply (stored_ok _ _ _ Hst)|done]|]. by apply (Hh (rowOf child (k, v))).
  - done.
Qed.

(** The parent: the table itself, before the change, or another one. *)
Lemma wp_parent (table ref : bytes) (d : TableDesc) Q (e : E) (t : tx) : ready e t -> table_at (kv_map t) table d ->
  (forall p e', cached e e' -> table_at (kv_map t) ref p -> Q (Ok p) (e', t)) ->
  (forall e', cached e e' -> Q (Err errNoTable) (e', t)) ->
  wp (if bool_decide (ref <> table) then p ← tableFromView ref; match p with None => fail errNoTable | Some p => mret p end
      else mret d) Q (e, t).
Proof.
  intros Hr Hat HQ Hn. case_bool_decide as Hne.
  - apply wp_bind, wp_tableFromView; [apply Hr|]. intros e' He. destruct (resolve_total _ ref (rd_db _ _ Hr)) as [[p|] Hp]; rewrite Hp; cbn [seqQ].
    + by apply wp_ret, HQ.
    + by apply wp_fail, Hn.
  - subst ref. by apply wp_ret, HQ.
Qed.

Definition refColsOf (fk : FKDesc) (p : TableDesc) : list bytes :=
  if bool_decide (fkRefCols fk = []) then colNames p (tPKCols p) else fkRefCols fk.

Lemma mutates_fks {A : Type} (table : bytes) (d : TableDesc) (fks : list FKDesc) (a : A) (R : A -> kvmap -> Prop) (e : E) (t t1 : tx) :
  ready e t -> table_at (kv_map t) table d -> cat_wf d -> kv_map t1 = kv_map t -> kv_writable t1 = true -> Forall (λ f, cleanFK f = f) fks ->
  Forall (λ f, Forall (λ o, o < length (tColumns d))%nat (fkCols f)) fks ->
  (forall m', altered table d (with_fks d fks) id (kv_map t) m' -> R a m') ->
  mutates table e R (Ok (Some (with_fks d fks), a)) (e, t1).
Proof.
  intros Hr Hat Hw Hm Hwr Hu Ho HR. pose proof (columns_bound d (cw_wf d Hw)) as Hb.
  apply (mutates_in_place table d); try done.
  - by split; [apply Hr|rewrite Hm; apply Hr|].
  - by rewrite Hm.
  - apply cat_wf_fks; [done|done|]. eapply Forall_impl; [exact Ho|]. intros f Hf. split; [done|].
    eapply Forall_impl; [exact Hf|]. intros o. cbn. unfold maxInt64. lia.
  - by apply layout_fks.
  - intros row Hst. apply (stored_ok _ _ _ Hst).
  - by rewrite Hm.
Qed.

Lemma refColsOf_clean fk p : cat_wf p -> cleanFK fk = fk -> cleanFK (fk_refs fk (fkRefTable fk) (refColsOf fk p)) = fk_refs fk (fkRefTable fk) (refColsOf fk p).
Proof.
  intros Hw (C1 & C2 & C3 & C4)%clean_fk. apply clean_fk. cbn. split_and!; try done. unfold refColsOf. case_bool_decide; [by apply colNames_clean|done].
Qed.

Lemma AddForeignKeyIn_wp (table : bytes) (validate : bool) (fk : FKDesc) (e : E) (t : tx) : ready e t -> cleanFK fk = fk ->
  wp (AddForeignKeyIn table validate fk) (ddl e (λ r m', exists d p, let f := fk_refs fk (fkRefTable fk) (refColsOf fk p) in
    r = (tt, f) /\ table_at (kv_map t) (fkRefTable fk) p /\ fk_shape d p (fkCols f) (fkRefCols f) /\
    Forall (λ c, chkName c <> fkName fk) (tChecks d) /\ Forall (λ g, fkName g <> fkName fk) (tForeignKeys d) /\
    (validate = true -> exists pords, ColIndex p <$> fkRefCols f = Some <$> pords /\ refs_hold d p (fkCols f) pords (kv_map t)) /\
    altered table d (with_fks d (tForeignKeys d ++ [f])) id (kv_map t) m')) (e, t).
Proof.
  intros Hr Hc. apply wp_alterDesc; [done|]. intros d e' Hr' He Hat Hnm Hw.
  destruct (existsb _ (tChecks d)) eqn:Ex; [by apply wp_fail, mutates_err; [|apply Hr]|]. apply existsb_false in Ex.
  destruct (existsb _ (tForeignKeys d)) eqn:Ef; [by apply wp_fail, mutates_err; [|apply Hr]|]. apply existsb_false in Ef.
  destruct (existsb _ (fkCols fk)) eqn:Eo; [by apply wp_fail, mutates_err; [|apply Hr]|]. apply existsb_false in Eo.
  assert (Forall (λ o, o < length (tColumns d))%nat (fkCols fk)) as Ho.
  { eapply Forall_impl; [exact Eo|]. intros o. cbn. rewrite bool_decide_eq_false. lia. }
  apply wp_bind, wp_parent; [done|done| |intros; apply mutates_err; [done|apply Hr]]. intros p e1 He1 Hp. cbn [seqQ].
  destruct (table_at_wf _ _ _ (rd_db _ _ Hr) Hp) as [_ Hwp]. apply wp_bind_lift.
  assert ((if bool_decide (fkRefCols fk = []) then traverse (λ o, colName <$> at_index (tColumns p) o) (tPKCols p) else Ok (fkRefCols fk)) =
    Ok (refColsOf fk p)) as -> by (unfold refColsOf; case_bool_decide; [by apply pkNames_ok|done]). cbn [seqQ].
  set (f := fk_refs fk (fkRefTable fk) (refColsOf fk p)). cbv zeta. case_bool_decide as Hl; [by apply wp_fail, mutates_err; [|apply Hr]|].
  apply wp_bind_lift. pose proof (checkRefCols_ok d p (fkCols f) (refColsOf fk p) Ho Hl) as Hcols.
  destruct (checkRefCols d p (fkCols f) (refColsOf fk p)) as [[]|er|q]; cbn [seqQ]; [|by apply mutates_err; [|apply Hr]|done].
  destruct Hcols as (pords & Epo & Htypes). apply wp_bind_lift.
  destruct (uniqueKeyCovers_ok p (refColsOf fk p) Hwp) as (b & -> & Hcov). cbn [seqQ].
  destruct b; cbn [negb]; [|by apply wp_fail, mutates_err; [|apply Hr]].
  apply wp_bind. apply wp_mono with (Q := λ o s, s.1 = e1 /\ kv_map s.2 = kv_map t /\ kv_writable s.2 = true /\
    match o with Ok _ => validate = true -> refs_hold d p (fkCols f) pords (kv_map t) | Err _ => True | Panic _ => False end).
  { destruct validate; [|by apply wp_ret; split_and!; [..|apply Hr|]]. apply wp_onTx. eapply wp_mono.
    { apply (validateExistingRefs_wp d p f pords t); try done.
      - by apply (db_table _ (rd_db _ _ Hr) table d).
      - by apply (db_table _ (rd_db _ _ Hr) (fkRefTable fk) p).
      - eapply Forall2_Forall_r; [exact Htypes|apply Forall_true]. intros o po (c & pc & _ & Hpc & _). by eapply lookup_lt_Some. }
    intros o t1 (Hm & Hwr & H). cbn [fst snd]. rewrite Hwr. split_and!; [done..|apply Hr|]. by destruct o. }
  intros o [e2 t1]. cbn [fst snd]. intros (-> & Hm & Hwr & H). destruct o as [[]|er|q]; cbn [seqQ]; [|by apply mutates_err|done].
  apply wp_ret. eapply mutates_cached; [exact He1|].
  apply (mutates_fks table d _ _ _ e1 t t1); try done.
  - by eapply ready_cached.
  - apply Forall_app. split; [apply Hw|]. apply Forall_singleton. by apply refColsOf_clean.
  - apply Forall_app. split; [apply Hw|]. by repeat constructor.
  - intros m' Hal. exists d, p. split_and!; try done.
    + split; [by eapply paired_cols|by apply Hcov].
    + eapply Forall_impl; [exact Ex|]. intros c. apply bool_decide_eq_false.
    + eapply Forall_impl; [exact Ef|]. intros c. apply bool_decide_eq_false.
    + intros Hv. exists pords. by split; [|apply H].
Qed.

Lemma DropForeignKeyIn_wp (table name : bytes) (e : E) (t : tx) : ready e t ->
  wp (DropForeignKeyIn table name) (ddl e (λ existed m', exists d, changed table d
    (match list_find (λ f, fkName f = name) (tForeignKeys d) with
     | Some (i, _) => Some (with_fks d (delete i (tForeignKeys d))) | None => None end) id (kv_map t) m' /\
    (existed = true <-> Exists (λ f, fkName f = name) (tForeignKeys d)))) (e, t).
Proof.
  intros Hr. apply wp_alterDesc; [done|]. intros d e' Hr' He Hat Hnm Hw.
  destruct (list_find _ _) as [[i f]|] eqn:Ef; apply wp_ret.
  - apply (mutates_fks table d _ _ _ e' t t); try done; [apply Hr|apply Forall_delete, Hw|apply Forall_delete, Hw|].
    intros m' Hal. exists d. unfold changed. rewrite Ef. split; [done|]. split; [|done]. intros _.
    apply list_find_Some in Ef as (Hi & Hn & _). apply Exists_exists. exists f. split; [by eapply list_elem_of_lookup_2|done].
  - apply mutates_nothing; [done|]. exists d. unfold changed. rewrite Ef. split; [done|]. split; [done|].
    intros (f & Hf & Hn)%Exists_exists. apply list_find_None in Ef. rewrite Forall_forall in Ef. by destruct (Ef f Hf).
Qed.
End laws.
