(* ===== verification/Alter.v ===== *)
(** * Rebuilding a table

    [alter.go]: the schema changes that rewrite every row,
    [AlterColumnType] and [SetPrimaryKey]. Both go through [rebuildTable],
    which decodes the rows under the old descriptor, clears the table's
    space and writes them again under the new one. *)
From S2P Require Import Prelude GoVal GoStr GoFloat Tuple KV Json Time Jsonb Types Catalog Desc Rows Default Pairs Index Table Seq Upkeep Dml Relation Engine Store Database Ddl DdlColumn DdlAddDrop DdlTable DdlIndex Fk.

Local Open Scope Z_scope.

(** ** Casts *)

Definition errNoText : error := ENew (go "no text form for column type").
Definition errBigint : error := ENew (go "bigint out of range").
Definition errDateRange : error := ENew (go "date out of range for timestamp").

Definition castToText (v : any) (t : ColType) : outcome bytes :=
  match t, v with
  | TBool, ABool b => Ok (if b then go "true" else go "false")
  | TInt, AInt KInt64 n => Ok (fmtInt n)
  | TFloat, AFloat64 f =>
      Ok (if f64_isNaN f then go "NaN"
          else if f64_isInf f false then go "Infinity"
          else if f64_isInf f true then go "-Infinity"
          else FormatFloat f)
  | (TString | TTextArray | TJSONB), AString s => Ok s
  | TBytes, ABytes b => Ok (go "\x" ++ hex b)
  | TTimestamp, AInt KInt64 n => Ok (FormatTimestamp n)
  | TDate, AInt KInt64 n => Ok (FormatDate n)
  | TUUID, ABytes b => Ok (FormatUUID b)
  | TOther _, _ => Err errNoText
  | _, _ => Panic PTypeAssert
  end.

Definition sqlTypeName (t : ColType) : bytes :=
  match t with
  | TBool => go "boolean"
  | TInt => go "bigint"
  | TFloat => go "double precision"
  | TString => go "text"
  | TBytes => go "bytea"
  | TTimestamp => go "timestamp"
  | TDate => go "date"
  | TUUID => go "uuid"
  | TTextArray => go "text[]"
  | TJSONB => go "jsonb"
  | TOther s => s
  end.

Definition microsPerDay : Z := 86400 * 1000000.

(** [math.RoundToEven], then the conversion; the rounded value is an
    integer, which [float64] holds exactly. *)
Definition castFloatInt (f : Z) : outcome any :=
  let r := roundZ (f64_mag f) (2 ^ 1074) in
  let r := if f64_neg f then - r else r in
  if f64_isNaN f || (r <? minInt64) || (maxInt64 <? r) then Err errBigint else Ok (AInt KInt64 r).
(** [math.MaxInt64/microsPerDay] and [math.MinInt64/microsPerDay] truncate. *)
Definition castDateTimestamp (days : Z) : outcome any :=
  if (Z.quot maxInt64 microsPerDay <? days) || (days <? Z.quot minInt64 microsPerDay) then Err errDateRange
  else Ok (AInt KInt64 (int64 (days * microsPerDay))).
Definition castTimestampDate (m : Z) : Z :=
  let d := Z.quot m microsPerDay in
  if Z.rem m microsPerDay <? 0 then int64 (d - 1) else d.

(** [None] is a pair of types without an automatic cast. *)
Definition assignmentCast (from to : ColType) : option (any -> outcome any) :=
  if decide (from = to) then Some (λ v, Ok v)
  else if decide (to = TString) then Some (λ v, s ← castToText v from; Ok (AString s))
  else match from, to with
    | TInt, TFloat => Some (λ v, match v with AInt KInt64 n => Ok (AFloat64 (int64_to_f64 n)) | _ => Panic PTypeAssert end)
    | TFloat, TInt => Some (λ v, match v with AFloat64 f => castFloatInt f | _ => Panic PTypeAssert end)
    | TDate, TTimestamp => Some (λ v, match v with AInt KInt64 n => castDateTimestamp n | _ => Panic PTypeAssert end)
    | TTimestamp, TDate => Some (λ v, match v with AInt KInt64 n => Ok (AInt KInt64 (castTimestampDate n)) | _ => Panic PTypeAssert end)
    | _, _ => None
    end.

Definition cannotCastErr (column : bytes) (to : ColType) : error :=
  ENew (go "column " ++ quoted column ++ go " cannot be cast automatically to type " ++ sqlTypeName to).
Definition errCastDefault (column : bytes) (to : ColType) : error :=
  ENew (go "default for column " ++ quoted column ++ go " cannot be cast automatically to type " ++ sqlTypeName to).

(** The literal text a constant is stored as again; [None] has none. *)
Definition literalOf (v : any) : option bytes :=
  match v with
  | AInt KInt64 n => Some (fmtInt n)
  | AFloat64 f => Some (FormatFloat f)
  | ABool b => Some (if b then go "true" else go "false")
  | AString s => Some (quote :: doubleQuotes s ++ [quote])
  | _ => None
  end.

(** [now] and [now'] are the times of the two evaluations. *)
Definition castDefault (oldCol newCol : Column) (now now' : Z) : outcome bytes :=
  let fail {A : Type} : outcome A := Err (errCastDefault (colName oldCol) (colType newCol)) in
  let orFail {A : Type} (o : outcome A) : outcome A := match o with Err _ => fail | _ => o end in
  let text := TrimSpace (colDefault oldCol) in
  if bool_decide (text = defaultNowText) || bool_decide (text = defaultCurrentDateText) then
    if bool_decide (colType newCol <> TTimestamp) && bool_decide (colType newCol <> TDate) then fail
    else Ok (colDefault oldCol)
  else
    v ← orFail (columnDefaultValue oldCol now);
    if is_nil v then Ok []
    else match assignmentCast (colType oldCol) (colType newCol) with
      | None => fail
      | Some cast =>
          v ← orFail (cast v);
          match literalOf v with
          | None => fail
          | Some out =>
              _ ← orFail (columnDefaultValue (col_default out newCol) now');
              Ok out
          end
      end.

(** ** Rebuilding *)

Definition errDuplicated (index : bytes) : error := ENew (go "could not create unique index " ++ quoted index).
Definition PKConstraintName (table : bytes) : bytes := table ++ go "_pkey".

(** Phase 1: the new rows, before anything is written. *)
Definition rebuildRow (old next : TableDesc) (transform : Row -> outcome (list any)) (validate : option (Row -> outcome unit))
    (e : bytes * bytes) : outcome (list any) :=
  row ← decodeRow old e.1 e.2;
  vals ← transform row;
  cv ← coerceRow next vals;
  _ ← match validate with None => Ok tt | Some f => f (mkRow next cv) end;
  Ok cv.

Section rebuild.
Context {E S : Type} {eng : EngineOps E} {grd : Guarded E} {cs : CatState E} {tx : Type} {kv : KV tx} {db : DB E S tx}.

Definition writeEntry (next : TableDesc) (r : list any) (idx : IndexDesc) : M tx unit :=
  '(ek, ev, enf) ← lift (indexEntry next idx r);
  taken ← gets (kv_contains ek);
  if enf && taken then fail (errDuplicated (ixName idx)) else kv_set ek ev.
(** Phase 3: one row under the new descriptor. *)
Definition writeRow (next : TableDesc) (r : list any) : M tx unit :=
  key ← lift (pk ← pkValues next r; rowKey next pk);
  taken ← gets (kv_contains key);
  if (taken : bool) then fail (errDuplicated (PKConstraintName (tName next)))
  else
    val ← lift (encodeRowValue next r);
    _ ← kv_set key val;
    for_each (writeEntry next r) (tIndexes next).

Definition rebuildTable (old next : TableDesc) (transform : Row -> outcome (list any)) (validate : option (Row -> outcome unit)) : M tx unit :=
  es ← gets (rowEntries (tID old));
  rows ← lift (traverse (rebuildRow old next transform validate) es);
  let space := tableSpace (tID old) in
  _ ← kv_delete_range space (prefixEnd space);
  for_each (writeRow next) rows.

Definition errRewriteLimit (op : bytes) : error :=
  ENew (op ++ go " would rewrite more rows than the backfill limit allows in one transaction; raise Engine.SetBackfillLimit, or copy the rows into a new table in batches").
(** A limit of zero or less is none: nothing is counted. *)
Definition checkRewriteLimit (desc : TableDesc) (op : bytes) : M (E * tx) unit := checkLimit (tID desc) (errRewriteLimit op).

(** ** Changing a column's type *)

Definition errFKSide (verb side : bytes) : error :=
  ENew (go "cannot " ++ verb ++ side ++ go "; drop the constraint first").
Definition refuseFKColumn (desc : TableDesc) (ord : nat) (verb : bytes) : M (E * tx) unit :=
  c ← lift (at_index (tColumns desc) ord);
  if existsb (λ f, bool_decide (ord ∈ fkCols f)) (tForeignKeys desc) then fail (errFKSide verb (go " a foreign key column"))
  else
    refs ← referencingFKs (tName desc) false;
    if existsb (λ r : FKRef, bool_decide (colName c ∈ fkRefCols r.2)) refs
    then fail (errFKSide verb (go " a column referenced by a foreign key"))
    else mret ().

Record ColumnTypeChange := mkChange {
  chType : ColType;
  chMaxLen : Z;
  chUsing : option (Row -> outcome any);
  chValidate : option (Row -> outcome unit);
}.
Definition col_type (t : ColType) (n : Z) (c : Column) : Column :=
  mkColumn (colName c) t (colID c) (colNotNull c) (colIdentity c) (colDefault c) n.

(** The new values of a row: the column's own is computed, or cast unless
    it is NULL. *)
Definition changeUsing (f : Row -> outcome any) (ord : nat) (row : Row) : outcome (list any) :=
  v ← f row; set_index (rVals row) ord v.
Definition changeCast (f : any -> outcome any) (ord : nat) (row : Row) : outcome (list any) :=
  v ← at_index (rVals row) ord;
  if is_nil v then Ok (rVals row) else w ← f v; set_index (rVals row) ord w.

(** [None]: no expression was given and no automatic cast exists. *)
Definition typeTransform (ch : ColumnTypeChange) (oldCol : Column) (ord : nat) : option (Row -> outcome (list any)) :=
  match chUsing ch with
  | Some f => Some (changeUsing f ord)
  | None => (λ f, changeCast f ord) <$> assignmentCast (colType oldCol) (chType ch)
  end.

Definition AlterColumnTypeIn (table column : bytes) (ch : ColumnTypeChange) (now now' : Z) : M (E * tx) unit :=
  alterDesc table (λ old, withColumn old column (λ ord oldCol,
    let newCol := col_type (chType ch) (chMaxLen ch) oldCol in
    _ ← lift (validMaxLen newCol);
    if colIdentity oldCol && bool_decide (chType ch <> TInt) then fail errIdentityType
    else if bool_decide (chUsing ch = None) && bool_decide (colType oldCol = chType ch) && (colMaxLen oldCol =? chMaxLen ch)
    then mret (None, tt)
    else
      _ ← refuseFKColumn old ord (go "change the type of");
      match typeTransform ch oldCol ord with
      | None => fail (cannotCastErr column (chType ch))
      | Some transform =>
          text ← (if bool_decide (colDefault oldCol = []) then mret [] else lift (castDefault oldCol newCol now now'));
          let next := edit_column old ord (λ _, col_default text newCol) in
          _ ← checkRewriteLimit old (go "alter column type");
          _ ← onTx (rebuildTable old next transform (chValidate ch));
          mret (Some next, tt)
      end)).
(** The times are those of the evaluations of the default. *)
Definition AlterColumnType (table column : bytes) (ch : ColumnTypeChange) (now now' : Z) : M (E * S) unit :=
  if negb (validType (chType ch)) then fail errColumnType
  else
    _ ← onE e_CheckMemory;
    updateDDL' (AlterColumnTypeIn table column ch now now').

(** ** Changing the primary key *)

Definition errPKNoColumn (table c : bytes) : error :=
  ENew (go "column " ++ quoted c ++ go " of relation " ++ quoted table ++ go " does not exist").
Definition errPKTwice (c : bytes) : error := ENew (go "column " ++ quoted c ++ go " appears twice in primary key constraint").
Definition errPKNeeded : error := ENew (go "cannot drop the primary key a foreign key depends on").

Fixpoint keyOrds (table : bytes) (d : TableDesc) (cols : list bytes) (acc : list nat) : outcome (list nat) :=
  match cols with
  | [] => Ok acc
  | c :: cols' =>
      match ColIndex d c with
      | None => Err (errPKNoColumn table c)
      | Some ord => if bool_decide (ord ∈ acc) then Err (errPKTwice c) else keyOrds table d cols' (acc ++ [ord])
      end
  end.
(** [next.Columns[ord].NotNull = true] over both keys. *)
Definition setNotNull (ords : list nat) (cols : list Column) : list Column := foldl (λ cs o, alter (col_notnull true) o cs) cols ords.
Definition rekeyed (d : TableDesc) (ords : list nat) : TableDesc :=
  mkTable (tFormatVersion d) (tID d) (tName d) (setNotNull ords (setNotNull (tPKCols d) (tColumns d))) ords (tIndexes d)
    (tChecks d) (tForeignKeys d) (tNextColID d) None.
Fixpoint noNullKey (table : bytes) (old : TableDesc) (ords : list nat) (row : Row) : outcome (list any) :=
  match ords with
  | [] => Ok (rVals row)
  | o :: ords' =>
      v ← at_index (rVals row) o;
      if is_nil v then c ← at_index (tColumns old) o; Err (notNullValueErr table (colName c))
      else noNullKey table old ords' row
  end.

Definition SetPrimaryKeyIn (table : bytes) (cols : list bytes) : M (E * tx) unit :=
  alterDesc table (λ old,
    ords ← lift (keyOrds table old cols []);
    if bool_decide (ords = tPKCols old) then mret (None, tt)
    else
      let next := rekeyed old ords in
      refs ← referencingFKs table false;
      needed ← lift (neededBy old next refs);
      if (needed : bool) then fail errPKNeeded
      else
        _ ← checkRewriteLimit old (go "set primary key");
        _ ← onTx (rebuildTable old next (noNullKey table old ords) None);
        mret (Some next, tt)).
Definition SetPrimaryKey (table : bytes) (cols : list bytes) : M (E * S) unit :=
  if bool_decide (cols = []) then fail errNoPK
  else
    _ ← onE e_CheckMemory;
    updateDDL' (SetPrimaryKeyIn table cols).

End rebuild.

(** ** Writing the rows again *)

Section laws.
Context {tx : Type} {kv : KV tx} {kv_laws : KVLaws tx}.

Lemma writeEntries_wp (d : TableDesc) r nr idxs (t : tx) : desc_wf d -> idxs ⊆ tIndexes d -> NoDup idxs ->
  length r = length (tColumns d) -> Forall any_ok r -> normals r = Ok nr -> kv_writable t = true ->
  wp (for_each (writeEntry d r) idxs) (λ o t', kv_writable t' = true /\
    match o with
    | Ok _ => kv_map t' = add_entries d nr idxs (kv_map t) /\
        forall idx, idx ∈ idxs -> enforced idx nr = true -> kv_map t !! index_key d idx nr = None
    | Err _ => True
    | Panic _ => False
    end) t.
Proof.
  intros Hwf Hsub Hnd Hl Hok Hn. revert t. induction idxs as [|idx idxs IH]; intros t Hw.
  { apply wp_ret. split_and!; [done..|]. by intros idx ?%elem_of_nil. }
  apply NoDup_cons in Hnd as [Hnin Hnd]. assert (idx ∈ tIndexes d) as Hidx by (apply Hsub; left).
  assert (idxs ⊆ tIndexes d) as Hsub' by (intros x Hx; apply Hsub; by right).
  cbn [for_each]. apply wp_bind. unfold writeEntry at 1. apply wp_bind_lift.
  rewrite (indexEntry_written d Hwf idx Hidx r nr) by done. cbn [seqQ]. apply wp_bind, wp_gets. cbn [seqQ].
  destruct (enforced idx nr && kv_contains (index_key d idx nr) t) eqn:Ec; [by apply wp_fail|].
  apply wp_set. rewrite Hw. intros t1 H1. cbn [seqQ]. eapply wp_mono; [apply IH; [done..|by rewrite (writes_writable _ _ _ H1)]|].
  intros [[]|er|p] t2 [Hw2 H]; (split; [done|]); try done. destruct H as [Hm Hfree]. rewrite (writes_map _ _ _ H1) in Hm, Hfree.
  split; [done|]. intros x [->|Hx]%elem_of_cons He.
  - rewrite He in Ec. by apply kv_contains_false.
  - rewrite <- (Hfree x Hx He). symmetry. apply lookup_insert_ne. intros Ek. apply Hnin.
    replace idx with x; [done|]. apply (same_index d Hwf x idx (index_key d x nr)); [by apply Hsub'|done|apply index_key_prefix|].
    rewrite <- Ek. apply index_key_prefix.
Qed.

(** A row written again is one more row of the table. *)
Lemma writeRow_wp (d : TableDesc) r (t : tx) : cat_wf d -> row_typed d r -> kv_writable t = true ->
  wp (writeRow d r) (λ o t', kv_writable t' = true /\
    match o with
    | Ok _ => exists nr, normals r = Ok nr /\ row_ok d nr /\ kv_map t !! row_key d nr = None /\
        (forall idx, idx ∈ tIndexes d -> enforced idx nr = true -> kv_map t !! index_key d idx nr = None) /\
        kv_map t' = add_row d nr (kv_map t)
    | Err _ => True
    | Panic _ => False
    end) t.
Proof.
  intros Hw Ht Hwr. pose proof (cw_wf d Hw) as Hwf. pose proof (row_typed_any_ok d r Ht) as Hany. destruct Ht as [Hl Hcell].
  unfold writeRow. apply wp_bind_lift. destruct (pk ← pkValues d r; rowKey d pk) as [key|er|p] eqn:Ek; cbn [seqQ]; [|done|].
  2:{ rewrite pkValues_pkOf in Ek by done. cbn [mbind outcome_bind] in Ek. by apply Append_no_panic in Ek; [|apply pkOf_any_ok]. }
  apply wp_bind, wp_gets. cbn [seqQ]. destruct (kv_contains key t) eqn:Ec; [by apply wp_fail|]. apply kv_contains_false in Ec.
  apply wp_bind_lift. destruct (encodeRowValue d r) as [val|er|p] eqn:Ev; cbn [seqQ]; [|done|by apply (encodeRowValue_no_panic d Hwf) in Ev].
  destruct (written_inv d Hwf r key val) as [nr Hn]; [done..|].
  destruct (written_ok d Hwf r nr) as (_ & Hk' & Hv'); [done..|].
  assert (key = row_key d nr) as -> by congruence. assert (val = row_val d nr) as -> by congruence.
  apply wp_bind, wp_set. rewrite Hwr. intros t1 H1. cbn [seqQ].
  eapply wp_mono; [apply (writeEntries_wp d r nr); try done; [by apply indexes_NoDup|by rewrite (writes_writable _ _ _ H1)]|].
  intros [[]|er|p] t2 [Hw2 H]; (split; [done|]); try done. destruct H as [Hm Hfree]. rewrite (writes_map _ _ _ H1) in Hm, Hfree.
  assert (forall idx, idx ∈ tIndexes d -> row_key d nr <> index_key d idx nr) as Hne.
  { intros idx Hidx. apply (row_key_not_index d Hwf idx nr); [done|apply row_key_prefix]. }
  exists nr. split_and!; [done|by eapply row_typed_normals|done| |].
  - intros idx Hidx He. rewrite <- (Hfree idx Hidx He). symmetry. apply lookup_insert_ne. by apply Hne.
  - rewrite Hm. apply map_eq. intros k. unfold add_row. destruct (decide (row_key d nr = k)) as [<-|Hk].
    + rewrite add_entries_ne by (done || (intros idx Hidx; by apply Hne)). by rewrite !lookup_insert_eq.
    + rewrite lookup_insert_ne by done. apply add_entries_ext. by rewrite lookup_insert_ne.
Qed.


Definition insert_rows (d : TableDesc) (T : table) (rows : list (list any)) : table :=
  foldl (λ T r, <[pkOf d r := r]> T) T rows.

Lemma insert_rows_ne d T rows pk : pk ∉ pkOf d <$> rows -> insert_rows d T rows !! pk = T !! pk.
Proof.
  revert T. induction rows as [|r rows IH]; intros T Hn; [done|]. csimpl in Hn. apply not_elem_of_cons in Hn as [H1 H2].
  change (insert_rows d T (r :: rows)) with (insert_rows d (<[pkOf d r := r]> T) rows). by rewrite IH, lookup_insert_ne.
Qed.
Lemma insert_rows_in d T rows r : NoDup (pkOf d <$> rows) -> r ∈ rows -> insert_rows d T rows !! pkOf d r = Some r.
Proof.
  revert T. induction rows as [|x rows IH]; intros T Hnd Hin; [by apply elem_of_nil in Hin|].
  csimpl in Hnd. apply NoDup_cons in Hnd as [Hn Hnd]. change (insert_rows d T (x :: rows)) with (insert_rows d (<[pkOf d x := x]> T) rows).
  apply elem_of_cons in Hin as [<-|Hin]; [|by apply IH]. rewrite insert_rows_ne by done. apply lookup_insert_eq.
Qed.

Lemma insert_rows_size d T rows : (size (insert_rows d T rows) <= size T + length rows)%nat.
Proof.
  revert T. induction rows as [|r rows IH]; intros T; [cbn; lia|].
  change (insert_rows d T (r :: rows)) with (insert_rows d (<[pkOf d r := r]> T) rows). specialize (IH (<[pkOf d r := r]> T)).
  rewrite map_size_insert in IH. cbn [length]. destruct (T !! pkOf d r); cbn in IH; lia.
Qed.

Lemma add_row_space (d : TableDesc) row m k : desc_wf d -> ~ tableSpace (tID d) `prefix_of` k -> add_row d row m !! k = m !! k.
Proof.
  intros Hwf Hk. unfold add_row. rewrite lookup_insert_ne.
  - apply (add_entries_ne d Hwf). intros idx _ ->. apply Hk. eapply indexPrefix_space, index_key_prefix.
  - intros <-. apply Hk. eapply indexPrefix_space, row_key_prefix.
Qed.

Lemma writeRows_wp (d : TableDesc) rows T (t : tx) : cat_wf d -> Forall (row_typed d) rows -> kv_writable t = true ->
  table_ok d (kv_map t) -> abstracts d (kv_map t) T ->
  wp (for_each (writeRow d) rows) (λ o t', kv_writable t' = true /\
    match o with
    | Ok _ => exists nrows, Forall2 (λ r nr, normals r = Ok nr) rows nrows /\ NoDup (pkOf d <$> nrows) /\
        Forall (λ nr, T !! pkOf d nr = None) nrows /\
        table_ok d (kv_map t') /\ abstracts d (kv_map t') (insert_rows d T nrows) /\
        forall k, ~ tableSpace (tID d) `prefix_of` k -> kv_map t' !! k = kv_map t !! k
    | Err _ => True
    | Panic _ => False
    end) t.
Proof.
  intros Hw Hrows. revert T t. induction Hrows as [|r rows Hr _ IH]; intros T t Hwr Hok HT.
  { apply wp_ret. split; [done|]. exists []. split_and!; try done; constructor. }
  cbn [for_each]. apply wp_bind. eapply wp_mono; [by apply writeRow_wp|].
  intros [[]|er|p] t1 [Hw1 H]; cbn [seqQ]; [|done|done]. destruct H as (nr & Hn & Hro & Hfresh & Hfree & Hm1).
  assert (T !! pkOf d nr = None) as HT0 by (by apply (abs_free d (kv_map t) T nr (to_inv _ _ Hok))).
  pose proof (abstracts_add d (cw_wf d Hw) _ _ _ HT Hro Hfresh HT0) as HT1. rewrite <- Hm1 in HT1.
  pose proof (table_ok_add d Hw _ _ Hok Hro Hfresh Hfree) as Hok1. rewrite <- Hm1 in Hok1.
  eapply wp_mono; [by apply (IH _ t1 Hw1 Hok1 HT1)|].
  intros [[]|er|p] t2 [Hw2 H]; (split; [done|]); try done. destruct H as (nrows & HF & Hnd & Hnone & Hok2 & HT2 & Hout).
  exists (nr :: nrows). rewrite Forall_forall in Hnone.
  assert (forall x, x ∈ nrows -> pkOf d x <> pkOf d nr /\ T !! pkOf d x = None) as Hne.
  { intros x Hx. specialize (Hnone x Hx). rewrite lookup_insert in Hnone. by case_decide. }
  split_and!; try done.
  - by constructor.
  - csimpl. apply NoDup_cons. split; [|done]. intros (x & Ex & Hx)%list_elem_of_fmap. by destruct (Hne x Hx).
  - constructor; [done|]. apply Forall_forall. intros x Hx. by apply Hne.
  - intros k Hk. rewrite Hout, Hm1 by done. apply add_row_space; [apply Hw|done].
Qed.

(** The row another row becomes. *)
Definition converted (old next : TableDesc) (transform : Row -> outcome (list any)) (row row' : list any) : Prop :=
  exists vals cv, transform (mkRow old row) = Ok vals /\ coerceRow next vals = Ok cv /\ normals cv = Ok row'.

(** The new table holds the old rows converted, one for one. *)
Record rebuilt (old next : TableDesc) (transform : Row -> outcome (list any)) (validate : option (Row -> outcome unit))
    (m : kvmap) (T' : table) : Prop := {
  rb_rows row' : T' !! pkOf next row' = Some row' <-> exists row, stored old m row /\ converted old next transform row row';
  rb_every row : stored old m row -> exists row', converted old next transform row row';
  rb_inj row1 row2 r1 r2 : stored old m row1 -> stored old m row2 -> converted old next transform row1 r1 ->
    converted old next transform row2 r2 -> pkOf next r1 = pkOf next r2 -> row1 = row2;
  rb_valid f row : validate = Some f -> stored old m row -> exists vals cv, transform (mkRow old row) = Ok vals /\
    coerceRow next vals = Ok cv /\ f (mkRow next cv) = Ok tt;
  rb_size T : table_inv old m -> abstracts old m T -> (size T' <= size T)%nat;
}.

Section rebuild_spec.
Context (old next : TableDesc) (transform : Row -> outcome (list any)) (validate : option (Row -> outcome unit)) (t : tx).
Hypothesis Hwn : cat_wf next.
Hypothesis Hid : tID next = tID old.
Hypothesis Hok : table_ok old (kv_map t).
Hypothesis Htrans : forall row, stored old (kv_map t) row ->
  match transform (mkRow old row) with Ok vals => Forall any_ok vals | Err _ => True | Panic _ => False end.
Hypothesis Hval : forall f r p, validate = Some f -> f r <> Panic p.

Lemma rebuildRow_stored e : e ∈ rowEntries (tID old) t ->
  stored old (kv_map t) (rowOf old e) /\
  match rebuildRow old next transform validate e with
  | Ok cv => row_typed next cv /\ exists vals, transform (mkRow old (rowOf old e)) = Ok vals /\ coerceRow next vals = Ok cv /\
      forall f, validate = Some f -> f (mkRow next cv) = Ok tt
  | Err _ => True
  | Panic _ => False
  end.
Proof.
  destruct e as [k v]. intros [Hk Hp]%rowEntries_elem. destruct (rowOf_stored old _ k v (to_inv _ _ Hok) Hk Hp) as (Hst & _ & Hd).
  split; [done|]. unfold rebuildRow. cbn [fst snd]. rewrite Hd. cbn [mbind outcome_bind]. specialize (Htrans _ Hst).
  destruct (transform _) as [vals|er|p] eqn:Et; cbn [mbind outcome_bind]; [|done..].
  destruct (coerceRow next vals) as [cv|er|p] eqn:Ec; cbn [mbind outcome_bind]; [|done|by apply coerceRow_no_panic in Ec].
  destruct validate as [f|] eqn:Ef.
  - destruct (f (mkRow next cv)) as [[]|er|p] eqn:Efv; cbn [mbind outcome_bind]; [|done|by eapply Hval].
    split; [by eapply (coerceRow_typed next (cw_wf _ Hwn))|]. exists vals. split_and!; [done..|]. by intros f' [= <-].
  - cbn [mbind outcome_bind]. split; [by eapply (coerceRow_typed next (cw_wf _ Hwn))|]. by exists vals.
Qed.

Lemma rebuilt_rows rows nrows : Forall2 (λ e r, rebuildRow old next transform validate e = Ok r) (rowEntries (tID old) t) rows ->
  Forall2 (λ r nr, normals r = Ok nr) rows nrows -> NoDup (pkOf next <$> nrows) ->
  rebuilt old next transform validate (kv_map t) (insert_rows next ∅ nrows).
Proof.
  intros HF HN Hnd.
  assert (forall i e, rowEntries (tID old) t !! i = Some e -> exists r nr, rows !! i = Some r /\ nrows !! i = Some nr /\
    converted old next transform (rowOf old e) nr) as Hconv.
  { intros i e Hi. destruct (Forall2_lookup_l _ _ _ _ _ HF Hi) as (r & Hr & Er), (Forall2_lookup_l _ _ _ _ _ HN Hr) as (nr & Hnr & En).
    exists r, nr. split_and!; [done..|]. destruct (rebuildRow_stored e) as [_ H]; [by eapply list_elem_of_lookup_2|].
    rewrite Er in H. destruct H as (_ & vals & Hv & Hc & _). by exists vals, r. }
  assert (forall row, stored old (kv_map t) row -> exists i e, rowEntries (tID old) t !! i = Some e /\ rowOf old e = row) as Hpos.
  { intros row Hst. destruct (stored_rowOf old t row Hst) as (e & [i Hi]%list_elem_of_lookup & He). by exists i, e. }
  assert (forall row r1 r2, converted old next transform row r1 -> converted old next transform row r2 -> r1 = r2) as Hfun.
  { intros row r1 r2 (v1 & c1 & A1 & A2 & A3) (v2 & c2 & B1 & B2 & B3). congruence. }
  split.
  - intros row'. split.
    + intros HT. destruct (decide (pkOf next row' ∈ pkOf next <$> nrows)) as [(nr & Ep & [i Hi]%list_elem_of_lookup)%list_elem_of_fmap|Hn];
        [|by rewrite insert_rows_ne, lookup_empty in HT].
      rewrite Ep, (insert_rows_in next ∅ nrows nr) in HT by (done || by eapply list_elem_of_lookup_2). injection HT as ->.
      destruct (Forall2_lookup_r _ _ _ _ _ HN Hi) as (r & Hr & _), (Forall2_lookup_r _ _ _ _ _ HF Hr) as (e & He & _).
      destruct (Hconv i e He) as (r' & nr' & _ & Hnr & Hc). exists (rowOf old e).
      split; [apply rebuildRow_stored; by eapply list_elem_of_lookup_2|]. congruence.
    + intros (row & Hst & Hc). destruct (Hpos row Hst) as (i & e & Hi & <-). destruct (Hconv i e Hi) as (r & nr & _ & Hnr & Hc').
      rewrite (Hfun _ _ _ Hc Hc'). apply insert_rows_in; [done|]. by eapply list_elem_of_lookup_2.
  - intros row Hst. destruct (Hpos row Hst) as (i & e & Hi & <-). destruct (Hconv i e Hi) as (r & nr & _ & _ & Hc). by exists nr.
  - intros row1 row2 r1 r2 H1 H2 C1 C2 Ep. destruct (Hpos row1 H1) as (i & e & Hi & <-), (Hpos row2 H2) as (j & e' & Hj & <-).
    destruct (Hconv i e Hi) as (? & nr & _ & Hnr & C1'), (Hconv j e' Hj) as (? & nr' & _ & Hnr' & C2').
    rewrite (Hfun _ _ _ C1 C1'), (Hfun _ _ _ C2 C2') in Ep.
    assert (i = j) as ->; [|congruence].
    eapply (NoDup_lookup _ _ _ (pkOf next nr) Hnd); rewrite list_lookup_fmap; [by rewrite Hnr|by rewrite Hnr', Ep].
  - intros f row Ef Hst. destruct (Hpos row Hst) as (i & e & Hi & <-). destruct (Forall2_lookup_l _ _ _ _ _ HF Hi) as (r & Hr & Er).
    destruct (rebuildRow_stored e) as [_ H]; [by eapply list_elem_of_lookup_2|]. rewrite Er in H.
    destruct H as (_ & vals & Hv & Hc & Hf). exists vals, r. split_and!; [done..|by apply Hf].
  - intros T Hti HT. rewrite (abstracts_size old (kv_map t) T Hti HT), <- rowEntries_range.
    pose proof (insert_rows_size next ∅ nrows) as Hs. rewrite map_size_empty in Hs.
    pose proof (Forall2_length _ _ _ HF). pose proof (Forall2_length _ _ _ HN). lia.
Qed.

Lemma rebuildTable_wp : kv_writable t = true ->
  wp (rebuildTable old next transform validate) (λ o t', kv_writable t' = true /\
    match o with
    | Ok _ => exists T', rebuilt old next transform validate (kv_map t) T' /\ table_ok next (kv_map t') /\
        abstracts next (kv_map t') T' /\ forall k, ~ tableSpace (tID old) `prefix_of` k -> kv_map t' !! k = kv_map t !! k
    | Err _ => True
    | Panic _ => False
    end) t.
Proof.
  intros Hwr. unfold rebuildTable. apply wp_bind, wp_gets. cbn [seqQ]. apply wp_bind_lift.
  destruct (traverse _ (rowEntries (tID old) t)) as [rows|er|p] eqn:Etr; cbn [seqQ]; [|done|].
  2:{ apply traverse_panic in Etr as (e & He & Hp). destruct (rebuildRow_stored e He) as [_ H]. by rewrite Hp in H. }
  apply traverse_ok in Etr. apply wp_bind, wp_delete_range. rewrite Hwr. intros t1 H1. cbn [seqQ].
  assert (forall k, kv_map t1 !! k = if decide (tableSpace (tID old) `prefix_of` k) then None else kv_map t !! k) as Hm1.
  { intros k. rewrite (writes_map _ _ _ H1). apply lookup_filtered, tableSpace_interval. }
  destruct (table_ok_empty next (kv_map t1)) as [Hok1 HT1].
  { intros k Hk. rewrite Hm1, Hid in *. by rewrite decide_True. }
  eapply wp_mono.
  { apply (writeRows_wp next rows ∅ t1 Hwn); [|by rewrite (writes_writable _ _ _ H1)|done|done].
    apply Forall_forall. intros r [i Hi]%list_elem_of_lookup. destruct (Forall2_lookup_r _ _ _ _ _ Etr Hi) as (e & He & Er).
    destruct (rebuildRow_stored e) as [_ H]; [by eapply list_elem_of_lookup_2|]. rewrite Er in H. apply H. }
  intros [[]|er|p] t2 [Hw2 H]; (split; [done|]); try done. destruct H as (nrows & HN & Hnd & _ & Hok2 & HT2 & Hout).
  exists (insert_rows next ∅ nrows). split_and!; [by eapply rebuilt_rows|done..|].
  intros k Hk. rewrite Hid in Hout. rewrite Hout, Hm1 by done. by rewrite decide_False.
Qed.
End rebuild_spec.
End laws.

(** ** Values already of their column's type *)

Lemma coerceCol_fixed d i c v : cell_ok d i c v -> coerceCol d i c v = Ok v.
Proof.
  unfold cell_ok, coerceCol. destruct (is_nil v) eqn:En.
  - intros (Hp & Hn & Hi). destruct v; try done. unfold coerce. cbn [is_nil mbind outcome_bind]. unfold enforceMaxLen.
    destruct (colMaxLen c <=? 0); cbn [mbind outcome_bind is_nil]; by rewrite Hp, Hn, Hi.
  - intros [Ht Hf]. rewrite coerce_fixed by done. cbn [mbind outcome_bind].
    destruct (enforceMaxLen_cases v c) as [[-> _]|(s & -> & Hl & _)]; [cbn [mbind outcome_bind]; by rewrite En|].
    cbn in Hf. specialize (Hf ltac:(lia)). lia.
Qed.
Lemma coerceCols_fixed d j cols vals : length vals = length cols ->
  (forall i c v, cols !! i = Some c -> vals !! i = Some v -> cell_ok d (j + i) c v) -> coerceCols d j cols vals = Ok vals.
Proof.
  revert j vals. induction cols as [|c cols IH]; intros j [|v vals] Hl Hc; try done. cbn [coerceCols].
  rewrite coerceCol_fixed by (specialize (Hc 0%nat c v eq_refl eq_refl); by rewrite Nat.add_0_r in Hc). cbn [mbind outcome_bind].
  rewrite IH; [done|cbn in Hl; lia|]. intros i c' v' H1 H2. specialize (Hc (Datatypes.S i) c' v' H1 H2). by rewrite Nat.add_succ_r in Hc.
Qed.
Lemma coerceRow_fixed d row : row_typed d row -> coerceRow d row = Ok row.
Proof. intros [Hl Hc]. unfold coerceRow. rewrite decide_False by (by intros ?). by apply coerceCols_fixed. Qed.

(** ** SetPrimaryKey *)

Lemma keyOrds_ok table d cols acc : match keyOrds table d cols acc with
  | Ok l => NoDup acc -> Forall (λ o, o < length (tColumns d))%nat acc ->
      exists l', l = acc ++ l' /\ NoDup l /\ Forall (λ o, o < length (tColumns d))%nat l /\
        Forall2 (λ o n, exists c, tColumns d !! o = Some c /\ colName c = n) l' cols
  | Err _ => True
  | Panic _ => False
  end.
Proof.
  revert acc. induction cols as [|c cols IH]; intros acc; cbn [keyOrds].
  { intros Hnd Hr. exists []. rewrite app_nil_r. by split_and!. }
  destruct (ColIndex d c) as [ord|] eqn:Ei; [|done]. case_bool_decide as Hin; [done|].
  specialize (IH (acc ++ [ord])). destruct (keyOrds table d cols (acc ++ [ord])) as [l|er|p]; [|done..].
  intros Hnd Hr. destruct (ColIndex_Some d _ _ Ei) as (col & Hc & Hn). destruct IH as (l' & -> & H1 & H2 & H3).
  - apply NoDup_app. split_and!; [done| |apply NoDup_singleton]. set_solver.
  - apply Forall_app. split; [done|]. repeat constructor. by eapply lookup_lt_Some.
  - exists (ord :: l'). rewrite <- app_assoc in *. split_and!; [done..|]. constructor; [by exists col|done].
Qed.

Lemma setNotNull_lookup ords cols i : setNotNull ords cols !! i = (if decide (i ∈ ords) then col_notnull true else id) <$> cols !! i.
Proof.
  revert cols. induction ords as [|o ords IH]; intros cols.
  { cbn. by destruct (cols !! i). }
  change (setNotNull (o :: ords) cols) with (setNotNull ords (alter (col_notnull true) o cols)). rewrite IH.
  destruct (decide (i = o)) as [->|Hne].
  - rewrite list_lookup_alter_eq. rewrite (decide_True (P := o ∈ o :: ords)) by (by left). destruct (cols !! o); cbn; [|done]. by case_decide.
  - rewrite list_lookup_alter_ne by done. f_equal. assert (i ∈ o :: ords <-> i ∈ ords) as Hiff by (rewrite elem_of_cons; tauto).
    by destruct (decide (i ∈ ords)), (decide (i ∈ o :: ords)); tauto || (exfalso; tauto).
Qed.

Lemma length_setNotNull ords cols : length (setNotNull ords cols) = length cols.
Proof.
  revert cols. induction ords as [|o ords IH]; intros cols; [done|].
  change (setNotNull (o :: ords) cols) with (setNotNull ords (alter (col_notnull true) o cols)). by rewrite IH, length_alter.
Qed.
(** What a column keeps when it becomes NOT NULL. *)
Lemma rekeyed_lookup d ords i c' : tColumns (rekeyed d ords) !! i = Some c' <-> exists c, tColumns d !! i = Some c /\
  c' = if decide (i ∈ ords \/ i ∈ tPKCols d) then col_notnull true c else c.
Proof.
  cbn. rewrite !setNotNull_lookup. destruct (tColumns d !! i) as [c|]; cbn; [|naive_solver].
  split; [intros [= <-]; exists c|intros (? & [= <-] & ->)]; repeat case_decide; naive_solver.
Qed.
Lemma rekeyed_fmap {A : Type} (f : Column -> A) d ords : (forall c, f (col_notnull true c) = f c) ->
  f <$> tColumns (rekeyed d ords) = f <$> tColumns d.
Proof.
  intros Hf. apply list_eq. intros i. rewrite !list_lookup_fmap. cbn. rewrite !setNotNull_lookup.
  destruct (tColumns d !! i) as [c|]; cbn; [|done]. repeat case_decide; cbn; by rewrite ?Hf.
Qed.
Lemma rekeyed_Forall (P : Column -> Prop) d ords : (forall c, P c -> P (col_notnull true c)) ->
  Forall P (tColumns d) -> Forall P (tColumns (rekeyed d ords)).
Proof.
  intros HP H. apply Forall_lookup. intros i c' (c & Hc & ->)%rekeyed_lookup. eapply Forall_lookup_1 in H; [|done]. case_decide; auto.
Qed.

Lemma cat_wf_rekeyed d ords : cat_wf d -> ords <> [] -> NoDup ords -> Forall (λ o, o < length (tColumns d))%nat ords ->
  cat_wf (rekeyed d ords).
Proof.
  intros Hw Hne Hnd Hr. pose proof (columns_bound d (cw_wf d Hw)) as Hb. destruct Hw as [W R U N T I X F].
  assert (length (tColumns (rekeyed d ords)) = length (tColumns d)) as Hlen by (cbn; by rewrite !length_setNotNull).
  split.
  - destruct W. split; rewrite ?Hlen; try done; try (by apply rekeyed_Forall); [by rewrite rekeyed_fmap..|by left].
  - destruct R. split; try done; [by apply rekeyed_Forall|]. eapply Forall_impl; [exact Hr|]. intros o Ho. unfold maxInt64. cbn in *. lia.
  - destruct U as (U1 & U2 & U3 & U4 & U5). split_and!; try done. apply rekeyed_Forall; [by apply clean_notnull|done].
  - by apply rekeyed_Forall.
  - by apply rekeyed_Forall.
  - by apply rekeyed_Forall.
  - done.
  - by rewrite Hlen.
Qed.

Lemma noNullKey_ok table d row ords : length row = length (tColumns d) -> Forall (λ o, o < length (tColumns d))%nat ords ->
  match noNullKey table d ords (mkRow d row) with
  | Ok vals => vals = row /\ Forall (λ o, row !! o <> Some ANil) ords
  | Err _ => True
  | Panic _ => False
  end.
Proof.
  intros Hl Hr. induction Hr as [|o ords Ho Hr IH]; cbn [noNullKey]; [done|].
  destruct (lookup_lt_is_Some_2 row o) as [v Hv]; [lia|]. unfold at_index. cbn [rVals]. rewrite Hv. cbn [mbind outcome_bind].
  destruct (is_nil v) eqn:En.
  - destruct (lookup_lt_is_Some_2 (tColumns d) o Ho) as [c Hc]. by rewrite Hc.
  - destruct (noNullKey _ _ _ _) as [vals|er|p]; [|done..]. destruct IH as [-> IH]. split; [done|]. constructor; [|done].
    rewrite Hv. by intros [= ->].
Qed.

Lemma rekeyed_typed d ords row : row_typed d row -> Forall (λ o, row !! o <> Some ANil) ords -> row_typed (rekeyed d ords) row.
Proof.
  intros [Hl Hc] Hn. split; [cbn; by rewrite !length_setNotNull|]. intros i c' v (c & Hi & ->)%rekeyed_lookup Hv.
  specialize (Hc i c v Hi Hv). unfold cell_ok in *. destruct (is_nil v) eqn:En; [|by case_decide]. destruct v; try done.
  assert (i ∉ ords) as H1 by (intros Hin; eapply Forall_forall in Hn; [|exact Hin]; done).
  assert (i ∉ tPKCols d) as H2 by (destruct Hc as [Hp _]; by apply bool_decide_eq_false in Hp).
  rewrite decide_False by tauto. split; [|apply Hc]. by apply bool_decide_eq_false.
Qed.

(** A rebuild that keeps every row keeps the table. *)
Lemma rebuilt_same old next transform validate m T' : rebuilt old next transform validate m T' ->
  (forall row vals, stored old m row -> transform (mkRow old row) = Ok vals -> vals = row /\ row_typed next row) ->
  forall row, T' !! pkOf next row = Some row <-> stored old m row.
Proof.
  intros Hrb Hsame row.
  assert (forall x y, stored old m x -> converted old next transform x y -> y = x) as Hconv.
  { intros x y Hst (vals & cv & Hv & Hc & Hn). destruct (Hsame x vals Hst Hv) as [-> Ht]. rewrite coerceRow_fixed in Hc by done.
    injection Hc as <-. rewrite normals_canon_id in Hn by apply (stored_ok _ _ _ Hst). congruence. }
  rewrite (rb_rows _ _ _ _ _ _ Hrb). split.
  - intros (x & Hst & Hc). by rewrite (Hconv x row Hst Hc).
  - intros Hst. exists row. split; [done|]. destruct (rb_every _ _ _ _ _ _ Hrb row Hst) as [y Hy]. by rewrite (Hconv row y Hst Hy) in Hy.
Qed.

Section alter_laws.
Context {E S : Type} {eng : EngineOps E} {eng_laws : EngineLaws E} {grd : Guarded E} {cs : CatState E} {cat_laws : CatLaws E}.
Context {tx : Type} {kv : KV tx} {kv_laws : KVLaws tx}.

(** A rebuild publishes the new descriptor over the converted rows. *)
Lemma mutates_rebuilt {A : Type} (table : bytes) (old next : TableDesc) (transform : Row -> outcome (list any))
    (validate : option (Row -> outcome unit)) (a : A) (R : A -> kvmap -> Prop) (e : E) (t : tx) :
  ready e t -> table_at (kv_map t) table old -> cat_wf next -> tID next = tID old -> tName next = tName old ->
  (forall row, stored old (kv_map t) row ->
    match transform (mkRow old row) with Ok vals => Forall any_ok vals | Err _ => True | Panic _ => False end) ->
  (forall f r p, validate = Some f -> f r <> Panic p) ->
  (forall T' m', rebuilt old next transform validate (kv_map t) T' -> altered table old next (λ _, T') (kv_map t) m' -> R a m') ->
  wp (_ ← onTx (rebuildTable old next transform validate); mret (Some next, a)) (mutates table e R) (e, t).
Proof.
  intros Hr Hat Hwn Hid Hnm Htr Hv HR. pose proof (db_table _ (rd_db _ _ Hr) table old Hat) as Hok.
  apply wp_bind, wp_onTx. eapply wp_mono; [by apply (rebuildTable_wp old next transform validate t Hwn Hid Hok Htr Hv), Hr|].
  intros [[]|er|p] t' [Hw' H]; cbn [seqQ]; [|by apply mutates_err|done]. destruct H as (T' & Hrb & Hok' & HT' & Hout).
  apply wp_ret. destruct (alter_rows (kv_map t) (kv_map t') table old next (λ _, T')) as [Hdb Hal]; try done.
  - apply Hr.
  - intros k Hk _ _. by apply Hout.
  - split_and!; [done..|]. by apply (HR T').
Qed.

(** SET PRIMARY KEY leaves the rows as they are, under their new keys. *)
Lemma SetPrimaryKeyIn_wp (table : bytes) (cols : list bytes) (e : E) (t : tx) : ready e t -> cols <> [] ->
  wp (SetPrimaryKeyIn table cols) (ddl e (λ _ m', exists d ords, table_at (kv_map t) table d /\
    Forall2 (λ o n, exists c, tColumns d !! o = Some c /\ colName c = n) ords cols /\
    if decide (ords = tPKCols d) then m' = kv_map t
    else exists T', altered table d (rekeyed d ords) (λ _, T') (kv_map t) m' /\
    (forall row, T' !! pkOf (rekeyed d ords) row = Some row <-> stored d (kv_map t) row) /\
    (forall row o, stored d (kv_map t) row -> o ∈ ords -> row !! o <> Some ANil) /\
    (forall T, table_inv d (kv_map t) -> abstracts d (kv_map t) T -> (size T' <= size T)%nat) /\
    forall d' f, references (kv_map t) table false d' f -> covers d (fkRefCols f) -> covers (rekeyed d ords) (fkRefCols f))) (e, t).
Proof.
  intros Hr Hcols. apply wp_alterDesc; [done|]. intros d e' Hr' He Hat Hnm Hw.
  apply wp_bind_lift. pose proof (keyOrds_ok table d cols []) as Hk. destruct (keyOrds table d cols []) as [l|er|p]; cbn [seqQ];
    [|by apply mutates_err; [|apply Hr]|done].
  destruct Hk as (ords & -> & Hnd & Hrange & HF); [constructor..|]. rewrite app_nil_l in *.
  assert (ords <> []) as Hne by (intros ->; by inversion HF; subst).
  case_bool_decide as Hsame.
  { apply wp_ret, mutates_nothing; [done|]. exists d, ords. rewrite decide_True by done. done. }
  cbv zeta. pose proof (cat_wf_rekeyed d ords Hw Hne Hnd Hrange) as Hw0.
  apply wp_bind, referencingFKs_wp; [done|]. intros refs e1 He1 Hrefs. cbn [seqQ]. apply wp_bind_lift.
  destruct (neededBy_ok d (rekeyed d ords) refs Hw Hw0) as (b & -> & Hb). cbn [seqQ].
  destruct b; [by apply wp_fail, mutates_err; [|apply Hr]|].
  apply wp_bind, wp_checkLimit; cbn [seqQ]; [|by apply mutates_err; [|apply Hr]].
  assert (forall row, stored d (kv_map t) row -> match noNullKey table d ords (mkRow d row) with
    | Ok vals => vals = row /\ Forall (λ o, row !! o <> Some ANil) ords | Err _ => True | Panic _ => False end) as Hnn.
  { intros row Hst. apply noNullKey_ok; [|done]. apply (stored_ok _ _ _ Hst). }
  eapply wp_mono; [|intros o s; apply (mutates_cached table e' e1 _ o s He1)].
  apply mutates_rebuilt; try done; [by eapply ready_cached| |].
  { intros row Hst. specialize (Hnn row Hst). destruct (noNullKey _ _ _ _); [|done..]. destruct Hnn as [-> _].
    by eapply row_typed_any_ok, stored_ok. }
  intros T' m' Hrb Hal. exists d, ords. split_and!; [done..|]. rewrite decide_False by done. exists T'.
  split_and!; [done| | |apply Hrb|by intros d' f Hf; eapply Hb; [|apply Hrefs]].
  - eapply rebuilt_same; [exact Hrb|]. intros row vals Hst Hv. specialize (Hnn row Hst). rewrite Hv in Hnn. destruct Hnn as [-> Hn].
    split; [done|]. apply rekeyed_typed; [|done]. apply (stored_ok _ _ _ Hst).
  - intros row o Hst Ho. destruct (rb_every _ _ _ _ _ _ Hrb row Hst) as (row' & vals & cv & Hv & _). specialize (Hnn row Hst).
    rewrite Hv in Hnn. destruct Hnn as [_ Hn]. by eapply Forall_forall in Hn.
Qed.
(** ** AlterColumnType *)

Lemma refuseFKColumn_wp (d : TableDesc) ord c verb (e : E) (t : tx) Q : ready e t -> tColumns d !! ord = Some c ->
  (forall er e', cached e e' -> Q (Err er) (e', t)) ->
  (forall e', cached e e' -> Forall (λ f, ord ∉ fkCols f) (tForeignKeys d) ->
    (forall d' f, references (kv_map t) (tName d) false d' f -> colName c ∉ fkRefCols f) -> Q (Ok tt) (e', t)) ->
  wp (refuseFKColumn d ord verb) Q (e, t).
Proof.
  intros Hr Hc Herr Hok. unfold refuseFKColumn. apply wp_bind_lift. unfold at_index. rewrite Hc. cbn [seqQ].
  destruct (existsb _ (tForeignKeys d)) eqn:Ex; [by apply wp_fail, Herr|].
  apply wp_bind, referencingFKs_wp; [done|]. intros refs e' He Hrefs. cbn [seqQ].
  destruct (existsb _ refs) eqn:Ey; [by apply wp_fail, Herr|]. apply wp_ret, Hok; [done|..].
  - eapply Forall_impl; [by apply existsb_false|]. intros f Hf. cbn in Hf. by apply bool_decide_eq_false in Hf.
  - intros d' f Hf%Hrefs. apply existsb_false in Ey. eapply Forall_forall in Ey; [|exact Hf]. by apply bool_decide_eq_false in Ey.
Qed.
End alter_laws.

(** A cast of a value of the column is no panic and gives a Go value of
    the new type. *)
Lemma castTimestampDate_range m : int64_ok m -> int64_ok (castTimestampDate m).
Proof.
  intros Hm. unfold castTimestampDate. destruct (_ <? 0); [apply int64_range|]. unfold int64_ok, minInt64, maxInt64, microsPerDay in *.
  assert (Z.abs (Z.quot m (86400 * 1000000)) < 2 ^ 62); [|lia].
  rewrite <- Z.quot_abs by lia. rewrite Z.quot_div_nonneg by lia. apply Z.div_lt_upper_bound; lia.
Qed.
Lemma castToText_ok from v : typed from v -> match castToText v from with Panic _ => False | _ => True end.
Proof. destruct from, v as [| |[]| | | | | | | |]; cbn; done. Qed.
Lemma assignmentCast_ok from to f v : assignmentCast from to = Some f -> typed from v ->
  match f v with Ok w => typed to w | Err _ => True | Panic _ => False end.
Proof.
  unfold assignmentCast. case_decide as E1; [intros [= <-]; by subst|].
  case_decide as E2; [subst to; intros [= <-] Hv; pose proof (castToText_ok from v Hv) as H; by destruct (castToText v from)|].
  destruct from, to; try done; intros [= <-]; destruct v as [| |[] z| | | | | | | |]; try done; intros Hv.
  - by apply int64_to_f64_ok.
  - cbn. unfold castFloatInt. cbv zeta. destruct (_ || _) eqn:Eb; [done|].
    apply orb_false_iff in Eb as [[_ H1]%orb_false_iff H2]. apply Z.ltb_ge in H1, H2. revert H1 H2.
    generalize (if f64_neg bits then - roundZ (f64_mag bits) (2 ^ 1074) else roundZ (f64_mag bits) (2 ^ 1074)). intros r H1 H2.
    unfold int64_ok, minInt64, maxInt64 in *. lia.
  - by apply castTimestampDate_range.
  - cbn. unfold castDateTimestamp. destruct (_ || _); [done|]. apply int64_range.
Qed.

Lemma castDefault_no_panic oldCol newCol now now' p : maxlen_ok oldCol -> castDefault oldCol newCol now now' <> Panic p.
Proof.
  intros Hm. unfold castDefault. cbv zeta. destruct (_ || _); [by destruct (_ && _)|].
  destruct (columnDefaultValue oldCol now) as [v|er|q] eqn:Ev; cbn [mbind outcome_bind]; [|done|by apply columnDefaultValue_no_panic in Ev].
  pose proof (columnDefaultValue_typed oldCol now v Hm Ev) as Hv. destruct (is_nil v); [done|].
  destruct (assignmentCast _ _) as [f|] eqn:Ef; [|done]. pose proof (assignmentCast_ok _ _ f v Ef (proj1 Hv)) as Hf.
  destruct (f v) as [w|er|q]; cbn [mbind outcome_bind]; [|done..]. destruct (literalOf w) as [out|]; [|done].
  destruct (columnDefaultValue (col_default out newCol) now') as [x|er|q] eqn:Ex; cbn [mbind outcome_bind]; [done..|].
  by apply columnDefaultValue_no_panic in Ex.
Qed.

(** The expressions the SQL layer compiles return Go values and errors. *)
Definition change_ok (ch : ColumnTypeChange) : Prop :=
  chType ch ∈ knownTypes /\ int64_ok (chMaxLen ch) /\
  (forall f r, chUsing ch = Some f -> match f r with Ok v => any_ok v | Err _ => True | Panic _ => False end) /\
  (forall f r p, chValidate ch = Some f -> f r <> Panic p).

Lemma typeTransform_ok ch d c ord transform row : change_ok ch -> tColumns d !! ord = Some c -> row_ok d row ->
  typeTransform ch c ord = Some transform ->
  match transform (mkRow d row) with Ok vals => Forall any_ok vals | Err _ => True | Panic _ => False end.
Proof.
  intros (_ & _ & Hu & _) Hc [Ht Hcan]. pose proof (row_typed_any_ok d row Ht) as Hany. destruct Ht as [Hl Hcell].
  assert (ord < length row)%nat as Hlt by (rewrite Hl; by eapply lookup_lt_Some).
  destruct (lookup_lt_is_Some_2 row ord Hlt) as [v Hv]. unfold typeTransform. destruct (chUsing ch) as [f|].
  - intros [= <-]. unfold changeUsing. specialize (Hu f (mkRow d row) eq_refl). destruct (f _) as [w|er|p]; cbn [mbind outcome_bind]; [|done..].
    unfold set_index. cbn [rVals]. rewrite decide_True by done. by apply Forall_insert.
  - intros (f & Hf & ->)%fmap_Some. unfold changeCast, at_index. cbn [rVals]. rewrite Hv. cbn [mbind outcome_bind].
    specialize (Hcell ord c v Hc Hv). unfold cell_ok in Hcell. destruct (is_nil v); [done|].
    pose proof (assignmentCast_ok _ _ f v Hf (proj1 Hcell)) as H. destruct (f v) as [w|er|p]; cbn [mbind outcome_bind]; [|done..].
    unfold set_index. rewrite decide_True by done. apply Forall_insert; [done|by eapply typed_any_ok].
Qed.

Lemma knownType_clean t : t ∈ knownTypes -> typeOf (clean (typeName t)) = t.
Proof. revert t. apply Forall_forall. repeat constructor. Qed.
Lemma cat_wf_retyped d ord c ch text : cat_wf d -> tColumns d !! ord = Some c -> change_ok ch -> clean text = text ->
  validMaxLen (col_type (chType ch) (chMaxLen ch) c) = Ok tt -> (colIdentity c = true -> chType ch = TInt) ->
  cat_wf (edit_column d ord (λ _, col_default text (col_type (chType ch) (chMaxLen ch) c))).
Proof.
  intros Hw Hc (Ht & Hm & _) Hu Hv Hi. destruct (column_ok d Hw ord c Hc) as (_ & _ & _ & K4 & _).
  apply (cat_wf_edit d Hw ord c (λ _, col_default text (col_type (chType ch) (chMaxLen ch) c)) Hc); try done.
  - rewrite (alter_same d ord c _ Hc colName) by done. apply Hw.
  - by apply validMaxLen_ok in Hv.
  - apply clean_default; [done|]. rewrite clean_column in *. destruct K4 as (K1 & _ & K3). split_and!; [done| |done]. by apply knownType_clean.
Qed.

Section alter_type.
Context {E S : Type} {eng : EngineOps E} {eng_laws : EngineLaws E} {grd : Guarded E} {cs : CatState E} {cat_laws : CatLaws E}.
Context {tx : Type} {kv : KV tx} {kv_laws : KVLaws tx}.

(** ALTER COLUMN TYPE converts every row, one for one, and refuses a column
    that takes part in a foreign key. *)
Lemma AlterColumnTypeIn_wp (table column : bytes) ch now now' (e : E) (t : tx) : ready e t -> change_ok ch ->
  (forall c text, cleanColumn c = c -> maxlen_ok c -> castDefault c (col_type (chType ch) (chMaxLen ch) c) now now' = Ok text -> clean text = text) ->
  wp (AlterColumnTypeIn table column ch now now') (ddl e (λ _ m', exists d ord c, table_at (kv_map t) table d /\
    ColIndex d column = Some ord /\ tColumns d !! ord = Some c /\
    (m' = kv_map t /\ chType ch = colType c \/
    exists text transform T', let next := edit_column d ord (λ _, col_default text (col_type (chType ch) (chMaxLen ch) c)) in
    typeTransform ch c ord = Some transform /\ rebuilt d next transform (chValidate ch) (kv_map t) T' /\
    altered table d next (λ _, T') (kv_map t) m' /\ Forall (λ f, ord ∉ fkCols f) (tForeignKeys d) /\
    forall d' f, references (kv_map t) table false d' f -> column ∉ fkRefCols f))) (e, t).
Proof.
  intros Hr Hch Hclean. apply wp_alterDesc; [done|]. intros d e' Hr' He Hat Hnm Hw.
  apply wp_withColumn; [|apply mutates_err; [done|apply Hr]].
  intros ord c Hi Hc Hcn. destruct (column_ok d Hw ord c Hc) as (_ & Km & _ & Kc & _). cbv zeta. apply wp_bind_lift.
  destruct (validMaxLen _) as [[]|er|p] eqn:Ev; cbn [seqQ]; [|by apply mutates_err; [|apply Hr]|exfalso; unfold validMaxLen in Ev; by repeat case_match].
  destruct (colIdentity c && bool_decide (chType ch <> TInt)) eqn:Eid; [by apply wp_fail, mutates_err; [|apply Hr]|].
  destruct (bool_decide (chUsing ch = None) && _ && _) eqn:Enop.
  { apply wp_ret, mutates_nothing; [done|]. apply andb_true_iff in Enop as [[_ Et%bool_decide_eq_true]%andb_true_iff _].
    exists d, ord, c. split_and!; try done. by left. }
  apply wp_bind, (refuseFKColumn_wp d ord c); [done|done|intros er e1 He1; cbn [seqQ]; by apply mutates_err; [|apply Hr]|].
  intros e1 He1 Hfk Hrefs. cbn [seqQ]. destruct (typeTransform ch c ord) as [transform|] eqn:Etr; [|by apply wp_fail, mutates_err; [|apply Hr]].
  apply wp_bind. apply wp_mono with (Q := λ o s, s = (e1, t) /\ match o with Ok text => clean text = text | Err _ => True | Panic _ => False end).
  { destruct (bool_decide (colDefault c = [])); [by apply wp_ret|]. apply wp_lift. split; [done|]. destruct (castDefault _ _ _ _) as [text|er|p] eqn:Ed; [by eapply Hclean|done|].
    by apply castDefault_no_panic in Ed. }
  intros [text|er|p] s [-> Hu]; cbn [seqQ]; [|by apply mutates_err; [|apply Hr]|done].
  apply wp_bind, wp_checkLimit; cbn [seqQ]; [|by apply mutates_err; [|apply Hr]].
  eapply wp_mono; [|intros o s; apply (mutates_cached table e' e1 _ o s He1)].
  apply mutates_rebuilt; try done.
  - by eapply ready_cached.
  - apply cat_wf_retyped; try done. intros Hid. rewrite Hid in Eid. cbn in Eid. by apply bool_decide_eq_false in Eid; destruct (decide (chType ch = TInt)).
  - intros row Hst. eapply typeTransform_ok; [done..|by eapply stored_ok|done].
  - apply Hch.
  - intros T' m' Hrb Hal. exists d, ord, c. split_and!; try done. right. exists text, transform, T'. cbv zeta. rewrite Hnm in Hrefs. rewrite Hcn in Hrefs. done.
Qed.
End alter_type.
