(* ===== verification/Schema.v ===== *)
(** * Foreign keys across schema changes

    Every foreign key of the catalog names an existing table whose columns
    it pairs, type by type, with its own, and whose primary key or one unique
    index they form ([AddForeignKey]'s checks in [fk.go]). Each schema
    statement keeps this: the guards of DROP TABLE, DROP COLUMN, DROP INDEX,
    the renames and the rebuilds are what it takes. *)
From S2P Require Import Prelude GoVal GoStr Tuple KV Catalog Desc Rows Index Table Relation Engine Database Ddl DdlColumn DdlAddDrop DdlTable DdlIndex Fk Alter.

Local Open Scope Z_scope.

Definition fks_ok (m : kvmap) : Prop := forall name d f, table_at m name d -> f ∈ tForeignKeys d ->
  exists p, table_at m (fkRefTable f) p /\ fk_shape d p (fkCols f) (fkRefCols f).

Lemma Forall2_impl_in {A B : Type} (P Q : A -> B -> Prop) l k : Forall2 P l k ->
  (forall x y, x ∈ l -> y ∈ k -> P x y -> Q x y) -> Forall2 Q l k.
Proof. induction 1 as [|x y l k Hxy _ IH]; intros HQ; constructor; [apply HQ; [by left..|done]|]. apply IH. intros. apply HQ; [by right..|done]. Qed.

(** ** A descriptor whose columns moved *)

Definition uniqueKeys (d : TableDesc) : list (list nat) := tPKCols d :: (ixCols <$> filter (λ x, ixUnique x = true) (tIndexes d)).

Lemma uniqueKeys_range d ords : cat_wf d -> ords ∈ uniqueKeys d -> Forall (λ o, o < length (tColumns d))%nat ords.
Proof.
  intros Hw [->|(x & -> & [_ Hx]%list_elem_of_filter)%list_elem_of_fmap]%elem_of_cons; [apply Hw|].
  pose proof (wf_ixCols d (cw_wf d Hw)) as H. by eapply Forall_forall in H.
Qed.

Section moved.
Context (d d0 : TableDesc) (ok : nat -> Prop) (s : nat -> nat) (r : bytes -> bytes).
Hypothesis Hw : cat_wf d.
(** The column at an ordinal of [ok] moved to [s] of it, its name to [r]. *)
Hypothesis Hmoved : forall o c, ok o -> tColumns d !! o = Some c ->
  exists c', tColumns d0 !! s o = Some c' /\ colName c' = r (colName c) /\ colType c' = colType c.

Lemma moved_child p cols refs : Forall ok cols -> fk_shape d p cols refs -> fk_shape d0 p (s <$> cols) refs.
Proof.
  intros Hok [Hc Hu]. split; [|done]. apply Forall2_fmap_l. clear Hu. revert Hok.
  induction Hc as [|o n cols refs (c & q & Hc & Hq & Hn & Ht) _ IH]; intros Hok; [constructor|].
  apply Forall_cons in Hok as [Ho Hok]. constructor; [|by apply IH].
  destruct (Hmoved o c Ho Hc) as (c' & Hc' & _ & Ht'). exists c', q. split_and!; [done..|congruence].
Qed.

(** The ordinals of the columns [refs] names are of [ok]. *)
Definition live (refs : list bytes) : Prop := forall o c, tColumns d !! o = Some c -> colName c ∈ refs -> ok o.

Lemma moved_names ords : Forall (λ o, o < length (tColumns d))%nat ords -> Forall ok ords ->
  colNames d0 (s <$> ords) = r <$> colNames d ords.
Proof.
  intros Hr Hok. unfold colNames. rewrite <- !list_fmap_compose. apply list_fmap_ext. intros i o Hi.
  eapply Forall_lookup_1 in Hr, Hok; [|done..]. destruct (lookup_lt_is_Some_2 _ _ Hr) as [c Hc].
  destruct (Hmoved o c Hok Hc) as (c' & Hc' & Hn & _). cbn. by rewrite Hc, Hc'.
Qed.

Lemma moved_covers refs : (forall ords, ords ∈ uniqueKeys d -> Forall ok ords -> s <$> ords ∈ uniqueKeys d0) -> live refs ->
  covers d refs -> covers d0 (r <$> refs).
Proof.
  intros Hk Hl (ords & Hin & Hs)%Exists_exists. apply Exists_exists. exists (s <$> ords).
  pose proof (uniqueKeys_range d ords Hw Hin) as Hr.
  assert (Forall ok ords) as Hok.
  { apply Forall_forall. intros o Ho. rewrite Forall_forall in Hr. destruct (lookup_lt_is_Some_2 _ _ (Hr o Ho)) as [c Hc].
    apply (Hl o c Hc). assert (colName c ∈ (list_to_set (colNames d ords) : gset bytes)) as H; [|rewrite Hs in H; set_solver].
    apply elem_of_list_to_set, list_elem_of_fmap. exists o. by rewrite Hc. }
  split; [by apply Hk|]. rewrite moved_names by done. apply set_eq. intros n. rewrite !elem_of_list_to_set, !list_elem_of_fmap.
  assert (forall x, x ∈ colNames d ords <-> x ∈ refs) as Hiff; [|naive_solver].
  intros x. rewrite <- !(elem_of_list_to_set (C := gset bytes)). by rewrite Hs.
Qed.

Lemma moved_parent ch cols refs : live refs -> covers d0 (r <$> refs) -> fk_shape ch d cols refs -> fk_shape ch d0 cols (r <$> refs).
Proof.
  intros Hl Hcov [Hc _]. split; [|done]. apply Forall2_fmap_r. eapply Forall2_impl_in; [exact Hc|].
  intros o n _ Hn (c & q & Hch & Hq & En & Ht). apply list_elem_of_lookup in Hq as [i Hi].
  destruct (Hmoved i q) as (q' & Hq' & Hn' & Ht'); [apply (Hl i q Hi); by rewrite En|done|].
  exists c, q'. split_and!; [done|by eapply list_elem_of_lookup_2|congruence..].
Qed.
End moved.

(** ** One table altered *)

Lemma fk_shape_published_l d p cols refs : fk_shape (published d) p cols refs <-> fk_shape d p cols refs.
Proof.
  destruct (published_fields d) as (_ & _ & _ & Ec & _).
  split; intros [H1 H2]; (split; [|done]); by rewrite Ec in *.
Qed.
Lemma covers_published d cols : covers (published d) cols <-> covers d cols.
Proof.
  destruct (published_fields d) as (_ & _ & _ & Ec & Ep & Ex & _). unfold covers, colNames. by rewrite Ec, Ep, Ex.
Qed.
Lemma fk_shape_published_r d p cols refs : fk_shape d (published p) cols refs <-> fk_shape d p cols refs.
Proof.
  destruct (published_fields p) as (_ & _ & _ & Ec & _).
  split; intros [H1 H2]; split; rewrite ?Ec, ?covers_published in *; done.
Qed.

(** What a change of [name]'s descriptor asks for: the keys of other tables
    still fit it, and so do its own. *)
Record fk_safe (m : kvmap) (name : bytes) (d d0 : TableDesc) : Prop := {
  sf_parent d' f : references m name true d' f -> fk_shape d' d (fkCols f) (fkRefCols f) -> fk_shape d' d0 (fkCols f) (fkRefCols f);
  sf_child f : f ∈ tForeignKeys d0 -> if decide (fkRefTable f = name) then fk_shape d0 d0 (fkCols f) (fkRefCols f)
    else exists p, table_at m (fkRefTable f) p /\ fk_shape d0 p (fkCols f) (fkRefCols f);
}.

Lemma fks_altered m m' name d d0 g : db_inv m -> fks_ok m -> altered name d d0 g m m' -> fk_safe m name d d0 -> fks_ok m'.
Proof.
  intros Hdb Hfk [Hold Hnew _ Hoth] [Hpar Hch] n d1 f Hat Hf.
  destruct (decide (n = name)) as [->|Hn].
  - assert (d1 = published d0) as -> by (unfold table_at in *; congruence).
    destruct (published_fields d0) as (_ & _ & _ & _ & _ & _ & _ & Ef & _). rewrite Ef in Hf. specialize (Hch f Hf). case_decide as Er.
    + exists (published d0). rewrite Er. split; [done|]. by apply fk_shape_published_l, fk_shape_published_r.
    + destruct Hch as (p & Hp & Hs). exists p. split; [by apply Hoth|]. by apply fk_shape_published_l.
  - apply Hoth in Hat; [|done]. destruct (Hfk n d1 f Hat Hf) as (p & Hp & Hs). destruct (table_at_wf m n d1 Hdb Hat) as [En _].
    destruct (decide (fkRefTable f = name)) as [Er|Er].
    + exists (published d0). rewrite Er in *. split; [done|]. apply fk_shape_published_r, Hpar.
      * split_and!; try done; [by rewrite En|]. intros _. congruence.
      * unfold table_at in *. congruence.
    + exists p. split; [|done]. by apply Hoth.
Qed.

(** A statement that keeps the names and types of the columns. *)
Lemma safe_kept m name d d0 : db_inv m -> fks_ok m -> table_at m name d ->
  (forall o c, tColumns d !! o = Some c -> exists c', tColumns d0 !! o = Some c' /\ colName c' = colName c /\ colType c' = colType c) ->
  (forall d' f, references m name false d' f -> covers d (fkRefCols f) -> covers d0 (fkRefCols f)) ->
  tForeignKeys d0 ⊆ tForeignKeys d -> fk_safe m name d d0.
Proof.
  intros Hdb Hfk Hat Hcols Hcov Hsub. destruct (table_at_wf m name d Hdb Hat) as [Hnm Hw].
  assert (forall o c, True -> tColumns d !! o = Some c ->
    exists c', tColumns d0 !! id o = Some c' /\ colName c' = id (colName c) /\ colType c' = colType c) as Hm by (intros o c _; apply Hcols).
  assert (forall ch cols refs, covers d0 refs -> fk_shape ch d cols refs -> fk_shape ch d0 cols refs) as Hp.
  { intros ch cols refs Hc Hs. rewrite <- (list_fmap_id refs). apply (moved_parent d d0 (λ _, True) id id Hm); [done| |done]. by rewrite list_fmap_id. }
  assert (forall p cols refs, fk_shape d p cols refs -> fk_shape d0 p cols refs) as Hc.
  { intros p cols refs Hs. rewrite <- (list_fmap_id cols). apply (moved_child d d0 (λ _, True) id id Hm); [by apply Forall_true|done]. }
  split.
  - intros d' f (H1 & H2 & H3 & _) Hs. apply Hp; [|done]. eapply Hcov; [|apply Hs]. by split_and!.
  - intros f Hf. apply Hsub in Hf. destruct (Hfk name d f Hat Hf) as (p & Hpt & Hs). case_decide as Er; [|exists p; auto].
    rewrite Er in Hpt. assert (p = d) as -> by (unfold table_at in *; congruence). apply Hc, Hp; [|done].
    apply (Hcov d); [|apply Hs]. split_and!; try done. by rewrite Hnm.
Qed.

Section statements.
Context (m : kvmap) (name : bytes) (d : TableDesc).
Hypothesis Hdb : db_inv m.
Hypothesis Hfk : fks_ok m.
Hypothesis Hat : table_at m name d.

Lemma safe_edit ord (f : Column -> Column) : (forall c, colName (f c) = colName c) -> (forall c, colType (f c) = colType c) ->
  fk_safe m name d (edit_column d ord f).
Proof.
  intros Hn Ht. apply safe_kept; try done; cbn.
  - intros o c Hc. rewrite list_lookup_alter. case_decide; [|by exists c]. subst. exists (f c). by rewrite Hc.
  - intros d' g _. unfold covers. intros H. eapply Exists_impl; [exact H|]. cbn. intros ords <-. f_equal. unfold colNames.
    apply list_fmap_ext. intros i o _. cbn. rewrite list_lookup_alter. case_decide; [|done]. subst. destruct (tColumns d !! o); cbn; by rewrite ?Hn.
Qed.

Lemma safe_same (d0 : TableDesc) : tColumns d `prefix_of` tColumns d0 -> uniqueKeys d ⊆ uniqueKeys d0 -> tForeignKeys d0 ⊆ tForeignKeys d ->
  fk_safe m name d d0.
Proof.
  intros Hp Hk Hsub. apply safe_kept; try done.
  - intros o c Hc. exists c. split; [|done]. by eapply prefix_lookup_Some.
  - intros d' f _ Hcov. destruct (table_at_wf m name d Hdb Hat) as [_ Hw]. rewrite <- (list_fmap_id (fkRefCols f)).
    apply (moved_covers d d0 (λ _, True) id id Hw); try done.
    + intros o c _ Hc. exists c. split; [|done]. by eapply prefix_lookup_Some.
    + intros ords Ho _. rewrite list_fmap_id. by apply Hk.
Qed.

Lemma safe_checks cks : fk_safe m name d (with_checks d cks).
Proof. by apply safe_same. Qed.
Lemma safe_added c : fk_safe m name d (add_column d c).
Proof. apply safe_same; [by apply prefix_app_r|done..]. Qed.
Lemma safe_indexed idx : fk_safe m name d (with_indexes d (tIndexes d ++ [idx])).
Proof.
  apply safe_same; [done| |done]. unfold uniqueKeys. cbn. intros ords [->|H]%elem_of_cons; [by left|right].
  rewrite filter_app, fmap_app. by apply elem_of_app; left.
Qed.
Lemma safe_unindexed idx0 : Index d idx0 <> None ->
  (forall idx, Index d idx0 = Some idx -> ixUnique idx = true -> forall d' f, references m name false d' f ->
    covers d (fkRefCols f) -> covers (with_indexes d (without idx0 (tIndexes d))) (fkRefCols f)) ->
  fk_safe m name d (with_indexes d (without idx0 (tIndexes d))).
Proof.
  intros Hi Hcov. destruct (Index d idx0) as [idx|] eqn:Ei; [|done]. apply safe_kept; try done; [by eauto|].
  intros d' f Hr Hc. destruct (ixUnique idx) eqn:Eu; [by eapply Hcov|].
  apply Exists_exists in Hc as (ords & Hin & Hs). apply Exists_exists. exists ords. split; [|done].
  apply elem_of_cons in Hin as [->|(x & -> & [Hx Hxin]%list_elem_of_filter)%list_elem_of_fmap]; [by left|right].
  apply list_elem_of_fmap. exists x. split; [done|]. apply list_elem_of_filter. split; [done|]. apply list_elem_of_filter. split; [|done].
  intros En. unfold Index in Ei. apply fmap_Some in Ei as ([i y] & (Hy & Ey & _)%list_find_Some & ->).
  destruct (table_at_wf m name d Hdb Hat) as [_ Hw]. apply list_elem_of_lookup in Hxin as [j Hj].
  assert (i = j) as ->; [|cbn in Eu; congruence].
  eapply (NoDup_lookup _ _ _ idx0 (wf_ixName d (cw_wf d Hw))); rewrite list_lookup_fmap; [by rewrite Hy; cbn; f_equal|by rewrite Hj; cbn; f_equal].
Qed.
Lemma safe_unkeyed i : fk_safe m name d (with_fks d (delete i (tForeignKeys d))).
Proof. apply safe_same; try done. cbn. intros f. revert f. by apply Forall_forall, Forall_delete, Forall_forall. Qed.

Lemma safe_keyed f p : table_at m (fkRefTable f) p -> fk_shape d p (fkCols f) (fkRefCols f) ->
  fk_safe m name d (with_fks d (tForeignKeys d ++ [f])).
Proof.
  intros Hp Hs.
  assert (forall q cols refs, fk_shape (with_fks d (tForeignKeys d ++ [f])) q cols refs <-> fk_shape d q cols refs) as H1.
  { intros q cols refs. by split; intros [? ?]; split. }
  assert (forall q cols refs, fk_shape q (with_fks d (tForeignKeys d ++ [f])) cols refs <-> fk_shape q d cols refs) as H2.
  { intros q cols refs. by split; intros [? ?]; split. }
  split; [intros d' g ?; by rewrite H2|]. cbn. intros g Hg.
  assert (exists q, table_at m (fkRefTable g) q /\ fk_shape d q (fkCols g) (fkRefCols g)) as (q & Hq & Hsq).
  { apply elem_of_app in Hg as [Hg|Hg%list_elem_of_singleton]; [by apply (Hfk name d)|]. subst. by exists p. }
  case_decide as Er; [|exists q; by rewrite H1]. rewrite Er in Hq. assert (q = d) as -> by (unfold table_at in *; congruence).
  by rewrite H1, H2.
Qed.

Lemma safe_rekeyed ords : (forall d' f, references m name false d' f -> covers d (fkRefCols f) -> covers (rekeyed d ords) (fkRefCols f)) ->
  fk_safe m name d (rekeyed d ords).
Proof.
  intros Hcov. apply safe_kept; try done. intros o c Hc. exists (if decide (o ∈ ords \/ o ∈ tPKCols d) then col_notnull true c else c).
  split; [apply rekeyed_lookup; by exists c|]. by case_decide.
Qed.

(** A column that no foreign key touches can change or go; the others move
    by [s]. *)
Lemma safe_moved d0 ord c s : tColumns d !! ord = Some c ->
  (forall o x, o <> ord -> tColumns d !! o = Some x -> exists x', tColumns d0 !! s o = Some x' /\ colName x' = id (colName x) /\ colType x' = colType x) ->
  (forall ords, ords ∈ uniqueKeys d -> Forall (λ o, o <> ord) ords -> s <$> ords ∈ uniqueKeys d0) ->
  (forall f, f ∈ tForeignKeys d0 -> exists g, g ∈ tForeignKeys d /\ fkRefTable f = fkRefTable g /\ fkRefCols f = fkRefCols g /\ fkCols f = s <$> fkCols g) ->
  Forall (λ g, ord ∉ fkCols g) (tForeignKeys d) ->
  (forall d' g, references m name false d' g -> colName c ∉ fkRefCols g) -> fk_safe m name d d0.
Proof.
  intros Hc Hm Hkeys Hfks Hown Hrefs. destruct (table_at_wf m name d Hdb Hat) as [Hnm Hw].
  assert (forall d' g, references m name false d' g -> live d (λ o, o <> ord) (fkRefCols g)) as Hlive.
  { intros d' g Hr o x Hx Hin ->. assert (x = c) as -> by congruence. by eapply Hrefs. }
  assert (forall d' g ch cols, references m name false d' g -> fk_shape ch d cols (fkRefCols g) -> fk_shape ch d0 cols (fkRefCols g)) as Hpar.
  { intros d' g ch cols Hr Hs. rewrite <- (list_fmap_id (fkRefCols g)).
    apply (moved_parent d d0 (λ o, o <> ord) s id Hm); [by eapply Hlive| |done].
    apply (moved_covers d d0 (λ o, o <> ord) s id Hw Hm); [done|by eapply Hlive|apply Hs]. }
  split.
  - intros d' g (H1 & H2 & H3 & _). apply (Hpar d'). by split_and!.
  - intros f Hf. destruct (Hfks f Hf) as (g & Hg & -> & Erc & ->). destruct (Hfk name d g Hat Hg) as (p & Hp & Hs).
    eapply Forall_forall in Hown; [|exact Hg]. rewrite Erc.
    assert (forall q, fk_shape d q (fkCols g) (fkRefCols g) -> fk_shape d0 q (s <$> fkCols g) (fkRefCols g)) as Hch.
    { intros q Hq. apply (moved_child d d0 (λ o, o <> ord) s id Hm); [|done]. apply Forall_forall. by intros o Ho ->. }
    case_decide as Er; [|exists p; auto]. rewrite Er in Hp. assert (p = d) as -> by (unfold table_at in *; congruence).
    apply (Hpar d); [|by apply Hch]. split_and!; try done. by rewrite Hnm.
Qed.

Lemma safe_retyped ord c f : tColumns d !! ord = Some c -> Forall (λ g, ord ∉ fkCols g) (tForeignKeys d) ->
  (forall d' g, references m name false d' g -> colName c ∉ fkRefCols g) -> fk_safe m name d (edit_column d ord f).
Proof.
  intros Hc. apply (safe_moved _ ord c id Hc).
  - intros o x Ho Hx. exists x. cbn. by rewrite list_lookup_alter_ne.
  - intros ords Ho _. by rewrite list_fmap_id.
  - intros g Hg. exists g. by rewrite list_fmap_id.
Qed.
Lemma safe_dropped ord c : tColumns d !! ord = Some c -> Forall (λ g, ord ∉ fkCols g) (tForeignKeys d) ->
  (forall d' g, references m name false d' g -> colName c ∉ fkRefCols g) -> fk_safe m name d (drop_column d ord).
Proof.
  intros Hc. apply (safe_moved _ ord c (shift ord) Hc).
  - intros o x Ho Hx. exists x. cbn. by rewrite lookup_shift.
  - unfold uniqueKeys. cbn. intros ords [->|(x & -> & [Hu Hx]%list_elem_of_filter)%list_elem_of_fmap]%elem_of_cons _; [left|right].
    apply list_elem_of_fmap. exists (shiftIndex ord x). split; [done|]. apply list_elem_of_filter. split; [done|]. by apply list_elem_of_fmap_2.
  - cbn. intros f (g & -> & Hg)%list_elem_of_fmap. by exists g.
Qed.

(** The table's own references follow a rename. *)
Lemma safe_renamed ord c newName : tColumns d !! ord = Some c ->
  (forall d' f, references m name false d' f -> tName d' <> name -> colName c ∉ fkRefCols f) ->
  fk_safe m name d (with_fks (edit_column d ord (col_name newName)) (rename_refs name (colName c) newName <$> tForeignKeys d)).
Proof.
  intros Hc Hrefs. destruct (table_at_wf m name d Hdb Hat) as [Hnm Hw]. set (d0 := with_fks _ _).
  assert (forall o x, o <> ord -> tColumns d !! o = Some x -> exists x', tColumns d0 !! id o = Some x' /\
    colName x' = id (colName x) /\ colType x' = colType x) as Hm1.
  { intros o x Ho Hx. exists x. cbn. by rewrite list_lookup_alter_ne. }
  assert (forall o x, True -> tColumns d !! o = Some x -> exists x', tColumns d0 !! id o = Some x' /\
    colName x' = rename (colName c) newName (colName x) /\ colType x' = colType x) as Hm2.
  { intros o x _ Hx. cbn. rewrite list_lookup_alter. unfold rename. destruct (decide (ord = o)) as [<-|Ho].
    - assert (x = c) as -> by congruence. exists (col_name newName c). by rewrite Hx, decide_True.
    - exists x. rewrite decide_False; [done|]. intros En. apply Ho.
      eapply (NoDup_lookup _ _ _ (colName c) (wf_colName d (cw_wf d Hw))); rewrite list_lookup_fmap; [by rewrite Hc|by rewrite Hx; cbn; f_equal]. }
  assert (forall ords, ords ∈ uniqueKeys d -> id <$> ords ∈ uniqueKeys d0) as Hk by (intros; by rewrite list_fmap_id).
  split.
  - intros d' f (H1 & H2 & H3 & Hn) Hs. rewrite <- (list_fmap_id (fkRefCols f)).
    assert (live d (λ o, o <> ord) (fkRefCols f)) as Hl.
    { intros o x Hx Hin ->. assert (x = c) as -> by congruence. eapply (Hrefs d' f); [by split_and!|by apply Hn|done]. }
    apply (moved_parent d d0 (λ o, o <> ord) id id Hm1); [done| |done].
    apply (moved_covers d d0 (λ o, o <> ord) id id Hw Hm1); [by auto|done|apply Hs].
  - intros f (g & -> & Hg)%list_elem_of_fmap. destruct (Hfk name d g Hat Hg) as (p & Hp & Hs).
    assert (forall q refs, fk_shape d q (fkCols g) refs -> fk_shape d0 q (fkCols g) refs) as Hch.
    { intros q refs Hq. rewrite <- (list_fmap_id (fkCols g)). apply (moved_child d d0 (λ _, True) id _ Hm2); [by apply Forall_true|done]. }
    unfold rename_refs. destruct (decide (fkRefTable g = name)) as [Er|Er]; cbn; [|rewrite decide_False by done; exists p; auto].
    rewrite decide_True by done. rewrite Er in Hp. assert (p = d) as -> by (unfold table_at in *; congruence). apply Hch.
    apply (moved_parent d d0 (λ _, True) id _ Hm2); [done| |done].
    apply (moved_covers d d0 (λ _, True) id _ Hw Hm2); [by auto|done|apply Hs].
Qed.
End statements.

(** ** Tables that come and go *)

Lemma fks_created m m' name d1 : fks_ok m -> resolve m name = Ok None -> table_at m' name d1 -> tForeignKeys d1 = [] ->
  others name m m' -> fks_ok m'.
Proof.
  intros Hfk Hnone Hnew Hnil Hoth n d f Hat Hf. destruct (decide (n = name)) as [->|Hn].
  - assert (d = d1) as -> by (unfold table_at in *; congruence). rewrite Hnil in Hf. by apply elem_of_nil in Hf.
  - apply Hoth in Hat; [|done]. destruct (Hfk n d f Hat Hf) as (p & Hp & Hs). exists p. split; [|done]. apply Hoth; [|done].
    intros E. unfold table_at in Hp. rewrite E in Hp. congruence.
Qed.

Lemma fks_dropped m m' name : db_inv m -> fks_ok m -> (forall d f, ~ references m name true d f) -> resolve m' name = Ok None ->
  others name m m' -> fks_ok m'.
Proof.
  intros Hdb Hfk Hno Hnone Hoth n d f Hat Hf.
  assert (n <> name) as Hn by (intros ->; unfold table_at in Hat; congruence).
  apply Hoth in Hat; [|done]. destruct (Hfk n d f Hat Hf) as (p & Hp & Hs). destruct (table_at_wf m n d Hdb Hat) as [En _].
  exists p. split; [|done]. apply Hoth; [|done]. intros Er. apply (Hno d f). split_and!; try done; [by rewrite En|congruence].
Qed.

Lemma fks_renamed m m' oldName newName d : db_inv m -> fks_ok m -> table_at m oldName d ->
  (forall d' f, ~ references m oldName true d' f) -> resolve m newName = Ok None -> resolve m' oldName = Ok None ->
  table_at m' newName (published (renamed d oldName newName)) ->
  (forall n d1, n <> oldName -> n <> newName -> table_at m' n d1 <-> table_at m n d1) -> fks_ok m'.
Proof.
  intros Hdb Hfk Hold Hno Hnone Hnone' Hnew Hoth n d1 f Hat Hf.
  assert (forall q cols refs, fk_shape (published (renamed d oldName newName)) q cols refs <-> fk_shape d q cols refs) as H1.
  { intros q cols refs. rewrite fk_shape_published_l. by split; intros [? ?]; split. }
  assert (forall q cols refs, fk_shape q (published (renamed d oldName newName)) cols refs <-> fk_shape q d cols refs) as H2.
  { intros q cols refs. rewrite fk_shape_published_r. by split; intros [? ?]; split. }
  assert (n <> oldName) as Hn by (intros ->; unfold table_at in Hat; congruence).
  assert (forall x, table_at m x d1 -> f ∈ tForeignKeys d1 -> x <> oldName -> fkRefTable f <> oldName) as Hself.
  { intros x Hx Hin Hne Er. apply (Hno d1 f). destruct (table_at_wf m x d1 Hdb Hx) as [Ex _]. split_and!; try done; [by rewrite Ex|congruence]. }
  destruct (decide (n = newName)) as [->|Hn'].
  - assert (d1 = published (renamed d oldName newName)) as -> by (unfold table_at in *; congruence).
    destruct (published_fields (renamed d oldName newName)) as (_ & _ & _ & _ & _ & _ & _ & Ef & _). rewrite Ef in Hf.
    apply list_elem_of_fmap in Hf as (g & -> & Hg). destruct (Hfk oldName d g Hold Hg) as (p & Hp & Hs). cbn. case_decide as Er.
    + rewrite Er in Hp. assert (p = d) as -> by (unfold table_at in *; congruence). eexists. split; [exact Hnew|]. by rewrite H1, H2.
    + exists p. rewrite H1. split; [|done]. apply Hoth; try done. intros E. rewrite E in Hp. unfold table_at in Hp. congruence.
  - apply Hoth in Hat; [|done..]. destruct (Hfk n d1 f Hat Hf) as (p & Hp & Hs). exists p. split; [|done]. apply Hoth; [by eapply Hself| |done].
    intros E. rewrite E in Hp. unfold table_at in Hp. congruence.
Qed.
