(* ===== verification/RowStmt.v ===== *)
(** * Row statements

    [dml.go]'s [Insert], [InsertReturning], [Update] and [Delete]: each
    resolves the table in its own transaction and runs one row write. In
    serialized mode the transaction is alone in the store, and the statement
    is the row write on the committed state. *)
From S2P Require Import Prelude GoVal GoStr Tuple KV Json Catalog Desc Rows Index Table Seq Upkeep Dml Relation Engine Store Database Ddl DdlColumn.

Local Open Scope Z_scope.

Section rows.
Context {E S : Type} {eng : EngineOps E} {grd : Guarded E} {cs : CatState E} {tx : Type} {kv : KV tx} {db : DB E S tx}.

(** [e.kv.Update(fn)] *)
Definition kvUpdate {A : Type} (fn : M (E * tx) A) : M (E * S) A := λ s,
  let '(o, c, s') := db_txn RowUpdate fn s in (txResult o c, s').

Definition InsertIn (table : bytes) (vals : list any) : M (E * tx) Row :=
  desc ← descFromView table;
  stored ← insertRow desc vals;
  mret (mkRow desc stored).
Definition InsertReturning (table : bytes) (vals : list any) : M (E * S) Row :=
  _ ← checkReentrantWrite;
  kvUpdate (InsertIn table vals).
Definition Insert (table : bytes) (vals : list any) : M (E * S) unit :=
  _ ← checkReentrantWrite;
  kvUpdate (desc ← descFromView table; _ ← insertRow desc vals; mret ()).

Definition UpdateIn (table : bytes) (pkVals : list any) (set : list (bytes * any)) : M (E * tx) bool :=
  desc ← descFromView table;
  r ← onTx (updateRow desc pkVals set);
  mret (bool_decide (is_Some r)).
Definition Update (table : bytes) (pkVals : list any) (set : list (bytes * any)) : M (E * S) bool :=
  _ ← checkReentrantWrite;
  _ ← onE e_CheckMemory;
  kvUpdate (UpdateIn table pkVals set).

Definition DeleteIn (table : bytes) (pkVals : list any) : M (E * tx) bool :=
  desc ← descFromView table;
  onTx (deleteRow desc pkVals).
Definition Delete (table : bytes) (pkVals : list any) : M (E * S) bool :=
  _ ← checkReentrantWrite;
  kvUpdate (DeleteIn table pkVals).

End rows.

(** ** What the closures do to the engine *)

Section engine.
Context {E : Type} {eng : EngineOps E} {eng_laws : EngineLaws E} {cs : CatState E} {cat_laws : CatLaws E} {tx : Type} {kv : KV tx}.

(** The engine is left as it was, its cache and allocators aside. *)
Definition steady {A : Type} (m : M (E * tx) A) : Prop := forall e t, cached e (m (e, t)).2.1.

Lemma same_cached (e e' : E) : cat e' = cat e -> e_occ e' = e_occ e -> cached e e'.
Proof. intros E1 E2. unfold cached. by rewrite E1. Qed.

Lemma steady_ret {A : Type} (a : A) : steady (mret a).
Proof. by intros e t. Qed.
Lemma steady_lift {A : Type} (o : outcome A) : steady (lift o).
Proof. by intros e t. Qed.
Lemma steady_fail {A : Type} er : steady (fail er : M (E * tx) A).
Proof. by intros e t. Qed.
Lemma steady_isOcc : steady isOcc.
Proof. by intros e t. Qed.
Lemma steady_onTx {A : Type} (m : M tx A) : steady (onTx m).
Proof. intros e t. unfold onTx. cbn [fst snd]. by destruct (m t). Qed.
Lemma steady_bind {A B : Type} (m : M (E * tx) A) (f : A -> M (E * tx) B) : steady m -> (forall a, steady (f a)) -> steady (m ≫= f).
Proof.
  intros Hm Hf e t. specialize (Hm e t). unfold mbind, M_bind. destruct (m (e, t)) as [[a|er|p] [e1 t1]]; [|done..].
  cbn [fst snd] in Hm. etransitivity; [exact Hm|]. apply Hf.
Qed.
Lemma steady_memory : steady (onE e_CheckMemory).
Proof.
  intros e t. unfold onE. cbn [fst snd]. destruct (e_CheckMemory e) as [o e'] eqn:Em. cbn [fst snd].
  apply same_cached; [by eapply cat_memory|by eapply occ_memory].
Qed.
Lemma steady_alloc key start : steady (onE (e_allocCounter key start)).
Proof.
  intros e t. unfold onE. cbn [fst snd]. destruct (e_allocCounter key start e) as [o e'] eqn:Em. cbn [fst snd].
  apply same_cached; [by eapply cat_alloc|by eapply occ_alloc].
Qed.
Lemma steady_bump key next : steady (onE (e_bumpCounterAllocTo key next)).
Proof.
  intros e t. unfold onE. cbn [fst snd]. destruct (e_bumpCounterAllocTo key next e) as [o e'] eqn:Em. cbn [fst snd].
  apply same_cached; [by eapply cat_bump|by eapply occ_bump].
Qed.
Lemma steady_for_each {A : Type} (f : A -> M (E * tx) unit) l : (forall x, steady (f x)) -> steady (for_each f l).
Proof. intros Hf. induction l as [|x l IH]; [apply steady_ret|]. cbn [for_each]. by apply steady_bind. Qed.

Create HintDb steady.
#[local] Hint Resolve steady_ret steady_lift steady_fail steady_isOcc steady_onTx steady_bind steady_memory steady_alloc steady_bump steady_for_each : steady.
Ltac steady := repeat first [solve [eauto 2 with steady] | match goal with |- forall _, _ => intros ? end | apply steady_bind | apply steady_for_each | progress case_match].

Lemma steady_fillIdentityCol d c v : steady (fillIdentityCol d c v).
Proof. unfold fillIdentityCol. cbv zeta. steady. Qed.
Lemma steady_fillIdentity d vals : steady (fillIdentity d vals).
Proof.
  unfold fillIdentity. destruct (_ || _); [steady|]. generalize 0%nat, (@nil nat). revert vals.
  induction (tColumns d) as [|c cols IH]; intros [|v vals] i drawn; cbn [fillIdentity_loop]; [steady..|].
  destruct (colIdentity c).
  - apply steady_bind; [apply steady_fillIdentityCol|]. intros [v' dr]. apply steady_bind; [apply IH|]. steady.
  - apply steady_bind; [apply IH|]. steady.
Qed.
Lemma steady_insertEntries d idxs row drawn : steady (insertEntries d idxs row drawn).
Proof. induction idxs as [|idx idxs IH]; cbn [insertEntries]; [steady|]. steady. Qed.
Lemma steady_insertRow d vals : steady (insertRow d vals).
Proof.
  unfold insertRow. apply steady_bind; [apply steady_memory|]. intros _. apply steady_bind; [apply steady_fillIdentity|]. intros [vals' drawn].
  steady; apply steady_insertEntries.
Qed.
End engine.

(** ** What they do to the tables *)

Section effects.
Context (d : TableDesc) (Hw : cat_wf d).

Lemma tidy_del row m : tidy d m -> tidy d (del_row d row m).
Proof.
  intros Ht k [v Hv] Hp. apply Ht; [|done]. destruct (m !! k) eqn:E; [by eexists|]. by rewrite (del_row_None d) in Hv.
Qed.
Lemma table_ok_del row m : table_ok d m -> stored d m row -> table_ok d (del_row d row m).
Proof.
  intros [Hti Hids Ht] Hs. split; [by apply (table_inv_del d (cw_wf d Hw))|by apply (ids_ok_del d Hw)|by apply tidy_del].
Qed.

Lemma inserted_ok m m' nrow T : table_ok d m -> abstracts d m T -> inserted d m m' nrow ->
  table_ok d m' /\ exists T', spec_insert d T nrow = Ok T' /\ abstracts d m' T'.
Proof.
  intros Hok HT Hins. destruct (inserted_abstracts d (cw_wf d Hw) m m' T nrow (to_inv _ _ Hok) HT Hins) as (T' & HT' & Ha & _).
  split; [|by exists T']. destruct Hins as [Hro Hf Hu Hm]. apply (table_ok_space (add_row d nrow m)).
  - intros k Hk. apply Hm. apply identity_not_table; [apply Hw|done].
  - apply table_ok_add; try done; intros idx Hidx He; by apply Hu.
Qed.
Lemma updated_ok m m' old new T : table_ok d m -> abstracts d m T -> updated d m m' old new ->
  table_ok d m' /\ exists T', spec_update d T old new = Ok T' /\ abstracts d m' T'.
Proof.
  intros Hok HT Hu. destruct (updated_abstracts d (cw_wf d Hw) m m' T old new (to_inv _ _ Hok) HT Hu) as (T' & HT' & Ha & Hi).
  split; [|by exists T']. destruct Hu as [Hold Hro _ _ ->].
  assert (forall k, move_row d old new m !! k = add_row d new (del_row d old m) !! k) as Hk.
  { intros k. apply (move_row_lookup d (cw_wf d Hw)); [apply Hok|done]. }
  apply (table_ok_space (add_row d new (del_row d old m))); [intros k _; apply Hk|].
  split; [eapply table_inv_ext; [intros k _; apply Hk|done]|apply ids_ok_add, ids_ok_del; [done..|apply Hok]|apply tidy_add, tidy_del; [done|apply Hok]].
Qed.
End effects.

(** The rows of [name] changed from [T] to [T'], nothing else. *)
Record rows_step (name : bytes) (d : TableDesc) (P : table -> table -> Prop) (m m' : kvmap) : Prop := {
  rs_old : table_at m name d;
  rs_new : table_at m' name d;
  rs_rows T : abstracts d m T -> exists T', P T T' /\ abstracts d m' T';
  rs_others : others name m m';
}.

Lemma rows_step_intro (m m' : kvmap) (name : bytes) (d : TableDesc) (P : table -> table -> Prop) : db_inv m -> table_at m name d -> frame name (tID d) m m' ->
  m' !! descKey name = m !! descKey name -> table_ok d m' ->
  (forall T, abstracts d m T -> exists T', P T T' /\ abstracts d m' T') -> db_inv m' /\ rows_step name d P m m'.
Proof.
  intros Hdb Hat Hf Hk Hok HP. destruct (rows_changed m m' name d Hdb Hat Hf Hk Hok) as (H1 & H2 & H3). split; [done|]. by split.
Qed.

Section statements.
Context {E : Type} {eng : EngineOps E} {eng_laws : EngineLaws E} {cs : CatState E} {cat_laws : CatLaws E}.
Context {tx : Type} {kv : KV tx} {kv_laws : KVLaws tx}.

Lemma identity_step (m m' : kvmap) (name : bytes) (d : TableDesc) : db_inv m -> table_at m name d -> identity_only d m m' ->
  db_inv m' /\ rows_step name d (λ T T', T' = T) m m'.
Proof.
  intros Hdb Hat Hid. destruct (identity_db_inv m m' name d Hdb Hat Hid) as (H1 & H2 & H3). split; [done|]. split; [done..| |done].
  intros T HT. exists T. split; [done|]. eapply abstracts_ext; [|exact HT]. intros k Hk. symmetry.
  apply (identity_space_ext m m' d); [by apply (table_at_wf m name d)|done..].
Qed.

(** A row write reaches nothing but the table's space. *)
Lemma add_row_ne (d : TableDesc) (row : list any) (m : kvmap) (k : bytes) : desc_wf d -> ~ tableSpace (tID d) `prefix_of` k -> add_row d row m !! k = m !! k.
Proof.
  intros Hwf Hk. unfold add_row. rewrite lookup_insert_ne.
  - apply (add_entries_ne d Hwf). intros idx _ ->. apply Hk. eapply indexPrefix_space, index_key_prefix.
  - intros <-. apply Hk. eapply indexPrefix_space, row_key_prefix.
Qed.
Lemma del_row_ne (d : TableDesc) (row : list any) (m : kvmap) (k : bytes) : desc_wf d -> ~ tableSpace (tID d) `prefix_of` k -> del_row d row m !! k = m !! k.
Proof.
  intros Hwf Hk. unfold del_row. rewrite lookup_delete_ne.
  - apply (del_entries_ne d Hwf). intros idx _ ->. apply Hk. eapply indexPrefix_space, index_key_prefix.
  - intros <-. apply Hk. eapply indexPrefix_space, row_key_prefix.
Qed.

(** A map that differs within the table's space and its counters. *)
Lemma written_step (m m' : kvmap) (name : bytes) (d : TableDesc) (P : table -> table -> Prop) : db_inv m -> table_at m name d ->
  (forall k, ~ tableSpace (tID d) `prefix_of` k -> ~ identitySeqTablePrefix (tID d) `prefix_of` k -> m' !! k = m !! k) -> table_ok d m' ->
  (forall T, abstracts d m T -> exists T', P T T' /\ abstracts d m' T') -> db_inv m' /\ rows_step name d P m m'.
Proof.
  intros Hdb Hat Hk Hok HP. destruct (table_at_wf m name d Hdb Hat) as [_ Hw]. apply rows_step_intro; try done.
  - intros k K1 K2 _. by apply Hk.
  - apply Hk; [intros H; by apply (space_not_descKey (tID d) name _ (cat_wf_user d Hw) H)|].
    intros H%identity_space. by apply (desc_not_seq _ (descKey_space name)).
Qed.

Lemma insertRow_step (name : bytes) (d : TableDesc) vals (e : E) (t : tx) : ready e t -> table_at (kv_map t) name d -> Forall any_ok vals ->
  wp (insertRow d vals) (ddl e (λ row m', exists nrow, normals row = Ok nrow /\
    rows_step name d (λ T T', spec_insert d T nrow = Ok T') (kv_map t) m')) (e, t).
Proof.
  intros Hr Hat Hv. destruct (table_at_wf _ name d (rd_db _ _ Hr) Hat) as [_ Hw]. pose proof (cw_wf d Hw) as Hwf.
  pose proof (insertRow_wp d Hwf vals e t Hv) as H. pose proof (steady_insertRow d vals e t) as Hs. unfold wp in *.
  destruct (insertRow d vals (e, t)) as [o [e' t']]. cbn [fst snd] in *. split; [done|].
  destruct o as [row|er|p]; [|done|done]. destruct H as (nrow & Hn & Hins).
  pose proof (db_table _ (rd_db _ _ Hr) name d Hat) as Hok.
  destruct (rows_of_abstracts d (kv_map t) (to_inv _ _ Hok)) as [HT _].
  destruct (inserted_ok d Hw _ _ nrow _ Hok HT Hins) as [Hok' _].
  destruct (written_step (kv_map t) (kv_map t') name d (λ T T', spec_insert d T nrow = Ok T')) as [Hdb Hst]; try done; [apply Hr|..].
  - intros k K1 K2. rewrite (ins_map d _ _ _ Hins) by done. by apply add_row_ne.
  - intros T HT'. by destruct (inserted_ok d Hw _ _ nrow T Hok HT' Hins) as [_ ?].
  - split; [done|]. by exists nrow.
Qed.

Lemma updateRow_step (name : bytes) (d : TableDesc) pkVals set (e : E) (t : tx) : ready e t -> table_at (kv_map t) name d ->
  Forall any_ok pkVals -> Forall any_ok set.*2 ->
  wp (onTx (updateRow d pkVals set)) (ddl e (λ r m', match r with
    | None => m' = kv_map t
    | Some newVals => exists old new, fullPKKey d pkVals = Ok (row_key d old) /\ applySet d set old = Ok newVals /\ normals newVals = Ok new /\
        rows_step name d (λ T T', T !! pkOf d old = Some old /\ spec_update d T old new = Ok T') (kv_map t) m'
    end)) (e, t).
Proof.
  intros Hr Hat Hp Hset. destruct (table_at_wf _ name d (rd_db _ _ Hr) Hat) as [_ Hw]. pose proof (cw_wf d Hw) as Hwf.
  pose proof (db_table _ (rd_db _ _ Hr) name d Hat) as Hok.
  apply wp_onTx. eapply wp_mono; [by apply (updateRow_wp d Hwf pkVals set t (to_inv _ _ Hok))|].
  intros [[newVals|]|er|p] t' H; (split; [done|]); try done; cbn [snd] in *.
  - destruct H as (old & new & H1 & H2 & H3 & Hu).
    destruct (rows_of_abstracts d (kv_map t) (to_inv _ _ Hok)) as [HT _].
    destruct (updated_ok d Hw _ _ old new _ Hok HT Hu) as [Hok' _].
    destruct (written_step (kv_map t) (kv_map t') name d (λ T T', T !! pkOf d old = Some old /\ spec_update d T old new = Ok T')) as [Hdb Hst]; try done; [apply Hr|..].
    + intros k K1 K2. rewrite (upd_map d _ _ _ _ Hu), (move_row_lookup d Hwf) by (apply Hok || apply (upd_old d _ _ _ _ Hu)).
      by rewrite add_row_ne, del_row_ne.
    + intros T HT'. destruct (updated_ok d Hw _ _ old new T Hok HT' Hu) as [_ (T' & H4 & H5)]. exists T'. split_and!; try done.
      apply (abs_stored d _ T HT'), (upd_old d _ _ _ _ Hu).
    + split; [done|]. by exists old, new.
  - destruct H as [Hm _]. rewrite Hm. split; [apply Hr|done].
Qed.

Lemma deleteRow_step (name : bytes) (d : TableDesc) pkVals (e : E) (t : tx) : ready e t -> table_at (kv_map t) name d -> Forall any_ok pkVals ->
  wp (onTx (deleteRow d pkVals)) (ddl e (λ r m', if (r : bool)
    then exists old, fullPKKey d pkVals = Ok (row_key d old) /\
      rows_step name d (λ T T', T !! pkOf d old = Some old /\ T' = spec_delete T (pkOf d old)) (kv_map t) m'
    else m' = kv_map t)) (e, t).
Proof.
  intros Hr Hat Hp. destruct (table_at_wf _ name d (rd_db _ _ Hr) Hat) as [_ Hw]. pose proof (cw_wf d Hw) as Hwf.
  pose proof (db_table _ (rd_db _ _ Hr) name d Hat) as Hok.
  apply wp_onTx. eapply wp_mono; [by apply (deleteRow_wp d Hwf pkVals t (to_inv _ _ Hok))|].
  intros [[]|er|p] t' H; (split; [done|]); try done; cbn [snd] in *; [|destruct H as [Hm _]; rewrite Hm; split; [apply Hr|done]].
  destruct H as (old & H1 & Hold & Hm).
  destruct (written_step (kv_map t) (kv_map t') name d (λ T T', T !! pkOf d old = Some old /\ T' = spec_delete T (pkOf d old))) as [Hdb Hst]; try done; [apply Hr|..].
  - intros k K1 _. rewrite Hm. by apply del_row_ne.
  - rewrite Hm. by apply table_ok_del.
  - intros T HT. eexists. split; [split; [by apply (abs_stored d _ T HT)|done]|]. rewrite Hm. by apply (abstracts_del d Hwf).
  - split; [done|]. by exists old.
Qed.
End statements.
