(* ===== verification/Txn.v ===== *)
(** * Transactions

    [txn.go]: a [Txn] wraps a transaction of the store with the descriptors
    it has resolved, the count of row writes it has staged, and a stack that
    pairs each savepoint with the count at its mark. [client] is any program
    over its methods: it sees each call's outcome and goes on as it likes. *)
From S2P Require Import Prelude GoVal GoStr Tuple KV Savepoint Json Catalog Desc Rows Index Table Seq Upkeep Dml Relation Engine Store Database Ddl DdlColumn DdlTable SeqObj RowStmt.

Local Open Scope Z_scope.

(** The engine's cap on staged row writes, and the marker of the goroutine
    inside a write transaction. *)
Class TxnEngine (E : Type) := {
  e_maxTxnWrites : E -> Z;
  e_setWriterGID : Z -> E -> E;
}.

Record Txn (tx sp : Type) := mkTxn {
  xTx : tx;
  xReleaseW : bool;
  xDescs : gmap bytes (option TableDesc);
  xDirty : list bytes;                 (* dirtySeqPrefixes *)
  xWrites : Z;
  xSaves : list (sp * Z);              (* saveWrites *)
}.
Arguments mkTxn {tx sp} _ _ _ _ _ _.
Arguments xTx {tx sp} _.
Arguments xReleaseW {tx sp} _.
Arguments xDescs {tx sp} _.
Arguments xDirty {tx sp} _.
Arguments xWrites {tx sp} _.
Arguments xSaves {tx sp} _.

Section txn.
Context {E : Type} {eng : EngineOps E} {cs : CatState E} {te : TxnEngine E}.
Context {tx sp : Type} {kv : KV tx} {sv : KVSave tx sp} {sp_eq : EqDecision sp}.
Abbreviation Txn := (Txn tx sp).

Definition x_tx (f : tx -> tx) (T : Txn) : Txn := mkTxn (f (xTx T)) (xReleaseW T) (xDescs T) (xDirty T) (xWrites T) (xSaves T).
Definition x_desc (name : bytes) (d : option TableDesc) (T : Txn) : Txn :=
  mkTxn (xTx T) (xReleaseW T) (<[name := d]> (xDescs T)) (xDirty T) (xWrites T) (xSaves T).
Definition x_dirty (p : bytes) (T : Txn) : Txn := mkTxn (xTx T) (xReleaseW T) (xDescs T) (xDirty T ++ [p]) (xWrites T) (xSaves T).
Definition x_writes (n : Z) (T : Txn) : Txn := mkTxn (xTx T) (xReleaseW T) (xDescs T) (xDirty T) n (xSaves T).
Definition x_saves (l : list (sp * Z)) (T : Txn) : Txn := mkTxn (xTx T) (xReleaseW T) (xDescs T) (xDirty T) (xWrites T) l.

(** Code over the engine and the store's transaction, inside a [Txn]. *)
Definition onKv {A : Type} (m : M (E * tx) A) : M (E * Txn) A := λ s,
  let '(o, (e, t)) := m (s.1, xTx s.2) in (o, (e, x_tx (λ _, t) s.2)).
Definition onX (f : Txn -> Txn) : M (E * Txn) unit := modify (λ s, (s.1, f s.2)).
Definition getX {A : Type} (f : Txn -> A) : M (E * Txn) A := gets (λ s, f s.2).

(** ** The write cap *)

Definition CheckWrites (n : Z) : M (E * Txn) unit := λ s,
  let limit := e_maxTxnWrites s.1 in
  if (limit <=? 0) || (int64 (xWrites s.2 + n) <=? limit) then (Ok tt, s) else (Err ETxnTooLarge, s).
Definition countWrite : M (E * Txn) unit := onX (λ T, x_writes (int64 (xWrites T + 1)) T).

(** ** Descriptors, resolved once *)

Definition TxnTable (name : bytes) : M (E * Txn) (option TableDesc) :=
  memo ← getX (λ T, xDescs T !! name);
  match memo with
  | Some d => mret d
  | None =>
      d ← onKv (tableFromView name);
      _ ← onX (x_desc name d);
      mret d
  end.
Definition TxnDesc (table : bytes) : M (E * Txn) TableDesc :=
  d ← TxnTable table;
  match d with None => fail errNoTable | Some d => mret d end.

(** ** Rows *)

Definition TxnInsertReturning (table : bytes) (vals : list any) : M (E * Txn) Row :=
  _ ← CheckWrites 1;
  desc ← TxnDesc table;
  stored ← onKv (insertRow desc vals);
  _ ← countWrite;
  mret (mkRow desc stored).
Definition TxnInsert (table : bytes) (vals : list any) : M (E * Txn) unit :=
  _ ← TxnInsertReturning table vals; mret ().
(** [None] when no row matched. *)
Definition TxnUpdateReturning (table : bytes) (pkVals : list any) (set : list (bytes * any)) : M (E * Txn) (option Row) :=
  _ ← onKv (onE e_CheckMemory);
  _ ← CheckWrites 1;
  desc ← TxnDesc table;
  r ← onKv (onTx (updateRow desc pkVals set));
  match r with
  | None => mret None
  | Some newVals => _ ← countWrite; mret (Some (mkRow desc newVals))
  end.
Definition TxnUpdate (table : bytes) (pkVals : list any) (set : list (bytes * any)) : M (E * Txn) bool :=
  r ← TxnUpdateReturning table pkVals set; mret (bool_decide (is_Some r)).
Definition TxnDelete (table : bytes) (pkVals : list any) : M (E * Txn) bool :=
  desc ← TxnDesc table;
  onKv (onTx (deleteRow desc pkVals)).
Definition TxnGet (table : bytes) (pkVals : list any) : M (E * Txn) (option Row) :=
  desc ← TxnDesc table;
  key ← lift (fullPKKey desc pkVals);
  _ ← onX (x_tx (kv_mark_read key));
  val ← getX (λ T, kv_get key (xTx T));
  match val with
  | None => mret None
  | Some val => row ← lift (decodeRow desc key val); mret (Some row)
  end.

Definition TxnTruncate (table : bytes) (restartIdentity : bool) : M (E * Txn) unit :=
  desc ← TxnDesc table;
  let prefix := tableSpace (tID desc) in
  _ ← onKv (onTx (kv_delete_range prefix (prefixEnd prefix)));
  if restartIdentity then
    let idPrefix := identitySeqTablePrefix (tID desc) in
    _ ← onKv (onTx (kv_delete_range idPrefix (prefixEnd idPrefix)));
    occ ← onKv isOcc;
    if (occ : bool) then onX (x_dirty idPrefix) else mret ()
  else mret ().

(** ** Savepoints *)

(** Position of [p] on the stack, searched from the top. *)
Fixpoint saveMark_from (p : sp) (l : list (sp * Z)) (n : nat) : option nat :=
  match n with
  | O => None
  | S i => if bool_decide (fst <$> l !! i = Some p) then Some i else saveMark_from p l i
  end.
Definition saveMark (p : sp) (l : list (sp * Z)) : option nat := saveMark_from p l (length l).

Definition TxnSavepoint : M (E * Txn) sp :=
  p ← onKv (onTx kv_savepoint);
  _ ← onX (λ T, x_saves (xSaves T ++ [(p, xWrites T)]) T);
  mret p.
Definition TxnRollbackTo (p : sp) : M (E * Txn) unit :=
  _ ← onKv (onTx (kv_rollback_to p));
  onX (λ T, match saveMark p (xSaves T) with
            | Some i => x_saves (take (S i) (xSaves T)) (x_writes (default 0 (snd <$> xSaves T !! i)) T)
            | None => T
            end).
Definition TxnRelease (p : sp) : M (E * Txn) unit :=
  _ ← onKv (onTx (kv_release p));
  onX (λ T, match saveMark p (xSaves T) with Some i => x_saves (take i (xSaves T)) T | None => T end).

(** ** Counters *)

Definition errNoColumnOf (table column : bytes) : error :=
  ENew (go "column " ++ quoted column ++ go " of relation " ++ quoted table ++ go " does not exist").
Definition errNotIdentity (table column : bytes) : error :=
  ENew (go "column " ++ quoted column ++ go " of relation " ++ quoted table ++ go " is not an identity column").
Definition identityCol (desc : TableDesc) (table column : bytes) : outcome Column :=
  match ColIndex desc column with
  | None => Err (errNoColumnOf table column)
  | Some ord =>
      c ← at_index (tColumns desc) ord;
      if colIdentity c then Ok c else Err (errNotIdentity table column)
  end.
Definition errRestartMin (next : Z) : error := ENew (go "RESTART value (" ++ fmtInt next ++ go ") cannot be less than MINVALUE (1)").
Definition TxnRestartIdentity (table column : bytes) (next : Z) : M (E * Txn) unit :=
  desc ← TxnDesc table;
  c ← lift (identityCol desc table column);
  if next <? 1 then fail (errRestartMin next)
  else
    let key := identitySeqKey (tID desc) (colID c) in
    _ ← onKv (onTx (kv_set key (be64 next)));
    occ ← onKv isOcc;
    if (occ : bool) then onX (x_dirty key) else mret ().
(** The stored counter; [None] when it does not exist yet. *)
Definition TxnPeekIdentity (table column : bytes) : M (E * Txn) (option Z) :=
  desc ← TxnDesc table;
  c ← lift (identityCol desc table column);
  raw ← getX (λ T, kv_get (identitySeqKey (tID desc) (colID c)) (xTx T));
  match raw with
  | None => mret None
  | Some raw => v ← lift (readCounter raw); mret (Some v)
  end.

(** ** A client's program *)

Inductive txop :=
  | TInsert (table : bytes) (vals : list any)
  | TUpdate (table : bytes) (pkVals : list any) (set : list (bytes * any))
  | TDelete (table : bytes) (pkVals : list any)
  | TGet (table : bytes) (pkVals : list any)
  | TTruncate (table : bytes) (restartIdentity : bool)
  | TSavepoint
  | TRollbackTo (p : sp)
  | TRelease (p : sp)
  | TRestartIdentity (table column : bytes) (next : Z)
  | TPeekIdentity (table column : bytes)
  | TNextVal (name : bytes)
  | TSetVal (name : bytes) (v : Z) (called : bool)
  | TNextSeq (name : bytes)
  | TSetSeq (name : bytes) (next : Z)
  | TPeekSeq (name : bytes)
  | TDeleteSeq (name : bytes)
  | TCheckWrites (n : Z).

Inductive txres :=
  | RUnit
  | RRow (r : option Row)
  | RBool (b : bool)
  | RNum (n : option Z)
  | RPoint (p : sp).

(** The sequence methods are those of serialized mode. *)
Definition exec_op (op : txop) : M (E * Txn) txres :=
  match op with
  | TInsert table vals => r ← TxnInsertReturning table vals; mret (RRow (Some r))
  | TUpdate table pkVals set => r ← TxnUpdateReturning table pkVals set; mret (RRow r)
  | TDelete table pkVals => b ← TxnDelete table pkVals; mret (RBool b)
  | TGet table pkVals => r ← TxnGet table pkVals; mret (RRow r)
  | TTruncate table restart => _ ← TxnTruncate table restart; mret RUnit
  | TSavepoint => p ← TxnSavepoint; mret (RPoint p)
  | TRollbackTo p => _ ← TxnRollbackTo p; mret RUnit
  | TRelease p => _ ← TxnRelease p; mret RUnit
  | TRestartIdentity table column next => _ ← TxnRestartIdentity table column next; mret RUnit
  | TPeekIdentity table column => n ← TxnPeekIdentity table column; mret (RNum n)
  | TNextVal name => v ← onKv (onTx (NextVal name)); mret (RNum (Some v))
  | TSetVal name v called => _ ← onKv (onTx (SetVal name v called)); mret RUnit
  | TNextSeq name => v ← onKv (onTx (nextSeqIn name)); mret (RNum (Some v))
  | TSetSeq name next => _ ← onKv (onTx (setSeqIn name next)); mret RUnit
  | TPeekSeq name => n ← (λ s, (peekSeqIn name (xTx s.2), s)); mret (RNum n)
  | TDeleteSeq name => b ← onKv (onTx (deleteSeqIn name)); mret (RBool b)
  | TCheckWrites n => _ ← CheckWrites n; mret RUnit
  end.

(** [n] bounds the calls it makes; an error is an outcome like another. *)
Inductive client : nat -> Type :=
  | CReturn {n : nat} (o : outcome unit) : client n
  | CCall {n : nat} (op : txop) (next : outcome txres -> client n) : client (S n).
Fixpoint run_client {n : nat} (c : client n) : M (E * Txn) unit := λ s,
  match c with
  | CReturn o => (o, s)
  | CCall op next =>
      let '(o, s') := exec_op op s in
      match o with Panic p => (Panic p, s') | _ => run_client (next o) s' end
  end.

End txn.
#[global] Arguments txop _ : clear implicits.
#[global] Arguments txres _ : clear implicits.
#[global] Arguments client _ _ : clear implicits.
