(* ===== verification/Handler.v ===== *)
(** * Handlers

    The steps an engine method takes around its transaction: checks of its
    arguments, the memory ceiling, the guard against a write inside the
    caller's own transaction, and what it tells the engine afterwards. Their
    rules are stated once, for any condition on the state before and any
    relation to the state after. *)
From S2P Require Import Prelude KV Dml Engine Store RowStmt.

Section handler.
Context {E S tx : Type} {eng : EngineOps E} {eng_laws : EngineLaws E} {cs : CatState E} {cat_laws : CatLaws E} {grd : Guarded E}.
Context {kv : KV tx} {kv_laws : KVLaws tx} {db : DB E S tx} {db_laws : DBLaws E S tx}.

(** From a committed state where [I] holds, [h] leads to one related by [Q]. *)
Definition runs {A : Type} (I : E -> kvmap -> Prop) (Q : kvmap -> outcome A -> E -> kvmap -> Prop) (h : M (E * S) A) : Prop :=
  forall e s, I e (db_head s) -> wp h (λ o s', Q (db_head s) o s'.1 (db_head s'.2)) (e, s).

(** [I] is not about the cache or the allocators. *)
Definition loose (I : E -> kvmap -> Prop) : Prop := forall e e' m, cached e e' -> I e m -> I e' m.
(** An error that changes nothing is always allowed. *)
Definition rejects {A : Type} (I : E -> kvmap -> Prop) (Q : kvmap -> outcome A -> E -> kvmap -> Prop) : Prop :=
  forall er e m, I e m -> Q m (Err er) e m.

Context (I : E -> kvmap -> Prop) (HI : loose I) {A : Type} (Q : kvmap -> outcome A -> E -> kvmap -> Prop) (HQ : rejects I Q).

Lemma runs_fail er : runs I Q (fail er).
Proof. intros e s H. by apply HQ. Qed.
Lemma runs_lift {B : Type} (o : outcome B) (f : B -> M (E * S) A) : is_panic o = false -> (forall b, o = Ok b -> runs I Q (f b)) -> runs I Q (b ← lift o; f b).
Proof. intros Hp Hf e s H. apply wp_bind_lift. destruct o; cbn [seqQ]; [by apply Hf|by apply HQ|done]. Qed.
Lemma runs_memory (h : M (E * S) A) : runs I Q h -> runs I Q (_ ← onE e_CheckMemory; h).
Proof.
  intros Hh e s H. apply wp_bind. unfold wp at 1, onE. cbn [fst snd]. destruct (e_CheckMemory e) as [o e'] eqn:Em. cbn [fst snd].
  assert (I e' (db_head s)) as H' by (eapply HI; [apply same_cached; [by eapply cat_memory|by eapply occ_memory]|done]).
  destruct o as [[]|er|p]; cbn [seqQ]; [by apply Hh|by apply HQ|by apply e_memory_no_panic in Em].
Qed.
Lemma runs_reentrant (h : M (E * S) A) : runs I Q h -> runs I Q (_ ← checkReentrantWrite; h).
Proof.
  intros Hh e s H. apply wp_bind. unfold wp at 1, checkReentrantWrite. cbn [fst snd].
  destruct (e_occ e); [by apply Hh|]. destruct (_ && _); [by apply HQ|by apply Hh].
Qed.
Lemma runs_if (b : bool) (h1 h2 : M (E * S) A) : runs I Q h1 -> runs I Q h2 -> runs I Q (if b then h1 else h2).
Proof. by destruct b. Qed.

(** What follows a transaction touches the engine only, and succeeds. *)
Definition settles {B : Type} (f : M (E * S) B) : Prop := forall e s, exists b e', f (e, s) = (Ok b, (e', s)) /\ cached e e'.
Lemma runs_then {B : Type} (Q' : kvmap -> outcome B -> E -> kvmap -> Prop) (h : M (E * S) A) (f : A -> M (E * S) B) :
  runs I Q h -> (forall a, settles (f a)) ->
  (forall m o e m', Q m o e m' -> match o with Ok _ => forall b e', cached e e' -> Q' m (Ok b) e' m' | Err er => Q' m (Err er) e m' | Panic p => Q' m (Panic p) e m' end) ->
  runs I Q' (a ← h; f a).
Proof.
  intros Hh Hf HQ' e s H. apply wp_bind. eapply wp_mono; [by apply Hh|]. intros o [e1 s1] H1%HQ'. cbn [fst snd] in *.
  destruct o as [a|er|p]; cbn [seqQ]; [|done..]. destruct (Hf a e1 s1) as (b & e2 & Heq & Hc). unfold wp. rewrite Heq. cbn. by apply H1.
Qed.
End handler.

(** ** Steps that settle *)

Section settling.
Context {E S : Type} {eng : EngineOps E} {cs : CatState E} {cat_laws : CatLaws E} {al : Allocators E} {al_laws : AllocatorLaws E}.

Lemma settles_ret {A : Type} (a : A) : settles (mret a : M (E * S) A).
Proof. intros e s. by exists a, e. Qed.
Lemma settles_modify (f : E -> E) : (forall e, cached e (f e)) -> settles (onE (modify f) : M (E * S) unit).
Proof. intros Hf e s. by exists tt, (f e). Qed.
Lemma settles_bind {A B : Type} (h : M (E * S) A) (f : A -> M (E * S) B) : settles h -> (forall a, settles (f a)) -> settles (h ≫= f).
Proof.
  intros Hh Hf e s. destruct (Hh e s) as (a & e1 & H1 & C1). destruct (Hf a e1 s) as (b & e2 & H2 & C2). exists b, e2.
  unfold mbind, M_bind. rewrite H1. split; [done|by etransitivity].
Qed.
Lemma invalidate_cached key (e : E) : cached e (e_invalidateCounter key e).
Proof. apply same_cached; [apply cat_invalidate|apply occ_invalidate]. Qed.
Lemma invalidate_prefix_cached key (e : E) : cached e (e_invalidateCounterPrefix key e).
Proof. apply same_cached; [apply cat_invalidate_prefix|apply occ_invalidate_prefix]. Qed.
Lemma invalidate_seq_cached key (e : E) : cached e (e_invalidateSeqObj key e).
Proof. apply same_cached; [apply cat_invalidate_seq|apply occ_invalidate_seq]. Qed.
Lemma evict_cached name (e : E) : cached e (with_cat (with_cache (delete name)) e).
Proof.
  unfold cached. rewrite cat_with, occ_with. split_and!; [|done..]. intros Hc n blob d. cbn. intros [_ H]%lookup_delete_Some. by apply (Hc n).
Qed.
Lemma settles_evict name : settles (cacheEvict name : M (E * S) unit).
Proof. apply settles_modify, evict_cached. Qed.
End settling.

Create HintDb settles.
#[export] Hint Resolve settles_ret settles_modify settles_bind invalidate_cached invalidate_prefix_cached invalidate_seq_cached settles_evict : settles.
