(* ===== verification/Statements.v ===== *)
(** * The whole schema

    Every statement of the engine as one step of a database: tables with
    their rows and indexes, foreign keys, sequence objects and views. The
    invariant [sound] ties them together, and each statement, run through
    its handler, keeps it whatever the statement's outcome. *)
From S2P Require Import Prelude GoVal GoStr Tuple KV Json Catalog Desc Rows Default Index Table Seq Upkeep Dml Relation Engine Store Database Ddl DdlColumn DdlAddDrop DdlTable SeqObj View DdlIndex Fk Alter Schema RowStmt.

Local Open Scope Z_scope.

(** ** The invariant *)

Record schema_ok (m : kvmap) : Prop := {
  so_fks : fks_ok m;
  so_seqs n raw : m !! sqlSeqKey n = Some raw -> exists d, seq_at m n d /\ checkSeqDesc d = Ok tt;
  so_views n v : m !! viewKey n = Some v -> exists q, view_at m n q;
  so_tables n d : table_at m n d -> m !! sqlSeqKey n = None /\ m !! viewKey n = None;
  so_names n : m !! sqlSeqKey n = None \/ m !! viewKey n = None;
}.

(** Room for [k] more statements: column IDs are [uint32], index IDs
    [uint64], and row numbers [int64]. *)
Definition room (k : Z) (m : kvmap) : Prop := forall n d, table_at m n d ->
  tNextColID d + k < 2 ^ 32 - 1 /\ Forall (λ x, ixID x + k < 2 ^ 64 - 1) (tIndexes d) /\
  forall T, abstracts d m T -> Z.of_nat (size T) + k < maxInt64.

(** ** Tables altered *)

Lemma records_seq_at m m' n d : records_kept m m' -> seq_at m n d -> seq_at m' n d.
Proof. intros Hk [H1 H2 H3 H4]. split; try done. rewrite Hk; [done|apply sqlSeqKey_record]. Qed.

(** The records stay, and every table has the name of one of before. *)
Lemma schema_tables m m' : schema_ok m -> fks_ok m' -> records_kept m m' ->
  (forall n d, table_at m' n d -> m !! sqlSeqKey n = None /\ m !! viewKey n = None) -> schema_ok m'.
Proof.
  intros Hs Hfk Hk Ht. assert (forall n, m' !! sqlSeqKey n = m !! sqlSeqKey n) as Hq by (intros; apply Hk, sqlSeqKey_record).
  assert (forall n, m' !! viewKey n = m !! viewKey n) as Hv by (intros; apply Hk, viewKey_record).
  split; [done|..].
  - intros n raw. rewrite Hq. intros H. destruct (so_seqs m Hs n raw H) as (d & H1 & H2). exists d. split; [by eapply records_seq_at|done].
  - intros n v. rewrite Hv. intros H. destruct (so_views m Hs n v H) as (q & H1 & H2). exists q. split; [by rewrite Hv|done].
  - intros n d H. rewrite Hq, Hv. by eapply Ht.
  - intros n. rewrite Hq, Hv. apply (so_names m Hs).
Qed.

Lemma schema_altered m m' name d d0 g : db_inv m -> schema_ok m -> altered name d d0 g m m' -> fk_safe m name d d0 -> schema_ok m'.
Proof.
  intros Hdb Hs Hal Hsafe. apply (schema_tables m); [done|by eapply fks_altered; [|apply Hs|..]|apply (al_others _ _ _ _ _ _ Hal)|].
  intros n d1 Hat. destruct (decide (n = name)) as [->|Hn]; [by eapply (so_tables m Hs), al_old|].
  apply (so_tables m Hs n d1). by apply (al_others _ _ _ _ _ _ Hal).
Qed.

Lemma others_size m m' name n d : db_inv m -> others name m m' -> n <> name -> table_at m' n d ->
  table_at m n d /\ forall T, abstracts d m' T -> abstracts d m T.
Proof.
  intros Hdb [Ho _] Hn Hat. destruct (Ho n d Hn) as [H1 H2]. apply H1 in Hat. split; [done|]. intros T HT.
  destruct (rows_of_abstracts d m (to_inv _ _ (db_table m Hdb n d Hat))) as [H0 _]. specialize (H2 Hat _ H0).
  by rewrite (abstracts_unique d m' T _ HT H2).
Qed.

Lemma room_altered k m m' name d d0 g : db_inv m -> room (k + 1) m -> altered name d d0 g m m' -> tNextColID d0 <= tNextColID d + 1 ->
  Forall (λ x, ixID x + k < 2 ^ 64 - 1) (tIndexes d0) -> (forall T, abstracts d m T -> (size (g T) <= size T)%nat) -> room k m'.
Proof.
  intros Hdb Hr [Hold Hnew Hrows Hoth] Hnext Hix Hsize n d1 Hat. destruct (decide (n = name)) as [->|Hn].
  - assert (d1 = published d0) as -> by (unfold table_at in *; congruence). destruct (Hr name d Hold) as (R1 & _ & R3).
    destruct (published_fields d0) as (_ & _ & _ & _ & _ & Ex & _ & _ & En). rewrite Ex, En. split_and!; [lia|done|].
    intros T HT. destruct (rows_of_abstracts d m (to_inv _ _ (db_table m Hdb name d Hold))) as [H0 _].
    rewrite (abstracts_unique _ m' T _ HT (Hrows _ H0)). specialize (R3 _ H0). specialize (Hsize _ H0). lia.
  - destruct (others_size m m' name n d1 Hdb Hoth Hn Hat) as [Hat0 HT]. destruct (Hr n d1 Hat0) as (R1 & R2 & R3).
    split_and!; [lia|eapply Forall_impl; [exact R2|]; cbn; intros; lia|]. intros T H%HT. specialize (R3 T H). lia.
Qed.
Lemma room_less k k' m : k' <= k -> room k m -> room k' m.
Proof.
  intros Hle Hr n d Hat. destruct (Hr n d Hat) as (R1 & R2 & R3). split_and!; [lia|eapply Forall_impl; [exact R2|]; cbn; intros; lia|].
  intros T HT. specialize (R3 T HT). lia.
Qed.
(** A change of the columns' properties, constraints and the like. *)
Lemma room_same k m m' name d d0 : db_inv m -> room (k + 1) m -> altered name d d0 id m m' -> tNextColID d0 = tNextColID d ->
  ixID <$> tIndexes d0 = ixID <$> tIndexes d -> room k m'.
Proof.
  intros Hdb Hr Hal En Ex. apply (room_altered k m m' name d d0 id); try done; [lia|].
  destruct (Hr name d (al_old _ _ _ _ _ _ Hal)) as (_ & R2 & _). apply (Forall_fmap ixID (λ x, x + k < 2 ^ 64 - 1)). rewrite Ex.
  apply Forall_fmap. eapply Forall_impl; [exact R2|]. cbn. intros. lia.
Qed.

(** ** Tables created, dropped and renamed; rows written; records written *)

Lemma room_others k m m' name : db_inv m -> room (k + 1) m -> others name m m' ->
  (forall d, table_at m' name d -> tNextColID d + k < 2 ^ 32 - 1 /\ Forall (λ x, ixID x + k < 2 ^ 64 - 1) (tIndexes d) /\
    forall T, abstracts d m' T -> Z.of_nat (size T) + k < maxInt64) -> room k m'.
Proof.
  intros Hdb Hr Hoth Hnew n d Hat. destruct (decide (n = name)) as [->|Hn]; [by apply Hnew|].
  destruct (others_size m m' name n d Hdb Hoth Hn Hat) as [Hat0 HT]. destruct (Hr n d Hat0) as (R1 & R2 & R3).
  split_and!; [lia|eapply Forall_impl; [exact R2|]; cbn; intros; lia|]. intros T H%HT. specialize (R3 T H). lia.
Qed.

Lemma room_rows k m m' name d P : db_inv m -> room (k + 1) m -> rows_step name d P m m' ->
  (forall T T', P T T' -> (size T' <= size T + 1)%nat) -> room k m'.
Proof.
  intros Hdb Hr [Hold Hnew Hrows Hoth] HP. apply (room_others k m m' name Hdb Hr Hoth). intros d1 Hat.
  assert (d1 = d) as -> by (unfold table_at in *; congruence). destruct (Hr name d Hold) as (R1 & R2 & R3).
  split_and!; [lia|eapply Forall_impl; [exact R2|]; cbn; intros; lia|]. intros T HT.
  destruct (rows_of_abstracts d m (to_inv _ _ (db_table m Hdb name d Hold))) as [H0 _]. destruct (Hrows _ H0) as (T' & HP' & HT').
  rewrite (abstracts_unique d m' T T' HT HT'). specialize (HP _ _ HP'). specialize (R3 _ H0). lia.
Qed.
Lemma schema_rows m m' name d P : db_inv m -> schema_ok m -> rows_step name d P m m' -> schema_ok m'.
Proof.
  intros Hdb Hs [Hold Hnew _ [Ho Hk]].
  assert (forall n d1, table_at m' n d1 <-> table_at m n d1) as Ht.
  { intros n d1. destruct (decide (n = name)) as [->|Hn]; [|by apply Ho]. unfold table_at in *. by rewrite Hold, Hnew. }
  apply (schema_tables m); [done| |done|]; [|intros n d1 H%Ht; by eapply (so_tables m Hs)].
  intros n d1 f H%Ht Hf. destruct (so_fks m Hs n d1 f H Hf) as (p & Hp & Hsh). exists p. by rewrite Ht.
Qed.

Lemma room_record k key m m' : db_inv m -> room (k + 1) m -> one_record key m m' -> room k m'.
Proof.
  intros Hdb Hr (Ht & Hrows & _) n d Hat%Ht. destruct (Hr n d Hat) as (R1 & R2 & R3).
  split_and!; [lia|eapply Forall_impl; [exact R2|]; cbn; intros; lia|]. intros T HT.
  destruct (rows_of_abstracts d m (to_inv _ _ (db_table m Hdb n d Hat))) as [H0 _].
  rewrite (abstracts_unique d m' T _ HT (Hrows n d _ Hat H0)). specialize (R3 _ H0). lia.
Qed.
Lemma fks_record key m m' : fks_ok m -> one_record key m m' -> fks_ok m'.
Proof.
  intros Hfk (Ht & _ & _) n d f H%Ht Hf. destruct (Hfk n d f H Hf) as (p & Hp & Hs). exists p. by rewrite Ht.
Qed.

Lemma schema_sequence m m' name : schema_ok m -> one_record (sqlSeqKey name) m m' ->
  (forall raw, m' !! sqlSeqKey name = Some raw -> (exists d, seq_at m' name d /\ checkSeqDesc d = Ok tt) /\
    m !! viewKey name = None /\ forall d, ~ table_at m name d) -> schema_ok m'.
Proof.
  intros Hs Hone Hnew. pose proof Hone as (Ht & _ & Hk).
  assert (forall n, n <> name -> m' !! sqlSeqKey n = m !! sqlSeqKey n) as Hq.
  { intros n Hn. apply Hk; [apply sqlSeqKey_record|]. by intros E%(inj sqlSeqKey). }
  assert (forall n, m' !! viewKey n = m !! viewKey n) as Hv.
  { intros n. apply Hk; [apply viewKey_record|]. apply not_eq_sym, seq_not_view. }
  split; [by eapply fks_record; [apply Hs|]|..].
  - intros n raw H. destruct (decide (n = name)) as [->|Hn]; [by apply (Hnew raw)|]. rewrite Hq in H by done.
    destruct (so_seqs m Hs n raw H) as (d & [H1 H2 H3 H4] & H5). exists d. split; [|done]. split; try done. by rewrite Hq.
  - intros n v. rewrite Hv. intros H. destruct (so_views m Hs n v H) as (q & H1 & H2). exists q. split; [by rewrite Hv|done].
  - intros n d Hat%Ht. rewrite Hv. destruct (so_tables m Hs n d Hat) as [H1 H2]. split; [|done].
    destruct (decide (n = name)) as [->|Hn]; [|by rewrite Hq]. destruct (m' !! sqlSeqKey name) as [raw|] eqn:Er; [|done].
    destruct (Hnew raw eq_refl) as (_ & _ & Hno). by apply Hno in Hat.
  - intros n. rewrite Hv. destruct (decide (n = name)) as [->|Hn]; [|rewrite Hq by done; apply (so_names m Hs)].
    destruct (m' !! sqlSeqKey name) as [raw|] eqn:Er; [|by left]. right. by destruct (Hnew raw eq_refl) as (_ & ? & _).
Qed.
Lemma schema_view m m' name : schema_ok m -> one_record (viewKey name) m m' ->
  (forall v, m' !! viewKey name = Some v -> (exists q, view_at m' name q) /\ m !! sqlSeqKey name = None /\ forall d, ~ table_at m name d) ->
  schema_ok m'.
Proof.
  intros Hs Hone Hnew. pose proof Hone as (Ht & _ & Hk).
  assert (forall n, n <> name -> m' !! viewKey n = m !! viewKey n) as Hv.
  { intros n Hn. apply Hk; [apply viewKey_record|]. by intros E%(inj viewKey). }
  assert (forall n, m' !! sqlSeqKey n = m !! sqlSeqKey n) as Hq.
  { intros n. apply Hk; [apply sqlSeqKey_record|]. apply seq_not_view. }
  split; [by eapply fks_record; [apply Hs|]|..].
  - intros n raw H. rewrite Hq in H. destruct (so_seqs m Hs n raw H) as (d & [H1 H2 H3 H4] & H5). exists d. split; [|done]. split; try done. by rewrite Hq.
  - intros n v H. destruct (decide (n = name)) as [->|Hn]; [by apply (Hnew v)|]. rewrite Hv in H by done.
    destruct (so_views m Hs n v H) as (q & H1 & H2). exists q. split; [by rewrite Hv|done].
  - intros n d Hat%Ht. rewrite Hq. destruct (so_tables m Hs n d Hat) as [H1 H2]. split; [done|].
    destruct (decide (n = name)) as [->|Hn]; [|by rewrite Hv]. destruct (m' !! viewKey name) as [v|] eqn:Er; [|done].
    destruct (Hnew v eq_refl) as (_ & _ & Hno). by apply Hno in Hat.
  - intros n. rewrite Hq. destruct (decide (n = name)) as [->|Hn]; [|rewrite Hv by done; apply (so_names m Hs)].
    destruct (m' !! viewKey name) as [v|] eqn:Er; [|by right]. left. by destruct (Hnew v eq_refl) as (_ & ? & _).
Qed.

(** ** The statements inside their transactions *)

Section closures.
Context {E : Type} {eng : EngineOps E} {eng_laws : EngineLaws E} {cs : CatState E} {cat_laws : CatLaws E}.
Context {tx : Type} {kv : KV tx} {kv_laws : KVLaws tx}.
Context (k : Z) (Hk : 0 <= k < 2 ^ 31).

(** A closure that keeps the schema, using up one statement's room. *)
Definition kept (m : kvmap) : Prop := schema_ok m /\ room k m.
Definition closes {A : Type} (fn : M (E * tx) A) : Prop := forall e t, ready e t -> schema_ok (kv_map t) -> room (k + 1) (kv_map t) ->
  wp fn (ddl e (λ _ m', kept m')) (e, t).

Lemma closes_wp {A : Type} (fn : M (E * tx) A) :
  (forall e t, ready e t -> schema_ok (kv_map t) -> room (k + 1) (kv_map t) -> exists R, wp fn (ddl e R) (e, t) /\
    forall a m', db_inv m' -> R a m' -> kept m') -> closes fn.
Proof.
  intros Hwp e t Hr Hs Hroom. destruct (Hwp e t Hr Hs Hroom) as (R & HR & HQ). eapply wp_mono; [exact HR|]. intros o s [Hc H].
  split; [done|]. destruct o as [a|er|p]; [|done..]. destruct H as [Hdb H]. split; [done|]. by apply (HQ a).
Qed.
(** Reduces [closes] to a closure's specification and what its effect keeps. *)
Ltac reads Hready := pose proof (rd_db _ _ Hready) as Hdb; match goal with t : tx |- _ => set (m := kv_map t) in * end; cbv beta.
Tactic Notation "closing" constr(lem) := eapply closes_wp; intros e t Hready Hs Hr; eexists; split; [by eapply lem|]; reads Hready.

Lemma kept_nothing m : schema_ok m -> room (k + 1) m -> kept m.
Proof. intros Hs Hr. split; [done|]. eapply room_less; [|done]. lia. Qed.

Lemma kept_altered m m' name d d0 : db_inv m -> schema_ok m -> room (k + 1) m -> altered name d d0 id m m' -> fk_safe m name d d0 ->
  tNextColID d0 = tNextColID d -> ixID <$> tIndexes d0 = ixID <$> tIndexes d -> kept m'.
Proof. intros Hdb Hs Hr Hal Hsafe En Ex. split; [by eapply schema_altered|by eapply room_same]. Qed.

Lemma kept_column m m' table column f : db_inv m -> schema_ok m -> room (k + 1) m -> on_column table column f m m' ->
  (forall d ord c d0, table_at m table d -> f d ord c = Some d0 -> exists g, d0 = edit_column d ord g /\
    (forall c, colName (g c) = colName c) /\ (forall c, colType (g c) = colType c)) -> kept m'.
Proof.
  intros Hdb Hs Hr (d & ord & c & Hi & Hc & Hat & Hch) Hf. destruct (f d ord c) as [d0|] eqn:Ef; [|by rewrite Hch; apply kept_nothing].
  destruct (Hf d ord c d0 Hat Ef) as (g & -> & Hn & Ht). eapply kept_altered; try done. apply safe_edit; try done. apply Hs.
Qed.

Lemma DropColumnDefault_closes table column : closes (DropColumnDefaultIn table column).
Proof.
  closing DropColumnDefaultIn_wp. intros _ m' _ H. eapply kept_column; try done.
  intros d ord c d0 _ Hf. cbn in Hf. case_bool_decide; [done|]. injection Hf as <-. by eexists.
Qed.
Lemma SetColumnDefault_closes table column literal now : clean literal = literal -> closes (SetColumnDefaultIn table column literal now).
Proof.
  intros Hc. closing SetColumnDefaultIn_wp. intros _ m' _ [H _]. eapply kept_column; try done.
  intros d ord c d0 _ [= <-]. by eexists.
Qed.
Lemma SetColumnNotNull_closes table column : closes (SetColumnNotNullIn table column).
Proof.
  closing SetColumnNotNullIn_wp. intros _ m' _ H. eapply kept_column; try done.
  intros d ord c d0 _ Hf. cbn in Hf. destruct (colNotNull c); [done|]. injection Hf as <-. by eexists.
Qed.
Lemma DropColumnNotNull_closes table column : closes (DropColumnNotNullIn table column).
Proof.
  closing DropColumnNotNullIn_wp. intros _ m' _ H. eapply kept_column; try done.
  intros d ord c d0 _ Hf. cbn in Hf. destruct (colNotNull c); [|done]. injection Hf as <-. by eexists.
Qed.
Lemma AddCheck_closes table ck validate : cleanCheck ck = ck -> (forall f r p, validate = Some f -> f r <> Panic p) ->
  closes (AddCheckIn table ck validate).
Proof.
  intros Hc Hv. closing AddCheckIn_wp. intros _ m' _ (d & Hal & _).
  eapply kept_altered; try done. apply safe_checks; [done|apply Hs|apply Hal].
Qed.
Lemma DropCheck_closes table name : closes (DropCheckIn table name).
Proof.
  closing DropCheckIn_wp. intros b m' _ (d & [Hat Hch] & _).
  destruct (list_find _ _) as [[i x]|]; [|by rewrite Hch; apply kept_nothing].
  eapply kept_altered; try done. apply safe_checks; [done|apply Hs|done].
Qed.
Lemma RenameColumn_closes table oldName newName : clean newName = newName -> closes (RenameColumnIn table oldName newName).
Proof.
  intros Hc. closing RenameColumnIn_wp.
  intros _ m' _ [(d & ord & c & Hi & Hcol & Hat & Hal) Hrefs]. cbn in Hal.
  destruct (ColIndex_column d oldName ord Hi) as (c' & Hc' & <-). assert (c' = c) as -> by congruence.
  eapply kept_altered; try done. apply safe_renamed; try done. apply Hs.
Qed.

Lemma AddColumn_closes table col now : new_column col -> closes (AddColumnIn table col now).
Proof.
  intros Hn. eapply closes_wp. intros e t Hready Hs Hr. eexists. split.
  { apply AddColumnIn_wp; try done. intros d Hat. destruct (Hr table d Hat) as (R1 & _ & R3). split; [lia|].
    pose proof (to_inv _ _ (db_table _ (rd_db _ _ Hready) table d Hat)) as Hi. destruct (rows_of_abstracts d (kv_map t) Hi) as [HT _].
    specialize (R3 _ HT). rewrite (abstracts_size d (kv_map t) _ Hi HT) in R3. rewrite rowEntries_range. lia. }
  reads Hready. intros _ m' _ (d & W & _ & Hal & _). pose proof (al_old _ _ _ _ _ _ Hal) as Hat. destruct (Hr table d Hat) as (R1 & R2 & R3).
  split; [eapply schema_altered; try done; apply safe_added; [done|apply Hs|done]|].
  eapply room_altered; try done; cbn.
  - destruct (table_at_wf m table d Hdb Hat) as [_ Hw]. pose proof (rg_next d (cw_range d Hw)) as Hx. unfold uint32_ok, uint32 in *.
    rewrite Z.mod_small; lia.
  - eapply Forall_impl; [exact R2|]. cbn. intros. lia.
  - intros T _. by rewrite map_size_fmap.
Qed.
Lemma DropColumn_closes table name : closes (DropColumnIn table name).
Proof.
  closing DropColumnIn_wp. intros key m' _ (d & ord & c & Hi & Hc & Hal & _ & _ & _ & Hfk & Hrefs).
  pose proof (al_old _ _ _ _ _ _ Hal) as Hat. destruct (Hr table d Hat) as (R1 & R2 & R3).
  destruct (ColIndex_column d name ord Hi) as (c' & Hc' & Hn). assert (c' = c) as -> by congruence.
  split; [eapply schema_altered; try done; eapply safe_dropped; try done; [apply Hs|by rewrite Hn]|].
  eapply room_altered; try done; cbn; [lia| |intros T _; by rewrite map_size_fmap].
  apply Forall_fmap. eapply Forall_impl; [exact R2|]. cbn. intros. lia.
Qed.

(** *** Indexes and foreign keys *)

Lemma room_indexes m name d : room (k + 1) m -> table_at m name d -> Forall (λ x, ixID x + k < 2 ^ 64 - 1) (tIndexes d).
Proof. intros Hr Hat. destruct (Hr name d Hat) as (_ & R2 & _). eapply Forall_impl; [exact R2|]. cbn. intros. lia. Qed.
Lemma nextIndexID_room ixs id b : 0 <= id < b -> Forall (λ x, ixID x + 1 < b) ixs -> nextIndexID id ixs < b.
Proof.
  intros Hid H. revert id Hid. induction H as [|x ixs Hx _ IH]; intros id Hid; cbn [nextIndexID]; [lia|]. apply IH.
  destruct (Z.leb_spec id (ixID x)); [|done]. unfold uint64.
  pose proof (Z.mod_le (ixID x + 1) (2 ^ 64) ltac:(lia) ltac:(lia)). pose proof (Z.mod_pos_bound (ixID x + 1) (2 ^ 64) ltac:(lia)). lia.
Qed.
Lemma CreateIndex_closes table name unique cols : clean name = name -> cols <> [] -> closes (CreateIndexIn table name unique cols).
Proof.
  intros Hc Hne. eapply closes_wp. intros e t Hready Hs Hr. eexists. split.
  { apply CreateIndexIn_wp; try done. intros d Hat. eapply Forall_impl; [by eapply room_indexes|]. cbn. intros. lia. }
  reads Hready. intros _ m' _ (d & idx & Hn & _ & _ & Hal). pose proof (al_old _ _ _ _ _ _ Hal) as Hat.
  split; [eapply schema_altered; try done; apply safe_indexed; [done|apply Hs|done]|].
  eapply room_altered; try done; cbn; [lia|]. apply Forall_app. split; [by eapply room_indexes|]. apply Forall_singleton.
  unfold newIndex in Hn. apply outcome_bind_ok in Hn as (ords & _ & [= <-]). cbn [ixID].
  enough (nextIndexID (primaryIndexID + 1) (tIndexes d) < 2 ^ 64 - 1 - k) by lia.
  destruct (Hr table d Hat) as (_ & R2 & _). apply nextIndexID_room; [unfold primaryIndexID; lia|]. eapply Forall_impl; [exact R2|]. cbn. intros. lia.
Qed.
Lemma DropIndex_closes table name : closes (DropIndexIn table name).
Proof.
  closing DropIndexIn_wp. intros _ m' _ (d & idx & Hi & Hal & Hcov). pose proof (al_old _ _ _ _ _ _ Hal) as Hat. split.
  - eapply schema_altered; try done. apply safe_unindexed; [done|apply Hs|done|by rewrite Hi|]. rewrite Hi. by intros ? [= <-].
  - eapply room_altered; try done; cbn; [lia|]. pose proof (room_indexes m table d Hr Hat) as H. rewrite Forall_forall in *.
    intros x [_ Hx]%list_elem_of_filter. by apply H.
Qed.
Lemma AddForeignKey_closes table validate fk : cleanFK fk = fk -> closes (AddForeignKeyIn table validate fk).
Proof.
  intros Hc. closing AddForeignKeyIn_wp. intros r m' _ (d & p & _ & Hp & Hsh & _ & _ & _ & Hal).
  eapply kept_altered; try done. eapply safe_keyed; try done; [apply Hs|apply Hal].
Qed.
Lemma DropForeignKey_closes table name : closes (DropForeignKeyIn table name).
Proof.
  closing DropForeignKeyIn_wp. intros b m' _ (d & [Hat Hch] & _).
  destruct (list_find _ _) as [[i x]|]; [|by rewrite Hch; apply kept_nothing].
  eapply kept_altered; try done. apply safe_unkeyed; [done|apply Hs|done].
Qed.

(** *** Rebuilds *)

Lemma kept_rebuilt m m' name d d0 T' : db_inv m -> schema_ok m -> room (k + 1) m -> altered name d d0 (λ _, T') m m' -> fk_safe m name d d0 ->
  tNextColID d0 = tNextColID d -> tIndexes d0 = tIndexes d -> (forall T, table_inv d m -> abstracts d m T -> (size T' <= size T)%nat) -> kept m'.
Proof.
  intros Hdb Hs Hr Hal Hsafe En Ex Hsz. pose proof (al_old _ _ _ _ _ _ Hal) as Hat. split; [by eapply schema_altered|].
  eapply room_altered; try done; [lia|rewrite Ex; by eapply room_indexes|]. intros T HT. apply Hsz; [|done]. apply (to_inv _ _ (db_table m Hdb name d Hat)).
Qed.
Lemma SetPrimaryKey_closes table cols : cols <> [] -> closes (SetPrimaryKeyIn table cols).
Proof.
  intros Hne. closing SetPrimaryKeyIn_wp. intros _ m' _ (d & ords & Hat & _ & H). case_decide; [subst; by apply kept_nothing|].
  destruct H as (T' & Hal & _ & _ & Hsz & Hcov). eapply kept_rebuilt; try done. apply safe_rekeyed; try done. apply Hs.
Qed.
Lemma AlterColumnType_closes table column ch now now' : change_ok ch ->
  (forall c text, cleanColumn c = c -> maxlen_ok c -> castDefault c (col_type (chType ch) (chMaxLen ch) c) now now' = Ok text -> clean text = text) ->
  closes (AlterColumnTypeIn table column ch now now').
Proof.
  intros Hch Hcl. closing AlterColumnTypeIn_wp. intros _ m' _ (d & ord & c & Hat & Hi & Hc & H).
  destruct H as [[-> _]|(text & transform & T' & _ & Hrb & Hal & Hfk & Hrefs)]; [by apply kept_nothing|].
  destruct (ColIndex_column d column ord Hi) as (c' & Hc' & Hn). assert (c' = c) as -> by congruence.
  eapply kept_rebuilt; try done; [|apply Hrb]. eapply safe_retyped; try done; [apply Hs|by rewrite Hn].
Qed.

(** *** Tables *)

(** The shape of a new table, as [newDesc] checks and numbers it. *)
Record new_table (name : bytes) (d : TableDesc) : Prop := {
  nt_name : tName d = name;
  nt_wf id : user id -> cat_wf (with_id d id);
  nt_bare : tIndexes d = [] /\ tForeignKeys d = [];
  nt_next : tNextColID d < 2 ^ 31;
}.
Lemma newDesc_new name cols checks pk d : newDesc name cols checks pk = Ok d -> clean name = name ->
  Forall (λ c, int64_ok (colMaxLen c) /\ cleanColumn c = c) cols -> Forall (λ c, cleanCheck c = c) checks ->
  Z.of_nat (length cols) + 1 < 2 ^ 31 -> new_table name d.
Proof.
  intros H Hn Hc Hck Hlen. assert (forall id, user id -> cat_wf (with_id d id)) as Hw by (intros; eapply newDesc_ok; try done; lia).
  destruct (newDesc_ok name cols checks pk d firstUserTableID H) as (_ & Hname & _); try done; [lia|].
  unfold newDesc in H. case_bool_decide; [done|]. case_bool_decide; [done|]. case_bool_decide as Hpk; [done|].
  apply outcome_bind_ok in H as ([] & _ & H). apply outcome_bind_ok in H as ([] & _ & H).
  apply outcome_bind_ok in H as (pkCols & _ & [= <-]). split; try done. cbn. unfold uint32. rewrite Z.mod_small; lia.
Qed.

Lemma CreateTable_closes name d : new_table name d -> closes (CreateTableIn name d).
Proof.
  intros [Hn Hw [Hix Hfk] Hnext]. closing CreateTableIn_wp. intros _ m' _ (id & _ & _ & Hnone & [N1 N2] & Hat & HT & Hoth).
  destruct (published_fields (with_id d id)) as (_ & _ & _ & _ & _ & Ex & _ & Ef & En). split.
  - apply (schema_tables m); [done|eapply fks_created; try done; [apply Hs|by rewrite Ef]|apply Hoth|].
    intros n d1 H. destruct (decide (n = name)) as [->|Hne]; [done|]. apply (so_tables m Hs n d1). by apply Hoth.
  - eapply room_others; try done. intros d1 Hd1. assert (d1 = published (with_id d id)) as -> by (unfold table_at in *; congruence).
    rewrite Ex, En. cbn. rewrite Hix. split_and!; [lia|constructor|]. intros T H. rewrite (abstracts_unique _ _ _ _ H HT), map_size_empty.
    unfold maxInt64. lia.
Qed.
Lemma DropTable_closes name : closes (DropTableIn name).
Proof.
  closing DropTableIn_wp. intros id m' _ (d & Hat & _ & Hrefs & Hnone & Hoth & _ & _).
  assert (forall d1, ~ table_at m' name d1) as Hno by (intros d1; unfold table_at; congruence). split.
  - apply (schema_tables m); [done|eapply fks_dropped; try done; apply Hs|apply Hoth|].
    intros n d1 H. destruct (decide (n = name)) as [->|Hne]; [by apply Hno in H|]. apply (so_tables m Hs n d1). by apply Hoth.
  - eapply room_others; try done. intros d1 H. by apply Hno in H.
Qed.
Lemma RenameTable_closes oldName newName : clean newName = newName -> closes (RenameTableIn oldName newName).
Proof.
  intros Hc. closing RenameTableIn_wp. intros _ m' _ (d & Hat & Hrefs & (N1 & N2 & N3) & Hnone & Hnew & HT & Ho & Hrec).
  assert (resolve m newName = Ok None) as Hfree by (unfold resolve; by rewrite N1).
  assert (oldName <> newName) as Hne by (intros ->; unfold table_at in *; congruence).
  assert (forall d1, ~ table_at m' oldName d1) as Hno by (intros d1; unfold table_at; congruence). split.
  - apply (schema_tables m); [done|eapply fks_renamed; try done; [apply Hs|intros; by apply Ho]|done|].
    intros n d1 H. destruct (decide (n = oldName)) as [->|H1]; [by apply Hno in H|]. destruct (decide (n = newName)) as [->|H2]; [done|].
    apply (so_tables m Hs n d1). by apply Ho.
  - intros n d1 H. destruct (decide (n = oldName)) as [->|H1]; [by apply Hno in H|]. destruct (decide (n = newName)) as [->|H2].
    + assert (d1 = published (renamed d oldName newName)) as -> by (unfold table_at in *; congruence). destruct (Hr oldName d Hat) as (R1 & _ & R3).
      destruct (published_fields (renamed d oldName newName)) as (_ & _ & _ & _ & _ & Ex & _ & _ & En). rewrite Ex, En. cbn.
      split_and!; [lia|by eapply room_indexes|]. intros T HT'. destruct (rows_of_abstracts d m (to_inv _ _ (db_table m Hdb oldName d Hat))) as [H0 _].
      rewrite (abstracts_unique _ m' T _ HT' (HT _ H0)). specialize (R3 _ H0). lia.
    + destruct (Ho n d1 H1 H2) as [Hi Hrows]. apply Hi in H. destruct (Hr n d1 H) as (R1 & _ & R3).
      split_and!; [lia|by eapply room_indexes|]. intros T HT'. destruct (rows_of_abstracts d1 m (to_inv _ _ (db_table m Hdb n d1 H))) as [H0 _].
      rewrite (abstracts_unique _ m' T _ HT' (Hrows H _ H0)). specialize (R3 _ H0). lia.
Qed.

(** *** Sequence objects and views *)

Lemma free_table m name : m !! descKey name = None -> forall d, ~ table_at m name d.
Proof. intros H d. unfold table_at, resolve. by rewrite H. Qed.
Lemma named_sequence m name d : schema_ok m -> seq_at m name d -> m !! viewKey name = None /\ forall d', ~ table_at m name d'.
Proof.
  intros Hs [H _ _ _]. split; [destruct (so_names m Hs name) as [H0|H0]; [congruence|done]|].
  intros d' Hat. destruct (so_tables m Hs name d' Hat). congruence.
Qed.

Lemma CreateSequence_closes d : seq_new d -> closes (CreateSequenceIn d).
Proof.
  intros Hd. closing CreateSequenceIn_wp. intros r m' _ (id & _ & Hat & Hone & _ & N1 & N2). split; [|by eapply room_record].
  eapply schema_sequence; [done..|]. intros raw _. split_and!; [|done|by apply free_table].
  eexists. split; [exact Hat|]. apply checkSeqDesc_ok, (checkSeqDesc_ok d), Hd.
Qed.
Lemma DropSequence_closes name : closes (DropSequenceIn name).
Proof.
  closing DropSequenceIn_wp. intros b m' _ (_ & Hgone & Hone). split; [|by eapply room_record].
  eapply schema_sequence; [done..|]. intros raw. by rewrite Hgone.
Qed.
Lemma AlterSequence_closes name mutate : edits mutate -> closes (AlterSequenceIn name mutate).
Proof.
  intros Hm. eapply closes_wp. intros e t Hready Hs Hr. eexists. split.
  { apply AlterSequenceIn_wp; try done. intros raw H. destruct (so_seqs _ Hs name raw H) as (d & H1 & _). by exists d. }
  reads Hready. intros _ m' _ (d & d' & Hat & _ & Hck & Hnew & Hone). split; [|by eapply room_record].
  eapply schema_sequence; [done..|]. intros raw _. split; [|by eapply named_sequence]. by exists (sq_version descFormatVersion d').
Qed.
Lemma CreateView_closes name query orReplace : clean name = name -> clean query = query -> closes (CreateViewIn name query orReplace).
Proof.
  intros Hn Hq. closing CreateViewIn_wp. intros _ m' _ (Hat & Hone & N1 & N2 & _). split; [|by eapply room_record].
  eapply schema_view; [done..|]. intros v _. split_and!; [by exists query|done|by apply free_table].
Qed.
Lemma DropView_closes name : closes (DropViewIn name).
Proof.
  closing DropViewIn_wp. intros b m' _ (_ & Hgone & Hone). split; [|by eapply room_record].
  eapply schema_view; [done..|]. intros v. by rewrite Hgone.
Qed.

(** *** Rows *)

Lemma kept_rows m m' name d P : db_inv m -> schema_ok m -> room (k + 1) m -> rows_step name d P m m' ->
  (forall T T', P T T' -> (size T' <= size T + 1)%nat) -> kept m'.
Proof. intros Hdb Hs Hr Hst HP. split; [by eapply schema_rows|by eapply room_rows]. Qed.
Lemma spec_insert_size d T row T' : spec_insert d T row = Ok T' -> (size T' <= size T + 1)%nat.
Proof. unfold spec_insert. case_decide; [done|]. destruct (clash _ _ _ _); [done|]. intros [= <-]. rewrite map_size_insert. destruct (_ !! _); cbn; lia. Qed.
Lemma spec_update_size d T old new T' : spec_update d T old new = Ok T' -> (size T' <= size T + 1)%nat.
Proof.
  unfold spec_update. case_decide; [done|]. destruct (clash _ _ _ _); [done|]. intros [= <-]. 
  pose proof (map_subseteq_size _ _ (delete_subseteq T (pkOf d old))). rewrite map_size_insert. destruct (delete _ _ !! _); cbn; lia.
Qed.

(** The table's descriptor read, then one row write. *)
Lemma row_closes {A : Type} table (fn : TableDesc -> M (E * tx) A) :
  (forall e t d, ready e t -> table_at (kv_map t) table d -> schema_ok (kv_map t) -> room (k + 1) (kv_map t) ->
    wp (fn d) (ddl e (λ _ m', kept m')) (e, t)) -> closes (desc ← descFromView table; fn desc).
Proof.
  intros Hfn e t Hr Hs Hroom. apply wp_bind, wp_descFromView_ready; [done| |intros; by apply ddl_err].
  intros d e' He Hat _ _. cbn [seqQ]. eapply wp_mono; [apply Hfn; try done; by eapply ready_cached|].
  intros o s [H1 H2]. split; [by etransitivity|done].
Qed.
Lemma row_kept {A : Type} (fn : M (E * tx) A) (e : E) (t : tx) R : wp fn (ddl e R) (e, t) -> (forall a m', R a m' -> kept m') ->
  wp fn (ddl e (λ _ m', kept m')) (e, t).
Proof. intros H HR. eapply wp_mono; [exact H|]. intros [a|er|p] s [H1 H2]; split; try done. destruct H2 as [H2 H3]. split; [done|by apply (HR a)]. Qed.
Lemma kept_then {A B : Type} (fn : M (E * tx) A) (f : A -> B) (e : E) (t : tx) : wp fn (ddl e (λ _ m', kept m')) (e, t) ->
  wp (a ← fn; mret (f a)) (ddl e (λ _ m', kept m')) (e, t).
Proof. intros H. apply wp_bind. eapply wp_mono; [exact H|]. by intros [a|er|p] s. Qed.

Lemma insert_kept table d vals e t : ready e t -> table_at (kv_map t) table d -> schema_ok (kv_map t) -> room (k + 1) (kv_map t) ->
  Forall any_ok vals -> wp (insertRow d vals) (ddl e (λ _ m', kept m')) (e, t).
Proof.
  intros Hr Hat Hs Hroom Hv. eapply row_kept; [by apply (insertRow_step table)|]. intros a m' (nrow & _ & Hst).
  eapply kept_rows; try done; [apply Hr|]. cbn. intros T T'. apply spec_insert_size.
Qed.
Lemma Insert_closes table vals : Forall any_ok vals -> closes (desc ← descFromView table; _ ← insertRow desc vals; mret ()).
Proof. intros Hv. apply row_closes. intros e t d Hr Hat Hs Hroom. by eapply (kept_then _ (λ _, ())), insert_kept. Qed.
Lemma InsertReturning_closes table vals : Forall any_ok vals -> closes (InsertIn table vals).
Proof. intros Hv. apply row_closes. intros e t d Hr Hat Hs Hroom. by eapply (kept_then _ (mkRow d)), insert_kept. Qed.
Lemma Update_closes table pkVals set : Forall any_ok pkVals -> Forall any_ok set.*2 -> closes (UpdateIn table pkVals set).
Proof.
  intros Hp Hset. apply row_closes. intros e t d Hr Hat Hs Hroom. apply (kept_then _ (λ r, bool_decide (is_Some r))).
  eapply row_kept; [by apply (updateRow_step table)|]. intros [r|] m'; [|intros ->; by apply kept_nothing].
  intros (old & new & _ & _ & _ & Hst). eapply kept_rows; try done; [apply Hr|]. cbn. intros T T' [_ H]. by eapply spec_update_size.
Qed.
Lemma Delete_closes table pkVals : Forall any_ok pkVals -> closes (DeleteIn table pkVals).
Proof.
  intros Hp. apply row_closes. intros e t d Hr Hat Hs Hroom.
  eapply row_kept; [by apply (deleteRow_step table)|]. intros [] m'; [|intros ->; by apply kept_nothing].
  intros (old & _ & Hst). eapply kept_rows; try done; [apply Hr|]. cbn. intros T T' [_ ->].
  pose proof (map_subseteq_size _ _ (delete_subseteq T (pkOf d old))). unfold spec_delete. lia.
Qed.
End closures.
