(* ===== verification/TxnOk.v ===== *)
(** * What transactions keep

    The invariant of a [Txn] and that every method keeps it: the view is a
    sound database, memoized descriptors are those of the view, the mirror
    stack pairs the store's savepoints with write counts, and the count stays
    within the cap. *)
From S2P Require Import Prelude GoVal GoStr Tuple KV Savepoint Json Catalog Desc Rows Index Table Seq Upkeep Dml Relation Engine Store Database Ddl DdlColumn DdlTable SeqObj Schema RowStmt Txn Statements.

Local Open Scope Z_scope.

(** The cap is not changed by the engine's own work. *)
Class TxnEngineLaws (E : Type) {eng : EngineOps E} {cs : CatState E} {te : TxnEngine E} := {
  max_with f (e : E) : e_maxTxnWrites (with_cat f e) = e_maxTxnWrites e;
  max_memory e o e' : e_CheckMemory e = (o, e') -> e_maxTxnWrites e' = e_maxTxnWrites e;
  max_alloc key start e o e' : e_allocCounter key start e = (o, e') -> e_maxTxnWrites e' = e_maxTxnWrites e;
  max_bump key next e o e' : e_bumpCounterAllocTo key next e = (o, e') -> e_maxTxnWrites e' = e_maxTxnWrites e;
  max_gid g e : e_maxTxnWrites (e_setWriterGID g e) = e_maxTxnWrites e;
  cat_gid g e : cat (e_setWriterGID g e) = cat e;
  occ_gid g e : e_occ (e_setWriterGID g e) = e_occ e;
}.

Section tame.
Context {E : Type} {eng : EngineOps E} {cs : CatState E} {te : TxnEngine E} {te_laws : TxnEngineLaws E}.
Context {tx sp : Type} {kv : KV tx} {kv_laws : KVLaws tx} {sv : KVSave tx sp} {sv_laws : KVSaveLaws tx sp}.

(** Row and descriptor code leaves the cap, the mode of the transaction and
    its savepoints as they were. *)
Definition alike (s s' : E * tx) : Prop :=
  e_maxTxnWrites s'.1 = e_maxTxnWrites s.1 /\ kv_writable s'.2 = kv_writable s.2 /\ same_saves kv_saves kv_issued s.2 s'.2.
#[export] Instance alike_preorder : PreOrder alike.
Proof.
  split; [by intros s|]. intros s1 s2 s3 (A1 & B1 & C1 & D1) (A2 & B2 & C2 & D2). unfold alike, same_saves. split_and!; congruence.
Qed.
Definition tame {A : Type} (m : M (E * tx) A) : Prop := forall s, alike s (m s).2.

Lemma tame_ret {A : Type} (a : A) : tame (mret a).
Proof. by intros s. Qed.
Lemma tame_lift {A : Type} (o : outcome A) : tame (lift o).
Proof. by intros s. Qed.
Lemma tame_fail {A : Type} er : tame (fail er : M (E * tx) A).
Proof. by intros s. Qed.
Lemma tame_bind {A B : Type} (m : M (E * tx) A) (f : A -> M (E * tx) B) : tame m -> (forall a, tame (f a)) -> tame (m ≫= f).
Proof.
  intros Hm Hf s. specialize (Hm s). unfold mbind, M_bind. destruct (m s) as [[a|er|p] s1]; [|done..].
  cbn [snd] in Hm. etransitivity; [exact Hm|]. apply Hf.
Qed.
Lemma tame_for_each {A : Type} (f : A -> M (E * tx) unit) l : (forall x, tame (f x)) -> tame (for_each f l).
Proof. intros Hf. induction l as [|x l IH]; [apply tame_ret|]. cbn [for_each]. by apply tame_bind. Qed.
Lemma tame_isOcc : tame isOcc.
Proof. by intros s. Qed.
Lemma tame_memory : tame (onE e_CheckMemory).
Proof. intros [e t]. unfold onE. cbn [fst snd]. destruct (e_CheckMemory e) as [o e'] eqn:Em. split; [by eapply max_memory|done]. Qed.
Lemma tame_alloc key start : tame (onE (e_allocCounter key start)).
Proof. intros [e t]. unfold onE. cbn [fst snd]. destruct (e_allocCounter key start e) as [o e'] eqn:Em. split; [by eapply max_alloc|done]. Qed.
Lemma tame_bump key next : tame (onE (e_bumpCounterAllocTo key next)).
Proof. intros [e t]. unfold onE. cbn [fst snd]. destruct (e_bumpCounterAllocTo key next e) as [o e'] eqn:Em. split; [by eapply max_bump|done]. Qed.

(** The same of code that only has the store's transaction. *)
Definition tame_tx {A : Type} (m : M tx A) : Prop := forall t, kv_writable (m t).2 = kv_writable t /\ same_saves kv_saves kv_issued t (m t).2.
Lemma tame_of_tx {A : Type} (m : M tx A) : tame_tx m -> tame (onTx m).
Proof. intros H [e t]. specialize (H t). unfold onTx. cbn [fst snd]. destruct (m t) as [o t']. by split. Qed.
Lemma tame_tx_ret {A : Type} (a : A) : tame_tx (mret a).
Proof. by intros t. Qed.
Lemma tame_tx_lift {A : Type} (o : outcome A) : tame_tx (lift o).
Proof. by intros t. Qed.
Lemma tame_tx_fail {A : Type} er : tame_tx (fail er : M tx A).
Proof. by intros t. Qed.
Lemma tame_tx_gets {A : Type} (f : tx -> A) : tame_tx (gets f).
Proof. by intros t. Qed.
Lemma tame_tx_bind {A B : Type} (m : M tx A) (f : A -> M tx B) : tame_tx m -> (forall a, tame_tx (f a)) -> tame_tx (m ≫= f).
Proof.
  intros Hm Hf t. specialize (Hm t). unfold mbind, M_bind. destruct (m t) as [[a|er|p] t1]; [|done..].
  cbn [snd] in Hm. destruct Hm as (H1 & H2 & H3). destruct (Hf a t1) as (H4 & H5 & H6). unfold same_saves. split_and!; congruence.
Qed.
Lemma tame_tx_for_each {A : Type} (f : A -> M tx unit) l : (forall x, tame_tx (f x)) -> tame_tx (for_each f l).
Proof. intros Hf. induction l as [|x l IH]; [apply tame_tx_ret|]. cbn [for_each]. by apply tame_tx_bind. Qed.
Lemma tame_tx_mark k : tame_tx (modify (kv_mark_read k)).
Proof. intros t. split; [apply kv_mark_read_writable|apply kv_mark_read_saves]. Qed.
Lemma tame_tx_set k v : tame_tx (kv_set k v).
Proof.
  intros t. split; [|apply kv_set_saves]. destruct (kv_writable t) eqn:Hw; [|by rewrite kv_set_ro].
  destruct (kv_set_rw t k v Hw) as (t' & -> & Ht). cbn [snd]. by rewrite (writes_writable _ _ _ Ht).
Qed.
Lemma tame_tx_delete k : tame_tx (kv_delete k).
Proof.
  intros t. split; [|apply kv_delete_saves]. destruct (kv_writable t) eqn:Hw; [|by rewrite kv_delete_ro].
  destruct (kv_delete_rw t k Hw) as (t' & -> & Ht). cbn [snd]. by rewrite (writes_writable _ _ _ Ht).
Qed.
Lemma tame_tx_delete_range lo hi : tame_tx (kv_delete_range lo hi).
Proof.
  intros t. split; [|apply kv_delete_range_saves]. destruct (kv_writable t) eqn:Hw; [|by rewrite kv_delete_range_ro].
  destruct (kv_delete_range_rw t lo hi Hw) as (t' & -> & Ht). cbn [snd]. by rewrite (writes_writable _ _ _ Ht).
Qed.

Create HintDb tame.
#[local] Hint Resolve tame_ret tame_lift tame_fail tame_bind tame_for_each tame_isOcc tame_memory tame_alloc tame_bump tame_of_tx
  tame_tx_ret tame_tx_lift tame_tx_fail tame_tx_gets tame_tx_bind tame_tx_for_each tame_tx_mark tame_tx_set tame_tx_delete tame_tx_delete_range : tame.
Ltac tame := repeat first [solve [eauto 2 with tame] | match goal with |- forall _, _ => intros ? end | apply tame_bind | apply tame_for_each
  | apply tame_tx_bind | apply tame_tx_for_each | apply tame_of_tx | progress case_match].

Lemma tame_nextFromCounter key start : tame_tx (nextFromCounter key start).
Proof. unfold nextFromCounter. tame. Qed.
Lemma tame_bumpCounterTo key next : tame_tx (bumpCounterTo key next).
Proof. unfold bumpCounterTo. tame. Qed.
#[local] Hint Resolve tame_nextFromCounter tame_bumpCounterTo : tame.
Lemma tame_fillIdentityCol d c v : tame (fillIdentityCol d c v).
Proof. unfold fillIdentityCol. cbv zeta. tame. Qed.
Lemma tame_fillIdentity d vals : tame (fillIdentity d vals).
Proof.
  unfold fillIdentity. destruct (_ || _); [tame|]. generalize 0%nat, (@nil nat). revert vals.
  induction (tColumns d) as [|c cols IH]; intros [|v vals] i drawn; cbn [fillIdentity_loop]; [tame..|].
  destruct (colIdentity c).
  - apply tame_bind; [apply tame_fillIdentityCol|]. intros [v' dr]. apply tame_bind; [apply IH|]. tame.
  - apply tame_bind; [apply IH|]. tame.
Qed.
Lemma tame_insertEntries d idxs row drawn : tame (insertEntries d idxs row drawn).
Proof. induction idxs as [|idx idxs IH]; cbn [insertEntries]; tame. Qed.
Lemma tame_insertRow d vals : tame (insertRow d vals).
Proof.
  unfold insertRow. apply tame_bind; [apply tame_memory|]. intros _. apply tame_bind; [apply tame_fillIdentity|]. intros [vals' drawn].
  tame; apply tame_insertEntries.
Qed.
Lemma tame_updateMoves d idxs oldRow newVals : tame_tx (updateMoves d idxs oldRow newVals).
Proof. induction idxs as [|idx idxs IH]; cbn [updateMoves]; tame. Qed.
Lemma tame_updateRow d pkVals set : tame_tx (updateRow d pkVals set).
Proof. unfold updateRow. pose proof tame_updateMoves. tame. Qed.
Lemma tame_deleteRow d pkVals : tame_tx (deleteRow d pkVals).
Proof. unfold deleteRow. tame. Qed.
Lemma tame_tableFromView name : tame (tableFromView name).
Proof.
  unfold tableFromView. assert (forall f : E -> E, (forall e, e_maxTxnWrites (f e) = e_maxTxnWrites e) -> tame (onE (modify f))) as Hm.
  { intros f Hf [e t]. split; [apply Hf|done]. }
  assert (forall A (f : E -> A), tame (onE (gets f))) as Hg by (by intros A f [e t]).
  pose proof max_with. unfold cacheStore. tame.
Qed.
Lemma tame_seqDescIn name : tame_tx (seqDescIn name).
Proof. unfold seqDescIn. tame. Qed.
Lemma tame_NextVal name : tame_tx (NextVal name).
Proof. unfold NextVal, writeSeqDescIn. pose proof tame_seqDescIn. tame. Qed.
Lemma tame_SetVal name v called : tame_tx (SetVal name v called).
Proof. unfold SetVal, writeSeqDescIn. pose proof tame_seqDescIn. tame. Qed.
Lemma tame_nextSeqIn name : tame_tx (nextSeqIn name).
Proof. unfold nextSeqIn. tame. Qed.
Lemma tame_setSeqIn name next : tame_tx (setSeqIn name next).
Proof. unfold setSeqIn. tame. Qed.
Lemma tame_deleteSeqIn name : tame_tx (deleteSeqIn name).
Proof. unfold deleteSeqIn. tame. Qed.
End tame.

(** ** The invariant *)

(** The same tables under the same names. *)
Definition same_tables (m m' : kvmap) : Prop := forall n, resolve m' n = resolve m n.
#[export] Instance same_tables_preorder : PreOrder same_tables.
Proof. split; [by intros m n|]. intros m1 m2 m3 H1 H2 n. by rewrite H2, H1. Qed.
Lemma same_tables_at m m' : db_inv m -> db_inv m' -> (forall n d, table_at m' n d <-> table_at m n d) -> same_tables m m'.
Proof.
  intros Hm Hm' H n. destruct (resolve_total m n Hm) as [[d|] Ed], (resolve_total m' n Hm') as [[d'|] Ed']; unfold table_at in H; rewrite Ed, Ed'; try done.
  - specialize (H n d). rewrite Ed, Ed' in H. by apply H.
  - specialize (H n d). rewrite Ed, Ed' in H. by apply H.
  - specialize (H n d'). rewrite Ed, Ed' in H. symmetry. by apply H.
Qed.
Lemma rows_step_tables m m' name d P : db_inv m -> db_inv m' -> rows_step name d P m m' -> same_tables m m'.
Proof.
  intros Hm Hm' [Hold Hnew _ [Ho _]]. apply same_tables_at; [done..|]. intros n d1.
  destruct (decide (n = name)) as [->|Hn]; [|by apply Ho]. unfold table_at in *. by rewrite Hold, Hnew.
Qed.

(** A view a client may work on. *)
Record view_ok (r : Z) (m : kvmap) : Prop := {
  vo_db : db_inv m;
  vo_schema : schema_ok m;
  vo_room : room r m;
}.
Lemma view_ok_less r r' m : r' <= r -> view_ok r m -> view_ok r' m.
Proof. intros Hr [H1 H2 H3]. split; [done..|]. by eapply room_less. Qed.
Lemma view_ok_rows r m m' name d P : view_ok (r + 1) m -> db_inv m' -> rows_step name d P m m' ->
  (forall T T', P T T' -> (size T' <= size T + 1)%nat) -> view_ok r m' /\ same_tables m m'.
Proof.
  intros [H1 H2 H3] Hdb Hst HP. split; [split; [done|by apply (schema_rows m m' name d P)|by apply (room_rows r m m' name d P)]|by apply (rows_step_tables m m' name d P)].
Qed.

Section keeps.
Context {E : Type} {eng : EngineOps E} {eng_laws : EngineLaws E} {cs : CatState E} {cat_laws : CatLaws E} {te : TxnEngine E} {te_laws : TxnEngineLaws E}.
Context {tx sp : Type} {kv : KV tx} {kv_laws : KVLaws tx} {sv : KVSave tx sp} {sv_laws : KVSaveLaws tx sp} {sp_eq : EqDecision sp}.
Abbreviation Txn := (Txn tx sp).
Implicit Types T : Txn.

(** A write count the cap allows, with room for [r] more without overflow. *)
Definition count_ok (r : Z) (e : E) (w : Z) : Prop :=
  0 <= w /\ w + r < 2 ^ 63 /\ (0 < e_maxTxnWrites e -> w <= e_maxTxnWrites e).

Record txn_ok (r : Z) (e : E) (T : Txn) : Prop := {
  tk_cache : cache_ok (cat e);
  tk_writable : kv_writable (xTx T) = true;
  tk_view : view_ok r (kv_map (xTx T));
  tk_memo n d : xDescs T !! n = Some d -> resolve (kv_map (xTx T)) n = Ok d;
  tk_saves p m : (p, m) ∈ kv_saves (xTx T) -> view_ok r m /\ same_tables (kv_map (xTx T)) m;
  tk_mirror : (xSaves T).*1 = (kv_saves (xTx T)).*1;
  tk_nodup : NoDup (kv_saves (xTx T)).*1;
  tk_issued : (kv_saves (xTx T)).*1 ⊆ kv_issued (xTx T);
  tk_count : count_ok r e (xWrites T);
  tk_counts p w : (p, w) ∈ xSaves T -> count_ok r e w;
}.

(** What the marks of a savepoint say does not change while it is on the
    stacks, and handles are not reused. *)
Record old_marks (T T' : Txn) : Prop := {
  om_issued : kv_issued (xTx T) ⊆ kv_issued (xTx T');
  om_saves p m : p ∈ kv_issued (xTx T) -> (p, m) ∈ kv_saves (xTx T') -> (p, m) ∈ kv_saves (xTx T);
  om_counts p w : p ∈ kv_issued (xTx T) -> (p, w) ∈ xSaves T' -> (p, w) ∈ xSaves T;
}.
#[export] Instance old_marks_preorder : PreOrder old_marks.
Proof.
  split; [by intros T; split|]. intros T1 T2 T3 [A1 B1 C1] [A2 B2 C2]. split; [by etransitivity|..]; intros p x Hp Hx; auto.
Qed.

(** The engine and transaction after a call. *)
Record goes (r : Z) (s s' : E * Txn) : Prop := {
  go_ok : txn_ok r s'.1 s'.2;
  go_cached : cached s.1 s'.1;
  go_max : e_maxTxnWrites s'.1 = e_maxTxnWrites s.1;
  go_marks : old_marks s.2 s'.2;
}.
Lemma goes_refl r s : txn_ok r s.1 s.2 -> goes r s s.
Proof. intros H. by split. Qed.
Lemma goes_trans r r' s1 s2 s3 : goes r s1 s2 -> goes r' s2 s3 -> goes r' s1 s3.
Proof. intros [A1 B1 C1 D1] [A2 B2 C2 D2]. split; [done|by etransitivity|congruence|by etransitivity]. Qed.
Lemma txn_ok_less r r' e T : r' <= r -> txn_ok r e T -> txn_ok r' e T.
Proof.
  intros Hr [H1 H2 H3 H4 H5 H6 H7 H8 (C1 & C2 & C3) H10]. split; try done; try (by eapply view_ok_less).
  - intros p m Hp. destruct (H5 p m Hp). split; [by eapply view_ok_less|done].
  - split_and!; [done|lia|done].
  - intros p w Hp. destruct (H10 p w Hp) as (? & ? & ?). split_and!; [done|lia|done].
Qed.

(** [m] run inside a [Txn]: its map changes, the rest is as it was. *)
Lemma wp_onKv {A : Type} (m : M (E * tx) A) (Q : outcome A -> E * Txn -> Prop) e T : tame m -> steady m ->
  wp m (λ o s', alike (e, xTx T) s' -> cached e s'.1 -> Q o (s'.1, x_tx (λ _, s'.2) T)) (e, xTx T) -> wp (onKv m) Q (e, T).
Proof.
  intros Ht Hs H. unfold wp, onKv in *. cbn [fst snd] in *. specialize (Ht (e, xTx T)). specialize (Hs e (xTx T)).
  destruct (m (e, xTx T)) as [o [e' t']]. cbn [fst snd] in *. by apply H.
Qed.
Lemma txn_ok_map r r' e e' T t' : r' <= r -> txn_ok r e T -> cached e e' -> alike (e, xTx T) (e', t') -> view_ok r' (kv_map t') ->
  same_tables (kv_map (xTx T)) (kv_map t') -> goes r' (e, T) (e', x_tx (λ _, t') T).
Proof.
  intros Hr Hok%(txn_ok_less r r') Hc (Hm & Hw & Hsv & His) Hv Hst; [|done]. destruct Hok as [H1 H2 H3 H4 H5 H6 H7 H8 H9 H10]. cbn [fst snd] in *.
  split; cbn [fst snd]; [|done..|split; cbn [x_tx xTx xSaves]; rewrite ?Hsv, ?His; done].
  split; cbn [x_tx xTx xDescs xSaves xWrites]; rewrite ?Hsv, ?His; try done.
  - by apply Hc.
  - congruence.
  - intros n d Hn. rewrite Hst. by apply H4.
  - intros p m Hp. destruct (H5 p m Hp) as [Hvo Hsame]. split; [done|]. intros n. by rewrite Hsame, Hst.
  - unfold count_ok in *. by rewrite Hm.
  - intros p w Hp. unfold count_ok in *. rewrite Hm. by apply (H10 p).
Qed.

(** ** Descriptors *)

Lemma steady_tableFromView name : steady (E := E) (tx := tx) (tableFromView name).
Proof.
  assert (forall A (f : E -> A), steady (tx := tx) (onE (gets f))) as Hg by (by intros A f e t).
  unfold tableFromView. apply steady_bind; [apply steady_onTx|]. intros [bs|]; [|apply steady_ret]. apply steady_bind; [apply Hg|]. intros ent.
  assert (steady (tx := tx) (desc ← lift (parseDesc bs); _ ← cacheStore (E := E) name bs desc; mret (Some desc))) as Hmiss.
  { intros e t. unfold mbind, M_bind, lift. destruct (parseDesc bs) as [d|er|p] eqn:Ed; [|done..]. cbn. by apply cached_store. }
  destruct ent as [[b d]|]; [|done]. by case_decide; [apply steady_ret|].
Qed.

Lemma ready_of r e T : txn_ok r e T -> ready e (xTx T).
Proof. intros [H1 H2 [H3 _ _] _ _ _ _ _ _ _]. by split. Qed.

Lemma wp_TxnTable r name Q e T : txn_ok r e T ->
  (forall s', goes r (e, T) s' -> xTx s'.2 = xTx T -> xWrites s'.2 = xWrites T -> forall od, resolve (kv_map (xTx T)) name = Ok od -> Q (Ok od) s') ->
  wp (TxnTable name) Q (e, T).
Proof.
  intros Hok HQ. unfold TxnTable, getX. apply wp_bind, wp_gets. cbn [seqQ snd].
  destruct (xDescs T !! name) as [d|] eqn:Em; [apply wp_ret, HQ; [by apply goes_refl|done|done|by apply (tk_memo _ _ _ Hok)]|].
  apply wp_bind, wp_onKv; [apply tame_tableFromView|apply steady_tableFromView|]. apply wp_tableFromView; [apply Hok|].
  intros e' He Hal Hc. cbn [fst snd] in *. destruct (resolve_total _ name (vo_db _ _ (tk_view _ _ _ Hok))) as [od Hod]. rewrite Hod. cbn [seqQ].
  pose proof (txn_ok_map r r e e' T (xTx T) ltac:(lia) Hok Hc Hal (tk_view _ _ _ Hok) ltac:(done)) as [G1 G2 G3 G4]. cbn [fst snd] in *.
  apply wp_bind, wp_modify. cbn [seqQ fst snd]. apply wp_ret, HQ; [|done..]. split; cbn [fst snd]; [|done..].
  destruct G1 as [H1 H2 H3 H4 H5 H6 H7 H8 H9 H10]. split; try done. cbn [x_desc x_tx xDescs xTx]. intros n d. rewrite lookup_insert.
  case_decide; [by intros [= <-]; subst|by apply H4].
Qed.
Lemma wp_TxnDesc r table Q e T : txn_ok r e T ->
  (forall d s', goes r (e, T) s' -> xTx s'.2 = xTx T -> xWrites s'.2 = xWrites T -> table_at (kv_map (xTx T)) table d -> Q (Ok d) s') ->
  (forall er s', goes r (e, T) s' -> xTx s'.2 = xTx T -> Q (Err er) s') -> wp (TxnDesc table) Q (e, T).
Proof.
  intros Hok HQ HE. unfold TxnDesc. apply wp_bind, (wp_TxnTable r); [done|]. intros s' Hg Ht Hw [d|] Hod; cbn [seqQ].
  - apply wp_ret. by apply HQ.
  - apply wp_fail. by apply HE.
Qed.

(** ** Rows *)

(** What every call leaves. *)
Definition stays {A : Type} (r : Z) (s : E * Txn) (o : outcome A) (s' : E * Txn) : Prop := is_panic o = false /\ goes r s s'.

Lemma wp_CheckWrites n Q e T :
  (e_maxTxnWrites e <= 0 \/ int64 (xWrites T + n) <= e_maxTxnWrites e -> Q (Ok tt) (e, T)) ->
  (forall er, Q (Err er) (e, T)) -> wp (CheckWrites n) Q (e, T).
Proof.
  intros HQ HE. unfold wp, CheckWrites. cbn [fst snd]. destruct (Z.leb_spec (e_maxTxnWrites e) 0); cbn [orb]; [apply HQ; lia|].
  destruct (Z.leb_spec (int64 (xWrites T + n)) (e_maxTxnWrites e)); [apply HQ; lia|apply HE].
Qed.
Lemma count_next r e T : txn_ok (r + 1) e T -> 0 <= r -> e_maxTxnWrites e <= 0 \/ int64 (xWrites T + 1) <= e_maxTxnWrites e ->
  int64 (xWrites T + 1) = xWrites T + 1 /\ count_ok r e (xWrites T + 1).
Proof.
  intros Hok Hr Hc. destruct (tk_count _ _ _ Hok) as (C1 & C2 & C3). assert (int64 (xWrites T + 1) = xWrites T + 1) as E1 by (apply int64_id; unfold int64_ok; lia).
  rewrite E1 in Hc. split; [done|]. unfold count_ok. split_and!; lia.
Qed.
Lemma goes_count r s s' w : goes r s s' -> count_ok r s.1 w -> goes r s (s'.1, x_writes w s'.2).
Proof.
  intros [H1 H2 H3 H4] Hc. split; cbn [fst snd]; [|done..|by destruct H4]. destruct H1. split; try done. unfold count_ok in *. by rewrite H3.
Qed.
Lemma goes_less r r' s s' : r' <= r -> goes r s s' -> goes r' s s'.
Proof. intros Hr [H1 H2 H3 H4]. split; [by eapply txn_ok_less|done..]. Qed.

(** A row write inside the transaction. *)
Lemma wp_row {A : Type} r (m : M (E * tx) A) Q e T : 0 <= r -> txn_ok (r + 1) e T -> tame m -> steady m ->
  wp m (λ o s', view_ok r (kv_map s'.2) /\ same_tables (kv_map (xTx T)) (kv_map s'.2) /\ is_panic o = false /\
    forall s2, goes r (e, T) s2 -> xWrites s2.2 = xWrites T -> kv_map (xTx s2.2) = kv_map s'.2 -> Q o s2) (e, xTx T) -> wp (onKv m) Q (e, T).
Proof.
  intros Hr Hok Ht Hs H. apply wp_onKv; [done..|]. eapply wp_mono; [exact H|]. intros o [e' t'] (Hv & Hst & Hp & HQ) Hal Hc. cbn [fst snd] in *.
  apply HQ; [|done..]. apply (txn_ok_map (r + 1)); try done. lia.
Qed.

Lemma insertRow_view r table d vals e t : view_ok (r + 1) (kv_map t) -> ready e t -> table_at (kv_map t) table d -> Forall any_ok vals ->
  wp (insertRow d vals) (λ o s', view_ok r (kv_map s'.2) /\ same_tables (kv_map t) (kv_map s'.2) /\ is_panic o = false) (e, t).
Proof.
  intros Hv Hr Hat Hvals. destruct (table_at_wf _ table d (rd_db _ _ Hr) Hat) as [_ Hw].
  pose proof (insertRow_step table d vals e t Hr Hat Hvals) as H1. pose proof (insertRow_wp d (cw_wf d Hw) vals e t Hvals) as H2.
  unfold wp in *. destruct (insertRow d vals (e, t)) as [o [e' t']]. cbn [fst snd] in *. destruct H1 as [_ H1].
  destruct o as [row|er|p]; [| |done].
  - destruct H1 as [Hdb (nrow & _ & Hst)]. destruct (view_ok_rows r _ _ _ _ _ Hv Hdb Hst); [intros T T'; apply spec_insert_size|]. done.
  - destruct (identity_step _ _ table d (rd_db _ _ Hr) Hat H2) as [Hdb Hst]. destruct (view_ok_rows r _ _ _ _ _ Hv Hdb Hst); [|done]. intros T T' ->. lia.
Qed.
Lemma updateRow_view r table d pkVals set e t : 0 <= r -> view_ok (r + 1) (kv_map t) -> ready (E := E) e t -> table_at (kv_map t) table d ->
  Forall any_ok pkVals -> Forall any_ok set.*2 ->
  wp (onTx (updateRow d pkVals set)) (λ o s', view_ok r (kv_map s'.2) /\ same_tables (kv_map t) (kv_map s'.2) /\ is_panic o = false) (e, t).
Proof.
  intros Hr0 Hv Hr Hat Hp Hset. destruct (table_at_wf _ table d (rd_db _ _ Hr) Hat) as [_ Hw].
  pose proof (updateRow_step table d pkVals set e t Hr Hat Hp Hset) as H1.
  pose proof (updateRow_wp d (cw_wf d Hw) pkVals set t (to_inv _ _ (db_table _ (rd_db _ _ Hr) table d Hat)) Hp Hset) as H2.
  unfold wp, onTx in *. cbn [fst snd] in *. destruct (updateRow d pkVals set t) as [o t']. cbn [fst snd] in *. destruct H1 as [_ H1].
  assert (kv_map t' = kv_map t -> view_ok r (kv_map t') /\ same_tables (kv_map t) (kv_map t')) as Hsame by (intros ->; split; [eapply view_ok_less, Hv; lia|done]).
  destruct o as [[newVals|]|er|p]; [| | |done].
  - destruct H1 as [Hdb (old & new & _ & _ & _ & Hst)]. destruct (view_ok_rows r _ _ _ _ _ Hv Hdb Hst); [|done].
    intros T T' [_ H]. by eapply spec_update_size.
  - destruct H2 as [H2 _]. by destruct (Hsame H2).
  - by destruct (Hsame H2).
Qed.
Lemma deleteRow_view r table d pkVals e t : 0 <= r -> view_ok (r + 1) (kv_map t) -> ready (E := E) e t -> table_at (kv_map t) table d -> Forall any_ok pkVals ->
  wp (onTx (deleteRow d pkVals)) (λ o s', view_ok r (kv_map s'.2) /\ same_tables (kv_map t) (kv_map s'.2) /\ is_panic o = false) (e, t).
Proof.
  intros Hr0 Hv Hr Hat Hp. destruct (table_at_wf _ table d (rd_db _ _ Hr) Hat) as [_ Hw].
  pose proof (deleteRow_step table d pkVals e t Hr Hat Hp) as H1.
  pose proof (deleteRow_wp d (cw_wf d Hw) pkVals t (to_inv _ _ (db_table _ (rd_db _ _ Hr) table d Hat)) Hp) as H2.
  unfold wp, onTx in *. cbn [fst snd] in *. destruct (deleteRow d pkVals t) as [o t']. cbn [fst snd] in *. destruct H1 as [_ H1].
  assert (kv_map t' = kv_map t -> view_ok r (kv_map t') /\ same_tables (kv_map t) (kv_map t')) as Hsame by (intros ->; split; [eapply view_ok_less, Hv; lia|done]).
  destruct o as [[]|er|p]; [| | |done].
  - destruct H1 as [Hdb (old & _ & Hst)]. destruct (view_ok_rows r _ _ _ _ _ Hv Hdb Hst); [|done].
    intros T T' [_ ->]. pose proof (map_subseteq_size _ _ (delete_subseteq T (pkOf d old))). unfold spec_delete. lia.
  - destruct H2 as [H2 _]. by destruct (Hsame H2).
  - destruct H2 as [H2 _]. by destruct (Hsame H2).
Qed.

(** A call that starts by resolving its table. *)
Lemma desc_stays {A : Type} r table (f : TableDesc -> M (E * Txn) A) e T : 0 <= r -> txn_ok (r + 1) e T ->
  (forall d e1 T1, goes (r + 1) (e, T) (e1, T1) -> xWrites T1 = xWrites T -> kv_map (xTx T1) = kv_map (xTx T) ->
    table_at (kv_map (xTx T1)) table d -> wp (f d) (stays r (e1, T1)) (e1, T1)) ->
  wp (desc ← TxnDesc table; f desc) (stays r (e, T)) (e, T).
Proof.
  intros Hr Hok Hf. apply wp_bind, (wp_TxnDesc (r + 1)); [done| |intros er s' Hg _; split; [done|]; eapply (goes_less (r + 1)); [lia|done]].
  intros d [e1 T1] Hg1 Ht1 Hw1 Hat. cbn [seqQ fst snd] in *. eapply wp_mono; [apply Hf; [done|done|by rewrite Ht1|by rewrite Ht1]|].
  intros o s2 [Hp Hg2]. split; [done|]. by eapply goes_trans.
Qed.
Lemma stays_here {A : Type} r e T (o : outcome A) : txn_ok (r + 1) e T -> is_panic o = false -> stays r (e, T) o (e, T).
Proof. intros Hok Hp. split; [done|]. apply goes_refl. eapply txn_ok_less; [|done]. lia. Qed.

(** The count goes up by one when the row write succeeds. *)
Lemma counted {A B : Type} r (m : M (E * tx) A) (f : A -> option B) (g : A -> B) e T : 0 <= r -> txn_ok (r + 1) e T -> tame m -> steady m ->
  e_maxTxnWrites e <= 0 \/ int64 (xWrites T + 1) <= e_maxTxnWrites e ->
  wp m (λ o s', view_ok r (kv_map s'.2) /\ same_tables (kv_map (xTx T)) (kv_map s'.2) /\ is_panic o = false) (e, xTx T) ->
  wp (a ← onKv m; match f a with Some b => mret b | None => _ ← countWrite; mret (g a) end) (stays r (e, T)) (e, T).
Proof.
  intros Hr Hok Ht Hs Hcap Hm. destruct (count_next r e T Hok Hr Hcap) as [Ei Hcount].
  apply wp_bind, (wp_row r); [done..|]. eapply wp_mono; [exact Hm|]. intros o [e' t'] (H1 & H2 & H3). split_and!; [done..|].
  intros [e2 T2] Hg Hw2 _. cbn [fst snd] in *. destruct o as [a|er|p]; cbn [seqQ]; [|by split|done].
  destruct (f a); [by apply wp_ret|]. apply wp_bind, wp_modify. cbn [seqQ fst snd]. apply wp_ret. split; [done|].
  rewrite Hw2, Ei. by apply (goes_count r (e, T) (e2, T2)).
Qed.

Lemma TxnInsertReturning_ok r table vals e T : 0 <= r -> txn_ok (r + 1) e T -> Forall any_ok vals ->
  wp (TxnInsertReturning table vals) (stays r (e, T)) (e, T).
Proof.
  intros Hr Hok Hv. unfold TxnInsertReturning. apply wp_bind, wp_CheckWrites; cbn [seqQ]; [|intros er; by apply stays_here]. intros Hcap.
  apply desc_stays; [done..|]. intros d e1 T1 Hg Hw Hm Hat. pose proof (go_ok _ _ _ Hg) as Hok1. pose proof (go_max _ _ _ Hg) as Hmx. cbn [fst snd] in Hok1, Hmx.
  apply (counted r _ (λ _, None) (mkRow d)); [done|done|apply tame_insertRow|apply steady_insertRow|by rewrite Hw, Hmx|].
  apply (insertRow_view r table); [apply Hok1|by eapply ready_of|done..].
Qed.
Lemma TxnUpdateReturning_ok r table pkVals set e T : 0 <= r -> txn_ok (r + 1) e T -> Forall any_ok pkVals -> Forall any_ok set.*2 ->
  wp (TxnUpdateReturning table pkVals set) (stays r (e, T)) (e, T).
Proof.
  intros Hr Hok Hp Hset. unfold TxnUpdateReturning. apply wp_bind, wp_onKv; [apply tame_memory|apply steady_memory|].
  apply wp_onE. intros o e0 Hm Hal Hc. cbn [fst snd] in *.
  assert (goes (r + 1) (e, T) (e0, T)) as Hg0.
  { destruct (txn_ok_map (r + 1) (r + 1) e e0 T (xTx T)) as [G1 G2 G3 G4]; [lia|done..|apply Hok|done|]. cbn [fst snd] in *.
    assert (x_tx (λ _, xTx T) T = T) as Ex by (by destruct T). rewrite Ex in *. by split. }
  assert (x_tx (λ _, xTx T) T = T) as Ex by (by destruct T). rewrite Ex. pose proof (go_ok _ _ _ Hg0) as Hok0. cbn [fst snd] in Hok0.
  destruct o as [[]|er|p]; [|split; [done|]; eapply (goes_less (r + 1)); [lia|done]|by apply e_memory_no_panic in Hm]. cbn [seqQ].
  apply wp_bind, wp_CheckWrites; cbn [seqQ]; [|intros er; split; [done|]; eapply (goes_less (r + 1)); [lia|done]]. intros Hcap.
  eapply wp_mono; [apply desc_stays; [done..|]|intros o s2 [H1 H2]; split; [done|by eapply goes_trans]].
  intros d e1 T1 Hg Hw Hmap Hat. pose proof (go_ok _ _ _ Hg) as Hok1. pose proof (go_max _ _ _ Hg) as Hmx. cbn [fst snd] in Hok1, Hmx.
  eapply wp_mono; [|intros o s' H; exact H].
  assert (wp (a ← onKv (onTx (updateRow d pkVals set)); match (match a with None => Some None | Some _ => None end) with
    | Some b => mret b | None => _ ← countWrite; mret (mkRow d <$> a) end) (stays r (e1, T1)) (e1, T1)) as H.
  { apply counted; [done|done|apply tame_of_tx, tame_updateRow|apply steady_onTx|by rewrite Hw, Hmx|].
    apply (updateRow_view r table); [done|apply Hok1|by eapply ready_of|done..]. }
  unfold wp in *. unfold mbind, M_bind in *. destruct (onKv (onTx (updateRow d pkVals set)) (e1, T1)) as [[[newVals|]|er|p] s']; exact H.
Qed.
Lemma TxnDelete_ok r table pkVals e T : 0 <= r -> txn_ok (r + 1) e T -> Forall any_ok pkVals ->
  wp (TxnDelete table pkVals) (stays r (e, T)) (e, T).
Proof.
  intros Hr Hok Hp. apply desc_stays; [done..|]. intros d e1 T1 Hg Hw Hmap Hat. pose proof (go_ok _ _ _ Hg) as Hok1. pose proof (go_max _ _ _ Hg) as Hmx. cbn [fst snd] in Hok1, Hmx.
  apply (wp_row r); [done..|apply tame_of_tx, tame_deleteRow|apply steady_onTx|].
  eapply wp_mono; [apply (deleteRow_view r table); [done|apply Hok1|by eapply ready_of|done..]|].
  intros o s' (H1 & H2 & H3). split_and!; [done..|]. intros s2 Hg2 _ _. by split.
Qed.
Lemma TxnGet_ok r table pkVals e T : 0 <= r -> txn_ok (r + 1) e T -> Forall any_ok pkVals ->
  wp (TxnGet table pkVals) (stays r (e, T)) (e, T).
Proof.
  intros Hr Hok Hp. apply desc_stays; [done..|]. intros d e1 T1 Hg Hw Hmap Hat. pose proof (go_ok _ _ _ Hg) as Hok1. pose proof (go_max _ _ _ Hg) as Hmx. cbn [fst snd] in Hok1, Hmx.
  destruct (table_at_wf _ table d (vo_db _ _ (tk_view _ _ _ Hok1)) Hat) as [_ Hwd].
  apply wp_bind_lift. destruct (fullPKKey d pkVals) as [key|er|p] eqn:Ek; cbn [seqQ]; [|by apply stays_here|by apply (fullPKKey_no_panic d (cw_wf d Hwd)) in Ek].
  apply wp_bind, wp_modify. cbn [seqQ fst snd]. set (T2 := x_tx (kv_mark_read key) T1).
  assert (goes r (e1, T1) (e1, T2)) as Hg2.
  { apply (txn_ok_map (r + 1) r); [lia|done|done| | |]; cbn; rewrite ?kv_mark_read_map.
    - split_and!; [done|apply kv_mark_read_writable|apply kv_mark_read_saves].
    - eapply view_ok_less, Hok1. lia.
    - done. }
  apply wp_bind, wp_gets. cbn [seqQ snd]. rewrite kv_get_map. cbn [T2 x_tx xTx]. rewrite kv_mark_read_map.
  destruct (kv_map (xTx T1) !! key) as [val|] eqn:Ev; [|by apply wp_ret].
  destruct (get_stored d _ _ _ _ (to_inv _ _ (db_table _ (vo_db _ _ (tk_view _ _ _ Hok1)) table d Hat)) Hp Ek Ev) as (row & _ & _ & ->).
  by apply wp_bind_lift, wp_ret.
Qed.

(** ** Truncate *)

Lemma wp_TxnOcc Q e T : Q (Ok (e_occ e)) (e, T) -> wp (onKv (isOcc (tx := tx))) Q (e, T).
Proof. unfold wp, onKv, isOcc. cbn [fst snd]. by destruct T. Qed.
Lemma goes_dirty r s s' p : goes r s s' -> goes r s (s'.1, x_dirty p s'.2).
Proof. intros [[] H2 H3 []]. by split. Qed.

(** The table is empty, its counters are gone if asked; nothing else is. *)
Definition truncated (d : TableDesc) (restart : bool) (m m' : kvmap) : Prop := forall k,
  m' !! k = if decide (tableSpace (tID d) `prefix_of` k \/ (restart = true /\ identitySeqTablePrefix (tID d) `prefix_of` k)) then None else m !! k.

Lemma truncated_step m m' table d restart : db_inv m -> table_at m table d -> truncated d restart m m' ->
  db_inv m' /\ rows_step table d (λ _ rows, rows = ∅) m m'.
Proof.
  intros Hdb Hat Ht. destruct (table_ok_empty d m') as [H1 H2].
  { intros k Hk. rewrite Ht, decide_True; [done|by left]. }
  apply (written_step m m' table d (λ _ rows, rows = ∅)); [done|done| |done|by eauto].
  intros k K1 K2. rewrite Ht, decide_False; [done|]. by intros [?|[_ ?]].
Qed.

Lemma delete_space_truncates m d : truncated d false m (filter (λ q, outside (tableSpace (tID d)) (prefixEnd (tableSpace (tID d))) q.1) m).
Proof. intros k. rewrite lookup_filtered by apply tableSpace_interval. repeat case_decide; try done; naive_solver. Qed.
Lemma delete_counters_truncates m m1 d : truncated d false m m1 ->
  truncated d true m (filter (λ q, outside (identitySeqTablePrefix (tID d)) (prefixEnd (identitySeqTablePrefix (tID d))) q.1) m1).
Proof. intros Ht k. rewrite lookup_filtered by apply identitySeqTablePrefix_interval. rewrite Ht. repeat case_decide; try done; naive_solver. Qed.

Lemma wp_TxnTruncate r table restart Q e T : 0 <= r -> txn_ok (r + 1) e T ->
  (forall d s', goes r (e, T) s' -> table_at (kv_map (xTx T)) table d -> truncated d restart (kv_map (xTx T)) (kv_map (xTx s'.2)) -> Q (Ok tt) s') ->
  (forall er s', goes r (e, T) s' -> Q (Err er) s') -> wp (TxnTruncate table restart) Q (e, T).
Proof.
  intros Hr Hok HQ HE. apply wp_bind, (wp_TxnDesc (r + 1)); [done| |intros er s' Hg _; apply HE; eapply (goes_less (r + 1)); [lia|done]].
  intros d [e1 T1] Hg1 Ht1 _ Hat. cbn [seqQ fst snd] in *. pose proof (go_ok _ _ _ Hg1) as Hok1. cbn [fst snd] in Hok1.
  assert (forall b m', truncated d b (kv_map (xTx T1)) m' -> view_ok r m' /\ same_tables (kv_map (xTx T1)) m') as Hv.
  { intros b m' Htr. rewrite <- Ht1 in Hat. destruct (truncated_step _ _ table d b (vo_db _ _ (tk_view _ _ _ Hok1)) Hat Htr) as [Hdb Hst].
    apply (view_ok_rows r _ _ table d _ (tk_view _ _ _ Hok1) Hdb Hst). intros T0 T' ->. rewrite map_size_empty. lia. }
  cbv zeta. apply wp_bind, wp_onKv; [apply tame_of_tx, tame_tx_delete_range|apply steady_onTx|]. apply wp_onTx, wp_delete_range.
  rewrite (tk_writable _ _ _ Hok1). intros t2 H2 Hal2 Hc2. cbn [fst snd seqQ] in *. pose proof (delete_space_truncates (kv_map (xTx T1)) d) as Htr2.
  rewrite <- (writes_map _ _ _ H2) in Htr2. destruct (Hv _ _ Htr2) as [Hv2 Hs2].
  pose proof (txn_ok_map (r + 1) r e1 e1 T1 t2 ltac:(lia) Hok1 Hc2 Hal2 Hv2 Hs2) as Hg2. rewrite Ht1 in *.
  assert (goes r (e, T) (e1, x_tx (λ _, t2) T1)) as Hg02 by (by eapply goes_trans). destruct restart; [|by apply wp_ret, (HQ d)].
  pose proof (go_ok _ _ _ Hg2) as Hok2. cbn [fst snd] in Hok2. set (T2 := x_tx (λ _, t2) T1) in *.
  apply wp_bind, wp_onKv; [apply tame_of_tx, tame_tx_delete_range|apply steady_onTx|]. apply wp_onTx, wp_delete_range.
  rewrite (tk_writable _ _ _ Hok2). intros t3 H3 Hal3 Hc3. cbn [fst snd seqQ] in *. pose proof (delete_counters_truncates _ _ d Htr2) as Htr3.
  change (kv_map t2) with (kv_map (xTx T2)) in Htr3. rewrite <- (writes_map _ _ _ H3) in Htr3. destruct (Hv _ _ Htr3) as [Hv3 Hs3].
  assert (same_tables (kv_map (xTx T2)) (kv_map t3)) as Hs23 by (intros n; rewrite Hs3; symmetry; apply Hs2).
  pose proof (txn_ok_map r r e1 e1 T2 t3 ltac:(lia) Hok2 Hc3 Hal3 Hv3 Hs23) as Hg3.
  assert (goes r (e, T) (e1, x_tx (λ _, t3) T2)) as Hg03 by (by eapply goes_trans).
  apply wp_bind, wp_TxnOcc. cbn [seqQ]. destruct (e_occ e1); [|by apply wp_ret, (HQ d)]. apply wp_modify.
  apply (HQ d); [|done..]. by apply (goes_dirty r (e, T) (e1, _)).
Qed.
End keeps.
