(* ===== verification/TxnRun.v ===== *)
(** * Programs of transactions

    Savepoints and counters inside a transaction, and any [client] run over it,
    which keeps the invariant of [TxnOk.v]. *)
From S2P Require Import Prelude GoVal GoStr Tuple KV Savepoint Json Catalog Desc Rows Index Table Seq Upkeep Dml Relation Engine Store Database Ddl DdlColumn DdlTable SeqObj Schema RowStmt Txn Statements TxnOk.

Local Open Scope Z_scope.

(** ** The mirror stack *)

Section marks.
Context {sp : Type} {sp_eq : EqDecision sp}.

Lemma saveMark_from_split (l pre post : list (sp * Z)) p w n : NoDup l.*1 -> l = pre ++ (p, w) :: post ->
  (length pre < n <= length l)%nat -> saveMark_from p l n = Some (length pre).
Proof.
  intros Hnd Hl. induction n as [|n IH]; [lia|]. intros Hn. cbn [saveMark_from]. case_bool_decide as E.
  - f_equal. assert (l.*1 !! n = Some p) as E1 by (by rewrite list_lookup_fmap).
    assert (l.*1 !! length pre = Some p) as E2 by (subst l; rewrite fmap_app, lookup_app_r, length_fmap, Nat.sub_diag; [done|rewrite length_fmap; lia]).
    exact (NoDup_lookup _ _ _ _ Hnd E1 E2).
  - apply IH. destruct (decide (n = length pre)) as [->|]; [|lia]. destruct E. subst l. by rewrite lookup_app_r, Nat.sub_diag.
Qed.
Lemma saveMark_split (pre post : list (sp * Z)) p w : NoDup (pre ++ (p, w) :: post).*1 ->
  saveMark p (pre ++ (p, w) :: post) = Some (length pre).
Proof. intros Hnd. eapply saveMark_from_split; [done..|]. rewrite length_app. cbn. lia. Qed.

(** A stack of the same handles splits in the same place. *)
Lemma mirror_split {A : Type} (l : list (sp * Z)) (pre post : list (sp * A)) p a : l.*1 = (pre ++ (p, a) :: post).*1 ->
  exists pre' w post', l = pre' ++ (p, w) :: post' /\ pre'.*1 = pre.*1.
Proof.
  rewrite fmap_app. intros H. apply fmap_app_inv in H as (pre' & l2 & H1 & H2 & ->). destruct l2 as [|[q w] post']; [done|].
  cbn in H2. injection H2 as -> _. by exists pre', w, post'.
Qed.
End marks.

(** ** Counters and sequence objects *)

Lemma seqName_space name : tableSpace sysSeqTableID `prefix_of` seqNameKey name.
Proof. rewrite seqNameKey_elems, tableSpace_elems. exists (elems [kint 1; AString name]). by rewrite <- elems_app. Qed.
Lemma seqName_not_record name : ~ record_key (seqNameKey name).
Proof.
  intros [[r E]|H]; [|by apply (space_other sysSeqTableID sysViewTableID (seqNameKey name)); try done; apply seqName_space].
  rewrite seqNameKey_elems, sqlSeqPrefix_elems in E. change [kint 2; kint 1; AString name] with ([kint 2; kint 1] ++ [AString name]) in E.
  rewrite elems_app in E. apply elems_app_inj in E as [E _]; [done|done|repeat constructor; unfold int64_ok; cbn; lia..].
Qed.

(** A record of the sequence space that is no table's. *)
Lemma one_key m m' key : db_inv m -> tableSpace sysSeqTableID `prefix_of` key -> (forall k, k <> key -> m' !! k = m !! k) ->
  db_inv m' /\ one_record key m m'.
Proof.
  intros Hdb Hkey Hk. assert (key <> seqKey) as Hne.
  { intros ->. by apply (space_other sysSeqTableID sysIDSeqTableID seqKey); try done; apply seqKey_space. }
  destruct (db_inv_sys m m' Hdb) as (H1 & H2 & H3).
  - intros k Hp. apply Hk. intros ->. by apply descTablePrefix_space, desc_not_seq in Hp.
  - intros id k Hid Hp. apply Hk. intros ->. by eapply (user_not_sys id sysSeqTableID key).
  - destruct (db_next m Hdb) as (next & Hp & _). exists next, next. unfold position in *. rewrite Hk by done. done.
  - split; [done|]. split_and!; [done..|]. intros k _. apply Hk.
Qed.
Lemma one_record_tables key m m' : db_inv m -> db_inv m' -> one_record key m m' -> same_tables m m'.
Proof. intros H1 H2 (H3 & _). by apply same_tables_at. Qed.

Lemma view_ok_named r m m' name : view_ok (r + 1) m -> (forall k, k <> seqNameKey name -> m' !! k = m !! k) ->
  view_ok r m' /\ same_tables m m'.
Proof.
  intros [H1 H2 H3] Hk. destruct (one_key m m' (seqNameKey name) H1 (seqName_space name) Hk) as [Hdb Hone].
  split; [|by apply (one_record_tables (seqNameKey name))]. split; [done| |by apply (room_record r (seqNameKey name) m)].
  apply (schema_tables m); [done|by apply (fks_record (seqNameKey name) m); [apply H2|]| |].
  - intros k Hr. apply Hk. intros ->. by apply seqName_not_record in Hr.
  - intros n d Hat%(proj1 Hone). by apply (so_tables m H2 n d).
Qed.
Lemma view_ok_seqobj r m m' name d d' : view_ok (r + 1) m -> seq_at m name d -> (forall k, k <> sqlSeqKey name -> m' !! k = m !! k) ->
  seq_at m' name d' -> checkSeqDesc d' = Ok tt -> view_ok r m' /\ same_tables m m'.
Proof.
  intros [H1 H2 H3] Hd Hk Hd' Hck. destruct (one_key m m' (sqlSeqKey name) H1) as [Hdb Hone]; [|done|].
  { apply seqPrefix_space. rewrite sqlSeqKey_elems, sqlSeqPrefix_elems. exists (elems [AString name]). by rewrite <- elems_app. }
  split; [|by apply (one_record_tables (sqlSeqKey name))]. split; [done| |by apply (room_record r (sqlSeqKey name) m)].
  apply (schema_sequence m m' name); [done..|]. intros raw _. split; [by exists d'|by eapply named_sequence].
Qed.

Section run.
Context {E : Type} {eng : EngineOps E} {eng_laws : EngineLaws E} {cs : CatState E} {cat_laws : CatLaws E} {te : TxnEngine E} {te_laws : TxnEngineLaws E}.
Context {tx sp : Type} {kv : KV tx} {kv_laws : KVLaws tx} {sv : KVSave tx sp} {sv_laws : KVSaveLaws tx sp} {sp_eq : EqDecision sp}.
Abbreviation Txn := (Txn tx sp).
Implicit Types T : Txn.

Lemma wp_kv {A : Type} (m : M tx A) (Q : outcome A -> E * Txn -> Prop) e T :
  wp m (λ o t', Q o (e, x_tx (λ _, t') T)) (xTx T) -> wp (onKv (onTx m)) Q (e, T).
Proof. unfold wp, onKv, onTx. cbn [fst snd]. by destruct (m (xTx T)) as [o t']. Qed.
Lemma x_tx_id T : x_tx (λ _, xTx T) T = T.
Proof. by destruct T. Qed.

Lemma TxnSavepoint_wp r e T : 0 <= r -> txn_ok (r + 1) e T ->
  wp TxnSavepoint (λ o s', stays r (e, T) o s' /\ forall p, o = Ok p -> p ∈ kv_issued (xTx s'.2) /\
    (p, kv_map (xTx T)) ∈ kv_saves (xTx s'.2) /\ (p, xWrites T) ∈ xSaves s'.2 /\ kv_map (xTx s'.2) = kv_map (xTx T)) (e, T).
Proof.
  intros Hr Hok. pose proof (txn_ok_less (r + 1) r e T ltac:(lia) Hok) as Hok'. unfold TxnSavepoint. apply wp_bind, wp_kv. unfold wp.
  pose proof (kv_savepoint_saves (xTx T)) as H. destruct (kv_savepoint (xTx T)) as [[p|er|pn] t']; cbn [fst snd seqQ]; [| |done].
  2:{ subst t'. rewrite x_tx_id. split; [by apply stays_here|done]. }
  destruct H as (Hfr & His & Hsv & Hm & Hw). unfold mbind, M_bind, onX, modify, mret, M_ret. cbn [fst snd x_tx x_saves xSaves xWrites xTx].
  destruct Hok' as [H1 H2 H3 H4 H5 H6 H7 H8 H9 H10]. split.
  - split; [done|]. split; cbn [fst snd]; [|done|done|].
    + split; cbn [x_saves x_tx xTx xDescs xSaves xWrites]; rewrite ?Hm, ?Hsv, ?His, ?Hw, ?fmap_app; try done.
      * intros q m [Hq|Hq]%elem_of_app; [by apply H5 in Hq|]. apply list_elem_of_singleton in Hq as [= -> ->]. done.
      * cbn. by rewrite H6.
      * apply NoDup_app. split_and!; [done| |apply NoDup_singleton]. cbn. intros q Hq ->%list_elem_of_singleton. by apply Hfr, H8.
      * cbn. intros q [Hq|Hq]%elem_of_app; [right; by apply H8|]. apply list_elem_of_singleton in Hq as ->. left.
      * intros q w [Hq|Hq]%elem_of_app; [by apply (H10 q)|]. apply list_elem_of_singleton in Hq as [= -> ->]. done.
    + split; cbn [x_saves x_tx xTx xSaves]; rewrite ?Hsv, ?His.
      * intros q Hq. by right.
      * intros q m Hq [Hin|Hin]%elem_of_app; [done|]. apply list_elem_of_singleton in Hin as [= -> ->]. done.
      * intros q w Hq [Hin|Hin]%elem_of_app; [done|]. apply list_elem_of_singleton in Hin as [= -> ->]. done.
  - intros q [= <-]. cbn. rewrite Hsv, His, Hm. split_and!; [left|apply elem_of_app; right; by left|apply elem_of_app; right; by left|done].
Qed.

(** Both stacks cut at the mark. *)
Lemma cut_ok r e T t' pre p m post preX w : txn_ok r e T -> kv_saves (xTx T) = pre ++ (p, m) :: post ->
  (exists postX, xSaves T = preX ++ (p, w) :: postX) -> preX.*1 = pre.*1 -> kv_issued t' = kv_issued (xTx T) -> kv_writable t' = kv_writable (xTx T) ->
  forall l lX w', (l = pre /\ lX = preX) \/ (l = pre ++ [(p, m)] /\ lX = preX ++ [(p, w)]) ->
  kv_saves t' = l -> (kv_map t' = kv_map (xTx T) /\ w' = xWrites T) \/ (kv_map t' = m /\ w' = w) ->
  goes r (e, T) (e, x_saves lX (x_writes w' (x_tx (λ _, t') T))).
Proof.
  intros Hok Hsv (postX & HsX) Hpre His Hw l lX w' Hl Hsv' Hmap. destruct Hok as [H1 H2 H3 H4 H5 H6 H7 H8 H9 H10].
  assert ((p, m) ∈ kv_saves (xTx T)) as Hpm by (rewrite Hsv; apply elem_of_app; right; left).
  assert ((p, w) ∈ xSaves T) as Hpw by (rewrite HsX; apply elem_of_app; right; left).
  assert (l `prefix_of` kv_saves (xTx T)) as Hp1 by (rewrite Hsv; destruct Hl as [[-> _]|[-> _]]; [by eexists|exists post; by rewrite <- app_assoc]).
  assert (lX `prefix_of` xSaves T) as Hp2 by (rewrite HsX; destruct Hl as [[_ ->]|[_ ->]]; [by eexists|exists postX; by rewrite <- app_assoc]).
  assert (same_tables (kv_map (xTx T)) (kv_map t') /\ view_ok r (kv_map t')) as [Hst Hv] by (destruct Hmap as [[-> _]|[-> _]]; [done|by destruct (H5 p m Hpm)]).
  assert (forall x, x ∈ l -> x ∈ kv_saves (xTx T)) as Hin by (destruct Hp1 as [k ->]; intros; apply elem_of_app; by left).
  assert (forall x, x ∈ lX -> x ∈ xSaves T) as HinX by (destruct Hp2 as [k ->]; intros; apply elem_of_app; by left).
  split; cbn [fst snd]; [|done|done|split; cbn [x_saves x_writes x_tx xTx xSaves]; rewrite ?His, ?Hsv'; auto].
  split; cbn [x_saves x_writes x_tx xTx xDescs xSaves xWrites]; rewrite ?Hsv', ?His; try done.
  - congruence.
  - intros n d Hn. rewrite Hst. by apply H4.
  - intros q m0 Hq%Hin. destruct (H5 q m0 Hq) as [Hvo Hsame]. split; [done|]. intros n. by rewrite Hsame, Hst.
  - destruct Hl as [[-> ->]|[-> ->]]; [done|]. rewrite !fmap_app. cbn. by rewrite Hpre.
  - destruct Hp1 as [k Hk]. rewrite Hk, fmap_app in H7. by apply NoDup_app in H7 as (? & _).
  - intros q (x & -> & Hx%Hin)%list_elem_of_fmap. apply H8. apply list_elem_of_fmap. eauto.
  - destruct Hmap as [[_ ->]|[_ ->]]; [done|by apply (H10 p)].
  - intros q w0 Hq%HinX. by apply (H10 q).
Qed.

Lemma TxnRollbackTo_wp r p e T : 0 <= r -> txn_ok (r + 1) e T ->
  wp (TxnRollbackTo p) (λ o s', stays r (e, T) o s' /\ (is_ok o = true -> exists m w, (p, m) ∈ kv_saves (xTx T) /\ (p, w) ∈ xSaves T /\
    kv_map (xTx s'.2) = m /\ xWrites s'.2 = w)) (e, T).
Proof.
  intros Hr Hok. pose proof (txn_ok_less (r + 1) r e T ltac:(lia) Hok) as Hok'. unfold TxnRollbackTo. apply wp_bind, wp_kv. unfold wp.
  pose proof (kv_rollback_to_saves p (xTx T)) as H. destruct (kv_rollback_to p (xTx T)) as [[[]|er|pn] t']; cbn [fst snd seqQ]; [| |done].
  2:{ subst t'. rewrite x_tx_id. split; [by apply stays_here|done]. }
  destruct H as (pre & m & post & Hsv & Hsv' & His & Hm & Hw). pose proof (tk_mirror _ _ _ Hok') as Hmir. rewrite Hsv in Hmir.
  destruct (mirror_split _ _ _ _ _ Hmir) as (preX & w & postX & HsX & Hpre). unfold wp, onX, modify. cbn [fst snd x_tx xSaves].
  pose proof (tk_nodup _ _ _ Hok') as Hnd. rewrite <- (tk_mirror _ _ _ Hok'), HsX in Hnd. rewrite HsX, (saveMark_split preX postX p w Hnd).
  rewrite (cons_middle (p, w)), app_assoc, take_app_length' by (rewrite length_app; cbn; lia).
  rewrite <- app_assoc, lookup_app_r, Nat.sub_diag by lia. cbn [app lookup list_lookup fmap option_fmap option_map default snd].
  assert (goes r (e, T) (e, x_saves (preX ++ [(p, w)]) (x_writes w (x_tx (λ _, t') T)))) as Hg.
  { eapply (cut_ok r e T t' pre p m post preX w); try done; [by exists postX|by right|by right]. }
  split; [by split|]. intros _. exists m, w. cbn. split_and!; [rewrite Hsv; apply elem_of_app; right; left|rewrite ?HsX; apply elem_of_app; right; left|done..].
Qed.
Lemma TxnRelease_ok r p e T : 0 <= r -> txn_ok (r + 1) e T -> wp (TxnRelease p) (stays r (e, T)) (e, T).
Proof.
  intros Hr Hok. pose proof (txn_ok_less (r + 1) r e T ltac:(lia) Hok) as Hok'. unfold TxnRelease. apply wp_bind, wp_kv. unfold wp.
  pose proof (kv_release_saves p (xTx T)) as H. destruct (kv_release p (xTx T)) as [[[]|er|pn] t']; cbn [fst snd seqQ]; [| |done].
  2:{ subst t'. rewrite x_tx_id. by apply stays_here. }
  destruct H as (pre & m & post & Hsv & Hsv' & His & Hm & Hw). pose proof (tk_mirror _ _ _ Hok') as Hmir. rewrite Hsv in Hmir.
  destruct (mirror_split _ _ _ _ _ Hmir) as (preX & w & postX & HsX & Hpre). unfold wp, onX, modify. cbn [fst snd x_tx xSaves].
  pose proof (tk_nodup _ _ _ Hok') as Hnd. rewrite <- (tk_mirror _ _ _ Hok'), HsX in Hnd. rewrite HsX, (saveMark_split preX postX p w Hnd).
  rewrite take_app_length' by done.
  assert (goes r (e, T) (e, x_saves preX (x_writes (xWrites T) (x_tx (λ _, t') T)))) as Hg.
  { eapply (cut_ok r e T t' pre p m post preX w); try done; [by exists postX|by left|by left]. }
  by split.
Qed.

Lemma seq_absent name (t : tx) : kv_map t !! sqlSeqKey name = None \/ name = [] -> exists er, seqDescIn name t = (Err er, t).
Proof.
  intros H. unfold seqDescIn, mbind, M_bind, lift, gets, fail, checkSeqName. destruct (decide (name = [])) as [|Hne]; [by eexists|].
  destruct H as [H|H]; [|done]. rewrite kv_get_map, H. by eexists.
Qed.
Lemma seq_present r name (t : tx) : view_ok r (kv_map t) -> (exists er, seqDescIn name t = (Err er, t)) \/ exists d, seq_at (kv_map t) name d /\ checkSeqDesc d = Ok tt.
Proof.
  intros Hv. destruct (decide (name = [])) as [->|Hne]; [left; apply seq_absent; auto|].
  destruct (kv_map t !! sqlSeqKey name) as [raw|] eqn:Er; [|left; apply seq_absent; auto]. right. by apply (so_seqs _ (vo_schema _ _ Hv) name raw).
Qed.
Lemma NextVal_view r name (t : tx) : 0 <= r -> view_ok (r + 1) (kv_map t) -> kv_writable t = true ->
  wp (NextVal name) (λ o t', view_ok r (kv_map t') /\ same_tables (kv_map t) (kv_map t') /\ is_panic o = false) t.
Proof.
  intros Hr Hv Hw. assert (view_ok r (kv_map t)) as Hv' by (eapply view_ok_less; [|done]; lia).
  destruct (seq_present (r + 1) name t Hv) as [[er He]|(d & Hs & Hck)].
  { unfold wp, NextVal, mbind, M_bind. rewrite He. done. }
  eapply wp_mono; [by apply (NextVal_wp name d)|]. intros o t' [_ H]. destruct (stepSeq d name) as [[v d']|er|p] eqn:Est; [| |done].
  - destruct H as (-> & Hm & Hs'). destruct (stepSeq_range d name v d' (sa_range _ _ _ Hs) Est) as [_ ->].
    edestruct (view_ok_seqobj r (kv_map t) (kv_map t') name d) as [? ?]; [done|done| |exact Hs'| |done].
    + intros k Hk. rewrite Hm. by apply lookup_insert_ne.
    + apply checkSeqDesc_ok in Hck. by apply checkSeqDesc_ok.
  - destruct H as [-> ->]. done.
Qed.
Lemma SetVal_view r name v called (t : tx) : 0 <= r -> view_ok (r + 1) (kv_map t) -> kv_writable t = true -> int64_ok v ->
  wp (SetVal name v called) (λ o t', view_ok r (kv_map t') /\ same_tables (kv_map t) (kv_map t') /\ is_panic o = false) t.
Proof.
  intros Hr Hv Hw Hi. assert (view_ok r (kv_map t)) as Hv' by (eapply view_ok_less; [|done]; lia).
  destruct (seq_present (r + 1) name t Hv) as [[er He]|(d & Hs & Hck)].
  { unfold wp, SetVal, mbind, M_bind. rewrite He. done. }
  unfold SetVal. apply wp_bind, (wp_seqDescIn name d); [done|]. cbn [seqQ]. destruct (_ || _); [by apply wp_fail|].
  apply (wp_writeSeqDescIn _ name); try done; [destruct (sa_range _ _ _ Hs); by split|apply Hs..|]. intros t' Ht Hs'.
  edestruct (view_ok_seqobj r (kv_map t) (kv_map t') name d) as [? ?]; [done|done| |exact Hs'| |done].
  - intros k Hk. rewrite (writes_map _ _ _ Ht). by apply lookup_insert_ne.
  - apply checkSeqDesc_ok in Hck. by apply checkSeqDesc_ok.
Qed.
Lemma named_view {A : Type} r name (m : M tx A) (t : tx) : 0 <= r -> view_ok (r + 1) (kv_map t) ->
  wp m (λ o t', is_panic o = false /\ forall k, k <> seqNameKey name -> kv_map t' !! k = kv_map t !! k) t ->
  wp m (λ o t', view_ok r (kv_map t') /\ same_tables (kv_map t) (kv_map t') /\ is_panic o = false) t.
Proof.
  intros Hr Hv H. eapply wp_mono; [exact H|]. intros o t' [Hp Hk]. by destruct (view_ok_named r _ _ name Hv Hk).
Qed.
Lemma nextSeqIn_view r name (t : tx) : 0 <= r -> view_ok (r + 1) (kv_map t) -> kv_writable t = true ->
  wp (nextSeqIn name) (λ o t', view_ok r (kv_map t') /\ same_tables (kv_map t) (kv_map t') /\ is_panic o = false) t.
Proof.
  intros Hr Hv Hw. apply (named_view r name); [done..|]. unfold nextSeqIn, checkSeqName. apply wp_bind_lift. case_decide; [done|]. cbn [seqQ].
  eapply wp_mono; [apply wp_nextFromCounter|]. intros [v|er|p] t'; [| |done].
  - intros (_ & _ & _ & Hws). split; [done|]. intros k Hk. rewrite (writes_map _ _ _ Hws). by apply lookup_insert_ne.
  - by intros ->.
Qed.
Lemma setSeqIn_view r name next (t : tx) : 0 <= r -> view_ok (r + 1) (kv_map t) -> kv_writable t = true ->
  wp (setSeqIn name next) (λ o t', view_ok r (kv_map t') /\ same_tables (kv_map t) (kv_map t') /\ is_panic o = false) t.
Proof.
  intros Hr Hv Hw. apply (named_view r name); [done..|]. unfold setSeqIn, checkSeqName. apply wp_bind_lift. case_decide; [done|]. cbn [seqQ].
  apply wp_set. rewrite Hw. intros t' Ht. split; [done|]. intros k Hk. rewrite (writes_map _ _ _ Ht). by apply lookup_insert_ne.
Qed.
Lemma deleteSeqIn_view r name (t : tx) : 0 <= r -> view_ok (r + 1) (kv_map t) -> kv_writable t = true ->
  wp (deleteSeqIn name) (λ o t', view_ok r (kv_map t') /\ same_tables (kv_map t) (kv_map t') /\ is_panic o = false) t.
Proof.
  intros Hr Hv Hw. apply (named_view r name); [done..|]. unfold deleteSeqIn, checkSeqName. apply wp_bind_lift. case_decide; [done|]. cbn [seqQ].
  apply wp_delete. rewrite Hw. intros t' Ht. split; [done|]. intros k Hk. rewrite (writes_map _ _ _ Ht). by apply lookup_delete_ne.
Qed.

(** ** Any call, any client *)

(** Integers are in their Go types' ranges. *)
Definition op_ok (op : txop sp) : Prop :=
  match op with
  | TInsert _ vals => Forall any_ok vals
  | TUpdate _ pkVals set => Forall any_ok pkVals /\ Forall any_ok set.*2
  | TDelete _ pkVals | TGet _ pkVals => Forall any_ok pkVals
  | TSetVal _ v _ => int64_ok v
  | _ => True
  end.

Lemma stays_then {A B : Type} r (h : M (E * Txn) A) (f : A -> B) s : wp h (stays r s) s -> wp (a ← h; mret (f a)) (stays r s) s.
Proof. intros H. apply wp_bind. eapply wp_mono; [exact H|]. intros [a|er|p] s' [H1 H2]; done. Qed.
Lemma kv_stays {A : Type} r (m : M tx A) e T : 0 <= r -> txn_ok (r + 1) e T -> tame_tx m ->
  wp m (λ o t', view_ok r (kv_map t') /\ same_tables (kv_map (xTx T)) (kv_map t') /\ is_panic o = false) (xTx T) ->
  wp (onKv (onTx m)) (stays r (e, T)) (e, T).
Proof.
  intros Hr Hok Ht Hm. apply (wp_row r); [done..|by apply tame_of_tx|apply steady_onTx|]. apply wp_onTx. eapply wp_mono; [exact Hm|].
  intros o t' (H1 & H2 & H3). split_and!; [done..|]. intros s2 Hg _ _. by split.
Qed.

Lemma identityCol_ok d table column : match identityCol d table column with
  | Ok c => exists ord, tColumns d !! ord = Some c | Err _ => True | Panic _ => False end.
Proof.
  unfold identityCol. destruct (ColIndex d column) as [ord|] eqn:Ei; [|done]. apply ColIndex_column in Ei as (c & Hc & _).
  unfold at_index. rewrite Hc. cbn. destruct (colIdentity c); [by exists ord|done].
Qed.

Lemma TxnRestartIdentity_ok r table column next e T : 0 <= r -> txn_ok (r + 1) e T ->
  wp (TxnRestartIdentity table column next) (stays r (e, T)) (e, T).
Proof.
  intros Hr Hok. apply desc_stays; [done..|]. intros d e1 T1 Hg Hw Hmap Hat. pose proof (go_ok _ _ _ Hg) as Hok1. cbn [fst snd] in Hok1.
  apply wp_bind_lift. pose proof (identityCol_ok d table column) as Hc. destruct (identityCol d table column) as [c|er|p]; cbn [seqQ]; [|by apply stays_here|done].
  destruct Hc as [ord Hc]. destruct (next <? 1); [by apply wp_fail, stays_here|]. cbv zeta.
  destruct (table_at_wf _ table d (vo_db _ _ (tk_view _ _ _ Hok1)) Hat) as [_ Hwd].
  apply wp_bind. eapply wp_mono.
  { apply (kv_stays r); [done|done|apply tame_tx_set|]. apply wp_set. rewrite (tk_writable _ _ _ Hok1). intros t' Ht.
    assert (identity_only d (kv_map (xTx T1)) (kv_map t')) as Hid.
    { rewrite (writes_map _ _ _ Ht). apply identity_only_insert. eapply (Forall_lookup_1 _ _ _ _ (wf_colID_range _ (cw_wf _ Hwd))), Hc. }
    destruct (identity_step _ _ table d (vo_db _ _ (tk_view _ _ _ Hok1)) Hat Hid) as [Hdb Hst].
    destruct (view_ok_rows r _ _ _ _ _ (tk_view _ _ _ Hok1) Hdb Hst); [|done]. intros ? ? ->. lia. }
  intros [[]|er|p] [e2 T2] [Hp Hg2]; cbn [seqQ]; [|by split|done]. apply wp_bind, wp_TxnOcc. cbn [seqQ].
  destruct (e_occ e2); [|by apply wp_ret]. apply wp_modify. split; [done|]. by apply (goes_dirty r (e1, T1) (e2, T2)).
Qed.
Lemma TxnPeekIdentity_ok r table column e T : 0 <= r -> txn_ok (r + 1) e T ->
  wp (TxnPeekIdentity table column) (stays r (e, T)) (e, T).
Proof.
  intros Hr Hok. apply desc_stays; [done..|]. intros d e1 T1 Hg Hw Hmap Hat. pose proof (go_ok _ _ _ Hg) as Hok1. cbn [fst snd] in Hok1.
  apply wp_bind_lift. pose proof (identityCol_ok d table column) as Hc. destruct (identityCol d table column) as [c|er|p]; cbn [seqQ]; [|by apply stays_here|done].
  apply wp_bind, wp_gets. cbn [seqQ snd]. destruct (kv_get _ _) as [raw|]; [|by apply wp_ret, stays_here].
  apply wp_bind_lift. unfold readCounter. destruct (decide _); cbn [seqQ]; [by apply stays_here|by apply wp_ret, stays_here].
Qed.

Lemma exec_op_ok r op e T : 0 <= r -> txn_ok (r + 1) e T -> op_ok op -> wp (exec_op op) (stays r (e, T)) (e, T).
Proof.
  intros Hr Hok Hop. pose proof (tk_view _ _ _ Hok) as Hv. pose proof (tk_writable _ _ _ Hok) as Hw.
  destruct op; cbn [exec_op op_ok] in *; try apply stays_then.
  - by apply TxnInsertReturning_ok.
  - destruct Hop. by apply TxnUpdateReturning_ok.
  - by apply TxnDelete_ok.
  - by apply TxnGet_ok.
  - apply wp_TxnTruncate with (r := r); [done|done|by intros d s' Hg _ _; split|by intros er s' Hg; split].
  - eapply wp_mono; [by apply TxnSavepoint_wp|]. by intros o s' [H _].
  - eapply wp_mono; [by apply TxnRollbackTo_wp|]. by intros o s' [H _].
  - by apply TxnRelease_ok.
  - by apply TxnRestartIdentity_ok.
  - by apply TxnPeekIdentity_ok.
  - apply kv_stays; [done|done|apply tame_NextVal|by apply NextVal_view].
  - apply kv_stays; [done|done|apply tame_SetVal|by apply SetVal_view].
  - apply kv_stays; [done|done|apply tame_nextSeqIn|by apply nextSeqIn_view].
  - apply kv_stays; [done|done|apply tame_setSeqIn|by apply setSeqIn_view].
  - unfold wp. cbn [fst snd]. apply stays_here; [done|]. unfold peekSeqIn, checkSeqName. case_decide; [done|]. cbn.
    destruct (kv_get _ _); [|done]. unfold readCounter. by case_decide.
  - apply kv_stays; [done|done|apply tame_deleteSeqIn|by apply deleteSeqIn_view].
  - apply wp_CheckWrites; [intros _; by apply stays_here|intros er; by apply stays_here].
Qed.

Fixpoint client_ok {n : nat} (c : client sp n) : Prop :=
  match c with CReturn _ => True | CCall op next => op_ok op /\ forall o, client_ok (next o) end.

Lemma run_client_ok n (c : client sp n) r e T : 0 <= r -> txn_ok (r + Z.of_nat n) e T -> client_ok c ->
  wp (run_client c) (λ _ s', goes r (e, T) s') (e, T).
Proof.
  intros Hr. revert e T. induction c as [n o|n op next IH]; intros e T Hok Hc; unfold wp; cbn [run_client fst snd].
  - apply goes_refl. eapply txn_ok_less; [|done]. lia.
  - destruct Hc as [Hop Hc]. assert (r + Z.of_nat (S n) = r + Z.of_nat n + 1) as En by lia. rewrite En in Hok.
    pose proof (exec_op_ok (r + Z.of_nat n) op e T ltac:(lia) Hok Hop) as H. unfold wp in H. destruct (exec_op op (e, T)) as [o [e1 T1]]. cbn [fst snd] in H.
    destruct H as [Hp Hg]. pose proof (go_ok _ _ _ Hg) as Hok1. cbn [fst snd] in Hok1.
    specialize (IH o e1 T1 Hok1 (Hc o)). unfold wp in IH.
    destruct o as [a|er|p]; [|..|done]; (eapply goes_trans; [exact Hg|exact IH]).
Qed.
End run.
