(* ===== verification/Run.v ===== *)
(** * Statements run one after another

    Each statement through its handler: the checks before its transaction,
    the transaction with its retries, and what the handler tells the engine
    afterwards. Whatever the outcome, the database the statement leaves is
    [sound], and so a run of statements never panics and never leaves a
    store the next one cannot read. *)
From S2P Require Import Prelude GoVal GoStr Tuple KV Json Catalog Desc Rows Default Index Table Seq Upkeep Dml Relation Engine Store Database Ddl DdlColumn DdlAddDrop DdlTable SeqObj View DdlIndex Fk Alter Schema RowStmt Handler Statements MemDB.

Local Open Scope Z_scope.

(** ** The statements of the engine *)

Inductive stmt : Type :=
  | SCreateTable (name : bytes) (cols : list Column) (checks : list CheckDesc) (pk : list bytes)
  | SDropTable (name : bytes)
  | SRenameTable (oldName newName : bytes)
  | SAddColumn (table : bytes) (col : Column) (now : Z)
  | SDropColumn (table name : bytes)
  | SRenameColumn (table oldName newName : bytes)
  | SSetDefault (table column literal : bytes) (now : Z)
  | SDropDefault (table column : bytes)
  | SSetNotNull (table column : bytes)
  | SDropNotNull (table column : bytes)
  | SAddCheck (table : bytes) (ck : CheckDesc) (validate : option (Row -> outcome unit))
  | SDropCheck (table name : bytes)
  | SCreateIndex (table name : bytes) (unique : bool) (cols : list IndexCol)
  | SDropIndex (table name : bytes)
  | SAddForeignKey (table : bytes) (fk : FKDesc) (validate : bool)
  | SDropForeignKey (table name : bytes)
  | SAlterType (table column : bytes) (ch : ColumnTypeChange) (now now' : Z)
  | SSetPrimaryKey (table : bytes) (cols : list bytes)
  | SCreateSequence (d : SeqDesc)
  | SDropSequence (name : bytes)
  | SAlterSequence (name : bytes) (o : SeqOptions)
  | SCreateView (name query : bytes) (orReplace : bool)
  | SDropView (name : bytes)
  | SInsert (table : bytes) (vals : list any)
  | SInsertReturning (table : bytes) (vals : list any)
  | SUpdate (table : bytes) (pkVals : list any) (set : list (bytes * any))
  | SDelete (table : bytes) (pkVals : list any).

(** Text is valid UTF-8, integers are in their Go types' ranges, callbacks
    return, and tables start with fewer than 2^31 columns. *)
Definition stmt_ok (occ : bool) (st : stmt) : Prop :=
  match st with
  | SCreateTable name cols checks _ => clean name = name /\ Forall (λ c, int64_ok (colMaxLen c) /\ cleanColumn c = c) cols /\
      Forall (λ c, cleanCheck c = c) checks /\ Z.of_nat (length cols) + 1 < 2 ^ 31
  | SRenameTable _ newName | SRenameColumn _ _ newName => clean newName = newName
  | SAddColumn _ col _ => int64_ok (colMaxLen col) /\ cleanColumn col = col
  | SSetDefault _ _ literal _ => clean literal = literal
  | SAddCheck _ ck validate => cleanCheck ck = ck /\ forall f r p, validate = Some f -> f r <> Panic p
  | SCreateIndex _ name _ _ => clean name = name
  | SAddForeignKey _ fk _ => cleanFK fk = fk
  | SAlterType _ _ ch now now' => change_ok ch /\
      forall c text, cleanColumn c = c -> maxlen_ok c -> castDefault c (col_type (chType ch) (chMaxLen ch) c) now now' = Ok text -> clean text = text
  | SCreateSequence d => seq_utf8 d /\ seq_range (sq_at (sqStart d) false (sq_id 0 d))
  | SAlterSequence _ o => opts_ok o
  | SCreateView name query _ => clean name = name /\ clean query = query
  | SInsert _ vals | SInsertReturning _ vals => occ = false /\ Forall any_ok vals
  | SUpdate _ pkVals set => occ = false /\ Forall any_ok pkVals /\ Forall any_ok set.*2
  | SDelete _ pkVals => occ = false /\ Forall any_ok pkVals
  | _ => True
  end.

Section exec.
Context {E S tx : Type} {eng : EngineOps E} {cs : CatState E} {grd : Guarded E} {al : Allocators E} {kv : KV tx} {db : DB E S tx}.

Definition discard {A : Type} (h : M (E * S) A) : M (E * S) unit := _ ← h; mret ().
Definition exec (st : stmt) : M (E * S) unit :=
  match st with
  | SCreateTable name cols checks pk => discard (CreateTableWithChecks name cols checks pk)
  | SDropTable name => DropTable name
  | SRenameTable oldName newName => RenameTable oldName newName
  | SAddColumn table col now => AddColumn table col now
  | SDropColumn table name => DropColumn table name
  | SRenameColumn table oldName newName => RenameColumn table oldName newName
  | SSetDefault table column literal now => SetColumnDefault table column literal now
  | SDropDefault table column => DropColumnDefault table column
  | SSetNotNull table column => SetColumnNotNull table column
  | SDropNotNull table column => DropColumnNotNull table column
  | SAddCheck table ck validate => AddCheck table ck validate
  | SDropCheck table name => discard (DropCheck table name)
  | SCreateIndex table name unique cols => discard (CreateIndexCols table name unique cols)
  | SDropIndex table name => DropIndex table name
  | SAddForeignKey table fk validate => AddForeignKey table fk validate
  | SDropForeignKey table name => discard (DropForeignKey table name)
  | SAlterType table column ch now now' => AlterColumnType table column ch now now'
  | SSetPrimaryKey table cols => SetPrimaryKey table cols
  | SCreateSequence d => CreateSequence d
  | SDropSequence name => discard (DropSequence name)
  | SAlterSequence name o => AlterSequence name (applySeqOptions o)
  | SCreateView name query orReplace => CreateView name query orReplace
  | SDropView name => discard (DropView name)
  | SInsert table vals => Insert table vals
  | SInsertReturning table vals => discard (InsertReturning table vals)
  | SUpdate table pkVals set => discard (Update table pkVals set)
  | SDelete table pkVals => discard (Delete table pkVals)
  end.

(** A session runs its statements whatever each of them returns. *)
Fixpoint session (sts : list stmt) (s : E * S) : list (outcome unit) * (E * S) :=
  match sts with
  | [] => ([], s)
  | st :: sts' => let '(o, s1) := exec st s in let '(os, s2) := session sts' s1 in (o :: os, s2)
  end.
End exec.

Section handlers.
Context {E S tx : Type} {eng : EngineOps E} {eng_laws : EngineLaws E} {cs : CatState E} {cat_laws : CatLaws E}.
Context {grd : Guarded E} {al : Allocators E} {al_laws : AllocatorLaws E}.
Context {kv : KV tx} {kv_laws : KVLaws tx} {db : DB E S tx} {db_laws : DBLaws E S tx}.
Context (occ : bool).

(** The engine and the committed state between statements, with room for
    [k] more. *)
Record sound (k : Z) (e : E) (m : kvmap) : Prop := {
  sd_cache : cache_ok (cat e);
  sd_occ : e_occ e = occ;
  sd_db : db_inv m;
  sd_schema : schema_ok m;
  sd_room : room k m;
}.
(** Other writers keep it too. *)
Context (rely : forall k, stable (sound k)).

Definition fine {A : Type} (k : Z) (_ : kvmap) (o : outcome A) (e : E) (m : kvmap) : Prop := sound k e m /\ is_panic o = false.
Notation handles k h := (runs (sound (k + 1)) (fine k) h).

Lemma sound_less k k' e m : k' <= k -> sound k e m -> sound k' e m.
Proof. intros Hle [H1 H2 H3 H4 H5]. split; try done. by eapply room_less. Qed.
Lemma sound_cached k e e' m : cached e e' -> sound k e m -> sound k e' m.
Proof. intros (H1 & _ & H2) [H3 H4 H5 H6 H7]. split; try done; [by apply H1|by rewrite H2]. Qed.
Lemma sound_loose k : loose (sound k).
Proof. intros e e' m. apply sound_cached. Qed.

Context (k : Z) (Hk : 0 <= k < 2 ^ 31).

Lemma fine_rejects {A : Type} : rejects (A := A) (sound (k + 1)) (fine k).
Proof. intros er e m H. split; [|done]. eapply sound_less; [|exact H]. lia. Qed.

(** ** Transactions *)

Lemma updateDDL_fine {L A : Type} (P : L -> Prop) (l : L) (fn : L -> M (E * tx) (A * L)) : P l -> (forall l, P l -> closes k (fn l)) ->
  (forall l e t, P l -> ready e t -> wp (fn l) (λ o _, match o with Ok (_, l1) => P l1 | _ => True end) (e, t)) -> handles k (updateDDL l fn).
Proof.
  intros Hl Hfn HP e s Hs. eapply wp_mono.
  { apply (wp_updateDDL (sound (k + 1)) (rely _) P (λ o e' m', sound k e' m' /\ is_panic o = false)); [|intros er e' m' H; split; [|done]|done..].
    2: { eapply sound_less; [|exact H]. lia. }
    intros l1 e0 t Hl1 [H1 H2 H3 H4 H5] Hw. pose proof (Hfn l1 Hl1 e0 t (Build_ready _ _ H1 H3 Hw) H4 H5) as Hc.
    pose proof (HP l1 e0 t Hl1 (Build_ready _ _ H1 H3 Hw)) as Hnext. unfold wp in *. destruct (fn l1 (e0, t)) as [o [e1 t1]]. destruct Hc as [Hc Hpost]. cbn [fst snd] in *.
    split; [by eapply sound_cached|]. destruct o as [[a l2]|er|p]; [|intros e' m' H; split; [eapply sound_less; [|exact H]; lia|done]|done].
    destruct Hpost as (Hdb & Hsc & Hr). split; [done|]. intros e' m' Hi.
    assert (sound k e' m') as Hs'; [|by split]. eapply (rely k); [|exact Hi].
    destruct Hc as (Hc1 & _ & Hc2). split; try done; [by apply Hc1|by rewrite Hc2]. }
  by intros o [e' s'].
Qed.
Lemma updateDDL'_fine {A : Type} (fn : M (E * tx) A) : closes k fn -> handles k (updateDDL' fn).
Proof.
  intros Hfn. apply (updateDDL_fine (λ _, True)); [done| |intros [] e t _ _; unfold wp; match goal with |- context [fst ?x] => by destruct x as [[[]| |] ?] end].
  intros _ _ e t Hr Hs Hroom. apply wp_bind.
  eapply wp_mono; [by apply Hfn|]. by intros [a|er|p] s' [H1 H2].
Qed.

(** A row statement, whose transaction is alone in the store. *)
Lemma kvUpdate_fine {A : Type} (fn : M (E * tx) A) : occ = false -> closes k fn -> handles k (kvUpdate fn).
Proof.
  intros Hocc Hfn e s Hs. unfold wp, kvUpdate.
  destruct (db_txn_runs A RowUpdate fn e s) as (e0 & t & c & e' & s' & Hi & Hw & -> & Hc); [intros _; by rewrite (sd_occ _ _ _ Hs)|].
  pose proof (rely _ _ _ _ _ Hs Hi) as [H1 H2 H3 H4 H5]. pose proof (Hfn e0 t (Build_ready _ _ H1 H3 Hw) H4 H5) as Hp. unfold wp in Hp.
  destruct (fn (e0, t)) as [o [e1 t1]]. destruct Hp as [Hca Hp]. cbn [fst snd] in *.
  assert (is_panic o = false) as Hnp by (by destruct o). specialize (Hc (λ _, Hnp)).
  assert (sound (k + 1) e1 (kv_map t)) as H0 by (eapply sound_cached; [exact Hca|by split]).
  assert (is_ok o = true -> sound k e1 (kv_map t1)) as Hdone.
  { destruct o as [a|er|p]; [|done..]. destruct Hp as (Hdb & Hsc & Hr). intros _. eapply sound_cached; [exact Hca|]. by split. }
  destruct c as [[]|er|p]; [destruct Hc as [Hok Hc]|destruct Hc as [[Hc|(_ & Hok & Hc)] _]|done].
  - destruct o as [a|er|p]; [|done..]. split; [|done]. eapply (rely k); [|exact Hc]. by apply Hdone.
  - pose proof (rely _ _ _ _ _ H0 Hc) as H'. split; [eapply sound_less; [|exact H']; lia|]. by destruct o.
  - split; [eapply (rely k); [|exact Hc]; by apply Hdone|by destruct o].
Qed.

(** ** The statements *)

#[local] Hint Resolve sound_loose fine_rejects : core.

(** What follows the transaction keeps what it reached. *)
Lemma handles_then {A B : Type} (h : M (E * S) A) (f : A -> M (E * S) B) : handles k h -> (forall a, settles (f a)) -> handles k (a ← h; f a).
Proof.
  intros Hh Hf. eapply runs_then; [exact Hh|exact Hf|]. intros m o e m' [H1 H2]. destruct o; [|done..]. intros b e' Hc. split; [by eapply sound_cached|done].
Qed.

Lemma checkNewColumn_new col : int64_ok (colMaxLen col) -> cleanColumn col = col ->
  match checkNewColumn col with Ok _ => new_column col | Err _ => True | Panic _ => False end.
Proof.
  intros H1 H2. pose proof (validMaxLen_ok col) as Hm. unfold checkNewColumn. case_bool_decide; [done|].
  destruct (validType _) eqn:Ev; [|done]. apply bool_decide_eq_true in Ev. cbn [negb].
  destruct (colIdentity col && bool_decide _) eqn:E1; [done|]. destruct (colIdentity col && negb _) eqn:E2; [done|].
  destruct (validMaxLen col) as [[]|er|p] eqn:El; [|done|unfold validMaxLen in El; by repeat case_match]. split; try done; [|by apply Hm].
  intros Hi. rewrite Hi in *. cbn in E1, E2. apply bool_decide_eq_false in E1. apply negb_false_iff, bool_decide_eq_true in E2.
  split; [|done]. by destruct (decide (colType col = TInt)).
Qed.
Lemma newDesc_no_panic name cols checks pk : is_panic (newDesc name cols checks pk) = false.
Proof.
  assert (forall seen, is_panic (checkChecks seen checks) = false) as H1.
  { induction checks as [|c l IH]; intros seen; cbn; [done|]. repeat case_bool_decide; done. }
  assert (forall seen, is_panic (checkColumns seen cols) = false) as H2.
  { clear H1. induction cols as [|c l IH]; intros seen; cbn; [done|]. unfold validMaxLen. repeat (case_match; cbn); done. }
  assert (forall d acc, is_panic (resolvePK d pk acc) = false) as H3.
  { clear H1 H2. intros d. induction pk as [|c l IH]; intros acc; cbn; [done|]. destruct (ColIndex d c); [|done]. by case_bool_decide. }
  unfold newDesc. repeat case_bool_decide; try done. specialize (H1 ∅). specialize (H2 ∅).
  destruct (checkChecks ∅ checks); [|done..]. cbn. destruct (checkColumns ∅ cols); [|done..]. cbn.
  specialize (H3 (mkTable 0 0 name (numberColumns cols) [] [] checks [] (uint32 (Z.of_nat (length cols) + 1)) None) []).
  by destruct (resolvePK _ _ _).
Qed.

Lemma handles_discard {A : Type} (h : M (E * S) A) : handles k h -> handles k (discard h).
Proof. intros Hh. apply handles_then; [done|]. intros a. apply settles_ret. Qed.

Create HintDb handles.
#[local] Hint Resolve runs_fail handles_discard runs_memory runs_reentrant runs_if updateDDL'_fine kvUpdate_fine : handles.
#[local] Hint Resolve DropColumnDefault_closes SetColumnDefault_closes SetColumnNotNull_closes DropColumnNotNull_closes AddCheck_closes
  DropCheck_closes RenameColumn_closes AddColumn_closes DropColumn_closes CreateIndex_closes DropIndex_closes DropForeignKey_closes
  SetPrimaryKey_closes AlterColumnType_closes CreateTable_closes DropTable_closes RenameTable_closes DropSequence_closes AlterSequence_closes
  CreateView_closes DropView_closes Insert_closes InsertReturning_closes Update_closes Delete_closes applySeqOptions_edits : handles.
Ltac handles := repeat first [case_bool_decide | case_decide]; eauto 6 with handles.

Lemma exec_row st : match st with SInsert _ _ | SInsertReturning _ _ | SUpdate _ _ _ | SDelete _ _ => True | _ => False end ->
  stmt_ok occ st -> handles k (exec st).
Proof.
  destruct st; try done; intros _; cbn [stmt_ok exec]; [intros [Ho H1]..|intros (Ho & H1 & H2)|intros [Ho H1]].
  all: unfold Insert, InsertReturning, Update, Delete; try apply handles_discard; apply runs_reentrant; auto; try (apply runs_memory; auto).
  all: apply kvUpdate_fine; handles.
Qed.

Lemma AddForeignKey_fine table fk validate : cleanFK fk = fk -> handles k (AddForeignKey table fk validate).
Proof.
  intros Hc. unfold AddForeignKey. do 2 (case_bool_decide; [by apply runs_fail|]). apply runs_if; [by apply runs_fail|].
  apply (updateDDL_fine (λ f, cleanFK f = f)); [done|by apply AddForeignKey_closes|]. intros f e t Hf Hr.
  eapply wp_mono; [by apply AddForeignKeyIn_wp|]. intros [[[] f1]|er|p] s' [_ Hp]; [|done..]. destruct Hp as (_ & d & p & Ef & Hp & _). injection Ef as ->.
  destruct (table_at_wf _ _ _ (rd_db _ _ Hr) Hp) as [_ Hw]. by apply refColsOf_clean.
Qed.
Lemma CreateSequence_fine d : seq_utf8 d -> seq_range (sq_at (sqStart d) false (sq_id 0 d)) -> handles k (CreateSequence d).
Proof.
  intros Hu Hrg. unfold CreateSequence, checkSeqName. destruct (decide (sqName d = [])) as [|Hne]; [by apply runs_fail|].
  apply runs_lift; [done..|]. intros _ _. apply runs_lift; [done|unfold checkSeqDesc; by repeat case_match|]. intros [] Hck.
  apply handles_then; [|eauto with settles].
  apply (updateDDL_fine seq_new); [by split|by apply CreateSequence_closes|]. intros d1 e t Hd Hr.
  eapply wp_mono; [by apply CreateSequenceIn_wp|]. intros [[[] d2]|er|p] s' [_ H]; [|done..]. destruct H as (_ & id & Ef & _). injection Ef as ->.
  destruct Hd as [H1 H2 [R1 R2 R3 R4 R5 R6 R7 R8] H4]. by split.
Qed.

Lemma exec_fine st : stmt_ok occ st -> handles k (exec st).
Proof.
  intros Hok. destruct st; try (by apply exec_row); cbn [stmt_ok exec] in *; try (apply handles_discard).
  - destruct Hok as (H1 & H2 & H3 & H4). apply runs_lift; [done|apply newDesc_no_panic|]. intros d Hd.
    assert (new_table name d) as Hn by (by eapply newDesc_new). handles.
  - apply handles_then; [handles|]. eauto with settles.
  - unfold RenameTable. case_bool_decide; [handles|]. apply handles_then; [handles|]. eauto with settles.
  - pose proof (checkNewColumn_new col) as Hn. destruct Hok as [H1 H2]. specialize (Hn H1 H2). unfold AddColumn.
    apply runs_lift; [done|by destruct (checkNewColumn col)|]. intros a Ha. rewrite Ha in Hn.
    destruct (_ || _); [|change (handles k (updateDDL' (AddColumnIn table col now)))]; handles.
  - apply handles_then; [handles|]. intros key. case_bool_decide; eauto with settles.
  - unfold RenameColumn. handles.
  - unfold SetColumnDefault, DropColumnDefault. handles.
  - unfold DropColumnDefault. handles.
  - unfold SetColumnNotNull. handles.
  - unfold DropColumnNotNull. handles.
  - destruct Hok. unfold AddCheck. handles.
  - unfold DropCheck. handles.
  - unfold CreateIndexCols. handles.
  - unfold DropIndex. handles.
  - by apply AddForeignKey_fine.
  - unfold DropForeignKey. handles.
  - destruct Hok. unfold AlterColumnType. apply runs_if; handles.
  - unfold SetPrimaryKey. handles.
  - destruct Hok. by apply CreateSequence_fine.
  - unfold DropSequence, checkSeqName. destruct (decide (name = [])); [by apply runs_fail|]. apply runs_lift; [done..|]. intros _ _.
    apply handles_then; [handles|]. eauto with settles.
  - apply handles_then; [handles|]. eauto with settles.
  - destruct Hok. unfold CreateView. handles.
  - unfold DropView. handles.
Qed.
End handlers.

(** ** A run of statements *)

Section session.
Context {E S tx : Type} {eng : EngineOps E} {eng_laws : EngineLaws E} {cs : CatState E} {cat_laws : CatLaws E}.
Context {grd : Guarded E} {al : Allocators E} {al_laws : AllocatorLaws E}.
Context {kv : KV tx} {kv_laws : KVLaws tx} {db : DB E S tx} {db_laws : DBLaws E S tx}.

Lemma session_fine occ (rely : forall k, stable (sound occ k)) k sts e s : 0 <= k -> Z.of_nat (length sts) + k < 2 ^ 31 ->
  sound occ (Z.of_nat (length sts) + k) e (db_head s) -> Forall (stmt_ok occ) sts ->
  let '(os, (e', s')) := session sts (e, s) in Forall (λ o, is_panic o = false) os /\ sound occ k e' (db_head s').
Proof.
  intros Hk. revert e s. induction sts as [|st sts IH]; intros e s Hlen Hs Hok; cbn [session]; [done|]. apply Forall_cons in Hok as [Hst Hok].
  cbn [length] in *. rewrite Nat2Z.inj_succ in *. replace (Z.succ (Z.of_nat (length sts)) + k) with (Z.of_nat (length sts) + k + 1) in * by lia.
  pose proof (exec_fine occ rely (Z.of_nat (length sts) + k) ltac:(lia) st Hst e s Hs) as Hx. unfold wp in Hx.
  destruct (exec st (e, s)) as [o [e1 s1]]. destruct Hx as [H1 H2]. specialize (IH e1 s1 ltac:(lia) H1 Hok).
  destruct (session sts (e1, s1)) as [os [e2 s2]]. destruct IH as [H3 H4]. split; [by constructor|done].
Qed.

Lemma session_leaves occ (rely : forall k, stable (sound occ k)) k sts (e : E) (s : S) : 0 <= k -> Z.of_nat (length sts) + k < 2 ^ 31 ->
  sound occ (Z.of_nat (length sts) + k) e (db_head s) -> Forall (stmt_ok occ) sts ->
  sound occ k (session sts (e, s)).2.1 (db_head (session sts (e, s)).2.2).
Proof.
  intros H1 H2 H3 H4. pose proof (session_fine occ rely k sts e s H1 H2 H3 H4) as H. destruct (session sts (e, s)) as [os [e' s']]. apply H.
Qed.

End session.

(** A new store is sound. *)
Lemma empty_no_table n d : ~ table_at ∅ n d.
Proof. unfold table_at, resolve. by rewrite lookup_empty. Qed.
Lemma empty_sound k : sound false k (mkCat ∅ 0 : MemEngine) (∅ : kvmap).
Proof.
  assert (db_inv ∅) as Hdb.
  { split; try (intros; first [done|exfalso; match goal with H : table_at ∅ _ _ |- _ => by apply empty_no_table in H end]).
    exists firstUserTableID. split_and!; [done..|]. by intros id _ k0. }
  split; [by intros name blob d|done|done| |].
  - split; try (intros; first [done|exfalso; match goal with H : table_at ∅ _ _ |- _ => by apply empty_no_table in H end]). by left.
  - intros n d H. by apply empty_no_table in H.
Qed.

Definition exStatements : list stmt :=
  let col name type := mkColumn name type 0 false false [] 0 in
  [ SCreateTable (go "p") [col (go "id") TInt; col (go "name") TString] [] [go "id"];
    SCreateTable (go "c") [col (go "id") TInt; col (go "p_id") TInt] [] [go "id"];
    SCreateIndex (go "p") (go "p_name") true [mkIndexCol (go "name") false];
    SInsert (go "p") [AInt KInt64 1; AString (go "a")];
    SInsert (go "p") [AInt KInt64 2; AString (go "a")];
    SAddForeignKey (go "c") (mkFK (go "fk") [1%nat] (go "p") [] []) true;
    SInsert (go "c") [AInt KInt64 7; AInt KInt64 1];
    SDropTable (go "p");
    SAddColumn (go "c") (col (go "note") TString) 0;
    SRenameColumn (go "p") (go "id") (go "pid");
    SSetPrimaryKey (go "p") [go "name"];
    SCreateView (go "p") (go "SELECT 1") false;
    SDelete (go "p") [AInt KInt64 1] ].

Lemma alone_sound k : stable (S := MemStore) (tx := MemTx) (sound (E := MemEngine) false k).
Proof. intros e m e' m' H Heq. injection Heq as <- <-. exact H. Qed.
Ltac stmts_ok :=
  repeat (apply Forall_cons; split); try apply Forall_nil; cbn [stmt_ok];
  repeat match goal with
    | |- True => exact I
    | |- _ /\ _ => split
    | |- Forall _ (_ :: _) => apply Forall_cons; split
    | |- Forall _ [] => apply Forall_nil
    | |- _ = _ => vm_compute; reflexivity
    | |- int64_ok _ => unfold int64_ok; cbn; lia
    | |- (_ < _)%Z => vm_compute; reflexivity
    end;
  cbn; first [exact I|lia].
Lemma exStatements_ok : Forall (stmt_ok false) exStatements.
Proof. unfold exStatements. stmts_ok. Qed.

(** The store the first statements leave: two tables, an index, a row each. *)
Definition exState : MemEngine * MemStore := (session (take 7 exStatements) (mkCat ∅ 0 : MemEngine, ∅ : MemStore)).2.
Lemma exState_room k : 0 <= k < 1000 -> sound false k exState.1 (db_head exState.2).
Proof.
  intros Hk. apply (session_leaves false alone_sound k (take 7 exStatements) (mkCat ∅ 0 : MemEngine) (∅ : MemStore));
    [lia|cbn; lia|apply empty_sound|apply Forall_take, exStatements_ok].
Qed.
Lemma exState_sound : sound false 1 exState.1 (db_head exState.2).
Proof. by apply exState_room. Qed.
#[global] Opaque exState.

(** A store with foreign keys: [c] references [p] and [g] references [c], both ON DELETE CASCADE; [k]
    references [p] and does not cascade. *)
Definition exFkStatements : list stmt :=
  let col name type := mkColumn name type 0 false false [] 0 in
  let child name ref := SCreateTable name [col (go "id") TInt; col ref TInt] [] [go "id"] in
  let int z := AInt KInt64 z in
  [ SCreateTable (go "p") [col (go "id") TInt; col (go "name") TString] [] [go "id"];
    child (go "c") (go "p_id"); child (go "g") (go "c_id"); child (go "k") (go "p_id");
    SAddForeignKey (go "c") (mkFK (go "c_fk") [1%nat] (go "p") [] FKCascade) true;
    SAddForeignKey (go "g") (mkFK (go "g_fk") [1%nat] (go "c") [] FKCascade) true;
    SAddForeignKey (go "k") (mkFK (go "k_fk") [1%nat] (go "p") [] []) true;
    SInsert (go "p") [int 1; AString (go "a")]; SInsert (go "p") [int 2; AString (go "b")];
    SInsert (go "c") [int 7; int 1]; SInsert (go "c") [int 8; int 2]; SInsert (go "g") [int 5; int 8]; SInsert (go "k") [int 3; int 1] ].
Definition exFkState : MemEngine * MemStore := (session exFkStatements (mkCat ∅ 0 : MemEngine, ∅ : MemStore)).2.
Lemma exFkStatements_ok : Forall (stmt_ok false) exFkStatements.
Proof. unfold exFkStatements. stmts_ok. Qed.
Lemma exFk_room k : 0 <= k < 900 -> sound false k exFkState.1 (db_head exFkState.2).
Proof.
  intros Hk. apply (session_leaves false alone_sound k exFkStatements (mkCat ∅ 0 : MemEngine) (∅ : MemStore)); [lia|cbn; lia|apply empty_sound|apply exFkStatements_ok].
Qed.
#[global] Opaque exFkState.
