(* ===== verification/Atomic.v ===== *)
(** * Statements that fail

    A statement that returns an error has changed nothing: what differs
    afterwards is what other writers did in the meantime. The exception is
    an error of the commit's log write, after which the writes may be
    visible. And a schema
    statement never gives up for a write conflict, since its last attempt
    holds the writer lock. *)
From S2P Require Import Prelude GoVal KV Catalog Desc Dml Engine Store Ddl DdlColumn DdlAddDrop DdlTable SeqObj View DdlIndex Fk Alter RowStmt Handler Run MemDB.

Local Open Scope Z_scope.

Section atomic.
Context {E S tx : Type} {eng : EngineOps E} {eng_laws : EngineLaws E} {cs : CatState E} {cat_laws : CatLaws E}.
Context {grd : Guarded E} {al : Allocators E} {al_laws : AllocatorLaws E}.
Context {kv : KV tx} {kv_laws : KVLaws tx} {db : DB E S tx} {db_laws : DBLaws E S tx}.

(** What others can do to the committed state. *)
Definition elsewhere : kvmap -> kvmap -> Prop := rtc (λ m m', exists e e' : E, interf (e, m) (e', m')).

Lemma elsewhere_stable m : stable (λ _ m', elsewhere m m').
Proof. intros e m1 e' m2 H Hi. eapply rtc_r; [exact H|]. by exists e, e'. Qed.
Lemma elsewhere_once (e e' : E) m m' : interf (e, m) (e', m') -> elsewhere m m'.
Proof. intros H. apply rtc_once. by exists e, e'. Qed.

(** An error means the handler changed nothing, unless writing the commit to
    the log failed. *)
Definition unchanged {A : Type} (m : kvmap) (o : outcome A) (_ : E) (m' : kvmap) : Prop :=
  match o with Err er => elsewhere m m' \/ unsure er | _ => True end.
(** [occ] is the mode the engine runs in. *)
Definition mode (occ : bool) (e : E) (_ : kvmap) : Prop := e_occ e = occ.
Notation undone occ h := (runs (mode occ) unchanged h).

Lemma mode_loose occ : loose (mode occ).
Proof. intros e e' m (_ & _ & H) <-. exact H. Qed.
Lemma unchanged_rejects {A : Type} occ : rejects (A := A) (mode occ) unchanged.
Proof. intros er e m _. left. constructor. Qed.
#[local] Hint Resolve mode_loose unchanged_rejects : core.

Lemma undone_updateDDL {L A : Type} occ (l : L) (fn : L -> M (E * tx) (A * L)) : undone occ (updateDDL l fn).
Proof.
  intros e s _. eapply wp_mono; [|intros o s' H; exact H].
  apply (wp_updateDDL (λ _ m', elsewhere (db_head s) m') (elsewhere_stable _) (λ _, True)
    (λ o _ m', match o with Err er => elsewhere (db_head s) m' \/ unsure er | _ => True end)); [|by left|done|constructor].
  intros l1 e0 t _ HI _. unfold wp. destruct (fn l1 (e0, t)) as [[[a l2]|er|p] [e1 t1]]; (split; [done|]); [split; [done|]|..]; try done.
  - intros ?? H. split; [done|]. intros. by right.
  - intros ?? H. by left.
Qed.
Lemma undone_updateDDL' {A : Type} occ (fn : M (E * tx) A) : undone occ (updateDDL' fn).
Proof. apply undone_updateDDL. Qed.
Lemma undone_kvUpdate {A : Type} (fn : M (E * tx) A) : undone false (kvUpdate fn).
Proof.
  intros e s He. unfold wp, kvUpdate. destruct (db_txn_runs A RowUpdate fn e s) as (e0 & t & c & e' & s' & Hi & _ & -> & Hc); [done|].
  destruct (fn (e0, t)) as [o [e1 t1]]. cbn [fst snd] in *. apply elsewhere_once in Hi.
  destruct o as [a|er|p], c as [[]|er'|p']; cbn in *; try done; specialize (Hc ltac:(done)); try (destruct Hc as [[Hc|(Hu & Hb & _)] _]); try done; try (by destruct Hc); try (by right).
  all: left; etransitivity; [exact Hi|by eapply elsewhere_once].
Qed.

Lemma undone_then {A B : Type} occ (h : M (E * S) A) (f : A -> M (E * S) B) : undone occ h -> (forall a, settles (f a)) -> undone occ (a ← h; f a).
Proof. intros Hh Hf. eapply runs_then; [exact Hh|exact Hf|]. by intros m [a|er|p] e m' H. Qed.
Lemma undone_lift {A B : Type} occ (o : outcome B) (f : B -> M (E * S) A) : (forall b, undone occ (f b)) -> undone occ (b ← lift o; f b).
Proof. intros Hf e s He. apply wp_bind_lift. destruct o; cbn [seqQ]; [by apply Hf|left; constructor|done]. Qed.

Definition row_stmt (st : stmt) : bool :=
  match st with SInsert _ _ | SInsertReturning _ _ | SUpdate _ _ _ | SDelete _ _ => true | _ => false end.

Create HintDb undone.
#[local] Hint Resolve undone_updateDDL undone_updateDDL' undone_kvUpdate undone_lift runs_fail runs_memory runs_reentrant runs_if : undone.
#[local] Hint Extern 3 (runs _ unchanged (_ ≫= _)) => apply undone_then; [|intros; try case_bool_decide; eauto with settles] : undone.
Ltac undone := repeat first [progress case_bool_decide | progress case_decide]; eauto 8 with undone.

Lemma exec_undone occ st : (row_stmt st = true -> occ = false) -> undone occ (exec st).
Proof.
  intros Hocc. destruct st; cbn [exec row_stmt] in *; try (rewrite (Hocc eq_refl)); try (apply undone_then; [|intros; apply settles_ret]).
  4: { unfold AddColumn. apply undone_lift. intros _. destruct (_ || _); [by undone|]. apply undone_updateDDL'. }
  all: unfold CreateTableWithChecks, DropTable, RenameTable, DropColumn, DropColumnDefault, SetColumnDefault, SetColumnNotNull, DropColumnNotNull, AddCheck, DropCheck,
    RenameColumn, CreateIndexCols, DropIndex, AddForeignKey, DropForeignKey, AlterColumnType, SetPrimaryKey, CreateSequence, DropSequence, AlterSequence,
    CreateView, DropView, Insert, InsertReturning, Update, Delete, DropColumnDefault; by undone.
Qed.


(** ** Conflicts *)

Lemma locked_no_conflict {A : Type} mode (fn : M (E * tx) A) e s : mode <> Optimistic -> mode <> RowUpdate ->
  (forall e t, isConflict (fn (e, t)).1 = false) -> let '(o, c, _) := db_txn mode fn (e, s) in isConflict (txResult o c) = false.
Proof.
  intros H1 H2 Hfn. destruct (db_txn_runs A mode fn e s) as (e0 & t & c & e' & s' & _ & _ & -> & Hc); [done|]. specialize (Hc ltac:(done)).
  specialize (Hfn e0 t). destruct (fn (e0, t)) as [o [e1 t1]]. cbn [fst] in *. destruct o as [a|er|p]; [|done..]. cbn.
  destruct c as [[]|er|p]; [done| |done]. destruct Hc as [_ Hc]. destruct er; try reflexivity. by specialize (Hc eq_refl).
Qed.
Lemma optimistically_no_conflict {L A : Type} n (l : L) (fn : L -> M (E * tx) (A * L)) s : (forall l e t, isConflict (fn l (e, t)).1 = false) ->
  isConflict (optimistically n l fn s).1 = false.
Proof.
  intros Hfn. revert l s. induction n as [|n IH]; intros l [e s]; cbn [optimistically].
  - pose proof (locked_no_conflict Locked (fn l) e s ltac:(done) ltac:(done) (Hfn l)) as H. by destruct (db_txn Locked (fn l) (e, s)) as [[o c] s'].
  - destruct (db_txn Optimistic (fn l) (e, s)) as [[o c] s']. destruct (isConflict (txResult o c)) eqn:Ec; [apply IH|done].
Qed.

(** C27: a schema change is never lost to concurrent writers: after the two
    optimistic attempts it runs under the writer lock, so the conflict error
    reaches the caller only if the change itself returns it. *)
Theorem ddl_never_conflicts {L A : Type} (l : L) (fn : L -> M (E * tx) (A * L)) s :
  (forall l e t, isConflict (fn l (e, t)).1 = false) -> isConflict (updateDDL l fn s).1 = false.
Proof.
  intros Hfn. destruct s as [e s]. unfold updateDDL, mbind, M_bind, checkReentrantWrite, runDDL. cbn [fst snd]. destruct (e_occ e) eqn:Eo.
  - cbn [fst snd]. rewrite Eo. pose proof (optimistically_no_conflict ddlOptimisticTries l fn (e, s) Hfn) as H.
    by destruct (optimistically _ _ _ _) as [[[a l1]|er|p] s'].
  - destruct (_ && _); [done|]. cbn [fst snd]. rewrite Eo.
    pose proof (locked_no_conflict Serialized (fn l) e s ltac:(done) ltac:(done) (Hfn l)) as H.
    destruct (db_txn Serialized (fn l) (e, s)) as [[o c] s']. cbn [fst snd]. by destruct (txResult o c) as [[a l1]|er|p].
Qed.
End atomic.

Definition exViews : kvmap := {[ viewKey (go "v") := go "SELECT 1" ]}.
Lemma exViews_no_table : exViews !! descKey (go "t") = None.
Proof. unfold exViews. apply lookup_singleton_ne. intros H. vm_compute in H. discriminate H. Qed.
Lemma exViews_insert : exec (SInsert (go "t") [AInt KInt64 1]) (mkCat ∅ 0 : MemEngine, exViews : MemStore) = (Err errNoTable, (mkCat ∅ 0, exViews)).
Proof.
  cbn [exec]. unfold Insert, kvUpdate, mbind, M_bind, checkReentrantWrite. cbn [e_occ mem_ops fst snd e_writerGID mem_guarded negb Z.eqb andb].
  unfold db_txn, mem_db, mem_txn. cbn [fst snd]. unfold descFromView, tableFromView, mbind, M_bind, onTx, gets. cbn [fst snd kv_get mem_kv mem_view v_map].
  rewrite exViews_no_table. reflexivity.
Qed.

Lemma ddl_never_conflicts_witness :
  isConflict (updateDDL tt (λ _, b ← DropViewIn (go "v"); mret (b, tt)) (mkCat ∅ 0 : MemEngine, ∅ : MemStore)).1 = false.
Proof.
  apply ddl_never_conflicts. intros [] e t. unfold DropViewIn, onTx, mbind, M_bind. cbn. unfold mem_write. destruct (v_writable (mem_view t)); reflexivity.
Defined.
