(* ===== verification/Effects.v ===== *)
(** * What schema statements do

    Each statement, run through its handler, either changes nothing or takes
    one committed state to the next by its effect, whatever other writers do
    before and after; when the log write of its commit fails, the error says
    nothing about which of the two it was. The effects are those of the closures' specifications,
    stated here on whole statements. *)
From S2P Require Import Prelude GoVal GoStr Tuple KV Json Catalog Desc Rows Default Index Table Seq Upkeep Dml Relation Engine Store Database Ddl DdlColumn DdlAddDrop DdlTable SeqObj View DdlIndex Fk Alter Schema RowStmt Handler Statements MemDB Run Atomic.

Local Open Scope Z_scope.

Section effects.
Context {E S tx : Type} {eng : EngineOps E} {eng_laws : EngineLaws E} {cs : CatState E} {cat_laws : CatLaws E}.
Context {grd : Guarded E} {al : Allocators E} {al_laws : AllocatorLaws E}.
Context {kv : KV tx} {kv_laws : KVLaws tx} {db : DB E S tx} {db_laws : DBLaws E S tx}.
Context (occ : bool) (rely : stable (sound occ 1)).

(** [R] relates the states around the commit; others come before and after. *)
Definition effect {A : Type} (R : A -> kvmap -> kvmap -> Prop) (m : kvmap) (a : A) (m' : kvmap) : Prop :=
  exists m1 m2, elsewhere m m1 /\ db_inv m1 /\ R a m1 m2 /\ db_inv m2 /\ elsewhere m2 m'.
Definition commits {A : Type} (R : A -> kvmap -> kvmap -> Prop) (m : kvmap) (o : outcome A) (_ : E) (m' : kvmap) : Prop :=
  match o with
  | Ok a => effect R m a m'
  | Err er => elsewhere m m' \/ unsure er /\ exists a, effect R m a m'
  | Panic _ => False
  end.
Notation effects R h := (runs (sound occ 1) (commits R) h).

Lemma commits_rejects {A : Type} (R : A -> kvmap -> kvmap -> Prop) : rejects (sound occ 1) (commits R).
Proof. intros er e m _. left. constructor. Qed.
Lemma sound1_loose : loose (sound occ 1).
Proof. apply sound_loose. Qed.
#[local] Hint Resolve commits_rejects sound1_loose : core.

Lemma effects_updateDDL {L A : Type} (P : L -> Prop) (l : L) (fn : L -> M (E * tx) (A * L)) (R : A -> kvmap -> kvmap -> Prop) : P l ->
  (forall l e t, P l -> ready e t -> schema_ok (kv_map t) -> room 1 (kv_map t) ->
    wp (fn l) (ddl e (λ r m', R r.1 (kv_map t) m' /\ P r.2)) (e, t)) -> effects R (updateDDL l fn).
Proof.
  intros Hl Hfn e s Hs. eapply wp_mono.
  { apply (wp_updateDDL (λ e m', sound occ 1 e m' /\ elsewhere (db_head s) m')) with (P := P) (Q := λ o e' m', commits R (db_head s) o e' m').
    - intros e1 m1 e2 m2 [H1 H2] Hi. split; [by eapply rely|by eapply elsewhere_stable].
    - intros l1 e0 t Hl1 [[H1 H2 H3 H4 H5] Hel] Hw. pose proof (Hfn l1 e0 t Hl1 (Build_ready _ _ H1 H3 Hw) H4 H5) as Hc.
      unfold wp in *. destruct (fn l1 (e0, t)) as [o [e1 t1]]. destruct Hc as [Hc Hpost]. cbn [fst snd] in *.
      split; [split; [eapply sound_cached; [exact Hc|by split]|done]|].
      destruct o as [[a l2]|er|p]; [|intros e' m' [_ H]; by left|done]. destruct Hpost as (Hdb & HR & HP). split; [done|]. intros e' m' Hi.
      assert (effect R (db_head s) a m') as Hf by (exists (kv_map t), (kv_map t1); split_and!; try done; by eapply elsewhere_once).
      split; [done|]. intros er Hu. right. eauto.
    - intros er e' m' [_ H]. by left.
    - exact Hl.
    - split; [done|constructor]. }
  by intros o [e' s'].
Qed.
Lemma effects_updateDDL' {A : Type} (fn : M (E * tx) A) (R : A -> kvmap -> kvmap -> Prop) :
  (forall e t, ready e t -> schema_ok (kv_map t) -> room 1 (kv_map t) -> wp fn (ddl e (λ a, R a (kv_map t))) (e, t)) -> effects R (updateDDL' fn).
Proof.
  intros Hfn. apply (effects_updateDDL (λ _, True)); [done|]. intros [] e t _ Hr Hs Hroom. apply wp_bind. eapply wp_mono; [by apply Hfn|].
  intros [a|er|p] s' [H1 H2]; try done. destruct H2. by split_and!.
Qed.
Lemma effects_then {A B : Type} R R' (h : M (E * S) A) (f : A -> M (E * S) B) : effects R h -> (forall a, settles (f a)) ->
  (forall a b m m', R a m m' -> R' b m m') -> effects R' (a ← h; f a).
Proof.
  intros Hh Hf HR e0 s0 Hs0. apply (runs_then (sound occ 1) (commits R) (commits R') h f); [exact Hh|exact Hf| |exact Hs0].
  assert (forall a b m m', effect R m a m' -> effect R' m b m') as He.
  { intros a b m m' (m1 & m2 & H1 & H2 & H3 & H4 & H5). exists m1, m2. by eauto 10. }
  intros m [a|er|p] e m' H; [intros b e' _; by eapply He| |done]. destruct H as [H|(Hu & a & H)]; [by left|].
  right. split; [done|]. destruct (Hf a e0 s0) as (b & _). exists b. by eapply He.
Qed.

(** ** Indexes *)

(** [idx] is an index of [table]: its range holds one entry per row. *)
Definition indexed (m : kvmap) (d : TableDesc) (idx : IndexDesc) : Prop :=
  idx ∈ tIndexes d /\ (forall k v, indexPrefix (tID d) (ixID idx) `prefix_of` k ->
    m !! k = Some v <-> exists row, stored d m row /\ k = index_key d idx row /\ v = index_val d idx row) /\
  (ixUnique idx = true -> forall T pk1 pk2 r1 r2, abstracts d m T -> T !! pk1 = Some r1 -> T !! pk2 = Some r2 ->
    ixVals idx r1 = ixVals idx r2 -> ANil ∉ ixVals idx r1 -> r1 = r2).

Lemma indexed_in m name d idx : db_inv m -> table_at m name d -> idx ∈ tIndexes d -> indexed m d idx.
Proof.
  intros Hdb Hat Hin. destruct (table_at_wf m name d Hdb Hat) as [_ Hw]. pose proof (to_inv _ _ (db_table m Hdb name d Hat)) as Hi.
  split_and!; [done|intros k v; by apply (inv_index d m Hi)|].
  intros Hu T pk1 pk2 r1 r2 Ha H1 H2 Hv Hn. by apply (unique_index_unique d m T idx pk1 pk2 r1 r2 (cw_wf d Hw) Hi Ha Hin Hu H1 H2 Hv Hn).
Qed.

(** C24: CREATE INDEX either changes nothing or commits an index that is
    complete: its range holds exactly one entry for each row the table had,
    none of the rows changed, and a unique index has no two rows with the
    same values. Every other table, sequence and view is as it was. *)
Theorem create_index_complete table name unique cols : clean name = name -> effects (λ r m m', exists d idx,
    r = Some idx /\ ixName idx = name /\ ixUnique idx = unique /\ Index d name = None /\
    let d' := published (with_indexes d (tIndexes d ++ [idx])) in
    table_at m table d /\ table_at m' table d' /\ (forall T, abstracts d m T -> abstracts d' m' T) /\ indexed m' d' idx /\ others table m m')
  (CreateIndexCols table name unique cols).
Proof.
  intros Hc. unfold CreateIndexCols. case_bool_decide; [by apply runs_fail|]. case_bool_decide; [by apply runs_fail|].
  apply runs_memory; [done..|]. apply effects_updateDDL'. intros e t Hr Hs Hroom. eapply wp_mono.
  { apply CreateIndexIn_wp; try done. intros d Hat. destruct (Hroom table d Hat) as (_ & R2 & _). eapply Forall_impl; [exact R2|]. cbn. intros. lia. }
  intros o s' [H1 H2]. split; [done|]. destruct o as [r|er|p]; [|done..]. destruct H2 as (Hdb & d & idx & Hn & -> & Hno & Hal).
  split; [done|]. exists d, idx. unfold newIndex in Hn. apply outcome_bind_ok in Hn as (ords & _ & [= <-]).
  split_and!; try done; try apply Hal. eapply indexed_in; [done|apply Hal|]. rewrite published_indexes. apply elem_of_app. right. by apply list_elem_of_singleton.
Qed.

(** ** Foreign keys *)

(** [f] is [fk] with its referenced columns filled in; those given stay. *)
Definition completes (fk f : FKDesc) : Prop := fkName f = fkName fk /\ fkCols f = fkCols fk /\ fkRefTable f = fkRefTable fk /\
  fkOnDelete f = fkOnDelete fk /\ (fkRefCols fk <> [] -> fkRefCols f = fkRefCols fk).

(** C25: ALTER TABLE ADD FOREIGN KEY either changes nothing or commits a
    constraint that can be enforced: its name is free, its columns pair with
    columns of the referenced table of the same types that form a unique key
    there, and, when asked to validate, every row that has no NULL in them
    has its parent row. *)
Theorem add_foreign_key_enforceable table fk validate : cleanFK fk = fk -> effects (λ _ m m', exists d p f, completes fk f /\
    table_at m (fkRefTable fk) p /\ fk_shape d p (fkCols f) (fkRefCols f) /\
    Forall (λ c, chkName c <> fkName fk) (tChecks d) /\ Forall (λ g, fkName g <> fkName fk) (tForeignKeys d) /\
    (validate = true -> exists pords, ColIndex p <$> fkRefCols f = Some <$> pords /\ refs_hold d p (fkCols f) pords m) /\
    altered table d (with_fks d (tForeignKeys d ++ [f])) id m m')
  (AddForeignKey table fk validate).
Proof.
  intros Hc. unfold AddForeignKey. do 2 (case_bool_decide; [by apply runs_fail|]). apply runs_if; [by apply runs_fail|].
  apply (effects_updateDDL (λ l, cleanFK l = l /\ completes fk l)); [by split; [|split_and!]|]. intros l e t [Hl (L1 & L2 & L3 & L4 & L5)] Hr Hs Hroom.
  eapply wp_mono; [by apply AddForeignKeyIn_wp|]. intros o s' [H1 H2]. split; [done|]. destruct o as [[[] f]|er|q]; [|done..].
  destruct H2 as (Hdb & d & p & Ef & Hp & Hsh & Hck & Hfk & Hv & Hal). injection Ef as ->. cbn [fst snd]. split; [done|].
  destruct (table_at_wf _ _ _ (rd_db _ _ Hr) Hp) as [_ Hw].
  assert (completes fk (fk_refs l (fkRefTable l) (refColsOf l p))) as Hco.
  { split_and!; try done. intros Hne. cbn. unfold refColsOf. rewrite bool_decide_false; [by apply L5|]. rewrite (L5 Hne). done. }
  split; [|split; [by apply refColsOf_clean|done]]. rewrite <- L1, <- L3. by exists d, p, (fk_refs l (fkRefTable l) (refColsOf l p)).
Qed.

(** ** Rebuilds *)

(** ALTER TABLE SET PRIMARY KEY either changes nothing or commits the
    same rows under the new key: no key column holds NULL, no row is lost or
    merged, and every foreign key into the table still has its unique key. *)
Theorem set_primary_key_keeps_rows table cols : effects (λ _ m m', exists d ords, table_at m table d /\
    Forall2 (λ o n, exists c, tColumns d !! o = Some c /\ colName c = n) ords cols /\
    if decide (ords = tPKCols d) then m' = m
    else let d' := rekeyed d ords in table_at m' table (published d') /\
    (forall row, stored (published d') m' row <-> stored d m row) /\
    (forall row o, stored d m row -> o ∈ ords -> row !! o <> Some ANil) /\
    (forall c f, references m table false c f -> covers d (fkRefCols f) -> covers d' (fkRefCols f)) /\ others table m m')
  (SetPrimaryKey table cols).
Proof.
  unfold SetPrimaryKey. case_bool_decide; [by apply runs_fail|]. apply runs_memory; [done..|]. apply effects_updateDDL'. intros e t Hr Hs Hroom.
  eapply wp_mono; [by apply SetPrimaryKeyIn_wp|]. intros o s' [H1 H2]. split; [done|]. destruct o as [[]|er|p]; [|done..].
  destruct H2 as (Hdb & d & ords & Hat & Hords & H2). split; [done|]. exists d, ords. split_and!; [done..|]. case_decide; [done|].
  destruct H2 as (T' & Hal & Hrows & Hnn & _ & Hcov). split_and!; [apply Hal| |done|done|apply Hal].
  destruct (rows_of_abstracts d (kv_map t) (to_inv _ _ (db_table _ (rd_db _ _ Hr) table d Hat))) as [Ha _].
  intros row. rewrite <- Hrows, (abs_stored _ _ _ (al_rows _ _ _ _ _ _ Hal _ Ha)). by rewrite published_pkOf.
Qed.

(** C26: ALTER COLUMN TYPE either changes nothing or commits the table with
    each of its rows converted, one for one: the new rows are exactly the
    conversions of the old ones, each accepted by the check callback, with
    distinct keys; no foreign key uses the column on either side. *)
Theorem alter_type_converts_rows table column ch now now' : change_ok ch ->
  (forall c text, cleanColumn c = c -> maxlen_ok c -> castDefault c (col_type (chType ch) (chMaxLen ch) c) now now' = Ok text -> clean text = text) ->
  effects (λ _ m m', exists d ord c, table_at m table d /\ ColIndex d column = Some ord /\ tColumns d !! ord = Some c /\
    (m' = m /\ chType ch = colType c \/ exists text transform T', let d' := edit_column d ord (λ _, col_default text (col_type (chType ch) (chMaxLen ch) c)) in
      typeTransform ch c ord = Some transform /\ rebuilt d d' transform (chValidate ch) m T' /\ altered table d d' (λ _, T') m m' /\
      Forall (λ f, ord ∉ fkCols f) (tForeignKeys d) /\ forall c' f, references m table false c' f -> column ∉ fkRefCols f))
  (AlterColumnType table column ch now now').
Proof.
  intros Hch Hcl. unfold AlterColumnType. apply runs_if; [by apply runs_fail|]. apply runs_memory; [done..|]. apply effects_updateDDL'.
  intros e t Hr Hs Hroom. eapply wp_mono; [by apply AlterColumnTypeIn_wp|]. by intros o s' [H1 H2].
Qed.
End effects.

(** ** The statements on a store with two tables *)

Lemma create_index_complete_witness :
  wp (CreateIndexCols (go "c") (go "c_p") true [mkIndexCol (go "p_id") true]) (λ o s', match o with
    | Ok r => exists d idx m', r = Some idx /\ ixName idx = go "c_p" /\ table_at m' (go "c") (published (with_indexes d (tIndexes d ++ [idx]))) /\
        indexed m' (published (with_indexes d (tIndexes d ++ [idx]))) idx
    | Err _ => True
    | Panic _ => False end) (exState.1, exState.2).
Proof.
  eapply wp_mono; [exact (create_index_complete false (alone_sound 1) (go "c") (go "c_p") true [mkIndexCol (go "p_id") true] eq_refl exState.1 exState.2 exState_sound)|].
  intros [r|er|p] s' H; [|exact I|exact H]. destruct H as (m1 & m2 & _ & _ & (d & idx & H1 & H2 & H3 & H4 & H5 & H6 & H7 & H8 & H9) & _). exists d, idx, m2. auto.
Defined.

Lemma add_foreign_key_enforceable_witness :
  wp (AddForeignKey (go "c") (mkFK (go "fk2") [1%nat] (go "p") [] []) true) (λ o s', match o with
    | Ok _ => exists d p f m1, fk_shape d p (fkCols f) (fkRefCols f) /\ exists pords, refs_hold d p (fkCols f) pords m1
    | Err _ => True
    | Panic _ => False end) (exState.1, exState.2).
Proof.
  eapply wp_mono; [exact (add_foreign_key_enforceable false (alone_sound 1) (go "c") (mkFK (go "fk2") [1%nat] (go "p") [] []) true eq_refl exState.1 exState.2 exState_sound)|].
  intros [r|er|p] s' H; [|exact I|exact H]. destruct H as (m1 & m2 & _ & _ & (d & p & f & H1 & H2 & H3 & H4 & H5 & H6 & H7) & _).
  exists d, p, f, m1. split; [exact H3|]. destruct (H6 eq_refl) as (pords & _ & H). exists pords. exact H.
Defined.

Lemma set_primary_key_keeps_rows_witness :
  wp (SetPrimaryKey (go "c") [go "p_id"]) (λ o s', match o with
    | Ok _ => exists d ords m1 m2, ords <> tPKCols d -> forall row, stored (published (rekeyed d ords)) m2 row <-> stored d m1 row
    | Err _ => True
    | Panic _ => False end) (exState.1, exState.2).
Proof.
  eapply wp_mono; [exact (set_primary_key_keeps_rows false (alone_sound 1) (go "c") [go "p_id"] exState.1 exState.2 exState_sound)|].
  intros [r|er|p] s' H; [|exact I|exact H]. destruct H as (m1 & m2 & _ & _ & (d & ords & H1 & H2 & H3) & _).
  exists d, ords, m1, m2. intros Hne. case_decide; [contradiction|]. apply H3.
Defined.

(** A default of a boolean column keeps its text when the type stays. *)
Lemma castDefault_bool c n now now' text : maxlen_ok c -> castDefault c (col_type TBool n c) now now' = Ok text -> clean text = text.
Proof.
  intros Hm. unfold castDefault. cbv zeta. cbn [colType col_type].
  destruct (bool_decide (TrimSpace _ = defaultNowText) || _); [by rewrite !bool_decide_true|].
  destruct (columnDefaultValue c now) as [v|er|q] eqn:Ev; cbn [mbind outcome_bind]; [|done..].
  pose proof (columnDefaultValue_typed c now v Hm Ev) as Hv. destruct (is_nil v); [by intros [= <-]|]. destruct Hv as [Hv _].
  unfold assignmentCast. cbn [colType col_type]. destruct (decide (colType c = TBool)) as [Et|Hn].
  - rewrite Et in Hv. cbn [mbind outcome_bind]. destruct v; try done; cbn [literalOf]; try done.
    destruct (columnDefaultValue _ now'); cbn [mbind outcome_bind]; try done. intros [= <-]. by destruct b.
  - rewrite decide_False by done. by destruct (colType c).
Qed.
Definition exChange : ColumnTypeChange := mkChange TBool 0 (Some (λ r, Ok (ABool (bool_decide (rVals r <> []))))) None.

Lemma exChange_ok : change_ok exChange.
Proof. split_and!; [by apply (bool_decide_unpack _)|by split|intros f r [= <-]; exact I|by intros f r p]. Qed.
Lemma exChange_clean c text : cleanColumn c = c -> maxlen_ok c -> castDefault c (col_type (chType exChange) (chMaxLen exChange) c) 0 0 = Ok text -> clean text = text.
Proof. intros _. apply castDefault_bool. Qed.

Lemma alter_type_converts_rows_witness :
  wp (AlterColumnType (go "p") (go "name") exChange 0 0) (λ o s', match o with
    | Ok _ => exists d ord c m1, table_at m1 (go "p") d /\ ColIndex d (go "name") = Some ord /\ tColumns d !! ord = Some c
    | Err _ => True
    | Panic _ => False end) (exState.1, exState.2).
Proof.
  eapply wp_mono; [exact (alter_type_converts_rows false (alone_sound 1) (go "p") (go "name") exChange 0 0 exChange_ok exChange_clean exState.1 exState.2 exState_sound)|].
  intros [r|er|p] s' H; [|exact I|exact H]. destruct H as (m1 & m2 & _ & _ & (d & ord & c & H1 & H2 & H3 & _) & _). exists d, ord, c, m1. auto.
Defined.
