(* ===== verification/WriteTxn.v ===== *)
(** * Whole transactions

    [txn.go]'s [WriteTxn] and [WriteTxnSerializable]: a [client] run in one
    transaction of the store commits everything it staged or nothing, and
    what it leaves is [sound]; inside it, rolling back to a savepoint undoes
    whatever was called since, the write cap holds, and [Truncate] empties a
    table. *)
From S2P Require Import Prelude GoVal GoStr Tuple KV Savepoint Json Catalog Desc Rows Index Table Seq Upkeep Dml Relation Engine Store MemDB Database Ddl DdlColumn DdlTable SeqObj Schema RowStmt Txn Handler Statements TxnOk TxnRun Run Atomic.

Local Open Scope Z_scope.

Section defs.
Context {E S : Type} {eng : EngineOps E} {cs : CatState E} {te : TxnEngine E} {grd : Guarded E} {al : Allocators E}.
Context {tx sp : Type} {kv : KV tx} {sv : KVSave tx sp} {sp_eq : EqDecision sp} {db : DB E S tx}.

Definition newTxn (t : tx) : Txn tx sp := mkTxn t false ∅ [] 0 [].

Fixpoint flushSeqInvalidations (dirty : list bytes) : M (E * S) unit :=
  match dirty with
  | [] => mret ()
  | p :: dirty' => _ ← onE (modify (e_invalidateCounterPrefix p)); flushSeqInvalidations dirty'
  end.

(** The closure given to [Update]; the marker is cleared on every way out.
    The transaction's pending invalidations are read after it. *)
Definition txnBody {A : Type} (serializable : bool) (fn : M (E * Txn tx sp) A) : M (E * tx) (A * list bytes) := λ '(e, t),
  let t := if serializable then kv_track_reads t else t in
  let e := e_setWriterGID (e_curGID e) e in
  let '(o, (e, T)) := fn (e, newTxn t) in
  let e := e_setWriterGID 0 e in
  (a ← o; mret (a, xDirty T), (e, xTx T)).

(** A panic is rolled back and raised again, so in the default mode this is
    the guarded [Update] under the writer lock. *)
Definition writeTxn {A : Type} (serializable : bool) (fn : M (E * Txn tx sp) A) : M (E * S) A :=
  _ ← checkReentrantWrite;
  '(a, dirty) ← (λ s,
    let '(o, c, s') := db_txn (if e_occ s.1 then RowUpdate else Serialized) (txnBody serializable fn) s in (txResult o c, s'));
  _ ← flushSeqInvalidations dirty;
  mret a.
Definition WriteTxn {A : Type} (fn : M (E * Txn tx sp) A) : M (E * S) A := writeTxn false fn.
Definition WriteTxnSerializable {A : Type} (fn : M (E * Txn tx sp) A) : M (E * S) A := writeTxn true fn.
End defs.

(** A transaction of the store starts with no savepoints. *)
Class FreshTxns (E S tx sp : Type) {kv : KV tx} {kv_laws : KVLaws tx} {sv : KVSave tx sp} {sv_laws : KVSaveLaws tx sp} {db : DB E S tx} := {
  db_txn_fresh (A : Type) mode (fn fn' : M (E * tx) A) s : (forall e t, kv_saves t = [] -> fn (e, t) = fn' (e, t)) ->
    db_txn mode fn s = db_txn mode fn' s;
}.

Section whole.
Context {E S : Type} {eng : EngineOps E} {eng_laws : EngineLaws E} {cs : CatState E} {cat_laws : CatLaws E} {te : TxnEngine E} {te_laws : TxnEngineLaws E}.
Context {grd : Guarded E} {al : Allocators E} {al_laws : AllocatorLaws E}.
Context {tx sp : Type} {kv : KV tx} {kv_laws : KVLaws tx} {sv : KVSave tx sp} {sv_laws : KVSaveLaws tx sp} {sp_eq : EqDecision sp}.
Context {db : DB E S tx} {db_laws : DBLaws E S tx} {fresh : FreshTxns E S tx sp}.
Implicit Types T : Txn tx sp.

Lemma newTxn_ok r e t : r < 2 ^ 63 -> cache_ok (cat e) -> kv_writable t = true -> view_ok r (kv_map t) -> kv_saves t = [] -> txn_ok r e (newTxn t : Txn tx sp).
Proof.
  intros Hr Hc Hw Hv Hs. split; cbn [newTxn xTx xDescs xSaves xWrites]; rewrite ?Hs; try done.
  - by intros p m ?%elem_of_nil.
  - by constructor.
  - by intros p ?%elem_of_nil.
  - split_and!; lia.
  - by intros p w ?%elem_of_nil.
Qed.
Lemma flush_settles dirty : settles (flushSeqInvalidations dirty : M (E * S) unit).
Proof. induction dirty as [|p dirty IH]; cbn [flushSeqInvalidations]; eauto with settles. Qed.

(** What the closure of a write transaction does to the state it starts on. *)
Definition body_runs {n : nat} (c : client sp n) (m : kvmap) (o : outcome (unit * list bytes)) (m' : kvmap) : Prop :=
  match o with
  | Ok _ => exists e t e1 T1, kv_map t = m /\ kv_saves t = [] /\ run_client c (e, newTxn t) = (Ok tt, (e1, T1)) /\ m' = kv_map (xTx T1)
  | _ => True
  end.
Lemma txnBody_ok serializable n (c : client sp n) k e t : 0 <= k -> k + Z.of_nat n < 2 ^ 63 -> sound false (k + Z.of_nat n) e (kv_map t) -> client_ok c ->
  kv_writable t = true -> kv_saves t = [] ->
  wp (txnBody serializable (run_client c)) (λ o s', sound false (k + Z.of_nat n) s'.1 (kv_map t) /\ sound false k s'.1 (kv_map s'.2) /\
    body_runs c (kv_map t) o (kv_map s'.2)) (e, t).
Proof.
  intros Hk Hn [H1 H2 H3 H4 H5] Hc Hw Hs. unfold wp, txnBody.
  set (t0 := if serializable then kv_track_reads t else t). set (e0 := e_setWriterGID (e_curGID e) e).
  destruct (kv_track_reads_saves t) as ([Ts _] & Tm & Tw).
  assert (kv_map t0 = kv_map t /\ kv_writable t0 = true /\ kv_saves t0 = []) as (Em & Ew & Es) by (unfold t0; destruct serializable; split_and!; congruence).
  assert (cache_ok (cat e0)) as He0 by (unfold e0; by rewrite cat_gid).
  assert (view_ok (k + Z.of_nat n) (kv_map t0)) as Hv by (rewrite Em; by split).
  pose proof (run_client_ok n c k e0 (newTxn t0) Hk (newTxn_ok _ e0 t0 Hn He0 Ew Hv Es) Hc) as Hr. unfold wp in Hr.
  destruct (run_client c (e0, newTxn t0)) as [o [e1 T1]] eqn:Er. cbn [fst snd] in *. destruct Hr as [Hok Hca _ _]. cbn [fst snd] in *.
  destruct Hok as [K1 K2 [K3 K4 K5] _ _ _ _ _ _ _].
  assert (cat (e_setWriterGID 0 e1) = cat e1 /\ e_occ (e_setWriterGID 0 e1) = false) as [Ec Eo].
  { rewrite cat_gid, occ_gid. split; [done|]. destruct Hca as (_ & _ & ->). unfold e0. by rewrite occ_gid. }
  split; [split; rewrite ?Ec; done|]. split; [split; rewrite ?Ec; done|]. destruct o as [[]|er|p]; [|done..]. by exists e0, t0, e1, T1.
Qed.

(** The whole run of the client, on a committed state, is what was committed. *)
Definition published_by {n : nat} (c : client sp n) (m m' : kvmap) : Prop := exists (e0 : E) t e1 T1, elsewhere (E := E) (S := S) (tx := tx) m (kv_map t) /\
  run_client c (e0, newTxn t) = (Ok tt, (e1, T1)) /\ elsewhere (E := E) (S := S) (tx := tx) (kv_map (xTx T1)) m'.

Context (rely : forall k, stable (sound false k)).

(** What [writeTxn] does, before its invalidations. *)
Lemma txn_step serializable n (c : client sp n) k e s : 0 <= k -> k + Z.of_nat n < 2 ^ 63 -> sound false (k + Z.of_nat n) e (db_head s) -> client_ok c ->
  let '(o, c', (e', s')) := db_txn Serialized (txnBody serializable (run_client c)) (e, s) in
  sound false k e' (db_head s') /\
  match txResult o c' with
  | Ok _ => exists m m', elsewhere (E := E) (S := S) (tx := tx) (db_head s) m /\ body_runs c m o m' /\ elsewhere (E := E) (S := S) (tx := tx) m' (db_head s')
  | Err er => elsewhere (E := E) (S := S) (tx := tx) (db_head s) (db_head s') \/ unsure er /\
      exists m o0 m', elsewhere (E := E) (S := S) (tx := tx) (db_head s) m /\ is_ok o0 = true /\ body_runs c m o0 m' /\ elsewhere (E := E) (S := S) (tx := tx) m' (db_head s')
  | Panic _ => elsewhere (E := E) (S := S) (tx := tx) (db_head s) (db_head s')
  end.
Proof.
  intros Hk Hn Hs Hc.
  set (fn := (λ s0, if decide (kv_saves s0.2 = []) then txnBody serializable (run_client c) s0 else (Err errReentrant, s0)) : M (E * tx) (unit * list bytes)).
  rewrite (db_txn_fresh _ _ _ fn) by (intros e0 t0 H0; unfold fn; cbn [snd]; by rewrite decide_True).
  destruct (db_txn_runs _ Serialized fn e s) as (e0 & t & c' & e' & s' & Hi & Hw & -> & Hx); [done|]. specialize (Hx ltac:(done)).
  pose proof (rely _ _ _ _ _ Hs Hi) as H0. apply elsewhere_once in Hi as Hel.
  assert (wp fn (λ o s1, sound false (k + Z.of_nat n) s1.1 (kv_map t) /\ (is_ok o = true -> sound false k s1.1 (kv_map s1.2) /\ body_runs c (kv_map t) o (kv_map s1.2))) (e0, t)) as Hb.
  { unfold wp, fn. cbn [snd]. case_decide as E0; [|by split]. pose proof (txnBody_ok serializable n c k e0 t Hk Hn H0 Hc Hw E0) as Hb. unfold wp in Hb.
    destruct (txnBody serializable (run_client c) (e0, t)) as [o [e1 t1]]. cbn [fst snd] in *. by destruct Hb as (B1 & B2 & B3). }
  unfold wp in Hb. destruct (fn (e0, t)) as [o [e1 t1]]. cbn [fst snd] in *. destruct Hb as [Hb1 Hb2].
  destruct c' as [[]|er|p]; [|..|done].
  - destruct Hx as [Hok Hx]. destruct (Hb2 Hok) as [Hb3 Hb4]. split; [by eapply rely|]. destruct o as [[[] dirty]|er|p]; [|done..]. cbn [txResult].
    exists (kv_map t), (kv_map t1). split_and!; [done..|by eapply elsewhere_once].
  - destruct Hx as [[Hx|(Hu & Hok & Hx)] _].
    2:{ destruct (Hb2 Hok) as [Hb3 Hb4]. split; [by eapply rely|]. destruct o as [[[] dirty]|er'|p]; [|done..]. cbn [txResult].
        right. split; [done|]. exists (kv_map t), (Ok (tt, dirty)), (kv_map t1). split_and!; [done..|by eapply elsewhere_once]. }
    split; [eapply rely; [|exact Hx]; eapply sound_less; [|exact Hb1]; lia|].
    assert (elsewhere (E := E) (S := S) (tx := tx) (db_head s) (db_head s')) as Hno by (etransitivity; [exact Hel|by eapply elsewhere_once]).
    destruct o as [[[] dirty]|er'|p]; cbn [txResult]; [by left..|done].
Qed.

Lemma writeTxn_wp serializable n (c : client sp n) k (e : E) (s : S) : 0 <= k -> k + Z.of_nat n < 2 ^ 63 ->
  sound false (k + Z.of_nat n) e (db_head s) -> client_ok c ->
  wp (writeTxn serializable (run_client c)) (λ o s', sound false k s'.1 (db_head s'.2) /\
    match o with
    | Ok _ => published_by c (db_head s) (db_head s'.2)
    | Err er => elsewhere (E := E) (S := S) (tx := tx) (db_head s) (db_head s'.2) \/ unsure er /\ published_by c (db_head s) (db_head s'.2)
    | Panic _ => elsewhere (E := E) (S := S) (tx := tx) (db_head s) (db_head s'.2)
    end) (e, s).
Proof.
  intros Hk Hn Hs Hc. unfold writeTxn. apply wp_bind. pose proof (sd_occ _ _ _ _ Hs) as Ho. unfold wp, checkReentrantWrite. cbn [fst snd]. rewrite Ho.
  destruct (_ && _); cbn [seqQ fst snd]; [split; [eapply sound_less; [|exact Hs]; lia|left; constructor]|].
  apply wp_bind. unfold wp. cbn [fst]. rewrite Ho. pose proof (txn_step serializable n c k e s Hk Hn Hs Hc) as Hx.
  destruct (db_txn Serialized _ _) as [[o c'] [e' s']]. cbn [fst snd]. destruct Hx as [Hx1 Hx2]. destruct (txResult o c') as [[[] dirty]|er|p] eqn:Eo; cbn [seqQ].
  2:{ split; [done|]. destruct Hx2 as [Hx2|(Hu & m & o0 & m' & H1 & Ho0 & H2 & H3)]; [by left|]. right. split; [done|].
      destruct o0 as [a|er0|p]; [|done..]. destruct H2 as (e0 & t & e1 & T1 & <- & _ & Hr & ->). by exists e0, t, e1, T1. }
  2:{ by split. }
  destruct Hx2 as (m & m' & H1 & H2 & H3). assert (o = Ok (tt, dirty)) as -> by (destruct o as [[[] ?]|er|p], c' as [[]|er'|p']; cbn in Eo; congruence).
  destruct H2 as (e0 & t & e1 & T1 & <- & _ & Hr & ->). apply wp_bind. unfold wp. destruct (flush_settles dirty e' s') as ([] & e2 & -> & Hca).
  cbn [seqQ fst snd]. apply wp_ret. cbn [fst snd]. split; [by eapply sound_cached|]. by exists e0, t, e1, T1.
Qed.

(** C3: a write transaction is atomic and keeps the database sound. Whatever
    a client calls inside it, in any order and whatever the calls return, if
    [WriteTxn] returns nil then the committed state is the one the client's
    calls produced from a committed state, and if it returns an error or the
    client panics, nothing of what was staged is left; only an error of the
    log write leaves open which of the two it was. Others' commits before
    and after are all that is between. Either way the next statement finds a
    sound database. *)
Theorem write_txn_atomic serializable n (c : client sp n) k (e : E) (s : S) : 0 <= k -> k + Z.of_nat n < 2 ^ 63 ->
  sound false (k + Z.of_nat n) e (db_head s) -> client_ok c ->
  wp (writeTxn serializable (run_client c)) (λ o s', sound false k s'.1 (db_head s'.2) /\
    match o with
    | Ok _ => published_by c (db_head s) (db_head s'.2)
    | Err er => elsewhere (E := E) (S := S) (tx := tx) (db_head s) (db_head s'.2) \/ unsure er /\ published_by c (db_head s) (db_head s'.2)
    | Panic _ => elsewhere (E := E) (S := S) (tx := tx) (db_head s) (db_head s'.2)
    end) (e, s).
Proof. apply writeTxn_wp. Qed.
End whole.

(** ** Inside a transaction *)

Section inside.
Context {E : Type} {eng : EngineOps E} {eng_laws : EngineLaws E} {cs : CatState E} {cat_laws : CatLaws E} {te : TxnEngine E} {te_laws : TxnEngineLaws E}.
Context {tx sp : Type} {kv : KV tx} {kv_laws : KVLaws tx} {sv : KVSave tx sp} {sv_laws : KVSaveLaws tx sp} {sp_eq : EqDecision sp}.
Implicit Types T : Txn tx sp.

Lemma nodup_fst {A : Type} (l : list (sp * A)) p a b : NoDup l.*1 -> (p, a) ∈ l -> (p, b) ∈ l -> a = b.
Proof.
  intros Hnd [i Hi]%list_elem_of_lookup [j Hj]%list_elem_of_lookup.
  assert (i = j) as -> by (eapply NoDup_lookup; [exact Hnd|rewrite list_lookup_fmap, Hi; done|by rewrite list_lookup_fmap, Hj]). congruence.
Qed.

(** C16: rolling back to a savepoint undoes everything since: whatever a
    client called between the two (rows written, tables truncated, counters
    moved, further savepoints taken, released or rolled back to), the
    transaction's state is the one the savepoint captured, and so is the
    number of writes counted against the cap. *)
Theorem rollback_restores n (c : client sp n) (e e1 e2 e3 : E) T T1 T2 T3 p o : txn_ok (Z.of_nat n + 2) e T -> client_ok c ->
  TxnSavepoint (e, T) = (Ok p, (e1, T1)) -> run_client c (e1, T1) = (o, (e2, T2)) -> TxnRollbackTo p (e2, T2) = (Ok tt, (e3, T3)) ->
  kv_map (xTx T3) = kv_map (xTx T) /\ xWrites T3 = xWrites T.
Proof.
  intros Hok Hc H1 H2 H3. replace (Z.of_nat n + 2) with (1 + Z.of_nat n + 1) in Hok by lia.
  pose proof (TxnSavepoint_wp (1 + Z.of_nat n) e T ltac:(lia) Hok) as W1. unfold wp in W1. rewrite H1 in W1. cbn [fst snd] in W1.
  destruct W1 as [[_ G1] S1]. destruct (S1 p eq_refl) as (P1 & P2 & P3 & _). pose proof (go_ok _ _ _ G1) as Hok1. cbn [fst snd] in Hok1.
  pose proof (run_client_ok n c 1 e1 T1 ltac:(lia) Hok1 Hc) as W2. unfold wp in W2. rewrite H2 in W2. cbn [fst snd] in W2.
  pose proof (go_ok _ _ _ W2) as Hok2. cbn [fst snd] in Hok2. pose proof (TxnRollbackTo_wp 0 p e2 T2 ltac:(lia) Hok2) as W3.
  unfold wp in W3. rewrite H3 in W3. cbn [fst snd] in W3. destruct W3 as [_ W3]. destruct (W3 eq_refl) as (m & w & Q1 & Q2 & -> & ->).
  destruct (go_marks _ _ _ W2) as [_ M1 M2]. cbn [snd] in M1, M2. apply M1 in Q1; [|done]. apply M2 in Q2; [|done].
  pose proof (tk_nodup _ _ _ Hok1) as Hnd. split; [exact (nodup_fst _ _ _ _ Hnd Q1 P2)|].
  rewrite <- (tk_mirror _ _ _ Hok1) in Hnd. exact (nodup_fst _ _ _ _ Hnd Q2 P3).
Qed.


(** C29: [Truncate] leaves the table with no row and no index entry, drops
    the identity counters exactly when asked to restart them, and touches no
    other table, and it never panics. *)
Theorem truncate_empties table restart (e : E) T : txn_ok 1 e T ->
  wp (TxnTruncate table restart) (λ o s', let m := kv_map (xTx T) in let m' := kv_map (xTx s'.2) in
    match o with
    | Ok _ => exists d, table_at m table d /\ db_inv m' /\ rows_step table d (λ _ rows, rows = ∅) m m' /\
        forall c, uint32_ok c -> m' !! identitySeqKey (tID d) c = if restart then None else m !! identitySeqKey (tID d) c
    | Err _ => db_inv m'
    | Panic _ => False
    end) (e, T).
Proof.
  intros Hok. apply (wp_TxnTruncate 0); [done|done| |].
  - intros d s' Hg Hat Htr. cbv zeta. exists d. pose proof (vo_db _ _ (tk_view _ _ _ Hok)) as Hdb.
    destruct (truncated_step _ _ table d restart Hdb Hat Htr) as [Hdb' Hst]. split_and!; [done..|].
    intros c Hc. rewrite Htr. destruct (table_at_wf _ table d Hdb Hat) as [_ Hwd].
    pose proof (identitySeqKey_prefix (tID d) c Hc) as Hpre. destruct restart; [by rewrite decide_True by (by right)|].
    apply decide_False. intros [Hp|[? _]]; [|done]. apply identity_space in Hpre.
    exact (user_not_sys (tID d) sysSeqTableID _ (wf_tID _ (cw_wf _ Hwd)) ltac:(done) Hp Hpre).
  - intros er s' Hg. cbv zeta. exact (vo_db _ _ (tk_view _ _ _ (go_ok _ _ _ Hg))).
Qed.
End inside.

(** ** A store with savepoints *)

#[export] Instance mem_txn_engine : TxnEngine MemEngine := { e_maxTxnWrites _ := 2; e_setWriterGID _ e := e; }.
#[export] Instance mem_txn_engine_laws : TxnEngineLaws MemEngine.
Proof. split; cbn; intros; simplify_eq; done. Qed.

Definition save_begin (m : kvmap) : SaveTx := Save (Mem (KV.View m true true [])) [] 0.
Definition save_txn {A : Type} (fn : M (MemEngine * SaveTx) A) (s : MemEngine * MemStore) : outcome A * outcome unit * (MemEngine * MemStore) :=
  let '(o, (e, t)) := fn (s.1, save_begin s.2) in
  match o with
  | Ok _ => (o, Ok tt, (e, v_map (mem_view (sv_mem t))))
  | _ => (o, Err errRolledBack, (e, s.2))
  end.
#[export] Instance save_db : DB MemEngine MemStore SaveTx := { db_txn A _ fn s := save_txn fn s; }.
#[export] Instance save_db_laws : DBLaws MemEngine MemStore SaveTx.
Proof.
  refine {| db_head (m : MemStore) := m; interf := eq; unsure _ := False |}; [by intros []|]. intros A mode fn e m _. unfold db_txn, save_db, save_txn. cbn [fst snd].
  exists e, (save_begin m). destruct (fn (e, save_begin m)) as [o [e1 t1]]. destruct o as [a|er|p]; eexists _, _, _; (split_and!; try done; by split; [left|]).
Defined.
#[export] Instance save_fresh : FreshTxns MemEngine MemStore SaveTx nat.
Proof. split. intros A mode fn fn' s H. unfold db_txn, save_db, save_txn. by rewrite H. Qed.

Lemma save_sound k : stable (S := MemStore) (tx := SaveTx) (sound (E := MemEngine) false k).
Proof. intros e m e' m' H Heq. injection Heq as <- <-. exact H. Qed.
Lemma exState_save k : 0 <= k < 1000 -> sound false k exState.1 (db_head (DBLaws := save_db_laws) exState.2).
Proof. apply exState_room. Qed.

(** Inserts a row, and takes back a second one. *)
Definition exClient : client nat 4 :=
  CCall (TInsert (go "p") [AInt KInt64 3; AString (go "b")]) (λ _,
  CCall TSavepoint (λ o, match o with
    | Ok (RPoint p) =>
        CCall (TInsert (go "p") [AInt KInt64 4; AString (go "c")]) (λ _,
        CCall (TRollbackTo p) (λ o, CReturn match o with Err er => Err er | _ => Ok tt end))
    | _ => CReturn (Err errNoTable)
    end)).
Lemma exClient_ok : client_ok exClient.
Proof.
  split; [repeat constructor; cbn; lia|]. intros _. split; [done|]. intros [[| | | |p]|er|pn]; try done.
  split; [repeat constructor; cbn; lia|]. intros _. by split.
Qed.

Lemma write_txn_atomic_witness :
  wp (writeTxn true (run_client exClient)) (λ o s', sound false 1 s'.1 (db_head (DBLaws := save_db_laws) s'.2)) (exState.1, exState.2).
Proof.
  eapply wp_mono; [exact (write_txn_atomic save_sound true 4 exClient 1 exState.1 exState.2 ltac:(lia) ltac:(lia) (exState_save 5 ltac:(lia)) exClient_ok)|].
  intros o s' [H _]. exact H.
Defined.

Definition exTx : SaveTx := save_begin exState.2.
Lemma exTx_view k : 0 <= k < 1000 -> cache_ok (cat exState.1) /\ view_ok k (kv_map exTx).
Proof. intros Hk. destruct (exState_room k Hk) as [H1 H2 H3 H4 H5]. split; [exact H1|]. split; [exact H3|exact H4|exact H5]. Qed.
Lemma exTxn_ok k : 0 <= k < 1000 -> txn_ok k exState.1 (newTxn exTx : Txn SaveTx nat).
Proof. intros Hk. destruct (exTx_view k Hk) as [H1 H2]. apply newTxn_ok; [lia|exact H1|reflexivity|exact H2|reflexivity]. Qed.

Definition exMoves : client nat 2 := CCall (TSetSeq (go "q") 5) (λ _, CCall TSavepoint (λ _, CReturn (Ok tt))).
Lemma exMoves_ok : client_ok exMoves.
Proof. split; [exact I|]. intros _. split; [exact I|]. intros _. exact I. Qed.
Definition exMarked (m : kvmap) : Txn SaveTx nat := x_saves [(0%nat, 0)] (newTxn (Save (Mem (KV.View m true true [])) [(0%nat, m)] 1)).
Lemma exMarked_taken (e : MemEngine) m : TxnSavepoint (e, newTxn (save_begin m)) = (Ok 0%nat, (e, exMarked m)).
Proof. reflexivity. Qed.
Definition exMoved (e : MemEngine) (m : kvmap) : Txn SaveTx nat := (run_client exMoves (e, exMarked m)).2.2.
Lemma exMoved_run (e : MemEngine) m : run_client exMoves (e, exMarked m) = (Ok tt, (e, exMoved e m)).
Proof. reflexivity. Qed.
Lemma exMoved_back (e : MemEngine) m : exists T3, TxnRollbackTo 0%nat (e, exMoved e m) = (Ok tt, (e, T3)).
Proof. eexists. reflexivity. Qed.
Lemma rollback_restores_witness : exists T3, TxnRollbackTo 0%nat (exState.1, exMoved exState.1 exState.2) = (Ok tt, (exState.1, T3)) /\
  kv_map (xTx T3) = kv_map exTx /\ xWrites T3 = 0.
Proof.
  destruct (exMoved_back exState.1 exState.2) as [T3 H3]. exists T3. split; [exact H3|].
  exact (rollback_restores 2 exMoves exState.1 exState.1 exState.1 exState.1 (newTxn exTx) (exMarked exState.2) (exMoved exState.1 exState.2) T3 0%nat (Ok tt)
    (exTxn_ok 4 ltac:(lia)) exMoves_ok (exMarked_taken exState.1 exState.2) (exMoved_run exState.1 exState.2) H3).
Defined.


Lemma truncate_empties_witness :
  wp (TxnTruncate (go "p") true) (λ o s', let m := kv_map exTx in let m' := kv_map (xTx s'.2) in
    match o with
    | Ok _ => exists d, table_at m (go "p") d /\ db_inv m' /\ rows_step (go "p") d (λ _ rows, rows = ∅) m m' /\
        forall c, uint32_ok c -> m' !! identitySeqKey (tID d) c = None
    | Err _ => db_inv m'
    | Panic _ => False
    end) (exState.1, newTxn exTx : Txn SaveTx nat).
Proof. exact (truncate_empties (go "p") true exState.1 (newTxn exTx) (exTxn_ok 1 ltac:(lia))). Defined.
