(* ===== verification/Session.v ===== *)
(** * Sessions

    [sql/session.go] and [sql/vars.go]: a session runs statements outside a
    block, each in its own transaction, and between BEGIN and COMMIT or
    ROLLBACK in one transaction of the engine, with savepoints, a failed
    state and the parameters of SET and SHOW. [txn.go]'s [Begin], [Commit]
    and [Rollback] are here too. What one statement does to the database is
    the business of the executor, which is the interface [SqlExec]. *)
From S2P Require Import Prelude GoVal GoStr GoFloat KV Savepoint Catalog Dml Engine Store Txn WriteTxn Conn.

Local Open Scope Z_scope.

(** ** Transactions begun and ended by the caller *)

(** [Begin], [Commit] and [Rollback] of btypedb. *)
Class DBOpen (E S tx : Type) := {
  db_begin : bool -> M (E * S) tx;
  db_commit : tx -> M (E * S) unit;
  db_rollback : tx -> M (E * S) unit;
}.

Section open.
Context {E S : Type} {eng : EngineOps E} {te : TxnEngine E} {grd : Guarded E} {al : Allocators E}.
Context {tx sp : Type} {kv : KV tx} {sv : KVSave tx sp} {op : DBOpen E S tx}.
Abbreviation Txn := (Txn tx sp).

Definition readSnapshot : M (E * S) Txn := t ← db_begin false; mret (newTxn t).
Definition Begin (writable : bool) : M (E * S) Txn :=
  if writable then
    _ ← checkReentrantWrite;
    t ← db_begin true;
    _ ← onE (modify (λ e, e_setWriterGID (e_curGID e) e));
    mret (mkTxn t true ∅ [] 0 [])
  else readSnapshot.
Definition BeginSerializable : M (E * S) Txn :=
  T ← Begin true;
  mret (x_tx kv_track_reads T).

(** Ending a transaction changes it too: its marker is released once. *)
Definition x_releaseW (b : bool) (T : Txn) : Txn := mkTxn (xTx T) b (xDescs T) (xDirty T) (xWrites T) (xSaves T).
Definition x_flushed (T : Txn) : Txn := mkTxn (xTx T) (xReleaseW T) (xDescs T) [] (xWrites T) (xSaves T).
Definition onStore {A : Type} (m : Txn -> M (E * S) A) : M ((E * S) * Txn) A := λ s,
  let '(o, s') := m s.2 s.1 in (o, (s', s.2)).
Definition releaseWriter : M ((E * S) * Txn) unit := λ s,
  if xReleaseW s.2 then (Ok tt, ((e_setWriterGID 0 s.1.1, s.1.2), x_releaseW false s.2)) else (Ok tt, s).
Definition Commit : M ((E * S) * Txn) unit :=
  _ ← releaseWriter;
  _ ← onStore (λ T, db_commit (xTx T));
  _ ← onStore (λ T, flushSeqInvalidations (xDirty T));
  modify (λ s, (s.1, x_flushed s.2)).
Definition Rollback : M ((E * S) * Txn) unit :=
  _ ← releaseWriter;
  onStore (λ T, db_rollback (xTx T)).
End open.

(** ** Statements *)

(** The kinds of [ast.go] that are not handled by the session itself. *)
Inductive stmtKind :=
  | KSelect | KInsert | KUpdate | KDelete | KTruncate | KVacuum | KExplain | KCreateTable | KDropTable | KCreateView | KDropView
  | KAddColumn | KDropColumn | KRenameTable | KRenameColumn | KAddConstraint | KAddFK | KDropConstraint
  | KAlterOwner | KAlterColumnDefault | KAlterColumnNotNull | KAlterColumnType | KAlterColumnNoop | KAlterColumnRestart | KReplacePrimaryKey
  | KCreateIndex | KDropIndex | KCreateSequence | KDropSequence | KAlterSequence.
#[export] Instance stmtKind_eq : EqDecision stmtKind.
Proof. solve_decision. Defined.
Inductive TxnKind := TxnBegin | TxnCommit | TxnRollback | TxnSavepointK | TxnReleaseK | TxnRollbackToK.
Record TxnControl := mkControl { tcKind : TxnKind; tcReadOnly : bool; tcIsolation : bytes; tcTag : bytes; tcName : bytes }.
Record SetVar := mkSet { svName : bytes; svValue : bytes; svIsDefault : bool; svTag : bytes }.
Inductive Statement (St : Type) :=
  | SControl (tc : TxnControl)
  | SSet (v : SetVar)
  | SShow (name : bytes)
  | SOther (k : stmtKind) (st : St).
Arguments SControl {St} tc.
Arguments SSet {St} v.
Arguments SShow {St} name.
Arguments SOther {St} k st.

Definition kindTag (k : stmtKind) : bytes :=
  match k with
  | KCreateTable => go "CREATE TABLE"
  | KDropTable => go "DROP TABLE"
  | KTruncate => go "TRUNCATE TABLE"
  | KVacuum => go "VACUUM"
  | KCreateView => go "CREATE VIEW"
  | KDropView => go "DROP VIEW"
  | KAddColumn | KDropColumn | KRenameTable | KRenameColumn | KAddConstraint | KAddFK | KDropConstraint | KAlterOwner
  | KAlterColumnDefault | KAlterColumnNotNull | KAlterColumnType | KAlterColumnNoop | KAlterColumnRestart | KReplacePrimaryKey => go "ALTER TABLE"
  | KCreateIndex => go "CREATE INDEX"
  | KDropIndex => go "DROP INDEX"
  | KCreateSequence => go "CREATE SEQUENCE"
  | KDropSequence => go "DROP SEQUENCE"
  | KAlterSequence => go "ALTER SEQUENCE"
  | KInsert => go "INSERT"
  | KSelect => go "SELECT"
  | KUpdate => go "UPDATE"
  | KDelete => go "DELETE"
  | KExplain => go "EXPLAIN"
  end.
Definition command {St : Type} (st : Statement St) : bytes :=
  match st with
  | SControl tc => tcTag tc
  | SSet v => svTag v
  | SShow _ => go "SHOW"
  | SOther k _ => kindTag k
  end.
Definition isDDL (k : stmtKind) : bool :=
  match k with
  | KCreateTable | KDropTable | KAddColumn | KDropColumn | KRenameTable | KRenameColumn | KAlterColumnDefault | KAlterColumnNotNull
  | KAlterColumnType | KReplacePrimaryKey | KAddConstraint | KAddFK | KDropConstraint | KCreateIndex | KDropIndex
  | KCreateSequence | KDropSequence | KAlterSequence | KCreateView | KDropView => true
  | _ => false
  end.
Definition isWrite (k : stmtKind) : bool :=
  match k with KInsert | KUpdate | KDelete | KTruncate | KAlterColumnRestart => true | _ => isDDL k end.

(** ** Parameters *)

(** [strings.Fields] *)
Definition flush_field (cur : bytes) : list bytes := match cur with [] => [] | _ => [cur] end.
Fixpoint fields_fuel (fuel : nat) (s cur : bytes) : list bytes :=
  match fuel, s with
  | Datatypes.S fuel', c :: s' =>
      let '(r, rest) := decode_rune c s' in
      if isSpace r then flush_field cur ++ fields_fuel fuel' rest []
      else fields_fuel fuel' rest (cur ++ take (length s - length rest) s)
  | _, _ => flush_field cur
  end.
Definition Fields (s : bytes) : list bytes := fields_fuel (length s) s [].

(** [strings.ToLower], for a comparison with ASCII text: besides the ASCII
    letters, two runes have an ASCII letter as their lower case. *)
Fixpoint lower_fuel (fuel : nat) (s : bytes) : bytes :=
  match fuel, s with
  | Datatypes.S fuel', c :: s' =>
      let '(r, rest) := decode_rune c s' in
      (if r <? 0x80 then [lower c]
       else if r =? 0x130 then [x69]
       else if r =? 0x212A then [x6b]
       else take (length s - length rest) s) ++ lower_fuel fuel' rest
  | _, _ => s
  end.
Definition ToLowerASCII (s : bytes) : bytes := lower_fuel (length s) s.

Definition isoSerializable : bytes := go "serializable".
Definition isoRepeatable : bytes := go "repeatable read".
Definition isoCommitted : bytes := go "read committed".
Definition isoDefault (occ : bool) : bytes := if occ then isoRepeatable else isoSerializable.
Fixpoint joinBlank (l : list bytes) : bytes :=
  match l with [] => [] | [w] => w | w :: l' => w ++ x20 :: joinBlank l' end.
Definition normalizeIso (v : bytes) : option bytes :=
  let w := ToLowerASCII (joinBlank (Fields v)) in
  if bool_decide (w = isoSerializable) then Some isoSerializable
  else if bool_decide (w = isoRepeatable) then Some isoRepeatable
  else if bool_decide (w = isoCommitted \/ w = go "read uncommitted") then Some isoCommitted
  else None.

Definition errParam (name : bytes) : error := ENew (go "invalid value for parameter " ++ quoted name).

(** Durations are nanoseconds. *)
Definition unitScale (unit : bytes) : option Z :=
  if bool_decide (unit = [] \/ unit = go "ms") then Some (10 ^ 6)
  else if bool_decide (unit = go "us") then Some (10 ^ 3)
  else if bool_decide (unit = go "s") then Some (10 ^ 9)
  else if bool_decide (unit = go "min") then Some (60 * 10 ^ 9)
  else if bool_decide (unit = go "h") then Some (3600 * 10 ^ 9)
  else if bool_decide (unit = go "d") then Some (24 * 3600 * 10 ^ 9)
  else None.
Definition numByte (c : byte) : bool := ((48 <=? b2z c) && (b2z c <=? 57)) || bool_decide (c = x2d) || bool_decide (c = x2e).
Fixpoint splitNum (s : bytes) : bytes * bytes :=
  match s with
  | [] => ([], [])
  | c :: s' => if numByte c then let '(a, r) := splitNum s' in (c :: a, r) else ([], s)
  end.
(** [n * float64(scale)] for a number that is not negative, cut to whole
    nanoseconds; [None] when that is outside [int64], where what the
    conversion gives depends on the machine. *)
Definition scaled (n scale : Z) : option Z :=
  b ← roundF64 (f64_mag (n mod 2 ^ 63) * scale) (2 ^ 1074);
  let d := f64_mag b / 2 ^ 1074 in
  if d <? 2 ^ 63 then Some d else None.

(** [wild] is the conversion of a float64 outside the range of [int64]. *)
Definition parseTimeout (wild : Z) (v : SetVar) : outcome Z :=
  if svIsDefault v then Ok 0
  else
    let text := TrimSpace (svValue v) in
    let '(num, unit) := splitNum text in
    let '(num, unit) := match unit with [] => (text, []) | _ => (TrimSpace num, TrimSpace unit) end in
    match ParseFloat num with
    | None => Err (errParam (go "statement_timeout"))
    | Some n =>
        match unitScale unit with
        | None => Err (errParam (go "statement_timeout"))
        | Some scale =>
            if f64_neg n && negb (f64_is0 n) then Err (errParam (go "statement_timeout"))
            else Ok (default wild (scaled n scale))
        end
    end.

(** [server_version] and the rest of [showDefaults]. *)
Definition ServerVersion : bytes := go "16.0 (bytdb)".
Definition showDefaults : gmap bytes bytes := list_to_map [
  (go "server_version", ServerVersion);
  (go "server_encoding", go "UTF8");
  (go "client_encoding", go "UTF8");
  (go "datestyle", go "ISO, MDY");
  (go "integer_datetimes", go "on");
  (go "standard_conforming_strings", go "on");
  (go "timezone", go "UTC");
  (go "search_path", x22 :: go "$user" ++ x22 :: go ", public");
  (go "transaction_isolation", isoSerializable);
  (go "default_transaction_isolation", isoSerializable);
  (go "statement_timeout", go "0");
  (go "max_identifier_length", go "63")].
Definition errNoParam (name : bytes) : error := ENew (go "unrecognized configuration parameter " ++ quoted name).
Definition showRow (cols : list bytes) (rows : list (list bytes)) : Result :=
  mkResult cols (map (λ _, TString) cols) (map (map AString) rows) 0 (go "SHOW") [].
Definition showGet (vars : gmap bytes bytes) (timeout : Z) (iso : gmap bytes bytes) (name : bytes) : option bytes :=
  if bool_decide (name = go "statement_timeout") && (0 <? timeout) then Some (fmtInt (Z.quot timeout (10 ^ 6)) ++ go "ms")
  else match iso !! name with
       | Some v => Some v
       | None => match vars !! name with Some v => Some v | None => showDefaults !! name end
       end.
Definition showNames (vars : gmap bytes bytes) : list bytes := merge_sort ble (elements (dom showDefaults ∪ dom vars : gset bytes)).
Definition execShow (name : bytes) (vars : gmap bytes bytes) (timeout : Z) (iso : gmap bytes bytes) : outcome Result :=
  if bool_decide (name = go "all") then
    Ok (showRow [go "name"; go "setting"; go "description"] ((λ n, [n; default [] (showGet vars timeout iso n); []]) <$> showNames vars))
  else match showGet vars timeout iso name with
       | None => Err (errNoParam name)
       | Some v => Ok (showRow [name] [[v]])
       end.

(** ** The executor *)

(** [DB.runCtx] of one statement: on the database, in a transaction of its
    own ([run_auto], serializable when the flag says so), or inside the
    block's transaction ([run_in]). The first argument is the session's
    timeout, whose context both run under. *)
Class SqlExec (E S tx sp St : Type) := {
  run_auto : Z -> bool -> stmtKind -> St -> list any -> M (E * S) Result;
  run_in : Z -> stmtKind -> St -> list any -> M (E * Txn tx sp) Result;
}.

(** ** Sessions *)

Record Session (tx sp : Type) := mkSession {
  sTx : option (Txn tx sp);
  sReadOnly : bool;
  sAborted : bool;
  sSaves : list (bytes * sp);
  sDefIso : bytes;
  sTxIso : bytes;
  sTxStmts : bool;
  sTimeout : Z;
  sVars : gmap bytes bytes;
  sSerial : bool;                      (* db.serial *)
}.
Arguments mkSession {tx sp} _ _ _ _ _ _ _ _ _ _.
Arguments sTx {tx sp} _.
Arguments sReadOnly {tx sp} _.
Arguments sAborted {tx sp} _.
Arguments sSaves {tx sp} _.
Arguments sDefIso {tx sp} _.
Arguments sTxIso {tx sp} _.
Arguments sTxStmts {tx sp} _.
Arguments sTimeout {tx sp} _.
Arguments sVars {tx sp} _.
Arguments sSerial {tx sp} _.

Definition TxIdle : byte := x49.
Definition TxActive : byte := x54.
Definition TxFailed : byte := x45.

Definition done_ : Result := mkResult [] [] [] 0 [] [].
Definition tagged_ (tag : bytes) : Result := mkResult [] [] [] 0 tag [].
Definition noticed (tag notice : bytes) : Result := mkResult [] [] [] 0 tag notice.

Definition errAborted : error := ENew (go "current transaction is aborted, commands ignored until end of transaction block").
Definition errVacuumBlock : error := ENew (go "VACUUM cannot run inside a transaction block").
Definition errInBlock (cmd : bytes) : error := ENew (cmd ++ go " cannot run inside a transaction block").
Definition errReadOnly (cmd : bytes) : error := ENew (go "cannot execute " ++ cmd ++ go " in a read-only transaction").
Definition errIsoLate : error := ENew (go "SET TRANSACTION ISOLATION LEVEL must be called before any query").
Definition errOutside (verb : bytes) : error := ENew (verb ++ go " can only be used in transaction blocks").
Definition errNoSave (name : bytes) : error := ENew (go "savepoint " ++ quoted name ++ go " does not exist").

(** The most recent savepoint of that name. *)
Fixpoint findSave {A : Type} (name : bytes) (l : list (bytes * A)) (n : nat) : option (nat * A) :=
  match n with
  | O => None
  | Datatypes.S i =>
      match l !! i with
      | Some (nm, p) => if bool_decide (nm = name) then Some (i, p) else findSave name l i
      | None => findSave name l i
      end
  end.

Section session.
Context {E S : Type} {eng : EngineOps E} {cs : CatState E} {te : TxnEngine E} {grd : Guarded E} {al : Allocators E}.
Context {tx sp : Type} {kv : KV tx} {sv : KVSave tx sp} {sp_eq : EqDecision sp} {op : DBOpen E S tx}.
Context {St : Type} {ex : SqlExec E S tx sp St} (wild : Z).
Abbreviation Txn := (Txn tx sp).
Abbreviation Session := (Session tx sp).
Abbreviation W := ((E * S) * Session)%type.

Definition NewSession : Session := mkSession None false false [] [] [] false 0 ∅ false.
Definition Status (s : Session) : byte :=
  match sTx s with None => TxIdle | Some _ => if sAborted s then TxFailed else TxActive end.

Definition s_open (T : Txn) (ro : bool) (iso : bytes) (s : Session) : Session :=
  mkSession (Some T) ro false [] (sDefIso s) iso false (sTimeout s) (sVars s) (sSerial s).
(** [s.tx, s.sdb, s.aborted, s.saves = nil, nil, false, nil] *)
Definition s_closed (s : Session) : Session :=
  mkSession None (sReadOnly s) false [] (sDefIso s) (sTxIso s) (sTxStmts s) (sTimeout s) (sVars s) (sSerial s).
Definition s_tx (T : Txn) (s : Session) : Session :=
  mkSession (Some T) (sReadOnly s) (sAborted s) (sSaves s) (sDefIso s) (sTxIso s) (sTxStmts s) (sTimeout s) (sVars s) (sSerial s).
Definition s_aborted (b : bool) (s : Session) : Session :=
  mkSession (sTx s) (sReadOnly s) b (sSaves s) (sDefIso s) (sTxIso s) (sTxStmts s) (sTimeout s) (sVars s) (sSerial s).
Definition s_saves (l : list (bytes * sp)) (s : Session) : Session :=
  mkSession (sTx s) (sReadOnly s) (sAborted s) l (sDefIso s) (sTxIso s) (sTxStmts s) (sTimeout s) (sVars s) (sSerial s).
Definition s_defIso (iso : bytes) (serial : bool) (s : Session) : Session :=
  mkSession (sTx s) (sReadOnly s) (sAborted s) (sSaves s) iso (sTxIso s) (sTxStmts s) (sTimeout s) (sVars s) serial.
Definition s_txIso (iso : bytes) (s : Session) : Session :=
  mkSession (sTx s) (sReadOnly s) (sAborted s) (sSaves s) (sDefIso s) iso (sTxStmts s) (sTimeout s) (sVars s) (sSerial s).
Definition s_stmts (s : Session) : Session :=
  mkSession (sTx s) (sReadOnly s) (sAborted s) (sSaves s) (sDefIso s) (sTxIso s) true (sTimeout s) (sVars s) (sSerial s).
Definition s_timeout (d : Z) (s : Session) : Session :=
  mkSession (sTx s) (sReadOnly s) (sAborted s) (sSaves s) (sDefIso s) (sTxIso s) (sTxStmts s) d (sVars s) (sSerial s).
Definition s_vars (v : gmap bytes bytes) (s : Session) : Session :=
  mkSession (sTx s) (sReadOnly s) (sAborted s) (sSaves s) (sDefIso s) (sTxIso s) (sTxStmts s) (sTimeout s) v (sSerial s).

Definition getS {A : Type} (f : Session -> A) : M W A := gets (λ w, f w.2).
Definition setS (f : Session -> Session) : M W unit := modify (λ w, (w.1, f w.2)).
Definition onDB {A : Type} (m : M (E * S) A) : M W A := λ w, let '(o, s) := m w.1 in (o, (s, w.2)).
(** A method of the open transaction. *)
Definition inTxn {A : Type} (T : Txn) (m : M (E * Txn) A) : M W A := λ w,
  let '(o, (e, T')) := m (w.1.1, T) in (o, ((e, w.1.2), s_tx T' w.2)).
(** Ending a transaction the session has let go of. *)
Definition ending {A : Type} (T : Txn) (m : M ((E * S) * Txn) A) : M W A := λ w,
  let '(o, (s, _)) := m (w.1, T) in (o, (s, w.2)).
Definition occ : M W bool := gets (λ w, e_occ w.1.1).
(** An error in an open block fails it. *)
Definition failBlock {A : Type} (er : error) : M W A :=
  _ ← setS (λ s, match sTx s with Some _ => s_aborted true s | None => s end); fail er.
Definition orFail {A : Type} (m : M W A) : M W A := λ w,
  match m w with
  | (Err er, w') => failBlock er w'
  | r => r
  end.

Definition Close : M W unit :=
  tx ← getS sTx;
  _ ← setS s_closed;
  match tx with
  | Some T => ending T Rollback
  | None => mret ()
  end.

(** ** SET and SHOW *)

Definition isoOf (occ : bool) (s : Session) : bytes := if bool_decide (sDefIso s = []) then isoDefault occ else sDefIso s.
Definition sessionIso : M W bytes := o ← occ; getS (isoOf o).
Definition isoShow : M W (gmap bytes bytes) :=
  iso ← sessionIso;
  cur ← getS (λ s, match sTx s with Some _ => sTxIso s | None => iso end);
  mret (<[go "transaction_isolation" := cur]> {[ go "default_transaction_isolation" := iso ]}).

Definition setTxnIso (v : SetVar) : M W Result :=
  iso ← sessionIso;
  match (if svIsDefault v then Some iso else normalizeIso (svValue v)) with
  | None => failBlock (errParam (go "transaction_isolation"))
  | Some lvl =>
      s ← getS id;
      match sTx s with
      | None => mret (noticed (svTag v) (go "SET TRANSACTION can only be used in transaction blocks"))
      | Some T =>
          if sTxStmts s then failBlock errIsoLate
          else
            o ← occ;
            _ ← (if bool_decide (lvl = isoSerializable) && bool_decide (sTxIso s <> isoSerializable) && negb (sReadOnly s) && o
                 then setS (s_tx (x_tx kv_track_reads T)) else mret ());
            _ ← setS (s_txIso lvl);
            mret (tagged_ (svTag v))
      end
  end.
Definition setDefaultIso (v : SetVar) : M W Result :=
  if svIsDefault v then _ ← setS (s_defIso [] false); mret (tagged_ (svTag v))
  else match normalizeIso (svValue v) with
       | None => failBlock (errParam (go "default_transaction_isolation"))
       | Some lvl =>
           o ← occ;
           _ ← setS (s_defIso lvl (bool_decide (lvl = isoSerializable) && o));
           mret (tagged_ (svTag v))
       end.
Definition setVar (v : SetVar) : M W Result :=
  if bool_decide (svName v = go "transaction_isolation") then setTxnIso v
  else if bool_decide (svName v = go "default_transaction_isolation") then setDefaultIso v
  else if bool_decide (svName v = go "statement_timeout") then
    d ← orFail (lift (parseTimeout wild v));
    _ ← setS (s_timeout d);
    mret (tagged_ (svTag v))
  else if bool_decide (svName v = go "all") && svIsDefault v then
    _ ← setS (λ s, s_defIso [] false (s_vars ∅ (s_timeout 0 s)));
    mret (tagged_ (svTag v))
  else if svIsDefault v then
    _ ← setS (λ s, s_vars (delete (svName v) (sVars s)) s);
    mret (tagged_ (svTag v))
  else
    _ ← setS (λ s, s_vars (<[svName v := svValue v]> (sVars s)) s);
    mret (tagged_ (svTag v)).

(** ** Blocks *)

Definition verb (k : TxnKind) : bytes :=
  match k with
  | TxnReleaseK => go "RELEASE SAVEPOINT"
  | TxnRollbackToK => go "ROLLBACK TO SAVEPOINT"
  | _ => go "SAVEPOINT"
  end.
Definition savepointControl (tc : TxnControl) : M W Result :=
  s ← getS id;
  match sTx s with
  | None => fail (errOutside (verb (tcKind tc)))
  | Some T =>
      if sAborted s && negb (match tcKind tc with TxnRollbackToK => true | _ => false end) then fail errAborted
      else match tcKind tc with
      | TxnReleaseK =>
          match findSave (tcName tc) (sSaves s) (length (sSaves s)) with
          | None => failBlock (errNoSave (tcName tc))
          | Some (i, p) =>
              _ ← orFail (inTxn T (TxnRelease p));
              _ ← setS (λ s, s_saves (take i (sSaves s)) s);
              mret done_
          end
      | TxnRollbackToK =>
          match findSave (tcName tc) (sSaves s) (length (sSaves s)) with
          | None => failBlock (errNoSave (tcName tc))
          | Some (i, p) =>
              _ ← orFail (inTxn T (TxnRollbackTo p));
              _ ← setS (λ s, s_aborted false (s_saves (take (i + 1) (sSaves s)) s));
              mret done_
          end
      | _ =>
          p ← orFail (inTxn T TxnSavepoint);
          _ ← setS (λ s, s_saves (sSaves s ++ [(tcName tc, p)]) s);
          mret done_
      end
  end.
Definition txnControl (tc : TxnControl) : M W Result :=
  s ← getS id;
  match tcKind tc, sTx s with
  | TxnBegin, Some _ => mret (noticed [] (go "there is already a transaction in progress"))
  | TxnBegin, None =>
      o ← occ;
      let iso := if bool_decide (tcIsolation tc = []) then isoOf o s else tcIsolation tc in
      T ← onDB (if bool_decide (iso = isoSerializable) && negb (tcReadOnly tc) && o then BeginSerializable else Begin (negb (tcReadOnly tc)));
      _ ← setS (s_open T (tcReadOnly tc) iso);
      mret done_
  | TxnCommit, None | TxnRollback, None => mret (noticed [] (go "there is no transaction in progress"))
  | TxnCommit, Some T =>
      _ ← setS s_closed;
      if sAborted s then _ ← ending T Rollback; mret (tagged_ (go "ROLLBACK"))
      else _ ← ending T Commit; mret done_
  | TxnRollback, Some T =>
      _ ← setS s_closed;
      _ ← ending T Rollback;
      mret done_
  | _, _ => savepointControl tc
  end.

Definition runCtx (st : Statement St) (args : list any) : M W Result :=
  match st with
  | SControl tc => txnControl tc
  | _ =>
      s ← getS id;
      if sAborted s then fail errAborted
      else match st with
      | SSet v => setVar v
      | SShow name => iso ← isoShow; lift (execShow name (sVars s) (sTimeout s) iso)
      | SControl tc => txnControl tc
      | SOther k st =>
          match sTx s with
          | None => onDB (run_auto (sTimeout s) (sSerial s) k st args)
          | Some T =>
              if match k with KVacuum => true | _ => false end then failBlock errVacuumBlock
              else if isDDL k then failBlock (errInBlock (kindTag k))
              else if sReadOnly s && isWrite k then failBlock (errReadOnly (kindTag k))
              else
                _ ← setS s_stmts;
                orFail (inTxn T (run_in (sTimeout s) k st args))
          end
      end
  end.

End session.
