(* ===== verification/SessionOk.v ===== *)
(** * What a session promises

    An abstract session knows only which statements of the open block have
    survived, which savepoints there are and what had survived at each, and
    whether the block has failed. [session_runs] relates a script of
    statements, their outcomes and the status after each to the committed
    states the abstract session allows: a block publishes at COMMIT what its
    surviving statements do one after another, and nothing otherwise. The
    session of [Session.v] is shown to run that way in serialized mode. *)
From S2P Require Import Prelude GoVal GoStr KV Savepoint Catalog Dml Engine Store Database Ddl Schema MemDB RowStmt Txn Handler Statements TxnOk TxnRun Run Atomic WriteTxn Conn Session.

Local Open Scope Z_scope.

(** ** What the session relies on *)

(** A begun transaction is a snapshot of the committed state. In serialized
    mode a writable one keeps other writers out until it ends, so its commit
    replaces that state; an error of the log write leaves open whether it
    did. A rollback, and the commit of a read-only transaction, leave no
    trace. *)
Class DBOpenLaws (E S tx sp : Type) {eng : EngineOps E} {kv : KV tx} {kv_laws : KVLaws tx} {sv : KVSave tx sp} {sv_laws : KVSaveLaws tx sp}
    {db : DB E S tx} {db_laws : DBLaws E S tx} {op : DBOpen E S tx} := {
  db_begin_runs w e s : match db_begin w (e, s) with
    | (Ok t, (e', s')) => interf (e, db_head s) (e', db_head s') /\ kv_map t = db_head s' /\ kv_writable t = w /\ kv_saves t = []
    | (Err _, (e', s')) => interf (e, db_head s) (e', db_head s')
    | (Panic _, _) => False
    end;
  db_commit_runs t e s : e_occ e = false -> match db_commit t (e, s) with
    | (Ok _, (e', s')) => interf (e, if kv_writable t then kv_map t else db_head s) (e', db_head s')
    | (Err er, (e', s')) => interf (e, db_head s) (e', db_head s') \/ unsure er /\ kv_writable t = true /\ interf (e, kv_map t) (e', db_head s')
    | (Panic _, _) => False
    end;
  db_rollback_runs t e s : match db_rollback t (e, s) with
    | (Panic _, _) => False
    | (_, (e', s')) => interf (e, db_head s) (e', db_head s')
    end;
}.

(** The savepoints of a transaction are as they were. *)
Definition kept {tx sp : Type} {kv : KV tx} {kv_laws : KVLaws tx} {sv : KVSave tx sp} {sv_laws : KVSaveLaws tx sp} (T T' : Txn tx sp) : Prop :=
  kv_saves (xTx T') = kv_saves (xTx T) /\ kv_issued (xTx T') = kv_issued (xTx T) /\ xSaves T' = xSaves T /\ kv_writable (xTx T') = kv_writable (xTx T).

(** The executor reaches a block's transaction through its methods only and
    takes no savepoints there; in a read-only block it changes no data. A
    statement of its own keeps the database sound. [cost] is the room its
    writes may use up. *)
Class SqlExecLaws (E S tx sp St : Type) {eng : EngineOps E} {cs : CatState E} {te : TxnEngine E} {kv : KV tx} {kv_laws : KVLaws tx}
    {sv : KVSave tx sp} {sv_laws : KVSaveLaws tx sp} {db : DB E S tx} {db_laws : DBLaws E S tx} {ex : SqlExec E S tx sp St} := {
  cost : stmtKind -> St -> list any -> Z;
  cost_nonneg k st args : 0 <= cost k st args;
  run_in_goes tmo k st args r e T : 0 <= r -> txn_ok (r + cost k st args) e T ->
    wp (run_in tmo k st args) (λ _ s', goes r (e, T) s' /\ kept T s'.2) (e, T);
  run_in_reads tmo k st args e T : isWrite k = false -> kv_writable (xTx T) = false ->
    wp (run_in tmo k st args) (λ _ s', cached e s'.1 /\ kv_map (xTx s'.2) = kv_map (xTx T) /\ kept T s'.2) (e, T);
  run_auto_sound tmo serial k st args r e s : 0 <= r -> r + cost k st args < 2 ^ 63 -> sound false (r + cost k st args) e (db_head s) ->
    wp (run_auto tmo serial k st args) (λ _ s', sound false r s'.1 (db_head s'.2)) (e, s);
}.

(** ** The abstract session *)

Section spec.
Context {E S : Type} {tx sp : Type} {St : Type}.
Abbreviation hist := (list (stmtKind * St * list any)).

Inductive astate :=
  | AIdle
  | ABlock (ro : bool) (h : hist) (marks : list (bytes * hist)) (failed : bool).

Definition statusOf (a : astate) : byte :=
  match a with AIdle => TxIdle | ABlock _ _ _ failed => if failed then TxFailed else TxActive end.

(** The state after a statement, which depends on whether it succeeded. *)
Definition after (a : astate) (st : Statement St) (args : list any) (ok : bool) : astate :=
  match a, st with
  | AIdle, SControl tc => match tcKind tc with TxnBegin => if ok then ABlock (tcReadOnly tc) [] [] false else AIdle | _ => AIdle end
  | AIdle, _ => AIdle
  | ABlock ro h ms failed, SControl tc =>
      match tcKind tc with
      | TxnBegin => a
      | TxnCommit | TxnRollback => AIdle
      | TxnSavepointK => if failed then a else if ok then ABlock ro h (ms ++ [(tcName tc, h)]) false else ABlock ro h ms true
      | TxnReleaseK =>
          if failed then a
          else match ok, findSave (tcName tc) ms (length ms) with
               | true, Some (i, _) => ABlock ro h (take i ms) false
               | _, _ => ABlock ro h ms true
               end
      | TxnRollbackToK =>
          match ok, findSave (tcName tc) ms (length ms) with
          | true, Some (i, h') => ABlock ro h' (take (i + 1) ms) false
          | _, _ => ABlock ro h ms true
          end
      end
  | ABlock ro h ms true, _ => a
  | ABlock ro h ms false, SShow _ => a
  | ABlock ro h ms false, SSet _ => if ok then a else ABlock ro h ms true
  | ABlock ro h ms false, SOther k st => if ok then ABlock ro (h ++ [(k, st, args)]) ms false else ABlock ro h ms true
  end.

(** What the client is told where the state alone decides it. *)
Definition answer (a : astate) (st : Statement St) (o : outcome Result) : Prop :=
  match a, st with
  | AIdle, SControl tc =>
      match tcKind tc with
      | TxnBegin => True
      | TxnCommit | TxnRollback => o = Ok (noticed [] (go "there is no transaction in progress"))
      | k => o = Err (errOutside (verb k))
      end
  | AIdle, _ => True
  | ABlock ro h ms failed, SControl tc =>
      match tcKind tc with
      | TxnBegin => o = Ok (noticed [] (go "there is already a transaction in progress"))
      | TxnCommit => forall r, o = Ok r -> r = if failed then tagged_ (go "ROLLBACK") else done_
      | TxnRollback => forall r, o = Ok r -> r = done_
      | TxnSavepointK => failed = true -> o = Err errAborted
      | TxnReleaseK => if failed then o = Err errAborted else findSave (tcName tc) ms (length ms) = None -> o = Err (errNoSave (tcName tc))
      | TxnRollbackToK => findSave (tcName tc) ms (length ms) = None -> o = Err (errNoSave (tcName tc))
      end
  | ABlock ro h ms true, _ => o = Err errAborted
  | ABlock ro h ms false, SOther k _ => k = KVacuum \/ isDDL k = true \/ ro && isWrite k = true -> is_ok o = false
  | ABlock ro h ms false, _ => True
  end.
End spec.
Arguments astate : clear implicits.

Section sessions.
Context {E S : Type} {eng : EngineOps E} {eng_laws : EngineLaws E} {cs : CatState E} {cat_laws : CatLaws E} {te : TxnEngine E} {te_laws : TxnEngineLaws E}.
Context {grd : Guarded E} {al : Allocators E} {al_laws : AllocatorLaws E}.
Context {tx sp : Type} {kv : KV tx} {kv_laws : KVLaws tx} {sv : KVSave tx sp} {sv_laws : KVSaveLaws tx sp} {sp_eq : EqDecision sp}.
Context {db : DB E S tx} {db_laws : DBLaws E S tx} {op : DBOpen E S tx} {op_laws : DBOpenLaws E S tx sp}.
Context {St : Type} {ex : SqlExec E S tx sp St} {ex_laws : SqlExecLaws E S tx sp St} (wild : Z).
Context (rely : forall k, stable (sound false k)).
Abbreviation Txn := (Txn tx sp).
Abbreviation Session := (Session tx sp).
Abbreviation W := ((E * S) * Session)%type.
Abbreviation hist := (list (stmtKind * St * list any)).
Implicit Types T : Txn.
Implicit Types m : kvmap.
Notation els := (elsewhere (E := E) (S := S) (tx := tx)).

(** One statement of a block succeeded and took [m] to [m']. *)
Definition ran (x : stmtKind * St * list any) (m m' : kvmap) : Prop := exists tmo e T res e' T',
  run_in tmo x.1.1 x.1.2 x.2 (e, T) = (Ok res, (e', T')) /\ kv_map (xTx T) = m /\ kv_map (xTx T') = m'.
Inductive replays (m : kvmap) : hist -> kvmap -> Prop :=
  | rp_nil : replays m [] m
  | rp_snoc h x m1 m2 : replays m h m1 -> ran x m1 m2 -> replays m (h ++ [x]) m2.

(** The committed state is what the history makes of the one before. *)
Definition publishes (h : hist) (m m' : kvmap) : Prop := exists m1, replays m h m1 /\ els m1 m'.
Definition autos (k : stmtKind) (st : St) (args : list any) (o : outcome Result) (m m' : kvmap) : Prop := exists tmo serial e s e' s',
  run_auto tmo serial k st args (e, s) = (o, (e', s')) /\ db_head s = m /\ db_head s' = m'.
Definition event (a : astate St) (st : Statement St) (args : list any) (o : outcome Result) (m m' : kvmap) : Prop :=
  match a, st with
  | AIdle, SOther k st => autos k st args o m m'
  | ABlock false h ms false, SControl (mkControl TxnCommit _ _ _ _) =>
      match o with
      | Ok _ => publishes h m m'
      | Err er => els m m' \/ unsure er /\ publishes h m m'
      | Panic _ => False
      end
  | _, _ => els m m'
  end.

(** A script, up to the end of the connection or a panic, either of which
    closes the session. *)
Inductive session_runs : astate St -> kvmap -> list (Statement St * list any) -> list (outcome Result * byte) -> kvmap -> Prop :=
  | sr_close a m m' : els m m' -> session_runs a m [] [] m'
  | sr_step a m st args l o m1 os m' : answer a st o -> event a st args o m m1 -> is_panic o = false ->
      session_runs (after a st args (is_ok o)) m1 l os m' ->
      session_runs a m ((st, args) :: l) ((o, statusOf (after a st args (is_ok o))) :: os) m'
  | sr_panic a m st args l o b m1 m' : event a st args o m m1 -> is_panic o = true -> els m1 m' ->
      session_runs a m ((st, args) :: l) [(o, b)] m'.

(** The connection's loop over a session. *)
Fixpoint run_script (l : list (Statement St * list any)) (w : W) : list (outcome Result * byte) * W :=
  match l with
  | [] => ([], (Close w).2)
  | (st, args) :: l' =>
      let '(o, w1) := runCtx wild st args w in
      if is_panic o then ([(o, Status w1.2)], (Close w1).2)
      else let '(os, w') := run_script l' w1 in ((o, Status w1.2) :: os, w')
  end.
Definition step_cost (x : Statement St * list any) : Z := match x.1 with SOther k st => cost k st x.2 | SControl _ => 1 | _ => 0 end.
Definition total_cost (l : list (Statement St * list any)) : Z := foldr (λ x n, step_cost x + n) 0 l.

(** ** The savepoint stack *)

Record marks_ok T : Prop := {
  mk_mirror : (xSaves T).*1 = (kv_saves (xTx T)).*1;
  mk_nodup : NoDup (kv_saves (xTx T)).*1;
  mk_issued : (kv_saves (xTx T)).*1 ⊆ kv_issued (xTx T);
}.
Lemma txn_marks r e T : txn_ok r e T -> marks_ok T.
Proof. by intros [H1 H2 H3 H4 H5 H6 H7 H8 H9 H10]. Qed.
Lemma kept_marks T T' : kept T T' -> marks_ok T -> marks_ok T'.
Proof. intros (H1 & H2 & H3 & _) [K1 K2 K3]. split; by rewrite ?H1, ?H2, ?H3. Qed.

(** A cut of the stack. *)
Lemma stack_cut {A : Type} (l pre post : list (sp * A)) i p (a b : A) : NoDup l.*1 -> l !! i = Some (p, a) -> l = pre ++ (p, b) :: post ->
  b = a /\ pre = take i l /\ pre ++ [(p, b)] = take (i + 1) l.
Proof.
  intros Hnd Hi ->. assert ((pre ++ (p, b) :: post) !! length pre = Some (p, b)) as Hp by (by rewrite lookup_app_r, Nat.sub_diag by lia).
  assert (i = length pre) as ->.
  { eapply (NoDup_lookup _ _ _ p Hnd); by rewrite list_lookup_fmap, ?Hi, ?Hp. }
  rewrite Hp in Hi. injection Hi as ->. split_and!; [done|by rewrite take_app_length|].
  rewrite (cons_middle (p, a) pre post), app_assoc, take_app_length' by (rewrite length_app; simpl; lia). done.
Qed.

Definition pushed T (p : sp) T' : Prop := kv_saves (xTx T') = kv_saves (xTx T) ++ [(p, kv_map (xTx T))] /\ kv_map (xTx T') = kv_map (xTx T) /\
  kv_writable (xTx T') = kv_writable (xTx T) /\ marks_ok T'.
Lemma TxnSavepoint_stack (e : E) T : marks_ok T -> wp TxnSavepoint (λ o s', match o with Ok p => pushed T p s'.2 | Err _ => s' = (e, T) | Panic _ => False end /\ s'.1 = e) (e, T).
Proof.
  intros [K1 K2 K3]. unfold TxnSavepoint. apply wp_bind, wp_kv. unfold wp. pose proof (kv_savepoint_saves (xTx T)) as H.
  destruct (kv_savepoint (xTx T)) as [[p|er|q] t']; cbn [fst snd seqQ]; [|subst t'; by rewrite x_tx_id|done].
  destruct H as (Hf & His & Hsv & Hm & Hw). unfold mbind, M_bind, onX, modify, mret, M_ret. cbn [fst snd x_tx x_saves xSaves xWrites xTx].
  split; [|done]. split_and!; [done..|]. split; cbn [fst snd xSaves xTx xWrites x_saves x_tx]; rewrite ?Hsv, ?His.
  - by rewrite !fmap_app, K1.
  - rewrite fmap_app. apply NoDup_app. split_and!; [done| |apply NoDup_singleton]. intros q Hq ->%list_elem_of_singleton. by apply Hf, K3.
  - rewrite fmap_app. intros q [Hq|Hq]%elem_of_app; [right; by apply K3|]. apply list_elem_of_singleton in Hq as ->. left.
Qed.

(** Cut at [p], to the mark itself for a rollback. *)
Definition cut (keep : bool) T (p : sp) T' : Prop := exists pre m post, kv_saves (xTx T) = pre ++ (p, m) :: post /\
  kv_saves (xTx T') = pre ++ (if keep then [(p, m)] else []) /\ kv_map (xTx T') = (if keep then m else kv_map (xTx T)) /\
  kv_writable (xTx T') = kv_writable (xTx T) /\ marks_ok T'.
Lemma cut_marks (keep : bool) T t' p pre m post : marks_ok T -> kv_saves (xTx T) = pre ++ (p, m) :: post ->
  kv_saves t' = pre ++ (if keep then [(p, m)] else []) -> kv_issued t' = kv_issued (xTx T) ->
  forall n i, saveMark p (xSaves T) = Some i -> n = (if keep then Datatypes.S i else i) -> forall x, marks_ok (x_saves (take n (xSaves T)) (x_writes x (x_tx (λ _, t') T))).
Proof.
  intros [K1 K2 K3] Hsv Hsv' His n i Hi -> x. rewrite Hsv in K1. destruct (mirror_split _ _ _ _ _ K1) as (preX & w' & postX & HsX & Hpre).
  assert (NoDup (preX ++ (p, w') :: postX).*1) as Hnd by (rewrite <- HsX, K1, <- Hsv; done).
  rewrite HsX, (saveMark_split preX postX p w' Hnd) in Hi. injection Hi as <-.
  assert ((pre ++ (if keep then [(p, m)] else [])) `prefix_of` kv_saves (xTx T)) as [k Hk].
  { rewrite Hsv. destruct keep; [exists post; by rewrite <- app_assoc|rewrite app_nil_r; by eexists]. }
  rewrite Hk, fmap_app in K2, K3. apply NoDup_app in K2 as (K2 & _ & _).
  split; cbn [xSaves xTx x_saves x_writes x_tx]; rewrite ?Hsv', ?His; [|done|].
  - rewrite HsX. destruct keep.
    + rewrite (cons_middle (p, w')), app_assoc, take_app_length' by (rewrite length_app; simpl; lia). rewrite !fmap_app. simpl. by rewrite Hpre.
    + rewrite take_app_length' by done. by rewrite app_nil_r.
  - intros q Hq. apply K3, elem_of_app. by left.
Qed.
Lemma mark_found T p pre m post : marks_ok T -> kv_saves (xTx T) = pre ++ (p, m) :: post -> exists i, saveMark p (xSaves T) = Some i.
Proof.
  intros [K1 K2 K3] Hsv. rewrite Hsv in K1. destruct (mirror_split _ _ _ _ _ K1) as (preX & w' & postX & HsX & Hpre).
  assert (NoDup (preX ++ (p, w') :: postX).*1) as Hnd by (rewrite <- HsX, K1, <- Hsv; done). rewrite HsX, (saveMark_split preX postX p w' Hnd). by eexists.
Qed.
Lemma TxnRollbackTo_stack (e : E) T p : marks_ok T ->
  wp (TxnRollbackTo p) (λ o s', match o with Ok _ => cut true T p s'.2 | Err _ => s' = (e, T) | Panic _ => False end /\ s'.1 = e) (e, T).
Proof.
  intros Hk. unfold TxnRollbackTo. apply wp_bind, wp_kv. unfold wp. pose proof (kv_rollback_to_saves p (xTx T)) as H.
  destruct (kv_rollback_to p (xTx T)) as [[[]|er|q] t']; cbn [fst snd seqQ]; [|subst t'; by rewrite x_tx_id|done].
  destruct H as (pre & m & post & Hsv & Hsv' & His & Hm & Hw). destruct (mark_found T p pre m post Hk Hsv) as [i Hi].
  unfold wp, onX, modify. cbn [fst snd x_tx xSaves]. rewrite Hi. split; [|done]. exists pre, m, post. cbn [xTx x_saves x_writes x_tx]. split_and!; [done..|].
  by eapply (cut_marks true T t' p pre m post).
Qed.
Lemma TxnRelease_stack (e : E) T p : marks_ok T ->
  wp (TxnRelease p) (λ o s', match o with Ok _ => cut false T p s'.2 | Err _ => s' = (e, T) | Panic _ => False end /\ s'.1 = e) (e, T).
Proof.
  intros Hk. unfold TxnRelease. apply wp_bind, wp_kv. unfold wp. pose proof (kv_release_saves p (xTx T)) as H.
  destruct (kv_release p (xTx T)) as [[[]|er|q] t']; cbn [fst snd seqQ]; [|subst t'; by rewrite x_tx_id|done].
  destruct H as (pre & m & post & Hsv & Hsv' & His & Hm & Hw). destruct (mark_found T p pre m post Hk Hsv) as [i Hi].
  unfold wp, onX, modify. cbn [fst snd x_tx xSaves]. rewrite Hi. split; [|done]. exists pre, m, post. cbn [xTx x_saves x_tx]. rewrite app_nil_r. split_and!; [done..|].
  rewrite <- (app_nil_r pre) in Hsv'. exact (cut_marks false T t' p pre m post Hk Hsv Hsv' His i i Hi eq_refl (xWrites T)).
Qed.

(** ** Beginning and ending *)

Lemma els_sound r e e' m m' : sound false r e m -> interf (e, m) (e', m') -> els m m' /\ sound false r e' m'.
Proof. intros Hs Hi. split; [by eapply elsewhere_once|by eapply rely]. Qed.
Lemma gid_cached g (e : E) : cached e (e_setWriterGID g e).
Proof. apply same_cached; [apply cat_gid|apply occ_gid]. Qed.
Lemma txn_ok_release r e T b : txn_ok r e T -> txn_ok r e (x_releaseW b T).
Proof. intros [H1 H2 H3 H4 H5 H6 H7 H8 H9 H10]. by split. Qed.

(** A fresh transaction on the committed state. *)
Definition fresh_on (w : bool) (m : kvmap) T : Prop := exists b t, T = x_releaseW b (newTxn t) /\ kv_map t = m /\ kv_writable t = w /\ kv_saves t = [].
Lemma Begin_runs w r e s : sound false r e (db_head s) ->
  wp (Begin w) (λ o s', els (db_head s) (db_head s'.2) /\ sound false r s'.1 (db_head s'.2) /\
    match o with Ok T => fresh_on w (db_head s'.2) T | Err _ => True | Panic _ => False end) (e, s).
Proof.
  intros Hs. pose proof (sd_occ _ _ _ _ Hs) as Ho. pose proof (db_begin_runs w e s) as Hb. unfold wp, Begin, readSnapshot, mbind, M_bind, checkReentrantWrite. destruct w.
  - cbn [fst snd]. rewrite Ho. destruct (_ && _); cbn [fst snd]; [split_and!; [constructor|done|done]|].
    destruct (db_begin true (e, s)) as [[t|er|q] [e1 s1]]; cbn [fst snd]; [|by destruct (els_sound _ _ _ _ _ Hs Hb)|done].
    destruct Hb as (Hi & H1 & H2 & H3). destruct (els_sound _ _ _ _ _ Hs Hi) as [Ha Hb]. split_and!; [done|by eapply sound_cached; [apply gid_cached|]|].
    by exists true, t.
  - destruct (db_begin false (e, s)) as [[t|er|q] [e1 s1]]; cbn [fst snd]; [|by destruct (els_sound _ _ _ _ _ Hs Hb)|done].
    destruct Hb as (Hi & H1 & H2 & H3). destruct (els_sound _ _ _ _ _ Hs Hi) as [Ha Hb]. split_and!; [done..|]. by exists false, t.
Qed.

Lemma release_runs (e : E) (s : S) T : exists e1 b, releaseWriter ((e, s), T) = (Ok tt, ((e1, s), x_releaseW b T)) /\ cached e e1.
Proof.
  unfold releaseWriter. cbn [fst snd]. destruct (xReleaseW T); [exists (e_setWriterGID 0 e), false; split; [done|apply gid_cached]|].
  exists e, (xReleaseW T). split; [by destruct T|done].
Qed.
(** What is committed: the transaction's state if it is a writable one. *)
Definition outcome_of T (m : kvmap) : kvmap := if kv_writable (xTx T) then kv_map (xTx T) else m.
Lemma Commit_runs r (e : E) (s : S) T : sound false r e (db_head s) -> sound false r e (outcome_of T (db_head s)) ->
  wp Commit (λ o s', sound false r s'.1.1 (db_head s'.1.2) /\ match o with
    | Ok _ => els (outcome_of T (db_head s)) (db_head s'.1.2)
    | Err er => els (db_head s) (db_head s'.1.2) \/ unsure er /\ els (outcome_of T (db_head s)) (db_head s'.1.2)
    | Panic _ => False
    end) ((e, s), T).
Proof.
  intros Hs Hs'. unfold wp, Commit, mbind, M_bind. destruct (release_runs e s T) as (e1 & b & -> & Hc). unfold onStore. cbn [fst snd x_releaseW xTx xDirty].
  apply (sound_cached _ _ _ _ _ Hc) in Hs, Hs'. pose proof (db_commit_runs (xTx T) e1 s (sd_occ _ _ _ _ Hs)) as Hx. fold (outcome_of T (db_head s)) in Hx.
  destruct (db_commit (xTx T) (e1, s)) as [[[]|er|q] [e2 s2]]; [| |done].
  - destruct (els_sound _ _ _ _ _ Hs' Hx) as [Ha Hb]. cbn [fst snd x_releaseW xDirty]. destruct (flush_settles (xDirty T) e2 s2) as ([] & e3 & -> & Hc3).
    cbn [fst snd modify]. split; [by eapply sound_cached|done].
  - cbn [fst snd]. destruct Hx as [Hx|(Hu & Hw & Hx)]; [destruct (els_sound _ _ _ _ _ Hs Hx); by split; [|left]|].
    unfold outcome_of in *. rewrite Hw in *. destruct (els_sound _ _ _ _ _ Hs' Hx). by split; [|right].
Qed.
Lemma Rollback_runs r (e : E) (s : S) T : sound false r e (db_head s) ->
  wp Rollback (λ o s', is_panic o = false /\ els (db_head s) (db_head s'.1.2) /\ sound false r s'.1.1 (db_head s'.1.2)) ((e, s), T).
Proof.
  intros Hs. unfold wp, Rollback, mbind, M_bind. destruct (release_runs e s T) as (e1 & b & -> & Hc). unfold onStore. cbn [fst snd x_releaseW xTx].
  apply (sound_cached _ _ _ _ _ Hc) in Hs. pose proof (db_rollback_runs (xTx T) e1 s) as Hx.
  destruct (db_rollback (xTx T) (e1, s)) as [[[]|er|q] [e2 s2]]; [| |done]; by destruct (els_sound _ _ _ _ _ Hs Hx).
Qed.
Lemma Close_runs r (w : W) : sound false r w.1.1 (db_head w.1.2) ->
  els (db_head w.1.2) (db_head (Close w).2.1.2) /\ sound false r (Close w).2.1.1 (db_head (Close w).2.1.2).
Proof.
  destruct w as [[e s] ses]. intros Hs. unfold Close, mbind, M_bind, getS, gets, setS, modify. cbn [fst snd] in *.
  destruct (sTx ses) as [T|]; [|split; [constructor|done]]. pose proof (Rollback_runs r e s T Hs) as H. unfold wp in H. unfold ending. cbn [fst snd].
  destruct (Rollback (e, s, T)) as [o [[e1 s1] T1]]. by destruct H.
Qed.

(** ** The invariant *)

Record in_block (r : Z) (e : E) (m : kvmap) (s : Session) (ro : bool) (h : hist) (ms : list (bytes * hist)) (failed : bool) T (base : kvmap) : Prop := {
  ib_tx : sTx s = Some T;
  ib_ro : sReadOnly s = ro;
  ib_failed : sAborted s = failed;
  ib_marks : marks_ok T;
  ib_writable : kv_writable (xTx T) = negb ro;
  ib_txn : ro = false -> txn_ok r e T;
  ib_base : ro = false -> base = m;
  ib_replays : failed = false -> replays base h (kv_map (xTx T));
  ib_names : ms.*1 = (sSaves s).*1;
  ib_handles : (sSaves s).*2 = (kv_saves (xTx T)).*1;
  ib_saved : Forall2 (λ a k, replays base a.2 k.2) ms (kv_saves (xTx T));
}.
Record inv (r : Z) (w : W) (a : astate St) : Prop := {
  iv_sound : sound false r w.1.1 (db_head w.1.2);
  iv_state : match a with
    | AIdle => sTx w.2 = None /\ sAborted w.2 = false
    | ABlock ro h ms failed => exists T base, in_block r w.1.1 (db_head w.1.2) w.2 ro h ms failed T base
    end;
}.
Lemma in_block_less r r' e m s ro h ms failed T base : r' <= r -> in_block r e m s ro h ms failed T base -> in_block r' e m s ro h ms failed T base.
Proof. intros Hr [H1 H2 H3 H4 H5 H6 H7 H8 H9 H10 H11]. split; try done. intros Hro. eapply txn_ok_less; [exact Hr|by apply H6]. Qed.
Lemma inv_less r r' w a : r' <= r -> inv r w a -> inv r' w a.
Proof.
  intros Hr [H1 H2]. split; [by eapply sound_less|]. destruct a; [done|]. destruct H2 as (T & base & H). exists T, base. by eapply in_block_less.
Qed.
Lemma inv_status r w a : inv r w a -> Status w.2 = statusOf a.
Proof.
  intros [_ H]. unfold Status. destruct a as [|ro h ms failed]; [by destruct H as [-> _]|]. destruct H as (T & base & H).
  rewrite (ib_tx _ _ _ _ _ _ _ _ _ _ H), (ib_failed _ _ _ _ _ _ _ _ _ _ H). done.
Qed.

(** What one statement has to do. *)
Definition steps (r : Z) (a : astate St) (st : Statement St) (args : list any) (w : W) (o : outcome Result) (w' : W) : Prop :=
  event a st args o (db_head w.1.2) (db_head w'.1.2) /\ sound false r w'.1.1 (db_head w'.1.2) /\
  (is_panic o = false -> answer a st o /\ inv r w' (after a st args (is_ok o))).

(** Nothing but the session changes. *)
Lemma steps_here r a st args w s' o : event a st args o (db_head w.1.2) (db_head w.1.2) -> answer a st o -> inv r (w.1, s') (after a st args (is_ok o)) ->
  steps r a st args w o (w.1, s').
Proof. intros H1 H2 H3. split_and!; [done|apply H3|done]. Qed.

Lemma findSave_names {A B : Type} name (l : list (bytes * A)) (l' : list (bytes * B)) n : l.*1 = l'.*1 ->
  fst <$> findSave name l n = fst <$> findSave name l' n.
Proof.
  intros Hl. induction n as [|i IH]; [done|]. cbn [findSave]. pose proof (f_equal (lookup i) Hl) as Hi. rewrite !list_lookup_fmap in Hi.
  destruct (l !! i) as [[nm x]|], (l' !! i) as [[nm' x']|]; try done. cbn in Hi. injection Hi as ->. by case_bool_decide.
Qed.
Lemma findSave_found {A : Type} name (l : list (bytes * A)) n i x : findSave name l n = Some (i, x) -> l !! i = Some (name, x).
Proof.
  induction n as [|j IH]; [done|]. cbn [findSave]. destruct (l !! j) as [[nm y]|] eqn:Ej; [|done].
  case_bool_decide as Hn; [|done]. intros [= <- <-]. by rewrite Ej, Hn.
Qed.
(** Both sides find the same savepoint. *)
Lemma findSave_marks r e m s ro h ms failed T base name : in_block r e m s ro h ms failed T base ->
  match findSave name (sSaves s) (length (sSaves s)), findSave name ms (length ms) with
  | Some (i, p), Some (j, h') => i = j /\ exists m', kv_saves (xTx T) !! i = Some (p, m') /\ replays base h' m'
  | None, None => True
  | _, _ => False
  end.
Proof.
  intros [H1 H2 H3 H4 H5 H6 H7 H8 H9 H10 H11]. assert (length ms = length (sSaves s)) as Hlen by (rewrite <- (length_fmap fst ms), H9; apply length_fmap).
  pose proof (findSave_names name _ _ (length ms) H9) as Hf. rewrite Hlen in Hf |- *.
  destruct (findSave name (sSaves s) _) as [[i p]|] eqn:E1, (findSave name ms _) as [[j h']|] eqn:E2; try done. cbn in Hf. injection Hf as ->. split; [done|].
  apply findSave_found in E1, E2. pose proof (f_equal (lookup i) H10) as Hi. rewrite !list_lookup_fmap, E1 in Hi. cbn in Hi.
  destruct (Forall2_lookup_l _ _ _ _ _ H11 E2) as ([p' m'] & Hk & Hr). rewrite Hk in Hi. cbn in Hi. injection Hi as ->. eauto.
Qed.

(** ** SET and SHOW *)

Lemma wp_getS {A B : Type} (f : Session -> A) (k : A -> M W B) Q w : wp (k (f w.2)) Q w -> wp (a ← getS f; k a) Q w.
Proof. done. Qed.
Lemma wp_occ {B : Type} (k : bool -> M W B) Q w : wp (k (e_occ w.1.1)) Q w -> wp (a ← occ; k a) Q w.
Proof. done. Qed.
Lemma wp_iso {B : Type} (k : bytes -> M W B) Q w : wp (k (isoOf (e_occ w.1.1) w.2)) Q w -> wp (a ← sessionIso; k a) Q w.
Proof. done. Qed.
Lemma wp_setS {B : Type} f (k : M W B) Q w : wp k Q (w.1, f w.2) -> wp (_ ← setS f; k) Q w.
Proof. done. Qed.
Lemma failBlock_eq {A : Type} er (w : W) : (failBlock er : M W A) w = (Err er, (w.1, match sTx w.2 with Some _ => s_aborted true w.2 | None => w.2 end)).
Proof. done. Qed.
(** SET leaves the transaction alone; an error fails the block. *)
Definition vars_only (w : W) (o : outcome Result) (w' : W) : Prop := is_panic o = false /\ w'.1 = w.1 /\ sTx w'.2 = sTx w.2 /\ sReadOnly w'.2 = sReadOnly w.2 /\
  sSaves w'.2 = sSaves w.2 /\ sAborted w'.2 = if is_ok o then sAborted w.2 else match sTx w.2 with Some _ => true | None => sAborted w.2 end.
Lemma vars_failed er w : wp (failBlock er) (vars_only w) w.
Proof. unfold wp. rewrite failBlock_eq. destruct w as [? s]. cbn [fst snd]. unfold vars_only. cbn [fst snd is_panic is_ok]. destruct (sTx s) eqn:Et; by split_and!. Qed.
Lemma vars_set f res w : (forall s, sTx (f s) = sTx s /\ sReadOnly (f s) = sReadOnly s /\ sSaves (f s) = sSaves s /\ sAborted (f s) = sAborted s) ->
  wp (_ ← setS f; mret res) (vars_only w) w.
Proof. intros H. destruct w as [? s]. destruct (H s) as (H1 & H2 & H3 & H4). done. Qed.
Lemma parseTimeout_no_panic v : is_panic (parseTimeout wild v) = false.
Proof. unfold parseTimeout. by repeat case_match. Qed.
Lemma setTxnIso_runs v w : e_occ w.1.1 = false -> wp (setTxnIso v) (vars_only w) w.
Proof.
  intros Ho. unfold setTxnIso. apply wp_iso. case_match; [|apply vars_failed]. apply wp_getS. cbn [id]. destruct (sTx w.2) as [T|] eqn:Et; [|by split_and!].
  destruct (sTxStmts w.2); [apply vars_failed|]. apply wp_occ. rewrite Ho, andb_false_r. change (wp (_ ← setS (s_txIso l); mret (tagged_ (svTag v))) (vars_only w) w).
  by apply vars_set.
Qed.
Lemma setVar_runs v w : e_occ w.1.1 = false -> wp (setVar wild v) (vars_only w) w.
Proof.
  intros Ho. unfold setVar. case_bool_decide; [by apply setTxnIso_runs|]. case_bool_decide.
  { unfold setDefaultIso. destruct (svIsDefault v); [by apply vars_set|]. case_match; [|apply vars_failed]. apply wp_occ. by apply vars_set. }
  case_bool_decide.
  { apply wp_bind. unfold wp at 1, orFail, lift. pose proof (parseTimeout_no_panic v) as Hp. destruct (parseTimeout wild v) as [d|er|q]; [cbn [seqQ fst snd]; by apply vars_set| |done].
    apply (vars_failed er w). }
  case_match; [by apply vars_set|]. case_match; by apply vars_set.
Qed.
Lemma execShow_no_panic name vars timeout iso : is_panic (execShow name vars timeout iso) = false.
Proof. unfold execShow. case_bool_decide; [done|]. by case_match. Qed.

Lemma in_block_vars r e m s s' ro h ms failed failed' T base : in_block r e m s ro h ms failed T base -> sTx s' = sTx s -> sReadOnly s' = sReadOnly s ->
  sSaves s' = sSaves s -> sAborted s' = failed' -> (failed' = false -> failed = false) -> in_block r e m s' ro h ms failed' T base.
Proof. intros [H1 H2 H3 H4 H5 H6 H7 H8 H9 H10 H11] E1 E2 E3 E4 E5. split; try done; rewrite ?E1, ?E2, ?E3; auto. Qed.

Lemma event_els a st args o m : (forall k s, a = AIdle -> st <> SOther k s) -> (forall ro h ms f tc, a = ABlock ro h ms f -> st = SControl tc -> tcKind tc <> TxnCommit) ->
  event a st args o m m.
Proof.
  intros H1 H2. unfold event. destruct a as [|ro h ms f]; [destruct st; first [apply rtc_refl|by destruct (H1 k st)]|].
  destruct st as [tc| | |]; [|destruct ro, f; apply rtc_refl..]. specialize (H2 ro h ms f tc eq_refl eq_refl).
  destruct tc as [[]]; try done; destruct ro, f; apply rtc_refl.
Qed.

Lemma set_steps r a v args w : inv r w a -> sAborted w.2 = false -> wp (setVar wild v) (steps r a (SSet v) args w) w.
Proof.
  intros Hi Hab. pose proof (iv_sound _ _ _ Hi) as Hs. eapply wp_mono; [apply setVar_runs, (sd_occ _ _ _ _ Hs)|].
  intros o [w1 s'] (Hp & H1 & H2 & H3 & H4 & H5). cbn [fst snd] in *. subst w1. apply steps_here; [by apply event_els|by destruct a as [|ro h ms []]; [..|destruct Hi as [_ (T & base & [])]; congruence|]|].
  destruct Hi as [_ Hi]. split; [done|]. cbn [fst snd]. destruct a as [|ro h ms f].
  - destruct Hi as [Ht Ha]. rewrite H2, H5, Ht. split; [done|]. by destruct (is_ok o).
  - destruct Hi as (T & base & Hb). pose proof (ib_tx _ _ _ _ _ _ _ _ _ _ Hb) as Ht. pose proof (ib_failed _ _ _ _ _ _ _ _ _ _ Hb) as Hf. rewrite Ht in *. cbn [after].
    rewrite Hab in Hf. subst f. cbn. destruct (is_ok o); exists T, base; (eapply in_block_vars; [exact Hb|congruence|done|done|congruence|done]).
Qed.
Lemma show_steps r a name args w iso : inv r w a -> sAborted w.2 = false -> steps r a (SShow name) args w (execShow name (sVars w.2) (sTimeout w.2) iso) w.
Proof.
  intros Hi Hab. destruct w as [w1 s]. cbn [fst snd] in *. apply steps_here; [by apply event_els|..].
  - destruct a as [|ro h ms []]; try done. destruct Hi as [_ (T & base & [])]. cbn in *. congruence.
  - destruct a as [|ro h ms []]; done.
Qed.

(** ** Statements *)

Lemma other_idle r k st args w : 0 <= r -> r + cost k st args < 2 ^ 63 -> inv (r + cost k st args) w AIdle ->
  wp (onDB (run_auto (sTimeout w.2) (sSerial w.2) k st args)) (steps r AIdle (SOther k st) args w) w.
Proof.
  intros Hr Hlt [Hs Hi]. destruct w as [[e s] ses]. cbn [fst snd] in *. unfold wp, onDB. cbn [fst snd].
  pose proof (run_auto_sound (sTimeout ses) (sSerial ses) k st args r e s Hr Hlt Hs) as Ha. unfold wp in Ha.
  destruct (run_auto _ _ _ _ _ (e, s)) as [o [e' s']] eqn:Er. cbn [fst snd] in *. split_and!; [|done|intros _; by split].
  by exists (sTimeout ses), (sSerial ses), e, s, e', s'.
Qed.

(** A method of the open transaction, on either kind of block. *)
Lemma run_in_block r e m s ro h ms T base tmo k st args : 0 <= r -> in_block (r + cost k st args) e m s ro h ms false T base -> ro && isWrite k = false ->
  wp (run_in tmo k st args) (λ _ s', cached e s'.1 /\ kept T s'.2 /\ (ro = false -> txn_ok r s'.1 s'.2)) (e, T).
Proof.
  intros Hr Hb Hk. destruct ro.
  - eapply wp_mono; [apply run_in_reads; [done|apply Hb]|]. by intros o s' (H1 & H2 & H3).
  - eapply wp_mono; [apply (run_in_goes tmo k st args r e T Hr), (ib_txn _ _ _ _ _ _ _ _ _ _ Hb eq_refl)|]. intros o s' [H1 H2]. split_and!; [apply H1|done|intros _; apply H1].
Qed.
Lemma orFail_eq {A : Type} (mm : M W A) w : orFail mm w = match mm w with
  | (Err er, w') => (Err er, (w'.1, match sTx w'.2 with Some _ => s_aborted true w'.2 | None => w'.2 end))
  | x => x
  end.
Proof. unfold orFail. destruct (mm w) as [[a|er|p] w']; done. Qed.

Lemma other_block r k st args w ro h ms T base : 0 <= r -> sound false (r + cost k st args) w.1.1 (db_head w.1.2) ->
  in_block (r + cost k st args) w.1.1 (db_head w.1.2) w.2 ro h ms false T base -> ro && isWrite k = false -> isDDL k = false -> k <> KVacuum ->
  wp (_ ← setS s_stmts; orFail (inTxn T (run_in (sTimeout w.2) k st args))) (steps r (ABlock ro h ms false) (SOther k st) args w) w.
Proof.
  intros Hr Hs Hb Hk Hd Hv. destruct w as [[e s] ses]. cbn [fst snd] in *. apply wp_setS. unfold wp. rewrite orFail_eq. unfold inTxn. cbn [fst snd].
  pose proof (run_in_block r e _ _ ro h ms T base (sTimeout ses) k st args Hr Hb Hk) as Hx. unfold wp in Hx.
  destruct (run_in _ _ _ _ (e, T)) as [o [e' T']] eqn:Er. cbn [fst snd] in Hx. destruct Hx as (Hc & Hkept & Htx).
  assert (sound false r e' (db_head s)) as Hs' by (eapply sound_cached; [exact Hc|]; eapply sound_less; [|exact Hs]; pose proof (cost_nonneg k st args); lia).
  destruct Hb as [H1 H2 H3 H4 H5 H6 H7 H8 H9 H10 H11]. destruct Hkept as (K1 & K2 & K3 & K4).
  assert (forall o h' f', o = f' -> (f' = false -> replays base h' (kv_map (xTx T'))) ->
    in_block r e' (db_head s) (s_aborted f' (s_tx T' (s_stmts ses))) ro h' ms f' T' base) as Hnew.
  { intros ? h' f' _ Hrep. split; try done; cbn [s_aborted s_tx s_stmts sSaves]; rewrite ?K1, ?K4; try done. eapply kept_marks; [|exact H4]. by split_and!. }
  assert (s_aborted false (s_tx T' (s_stmts ses)) = s_tx T' (s_stmts ses)) as Eses by (unfold s_aborted, s_tx, s_stmts; cbn; by rewrite H3).
  destruct o as [res|er|p]; cbn [fst snd sTx s_tx]; (split_and!; [by destruct ro; apply rtc_refl|done|]); [intros _|intros _|done].
  - split; [intros [?|[?|?]]; [done|congruence|congruence]|]. split; [done|]. exists T', base. cbn [is_ok fst snd]. rewrite <- Eses.
    apply (Hnew false); [done|]. intros _. eapply rp_snoc; [by apply H8|]. by exists (sTimeout ses), e, T, res, e', T'.
  - split; [done|]. split; [done|]. exists T', base. by apply (Hnew true).
Qed.
Lemma refused_block r st args w ro h ms T base er : sound false r w.1.1 (db_head w.1.2) -> in_block r w.1.1 (db_head w.1.2) w.2 ro h ms false T base ->
  answer (ABlock ro h ms false) st (Err er) -> (forall tc, st = SControl tc -> tcKind tc <> TxnCommit) ->
  after (ABlock ro h ms false) st args false = ABlock ro h ms true ->
  wp (failBlock er) (steps r (ABlock ro h ms false) st args w) w.
Proof.
  intros Hs Hb Ha Hst Haf. unfold wp. rewrite failBlock_eq. cbn [fst snd]. pose proof (ib_tx _ _ _ _ _ _ _ _ _ _ Hb) as Ht. rewrite Ht. apply steps_here; [|done|].
  - apply event_els; [done|]. intros ????? [= <- <- <- <-]. apply Hst.
  - cbn [is_ok]. rewrite Haf. split; [done|]. exists T, base. eapply in_block_vars; [exact Hb|done..].
Qed.
Lemma aborted_steps r st args w ro h ms : inv r w (ABlock ro h ms true) -> (forall tc, st <> SControl tc) ->
  steps r (ABlock ro h ms true) st args w (Err errAborted) w.
Proof.
  intros Hi Hst. destruct w as [w1 s]. apply steps_here.
  - apply event_els; [done|]. intros ????? _ ->. by destruct (Hst tc).
  - destruct st; try done. by destruct (Hst tc).
  - destruct st; try done. by destruct (Hst tc).
Qed.

(** ** Transaction control *)

Lemma begin_steps r tc args w : r < 2 ^ 63 -> tcKind tc = TxnBegin -> inv r w AIdle -> wp (txnControl tc) (steps r AIdle (SControl tc) args w) w.
Proof.
  intros Hr Hk [Hs [Ht Ha]]. unfold txnControl. apply wp_getS. cbn [id]. rewrite Hk, Ht. apply wp_occ. rewrite (sd_occ _ _ _ _ Hs), andb_false_r. cbn [negb].
  destruct w as [[e s] ses]. cbn [fst snd] in *. apply wp_bind. unfold wp at 1, onDB. cbn [fst snd].
  pose proof (Begin_runs (negb (tcReadOnly tc)) r e s Hs) as Hb. unfold wp in Hb. destruct (Begin _ (e, s)) as [o [e1 s1]]. cbn [fst snd] in Hb.
  destruct Hb as (Hel & Hs1 & Hb). destruct o as [T|er|p]; cbn [seqQ]; [|unfold steps; cbn [answer after is_ok]; rewrite Hk; by split_and!|done].
  apply wp_setS. apply wp_ret. unfold steps. cbn [fst snd answer after is_ok]. rewrite Hk. split_and!; [done|done|intros _]. split; [done|]. split; [done|]. cbn [fst snd].
  destruct Hb as (b & t & -> & Hm & Hw & Hsv). exists (x_releaseW b (newTxn t)), (db_head s1). cbn. split; cbn; rewrite ?Hsv, ?Hm; try done.
  - split; cbn; rewrite Hsv; [done|constructor|by intros ? ?%elem_of_nil].
  - intros Hro. rewrite Hro in Hw. apply txn_ok_release. destruct Hs1. apply newTxn_ok; try done. rewrite Hm. by split.
  - intros _. constructor.
Qed.

(** A writable block's state is sound. *)
Lemma block_sound r e m s ro h ms failed T base : sound false r e m -> in_block r e m s ro h ms failed T base -> sound false r e (outcome_of T m).
Proof.
  intros Hs Hb. unfold outcome_of. rewrite (ib_writable _ _ _ _ _ _ _ _ _ _ Hb). destruct ro; [done|]. cbn [negb].
  destruct (ib_txn _ _ _ _ _ _ _ _ _ _ Hb eq_refl) as [K1 K2 [K3 K4 K5] _ _ _ _ _ _ _]. destruct Hs. by split.
Qed.
Lemma rollback_steps r st args w ro h ms failed T base res : sound false r w.1.1 (db_head w.1.2) -> in_block r w.1.1 (db_head w.1.2) w.2 ro h ms failed T base ->
  (forall o m m', els m m' -> is_panic o = false -> (forall x, o = Ok x -> x = res) -> event (ABlock ro h ms failed) st args o m m' /\ answer (ABlock ro h ms failed) st o /\
    after (ABlock ro h ms failed) st args (is_ok o) = AIdle) ->
  wp (_ ← setS s_closed; _ ← ending T Rollback; mret res) (steps r (ABlock ro h ms failed) st args w) w.
Proof.
  intros Hs Hb Hev. apply wp_setS. destruct w as [[e s] ses]. cbn [fst snd] in *. apply wp_bind. unfold wp at 1, ending. cbn [fst snd].
  pose proof (Rollback_runs r e s T Hs) as H. unfold wp in H. destruct (Rollback (e, s, T)) as [o [[e1 s1] T1]]. cbn [fst snd] in H. destruct H as (Hp & Hel & Hs1).
  destruct o as [[]|er|p]; cbn [seqQ]; [|..|done].
  - destruct (Hev (Ok res) _ _ Hel eq_refl) as (H1 & H2 & H3); [by intros x [= ->]|]. apply wp_ret. unfold steps. cbn [fst snd]. split_and!; [done..|].
    intros _. split; [done|]. rewrite H3. by split.
  - destruct (Hev (Err er) _ _ Hel eq_refl) as (H1 & H2 & H3); [done|]. unfold steps. cbn [fst snd]. split_and!; [done..|]. intros _. split; [done|]. rewrite H3. by split.
Qed.
Lemma commit_steps r tc args w ro h ms T base : tcKind tc = TxnCommit -> sound false r w.1.1 (db_head w.1.2) -> in_block r w.1.1 (db_head w.1.2) w.2 ro h ms false T base ->
  wp (_ ← setS s_closed; _ ← ending T Commit; mret done_) (steps r (ABlock ro h ms false) (SControl tc) args w) w.
Proof.
  intros Hk Hs Hb. apply wp_setS. destruct w as [[e s] ses]. cbn [fst snd] in *. apply wp_bind. unfold wp at 1, ending. cbn [fst snd].
  pose proof (block_sound _ _ _ _ _ _ _ _ _ _ Hs Hb) as Hs'. pose proof (Commit_runs r e s T Hs Hs') as H. unfold wp in H.
  destruct (Commit (e, s, T)) as [o [[e1 s1] T1]]. cbn [fst snd] in H. destruct H as (Hs1 & H). destruct tc as [k cro iso tag nm]. cbn in Hk. subst k.
  assert (els (outcome_of T (db_head s)) (db_head s1) -> if ro then els (db_head s) (db_head s1) else publishes h (db_head s) (db_head s1)) as Hpub.
  { unfold outcome_of. rewrite (ib_writable _ _ _ _ _ _ _ _ _ _ Hb). destruct ro; cbn [negb]; [done|]. intros Hel. exists (kv_map (xTx T)). split; [|done].
    rewrite <- (ib_base _ _ _ _ _ _ _ _ _ _ Hb eq_refl). by apply (ib_replays _ _ _ _ _ _ _ _ _ _ Hb). }
  destruct o as [[]|er|p]; cbn [seqQ]; [apply wp_ret| |done]; unfold steps; cbn [fst snd event answer after tcKind is_ok is_panic].
  - split_and!; [destruct ro; by apply Hpub|done|]. intros _. split; [by intros x [= ->]|]. by split.
  - split_and!; [|done|intros _; by split]. destruct ro; [destruct H as [H|[_ H]]; [done|by apply Hpub]|]. destruct H as [H|[Hu H]]; [by left|right; split; [done|by apply Hpub]].
Qed.

Lemma savepoint_steps r tc args w ro h ms T base : 0 <= r -> tcKind tc = TxnSavepointK -> sound false (r + 1) w.1.1 (db_head w.1.2) ->
  in_block (r + 1) w.1.1 (db_head w.1.2) w.2 ro h ms false T base ->
  wp (p ← orFail (inTxn T TxnSavepoint); _ ← setS (λ s, s_saves (sSaves s ++ [(tcName tc, p)]) s); mret done_) (steps r (ABlock ro h ms false) (SControl tc) args w) w.
Proof.
  intros Hr Hk Hs Hb. destruct w as [[e s] ses]. cbn [fst snd] in *. apply wp_bind. unfold wp at 1. rewrite orFail_eq. unfold inTxn. cbn [fst snd].
  apply (sound_less false _ r) in Hs; [|lia]. pose proof (TxnSavepoint_stack e T (ib_marks _ _ _ _ _ _ _ _ _ _ Hb)) as Hst. unfold wp in Hst.
  assert (ro = false -> txn_ok r (TxnSavepoint (e, T)).2.1 (TxnSavepoint (e, T)).2.2) as Htx.
  { intros Hro. pose proof (TxnSavepoint_wp r e T Hr (ib_txn _ _ _ _ _ _ _ _ _ _ Hb Hro)) as [[_ Hg] _]. apply Hg. }
  apply (in_block_less _ r) in Hb as Hb'; [|lia]. destruct (TxnSavepoint (e, T)) as [o [e' T']]. cbn [fst snd] in *. destruct Hst as [Hst ->].
  destruct tc as [k cro iso tag nm]. cbn in Hk. subst k. destruct Hb as [H1 H2 H3 H4 H5 H6 H7 H8 H9 H10 H11]. destruct o as [p|er|q]; [| |done].
  - cbn [seqQ fst snd]. destruct Hst as (K1 & K2 & K3 & K4). apply wp_setS. apply wp_ret. unfold steps. cbn [fst snd event answer after tcKind tcName is_ok is_panic s_tx sSaves].
    split_and!; [destruct ro; apply rtc_refl|done|]. intros _. split; [done|]. split; [done|]. cbn [fst snd]. exists T', base.
    split; cbn [s_saves s_tx sTx sReadOnly sAborted sSaves]; rewrite ?K1, ?K2, ?K3, ?fmap_app; try done; [by rewrite H9|by rewrite H10|].
    apply Forall2_app; [done|]. repeat constructor. by apply H8.
  - injection Hst as ->. cbn [seqQ fst snd sTx s_tx]. unfold steps. cbn [fst snd event answer after tcKind is_ok is_panic].
    split_and!; [destruct ro; apply rtc_refl|done|]. intros _. split; [done|]. split; [done|]. exists T, base. cbn [fst snd].
    eapply in_block_vars; [exact Hb'|done..].
Qed.

Lemma in_block_cut (keep : bool) r e m s ro h h' ms failed T T' base i p m' : in_block r e m s ro h ms failed T base -> cut keep T p T' ->
  (ro = false -> txn_ok r e T') -> kv_saves (xTx T) !! i = Some (p, m') -> replays base h' m' -> (keep = false -> failed = false) ->
  let n := if keep then (i + 1)%nat else i in
  in_block r e m (s_aborted false (s_saves (take n (sSaves s)) (s_tx T' s))) ro (if keep then h' else h) (take n ms) false T' base.
Proof.
  intros [H1 H2 H3 H4 H5 H6 H7 H8 H9 H10 H11] (pre & m0 & post & C1 & C2 & C3 & C4 & C5) Htx Hi Hrep Hf n.
  destruct (stack_cut _ _ _ i p m' m0 (mk_nodup _ H4) Hi C1) as (-> & P1 & P2).
  assert (kv_saves (xTx T') = take n (kv_saves (xTx T))) as En by (rewrite C2; unfold n; destruct keep; [by rewrite <- P2|by rewrite app_nil_r]).
  split; cbn [s_aborted s_saves s_tx sTx sReadOnly sAborted sSaves]; try done; rewrite ?En, ?C4, ?fmap_take; [done|..|by rewrite H9|by rewrite H10|by apply Forall2_take].
  intros _. rewrite C3. destruct keep; [done|]. by apply H8, Hf.
Qed.

Lemma rollbackTo_steps r tc args w ro h ms failed T base : 0 <= r -> tcKind tc = TxnRollbackToK -> sound false (r + 1) w.1.1 (db_head w.1.2) ->
  in_block (r + 1) w.1.1 (db_head w.1.2) w.2 ro h ms failed T base ->
  wp (match findSave (tcName tc) (sSaves w.2) (length (sSaves w.2)) with
      | None => failBlock (errNoSave (tcName tc))
      | Some (i, p) => _ ← orFail (inTxn T (TxnRollbackTo p)); _ ← setS (λ s, s_aborted false (s_saves (take (i + 1) (sSaves s)) s)); mret done_
      end) (steps r (ABlock ro h ms failed) (SControl tc) args w) w.
Proof.
  assert (forall x : astate St, (if failed then x else x) = x) as Hif by (by destruct failed).
  intros Hr Hk Hs Hb. apply (sound_less false _ r) in Hs; [|lia]. pose proof (findSave_marks _ _ _ _ _ _ _ _ _ _ (tcName tc) Hb) as Hfind.
  apply (in_block_less _ r) in Hb as Hb'; [|lia]. destruct tc as [k cro iso tag nm]. cbn in Hk. subst k. cbn [tcName] in *.
  destruct w as [[e s] ses]. cbn [fst snd] in *. pose proof (ib_tx _ _ _ _ _ _ _ _ _ _ Hb) as Ht.
  destruct (findSave nm (sSaves ses) _) as [[i p]|], (findSave nm ms (length ms)) as [[j h']|] eqn:Em; try done.
  - destruct Hfind as (-> & m' & Hi & Hrep). apply wp_bind. unfold wp at 1. rewrite orFail_eq. unfold inTxn. cbn [fst snd].
    pose proof (TxnRollbackTo_stack e T p (ib_marks _ _ _ _ _ _ _ _ _ _ Hb)) as Hst. unfold wp in Hst.
    assert (ro = false -> txn_ok r (TxnRollbackTo p (e, T)).2.1 (TxnRollbackTo p (e, T)).2.2) as Htx.
    { intros Hro. pose proof (TxnRollbackTo_wp r p e T Hr (ib_txn _ _ _ _ _ _ _ _ _ _ Hb Hro)) as [[_ Hg] _]. apply Hg. }
    destruct (TxnRollbackTo p (e, T)) as [o [e' T']]. cbn [fst snd] in *. destruct Hst as [Hst ->]. destruct o as [[]|er|q]; [| |done].
    + cbn [seqQ fst snd]. apply wp_setS. apply wp_ret. unfold steps. cbn [fst snd event answer after tcKind tcName is_ok is_panic]. rewrite Em.
      split_and!; [destruct ro, failed; apply rtc_refl|done|]. intros _. split; [by destruct failed|]. rewrite Hif. split; [done|]. exists T', base. cbn [fst snd].
      exact (in_block_cut true r e _ _ ro h h' ms failed T T' base j p m' Hb' Hst Htx Hi Hrep ltac:(done)).
    + injection Hst as ->. cbn [seqQ fst snd sTx s_tx]. unfold steps. cbn [fst snd event answer after tcKind tcName is_ok is_panic]. rewrite Em.
      split_and!; [destruct ro, failed; apply rtc_refl|done|]. intros _. split; [by destruct failed|]. rewrite Hif. split; [done|]. exists T, base. by eapply in_block_vars; [exact Hb'|..].
  - unfold wp. rewrite failBlock_eq. cbn [fst snd]. rewrite Ht. unfold steps. cbn [fst snd event answer after tcKind tcName is_ok is_panic]. rewrite Em.
    split_and!; [destruct ro, failed; apply rtc_refl|done|]. intros _. split; [by destruct failed|]. rewrite Hif. split; [done|]. exists T, base. by eapply in_block_vars; [exact Hb'|..].
Qed.
Lemma release_steps r tc args w ro h ms T base : 0 <= r -> tcKind tc = TxnReleaseK -> sound false (r + 1) w.1.1 (db_head w.1.2) ->
  in_block (r + 1) w.1.1 (db_head w.1.2) w.2 ro h ms false T base ->
  wp (match findSave (tcName tc) (sSaves w.2) (length (sSaves w.2)) with
      | None => failBlock (errNoSave (tcName tc))
      | Some (i, p) => _ ← orFail (inTxn T (TxnRelease p)); _ ← setS (λ s, s_saves (take i (sSaves s)) s); mret done_
      end) (steps r (ABlock ro h ms false) (SControl tc) args w) w.
Proof.
  intros Hr Hk Hs Hb. apply (sound_less false _ r) in Hs; [|lia]. pose proof (findSave_marks _ _ _ _ _ _ _ _ _ _ (tcName tc) Hb) as Hfind.
  apply (in_block_less _ r) in Hb as Hb'; [|lia]. destruct tc as [k cro iso tag nm]. cbn in Hk. subst k. cbn [tcName] in *.
  destruct w as [[e s] ses]. cbn [fst snd] in *. pose proof (ib_tx _ _ _ _ _ _ _ _ _ _ Hb) as Ht. pose proof (ib_failed _ _ _ _ _ _ _ _ _ _ Hb) as Hf.
  destruct (findSave nm (sSaves ses) _) as [[i p]|], (findSave nm ms (length ms)) as [[j h']|] eqn:Em; try done.
  - destruct Hfind as (-> & m' & Hi & Hrep). apply wp_bind. unfold wp at 1. rewrite orFail_eq. unfold inTxn. cbn [fst snd].
    pose proof (TxnRelease_stack e T p (ib_marks _ _ _ _ _ _ _ _ _ _ Hb)) as Hst. unfold wp in Hst.
    assert (ro = false -> txn_ok r (TxnRelease p (e, T)).2.1 (TxnRelease p (e, T)).2.2) as Htx.
    { intros Hro. pose proof (TxnRelease_ok r p e T Hr (ib_txn _ _ _ _ _ _ _ _ _ _ Hb Hro)) as [_ Hg]. apply Hg. }
    destruct (TxnRelease p (e, T)) as [o [e' T']]. cbn [fst snd] in *. destruct Hst as [Hst ->]. destruct o as [[]|er|q]; [| |done].
    + cbn [seqQ fst snd]. apply wp_setS. apply wp_ret. unfold steps. cbn [fst snd event answer after tcKind tcName is_ok is_panic s_tx sSaves]. rewrite Em.
      split_and!; [destruct ro; apply rtc_refl|done|]. intros _. split; [done|]. split; [done|]. exists T', base. cbn [fst snd].
      pose proof (in_block_cut false r e _ _ ro h h' ms false T T' base j p m' Hb' Hst Htx Hi Hrep ltac:(done)) as Hc. cbn in Hc.
      eapply in_block_vars; [exact Hc|done..].
    + injection Hst as ->. cbn [seqQ fst snd sTx s_tx]. unfold steps. cbn [fst snd event answer after tcKind tcName is_ok is_panic]. rewrite Em.
      split_and!; [destruct ro; apply rtc_refl|done|]. intros _. split; [done|]. split; [done|]. exists T, base. by eapply in_block_vars; [exact Hb'|..].
  - unfold wp. rewrite failBlock_eq. cbn [fst snd]. rewrite Ht. unfold steps. cbn [fst snd event answer after tcKind tcName is_ok is_panic]. rewrite Em.
    split_and!; [destruct ro; apply rtc_refl|done|]. intros _. split; [done|]. split; [done|]. exists T, base. by eapply in_block_vars; [exact Hb'|..].
Qed.

(** ** One statement, and a script *)

Lemma here_steps r a st args w o : inv r w a -> event a st args o (db_head w.1.2) (db_head w.1.2) -> answer a st o -> after a st args (is_ok o) = a ->
  steps r a st args w o w.
Proof. intros Hi He Ha Haf. destruct w as [w1 s]. apply steps_here; [done..|by rewrite Haf]. Qed.
Lemma control_idle r tc args w : r < 2 ^ 63 -> inv r w AIdle -> wp (txnControl tc) (steps r AIdle (SControl tc) args w) w.
Proof.
  intros Hr Hi. destruct (tcKind tc) eqn:Ek; [by apply begin_steps|..]; destruct (iv_state _ _ _ Hi) as [Ht _];
    unfold txnControl; apply wp_getS; cbn [id]; rewrite Ek, ?Ht; unfold savepointControl; try (apply wp_getS; cbn [id]; rewrite Ht, Ek);
    (apply here_steps; [done|apply rtc_refl|cbn [answer]; by rewrite Ek|cbn [after]; by rewrite Ek]).
Qed.
Lemma control_block r tc args w ro h ms failed : 0 <= r -> inv (r + 1) w (ABlock ro h ms failed) ->
  wp (txnControl tc) (steps r (ABlock ro h ms failed) (SControl tc) args w) w.
Proof.
  intros Hr Hi. apply (inv_less _ r) in Hi as Hi'; [|lia]. destruct Hi as [Hs (T & base & Hb)]. pose proof (in_block_less (r + 1) r _ _ _ _ _ _ _ _ _ ltac:(lia) Hb) as Hb'.
  pose proof (iv_sound _ _ _ Hi') as Hs'. pose proof (ib_tx _ _ _ _ _ _ _ _ _ _ Hb) as Ht. pose proof (ib_failed _ _ _ _ _ _ _ _ _ _ Hb) as Hf.
  unfold txnControl. apply wp_getS. cbn [id]. destruct (tcKind tc) eqn:Ek; rewrite ?Ht.
  - apply here_steps; [done|apply event_els; [done|]; intros ????? _ [= <-]; congruence|cbn; rewrite Ek|cbn; rewrite Ek]; by destruct failed.
  - rewrite Hf. destruct failed; [|by eapply commit_steps]. eapply rollback_steps; [done|done|]. intros o m m' Hel Hp Ho.
    cbn [answer after event]. rewrite Ek. split_and!; [by destruct ro|done|done].
  - eapply rollback_steps; [done|done|]. intros o m m' Hel Hp Ho. cbn [answer after event]. rewrite Ek. destruct tc as [k cro iso tag nm]. cbn in Ek. subst k.
    split_and!; [by destruct ro, failed|by destruct failed|by destruct failed].
  - unfold savepointControl. apply wp_getS. cbn [id]. rewrite Ht, Hf, Ek. destruct failed; cbn [andb negb]; [|by eapply savepoint_steps].
    apply here_steps; [done|apply event_els; [done|]; intros ????? _ [= <-]; congruence|cbn; by rewrite Ek|cbn; by rewrite Ek].
  - unfold savepointControl. apply wp_getS. cbn [id]. rewrite Ht, Hf, Ek. destruct failed; cbn [andb negb]; [|by eapply release_steps].
    apply here_steps; [done|apply event_els; [done|]; intros ????? _ [= <-]; congruence|cbn; by rewrite Ek|cbn; by rewrite Ek].
  - unfold savepointControl. apply wp_getS. cbn [id]. rewrite Ht, Hf, Ek. cbn [negb]. rewrite andb_false_r. by eapply rollbackTo_steps.
Qed.

Lemma runCtx_steps r a st args w : 0 <= r < 2 ^ 62 -> 0 <= step_cost (st, args) < 2 ^ 62 -> inv (r + step_cost (st, args)) w a ->
  wp (runCtx wild st args) (steps r a st args w) w.
Proof.
  intros Hr Hc Hi. apply (inv_less _ r) in Hi as Hi'; [|lia].
  destruct st as [tc|v|name|k st]; [destruct a as [|ro h ms failed]; [apply control_idle; [lia|exact Hi']|apply control_block; [lia|exact Hi]]|..];
    cbn [runCtx]; apply wp_getS; cbn [id]; destruct (sAborted w.2) eqn:Ea.
  1,3,5: destruct a as [|ro h ms failed]; [destruct (iv_state _ _ _ Hi') as [_ ?]; congruence|];
    assert (failed = true) as -> by (destruct (iv_state _ _ _ Hi') as (T & base & Hb); by rewrite <- (ib_failed _ _ _ _ _ _ _ _ _ _ Hb)); by apply aborted_steps.
  - by apply set_steps.
  - apply (show_steps r a name args w _ Hi' Ea).
  - destruct a as [|ro h ms failed]; [destruct (iv_state _ _ _ Hi) as [-> _]; apply other_idle; [lia|cbn in Hc; lia|exact Hi]|].
    destruct (iv_state _ _ _ Hi) as (T & base & Hb). destruct (iv_state _ _ _ Hi') as (T' & base' & Hb').
    pose proof (ib_failed _ _ _ _ _ _ _ _ _ _ Hb) as Hf. rewrite Ea in Hf. subst failed. rewrite (ib_tx _ _ _ _ _ _ _ _ _ _ Hb), (ib_ro _ _ _ _ _ _ _ _ _ _ Hb).
    assert (forall er, wp (failBlock er) (steps r (ABlock ro h ms false) (SOther k st) args w) w) as Href by (intros er; eapply refused_block; [apply Hi'|exact Hb'|done..]).
    destruct (decide (k = KVacuum)) as [->|Hv]; [apply Href|]. replace (match k with KVacuum => true | _ => false end) with false by (by destruct k).
    destruct (isDDL k) eqn:Ed; [apply Href|]. destruct (ro && isWrite k) eqn:Ew; [apply Href|]. eapply other_block; [lia|apply Hi|exact Hb|done..].
Qed.

Lemma step_cost_nonneg x : 0 <= step_cost x.
Proof. destruct x as [[] args]; cbn; [lia..|apply cost_nonneg]. Qed.
Lemma total_cost_nonneg l : 0 <= total_cost l.
Proof. induction l as [|x l IH]; cbn; [done|]. pose proof (step_cost_nonneg x). unfold total_cost in IH. lia. Qed.

Lemma script_runs l : forall r a w, 0 <= r -> r + total_cost l < 2 ^ 62 -> inv (r + total_cost l) w a ->
  session_runs a (db_head w.1.2) l (run_script l w).1 (db_head (run_script l w).2.1.2) /\
  sound false r (run_script l w).2.1.1 (db_head (run_script l w).2.1.2).
Proof.
  induction l as [|[st args] l IH]; intros r a w Hr Hb Hi; cbn [run_script].
  - cbn [total_cost foldr] in Hi. rewrite Z.add_0_r in Hi. destruct (Close_runs r w (iv_sound _ _ _ Hi)) as [H1 H2]. split; [by constructor|done].
  - pose proof (step_cost_nonneg (st, args)) as Hc. pose proof (total_cost_nonneg l) as Hl. change (total_cost ((st, args) :: l)) with (step_cost (st, args) + total_cost l) in *.
    assert (inv (r + total_cost l + step_cost (st, args)) w a) as Hi0 by (by rewrite <- Z.add_assoc, (Z.add_comm (total_cost l))).
    pose proof (runCtx_steps (r + total_cost l) a st args w ltac:(lia) ltac:(lia) Hi0) as Hst. unfold wp in Hst.
    destruct (runCtx wild st args w) as [o w1]. cbn [fst snd] in Hst. destruct Hst as (He & Hs & Hn). destruct (is_panic o) eqn:Ep.
    + destruct (Close_runs (r + total_cost l) w1 Hs) as [H1 H2]. cbn [fst snd]. split; [by eapply sr_panic|]. eapply sound_less; [|exact H2]. lia.
    + destruct (Hn eq_refl) as [Ha Hi1]. specialize (IH r _ w1 Hr ltac:(lia) Hi1). destruct (run_script l w1) as [os w2]. cbn [fst snd] in *.
      destruct IH as [IH1 IH2]. split; [|done]. rewrite (inv_status _ _ _ Hi1). by eapply sr_step.
Qed.

(** C4: a session keeps what its block promises. Whatever script of
    statements a client sends (BEGIN, COMMIT, ROLLBACK, savepoints by name,
    SET, SHOW, queries, writes, schema changes), with whatever outcomes,
    the committed state moves only by statements outside blocks and by the
    COMMIT of a block that has not failed, which publishes exactly the
    statements that succeeded and were not rolled back, one after another,
    on the state the block began on. A failed block answers everything but
    ROLLBACK, ROLLBACK TO and COMMIT (which then rolls back and says so)
    with an error, the reported status is the block's, and the end of the
    connection, or a panic, rolls the open block back. The database stays
    sound. *)
Theorem session_keeps_block (l : list (Statement St * list any)) r (e : E) (s : S) : 0 <= r -> r + total_cost l < 2 ^ 62 ->
  sound false (r + total_cost l) e (db_head s) ->
  session_runs AIdle (db_head s) l (run_script l ((e, s), NewSession)).1 (db_head (run_script l ((e, s), NewSession)).2.1.2) /\
  sound false r (run_script l ((e, s), NewSession)).2.1.1 (db_head (run_script l ((e, s), NewSession)).2.1.2).
Proof. intros Hr Hb Hs. apply (script_runs l r AIdle ((e, s), NewSession) Hr Hb). by split. Qed.
End sessions.

(** ** Programs that take no savepoints *)

Section calm.
Context {E : Type} {eng : EngineOps E} {eng_laws : EngineLaws E} {cs : CatState E} {cat_laws : CatLaws E} {te : TxnEngine E} {te_laws : TxnEngineLaws E}.
Context {tx sp : Type} {kv : KV tx} {kv_laws : KVLaws tx} {sv : KVSave tx sp} {sv_laws : KVSaveLaws tx sp} {sp_eq : EqDecision sp}.
Abbreviation Txn := (Txn tx sp).
Implicit Types T : Txn.

#[export] Instance kept_preorder : PreOrder (kept (tx := tx) (sp := sp)).
Proof. split; [by intros T|]. intros T1 T2 T3 (A1 & A2 & A3 & A4) (B1 & B2 & B3 & B4). unfold kept. split_and!; congruence. Qed.
Definition calm {A : Type} (m : M (E * Txn) A) : Prop := forall s, kept s.2 (m s).2.2.
Lemma calm_ret {A : Type} (a : A) : calm (mret a).
Proof. by intros s. Qed.
Lemma calm_lift {A : Type} (o : outcome A) : calm (lift o).
Proof. by intros s. Qed.
Lemma calm_fail {A : Type} er : calm (fail er : M (E * Txn) A).
Proof. by intros s. Qed.
Lemma calm_getX {A : Type} (f : Txn -> A) : calm (getX f).
Proof. by intros s. Qed.
Lemma calm_bind {A B : Type} (m : M (E * Txn) A) (f : A -> M (E * Txn) B) : calm m -> (forall a, calm (f a)) -> calm (m ≫= f).
Proof.
  intros Hm Hf s. specialize (Hm s). unfold mbind, M_bind. destruct (m s) as [[a|er|p] s1]; [|done..]. cbn [fst snd] in *. etransitivity; [exact Hm|apply Hf].
Qed.
Lemma calm_onX f : (forall T, kept T (f T)) -> calm (onX f).
Proof. intros Hf s. apply Hf. Qed.
Lemma calm_onKv {A : Type} (m : M (E * tx) A) : tame m -> calm (onKv m).
Proof.
  intros Hm s. specialize (Hm (s.1, xTx s.2)). unfold onKv. destruct (m (s.1, xTx s.2)) as [o [e t]]. cbn [fst snd] in *. destruct Hm as (_ & H1 & H2 & H3). by split_and!.
Qed.
Lemma calm_tx {A : Type} (m : M tx A) : tame_tx m -> calm (onKv (onTx m) : M (E * Txn) A).
Proof. intros Hm. by apply calm_onKv, tame_of_tx. Qed.
Lemma calm_mark f : (forall t, kv_writable (f t) = kv_writable t /\ same_saves kv_saves kv_issued t (f t)) -> calm (onX (x_tx f) : M (E * Txn) unit).
Proof. intros Hf [e T]. destruct (Hf (xTx T)) as (H1 & H2 & H3). by split_and!. Qed.
Lemma calm_check n : calm (CheckWrites n : M (E * Txn) unit).
Proof. intros s. unfold CheckWrites. by case_match. Qed.
Lemma calm_if {A : Type} (b : bool) (m1 m2 : M (E * Txn) A) : calm m1 -> calm m2 -> calm (if b then m1 else m2).
Proof. by destruct b. Qed.
Create HintDb calm.
#[local] Hint Resolve calm_ret calm_lift calm_fail calm_getX calm_bind calm_onKv calm_tx calm_check calm_if : calm.
#[local] Hint Resolve tame_tableFromView tame_insertRow tame_updateRow tame_deleteRow tame_memory tame_isOcc tame_tx_delete_range tame_tx_set
  tame_NextVal tame_SetVal tame_nextSeqIn tame_setSeqIn tame_deleteSeqIn tame_of_tx : calm.
#[local] Hint Extern 2 (calm (onX _)) => apply calm_onX; intros []; done : calm.
#[local] Hint Extern 3 (calm (match ?x with _ => _ end)) => destruct x : calm.
#[local] Hint Extern 1 (calm _) => progress intros : calm.

Lemma calm_desc table : calm (TxnDesc table : M (E * Txn) TableDesc).
Proof. unfold TxnDesc, TxnTable. apply calm_bind; [apply calm_bind; [eauto with calm|intros []; eauto with calm]|intros []; eauto with calm]. Qed.
#[local] Hint Resolve calm_desc : calm.

(** Every method but those of savepoints leaves the stack alone. *)
Definition op_plain (op : txop sp) : Prop := match op with TSavepoint | TRollbackTo _ | TRelease _ => False | _ => True end.
Lemma exec_op_calm op : op_plain op -> calm (exec_op op : M (E * Txn) _).
Proof.
  destruct op; try done; intros _; cbn [exec_op]; unfold TxnInsertReturning, TxnUpdateReturning, TxnDelete, TxnGet, TxnTruncate, TxnRestartIdentity, TxnPeekIdentity, countWrite;
    repeat first [apply calm_bind; [|intros] | case_match | by eauto with calm].
  apply calm_mark. intros t. split; [|apply kv_mark_read_saves]. by rewrite !kv_writable_view, kv_mark_read_view.
Qed.
Fixpoint client_plain {n : nat} (c : client sp n) : Prop :=
  match c with CReturn _ => True | CCall op next => op_plain op /\ forall o, client_plain (next o) end.
Lemma client_calm n (c : client sp n) : client_plain c -> calm (run_client c : M (E * Txn) unit).
Proof.
  induction c as [n o|n op next IH]; intros Hc s; cbn [run_client]; [done|]. destruct Hc as [Ho Hn]. pose proof (exec_op_calm op Ho s) as H.
  destruct (exec_op op s) as [o s1]. cbn [fst snd] in H. destruct o as [a|er|p]; [|..|done]; (etransitivity; [exact H|by apply IH]).
Qed.
End calm.

(** ** Sessions on a store of one writer *)

#[export] Instance save_open : DBOpen MemEngine MemStore SaveTx := {
  db_begin w s := (Ok (Save (Mem (KV.View s.2 w true [])) [] 0), s);
  db_commit t s := (Ok tt, (s.1, if kv_writable t then v_map (mem_view (sv_mem t)) else s.2));
  db_rollback _ s := (Ok tt, s);
}.
#[export] Instance save_open_laws : DBOpenLaws MemEngine MemStore SaveTx nat.
Proof. split; [by intros w e s|intros t e s _; cbn; by destruct (v_writable _)|by intros t e s]. Qed.

(** Statements that are programs over the transaction; one that writes
    nothing returns at once. *)
Record exStmt := mkExStmt { xsProg : client nat 4; xsOk : client_ok xsProg; xsPlain : client_plain xsProg }.
#[export] Instance ex_exec : SqlExec MemEngine MemStore SaveTx nat exStmt := {
  run_auto _ serial k st _ := if isWrite k then _ ← writeTxn serial (run_client (xsProg st)); mret done_ else mret done_;
  run_in _ k st _ := if isWrite k then _ ← run_client (xsProg st); mret done_ else mret done_;
}.
#[export] Instance ex_exec_laws : SqlExecLaws MemEngine MemStore SaveTx nat exStmt.
Proof.
  refine {| cost _ _ _ := 4 |}; [done|..].
  - intros tmo k st args r e T Hr Hok. cbn [run_in ex_exec]. destruct (isWrite k).
    + unfold wp. pose proof (run_client_ok 4 (xsProg st) r e T Hr Hok (xsOk st)) as H. pose proof (client_calm 4 (xsProg st) (xsPlain st) (e, T)) as Hk. unfold wp in H.
      unfold mbind, M_bind. destruct (run_client (xsProg st) (e, T)) as [[[]|er|p] s']; by split.
    + apply wp_ret. split; [|done]. apply goes_refl. eapply txn_ok_less; [|exact Hok]. lia.
  - intros tmo k st args e T Hk _. cbn [run_in ex_exec]. rewrite Hk. by apply wp_ret.
  - intros tmo serial k st args r e s Hr Hlt Hs. cbn [run_auto ex_exec]. destruct (isWrite k); [|apply wp_ret; eapply sound_less; [|exact Hs]; lia].
    apply wp_bind. eapply wp_mono; [apply (writeTxn_wp save_sound serial 4 (xsProg st) r e s Hr); [lia|done|apply xsOk]|]. intros [[]|er|p] s' [H _]; done.
Defined.

Definition exInsert : client nat 4 := CCall (TInsert (go "p") [AInt KInt64 3; AString (go "b")]) (λ o, CReturn match o with Ok _ => Ok tt | Err er => Err er | Panic p => Panic p end).
Lemma exInsert_ok : client_ok exInsert.
Proof. split; [repeat constructor; cbn; lia|done]. Qed.
Lemma exInsert_plain : client_plain exInsert.
Proof. by split. Qed.
Definition exWrite : Statement exStmt := SOther KInsert (mkExStmt exInsert exInsert_ok exInsert_plain).
Definition exDDL : Statement exStmt := SOther KCreateTable (mkExStmt exInsert exInsert_ok exInsert_plain).
Definition ctl (k : TxnKind) (name : bytes) : Statement exStmt := SControl (mkControl k false [] [] name).

Definition exScript : list (Statement exStmt * list any) :=
  [(ctl TxnBegin [], []); (exWrite, []); (ctl TxnSavepointK (go "a"), []); (exDDL, []); (ctl TxnRollbackToK (go "a"), []); (ctl TxnCommit [], [])].
Lemma session_keeps_block_witness :
  session_runs AIdle (db_head (DBLaws := save_db_laws) exState.2) exScript (run_script 0 exScript ((exState.1, exState.2), NewSession)).1
    (db_head (DBLaws := save_db_laws) (run_script 0 exScript ((exState.1, exState.2), NewSession)).2.1.2).
Proof.
  exact (proj1 (session_keeps_block 0 save_sound exScript 1 exState.1 exState.2 ltac:(lia) ltac:(done) (exState_save 13 ltac:(lia)))).
Defined.

(** A write to a missing table fails the block, which then refuses queries;
    COMMIT rolls back and says so. An error of SHOW does not fail it. *)
Definition emptyStore : (MemEngine * MemStore) * Session SaveTx nat := ((mkCat ∅ 0, ∅), NewSession).
Example failed_block :
  map (λ x, (is_ok x.1, rTag <$> (match x.1 with Ok r => Some r | _ => None end), x.2))
    (run_script 0 [(ctl TxnBegin [], []); (SShow (go "nosuch"), []); (exWrite, []); (exWrite, []); (ctl TxnCommit [], [])] emptyStore).1 =
  [(true, Some [], TxActive); (false, None, TxActive); (false, None, TxFailed); (false, None, TxFailed); (true, Some (go "ROLLBACK"), TxIdle)].
Proof. reflexivity. Qed.
