(* ===== verification/ConnSession.v ===== *)
(** * From the wire to the database

    A connection of [Conn.v] over the session of [Session.v]: whatever bytes
    a client sends, the session has run a script of statements, no more of
    them than there were bytes, and so the database has moved only the way
    [SessionOk.v] says a session moves it. *)
From S2P Require Import Prelude GoVal GoStr KV Savepoint Catalog Dml Engine Store Database MemDB Txn TxnOk Run Atomic WriteTxn Wire Lexer WireErr Conn ConnOk ConnSafe Session SessionOk.

Local Open Scope nat_scope.

(** ** What a connection does to its session *)

Section drives.
Context {Er Se stmt : Type} {se : Serr Er} {sql : SqlLayer Er Se stmt}.
Context (describe_keeps : forall st s, (Describe st s).2 = s).
Abbreviation conn := (conn Se stmt).
Abbreviation C := (M conn).
Abbreviation script := (list (stmt * list any)).

Definition raised {A : Type} (r : ret Er A) : bool := match r with Raised _ => true | _ => false end.
Definition played (l : script) (s : Se) : Se := foldl (λ s x, (ExecStmt x.1 x.2 s).2) s l.
(** No call of the script panics; none but the last does. *)
Fixpoint smooth (l : script) (s : Se) : Prop :=
  match l with [] => True | x :: l' => raised (ExecStmt x.1 x.2 s).1 = false /\ smooth l' (ExecStmt x.1 x.2 s).2 end.
Fixpoint nearly (l : script) (s : Se) : Prop :=
  match l with
  | [] | [_] => True
  | x :: l' => raised (ExecStmt x.1 x.2 s).1 = false /\ nearly l' (ExecStmt x.1 x.2 s).2
  end.
Lemma smooth_nearly l s : smooth l s -> nearly l s.
Proof. revert s. induction l as [|x l IH]; intros s; [done|]. intros [H1 H2]. destruct l; [done|]. split; [done|by apply IH]. Qed.
Lemma smooth_app l l' s : smooth l s -> smooth l' (played l s) -> smooth (l ++ l') s.
Proof. revert s. induction l as [|x l IH]; intros s; [done|]. intros [H1 H2] H3. split; [done|by apply IH]. Qed.
Lemma nearly_app l l' s : smooth l s -> nearly l' (played l s) -> nearly (l ++ l') s.
Proof.
  revert s. induction l as [|x l IH]; intros s; [done|]. intros [H1 H2] H3. specialize (IH _ H2 H3). cbn [app nearly]. by destruct (l ++ l').
Qed.

Definition drives {A : Type} (n : nat) (m : C A) : Prop := forall c, exists l, length l <= n /\ cSess (m c).2 = played l (cSess c) /\
  nearly l (cSess c) /\ (is_panic (m c).1 = false -> smooth l (cSess c)).
Definition still {A : Type} (m : C A) : Prop := forall c, cSess (m c).2 = cSess c.
Lemma drives_still {A : Type} n (m : C A) : still m -> drives n m.
Proof. intros Hm c. exists []. split_and!; [simpl; lia|apply Hm|done|done]. Qed.
Lemma drives_less {A : Type} n n' (m : C A) : n <= n' -> drives n m -> drives n' m.
Proof. intros Hn Hm c. destruct (Hm c) as (l & H1 & H2). exists l. split; [lia|done]. Qed.
Lemma drives_bind {A B : Type} n n' (m : C A) (f : A -> C B) : drives n m -> (forall a, drives n' (f a)) -> drives (n + n') (m ≫= f).
Proof.
  intros Hm Hf c. destruct (Hm c) as (l & H1 & H2 & H3 & H4). unfold mbind, M_bind. destruct (m c) as [[a|er|p] c1]; cbn [fst snd is_panic] in *.
  - destruct (Hf a c1) as (l' & K1 & K2 & K3 & K4). rewrite H2 in *. specialize (H4 eq_refl). exists (l ++ l'). rewrite length_app. split_and!; [lia| | |].
    + rewrite K2. unfold played. by rewrite foldl_app.
    + by apply nearly_app.
    + intros Hp. by apply smooth_app; [|apply K4].
  - exists l. split_and!; [lia|done..].
  - exists l. split_and!; [lia|done..].
Qed.
Lemma drives_exec st args : drives 1 (call (ExecStmt st args)).
Proof.
  intros c. exists [(st, args)]. unfold call. cbn. destruct (ExecStmt st args (cSess c)) as [r s]. cbn [fst snd].
  split_and!; [done..|]. cbn. by destruct r.
Qed.

(** ** The handlers *)

Lemma still_ret {A : Type} (a : A) : still (mret a).
Proof. done. Qed.
Lemma still_lift {A : Type} (o : outcome A) : still (lift o).
Proof. done. Qed.
Lemma still_gets {A : Type} (f : conn -> A) : still (gets f).
Proof. done. Qed.
Lemma still_modify f : (forall c, cSess (f c) = cSess c) -> still (modify f).
Proof. intros Hf c. apply Hf. Qed.
Lemma still_bind {A B : Type} (m : C A) (f : A -> C B) : still m -> (forall a, still (f a)) -> still (m ≫= f).
Proof.
  intros Hm Hf c. specialize (Hm c). unfold mbind, M_bind. destruct (m c) as [[a|er|p] c1]; cbn [snd] in *; [|done..]. by rewrite <- Hm, (Hf a c1).
Qed.
Lemma still_describe st : still (call (Describe st)).
Proof. intros c. unfold call. pose proof (describe_keeps st (cSess c)) as Hd. destruct (Describe st (cSess c)) as [r s]. cbn in *. by subst. Qed.
Lemma still_for_each {A : Type} (f : A -> C unit) l : (forall x, still (f x)) -> still (for_each f l).
Proof. intros Hf. induction l as [|x l IH]; cbn [for_each]; [done|]. by apply still_bind. Qed.
Lemma still_sendError err q base : still (sendError err q base).
Proof. done. Qed.
Lemma still_sendNotice msg : still (sendNotice msg).
Proof. by apply still_for_each. Qed.
Lemma still_sendDataRows rows formats types : still (sendDataRows rows formats types).
Proof.
  induction rows as [|row rows IH]; cbn [sendDataRows]; [done|]. case_match; [|done..]. by apply still_bind.
Qed.
Create HintDb still.
#[local] Hint Resolve still_ret still_lift still_gets still_bind still_describe still_sendError still_sendNotice still_sendDataRows : still.
#[local] Hint Extern 2 (still (modify _)) => by apply still_modify : still.
#[local] Hint Extern 3 (still (send _ _)) => done : still.
Ltac still := repeat first [apply still_bind; [|intros] | case_match | progress cbv zeta | by eauto with still].

Lemma still_rowDescription cols types formats : still (sendRowDescription cols types formats).
Proof. unfold sendRowDescription. still. Qed.
Lemma still_shape p formats : still (sendShape p formats).
Proof. unfold sendShape. case_match; [done|]. apply still_rowDescription. Qed.
#[local] Hint Resolve still_rowDescription still_shape : still.
Lemma still_parse r : still (parse r).
Proof. unfold parse, protoError. still. Qed.
Lemma still_bindMsg r : still (bind r).
Proof. unfold bind, protoError. still. Qed.
Lemma still_describeMsg r : still (describe r).
Proof. unfold describe, protoError. still. Qed.
Lemma still_close r : still (closeTarget r).
Proof. unfold closeTarget, protoError. still. Qed.

Lemma drives_then {A B : Type} n (m : C A) (f : A -> C B) : still m -> (forall a, drives n (f a)) -> drives n (m ≫= f).
Proof. intros Hm Hf. apply (drives_bind 0 n); [by apply drives_still|done]. Qed.
Lemma drives_execute r : drives 1 (execute r).
Proof.
  unfold execute. case_match. apply drives_then; [done|]. intros portals. case_match; [|by apply drives_still]. case_match; [|by apply drives_still]. case_match.
  apply drives_then; [done|]. intros _. apply (drives_bind 1 0); [apply drives_exec|]. intros res. apply drives_still. unfold statIdle, sendCommandComplete. still.
Qed.
Lemma drives_parts q parts : drives (length parts) (runParts q parts).
Proof.
  induction parts as [|p parts IH]; cbn [runParts length]; [by apply drives_still|]. case_match; [|by apply drives_still..].
  apply (drives_bind 1); [apply drives_exec|]. intros [err|res]; [by apply drives_still|]. apply drives_then; [case_match; eauto with still|]. intros _.
  apply drives_then; [case_match; [done|]; apply still_bind; eauto with still|]. intros []; [|by apply drives_still]. by apply drives_then.
Qed.

(** A buffer has no more statements than one more than its bytes. *)
Lemma splitLoop_length fuel q depth i : length (splitLoop fuel q depth i) <= length q - i.
Proof.
  revert depth i. induction fuel as [|fuel IH]; intros depth i; cbn [splitLoop]; [simpl; lia|].
  destruct (drop i q) as [|c s] eqn:Ed; [simpl; lia|]. assert (i < length q) as Hi by (apply (f_equal length) in Ed; rewrite length_drop in Ed; simpl in Ed; lia).
  assert (forall d j, i < j -> length (splitLoop fuel q d j) <= length q - i - 1) as Hn by (intros d j Hj; specialize (IH d j); lia).
  assert (i < S (skipQuoted q i)) as Hs by (unfold skipQuoted; lia).
  repeat case_match; cbn [length]; (etransitivity; [first [apply le_n_S, Hn|apply Hn]|]); lia.
Qed.
Lemma emitAll_length q start ends : length (emitAll q start ends) <= length ends.
Proof. revert start. induction ends as [|e ends IH]; intros start; cbn [emitAll]; [done|]. rewrite length_app. specialize (IH (S e)). case_bool_decide; simpl; lia. Qed.
Lemma splitStatements_length q : length (splitStatements q) <= S (length q).
Proof. unfold splitStatements. rewrite emitAll_length, length_app. pose proof (splitLoop_length (length q) q 0 0). simpl. lia. Qed.
Lemma drives_query q : drives (S (length q)) (simpleQuery q).
Proof.
  unfold simpleQuery. pose proof (splitStatements_length q) as Hl. destruct (splitStatements q) as [|p parts]; [apply drives_still; still|].
  apply (drives_less (length (p :: parts) + 0)); [lia|]. apply drives_then; [by apply still_modify|]. intros _. apply drives_bind; [apply drives_parts|].
  intros _. apply drives_still. unfold ready, statIdle. still.
Qed.

(** ** The loop *)

Lemma cut_nul_length b s rest : cut_nul b = Some (s, rest) -> length s <= length b.
Proof.
  revert s. induction b as [|c b IH]; intros s; cbn [cut_nul]; [done|]. case_match; [intros [= <- <-]; simpl; lia|].
  destruct (cut_nul b) as [[s' r']|]; [|done]. intros [= <- <-]. specialize (IH s' eq_refl). simpl. lia.
Qed.
Lemma cstr_length b : length (r_cstr (mkRbuf b false)).1 <= length b.
Proof. unfold r_cstr. cbn [rbad rb]. destruct (cut_nul b) as [[s rest]|] eqn:Ec; cbn [fst]; [by eapply cut_nul_length|simpl; lia]. Qed.
Lemma drives_handle typ body : drives (S (length body)) (handle typ body).
Proof.
  unfold handle. apply drives_then; [done|]. intros inErr. case_match; [by apply drives_still|]. cbv zeta.
  repeat (case_match; [first [by apply drives_still
    | apply drives_still, still_bind; [first [apply still_parse|apply still_bindMsg|apply still_describeMsg|apply still_close|by apply still_modify]|intros; unfold ready; by still]
    | apply (drives_less (1 + 0)); [lia|]; apply drives_bind; [apply drives_execute|intros; by apply drives_still]
    | apply (drives_less (S (length (r_cstr (mkRbuf body false)).1) + 0)); [pose proof (cstr_length body); lia|]; apply drives_bind; [apply drives_query|intros; by apply drives_still]]|]).
  by apply drives_still.
Qed.
Lemma readMessage_length stream typ body rest : readMessage stream = (Ok (typ, body), rest) -> S (length body) + length rest <= length stream.
Proof.
  intros Hr. apply (readMessageUpTo_exact maxMsgLen) in Hr as [-> _]; [|done]. rewrite length_app. unfold frame. cbn [length]. rewrite !length_app. lia.
Qed.
Lemma drives_serve fuel stream : drives (length stream) (serve fuel stream).
Proof.
  revert stream. induction fuel as [|fuel IH]; intros stream; cbn [serve]; [by apply drives_still|].
  destruct (readMessage stream) as [[[typ body]|er|p] rest] eqn:Em; [|by apply drives_still..]. apply readMessage_length in Em.
  apply (drives_less (S (length body) + length rest)); [done|]. apply drives_bind; [apply drives_handle|]. intros []; [apply IH|by apply drives_still].
Qed.
(** The session a connection leaves is one that has run a script. *)
Lemma run_plays stream c : exists l, length l <= length stream /\ cSess (run stream c).2 = played l (cSess c) /\ nearly l (cSess c).
Proof.
  destruct (drives_serve (length stream) stream c) as (l & H1 & H2 & H3 & _). exists l. split_and!; [done| |done].
  unfold run, fence. by destruct (serve _ _ c) as [[a|er|p] c'].
Qed.
End drives.

(** ** Over the session *)

Local Open Scope Z_scope.

Section layer.
Context {E S : Type} {eng : EngineOps E} {eng_laws : EngineLaws E} {cs : CatState E} {cat_laws : CatLaws E} {te : TxnEngine E} {te_laws : TxnEngineLaws E}.
Context {grd : Guarded E} {al : Allocators E} {al_laws : AllocatorLaws E}.
Context {tx sp : Type} {kv : KV tx} {kv_laws : KVLaws tx} {sv : KVSave tx sp} {sv_laws : KVSaveLaws tx sp} {sp_eq : EqDecision sp}.
Context {db : DB E S tx} {db_laws : DBLaws E S tx} {op : DBOpen E S tx} {op_laws : DBOpenLaws E S tx sp}.
Context {St : Type} {ex : SqlExec E S tx sp St} {ex_laws : SqlExecLaws E S tx sp St} (wild : Z).
Context (rely : forall k, stable (sound false k)).
(** The parser, the shape of a statement's parameters and columns, and the
    errors as [serr] carries them. *)
Context {Er : Type} {se : Serr Er} (Parse : bytes -> ret Er (Statement St)) (params : Statement St -> nat)
  (shape : Statement St -> E * S -> ret Er StmtInfo) (serr_of : error -> Er).
Abbreviation W := ((E * S) * Session tx sp)%type.

#[local] Instance session_layer : SqlLayer Er W (Statement St) := {
  Prepare := Parse;
  NumParams := params;
  Command := command;
  Describe st w := (shape st w.1, w);
  ExecStmt st args w :=
    match runCtx wild st args w with
    | (Ok r, w') => (Got r, w')
    | (Err er, w') => (Failed (serr_of er), w')
    | (Panic p, w') => (Raised p, w')
    end;
  Conn.Status w := Session.Status w.2;
}.

Lemma play_script l (w : W) : nearly l w -> (run_script wild l w).2 = (Close (played l w)).2.
Proof.
  revert w. induction l as [|[st args] l IH]; intros w Hn; [done|]. cbn [run_script].
  assert ((ExecStmt st args w).2 = (runCtx wild st args w).2 /\ raised (ExecStmt st args w).1 = is_panic (runCtx wild st args w).1) as [E1 E2].
  { cbn. by destruct (runCtx wild st args w) as [[]]. }
  change (played ((st, args) :: l) w) with (played l (ExecStmt st args w).2). rewrite E1.
  assert (l = [] \/ is_panic (runCtx wild st args w).1 = false) as Hp by (destruct l; [by left|right]; rewrite <- E2; apply Hn).
  assert (nearly l (runCtx wild st args w).2) as Hn' by (destruct l; [done|]; rewrite <- E1; apply Hn).
  specialize (IH _ Hn'). destruct (runCtx wild st args w) as [o w1]. cbn [fst snd] in *. destruct (is_panic o); [by destruct Hp as [->|]|].
  by destruct (run_script wild l w1).
Qed.
Lemma cost_bound (k : Z) (l : list (Statement St * list any)) : 1 <= k -> (forall kd st args, cost kd st args <= k) -> 0 <= total_cost l <= k * Z.of_nat (length l).
Proof.
  intros Hk Hc. split; [apply total_cost_nonneg|]. induction l as [|[st args] l IH]; [cbn; lia|]. change (total_cost ((st, args) :: l)) with (step_cost (st, args) + total_cost l).
  assert (step_cost (st, args) <= k) by (destruct st; cbn; [lia..|apply Hc]). cbn [length]. lia.
Qed.

End layer.

Definition exParse (q : bytes) : ret exErr (Statement exStmt) :=
  if bool_decide (q = go "begin") then Got (ctl TxnBegin [])
  else if bool_decide (q = go "insert") then Got exWrite
  else if bool_decide (q = go "commit") then Got (ctl TxnCommit [])
  else Failed (err_new (go "syntax error") []).
Definition exShape (st : Statement exStmt) (_ : MemEngine * MemStore) : ret exErr StmtInfo := Got (mkInfo (command st) [] [] []).
Definition exWire : bytes := frames [(x51, go "begin; insert; commit" ++ [x00]); (x51, go "what" ++ [x00]); (x58, [])].
Definition exStart : conn ((MemEngine * MemStore) * Session SaveTx nat) (Statement exStmt) := mkConn ((exState.1, exState.2), NewSession) ∅ ∅ false (go "idle") [] [].
(** The bytes that go out on an empty store: the insert fails, the block is
    rolled back by its COMMIT, and what does not parse is an error. *)
Example wire_answers :
  (cOut (run (sql := session_layer 0 exParse (λ _, 0%nat) exShape err_of) exWire (mkConn emptyStore ∅ ∅ false (go "idle") [] [])).2).*1 =
  [x43; x45; x5a; x45; x5a].
Proof. reflexivity. Qed.
