(* ===== verification/SqlPlan.v ===== *)
(** * Access paths

    [sql/plan.go] and the scan of [sql/exec.go]: the planner turns the
    conjuncts of a WHERE into a point read or into bounds on a scan of the
    primary key or of an index, and prefers a path that also serves the
    ORDER BY. The whole condition stays behind as the filter of the rows the
    scan visits. *)
From S2P Require Import Prelude GoVal KV Savepoint Tuple Catalog Desc Rows Index Dml Engine Txn SqlVal.

Local Open Scope Z_scope.

Inductive stopKind := stopNE | stopGE | stopGT | stopLE | stopLT.
Record stop := mkStop { stOrd : nat; stKind : stopKind; stVal : any }.
Record sortKey := mkSortKey { skOrd : nat; skDesc : bool }.

(** [plGet] is [None] when scanning, [plIndex] empty for the primary index,
    [plFrom] empty for a scan from the start. [plPushed] are the addresses of
    the conjuncts behind the bounds. *)
Record plan {C : Type} := mkPlan {
  plDesc : TableDesc;
  plGet : option (list any);
  plIndex : bytes;
  plFrom : list any;
  plStops : list stop;
  plReverse : bool;
  plFilter : BoolExpr C;
  plBinds : binds;
  plPushed : list nat;
}.
#[global] Arguments plan _ : clear implicits.

Section plans.
Context {C : Type}.
Implicit Types (h : heap) (d : TableDesc) (e : BoolExpr C) (p : plan C).

(** ** Choosing a path *)

Definition litFits (v : any) (t : ColType) : bool :=
  match t, v with
  | TInt, AInt KInt64 _ | TFloat, AInt KInt64 _ | TFloat, AFloat64 _ | TString, AString _ | TBool, ABool _ => true
  | _, _ => false
  end.

Definition errNoFrom : error := ENew (go "no such table in FROM").
Definition errNoColumnIn : error := ENew (go "no such column").
Definition resolveIn d (alias : bytes) (c : ColRef) : outcome nat :=
  if bool_decide (crTable c <> [] /\ crTable c <> alias) then Err errNoFrom
  else match ColIndex d (crName c) with Some ord => Ok ord | None => Err errNoColumnIn end.
Definition bindIn d (alias : bytes) h (p : nat) (b : binds) : outcome binds :=
  l ← resolveIn d alias (pItem (h p));
  r ← match pRItem (h p) with Some c => Some <$> resolveIn d alias c | None => Ok None end;
  Ok (<[p := mkBinding l r]> b).

(** The first usable conjunct of each column, by kind. *)
Record usable := mkUsable { uEq : gmap nat nat; uLo : gmap nat nat; uHi : gmap nat nat }.
Definition add_first (ord p : nat) (m : gmap nat nat) : gmap nat nat :=
  match m !! ord with Some _ => m | None => <[ord := p]> m end.
Definition addConjunct d h (b : binds) (u : usable) (p : nat) : outcome usable :=
  let ord := bdL (bound b p) in
  if bool_decide (is_Some (pRItem (h p))) || is_nil (pVal (h p)) then Ok u
  else
    c ← at_index (tColumns d) ord;
    if negb (litFits (pVal (h p)) (colType c)) then Ok u
    else
      Ok match pOp (h p) with
         | OpEQ => mkUsable (add_first ord p (uEq u)) (uLo u) (uHi u)
         | OpGT | OpGE => mkUsable (uEq u) (add_first ord p (uLo u)) (uHi u)
         | OpLT | OpLE => mkUsable (uEq u) (uLo u) (add_first ord p (uHi u))
         | _ => u
         end.
Fixpoint classify d h (b : binds) (u : usable) (ps : list nat) : outcome usable :=
  match ps with
  | [] => Ok u
  | p :: ps' => u ← addConjunct d h b u p; classify d h b u ps'
  end.

Fixpoint eqPrefix (cols : list nat) (eq : gmap nat nat) : nat :=
  match cols with
  | [] => 0
  | c :: cols' => match eq !! c with Some _ => S (eqPrefix cols' eq) | None => 0 end
  end.
Definition pathScore (cols : list nat) (u : usable) : nat :=
  let k := eqPrefix cols (uEq u) in
  4 * k + match cols !! k with
          | Some c => (if bool_decide (is_Some (uLo u !! c)) then 1 else 0) + (if bool_decide (is_Some (uHi u !! c)) then 1 else 0)
          | None => 0
          end.

(** ** Order *)

Definition pathCols d (idx : option IndexDesc) : list nat := match idx with Some x => ixCols x | None => tPKCols d end.
Definition pathDir (idx : option IndexDesc) : nat -> bool := match idx with Some x => DescAt x | None => λ _, false end.
Definition nonNull d (ord : nat) : bool :=
  bool_decide (ord ∈ tPKCols d) || default false (colNotNull <$> tColumns d !! ord).

Fixpoint skipPinned (pinned : list nat) (cols : list nat) (ki : nat) : list nat * nat :=
  match cols with
  | c :: cols' => if bool_decide (c ∈ pinned) then skipPinned pinned cols' (S ki) else (cols, ki)
  | [] => ([], ki)
  end.
(** [cols] are the path's columns from the [ki]-th on. *)
Fixpoint tryOrder d (dir : nat -> bool) (pinned : list nat) (rev : bool) (keys : list sortKey) (cols : list nat) (ki : nat) : bool :=
  match keys with
  | [] => true
  | k :: keys' =>
      if bool_decide (skOrd k ∈ pinned) then tryOrder d dir pinned rev keys' cols ki
      else
        match skipPinned pinned cols ki with
        | ([], _) => false
        | (c :: cols', ki) =>
            if bool_decide (c <> skOrd k) || negb (nonNull d (skOrd k)) then false
            else
              let colAsc := xorb rev (negb (dir ki)) in
              if Bool.eqb (skDesc k) colAsc then false
              else tryOrder d dir pinned rev keys' cols' (S ki)
        end
  end.
(** Whether the path serves the order, and if so whether in reverse. *)
Definition pathOrder d (idx : option IndexDesc) (pinned : list nat) (keys : list sortKey) : option bool :=
  if tryOrder d (pathDir idx) pinned false keys (pathCols d idx) 0 then Some false
  else if tryOrder d (pathDir idx) pinned true keys (pathCols d idx) 0 then Some true
  else None.

Definition serves d (u : usable) (keys : list sortKey) (idx : option IndexDesc) : bool :=
  match keys with
  | [] => false
  | _ => bool_decide (is_Some (pathOrder d idx (take (eqPrefix (pathCols d idx) (uEq u)) (pathCols d idx)) keys))
  end.

(** ** The plan *)

Record best := mkBest { bIdx : option IndexDesc; bScore : nat; bServes : bool }.
Definition better d (u : usable) (keys : list sortKey) (b : best) (idx : IndexDesc) : best :=
  let s := pathScore (ixCols idx) u in
  if bool_decide (bScore b < s)%nat || (bool_decide (s = bScore b) && bool_decide (0 < s)%nat && negb (bServes b) && serves d u keys (Some idx))
  then mkBest (Some idx) s (serves d u keys (Some idx))
  else b.
Definition bestPath d (u : usable) (keys : list sortKey) : best :=
  foldl (better d u keys) (mkBest None (pathScore (tPKCols d) u) (serves d u keys None)) (tIndexes d).

(** The bounds of the range column, the [k]-th of the path. *)
Definition rangeBounds h (u : usable) (desc : bool) (c : nat) : list any * list stop * list nat :=
  let lo := uLo u !! c in
  let hi := uHi u !! c in
  if desc then
    (match hi with Some q => [pVal (h q)] | None => [] end,
     match lo with Some q => [mkStop c (if bool_decide (pOp (h q) = OpGE) then stopLT else stopLE) (pVal (h q))] | None => [] end,
     match hi with Some q => [q] | None => [] end ++ match lo with Some q => [q] | None => [] end)
  else
    (match lo with Some q => [pVal (h q)] | None => [] end,
     match hi with Some q => [mkStop c (if bool_decide (pOp (h q) = OpLE) then stopGT else stopGE) (pVal (h q))] | None => [] end,
     match lo with Some q => [q] | None => [] end ++ match hi with Some q => [q] | None => [] end).

(** The equality conjuncts of the first columns. *)
Fixpoint eqPreds (cols : list nat) (eq : gmap nat nat) : list (nat * nat) :=
  match cols with
  | [] => []
  | c :: cols' => match eq !! c with Some q => (c, q) :: eqPreds cols' eq | None => [] end
  end.

Definition planScanOrdered d (alias : bytes) h e (keys : list sortKey) : outcome (plan C) :=
  b ← walkPreds (bindIn d alias h) e ∅;
  u ← classify d h b (mkUsable ∅ ∅ ∅) (conjuncts e);
  if bool_decide (eqPrefix (tPKCols d) (uEq u) = length (tPKCols d)) then
    let eqs := eqPreds (tPKCols d) (uEq u) in
    Ok (mkPlan _ d (Some ((λ q, pVal (h q.2)) <$> eqs)) [] [] [] false e b (snd <$> eqs))
  else
    let best := bestPath d u keys in
    if bool_decide (bScore best = 0%nat) then Ok (mkPlan _ d None [] [] [] false e b [])
    else
      let cols := pathCols d (bIdx best) in
      let eqs := eqPreds cols (uEq u) in
      let k := length eqs in
      let '(from, stops, pushed) :=
        match cols !! k with Some c => rangeBounds h u (pathDir (bIdx best) k) c | None => ([], [], []) end in
      Ok (mkPlan _ d None (match bIdx best with Some x => ixName x | None => [] end)
            (((λ q, pVal (h q.2)) <$> eqs) ++ from)
            (((λ q, mkStop q.1 stopNE (pVal (h q.2))) <$> eqs) ++ stops)
            false e b ((snd <$> eqs) ++ pushed)).
Definition planScan d (alias : bytes) h e : outcome (plan C) := planScanOrdered d alias h e [].

Definition isEqStop (st : stop) : bool := match stKind st with stopNE => true | _ => false end.
Definition pinnedBy (stops : list stop) : list nat := stOrd <$> filter (λ st, isEqStop st = true) stops.
Definition orderSatisfied p d (keys : list sortKey) : option bool :=
  match plGet p with
  | Some _ => None
  | None =>
      match plIndex p with
      | [] => pathOrder d None (pinnedBy (plStops p)) keys
      | name => match Index d name with Some idx => pathOrder d (Some idx) (pinnedBy (plStops p)) keys | None => None end
      end
  end.
Definition reversed (rev : bool) p : plan C :=
  mkPlan _ (plDesc p) (plGet p) (plIndex p) (plFrom p) (plStops p) rev (plFilter p) (plBinds p) (plPushed p).

(** An index whose order serves the keys, for a plain full scan. *)
Fixpoint orderedIndex d p (keys : list sortKey) (idxs : list IndexDesc) : option (plan C) :=
  match idxs with
  | [] => None
  | x :: idxs' =>
      let cand := mkPlan _ d None (ixName x) [] [] false (plFilter p) (plBinds p) [] in
      match orderSatisfied cand d keys with
      | Some rev => Some (reversed rev cand)
      | None => orderedIndex d p keys idxs'
      end
  end.
(** The second result: the sort can be skipped. *)
Definition chooseOrderedPlan d (alias : bytes) h e (keys : list sortKey) (limited : bool) : outcome (plan C * bool) :=
  p ← planScanOrdered d alias h e keys;
  match keys with
  | [] => Ok (p, false)
  | _ =>
      match orderSatisfied p d keys with
      | Some rev => Ok (reversed rev p, true)
      | None =>
          if negb limited || bool_decide (is_Some (plGet p)) || negb (bool_decide (plIndex p = [])) || negb (bool_decide (plFrom p = [])) ||
             bool_decide (0 < length (plStops p))%nat
          then Ok (p, false)
          else match orderedIndex d p keys (tIndexes d) with Some cand => Ok (cand, true) | None => Ok (p, false) end
      end
  end.

(** After the values of the pushed conjuncts have changed in place: the
    bounds are read again from [plPushed], which has one entry per value. *)
Definition with_val (v : any) (st : stop) : stop := mkStop (stOrd st) (stKind st) v.
Definition rebind h p : plan C :=
  let val i := match plPushed p !! i with Some q => pVal (h q) | None => ANil end in
  match plGet p with
  | Some get =>
      mkPlan _ (plDesc p) (Some (imap (λ i _, val i) get)) (plIndex p) (plFrom p) (plStops p) (plReverse p) (plFilter p) (plBinds p) (plPushed p)
  | None =>
      let eqN := length (take_while isEqStop (plStops p)) in
      let n := if bool_decide (eqN < length (plFrom p))%nat then S eqN else eqN in
      mkPlan _ (plDesc p) None (plIndex p)
        (imap (λ i v, if bool_decide (i <= eqN)%nat then val i else v) (plFrom p))
        (imap (λ i st, if bool_decide (i < eqN)%nat then with_val (val i) st
                       else if bool_decide (i = eqN) then with_val (val n) st else st) (plStops p))
        (plReverse p) (plFilter p) (plBinds p) (plPushed p)
  end.

(** ** Scanning *)

Definition revEnd p : list any * bool :=
  (stVal <$> plStops p,
   foldl (λ incl st, match stKind st with stopGE | stopLE => false | stopGT | stopLT => true | stopNE => incl end) true (plStops p)).

Fixpoint stopped (stops : list stop) (vals : list any) : outcome bool :=
  match stops with
  | [] => Ok false
  | st :: stops' =>
      v ← at_index vals (stOrd st);
      let hit := match compareVals v (stVal st), stKind st with
                 | None, (stopNE | stopLE | stopLT) => true
                 | None, _ => false
                 | Some c, stopNE => negb (bool_decide (c = Eq))
                 | Some c, stopGE => negb (bool_decide (c = Lt))
                 | Some c, stopGT => bool_decide (c = Gt)
                 | Some c, stopLE => negb (bool_decide (c = Gt))
                 | Some c, stopLT => bool_decide (c = Lt)
                 end in
      if hit then Ok true else stopped stops' vals
  end.
End plans.

(** ** Scans inside a transaction *)

Section scans.
Context {E : Type} {eng : EngineOps E} {cs : CatState E} {te : TxnEngine E}.
Context {tx sp : Type} {kv : KV tx}.
Abbreviation Txn := (Txn tx sp).
Context {C : Type} {re : Regexp}.

Definition seqOf (scan_ : TableDesc -> (list (outcome Row) -> bool) -> tx -> list (outcome Row) * tx) (table : bytes)
    (more : list (outcome Row) -> bool) (s : E * Txn) : list (outcome Row) * (E * Txn) :=
  match TxnDesc table s with
  | (Ok d, (e, T)) => let '(items, t) := scan_ d more (xTx T) in (items, (e, x_tx (λ _, t) T))
  | (Err er, s') => ([Err er], s')
  | (Panic p, s') => ([Panic p], s')
  end.
Definition errNoIndex : error := ENew (go "no such index").
Definition withIndex (index : bytes) (scan_ : TableDesc -> IndexDesc -> (list (outcome Row) -> bool) -> tx -> list (outcome Row) * tx)
    (d : TableDesc) (more : list (outcome Row) -> bool) (t : tx) : list (outcome Row) * tx :=
  match Index d index with
  | Some idx => scan_ d idx more t
  | None => ([Err errNoIndex], t)
  end.
Definition TxnScanRange (table : bytes) (fromPK toPK : option (list any)) :=
  seqOf (λ d, scanRows d fromPK toPK) table.
Definition TxnScanRangeRev (table : bytes) (fromPK toPK : option (list any)) (toIncl : bool) :=
  seqOf (λ d, scanRowsRev d fromPK toPK toIncl) table.
Definition TxnScanIndex (table index : bytes) (from to : option (list any)) :=
  seqOf (withIndex index (λ d idx, scanIndexRows d idx from to)) table.
Definition TxnScanIndexRev (table index : bytes) (from to : option (list any)) (toIncl : bool) :=
  seqOf (withIndex index (λ d idx, scanIndexRowsRev d idx from to toIncl)) table.

(** The nil slice is the open bound. *)
Definition bound_of (l : list any) : option (list any) := match l with [] => None | _ => Some l end.

Section scan.
Context (h : heap) (p : plan C) (ctx : nat -> option error) (cond : C -> list any -> outcome tri) (keep : list Row -> bool).

Definition cancelEvery : Z := 256.
Definition matches (row : Row) : outcome bool :=
  t ← evalPreds h (plBinds p) cond (plFilter p) (rVals row); Ok (bool_decide (t = triTrue)).

(** The loop over the sequence: the rows given to the caller so far, latest
    first, the count of rows seen, and how the loop ended if it has. The
    caller's [yield] is [keep] of the rows it was given; the [i]-th poll of
    the context answers [ctx i]. *)
Record loop := mkLoop { lpRows : list Row; lpSeen : Z; lpEnd : option (outcome unit) }.
Definition visit (l : loop) (item : outcome Row) : loop :=
  match lpEnd l with
  | Some _ => l
  | None =>
      let n := lpSeen l + 1 in
      let stop o := mkLoop (lpRows l) n (Some o) in
      match item with
      | Err er => stop (Err er)
      | Panic q => stop (Panic q)
      | Ok row =>
          match (if n mod cancelEvery =? 0 then ctx (Z.to_nat (n / cancelEvery)) else None) with
          | Some er => stop (Err er)
          | None =>
              match (if plReverse p then Ok false else stopped (plStops p) (rVals row)) with
              | Ok true => stop (Ok tt)
              | Err er => stop (Err er)
              | Panic q => stop (Panic q)
              | Ok false =>
                  match matches row with
                  | Err er => stop (Err er)
                  | Panic q => stop (Panic q)
                  | Ok false => mkLoop (lpRows l) n None
                  | Ok true => mkLoop (row :: lpRows l) n (if keep (row :: lpRows l) then None else Some (Ok tt))
                  end
              end
          end
      end
  end.
Definition digest (items : list (outcome Row)) : loop := foldl visit (mkLoop [] 0 None) items.
Definition wants (seen : list (outcome Row)) : bool := bool_decide (lpEnd (digest (reverse seen)) = None).

(** The rows the caller was given, in order, and how the scan ended. *)
Definition scanPlan (table : bytes) (s : E * Txn) : list Row * outcome unit * (E * Txn) :=
  match ctx 0%nat with
  | Some er => ([], Err er, s)
  | None =>
      match plGet p with
      | Some get =>
          match TxnGet table get s with
          | (Ok None, s') => ([], Ok tt, s')
          | (Ok (Some row), s') =>
              match matches row with
              | Ok true => ([row], Ok tt, s')
              | Ok false => ([], Ok tt, s')
              | Err er => ([], Err er, s')
              | Panic q => ([], Panic q, s')
              end
          | (Err er, s') => ([], Err er, s')
          | (Panic q, s') => ([], Panic q, s')
          end
      | None =>
          let from := bound_of (plFrom p) in
          let '(to, incl) := revEnd p in
          let seq := match plIndex p, plReverse p with
                     | [], true => TxnScanRangeRev table from (bound_of to) incl
                     | [], false => TxnScanRange table from None
                     | index, true => TxnScanIndexRev table index from (bound_of to) incl
                     | index, false => TxnScanIndex table index from None
                     end in
          let '(items, s') := seq wants s in
          let l := digest (reverse items) in
          (reverse (lpRows l), default (Ok tt) (lpEnd l), s')
      end
  end.
End scan.
End scans.
