(* ===== verification/SqlPlanOk.v ===== *)
(** * Planned scans are exact

    Pushing conjuncts into a scan changes which rows are visited, never
    which rows are found: the rows a planned scan gives are those of the
    table on which the condition is true, and in the ORDER BY order when the
    planner dropped the sort. *)
From S2P Require Import Prelude GoVal GoStr Tuple KV Savepoint Json Jsonb Types Catalog Desc Rows Index Table Seq Upkeep Dml Relation Engine Store Database SqlVal Txn TxnOk SqlPlan.

Local Open Scope Z_scope.

(** ** Pushed literals *)

(** The literal as the scan bounds encode it. *)
Definition pushed_as (t : ColType) (lit n : any) : Prop := exists c, coerce lit t = Ok c /\ normalize c = Ok n.
(** A stored value of a column of type [t]. *)
Definition stored_as (t : ColType) (v : any) : Prop := canon v /\ (is_nil v = false -> typed t v).

Lemma valueCompare_int a b : valueCompare (AInt KInt64 a) (AInt KInt64 b) = Z.compare a b.
Proof. unfold valueCompare, compareValues, normalize_or_panic. cbn. done. Qed.
Lemma valueCompare_float a b : canon (AFloat64 a) -> canon (AFloat64 b) -> valueCompare (AFloat64 a) (AFloat64 b) = f64_cmp a b.
Proof.
  intros Ha Hb. unfold valueCompare, compareValues, normalize_or_panic.
  rewrite (normalize_canon_id _ Ha), (normalize_canon_id _ Hb). done.
Qed.
Lemma normalizeFloat_val f n : normalizeFloat f = Ok n -> exists g, n = AFloat64 g /\ f64_val g = f64_val f /\ f64_isNaN g = false /\ f64_isNaN f = false.
Proof.
  unfold normalizeFloat. destruct (f64_isNaN f) eqn:En; [done|]. unfold f64_is0. rewrite En. cbn.
  destruct (Z.eqb_spec (f64_val f) 0) as [Ez|]; intros [= <-]; [|by exists f]. exists 0. by rewrite Ez.
Qed.
Lemma compare_pushed t v lit n : stored_as t v -> any_ok lit -> litFits lit t = true -> pushed_as t lit n ->
  canon n /\ is_nil n = false /\ compareVals v lit = if is_nil v then None else Some (valueCompare v n).
Proof.
  intros [Hc Ht] Hok Hf (c & Hco & Hn).
  assert (canon n) as Hcn.
  { pose proof (coerce_typed lit t c Hok Hco) as H. destruct (is_nil lit) eqn:En; [by destruct t, lit|]. eapply normalize_canon; [|exact Hn]. by eapply typed_any_ok. }
  split; [done|]. destruct (is_nil v) eqn:Ev.
  - destruct v; try done. split; [|done]. destruct t, lit as [| |[] ?| | | | | | | |]; try done; cbn in Hco; simplify_eq; cbn in Hn; simplify_eq; try done;
      by apply normalizeFloat_val in Hn as (g & -> & _).
  - specialize (Ht eq_refl). destruct t, v as [|vb|[] vz| |vf|vs|vs| | | |]; try done; destruct lit as [|lb|[] lz| |lf|ls|ls| | | |]; try done;
      cbn in Hco; simplify_eq; cbn in Hn; simplify_eq; cbn [compareVals is_nil].
    + split; [done|]. by destruct vb, lb.
    + split; [done|]. by rewrite valueCompare_int.
    + apply normalizeFloat_val in Hn as (g & -> & Hg & Hng & Hnf). split; [done|]. rewrite valueCompare_float by done.
      destruct Hc as (_ & Hnv & _). rewrite cmpFloat_cmp by done. unfold f64_cmp. by rewrite Hnv, Hng, Hg.
    + apply normalizeFloat_val in Hn as (g & -> & Hg & Hng & Hnf). split; [done|]. rewrite valueCompare_float by done.
      destruct Hc as (_ & Hnv & _). rewrite cmpFloat_cmp by done. unfold f64_cmp. by rewrite Hnv, Hng, Hg.
    + split; [done|]. unfold valueCompare, compareValues. done.
Qed.

(** Literals the key encoding takes: it refuses NaN. *)
Definition encodable (lit : any) : Prop := match lit with AFloat64 f => f64_isNaN f = false | _ => True end.
Lemma pushed_exists t lit : any_ok lit -> encodable lit -> litFits lit t = true -> exists n, pushed_as t lit n.
Proof.
  assert (forall f, f64_isNaN f = false -> exists n, normalize (AFloat64 f) = Ok n) as Hfl.
  { intros f Hn. cbn. unfold normalizeFloat. rewrite Hn. by destruct (f64_is0 f); eexists. }
  intros Hok He Hf. unfold pushed_as. destruct t, lit as [| |[] z| |f| | | | | |]; try done; cbn in He; try (by eexists _, _).
  - destruct (Hfl (int64_to_f64 z)) as [n Hn]; [by apply int64_to_f64_not_nan|]. by exists n, (AFloat64 (int64_to_f64 z)).
  - destruct (Hfl f He) as [n Hn]. by exists n, (AFloat64 f).
Qed.

(** ** The order of keys *)

Lemma valueCompare_eq a b : canon a -> canon b -> valueCompare a b = Eq <-> a = b.
Proof.
  intros Ha Hb. rewrite valueCompare_canon by done. split; [|intros ->; apply bcompare_refl].
  destruct (decide (a = b)); [done|]. by intros ?%elem_compare_ne.
Qed.
Lemma valueCompare_antisym a b : canon a -> canon b -> valueCompare b a = CompOpp (valueCompare a b).
Proof. intros Ha Hb. rewrite !valueCompare_canon by done. apply bcompare_antisym. Qed.
Lemma valueCompare_nil n : canon n -> is_nil n = false -> valueCompare n ANil = Gt.
Proof.
  intros Hc Hn. unfold valueCompare, compareValues, normalize_or_panic. rewrite (normalize_canon_id _ Hc). cbn.
  by destruct n as [|[]|[]| | | | | | | |].
Qed.

(** Going up in the order only goes further from a bound. *)
Lemma directed_mono desc n a b : canon n -> canon a -> canon b -> directed desc (valueCompare a b) <> Gt ->
  (directed desc (valueCompare n a) <> Gt -> directed desc (valueCompare n b) <> Gt) /\
  (directed desc (valueCompare n a) = Lt -> directed desc (valueCompare n b) = Lt) /\
  (directed desc (valueCompare n b) = Eq -> directed desc (valueCompare n a) = Eq -> a = b).
Proof.
  intros Hn Ha Hb. rewrite !valueCompare_canon by done.
  destruct (delem_order desc n a Hn Ha) as [<- _], (delem_order desc n b Hn Hb) as [<- _], (delem_order desc a b Ha Hb) as [<- _].
  fold (ble (delem desc a) (delem desc b)) (ble (delem desc n) (delem desc a)) (ble (delem desc n) (delem desc b)).
  fold (blt (delem desc n) (delem desc a)) (blt (delem desc n) (delem desc b)). intros Hab. split_and!.
  - intros Hna. by etransitivity.
  - intros Hna. by eapply blt_ble_trans.
  - intros Eb Ea. destruct (delem_order desc n a Hn Ha) as [Ha' _], (delem_order desc n b Hn Hb) as [Hb' _].
    rewrite Ea in Ha'. rewrite Eb in Hb'. symmetry in Ha', Hb'. rewrite <- valueCompare_canon in Ha', Hb' by done.
    apply directed_eq, valueCompare_eq in Ha' as <-; [|done..]. by apply directed_eq, valueCompare_eq in Hb' as <-.
Qed.
Lemma prefixCompare_mono dir i bound vs ws : Forall canon bound -> Forall canon vs -> Forall canon ws -> length vs = length ws ->
  prefixCompare dir i vs ws <> Gt ->
  (prefixCompare dir i bound vs <> Gt -> prefixCompare dir i bound ws <> Gt) /\
  (prefixCompare dir i bound vs = Lt -> prefixCompare dir i bound ws = Lt).
Proof.
  intros Hb. revert i vs ws. induction Hb as [|n bound Hn _ IH]; intros i vs ws Hv Hw Hl; [by cbn|].
  destruct Hv as [|v vs Hv Hvs], Hw as [|w ws Hw Hws]; try done. cbn [prefixCompare]. intros Hle.
  assert (directed (dir i) (valueCompare v w) <> Gt) as Hvw by (by destruct (directed (dir i) (valueCompare v w))).
  destruct (directed_mono (dir i) n v w Hn Hv Hw Hvw) as (H1 & H2 & H3).
  destruct (directed (dir i) (valueCompare n v)) eqn:Env; [|by rewrite H2|done].
  destruct (directed (dir i) (valueCompare n w)) eqn:Enw; [|done|by destruct H1].
  assert (v = w) as <- by auto. rewrite (proj2 (directed_eq _ _)) in Hle by (by apply valueCompare_eq). apply IH; [done..| |done]. simpl in Hl. lia.
Qed.
Lemma prefixCompare_refl dir i vs : Forall canon vs -> prefixCompare dir i vs vs = Eq.
Proof.
  intros H. revert i. induction H as [|v vs Hv _ IH]; intros i; [done|]. cbn. rewrite (proj2 (valueCompare_eq v v Hv Hv) eq_refl). by destruct (dir i); cbn.
Qed.
Lemma prefixCompare_app dir i a b vs : (length a <= length vs)%nat ->
  prefixCompare dir i (a ++ b) vs = match prefixCompare dir i a vs with Eq => prefixCompare dir (i + length a) b (drop (length a) vs) | c => c end.
Proof.
  revert i vs. induction a as [|n a IH]; intros i vs Hl; cbn [app prefixCompare length].
  - by rewrite Nat.add_0_r.
  - destruct vs as [|v vs]; cbn in Hl; [lia|]. cbn [drop prefixCompare]. rewrite IH by lia. destruct (directed _ _); [|done..].
    by rewrite Nat.add_succ_comm.
Qed.

(** ** Paths

    A scan walks the primary key or an index; both are a list of columns
    with directions. *)

Lemma Compare_lt a b i : length a = length b -> Compare a b = Ok Lt -> prefixCompare (λ _, false) i a b = Lt.
Proof.
  revert b i. induction a as [|x a IH]; intros [|y b] i Hl; try done. cbn. unfold valueCompare. destruct (compareValues x y) as [[]| |]; try done. cbn.
  intros H. apply IH; [|done]. simpl in Hl. lia.
Qed.

Section paths.
Context (d : TableDesc) (idx : option IndexDesc).

Definition val_at (row : list any) (o : nat) : any := default ANil (row !! o).
Definition pathKey (row : list any) : list any := val_at row <$> pathCols d idx.
Definition pathBound : list any -> outcome (list any) := match idx with None => pkBound d | Some x => ixBound d x end.
Definition path_le (r1 r2 : list any) : Prop := prefixCompare (pathDir idx) 0 (pathKey r1) (pathKey r2) <> Gt.

Definition path_ok : Prop := match idx with None => True | Some x => x ∈ tIndexes d end.

Section scan.
Context {tx : Type} {kv : KV tx} {kv_laws : KVLaws tx}.
Definition path_scan (rev : bool) (from to : option (list any)) (toIncl : bool) : (list (outcome Row) -> bool) -> tx -> list (outcome Row) * tx :=
  match idx with
  | None => if rev then scanRowsRev d from to toIncl else scanRows d from to
  | Some x => if rev then scanIndexRowsRev d x from to toIncl else scanIndexRows d x from to
  end.
Definition path_bound_ok (b : option (list any)) : Prop :=
  match b with None => True | Some vals => Forall any_ok vals /\ exists ns, pathBound vals = Ok ns end.
Definition path_in (from to : option (list any)) (toIncl : bool) (row : list any) : Prop :=
  above (pathDir idx) pathBound from (pathKey row) /\ below (pathDir idx) pathBound to toIncl (pathKey row).

Lemma path_drained (rev : bool) (t : tx) T from to toIncl : desc_wf d -> path_ok -> table_inv d (kv_map t) -> abstracts d (kv_map t) T ->
  path_bound_ok from -> path_bound_ok to ->
  exists rows, StronglySorted path_le rows /\ NoDup rows /\
    (forall row, row ∈ rows <-> T !! pkOf d row = Some row /\ path_in from to (rev && toIncl) row) /\
    reverse (path_scan rev from to toIncl drain t).1 = (λ r, Ok (mkRow d r)) <$> (if rev then reverse rows else rows).
Proof.
  unfold path_le, path_ok, path_scan, path_bound_ok, path_in, pathBound, pathKey, pathCols, pathDir. intros Hwf Hidx Hi Ha Hf Ht. destruct idx as [x|].
  - destruct (scanIndexRows_drained d rev x t T from to toIncl Hwf Hidx Hi Ha Hf Ht) as (rows & H1 & H2 & H3 & H4).
    exists rows. split_and!; [|done|done|rewrite H4; destruct rev; [by rewrite fmap_reverse|done]].
    eapply sorted_weaken; [exact H1|]. intros r1 r2 _ (Hr & _)%H3 [H|[H _]]; [by unfold ixVals in H; unfold val_at; rewrite H|].
    apply (abs_stored d _ T Ha), stored_ok in Hr as [_ Hr]. unfold ixVals in H. unfold val_at. rewrite H, prefixCompare_refl; [done|]. by apply (ixVals_canon x).
  - destruct (scanRows_drained d rev t T from to toIncl Hwf Hi Ha Hf Ht) as (rows & H1 & H3 & H4).
    exists rows. split_and!; [| |done|rewrite H4; destruct rev; [by rewrite fmap_reverse|done]].
    + eapply sorted_weaken; [exact H1|]. intros r1 r2 _ _ H. apply (Compare_lt _ _ 0) in H; [|by rewrite !pkOf_length]. unfold pkOf in H. unfold val_at. by rewrite H.
    + assert (forall r, r ∈ rows -> Compare (pkOf d r) (pkOf d r) <> Ok Lt) as Hirr.
      { intros r (Hr & _)%H3 Hlt. apply (abs_stored d _ T Ha), stored_ok in Hr. rewrite row_key_compare, bcompare_refl in Hlt by done. done. }
      clear -H1 Hirr. induction H1 as [|r l Hl IH Hr]; constructor; [|apply IH; intros r' Hr'; apply Hirr; by right].
      intros Hin. rewrite Forall_forall in Hr. apply (Hirr r); [by left|by apply Hr].
Qed.
End scan.
End paths.

(** ** Bounds and stops *)

(** [lit] is pushed against column [o], and [n] is its key form. *)
Definition pushed (d : TableDesc) (o : nat) (lit n : any) : Prop :=
  exists c, tColumns d !! o = Some c /\ any_ok lit /\ litFits lit (colType c) = true /\ pushed_as (colType c) lit n.

Lemma row_stored d row o c : row_ok d row -> tColumns d !! o = Some c -> row !! o = Some (val_at row o) /\ stored_as (colType c) (val_at row o).
Proof.
  intros [[Hl Ht] Hc] Ho. unfold val_at. destruct (lookup_lt_is_Some_2 row o) as [v Hv]; [rewrite Hl; by eapply lookup_lt_Some|]. rewrite Hv. cbn.
  split; [done|]. split; [by eapply Forall_lookup_1|]. intros Hn. specialize (Ht o c v Ho Hv). unfold cell_ok in Ht. rewrite Hn in Ht. by destruct Ht.
Qed.
Lemma pushed_row d o lit n row : pushed d o lit n -> row_ok d row ->
  row !! o = Some (val_at row o) /\ canon n /\ canon (val_at row o) /\ (is_nil (val_at row o) = true -> valueCompare n (val_at row o) = Gt) /\
  compareVals (val_at row o) lit = if is_nil (val_at row o) then None else Some (CompOpp (valueCompare n (val_at row o))).
Proof.
  intros (c & Hc & Hok & Hf & Hp) Hr. destruct (row_stored d row o c Hr Hc) as [Hv Hs]. destruct (compare_pushed _ _ _ _ Hs Hok Hf Hp) as (Hn & Hnn & ->).
  destruct Hs as [Hcv _]. split_and!; [done..| |].
  - intros Hnil. destruct (val_at row o); try done. by apply valueCompare_nil.
  - by rewrite (valueCompare_antisym n) by done.
Qed.

(** Whether a stop hits, by how its value compares with the row's. *)
Definition hits (k : stopKind) (c : comparison) : bool :=
  match k, c with
  | stopNE, (Lt | Gt) | stopGE, (Lt | Eq) | stopGT, Lt | stopLE, (Gt | Eq) | stopLT, Gt => true
  | _, _ => false
  end.
Lemma stopped_cons d st sts n row : pushed d (stOrd st) (stVal st) n -> row_ok d row ->
  stopped (st :: sts) row = if hits (stKind st) (valueCompare n (val_at row (stOrd st))) then Ok true else stopped sts row.
Proof.
  intros Hp Hr. destruct (pushed_row _ _ _ _ _ Hp Hr) as (Hv & _ & _ & Hnil & Hc). cbn [stopped]. unfold at_index. rewrite Hv. cbn [mbind outcome_bind].
  rewrite Hc. destruct (is_nil (val_at row (stOrd st))); [rewrite Hnil by done|]; destruct (stKind st); try done; by destruct (valueCompare _ _).
Qed.

(** ** The shape of a planned scan

    Equalities on the leading columns of the path, then bounds on the next
    one: where the scan starts and where it ends, in the path's direction. *)
Section shape.
Context (d : TableDesc) (idx : option IndexDesc).

Record shape := mkShape {
  shEqs : list (nat * any);
  shEqKeys : list any;
  shStart : option (any * any);
  shEnd : option (any * any * bool);
}.
Definition optl {A : Type} (o : option A) : list A := match o with Some x => [x] | None => [] end.
Definition shCol (s : shape) : nat := default 0%nat (pathCols d idx !! length (shEqs s)).
Definition shDesc (s : shape) : bool := pathDir idx (length (shEqs s)).

Record shape_ok (s : shape) : Prop := {
  sh_cols : (shEqs s).*1 = take (length (shEqs s)) (pathCols d idx);
  sh_eqs : Forall2 (λ q n, pushed d q.1 q.2 n) (shEqs s) (shEqKeys s);
  sh_next : is_Some (shStart s) \/ is_Some (shEnd s) -> (length (shEqs s) < length (pathCols d idx))%nat;
  sh_start lit n : shStart s = Some (lit, n) -> pushed d (shCol s) lit n;
  sh_end lit n incl : shEnd s = Some (lit, n, incl) -> pushed d (shCol s) lit n;
}.

Definition shFrom (s : shape) : list any := (shEqs s).*2 ++ optl (fst <$> shStart s).
Definition endKind (desc incl : bool) : stopKind :=
  if desc then if incl then stopLT else stopLE else if incl then stopGT else stopGE.
Definition endStop (s : shape) (q : any * any * bool) : stop := mkStop (shCol s) (endKind (shDesc s) q.2) q.1.1.
Definition shStops (s : shape) : list stop := ((λ q, mkStop q.1 stopNE q.2) <$> shEqs s) ++ optl (endStop s <$> shEnd s).
Definition shIncl (s : shape) : bool := match shEnd s with Some (_, _, incl) => incl | None => true end.

(** How a key compares with the bounds. *)
Definition eqCmp (s : shape) (key : list any) : comparison := prefixCompare (pathDir idx) 0 (shEqKeys s) key.
Definition nextCmp (s : shape) (n : any) (row : list any) : comparison := directed (shDesc s) (valueCompare n (val_at row (shCol s))).
Definition startCmp (s : shape) (row : list any) : comparison := match shStart s with Some (_, n) => nextCmp s n row | None => Eq end.
Definition endCmp (s : shape) (row : list any) : comparison := match shEnd s with Some (_, n, _) => nextCmp s n row | None => Eq end.
Definition past (s : shape) (row : list any) : bool :=
  match endCmp s row with Lt => true | Eq => negb (shIncl s) | Gt => false end.

Lemma pathKey_length row : length (pathKey d idx row) = length (pathCols d idx).
Proof. apply length_fmap. Qed.
Lemma shape_length s : shape_ok s -> length (shEqKeys s) = length (shEqs s) /\ (length (shEqs s) <= length (pathCols d idx))%nat.
Proof.
  intros [H1 H2 _ _ _]. split; [symmetry; by eapply Forall2_length|]. apply (f_equal length) in H1. rewrite length_fmap, length_take in H1. lia.
Qed.

Lemma nextCmp_spec s n row : shape_ok s -> (length (shEqs s) < length (pathCols d idx))%nat ->
  prefixCompare (pathDir idx) (length (shEqs s)) [n] (drop (length (shEqs s)) (pathKey d idx row)) = nextCmp s n row.
Proof.
  intros _ Hl. destruct (lookup_lt_is_Some_2 _ _ Hl) as [c Hc]. unfold nextCmp, shCol, shDesc. rewrite Hc. cbn [default].
  rewrite (drop_S _ (val_at row c)) by (unfold pathKey; by rewrite list_lookup_fmap, Hc). cbn. by destruct (directed _ _).
Qed.
Lemma bounds_cmp s (o : option any) row : shape_ok s -> (is_Some o -> (length (shEqs s) < length (pathCols d idx))%nat) ->
  prefixCompare (pathDir idx) 0 (shEqKeys s ++ optl o) (pathKey d idx row) =
  match eqCmp s (pathKey d idx row) with Eq => match o with Some n => nextCmp s n row | None => Eq end | c => c end.
Proof.
  intros Hs Ho. destruct (shape_length s Hs) as [Hl Hle]. rewrite prefixCompare_app by (rewrite Hl, pathKey_length; lia). fold (eqCmp s (pathKey d idx row)).
  destruct (eqCmp s _); [|done..]. destruct o as [n|]; cbn [optl]; [|by destruct (drop _ _)]. rewrite Hl. cbn [Nat.add]. apply nextCmp_spec; [done|]. by apply Ho.
Qed.

(** *** The stops *)

Lemma eq_stops s row sts : shape_ok s -> row_ok d row ->
  stopped (((λ q, mkStop q.1 stopNE q.2) <$> shEqs s) ++ sts) row =
    if bool_decide (eqCmp s (pathKey d idx row) = Eq) then stopped sts row else Ok true.
Proof.
  intros [Hc He _ _ _] Hr. unfold eqCmp, pathKey. revert Hc He. generalize (shEqs s) (shEqKeys s) (pathCols d idx) 0%nat. intros eqs ns cols i Hc He.
  revert cols i Hc. induction He as [|[o lit] n eqs ns Hp _ IH]; intros cols i Hc; [done|].
  destruct cols as [|c cols]; [done|]. injection Hc as -> Hc. cbn [fmap list_fmap app]. cbn [fst snd] in *.
  rewrite (stopped_cons d (mkStop c stopNE lit) _ n row Hp Hr). cbn [stKind stOrd]. cbn [fmap list_fmap prefixCompare].
  destruct (pushed_row _ _ _ _ _ Hp Hr) as (_ & Hn & Hv & _). 
  destruct (valueCompare n (val_at row c)) eqn:Ev.
  - rewrite (proj2 (directed_eq _ _) eq_refl). cbn [hits]. by apply IH.
  - cbn. by destruct (pathDir idx i); cbn.
  - cbn. by destruct (pathDir idx i); cbn.
Qed.
Lemma shape_stopped s row : shape_ok s -> row_ok d row ->
  stopped (shStops s) row = Ok (negb (bool_decide (eqCmp s (pathKey d idx row) = Eq)) || (bool_decide (is_Some (shEnd s)) && past s row)).
Proof.
  intros Hs Hr. unfold shStops. rewrite eq_stops by done. case_bool_decide; [|done]. cbn [negb orb]. unfold past, shIncl, endCmp, nextCmp.
  destruct (shEnd s) as [[[lit n] incl]|] eqn:Ee; [|done]. cbn [optl fmap option_fmap option_map bool_decide].
  pose proof (sh_end s Hs _ _ _ Ee) as Hp. rewrite (stopped_cons d (endStop s (lit, n, incl)) [] n row Hp Hr). cbn [endStop stKind stOrd fst snd stopped].
  rewrite bool_decide_true by done. by destruct (shDesc s), incl, (valueCompare n (val_at row (shCol s))).
Qed.

(** *** The bounds *)

Lemma coerce_fits lit t c : litFits lit t = true -> coerce lit t = Ok c -> is_nil c = false.
Proof. destruct t, lit as [| |[]| | | | | | | |]; try done; intros _ [= <-]; done. Qed.
Lemma pathBound_pushed vals ns : Forall2 (λ q n, pushed d q.1 q.2 n) (zip (pathCols d idx) vals) ns ->
  (length vals <= length (pathCols d idx))%nat -> Forall any_ok vals /\ pathBound d idx vals = Ok ns.
Proof.
  intros Hp Hl. assert (exists cs, traverse (λ '(ord, v), c ← at_index (tColumns d) ord; coerce v (colType c)) (zip (pathCols d idx) vals) = Ok cs /\
    normals cs = Ok ns /\ Forall any_ok vals /\ coercePK_loop d (pathCols d idx) vals = Ok cs) as (cs & H1 & H2 & H3 & H4).
  { revert ns Hp Hl. generalize (pathCols d idx). intros cols ns. revert cols vals. induction ns as [|n ns IH]; intros cols vals Hp Hl.
    - apply Forall2_nil_inv_r in Hp. exists []. destruct vals, cols; done || (simpl in Hl; lia).
    - apply Forall2_cons_inv_r in Hp as ([o lit] & rest & (c & Hc & Hok & Hf & cv & Hco & Hn) & Hrest & Hz). cbn [fst snd] in *.
      destruct cols as [|o' cols], vals as [|v vals]; try done. injection Hz as -> -> <-.
      destruct (IH cols vals) as (cs & I1 & I2 & I3 & I4); [done|simpl in Hl; lia|]. exists (cv :: cs).
      change (zip (o :: cols) (lit :: vals)) with ((o, lit) :: zip cols vals). cbn [traverse coercePK_loop].
      assert (at_index (tColumns d) o = Ok c) as -> by (unfold at_index; by rewrite Hc). cbn [mbind outcome_bind]. rewrite Hco. cbn [mbind outcome_bind].
      rewrite (coerce_fits _ _ _ Hf Hco), I4, I1, Hn. cbn [mbind outcome_bind]. rewrite I2. split_and!; [done..| |done]. by constructor. }
  split; [done|]. unfold pathBound. destruct idx as [x|]; cbn [pathCols] in *.
  - unfold ixBound. destruct (decide _); [lia|]. by rewrite H1.
  - unfold pkBound, coercePK. destruct (decide _); [lia|]. by rewrite H4.
Qed.
Lemma shape_bound s (o : option (any * any)) : shape_ok s -> (is_Some o -> (length (shEqs s) < length (pathCols d idx))%nat) ->
  (forall lit n, o = Some (lit, n) -> pushed d (shCol s) lit n) ->
  let vals := (shEqs s).*2 ++ optl (fst <$> o) in
  Forall any_ok vals /\ pathBound d idx vals = Ok (shEqKeys s ++ optl (snd <$> o)).
Proof.
  intros Hs Ho Hp vals. destruct (shape_length s Hs) as [Hl Hle]. apply pathBound_pushed.
  - unfold vals. assert (zip (pathCols d idx) ((shEqs s).*2 ++ optl (fst <$> o)) = shEqs s ++ ((λ q, (shCol s, q.1)) <$> optl o)) as ->.
    { rewrite <- (take_drop (length (shEqs s)) (pathCols d idx)), <- (sh_cols s Hs). rewrite zip_with_app by (by rewrite !length_fmap). f_equal.
      - fold (zip (shEqs s).*1 (shEqs s).*2). by rewrite zip_fst_snd.
      - destruct o as [[lit n]|]; [|by destruct (drop _ _)]. destruct (lookup_lt_is_Some_2 _ _ (Ho ltac:(done))) as [c Hc].
        rewrite (drop_S _ c) by done. unfold shCol. rewrite Hc. cbn. by destruct (drop _ _). }
    apply Forall2_app; [apply Hs|]. destruct o as [[lit n]|]; cbn; [|constructor]. constructor; [|constructor]. by apply (Hp lit n).
  - unfold vals. rewrite length_app, length_fmap. destruct o; cbn; [specialize (Ho ltac:(done))|]; lia.
Qed.

Definition shTo (s : shape) : list any := (shEqs s).*2 ++ optl (fst <$> (fst <$> shEnd s)).
Lemma shTo_stops s : stVal <$> shStops s = shTo s.
Proof.
  unfold shStops, shTo. rewrite fmap_app. f_equal; [by rewrite <- list_fmap_compose|]. by destruct (shEnd s).
Qed.
Lemma bound_of_ok vals ns : Forall any_ok vals -> pathBound d idx vals = Ok ns -> path_bound_ok d idx (bound_of vals).
Proof. intros H1 H2. destruct vals; [done|]. split; [done|]. by exists ns. Qed.
Lemma shape_from s row : shape_ok s ->
  path_bound_ok d idx (bound_of (shFrom s)) /\
  (above (pathDir idx) (pathBound d idx) (bound_of (shFrom s)) (pathKey d idx row) <->
   eqCmp s (pathKey d idx row) <> Gt /\ (eqCmp s (pathKey d idx row) = Eq -> startCmp s row <> Gt)).
Proof.
  intros Hs. destruct (shape_bound s (shStart s) Hs) as [Hok Hb]; [intros H; apply (sh_next s Hs); by left|apply (sh_start s Hs)|].
  fold (shFrom s) in Hok, Hb. split; [by eapply bound_of_ok|].
  pose proof (bounds_cmp s (snd <$> shStart s) row Hs) as Hc. specialize (Hc ltac:(intros H; apply (sh_next s Hs); left; by destruct (shStart s); [|destruct H])).
  trans (prefixCompare (pathDir idx) 0 (shEqKeys s ++ optl (snd <$> shStart s)) (pathKey d idx row) <> Gt).
  - unfold above, bound_of. destruct (shFrom s) as [|v vs] eqn:Ev; [|rewrite Hb; split; [by intros H; apply H|by intros H ? [= <-]]].
    assert (shEqKeys s ++ optl (snd <$> shStart s) = []) as ->; [|done].
    unfold shFrom in Ev. apply app_eq_nil in Ev as [E1 E2]. destruct (shape_length s Hs) as [Hl _].
    apply (f_equal length) in E1. rewrite length_fmap in E1. cbn in E1. destruct (shEqKeys s); cbn in Hl; [|lia]. by destruct (shStart s).
  - rewrite Hc. unfold startCmp. destruct (eqCmp s _); [|naive_solver..]. destruct (shStart s) as [[lit n]|]; cbn; naive_solver.
Qed.
Lemma shape_to s row : shape_ok s ->
  path_bound_ok d idx (bound_of (shTo s)) /\
  (below (pathDir idx) (pathBound d idx) (bound_of (shTo s)) (shIncl s) (pathKey d idx row) <->
   eqCmp s (pathKey d idx row) = Gt \/ eqCmp s (pathKey d idx row) = Eq /\ (is_Some (shEnd s) -> past s row = false)).
Proof.
  intros Hs. destruct (shape_bound s (fst <$> shEnd s) Hs) as [Hok Hb].
  { intros H. apply (sh_next s Hs). right. by destruct (shEnd s); [|destruct H]. }
  { intros lit n He. destruct (shEnd s) as [[[lit' n'] incl]|] eqn:Ee; [|done]. injection He as -> ->. by apply (sh_end s Hs lit n incl). }
 fold (shTo s) in Hok, Hb. split; [by eapply bound_of_ok|].
  pose proof (bounds_cmp s (snd <$> (fst <$> shEnd s)) row Hs) as Hc.
  specialize (Hc ltac:(intros H; apply (sh_next s Hs); right; by destruct (shEnd s); [|destruct H])).
  set (c := prefixCompare _ 0 _ _) in Hc. trans (if shIncl s then c <> Lt else c = Gt).
  - unfold below, bound_of. destruct (shTo s) as [|v vs] eqn:Ev; [|rewrite Hb; split; [by intros H; apply H|by intros H ? [= <-]]].
    unfold shTo in Ev. apply app_eq_nil in Ev as [E1 E2]. destruct (shape_length s Hs) as [Hl _].
    apply (f_equal length) in E1. rewrite length_fmap in E1. cbn in E1. unfold c, shIncl in *. destruct (shEqKeys s); cbn in Hl; [|lia]. by destruct (shEnd s).
  - rewrite Hc. unfold past, endCmp, shIncl. destruct (eqCmp s _); [|destruct (shEnd s) as [[[? ?] []]|]; naive_solver..].
    destruct (shEnd s) as [[[lit n] []]|]; cbn; [| |naive_solver]; destruct (nextCmp s n row); naive_solver.
Qed.

Lemma pathKey_canon row : row_ok d row -> Forall canon (pathKey d idx row).
Proof. intros [_ H]. unfold pathKey, val_at. apply Forall_fmap, Forall_forall. intros o _. cbn. destruct (row !! o) eqn:Eo; [by eapply Forall_lookup_1|done]. Qed.
Lemma shape_canon s : shape_ok s -> Forall canon (shEqKeys s ++ optl (snd <$> (fst <$> shEnd s))).
Proof.
  intros Hs. assert (forall o lit n, pushed d o lit n -> canon n) as Hp.
  { intros o lit n (c & _ & Hok & Hf & Hp). by destruct (compare_pushed (colType c) ANil lit n) as (H & _); [split|..]. }
  apply Forall_app. split.
  - pose proof (sh_eqs s Hs) as He. induction He as [|q n eqs ns Hq _ IH]; constructor; [by eapply Hp|done].
  - destruct (shEnd s) as [[[lit n] incl]|] eqn:Ee; cbn; [|done]. constructor; [|done]. eapply Hp, (sh_end s Hs _ _ _ Ee).
Qed.
(** Inside the start bound, once a stop hits every later row is past it. *)
Lemma shape_mono s r1 r2 : shape_ok s -> row_ok d r1 -> row_ok d r2 -> path_le d idx r1 r2 ->
  above (pathDir idx) (pathBound d idx) (bound_of (shFrom s)) (pathKey d idx r1) ->
  stopped (shStops s) r1 = Ok true -> stopped (shStops s) r2 = Ok true.
Proof.
  intros Hs H1 H2 Hle [Hgt _]%shape_from; [|done]. rewrite !shape_stopped by done. intros [= Hst]. f_equal.
  destruct (prefixCompare_mono (pathDir idx) 0 _ _ _ (shape_canon s Hs) (pathKey_canon r1 H1) (pathKey_canon r2 H2)) as [M1 M2]; [by rewrite !pathKey_length|done|].
  assert (is_Some (snd <$> (fst <$> shEnd s)) -> (length (shEqs s) < length (pathCols d idx))%nat) as Hn.
  { intros H. apply (sh_next s Hs). right. by destruct (shEnd s); [|destruct H]. }
  rewrite !bounds_cmp in M1, M2 by done. unfold past, endCmp, shIncl in *.
  destruct (eqCmp s (pathKey d idx r2)); [|done..]. cbn [bool_decide negb orb]. cbn.
  destruct (eqCmp s (pathKey d idx r1)); [| |done].
  - destruct (shEnd s) as [[[lit n] incl]|]; [|done]. rewrite bool_decide_true in Hst |- * by done. cbn in Hst, M1, M2 |- *.
    by destruct (nextCmp s n r1), (nextCmp s n r2); try done; (specialize (M2 eq_refl) || destruct M1).
  - specialize (M2 eq_refl). destruct (shEnd s) as [[[lit n] incl]|]; [|done]. cbn in *. rewrite M2. by destruct (bool_decide _).
Qed.
Lemma shape_within s row : shape_ok s -> row_ok d row -> eqCmp s (pathKey d idx row) = Eq -> startCmp s row <> Gt -> (is_Some (shEnd s) -> past s row = false) ->
  path_in d idx (bound_of (shFrom s)) (bound_of (shTo s)) (shIncl s) row /\ stopped (shStops s) row = Ok false.
Proof.
  intros Hs Hr He Hst Hen. split; [split|].
  - apply shape_from; [done|]. by rewrite He.
  - apply shape_to; [done|]. right. done.
  - rewrite shape_stopped by done. rewrite He. cbn. destruct (shEnd s); [|done]. cbn. by rewrite Hen.
Qed.
Lemma shape_revEnd {C : Type} s (p : plan C) : plStops p = shStops s -> revEnd p = (shTo s, shIncl s).
Proof.
  intros Hp. unfold revEnd. rewrite Hp, shTo_stops. f_equal. unfold shStops, shIncl. rewrite foldl_app.
  match goal with |- foldl ?f _ _ = _ => set (g := f) end.
  assert (forall eqs : list (nat * any), foldl g true ((λ q, mkStop q.1 stopNE q.2) <$> eqs) = true) as ->.
  { induction eqs as [|q eqs IH]; [done|]. exact IH. }
  destruct (shEnd s) as [[[lit n] incl]|]; [|done]. cbn. unfold endStop, endKind. cbn. by destruct (shDesc s), incl.
Qed.
End shape.

(** ** The loop over a scan *)
Lemma filter_none {A : Type} (P : A -> Prop) `{!forall x, Decision (P x)} l : Forall (λ x, ~ P x) l -> filter P l = [].
Proof. induction 1; [done|]. by rewrite filter_cons_False. Qed.

Section loops.
Context {C : Type} {re : Regexp}.
Context (h : heap) (p : plan C) (ctx : nat -> option error) (cond : C -> list any -> outcome tri) (keep : list Row -> bool) (d : TableDesc).

Definition evals (row : list any) : outcome tri := evalPreds h (plBinds p) cond (plFilter p) row.
Definition good (row : list any) : Prop := evals row = Ok triTrue.
#[export] Instance good_dec row : Decision (good row).
Proof. unfold good. destruct (evals row) as [[]| |]; (left; done) || (right; done). Defined.

(** How the loop may end, having had the rows [L] to look at and given [pre] of them after [acc]. *)
Definition ended (acc : list Row) (L pre : list (list any)) (o : option (outcome unit)) : Prop :=
  pre `prefix_of` filter good L /\
  match o with
  | None => pre = filter good L
  | Some (Ok _) => pre = filter good L \/ pre <> [] /\ keep (reverse (mkRow d <$> pre) ++ acc) = false
  | Some (Err er) => (exists i, ctx i = Some er) \/ exists row, row ∈ L /\ evals row = Err er
  | Some (Panic q) => exists row, row ∈ L /\ evals row = Panic q
  end.

Lemma visits_ended items l o : lpEnd l = Some o -> foldl (visit h p ctx cond keep) l items = l.
Proof. intros Ho. induction items as [|i items IH]; [done|]. cbn. unfold visit at 2. by rewrite Ho. Qed.
Lemma digest_app items later : lpEnd (digest h p ctx cond keep items) <> None -> digest h p ctx cond keep (items ++ later) = digest h p ctx cond keep items.
Proof. unfold digest. rewrite foldl_app. intros H. destruct (lpEnd _) eqn:Ee; [|done]. by eapply visits_ended. Qed.

Lemma ended_later acc L pre row o : ~ good row -> ended acc L pre o -> ended acc (row :: L) pre o.
Proof.
  intros Hg [H1 H2]. unfold ended. rewrite filter_cons_False by done. split; [done|]. destruct o as [[]|]; [done| | |done].
  - destruct H2 as [?|(r & ? & ?)]; [by left|right]. exists r. split; [by right|done].
  - destruct H2 as (r & ? & ?). exists r. split; [by right|done].
Qed.
Lemma ended_given acc L pre row o : good row -> ended (mkRow d row :: acc) L pre o -> ended acc (row :: L) (row :: pre) o.
Proof.
  intros Hg [H1 H2]. unfold ended. rewrite filter_cons_True by done. split; [by apply prefix_cons|]. destruct o as [[]|].
  - destruct H2 as [->|[_ Hk]]; [by left|right]. split; [done|]. cbn [fmap list_fmap]. by rewrite reverse_cons, <- app_assoc.
  - destruct H2 as [?|(r & ? & ?)]; [by left|right]. exists r. split; [by right|done].
  - destruct H2 as (r & ? & ?). exists r. split; [by right|done].
  - by rewrite H2.
Qed.

(** A scan whose stops are all past what the filter lets through. *)
Definition stops_sound (L : list (list any)) : Prop :=
  plReverse p = false -> forall l1 row l2, L = l1 ++ row :: l2 ->
    exists b, stopped (plStops p) row = Ok b /\ (b = true -> Forall (λ r, ~ good r) (row :: l2)).
Lemma visits_rows L l : lpEnd l = None -> stops_sound L ->
  let f := foldl (visit h p ctx cond keep) l ((λ r, Ok (mkRow d r)) <$> L) in
  exists pre, lpRows f = reverse (mkRow d <$> pre) ++ lpRows l /\ ended (lpRows l) L pre (lpEnd f).
Proof.
  revert l. induction L as [|row L IH]; intros l Hl Hs.
  { exists []. split; [done|]. cbn. by rewrite Hl. }
  assert (stops_sound L) as Hs'. { intros Hr l1 r l2 ->. by apply (Hs Hr (row :: l1)). }
  assert (forall o n, match o with Ok _ => ~ good row /\ Forall (λ r, ~ good r) L | Err er => (exists i, ctx i = Some er) \/ evals row = Err er | Panic q => evals row = Panic q end ->
    exists pre, lpRows (mkLoop (lpRows l) n (Some o)) = reverse (mkRow d <$> pre) ++ lpRows l /\ ended (lpRows l) (row :: L) pre (Some o)) as Hstop.
  { intros o n Ho. exists []. split; [done|]. split; [apply prefix_nil|]. destruct o as [[]|er|q].
    - left. destruct Ho as [H1 H2]. rewrite filter_cons_False by done. by rewrite filter_none.
    - destruct Ho as [?|?]; [by left|right]. exists row. split; [by left|done].
    - exists row. split; [by left|done]. }
  cbv zeta. cbn [fmap list_fmap foldl]. destruct (visit h p ctx cond keep l (Ok (mkRow d row))) as [l1 n1 e1] eqn:E1. unfold visit in E1. rewrite Hl in E1. cbv zeta in E1. revert E1.
  destruct (if _ =? 0 then _ else _) as [er|] eqn:Ec.
  { intros [= <- <- <-]; erewrite visits_ended by done. apply Hstop. left. destruct (_ =? 0); [by eexists|done]. }
  assert (exists b, (if plReverse p then Ok false else stopped (plStops p) (rVals (mkRow d row))) = Ok b /\ (b = true -> Forall (λ r, ~ good r) (row :: L))) as (b & -> & Hb).
  { destruct (plReverse p) eqn:Er; [by exists false|]. by apply (Hs Er []). }
  destruct b.
  { intros [= <- <- <-]; erewrite visits_ended by done. apply Hstop. specialize (Hb eq_refl). by apply Forall_cons in Hb. }
  unfold matches. cbn [rVals]. fold (evals row). destruct (evals row) as [t|er|q] eqn:Ev; cbn [mbind outcome_bind];
    [|intros [= <- <- <-]; erewrite visits_ended by done; apply Hstop; by right|intros [= <- <- <-]; erewrite visits_ended by done; by apply Hstop].
  case_bool_decide as Ht; [subst t|].
  - assert (good row) as Hg by done. destruct (keep (mkRow d row :: lpRows l)) eqn:Ek.
    + intros [= <- <- <-]. edestruct (IH (mkLoop (mkRow d row :: lpRows l) (lpSeen l + 1) None)) as (pre & H1 & H2); [done|done|]. exists (row :: pre). split; [|by apply ended_given].
      cbn [fmap list_fmap]. by rewrite reverse_cons, <- app_assoc, H1.
    + intros [= <- <- <-]; erewrite visits_ended by done. exists [row]. split; [done|]. split; cbn [lpEnd]; [|by right].
      rewrite filter_cons_True by done. by apply prefix_cons, prefix_nil.
  - assert (~ good row) as Hg by (unfold good; rewrite Ev; congruence).
    intros [= <- <- <-]. edestruct (IH (mkLoop (lpRows l) (lpSeen l + 1) None)) as (pre & H1 & H2); [done|done|]. exists pre. split; [done|by apply ended_later].
Qed.
End loops.

(** ** Scans inside a transaction *)

Section txns.
Context {E : Type} {eng : EngineOps E} {eng_laws : EngineLaws E} {cs : CatState E} {cat_laws : CatLaws E} {te : TxnEngine E} {te_laws : TxnEngineLaws E}.
Context {tx sp : Type} {kv : KV tx} {kv_laws : KVLaws tx} {sv : KVSave tx sp} {sv_laws : KVSaveLaws tx sp}.
Abbreviation Txn := (Txn tx sp).

(** Reading code: only the tracked reads may change. *)
Definition reads (t t' : tx) : Prop := kv_map t' = kv_map t /\ kv_writable t' = kv_writable t /\ same_saves kv_saves kv_issued t t'.
#[export] Instance reads_preorder : PreOrder reads.
Proof. split; [by intros t|]. intros t1 t2 t3 (A1 & B1 & C1 & D1) (A2 & B2 & C2 & D2). unfold reads, same_saves. split_and!; congruence. Qed.
Lemma reads_mark k t : reads t (kv_mark_read k t).
Proof. split_and!; [apply kv_mark_read_map|apply kv_mark_read_writable|apply kv_mark_read_saves]. Qed.

Lemma yield_each_reads {X A : Type} more (body : X -> M tx A) xs seen t : (forall x u, reads u (body x u).2) -> reads t (yield_each more body xs seen t).2.
Proof.
  intros Hb. revert seen t. induction xs as [|x xs IH]; intros seen t; cbn; [done|]. specialize (Hb x t). destruct (body x t) as [o t']. cbn in Hb.
  destruct (_ && _); [by etransitivity|done].
Qed.
Lemma rowFromIndexEntry_reads d idx k v t : reads t (rowFromIndexEntry d idx k v t).2.
Proof.
  unfold rowFromIndexEntry, mbind, M_bind, lift. destruct (skipElems _ _ _ _) as [data| |]; [|done..]. destruct (Decode _) as [pk| |]; [|done..].
  case_decide; [done|]. destruct (rowKey d pk) as [rk| |]; [|done..]. cbn. destruct (kv_get rk _) as [rv|]; [|apply reads_mark]. destruct (decodeRow d rk rv); apply reads_mark.
Qed.
Lemma path_scan_reads d idx rev from to incl more t : reads t (path_scan (tx := tx) d idx rev from to incl more t).2.
Proof.
  assert (forall (body : bytes * bytes -> M tx Row) bounds walk, (forall x u, reads u (body x u).2) -> reads t (scan bounds walk body more t).2) as Hs.
  { intros body bounds walk Hb. unfold scan. destruct bounds as [[lo hi]| |]; [|done..]. etransitivity; [|by apply yield_each_reads].
    split_and!; [apply kv_mark_read_range_map|apply kv_mark_read_range_writable|apply kv_mark_read_range_saves]. }
  unfold path_scan, scanRows, scanRowsRev, scanIndexRows, scanIndexRowsRev.
  destruct idx, rev; apply Hs; intros [k v] u; done || apply rowFromIndexEntry_reads.
Qed.
Lemma path_scan_cut d idx rev from to incl more t (sc := path_scan (tx := tx) d idx rev from to incl) :
  reverse (sc more t).1 `prefix_of` reverse (sc drain t).1 /\ ((sc more t).1 = (sc drain t).1 \/ more (sc more t).1 = false).
Proof.
  unfold sc, path_scan, scanRows, scanRowsRev, scanIndexRows, scanIndexRowsRev. destruct idx, rev; (split; [apply scan_prefix|apply scan_cut]).
Qed.

Lemma goes_reads r e T t' : txn_ok r e T -> reads (xTx T) t' -> goes r (e, T) (e, x_tx (λ _, t') T).
Proof.
  intros Hok (H1 & H2 & H3). apply (txn_ok_map r r); [lia|done|done|by split|rewrite H1; apply Hok|by rewrite H1].
Qed.
Lemma TxnDesc_at r table d e T : txn_ok r e T -> table_at (kv_map (xTx T)) table d ->
  exists e1 T1, TxnDesc table (e, T) = (Ok d, (e1, T1)) /\ goes r (e, T) (e1, T1) /\ xTx T1 = xTx T.
Proof.
  intros Hok Hat. assert (wp (TxnDesc table) (λ o s', o = Ok d /\ goes r (e, T) s' /\ xTx s'.2 = xTx T) (e, T)) as H.
  { unfold TxnDesc. apply wp_bind, (wp_TxnTable r); [done|]. intros s' Hg Ht _ od Hod. unfold table_at in Hat. rewrite Hat in Hod. injection Hod as <-.
    cbn [seqQ]. by apply wp_ret. }
  unfold wp in H. destruct (TxnDesc table (e, T)) as [o [e1 T1]]. cbn [fst snd] in H. destruct H as (-> & H1 & H2). by exists e1, T1.
Qed.

(** A plan that scans a path with the bounds of a shape. *)
Section path.
Context {C : Type} {re : Regexp} {sp_eq : EqDecision sp}.
Context (h : heap) (p : plan C) (ctx : nat -> option error) (cond : C -> list any -> outcome tri) (keep : list Row -> bool).
Context (d : TableDesc) (idx : option IndexDesc) (s : shape).

Definition covers : Prop := forall row, row_ok d row -> good h p cond row ->
  eqCmp idx s (pathKey d idx row) = Eq /\ startCmp d idx s row <> Gt /\ (is_Some (shEnd s) -> past d idx s row = false).
Record path_plan : Prop := {
  pp_path : path_ok d idx;
  pp_get : plGet p = None;
  pp_index : match idx with None => plIndex p = [] | Some x => plIndex p <> [] /\ Index d (plIndex p) = Some x end;
  pp_shape : shape_ok d idx s;
  pp_from : plFrom p = shFrom s;
  pp_stops : plStops p = shStops d idx s;
  pp_covers : covers;
}.

(** The rows a planned scan is to give, in order. *)
Definition answers (Tb : table) (found : list (list any)) : Prop :=
  NoDup found /\ (forall row, row ∈ found <-> Tb !! pkOf d row = Some row /\ good h p cond row).
(** What the caller sees of them. *)
Definition delivers (Tb : table) (found : list (list any)) (rows : list Row) (o : outcome unit) : Prop :=
  exists pre, rows = mkRow d <$> pre /\ pre `prefix_of` found /\
    match o with
    | Ok _ => pre = found \/ pre <> [] /\ keep (reverse rows) = false
    | Err er => (exists i, ctx i = Some er) \/ exists pk row, Tb !! pk = Some row /\ evals h p cond row = Err er
    | Panic q => exists pk row, Tb !! pk = Some row /\ evals h p cond row = Panic q
    end.

Definition ends : option (list any) * bool := if plReverse p then (bound_of (shTo s), shIncl s) else (None, true).
Lemma path_rows Tb L : path_plan -> (forall row, Tb !! pkOf d row = Some row -> row_ok d row) -> StronglySorted (path_le d idx) L -> NoDup L ->
  (forall row, row ∈ L <-> Tb !! pkOf d row = Some row /\ path_in d idx (bound_of (shFrom s)) ends.1 (plReverse p && ends.2) row) ->
  let L' := if plReverse p then reverse L else L in
  answers Tb (filter (good h p cond) L') /\ stops_sound h p cond L'.
Proof.
  intros Hp Hok Hsort Hnd Hin L'. assert (forall row, row ∈ L' <-> row ∈ L) as HL' by (intros row; unfold L'; destruct (plReverse p); [by rewrite elem_of_reverse|done]).
  split; [split|].
  - apply NoDup_filter. unfold L'. destruct (plReverse p); [by rewrite reverse_Permutation|done].
  - intros row. rewrite list_elem_of_filter, HL', Hin. split; [tauto|]. intros [HT Hg]. split_and!; [done..|].
    destruct (pp_covers Hp row (Hok row HT) Hg) as (H1 & H2 & H3). destruct (shape_within d idx s row (pp_shape Hp) (Hok row HT) H1 H2 H3) as [[Ha Hb] _].
    unfold ends. by destruct (plReverse p).
  - intros Hrev l1 row l2 EL. unfold L' in EL. rewrite Hrev in EL. rewrite (pp_stops Hp).
    assert (forall r, r ∈ row :: l2 -> row_ok d r /\ above (pathDir idx) (pathBound d idx) (bound_of (shFrom s)) (pathKey d idx r)) as Hr.
    { intros r Hr. assert (r ∈ L) as [HT [Ha _]]%Hin by (rewrite EL; apply elem_of_app; by right). split; [by apply Hok|done]. }
    assert (forall r, r ∈ row :: l2 -> stopped (shStops d idx s) r = Ok true -> ~ good h p cond r) as Hng.
    { intros r [Hok' _]%Hr Hst Hg. destruct (pp_covers Hp r Hok' Hg) as (H1 & H2 & H3). by destruct (shape_within d idx s r (pp_shape Hp) Hok' H1 H2 H3) as [_ Hf]; rewrite Hf in Hst. }
    destruct (Hr row) as [Hrow Habove]; [by left|]. eexists. split; [apply (shape_stopped d idx s row (pp_shape Hp) Hrow)|]. intros Hb. apply Forall_forall.
    intros r Hin'. apply Hng; [done|]. pose proof (shape_stopped d idx s row (pp_shape Hp) Hrow) as Hst. rewrite Hb in Hst.
    apply elem_of_cons in Hin' as [->|Hin']; [done|]. eapply (shape_mono d idx s row); [apply Hp|done|apply Hr; by right| |done|done].
    rewrite EL in Hsort. apply StronglySorted_app_1_r in Hsort. apply StronglySorted_inv in Hsort as [_ Hf]. rewrite Forall_forall in Hf. by apply Hf.
Qed.

(** The sequence the plan picks is the scan of the path. *)
Lemma planned_seq table (sq := match plIndex p, plReverse p with
    | [], true => TxnScanRangeRev table (bound_of (plFrom p)) (bound_of (revEnd p).1) (revEnd p).2
    | [], false => TxnScanRange table (bound_of (plFrom p)) None
    | index, true => TxnScanIndexRev table index (bound_of (plFrom p)) (bound_of (revEnd p).1) (revEnd p).2
    | index, false => TxnScanIndex table index (bound_of (plFrom p)) None
    end : (list (outcome Row) -> bool) -> E * Txn -> _) more e T e1 T1 : path_plan -> TxnDesc table (e, T) = (Ok d, (e1, T1)) ->
  sq more (e, T) = let '(items, t) := path_scan d idx (plReverse p) (bound_of (shFrom s)) ends.1 ends.2 more (xTx T1) in (items, (e1, x_tx (λ _, t) T1)).
Proof.
  intros [_ _ Hi _ Hf Hst _] HD. unfold sq. rewrite (shape_revEnd d idx s p Hst), Hf. cbn [fst snd]. unfold path_scan, ends.
  unfold TxnScanRange, TxnScanRangeRev, TxnScanIndex, TxnScanIndexRev, seqOf.
  destruct idx as [x|]; [destruct Hi as [Hne Hx]|rewrite Hi; destruct (plReverse p); by rewrite HD].
  unfold withIndex. destruct (plIndex p) as [|b name]; [done|]. destruct (plReverse p); by rewrite HD, Hx.
Qed.

Definition path_before (r1 r2 : list any) : Prop := if plReverse p then path_le d idx r2 r1 else path_le d idx r1 r2.
Lemma scanPlan_path r table e T Tb : path_plan -> txn_ok r e T -> table_at (kv_map (xTx T)) table d -> abstracts d (kv_map (xTx T)) Tb ->
  let '(rows, o, s') := scanPlan h p ctx cond keep table (e, T) in
  (exists found, answers Tb found /\ StronglySorted path_before found /\ delivers Tb found rows o) /\
  goes r (e, T) s' /\ kv_map (xTx s'.2) = kv_map (xTx T).
Proof.
  intros Hp Hok Hat Ha. destruct (TxnDesc_at r table d e T Hok Hat) as (e1 & T1 & HD & Hg & Ht).
  pose proof (vo_db _ _ (tk_view _ _ _ Hok)) as Hdb. destruct (table_at_wf _ table d Hdb Hat) as [_ Hwd].
  pose proof (to_inv _ _ (db_table _ Hdb table d Hat)) as Hi.
  assert (path_bound_ok d idx ends.1) as Hto by (unfold ends; destruct (plReverse p); [apply (proj1 (shape_to d idx s [] (pp_shape Hp)))|done]).
  destruct (path_drained d idx (plReverse p) (xTx T1) Tb (bound_of (shFrom s)) ends.1 ends.2) as (L & H1 & H2 & H3 & H4);
    [apply Hwd|apply Hp|by rewrite Ht|by rewrite Ht|apply (proj1 (shape_from d idx s [] (pp_shape Hp)))|done|].
  destruct (path_rows Tb L Hp) as [Hans Hss]; [|done|done|done|].
  { intros row HT. apply (abs_stored d _ Tb Ha) in HT. by eapply stored_ok. }
  set (L' := if plReverse p then reverse L else L) in *. set (found := filter (good h p cond) L') in *.
  assert (StronglySorted path_before found) as Hsort.
  { apply sorted_filter. unfold path_before, L'. destruct (plReverse p); [by apply sorted_reverse|done]. }
  unfold scanPlan. destruct (ctx 0%nat) as [er|] eqn:Ec.
  { split; [|by split; [apply goes_refl|]]. exists found. split_and!; [done..|]. exists []. split_and!; [done|apply prefix_nil|]. left. by eexists. }
  rewrite (pp_get Hp). destruct (revEnd p) as [to incl] eqn:Er.
  pose proof (planned_seq table (wants h p ctx cond keep) e T e1 T1 Hp HD) as Hseq. rewrite Er in Hseq. cbn [fst snd] in Hseq.
  cbv zeta. rewrite Hseq. pose proof (path_scan_reads d idx (plReverse p) (bound_of (shFrom s)) ends.1 ends.2 (wants h p ctx cond keep) (xTx T1)) as Hrd.
  assert (digest h p ctx cond keep (reverse (path_scan d idx (plReverse p) (bound_of (shFrom s)) ends.1 ends.2 (wants h p ctx cond keep) (xTx T1)).1) =
    digest h p ctx cond keep ((λ r, Ok (mkRow d r)) <$> L')) as Hdig.
  { rewrite <- H4. destruct (path_scan_cut d idx (plReverse p) (bound_of (shFrom s)) ends.1 ends.2 (wants h p ctx cond keep) (xTx T1)) as [[later Hl] [->|Hw]]; [done|].
    rewrite Hl. symmetry. apply digest_app. unfold wants in Hw. by apply bool_decide_eq_false in Hw. }
  revert Hdig Hrd. destruct (path_scan _ _ _ _ _ _ (wants h p ctx cond keep) _) as [items t']. cbn [fst snd]. intros Hdig Hrd. rewrite Hdig. split; [|split].
  - exists found. split_and!; [done..|]. destruct (visits_rows h p ctx cond keep d L' (mkLoop [] 0 None) eq_refl Hss) as (pre & Hrows & Hpre & Hend).
    fold (digest h p ctx cond keep ((λ r, Ok (mkRow d r)) <$> L')) in Hrows, Hend. exists pre. rewrite Hrows. cbn [lpRows]. rewrite app_nil_r, reverse_involutive.
    split_and!; [done..|]. assert (forall row, row ∈ L' -> Tb !! pkOf d row = Some row) as HTb.
    { intros row Hr. apply H3. unfold L' in Hr. destruct (plReverse p); [by rewrite elem_of_reverse in Hr|done]. }
    cbn [lpRows] in Hend. rewrite app_nil_r in Hend. destruct (lpEnd _) as [[]|]; cbn [default]; [done|naive_solver|naive_solver|by left].
  - cbn [fst snd]. apply (goes_trans r r _ (e1, T1)); [done|]. apply goes_reads; [apply Hg|done].
  - cbn. rewrite <- Ht. apply Hrd.
Qed.

(** A plan that reads one row. *)
Record get_plan : Prop := {
  gp_shape : shape_ok d None s;
  gp_get : plGet p = Some (shEqs s).*2;
  gp_full : length (shEqs s) = length (tPKCols d);
  gp_covers row : row_ok d row -> good h p cond row -> eqCmp None s (pathKey d None row) = Eq;
}.
Lemma TxnGet_at r table vals e T : txn_ok r e T -> table_at (kv_map (xTx T)) table d -> Forall any_ok vals ->
  exists s', TxnGet table vals (e, T) = (getRow d vals (xTx T), s') /\ goes r (e, T) s' /\ kv_map (xTx s'.2) = kv_map (xTx T).
Proof.
  intros Hok Hat Hv. destruct (TxnDesc_at r table d e T Hok Hat) as (e1 & T1 & HD & Hg & Ht).
  unfold TxnGet, mbind, M_bind, lift. rewrite HD. unfold getRow. destruct (fullPKKey d vals) as [key|er|q]; [|exists (e1, T1); split_and!; [done|done|cbn; by rewrite Ht]..].
  assert (goes r (e, T) (e1, x_tx (kv_mark_read key) T1)) as Hg'.
  { apply (goes_trans r r _ (e1, T1)); [done|]. apply (goes_reads r e1 T1 (kv_mark_read key (xTx T1))); [apply Hg|apply reads_mark]. }
  assert (kv_map (xTx (x_tx (kv_mark_read key) T1)) = kv_map (xTx T)) as Hm by (cbn; by rewrite kv_mark_read_map, Ht).
  cbn. rewrite !kv_get_map, kv_mark_read_map, Ht. destruct (kv_map (xTx T) !! key) as [val|]; [|by eexists].
  destruct (decodeRow d key val) as [row|er|q]; by eexists.
Qed.
Lemma get_key ns row : Forall canon ns -> Forall canon (pathKey d None row) -> length ns = length (pathKey d None row) ->
  prefixCompare (λ _, false) 0 ns (pathKey d None row) = Eq -> ns = pathKey d None row.
Proof.
  generalize (pathKey d None row) 0%nat. intros vs i Hn. revert vs i. induction Hn as [|n ns Hn _ IH]; intros [|v vs] i Hv Hl; try done.
  apply Forall_cons in Hv as [Hv Hvs]. cbn. destruct (valueCompare n v) eqn:Ev; try done. apply valueCompare_eq in Ev as ->; [|done..].
  intros He. f_equal. eapply IH; [done| |done]. simpl in Hl. lia.
Qed.
Lemma scanPlan_get r table e T Tb : get_plan -> txn_ok r e T -> table_at (kv_map (xTx T)) table d -> abstracts d (kv_map (xTx T)) Tb ->
  let '(rows, o, s') := scanPlan h p ctx cond keep table (e, T) in
  (exists found, answers Tb found /\ delivers Tb found rows o) /\ goes r (e, T) s' /\ kv_map (xTx s'.2) = kv_map (xTx T).
Proof.
  intros [Hs Hget Hfull Hcov] Hok Hat Ha.
  pose proof (vo_db _ _ (tk_view _ _ _ Hok)) as Hdb. destruct (table_at_wf _ table d Hdb Hat) as [_ Hwd].
  pose proof (to_inv _ _ (db_table _ Hdb table d Hat)) as Hi.
  destruct (shape_bound d None s None Hs) as [Hv Hb]; [by intros []|done|]. cbn [optl fmap option_fmap option_map] in Hv, Hb. rewrite !app_nil_r in Hv, Hb.
  assert (pkArg d (shEqs s).*2 = Ok (shEqKeys s)) as Hpk.
  { revert Hb. cbn [pathBound]. unfold pkArg, pkBound. rewrite length_fmap, Hfull, app_nil_r. case_decide; [lia|]. by case_decide. }
  destruct (TxnGet_at r table _ e T Hok Hat Hv) as (s' & HG & Hg & Hm).
  assert (forall row, Tb !! pkOf d row = Some row -> good h p cond row -> pkOf d row = shEqKeys s) as Hkey.
  { intros row HT Hgd. apply (abs_stored d _ Tb Ha), stored_ok in HT. symmetry. apply (get_key (shEqKeys s) row); [|by apply pathKey_canon| |by apply Hcov].
    - pose proof (shape_canon d None s Hs) as Hc. by apply Forall_app in Hc as [? _].
    - rewrite pathKey_length. destruct (shape_length d None s Hs) as [-> _]. exact Hfull. }
  rewrite (getRow_refines d _ _ Tb) in HG by (done || apply Hwd). rewrite Hpk in HG. cbn [mbind outcome_bind] in HG.
  set (found := match Tb !! shEqKeys s with Some row => if decide (good h p cond row) then [row] else [] | None => [] end).
  assert (forall row, Tb !! shEqKeys s = Some row -> pkOf d row = shEqKeys s) as Hpko by (intros row HT; by apply (abs_lookup d _ Tb _ _ Ha) in HT as [_ ?]).
  assert (answers Tb found) as Hans.
  { unfold found. destruct (Tb !! shEqKeys s) as [row|] eqn:Er; [case_decide as Hgd|].
    - split; [apply NoDup_singleton|]. intros row'. rewrite list_elem_of_singleton. split; [intros ->; by rewrite Hpko|].
      intros [HT Hgd']. specialize (Hkey row' HT Hgd'). rewrite Hkey, Er in HT. congruence.
    - split; [constructor|]. intros row'. split; [by intros ?%elem_of_nil|]. intros [HT Hgd']. specialize (Hkey row' HT Hgd'). rewrite Hkey, Er in HT. congruence.
    - split; [constructor|]. intros row'. split; [by intros ?%elem_of_nil|]. intros [HT Hgd']. specialize (Hkey row' HT Hgd'). by rewrite Hkey, Er in HT. }
  unfold scanPlan. destruct (ctx 0%nat) as [er|] eqn:Ec.
  { split; [|by split; [apply goes_refl|]]. exists found. split; [done|]. exists []. split_and!; [done|apply prefix_nil|]. left. by eexists. }
  rewrite Hget, HG. unfold found in *. destruct (Tb !! shEqKeys s) as [row|] eqn:Er; cbn [fmap option_fmap option_map].
  - unfold matches. cbn [rVals]. fold (evals h p cond row). destruct (evals h p cond row) as [t|er|q] eqn:Ev; cbn [mbind outcome_bind].
    + case_bool_decide as Hb'; (split; [|done]); eexists; (split; [exact Hans|]).
      * subst t. rewrite decide_True by done. exists [row]. split_and!; [done..|by left].
      * rewrite decide_False by (unfold good; rewrite Ev; congruence). exists []. split_and!; [done..|by left].
    + split; [|done]. eexists. split; [exact Hans|]. exists []. split_and!; [done|apply prefix_nil|]. right. by exists (shEqKeys s), row.
    + split; [|done]. eexists. split; [exact Hans|]. exists []. split_and!; [done|apply prefix_nil|]. by exists (shEqKeys s), row.
  - split; [|done]. exists []. split; [done|]. exists []. split_and!; [done..|by left].
Qed.
End path.
End txns.

(** ** The planner's choice *)
Section planner.
Context {C : Type} {re : Regexp}.
Context (d : TableDesc) (alias : bytes) (h : heap) (e : BoolExpr C).

(** The literals a client wrote next to the columns it tests. *)
Definition lits_ok : Prop := forall q, q ∈ conjuncts e -> any_ok (pVal (h q)) /\ encodable (pVal (h q)).

Definition binds_ok (b : binds) : Prop := forall q bd, b !! q = Some bd -> pRItem (h q) = None -> bdR bd = None.
Lemma bindIn_ok q b b' : bindIn d alias h q b = Ok b' -> binds_ok b -> binds_ok b' /\ dom b ⊆ dom b' /\ q ∈ dom b'.
Proof.
  unfold bindIn. intros (l & _ & (r & Hr & [= <-])%outcome_bind_ok)%outcome_bind_ok Hb. split_and!; [|set_solver..].
  intros q' bd [[<- <-]|[_ Hq]]%lookup_insert_Some Hn; [|by apply (Hb q')]. rewrite Hn in Hr. by injection Hr as <-.
Qed.
Lemma walk_binds (e' : BoolExpr C) b b' : walkPreds (bindIn d alias h) e' b = Ok b' -> binds_ok b ->
  binds_ok b' /\ dom b ⊆ dom b' /\ forall q, q ∈ conjuncts e' -> q ∈ dom b'.
Proof.
  assert (forall l : list (BoolExpr C), Forall (λ e', forall b b', walkPreds (bindIn d alias h) e' b = Ok b' -> binds_ok b ->
      binds_ok b' /\ dom b ⊆ dom b' /\ forall q, q ∈ conjuncts e' -> q ∈ dom b') l ->
    forall b b', walkPreds (bindIn d alias h) (BAnd l) b = Ok b' -> binds_ok b -> binds_ok b' /\ dom b ⊆ dom b' /\ forall q, q ∈ conjuncts (BAnd l) -> q ∈ dom b') as Hlist.
  { clear b b'. induction 1 as [|e1 l He _ IH]; intros b b'; [intros [= <-] Hb; split_and!; [done..|by intros q ?%elem_of_nil]|].
    rewrite conjuncts_and. cbn [walkPreds]. intros (b1 & H1 & H2)%outcome_bind_ok Hb. destruct (He b b1 H1 Hb) as (B1 & D1 & C1).
    destruct (IH b1 b' H2 B1) as (B2 & D2 & C2). rewrite conjuncts_and in C2. split_and!; [done|by etransitivity|]. cbn. intros q [Hq|Hq]%elem_of_app; [by apply D2, C1|by apply C2]. }
  revert b b'. induction e' as [|q|c|e1 IH|l IH|l IH] using BoolExpr_ind'; intros b b'.
  - intros [= <-] Hb. split_and!; [done..|by intros q ?%elem_of_nil].
  - intros H Hb. destruct (bindIn_ok q b b' H Hb) as (H1 & H2 & H3). split_and!; [done..|]. by intros q' ->%list_elem_of_singleton.
  - intros [= <-] Hb. split_and!; [done..|by intros q ?%elem_of_nil].
  - intros H Hb. destruct (IH b b' H Hb) as (H1 & H2 & _). split_and!; [done..|by intros q ?%elem_of_nil].
  - by apply Hlist.
  - intros H Hb. destruct (Hlist l IH b b' H Hb) as (H1 & H2 & _). split_and!; [done..|by intros q ?%elem_of_nil].
Qed.

(** A conjunct the planner may push. *)
Record conj (b : binds) (ops : list PredOp) (o q : nat) : Prop := {
  cj_in : q ∈ conjuncts e;
  cj_col : bdL (bound b q) = o;
  cj_lit : pRItem (h q) = None;
  cj_fits : exists c, tColumns d !! o = Some c /\ litFits (pVal (h q)) (colType c) = true;
  cj_op : pOp (h q) ∈ ops;
}.
Record usable_ok (b : binds) (u : usable) : Prop := {
  us_eq : map_Forall (conj b [OpEQ]) (uEq u);
  us_lo : map_Forall (conj b [OpGT; OpGE]) (uLo u);
  us_hi : map_Forall (conj b [OpLT; OpLE]) (uHi u);
}.
Lemma add_first_ok (P : nat -> nat -> Prop) o q m : map_Forall P m -> P o q -> map_Forall P (add_first o q m).
Proof. intros Hm Hp. unfold add_first. destruct (m !! o); [done|]. by apply map_Forall_insert_2. Qed.
Lemma addConjunct_ok b u u' q : q ∈ conjuncts e -> usable_ok b u -> addConjunct d h b u q = Ok u' -> usable_ok b u'.
Proof.
  intros Hq [H1 H2 H3]. unfold addConjunct. case_bool_decide as Hr; [by intros [= <-]|]. cbn [orb]. destruct (is_nil _); [by intros [= <-]|].
  intros (c & Hc & H)%outcome_bind_ok. unfold at_index in Hc. destruct (tColumns d !! _) as [c'|] eqn:Ec; [injection Hc as ->|done].
  destruct (litFits _ _) eqn:Ef; [|by injection H as <-]. injection H as <-.
  assert (pRItem (h q) = None) as Hn by (destruct (pRItem (h q)); [by destruct Hr|done]).
  assert (forall ops, pOp (h q) ∈ ops -> conj b ops (bdL (bound b q)) q) as Hcj by (intros ops Ho; split; [done..|by exists c|done]).
  destruct (pOp (h q)) eqn:Eo; try done; split; cbn [uEq uLo uHi]; try done; (apply add_first_ok; [done|]); apply Hcj; set_solver.
Qed.
Lemma classify_ok b u u' ps : Forall (λ q, q ∈ conjuncts e) ps -> usable_ok b u -> classify d h b u ps = Ok u' -> usable_ok b u'.
Proof.
  intros Hp. revert u. induction Hp as [|q ps Hq _ IH]; intros u Hu; [by intros [= <-]|]. cbn [classify].
  intros (u1 & H1 & H2)%outcome_bind_ok. eapply IH; [|done]. by eapply addConjunct_ok.
Qed.

(** What a pushed conjunct says of the rows the filter lets through. *)
Lemma conj_pushed b ops o q : lits_ok -> conj b ops o q -> exists n, pushed d o (pVal (h q)) n.
Proof.
  intros Hl [H1 _ _ (c & Hc & Hf) _]. destruct (Hl q H1) as [Hok Hen]. destruct (pushed_exists (colType c) (pVal (h q))) as [n Hn]; [done..|].
  exists n, c. by split_and!.
Qed.
Lemma checkPred_pushed op v lit c : op ∈ [OpEQ; OpGT; OpGE; OpLT; OpLE] -> micros v = v -> micros lit = lit -> compareVals v lit = c ->
  (is_nil v = true -> c = None) -> (is_nil v = false -> is_Some c) ->
  checkPred v op lit = Ok (match c with Some c => tri_of (holds op c) | None => triUnknown end).
Proof.
  intros Ho Hv Hl Hc Hn Hs. assert (adaptLit v op lit = Ok lit) as Ha.
  { unfold adaptLit. rewrite Hc. destruct (is_nil v) eqn:En; [done|]. destruct (Hs eq_refl) as [c' ->]. by destruct (is_nil lit). }
  assert (checkPred v op lit = (lit ← adaptLit (micros v) op (micros lit); Ok (match compareVals (micros v) lit with Some c => tri_of (holds op c) | None => triUnknown end))) as ->.
  { repeat (apply elem_of_cons in Ho as [->|Ho]; [done|]). by apply elem_of_nil in Ho. }
  rewrite Hv, Hl, Ha. cbn [mbind outcome_bind]. by rewrite Hc.
Qed.
Lemma conj_row cond b ops o q n row : lits_ok -> (forall op, op ∈ ops -> op ∈ [OpEQ; OpGT; OpGE; OpLT; OpLE]) -> binds_ok b -> q ∈ dom b -> conj b ops o q ->
  pushed d o (pVal (h q)) n -> row_ok d row -> evalPreds h b cond e row = Ok triTrue ->
  is_nil (val_at row o) = false /\ holds (pOp (h q)) (CompOpp (valueCompare n (val_at row o))) = true.
Proof.
  intros Hl Hops Hb Hd [H1 H2 H3 H4 H5] Hp Hr He. apply (conjunct_holds _ _ e q) in He; [|done].
  destruct (proj1 (elem_of_dom b q) Hd) as [bd Hbd]. assert (bound b q = bd) as Ebd by exact (f_equal (default (mkBinding 0 (Some 0%nat))) Hbd).
  rewrite Ebd in H2. cbv beta zeta in He. rewrite Ebd, (Hb q bd Hbd H3) in He. cbn [mbind outcome_bind] in He.
  destruct (pushed_row d o _ n row Hp Hr) as (Hv & _ & Hcv & _ & Hcmp). rewrite H2 in He. unfold at_index in He. rewrite Hv in He. cbn [mbind outcome_bind] in He.
  assert (micros (pVal (h q)) = pVal (h q)) as Hml by (destruct Hp as (c & _ & _ & Hf & _); by destruct (colType c), (pVal (h q)) as [| |[]| | | | | | | |]).
  assert (micros (val_at row o) = val_at row o) as Hmv by (by destruct (val_at row o)).
  rewrite (checkPred_pushed _ _ _ _ (Hops _ H5) Hmv Hml Hcmp) in He; [|by destruct (is_nil _)|by destruct (is_nil _)].
  destruct (is_nil _); [done|]. split; [done|]. by destruct (holds _ _).
Qed.

(** *** The shape of the chosen scan *)

Lemma eqPreds_cols cols eq : (eqPreds cols eq).*1 = take (length (eqPreds cols eq)) cols /\ Forall (λ q, eq !! q.1 = Some q.2) (eqPreds cols eq).
Proof.
  induction cols as [|c cols [IH1 IH2]]; [done|]. cbn. destruct (eq !! c) as [q|] eqn:Eq; [|done]. cbn. split; [by f_equal|by constructor].
Qed.
Lemma eqPreds_prefix cols eq : length (eqPreds cols eq) = eqPrefix cols eq.
Proof. induction cols as [|c cols IH]; [done|]. cbn. destruct (eq !! c); cbn; congruence. Qed.

Lemma choose_keys {A B : Type} (P : A -> B -> Prop) l : Forall (λ x, exists y, P x y) l -> exists ys, Forall2 P l ys.
Proof. induction 1 as [|x l [y Hy] _ [ys IH]]; [by exists []|]. exists (y :: ys). by constructor. Qed.
Lemma choose_key {A B : Type} (P : A -> B -> Prop) (o : option A) : (forall x, o = Some x -> exists y, P x y) ->
  exists r : option (A * B), fst <$> r = o /\ forall x y, r = Some (x, y) -> P x y.
Proof. intros H. destruct o as [x|]; [|by exists None]. destruct (H x eq_refl) as [y Hy]. exists (Some (x, y)). split; [done|]. by intros ? ? [= <- <-]. Qed.

Definition eqLits (eqs : list (nat * nat)) : list (nat * any) := (λ q, (q.1, pVal (h q.2))) <$> eqs.
Definition startOf (u : usable) (desc : bool) (c : nat) : option nat := if desc then uHi u !! c else uLo u !! c.
Definition endOf (u : usable) (desc : bool) (c : nat) : option nat := if desc then uLo u !! c else uHi u !! c.
Definition endIncl (desc : bool) (q : nat) : bool := bool_decide (pOp (h q) = if desc then OpGE else OpLE).
Lemma rangeBounds_ends u desc c : (rangeBounds h u desc c).1 =
  ((λ q, pVal (h q)) <$> optl (startOf u desc c), (λ q, mkStop c (endKind desc (endIncl desc q)) (pVal (h q))) <$> optl (endOf u desc c)).
Proof.
  unfold rangeBounds, startOf, endOf, endIncl, endKind. destruct desc, (uLo u !! c), (uHi u !! c); cbn; try done; by case_bool_decide.
Qed.

Definition shapeOf (idx : option IndexDesc) (u : usable) (keys : list any) (st en : option (nat * any)) : shape :=
  let eqs := eqPreds (pathCols d idx) (uEq u) in
  mkShape (eqLits eqs) keys ((λ q, (pVal (h q.1), q.2)) <$> st) ((λ q, (pVal (h q.1), q.2, endIncl (pathDir idx (length eqs)) q.1)) <$> en).

Lemma start_ops b u desc c q : usable_ok b u -> startOf u desc c = Some q -> conj b (if desc then [OpLT; OpLE] else [OpGT; OpGE]) c q.
Proof. intros [_ H2 H3]. unfold startOf. destruct desc; intros H; [by apply H3|by apply H2]. Qed.
Lemma end_ops b u desc c q : usable_ok b u -> endOf u desc c = Some q -> conj b (if negb desc then [OpLT; OpLE] else [OpGT; OpGE]) c q.
Proof. intros [_ H2 H3]. unfold endOf. destruct desc; intros H; [by apply H2|by apply H3]. Qed.

(** The bounds the planner writes are those of a shape. *)
Definition bounds_of (idx : option IndexDesc) (u : usable) : list any * list stop :=
  let k := length (eqPreds (pathCols d idx) (uEq u)) in
  match pathCols d idx !! k with Some c => (rangeBounds h u (pathDir idx k) c).1 | None => ([], []) end.
Lemma planned_shape b idx u : lits_ok -> usable_ok b u -> exists keys st en,
  let eqs := eqPreds (pathCols d idx) (uEq u) in
  let desc := pathDir idx (length eqs) in
  let s := shapeOf idx u keys st en in
  shape_ok d idx s /\
  shFrom s = ((λ q, pVal (h q.2)) <$> eqs) ++ (bounds_of idx u).1 /\
  shStops d idx s = ((λ q, mkStop q.1 stopNE (pVal (h q.2))) <$> eqs) ++ (bounds_of idx u).2 /\
  (forall q n, st = Some (q, n) -> conj b (if desc then [OpLT; OpLE] else [OpGT; OpGE]) (shCol d idx s) q /\ pushed d (shCol d idx s) (pVal (h q)) n) /\
  (forall q n, en = Some (q, n) -> conj b (if negb desc then [OpLT; OpLE] else [OpGT; OpGE]) (shCol d idx s) q /\ pushed d (shCol d idx s) (pVal (h q)) n).
Proof.
  intros Hl Hu. set (eqs := eqPreds (pathCols d idx) (uEq u)). set (desc := pathDir idx (length eqs)). destruct (eqPreds_cols (pathCols d idx) (uEq u)) as [Hc1 Hc2]. fold eqs in Hc1, Hc2.
  destruct (choose_keys (λ q n, pushed d q.1 q.2 n) (eqLits eqs)) as [keys Hk].
  { apply Forall_fmap. eapply Forall_impl; [exact Hc2|]. intros [o q] Hq. cbn in *. eapply conj_pushed; [done|]. by apply (us_eq _ _ Hu). }
  set (col := default 0%nat (pathCols d idx !! length eqs)).
  set (has := λ o : option nat, match pathCols d idx !! length eqs with Some _ => o | None => None end).
  destruct (choose_key (λ q n, pushed d col (pVal (h q)) n) (has (startOf u desc col))) as (st & Hst & Hst').
  { intros q Hq. unfold has in Hq. destruct (pathCols d idx !! length eqs); [|done]. eapply conj_pushed; [done|by apply (start_ops b) in Hq]. }
  destruct (choose_key (λ q n, pushed d col (pVal (h q)) n) (has (endOf u desc col))) as (en & Hen & Hen').
  { intros q Hq. unfold has in Hq. destruct (pathCols d idx !! length eqs); [|done]. eapply conj_pushed; [done|by apply (end_ops b) in Hq]. }
  exists keys, st, en. cbv zeta. set (s := shapeOf idx u keys st en).
  assert (length (shEqs s) = length eqs) as Hlen by apply length_fmap.
  assert (shCol d idx s = col) as Hcol by (unfold shCol; by rewrite Hlen).
  assert (shDesc idx s = desc) as Hdesc by (unfold shDesc; by rewrite Hlen).
  assert (forall (o : option (nat * any)) q, fst <$> o = has q -> is_Some o -> is_Some (pathCols d idx !! length eqs)) as Hhas.
  { intros [x|] q Ho; [|by intros []]. intros _. unfold has in Ho. by destruct (pathCols d idx !! length eqs). }
  assert (bounds_of idx u = ((λ q, pVal (h q)) <$> optl (fst <$> st), (λ q, mkStop col (endKind desc (endIncl desc q)) (pVal (h q))) <$> optl (fst <$> en))) as Hb.
  { unfold bounds_of. fold eqs. fold desc. rewrite Hst, Hen. unfold has, col. destruct (pathCols d idx !! length eqs); [apply rangeBounds_ends|done]. }
  split_and!.
  - split.
    + rewrite Hlen, <- Hc1. unfold s, shapeOf, eqLits. cbn [shEqs]. by rewrite <- list_fmap_compose.
    + exact Hk.
    + rewrite Hlen. intros H. apply lookup_lt_is_Some. destruct H as [H|H]; [apply (Hhas st (startOf u desc col) Hst)|apply (Hhas en (endOf u desc col) Hen)];
        [by destruct st; [|destruct H]|by destruct en; [|destruct H]].
    + rewrite Hcol. intros lit n H. cbn in H. destruct st as [[q n']|]; [|done]. injection H as <- <-. by apply Hst'.
    + rewrite Hcol. intros lit n incl H. cbn in H. destruct en as [[q n']|]; [|done]. injection H as <- <- <-. by apply Hen'.
  - rewrite Hb. unfold shFrom. f_equal; [unfold s, shapeOf, eqLits; cbn [shEqs]; by rewrite <- list_fmap_compose|]. by destruct st as [[]|].
  - rewrite Hb. unfold shStops. f_equal; [unfold s, shapeOf, eqLits; cbn [shEqs]; by rewrite <- list_fmap_compose|].
    unfold endStop. rewrite Hcol, Hdesc. by destruct en as [[]|].
  - rewrite Hcol. intros q n ->. split; [|by apply Hst']. apply (start_ops b u); [done|]. cbn in Hst. unfold has in Hst. by destruct (pathCols d idx !! length eqs).
  - rewrite Hcol. intros q n ->. split; [|by apply Hen']. apply (end_ops b u); [done|]. cbn in Hen. unfold has in Hen. by destruct (pathCols d idx !! length eqs).
Qed.

(** The rows the filter lets through are within the pushed bounds. *)
Lemma eqCmp_all idx s row : (shEqs s).*1 = take (length (shEqs s)) (pathCols d idx) ->
  Forall2 (λ q n, valueCompare n (val_at row q.1) = Eq) (shEqs s) (shEqKeys s) -> eqCmp idx s (pathKey d idx row) = Eq.
Proof.
  unfold eqCmp, pathKey. generalize (shEqs s) (shEqKeys s) (pathCols d idx) 0%nat. intros eqs ns cols i Hc He.
  revert cols i Hc. induction He as [|[o lit] n eqs ns Hq _ IH]; intros cols i Hc; [done|].
  destruct cols as [|c cols]; [done|]. injection Hc as -> Hc. cbn in Hq |- *. rewrite Hq. rewrite (proj2 (directed_eq _ _) eq_refl). by apply IH.
Qed.
Lemma in_eq_ops op : op ∈ [OpEQ] -> op ∈ [OpEQ; OpGT; OpGE; OpLT; OpLE].
Proof. set_solver. Qed.
Lemma in_range_ops (desc : bool) op : op ∈ (if desc then [OpLT; OpLE] else [OpGT; OpGE]) -> op ∈ [OpEQ; OpGT; OpGE; OpLT; OpLE].
Proof. destruct desc; set_solver. Qed.
Lemma planned_covers cond b idx u keys st en row (s := shapeOf idx u keys st en) : lits_ok -> usable_ok b u -> binds_ok b -> (forall q, q ∈ conjuncts e -> q ∈ dom b) ->
  shape_ok d idx s ->
  (forall q n, st = Some (q, n) -> conj b (if shDesc idx s then [OpLT; OpLE] else [OpGT; OpGE]) (shCol d idx s) q /\ pushed d (shCol d idx s) (pVal (h q)) n) ->
  (forall q n, en = Some (q, n) -> conj b (if negb (shDesc idx s) then [OpLT; OpLE] else [OpGT; OpGE]) (shCol d idx s) q /\ pushed d (shCol d idx s) (pVal (h q)) n) ->
  row_ok d row -> evalPreds h b cond e row = Ok triTrue ->
  eqCmp idx s (pathKey d idx row) = Eq /\ startCmp d idx s row <> Gt /\ (is_Some (shEnd s) -> past d idx s row = false).
Proof.
  intros Hl Hu Hb Hdom Hs Hst Hen Hr He.
  assert (forall ops o q n, (forall op, op ∈ ops -> op ∈ [OpEQ; OpGT; OpGE; OpLT; OpLE]) -> conj b ops o q -> pushed d o (pVal (h q)) n ->
    pOp (h q) ∈ ops /\ holds (pOp (h q)) (CompOpp (valueCompare n (val_at row o))) = true) as Hcj.
  { intros ops o q n Hops Hq Hp. split; [apply Hq|]. apply (conj_row cond b ops o q n row); try done. apply Hdom, Hq. }
  split_and!.
  - apply eqCmp_all; [apply Hs|]. pose proof (sh_eqs d idx s Hs) as Hk. cbn [s shapeOf shEqs shEqKeys] in Hk |- *.
    destruct (eqPreds_cols (pathCols d idx) (uEq u)) as [_ Hc]. unfold eqLits in *. apply Forall2_fmap_l in Hk. apply Forall2_fmap_l.
    revert Hc Hk. generalize (eqPreds (pathCols d idx) (uEq u)). intros eqs Hc Hk. clear s Hs Hst Hen. induction Hk as [|q n eqs keys Hp _ IH]; [constructor|].
    apply Forall_cons in Hc as [Hq Hc]. constructor; [|by apply IH]. cbn in Hp |- *.
    destruct (Hcj [OpEQ] q.1 q.2 n in_eq_ops (us_eq _ _ Hu _ _ Hq) Hp) as [->%list_elem_of_singleton Hh]. by destruct (valueCompare n _).
  - unfold startCmp, nextCmp. cbn [s shapeOf shStart]. destruct st as [[q n]|]; [|done]. cbn [fmap option_fmap option_map fst snd].
    destruct (Hst q n eq_refl) as [Hq Hp]. fold s. destruct (Hcj _ _ q n (in_range_ops _) Hq Hp) as [Ho Hh].
    revert Ho Hh. destruct (shDesc idx s), (valueCompare n _); cbn; try done; rewrite ?elem_of_cons, ?elem_of_nil; by intros [->|[->|[]]].
  - unfold past, endCmp, shIncl, nextCmp. cbn [s shapeOf shEnd]. destruct en as [[q n]|]; [|by intros []]. intros _. cbn [fmap option_fmap option_map fst snd].
    destruct (Hen q n eq_refl) as [Hq Hp]. fold s. destruct (Hcj _ _ q n (in_range_ops _) Hq Hp) as [Ho Hh].
    assert (length (shEqs s) = length (eqPreds (pathCols d idx) (uEq u))) as Hlen by apply length_fmap. unfold endIncl. rewrite <- Hlen. fold (shDesc idx s).
    revert Ho Hh. destruct (shDesc idx s), (valueCompare n _); cbn; try done; rewrite ?elem_of_cons, ?elem_of_nil; by intros [->|[->|[]]].
Qed.
End planner.
