(* ===== verification/SqlPlanned.v ===== *)
(** * The planner's theorems

    Whatever access path [planScanOrdered] and [chooseOrderedPlan] pick, the
    scan finds the rows the condition lets through, in the ORDER BY order
    when the planner says the sort can be skipped. *)
From S2P Require Import Prelude GoVal GoStr Tuple KV Savepoint Json Jsonb Types Catalog Desc Rows Index Table Seq Upkeep Dml Relation Engine Store MemDB Database SqlVal Txn TxnOk Run WriteTxn SqlPlan SqlPlanOk.

Local Open Scope Z_scope.

(** ** The order of the result *)

(** The comparator of [sortOffsetProject]. *)
Fixpoint keysCmp (keys : list sortKey) (a b : list any) : outcome comparison :=
  match keys with
  | [] => Ok Eq
  | k :: keys' =>
      va ← at_index a (skOrd k);
      vb ← at_index b (skOrd k);
      match directed (skDesc k) (orderCmp va vb) with
      | Eq => keysCmp keys' a b
      | c => Ok c
      end
  end.
Definition key_le (keys : list sortKey) (a b : list any) : Prop := exists c, keysCmp keys a b = Ok c /\ c <> Gt.

Lemma compare_stored t a b : stored_as t a -> stored_as t b -> is_nil a = false -> is_nil b = false -> compareVals a b = Some (valueCompare a b).
Proof.
  intros [Ca Ta] [Cb Tb] Na Nb. specialize (Ta Na). specialize (Tb Nb).
  destruct t, a as [|ab|[] az| |af|as_|as_| | | |]; try done; destruct b as [|bb|[] bz| |bf|bs|bs| | | |]; try done; cbn [compareVals].
  all: try (by rewrite valueCompare_int). all: try (unfold valueCompare, compareValues, normalize_or_panic; cbn; done).
  - by destruct ab, bb.
  - rewrite valueCompare_float by done. unfold cmpFloat. destruct Ca as (_ & -> & _), Cb as (_ & -> & _). done.
Qed.
Lemma orderCmp_stored t a b : stored_as t a -> stored_as t b -> is_nil a = false -> is_nil b = false -> orderCmp a b = valueCompare a b.
Proof. intros Ha Hb Na Nb. unfold orderCmp. by rewrite Na, Nb, (compare_stored t a b). Qed.
Lemma orderCmp_same t a : stored_as t a -> orderCmp a a = Eq.
Proof.
  intros Ha. destruct (is_nil a) eqn:En; [unfold orderCmp; by rewrite En|]. rewrite (orderCmp_stored t) by done. apply valueCompare_eq; apply Ha || done.
Qed.

Section order.
Context (d : TableDesc).

Lemma nonNull_row o row : row_ok d row -> (o < length (tColumns d))%nat -> nonNull d o = true -> is_nil (val_at row o) = false.
Proof.
  intros Hr Ho Hn. destruct (lookup_lt_is_Some_2 _ _ Ho) as [c Hc]. destruct (row_stored d row o c Hr Hc) as [Hv _].
  destruct Hr as [[_ Hcell] _]. specialize (Hcell o c _ Hc Hv). unfold cell_ok in Hcell. destruct (is_nil (val_at row o)); [|done].
  destruct Hcell as (H1 & H2 & _). unfold nonNull in Hn. rewrite Hc in Hn. cbn in Hn. unfold isPK in H1. apply bool_decide_eq_false in H1.
  rewrite bool_decide_false in Hn by done. by rewrite H2 in Hn.
Qed.

(** Rows that agree on the pinned columns and go up (down, in reverse) along
    the path go up by the keys. *)
Definition agree (pinned : list nat) (a b : list any) : Prop := forall o, o ∈ pinned -> val_at a o = val_at b o.
Definition in_columns (l : list nat) : Prop := Forall (λ o, o < length (tColumns d))%nat l.
Definition along (rev : bool) (dir : nat -> bool) (ki : nat) (cols : list nat) (a b : list any) : Prop :=
  if rev then prefixCompare dir ki (val_at b <$> cols) (val_at a <$> cols) <> Gt else prefixCompare dir ki (val_at a <$> cols) (val_at b <$> cols) <> Gt.

Lemma val_canon row o : row_ok d row -> canon (val_at row o).
Proof. intros [_ H]. unfold val_at. destruct (row !! o) eqn:Eo; [by eapply Forall_lookup_1|done]. Qed.
(** The step of a path comparison at one column, seen by a key on it. *)
Lemma along_cons rev dir ki c cols a b : row_ok d a -> row_ok d b -> along rev dir ki (c :: cols) a b ->
  let s := directed (xorb rev (dir ki)) (valueCompare (val_at a c) (val_at b c)) in
  s = Lt \/ val_at a c = val_at b c /\ along rev dir (S ki) cols a b.
Proof.
  intros Ha Hb H. pose proof (val_canon a c Ha) as Ca. pose proof (val_canon b c Hb) as Cb. cbv zeta.
  destruct (decide (val_at a c = val_at b c)) as [Heq|Hne].
  - right. split; [done|]. unfold along in *. cbn [fmap list_fmap prefixCompare] in H. rewrite Heq in H.
    rewrite (proj2 (valueCompare_eq _ _ Cb Cb) eq_refl), (proj2 (directed_eq _ _) eq_refl) in H. done.
  - left. pose proof (proj1 (valueCompare_eq _ _ Ca Cb)) as Hv. unfold along in H. destruct rev; cbn [fmap list_fmap prefixCompare] in H.
    + rewrite (valueCompare_antisym (val_at a c) (val_at b c)) in H by done. by destruct (dir ki), (valueCompare (val_at a c) (val_at b c)); cbn in *; try done; exfalso; auto.
    + by destruct (dir ki), (valueCompare (val_at a c) (val_at b c)); cbn in *; try done; exfalso; auto.
Qed.
Lemma skipPinned_along rev dir pinned cols ki cols' ki' a b : row_ok d a -> row_ok d b -> agree pinned a b -> skipPinned pinned cols ki = (cols', ki') ->
  along rev dir ki cols a b -> along rev dir ki' cols' a b /\ (in_columns cols -> in_columns cols').
Proof.
  intros Ha Hb Hp. revert ki. induction cols as [|c cols IH]; intros ki; cbn; [by intros [= <- <-]|].
  case_bool_decide as Hc; [|by intros [= <- <-]]. intros Hs Hal. apply along_cons in Hal; [|done..].
  assert (along rev dir (S ki) cols a b) as Hal'.
  { destruct Hal as [Hlt|[_ ?]]; [|done]. rewrite (Hp c Hc) in Hlt. pose proof (val_canon b c Hb) as Cb.
    by rewrite (proj2 (valueCompare_eq _ _ Cb Cb) eq_refl), (proj2 (directed_eq _ _) eq_refl) in Hlt. }
  destruct (IH (S ki) Hs Hal') as [H1 H2]. split; [done|]. intros Hin. apply H2. by inversion Hin.
Qed.
Lemma key_step k keys a b c : row_ok d a -> row_ok d b -> tColumns d !! skOrd k = Some c ->
  keysCmp (k :: keys) a b = match directed (skDesc k) (orderCmp (val_at a (skOrd k)) (val_at b (skOrd k))) with Eq => keysCmp keys a b | c => Ok c end.
Proof.
  intros Ha Hb Hc. cbn. unfold at_index. by rewrite (proj1 (row_stored d a _ c Ha Hc)), (proj1 (row_stored d b _ c Hb Hc)).
Qed.
Lemma tryOrder_sorted dir pinned rev keys cols ki a b : row_ok d a -> row_ok d b -> agree pinned a b -> in_columns pinned -> in_columns cols ->
  tryOrder d dir pinned rev keys cols ki = true -> along rev dir ki cols a b -> key_le keys a b.
Proof.
  intros Ha Hb Hp Hip. revert cols ki. induction keys as [|k keys IH]; intros cols ki Hic; cbn [tryOrder]; [by exists Eq|].
  case_bool_decide as Hk.
  - intros Ht Hal. assert (skOrd k < length (tColumns d))%nat as Ho by (by eapply (proj1 (Forall_forall _ _) Hip)).
    destruct (lookup_lt_is_Some_2 _ _ Ho) as [c Hc]. unfold key_le. rewrite (key_step k keys a b c) by done. rewrite (Hp _ Hk).
    rewrite (orderCmp_same (colType c)) by (by apply (row_stored d b)). rewrite (proj2 (directed_eq _ _) eq_refl). by eapply IH.
  - destruct (skipPinned pinned cols ki) as [cols' ki'] eqn:Es. destruct cols' as [|o cols']; [done|]. case_bool_decide as Hok; [done|]. cbn [orb].
    destruct (nonNull d (skOrd k)) eqn:En; [|done]. cbn [negb]. destruct (Bool.eqb _ _) eqn:Eb; [done|]. intros Ht Hal.
    destruct (skipPinned_along rev dir pinned cols ki _ _ a b Ha Hb Hp Es Hal) as [Hal' Hin]. specialize (Hin Hic).
    subst o. apply Forall_cons in Hin as [Ho Hin].
    destruct (lookup_lt_is_Some_2 _ _ Ho) as [c Hc]. unfold key_le. rewrite (key_step k keys a b c) by done.
    rewrite (orderCmp_stored (colType c)) by (by apply (row_stored d) || by apply nonNull_row).
    apply along_cons in Hal'; [|done..]. apply eqb_false_iff in Eb.
    assert (skDesc k = xorb rev (dir ki')) as -> by (by destruct (skDesc k), rev, (dir ki')).
    destruct Hal' as [Hlt|[Heq Hal']]; [rewrite Hlt; by exists Lt|]. rewrite Heq.
    pose proof (val_canon b (skOrd k) Hb) as Cb. rewrite (proj2 (valueCompare_eq _ _ Cb Cb) eq_refl), (proj2 (directed_eq _ _) eq_refl). by eapply IH.
Qed.
End order.

(** ** The plan has a shape *)

Lemma eqCmp_inv d idx s row : shape_ok d idx s -> row_ok d row -> eqCmp idx s (pathKey d idx row) = Eq ->
  Forall2 (λ q n, val_at row q.1 = n) (shEqs s) (shEqKeys s).
Proof.
  intros Hs Hr. pose proof (sh_cols d idx s Hs) as Hc. pose proof (sh_eqs d idx s Hs) as He. unfold eqCmp, pathKey. revert Hc He.
  generalize (shEqs s) (shEqKeys s) (pathCols d idx) 0%nat. intros eqs ns cols i Hc He.
  revert cols i Hc. induction He as [|[o lit] n eqs ns Hp _ IH]; intros cols i Hc; [constructor|].
  destruct cols as [|c cols]; [done|]. injection Hc as -> Hc. cbn [fmap list_fmap prefixCompare]. destruct (pushed_row _ _ _ _ _ Hp Hr) as (_ & Hn & Hv & _).
  destruct (directed (pathDir idx i) (valueCompare n (val_at row c))) eqn:Ed; [|done..]. intros H. constructor; [|by eapply IH].
  cbn. by apply directed_eq, valueCompare_eq in Ed as ->.
Qed.
Lemma shape_agree d idx s a b : shape_ok d idx s -> row_ok d a -> row_ok d b -> eqCmp idx s (pathKey d idx a) = Eq -> eqCmp idx s (pathKey d idx b) = Eq ->
  agree (shEqs s).*1 a b.
Proof.
  intros Hs Ha Hb Ea%eqCmp_inv Eb%eqCmp_inv; [|done..]. intros o (q & -> & Hq)%list_elem_of_fmap. apply list_elem_of_lookup in Hq as [i Hi].
  destruct (Forall2_lookup_l _ _ _ _ _ Ea Hi) as (n & Hn & ->). destruct (Forall2_lookup_l _ _ _ _ _ Eb Hi) as (n' & Hn' & ->). congruence.
Qed.
Lemma pinned_shape d idx s : pinnedBy (shStops d idx s) = (shEqs s).*1.
Proof.
  unfold pinnedBy, shStops. rewrite filter_app, fmap_app. rewrite <- (app_nil_r ((shEqs s).*1)). f_equal.
  - induction (shEqs s) as [|q eqs IH]; [done|]. cbn [fmap list_fmap]. rewrite filter_cons_True by done. cbn [fmap list_fmap]. by f_equal.
  - destruct (shEnd s) as [[[lit n] incl]|]; [|done]. cbn. unfold endStop, endKind. by destruct (shDesc idx s), incl.
Qed.
Lemma shape_pinned d idx s : shape_ok d idx s -> in_columns d (shEqs s).*1.
Proof.
  intros [_ He _ _ _]. induction He as [|q n eqs ns (c & Hc & _) _ IH]; constructor; [by eapply lookup_lt_Some|done].
Qed.

Section planned.
Context {C : Type} {re : Regexp}.
Context (d : TableDesc) (alias : bytes) (h : heap) (w : BoolExpr C) (cond : C -> list any -> outcome tri).
Context (Hwf : desc_wf d) (Hnames : Forall (λ x, ixName x <> []) (tIndexes d)) (Hlits : lits_ok h w).

Lemma Index_name x : x ∈ tIndexes d -> ixName x <> [] /\ Index d (ixName x) = Some x.
Proof.
  intros Hx. split; [by apply (proj1 (Forall_forall _ _) Hnames)|]. apply list_elem_of_lookup in Hx as [i Hi]. unfold Index.
  by rewrite (list_find_NoDup ixName _ i x) by (done || apply Hwf).
Qed.
Lemma path_columns idx : path_ok d idx -> in_columns d (pathCols d idx).
Proof.
  destruct idx as [x|]; intros Hx; [|apply Hwf]. cbn. by apply (proj1 (Forall_forall _ _) (wf_ixCols d Hwf)).
Qed.

(** A scan of a path with no bounds. *)
Definition noShape : shape := mkShape [] [] None None.
Lemma noShape_ok idx : shape_ok d idx noShape.
Proof. split; [by rewrite take_0|constructor|by intros [[]|[]]|done|done]. Qed.
Lemma full_path (p : plan C) idx : path_ok d idx -> plGet p = None -> plIndex p = match idx with Some x => ixName x | None => [] end ->
  plFrom p = [] -> plStops p = [] -> path_plan h p cond d idx noShape.
Proof.
  intros Hp H1 H2 H3 H4. split; [done|done| |apply noShape_ok|done|done|].
  - destruct idx as [x|]; [|done]. rewrite H2. by apply Index_name.
  - intros row _ _. split_and!; [done..|]. by intros [].
Qed.

Lemma bestPath_ok u keys : path_ok d (bIdx (bestPath d u keys)).
Proof.
  assert (forall ixs b, Forall (λ x, x ∈ tIndexes d) ixs -> path_ok d (bIdx b) -> path_ok d (bIdx (foldl (better d u keys) b ixs))) as H.
  { intros ixs b Hall. revert b. induction Hall as [|x ixs Hx _ IH]; intros b Hb; [done|]. apply IH. unfold better. by destruct (_ || _). }
  apply H; [by apply Forall_forall|done].
Qed.

(** What the planner returns: a point read, or a scan of a path whose
    columns pinned by equality are those of the stops. *)
Lemma planScanOrdered_ok keys p : planScanOrdered d alias h w keys = Ok p ->
  plFilter p = w /\ plReverse p = false /\ walkPreds (bindIn d alias h) w ∅ = Ok (plBinds p) /\
  ((exists s, get_plan h p cond d s) \/ exists idx s, path_plan h p cond d idx s).
Proof.
  unfold planScanOrdered. intros (b & Hb & (u & Hu & H)%outcome_bind_ok)%outcome_bind_ok.
  destruct (walk_binds d alias h w ∅ b Hb) as (Hbo & _ & Hdom); [by intros q bd|].
  assert (usable_ok d h w b u) as Huo.
  { apply (classify_ok d h w b (mkUsable ∅ ∅ ∅) u (conjuncts w)); [by apply Forall_forall|split; apply map_Forall_empty|exact Hu]. }
  assert (forall idx, exists s, shape_ok d idx s /\ (shEqs s).*2 = (λ q, pVal (h q.2)) <$> eqPreds (pathCols d idx) (uEq u) /\ length (shEqs s) = length (eqPreds (pathCols d idx) (uEq u)) /\
    shFrom s = ((λ q, pVal (h q.2)) <$> eqPreds (pathCols d idx) (uEq u)) ++ (bounds_of d h idx u).1 /\
    shStops d idx s = ((λ q, mkStop q.1 stopNE (pVal (h q.2))) <$> eqPreds (pathCols d idx) (uEq u)) ++ (bounds_of d h idx u).2 /\
    forall row, row_ok d row -> evalPreds h b cond w row = Ok triTrue ->
      eqCmp idx s (pathKey d idx row) = Eq /\ startCmp d idx s row <> Gt /\ (is_Some (shEnd s) -> past d idx s row = false)) as Hshape.
  { intros idx. destruct (planned_shape d h w b idx u Hlits Huo) as (ks & st & en & H1 & H2 & H3 & H4 & H5). eexists. split; [exact H1|].
    assert (length (shEqs (shapeOf d h idx u ks st en)) = length (eqPreds (pathCols d idx) (uEq u))) as Hlen by apply length_fmap.
    split_and!; [unfold shapeOf, eqLits; cbn [shEqs]; by rewrite <- list_fmap_compose|done|done|done|].
    intros row Hr He. apply (planned_covers d h w cond b idx u ks st en row); try done; unfold shDesc; by rewrite Hlen. }
  revert H. case_bool_decide as Hfull.
  - intros [= <-]. split_and!; [done..|]. left. destruct (Hshape None) as (s & H1 & H2 & H3 & _ & _ & H6). exists s. split; [done|by rewrite H2| |].
    + rewrite H3. rewrite eqPreds_prefix. exact Hfull.
    + intros row Hr Hg. by apply H6.
  - cbv zeta. case_bool_decide as Hz.
    + intros [= <-]. split_and!; [done..|]. right. exists None, noShape. by apply full_path.
    + set (idx := bIdx (bestPath d u keys)). destruct (Hshape idx) as (s & H1 & _ & _ & H4 & H5 & H6).
      set (k := length (eqPreds (pathCols d idx) (uEq u))).
      assert (exists pushed, (match pathCols d idx !! k with Some c => rangeBounds h u (pathDir idx k) c | None => ([], [], []) end) = (bounds_of d h idx u, pushed)) as [pushed Er].
      { unfold bounds_of. fold k. destruct (pathCols d idx !! k); [|by eexists]. eexists. apply surjective_pairing. }
      rewrite Er. destruct (bounds_of d h idx u) as [from stops]. intros [= <-]. cbn [fst snd] in H4, H5. split_and!; [done..|]. right. exists idx, s.
      split; [apply bestPath_ok|done| |done|by rewrite H4|by rewrite H5|exact H6].
      pose proof (bestPath_ok u keys) as Hp. fold idx in Hp. cbn [plIndex]. destruct idx as [x|]; [|done]. by apply Index_name.
Qed.

Lemma reversed_path rev p idx s : path_plan h p cond d idx s -> path_plan h (reversed rev p) cond d idx s.
Proof. by intros [H1 H2 H3 H4 H5 H6 H7]. Qed.
Lemma orderSatisfied_path p idx s keys rev : path_plan h p cond d idx s -> orderSatisfied p d keys = Some rev -> pathOrder d idx (shEqs s).*1 keys = Some rev.
Proof.
  intros [H1 H2 H3 H4 H5 H6 H7]. unfold orderSatisfied. rewrite H2, H6, pinned_shape. destruct idx as [x|]; [|by rewrite H3].
  destruct H3 as [Hne Hx]. destruct (plIndex p); [done|]. by rewrite Hx.
Qed.
Lemma orderedIndex_ok p keys ixs cand : Forall (λ x, x ∈ tIndexes d) ixs -> orderedIndex d p keys ixs = Some cand ->
  plFilter cand = plFilter p /\ plBinds cand = plBinds p /\
  exists idx, path_plan h cand cond d idx noShape /\ pathOrder d idx [] keys = Some (plReverse cand).
Proof.
  induction 1 as [|x ixs Hx _ IH]; [done|]. cbn [orderedIndex]. set (c := mkPlan _ d None (ixName x) [] [] false _ _ _).
  destruct (orderSatisfied c d keys) as [rev|] eqn:Eo; [|done]. intros [= <-]. split_and!; [done..|]. exists (Some x).
  assert (path_plan h c cond d (Some x) noShape) as Hc by (by apply full_path).
  split; [by apply reversed_path|]. by apply (orderSatisfied_path c (Some x) noShape).
Qed.
Lemma chooseOrderedPlan_ok keys limited p elim : chooseOrderedPlan d alias h w keys limited = Ok (p, elim) ->
  plFilter p = w /\ walkPreds (bindIn d alias h) w ∅ = Ok (plBinds p) /\
  ((elim = false /\ exists s, get_plan h p cond d s) \/
   exists idx s, path_plan h p cond d idx s /\ (elim = true -> pathOrder d idx (shEqs s).*1 keys = Some (plReverse p))).
Proof.
  unfold chooseOrderedPlan. intros (p0 & Hp0 & H)%outcome_bind_ok. destruct (planScanOrdered_ok keys p0 Hp0) as (H1 & H2 & H3 & H4).
  assert (Ok (p0, false) = Ok (p, elim) -> plFilter p = w /\ walkPreds (bindIn d alias h) w ∅ = Ok (plBinds p) /\
    ((elim = false /\ exists s, get_plan h p cond d s) \/ exists idx s, path_plan h p cond d idx s /\ (elim = true -> pathOrder d idx (shEqs s).*1 keys = Some (plReverse p)))) as Hplain.
  { intros [= <- <-]. split_and!; [done..|]. destruct H4 as [?|(idx & s & ?)]; [by left|right]. by exists idx, s. }
  destruct keys as [|k keys]; [by apply Hplain|]. destruct (orderSatisfied p0 d (k :: keys)) as [rev|] eqn:Eo.
  - injection H as <- <-. split_and!; [done..|]. right. destruct H4 as [(s & [_ Hg _ _])|(idx & s & Hp)].
    + unfold orderSatisfied in Eo. by rewrite Hg in Eo.
    + exists idx, s. split; [by apply reversed_path|]. intros _. by apply (orderSatisfied_path p0).
  - destruct (_ || _); [by apply Hplain|]. destruct (orderedIndex d p0 (k :: keys) (tIndexes d)) as [cand|] eqn:Ei; [|by apply Hplain].
    injection H as <- <-. destruct (orderedIndex_ok p0 (k :: keys) (tIndexes d) cand) as (F1 & F2 & idx & F3 & F4); [by apply Forall_forall|done|].
    rewrite F1, F2. split_and!; [done..|]. right. by exists idx, noShape.
Qed.

(** The rows of a scan whose path serves the keys come in their order. *)
Lemma planned_sorted p idx s keys found : path_plan h p cond d idx s -> pathOrder d idx (shEqs s).*1 keys = Some (plReverse p) ->
  (forall row, row ∈ found -> row_ok d row /\ good h p cond row) -> StronglySorted (path_before p d idx) found -> StronglySorted (key_le keys) found.
Proof.
  intros Hp Ho Hok Hs. eapply sorted_weaken; [exact Hs|]. intros a b [Ha Ga]%Hok [Hb Gb]%Hok Hab.
  assert (tryOrder d (pathDir idx) (shEqs s).*1 (plReverse p) keys (pathCols d idx) 0 = true) as Ht.
  { unfold pathOrder in Ho. destruct (tryOrder d (pathDir idx) _ false _ _ _) eqn:E1; [by injection Ho as <-|].
    destruct (tryOrder d (pathDir idx) _ true _ _ _) eqn:E2; [by injection Ho as <-|done]. }
  eapply (tryOrder_sorted d); [done|done| |by apply (shape_pinned d idx), Hp|by apply path_columns, Hp|exact Ht|].
  - apply (shape_agree d idx s); [apply Hp|done|done|by apply (pp_covers _ _ _ _ _ _ Hp)|by apply (pp_covers _ _ _ _ _ _ Hp)].
  - exact Hab.
Qed.
End planned.

(** ** Planned scans are exact *)
Section exact.
Context {E : Type} {eng : EngineOps E} {eng_laws : EngineLaws E} {cs : CatState E} {cat_laws : CatLaws E} {te : TxnEngine E} {te_laws : TxnEngineLaws E}.
Context {tx sp : Type} {kv : KV tx} {kv_laws : KVLaws tx} {sv : KVSave tx sp} {sv_laws : KVSaveLaws tx sp} {sp_eq : EqDecision sp}.
Context {C : Type} {re : Regexp}.

(** Every path the planner picks is one of the two kinds of scan. *)
Lemma scan_exact r table d alias h (w : BoolExpr C) keys limited p elim ctx cond keep e (T : Txn tx sp) Tb :
  txn_ok r e T -> table_at (kv_map (xTx T)) table d -> abstracts d (kv_map (xTx T)) Tb ->
  Forall (λ x, ixName x <> []) (tIndexes d) -> lits_ok h w ->
  chooseOrderedPlan d alias h w keys limited = Ok (p, elim) ->
  let '(rows, o, s') := scanPlan h p ctx cond keep table (e, T) in
  (exists b found, walkPreds (bindIn d alias h) w ∅ = Ok b /\ NoDup found /\
    (forall row, row ∈ found <-> Tb !! pkOf d row = Some row /\ evalPreds h b cond w row = Ok triTrue) /\
    (elim = true -> StronglySorted (key_le keys) found) /\
    exists pre, rows = mkRow d <$> pre /\ pre `prefix_of` found /\
      match o with
      | Ok _ => pre = found \/ pre <> [] /\ keep (reverse rows) = false
      | Err er => (exists i, ctx i = Some er) \/ exists pk row, Tb !! pk = Some row /\ evalPreds h b cond w row = Err er
      | Panic q => exists pk row, Tb !! pk = Some row /\ evalPreds h b cond w row = Panic q
      end) /\
  goes r (e, T) s' /\ kv_map (xTx s'.2) = kv_map (xTx T).
Proof.
  intros Hok Hat Ha Hn Hl Hc. destruct (table_at_wf _ table d (vo_db _ _ (tk_view _ _ _ Hok)) Hat) as [_ [Hwf _ _ _ _ _ _ _]].
  destruct (chooseOrderedPlan_ok d alias h w cond Hwf Hn Hl keys limited p elim Hc) as (Hf & Hw & Hp).
  assert (forall row, Tb !! pkOf d row = Some row -> row_ok d row) as Hrow.
  { intros row HT. apply (abs_stored d _ Tb Ha) in HT. by eapply stored_ok. }
  destruct Hp as [(-> & s & Hg)|(idx & s & Hp & Ho)].
  - pose proof (scanPlan_get h p ctx cond keep d s r table e T Tb Hg Hok Hat Ha) as H.
    destruct (scanPlan h p ctx cond keep table (e, T)) as [[rows o] s']. destruct H as [(found & [H1 H2] & H3) H4]. split; [|done].
    exists (plBinds p), found. unfold good, evals, delivers, evals in *. rewrite Hf in *. by split_and!.
  - pose proof (scanPlan_path h p ctx cond keep d idx s r table e T Tb Hp Hok Hat Ha) as H.
    destruct (scanPlan h p ctx cond keep table (e, T)) as [[rows o] s']. destruct H as [(found & [H1 H2] & H3 & H4) H5]. split; [|done].
    exists (plBinds p), found. assert (elim = true -> StronglySorted (key_le keys) found) as Hs.
    { intros He. eapply planned_sorted; [done|exact Hp|by apply Ho| |exact H3]. intros row [HT Hgd]%H2. split; [by apply Hrow|done]. }
    unfold good, evals, delivers, evals in *. rewrite Hf in *. by split_and!.
Qed.

End exact.

(** ** An example *)

(** The table [p] of the example state, with its index on [name]. *)
Definition exP : TableDesc := match resolve (kv_map exTx) (go "p") with Ok (Some d) => d | _ => mkTable 0 0 [] [] [] [] [] [] 0 None end.
Lemma exP_at : table_at (kv_map exTx) (go "p") exP.
Proof. vm_compute. reflexivity. Qed.
(** [WHERE id >= 1 AND id < 9 ORDER BY id DESC]: a reverse scan of a range of the primary key. *)
Definition exHeap : heap := λ q, match q with
  | O => mkPred (mkColRef [] (go "id")) OpGE (AInt KInt64 1) None
  | _ => mkPred (mkColRef [] (go "id")) OpLT (AInt KInt64 9) None
  end.
Definition exWhere : BoolExpr False := BAnd [BPred 0; BPred 1].
Definition exNoRegexp : Regexp := {| regexp_Compile _ := None |}.
Definition exPlan : plan False := match chooseOrderedPlan exP (go "p") exHeap exWhere [mkSortKey 0 true] false with Ok (p, _) => p | _ => mkPlan _ exP None [] [] [] false exWhere ∅ [] end.
Lemma exPlan_chosen : chooseOrderedPlan exP (go "p") exHeap exWhere [mkSortKey 0 true] false = Ok (exPlan, true).
Proof. vm_compute. reflexivity. Qed.
Lemma exWhere_lits : lits_ok exHeap exWhere.
Proof. intros q. cbn. rewrite elem_of_cons, list_elem_of_singleton. intros [->| ->]; split; done. Qed.
Lemma exP_named : Forall (λ x, ixName x <> []) (tIndexes exP).
Proof. vm_compute. repeat constructor. done. Qed.
Definition exCond (c : False) (_ : list any) : outcome tri := match c with end.
Example exPlan_rows : let '(rows, o, _) := scanPlan (sp := nat) (re := exNoRegexp) exHeap exPlan (λ _, None) exCond (λ _, true) (go "p") (exState.1, newTxn exTx) in
  (rVals <$> rows, o) = ([[AInt KInt64 1; AString (go "a")]], Ok tt).
Proof. vm_compute. reflexivity. Qed.
Opaque exState.
