(* ===== verification/SqlFk.v ===== *)
(** * Foreign keys on row changes

    [sql/fk.go]: the checks a statement runs inside its own transaction. A
    child row's references are looked up after its write; a parent's former
    rows are checked at the end of the statement, after the rows that
    reference them through ON DELETE CASCADE have been deleted. Lookups go
    through the planner of [SqlPlan]. *)
From S2P Require Import Prelude GoVal GoStr KV Tuple Catalog Desc Rows Index Dml Engine Txn Fk SqlVal SqlPlan.

Local Open Scope Z_scope.

(** ** Columns and values *)

(** The referenced values of a parent row, [None] when one is NULL or a
    column is gone. *)
Fixpoint fkRefTuple (d : TableDesc) (refCols : list bytes) (vals : list any) : outcome (option (list any)) :=
  match refCols with
  | [] => Ok (Some [])
  | name :: refCols' =>
      match ColIndex d name with
      | None => Ok None
      | Some ord =>
          v ← at_index vals ord;
          if is_nil v then Ok None
          else vs ← fkRefTuple d refCols' vals; Ok (option_map (cons v) vs)
      end
  end.

Definition fkChildCols (r : FKRef) : outcome (list bytes) :=
  traverse (λ ord, colName <$> at_index (tColumns r.1) ord) (fkCols r.2).

(** Whether a column some key references changed: the values compare as
    different, or one of them is NULL. *)
Fixpoint refColsChanged (d : TableDesc) (names : list bytes) (oldVals newVals : list any) : outcome bool :=
  match names with
  | [] => Ok false
  | name :: names' =>
      match ColIndex d name with
      | None => refColsChanged d names' oldVals newVals
      | Some ord =>
          old ← at_index oldVals ord;
          new ← at_index newVals ord;
          if negb (bool_decide (compareVals old new = Some Eq)) && negb (is_nil old && is_nil new) then Ok true
          else refColsChanged d names' oldVals newVals
      end
  end.
Fixpoint fkRefColsChanged (d : TableDesc) (refs : list FKRef) (oldVals newVals : list any) : outcome bool :=
  match refs with
  | [] => Ok false
  | r :: refs' =>
      c ← refColsChanged d (fkRefCols r.2) oldVals newVals;
      if (c : bool) then Ok true else fkRefColsChanged d refs' oldVals newVals
  end.

(** An equality predicate for each column. *)
Definition eqHeap (cols : list bytes) (vals : list any) : heap := λ q,
  mkPred (mkColRef [] (default [] (cols !! q))) OpEQ (default ANil (vals !! q)) None.
Definition eqConds (cols : list bytes) (vals : list any) : outcome (heap * BoolExpr False) :=
  if bool_decide (length cols <= length vals)%nat then Ok (eqHeap cols vals, BAnd (BPred <$> seq 0 (length cols)))
  else Panic PIndex.
Definition noCond (c : False) (_ : list any) : outcome tri := match c with end.

Definition errReferenced (table name child : bytes) : error :=
  ENew (go "update or delete on table " ++ quoted table ++ go " violates foreign key constraint " ++ quoted name ++
        go " on table " ++ quoted child).

(** ** Enforcement *)

(** One table's rows a DELETE has removed, with the keys that reference the
    table. *)
Record deleted := mkDeleted { dlDesc : TableDesc; dlRefs : list FKRef; dlRows : list (list any) }.
Definition cascades (r : FKRef) : bool := bool_decide (fkOnDelete r.2 = FKCascade).

Section fks.
Context {E : Type} {eng : EngineOps E} {cs : CatState E} {te : TxnEngine E}.
Context {tx sp : Type} {kv : KV tx} {re : Regexp}.
Abbreviation Txn := (Txn tx sp).
(** What the [i]-th poll of the statement's context answers in a scan that
    starts in a given state. *)
Context (ctx : E * Txn -> nat -> option error).

Definition scanRowsOf {C : Type} (h : heap) (p : plan C) (cond : C -> list any -> outcome tri) (keep : list Row -> bool) (table : bytes) :
    M (E * Txn) (list Row) := λ s,
  let '(rows, o, s') := scanPlan h p (ctx s) cond keep table s in
  (match o with Ok _ => Ok rows | Err er => Err er | Panic q => Panic q end, s').

Definition ReferencingFKs (table : bytes) : M (E * Txn) (list FKRef) := onKv (referencingFKs table false).

(** The keys of the rows a plan matches, and the rows. *)
Definition collectPKs {C : Type} (table : bytes) (d : TableDesc) (h : heap) (p : plan C) (cond : C -> list any -> outcome tri) :
    M (E * Txn) (list (list any * list any)) :=
  rows ← scanRowsOf h p cond (λ _, true) table;
  lift (traverse (λ r, pk ← pkValues d (rVals r); Ok (pk, rVals r)) rows).

Definition fkRowExists (table : bytes) (cols : list bytes) (vals : list any) : M (E * Txn) bool :=
  d ← TxnTable table;
  match d with
  | None => fail errNoTable
  | Some d =>
      '(h, e) ← lift (eqConds cols vals);
      p ← lift (planScan d table h e);
      rows ← scanRowsOf h p noCond (λ _, false) table;
      mret (bool_decide (0 < length rows)%nat)
  end.

Definition fkVerifyRow (d : TableDesc) (vals : list any) : M (E * Txn) unit :=
  for_each (λ fk,
    vs ← lift (refVals vals (Some <$> fkCols fk));
    match vs with
    | None => mret ()
    | Some vs =>
        found ← fkRowExists (fkRefTable fk) (fkRefCols fk) vs;
        if (found : bool) then mret () else fail (errFKViolated (tName d) (fkName fk))
    end) (tForeignKeys d).

Definition fkVerifyReferenced (d : TableDesc) (refs : list FKRef) (oldVals : list any) : M (E * Txn) unit :=
  for_each (λ r,
    vs ← lift (fkRefTuple d (fkRefCols r.2) oldVals);
    match vs with
    | None => mret ()
    | Some vs =>
        cols ← lift (fkChildCols r);
        found ← fkRowExists (tName r.1) cols vs;
        if (found : bool) then fail (errReferenced (tName d) (fkName r.2) (tName r.1)) else mret ()
    end) refs.

(** The rows that were there when their turn came. *)
Fixpoint deleteEach (table : bytes) (found : list (list any * list any)) : M (E * Txn) (list (list any)) :=
  match found with
  | [] => mret []
  | (pk, row) :: found' =>
      ok ← TxnDelete table pk;
      rest ← deleteEach table found';
      mret (if (ok : bool) then row :: rest else rest)
  end.
Definition fkDeleteMatching (d : TableDesc) (cols : list bytes) (vals : list any) : M (E * Txn) (list (list any)) :=
  '(h, e) ← lift (eqConds cols vals);
  p ← lift (planScan d (tName d) h e);
  found ← collectPKs (tName d) d h p noCond;
  deleteEach (tName d) found.

(** The rows that reference one of [rows], deleted. *)
Fixpoint cascadeRows (d : TableDesc) (r : FKRef) (cols : list bytes) (rows : list (list any)) : M (E * Txn) (list (list any)) :=
  match rows with
  | [] => mret []
  | old :: rows' =>
      vs ← lift (fkRefTuple d (fkRefCols r.2) old);
      got ← match vs with None => mret [] | Some vs => fkDeleteMatching r.1 cols vs end;
      rest ← cascadeRows d r cols rows';
      mret (got ++ rest)
  end.
Fixpoint cascadeRefs (cur : deleted) (refs : list FKRef) : M (E * Txn) (list deleted) :=
  match refs with
  | [] => mret []
  | r :: refs' =>
      next ← (if cascades r then
                cols ← lift (fkChildCols r);
                childRows ← cascadeRows (dlDesc cur) r cols (dlRows cur);
                match childRows with
                | [] => mret []
                | _ => childRefs ← ReferencingFKs (tName r.1); mret [mkDeleted r.1 childRefs childRows]
                end
              else mret []);
      rest ← cascadeRefs cur refs';
      mret (next ++ rest)
  end.
(** The worklist; the result is what has been through it. *)
Fixpoint cascade (fuel : nat) (pending done : list deleted) : M (E * Txn) (list deleted) :=
  match pending with
  | [] => mret done
  | cur :: pending' =>
      match fuel with
      | O => lift (Panic PExplicit)
      | S fuel' =>
          next ← cascadeRefs cur (dlRefs cur);
          cascade fuel' (pending' ++ next) (done ++ [cur])
      end
  end.
Definition verifyDeleted (ds : deleted) : M (E * Txn) unit :=
  let restrict := filter (λ r, cascades r = false) (dlRefs ds) in
  match restrict with
  | [] => mret ()
  | _ => for_each (fkVerifyReferenced (dlDesc ds) restrict) (dlRows ds)
  end.
(** A table is queued again only for rows that were deleted, so there are no
    more rounds than keys in the store. *)
Definition fkAfterDelete (d : TableDesc) (refs : list FKRef) (rows : list (list any)) : M (E * Txn) unit :=
  keys ← getX (λ T, length (kv_ascend [] (xTx T)));
  done ← cascade (S keys) [mkDeleted d refs rows] [];
  for_each verifyDeleted done.
End fks.

(** ** Constraint definitions *)

Record FKDef := mkFKDef { fdName : bytes; fdCols : list bytes; fdRefTable : bytes; fdRefCols : list bytes; fdOnDelete : bytes }.

(** The first of [base], [base1], [base2], ... that is not taken. One of the
    first [S (length taken)] is free. *)
Fixpoint freeName (base : bytes) (taken : list bytes) (fuel : nat) (n : Z) (name : bytes) : bytes :=
  match fuel with
  | O => name
  | S fuel' => if bool_decide (name ∈ taken) then freeName base taken fuel' (n + 1) (base ++ fmtInt n) else name
  end.
Fixpoint colOrds (d : TableDesc) (cols : list bytes) : outcome (list nat) :=
  match cols with
  | [] => Ok []
  | name :: cols' =>
      match ColIndex d name with
      | None => Err errNoColumnIn
      | Some ord => ords ← colOrds d cols'; Ok (ord :: ords)
      end
  end.
Definition resolveFK (d : TableDesc) (def : FKDef) : outcome FKDesc :=
  ords ← colOrds d (fdCols def);
  name ← (if bool_decide (fdName def = []) then
            col ← at_index (fdCols def) 0;
            let taken := (chkName <$> tChecks d) ++ (fkName <$> tForeignKeys d) in
            let base := tName d ++ go "_" ++ col ++ go "_fkey" in
            Ok (freeName base taken (S (length taken)) 1 base)
          else Ok (fdName def));
  Ok (mkFK name ords (fdRefTable def) (fdRefCols def) (fdOnDelete def)).
