(* ===== verification/SqlDml.v ===== *)
(** * Statements on rows

    INSERT, UPDATE, DELETE and TRUNCATE inside their transaction: the
    closures of [execInsert], [execUpdate], [execDelete] and [execTruncate]
    ([sql/exec.go]) with ON CONFLICT ([sql/upsert.go]), CHECK constraints
    ([sql/check.go]), stored defaults ([parseStoredLiteral] of
    [sql/parser.go]), foreign keys ([SqlFk]) and the budget of returned rows
    ([sql/rowbudget.go]). Expressions and select lists are evaluated through
    [Evaluator]. What lastval() remembers of an INSERT is left out. *)
From S2P Require Import Prelude GoVal GoStr GoFloat KV Tuple Time Types Catalog Desc Rows Index Dml Engine Txn Fk SqlVal Lexer SqlPlan SqlFk.

Local Open Scope Z_scope.

(** ** Scopes *)

Record scopeTable := mkScopeTable { scName : bytes; scDesc : TableDesc; scOff : nat }.
Abbreviation scope := (list scopeTable).

Definition errAmbiguous : error := ENew (go "column reference is ambiguous; qualify it").
Fixpoint resolveQualified (sc : scope) (c : ColRef) : outcome nat :=
  match sc with
  | [] => Err errNoFrom
  | st :: sc' =>
      if bool_decide (scName st = crTable c) then
        match ColIndex (scDesc st) (crName c) with Some ord => Ok (scOff st + ord)%nat | None => Err errNoColumnIn end
      else resolveQualified sc' c
  end.
Fixpoint resolveBare (sc : scope) (c : ColRef) (found : option nat) : outcome nat :=
  match sc with
  | [] => match found with Some o => Ok o | None => Err errNoColumnIn end
  | st :: sc' =>
      match ColIndex (scDesc st) (crName c) with
      | Some ord => match found with Some _ => Err errAmbiguous | None => resolveBare sc' c (Some (scOff st + ord)%nat) end
      | None => resolveBare sc' c found
      end
  end.
Definition scopeResolve (sc : scope) (c : ColRef) : outcome nat :=
  if bool_decide (crTable c <> []) then resolveQualified sc c else resolveBare sc c None.
Definition bindScope (sc : scope) (h : heap) (p : nat) (b : binds) : outcome binds :=
  l ← scopeResolve sc (pItem (h p));
  r ← match pRItem (h p) with Some c => Some <$> scopeResolve sc c | None => Ok None end;
  Ok (<[p := mkBinding l r]> b).
Definition tableScope (table : bytes) (d : TableDesc) : scope := [mkScopeTable table d 0].

(** ** Stored defaults *)

Definition f64_opp (b : Z) : Z := Z.lxor b (2 ^ 63).
Definition errNumeric : error := ENew (go "bad numeric literal").
Definition errParamStart : error := ENew (go "parameter numbers start at $1").
Definition errParamRange : error := ENew (go "parameter number out of range").
Definition errTrailing : error := ENew (go "trailing tokens in stored literal").
Definition errSyntaxAt : error := ENew (go "syntax error").
Definition maxParamNumber : Z := 65535.
Definition isOp (op : bytes) (t : token) : bool := bool_decide (kind t = tOp) && bool_decide (text t = op).

(** The parser is past the tokens it has read; the last token is [tEOF] and
    is never passed. A parameter is a value of a type of its own. *)
Definition literal (toks : list token) : outcome (any * list token) :=
  let '(neg, toks) :=
    match toks with
    | t :: toks' => if isOp (go "-") t then (true, toks') else if isOp (go "+") t then (false, toks') else (false, toks)
    | [] => (false, [])
    end in
  match toks with
  | [] => Panic PIndex
  | t :: rest =>
      match kind t with
      | tNumber =>
          match ParseInt (text t) with
          | Some n => Ok (AInt KInt64 (if neg then int64 (- n) else n), rest)
          | None =>
              match ParseFloat (text t) with
              | Some f => Ok (AFloat64 (if neg then f64_opp f else f), rest)
              | None => Err errNumeric
              end
          end
      | tString => if neg then Err errSyntaxAt else Ok (AString (text t), rest)
      | tIdent =>
          if neg then Err errSyntaxAt
          else if bool_decide (text t = go "true") then Ok (ABool true, rest)
          else if bool_decide (text t = go "false") then Ok (ABool false, rest)
          else if bool_decide (text t = go "null") then Ok (ANil, rest)
          else Err errSyntaxAt
      | tParam =>
          if neg then Err errSyntaxAt
          else
            match ParseInt (tail (text t)) with
            | Some n => if n <? 1 then Err errParamStart else if maxParamNumber <? n then Err errParamRange else Ok (AOther (go "sql.Param"), rest)
            | None => Err errParamStart
            end
      | _ => Err errSyntaxAt
      end
  end.
Definition parseStoredLiteral (src : bytes) : outcome any :=
  toks ← lex src;
  '(v, rest) ← literal toks;
  match rest with
  | t :: _ => if bool_decide (kind t = tEOF) then Ok v else Err errTrailing
  | [] => Panic PIndex
  end.

Definition DefaultNow : bytes := go "now()".
Definition DefaultCurrentDate : bytes := go "current_date".
(** [now] is the clock in nanoseconds, read once for the statement. *)
Definition columnDefault (now : Z) (c : Column) : outcome any :=
  if bool_decide (colDefault c = []) then Ok ANil
  else
    v ← (if bool_decide (colDefault c = DefaultNow) then Ok (ATime now)
         else if bool_decide (colDefault c = DefaultCurrentDate) then Ok (ATime (now - now mod 86400000000000))
         else parseStoredLiteral (colDefault c));
    coerceLit v (colType c).
Definition columnDefaults (now : Z) (d : TableDesc) : outcome (list any) := traverse (columnDefault now) (tColumns d).

(** ** Statements *)

(** An INSERT value: a plain one, the keyword DEFAULT, or an expression. *)
Inductive value {Ex : Type} := VVal (v : any) | VDefault | VEx (x : Ex).
#[global] Arguments value _ : clear implicits.

(** The maps of a SET clause are lists of their entries; a statement without a
    WHERE has the empty conjunction. *)
Record OnConflict {C Ex : Type} := mkOnConflict {
  ocTargetCols : option (list bytes);
  ocUpdate : bool;
  ocSet : list (bytes * any);
  ocSetEx : list (bytes * Ex);
  ocWhere : heap * BoolExpr C;
}.
#[global] Arguments OnConflict _ _ : clear implicits.
Record InsertStmt {C Ex Ret : Type} := mkInsertStmt {
  inTable : bytes;
  inCols : option (list bytes);
  inRows : list (list (value Ex));
  inConflict : option (OnConflict C Ex);
  inRet : option Ret;
}.
#[global] Arguments InsertStmt _ _ _ : clear implicits.
Record UpdateStmt {C Ex Ret : Type} := mkUpdateStmt {
  upTable : bytes;
  upSet : list (bytes * any);
  upSetEx : list (bytes * Ex);
  upWhere : heap * BoolExpr C;
  upRet : option Ret;
}.
#[global] Arguments UpdateStmt _ _ _ : clear implicits.
Record DeleteStmt {C Ret : Type} := mkDeleteStmt {
  deTable : bytes;
  deWhere : heap * BoolExpr C;
  deRet : option Ret;
}.
#[global] Arguments DeleteStmt _ _ : clear implicits.
Record TruncateStmt := mkTruncateStmt { trTables : list bytes; trRestartIdentity : bool }.

(** An output column: an ordinal of the row followed by the values of the
    expressions, or a constant. *)
Record projEntry := mkProj { peOrd : option nat; peLit : any }.
Record retProj {Ex : Type} := mkRetProj { rpProj : list projEntry; rpExprs : list Ex }.
#[global] Arguments retProj _ : clear implicits.

(** The evaluator of expressions in a scope and over a row of it, which may
    read tables and draw from sequences, the one of the conditions a plan
    leaves to it, the parser of stored CHECK texts, and the resolution of a
    RETURNING list. *)
Class Evaluator (S C Ex Ret : Type) := {
  evalEx : scope -> Ex -> list any -> M S any;
  evalTruth : scope -> Ex -> list any -> M S tri;
  evalCond : scope -> S -> C -> list any -> outcome tri;
  parseCheckExpr : bytes -> outcome Ex;
  projectReturning : scope -> Ret -> outcome (retProj Ex);
}.
(** [MaxResultRows] of the engine. *)
Class RowLimit (E : Type) := { e_maxResultRows : E -> Z; }.

Section dml.
Context {E : Type} {eng : EngineOps E} {cs : CatState E} {te : TxnEngine E} {rl : RowLimit E}.
Context {tx sp : Type} {kv : KV tx} {re : Regexp}.
Abbreviation Txn := (Txn tx sp).
Abbreviation S := (E * Txn)%type.
Context {C Ex Ret : Type} {ev : Evaluator S C Ex Ret}.
Context (ctx : S -> nat -> option error) (now : Z).

(** ** The row budget *)

Definition memCheckEvery : Z := 1024.
Record rowBudget := mkBudget { rbLimit : Z; rbNoMem : bool }.
Definition budget (freeing : bool) : M S rowBudget := gets (λ s, mkBudget (e_maxResultRows s.1) freeing).
Definition errTooLarge : error :=
  ENew (go "query would hold more rows in memory than the result row limit allows; narrow it with WHERE, add a LIMIT, or paginate — or raise the limit (Engine.SetMaxResultRows; bytdbd -max-result-rows)").
Definition budgetCheck (b : rowBudget) (n : nat) : M S unit :=
  if (0 <? rbLimit b) && (rbLimit b <? Z.of_nat n) then fail errTooLarge
  else if negb (rbNoMem b) && (Z.of_nat n mod memCheckEvery =? 0) then onKv (onE e_CheckMemory)
  else mret ().

(** ** RETURNING *)

Definition prepareReturning (sc : scope) (r : option Ret) : outcome (option (retProj Ex)) :=
  match r with None => Ok None | Some r => Some <$> projectReturning sc r end.
Fixpoint mapM_ {A B : Type} (f : A -> M S B) (l : list A) : M S (list B) :=
  match l with
  | [] => mret []
  | x :: l' => y ← f x; ys ← mapM_ f l'; mret (y :: ys)
  end.
Definition retRow (sc : scope) (rp : retProj Ex) (vals : list any) : M S (list any) :=
  more ← mapM_ (λ x, evalEx sc x vals) (rpExprs rp);
  lift (traverse (λ pe, match peOrd pe with None => Ok (peLit pe) | Some o => at_index (vals ++ more) o end) (rpProj rp)).

(** What a statement has done so far: output rows, rows affected and, for DO
    UPDATE, the keys of the rows it has touched. *)
Record progress := mkProgress { pgRows : list (list any); pgAffected : nat; pgTouched : gset bytes }.
Definition affect (sc : scope) (ret : option (retProj Ex)) (b : rowBudget) (vals : list any) (pg : progress) : M S progress :=
  match ret with
  | None => mret (mkProgress (pgRows pg) (Datatypes.S (pgAffected pg)) (pgTouched pg))
  | Some rp =>
      out ← retRow sc rp vals;
      let rows := pgRows pg ++ [out] in
      _ ← budgetCheck b (length rows);
      mret (mkProgress rows (Datatypes.S (pgAffected pg)) (pgTouched pg))
  end.

(** ** CHECK constraints *)

Abbreviation namedCheck := (bytes * Ex)%type.
Definition tableChecks (d : TableDesc) : outcome (list namedCheck) :=
  traverse (λ ck, x ← parseCheckExpr (chkExpr ck); Ok (chkName ck, x)) (tChecks d).
Definition errCheck (table name : bytes) : error :=
  ENew (go "new row for relation " ++ quoted table ++ go " violates check constraint " ++ quoted name).
Definition checkRow (sc : scope) (table : bytes) (checks : list namedCheck) (vals : list any) : M S unit :=
  for_each (λ ck, t ← evalTruth sc ck.2 vals; if bool_decide (t = triFalse) then fail (errCheck table ck.1) else mret ()) checks.

(** ** SET clauses *)

Definition setOrd (d : TableDesc) (col : bytes) : outcome nat :=
  match ColIndex d col with Some o => Ok o | None => Err errNoColumnIn end.
(** The literals as a CHECK sees them. *)
Definition checkVals (d : TableDesc) (checks : list namedCheck) (set : list (bytes * any)) : outcome (list (bytes * any)) :=
  match checks with
  | [] => Ok set
  | _ => traverse (λ q, o ← setOrd d q.1; c ← at_index (tColumns d) o; v ← coerceLit q.2 (colType c); Ok (q.1, v)) set
  end.
(** The values of the expressions over [row], coerced like quoted literals. *)
Definition evalSets (sc : scope) (d : TableDesc) (setEx : list (bytes * Ex)) (row : list any) : M S (list (bytes * any)) :=
  mapM_ (λ q, v ← evalEx sc q.2 row; o ← lift (setOrd d q.1); c ← lift (at_index (tColumns d) o); cv ← lift (coerceLit v (colType c)); mret (q.1, cv)) setEx.
(** A map with the entries of [l] over those of [set]. *)
Definition overlay (set l : list (bytes * any)) : list (bytes * any) := filter (λ q, q.1 ∉ l.*1) set ++ l.
Fixpoint putAll (d : TableDesc) (set : list (bytes * any)) (vals : list any) : outcome (list any) :=
  match set with
  | [] => Ok vals
  | (col, v) :: set' =>
      o ← setOrd d col;
      _ ← at_index vals o;
      putAll d set' (<[o := v]> vals)
  end.

(** ** ON CONFLICT *)

(** An arbiter is the primary key ([None]) or a unique index. *)
Record upsert := mkUpsert {
  usOc : OnConflict C Ex;
  usArbiters : list (option IndexDesc);
  usBinds : binds;
  usSetVals : list (bytes * any);
}.
Definition errNoArbiter : error := ENew (go "there is no unique or exclusion constraint matching the ON CONFLICT specification").
Definition errTwice : error := ENew (go "ON CONFLICT DO UPDATE command cannot affect row a second time").
Definition errVanished : error := ENew (go "conflicting row disappeared during upsert").
Definition errRowArity : error := ENew (go "INSERT row has wrong number of values").

Definition sameColSet (a b : list nat) : bool := bool_decide (merge_sort Nat.le a = merge_sort Nat.le b).
Definition resolveArbiters (d : TableDesc) (target : option (list bytes)) : outcome (list (option IndexDesc)) :=
  match target with
  | None => Ok (None :: (Some <$> filter (λ x, ixUnique x = true) (tIndexes d)))
  | Some cols =>
      want ← colOrds d cols;
      if sameColSet want (tPKCols d) then Ok [None]
      else
        match list_find (λ x, ixUnique x && sameColSet want (ixCols x) = true) (tIndexes d) with
        | Some (_, x) => Ok [Some x]
        | None => Err errNoArbiter
        end
  end.
(** The target row, then the pseudo-row [excluded]. *)
Definition excludedScope (table : bytes) (d : TableDesc) : scope :=
  [mkScopeTable table d 0; mkScopeTable (go "excluded") d (length (tColumns d))].
Definition prepareUpsert (table : bytes) (d : TableDesc) (checks : list namedCheck) (oc : option (OnConflict C Ex)) : outcome (option upsert) :=
  match oc with
  | None => Ok None
  | Some oc =>
      arbs ← resolveArbiters d (ocTargetCols oc);
      if negb (ocUpdate oc) then Ok (Some (mkUpsert oc arbs ∅ []))
      else
        b ← walkPreds (bindScope (excludedScope table d) (ocWhere oc).1) (ocWhere oc).2 ∅;
        _ ← traverse (setOrd d) ((ocSet oc).*1);
        _ ← traverse (setOrd d) ((ocSetEx oc).*1);
        setVals ← checkVals d checks (ocSet oc);
        Ok (Some (mkUpsert oc arbs b setVals))
  end.

(** The row an arbiter finds, if any: for an index the first at or after the
    key, if it carries the key. *)
Fixpoint sameKey (cols : list nat) (vals key : list any) : outcome bool :=
  match cols, key with
  | o :: cols', k :: key' =>
      v ← at_index vals o;
      if bool_decide (compareVals v k = Some Eq) then sameKey cols' vals key' else Ok false
  | _, _ => Ok true
  end.
Definition probeIndex (table : bytes) (x : IndexDesc) (key : list any) : M S (option Row) := λ s,
  let '(items, s') := TxnScanIndex table (ixName x) (bound_of key) None (λ seen, bool_decide (length seen = 0%nat)) s in
  match items with
  | [] => (Ok None, s')
  | item :: _ => ((row ← item; same ← sameKey (ixCols x) (rVals row) key; Ok (if (same : bool) then Some row else None)), s')
  end.
Definition probe (table : bytes) (d : TableDesc) (a : option IndexDesc) (vals : list any) : M S (option Row) :=
  key ← lift (refVals vals (Some <$> match a with None => tPKCols d | Some x => ixCols x end));
  match key, a with
  | None, _ => mret None
  | Some key, None => TxnGet table key
  | Some key, Some x => probeIndex table x key
  end.
Fixpoint conflict (table : bytes) (d : TableDesc) (arbs : list (option IndexDesc)) (vals : list any) : M S (option Row) :=
  match arbs with
  | [] => mret None
  | a :: arbs' =>
      r ← probe table d a vals;
      match r with Some row => mret (Some row) | None => conflict table d arbs' vals end
  end.
Definition pkKey (d : TableDesc) (vals : list any) : outcome bytes := pk ← pkValues d vals; Encode pk.

Definition upsertWhere (sc : scope) (u : upsert) (combined : list any) : M S tri := λ s,
  (evalPreds (ocWhere (usOc u)).1 (usBinds u) (evalCond sc s) (ocWhere (usOc u)).2 combined, s).
(** DO UPDATE on the row [existing]: the stored row, and the keys touched;
    [None] when the WHERE is not true of the pair. *)
Definition upsertResolve (table : bytes) (d : TableDesc) (checks : list namedCheck) (u : upsert) (touched : gset bytes)
    (existing proposed : list any) : M S (option (Row * gset bytes)) :=
  let oc := usOc u in
  let sc := excludedScope table d in
  k ← lift (pkKey d existing);
  if bool_decide (k ∈ touched) then fail errTwice
  else
    let combined := existing ++ proposed in
    t ← upsertWhere sc u combined;
    if negb (bool_decide (t = triTrue)) then mret None
    else
      sets ← evalSets sc d (ocSetEx oc) combined;
      let set := overlay (ocSet oc) sets in
      _ ← match checks with
          | [] => mret ()
          | _ =>
              nv ← lift (nv ← putAll d (usSetVals u) existing; putAll d sets nv);
              checkRow (tableScope table d) table checks nv
          end;
      pk ← lift (pkValues d existing);
      stored ← TxnUpdateReturning table pk set;
      match stored with
      | None => fail errVanished
      | Some stored =>
          nk ← lift (pkKey d (rVals stored));
          mret (Some (stored, {[nk]} ∪ ({[k]} ∪ touched)))
      end.

(** ** INSERT *)

Definition resolveDefaultMarkers (vals : list (value Ex)) (defaults : list any) : list (value Ex) :=
  imap (λ i v, match v with VDefault => VVal (default ANil (defaults !! i)) | _ => v end) vals.
(** VALUES has no input row and an empty scope. *)
Definition resolveExprValues (vals : list (value Ex)) : M S (list any) :=
  mapM_ (λ v, match v with VVal v => mret v | VEx x => evalEx [] x [] | VDefault => mret (AOther (go "sql.defaultMarker")) end) vals.
(** The values in declared column order. *)
Definition arrange (ords : option (list nat)) (defaults : list any) (row : list (value Ex)) : outcome (list (value Ex)) :=
  match ords with
  | None => Ok row
  | Some ords =>
      if negb (bool_decide (length row = length ords)) then Err errRowArity
      else Ok (foldl (λ vals q, <[q.1 := q.2]> vals) (VVal <$> defaults) (zip ords row))
  end.
Definition verifyStored (d : TableDesc) (vals : list any) : M S unit :=
  match tForeignKeys d with [] => mret () | _ => fkVerifyRow ctx d vals end.

Section insert.
Context (s : InsertStmt C Ex Ret) (d : TableDesc) (ret : option (retProj Ex)) (b : rowBudget) (ords : option (list nat))
  (checks : list namedCheck) (defaults : list any) (up : option upsert).

Definition insertOne (vals : list any) (pg : progress) : M S progress :=
  _ ← (if bool_decide (length vals = length (tColumns d)) then checkRow (tableScope (inTable s) d) (inTable s) checks vals else mret ());
  stored ← TxnInsertReturning (inTable s) vals;
  _ ← verifyStored d (rVals stored);
  touched ← match up with
            | Some u => if ocUpdate (usOc u) then k ← lift (pkKey d (rVals stored)); mret ({[k]} ∪ pgTouched pg) else mret (pgTouched pg)
            | None => mret (pgTouched pg)
            end;
  affect (tableScope (inTable s) d) ret b (rVals stored) (mkProgress (pgRows pg) (pgAffected pg) touched).
Definition insertStep (row : list (value Ex)) (pg : progress) : M S progress :=
  vals ← lift (arrange ords defaults row);
  vals ← resolveExprValues (resolveDefaultMarkers vals defaults);
  match up with
  | Some u =>
      if bool_decide (length vals = length (tColumns d)) then
        hit ← conflict (inTable s) d (usArbiters u) vals;
        match hit with
        | None => insertOne vals pg
        | Some existing =>
            if negb (ocUpdate (usOc u)) then mret pg
            else
              r ← upsertResolve (inTable s) d checks u (pgTouched pg) (rVals existing) vals;
              match r with
              | None => mret pg
              | Some (stored, touched) =>
                  _ ← verifyStored d (rVals stored);
                  affect (tableScope (inTable s) d) ret b (rVals stored) (mkProgress (pgRows pg) (pgAffected pg) touched)
              end
        end
      else insertOne vals pg
  | None => insertOne vals pg
  end.
Fixpoint insertRows (rows : list (list (value Ex))) (pg : progress) : M S progress :=
  match rows with
  | [] => mret pg
  | row :: rows' => pg ← insertStep row pg; insertRows rows' pg
  end.
End insert.

Definition noProgress : progress := mkProgress [] 0 ∅.
Definition execInsert (s : InsertStmt C Ex Ret) : M S progress :=
  od ← TxnTable (inTable s);
  match od with
  | None => fail errNoTable
  | Some d =>
      ret ← lift (prepareReturning (tableScope (inTable s) d) (inRet s));
      b ← budget false;
      ords ← lift (match inCols s with None => Ok None | Some cols => Some <$> colOrds d cols end);
      checks ← lift (tableChecks d);
      defaults ← lift (columnDefaults now d);
      up ← lift (prepareUpsert (inTable s) d checks (inConflict s));
      _ ← match up with None => CheckWrites (Z.of_nat (length (inRows s))) | Some _ => mret () end;
      insertRows s d ret b ords checks defaults up (inRows s) noProgress
  end.

(** ** UPDATE *)

Section update.
Context (s : UpdateStmt C Ex Ret) (d : TableDesc) (ret : option (retProj Ex)) (b : rowBudget) (checks : list namedCheck)
  (setVals : list (bytes * any)) (refs : list FKRef).

(** The old rows whose referenced columns changed, latest last. *)
Definition updateStep (rv : list any) (recheck : list (list any)) (pg : progress) : M S (list (list any) * progress) :=
  sets ← evalSets (tableScope (upTable s) d) d (upSetEx s) rv;
  let set := overlay (upSet s) sets in
  _ ← match checks with
      | [] => mret ()
      | _ =>
          nv ← lift (nv ← putAll d setVals rv; putAll d sets nv);
          checkRow (tableScope (upTable s) d) (upTable s) checks nv
      end;
  pk ← lift (pkValues d rv);
  stored ← TxnUpdateReturning (upTable s) pk set;
  match stored with
  | None => mret (recheck, pg)
  | Some stored =>
      _ ← verifyStored d (rVals stored);
      changed ← lift (fkRefColsChanged d refs rv (rVals stored));
      pg ← affect (tableScope (upTable s) d) ret b (rVals stored) pg;
      mret (if (changed : bool) then recheck ++ [rv] else recheck, pg)
  end.
Fixpoint updateRows (rows recheck : list (list any)) (pg : progress) : M S (list (list any) * progress) :=
  match rows with
  | [] => mret (recheck, pg)
  | rv :: rows' => '(recheck, pg) ← updateStep rv recheck pg; updateRows rows' recheck pg
  end.
End update.

(** Whether [n] more writes fit under the cap. *)
Definition writesFit (s : S) (n : nat) : bool := match (CheckWrites (Z.of_nat n) s).1 with Ok _ => true | _ => false end.
Definition scanCapped (h : heap) (p : plan C) (sc : scope) (table : bytes) : M S (list (list any)) := λ st,
  match scanRowsOf ctx h p (evalCond sc st) (λ rows, writesFit st (length rows)) table st with
  | (Ok rows, st') =>
      if bool_decide (rows = []) || writesFit st (length rows) then (Ok (rVals <$> rows), st') else (Err ETxnTooLarge, st')
  | (Err er, st') => (Err er, st')
  | (Panic q, st') => (Panic q, st')
  end.
Definition execUpdate (s : UpdateStmt C Ex Ret) : M S progress :=
  od ← TxnTable (upTable s);
  match od with
  | None => fail errNoTable
  | Some d =>
      ret ← lift (prepareReturning (tableScope (upTable s) d) (upRet s));
      b ← budget false;
      p ← lift (planScan d (upTable s) (upWhere s).1 (upWhere s).2);
      checks ← lift (tableChecks d);
      _ ← lift (traverse (setOrd d) ((upSet s).*1));
      _ ← lift (traverse (setOrd d) ((upSetEx s).*1));
      setVals ← lift (checkVals d checks (upSet s));
      rows ← scanCapped (upWhere s).1 p (tableScope (upTable s) d) (upTable s);
      refs ← ReferencingFKs (upTable s);
      '(recheck, pg) ← updateRows s d ret b checks setVals refs rows [] noProgress;
      _ ← for_each (fkVerifyReferenced ctx d refs) recheck;
      mret pg
  end.

(** ** DELETE *)

Fixpoint deleteRows (s : DeleteStmt C Ret) (sc : scope) (ret : option (retProj Ex)) (b : rowBudget) (found : list (list any * list any))
    (pg : progress) : M S progress :=
  match found with
  | [] => mret pg
  | (pk, row) :: found' =>
      ok ← TxnDelete (deTable s) pk;
      pg ← (if (ok : bool) then affect sc ret b row pg else mret pg);
      deleteRows s sc ret b found' pg
  end.
Definition matching (s : DeleteStmt C Ret) (d : TableDesc) (p : plan C) : M S (list (list any * list any)) := λ st,
  collectPKs ctx (deTable s) d (deWhere s).1 p (evalCond (tableScope (deTable s) d) st) st.
Definition execDelete (s : DeleteStmt C Ret) : M S progress :=
  od ← TxnTable (deTable s);
  match od with
  | None => fail errNoTable
  | Some d =>
      let sc := tableScope (deTable s) d in
      ret ← lift (prepareReturning sc (deRet s));
      b ← budget true;
      p ← lift (planScan d (deTable s) (deWhere s).1 (deWhere s).2);
      refs ← ReferencingFKs (deTable s);
      found ← matching s d p;
      pg ← deleteRows s sc ret b found noProgress;
      _ ← match refs with [] => mret () | _ => fkAfterDelete ctx d refs (snd <$> found) end;
      mret pg
  end.

(** ** TRUNCATE *)

Definition errTruncate : error := ENew (go "cannot truncate a table referenced in a foreign key constraint").
Definition execTruncate (s : TruncateStmt) : M S unit :=
  _ ← for_each (λ t,
        refs ← ReferencingFKs t;
        if forallb (λ r, bool_decide (tName r.1 ∈ trTables s)) refs then mret () else fail errTruncate) (trTables s);
  for_each (λ t, TxnTruncate t (trRestartIdentity s)) (trTables s).
End dml.
