(* ===== verification/SqlFkOk.v ===== *)
(** * References that hold

    What it means that every reference holds, what the checks of [SqlFk]
    decide inside a transaction, and what deleting a row does to the rows of
    all tables. *)
From S2P Require Import Prelude GoVal GoStr KV Savepoint Tuple Types Catalog Desc Rows Pairs Index Table Seq Upkeep Dml Relation Engine Store Database Ddl DdlColumn DdlAddDrop Fk Schema RowStmt Txn Statements TxnOk SqlVal SqlPlan SqlPlanOk SqlPlanned SqlFk.

Local Open Scope Z_scope.

(** ** Equality predicates *)

(** A value of a column of type [t], as the caller has it and as stored. *)
Definition same_value (t : ColType) (lit n : any) : Prop := typed t lit /\ normalize lit = Ok n.

Lemma compare_same t v lit n : stored_as t v -> same_value t lit n -> is_nil v = false -> compareVals v lit = Some (valueCompare v n).
Proof.
  intros [Cv Tv] [Tl Hn] Nv. specialize (Tv Nv). assert (canon n) as Cn by (eapply normalize_canon; [by eapply typed_any_ok|done]).
  destruct (decide (t = TFloat)) as [->|Ht].
  - destruct v as [| | | |vf| | | | | |]; try done. destruct lit as [| | | |lf| | | | | |]; try done. cbn in Hn.
    apply normalizeFloat_val in Hn as (g & -> & Hg & Hng & Hnf). rewrite valueCompare_float by done. cbn [compareVals].
    destruct Cv as (_ & Hnv & _). rewrite cmpFloat_cmp by done. unfold f64_cmp. by rewrite Hnv, Hng, Hg.
  - assert (n = lit) as ->. { destruct t, lit as [| |[] ?| | | | | | | |]; try done; cbn in Hn; congruence. }
    apply (compare_stored t); [done| |done|by eapply typed_not_nil]. by split.
Qed.
Lemma checkPred_same {re : Regexp} t v lit n : stored_as t v -> same_value t lit n ->
  exists b, checkPred v OpEQ lit = Ok b /\ (b = triTrue <-> v = n).
Proof.
  intros Hv Hl. assert (canon n) as Cn by (eapply normalize_canon; [|apply Hl]; eapply typed_any_ok, Hl).
  assert (micros v = v) as Mv by (destruct Hv as [Cv _]; by destruct v).
  assert (micros lit = lit) as Ml by (destruct Hl as [Tl _]; by destruct t, lit).
  assert (is_nil n = false) as Nn by (destruct Hl as [Tl Hn]; rewrite (normalize_nil _ _ Hn); by eapply typed_not_nil).
  destruct (is_nil v) eqn:Nv.
  - assert (compareVals v lit = None) as Hc by (by destruct v). exists triUnknown.
    rewrite (checkPred_pushed OpEQ v lit None); [|by left|done|done|done|done|by rewrite Nv]. split; [done|]. split; [done|]. intros ->. congruence.
  - pose proof (compare_same t v lit n Hv Hl Nv) as Hc.
    rewrite (checkPred_pushed OpEQ v lit (Some (valueCompare v n))); [|by left|done|done|done|by rewrite Nv|by eexists].
    eexists. split; [done|]. rewrite <- (valueCompare_eq v n) by (apply Hv || done). by destruct (valueCompare v n).
Qed.

Section conds.
Context {C : Type}.
Lemma eval_preds_and (leaf : nat -> outcome tri) (cond : C -> outcome tri) qs :
  (forall q, q ∈ qs -> exists b, leaf q = Ok b) ->
  exists b, evalBool leaf cond (BAnd (BPred <$> qs)) = Ok b /\ (b = triTrue <-> forall q, q ∈ qs -> leaf q = Ok triTrue).
Proof.
  intros Hq. cbn [evalBool]. assert (forall out : tri, out <> triFalse -> exists b,
    (fix loop out l := match l with [] => Ok out | e :: l' => t ← evalBool leaf cond e;
      match t with triFalse => Ok triFalse | triUnknown => loop triUnknown l' | triTrue => loop out l' end end) out (BPred <$> qs) = Ok b /\
    (b = triTrue <-> out = triTrue /\ forall q, q ∈ qs -> leaf q = Ok triTrue)) as H.
  { induction qs as [|q qs IH]; intros out Ho.
    - exists out. split; [done|]. split; [intros ->; split; [done|]; by intros q ?%elem_of_nil|by intros [? _]].
    - csimpl. cbn [evalBool]. destruct (Hq q) as [b Hb]; [by left|]. rewrite Hb. cbn [mbind outcome_bind].
      assert (forall q, q ∈ qs -> exists b, leaf q = Ok b) as Hqs by (intros; apply Hq; by right). destruct b.
      + exists triFalse. split; [done|]. split; [done|]. intros [_ H]. specialize (H q ltac:(by left)). congruence.
      + destruct (IH Hqs out Ho) as (b' & -> & Hb'). exists b'. split; [done|]. rewrite Hb'. split; intros [H1 H2]; (split; [done|]); intros q' H'.
        * apply elem_of_cons in H' as [->|H']; [done|by apply H2].
        * apply H2. by right.
      + destruct (IH Hqs triUnknown ltac:(done)) as (b' & -> & Hb'). exists b'. split; [done|]. rewrite Hb'. split; [by intros [? _]|].
        intros [_ H]. specialize (H q ltac:(by left)). congruence. }
  destruct (H triTrue ltac:(done)) as (b & -> & Hb). exists b. split; [done|]. rewrite Hb. naive_solver.
Qed.
Lemma conjuncts_preds (qs : list nat) : conjuncts (C := C) (BAnd (BPred <$> qs)) = qs.
Proof. cbn [conjuncts]. induction qs as [|q qs IH]; [done|]. csimpl. cbn [conjuncts]. by rewrite IH. Qed.
Lemma walk_and {St : Type} (visit : nat -> St -> outcome St) (P : list nat -> St -> Prop) qs s0 : P [] s0 ->
  (forall done q s, q ∈ qs -> P done s -> exists s', visit q s = Ok s' /\ P (done ++ [q]) s') ->
  exists s, walkPreds (C := C) visit (BAnd (BPred <$> qs)) s0 = Ok s /\ P qs s.
Proof.
  intros H0 Hs. assert (forall dn s1, P dn s1 -> exists s, walkPreds (C := C) visit (BAnd (BPred <$> qs)) s1 = Ok s /\ P (dn ++ qs) s) as H; [|exact (H [] s0 H0)].
  clear s0 H0. induction qs as [|q qs IH]; intros dn s0 H0; [exists s0; by rewrite app_nil_r|].
  csimpl. cbn [walkPreds]. destruct (Hs dn q s0) as (s1 & -> & H1); [by left|done|]. cbn [mbind outcome_bind].
  destruct (IH) with (dn := dn ++ [q]) (s1 := s1) as (s & Hw & H2); [intros; apply Hs; [by right|done]|done|]. exists s.
  rewrite <- app_assoc in H2. split; [exact Hw|done].
Qed.
End conds.

(** Columns, the values asked for, and the values as stored. *)
Record eq_args (d : TableDesc) (cols : list bytes) (ords : list nat) (lits ns : list any) : Prop := {
  ea_cols : ColIndex d <$> cols = Some <$> ords;
  ea_lits : length lits = length ords;
  ea_ns : length ns = length ords;
  ea_val i o lit n : ords !! i = Some o -> lits !! i = Some lit -> ns !! i = Some n ->
    exists c, tColumns d !! o = Some c /\ same_value (colType c) lit n;
}.

Section eqs.
Context {re : Regexp}.
Context (d : TableDesc) (cols : list bytes) (ords : list nat) (lits ns : list any) (Ha : eq_args d cols ords lits ns).
Abbreviation h := (eqHeap cols lits).
Abbreviation w := (BAnd (C := False) (BPred <$> seq 0 (length cols))).

Lemma eq_length : length cols = length ords.
Proof. pose proof (f_equal length (ea_cols _ _ _ _ _ Ha)) as H. by rewrite !length_fmap in H. Qed.
Lemma eq_at q : (q < length cols)%nat -> exists name o lit n c, cols !! q = Some name /\ ords !! q = Some o /\ lits !! q = Some lit /\ ns !! q = Some n /\
  ColIndex d name = Some o /\ tColumns d !! o = Some c /\ same_value (colType c) lit n.
Proof.
  intros Hq. pose proof eq_length as Hl. pose proof (ea_lits _ _ _ _ _ Ha). pose proof (ea_ns _ _ _ _ _ Ha).
  destruct (lookup_lt_is_Some_2 cols q) as [name Hn]; [lia|]. destruct (lookup_lt_is_Some_2 ords q) as [o Ho]; [lia|].
  destruct (lookup_lt_is_Some_2 lits q) as [lit Hlit]; [lia|]. destruct (lookup_lt_is_Some_2 ns q) as [n Hns]; [lia|].
  destruct (ea_val _ _ _ _ _ Ha q o lit n Ho Hlit Hns) as (c & Hc & Hs). exists name, o, lit, n, c. split_and!; try done.
  pose proof (f_equal (λ l, l !! q) (ea_cols _ _ _ _ _ Ha)) as E. cbn in E. rewrite !list_lookup_fmap, Hn, Ho in E. cbn in E. congruence.
Qed.

Lemma eq_binds alias : exists b, walkPreds (bindIn d alias h) w ∅ = Ok b /\
  forall q, (q < length cols)%nat -> exists o, ords !! q = Some o /\ b !! q = Some (mkBinding o None).
Proof.
  destruct (walk_and (C := False) (bindIn d alias h) (λ dn b, forall q, q ∈ dn -> exists o, ords !! q = Some o /\ b !! q = Some (mkBinding o None))
    (seq 0 (length cols)) ∅) as (b & Hb & Hq).
  - by intros q ?%elem_of_nil.
  - intros dn q b Hin Hdn. apply elem_of_seq in Hin. destruct (eq_at q) as (name & o & lit & n & c & Hn & Ho & _ & _ & Hi & _); [lia|].
    assert (bindIn d alias h q b = Ok (<[q := mkBinding o None]> b)) as ->.
    { unfold bindIn, resolveIn. cbn. rewrite Hn. cbn. by rewrite Hi. }
    eexists. split; [done|]. intros q'. rewrite elem_of_app, list_elem_of_singleton. intros Hq'. destruct (decide (q' = q)) as [->|Hne].
    + exists o. split; [done|]. apply (lookup_insert_eq (M := gmap nat)).
    + destruct Hq' as [Hq'| ->]; [|done]. destruct (Hdn q' Hq') as (o' & H1 & H2). exists o'. split; [done|].
      etransitivity; [by apply (lookup_insert_ne (M := gmap nat))|done].
  - exists b. split; [done|]. intros q Hlt. apply Hq, elem_of_seq. lia.
Qed.

Lemma eq_plan alias : exists p, planScan d alias h w = Ok p.
Proof.
  unfold planScan, planScanOrdered. destruct (eq_binds alias) as (b & -> & Hb). cbn [mbind outcome_bind]. rewrite conjuncts_preds.
  assert (forall qs u, (forall q, q ∈ qs -> (q < length cols)%nat) -> exists u', classify d h b u qs = Ok u') as Hcl.
  { induction qs as [|q qs IH]; intros u Hqs; [by eexists|]. cbn [classify].
    destruct (Hb q) as (o & Ho & Hbq); [apply Hqs; by left|]. destruct (eq_at q) as (name & o' & lit & n & c & _ & Ho' & _ & _ & _ & Hc & _); [apply Hqs; by left|].
    assert (exists u', addConjunct d h b u q = Ok u') as [u' ->]; [|cbn [mbind outcome_bind]; apply IH; intros; apply Hqs; by right].
    assert (o' = o) as -> by congruence. unfold addConjunct, bound. rewrite Hbq. cbn [from_option bdL id default]. case_match; [by eexists|]. unfold at_index.
    rewrite Hc. cbn [mbind outcome_bind]. case_match; by eexists. }
  destruct (Hcl (seq 0 (length cols)) (mkUsable ∅ ∅ ∅)) as [u ->]; [intros q Hq%elem_of_seq; lia|]. cbn [mbind outcome_bind].
  case_match; [by eexists|]. cbv zeta. case_match; [by eexists|]. destruct (match _ !! _ with Some _ => _ | None => _ end) as [[from stops] pushed]. by eexists.
Qed.

Lemma eq_tuple row : refTuple row ords = Some ns <-> forall i o n, ords !! i = Some o -> ns !! i = Some n -> val_at row o = n.
Proof.
  unfold refTuple. change (λ o, default ANil (row !! o)) with (val_at row). split.
  - destruct (existsb _ _); [done|]. intros [= E] i o n Ho Hn. pose proof (f_equal (λ l, l !! i) E) as Ei. cbn in Ei. rewrite list_lookup_fmap, Ho in Ei. cbn in Ei. congruence.
  - intros H. assert (val_at row <$> ords = ns) as E.
    { apply list_eq. intros i. rewrite list_lookup_fmap. destruct (ords !! i) as [o|] eqn:Ho; cbn.
      - destruct (ns !! i) as [n|] eqn:Hn; [by rewrite (H i o n)|]. apply lookup_lt_Some in Ho. apply lookup_ge_None in Hn. pose proof (ea_ns _ _ _ _ _ Ha). lia.
      - apply lookup_ge_None in Ho. symmetry. apply lookup_ge_None. pose proof (ea_ns _ _ _ _ _ Ha). lia. }
    rewrite E. destruct (existsb is_nil ns) eqn:Ex; [|done]. apply existsb_exists in Ex as (n & Hn & Hnil). apply list_elem_of_In, list_elem_of_lookup in Hn as [i Hi].
    pose proof (lookup_lt_Some _ _ _ Hi) as Hlt. rewrite (ea_ns _ _ _ _ _ Ha), <- eq_length in Hlt.
    destruct (eq_at i Hlt) as (_ & o & lit & n' & c & _ & _ & _ & Hn' & _ & _ & [Ht Hno]). assert (n' = n) as -> by congruence.
    rewrite (normalize_nil _ _ Hno) in Hnil. by rewrite (typed_not_nil _ _ Ht) in Hnil.
Qed.

Lemma eq_evals alias b row : walkPreds (bindIn d alias h) w ∅ = Ok b -> row_ok d row ->
  exists t, evalPreds h b noCond w row = Ok t /\ (t = triTrue <-> refTuple row ords = Some ns).
Proof.
  intros Hw Hr. destruct (eq_binds alias) as (b' & Hw' & Hb). assert (b' = b) as -> by congruence. clear Hw'.
  assert (forall q, (q < length cols)%nat -> exists t, (let bd := bound b q in rhs ← match bdR bd with Some r => at_index row r | None => Ok (pVal (h q)) end;
    v ← at_index row (bdL bd); checkPred v (pOp (h q)) rhs) = Ok t /\ forall o n, ords !! q = Some o -> ns !! q = Some n -> (t = triTrue <-> val_at row o = n)) as Hleaf.
  { intros q Hq. destruct (eq_at q Hq) as (name & o & lit & n & c & Hn & Ho & Hl & Hns & Hi & Hc & Hs). destruct (Hb q Hq) as (o' & Ho' & Hbq).
    assert (o' = o) as -> by congruence. destruct (row_stored d row o c Hr Hc) as [Hv Hst]. destruct (checkPred_same _ _ _ _ Hst Hs) as (t & Ht & Hiff).
    exists t. unfold bound. rewrite Hbq. cbn. rewrite Hl. unfold at_index. rewrite Hv. cbn. split; [done|]. intros o0 n0 E1 E2. simplify_eq. done. }
  unfold evalPreds. edestruct (eval_preds_and (C := False)) as (t & Ht & Hiff); [|exists t; split; [exact Ht|]].
  - intros q Hq%elem_of_seq. destruct (Hleaf q) as (t & Ht & _); [lia|]. by exists t.
  - rewrite Hiff, eq_tuple. split.
    + intros H i o n Ho Hn. assert (i < length cols)%nat as Hlt by (rewrite eq_length; by eapply lookup_lt_Some). destruct (Hleaf i Hlt) as (t' & Ht' & Hi).
      rewrite H in Ht' by (apply elem_of_seq; lia). injection Ht' as <-. by apply (Hi o n).
    + intros H q Hq%elem_of_seq. destruct (Hleaf q) as (t' & Ht' & Hi); [lia|]. destruct (eq_at q) as (_ & o & _ & n & _ & _ & Ho & _ & Hn & _); [lia|].
      etransitivity; [exact Ht'|]. f_equal. apply (Hi o n); [done..|]. by apply (H q).
Qed.
End eqs.

(** ** Rows removed *)

Lemma room_fewer k m m' name d P : db_inv m -> room k m -> rows_step name d P m m' -> (forall T T', P T T' -> (size T' <= size T)%nat) -> room k m'.
Proof.
  intros Hdb Hr [Hold Hnew Hrows Hoth] HP n d1 Hat. destruct (decide (n = name)) as [->|Hn].
  - assert (d1 = d) as -> by (unfold table_at in *; congruence). destruct (Hr name d Hold) as (R1 & R2 & R3). split_and!; [done..|]. intros T HT.
    destruct (rows_of_abstracts d m (to_inv _ _ (db_table m Hdb name d Hold))) as [H0 _]. destruct (Hrows _ H0) as (T' & HP' & HT').
    rewrite (abstracts_unique d m' T T' HT HT'). specialize (HP _ _ HP'). specialize (R3 _ H0). lia.
  - destruct (others_size m m' name n d1 Hdb Hoth Hn Hat) as [Hat0 HT]. destruct (Hr n d1 Hat0) as (R1 & R2 & R3). split_and!; [done..|]. auto.
Qed.
Lemma view_ok_fewer r m m' name d P : view_ok r m -> db_inv m' -> rows_step name d P m m' -> (forall T T', P T T' -> (size T' <= size T)%nat) -> view_ok r m'.
Proof. intros [H1 H2 H3] Hdb Hst HP. split; [done|by apply (schema_rows m m' name d P)|by apply (room_fewer r m m' name d P)]. Qed.

(** The rows of each table after a step on one of them. *)
Lemma others_stored m m' name n d row : db_inv m -> others name m m' -> n <> name -> table_at m n d -> stored d m' row <-> stored d m row.
Proof.
  intros Hdb [Ho _] Hn Hat. destruct (Ho n d Hn) as [_ H]. destruct (rows_of_abstracts d m (to_inv _ _ (db_table m Hdb n d Hat))) as [H0 _].
  rewrite (abs_stored d m' _ (H Hat _ H0)). symmetry. apply (abs_stored d m _ H0).
Qed.

(** [m'] is [m] less the rows [gone]. *)
Record less (gone : bytes -> list any -> Prop) (m m' : kvmap) : Prop := {
  ls_tables : same_tables m m';
  ls_rows n d row : table_at m n d -> stored d m' row <-> stored d m row /\ ~ gone n row;
}.
Lemma same_at m m' n d : same_tables m m' -> table_at m' n d <-> table_at m n d.
Proof. intros H. unfold table_at. by rewrite H. Qed.
Lemma less_none m : less (λ _ _, False) m m.
Proof. split; [done|]. intros. tauto. Qed.
Lemma less_trans g1 g2 m1 m2 m3 : less g1 m1 m2 -> less g2 m2 m3 -> less (λ n row, g1 n row \/ g2 n row) m1 m3.
Proof.
  intros [T1 R1] [T2 R2]. split; [by etransitivity|]. intros n d row Hat. rewrite R2, R1 by (done || by apply (same_at m1 m2)). tauto.
Qed.
Lemma less_iff (g1 g2 : bytes -> list any -> Prop) m m' : (forall n row, g1 n row <-> g2 n row) -> less g1 m m' -> less g2 m m'.
Proof. intros H [T R]. split; [done|]. intros n d row Hat. by rewrite R, H. Qed.

Lemma rows_step_less m m' name d old : db_inv m -> db_inv m' -> stored d m old ->
  rows_step name d (λ T T', T !! pkOf d old = Some old /\ T' = spec_delete T (pkOf d old)) m m' -> less (λ n row, n = name /\ row = old) m m'.
Proof.
  intros Hdb Hdb' Hold Hst. split; [by eapply rows_step_tables|]. intros n d1 row Hat. destruct Hst as [H1 _ Hrows Hoth]. destruct (decide (n = name)) as [->|Hn].
  - assert (d1 = d) as -> by (unfold table_at in *; congruence).
    destruct (rows_of_abstracts d m (to_inv _ _ (db_table m Hdb name d Hat))) as [H0 _]. destruct (Hrows _ H0) as (T' & [HT ->] & HT').
    rewrite (abs_stored d m' _ HT'), (abs_stored d m _ H0). unfold spec_delete. destruct (decide (pkOf d old = pkOf d row)) as [Ep|Ep].
    + rewrite Ep, lookup_delete_eq, <- Ep. split; [done|]. intros [E Hne]. destruct Hne. split; congruence.
    + rewrite lookup_delete_ne by done. split; [|by intros []]. intros E. split; [done|]. intros [_ ->]. done.
  - rewrite (others_stored m m' name n d1) by done. naive_solver.
Qed.

Lemma del_row_size d row m : desc_wf d -> is_Some (m !! row_key d row) -> (size (del_row d row m) < size m)%nat.
Proof.
  intros Hwf [v Hv]. unfold del_row.
  assert (del_entries d row (tIndexes d) m ⊆ m) as Hsub.
  { generalize (tIndexes d). intros idxs. revert m Hv. unfold del_entries. induction idxs as [|idx idxs IH] using rev_ind; intros m Hv; [done|].
    rewrite foldl_app. cbn. etransitivity; [apply delete_subseteq|by apply IH]. }
  assert (delete (row_key d row) (del_entries d row (tIndexes d) m) ⊆ delete (row_key d row) m) as Hd by (by apply delete_mono).
  apply map_subseteq_size in Hd. rewrite (map_size_delete_Some (row_key d row) m) in Hd by eauto.
  assert (size m <> 0%nat) by (intros E%map_size_empty_inv; by subst m). lia.
Qed.

Lemma fullPKKey_pkOf d row : desc_wf d -> row_ok d row -> Forall any_ok (pkOf d row) /\ fullPKKey d (pkOf d row) = Ok (row_key d row).
Proof.
  intros Hwf Hr. assert (Forall canon (pkOf d row)) as Hc by (apply pkOf_canon, Hr).
  assert (Forall any_ok (pkOf d row)) as Hok by (eapply Forall_impl; [exact Hc|apply canon_any_ok]). split; [done|].
  unfold fullPKKey. assert (length (pkOf d row) = length (tPKCols d)) as Hl by (unfold pkOf; apply length_fmap). case_decide; [lia|].
  assert (coercePK d (pkOf d row) = Ok (pkOf d row)) as ->.
  { unfold coercePK, pkOf. pose proof (wf_pk_range d Hwf) as Hpk. assert (forall o, o ∈ tPKCols d -> isPK d o = true) as Hin by (intros o Ho; unfold isPK; by apply bool_decide_eq_true).
    revert Hin. clear -Hpk Hr. induction Hpk as [|o pk Ho _ IH]; intros Hin; [done|]. csimpl. cbn [coercePK_loop]. unfold at_index.
    destruct (lookup_lt_is_Some_2 _ _ Ho) as [c Hcc]. rewrite Hcc. cbn [mbind outcome_bind]. destruct (row_stored d row o c Hr Hcc) as [Hv _]. rewrite Hv. cbn [from_option id default].
    destruct Hr as [[_ Hcell] _]. specialize (Hcell o c _ Hcc Hv). unfold cell_ok in Hcell. rewrite (Hin o) in Hcell by (by left).
    destruct (is_nil (val_at row o)) eqn:En; [by destruct Hcell|]. rewrite coerce_fixed by apply Hcell. cbn [mbind outcome_bind]. rewrite En.
    rewrite IH by (intros; apply Hin; by right). done. }
  cbn [mbind outcome_bind]. unfold rowKey. rewrite Append_spec by done. by rewrite normals_canon_id.
Qed.

(** ** Foreign keys and their columns *)

(** The parent of a foreign key and the ordinals of the referenced columns. *)
Record fk_on (m : kvmap) (d : TableDesc) (f : FKDesc) (p : TableDesc) (pords : list nat) : Prop := {
  on_parent : table_at m (fkRefTable f) p;
  on_cols : ColIndex p <$> fkRefCols f = Some <$> pords;
  on_types : Forall2 (λ o po, exists c c', tColumns d !! o = Some c /\ tColumns p !! po = Some c' /\ colType c = colType c') (fkCols f) pords;
}.
(** Every reference holds. *)
Definition ref_ok (m : kvmap) : Prop := forall n d f p pords, table_at m n d -> f ∈ tForeignKeys d -> fk_on m d f p pords -> refs_hold d p (fkCols f) pords m.

Lemma ColIndex_name d o c : desc_wf d -> tColumns d !! o = Some c -> ColIndex d (colName c) = Some o.
Proof.
  intros Hwf Hc. destruct (ColIndex d (colName c)) as [o'|] eqn:Ei.
  - destruct (ColIndex_Some _ _ _ Ei) as (c' & Hc' & En). f_equal. eapply (NoDup_lookup (colName <$> tColumns d)); [apply Hwf|by rewrite list_lookup_fmap, Hc'|].
    rewrite list_lookup_fmap, Hc. cbn. by rewrite En.
  - destruct (ColIndex_None _ _ Ei). apply list_elem_of_fmap. exists c. split; [done|]. by eapply list_elem_of_lookup_2.
Qed.
Lemma fk_on_exists m n d f : db_inv m -> fks_ok m -> table_at m n d -> f ∈ tForeignKeys d -> exists p pords, fk_on m d f p pords.
Proof.
  intros Hdb Hfk Hat Hf. destruct (Hfk n d f Hat Hf) as (p & Hp & Hc & _). destruct (table_at_wf _ _ p Hdb Hp) as [_ Hwp]. exists p.
  assert (exists pords, ColIndex p <$> fkRefCols f = Some <$> pords /\ Forall2 (λ o po, exists c c', tColumns d !! o = Some c /\ tColumns p !! po = Some c' /\ colType c = colType c') (fkCols f) pords)
    as (pords & H1 & H2); [|by exists pords].
  induction Hc as [|o name cols names (c & q & Hc & Hq & En & Et) _ (pords & H1 & H2)]; [by exists []|]. apply list_elem_of_lookup in Hq as [po Hpo].
  exists (po :: pords). csimpl. rewrite H1. split; [f_equal; rewrite <- En; by apply ColIndex_name; [apply Hwp|]|]. constructor; [|done]. by exists c, q.
Qed.
Lemma fk_on_same m m' d f p pords : same_tables m m' -> fk_on m' d f p pords <-> fk_on m d f p pords.
Proof. intros Hs. split; intros [H1 H2 H3]; (split; [|done..]); by apply (same_at m m'). Qed.

(** The values of columns of a row, read from the row as it was handed to
    the store or as stored. *)
Lemma refTuple_Some row ords vs : refTuple row ords = Some vs -> vs = val_at row <$> ords /\ Forall (λ v, is_nil v = false) vs.
Proof.
  unfold refTuple. change (λ o, default ANil (row !! o)) with (val_at row). destruct (existsb _ _) eqn:Ex; [done|]. intros [= <-]. split; [done|].
  apply Forall_forall. intros v Hv. destruct (is_nil v) eqn:En; [|done]. assert (existsb is_nil (val_at row <$> ords) = true); [|congruence].
  apply existsb_exists. exists v. split; [by apply list_elem_of_In|done].
Qed.
Lemma refTuple_pairs d row nrow cols : row_typed d row -> normals row = Ok nrow -> Forall (λ o, o < length (tColumns d))%nat cols ->
  match refTuple row cols with
  | None => refTuple nrow cols = None
  | Some lits => exists ns, refTuple nrow cols = Some ns /\ length lits = length cols /\ length ns = length cols /\
      forall i o c lit n, cols !! i = Some o -> tColumns d !! o = Some c -> lits !! i = Some lit -> ns !! i = Some n -> same_value (colType c) lit n
  end.
Proof.
  intros [Hl Hcell] Hn Hr. assert (forall o, (o < length (tColumns d))%nat -> exists c, tColumns d !! o = Some c /\ row !! o = Some (val_at row o) /\
    nrow !! o = Some (val_at nrow o) /\ normalize (val_at row o) = Ok (val_at nrow o)) as Hat.
  { intros o Ho. destruct (lookup_lt_is_Some_2 (tColumns d) o Ho) as [c Hc], (lookup_lt_is_Some_2 row o) as [v Hv]; [lia|].
    apply traverse_ok in Hn. destruct (Forall2_lookup_l _ _ _ _ _ Hn Hv) as (n & Hno & Hnv). exists c. unfold val_at. by rewrite Hv, Hno. }
  assert (existsb is_nil (val_at nrow <$> cols) = existsb is_nil (val_at row <$> cols)) as Enil.
  { clear -Hr Hat. induction Hr as [|o cols Ho _ IH]; [done|]. csimpl. cbn [existsb]. rewrite IH. destruct (Hat o Ho) as (_ & _ & _ & _ & E). by rewrite (normalize_nil _ _ E). }
  unfold refTuple. change (λ o, default ANil (row !! o)) with (val_at row). change (λ o, default ANil (nrow !! o)) with (val_at nrow). rewrite Enil.
  destruct (existsb is_nil (val_at row <$> cols)) eqn:Ex; [done|]. eexists. split; [done|]. rewrite !length_fmap. split_and!; [done..|].
  intros i o c lit n Hi Hc. rewrite !list_lookup_fmap, Hi. intros [= <-] [= <-]. rewrite Forall_forall in Hr. destruct (Hat o) as (c' & Hc' & Hv & _ & Hno).
  { apply Hr. by eapply list_elem_of_lookup_2. }
  split; [|done]. specialize (Hcell o c _ Hc Hv). unfold cell_ok in Hcell. destruct (is_nil (val_at row o)) eqn:En; [|apply Hcell].
  assert (existsb is_nil (val_at row <$> cols) = true); [|congruence]. apply existsb_exists. exists (val_at row o). split; [|done].
  apply list_elem_of_In, list_elem_of_fmap. exists o. split; [done|]. by eapply list_elem_of_lookup_2.
Qed.
Lemma fk_ranges m n d f p pords : db_inv m -> table_at m n d -> fk_on m d f p pords ->
  Forall (λ o, o < length (tColumns d))%nat (fkCols f) /\ Forall (λ o, o < length (tColumns p))%nat pords.
Proof.
  intros Hdb Hat [_ _ Ht]. split; [eapply Forall2_Forall_l; [exact Ht|]|eapply Forall2_Forall_r; [exact Ht|]]; apply Forall_true; intros o o' (c & c' & H1 & H2 & _); by eapply lookup_lt_Some.
Qed.

(** Looking for the parent of a child row. *)
Lemma parent_args m n d f p pords row nrow lits : db_inv m -> table_at m n d -> fk_on m d f p pords -> row_typed d row -> normals row = Ok nrow ->
  refTuple row (fkCols f) = Some lits -> exists ns, refTuple nrow (fkCols f) = Some ns /\ eq_args p (fkRefCols f) pords lits ns.
Proof.
  intros Hdb Hat Hon Ht Hn Hl. destruct (fk_ranges m n d f p pords Hdb Hat Hon) as [Hr _]. pose proof (refTuple_pairs d row nrow _ Ht Hn Hr) as H. rewrite Hl in H.
  destruct H as (ns & Hns & L1 & L2 & Hv). exists ns. split; [done|]. pose proof (Forall2_length _ _ _ (on_types _ _ _ _ _ Hon)) as Hlen. split; [apply Hon|congruence..|].
  intros i po lit n' Hi H1 H2. destruct (Forall2_lookup_r _ _ _ _ _ (on_types _ _ _ _ _ Hon) Hi) as (o & Ho & c & c' & Hc & Hc' & Et). exists c'. split; [done|].
  rewrite <- Et. by apply (Hv i o c).
Qed.
(** Looking for the children of a parent row. *)
Lemma child_args m n d f p pords prow vs : db_inv m -> table_at m n d -> fk_on m d f p pords -> row_ok p prow -> refTuple prow pords = Some vs ->
  exists names, fkChildCols (d, f) = Ok names /\ eq_args d names (fkCols f) vs vs.
Proof.
  intros Hdb Hat Hon [Ht Hc] Hv. destruct (fk_ranges m n d f p pords Hdb Hat Hon) as [Hr Hrp]. destruct (table_at_wf _ _ d Hdb Hat) as [_ Hwd].
  pose proof (refTuple_pairs p prow prow pords Ht (normals_canon_id _ Hc) Hrp) as H. rewrite Hv in H. destruct H as (ns & [= <-] & L1 & _ & Hval).
  pose proof (Forall2_length _ _ _ (on_types _ _ _ _ _ Hon)) as Hlen.
  assert (exists names, fkChildCols (d, f) = Ok names /\ ColIndex d <$> names = Some <$> fkCols f) as (names & H1 & H2).
  { unfold fkChildCols. cbn. clear -Hr Hwd. induction Hr as [|o cols Ho _ (names & H1 & H2)]; [by exists []|]. cbn [traverse].
    destruct (lookup_lt_is_Some_2 _ _ Ho) as [c Hc]. assert (at_index (tColumns d) o = Ok c) as -> by (unfold at_index; by rewrite Hc). cbn [fmap outcome_fmap mbind outcome_bind]. rewrite H1. cbn [mbind outcome_bind]. eexists. split; [done|].
    csimpl. rewrite H2. f_equal. by apply ColIndex_name; [apply Hwd|]. }
  exists names. split; [done|]. split; [done|congruence..|]. intros i o lit n' Hi E1 E2. destruct (Forall2_lookup_l _ _ _ _ _ (on_types _ _ _ _ _ Hon) Hi) as (po & Hpo & c & c' & Hcc & Hc' & Et).
  exists c. split; [done|]. rewrite Et. by apply (Hval i po c').
Qed.
Lemma fkRefTuple_ok p refCols pords row : ColIndex p <$> refCols = Some <$> pords -> Forall (λ o, o < length row)%nat pords ->
  fkRefTuple p refCols row = Ok (refTuple row pords).
Proof.
  intros E Hr. revert refCols E. unfold refTuple. induction Hr as [|o pords Ho _ IH]; intros [|name refCols]; try done. csimpl. intros [= E1 E2]. cbn [fkRefTuple]. rewrite E1.
  unfold at_index. destruct (lookup_lt_is_Some_2 _ _ Ho) as [v Hv]. rewrite Hv. cbn [mbind outcome_bind from_option id existsb]. destruct (is_nil v); [done|].
  rewrite (IH _ E2). cbn [mbind outcome_bind orb]. by destruct (existsb _ _).
Qed.

(** ** Inside a transaction *)

Section checks.
Context {E : Type} {eng : EngineOps E} {eng_laws : EngineLaws E} {cs : CatState E} {cat_laws : CatLaws E} {te : TxnEngine E} {te_laws : TxnEngineLaws E}.
Context {tx sp : Type} {kv : KV tx} {kv_laws : KVLaws tx} {sv : KVSave tx sp} {sv_laws : KVSaveLaws tx sp} {sp_eq : EqDecision sp}.
Context {re : Regexp}.
Abbreviation Txn := (Txn tx sp).
Context (ctx : E * Txn -> nat -> option error).

(** The map a state holds. *)
Definition mapOf (s : E * Txn) : kvmap := kv_map (xTx s.2).
(** The step changed none of the data. *)
Definition peeks (r : Z) (s s' : E * Txn) : Prop := goes r s s' /\ mapOf s' = mapOf s.
Lemma peeks_refl r s : txn_ok r s.1 s.2 -> peeks r s s.
Proof. intros H. split; [by apply goes_refl|done]. Qed.
Lemma peeks_trans r s1 s2 s3 : peeks r s1 s2 -> peeks r s2 s3 -> peeks r s1 s3.
Proof. intros [G1 M1] [G2 M2]. split; [by eapply goes_trans|congruence]. Qed.

(** The statement's context was done. *)
Definition cancelled (er : error) : Prop := exists s i, ctx s i = Some er.
(** Indexes are named. *)
Definition named (d : TableDesc) : Prop := Forall (λ x, ixName x <> []) (tIndexes d).

Lemma scan_eq r table d cols ords lits ns p keep e T : txn_ok r e T -> table_at (kv_map (xTx T)) table d -> named d -> eq_args d cols ords lits ns ->
  planScan d table (eqHeap cols lits) (BAnd (BPred <$> seq 0 (length cols))) = Ok p ->
  wp (scanRowsOf ctx (eqHeap cols lits) p noCond keep table) (λ o s', peeks r (e, T) s' /\
    match o with
    | Ok rows => exists found pre, NoDup found /\ (forall row, row ∈ found <-> stored d (kv_map (xTx T)) row /\ refTuple row ords = Some ns) /\
        rows = mkRow d <$> pre /\ pre `prefix_of` found /\ (pre = found \/ pre <> [] /\ keep (reverse rows) = false)
    | Err er => cancelled er
    | Panic _ => False
    end) (e, T).
Proof.
  intros Hok Hat Hn Ha Hp. destruct (table_at_wf _ table d (vo_db _ _ (tk_view _ _ _ Hok)) Hat) as [_ Hwd].
  destruct (abstracts_exists d (kv_map (xTx T)) (cw_wf d Hwd) (to_inv _ _ (db_table _ (vo_db _ _ (tk_view _ _ _ Hok)) table d Hat))) as [Tb HTb].
  assert (lits_ok (eqHeap cols lits) (BAnd (C := False) (BPred <$> seq 0 (length cols)))) as Hl.
  { intros q. rewrite conjuncts_preds. intros Hq%elem_of_seq. destruct (eq_at _ _ _ _ _ Ha q) as (name & o & lit & n & c & _ & _ & Hlit & _ & _ & _ & Ht & Hno); [lia|].
    cbn. rewrite Hlit. cbn. split; [by eapply typed_any_ok|]. destruct lit; try done. cbn in *. unfold normalizeFloat in Hno. by destruct (f64_isNaN _). }
  assert (chooseOrderedPlan d table (eqHeap cols lits) (BAnd (C := False) (BPred <$> seq 0 (length cols))) [] false = Ok (p, false)) as Hc.
  { unfold chooseOrderedPlan. unfold planScan in Hp. by rewrite Hp. }
  pose proof (scan_exact r table d table _ _ [] false p false (ctx (e, T)) noCond keep e T Tb Hok Hat HTb Hn Hl Hc) as H.
  unfold wp, scanRowsOf. destruct (scanPlan _ _ _ _ _ _ _) as [[rows o] s'].
  destruct H as [(b & found & Hb & Hnd & Hin & _ & pre & Hrows & Hpre & Ho) [Hg Hm]]. cbn [fst snd]. split; [by split|].
  assert (forall pk row, Tb !! pk = Some row -> exists t, evalPreds (eqHeap cols lits) b noCond (BAnd (C := False) (BPred <$> seq 0 (length cols))) row = Ok t) as Hev.
  { intros pk row HT. apply (abs_lookup d _ Tb _ _ HTb) in HT as [Hs%stored_ok _]. destruct (eq_evals d cols ords lits ns Ha table b row Hb Hs) as (t & Ht & _). by exists t. }
  destruct o as [[]|er|q].
  - exists found, pre. split_and!; [done| |done..]. intros row. rewrite Hin, <- (abs_stored d _ Tb HTb). split; intros [Hs Hr]; (split; [done|]).
    + destruct (eq_evals d cols ords lits ns Ha table b row Hb (stored_ok _ _ _ Hs)) as (t & Ht & Hiff). apply Hiff. congruence.
    + destruct (eq_evals d cols ords lits ns Ha table b row Hb (stored_ok _ _ _ Hs)) as (t & Ht & Hiff). apply Hiff in Hr. congruence.
  - destruct Ho as [[i Hi]|(pk & row & HT & He)]; [by exists (e, T), i|]. destruct (Hev pk row HT) as [t Ht]. congruence.
  - destruct Ho as (pk & row & HT & He). destruct (Hev pk row HT) as [t Ht]. congruence.
Qed.

(** *** Lookups *)

Lemma fkRowExists_wp r table d cols ords lits ns e T : txn_ok r e T -> table_at (kv_map (xTx T)) table d -> named d -> eq_args d cols ords lits ns ->
  wp (fkRowExists ctx table cols lits) (λ o s', peeks r (e, T) s' /\
    match o with
    | Ok b => b = true <-> exists row, stored d (kv_map (xTx T)) row /\ refTuple row ords = Some ns
    | Err er => cancelled er
    | Panic _ => False
    end) (e, T).
Proof.
  intros Hok Hat Hn Ha. unfold fkRowExists. apply wp_bind, (wp_TxnTable r); [done|]. intros [e1 T1] Hg Ht _ od Hod. unfold table_at in Hat. rewrite Hat in Hod. injection Hod as <-.
  cbn [seqQ fst snd] in *. assert (peeks r (e, T) (e1, T1)) as Hp1 by (split; [done|unfold mapOf; cbn; by rewrite Ht]).
  apply wp_bind_lift. unfold eqConds. rewrite bool_decide_eq_true_2 by (rewrite (ea_lits _ _ _ _ _ Ha), (eq_length _ _ _ _ _ Ha); done). cbn [seqQ].
  apply wp_bind_lift. destruct (eq_plan d cols ords lits ns Ha table) as [p Hp]. rewrite Hp. cbn [seqQ].
  apply wp_bind. eapply wp_mono.
  { apply (scan_eq r table d cols ords lits ns p (λ _, false) e1 T1); [apply Hg| |done..]. unfold table_at. by rewrite Ht. }
  intros [rows|er|q] s' [Hpk H]; cbn [seqQ]; [|split; [by eapply peeks_trans|done]|done]. apply wp_ret. split; [by eapply peeks_trans|].
  destruct H as (found & pre & _ & Hin & -> & Hpre & Hend). rewrite Ht in Hin. rewrite length_fmap, bool_decide_eq_true. split.
  - intros Hlt. destruct pre as [|row pre]; [cbn in Hlt; lia|]. exists row. apply Hin. eapply elem_of_prefix; [|exact Hpre]. by left.
  - intros (row & Hr). apply Hin in Hr. destruct Hend as [->|[Hne _]]; [|destruct pre; [done|cbn; lia]]. destruct found; [by apply elem_of_nil in Hr|cbn; lia].
Qed.

(** *** Deletes *)

Lemma stored_inj d m r1 r2 : stored d m r1 -> stored d m r2 -> row_key d r1 = row_key d r2 -> r1 = r2.
Proof. intros (_ & v1 & H1 & D1) (_ & v2 & H2 & D2) Ek. rewrite Ek in H1, D1. assert (v2 = v1) as -> by congruence. congruence. Qed.

Lemma TxnDelete_row r name d row e T : txn_ok r e T -> table_at (kv_map (xTx T)) name d -> stored d (kv_map (xTx T)) row ->
  wp (TxnDelete name (pkOf d row)) (λ o s', o = Ok true /\ goes r (e, T) s' /\ less (λ n x, n = name /\ x = row) (kv_map (xTx T)) (mapOf s') /\
    (size (mapOf s') < size (kv_map (xTx T)))%nat) (e, T).
Proof.
  intros Hok Hat Hs. destruct (TxnDesc_at r name d e T Hok Hat) as (e1 & T1 & HD & Hg & Ht). unfold TxnDelete. apply wp_bind.
  unfold wp at 1. rewrite HD. cbn [seqQ fst snd]. pose proof (go_ok _ _ _ Hg) as Hok1. cbn [fst snd] in Hok1. rewrite <- Ht in Hat, Hs |- *.
  destruct (table_at_wf _ name d (vo_db _ _ (tk_view _ _ _ Hok1)) Hat) as [_ Hwd]. pose proof (cw_wf d Hwd) as Hwf.
  destruct (fullPKKey_pkOf d row Hwf (stored_ok _ _ _ Hs)) as [Hpk Hkey].
  apply wp_onKv; [apply tame_of_tx, tame_deleteRow|apply steady_onTx|].
  pose proof (deleteRow_step name d (pkOf d row) e1 (xTx T1) (ready_of _ _ _ Hok1) Hat Hpk) as H1.
  pose proof (deleteRow_wp d Hwf (pkOf d row) (xTx T1) (to_inv _ _ (db_table _ (vo_db _ _ (tk_view _ _ _ Hok1)) name d Hat)) Hpk) as H2.
  unfold wp, onTx in *. cbn [fst snd] in *. destruct (deleteRow d (pkOf d row) (xTx T1)) as [o t']. cbn [fst snd] in *. intros Hal Hc.
  destruct o as [[]|er|q]; [| | |done].
  - destruct H2 as (old & Hk & Hold & Hm), H1 as [_ [Hdb (old' & Hk' & Hst)]].
    assert (row_key d old = row_key d row) as Eold by congruence. apply (stored_inj d _ old row Hold Hs) in Eold as ->.
    assert (stored d (kv_map (xTx T1)) old') as Hold'.
    { destruct (rows_of_abstracts d _ (to_inv _ _ (db_table _ (vo_db _ _ (tk_view _ _ _ Hok1)) name d Hat))) as [H0 _].
      destruct (rs_rows _ _ _ _ _ Hst _ H0) as (T' & [Hl _] & _). by apply (abs_stored d _ _ H0) in Hl. }
    assert (old' = row) as -> by (apply (stored_inj d _ old' row Hold' Hs); congruence).
    split_and!; [done| | |].
    + eapply goes_trans; [exact Hg|]. apply (txn_ok_map r); try done; [|by eapply rows_step_tables; [apply Hok1|..]].
      eapply view_ok_fewer; [apply Hok1|done|exact Hst|]. intros T0 T' [_ ->]. apply map_subseteq_size, delete_subseteq.
    + by eapply rows_step_less; [apply Hok1|..].
    + unfold mapOf. cbn. rewrite Hm. apply del_row_size; [done|]. destruct Hs as (_ & v & Hv & _). by exists v.
  - destruct H2 as (_ & key & Hk & Hn). rewrite Hkey in Hk. injection Hk as <-. destruct Hs as (_ & v & Hv & _). congruence.
  - destruct H2 as [_ H2]. destruct H2 as [er' He]; [apply Hok1|]. congruence.
Qed.

(** Rows that are there, each once: all of them are deleted. *)
Lemma deleteEach_wp r name d rows e T : txn_ok r e T -> table_at (kv_map (xTx T)) name d -> NoDup rows -> Forall (stored d (kv_map (xTx T))) rows ->
  wp (deleteEach name ((λ row, (pkOf d row, row)) <$> rows)) (λ o s', o = Ok rows /\ goes r (e, T) s' /\
    less (λ n x, n = name /\ x ∈ rows) (kv_map (xTx T)) (mapOf s') /\ (size (mapOf s') + length rows <= size (kv_map (xTx T)))%nat) (e, T).
Proof.
  revert e T. induction rows as [|row rows IH]; intros e T Hok Hat Hnd Hst.
  { apply wp_ret. split_and!; [done|by apply goes_refl| |unfold mapOf; cbn; lia]. eapply less_iff, less_none. intros n x. split; [done|]. by intros [_ ?%elem_of_nil]. }
  apply NoDup_cons in Hnd as [Hni Hnd]. apply Forall_cons in Hst as [Hs Hst]. csimpl. cbn [deleteEach]. apply wp_bind.
  eapply wp_mono; [by apply (TxnDelete_row r name d row)|]. intros o [e1 T1] (-> & Hg & Hl & Hsz). cbn [seqQ]. apply wp_bind. unfold mapOf in *. cbn [snd] in *.
  eapply wp_mono; [apply IH; [apply Hg|by apply (same_at _ _ name d (ls_tables _ _ _ Hl))|done|]|].
  { rewrite Forall_forall in *. intros x Hx. apply (ls_rows _ _ _ Hl name d x Hat). split; [by apply Hst|]. intros [_ ->]. done. }
  intros o [e2 T2] (-> & Hg2 & Hl2 & Hsz2). cbn [seqQ]. apply wp_ret. split_and!; [done|by eapply goes_trans| |cbn [snd length] in *; lia].
  eapply less_iff; [|exact (less_trans _ _ _ _ _ Hl Hl2)]. intros n x. rewrite elem_of_cons. naive_solver.
Qed.

(** The rows with the given values, all of them and nothing else. *)
Lemma fkDeleteMatching_wp r d cols ords lits ns e T : txn_ok r e T -> table_at (kv_map (xTx T)) (tName d) d -> named d -> eq_args d cols ords lits ns ->
  wp (fkDeleteMatching ctx d cols lits) (λ o s', goes r (e, T) s' /\
    match o with
    | Ok rows => (forall row, row ∈ rows <-> stored d (kv_map (xTx T)) row /\ refTuple row ords = Some ns) /\
        less (λ n x, n = tName d /\ x ∈ rows) (kv_map (xTx T)) (mapOf s') /\ (size (mapOf s') + length rows <= size (kv_map (xTx T)))%nat
    | Err er => cancelled er
    | Panic _ => False
    end) (e, T).
Proof.
  intros Hok Hat Hn Ha. destruct (table_at_wf _ _ d (vo_db _ _ (tk_view _ _ _ Hok)) Hat) as [_ Hwd]. unfold fkDeleteMatching.
  apply wp_bind_lift. unfold eqConds. rewrite bool_decide_eq_true_2 by (rewrite (ea_lits _ _ _ _ _ Ha), (eq_length _ _ _ _ _ Ha); done). cbn [seqQ].
  apply wp_bind_lift. destruct (eq_plan d cols ords lits ns Ha (tName d)) as [p Hp]. rewrite Hp. cbn [seqQ]. unfold collectPKs.
  apply wp_bind, wp_bind. eapply wp_mono; [by apply (scan_eq r (tName d) d cols ords lits ns p (λ _, true) e T)|].
  intros [rows|er|q] [e1 T1] [[Hg Hm] H]; cbn [seqQ]; [|by split|done]. destruct H as (found & pre & Hnd & Hin & -> & _ & [->|[_ Hk]]); [|done].
  unfold mapOf in Hm. cbn [snd] in Hm. apply wp_lift. assert (Forall (stored d (kv_map (xTx T))) found) as Hst by (apply Forall_forall; intros row Hr; by apply Hin).
  assert (traverse (λ r0, pk ← pkValues d (rVals r0); Ok (pk, rVals r0)) (mkRow d <$> found) = Ok ((λ row, (pkOf d row, row)) <$> found)) as ->.
  { apply traverse_ok, Forall2_fmap, Forall_Forall2_diag. eapply Forall_impl; [exact Hst|]. intros row Hs. cbn.
    by rewrite (pkValues_pkOf d (cw_wf d Hwd)) by (apply (stored_canon _ _ _ Hs)). }
  cbn [seqQ]. rewrite <- Hm in *. eapply wp_mono; [by apply (deleteEach_wp r (tName d) d found e1 T1); [apply Hg|..]|].
  intros o s' (-> & Hg2 & Hl & Hsz). split; [by eapply goes_trans|]. by split_and!.
Qed.

(** *** Verification *)

(** A loop of checks. *)
Lemma each_peeks {A : Type} r (f : A -> M (E * Txn) unit) l (P : A -> Prop) (Q : error -> Prop) s : txn_ok r s.1 s.2 ->
  (forall x s', x ∈ l -> peeks r s s' -> wp (f x) (λ o s2, peeks r s' s2 /\ match o with Ok _ => P x | Err er => Q er | Panic _ => False end) s') ->
  wp (for_each f l) (λ o s2, peeks r s s2 /\ match o with Ok _ => forall x, x ∈ l -> P x | Err er => Q er | Panic _ => False end) s.
Proof.
  intros Hok. revert s Hok. induction l as [|x l IH]; intros s Hok Hf; cbn [for_each].
  { apply wp_ret. split; [by apply peeks_refl|]. by intros x ?%elem_of_nil. }
  apply wp_bind. eapply wp_mono; [apply Hf; [by left|by apply peeks_refl]|]. intros [[]|er|q] s1 [Hp H]; cbn [seqQ]; [|done..].
  eapply wp_mono; [apply IH; [apply Hp|]|].
  - intros y s' Hy Hp'. apply Hf; [by right|by eapply peeks_trans].
  - intros o s2 [Hp2 H2]. split; [by eapply peeks_trans|]. destruct o as [[]|er|q]; [|done..]. intros y [->|Hy]%elem_of_cons; [done|by apply H2].
Qed.

Definition all_named (m : kvmap) : Prop := forall n d, table_at m n d -> named d.
(** [vs] is in the referenced columns of some parent row. *)
Definition has_parent (m : kvmap) (p : TableDesc) (pords : list nat) (vs : list any) : Prop := exists prow, stored p m prow /\ refTuple prow pords = Some vs.

Lemma fkVerifyRow_wp r n d row nrow e T (m := kv_map (xTx T)) : txn_ok r e T -> all_named m -> table_at m n d -> row_typed d row -> normals row = Ok nrow ->
  wp (fkVerifyRow ctx d row) (λ o s', peeks r (e, T) s' /\
    match o with
    | Ok _ => forall f p pords vs, f ∈ tForeignKeys d -> fk_on m d f p pords -> refTuple nrow (fkCols f) = Some vs -> has_parent m p pords vs
    | Err er => cancelled er \/ exists f p pords vs, f ∈ tForeignKeys d /\ fk_on m d f p pords /\ refTuple nrow (fkCols f) = Some vs /\ ~ has_parent m p pords vs
    | Panic _ => False
    end) (e, T).
Proof.
  intros Hok Hnm Hat Ht Hn. pose proof (vo_db _ _ (tk_view _ _ _ Hok)) as Hdb. unfold fkVerifyRow.
  eapply wp_mono; [apply (each_peeks r _ _ (λ f, forall p pords vs, fk_on m d f p pords -> refTuple nrow (fkCols f) = Some vs -> has_parent m p pords vs)
    (λ er, cancelled er \/ exists f p pords vs, f ∈ tForeignKeys d /\ fk_on m d f p pords /\ refTuple nrow (fkCols f) = Some vs /\ ~ has_parent m p pords vs)); [done|]|].
  2: { intros o s' [Hp H]. split; [done|]. destruct o as [[]|er|q]; [|done..]. intros f p pords vs Hf. by apply H. }
  intros f [e1 T1] Hf [Hg Hm]. unfold mapOf in Hm. cbn [snd] in Hm.
  destruct (fk_on_exists m n d f Hdb (so_fks _ (vo_schema _ _ (tk_view _ _ _ Hok))) Hat Hf) as (p & pords & Hon). destruct (fk_ranges m n d f p pords Hdb Hat Hon) as [Hr _].
  apply wp_bind_lift. rewrite refVals_ok by (destruct Ht as [-> _]; done). cbn [seqQ]. pose proof (refTuple_pairs d row nrow _ Ht Hn Hr) as Hpair.
  assert (forall p' pords', fk_on m d f p' pords' -> p' = p /\ pords' = pords) as Hu.
  { intros p' pords' [A1 A2 _]. destruct Hon as [B1 B2 _]. unfold table_at in *. assert (p' = p) as -> by congruence. split; [done|]. apply (inj (fmap Some)). congruence. }
  destruct (refTuple row (fkCols f)) as [lits|] eqn:El.
  2: { apply wp_ret. split; [apply peeks_refl, Hg|]. intros p' pords' vs _ Hvs. congruence. }
  destruct (parent_args m n d f p pords row nrow lits Hdb Hat Hon Ht Hn El) as (ns & Hns & Ha). apply wp_bind.
  eapply wp_mono; [apply (fkRowExists_wp r (fkRefTable f) p (fkRefCols f) pords lits ns e1 T1)|]; [apply Hg|rewrite Hm; apply Hon|apply (Hnm (fkRefTable f)), Hon|done|].
  rewrite Hm. fold m. intros [[]|er|q] s' [Hp H]; cbn [seqQ]; [| |split; [done|by left]|done].
  - apply wp_ret. split; [done|]. intros p' pords' vs [-> ->]%Hu Hvs. assert (vs = ns) as -> by congruence. by apply H.
  - apply wp_fail. split; [done|]. right. exists f, p, pords, ns. split_and!; [done..|]. intros Hex. by apply H in Hex.
Qed.

(** The references [refs] to a parent's former row. *)
Definition still (m : kvmap) (r : FKRef) (vs : list any) : Prop := exists row, stored r.1 m row /\ refTuple row (fkCols r.2) = Some vs.
Lemma fkVerifyReferenced_wp r p refs prow e T (m := kv_map (xTx T)) : txn_ok r e T -> all_named m -> table_at m (tName p) p -> row_ok p prow ->
  (forall d f, (d, f) ∈ refs -> references m (tName p) false d f) ->
  wp (fkVerifyReferenced ctx p refs prow) (λ o s', peeks r (e, T) s' /\
    match o with
    | Ok _ => forall d f pords vs, (d, f) ∈ refs -> fk_on m d f p pords -> refTuple prow pords = Some vs -> ~ still m (d, f) vs
    | Err er => cancelled er \/ exists d f pords vs, (d, f) ∈ refs /\ fk_on m d f p pords /\ refTuple prow pords = Some vs /\ still m (d, f) vs
    | Panic _ => False
    end) (e, T).
Proof.
  intros Hok Hnm Hat Hr Hrefs. pose proof (vo_db _ _ (tk_view _ _ _ Hok)) as Hdb. unfold fkVerifyReferenced.
  eapply wp_mono; [apply (each_peeks r _ _ (λ df, forall pords vs, fk_on m df.1 df.2 p pords -> refTuple prow pords = Some vs -> ~ still m df vs)
    (λ er, cancelled er \/ exists d f pords vs, (d, f) ∈ refs /\ fk_on m d f p pords /\ refTuple prow pords = Some vs /\ still m (d, f) vs)); [done|]|].
  2: { intros o s' [Hp H]. split; [done|]. destruct o as [[]|er|q]; [|done..]. intros d f pords vs Hf. by apply (H (d, f)). }
  intros [d f] [e1 T1] Hf [Hg Hm]. unfold mapOf in Hm. cbn [fst snd] in *. destruct (Hrefs d f Hf) as (Hd & Hfd & Eref & _).
  destruct (fk_on_exists m (tName d) d f Hdb (so_fks _ (vo_schema _ _ (tk_view _ _ _ Hok))) Hd Hfd) as (p' & pords & Hon).
  assert (p' = p) as -> by (pose proof (on_parent _ _ _ _ _ Hon) as Hp'; rewrite Eref in Hp'; unfold table_at in *; congruence).
  destruct (fk_ranges m (tName d) d f p pords Hdb Hd Hon) as [_ Hrp].
  assert (forall pords', fk_on m d f p pords' -> pords' = pords) as Hu. { intros pords' [_ A2 _]. destruct Hon as [_ B2 _]. apply (inj (fmap Some)). congruence. }
  apply wp_bind_lift. rewrite (fkRefTuple_ok p (fkRefCols f) pords prow) by (apply Hon || (destruct Hr as [[-> _] _]; done)). cbn [seqQ].
  destruct (refTuple prow pords) as [vs|] eqn:Ev.
  2: { apply wp_ret. split; [apply peeks_refl, Hg|]. intros pords' vs ->%Hu Hvs. congruence. }
  destruct (child_args m (tName d) d f p pords prow vs Hdb Hd Hon Hr Ev) as (names & Hnames & Ha). apply wp_bind_lift. rewrite Hnames. cbn [seqQ]. apply wp_bind.
  eapply wp_mono; [apply (fkRowExists_wp r (tName d) d names (fkCols f) vs vs e1 T1)|]; [apply Hg|by rewrite Hm|by apply (Hnm (tName d))|done|].
  rewrite Hm. fold m. intros [[]|er|q] s' [Hp H]; cbn [seqQ]; [| |split; [done|by left]|done].
  - apply wp_fail. split; [done|]. right. exists d, f, pords, vs. split_and!; [done..|]. by apply H.
  - apply wp_ret. split; [done|]. intros pords' vs' ->%Hu Hvs Hst. assert (vs' = vs) as -> by congruence. by apply H in Hst.
Qed.
End checks.
