(* ===== verification/SqlCascade.v ===== *)
(** * Cascades

    The worklist of [fkAfterDelete]: it ends, it deletes the rows that
    reference a deleted row through ON DELETE CASCADE and no others, and when
    the checks that follow succeed every reference holds again. *)
From S2P Require Import Prelude GoVal GoStr KV Savepoint Tuple Types Catalog Desc Rows Index Table Seq Upkeep Dml Relation Engine Store Database Ddl Fk Schema RowStmt Txn Statements TxnOk SqlVal SqlPlan SqlPlanOk SqlPlanned SqlFk SqlFkOk.

Local Open Scope Z_scope.

(** The rows of a worklist. *)
Definition in_work (w : list deleted) (n : bytes) (row : list any) : Prop := exists ds, ds ∈ w /\ tName (dlDesc ds) = n /\ row ∈ dlRows ds.
Lemma in_work_app w1 w2 n row : in_work (w1 ++ w2) n row <-> in_work w1 n row \/ in_work w2 n row.
Proof. unfold in_work. setoid_rewrite elem_of_app. naive_solver. Qed.
Lemma in_work_nil n row : ~ in_work [] n row.
Proof. by intros (ds & ?%elem_of_nil & _). Qed.
Lemma in_work_one ds n row : in_work [ds] n row <-> tName (dlDesc ds) = n /\ row ∈ dlRows ds.
Proof. unfold in_work. setoid_rewrite list_elem_of_singleton. naive_solver. Qed.

#[export] Instance in_work_dec w n row : Decision (in_work w n row).
Proof.
  destruct (decide (Exists (λ ds, tName (dlDesc ds) = n /\ row ∈ dlRows ds) w)) as [H|H]; rewrite Exists_exists in H; [left|right]; unfold in_work; done.
Defined.

(** [crow] references [prow] through a cascading key. *)
Definition cascades_to (m : kvmap) (n : bytes) (prow : list any) (n' : bytes) (crow : list any) : Prop := exists d f p pords vs,
  references m n false d f /\ tName d = n' /\ cascades (d, f) = true /\ fk_on m d f p pords /\ refTuple prow pords = Some vs /\
  stored d m crow /\ refTuple crow (fkCols f) = Some vs.
(** The rows a DELETE of the rows [hit] is to remove. *)
Inductive doomed (m : kvmap) (hit : bytes -> list any -> Prop) : bytes -> list any -> Prop :=
  | doomed_hit n row : hit n row -> doomed m hit n row
  | doomed_cascade n prow n' crow : doomed m hit n prow -> cascades_to m n prow n' crow -> doomed m hit n' crow.

Lemma references_same m m' n sk d f : same_tables m m' -> references m' n sk d f <-> references m n sk d f.
Proof. intros H. unfold references. by rewrite (same_at m m'). Qed.
Lemma less_stored gone m m' n d row : less gone m m' -> table_at m n d -> stored d m' row -> stored d m row.
Proof. intros Hl Hat Hs. by apply (ls_rows _ _ _ Hl n d row Hat) in Hs as [? _]. Qed.
Lemma still_less gone m m' d f vs : less gone m m' -> table_at m (tName d) d -> still m' (d, f) vs -> still m (d, f) vs.
Proof. intros Hl Hat (row & Hs & Hr). exists row. split; [by eapply less_stored|done]. Qed.

Section cascade.
Context {E : Type} {eng : EngineOps E} {eng_laws : EngineLaws E} {cs : CatState E} {cat_laws : CatLaws E} {te : TxnEngine E} {te_laws : TxnEngineLaws E}.
Context {tx sp : Type} {kv : KV tx} {kv_laws : KVLaws tx} {sv : KVSave tx sp} {sv_laws : KVSaveLaws tx sp} {sp_eq : EqDecision sp}.
Context {re : Regexp}.
Abbreviation Txn := (Txn tx sp).
Context (ctx : E * Txn -> nat -> option error).

Lemma tame_referencingFKs table sk : tame (E := E) (tx := tx) (referencingFKs table sk).
Proof.
  unfold referencingFKs. apply tame_bind; [by intros [e t]|]. intros es. induction es as [|[k v] es IH]; cbn [referencing_loop]; [apply tame_ret|].
  apply tame_bind; [destruct (descKeyName k); [apply tame_tableFromView|apply tame_ret]|]. intros od. apply tame_bind; [done|]. intros rest. apply tame_ret.
Qed.
Lemma steady_referencingFKs table sk : steady (E := E) (tx := tx) (referencingFKs table sk).
Proof.
  unfold referencingFKs. apply steady_bind; [apply steady_onTx|]. intros es. induction es as [|[k v] es IH]; cbn [referencing_loop]; [apply steady_ret|].
  apply steady_bind; [destruct (descKeyName k); [apply steady_tableFromView|apply steady_ret]|]. intros od. apply steady_bind; [done|]. intros rest. apply steady_ret.
Qed.
Lemma ReferencingFKs_wp r table e (T : Txn) : txn_ok r e T ->
  wp (ReferencingFKs table) (λ o s', peeks r (e, T) s' /\ exists refs, o = Ok refs /\ forall d f, (d, f) ∈ refs <-> references (kv_map (xTx T)) table false d f) (e, T).
Proof.
  intros Hok. unfold ReferencingFKs. apply wp_onKv; [apply tame_referencingFKs|apply steady_referencingFKs|].
  apply referencingFKs_wp; [by eapply ready_of|]. intros refs e' Hc Hrefs Hal _. cbn [fst snd]. split; [|by exists refs].
  split; [|done]. apply (txn_ok_map r r); try done. apply Hok.
Qed.

(** The children of the rows of one parent. *)
Lemma cascadeRows_wp r p d f pords names rows e (T : Txn) (m := kv_map (xTx T)) : txn_ok r e T -> all_named m -> table_at m (tName d) d ->
  fk_on m d f p pords -> Forall (row_ok p) rows -> fkChildCols (d, f) = Ok names ->
  wp (cascadeRows ctx p (d, f) names rows) (λ o s', goes r (e, T) s' /\
    match o with
    | Ok got => (forall x, x ∈ got <-> stored d m x /\ exists old vs, old ∈ rows /\ refTuple old pords = Some vs /\ refTuple x (fkCols f) = Some vs) /\
        less (λ n x, n = tName d /\ x ∈ got) m (mapOf s') /\ (size (mapOf s') + length got <= size m)%nat
    | Err er => cancelled ctx er
    | Panic _ => False
    end) (e, T).
Proof.
  unfold m. clear m. revert e T. induction rows as [|old rows IH]; intros e T Hok Hnm Hat Hon Hrows Hnames; cbn [cascadeRows].
  { apply wp_ret. split; [by apply goes_refl|]. split_and!; [|eapply less_iff, less_none|cbn; unfold mapOf; cbn; lia].
    - intros x. split; [by intros ?%elem_of_nil|]. by intros (_ & old & vs & ?%elem_of_nil & _).
    - intros n x. split; [done|]. by intros [_ ?%elem_of_nil]. }
  apply Forall_cons in Hrows as [Hold Hrows]. pose proof (vo_db _ _ (tk_view _ _ _ Hok)) as Hdb. destruct (fk_ranges _ _ _ _ _ _ Hdb Hat Hon) as [_ Hrp].
  apply wp_bind_lift. cbn [snd]. rewrite (fkRefTuple_ok p (fkRefCols f) pords old) by (apply Hon || (destruct Hold as [[-> _] _]; done)). cbn [seqQ]. apply wp_bind.
  apply wp_mono with (Q := λ o s', goes r (e, T) s' /\ match o with
    | Ok got => (forall x, x ∈ got <-> stored d (kv_map (xTx T)) x /\ exists vs, refTuple old pords = Some vs /\ refTuple x (fkCols f) = Some vs) /\
        less (λ n x, n = tName d /\ x ∈ got) (kv_map (xTx T)) (mapOf s') /\ (size (mapOf s') + length got <= size (kv_map (xTx T)))%nat
    | Err er => cancelled ctx er | Panic _ => False end).
  { destruct (refTuple old pords) as [vs|] eqn:Ev.
    - destruct (child_args _ _ d f p pords old vs Hdb Hat Hon Hold Ev) as (names' & Hn' & Ha). assert (names' = names) as -> by congruence.
      eapply wp_mono; [by apply (fkDeleteMatching_wp ctx r d names (fkCols f) vs vs e T); [|done|by apply (Hnm (tName d))|]|].
      intros o s' [Hg H]. split; [done|]. destruct o as [got|er|q]; [|done..]. destruct H as (H1 & H2 & H3). split_and!; [|done..].
      intros x. rewrite H1. naive_solver.
    - apply wp_ret. split; [by apply goes_refl|]. split_and!; [|eapply less_iff, less_none|cbn; unfold mapOf; cbn; lia].
      + intros x. split; [by intros ?%elem_of_nil|]. by intros (_ & vs & ? & _).
      + intros n x. split; [done|]. by intros [_ ?%elem_of_nil]. }
  intros [got|er|q] [e1 T1] [Hg H]; cbn [seqQ]; [|by split|done]. destruct H as (Hgot & Hl & Hsz). unfold mapOf in Hl, Hsz. cbn [snd] in Hl, Hsz.
  pose proof (ls_tables _ _ _ Hl) as Hst. apply wp_bind. eapply wp_mono.
  { apply (IH e1 T1); [apply Hg| |by apply (same_at _ _ _ _ Hst)|by apply (fk_on_same _ _ d f p pords Hst)|done..]. intros n d' H'%(same_at _ _ _ _ Hst). by eapply Hnm. }
  intros [rest|er|q] [e2 T2] [Hg2 H2]; cbn [seqQ]; [|split; [by eapply goes_trans|done]|done]. destruct H2 as (Hrest & Hl2 & Hsz2).
  apply wp_ret. split; [by eapply goes_trans|]. split_and!.
  - intros x. rewrite elem_of_app, Hgot, Hrest. setoid_rewrite elem_of_cons. split.
    + intros [(H1 & vs & H2 & H3)|(H1%(less_stored _ _ _ _ _ _ Hl Hat) & old' & vs & H2 & H3 & H4)]; (split; [done|]); [by exists old, vs; naive_solver|exists old', vs; naive_solver].
    + intros (H1 & old' & vs & [->|H2] & H3 & H4); [left; naive_solver|].
      destruct (decide (x ∈ got)) as [Hx|Hx]; [left; by apply Hgot|right]. split; [|naive_solver]. apply (ls_rows _ _ _ Hl (tName d) d x Hat). split; [done|]. naive_solver.
  - eapply less_iff; [|exact (less_trans _ _ _ _ _ Hl Hl2)]. intros n x. rewrite elem_of_app. naive_solver.
  - rewrite length_app. unfold mapOf in *. cbn [snd] in *. lia.
Qed.

(** A table queued with rows that reference those of [cur]. *)
Record queued (m : kvmap) (cur ds : deleted) : Prop := {
  qu_at : table_at m (tName (dlDesc ds)) (dlDesc ds);
  qu_refs d f : (d, f) ∈ dlRefs ds <-> references m (tName (dlDesc ds)) false d f;
  qu_rows row : row ∈ dlRows ds -> stored (dlDesc ds) m row /\
    exists prow, prow ∈ dlRows cur /\ cascades_to m (tName (dlDesc cur)) prow (tName (dlDesc ds)) row;
}.
Lemma cascades_to_less gone m m' n prow n' crow : less gone m m' -> cascades_to m' n prow n' crow -> cascades_to m n prow n' crow.
Proof.
  intros Hl (d & f & p & pords & vs & Hr & En & Hc & Hon & H1 & H2 & H3). pose proof (ls_tables _ _ _ Hl) as Hst. apply (references_same m m') in Hr; [|done].
  exists d, f, p, pords, vs. split_and!; try done; [by apply (fk_on_same m m')|]. by eapply less_stored; [|apply Hr|].
Qed.
Lemma queued_less gone m m' cur ds : less gone m m' -> queued m' cur ds -> queued m cur ds.
Proof.
  intros Hl [H1 H2 H3]. pose proof (ls_tables _ _ _ Hl) as Hst. apply (same_at m m') in H1; [|done]. split; [done|..].
  - intros d f. by rewrite H2, (references_same m m').
  - intros row Hrow. destruct (H3 row Hrow) as [Hs (prow & Hp & Hc)]. split; [by eapply less_stored|]. exists prow. split; [done|]. by eapply cascades_to_less.
Qed.
(** No child row references a row of [rows] through [r]. *)
Definition closed (m : kvmap) (p : TableDesc) (rows : list (list any)) (r : FKRef) : Prop := forall pords prow vs,
  fk_on m r.1 r.2 p pords -> prow ∈ rows -> refTuple prow pords = Some vs -> ~ still m r vs.
Lemma closed_less gone m m' p rows d f : less gone m m' -> table_at m (tName d) d -> closed m p rows (d, f) -> closed m' p rows (d, f).
Proof.
  intros Hl Hat Hc pords prow vs Hon Hp Hr Hs. eapply (Hc pords prow vs); [|done..|by eapply still_less]. by apply (fk_on_same m m'); [apply Hl|].
Qed.

(** What one round leaves. *)
Definition rounds (cur : deleted) (refs : list FKRef) (r : Z) (s : E * Txn) (o : outcome (list deleted)) (s' : E * Txn) : Prop := goes r s s' /\
  match o with
  | Ok next => less (in_work next) (mapOf s) (mapOf s') /\ (size (mapOf s') + length next <= size (mapOf s))%nat /\ Forall (queued (mapOf s) cur) next /\
      forall x, x ∈ refs -> cascades x = true -> closed (mapOf s') (dlDesc cur) (dlRows cur) x
  | Err er => cancelled ctx er
  | Panic _ => False
  end.

Lemma cascadeRef_wp cur d f r e (T : Txn) (m := kv_map (xTx T)) : txn_ok r e T -> all_named m -> table_at m (tName (dlDesc cur)) (dlDesc cur) ->
  Forall (row_ok (dlDesc cur)) (dlRows cur) -> references m (tName (dlDesc cur)) false d f ->
  wp (if cascades (d, f) then
        cols ← lift (fkChildCols (d, f));
        childRows ← cascadeRows ctx (dlDesc cur) (d, f) cols (dlRows cur);
        match childRows with [] => mret [] | _ => childRefs ← ReferencingFKs (tName d); mret [mkDeleted d childRefs childRows] end
      else mret []) (rounds cur [(d, f)] r (e, T)) (e, T).
Proof.
  intros Hok Hnm Hat Hrows Href. pose proof Href as (Hd & Hf & Eref & _). pose proof (vo_db _ _ (tk_view _ _ _ Hok)) as Hdb.
  assert (forall x, less (in_work []) x x) as Hl0. { intros x. eapply less_iff, less_none. intros n row. split; [done|]. by intros ?%in_work_nil. }
  destruct (cascades (d, f)) eqn:Ecas.
  2: { apply wp_ret. split; [by apply goes_refl|]. split_and!; [apply Hl0|cbn; lia|done|]. intros x ->%list_elem_of_singleton. by rewrite Ecas. }
  destruct (fk_on_exists _ _ _ _ Hdb (so_fks _ (vo_schema _ _ (tk_view _ _ _ Hok))) Hd Hf) as (p & pords & Hon).
  assert (p = dlDesc cur) as -> by (pose proof (on_parent _ _ _ _ _ Hon) as Hp'; rewrite Eref in Hp'; unfold table_at, m in *; congruence).
  assert (forall m' pords', same_tables m m' -> fk_on m' d f (dlDesc cur) pords' -> pords' = pords) as Hu.
  { intros m' pords' Hs [_ A2 _]. destruct Hon as [_ B2 _]. apply (inj (fmap Some)). congruence. }
  assert (exists names, fkChildCols (d, f) = Ok names) as [names Hnames].
  { destruct (fk_ranges _ _ _ _ _ _ Hdb Hd Hon) as [Hr _]. unfold fkChildCols. cbn. clear -Hr. induction Hr as [|o cols Ho _ [names H1]]; [by exists []|]. cbn [traverse].
    destruct (lookup_lt_is_Some_2 _ _ Ho) as [c Hc]. assert (at_index (tColumns d) o = Ok c) as -> by (unfold at_index; by rewrite Hc). cbn [fmap outcome_fmap mbind outcome_bind].
    rewrite H1. by eexists. }
  apply wp_bind_lift. rewrite Hnames. cbn [seqQ]. apply wp_bind.
  eapply wp_mono; [by apply (cascadeRows_wp r (dlDesc cur) d f pords names (dlRows cur) e T)|]. intros [got|er|q] [e1 T1] [Hg H]; cbn [seqQ]; [|by split|done].
  destruct H as (Hgot & Hl & Hsz). pose proof (ls_tables _ _ _ Hl) as Hst.
  assert (closed (mapOf (e1, T1)) (dlDesc cur) (dlRows cur) (d, f)) as Hclosed.
  { intros pords' prow vs Hon' Hp Hr (x & Hx & Hxr). cbn [fst snd] in *. apply (Hu _ _ Hst) in Hon' as ->. apply (ls_rows _ _ _ Hl (tName d) d x Hd) in Hx as [Hx Hng].
    apply Hng. split; [done|]. apply Hgot. split; [done|]. by exists prow, vs. }
  destruct got as [|x got].
  { apply wp_ret. split; [done|]. split_and!; [eapply less_iff; [|exact Hl]|unfold mapOf, m in *; cbn [snd length] in *; lia|done|by intros y ->%list_elem_of_singleton].
    intros n row. split; [by intros [_ ?%elem_of_nil]|by intros ?%in_work_nil]. }
  apply wp_bind. eapply wp_mono; [apply (ReferencingFKs_wp r (tName d) e1 T1), Hg|]. intros o [e2 T2] [[Hg2 Hm2] (refs & -> & Hrefs)]. cbn [seqQ]. apply wp_ret.
  split; [by eapply goes_trans|]. rewrite Hm2. split_and!; [|unfold mapOf, m in *; cbn [snd length] in *; lia| |by intros y ->%list_elem_of_singleton].
  - eapply less_iff; [|exact Hl]. intros n row. rewrite in_work_one. cbn [dlDesc dlRows]. naive_solver.
  - apply Forall_singleton. split; cbn [dlDesc dlRefs dlRows]; [done|..].
    + intros d' f'. rewrite Hrefs. by apply references_same.
    + intros row Hrow. apply Hgot in Hrow as (Hs & old & vs & H1 & H2 & H3). split; [done|]. exists old. split; [done|]. by exists d, f, (dlDesc cur), pords, vs.
Qed.

Lemma cascadeRefs_wp cur refs r e (T : Txn) (m := kv_map (xTx T)) : txn_ok r e T -> all_named m -> table_at m (tName (dlDesc cur)) (dlDesc cur) ->
  Forall (row_ok (dlDesc cur)) (dlRows cur) -> (forall d f, (d, f) ∈ refs -> references m (tName (dlDesc cur)) false d f) ->
  wp (cascadeRefs ctx cur refs) (rounds cur refs r (e, T)) (e, T).
Proof.
  unfold m. clear m. revert e T. induction refs as [|[d f] refs IH]; intros e T Hok Hnm Hat Hrows Hrefs; cbn [cascadeRefs].
  { apply wp_ret. split; [by apply goes_refl|]. split_and!; [|cbn; lia|done|by intros x ?%elem_of_nil]. eapply less_iff, less_none. intros n row. split; [done|]. by intros ?%in_work_nil. }
  apply wp_bind. eapply wp_mono; [apply (cascadeRef_wp cur d f r e T); try done; apply Hrefs; by left|].
  intros [next|er|q] [e1 T1] [Hg H]; cbn [seqQ]; [|by split|done]. destruct H as (Hl & Hsz & Hq & Hc). pose proof (ls_tables _ _ _ Hl) as Hst. unfold mapOf in Hl, Hst. cbn [snd] in Hl, Hst.
  apply wp_bind. eapply wp_mono.
  { apply (IH e1 T1); [apply Hg| |by apply (same_at _ _ _ _ Hst)|done|].
    - intros n d' H'%(same_at _ _ _ _ Hst). by eapply Hnm.
    - intros d' f' H'. apply (references_same _ _ _ _ _ _ Hst), Hrefs. by right. }
  intros [rest|er|q] [e2 T2] [Hg2 H2]; cbn [seqQ]; [|split; [by eapply goes_trans|done]|done]. destruct H2 as (Hl2 & Hsz2 & Hq2 & Hc2). apply wp_ret.
  split; [by eapply goes_trans|]. split_and!.
  - eapply less_iff; [|exact (less_trans _ _ _ _ _ Hl Hl2)]. intros n row. by rewrite in_work_app.
  - rewrite length_app. unfold mapOf in *. cbn [snd] in *. lia.
  - apply Forall_app. split; [done|]. eapply Forall_impl; [exact Hq2|]. intros ds. by eapply queued_less.
  - intros [d' f'] Hin Hcas. apply elem_of_cons in Hin as [[= -> ->]|Hin]; [|by apply Hc2].
    eapply closed_less; [exact Hl2| |by apply Hc; [left|]]. apply (same_at _ _ _ _ Hst). destruct (Hrefs d f) as [H' _]; [by left|done].
Qed.

(** ** The worklist *)

Section work.
Context (m0 : kvmap) (hit : bytes -> list any -> Prop) (Hdb0 : db_inv m0) (Hfk0 : fks_ok m0).

Record entry (ds : deleted) : Prop := {
  en_at : table_at m0 (tName (dlDesc ds)) (dlDesc ds);
  en_refs d f : (d, f) ∈ dlRefs ds <-> references m0 (tName (dlDesc ds)) false d f;
  en_rows row : row ∈ dlRows ds -> stored (dlDesc ds) m0 row /\ doomed m0 hit (tName (dlDesc ds)) row;
}.
Record work_inv (pending dn : list deleted) (m : kvmap) : Prop := {
  wi_less : less (in_work (dn ++ pending)) m0 m;
  wi_entries : Forall entry (dn ++ pending);
  wi_hit n row : hit n row -> in_work (dn ++ pending) n row;
  wi_closed ds x : ds ∈ dn -> x ∈ dlRefs ds -> cascades x = true -> closed m (dlDesc ds) (dlRows ds) x;
}.

Lemma work_step cur pending dn next m m' : work_inv (cur :: pending) dn m -> less (in_work next) m m' -> Forall (queued m cur) next ->
  (forall x, x ∈ dlRefs cur -> cascades x = true -> closed m' (dlDesc cur) (dlRows cur) x) -> work_inv (pending ++ next) (dn ++ [cur]) m'.
Proof.
  intros [Hl He Hh Hc] Hl2 Hq Hcur. assert ((dn ++ [cur]) ++ pending ++ next = (dn ++ cur :: pending) ++ next) as Ew by (by rewrite <- !app_assoc).
  pose proof (ls_tables _ _ _ Hl) as Hst. assert (entry cur) as Hecur by (rewrite Forall_forall in He; apply He; apply elem_of_app; right; by left).
  split; rewrite ?Ew.
  - eapply less_iff; [|exact (less_trans _ _ _ _ _ Hl Hl2)]. intros n row. by rewrite in_work_app.
  - apply Forall_app. split; [done|]. eapply Forall_impl; [exact Hq|]. intros ds Hds. destruct (queued_less _ _ _ _ _ Hl Hds) as [Q1 Q2 Q3].
    split; [done..|]. intros row Hrow. destruct (Q3 row Hrow) as [Hs (prow & Hp & Hcas)]. split; [done|]. eapply doomed_cascade; [|exact Hcas]. by apply (en_rows cur Hecur).
  - intros n row H%Hh. apply in_work_app. by left.
  - intros ds [d f] [Hds| ->%list_elem_of_singleton]%elem_of_app Hx Hcas; [|by apply Hcur].
    assert (entry ds) as Heds by (rewrite Forall_forall in He; apply He; apply elem_of_app; by left).
    eapply closed_less; [exact Hl2| |by apply Hc]. apply (same_at _ _ _ _ Hst). by apply (en_refs ds Heds) in Hx as [? _].
Qed.

Lemma cascade_wp r fuel pending dn e (T : Txn) : txn_ok r e T -> all_named m0 -> work_inv pending dn (kv_map (xTx T)) ->
  (length pending + size (kv_map (xTx T)) <= fuel)%nat ->
  wp (cascade ctx fuel pending dn) (λ o s', goes r (e, T) s' /\ match o with Ok w => work_inv [] w (mapOf s') | Err er => cancelled ctx er | Panic _ => False end) (e, T).
Proof.
  intros Hok Hnm Hinv Hf. revert pending dn e T Hok Hinv Hf. induction fuel as [|fuel IH]; intros pending dn e T Hok Hinv Hf.
  { destruct pending as [|cur pending]; [|cbn in Hf; lia]. apply wp_ret. split; [by apply goes_refl|done]. }
  destruct pending as [|cur pending]; cbn [cascade]; [apply wp_ret; split; [by apply goes_refl|done]|].
  assert (entry cur) as [C1 C2 C3]. { pose proof (wi_entries _ _ _ Hinv) as He. rewrite Forall_forall in He. apply He, elem_of_app. right. by left. }
  pose proof (ls_tables _ _ _ (wi_less _ _ _ Hinv)) as Hst. apply wp_bind. eapply wp_mono.
  { apply (cascadeRefs_wp cur (dlRefs cur) r e T); [done| |by apply (same_at _ _ _ _ Hst)| |].
    - intros n d H'%(same_at _ _ _ _ Hst). by eapply Hnm.
    - apply Forall_forall. intros row Hrow. eapply stored_ok. by apply C3.
    - intros d f H'. by apply (references_same _ _ _ _ _ _ Hst), C2. }
  intros [next|er|q] [e1 T1] [Hg H]; cbn [seqQ]; [|by split|done]. destruct H as (Hl & Hsz & Hq & Hc). unfold mapOf in *. cbn [snd] in *.
  eapply wp_mono; [apply (IH (pending ++ next) (dn ++ [cur]) e1 T1); [apply Hg|by eapply work_step|rewrite length_app; cbn [length] in Hf; lia]|].
  intros o s' [Hg2 H]. split; [by eapply goes_trans|done].
Qed.

(** What is left behind, blocked by a key that does not cascade. *)
Definition blocked (m : kvmap) : Prop := exists n prow d f p pords vs,
  doomed m0 hit n prow /\ references m0 n false d f /\ cascades (d, f) = false /\ fk_on m0 d f p pords /\ refTuple prow pords = Some vs /\ still m (d, f) vs.

Lemma verifyDeleted_wp r w e (T : Txn) : txn_ok r e T -> all_named m0 -> work_inv [] w (kv_map (xTx T)) ->
  wp (for_each (verifyDeleted ctx) w) (λ o s', peeks r (e, T) s' /\
    match o with
    | Ok _ => forall ds x, ds ∈ w -> x ∈ dlRefs ds -> closed (kv_map (xTx T)) (dlDesc ds) (dlRows ds) x
    | Err er => cancelled ctx er \/ blocked (kv_map (xTx T))
    | Panic _ => False
    end) (e, T).
Proof.
  intros Hok Hnm Hinv. pose proof (ls_tables _ _ _ (wi_less _ _ _ Hinv)) as Hst. pose proof (wi_entries _ _ _ Hinv) as He. rewrite app_nil_r, Forall_forall in He.
  eapply wp_mono; [apply (each_peeks r _ _ (λ ds, forall x, x ∈ dlRefs ds -> cascades x = false -> closed (kv_map (xTx T)) (dlDesc ds) (dlRows ds) x)
    (λ er, cancelled ctx er \/ blocked (kv_map (xTx T)))); [done|]|].
  2: { intros o s' [Hp H]. split; [done|]. destruct o as [[]|er|q]; [|done..]. intros ds x Hds Hx. destruct (cascades x) eqn:Ec; [by apply (wi_closed _ _ _ Hinv)|by apply H]. }
  intros ds [e1 T1] Hds [Hg Hm]. unfold mapOf in Hm. cbn [snd] in Hm. destruct (He ds Hds) as [C1 C2 C3]. unfold verifyDeleted. cbv zeta.
  set (restrict := filter (λ x, cascades x = false) (dlRefs ds)).
  assert (forall d f, (d, f) ∈ restrict <-> cascades (d, f) = false /\ (d, f) ∈ dlRefs ds) as Hin by (intros d f; unfold restrict; by rewrite list_elem_of_filter).
  apply wp_mono with (Q := λ o s2, peeks r (e1, T1) s2 /\ match o with
    | Ok _ => forall row, row ∈ dlRows ds -> forall d f pords vs, (d, f) ∈ restrict -> fk_on (kv_map (xTx T)) d f (dlDesc ds) pords -> refTuple row pords = Some vs -> ~ still (kv_map (xTx T)) (d, f) vs
    | Err er => cancelled ctx er \/ blocked (kv_map (xTx T)) | Panic _ => False end).
  2: { intros o s2 [Hp H]. split; [done|]. destruct o as [[]|er|q]; [|done..]. intros [d f] Hx Hc pords prow vs Hon Hp' Hr. eapply H; [done| |done..]. by apply Hin. }
  destruct restrict as [|x0 restrict'] eqn:Er. { apply wp_ret. split; [apply peeks_refl, Hg|]. intros row _ d f pords vs ?%elem_of_nil. done. }
  rewrite <- Er in *. clear Er. apply (each_peeks r _ _ (λ row, forall d f pords vs, (d, f) ∈ restrict -> fk_on (kv_map (xTx T)) d f (dlDesc ds) pords -> refTuple row pords = Some vs -> ~ still (kv_map (xTx T)) (d, f) vs)); [apply Hg|].
  intros row [e2 T2] Hrow [Hg2 Hm2]. unfold mapOf in Hm2. cbn [snd] in Hm2. destruct (C3 row Hrow) as [Hs Hdoom]. rewrite Hm in Hm2.
  eapply wp_mono; [apply (fkVerifyReferenced_wp ctx r (dlDesc ds) restrict row e2 T2); rewrite ?Hm2; [apply Hg2| |by apply (same_at _ _ _ _ Hst)|by eapply stored_ok|]|].
  - intros n d H'%(same_at _ _ _ _ Hst). by eapply Hnm.
  - intros d f [_ H']%Hin. by apply (references_same _ _ _ _ _ _ Hst), C2.
  - rewrite Hm2. intros o s' [Hp H]. split; [done|]. destruct o as [[]|er|q]; [done| |done]. destruct H as [?|(d & f & pords & vs & H1 & H2 & H3 & H4)]; [by left|right].
    apply Hin in H1 as [H1 H1']. exists (tName (dlDesc ds)), row, d, f, (dlDesc ds), pords, vs. split_and!; [done|by apply C2|done|by apply (fk_on_same _ _ _ _ _ _ Hst)|done..].
Qed.

Lemma work_less w m : work_inv [] w m -> less (doomed m0 hit) m0 m.
Proof.
  intros Hinv. pose proof (wi_less _ _ _ Hinv) as Hl. pose proof (wi_entries _ _ _ Hinv) as He. pose proof (wi_hit _ _ _ Hinv) as Hh. rewrite app_nil_r in *. rewrite Forall_forall in He.
  pose proof (ls_tables _ _ _ Hl) as Hst. apply (less_iff (in_work w)); [|done]. intros n row. split.
  - intros (ds & Hds & <- & Hrow). by apply (He ds Hds).
  - induction 1 as [n row H|n prow n' crow _ IH (d & f & p & pords & vs & Hr & En & Hc & Hon & H1 & H2 & H3)]; [by apply Hh|].
    destruct IH as (ds & Hds & E1 & Hp). pose proof Hr as (Hd & _ & Eref & _). subst n n'. destruct (He ds Hds) as [C1 C2 _].
    assert (p = dlDesc ds) as -> by (pose proof (on_parent _ _ _ _ _ Hon) as Hp'; rewrite Eref in Hp'; unfold table_at in *; congruence).
    destruct (decide (in_work w (tName d) crow)) as [|Hn]; [done|]. exfalso.
    apply (wi_closed _ _ _ Hinv ds (d, f) Hds) with (pords := pords) (prow := prow) (vs := vs); [by apply C2|done|by apply (fk_on_same _ _ _ _ _ _ Hst)|done..|].
    exists crow. split; [|done]. by apply (ls_rows _ _ _ Hl (tName d) d crow Hd).
Qed.

Lemma work_refs w m : work_inv [] w m -> (forall ds x, ds ∈ w -> x ∈ dlRefs ds -> closed m (dlDesc ds) (dlRows ds) x) -> ref_ok m0 -> ref_ok m.
Proof.
  intros Hinv Hcl H0 n d f p pords Hat Hf Hon row vs Hs Hv. pose proof (wi_less _ _ _ Hinv) as Hl. pose proof (wi_entries _ _ _ Hinv) as He. rewrite app_nil_r in *.
  rewrite Forall_forall in He. pose proof (ls_tables _ _ _ Hl) as Hst. apply (same_at _ _ _ _ Hst) in Hat. pose proof Hon as Hon0. apply (fk_on_same _ _ _ _ _ _ Hst) in Hon.
  destruct (H0 n d f p pords Hat Hf Hon row vs) as (prow & Hp & Hpv); [by eapply less_stored|done|]. pose proof (on_parent _ _ _ _ _ Hon) as Hpat.
  destruct (decide (in_work w (fkRefTable f) prow)) as [(ds & Hds & En & Hrow)|Hn].
  - exfalso. destruct (He ds Hds) as [C1 C2 _]. assert (dlDesc ds = p) as Ep by (rewrite En in C1; unfold table_at in *; congruence).
    destruct (table_at_wf _ _ d Hdb0 Hat) as [Edn _]. assert ((d, f) ∈ dlRefs ds) as Hin.
    { apply C2. split_and!; [by rewrite Edn|done|by rewrite En|done]. }
    apply (Hcl ds (d, f) Hds Hin pords prow vs); [by rewrite Ep|done..|]. by exists row.
  - exists prow. split; [|done]. by apply (ls_rows _ _ _ Hl (fkRefTable f) p prow Hpat).
Qed.

Lemma ascend_size (t : tx) : length (kv_ascend [] t) = size (kv_map t).
Proof.
  unfold size, map_size. rewrite map_fold_foldr. rewrite <- (Permutation_length (l := map_to_list (kv_map t))).
  - generalize (map_to_list (kv_map t)). intros l. induction l as [|[k v] l IH]; [done|]. cbn. by rewrite <- IH.
  - apply NoDup_Permutation; [apply NoDup_map_to_list|eapply NoDup_fmap_1, sorted_keys_nodup, kv_ascend_sorted|].
    intros [k v]. rewrite elem_of_map_to_list, kv_ascend_elem. split; [|by intros []]. intros H. split; [done|]. by destruct k.
Qed.

Lemma fkAfterDelete_wp r p refs rows e (T : Txn) : txn_ok r e T -> all_named m0 -> table_at m0 (tName p) p ->
  (forall d f, (d, f) ∈ refs <-> references m0 (tName p) false d f) -> (forall n row, hit n row <-> n = tName p /\ row ∈ rows) -> Forall (stored p m0) rows ->
  less hit m0 (kv_map (xTx T)) ->
  wp (fkAfterDelete ctx p refs rows) (λ o s', goes r (e, T) s' /\
    match o with
    | Ok _ => less (doomed m0 hit) m0 (mapOf s') /\ (ref_ok m0 -> ref_ok (mapOf s'))
    | Err er => cancelled ctx er \/ less (doomed m0 hit) m0 (mapOf s') /\ blocked (mapOf s')
    | Panic _ => False
    end) (e, T).
Proof.
  intros Hok Hnm Hat Hrefs Hhit Hrows Hl. unfold fkAfterDelete. apply wp_bind, wp_gets. cbn [seqQ snd]. rewrite ascend_size. apply wp_bind.
  eapply wp_mono; [apply (cascade_wp r _ [mkDeleted p refs rows] [] e T Hok Hnm); [|cbn [length]; lia]|].
  { split; cbn [app].
    - eapply less_iff; [|exact Hl]. intros n row. rewrite in_work_one, Hhit. cbn. naive_solver.
    - apply Forall_singleton. split; cbn; [done..|]. rewrite Forall_forall in Hrows. intros row Hrow. split; [by apply Hrows|]. apply doomed_hit, Hhit. done.
    - intros n row [-> Hrow]%Hhit. by apply in_work_one.
    - by intros ds x ?%elem_of_nil. }
  intros [w|er|q] [e1 T1] [Hg H]; cbn [seqQ]; [|split; [done|by left]|done]. unfold mapOf in H. cbn [snd] in H.
  eapply wp_mono; [apply (verifyDeleted_wp r w e1 T1); [apply Hg|done..]|]. intros o s' [[Hg2 Hm] Ho]. split; [by eapply goes_trans|]. rewrite Hm. unfold mapOf. cbn [snd].
  destruct o as [[]|er|q]; [|destruct Ho as [?|?]; [by left|right]|done].
  - split; [by eapply work_less|by apply (work_refs w)].
  - split; [by eapply work_less|done].
Qed.
End work.
End cascade.
