(* ===== verification/SqlDmlOk.v ===== *)
(** * Rows and references through a statement

    What the row methods of a transaction do to the rows of all tables, how
    references fare when rows are added or replaced, that the values a
    statement makes are Go values, and rules for code that writes no row. *)
From S2P Require Import Prelude GoVal GoStr GoFloat KV Savepoint Tuple Json Time Jsonb Types Catalog Desc Rows Index Table Seq Upkeep Dml Relation Engine Store Database Ddl DdlColumn DdlAddDrop Fk Schema RowStmt Txn Statements TxnOk SqlVal Lexer SqlPlan SqlPlanOk SqlPlanned SqlFk SqlDml SqlFkOk SqlCascade.

Local Open Scope Z_scope.

Lemma wp_and {S A : Type} (m : M S A) (P Q : outcome A -> S -> Prop) s : wp m P s -> wp m Q s -> wp m (λ o s', P o s' /\ Q o s') s.
Proof. by split. Qed.

(** ** Rows changed *)

(** The rows [out] were removed, then the rows [inn] added. *)
Record changes (out inn : bytes -> list any -> Prop) (m m' : kvmap) : Prop := {
  ch_tables : same_tables m m';
  ch_rows n d row : table_at m n d -> stored d m' row <-> stored d m row /\ ~ out n row \/ inn n row;
}.
Definition same_rows : kvmap -> kvmap -> Prop := less (λ _ _, False).
Lemma same_rows_refl m : same_rows m m.
Proof. apply less_none. Qed.
Lemma same_rows_stored m m' n d row : same_rows m m' -> table_at m n d -> stored d m' row <-> stored d m row.
Proof. intros H Hat. rewrite (ls_rows _ _ _ H n d row Hat). tauto. Qed.
Lemma same_rows_trans m1 m2 m3 : same_rows m1 m2 -> same_rows m2 m3 -> same_rows m1 m3.
Proof. intros H1 H2. eapply less_iff; [|exact (less_trans _ _ _ _ _ H1 H2)]. tauto. Qed.
Lemma all_named_same m m' : same_tables m m' -> all_named m -> all_named m'.
Proof. intros Hs Hn n d H'%(same_at _ _ _ _ Hs). by eapply Hn. Qed.

Lemma rows_step_changes (m m' : kvmap) (name : bytes) (d : TableDesc) (P : table -> table -> Prop) (out inn : list any -> Prop) : db_inv m -> db_inv m' -> rows_step name d P m m' ->
  (forall T T' row, abstracts d m T -> P T T' -> T' !! pkOf d row = Some row <-> T !! pkOf d row = Some row /\ ~ out row \/ inn row) ->
  changes (λ n row, n = name /\ out row) (λ n row, n = name /\ inn row) m m'.
Proof.
  intros Hdb Hdb' Hst HP. split; [by eapply rows_step_tables|]. intros n d1 row Hat. destruct Hst as [H1 _ Hrows Hoth]. destruct (decide (n = name)) as [->|Hn].
  - assert (d1 = d) as -> by (unfold table_at in *; congruence). destruct (rows_of_abstracts d m (to_inv _ _ (db_table m Hdb name d Hat))) as [H0 _].
    destruct (Hrows _ H0) as (T' & HP' & HT'). rewrite (abs_stored d m' _ HT'), (abs_stored d m _ H0), (HP _ _ row H0 HP'). naive_solver.
  - rewrite (others_stored m m' name n d1) by done. naive_solver.
Qed.
Lemma spec_insert_row (d : TableDesc) (T T' : table) nrow row : spec_insert d T nrow = Ok T' ->
  T' !! pkOf d row = Some row <-> T !! pkOf d row = Some row /\ ~ False \/ row = nrow.
Proof.
  unfold spec_insert. case_decide as Hf; [done|]. case_match; [done|]. intros [= <-]. destruct (decide (pkOf d nrow = pkOf d row)) as [Ep|Ep].
  - rewrite Ep, lookup_insert_eq. rewrite <- not_eq_None_Some in Hf. rewrite Ep in Hf. split; [intros [= ->]; by right|].
    intros [[HT _]| ->]; [|done]. rewrite HT in Hf. by destruct Hf.
  - rewrite lookup_insert_ne by done. naive_solver.
Qed.
Lemma spec_update_row (d : TableDesc) (m : kvmap) (T T' : table) old new row : abstracts d m T -> T !! pkOf d old = Some old -> spec_update d T old new = Ok T' ->
  (T' !! pkOf d row = Some row <-> T !! pkOf d row = Some row /\ row <> old \/ row = new) /\ (T !! pkOf d new = Some new -> new = old).
Proof.
  intros Ha Hold. unfold spec_update. case_decide as Hf; [done|]. case_match; [done|]. intros [= <-].
  assert (pkOf d new = pkOf d old \/ T !! pkOf d new = None) as Hk.
  { destruct (decide (pkOf d new = pkOf d old)); [by left|right]. destruct (T !! pkOf d new) eqn:En; [|done]. destruct Hf. by split. }
  split; [|intros Hn; destruct Hk as [Ek|Hk]; congruence]. destruct (decide (pkOf d new = pkOf d row)) as [Ep|Ep].
  - rewrite Ep, lookup_insert_eq. split; [intros [= ->]; by right|]. intros [[H1 H2]| ->]; [|done]. destruct Hk as [Ek|Hk]; congruence.
  - rewrite lookup_insert_ne by done. destruct (decide (pkOf d old = pkOf d row)) as [Eo|Eo].
    + rewrite Eo, lookup_delete_eq. split; [done|]. intros [[H1 H2]| ->]; congruence.
    + rewrite lookup_delete_ne by done. naive_solver.
Qed.

Section writes.
Context {E : Type} {eng : EngineOps E} {eng_laws : EngineLaws E} {cs : CatState E} {cat_laws : CatLaws E} {te : TxnEngine E} {te_laws : TxnEngineLaws E}.
Context {tx sp : Type} {kv : KV tx} {kv_laws : KVLaws tx} {sv : KVSave tx sp} {sv_laws : KVSaveLaws tx sp} {sp_eq : EqDecision sp}.
Abbreviation Txn := (Txn tx sp).

Lemma wp_goes {A : Type} (m : M (E * Txn) A) r (Q : outcome A -> E * Txn -> Prop) s : wp m (stays r s) s -> wp m Q s -> wp m (λ o s', goes r s s' /\ Q o s') s.
Proof. intros [_ H1] H2. by split. Qed.
Lemma TxnInsertReturning_row r name d vals e (T : Txn) (m := kv_map (xTx T)) : 0 <= r -> txn_ok (r + 1) e T -> table_at m name d -> Forall any_ok vals ->
  wp (TxnInsertReturning name vals) (λ o s', goes r (e, T) s' /\
    match o with
    | Ok row => row_typed d (rVals row) /\ exists nrow, normals (rVals row) = Ok nrow /\ changes (λ _ _, False) (λ n x, n = name /\ x = nrow) m (mapOf s')
    | _ => True
    end) (e, T).
Proof.
  intros Hr Hok Hat Hv. apply wp_goes; [by apply TxnInsertReturning_ok|].
  unfold TxnInsertReturning. apply wp_bind, wp_CheckWrites; cbn [seqQ]; [|done]. intros _. destruct (TxnDesc_at (r + 1) name d e T Hok Hat) as (e1 & T1 & HD & Hg & Ht).
  apply wp_bind. unfold wp at 1. rewrite HD. cbn [seqQ fst snd]. pose proof (go_ok _ _ _ Hg) as Hok1. cbn [fst snd] in Hok1. unfold m in *. rewrite <- Ht in Hat |- *.
  destruct (table_at_wf _ name d (vo_db _ _ (tk_view _ _ _ Hok1)) Hat) as [_ Hwd]. apply wp_bind, wp_onKv; [apply tame_insertRow|apply steady_insertRow|].
  eapply wp_mono; [apply (wp_and _ _ _ _ (insertRow_step name d vals e1 (xTx T1) (ready_of _ _ _ Hok1) Hat Hv) (insertRow_typed d (cw_wf d Hwd) vals e1 (xTx T1) Hv))|].
  intros [row|er|q] [e2 t2] [[_ H1] H2] Hal Hc; cbn [seqQ fst snd] in *; [|done..]. destruct H1 as (Hdb & nrow & Hn & Hst).
  apply wp_bind, wp_modify. cbn [seqQ]. apply wp_ret. cbn [rVals]. split; [done|]. exists nrow. split; [done|]. unfold mapOf. cbn.
  pose proof (rows_step_changes _ _ name d _ (λ _, False) (λ x, x = nrow) (vo_db _ _ (tk_view _ _ _ Hok1)) Hdb Hst) as [C1 C2].
  { intros T0 T' x _ HP. by apply spec_insert_row. }
  split; [done|]. intros n d1 x Hx. rewrite (C2 n d1 x Hx). tauto.
Qed.

Lemma TxnUpdateReturning_row r name d old set e (T : Txn) (m := kv_map (xTx T)) : 0 <= r -> txn_ok (r + 1) e T -> table_at m name d -> stored d m old -> Forall any_ok set.*2 ->
  wp (TxnUpdateReturning name (pkOf d old) set) (λ o s', goes r (e, T) s' /\
    match o with
    | Ok (Some row) => row_typed d (rVals row) /\ exists nrow, normals (rVals row) = Ok nrow /\ (stored d m nrow -> nrow = old) /\
        changes (λ n x, n = name /\ x = old) (λ n x, n = name /\ x = nrow) m (mapOf s')
    | Ok None => mapOf s' = m
    | _ => True
    end) (e, T).
Proof.
  intros Hr Hok Hat Hs Hset. destruct (table_at_wf _ name d (vo_db _ _ (tk_view _ _ _ Hok)) Hat) as [_ Hwd]. destruct (fullPKKey_pkOf d old (cw_wf d Hwd) (stored_ok _ _ _ Hs)) as [Hpk Hkey].
  apply wp_goes; [by apply TxnUpdateReturning_ok|].
  unfold TxnUpdateReturning. apply wp_bind, wp_onKv; [apply tame_memory|apply steady_memory|]. apply wp_onE. intros o e0 Hm Hal0 Hc0. cbn [fst snd] in *.
  destruct o as [[]|er|q]; cbn [seqQ]; [|done..].
  assert (x_tx (λ _, xTx T) T = T) as Ex by (by destruct T). rewrite Ex. assert (txn_ok (r + 1) e0 T) as Hok0.
  { pose proof (txn_ok_map (r + 1) (r + 1) e e0 T (xTx T)) as H. rewrite Ex in H. apply H; try done; apply Hok. }
  apply wp_bind, wp_CheckWrites; cbn [seqQ]; [|done]. intros _. destruct (TxnDesc_at (r + 1) name d e0 T Hok0 Hat) as (e1 & T1 & HD & Hg & Ht).
  apply wp_bind. unfold wp at 1. rewrite HD. cbn [seqQ fst snd]. pose proof (go_ok _ _ _ Hg) as Hok1. cbn [fst snd] in Hok1. unfold m in *. rewrite <- Ht in Hat, Hs |- *.
  apply wp_bind, wp_onKv; [apply tame_of_tx, tame_updateRow|apply steady_onTx|].
  eapply wp_mono; [apply (updateRow_step name d (pkOf d old) set e1 (xTx T1) (ready_of _ _ _ Hok1) Hat Hpk Hset)|].
  intros [[newVals|]|er|q] [e2 t2] [_ H1] Hal Hc; cbn [seqQ fst snd] in *; [|apply wp_ret; by destruct H1|done..]. destruct H1 as (Hdb & old' & nrow & Hk & Hset' & Hn & Hst).
  assert (old' = old) as ->.
  { destruct (rows_of_abstracts d _ (to_inv _ _ (db_table _ (vo_db _ _ (tk_view _ _ _ Hok1)) name d Hat))) as [H0 _]. destruct (rs_rows _ _ _ _ _ Hst _ H0) as (T' & [Hl _] & _).
    apply (abs_stored d _ _ H0) in Hl. apply (stored_inj d _ old' old Hl Hs). congruence. }
  apply wp_bind, wp_modify. cbn [seqQ]. apply wp_ret. cbn [rVals].
  split; [eapply (applySet_typed d (cw_wf d Hwd)); [exact Hset|apply (stored_ok _ _ _ Hs)|exact Hset']|]. exists nrow. split; [done|]. split.
  - destruct (rows_of_abstracts d _ (to_inv _ _ (db_table _ (vo_db _ _ (tk_view _ _ _ Hok1)) name d Hat))) as [H0 _]. destruct (rs_rows _ _ _ _ _ Hst _ H0) as (T' & [Hl Hu] & _).
    intros Hns. eapply (spec_update_row d _ _ T' old nrow old H0 Hl Hu). by apply (abs_stored d _ _ H0).
  - unfold mapOf. cbn. apply (rows_step_changes _ _ name d _ (λ x, x = old) (λ x, x = nrow) (vo_db _ _ (tk_view _ _ _ Hok1)) Hdb Hst).
    intros T0 T' x H0 [Hl Hu]. by apply (spec_update_row d (kv_map (xTx T1)) T0 T' old nrow x).
Qed.
End writes.

(** ** References through a change *)

(** Every reference holds, but for those to the former rows [rc] of [name]. *)
Definition ref_but (name : bytes) (rc : list (list any)) (m : kvmap) : Prop := forall n d f p pords row vs, table_at m n d -> f ∈ tForeignKeys d -> fk_on m d f p pords ->
  stored d m row -> refTuple row (fkCols f) = Some vs -> has_parent m p pords vs \/ fkRefTable f = name /\ exists old, old ∈ rc /\ refTuple old pords = Some vs.
Lemma ref_but_nil name m : ref_but name [] m <-> ref_ok m.
Proof.
  split.
  - intros H n d f p pords Hat Hf Hon row vs Hs Hv. destruct (H n d f p pords row vs Hat Hf Hon Hs Hv) as [?|(_ & old & ?%elem_of_nil & _)]; done.
  - intros H n d f p pords row vs Hat Hf Hon Hs Hv. left. by apply (H n d f p pords Hat Hf Hon row).
Qed.

Section change.
Context (m m' : kvmap) (out inn : bytes -> list any -> Prop) (Hch : changes out inn m m') (Hdec : forall n row, out n row \/ ~ out n row).
Lemma ref_but_change name rc rc' : ref_but name rc m -> rc ⊆ rc' ->
  (forall n d f p pords row vs, table_at m n d -> f ∈ tForeignKeys d -> fk_on m d f p pords -> inn n row -> refTuple row (fkCols f) = Some vs -> has_parent m' p pords vs) ->
  (forall n d f p pords prow vs, table_at m n d -> f ∈ tForeignKeys d -> fk_on m d f p pords -> out (fkRefTable f) prow -> refTuple prow pords = Some vs ->
    has_parent m' p pords vs \/ fkRefTable f = name /\ exists old, old ∈ rc' /\ refTuple old pords = Some vs) ->
  ref_but name rc' m'.
Proof.
  intros Hb Hsub Hin Hout n d f p pords row vs Hat Hf Hon Hs Hv. destruct Hch as [Hst Hrows]. apply (same_at _ _ _ _ Hst) in Hat. apply (fk_on_same _ _ _ _ _ _ Hst) in Hon.
  apply (Hrows n d row Hat) in Hs as [[Hs _]|Hi]; [|left; by eapply Hin].
  destruct (Hb n d f p pords row vs Hat Hf Hon Hs Hv) as [(prow & Hp & Hpv)|(En & old & Ho & Hov)].
  - destruct (Hdec (fkRefTable f) prow) as [Ho|Hno]; [by eapply Hout|]. left. exists prow. split; [|done]. apply (Hrows _ p prow (on_parent _ _ _ _ _ Hon)). by left.
  - right. split; [done|]. exists old. split; [by apply Hsub|done].
Qed.
End change.
Lemma same_rows_changes m m' : same_rows m m' -> changes (λ _ _, False) (λ _ _, False) m m'.
Proof. intros [H1 H2]. split; [done|]. intros n d row Hat. rewrite (H2 n d row Hat). tauto. Qed.
Lemma ref_but_same name rc m m' : same_rows m m' -> ref_but name rc m -> ref_but name rc m'.
Proof. intros Hs Hb. eapply (ref_but_change m m' _ _ (same_rows_changes _ _ Hs)); [intros; tauto|exact Hb|done|by intros; exfalso..]. Qed.
Lemma ref_ok_same m m' : same_rows m m' -> ref_ok m -> ref_ok m'.
Proof. intros Hs Hr. apply (ref_but_nil []), (ref_but_same [] [] m); [done|by apply ref_but_nil]. Qed.

(** A row added whose own references have been found. *)
Lemma ref_ok_insert m m' name d nrow : table_at m name d -> changes (λ _ _, False) (λ n x, n = name /\ x = nrow) m m' ->
  (forall f p pords vs, f ∈ tForeignKeys d -> fk_on m' d f p pords -> refTuple nrow (fkCols f) = Some vs -> has_parent m' p pords vs) -> ref_ok m -> ref_ok m'.
Proof.
  intros Hat Hch Hv Hr. apply (ref_but_nil []). eapply (ref_but_change m m' _ _ Hch); [intros; tauto|by apply (ref_but_nil [])|done| |by intros; exfalso].
  intros n d' f p pords row vs Hat' Hf Hon [-> ->] Hvs. assert (d' = d) as -> by (unfold table_at in *; congruence).
  apply (Hv f p pords vs Hf); [|done]. by apply (fk_on_same _ _ _ _ _ _ (ch_tables _ _ _ _ Hch)).
Qed.

(** A row replaced: its references have been found, and the old one is to be
    checked again unless the new one has the same referenced values. *)
Lemma ref_but_update m m' name d old nrow rc rc' : table_at m name d -> changes (λ n x, n = name /\ x = old) (λ n x, n = name /\ x = nrow) m m' ->
  (forall f p pords vs, f ∈ tForeignKeys d -> fk_on m' d f p pords -> refTuple nrow (fkCols f) = Some vs -> has_parent m' p pords vs) ->
  rc ⊆ rc' -> (old ∈ rc' \/ forall d' f pords vs, references m name false d' f -> fk_on m d' f d pords -> refTuple old pords = Some vs -> refTuple nrow pords = Some vs) ->
  db_inv m -> ref_but name rc m -> ref_but name rc' m'.
Proof.
  intros Hat Hch Hv Hsub Hold Hdb Hb. eapply (ref_but_change m m' _ _ Hch); [|exact Hb|done|..].
  - intros n row. destruct (decide (n = name /\ row = old)); [by left|by right].
  - intros n d' f p pords row vs Hat' Hf Hon [-> ->] Hvs. assert (d' = d) as -> by (unfold table_at in *; congruence).
    apply (Hv f p pords vs Hf); [|done]. by apply (fk_on_same _ _ _ _ _ _ (ch_tables _ _ _ _ Hch)).
  - intros n d' f p pords prow vs Hat' Hf Hon [En ->] Hvs. pose proof (on_parent _ _ _ _ _ Hon) as Hp. rewrite En in Hp.
    assert (p = d) as -> by (unfold table_at in *; congruence). destruct Hold as [Ho|Hsame]; [right; split; [done|by exists old]|left].
    exists nrow. split; [apply (ch_rows _ _ _ _ Hch name d nrow Hat); by right|]. eapply (Hsame d' f); [|done..].
    destruct (table_at_wf _ _ d' Hdb Hat') as [Hn' _]. unfold references. by rewrite Hn'.
Qed.

(** ** Values a statement makes *)

Lemma ParseInt_ok s z : ParseInt s = Some z -> int64_ok z.
Proof. unfold ParseInt. destruct (signed s) as [neg ds]. destruct (undigits ds); [|done]. cbn. case_bool_decide as H; [|done]. by intros [= <-]. Qed.
Lemma f64_opp_ok b : f64_ok b -> f64_ok (f64_opp b).
Proof. unfold f64_ok, f64_opp. intros Hb. change (2 ^ 63) with two63. rewrite lxor_two63 by done. unfold two63. case_decide || case_match; lia. Qed.
Lemma coerceLit_ok v t w : any_ok v -> coerceLit v t = Ok w -> any_ok w.
Proof.
  intros Hv. unfold coerceLit. destruct v; try (by intros [= <-]); destruct t; try (by intros [= <-]); intros H; repeat case_match; simplify_eq; try done; try apply int64_range;
    try (by eapply ParseInt_ok); try (by eapply ParseFloat_ok).
  - destruct (ParseTimestamp s) eqn:Ep; [|done..]. injection H as <-. by apply ParseTimestamp_int64 in Ep.
  - destruct (ParseDate s) eqn:Ep; [|done..]. injection H as <-. by apply ParseDate_int64 in Ep.
  - destruct (ParseUUID s); [|done..]. by injection H as <-.
  - destruct (CanonTextArray s); [|done..]. by injection H as <-.
  - destruct (CanonJSONB s); [|done..]. by injection H as <-.
Qed.

Lemma literal_ok toks v rest : literal toks = Ok (v, rest) -> any_ok v.
Proof.
  unfold literal. case_match eqn:Eh. clear Eh. destruct l as [|t l]; [done|]. intros H. repeat (case_match; simplify_eq; try done); subst.
  - apply int64_range.
  - by eapply ParseInt_ok.
  - eapply f64_opp_ok, ParseFloat_ok. done.
  - by eapply ParseFloat_ok.
Qed.
Lemma parseStoredLiteral_ok src v : parseStoredLiteral src = Ok v -> any_ok v.
Proof.
  unfold parseStoredLiteral. destruct (lex src) as [toks| |]; cbn; [|done..]. destruct (literal toks) as [[w rest]| |] eqn:El; cbn; [|done..].
  intros H. repeat case_match; simplify_eq. by eapply literal_ok.
Qed.
Lemma columnDefault_ok now c v : columnDefault now c = Ok v -> any_ok v.
Proof.
  unfold columnDefault. case_bool_decide; [by intros [= <-]|]. repeat case_bool_decide; cbn [mbind outcome_bind]; [by apply coerceLit_ok..|].
  destruct (parseStoredLiteral _) as [w| |] eqn:Ep; cbn; [|done..]. by apply coerceLit_ok, (parseStoredLiteral_ok _ _ Ep).
Qed.
Lemma columnDefaults_ok now d vs : columnDefaults now d = Ok vs -> Forall any_ok vs.
Proof. intros H%traverse_ok. eapply Forall2_Forall_r; [exact H|]. apply Forall_true. intros c v Hc. by eapply columnDefault_ok. Qed.

(** ** Code that writes no row *)

Section quiet.
Context {E : Type} {eng : EngineOps E} {eng_laws : EngineLaws E} {cs : CatState E} {cat_laws : CatLaws E} {te : TxnEngine E} {te_laws : TxnEngineLaws E} {rl : RowLimit E}.
Context {tx sp : Type} {kv : KV tx} {kv_laws : KVLaws tx} {sv : KVSave tx sp} {sv_laws : KVSaveLaws tx sp} {sp_eq : EqDecision sp} {re : Regexp}.
Abbreviation Txn := (Txn tx sp).

Definition keeps (r : Z) (s s' : E * Txn) : Prop := goes r s s' /\ same_rows (mapOf s) (mapOf s').
Lemma keeps_refl r s : txn_ok r s.1 s.2 -> keeps r s s.
Proof. intros H. split; [by apply goes_refl|apply same_rows_refl]. Qed.
Lemma keeps_trans r s1 s2 s3 : keeps r s1 s2 -> keeps r s2 s3 -> keeps r s1 s3.
Proof. intros [G1 M1] [G2 M2]. split; [by eapply goes_trans|by eapply same_rows_trans]. Qed.
Lemma peeks_keeps r s s' : peeks r s s' -> keeps r s s'.
Proof. intros [G1 M1]. split; [done|]. rewrite M1. apply same_rows_refl. Qed.

(** The rows stay, and a value returned satisfies [P]. *)
Definition quiet {A : Type} (r : Z) (P : A -> Prop) (s : E * Txn) (o : outcome A) (s' : E * Txn) : Prop := keeps r s s' /\ match o with Ok a => P a | _ => True end.
Lemma quiet_ret {A : Type} r (P : A -> Prop) a s : txn_ok r s.1 s.2 -> P a -> wp (mret a) (quiet r P s) s.
Proof. intros H HP. apply wp_ret. split; [by apply keeps_refl|done]. Qed.
Lemma quiet_fail {A : Type} r (P : A -> Prop) er s : txn_ok r s.1 s.2 -> wp (fail er) (quiet r P s) s.
Proof. intros H. apply wp_fail. split; [by apply keeps_refl|done]. Qed.
Lemma quiet_lift {A : Type} r (P : A -> Prop) o s : txn_ok r s.1 s.2 -> (forall a, o = Ok a -> P a) -> wp (lift o) (quiet r P s) s.
Proof. intros H HP. apply wp_lift. split; [by apply keeps_refl|]. destruct o; [by apply HP|done..]. Qed.
Lemma quiet_bind {A B : Type} r (P : A -> Prop) (Q : B -> Prop) (m : M (E * Txn) A) f s : wp m (quiet r P s) s ->
  (forall a s', txn_ok r s'.1 s'.2 -> P a -> wp (f a) (quiet r Q s') s') -> wp (m ≫= f) (quiet r Q s) s.
Proof.
  intros Hm Hf. apply wp_bind. eapply wp_mono; [exact Hm|]. intros [a|er|q] s1 [Hk HP]; cbn [seqQ]; [|done..].
  eapply wp_mono; [apply Hf; [apply Hk|done]|]. intros o s2 [Hk2 HQ]. split; [by eapply keeps_trans|done].
Qed.
Lemma quiet_mapM_ {A B : Type} r (P : B -> Prop) (f : A -> M (E * Txn) B) l s : txn_ok r s.1 s.2 ->
  (forall x s', x ∈ l -> txn_ok r s'.1 s'.2 -> wp (f x) (quiet r P s') s') -> wp (mapM_ f l) (quiet r (Forall P) s) s.
Proof.
  revert s. induction l as [|x l IH]; intros s Hok Hf; cbn [mapM_]; [by apply quiet_ret|]. eapply quiet_bind; [apply Hf; [by left|done]|].
  intros y s1 Hok1 Hy. eapply quiet_bind; [apply IH; [done|]; intros z s2 Hz; apply Hf; by right|]. intros ys s2 Hok2 Hys. apply quiet_ret; [done|by constructor].
Qed.
Lemma quiet_each {A : Type} r (f : A -> M (E * Txn) unit) l s : txn_ok r s.1 s.2 ->
  (forall x s', x ∈ l -> txn_ok r s'.1 s'.2 -> wp (f x) (quiet r (λ _, True) s') s') -> wp (for_each f l) (quiet r (λ _, True) s) s.
Proof.
  revert s. induction l as [|x l IH]; intros s Hok Hf; cbn [for_each]; [by apply quiet_ret|]. eapply quiet_bind; [apply Hf; [by left|done]|].
  intros [] s1 Hok1 _. apply IH; [done|]. intros z s2 Hz. apply Hf. by right.
Qed.
Lemma quiet_peeks {A : Type} r (P : A -> Prop) (m : M (E * Txn) A) s : wp m (λ o s', peeks r s s' /\ match o with Ok a => P a | _ => True end) s -> wp m (quiet r P s) s.
Proof. intros H. eapply wp_mono; [exact H|]. intros o s' [Hp HP]. split; [by apply peeks_keeps|done]. Qed.
End quiet.
