(* ===== verification/SqlStmtOk.v ===== *)
(** * Row statements keep the references

    What the evaluator of expressions promises, and the statements of
    [SqlDml] against that promise: the code around their writes changes no
    row, an INSERT, UPDATE, DELETE or TRUNCATE that returns leaves every
    reference holding, and a DELETE removes exactly the rows its WHERE is
    true of and those the cascades take. *)
From S2P Require Import Prelude GoVal GoStr GoFloat KV Savepoint Tuple Time Types Catalog Desc Rows Index Table Seq Upkeep Dml Relation Engine Store Database Ddl Fk Schema RowStmt Txn Statements TxnOk SqlVal Lexer SqlPlan SqlPlanOk SqlPlanned SqlFk SqlDml SqlFkOk SqlCascade SqlDmlOk.

Local Open Scope Z_scope.

Section laws.
Context {E : Type} {eng : EngineOps E} {eng_laws : EngineLaws E} {cs : CatState E} {cat_laws : CatLaws E} {te : TxnEngine E} {te_laws : TxnEngineLaws E}.
Context {tx sp : Type} {kv : KV tx} {kv_laws : KVLaws tx} {sv : KVSave tx sp} {sv_laws : KVSaveLaws tx sp}.
(** Expressions read the transaction and may draw from sequences; they change
    no row and no table, and their values are Go values. *)
Class EvaluatorLaws (C Ex Ret : Type) (ev : Evaluator (E * Txn tx sp) C Ex Ret) : Prop := {
  evalEx_quiet r sc x row s : txn_ok r s.1 s.2 -> wp (evalEx sc x row) (quiet r any_ok s) s;
  evalTruth_quiet r sc x row s : txn_ok r s.1 s.2 -> wp (evalTruth sc x row) (quiet r (λ _, True) s) s;
}.
End laws.

Section statements.
Context {E : Type} {eng : EngineOps E} {eng_laws : EngineLaws E} {cs : CatState E} {cat_laws : CatLaws E} {te : TxnEngine E} {te_laws : TxnEngineLaws E} {rl : RowLimit E}.
Context {tx sp : Type} {kv : KV tx} {kv_laws : KVLaws tx} {sv : KVSave tx sp} {sv_laws : KVSaveLaws tx sp} {sp_eq : EqDecision sp} {re : Regexp}.
Abbreviation Txn := (Txn tx sp).
Context {C Ex Ret : Type} {ev : Evaluator (E * Txn) C Ex Ret} {ev_laws : EvaluatorLaws C Ex Ret ev}.
Context (ctx : E * Txn -> nat -> option error) (now : Z).

(** ** The code around the writes *)

Lemma budgetCheck_quiet r b n s : txn_ok r s.1 s.2 -> wp (budgetCheck (tx := tx) (sp := sp) b n) (quiet r (λ _, True) s) s.
Proof.
  intros Hok. unfold budgetCheck. destruct (_ && _); [by apply quiet_fail|]. destruct (_ && _); [|by apply quiet_ret]. destruct s as [e T].
  apply wp_onKv; [apply tame_memory|apply steady_memory|]. apply wp_onE. intros o e0 Hm Hal0 Hc0. cbn [fst snd] in *. split; [|by destruct o].
  split; [|apply same_rows_refl]. apply (txn_ok_map r r); try done. apply Hok.
Qed.
Lemma retRow_quiet r sc rp vals s : txn_ok r s.1 s.2 -> wp (retRow sc rp vals) (quiet r (λ _, True) s) s.
Proof.
  intros Hok. eapply quiet_bind; [apply (quiet_mapM_ r any_ok); [done|]; intros x s' _ Hok'; by apply evalEx_quiet|]. intros vs s' Hok' _. by apply quiet_lift.
Qed.
Lemma affect_quiet r sc ret b vals pg s : txn_ok r s.1 s.2 -> wp (affect sc ret b vals pg) (quiet r (λ pg', pgAffected pg' = S (pgAffected pg)) s) s.
Proof.
  intros Hok. unfold affect. destruct ret as [rp|]; [|by apply quiet_ret]. eapply quiet_bind; [by apply retRow_quiet|]. intros out s1 Hok1 _.
  eapply quiet_bind; [by apply budgetCheck_quiet|]. intros [] s2 Hok2 _. by apply quiet_ret.
Qed.
Lemma checkRow_quiet r sc table checks vals s : txn_ok r s.1 s.2 -> wp (checkRow sc table checks vals) (quiet r (λ _, True) s) s.
Proof.
  intros Hok. apply quiet_each; [done|]. intros ck s' _ Hok'. eapply quiet_bind; [by apply evalTruth_quiet|]. intros t s2 Hok2 _.
  case_bool_decide; [by apply quiet_fail|by apply quiet_ret].
Qed.
Lemma evalSets_quiet r sc d setEx row s : txn_ok r s.1 s.2 -> wp (evalSets sc d setEx row) (quiet r (λ sets, Forall (λ q, any_ok q.2) sets) s) s.
Proof.
  intros Hok. apply quiet_mapM_; [done|]. intros q s' _ Hok'. eapply quiet_bind; [by apply evalEx_quiet|]. intros v s2 Hok2 Hv.
  eapply quiet_bind; [by apply (quiet_lift r (λ _, True))|]. intros o s3 Hok3 _. eapply quiet_bind; [by apply (quiet_lift r (λ _, True))|]. intros c s4 Hok4 _.
  eapply quiet_bind; [apply (quiet_lift r any_ok); [done|]; intros w; by apply coerceLit_ok|]. intros w s5 Hok5 Hw. by apply quiet_ret.
Qed.
Lemma overlay_ok set l : Forall any_ok set.*2 -> Forall (λ q : bytes * any, any_ok q.2) l -> Forall any_ok (overlay set l).*2.
Proof.
  intros H1 H2. unfold overlay. rewrite fmap_app, Forall_app, !Forall_fmap. split; [|done]. rewrite Forall_fmap in H1. rewrite Forall_forall in *. intros q [_ Hq]%list_elem_of_filter. by apply H1.
Qed.

Definition value_ok (v : value Ex) : Prop := match v with VVal v => any_ok v | _ => True end.
Lemma resolveExprValues_quiet r vals s : Forall value_ok vals -> txn_ok r s.1 s.2 -> wp (resolveExprValues vals) (quiet r (Forall any_ok) s) s.
Proof.
  intros Hv Hok. apply quiet_mapM_; [done|]. rewrite Forall_forall in Hv. intros v s' Hin Hok'. specialize (Hv v Hin).
  destruct v; [by apply quiet_ret|by apply quiet_ret|by apply evalEx_quiet].
Qed.
Lemma markers_ok vals defaults : Forall any_ok defaults -> Forall value_ok vals -> Forall value_ok (resolveDefaultMarkers vals defaults).
Proof.
  intros Hd Hv. apply Forall_lookup. intros i v. unfold resolveDefaultMarkers. rewrite list_lookup_imap. destruct (vals !! i) as [w|] eqn:Ew; [|done]. cbn. intros [= <-].
  destruct w as [u| |x]; [by eapply Forall_lookup_1 in Ew|cbn|done]. destruct (defaults !! i) eqn:Ed; [by eapply Forall_lookup_1 in Ed|done].
Qed.
Lemma arrange_ok ords defaults row vals : Forall any_ok defaults -> Forall value_ok row -> arrange ords defaults row = Ok vals -> Forall value_ok vals.
Proof.
  intros Hd Hr. unfold arrange. destruct ords as [ords|]; [|by intros [= <-]]. destruct (negb _); [done|]. intros [= <-].
  assert (Forall value_ok (VVal <$> defaults)) as H0 by (by apply Forall_fmap). revert H0. generalize (VVal (Ex := Ex) <$> defaults) as acc. revert ords. induction Hr as [|v row Hv _ IH]; intros [|o ords] acc Ha; try done.
  cbn. apply IH, Forall_insert; done.
Qed.

Lemma refVals_any_ok vals ords key : Forall any_ok vals -> refVals vals ords = Ok (Some key) -> Forall any_ok key.
Proof.
  intros Hv. revert key. induction ords as [|o ords IH]; intros key; cbn [refVals]; [by intros [= <-]|]. intros (v & Hg & H)%outcome_bind_ok. destruct (is_nil v); [done|].
  apply outcome_bind_ok in H as (vs & Hvs & [= Hk]). destruct vs as [vs|]; [|done]. injection Hk as <-. constructor; [|by apply IH].
  unfold valueAt in Hg. destruct o as [o|]; [|done]. unfold at_index in Hg. destruct (vals !! o) eqn:Ev; [|done]. injection Hg as <-. by eapply Forall_lookup_1 in Ev.
Qed.
Lemma probe_quiet r table d a vals s : txn_ok r s.1 s.2 -> table_at (mapOf s) table d -> Forall any_ok vals -> wp (probe table d a vals) (quiet r (λ _, True) s) s.
Proof.
  destruct s as [e T]. intros Hok Hat Hv. unfold probe. apply wp_bind_lift.
  destruct (refVals _ _) as [[key|]|er|q] eqn:Ek; cbn [seqQ]; [|by apply quiet_ret|by split; [apply keeps_refl|]..]. apply (refVals_any_ok _ _ _ Hv) in Ek. destruct a as [x|].
  - destruct (TxnDesc_at r table d e T Hok Hat) as (e1 & T1 & HD & Hg & Ht). unfold wp, probeIndex, TxnScanIndex, seqOf. rewrite HD. unfold withIndex.
    destruct (Index d (ixName x)) as [y|]; [|by destruct T1; split; [split; [done|cbn in *; rewrite Ht; apply same_rows_refl]|]].
    pose proof (path_scan_reads d (Some y) false (bound_of key) None false (λ seen, bool_decide (length seen = 0%nat)) (xTx T1)) as Hrd. cbn [path_scan] in Hrd.
    destruct (scanIndexRows _ _ _ _ _ _) as [items t']. cbn [snd] in Hrd.
    assert (keeps r (e, T) (e1, x_tx (λ _, t') T1)) as Hk.
    { apply (keeps_trans r _ (e1, T1)); [|split; [by apply goes_reads; [apply Hg|]|]]; [split; [done|]|]; unfold mapOf; cbn; [rewrite Ht|destruct Hrd as [-> _]]; apply same_rows_refl. }
    destruct items as [|item items]; cbn [fst snd]; (split; [done|]); [done|]. by destruct (item ≫= _).
  - destruct (TxnGet_at d r table key e T Hok Hat Ek) as (s' & HG & Hg & Hm). unfold wp. rewrite HG. split; [split; [done|unfold mapOf; cbn; rewrite Hm; apply same_rows_refl]|by destruct (getRow _ _ _)].
Qed.
Lemma keeps_at r s s' name d : keeps r s s' -> table_at (mapOf s) name d -> table_at (mapOf s') name d.
Proof. intros [_ Hk] Hat. by apply (same_at _ _ _ _ (ls_tables _ _ _ Hk)). Qed.
Lemma conflict_quiet r table d arbs vals s : txn_ok r s.1 s.2 -> table_at (mapOf s) table d -> Forall any_ok vals -> wp (conflict table d arbs vals) (quiet r (λ _, True) s) s.
Proof.
  intros Hok Hat Hv. revert s Hok Hat. induction arbs as [|a arbs IH]; intros s Hok Hat; cbn [conflict]; [by apply quiet_ret|].
  apply wp_bind. eapply wp_mono; [by apply probe_quiet|]. intros [[row|]|er|q] s1 [Hk _]; cbn [seqQ]; [by apply wp_ret| |done..].
  eapply wp_mono; [apply IH; [apply Hk|by eapply keeps_at]|]. intros o s2 [Hk2 _]. split; [by eapply keeps_trans|by destruct o].
Qed.

(** ** INSERT *)

(** A statement's step: the transaction goes on, and when the step returns
    the tables are as they were and every reference holds. *)
Definition upholds {A : Type} (r : Z) (s : E * Txn) (o : outcome A) (s' : E * Txn) : Prop := goes r s s' /\
  match o with Ok _ => same_tables (mapOf s) (mapOf s') /\ ref_ok (mapOf s') | _ => True end.
(** Where it starts. *)
Record begun (r : Z) (name : bytes) (d : TableDesc) (s : E * Txn) : Prop := {
  so_ok : txn_ok r s.1 s.2;
  so_named : all_named (mapOf s);
  so_at : table_at (mapOf s) name d;
  so_refs : ref_ok (mapOf s);
}.
Lemma begun_keeps r name d s s' : begun r name d s -> keeps r s s' -> begun r name d s'.
Proof.
  intros [H1 H2 H3 H4] [Hg Hs]. split; [apply Hg|by apply (all_named_same _ _ (ls_tables _ _ _ Hs))|by apply (same_at _ _ _ _ (ls_tables _ _ _ Hs))|by apply (ref_ok_same _ _ Hs)].
Qed.
Lemma begun_upholds r r' name d s s' : begun r name d s -> goes r' s s' -> same_tables (mapOf s) (mapOf s') -> ref_ok (mapOf s') -> begun r' name d s'.
Proof. intros [H1 H2 H3 H4] Hg Hs Hr. split; [apply Hg|by apply (all_named_same _ _ Hs)|by apply (same_at _ _ _ _ Hs)|done]. Qed.
Lemma begun_less r r' name d s : r' <= r -> begun r name d s -> begun r' name d s.
Proof. intros Hr [H1 H2 H3 H4]. split; [by eapply txn_ok_less|done..]. Qed.
Lemma upholds_ret {A : Type} r name d s (a : A) : begun r name d s -> wp (mret a) (upholds r s) s.
Proof. intros [H1 H2 H3 H4]. apply wp_ret. split; [by apply goes_refl|done]. Qed.
Lemma upholds_err {A : Type} r name d s (er : error) : begun r name d s -> upholds (A := A) r s (Err er) s.
Proof. intros [H1 H2 H3 H4]. split; [by apply goes_refl|done]. Qed.
Lemma upholds_quiet {A B : Type} r r' name d (P : A -> Prop) (m : M (E * Txn) A) (f : A -> M (E * Txn) B) s : r' <= r -> begun r name d s -> wp m (quiet r P s) s ->
  (forall a s', begun r name d s' -> P a -> wp (f a) (upholds r' s') s') -> wp (m ≫= f) (upholds r' s) s.
Proof.
  intros Hr Hs Hm Hf. apply wp_bind. eapply wp_mono; [exact Hm|]. intros [a|er|q] s1 [Hk HP]; cbn [seqQ]; [|by split; [eapply goes_less; [done|apply Hk]|]..].
  eapply wp_mono; [by apply Hf; [eapply begun_keeps|]|]. intros o s2 [Hg H]. split; [eapply goes_trans; [apply Hk|done]|]. destruct o; [|done..]. destruct H as [H1 H2]. split; [|done].
  etransitivity; [apply (ls_tables _ _ _ (proj2 Hk))|done].
Qed.
Lemma upholds_bind {A B : Type} r r' r2 name d (m : M (E * Txn) A) (f : A -> M (E * Txn) B) s : r2 <= r' -> begun r name d s -> wp m (upholds r' s) s ->
  (forall a s', begun r' name d s' -> wp (f a) (upholds r2 s') s') -> wp (m ≫= f) (upholds r2 s) s.
Proof.
  intros Hr Hs Hm Hf. apply wp_bind. eapply wp_mono; [exact Hm|]. intros [a|er|q] s1 [Hg HP]; cbn [seqQ]; [|by split; [by eapply goes_less|]..]. destruct HP as [H1 H2].
  eapply wp_mono; [by apply Hf; eapply begun_upholds|]. intros o s2 [Hg2 H]. split; [by eapply goes_trans|]. destruct o; [|done..]. destruct H as [H3 H4]. split; [by etransitivity|done].
Qed.

Lemma upholds_after {A : Type} r r' s s1 (o : outcome A) s2 : goes r s s1 -> same_tables (mapOf s) (mapOf s1) -> upholds r' s1 o s2 -> upholds r' s o s2.
Proof. intros Hg Ht [Hg2 H2]. split; [by eapply goes_trans|]. destruct o; [|done..]. destruct H2 as [H3 H4]. split; [by etransitivity|done]. Qed.
Lemma upholds_lift {A B : Type} r r' name d (o : outcome A) (f : A -> M (E * Txn) B) s : r' <= r -> begun r name d s ->
  (forall a, o = Ok a -> wp (f a) (upholds r' s) s) -> wp (lift o ≫= f) (upholds r' s) s.
Proof.
  intros Hr Hs Hf. apply wp_bind_lift. destruct o as [a|er|q]; cbn [seqQ]; [by apply Hf|..]; (split; [|done]); eapply goes_less; [done|apply goes_refl, Hs|done|apply goes_refl, Hs].
Qed.
Lemma verifyStored_wp r n d row nrow s : txn_ok r s.1 s.2 -> all_named (mapOf s) -> table_at (mapOf s) n d -> row_typed d row -> normals row = Ok nrow ->
  wp (verifyStored ctx d row) (λ o s', peeks r s s' /\
    match o with
    | Ok _ => forall f p pords vs, f ∈ tForeignKeys d -> fk_on (mapOf s) d f p pords -> refTuple nrow (fkCols f) = Some vs -> has_parent (mapOf s) p pords vs
    | _ => True
    end) s.
Proof.
  destruct s as [e T]. intros Hok Hnm Hat Ht Hn. unfold verifyStored. destruct (tForeignKeys d) as [|f0 fks] eqn:Ef.
  { apply wp_ret. split; [by apply peeks_refl|]. by intros f p pords vs ?%elem_of_nil. }
  rewrite <- Ef. eapply wp_mono; [by apply (fkVerifyRow_wp ctx r n d row nrow e T)|]. intros [[]|er|q] s' [Hp H]; by split.
Qed.
Lemma insert_upholds {A : Type} r name d vals (k : Row -> M (E * Txn) A) s : 0 <= r -> begun (r + 1) name d s -> Forall any_ok vals ->
  (forall row s', begun r name d s' -> wp (k row) (upholds r s') s') ->
  wp (stored ← TxnInsertReturning name vals; _ ← verifyStored ctx d (rVals stored); k stored) (upholds r s) s.
Proof.
  destruct s as [e T]. intros Hr [Hok Hnm Hat Href] Hv Hk. cbn [fst snd] in *. apply wp_bind. eapply wp_mono; [by apply (TxnInsertReturning_row r name d)|].
  intros [row|er|q] s1 [Hg H]; cbn [seqQ]; [|done..]. destruct H as (Ht & nrow & Hn & Hch). pose proof (ch_tables _ _ _ _ Hch) as Hst.
  assert (all_named (mapOf s1)) as Hnm1 by (by eapply all_named_same). assert (table_at (mapOf s1) name d) as Hat1 by (by apply (same_at _ _ _ _ Hst)).
  apply wp_bind. eapply wp_mono; [apply (verifyStored_wp r name d (rVals row) nrow s1); [apply Hg|done..]|]. intros [[]|er|q] s2 [[Hg2 Hm2] Hf]; cbn [seqQ]; [|by split; [eapply goes_trans|]..].
  assert (ref_ok (mapOf s2)) as Href2 by (rewrite Hm2; by eapply (ref_ok_insert (kv_map (xTx T)) (mapOf s1) name d nrow)).
  rewrite <- Hm2 in Hst, Hnm1, Hat1. eapply wp_mono; [apply Hk; by split; [apply Hg2|..]|]. intros o s3 [Hg3 H3]. split; [eapply goes_trans; [exact Hg|]; by eapply goes_trans|].
  destruct o; [|done..]. destruct H3 as [H3 H4]. split; [by etransitivity|done].
Qed.

(** No ON CONFLICT clause, or DO NOTHING. *)
Definition no_update (up : option (upsert (C := C) (Ex := Ex))) : Prop := match up with Some u => ocUpdate (usOc u) = false | None => True end.
Lemma insertOne_upholds s d ret b checks up vals pg r st : 0 <= r -> begun (r + 1) (inTable s) d st -> Forall any_ok vals -> no_update up ->
  wp (insertOne ctx s d ret b checks up vals pg) (upholds r st) st.
Proof.
  intros Hr Hs Hv Hu. unfold insertOne. eapply (upholds_quiet (r + 1) r _ _ (λ _, True)); [lia|done| |].
  { case_bool_decide; [apply checkRow_quiet, Hs|apply quiet_ret; [apply Hs|done]]. }
  intros _ s1 Hs1 _. apply insert_upholds; [done..|]. intros row s2 Hs2. eapply (upholds_quiet r r _ _ (λ _, True)); [lia|done| |].
  { destruct up as [u|]; [|apply quiet_ret; [apply Hs2|done]]. cbn in Hu. rewrite Hu. apply quiet_ret; [apply Hs2|done]. }
  intros touched s3 Hs3 _. eapply wp_mono; [apply affect_quiet, Hs3|]. intros o s4 [Hk _]. split; [apply Hk|]. destruct o; [|done..].
  split; [apply (ls_tables _ _ _ (proj2 Hk))|apply (ref_ok_same _ _ (proj2 Hk)), Hs3].
Qed.
Lemma insertStep_upholds s d ret b ords checks defaults up row pg r st : 0 <= r -> begun (r + 1) (inTable s) d st -> Forall any_ok defaults -> Forall value_ok row -> no_update up ->
  wp (insertStep ctx s d ret b ords checks defaults up row pg) (upholds r st) st.
Proof.
  intros Hr Hs Hd Hv Hu. unfold insertStep. eapply (upholds_quiet (r + 1) r _ _ (Forall value_ok)); [lia|done|apply quiet_lift; [apply Hs|]; intros vals; by apply arrange_ok|].
  intros vals s1 Hs1 Hv1. eapply (upholds_quiet (r + 1) r _ _ (Forall any_ok)); [lia|done|by apply resolveExprValues_quiet; [apply markers_ok|apply Hs1]|].
  intros vals2 s2 Hs2 Hv2. destruct up as [u|] eqn:Eu; [|by apply insertOne_upholds]. cbn in Hu.
  case_bool_decide; [|by apply insertOne_upholds]. eapply (upholds_quiet (r + 1) r _ _ (λ _, True)); [lia|done|by apply conflict_quiet; [apply Hs2|apply (so_at _ _ _ _ Hs2)|]|].
  intros [row'|] s3 Hs3 _; [|by apply insertOne_upholds]. rewrite Hu. cbn [negb]. eapply upholds_ret, begun_less, Hs3. lia.
Qed.
Lemma insertRows_upholds s d ret b ords checks defaults up rows pg r st : 0 <= r -> begun (r + Z.of_nat (length rows)) (inTable s) d st -> Forall any_ok defaults -> Forall (Forall value_ok) rows -> no_update up ->
  wp (insertRows ctx s d ret b ords checks defaults up rows pg) (upholds r st) st.
Proof.
  intros Hr Hs Hd Hv Hu. revert pg st Hs. induction Hv as [|row rows Hv _ IH]; intros pg st Hs; cbn [insertRows length] in *.
  { eapply upholds_ret. by rewrite Z.add_0_r in Hs. }
  apply (upholds_bind (r + Z.of_nat (S (length rows))) (r + Z.of_nat (length rows)) r (inTable s) d); [lia|done| |intros pg' s' Hs'; by apply IH].
  apply insertStep_upholds; try done; [lia|]. replace (r + Z.of_nat (length rows) + 1) with (r + Z.of_nat (S (length rows))) by lia. done.
Qed.

Lemma start_upholds {A : Type} r r' name (f : TableDesc -> M (E * Txn) A) st : r' <= r -> txn_ok r st.1 st.2 -> all_named (mapOf st) -> ref_ok (mapOf st) ->
  (forall d s', begun r name d s' -> mapOf s' = mapOf st -> wp (f d) (upholds r' s') s') ->
  wp (od ← TxnTable name; match od with None => fail errNoTable | Some d => f d end) (upholds r' st) st.
Proof.
  destruct st as [e T]. intros Hr Hok Hnm Href Hf. apply wp_bind, (wp_TxnTable r); [done|]. intros s' Hg Ht _ od Hod. cbn [seqQ].
  assert (mapOf s' = mapOf (e, T)) as Hm by (unfold mapOf; by rewrite Ht). destruct od as [d|]; [|apply wp_fail; split; [by eapply goes_less|done]].
  assert (table_at (mapOf s') name d) as Hat by (by rewrite Hm). eapply wp_mono; [apply Hf; [split; [apply Hg|by rewrite Hm|done|by rewrite Hm]|done]|].
  intros o s2 [Hg2 H2]. rewrite Hm in H2. split; [by eapply goes_trans|done].
Qed.
Lemma execInsert_upholds s r st : 0 <= r -> txn_ok (r + Z.of_nat (length (inRows s))) st.1 st.2 -> all_named (mapOf st) -> ref_ok (mapOf st) ->
  Forall (Forall value_ok) (inRows s) -> (forall oc, inConflict s = Some oc -> ocUpdate oc = false) -> wp (execInsert ctx now s) (upholds r st) st.
Proof.
  intros Hr Hok Hnm Href Hv Hoc. set (n := r + Z.of_nat (length (inRows s))) in *. assert (r <= n) as Hn by lia. apply (start_upholds n); [done..|]. intros d s0 H0 _.
  apply (upholds_lift n r _ _ _ _ _ Hn H0). intros ret _. apply wp_bind, wp_gets. cbn [seqQ]. apply (upholds_lift n r _ _ _ _ _ Hn H0). intros ords _.
  apply (upholds_lift n r _ _ _ _ _ Hn H0). intros checks _. apply (upholds_lift n r _ _ _ _ _ Hn H0). intros defaults Hd%columnDefaults_ok.
  apply (upholds_lift n r _ _ _ _ _ Hn H0). intros up Hup. assert (no_update up) as Hu.
  { unfold prepareUpsert in Hup. destruct (inConflict s) as [oc|]; [|by injection Hup as <-]. apply outcome_bind_ok in Hup as (arbs & _ & H). rewrite (Hoc oc eq_refl) in H.
    cbn in H. injection H as <-. by apply Hoc. }
  eapply (upholds_quiet n r _ _ (λ _, True)); [done..| |].
  { destruct up; [apply quiet_ret; [apply H0|done]|]. destruct s0 as [e0 T0]. apply wp_CheckWrites; [intros _|intros er]; (split; [apply keeps_refl, H0|done]). }
  intros _ s7 H7 _. by apply insertRows_upholds.
Qed.

(** ** The rows a WHERE matches *)

Lemma scan_where {D : Type} r table d h (w : BoolExpr D) p cond keep e (T : Txn) (m := kv_map (xTx T)) : txn_ok r e T -> table_at m table d -> named d -> lits_ok h w ->
  planScan d table h w = Ok p ->
  wp (scanRowsOf ctx h p cond keep table) (λ o s', peeks r (e, T) s' /\ exists b found, walkPreds (bindIn d table h) w ∅ = Ok b /\ NoDup found /\
    (forall row, row ∈ found <-> stored d m row /\ evalPreds h b cond w row = Ok triTrue) /\
    match o with
    | Ok rows => exists pre, rows = mkRow d <$> pre /\ pre `prefix_of` found /\ (pre = found \/ pre <> [] /\ keep (reverse rows) = false)
    | Err er => cancelled ctx er \/ exists row, stored d m row /\ evalPreds h b cond w row = Err er
    | Panic q => exists row, stored d m row /\ evalPreds h b cond w row = Panic q
    end) (e, T).
Proof.
  intros Hok Hat Hn Hl Hp. destruct (table_at_wf _ table d (vo_db _ _ (tk_view _ _ _ Hok)) Hat) as [_ Hwd].
  destruct (abstracts_exists d m (cw_wf d Hwd) (to_inv _ _ (db_table _ (vo_db _ _ (tk_view _ _ _ Hok)) table d Hat))) as [Tb HTb].
  assert (chooseOrderedPlan d table h w [] false = Ok (p, false)) as Hc by (unfold chooseOrderedPlan; unfold planScan in Hp; by rewrite Hp).
  pose proof (scan_exact r table d table h w [] false p false (ctx (e, T)) cond keep e T Tb Hok Hat HTb Hn Hl Hc) as H.
  unfold wp, scanRowsOf. destruct (scanPlan _ _ _ _ _ _ _) as [[rows o] s'].
  destruct H as [(b & found & Hb & Hnd & Hin & _ & pre & Hrows & Hpre & Ho) [Hg Hm]]. cbn [fst snd]. split; [by split|].
  assert (forall pk row, Tb !! pk = Some row -> stored d m row) as Hst by (intros pk row HT; by apply (abs_lookup d _ Tb _ _ HTb) in HT as [? _]).
  exists b, found. split_and!; [done..| |].
  { intros row. rewrite Hin. by rewrite (abs_stored d _ Tb HTb). }
  destruct o as [[]|er|q]; [by exists pre|..].
  - destruct Ho as [[i Hi]|(pk & row & HT & He)]; [left; by exists (e, T), i|]. right. exists row. by split; [eapply Hst|].
  - destruct Ho as (pk & row & HT & He). exists row. by split; [eapply Hst|].
Qed.
Lemma stored_count (d : TableDesc) (m : kvmap) (rows : list (list any)) : NoDup rows -> Forall (stored d m) rows -> (length rows <= size m)%nat.
Proof.
  intros Hnd Hst. rewrite <- (length_fmap (row_key d) rows), <- (size_list_to_set (C := gset bytes) (row_key d <$> rows)).
  - rewrite <- (size_dom (D := gset bytes)). apply subseteq_size. intros k (row & -> & Hr)%elem_of_list_to_set%list_elem_of_fmap. rewrite Forall_forall in Hst.
    destruct (Hst row Hr) as (_ & v & Hv & _). apply elem_of_dom. by exists v.
  - apply NoDup_fmap_2_strong; [|done]. rewrite Forall_forall in Hst. intros x y Hx Hy. by apply (stored_inj d m); apply Hst.
Qed.

Lemma scanCapped_wp r table d (w : heap * BoolExpr C) sc p st : txn_ok r st.1 st.2 -> table_at (mapOf st) table d -> named d -> lits_ok w.1 w.2 -> planScan d table w.1 w.2 = Ok p ->
  wp (scanCapped ctx w.1 p sc table) (λ o s', peeks r st s' /\ match o with Ok rows => NoDup rows /\ Forall (stored d (mapOf st)) rows | _ => True end) st.
Proof.
  destruct st as [e T]. intros Hok Hat Hn Hl Hp. pose proof (scan_where r table d w.1 w.2 p (evalCond sc (e, T)) (λ rows, writesFit (e, T) (length rows)) e T Hok Hat Hn Hl Hp) as H.
  unfold wp, scanCapped in *. destruct (scanRowsOf _ _ _ _ _ _ _) as [o s']. cbn [fst snd] in H. destruct H as [Hpk (b & found & Hb & Hnd & Hin & H)]. destruct o as [rows|er|q]; cbn [fst snd]; [|done..].
  destruct H as (pre & -> & [later ->] & _). destruct (_ || _); cbn [fst snd]; (split; [done|]); [|done]. assert (rVals <$> (mkRow d <$> pre) = pre) as -> by (rewrite <- list_fmap_compose; apply list_fmap_id).
  apply NoDup_app in Hnd as (Hnd & _ & _). split; [done|]. apply Forall_forall. intros row Hr. apply Hin, elem_of_app. by left.
Qed.

(** ** UPDATE *)

Lemma unchanged_cell d old row nrow o : row_ok d old -> row_typed d row -> normals row = Ok nrow -> (o < length (tColumns d))%nat ->
  is_nil (val_at old o) = false -> compareVals (val_at old o) (val_at row o) = Some Eq -> val_at nrow o = val_at old o.
Proof.
  intros Hold [Hl Hcell] Hn Ho Hnil Hcmp. destruct (lookup_lt_is_Some_2 _ _ Ho) as [c Hc]. destruct (row_stored d old o c Hold Hc) as [_ Hst].
  destruct (lookup_lt_is_Some_2 row o) as [v Hv]; [lia|]. apply traverse_ok in Hn. destruct (Forall2_lookup_l _ _ _ _ _ Hn Hv) as (n & Hno & Hnv).
  assert (val_at row o = v) as Ev by (unfold val_at; by rewrite Hv). assert (val_at nrow o = n) as En by (unfold val_at; by rewrite Hno). rewrite Ev, En in *.
  specialize (Hcell o c v Hc Hv). unfold cell_ok in Hcell. destruct (is_nil v) eqn:Env; [destruct v; try done; by destruct (val_at old o) as [| |[] ?| | | | | | | |]|].
  assert (same_value (colType c) v n) as Hs by (split; [apply Hcell|done]). rewrite (compare_same _ _ _ _ Hst Hs Hnil) in Hcmp. injection Hcmp as Hcmp.
  symmetry. apply valueCompare_eq; [apply Hst| |done]. eapply normalize_canon; [|apply Hs]. eapply typed_any_ok, Hs.
Qed.
Lemma refColsChanged_same d names pords old row nrow : row_ok d old -> row_typed d row -> normals row = Ok nrow -> Forall (λ o, o < length (tColumns d))%nat pords ->
  ColIndex d <$> names = Some <$> pords -> refColsChanged d names old row = Ok false ->
  Forall (λ o, is_nil (val_at old o) = false -> val_at nrow o = val_at old o) pords.
Proof.
  intros Hold Hrow Hn Hr. revert names. induction Hr as [|o pords Ho _ IH]; intros [|name names]; try done. csimpl. intros [= E1 E2]. cbn [refColsChanged]. rewrite E1.
  intros (ov & Hov & (nv & Hnv & H)%outcome_bind_ok)%outcome_bind_ok. assert (ov = val_at old o /\ nv = val_at row o) as [-> ->].
  { unfold at_index, val_at in *. destruct (old !! o); [|done]. destruct (row !! o); [|done]. cbn; split; congruence. }
  destruct (negb _ && negb _) eqn:Ec; [done|]. constructor; [|by eapply IH]. intros Hnil. apply (unchanged_cell d old row); try done.
  rewrite Hnil in Ec. cbn in Ec. rewrite andb_true_r in Ec. apply negb_false_iff, bool_decide_eq_true in Ec. done.
Qed.
Lemma fkRefColsChanged_same d refs old row nrow d' f pords vs : row_ok d old -> row_typed d row -> normals row = Ok nrow -> (d', f) ∈ refs ->
  Forall (λ o, o < length (tColumns d))%nat pords -> ColIndex d <$> fkRefCols f = Some <$> pords -> fkRefColsChanged d refs old row = Ok false ->
  refTuple old pords = Some vs -> refTuple nrow pords = Some vs.
Proof.
  intros Hold Hrow Hn Hin Hr Hc Hch Hv. assert (refColsChanged d (fkRefCols f) old row = Ok false) as H1.
  { induction refs as [|x refs IH]; [by apply elem_of_nil in Hin|]. cbn [fkRefColsChanged] in Hch. apply outcome_bind_ok in Hch as (c & Hx & Hch). destruct c; [done|].
    apply elem_of_cons in Hin as [<-|Hin]; [done|by apply IH]. }
  pose proof (refColsChanged_same d _ pords old row nrow Hold Hrow Hn Hr Hc H1) as Hs. destruct (refTuple_Some _ _ _ Hv) as [-> Hnn]. rewrite Forall_fmap in Hnn.
  assert (val_at nrow <$> pords = val_at old <$> pords) as Ee.
  { apply list_fmap_ext. intros i o Ho. eapply Forall_lookup_1 in Hs; [|exact Ho]. eapply Forall_lookup_1 in Hnn; [|exact Ho]. by apply Hs. }
  rewrite <- Hv. unfold refTuple. change (λ o, default ANil (nrow !! o)) with (val_at nrow). change (λ o, default ANil (old !! o)) with (val_at old). by rewrite Ee.
Qed.

(** The loop of an UPDATE over the rows it matched. *)
Record updating (r : Z) (name : bytes) (d : TableDesc) (refs : list FKRef) (rows rc : list (list any)) (s : E * Txn) : Prop := {
  up_ok : txn_ok r s.1 s.2;
  up_named : all_named (mapOf s);
  up_at : table_at (mapOf s) name d;
  up_refs d' f : (d', f) ∈ refs <-> references (mapOf s) name false d' f;
  up_but : ref_but name rc (mapOf s);
  up_rows : Forall (stored d (mapOf s)) rows;
  up_nodup : NoDup rows;
  up_recheck : Forall (row_ok d) rc;
}.
Lemma updating_keeps r name d refs rows rc s s' : updating r name d refs rows rc s -> keeps r s s' -> updating r name d refs rows rc s'.
Proof.
  intros [H1 H2 H3 H4 H5 H6 H7 H8] [Hg Hs]. pose proof (ls_tables _ _ _ Hs) as Ht. split; try done.
  - apply Hg.
  - by apply (all_named_same _ _ Ht).
  - by apply (same_at _ _ _ _ Ht).
  - intros d' f. rewrite H4. symmetry. by apply references_same.
  - by apply (ref_but_same _ _ _ _ Hs).
  - eapply Forall_impl; [exact H6|]. intros row. by apply (same_rows_stored _ _ name).
Qed.
Lemma updating_row r name d refs rv rows rc rc' nrow s s' : updating (r + 1) name d refs (rv :: rows) rc s -> goes r s s' ->
  changes (λ n x, n = name /\ x = rv) (λ n x, n = name /\ x = nrow) (mapOf s) (mapOf s') -> rc ⊆ rc' -> Forall (row_ok d) rc' ->
  (forall f p pords vs, f ∈ tForeignKeys d -> fk_on (mapOf s') d f p pords -> refTuple nrow (fkCols f) = Some vs -> has_parent (mapOf s') p pords vs) ->
  (rv ∈ rc' \/ forall d' f pords vs, references (mapOf s) name false d' f -> fk_on (mapOf s) d' f d pords -> refTuple rv pords = Some vs -> refTuple nrow pords = Some vs) ->
  updating r name d refs rows rc' s'.
Proof.
  intros [H1 H2 H3 H4 H5 H6 H7 H8] Hg Hch Hsub Hrc Hv Hold. pose proof (ch_tables _ _ _ _ Hch) as Ht. apply Forall_cons in H6 as [_ H6]. apply NoDup_cons in H7 as [Hni H7]. split; try done.
  - apply Hg.
  - by apply (all_named_same _ _ Ht).
  - by apply (same_at _ _ _ _ Ht).
  - intros d' f. rewrite H4. symmetry. by apply references_same.
  - eapply (ref_but_update (mapOf s) (mapOf s') name d rv nrow rc rc'); try done. apply (vo_db _ _ (tk_view _ _ _ H1)).
  - rewrite Forall_forall in *. intros row Hr. apply (ch_rows _ _ _ _ Hch name d row H3). left. split; [by apply H6|]. by intros [_ ->].
Qed.

Lemma updating_next r name d refs rv rows rc s s' : updating (r + 1) name d refs (rv :: rows) rc s -> goes r s s' -> mapOf s' = mapOf s -> updating r name d refs rows rc s'.
Proof.
  intros [H1 H2 H3 H4 H5 H6 H7 H8] Hg Hm. apply Forall_cons in H6 as [_ H6]. apply NoDup_cons in H7 as [_ H7]. split; rewrite ?Hm; try done. apply Hg.
Qed.

Definition moves (r : Z) (name : bytes) (d : TableDesc) (refs : list FKRef) (rows : list (list any)) (s : E * Txn) (o : outcome (list (list any) * progress)) (s' : E * Txn) : Prop := goes r s s' /\
  match o with Ok q => same_tables (mapOf s) (mapOf s') /\ updating r name d refs rows q.1 s' | _ => True end.
Lemma moves_after r r' name d refs rows s s1 o s2 : r' <= r -> goes r s s1 -> same_tables (mapOf s) (mapOf s1) -> moves r' name d refs rows s1 o s2 -> moves r' name d refs rows s o s2.
Proof. intros Hr Hg Ht [Hg2 H2]. split; [by eapply goes_trans|]. destruct o; [|done..]. destruct H2 as [H3 H4]. split; [by etransitivity|done]. Qed.
Lemma moves_quiet {A : Type} r r' name d refs rows0 rc0 rows (P : A -> Prop) (m : M (E * Txn) A) f s : r' <= r -> updating r name d refs rows0 rc0 s -> wp m (quiet r P s) s ->
  (forall a s', updating r name d refs rows0 rc0 s' -> P a -> wp (f a) (moves r' name d refs rows s') s') -> wp (m ≫= f) (moves r' name d refs rows s) s.
Proof.
  intros Hr Hs Hm Hf. apply wp_bind. eapply wp_mono; [exact Hm|]. intros [a|er|q] s1 [Hk HP]; cbn [seqQ]; [|by split; [eapply goes_less; [done|apply Hk]|]..].
  eapply wp_mono; [by apply Hf; [eapply updating_keeps|]|]. intros o s2 H. eapply moves_after; [done|apply Hk|apply (ls_tables _ _ _ (proj2 Hk))|done].
Qed.
Lemma updateStep_moves s d ret b checks setVals refs rv rows rc pg r st : 0 <= r -> updating (r + 1) (upTable s) d refs (rv :: rows) rc st -> Forall any_ok (upSet s).*2 ->
  wp (updateStep ctx s d ret b checks setVals refs rv rc pg) (moves r (upTable s) d refs rows st) st.
Proof.
  intros Hr Hst Hset. unfold updateStep. eapply (moves_quiet (r + 1) r); [lia|done|apply evalSets_quiet, Hst|]. intros sets s1 H1 Hsets.
  eapply (moves_quiet (r + 1) r _ _ _ _ _ _ (λ _, True)); [lia|done| |].
  { destruct checks; [apply quiet_ret; [apply H1|done]|]. eapply quiet_bind; [apply (quiet_lift (r + 1) (λ _, True)); [apply H1|done]|]. intros nv s2 Hok2 _. by apply checkRow_quiet. }
  intros _ [e T] H2 _. pose proof (Forall_inv (up_rows _ _ _ _ _ _ _ H2)) as Hrv. pose proof (stored_ok _ _ _ Hrv) as Hrow.
  destruct (table_at_wf _ _ d (vo_db _ _ (tk_view _ _ _ (up_ok _ _ _ _ _ _ _ H2))) (up_at _ _ _ _ _ _ _ H2)) as [_ Hwd].
  apply wp_bind_lift. rewrite (pkValues_pkOf d (cw_wf d Hwd)) by (apply (stored_canon _ _ _ Hrv)). cbn [seqQ].
  apply wp_bind. eapply wp_mono; [apply (TxnUpdateReturning_row r (upTable s) d rv _ e T); [done|apply H2|apply (up_at _ _ _ _ _ _ _ H2)|done|by apply overlay_ok]|].
  intros [[row|]|er|q] s3 [Hg3 H3]; cbn [seqQ]; [| |by split..].
  - destruct H3 as (Ht & nrow & Hn & _ & Hch). pose proof (ch_tables _ _ _ _ Hch) as Hst3.
    assert (all_named (mapOf s3)) as Hnm3 by (eapply all_named_same; [done|apply (up_named _ _ _ _ _ _ _ H2)]). assert (table_at (mapOf s3) (upTable s) d) as Hat3 by (apply (same_at _ _ _ _ Hst3), (up_at _ _ _ _ _ _ _ H2)).
    apply wp_bind. eapply wp_mono; [apply (verifyStored_wp r (upTable s) d (rVals row) nrow s3); [apply Hg3|done..]|].
    intros [[]|er|q] s4 [[Hg4 Hm4] Hf]; cbn [seqQ]; [|by split; [eapply goes_trans|]..]. rewrite <- Hm4 in *. assert (goes r (e, T) s4) as Hg by (by eapply goes_trans).
    apply wp_bind_lift. destruct (fkRefColsChanged d refs rv (rVals row)) as [changed|er|q] eqn:Ec; cbn [seqQ]; [|by split..].
    assert (updating r (upTable s) d refs rows (if changed then rc ++ [rv] else rc) s4) as H4.
    { pose proof (up_recheck _ _ _ _ _ _ _ H2) as Hrc. apply (updating_row r _ _ _ rv rows rc _ nrow (e, T) s4); try done.
      - destruct changed; set_solver.
      - destruct changed; [|done]. apply Forall_app. by split; [|apply Forall_singleton].
      - destruct changed; [left; set_solver|right]. intros d' f pords vs Hr' Hon Hvs. eapply (fkRefColsChanged_same d refs rv (rVals row) nrow d' f); try done.
        + by apply (up_refs _ _ _ _ _ _ _ H2).
        + by apply (fk_ranges _ (tName d') d' f d pords (vo_db _ _ (tk_view _ _ _ (up_ok _ _ _ _ _ _ _ H2))) (proj1 Hr') Hon).
        + apply Hon. }
    eapply wp_mono; [|intros o s5; apply (moves_after r r _ _ _ _ (e, T) s4); [lia|done|done]].
    eapply (moves_quiet r r); [lia|done|apply affect_quiet, H4|]. intros pg' s5 H5 _. apply wp_ret. split; [apply goes_refl, H5|]. by split.
  - apply wp_ret. split; [done|]. assert (mapOf s3 = mapOf (e, T)) as Hm by done. split; [by rewrite Hm|]. by eapply updating_next.
Qed.

Lemma updateRows_moves s d ret b checks setVals refs rows rc pg r st : 0 <= r -> updating (r + Z.of_nat (length rows)) (upTable s) d refs rows rc st -> Forall any_ok (upSet s).*2 ->
  wp (updateRows ctx s d ret b checks setVals refs rows rc pg) (moves r (upTable s) d refs [] st) st.
Proof.
  intros Hr Hst Hset. revert rc pg st Hst. induction rows as [|rv rows IH]; intros rc pg st Hst; cbn [updateRows length] in *.
  { rewrite Z.add_0_r in Hst. apply wp_ret. split; [apply goes_refl, Hst|]. by split. }
  apply wp_bind. eapply wp_mono; [apply (updateStep_moves s d ret b checks setVals refs rv rows rc pg (r + Z.of_nat (length rows))); [lia| |done]|].
  { replace (r + Z.of_nat (length rows) + 1) with (r + Z.of_nat (S (length rows))) by lia. done. }
  intros [[rc' pg']|er|q] s1 [Hg H]; cbn [seqQ]; [|by split; [eapply goes_less; [|done]; lia|]..]. destruct H as [H1 H2]. cbn [fst] in H2.
  eapply wp_mono; [by apply IH|]. intros o s2. apply (moves_after (r + Z.of_nat (length rows))); [lia|done|done].
Qed.
(** The end of an UPDATE: no row references what the rows were. *)
Lemma recheck_upholds r name d refs rc s : updating r name d refs [] rc s -> wp (for_each (fkVerifyReferenced ctx d refs) rc) (upholds r s) s.
Proof.
  destruct s as [e T]. intros [H1 H2 H3 H4 H5 _ _ H8]. pose proof (vo_db _ _ (tk_view _ _ _ H1)) as Hdb. destruct (table_at_wf _ name d Hdb H3) as [Hn _].
  eapply wp_mono; [apply (each_peeks r _ _ (λ prow, forall d' f pords vs, (d', f) ∈ refs -> fk_on (mapOf (e, T)) d' f d pords -> refTuple prow pords = Some vs -> ~ still (mapOf (e, T)) (d', f) vs) (λ _, True)); [done|]|].
  - intros prow [e1 T1] Hp [Hg Hm]. unfold mapOf in *. cbn [snd] in *. rewrite <- Hm in H2, H3, H4 |- *. rewrite Forall_forall in H8. rewrite <- Hn in H3, H4.
    eapply wp_mono; [apply (fkVerifyReferenced_wp ctx r d refs prow e1 T1); [apply Hg|done|done|by apply H8|by intros d' f ?%H4]|]. intros [[]|er|q] s2 [Hp2 H]; by split.
  - intros [[]|er|q] s2 [[Hg Hm] H]; (split; [done|]); [|done..]. rewrite Hm. split; [done|].
    intros n d' f p pords Hat Hf Hon row vs Hs Hv. destruct (H5 n d' f p pords row vs Hat Hf Hon Hs Hv) as [?|(En & old & Ho & Hov)]; [done|exfalso].
    pose proof (on_parent _ _ _ _ _ Hon) as Hp. rewrite En in Hp. assert (p = d) as -> by (unfold table_at in *; congruence). destruct (table_at_wf _ n d' Hdb Hat) as [En' _].
    apply (H old Ho d' f pords vs); [|done..|by exists row]. apply H4. split; [by rewrite En'|done].
Qed.
Lemma execUpdate_upholds s r st : 0 <= r -> txn_ok (r + Z.of_nat (size (mapOf st))) st.1 st.2 -> all_named (mapOf st) -> ref_ok (mapOf st) ->
  Forall any_ok (upSet s).*2 -> lits_ok (upWhere s).1 (upWhere s).2 -> wp (execUpdate ctx s) (upholds r st) st.
Proof.
  intros Hr Hok Hnm Href Hset Hl. set (n := r + Z.of_nat (size (mapOf st))) in *. assert (r <= n) as Hn by lia. apply (start_upholds n); [done..|]. intros d s0 H0 Em.
  clear Hok Hnm Href. assert (n = r + Z.of_nat (size (mapOf s0))) as En by (unfold n; by rewrite Em). clearbody n.
  apply (upholds_lift n r _ _ _ _ _ Hn H0). intros ret _. apply wp_bind, wp_gets. cbn [seqQ]. apply (upholds_lift n r _ _ _ _ _ Hn H0). intros p Hp.
  apply (upholds_lift n r _ _ _ _ _ Hn H0). intros checks _. apply (upholds_lift n r _ _ _ _ _ Hn H0). intros l1 _. apply (upholds_lift n r _ _ _ _ _ Hn H0). intros l2 _.
  apply (upholds_lift n r _ _ _ _ _ Hn H0). intros setVals _.
  apply wp_bind. eapply wp_mono; [apply (scanCapped_wp n (upTable s) d _ _ p s0); [apply H0|apply (so_at _ _ _ _ H0)|eapply (so_named _ _ _ _ H0), (so_at _ _ _ _ H0)|done..]|].
  intros [rows|er|q] s1 [[Hg1 Hm1] H1]; cbn [seqQ]; [|by split; [by eapply goes_less|]..]. destruct H1 as [Hnd Hst]. apply wp_bind. destruct s1 as [e1 T1].
  eapply wp_mono; [apply (ReferencingFKs_wp n (upTable s) e1 T1), Hg1|]. intros o s2 [[Hg2 Hm2] (refs & -> & Hrefs)]. cbn [seqQ].
  assert (updating (r + Z.of_nat (length rows)) (upTable s) d refs rows [] s2) as Hu.
  { destruct H0 as [A1 A2 A3 A4]. rewrite <- Hm1, <- Hm2 in A2, A3, A4, Hst, En. pose proof (stored_count d _ rows Hnd Hst). split; try done.
    - eapply txn_ok_less; [|apply Hg2]. lia.
    - intros d' f. rewrite Hrefs, Hm2. done.
    - by apply ref_but_nil. }
  eapply wp_mono; [|intros o s3; apply (upholds_after n r s0 s2); [by eapply goes_trans|by rewrite Hm2; unfold mapOf in *; rewrite Hm1]].
  apply wp_bind. eapply wp_mono; [by apply updateRows_moves|]. intros [[rc pg]|er|q] s3 [Hg3 H3]; cbn [seqQ]; [|by split..]. destruct H3 as [Ht3 H3].
  eapply wp_mono; [|intros o s4; apply (upholds_after r r s2 s3); done]. apply wp_bind. eapply wp_mono; [by eapply recheck_upholds|]. intros [[]|er|q] s4 H4; cbn [seqQ]; [|done..]. by apply wp_ret.
Qed.

(** ** DELETE *)

Lemma deleteRows_wp s sc ret b d rows pg r st : txn_ok r st.1 st.2 -> table_at (mapOf st) (deTable s) d -> NoDup rows -> Forall (stored d (mapOf st)) rows ->
  wp (deleteRows s sc ret b ((λ row, (pkOf d row, row)) <$> rows) pg) (λ o s', goes r st s' /\
    match o with
    | Ok pg' => less (λ n x, n = deTable s /\ x ∈ rows) (mapOf st) (mapOf s') /\ pgAffected pg' = (pgAffected pg + length rows)%nat
    | _ => is_Some ret
    end) st.
Proof.
  revert pg st. induction rows as [|row rows IH]; intros pg st Hok Hat Hnd Hst.
  { apply wp_ret. split; [by apply goes_refl|]. split; [|cbn; lia]. eapply less_iff, less_none. intros n x. split; [done|]. by intros [_ ?%elem_of_nil]. }
  apply NoDup_cons in Hnd as [Hni Hnd]. apply Forall_cons in Hst as [Hs Hst]. csimpl. cbn [deleteRows]. apply wp_bind. destruct st as [e T].
  eapply wp_mono; [by apply (TxnDelete_row r (deTable s) d row)|]. intros o s1 (-> & Hg & Hl & _). cbn [seqQ]. apply wp_bind.
  assert (wp (affect sc ret b row pg) (λ o s', quiet r (λ pg', pgAffected pg' = S (pgAffected pg)) s1 o s' /\ (is_Some ret \/ exists pg', o = Ok pg')) s1) as Ha.
  { apply wp_and; [apply affect_quiet, Hg|]. destruct ret as [rp|]; [|apply wp_ret; right; by eexists].
    eapply wp_mono; [apply (affect_quiet r), Hg|]. intros o s' _. left. by eexists. }
  eapply wp_mono; [exact Ha|]. intros o s2 [[Hk Hpg] Hret]. destruct o as [pg'|er|q]; cbn [seqQ]; [|by split; [eapply goes_trans; [exact Hg|apply Hk]|]; destruct Hret as [?|[??]]..].
  assert (less (λ n x, n = deTable s /\ x = row) (mapOf (e, T)) (mapOf s2)) as Hl2.
  { eapply less_iff; [|exact (less_trans _ _ _ _ _ Hl (proj2 Hk))]. tauto. }
  eapply wp_mono; [apply (IH pg' s2); [apply Hk|by apply (same_at _ _ _ _ (ls_tables _ _ _ Hl2))|done|]|].
  { rewrite Forall_forall in *. intros x Hx. apply (ls_rows _ _ _ Hl2 (deTable s) d x Hat). split; [by apply Hst|]. intros [_ ->]. done. }
  intros o s3 [Hg3 H3]. split; [eapply goes_trans; [exact Hg|]; eapply goes_trans; [apply Hk|done]|]. destruct o as [pg3|er|q]; [|done..]. destruct H3 as [H3 H4].
  split; [|rewrite H4, Hpg; cbn; lia]. eapply less_iff; [|exact (less_trans _ _ _ _ _ Hl2 H3)]. intros n x. cbn. rewrite elem_of_cons. naive_solver.
Qed.

(** A table no key references: nothing follows its rows. *)
Lemma unreferenced_delete m m' name hit : db_inv m -> less hit m m' -> (forall n row, hit n row -> n = name) -> (forall d f, ~ references m name false d f) ->
  less (doomed m hit) m m' /\ (ref_ok m -> ref_ok m').
Proof.
  intros Hdb Hl Hn Hno. split.
  - eapply less_iff; [|exact Hl]. intros n row. split; [apply doomed_hit|]. intros Hd. induction Hd as [n row|n prow n' crow _ IH (d & f & p & pords & vs & Href & _)]; [done|].
    rewrite (Hn n prow IH) in Href. by apply Hno in Href.
  - intros Hr n d f p pords Hat Hf Hon row vs Hs Hv. apply (same_at _ _ _ _ (ls_tables _ _ _ Hl)) in Hat. apply (fk_on_same _ _ _ _ _ _ (ls_tables _ _ _ Hl)) in Hon.
    apply (ls_rows _ _ _ Hl n d row Hat) in Hs as [Hs _]. destruct (Hr n d f p pords Hat Hf Hon row vs Hs Hv) as (prow & Hp & Hpv). exists prow. split; [|done].
    apply (ls_rows _ _ _ Hl _ p prow (on_parent _ _ _ _ _ Hon)). split; [done|]. intros Hh%Hn. destruct (table_at_wf _ n d Hdb Hat) as [En _].
    apply (Hno d f). split; [by rewrite En|done].
Qed.

(** The rows a DELETE names, the conditions evaluated in state [s1]. *)
Definition hits (s : DeleteStmt C Ret) (d : TableDesc) (b : binds) (s1 : E * Txn) (m : kvmap) (n : bytes) (row : list any) : Prop :=
  n = deTable s /\ stored d m row /\ evalPreds (deWhere s).1 b (evalCond (tableScope (deTable s) d) s1) (deWhere s).2 row = Ok triTrue.
Lemma hits_in s d b s1 m (rows : list (list any)) n row : (forall x, x ∈ rows <-> hits s d b s1 m (deTable s) x) -> n = deTable s /\ row ∈ rows <-> hits s d b s1 m n row.
Proof. intros Hin. rewrite Hin. unfold hits. tauto. Qed.
Lemma matching_wp r s d p st : txn_ok r st.1 st.2 -> table_at (mapOf st) (deTable s) d -> named d -> lits_ok (deWhere s).1 (deWhere s).2 ->
  planScan d (deTable s) (deWhere s).1 (deWhere s).2 = Ok p ->
  wp (matching ctx s d p) (λ o s', peeks r st s' /\ exists b, walkPreds (bindIn d (deTable s) (deWhere s).1) (deWhere s).2 ∅ = Ok b /\
    match o with
    | Ok found => exists rows, found = (λ row, (pkOf d row, row)) <$> rows /\ NoDup rows /\ forall row, row ∈ rows <-> hits s d b st (mapOf st) (deTable s) row
    | Err er => cancelled ctx er \/ exists row, stored d (mapOf st) row /\ evalPreds (deWhere s).1 b (evalCond (tableScope (deTable s) d) st) (deWhere s).2 row = Err er
    | Panic q => exists row, stored d (mapOf st) row /\ evalPreds (deWhere s).1 b (evalCond (tableScope (deTable s) d) st) (deWhere s).2 row = Panic q
    end) st.
Proof.
  destruct st as [e T]. intros Hok Hat Hn Hl Hp. destruct (table_at_wf _ _ d (vo_db _ _ (tk_view _ _ _ Hok)) Hat) as [_ Hwd].
  pose proof (scan_where r (deTable s) d _ _ p (evalCond (tableScope (deTable s) d) (e, T)) (λ _, true) e T Hok Hat Hn Hl Hp) as H.
  assert (forall Q, wp (collectPKs ctx (deTable s) d (deWhere s).1 p (evalCond (tableScope (deTable s) d) (e, T))) Q (e, T) -> wp (matching ctx s d p) Q (e, T)) as Hm by done. apply Hm. clear Hm.
  unfold collectPKs. apply wp_bind. eapply wp_mono; [exact H|]. clear H. intros o s' [Hpk (b & found & Hb & Hnd & Hin & H)].
  destruct o as [rows|er|q]; cbn [seqQ]; [|by split; [|exists b]..]. destruct H as (pre & -> & _ & [->|[_ ?]]); [|done].
  apply wp_lift. split; [done|]. exists b. split; [done|].
  assert (traverse (λ r0, pk ← pkValues d (rVals r0); Ok (pk, rVals r0)) (mkRow d <$> found) = Ok ((λ row, (pkOf d row, row)) <$> found)) as ->.
  { apply traverse_ok, Forall2_fmap, Forall_Forall2_diag, Forall_forall. intros row [Hs _]%Hin. cbn.
    by rewrite (pkValues_pkOf d (cw_wf d Hwd)) by (apply (stored_canon _ _ _ Hs)). }
  exists found. split_and!; [done..|]. intros row. rewrite Hin. unfold hits. naive_solver.
Qed.

(** What a DELETE of the rows [hit] has done when it ends. *)
Definition deletes (s : DeleteStmt C Ret) (d : TableDesc) (b : binds) (s1 : E * Txn) (m m' : kvmap) (o : outcome progress) : Prop :=
  match o with
  | Ok pg => less (doomed m (hits s d b s1 m)) m m' /\ (ref_ok m -> ref_ok m') /\
      exists found, NoDup found /\ (forall row, row ∈ found <-> hits s d b s1 m (deTable s) row) /\ pgAffected pg = length found
  | Err er => is_Some (deRet s) \/ cancelled ctx er \/ blocked m (hits s d b s1 m) m' \/
      exists row, stored d m row /\ evalPreds (deWhere s).1 b (evalCond (tableScope (deTable s) d) s1) (deWhere s).2 row = Err er
  | Panic q => is_Some (deRet s) \/ exists row, stored d m row /\ evalPreds (deWhere s).1 b (evalCond (tableScope (deTable s) d) s1) (deWhere s).2 row = Panic q
  end.
Lemma deleted_rest r s d b s1 m refs rows st : txn_ok r st.1 st.2 -> db_inv m -> fks_ok m -> all_named m -> table_at m (deTable s) d -> tName d = deTable s ->
  (forall d' f, (d', f) ∈ refs <-> references m (deTable s) false d' f) -> (forall row, row ∈ rows <-> hits s d b s1 m (deTable s) row) -> less (hits s d b s1 m) m (mapOf st) ->
  wp (match refs with [] => mret () | _ => fkAfterDelete ctx d refs (snd <$> ((λ row, (pkOf d row, row)) <$> rows)) end) (λ o s', goes r st s' /\
    match o with
    | Ok _ => less (doomed m (hits s d b s1 m)) m (mapOf s') /\ (ref_ok m -> ref_ok (mapOf s'))
    | Err er => cancelled ctx er \/ blocked m (hits s d b s1 m) (mapOf s')
    | Panic _ => False
    end) st.
Proof.
  intros Hok Hdb Hfk Hnm Hat Hn Hrefs Hin Hl. destruct refs as [|x rest] eqn:Eq.
  { apply wp_ret. split; [by apply goes_refl|]. apply (unreferenced_delete m _ (deTable s)); [done|done|by intros n row [-> _]|]. by intros d' f ?%Hrefs%elem_of_nil. }
  rewrite <- Eq in *. assert (snd <$> ((λ row, (pkOf d row, row)) <$> rows) = rows) as -> by (rewrite <- list_fmap_compose; apply list_fmap_id). destruct st as [e T]. rewrite <- Hn in Hat, Hrefs.
  eapply wp_mono; [apply (fkAfterDelete_wp ctx m (hits s d b s1 m) Hdb r d refs rows e T); try done|].
  - intros n row. rewrite Hn. symmetry. by apply hits_in.
  - apply Forall_forall. by intros row (_ & ? & _)%Hin.
  - intros [[]|er|q] s' [Hg H]; (split; [done|]); [done| |done]. destruct H as [?|[_ ?]]; [by left|by right].
Qed.
Lemma execDelete_wp r s d p e (T : Txn) (m := kv_map (xTx T)) : txn_ok r e T -> all_named m -> table_at m (deTable s) d -> lits_ok (deWhere s).1 (deWhere s).2 ->
  planScan d (deTable s) (deWhere s).1 (deWhere s).2 = Ok p ->
  wp (execDelete ctx s) (λ o s', goes r (e, T) s' /\ exists b s1, walkPreds (bindIn d (deTable s) (deWhere s).1) (deWhere s).2 ∅ = Ok b /\ peeks r (e, T) s1 /\
    deletes s d b s1 m (mapOf s') o) (e, T).
Proof.
  intros Hok Hnm Hat Hl Hp. pose proof (vo_db _ _ (tk_view _ _ _ Hok)) as Hdb. destruct (table_at_wf _ _ d Hdb Hat) as [Htn Hwd].
  unfold execDelete. apply wp_bind, (wp_TxnTable r); [done|]. intros [e0 T0] Hg0 Ht0 _ od Hod. assert (od = Some d) as -> by (unfold table_at, m in *; congruence). cbn [seqQ fst snd] in *.
  assert (peeks r (e, T) (e0, T0)) as Hp0 by (split; [done|unfold mapOf; cbn; by rewrite Ht0]).
  assert (exists b, walkPreds (bindIn d (deTable s) (deWhere s).1) (deWhere s).2 ∅ = Ok b) as [b0 Hb0] by (unfold planScan, planScanOrdered in Hp; apply outcome_bind_ok in Hp as (b & Hb & _); by exists b).
  apply wp_bind_lift. destruct (prepareReturning _ _) as [ret|er|q] eqn:Er; cbn [seqQ].
  2,3: split; [done|]; exists b0, (e0, T0); split_and!; [done..|]; left; unfold prepareReturning in Er; by destruct (deRet s).
  apply wp_bind, wp_gets. cbn [seqQ]. apply wp_bind_lift. rewrite Hp. cbn [seqQ]. apply wp_bind.
  eapply wp_mono; [apply (ReferencingFKs_wp r (deTable s) e0 T0), Hg0|]. intros o s1 [Hp01 (refs & -> & Hrefs)]. cbn [seqQ]. assert (peeks r (e, T) s1) as Hp1 by (by eapply peeks_trans).
  pose proof (proj2 Hp1) as Hm1. change (mapOf (e, T)) with m in Hm1. assert (kv_map (xTx T0) = m) as Hm0 by (unfold m; by rewrite Ht0). rewrite Hm0 in Hrefs.
  apply wp_bind. eapply wp_mono; [apply (matching_wp r s d p s1); [apply Hp1|by rewrite Hm1|by eapply Hnm|done..]|]. rewrite Hm1.
  intros o s2 [Hp12 (b & Hb & Ho)]. assert (peeks r (e, T) s2) as Hp2 by (by eapply peeks_trans). pose proof (proj2 Hp2) as Hm2. change (mapOf (e, T)) with m in Hm2.
  destruct o as [found|er|q]; cbn [seqQ]; [|split; [apply Hp2|]; exists b, s1; split_and!; [done..|cbn; tauto]..]. destruct Ho as (rows & -> & Hnd & Hin).
  apply (wp_mono _ (λ o' s', goes r s2 s' /\ deletes s d b s1 m (mapOf s') o')).
  2: { intros o' s' [Hg' H']. split; [exact (goes_trans r r _ s2 _ (proj1 Hp2) Hg')|]. exists b, s1. by split_and!. }
  apply wp_bind. eapply wp_mono; [apply (deleteRows_wp s _ ret _ d rows _ r s2); [apply Hp2|by rewrite Hm2|done|]|].
  { rewrite Hm2. apply Forall_forall. intros row (_ & ? & _)%Hin. done. }
  intros o s3 [Hg3 H3].
  destruct o as [pg|er|q]; cbn [seqQ]; [|split; [done|]; left; destruct (deRet s); [done|by injection Er as <-; destruct H3]..].
  apply (wp_mono _ (λ o' s', goes r s3 s' /\ deletes s d b s1 m (mapOf s') o')).
  2: { intros o' s' [Hg' H']. split; [exact (goes_trans r r _ s3 _ Hg3 Hg')|exact H']. }
  destruct H3 as [H3 Hpg]. rewrite Hm2 in H3. assert (less (hits s d b s1 m) m (mapOf s3)) as Hless by (eapply less_iff; [|exact H3]; intros n row; by apply hits_in).
  apply wp_bind. eapply wp_mono; [apply (deleted_rest r s d b s1 m refs rows s3); try done; [apply Hg3|apply (so_fks _ (vo_schema _ _ (tk_view _ _ _ Hok)))]|].
  intros o s4 [Hg4 H4]. destruct o as [[]|er|q]; cbn [seqQ]; [|by split; [|right; destruct H4; [left|right; left]]|done].
  apply wp_ret. split; [done|]. destruct H4 as [H4 H5]. split_and!; [done..|]. exists rows. by split_and!.
Qed.
Lemma execDelete_upholds s r st : txn_ok r st.1 st.2 -> all_named (mapOf st) -> ref_ok (mapOf st) -> lits_ok (deWhere s).1 (deWhere s).2 -> wp (execDelete ctx s) (upholds r st) st.
Proof.
  destruct st as [e T]. intros Hok Hnm Href Hl. destruct (resolve_total _ (deTable s) (vo_db _ _ (tk_view _ _ _ Hok))) as [od Hod].
  assert ((exists d p, od = Some d /\ planScan d (deTable s) (deWhere s).1 (deWhere s).2 = Ok p) \/ ~ (exists d p, od = Some d /\ planScan d (deTable s) (deWhere s).1 (deWhere s).2 = Ok p)) as Hcase.
  { destruct od as [d|]; [|right; by intros (? & ? & ? & _)]. destruct (planScan d (deTable s) (deWhere s).1 (deWhere s).2) as [p|er|q] eqn:Hp; [left; by exists d, p|right; intros (d' & p & [= <-] & ?); congruence..]. }
  destruct Hcase as [(d & p & -> & Hp)|Hno].
  - eapply wp_mono; [by apply (execDelete_wp r s d p e T)|]. intros o s' [Hg (b & s1 & _ & _ & Hd)]. split; [done|]. destruct o; [|done..].
    destruct Hd as (H1 & H2 & _). split; [apply (ls_tables _ _ _ H1)|by apply H2].
  - apply (start_upholds r); [lia|done..|]. intros d s0 H0 Em. apply (upholds_lift r r _ _ _ _ _ (Z.le_refl r) H0). intros ret _. apply wp_bind, wp_gets. cbn [seqQ].
    apply (upholds_lift r r _ _ _ _ _ (Z.le_refl r) H0). intros p Hp. destruct Hno. exists d, p. split; [|done].
    pose proof (so_at _ _ _ _ H0) as Ha. rewrite Em in Ha. unfold table_at, mapOf in Ha. cbn in Ha, Hod. congruence.
Qed.

(** ** TRUNCATE *)

Lemma truncated_less m m' table d restart : db_inv m -> table_at m table d -> truncated d restart m m' -> less (λ n _, n = table) m m'.
Proof.
  intros Hdb Hat Ht. destruct (truncated_step m m' table d restart Hdb Hat Ht) as [Hdb' Hst].
  destruct (rows_step_changes m m' table d _ (λ _, True) (λ _, False) Hdb Hdb' Hst) as [H1 H2].
  { intros T0 T' row _ ->. rewrite lookup_empty. naive_solver. }
  split; [done|]. intros n d1 row Hn. rewrite (H2 n d1 row Hn). tauto.
Qed.
Lemma truncateAll_wp r tables restart st : 0 <= r -> txn_ok (r + Z.of_nat (length tables)) st.1 st.2 ->
  wp (for_each (λ t, TxnTruncate t restart) tables) (λ o s', goes r st s' /\ match o with Ok _ => less (λ n _, n ∈ tables) (mapOf st) (mapOf s') | _ => True end) st.
Proof.
  intros Hr. revert st. induction tables as [|t tables IH]; intros [e T] Hok; cbn [for_each length] in *.
  { rewrite Z.add_0_r in Hok. apply wp_ret. split; [by apply goes_refl|]. eapply less_iff, less_none. intros n x. split; [done|]. by intros ?%elem_of_nil. }
  apply wp_bind, (wp_TxnTruncate (r + Z.of_nat (length tables))); [lia|by replace (r + Z.of_nat (length tables) + 1) with (r + Z.of_nat (S (length tables))) by lia| |].
  - intros d s1 Hg Hat Htr. cbn [seqQ]. pose proof (truncated_less _ _ _ _ _ (vo_db _ _ (tk_view _ _ _ Hok)) Hat Htr) as Hl.
    eapply wp_mono; [apply IH, Hg|]. intros o s2 [Hg2 H2]. split; [by eapply goes_trans|]. destruct o; [|done..].
    eapply less_iff; [|exact (less_trans _ _ _ _ _ Hl H2)]. intros n x. cbn. by rewrite elem_of_cons.
  - intros er s1 Hg. cbn [seqQ]. split; [|done]. eapply goes_less; [|exact Hg]. lia.
Qed.
(** Tables emptied together with those that reference them. *)
Lemma ref_ok_truncate m m' (tables : list bytes) : db_inv m -> less (λ n _, n ∈ tables) m m' -> (forall t d f, t ∈ tables -> references m t false d f -> tName d ∈ tables) -> ref_ok m -> ref_ok m'.
Proof.
  intros Hdb Hl Hc Hr n d f p pords Hat Hf Hon row vs Hs Hv. apply (same_at _ _ _ _ (ls_tables _ _ _ Hl)) in Hat. apply (fk_on_same _ _ _ _ _ _ (ls_tables _ _ _ Hl)) in Hon.
  apply (ls_rows _ _ _ Hl n d row Hat) in Hs as [Hs Hnt]. destruct (Hr n d f p pords Hat Hf Hon row vs Hs Hv) as (prow & Hp & Hpv). exists prow. split; [|done].
  apply (ls_rows _ _ _ Hl _ p prow (on_parent _ _ _ _ _ Hon)). split; [done|]. intros Ht. destruct (table_at_wf _ n d Hdb Hat) as [En _]. apply Hnt.
  rewrite <- En. apply (Hc _ d f Ht). split; [by rewrite En|done].
Qed.
Lemma execTruncate_upholds s r st : 0 <= r -> txn_ok (r + Z.of_nat (length (trTables s))) st.1 st.2 -> ref_ok (mapOf st) -> wp (execTruncate s) (upholds r st) st.
Proof.
  intros Hr Hok Href. unfold execTruncate. set (n := r + Z.of_nat (length (trTables s))) in *. apply wp_bind.
  eapply wp_mono; [apply (each_peeks n _ _ (λ t, forall d f, references (mapOf st) t false d f -> tName d ∈ trTables s) (λ _, True)); [done|]|].
  - intros t [e T] Ht [Hg Hm]. apply wp_bind. eapply wp_mono; [apply (ReferencingFKs_wp n t e T), Hg|]. intros o s2 [Hp2 (refs & -> & Hrefs)]. cbn [seqQ].
    unfold mapOf in Hm at 1. cbn [snd] in Hm. rewrite Hm in Hrefs. destruct (forallb _ _) eqn:Ea; [|by apply wp_fail]. apply wp_ret. split; [done|]. intros d f Hf%Hrefs.
    rewrite forallb_forall in Ea. specialize (Ea (d, f)). rewrite bool_decide_eq_true in Ea. by apply Ea, list_elem_of_In.
  - intros [[]|er|q] s1 [[Hg Hm] H]; cbn [seqQ]; [|by split; [eapply goes_less; [|exact Hg]; lia|]|done].
    eapply wp_mono; [apply truncateAll_wp; [done|apply Hg]|]. rewrite Hm. intros o s2 [Hg2 H2]. split; [by eapply goes_trans|]. destruct o; [|done..].
    split; [apply (ls_tables _ _ _ H2)|]. eapply ref_ok_truncate; [apply (vo_db _ _ (tk_view _ _ _ Hok))|exact H2|by intros t d f Ht; apply H|done].
Qed.
End statements.
