(* ===== verification/SqlRefs.v ===== *)
(** * Referential integrity

    The row statements of [SqlDml] as one type, the theorems that they keep
    every reference and that a DELETE removes what it is to remove, a checker
    that decides whether the references of a store hold, and an example with
    keys that cascade through two tables. *)
From S2P Require Import Prelude GoVal GoStr GoFloat KV Savepoint Tuple Json Time Jsonb Types Catalog Desc Rows Pairs Index Table Seq Upkeep Dml Relation Engine Store MemDB Database Ddl DdlColumn DdlIndex Fk Schema Handler SeqObj View RowStmt Statements Run Txn TxnOk WriteTxn SqlVal Lexer SqlPlan SqlPlanOk SqlPlanned SqlFk SqlDml SqlFkOk SqlCascade SqlDmlOk SqlStmtOk.

Local Open Scope Z_scope.

Inductive rowStmt {C Ex Ret : Type} :=
  | RInsert (s : InsertStmt C Ex Ret)
  | RUpdate (s : UpdateStmt C Ex Ret)
  | RDelete (s : DeleteStmt C Ret)
  | RTruncate (s : TruncateStmt).
#[global] Arguments rowStmt _ _ _ : clear implicits.

Section refs.
Context {E : Type} {eng : EngineOps E} {eng_laws : EngineLaws E} {cs : CatState E} {cat_laws : CatLaws E} {te : TxnEngine E} {te_laws : TxnEngineLaws E} {rl : RowLimit E}.
Context {tx sp : Type} {kv : KV tx} {kv_laws : KVLaws tx} {sv : KVSave tx sp} {sv_laws : KVSaveLaws tx sp} {sp_eq : EqDecision sp} {re : Regexp}.
Abbreviation Txn := (Txn tx sp).
Context {C Ex Ret : Type} {ev : Evaluator (E * Txn) C Ex Ret} {ev_laws : EvaluatorLaws C Ex Ret ev}.
Context (ctx : E * Txn -> nat -> option error) (now : Z).

(** TRUNCATE reports no count. *)
Definition execRows (st : rowStmt C Ex Ret) : M (E * Txn) progress :=
  match st with
  | RInsert s => execInsert ctx now s
  | RUpdate s => execUpdate ctx s
  | RDelete s => execDelete ctx s
  | RTruncate s => _ ← execTruncate s; mret noProgress
  end.
(** The literals are Go values, and those a plan may seek are encodable. An
    INSERT has no ON CONFLICT DO UPDATE. *)
Definition rowStmt_ok (st : rowStmt C Ex Ret) : Prop :=
  match st with
  | RInsert s => Forall (Forall value_ok) (inRows s) /\ forall oc, inConflict s = Some oc -> ocUpdate oc = false
  | RUpdate s => Forall any_ok (upSet s).*2 /\ lits_ok (upWhere s).1 (upWhere s).2
  | RDelete s => lits_ok (deWhere s).1 (deWhere s).2
  | RTruncate _ => True
  end.
(** The writes that may need room for identities or counters. *)
Definition rowStmt_cost (st : rowStmt C Ex Ret) (m : kvmap) : Z :=
  match st with
  | RInsert s => Z.of_nat (length (inRows s))
  | RUpdate _ => Z.of_nat (size m)
  | RDelete _ => 0
  | RTruncate s => Z.of_nat (length (trTables s))
  end.

(** C5: An INSERT without ON CONFLICT DO UPDATE, an UPDATE, a DELETE or a
    TRUNCATE that returns leaves every foreign key of the database holding,
    if every one held before: each row with no NULL among its referencing
    columns has a row with those values in the referenced table. Rows that
    reference one another inside the statement, keys of a table on itself,
    cascades and DO NOTHING are included. No table definition changes, and
    the transaction stays well formed whatever the outcome. *)
Theorem statements_keep_references r st s : 0 <= r -> txn_ok (r + rowStmt_cost st (mapOf s)) s.1 s.2 -> all_named (mapOf s) -> rowStmt_ok st -> ref_ok (mapOf s) ->
  wp (execRows st) (λ o s', goes r s s' /\ match o with Ok _ => same_tables (mapOf s) (mapOf s') /\ ref_ok (mapOf s') | _ => True end) s.
Proof.
  intros Hr Hok Hnm Hst Href. destruct st as [st|st|st|st]; cbn [execRows rowStmt_ok rowStmt_cost] in *.
  - destruct Hst. by apply (execInsert_upholds ctx now st r).
  - destruct Hst. by apply (execUpdate_upholds ctx st r).
  - rewrite Z.add_0_r in Hok. by apply (execDelete_upholds ctx st r).
  - apply wp_bind. eapply wp_mono; [by apply (execTruncate_upholds ctx st r)|]. intros [[]|er|q] s' H; cbn [seqQ]; [by apply wp_ret|done..].
Qed.

End refs.

(** ** Deciding whether references hold *)

Definition tablesOf (m : kvmap) : list TableDesc :=
  omap (λ kv, n ← descKeyName kv.1; match resolve m n with Ok od => od | _ => None end) (map_to_list m).
Definition rowVals (m : kvmap) (d : TableDesc) : list (list any) := (rows_of d m).*2.
Definition refOrds (p : TableDesc) (f : FKDesc) : list nat := (λ name, default 0%nat (ColIndex p name)) <$> fkRefCols f.
Definition fkChecked (m : kvmap) (d : TableDesc) (f : FKDesc) : bool :=
  match resolve m (fkRefTable f) with
  | Ok (Some p) =>
      forallb (λ row, match refTuple row (fkCols f) with
                      | None => true
                      | Some vs => existsb (λ prow, bool_decide (refTuple prow (refOrds p f) = Some vs)) (rowVals m p)
                      end) (rowVals m d)
  | _ => true
  end.
Definition refsChecked (m : kvmap) : bool := forallb (λ d, forallb (fkChecked m d) (tForeignKeys d)) (tablesOf m).
Definition namesChecked (m : kvmap) : bool := forallb (λ d, forallb (λ x, bool_decide (ixName x <> [])) (tIndexes d)) (tablesOf m).

Lemma tablesOf_at m n d : table_at m n d -> d ∈ tablesOf m.
Proof.
  intros Hat. unfold tablesOf. apply list_elem_of_omap. assert (is_Some (m !! descKey n)) as [v Hv].
  { unfold table_at, resolve in Hat. destruct (m !! descKey n); [by eexists|done]. }
  exists (descKey n, v). split; [by apply elem_of_map_to_list|]. cbn. rewrite descKeyName_descKey. cbn. unfold table_at in Hat. by rewrite Hat.
Qed.
Lemma rowVals_stored m n d row : db_inv m -> table_at m n d -> row ∈ rowVals m d <-> stored d m row.
Proof.
  intros Hdb Hat. destruct (rows_of_abstracts d m (to_inv _ _ (db_table m Hdb n d Hat))) as [Ha Hnd]. rewrite (abs_stored d m _ Ha). unfold rowVals. rewrite list_elem_of_fmap. split.
  - intros ([pk row'] & -> & Hin). cbn. assert (list_to_map (M := table) (rows_of d m) !! pk = Some row') as Hl by (by apply elem_of_list_to_map). by rewrite <- (abs_key d m _ Ha _ _ Hl).
  - intros Hl. exists (pkOf d row, row). split; [done|]. by apply elem_of_list_to_map in Hl.
Qed.
Lemma refsChecked_ok m : db_inv m -> refsChecked m = true -> ref_ok m.
Proof.
  intros Hdb Hc n d f p pords Hat Hf Hon row vs Hs Hv. unfold refsChecked in Hc. rewrite forallb_forall in Hc. specialize (Hc d). rewrite <- list_elem_of_In, forallb_forall in Hc.
  specialize (Hc (tablesOf_at m n d Hat) f). rewrite <- list_elem_of_In in Hc. specialize (Hc Hf). unfold fkChecked in Hc. pose proof (on_parent _ _ _ _ _ Hon) as Hp. unfold table_at in Hp. rewrite Hp in Hc.
  rewrite forallb_forall in Hc. specialize (Hc row). rewrite <- list_elem_of_In, (rowVals_stored m n d row Hdb Hat), Hv in Hc. apply Hc, existsb_exists in Hs as (prow & Hin & Hb).
  assert (refOrds p f = pords) as Eo.
  { unfold refOrds. rewrite <- (list_fmap_id pords). change (λ name, default 0%nat (ColIndex p name)) with (default 0%nat ∘ ColIndex p). rewrite list_fmap_compose, (on_cols _ _ _ _ _ Hon), <- list_fmap_compose. done. }
  rewrite Eo, bool_decide_eq_true in Hb. exists prow. split; [|done]. apply list_elem_of_In in Hin. by apply (rowVals_stored m (fkRefTable f) p prow Hdb Hp).
Qed.
Lemma namesChecked_ok m : namesChecked m = true -> all_named m.
Proof.
  intros Hc n d Hat. unfold namesChecked in Hc. rewrite forallb_forall in Hc. specialize (Hc d). rewrite <- list_elem_of_In, forallb_forall in Hc.
  apply Forall_forall. intros x Hx. specialize (Hc (tablesOf_at m n d Hat) x). rewrite <- list_elem_of_In, bool_decide_eq_true in Hc. by apply Hc.
Qed.

(** ** An example *)

Definition exFkTx : SaveTx := save_begin exFkState.2.
Lemma exFk_view k : 0 <= k < 900 -> cache_ok (cat exFkState.1) /\ view_ok k (kv_map exFkTx).
Proof. intros Hk. destruct (exFk_room k Hk) as [H1 H2 H3 H4 H5]. split; [exact H1|]. split; [exact H3|exact H4|exact H5]. Qed.
Lemma exFk_ok k : 0 <= k < 900 -> txn_ok k exFkState.1 (newTxn exFkTx : Txn SaveTx nat).
Proof. intros Hk. destruct (exFk_view k Hk) as [H1 H2]. apply newTxn_ok; [lia|exact H1|reflexivity|exact H2|reflexivity]. Qed.
Lemma exFk_named : all_named (kv_map exFkTx).
Proof. apply namesChecked_ok. vm_compute. reflexivity. Qed.
Lemma exFk_refs : ref_ok (kv_map exFkTx).
Proof. apply refsChecked_ok; [apply (vo_db _ _ (tk_view _ _ _ (exFk_ok 0 ltac:(lia))))|]. vm_compute. reflexivity. Qed.

(** Expressions are integers, RETURNING is always [RETURNING *]. *)
#[export] Instance exEvaluator : Evaluator (MemEngine * Txn SaveTx nat) False Z unit := {|
  evalEx _ z _ := mret (AInt KInt64 (int64 z));
  evalTruth _ _ _ := mret triTrue;
  evalCond _ _ (c : False) _ := match c with end;
  parseCheckExpr _ := Err errSyntaxAt;
  projectReturning sc _ := Ok (mkRetProj Z ((λ o, mkProj (Some o) ANil) <$> seq 0 (foldr (λ t n, length (tColumns (scDesc t)) + n)%nat 0%nat sc)) []);
|}.
#[export] Instance exEvaluator_laws : EvaluatorLaws False Z unit exEvaluator.
Proof. split; intros r sc x row s Hok; apply quiet_ret; [done|apply int64_range|done|done]. Qed.
#[export] Instance exRowLimit : RowLimit MemEngine := {| e_maxResultRows _ := 0 |}.
#[local] Existing Instance exNoRegexp.
Definition exNever (s : MemEngine * Txn SaveTx nat) (i : nat) : option error := None.
Definition exFkStart : MemEngine * Txn SaveTx nat := (exFkState.1, newTxn exFkTx).
Definition exEq (col : bytes) (z : Z) : heap * BoolExpr False := (λ _, mkPred (mkColRef [] col) OpEQ (AInt KInt64 z) None, BAnd [BPred 0]).
Lemma exEq_lits col z : int64_ok z -> lits_ok (exEq col z).1 (exEq col z).2.
Proof. intros Hz q. cbn. rewrite list_elem_of_singleton. intros ->. split; [exact Hz|exact I]. Qed.

(** The tables [p], [c], [g] and [k] of a state. *)
Definition exRows (s : MemEngine * Txn SaveTx nat) : list (list (list any)) :=
  (λ n, match resolve (mapOf s) n with Ok (Some d) => rowVals (mapOf s) d | _ => [] end) <$> [go "p"; go "c"; go "g"; go "k"].
Definition exRun (st : rowStmt False Z unit) : outcome progress * list (list (list any)) := let '(o, s') := execRows exNever 0 st exFkStart in (o, exRows s').
Abbreviation int z := (AInt KInt64 z).

(** [DELETE FROM p WHERE id = 2 RETURNING *] takes a row of each of [c] and [g]. *)
Example exDelete_cascades : exRun (RDelete (mkDeleteStmt False unit (go "p") (exEq (go "id") 2) (Some tt))) =
  (Ok (mkProgress [[int 2; AString (go "b")]] 1 ∅), [[[int 1; AString (go "a")]]; [[int 7; int 1]]; []; [[int 3; int 1]]]).
Proof. vm_compute. reflexivity. Qed.
(** Row 1 of [p] is referenced through [k]. *)
Example exDelete_blocked : (exRun (RDelete (mkDeleteStmt False unit (go "p") (exEq (go "id") 1) None))).1 = Err (errReferenced (go "p") (go "k_fk") (go "k")).
Proof. vm_compute. reflexivity. Qed.
(** [UPDATE p SET id = 4 WHERE id = 2]: [c] still has a 2. *)
Example exUpdate_blocked : (exRun (RUpdate (mkUpdateStmt False Z unit (go "p") [] [(go "id", 4)] (exEq (go "id") 2) None))).1 = Err (errReferenced (go "p") (go "c_fk") (go "c")).
Proof. vm_compute. reflexivity. Qed.
(** [INSERT INTO g VALUES (6, 9)]: [c] has no 9. *)
Example exInsert_blocked : (exRun (RInsert (mkInsertStmt False Z unit (go "g") None [[VVal (int 6); VVal (int 9)]] None None))).1 = Err (errFKViolated (go "g") (go "g_fk")).
Proof. vm_compute. reflexivity. Qed.

Definition exMove : rowStmt False Z unit := RUpdate (mkUpdateStmt False Z unit (go "c") [] [(go "p_id", 2)] (exEq (go "id") 7) None).
Example exMove_run : exRun exMove =
  (Ok (mkProgress [] 1 ∅), [[[int 1; AString (go "a")]; [int 2; AString (go "b")]]; [[int 7; int 2]; [int 8; int 2]]; [[int 5; int 8]]; [[int 3; int 1]]]).
Proof. vm_compute. reflexivity. Qed.
Lemma statements_keep_references_witness : wp (execRows exNever 0 exMove) (λ o s', match o with Ok _ => ref_ok (mapOf s') | _ => True end) exFkStart.
Proof.
  assert (0 + rowStmt_cost exMove (mapOf exFkStart) < 900) as Hlt by (vm_compute; reflexivity).
  assert (0 <= 0 + rowStmt_cost exMove (mapOf exFkStart)) as Hge by (vm_compute; discriminate).
  eapply wp_mono; [apply (statements_keep_references exNever 0 0 exMove exFkStart ltac:(lia) (exFk_ok _ (Logic.conj Hge Hlt)) exFk_named)|].
  - split; [constructor|]. apply exEq_lits. vm_compute. split; [discriminate|reflexivity].
  - exact exFk_refs.
  - intros o s' [_ H]. destruct o; [apply H|exact I|exact I].
Defined.

Definition exDelete : DeleteStmt False unit := mkDeleteStmt False unit (go "p") (exEq (go "id") 2) None.
Definition exFkP : TableDesc := match resolve (kv_map exFkTx) (go "p") with Ok (Some d) => d | _ => mkTable 0 0 [] [] [] [] [] [] 0 None end.
Lemma exFkP_at : table_at (kv_map exFkTx) (go "p") exFkP.
Proof. vm_compute. reflexivity. Qed.
Definition exDeletePlan : plan False := match planScan exFkP (go "p") (exEq (go "id") 2).1 (exEq (go "id") 2).2 with Ok p => p | _ => mkPlan _ exFkP None [] [] [] false exWhere ∅ [] end.
Lemma exDelete_planned : planScan exFkP (go "p") (exEq (go "id") 2).1 (exEq (go "id") 2).2 = Ok exDeletePlan.
Proof. unfold exDeletePlan. vm_compute. reflexivity. Qed.

(** ** ON CONFLICT DO UPDATE *)

(** No entry of the store reads as a row of [p] with these values. *)
Definition noParent (m : kvmap) (p : TableDesc) (pords : list nat) (vs : list any) : bool :=
  forallb (λ kv, match decodeRow p kv.1 kv.2 with Ok r => negb (bool_decide (refTuple (rVals r) pords = Some vs)) | _ => true end) (map_to_list m).
Lemma noParent_dangles m n d f p pords row vs : table_at m n d -> f ∈ tForeignKeys d -> fk_on m d f p pords -> stored d m row -> refTuple row (fkCols f) = Some vs ->
  noParent m p pords vs = true -> ~ ref_ok m.
Proof.
  intros Hat Hf Hon Hs Hv Hno Hr. destruct (Hr n d f p pords Hat Hf Hon row vs Hs Hv) as (prow & (_ & v & Hl & Hd) & Hpv). unfold noParent in Hno. rewrite forallb_forall in Hno.
  specialize (Hno (row_key p prow, v)). rewrite <- list_elem_of_In, elem_of_map_to_list in Hno. specialize (Hno Hl). cbn [fst snd] in Hno. rewrite Hd in Hno. cbn [rVals] in Hno.
  by rewrite bool_decide_true in Hno.
Qed.

(** [INSERT INTO p VALUES (1, 'z') ON CONFLICT (id) DO UPDATE SET id = 9] *)
Definition exUpsert : InsertStmt False Z unit :=
  mkInsertStmt False Z unit (go "p") None [[VVal (int 1); VVal (AString (go "z"))]]
    (Some (mkOnConflict False Z (Some [go "id"]) true [] [(go "id", 9)] (λ _, mkPred (mkColRef [] []) OpEQ ANil None, BAnd []))) None.
Definition exUpserted : outcome progress * (MemEngine * Txn SaveTx nat) := execInsert exNever 0 exUpsert exFkStart.
Example exUpsert_rows : exRows exUpserted.2 = [[[int 2; AString (go "b")]; [int 9; AString (go "a")]]; [[int 7; int 1]; [int 8; int 2]]; [[int 5; int 8]]; [[int 3; int 1]]].
Proof. vm_compute. reflexivity. Qed.
Definition exFkK : TableDesc := match resolve (kv_map exFkTx) (go "k") with Ok (Some d) => d | _ => exFkP end.
Lemma exFkK_row : stored exFkK (kv_map exFkTx) [int 3; int 1].
Proof.
  apply (rowVals_stored (kv_map exFkTx) (go "k") exFkK); [apply (vo_db _ _ (tk_view _ _ _ (exFk_ok 0 ltac:(lia))))|vm_compute; reflexivity|].
  apply (bool_decide_unpack _). vm_compute. exact I.
Qed.
Lemma exUpserted_row : stored exFkK (mapOf exUpserted.2) [int 3; int 1].
Proof.
  split; [exact (proj1 exFkK_row)|]. exists (default [] (mapOf exUpserted.2 !! row_key exFkK [int 3; int 1])). split; vm_compute; reflexivity.
Qed.

(** C40: ON CONFLICT DO UPDATE does not keep references. On a store whose
    references all hold, an INSERT whose DO UPDATE changes the key of a
    referenced row succeeds, and the row of [k] that referenced it is left
    without a parent: the statement checks the references of the row it
    writes but, unlike UPDATE, not those to the row it replaced. *)
Theorem upsert_leaves_dangling_references : ref_ok (mapOf exFkStart) /\ (pgAffected <$> (execInsert exNever 0 exUpsert exFkStart).1) = Ok 1%nat /\
  ~ ref_ok (mapOf (execInsert exNever 0 exUpsert exFkStart).2).
Proof.
  split; [exact exFk_refs|]. split; [vm_compute; reflexivity|]. fold exUpserted.
  apply (noParent_dangles (mapOf exUpserted.2) (go "k") exFkK (mkFK (go "k_fk") [1%nat] (go "p") [go "id"] []) exFkP [0%nat] [int 3; int 1] [int 1]).
  - vm_compute. reflexivity.
  - apply (bool_decide_unpack _). vm_compute. exact I.
  - split; [vm_compute; reflexivity..|]. constructor; [|constructor].
    exists (default (mkColumn [] TInt 0 false false [] 0) (tColumns exFkK !! 1%nat)), (default (mkColumn [] TInt 0 false false [] 0) (tColumns exFkP !! 0%nat)). split_and!; vm_compute; reflexivity.
  - exact exUpserted_row.
  - reflexivity.
  - vm_compute. reflexivity.
Qed.
